(* ===== verification/_CoqProject ===== *)
-Q . S2P
Prelude.v
DebVersion.v
DebResolver.v
DebResolverClosure.v
DebResolverOrder.v
DebResolverPlan.v
DebResolverSound.v
Spdx.v
SpdxProofs.v
Policy.v
AuditCore.v
AuditChain.v
AuditLog.v
AuditQueue.v
RustPath.v
Validation.v
FastStatus.v
History.v
ArtifactInspector.v
AurDeps.v
AptSources.v
DebPreflight.v
SearchIndex.v
SearchIndexProofs.v
Deb822.v
Deb822Proofs.v
DebIndex.v
DebIndexProofs.v
DpkgStatus.v
DpkgStatusProofs.v
DebRemoval.v
DebRemovalProofs.v
ParallelBuild.v
ParallelBuildProofs.v
FaultProg.v
DatabaseCommit.v
DatabaseCommitProofs.v
RuntimeVersions.v
RuntimeStore.v
RuntimeStoreProofs.v
PacmanConf.v
PacmanConfProofs.v
PacmanLocal.v
PacmanLocalProofs.v
EnvFingerprint.v
EnvFingerprintProofs.v
DaemonHandlers.v
DaemonHandlersProofs.v
DaemonProtocol.v
DebExtract.v
DebExtractProofs.v
DebDpkg.v
DebDpkgProofs.v
Slsa.v
SlsaProofs.v
Pkgbuild.v
PkgbuildProofs.v
PkgbuildPrint.v
AurReview.v
AurReviewProofs.v
Artifact.v
ArtifactProofs.v
AurAuthorize.v
AurAuthorizeProofs.v
AurBuild.v
AurBuildProofs.v
MiseEnv.v
MiseConfig.v
MiseTasks.v
MiseTasksProofs.v
MiseEnvProofs.v
Dnf.v
DnfProofs.v
DnfInventory.v
DnfInventoryProofs.v
DnfManager.v
DnfManagerProofs.v
