(* ===== verification/Prelude.v ===== *)
(** * Verification of OMG, a package manager front end

    OMG (the Rust crate under src/src) plans, checks and records package
    operations for several distributions. A request passes through input
    validation, a resolver computes a plan, the security policy admits or
    refuses it, a backend executes it, and the audit log and the transaction
    history record it; AUR packages are inspected after they are built and
    before they are installed as root. This library models those decision and
    record-keeping components, shallowly and executably, and proves what the
    rest of the program relies on.

    ** Files and sources

    - [Prelude]: Rust's [Result], strings (lists of Unicode scalar values with
      their UTF-8 encoding), integer parsing and 64-bit arithmetic, the
      shared lemmas, tactics ([res_inv], [to_prop], [ev_ch]) and hint bases.
    - [DebVersion]: package_managers/types.rs, Debian version comparison
      ([compare_deb_versions], [hash_deb_version], the [DebVersion] newtype).
    - [DebResolver] and [DebResolverClosure], [DebResolverOrder],
      [DebResolverPlan], [DebResolverSound]:
      package_managers/debian_db/resolver.rs, with the package records of
      db.rs. The state is [DependencyResolver]; hash tables are [gmap], and the
      order in which the hash set of selected packages is enumerated is an
      argument of [resolve]. The first file holds the definitions, the others
      the proofs on the closure, the ordering, the plan and the whole.
    - [Spdx], [SpdxProofs]: the license expressions of core/security/policy.rs:
      tokenizer, recursive-descent parser, allowlist, combination of entries,
      advisory classification.
    - [Policy]: the rest of core/security/policy.rs: grades, package checks,
      prepared transactions, loading, and the hand-over of the policy to an
      elevated process.
    - [AuditCore], [AuditChain], [AuditLog], [AuditQueue]: core/security/audit.rs.
      [AuditDir] is the directory of the log (log, archives, quarantine,
      incompleteness marker); operations run in the monad [AuditM] and take a
      fault function that makes any file operation fail. [AuditQueue] is the
      global logger, the bounded channel and its writer thread as a step
      relation, [queue_step], over all interleavings.
    - [RustPath]: components of paths as std::path splits them.
    - [Validation]: core/security/validation.rs.
    - [FastStatus]: core/fast_status.rs, the binary status file.
    - [History]: core/history.rs, live log and archive of transactions, also
      with injected failures.
    - [ArtifactInspector]: package_managers/aur/artifact_inspector.rs, with the
      size budgets of runtimes/common.rs.
    - [AurDeps]: package_managers/aur_deps.rs, the dependency plan of AUR
      packages, with the name checks of aur/utils.rs.
    - [AptSources]: package_managers/debian_db/sources.rs, one-line and deb822
      repository descriptions.
    - [DebPreflight]: package_managers/debian_db/validation.rs, disk space and
      digests before a transaction.
    - [Deb822], [DebIndex] (with [Deb822Proofs], [DebIndexProofs]): the control
      files and the package index of package_managers/debian_db/db.rs. The
      tables from names to positions are [gmap]s, as in the source.
    - [DpkgStatus], [DpkgStatusProofs]: the readers of the dpkg status file in
      db.rs: inventory, marks, dependencies, sizes, updates, orphans.
    - [DebRemoval], [DebRemovalProofs]: planning a removal and rewriting the
      status file, in package_managers/debian_db/transaction.rs.
    - [ParallelBuild], [ParallelBuildProofs]: package_managers/aur/parallel_build.rs.
      The concurrent execution of a wave is the step relation [level_step]
      over [LevelConfig], in which running builds complete in any order with
      any outcome.
    - [SearchIndex], [SearchIndexProofs]: daemon/index.rs, the index of the
      daemon, with the ranking of core/packages/search.rs and the completion
      of core/completion.rs.
    - [FaultProg]: the monad of the file-system components below, in which
      every system call may fail or stop half way, as an oracle decides.
    - [DatabaseCommit], [DatabaseCommitProofs]: the publication of downloaded
      databases in package_managers/parallel_sync.rs: backups, renames,
      roll-back, over an explicit file system.
    - [RuntimeVersions]: versions of language runtimes in runtimes/common.rs:
      comparison, partial requests, digests.
    - [RuntimeStore], [RuntimeStoreProofs]: the directory of installed runtime
      versions in the same file: staged installation, activation through the
      [current] link, removal.
    - [PacmanConf], [PacmanConfProofs]: core/pacman_conf.rs with the mirror
      URLs of parallel_sync.rs.
    - [PacmanLocal], [PacmanLocalProofs]: package_managers/pacman_db/db.rs: the
      local database, dependency health, counts, pending updates.
    - [EnvFingerprint], [EnvFingerprintProofs]: core/env/fingerprint.rs and
      core/env/team.rs: captured environments, lock files, drift, team status.
    - [DaemonHandlers], [DaemonHandlersProofs]: daemon/handlers.rs, cache.rs,
      status_policy.rs, the status file of db.rs and the background worker of
      server.rs. Requests are tasks that advance by atomic steps, one per access
      to a sub-cache, the status file or the index; the relation [step]
      interleaves them with each other, with timeouts and with the worker.
    - [DaemonProtocol]: daemon/protocol.rs, the connection loop of server.rs and
      the client's round trip in core/client.rs, down to the bytes of frames.
    - [DebExtract], [DebExtractProofs]: unpacking the data archive of a package
      and rolling it back, in debian_db/transaction.rs, over a file system with
      symbolic links resolved as the kernel does.
    - [DebDpkg], [DebDpkgProofs]: status entries, removal marks, file lists and
      the marker of a running transaction, in the same file.
    - [Slsa], [SlsaProofs]: core/security/slsa.rs: Rekor log entries, Fulcio
      certificate chains and the verdict on an artifact.
    - [Pkgbuild], [PkgbuildProofs], [PkgbuildPrint]: package_managers/pkgbuild.rs,
      the metadata parser: lines, functions, arrays, the trie of variables and
      their expansion; the printer is there to state the round trip.
    - The AUR client, package_managers/aur/client.rs, in four steps, each with
      its proofs: [AurReview], the captured source of a package, its digest and
      the review; [Artifact], sealed copies of archives and their hand-over to
      the process that installs them (core/security/artifact.rs);
      [AurAuthorize], the comparison of built archives with the review, the
      second build of high-risk packages with its cache, the discovery of
      outputs and the approval of privileges (with aur/approval.rs and
      core/archive.rs); [AurBuild], whole requests with the builds of their
      AUR dependencies.
    - [MiseEnv], [MiseConfig], [MiseEnvProofs]: the environment of a project,
      config/mise_env.rs and config/mise_config.rs: declarations, files,
      templates, the resolver with its table of positions, the chain of
      configuration files, and its application to a command in
      core/task_runner.rs.
    - [MiseTasks], [MiseTasksProofs]: config/mise_tasks.rs, declared tasks, the
      planner with its explicit stack, and the execution of a plan.
    - The Fedora backend, package_managers/dnf.rs and dnf_advisory.rs, in three
      steps, each with its proofs: [Dnf], RPM headers as bytes, rows of queries,
      selectors, the journal of dnf and removal plans; [DnfInventory], the
      observation of the RPM database and the snapshot kept of it, with a clock
      that every read advances and a database that may change in between;
      [DnfManager], the commands that are run, listings and the security audit,
      over a record [Host] of arbitrary answers.

    ** Interfaces

    Code that is not part of the repository appears as operations of a class
    and the theorems hold for every instance: [Codecs] (TOML, JSON and hex for
    policies), [VulnerabilitySource], [AuditCodec] with [AuditCodecLaws]
    (SHA-256, JSON of audit entries), [ArchiveCodec] (decompression, tar,
    SHA-256), [Sigstore] (X.509, signatures, JSON and base64 of log entries),
    [JournalCodec] (JSON of the transaction marker), [Lockfile] with [LockfileLaws] (TOML and SHA-256 of lock files),
    [SystemNames] (file descriptors and temporary names), [SrcinfoParser] (the
    architectures of an alpm source), [Outside] (git, network, makepkg, libalpm
    and terminal during a build, over any state of the world),
    [MiseWorld] with [MiseWorldLaws] (files, shell, TOML and JSON, enumeration
    of hash tables), [Wire] with [WireLaws] and [FrameCodec] with [FrameCodecLaws] (bitcode
    serialization and length-delimited framing). The alpm types, the iteration
    order of the variables of a PKGBUILD, path
    canonicalization and the search scores of the fuzzy matcher are section
    variables. Answers of the operating system are arguments ([PolicyEnv],
    [ArchiveFacts], fault functions). Every theorem that assumes a law has a
    witness at a concrete instance that satisfies it.

    ** Theorems

    - Resolver: [resolve] terminates and succeeds exactly when what the
      selection pulls in is available and satisfiable, stated on the packages
      and their dependencies; its plan leaves the dependencies satisfied, changes
      only what it says, lists dependencies first except on cycles, sums sizes
      exactly and does not depend on hash order. One theorem shows the
      accepted plan that a package installed above its candidate invalidates.
    - Versions: the comparison is a total preorder compatible with the hash;
      digit runs compare by value; epochs are 64 bits wide.
    - Licenses: combined entries are enforced one by one when each is an
      expression of its own, and a counterexample when one is not; bounded
      recursion; assessments without review are justified.
    - Policy: exact characterisation of [check_package]; prepared plans need
      evidence; the inherited policy is the trusted one; the hand-over round
      trip.
    - Audit: injective preimages, tamper evidence up to collisions, equivalence
      of [verify_integrity] with the chain specification, appends extend the
      chain, rotate exactly a full log and never lose bytes, queued events are accounted for, a drain is
      a barrier, recovery keeps history.
    - History, status file: atomicity under every failure, exact round trip.
    - Provenance: an artifact is verified exactly when a signed log entry attests
      it for the expected signer; the signed text determines the entry.
    - Validation, inspector: accepted names, paths, members and links stay
      inside; the inspection report is complete; limits hold.
    - Apt sources, preflight, AUR plan: expansion of stanzas, digests are
      required, dependencies come first and cycles are reported.
    - Debian index: an answer is the best entry of its name, by architecture,
      component and version in this order; an index rebuilt
      from written Packages files contains what was written.
    - dpkg status: the inventory is complete or refused, updates are newest,
      orphans are the unreachable automatic packages.
    - Removal: planned exactly when safe, dependents first; a package on hold
      is overlooked.
    - Extraction: files are written below the root and never through a link, a
      rollback without failures takes exactly the listed paths away; concrete
      archives show the old link it deletes and the link entry that leaves the
      root.
    - Registration: installing and removing a package restores the inventory,
      file lists round-trip, a killed transaction blocks later ones.
    - Builds: waves are topological, a wave always ends and stays within its
      limit, every output is accounted for, dependencies succeed first.
    - AUR packages: two sources with the same digest hold the same files, and
      links stay inside them, entries named .git and empty directories aside;
      recipes run only on files that were reviewed with consent, or captured
      when reviews are switched off; the privileged process installs the bytes
      that were captured; accepted archives match the review, and high-risk ones
      were reproduced by a second build of this or an earlier call; privileges
      need an approval of a prompt that shows each of them, and that is
      recorded; builds of dependencies end and leave the set of packages in
      flight as it was. Statements on digests hold up to a collision of the
      hash function, those on archives are about their members.
    - Search: lookup refines the catalogue, a literal search equals a scan of
      the whole catalogue.
    - Databases: success publishes every database, failure restores every one
      unless rollback errors are reported, and no crash loses old contents.
    - Runtimes: a partial version resolves to the newest match; the current
      link never dangles unless a switch to a name with a leading dot was asked
      for; an installation is complete or invisible.
    - Pacman: includes are inlined exactly or a cycle is reported; a parsed
      configuration is well formed; the list of unsatisfied dependencies and the
      counts are exact; descriptions round-trip.
    - PKGBUILD: expansion through the trie equals running every pass in order,
      functions do not reach the metadata, printed metadata is read back,
      accepted fields are within the budget; concrete texts show that one pass
      is not, and that the order of the hash map can show.
    - Environment: a pulled lock agrees with the drift report; lock files
      round-trip; the hashed text is shown to be ambiguous.
    - Projects: the merged environment equals applying the configuration files
      one after the other; redaction patterns mean what they say, and reach only
      variables of their own and of later files; variables have plain names;
      quoted dotenv files are read back; configuration files are read once.
      Tasks run once, after everything they need, and cycles are found before
      anything runs.
    - Fedora: the package a header describes is read back, whatever tags of
      whatever type surround it; what the manager says is installed is the
      inventory of a moment between question and answer, up to a collision and
      never from a file that was replaced before, unless a change is made and taken back while it is read,
      as a concrete run shows; everything it runs has only the options of the
      program and is covered by the policy; the history follows the journal;
      an audit accounts for every advisory and for the packages that rpm says
      are older, with the same inventory before and after; updates and removal plans are exact.
    - Daemon: no answer is older than the last index published before the
      request, a status file that could not be removed aside; responses match
      the requests of the client, frames round-trip within their limits.

    ** Fuel

    Loops without structural recursion carry fuel computed from their input,
    and the theorems show it is enough: [compare_deb_part] (length of both
    arguments), [resolve_package] and [topological_sort] (number of packages
    and dependency edges), the license parser (33 activations of [parse_or],
    one more than [MAX_LICENSE_NESTING], and the token count),
    [status_paragraphs] (length of the text), [mark_required] (dependency
    edges), [order_loop] and [levels_loop] (one more than the packages), the
    AUR plan (packages and edges), [decimal] (binary length), includes of a
    pacman configuration (two more than the files), links in a path (40, the
    limit of Linux, beyond which the walk fails as the kernel does), [substitute]
    of a PKGBUILD (number of variables), the templates of environment values
    (length), [plan] (tasks and dependencies), [build_only] (one more than the number
    of packages of the AUR). Loops over indices of the
    database commit count down from the number of files. Running out is an error
    value of its own, and the totality theorems exclude it.

    ** Not modelled

    Command line and terminal UI, HTTP and telemetry clients, drivers of
    libalpm, apt, brew and makepkg, the daemon's socket set-up, its
    native backends and the locks and leases around them (a step that waits for
    one waits for as long as it likes), the text of its status file, the
    memory-mapped copies of the package indexes, runtime
    downloaders, PGP and SBOM code, settings and runtime pins. File
    locks are represented by the sequencing of whole operations, and concurrent
    processes by interleavings of whole locked operations. Of the audit module,
    the migration of the system directory and the tracing output are left out;
    of the Debian transactions, downloads, maintainer scripts and the order of
    the steps; of the caches, expiry times and the order of eviction: any entry
    may be evicted at any step. Of AUR builds, the download of sources ahead of
    makepkg, which may fail without consequence, and the sandbox. Of tasks, the
    detection of those of other tools and the watch mode. Of the Fedora backend,
    deadlines of queries and the directory of a removal preview. Next in line: secret
    scanning, RPC queries of the AUR client, configuration import. *)

From stdpp Require Export base list gmap sorting strings.
From Stdlib Require Export ZArith Lia Ascii.

Declare Scope omg_scope.
Delimit Scope omg_scope with omg.
Open Scope Z_scope.
Open Scope omg_scope.

(** * Results: Rust's [Result<T, E>] *)

Inductive result (A E : Type) : Type :=
| Ok (a : A)
| Err (e : E).
Arguments Ok {A E} a.
Arguments Err {A E} e.

Definition res_bind {A B E} (r : result A E) (k : A -> result B E) : result B E :=
  match r with Ok a => k a | Err e => Err e end.

Definition map_err {A E F} (f : E -> F) (r : result A E) : result A F :=
  match r with Ok a => Ok a | Err e => Err (f e) end.

Definition is_ok {A E} (r : result A E) : bool :=
  match r with Ok _ => true | Err _ => false end.

Definition ok {A E} (r : result A E) : option A :=
  match r with Ok a => Some a | Err _ => None end.

Definition ok_or {A E} (o : option A) (e : E) : result A E :=
  match o with Some a => Ok a | None => Err e end.

(** [anyhow::ensure!(b, e)]. *)
Definition ensure {E} (b : bool) (e : E) : result unit E :=
  if b then Ok tt else Err e.

Notation "'let?' x ':=' r 'in' k" := (res_bind r (fun x => k))
  (at level 10, x pattern, r at level 100, k at level 200) : omg_scope.
Notation "r ';?' k" := (res_bind r (fun _ => k))
  (at level 100, k at level 200, right associativity) : omg_scope.

(** Iterate a fallible body over a list, stopping at the first error. *)
Fixpoint for_each {A S E} (f : S -> A -> result S E) (s : S) (l : list A) : result S E :=
  match l with
  | [] => Ok s
  | x :: l => let? s' := f s x in for_each f s' l
  end.

Fixpoint try_map {A B E} (f : A -> result B E) (l : list A) : result (list B) E :=
  match l with
  | [] => Ok []
  | x :: l => let? y := f x in let? ys := try_map f l in Ok (y :: ys)
  end.

(** * Rust strings

    A [str] is the list of its Unicode scalar values, so [chars()] is the
    identity; [len()] and [as_bytes()] go through the UTF-8 encoding. *)

Abbreviation char := Z (only parsing).
Abbreviation rstr := (list Z) (only parsing).

Definition ch (c : ascii) : char := Z.of_N (N_of_ascii c).
Arguments ch _%_char.

Definition str (s : string) : rstr :=
  map ch (String.list_ascii_of_string s).
Arguments str _%_string.

Definition is_scalar (c : char) : bool :=
  ((0 <=? c) && (c <? 0xD800)) || ((0xE000 <=? c) && (c <? 0x110000)).

Definition valid_str (s : rstr) : Prop := Forall (fun c => is_scalar c = true) s.

Definition encode_utf8 (c : char) : list Z :=
  if c <? 0x80 then [c]
  else if c <? 0x800 then [0xC0 + c / 64; 0x80 + c mod 64]
  else if c <? 0x10000 then [0xE0 + c / 4096; 0x80 + (c / 64) mod 64; 0x80 + c mod 64]
  else [0xF0 + c / 262144; 0x80 + (c / 4096) mod 64; 0x80 + (c / 64) mod 64; 0x80 + c mod 64].

Definition as_bytes (s : rstr) : list Z := s ≫= encode_utf8.

(** One encoded scalar value. *)
Definition decoded (c : char) (bytes : list Z) : bool :=
  is_scalar c && bool_decide (encode_utf8 c = bytes).

(** [String::from_utf8]: [None] on an invalid sequence. *)
Fixpoint decode_utf8 (l : list Z) : option rstr :=
  match l with
  | [] => Some []
  | a :: l =>
      if decoded a [a] then cons a <$> decode_utf8 l
      else
        match l with
        | [] => None
        | b :: l =>
            let c := (a - 0xC0) * 64 + (b - 0x80) in
            if decoded c [a; b] then cons c <$> decode_utf8 l
            else
              match l with
              | [] => None
              | d :: l =>
                  let c := (a - 0xE0) * 4096 + (b - 0x80) * 64 + (d - 0x80) in
                  if decoded c [a; b; d] then cons c <$> decode_utf8 l
                  else
                    match l with
                    | [] => None
                    | e :: l =>
                        let c := (a - 0xF0) * 262144 + (b - 0x80) * 4096 + (d - 0x80) * 64 + (e - 0x80) in
                        if decoded c [a; b; d; e] then cons c <$> decode_utf8 l else None
                    end
              end
        end
  end.

Definition len_utf8 (c : char) : Z := Z.of_nat (length (encode_utf8 c)).

(** [str::len]: the number of UTF-8 bytes. *)
Definition str_len (s : rstr) : Z := Z.of_nat (length (as_bytes s)).

(** ** Character classes *)

Definition is_ascii_digit (c : char) : bool := (ch "0" <=? c) && (c <=? ch "9").
Definition is_ascii_lowercase (c : char) : bool := (ch "a" <=? c) && (c <=? ch "z").
Definition is_ascii_uppercase (c : char) : bool := (ch "A" <=? c) && (c <=? ch "Z").
Definition is_ascii_alphabetic (c : char) : bool :=
  is_ascii_lowercase c || is_ascii_uppercase c.
Definition is_ascii_alphanumeric (c : char) : bool :=
  is_ascii_alphabetic c || is_ascii_digit c.
Definition is_ascii_hexdigit (c : char) : bool :=
  is_ascii_digit c || ((ch "a" <=? c) && (c <=? ch "f")) || ((ch "A" <=? c) && (c <=? ch "F")).
Definition is_ascii_whitespace (c : char) : bool :=
  bool_decide (c ∈ [32; 9; 10; 12; 13]).
(** Unicode [White_Space], used by [str::trim]. *)
Definition is_whitespace (c : char) : bool :=
  ((9 <=? c) && (c <=? 13)) || (c =? 32) || (c =? 0x85) || (c =? 0xA0) || (c =? 0x1680)
  || ((0x2000 <=? c) && (c <=? 0x200A)) || (c =? 0x2028) || (c =? 0x2029)
  || (c =? 0x202F) || (c =? 0x205F) || (c =? 0x3000).
(** Unicode general category [Cc]. *)
Definition is_control (c : char) : bool :=
  ((0 <=? c) && (c <=? 31)) || ((127 <=? c) && (c <=? 159)).

Definition to_ascii_lowercase_char (c : char) : char :=
  if is_ascii_uppercase c then c + 32 else c.
Definition to_ascii_lowercase (s : rstr) : rstr := map to_ascii_lowercase_char s.
Definition eq_ignore_ascii_case (a b : rstr) : bool :=
  bool_decide (to_ascii_lowercase a = to_ascii_lowercase b).

(** ** Searching, splitting, trimming *)

Definition str_eqb (a b : rstr) : bool := bool_decide (a = b).

Fixpoint strip_prefix (p s : rstr) : option rstr :=
  match p, s with
  | [], _ => Some s
  | c :: p, d :: s => if c =? d then strip_prefix p s else None
  | _ :: _, [] => None
  end.

Definition starts_with (p s : rstr) : bool :=
  match strip_prefix p s with Some _ => true | None => false end.

Definition strip_suffix (p s : rstr) : option rstr :=
  match strip_prefix (rev p) (rev s) with Some r => Some (rev r) | None => None end.

Definition ends_with (p s : rstr) : bool :=
  match strip_suffix p s with Some _ => true | None => false end.

(** [s.contains(needle)] for a string needle. *)
Fixpoint contains (needle s : rstr) : bool :=
  starts_with needle s ||
  match s with [] => false | _ :: s => contains needle s end.

Definition contains_char (c : char) (s : rstr) : bool := existsb (Z.eqb c) s.

(** [s.find(p)] split: the longest prefix without a [p]-character, the rest. *)
Fixpoint span_not (p : char -> bool) (s : rstr) : rstr * rstr :=
  match s with
  | [] => ([], [])
  | c :: s' => if p c then ([], s) else let '(a, b) := span_not p s' in (c :: a, b)
  end.

Definition split_once (c : char) (s : rstr) : option (rstr * rstr) :=
  match span_not (Z.eqb c) s with
  | (a, _ :: b) => Some (a, b)
  | (_, []) => None
  end.

(** [s.split_once(needle)] for a string. *)
Fixpoint split_once_str (needle s : rstr) : option (rstr * rstr) :=
  match strip_prefix needle s with
  | Some rest => Some ([], rest)
  | None =>
      match s with
      | [] => None
      | c :: s => match split_once_str needle s with Some (a, b) => Some (c :: a, b) | None => None end
      end
  end.

Definition rsplit_once (c : char) (s : rstr) : option (rstr * rstr) :=
  match split_once c (rev s) with
  | Some (b, a) => Some (rev a, rev b)
  | None => None
  end.

(** [s.split(c)]: always at least one piece. *)
Fixpoint split_char (c : char) (s : rstr) : list rstr :=
  match s with
  | [] => [[]]
  | d :: s =>
      if c =? d then [] :: split_char c s
      else match split_char c s with
           | p :: ps => (d :: p) :: ps
           | [] => [[d]]
           end
  end.

(** [str::lines] and [BufRead::lines]: terminators dropped, with one carriage return before a
    line feed; a last line without terminator is kept as it is. *)
Definition strip_cr (line : list Z) : list Z := default line (strip_suffix [13] line).

Fixpoint terminated (pieces : list (list Z)) : list (list Z) :=
  match pieces with
  | [] => []
  | [p] => if decide (p = []) then [] else [p]
  | p :: pieces => strip_cr p :: terminated pieces
  end.

Definition byte_lines (bytes : list Z) : list (list Z) := terminated (split_char 10 bytes).

Fixpoint trim_start_matches (p : char -> bool) (s : rstr) : rstr :=
  match s with
  | [] => []
  | c :: s' => if p c then trim_start_matches p s' else s
  end.

Definition trim (s : rstr) : rstr :=
  rev (trim_start_matches is_whitespace (rev (trim_start_matches is_whitespace s))).

(** [s.split(p)] for a class of characters, and [s.split_whitespace()]. *)
Fixpoint split_by (p : char -> bool) (s : rstr) : list rstr :=
  match s with
  | [] => [[]]
  | c :: s =>
      if p c then [] :: split_by p s
      else match split_by p s with
           | q :: qs => (c :: q) :: qs
           | [] => [[c]]
           end
  end.

Definition split_whitespace (s : rstr) : list rstr :=
  List.filter (fun w => negb (str_eqb w [])) (split_by is_whitespace s).

(** [str::replace] of a pattern that is not empty. *)
Fixpoint replace_from (pattern by_ : rstr) (skip : nat) (s : rstr) : rstr :=
  match s with
  | [] => []
  | c :: s' =>
      match skip with
      | S skip => replace_from pattern by_ skip s'
      | O => if starts_with pattern s then by_ ++ replace_from pattern by_ (pred (length pattern)) s'
             else c :: replace_from pattern by_ 0 s'
      end
  end.

Definition replace (pattern by_ s : rstr) : rstr := replace_from pattern by_ 0 s.

(** ** Integer parsing: [str::parse::<uN>] accepts an optional [+] and at
    least one digit, and fails on overflow. *)

Definition u32_max : Z := 2 ^ 32 - 1.
Definition u64_max : Z := 2 ^ 64 - 1.

Fixpoint parse_digits (max acc : Z) (s : rstr) : option Z :=
  match s with
  | [] => Some acc
  | c :: s =>
      if is_ascii_digit c then
        let acc' := acc * 10 + (c - ch "0") in
        if acc' <=? max then parse_digits max acc' s else None
      else None
  end.

Definition parse_uint (max : Z) (s : rstr) : option Z :=
  match s with
  | [] => None
  | c :: s' =>
      if c =? ch "+" then match s' with [] => None | _ => parse_digits max 0 s' end
      else parse_digits max 0 s
  end.

(** [n.to_string()] for an unsigned number. *)
Fixpoint decimal (fuel : nat) (n : Z) : rstr :=
  match fuel with
  | O => []
  | S fuel => if n <? 10 then [ch "0" + n] else decimal fuel (n / 10) ++ [ch "0" + n mod 10]
  end.

Definition to_string (n : Z) : rstr := decimal (S (Z.to_nat (Z.log2 n))) n.

(** Unsigned arithmetic at width 64. *)
Definition wrap64 (z : Z) : Z := z mod 2 ^ 64.
Definition saturating_add64 (a b : Z) : Z := Z.min (a + b) u64_max.
Definition saturating_sub64 (a b : Z) : Z := Z.max (a - b) 0.
Definition checked_add64 (a b : Z) : option Z :=
  if a + b <=? u64_max then Some (a + b) else None.
Definition checked_mul64 (a b : Z) : option Z :=
  if a * b <=? u64_max then Some (a * b) else None.

(** ** String order: Rust compares bytes; UTF-8 makes that the
    lexicographic order of the scalar values. *)

Fixpoint list_cmp (a b : list Z) : comparison :=
  match a, b with
  | [], [] => Eq
  | [], _ :: _ => Lt
  | _ :: _, [] => Gt
  | x :: a, y :: b => match x ?= y with Eq => list_cmp a b | o => o end
  end.

Definition str_le (a b : rstr) : Prop := list_cmp a b ≠ Gt.

#[export] Instance str_le_dec a b : Decision (str_le a b).
Proof. unfold str_le. apply _. Defined.

Definition sort_strs (l : list rstr) : list rstr := merge_sort str_le l.

(** [Vec::dedup]: drop consecutive repetitions. *)
Fixpoint dedup (l : list rstr) : list rstr :=
  match l with
  | x :: ((y :: _) as l') => if decide (x = y) then dedup l' else x :: dedup l'
  | _ => l
  end.

(** ** Fixed-width integers as byte strings *)

Fixpoint le_bytes (n : nat) (z : Z) : list Z :=
  match n with
  | O => []
  | S n => z mod 256 :: le_bytes n (z / 256)
  end.

Definition be_bytes (n : nat) (z : Z) : list Z := rev (le_bytes n z).

Fixpoint le_value (l : list Z) : Z :=
  match l with
  | [] => 0
  | b :: l => b + 256 * le_value l
  end.

(** * Automation *)

Create HintDb omg.
Create Rewrite HintDb omg_rw.

(** Replace every character literal by its code point. *)
Ltac ev_ch :=
  repeat match goal with
  | |- context [ch ?c] =>
      let v := eval vm_compute in (ch c) in change (ch c) with v
  | H : context [ch ?c] |- _ =>
      let v := eval vm_compute in (ch c) in change (ch c) with v in H
  end.

(** Boolean tests to propositions [lia] understands. *)
Ltac to_prop :=
  repeat match goal with
  | H : (_ && _) = true |- _ => apply andb_true_iff in H; destruct H
  | H : (_ || _) = false |- _ => apply orb_false_iff in H; destruct H
  | H : negb _ = true |- _ => apply negb_true_iff in H
  | H : negb _ = false |- _ => apply negb_false_iff in H
  | H : (_ && _) = false |- _ => apply andb_false_iff in H
  | H : (_ || _) = true |- _ => apply orb_true_iff in H
  | H : bool_decide _ = true |- _ => apply bool_decide_eq_true in H
  | H : bool_decide _ = false |- _ => apply bool_decide_eq_false in H
  end.

(** * Lemmas *)

Section results.
Context {A B E : Type}.

Lemma res_bind_Ok (r : result A E) (k : A -> result B E) b :
  res_bind r k = Ok b <-> exists a, r = Ok a /\ k a = Ok b.
Proof. destruct r; simpl; naive_solver. Qed.

Lemma res_bind_Err (r : result A E) (k : A -> result B E) e :
  res_bind r k = Err e <-> r = Err e \/ exists a, r = Ok a /\ k a = Err e.
Proof. destruct r; simpl; naive_solver. Qed.

Lemma map_err_Ok {F} (f : E -> F) (r : result A E) a : map_err f r = Ok a <-> r = Ok a.
Proof. destruct r; naive_solver. Qed.

Lemma ensure_Ok b (e : E) u : ensure b e = Ok u <-> b = true.
Proof. destruct b, u; simpl; naive_solver. Qed.

Lemma is_ok_true (r : result A E) : is_ok r = true <-> exists a, r = Ok a.
Proof. destruct r; naive_solver. Qed.
End results.

Lemma ok_or_Ok {A E} (o : option A) (e : E) a : ok_or o e = Ok a <-> o = Some a.
Proof. destruct o; simpl; naive_solver. Qed.

(** Decompose hypotheses [_ = Ok _] built from binds and [ensure]. *)
Ltac res_inv :=
  repeat match goal with
  | H : res_bind ?r _ = Ok _ |- _ =>
      let a := fresh "a" in let Ha := fresh "Hr" in
      apply res_bind_Ok in H; destruct H as (a & Ha & H)
  | H : ensure _ _ = Ok _ |- _ => apply ensure_Ok in H
  | H : Ok _ = Ok _ |- _ => injection H as H; subst
  | H : Err _ = Ok _ |- _ => discriminate H
  | H : Ok _ = Err _ |- _ => discriminate H
  end.

Section for_each.
Context {A S E : Type} (f : S -> A -> result S E).

Lemma for_each_app s l1 l2 :
  for_each f s (l1 ++ l2) = let? s' := for_each f s l1 in for_each f s' l2.
Proof.
  revert s; induction l1 as [|x l1 IH]; intros s; simpl; [done|].
  destruct (f s x); simpl; [apply IH|done].
Qed.

(** Invariant rule for a loop that stops at the first error. *)
Lemma for_each_inv (P : list A -> S -> Prop) s l s' :
  P [] s ->
  (forall pre x s1 s2, P pre s1 -> x ∈ l -> f s1 x = Ok s2 -> P (pre ++ [x]) s2) ->
  for_each f s l = Ok s' -> P l s'.
Proof.
  intros H0 Hstep Hrun.
  assert (Hgen : forall done rest s0,
    l = done ++ rest -> P done s0 -> for_each f s0 rest = Ok s' -> P l s').
  { intros dn rest; revert dn; induction rest as [|x rest IH]; intros dn s0 Hl HP Hr.
    - simpl in Hr. res_inv. by rewrite app_nil_r in *.
    - simpl in Hr. res_inv. eapply (IH (dn ++ [x])).
      + by rewrite <- app_assoc.
      + eapply Hstep; [done| |done]. rewrite Hl. set_solver.
      + done. }
  by eapply (Hgen [] l s).
Qed.
End for_each.

Lemma for_each_unit_Ok {A E} (f : A -> result unit E) (l : list A) :
  for_each (fun _ x => f x) tt l = Ok tt <-> forall x, x ∈ l -> f x = Ok tt.
Proof.
  induction l as [|x l IH]; cbn [for_each]; [split; [by intros _ x ?%elem_of_nil|done]|].
  split.
  - intros H. apply res_bind_Ok in H as ([] & Hx & H). rewrite IH in H.
    intros y [->|Hy]%elem_of_cons; auto.
  - intros H. rewrite (H x) by (by left). apply IH. intros y Hy. apply H. by right.
Qed.

Lemma try_map_Ok {A B E} (f : A -> result B E) l ys :
  try_map f l = Ok ys <-> Forall2 (fun x y => f x = Ok y) l ys.
Proof.
  revert ys; induction l as [|x l IH]; intros ys; simpl; split.
  - intros; res_inv. constructor.
  - inversion 1; done.
  - intros H; res_inv. constructor; [done|]. by apply IH.
  - inversion 1 as [|? y ? ys' Hx Hl]; subst. rewrite Hx; simpl.
    by rewrite (proj2 (IH ys') Hl).
Qed.

Lemma try_map_elem {A B E} (f : A -> result B E) l ys :
  try_map f l = Ok ys ->
  (forall y, y ∈ ys -> exists x, x ∈ l /\ f x = Ok y) /\ (forall x, x ∈ l -> exists y, y ∈ ys /\ f x = Ok y).
Proof.
  rewrite try_map_Ok. induction 1 as [|x y l ys Hxy _ [IH1 IH2]]; [split; by intros ? ?%elem_of_nil|]. split.
  - intros z [->|Hz]%elem_of_cons; [exists x; split; [by left|done]|]. destruct (IH1 z Hz) as (w & ? & ?). exists w. split; [by right|done].
  - intros z [->|Hz]%elem_of_cons; [exists y; split; [by left|done]|]. destruct (IH2 z Hz) as (w & ? & ?). exists w. split; [by right|done].
Qed.

(** ** Strings *)

Lemma strip_prefix_Some p s r : strip_prefix p s = Some r <-> s = p ++ r.
Proof.
  revert s; induction p as [|c p IH]; intros s; simpl; [naive_solver|].
  destruct s as [|d s]; [naive_solver|].
  destruct (Z.eqb_spec c d); subst; [rewrite IH|]; naive_solver.
Qed.

Lemma starts_with_true p s : starts_with p s = true <-> exists r, s = p ++ r.
Proof.
  unfold starts_with. destruct (strip_prefix p s) as [r|] eqn:E.
  - apply strip_prefix_Some in E. naive_solver.
  - split; [done|]. intros [r Hr%strip_prefix_Some]. congruence.
Qed.

Lemma strip_suffix_Some p s r : strip_suffix p s = Some r <-> s = r ++ p.
Proof.
  unfold strip_suffix. destruct (strip_prefix (rev p) (rev s)) as [r'|] eqn:E.
  - apply strip_prefix_Some in E. apply (f_equal (@rev Z)) in E.
    rewrite rev_involutive, rev_app_distr, rev_involutive in E. subst.
    split; [by intros [= <-]|]. intros H. f_equal. by eapply app_inv_tail.
  - split; [done|]. intros ->. rewrite rev_app_distr in E.
    assert (strip_prefix (rev p) (rev p ++ rev r) = Some (rev r)) by by apply strip_prefix_Some.
    congruence.
Qed.

Lemma ends_with_true p s : ends_with p s = true <-> exists r, s = r ++ p.
Proof.
  unfold ends_with. destruct (strip_suffix p s) as [r|] eqn:E.
  - apply strip_suffix_Some in E. naive_solver.
  - split; [done|]. intros [r Hr%strip_suffix_Some]. congruence.
Qed.

Lemma contains_true n s : contains n s = true <-> exists a b, s = a ++ n ++ b.
Proof.
  induction s as [|c s IH]; simpl; rewrite orb_true_iff, starts_with_true.
  - split; [intros [[r Hr]|]; [exists [], r; done|done]|].
    intros (a & b & H). destruct a; [left; by exists b|done].
  - rewrite IH. split.
    + intros [[r Hr]|(a & b & ->)]; [exists [], r; done|by exists (c :: a), b].
    + intros ([|d a] & b & H); [left; by exists b|right].
      simplify_eq/=. by exists a, b.
Qed.

Lemma contains_char_true c s : contains_char c s = true <-> c ∈ s.
Proof.
  unfold contains_char. rewrite existsb_exists, list_elem_of_In. split.
  - intros (x & Hin & ->%Z.eqb_eq). done.
  - intros H. exists c. by rewrite Z.eqb_refl.
Qed.

Lemma contains_char_false c s : contains_char c s = false <-> c ∉ s.
Proof. rewrite <- contains_char_true. by rewrite not_true_iff_false. Qed.

Lemma span_not_app p s : let '(a, b) := span_not p s in s = a ++ b.
Proof.
  induction s as [|c s IH]; simpl; [done|].
  destruct (p c); [done|]. destruct (span_not p s) as [a b]. by rewrite IH.
Qed.

Lemma span_not_fst p s : Forall (fun c => p c = false) (span_not p s).1.
Proof.
  induction s as [|c s IH]; simpl; [constructor|].
  destruct (p c) eqn:E; [constructor|].
  destruct (span_not p s) as [a b]. by constructor.
Qed.

Lemma span_not_snd p s c b : (span_not p s).2 = c :: b -> p c = true.
Proof.
  induction s as [|d s IH]; simpl; [done|].
  destruct (p d) eqn:E; [naive_solver|]. destruct (span_not p s) as [a' b']. done.
Qed.

Lemma span_not_all p s : Forall (fun c => p c = false) s -> span_not p s = (s, []).
Proof. induction 1 as [|c s Hc _ IH]; simpl; [done|]. by rewrite Hc, IH. Qed.

Lemma span_not_cut p a c b :
  Forall (fun c => p c = false) a -> p c = true -> span_not p (a ++ c :: b) = (a, c :: b).
Proof. induction 1 as [|d a Hd _ IH]; simpl; intros Hc; by rewrite ?Hc, ?Hd, ?IH. Qed.

Lemma span_not_append p a b :
  span_not p (a ++ b) =
  match span_not p a with
  | (x, []) => let '(y, r) := span_not p b in (x ++ y, r)
  | (x, r) => (x, r ++ b)
  end.
Proof.
  induction a as [|c a IH]; simpl; [by destruct (span_not p b)|].
  destruct (p c); [done|]. rewrite IH.
  destruct (span_not p a) as [x [|d r]]; [|done]. by destruct (span_not p b).
Qed.

Lemma split_once_Some c s a b :
  split_once c s = Some (a, b) <-> s = a ++ c :: b /\ c ∉ a.
Proof.
  unfold split_once. split.
  - pose proof (span_not_app (Z.eqb c) s). pose proof (span_not_fst (Z.eqb c) s) as Hf.
    destruct (span_not (Z.eqb c) s) as [x [|d y]] eqn:E; [done|].
    intros [= -> ->]. assert (Hd : (c =? d) = true)
      by (apply (span_not_snd _ s d b); by rewrite E).
    apply Z.eqb_eq in Hd as ->. split; [done|]. intros Hin.
    simpl in Hf. rewrite Forall_forall in Hf. specialize (Hf d Hin). lia.
  - intros [-> Hn]. rewrite span_not_cut; [done| |apply Z.eqb_refl].
    apply Forall_forall. intros x Hx. apply Z.eqb_neq. naive_solver.
Qed.

Lemma split_once_None c s : split_once c s = None <-> c ∉ s.
Proof.
  split.
  - intros H Hin. apply list_elem_of_In, in_split in Hin as (a & b & ->).
    destruct (split_once c (a ++ c :: b)) eqn:E; [done|]. clear H.
    unfold split_once in E. pose proof (span_not_app (Z.eqb c) (a ++ c :: b)) as Ha.
    pose proof (span_not_fst (Z.eqb c) (a ++ c :: b)) as Hf.
    destruct (span_not _ _) as [x [|d y]]; [|done]. rewrite app_nil_r in Ha.
    simpl in Hf. rewrite <- Ha, Forall_app, Forall_cons in Hf. lia.
  - intros H. destruct (split_once c s) as [[a b]|] eqn:E; [|done].
    apply split_once_Some in E as [-> _]. set_solver.
Qed.

Lemma rsplit_once_Some c s a b :
  rsplit_once c s = Some (a, b) <-> s = a ++ c :: b /\ c ∉ b.
Proof.
  unfold rsplit_once. destruct (split_once c (rev s)) as [[x y]|] eqn:E.
  - apply split_once_Some in E as [E Hn]. apply (f_equal (@rev Z)) in E.
    rewrite rev_involutive, rev_app_distr in E. simpl in E. rewrite <- app_assoc in E.
    simpl in E. split.
    + intros [= <- <-]. split; [done|]. by rewrite list_elem_of_In, <- in_rev, <- list_elem_of_In.
    + intros [-> Hb]. apply (f_equal (@rev Z)) in E.
      rewrite !rev_app_distr in E. simpl in E. rewrite !rev_involutive, <- !app_assoc in E.
      simpl in E.
      assert (Hs : split_once c (x ++ c :: y) = Some (x, y)) by by apply split_once_Some.
      rewrite <- E in Hs.
      assert (Hs' : split_once c (rev b ++ c :: rev a) = Some (rev b, rev a)).
      { apply split_once_Some. split; [done|].
        by rewrite list_elem_of_In, <- in_rev, <- list_elem_of_In. }
      rewrite Hs' in Hs. injection Hs as <- <-. by rewrite !rev_involutive.
  - split; [done|]. intros [-> _]. apply split_once_None in E.
    rewrite rev_app_distr in E. simpl in E. set_solver.
Qed.

(** ** Pieces of a string keep its characters' properties *)

Section pieces.
Context (P : char -> Prop).

Lemma Forall_trim_start p s : Forall P s -> Forall P (trim_start_matches p s).
Proof. induction 1 as [|c s Hc Hs IH]; simpl; [done|]. destruct (p c); [done|]. by constructor. Qed.

Lemma Forall_rev' (s : rstr) : Forall P s -> Forall P (rev s).
Proof. rewrite rev_alt, <- rev_alt. intros H. by apply Forall_rev. Qed.

Lemma Forall_trim s : Forall P s -> Forall P (trim s).
Proof. intros H. unfold trim. by apply Forall_rev', Forall_trim_start, Forall_rev', Forall_trim_start. Qed.

Lemma Forall_strip_prefix p s r : Forall P s -> strip_prefix p s = Some r -> Forall P r.
Proof. intros H ->%strip_prefix_Some. by apply Forall_app in H as [_ H]. Qed.

Lemma Forall_split_once c s a b : Forall P s -> split_once c s = Some (a, b) -> Forall P a /\ Forall P b.
Proof. intros H [-> _]%split_once_Some. apply Forall_app in H as [? [_ ?]%Forall_cons]. done. Qed.

Lemma Forall_split_char c s : Forall P s -> Forall (Forall P) (split_char c s).
Proof.
  induction 1 as [|d s Hd Hs IH]; simpl; [by repeat constructor|].
  destruct (c =? d); [by constructor|].
  destruct (split_char c s) as [|q qs]; [by repeat constructor|].
  apply Forall_cons in IH as [??]. by repeat constructor.
Qed.

End pieces.

(** ** UTF-8 *)

Lemma as_bytes_app a b : as_bytes (a ++ b) = as_bytes a ++ as_bytes b.
Proof. apply bind_app. Qed.

Lemma as_bytes_cons c s : as_bytes (c :: s) = encode_utf8 c ++ as_bytes s.
Proof. done. Qed.

Ltac utf8_cases :=
  repeat match goal with
  | |- context [?a <? ?b] => destruct (Z.ltb_spec a b)
  | H : context [?a <? ?b] |- _ => destruct (Z.ltb_spec a b)
  end.

Lemma is_scalar_range c : is_scalar c = true -> 0 <= c < 0x110000.
Proof. unfold is_scalar. intros H. to_prop. destruct H as [H|H]; to_prop; lia. Qed.

(** The encoding of one scalar value is never a proper prefix of another's. *)
Lemma encode_utf8_prefix_free c d r s :
  is_scalar c = true -> is_scalar d = true ->
  encode_utf8 c ++ r = encode_utf8 d ++ s -> c = d /\ r = s.
Proof.
  intros Hc%is_scalar_range Hd%is_scalar_range. unfold encode_utf8.
  utf8_cases; simpl; intros Heq; simplify_eq;
    first [ split; [Z.div_mod_to_equations; lia | done]
          | exfalso; Z.div_mod_to_equations; lia ].
Qed.

Lemma encode_utf8_nonempty c : encode_utf8 c ≠ [].
Proof. unfold encode_utf8. by utf8_cases. Qed.

Lemma valid_str_nonneg s : valid_str s -> Forall (fun c => 0 <= c) s.
Proof. intros H. eapply Forall_impl; [exact H|]. intros c ?%is_scalar_range. lia. Qed.

Lemma as_bytes_inj a b : valid_str a -> valid_str b -> as_bytes a = as_bytes b -> a = b.
Proof.
  intros Ha; revert b; induction Ha as [|c a Hc Ha IH]; intros b Hb Heq.
  - destruct b as [|d b]; [done|]. rewrite as_bytes_cons in Heq.
    simpl in Heq. symmetry in Heq. apply app_eq_nil in Heq as [?%encode_utf8_nonempty _]. done.
  - inversion Hb as [|d b' Hd Hb']; subst.
    + rewrite as_bytes_cons in Heq. apply app_eq_nil in Heq as [?%encode_utf8_nonempty _]. done.
    + rewrite !as_bytes_cons in Heq.
      apply encode_utf8_prefix_free in Heq as [-> Heq]; [|done..].
      f_equal. by apply IH.
Qed.

Lemma valid_str_compute s : forallb is_scalar s = true -> valid_str s.
Proof.
  intros H. apply Forall_forall. intros x Hx. rewrite forallb_forall in H. apply H. by apply list_elem_of_In.
Qed.

Lemma decoded_spec c bytes :
  decoded c bytes = true <-> is_scalar c = true /\ encode_utf8 c = bytes.
Proof. unfold decoded. by rewrite andb_true_iff, bool_decide_eq_true. Qed.

Lemma decoded_false c d r s :
  is_scalar d = true -> s = encode_utf8 d ++ r -> forall bytes k, s = bytes ++ k -> decoded c bytes = true -> bytes = encode_utf8 d.
Proof.
  intros Hd -> bytes k E [Hc <-]%decoded_spec. symmetry in E.
  by apply encode_utf8_prefix_free in E as [-> _].
Qed.

(** Decoding the encoding gives the string back. *)
Lemma decode_encode_cons c l :
  is_scalar c = true -> decode_utf8 (encode_utf8 c ++ l) = cons c <$> decode_utf8 l.
Proof.
  intros Hc. pose proof (is_scalar_range c Hc) as Hr.
  pose proof (decoded_false) as Hno. specialize (fun x => Hno x c l _ Hc eq_refl).
  assert (Hyes : decoded c (encode_utf8 c) = true) by (by apply decoded_spec).
  unfold encode_utf8 in Hyes, Hno |- *. utf8_cases; cbn [app decode_utf8] in *.
  - by rewrite Hyes.
  - case_match eqn:E; [eapply Hno in E; [discriminate|reflexivity]|].
    replace ((0xC0 + c / 64 - 0xC0) * 64 + (0x80 + c mod 64 - 0x80)) with c by (Z.div_mod_to_equations; lia).
    by rewrite Hyes.
  - case_match eqn:E; [eapply Hno in E; [discriminate|reflexivity]|].
    case_match eqn:E2; [eapply Hno in E2; [discriminate|reflexivity]|].
    replace ((0xE0 + c / 4096 - 0xE0) * 4096 + (0x80 + (c / 64) mod 64 - 0x80) * 64 + (0x80 + c mod 64 - 0x80))
      with c by (Z.div_mod_to_equations; lia).
    by rewrite Hyes.
  - case_match eqn:E; [eapply Hno in E; [discriminate|reflexivity]|].
    case_match eqn:E2; [eapply Hno in E2; [discriminate|reflexivity]|].
    case_match eqn:E3; [eapply Hno in E3; [discriminate|reflexivity]|].
    replace ((0xF0 + c / 262144 - 0xF0) * 262144 + (0x80 + (c / 4096) mod 64 - 0x80) * 4096
      + (0x80 + (c / 64) mod 64 - 0x80) * 64 + (0x80 + c mod 64 - 0x80)) with c by (Z.div_mod_to_equations; lia).
    by rewrite Hyes.
Qed.

Lemma decode_as_bytes s : valid_str s -> decode_utf8 (as_bytes s) = Some s.
Proof.
  induction 1 as [|c s Hc Hs IH]; [done|]. by rewrite as_bytes_cons, decode_encode_cons, IH.
Qed.

Lemma replace_none pattern by_ s : contains pattern s = false -> replace pattern by_ s = s.
Proof.
  unfold replace. induction s as [|c s IH]; cbn [contains replace_from]; intros H; [done|].
  apply orb_false_iff in H as [-> H]. by rewrite IH.
Qed.

Lemma Forall_replace (P : char -> Prop) pattern by_ s : Forall P by_ -> Forall P s -> Forall P (replace pattern by_ s).
Proof.
  intros Hb. unfold replace. generalize 0%nat. induction s as [|c s IH]; intros skip Hs; [done|].
  apply Forall_cons in Hs as [Hc Hs]. destruct skip as [|skip]; cbn [replace_from]; [|by apply IH].
  destruct (starts_with pattern (c :: s)); [apply Forall_app; auto|constructor; auto].
Qed.

Lemma split_char_cut c a b : c ∉ a -> split_char c (a ++ c :: b) = a :: split_char c b.
Proof.
  induction a as [|x a IH]; intros Ha; cbn [app split_char]; [by rewrite Z.eqb_refl|].
  assert ((c =? x) = false) as -> by (apply Z.eqb_neq; set_solver).
  rewrite IH by set_solver. done.
Qed.

Lemma split_char_cons c s : exists p ps, split_char c s = p :: ps.
Proof.
  induction s as [|x s (p & ps & IH)]; simpl; [eauto|]. destruct (c =? x); [eauto|]. rewrite IH. eauto.
Qed.

Lemma strip_cr_id l : 13 ∉ l -> strip_cr l = l.
Proof.
  intros H. unfold strip_cr. destruct (strip_suffix [13] l) as [p|] eqn:E; [|done].
  apply strip_suffix_Some in E as ->. set_solver.
Qed.

Lemma split_char_app c a b : split_char c (a ++ c :: b) = split_char c a ++ split_char c b.
Proof.
  induction a as [|x a IH]; cbn [app split_char]; [by rewrite Z.eqb_refl|]. rewrite IH.
  destruct (c =? x); [done|]. by destruct (split_char c a) eqn:E; [destruct a; simpl in E; repeat case_match|].
Qed.

Lemma split_char_none c l : (c ∉ l) -> split_char c l = [l].
Proof.
  induction l as [|d l IH]; [done|]. intros [Hd Hl]%not_elem_of_cons. simpl.
  rewrite (proj2 (Z.eqb_neq c d)) by done. by rewrite IH.
Qed.

Lemma split_char_no_sep c s p : p ∈ split_char c s -> c ∉ p.
Proof.
  revert p; induction s as [|x s IH]; intros p; cbn [split_char].
  - intros ->%list_elem_of_singleton. set_solver.
  - destruct (Z.eqb_spec c x) as [->|Hne]; [intros [->|Hp]%elem_of_cons; [set_solver|auto]|].
    destruct (split_char c s) as [|q qs]; [intros ->%list_elem_of_singleton; set_solver|].
    intros [->|Hp]%elem_of_cons; [|apply IH; by right].
    assert (c ∉ q) by (apply IH; by left). set_solver.
Qed.

Lemma strip_cr_last r c s : s = r ++ [c] -> c ≠ 13 -> strip_cr s = s.
Proof.
  intros -> Hc. unfold strip_cr. destruct (strip_suffix [13] (r ++ [c])) as [q|] eqn:E; [|done].
  by apply strip_suffix_Some, app_inj_tail in E as [_ ->].
Qed.

(** Lines written one by one are read back. *)
Lemma byte_lines_unlines ls :
  Forall (fun l => (10 ∉ l) /\ strip_cr l = l) ls -> byte_lines (ls ≫= fun l => l ++ [10]) = ls.
Proof.
  unfold byte_lines. induction 1 as [|l ls [H10 H13] _ IH]; [done|].
  cbn [mbind list_bind]. rewrite <- app_assoc. cbn [app]. rewrite split_char_cut by done.
  change (list_bind _ _ _ ls) with (ls ≫= fun l => l ++ [10]).
  destruct (split_char_cons 10 (ls ≫= fun l => l ++ [10])) as (q & qs & Hq). rewrite Hq in IH |- *.
  rewrite <- IH. cbn [terminated]. by rewrite H13.
Qed.

(** Inserting the bindings of a list one by one. *)
Lemma foldl_insert_list_to_map {B} (l : list (rstr * B)) (m : gmap rstr B) :
  NoDup l.*1 -> (forall kv, kv ∈ l -> m !! kv.1 = None) ->
  foldl (fun m kv => <[kv.1 := kv.2]> m) m l = list_to_map l ∪ m.
Proof.
  revert m; induction l as [|kv l IH]; intros m Hnd Hl; simpl; [by rewrite (left_id_L ∅ (∪))|].
  inversion Hnd as [|? ? Hk Hnd']; subst. rewrite IH.
  - rewrite <- insert_union_r by (by apply not_elem_of_list_to_map_1). destruct kv; simpl. by rewrite insert_union_l.
  - done.
  - intros kv' Hin. rewrite lookup_insert_ne; [apply Hl; by right|].
    intros E. apply Hk. rewrite E. apply list_elem_of_fmap. eauto.
Qed.

(** *** Words *)

Definition word (w : rstr) : Prop := w ≠ [] /\ Forall (fun c => is_whitespace c = false) w.

(** [words.join(" ")]. *)
Fixpoint join_words (ws : list rstr) : rstr :=
  match ws with
  | [] => []
  | [w] => w
  | w :: ws => w ++ 32 :: join_words ws
  end.

Lemma split_by_none p a : Forall (fun c => p c = false) a -> split_by p a = [a].
Proof. induction 1 as [|c a Hc _ IH]; simpl; [done|]. by rewrite Hc, IH. Qed.

Lemma split_by_cut p a c b :
  Forall (fun c => p c = false) a -> p c = true -> split_by p (a ++ c :: b) = a :: split_by p b.
Proof. induction 1 as [|d a Hd _ IH]; intros Hc; simpl; [by rewrite Hc|]. by rewrite Hd, IH. Qed.

Lemma split_whitespace_join ws : Forall word ws -> split_whitespace (join_words ws) = ws.
Proof.
  unfold split_whitespace. induction 1 as [|w ws [Hne Hw] Hws IH]; [done|].
  assert (Hn : str_eqb w [] = false) by (by apply bool_decide_eq_false).
  destruct ws as [|v ws]; [simpl; rewrite split_by_none by done; simpl; by rewrite Hn|].
  change (join_words (w :: v :: ws)) with (w ++ 32 :: join_words (v :: ws)).
  rewrite split_by_cut by done. cbn [List.filter]. rewrite Hn. cbn [negb]. by rewrite IH.
Qed.

Lemma trim_start_id c s : is_whitespace c = false -> trim_start_matches is_whitespace (c :: s) = c :: s.
Proof. simpl. by intros ->. Qed.

(** A text that starts and ends with visible characters. *)
Definition visible_ends (s : rstr) : Prop :=
  (exists c r, s = c :: r /\ is_whitespace c = false) /\ (exists r c, s = r ++ [c] /\ is_whitespace c = false).

Lemma trim_visible s : visible_ends s -> trim s = s.
Proof.
  intros [(c & r & -> & Hc) (r' & d & E & Hd)]. unfold trim. rewrite trim_start_id, E, rev_app_distr by done.
  simpl rev at 2. cbn [app]. rewrite trim_start_id by done. simpl. by rewrite rev_involutive.
Qed.

Lemma visible_ends_compute s :
  match head s, last s with
  | Some a, Some b => negb (is_whitespace a) && negb (is_whitespace b)
  | _, _ => false
  end = true -> visible_ends s.
Proof.
  destruct s as [|a s]; [done|]. simpl head. destruct (last (a :: s)) as [b|] eqn:E; [|done].
  intros H. cbv beta iota in H. apply andb_true_iff in H as [Ha Hb]. apply negb_true_iff in Ha, Hb. split; [by exists a, s|]. apply last_Some in E as [r ->]. by exists r, b.
Qed.

Lemma trim_start_matches_head p s : match trim_start_matches p s with [] => True | c :: _ => p c = false end.
Proof. induction s as [|c s IH]; [done|]. simpl. by destruct (p c) eqn:E. Qed.

Lemma trim_start_snoc p s c : p c = false -> exists r, trim_start_matches p (s ++ [c]) = r ++ [c].
Proof.
  intros Hc. induction s as [|d s [r IH]]; simpl; [rewrite Hc; by exists []|]. destruct (p d); [by exists r|].
  by exists (d :: s).
Qed.

(** Trimmed text is empty or has no blank at either end. *)
Lemma trim_ends s : trim s = [] \/ visible_ends (trim s).
Proof.
  unfold trim. pose proof (trim_start_matches_head is_whitespace s) as Hh.
  destruct (trim_start_matches is_whitespace s) as [|c r]; [by left|]. right. simpl rev.
  destruct (trim_start_snoc is_whitespace (rev r) c Hh) as [q E].
  pose proof (trim_start_matches_head is_whitespace (rev r ++ [c])) as Hl. rewrite E in Hl |- *. split.
  - rewrite rev_app_distr. simpl. eauto.
  - destruct q as [|d q]; simpl in *; [by exists [], c|]. exists (rev (q ++ [c])), d. split; [done|exact Hl].
Qed.

Lemma trim_idem s : trim (trim s) = trim s.
Proof. destruct (trim_ends s) as [->|H]; [done|by apply trim_visible]. Qed.

Lemma strip_cr_visible s : visible_ends s -> strip_cr s = s.
Proof. intros [_ (r & c & E & Hc)]. apply (strip_cr_last r c); [done|by intros ->]. Qed.

Lemma word_ends w : word w -> visible_ends w.
Proof.
  intros [Hne Hw]. split.
  - destruct Hw as [|c w Hc]; [done|]. eauto.
  - destruct (exists_last Hne) as (r & c & ->). exists r, c. split; [done|].
    apply Forall_app in Hw as [_ Hw]. by inversion Hw.
Qed.

Lemma join_words_ends ws : ws ≠ [] -> Forall word ws -> visible_ends (join_words ws).
Proof.
  intros Hne H. split.
  - destruct H as [|w ws [Hw1 Hw2] _]; [done|]. destruct w as [|c w]; [done|]. inversion Hw2; subst.
    destruct ws; simpl; eauto.
  - induction H as [|w ws Hw Hws IH]; [done|]. destruct ws as [|v ws]; [by apply word_ends|].
    destruct IH as (r & c & E & Hc); [done|]. exists (w ++ 32 :: r), c. split; [|done].
    change (join_words (w :: v :: ws)) with (w ++ 32 :: join_words (v :: ws)). rewrite E. by rewrite <- app_assoc.
Qed.

Lemma visible_ends_app a b : visible_ends a -> visible_ends b -> forall m, visible_ends (a ++ m ++ b).
Proof.
  intros [(c & r & -> & Hc) _] [_ (r' & d & -> & Hd)] m. split; [simpl; eauto|].
  exists ((c :: r) ++ m ++ r'), d. by rewrite <- !app_assoc.
Qed.

(** A successful decoding is inverted by the encoding. *)
Lemma decode_utf8_Some l s : decode_utf8 l = Some s -> valid_str s /\ as_bytes s = l.
Proof.
  remember (length l) as n eqn:Hn. revert l s Hn.
  induction (Nat.lt_wf_0 n) as [n _ IH]; intros l s ->.
  assert (Hrec : forall c l1 l2, l = l1 ++ l2 -> decoded c l1 = true -> (cons c <$> decode_utf8 l2) = Some s ->
    valid_str s /\ as_bytes s = l).
  { intros c l1 l2 -> [Hc <-]%decoded_spec [s' [Hs ->]]%fmap_Some.
    assert (Hlt : (length l2 < length (encode_utf8 c ++ l2))%nat).
    { rewrite length_app. pose proof (encode_utf8_nonempty c). destruct (encode_utf8 c); [done|simpl; lia]. }
    destruct (IH _ Hlt l2 s' eq_refl Hs) as [Hv Hb].
    split; [by constructor|]. by rewrite as_bytes_cons, Hb. }
  destruct l as [|a l]; [intros [= <-]; split; [constructor|done]|]. cbn [decode_utf8].
  case_match eqn:E1; [apply (Hrec a [a] l); done|]. destruct l as [|b l]; [done|].
  case_match eqn:E2; [by apply (Hrec _ [a; b] l)|]. destruct l as [|d l]; [done|].
  case_match eqn:E3; [by apply (Hrec _ [a; b; d] l)|]. destruct l as [|e l]; [done|].
  case_match eqn:E4; [by apply (Hrec _ [a; b; d; e] l)|done].
Qed.

Lemma as_bytes_range s : valid_str s -> Forall (fun b => 0 <= b < 0xF8) (as_bytes s).
Proof.
  induction 1 as [|c s Hc _ IH]; [constructor|].
  rewrite as_bytes_cons. apply Forall_app; split; [|done].
  apply is_scalar_range in Hc. unfold encode_utf8.
  utf8_cases; repeat constructor; Z.div_mod_to_equations; lia.
Qed.

Lemma str_len_nonneg s : 0 <= str_len s.
Proof. unfold str_len. lia. Qed.

Lemma str_len_app a b : str_len (a ++ b) = str_len a + str_len b.
Proof. unfold str_len. rewrite as_bytes_app, length_app. lia. Qed.

Lemma len_utf8_pos c : 1 <= len_utf8 c.
Proof. unfold len_utf8. pose proof (encode_utf8_nonempty c). destruct (encode_utf8 c); simpl; [done|lia]. Qed.

Lemma str_len_cons c s : str_len (c :: s) = len_utf8 c + str_len s.
Proof. unfold str_len, len_utf8. rewrite as_bytes_cons, length_app. lia. Qed.

Lemma as_bytes_ascii s : Forall (fun c => c < 0x80) s -> as_bytes s = s.
Proof.
  induction 1 as [|c s Hc _ IH]; [done|]. rewrite as_bytes_cons, IH. unfold encode_utf8.
  by rewrite (proj2 (Z.ltb_lt c 0x80)).
Qed.

Lemma str_len_ascii s : Forall (fun c => c < 0x80) s -> str_len s = Z.of_nat (length s).
Proof.
  induction 1 as [|c s Hc _ IH]; [done|]. rewrite str_len_cons, IH.
  unfold len_utf8, encode_utf8. destruct (Z.ltb_spec c 0x80); simpl; lia.
Qed.

Lemma str_len_0 s : str_len s = 0 <-> s = [].
Proof.
  destruct s as [|c s]; [done|]. rewrite str_len_cons.
  pose proof (len_utf8_pos c). pose proof (str_len_nonneg s). split; [lia|done].
Qed.

(** ** Bytes of integers *)

Lemma length_le_bytes n z : length (le_bytes n z) = n.
Proof. revert z; induction n; intros; simpl; auto. Qed.

Lemma le_value_le_bytes n z : 0 <= z < 256 ^ Z.of_nat n -> le_value (le_bytes n z) = z.
Proof.
  revert z; induction n as [|n IH]; intros z Hz; cbn [le_bytes le_value].
  - change (256 ^ Z.of_nat 0) with 1 in Hz. lia.
  - rewrite Nat2Z.inj_succ, Z.pow_succ_r in Hz by lia.
    rewrite IH; [|split; [apply Z.div_pos; lia|apply Z.div_lt_upper_bound; lia]].
    pose proof (Z.div_mod z 256). lia.
Qed.

Lemma le_bytes_range n z : Forall (fun b => 0 <= b < 256) (le_bytes n z).
Proof.
  revert z; induction n; intros; simpl; constructor; auto. apply Z.mod_pos_bound; lia.
Qed.

Lemma le_bytes_inj n x y :
  0 <= x < 256 ^ Z.of_nat n -> 0 <= y < 256 ^ Z.of_nat n ->
  le_bytes n x = le_bytes n y -> x = y.
Proof. intros Hx Hy H. by rewrite <- (le_value_le_bytes n x), H, le_value_le_bytes. Qed.

Lemma length_be_bytes n z : length (be_bytes n z) = n.
Proof. unfold be_bytes. by rewrite length_rev, length_le_bytes. Qed.

Lemma be_bytes_inj n x y :
  0 <= x < 256 ^ Z.of_nat n -> 0 <= y < 256 ^ Z.of_nat n ->
  be_bytes n x = be_bytes n y -> x = y.
Proof.
  intros Hx Hy H. apply (le_bytes_inj n); [done..|].
  unfold be_bytes in H. rewrite <- (rev_involutive (le_bytes n x)), H. apply rev_involutive.
Qed.

Lemma parse_digits_bound max acc s v :
  0 <= acc -> acc <= max -> parse_digits max acc s = Some v -> 0 <= v <= max.
Proof.
  revert acc; induction s as [|c s IH]; simpl; intros acc H0 H1 H; [naive_solver|].
  destruct (is_ascii_digit c) eqn:Ed; [|done].
  destruct (Z.leb_spec (acc * 10 + (c - ch "0")) max); [|done].
  unfold is_ascii_digit in Ed. ev_ch. to_prop. eapply IH; [| |done]; lia.
Qed.

Lemma parse_uint_bound max s v : 0 <= max -> parse_uint max s = Some v -> 0 <= v <= max.
Proof.
  unfold parse_uint. intros Hm H. destruct s as [|c s]; [done|].
  destruct (c =? ch "+"); [destruct s; [done|]|];
    (eapply parse_digits_bound; [| |exact H]; lia).
Qed.

(** ** Comparison functions

    A comparison is a preorder when it flips with its arguments and is
    transitive in each of its outcomes; lexicographic combination keeps that. *)

Record cmp_order {A} (P : A -> Prop) (cmp : A -> A -> comparison) : Prop := {
  cmp_flip : forall x y, P x -> P y -> cmp y x = CompOpp (cmp x y);
  cmp_trans : forall c x y z, P x -> P y -> P z -> cmp x y = c -> cmp y z = c -> cmp x z = c;
  cmp_eq_l : forall x y z, P x -> P y -> P z -> cmp x y = Eq -> cmp x z = cmp y z
}.
Arguments cmp_flip {A P cmp}.
Arguments cmp_trans {A P cmp}.
Arguments cmp_eq_l {A P cmp}.

Abbreviation always := (fun _ => True).

Definition then_with (o : comparison) (p : comparison) : comparison :=
  match o with Eq => p | _ => o end.

Section cmp_order.
Context {A : Type}.
Implicit Types (P : A -> Prop) (f g : A -> A -> comparison).

Lemma cmp_refl P f x : cmp_order P f -> P x -> f x x = Eq.
Proof. intros H Hx. pose proof (cmp_flip H x x Hx Hx). by destruct (f x x). Qed.

(** It suffices to give a key into a type already ordered. *)
Lemma cmp_order_key {B} (key : B -> A) P f :
  cmp_order P f -> cmp_order (fun x => P (key x)) (fun x y => f (key x) (key y)).
Proof. intros [F T E]; split; eauto. Qed.

Lemma cmp_order_ext P Q f g :
  (forall x, P x -> Q x) -> (forall x y, P x -> P y -> f x y = g x y) ->
  cmp_order Q g -> cmp_order P f.
Proof.
  intros HP Hfg [F T E]; split; intros *; intros; rewrite !Hfg in * by done; eauto.
Qed.

Lemma cmp_order_const P : cmp_order P (fun _ _ => Eq).
Proof. by split. Qed.

(** A comparison whose outcome is known one step further along. *)
Lemma cmp_eq_r P f x y z :
  cmp_order P f -> P x -> P y -> P z -> f y z = Eq -> f x z = f x y.
Proof.
  intros H Hx Hy Hz E.
  by rewrite (cmp_flip H z x), <- (cmp_eq_l H y z x), <- (cmp_flip H y x) by done.
Qed.

Lemma cmp_order_lex P f g :
  cmp_order P f -> cmp_order P g -> cmp_order P (fun x y => then_with (f x y) (g x y)).
Proof.
  intros Hf Hg. split.
  - intros x y Hx Hy. rewrite (cmp_flip Hf x y), (cmp_flip Hg x y) by done.
    by destruct (f x y).
  - intros c x y z Hx Hy Hz. destruct (f x y) eqn:E1; simpl.
    + rewrite (cmp_eq_l Hf x y z) by done.
      destruct (f y z) eqn:E2; simpl; intros; subst; try done. by apply (cmp_trans Hg _ x y z).
    + intros <-. destruct (f y z) eqn:E2; simpl; intros; try done.
      * by rewrite (cmp_eq_r P f x y z), E1 by done.
      * by rewrite (cmp_trans Hf Lt x y z) by done.
    + intros <-. destruct (f y z) eqn:E2; simpl; intros; try done.
      * by rewrite (cmp_eq_r P f x y z), E1 by done.
      * by rewrite (cmp_trans Hf Gt x y z) by done.
  - intros x y z Hx Hy Hz H. destruct (f x y) eqn:E1; try done. simpl in H.
    by rewrite (cmp_eq_l Hf x y z), (cmp_eq_l Hg x y z) by done.
Qed.

(** A comparison that agrees with one of a family of orders on any bounded
    set of arguments. *)
Lemma cmp_order_limit (size : A -> nat) (family : nat -> A -> A -> comparison) P f :
  (forall n, cmp_order P (family n)) ->
  (forall n x y, (size x <= n)%nat -> (size y <= n)%nat -> f x y = family n x y) -> cmp_order P f.
Proof.
  intros Ho Hf. split.
  - intros x y Hx Hy. rewrite !(Hf (size x + size y)%nat) by lia. by apply (cmp_flip (Ho _)).
  - intros c x y z Hx Hy Hz. rewrite !(Hf (size x + size y + size z)%nat) by lia. by apply (cmp_trans (Ho _)).
  - intros x y z Hx Hy Hz. rewrite !(Hf (size x + size y + size z)%nat) by lia. by apply (cmp_eq_l (Ho _)).
Qed.
End cmp_order.

(** The order of a comparison function. Where the code's sort is unstable
    the comparison separates the elements, and the result is the same. *)
Definition cmp_le {A} (cmp : A -> A -> comparison) (x y : A) : Prop := cmp x y ≠ Gt.

#[export] Instance cmp_le_dec {A} (cmp : A -> A -> comparison) : RelDecision (cmp_le cmp).
Proof. unfold cmp_le. solve_decision. Defined.

(** [slice::sort_by] is stable: equal elements keep their order. *)
Fixpoint insert_by {A} (cmp : A -> A -> comparison) (x : A) (l : list A) : list A :=
  match l with
  | [] => [x]
  | y :: l' => match cmp x y with Gt => y :: insert_by cmp x l' | _ => x :: l end
  end.

Fixpoint sort_by {A} (cmp : A -> A -> comparison) (l : list A) : list A :=
  match l with
  | [] => []
  | x :: l => insert_by cmp x (sort_by cmp l)
  end.

Section sort_by.
Context {A : Type} (cmp : A -> A -> comparison) (Hcmp : cmp_order always cmp).

Lemma cmp_le_trans : Transitive (cmp_le cmp).
Proof.
  intros x y z Hxy Hyz Hxz. unfold cmp_le in *. destruct (cmp x y) eqn:E1; [| |done].
  - by rewrite (cmp_eq_l Hcmp x y z) in Hxz.
  - destruct (cmp y z) eqn:E2; [| |done].
    + rewrite (cmp_eq_r _ _ x y z Hcmp) in Hxz by done. congruence.
    + rewrite (cmp_trans Hcmp Lt x y z) in Hxz by done. done.
Qed.

Lemma cmp_le_total : Total (cmp_le cmp).
Proof. intros x y. unfold cmp_le. rewrite (cmp_flip Hcmp x y) by done. destruct (cmp x y); naive_solver. Qed.

Lemma insert_by_perm x l : insert_by cmp x l ≡ₚ x :: l.
Proof.
  induction l as [|y l IH]; cbn [insert_by]; [done|]. destruct (cmp x y); [done..|].
  rewrite IH. apply perm_swap.
Qed.

Lemma sort_by_perm l : sort_by cmp l ≡ₚ l.
Proof. induction l as [|x l IH]; cbn [sort_by]; [done|]. by rewrite insert_by_perm, IH. Qed.

Lemma insert_by_sorted x l : StronglySorted (cmp_le cmp) l -> StronglySorted (cmp_le cmp) (insert_by cmp x l).
Proof.
  induction 1 as [|y l Hs IH Hy]; cbn [insert_by]; [by repeat constructor|].
  assert (Hle : cmp x y ≠ Gt -> StronglySorted (cmp_le cmp) (x :: y :: l)).
  { intros Hxy. constructor; [by constructor|]. constructor; [done|]. eapply Forall_impl; [exact Hy|].
    intros z Hz. by apply (cmp_le_trans x y z). }
  destruct (cmp x y) eqn:Hxy; [by apply Hle..|]. constructor; [done|]. rewrite insert_by_perm. constructor; [|done].
  destruct (cmp_le_total x y); [by unfold cmp_le in *|done].
Qed.

Lemma sort_by_sorted l : StronglySorted (cmp_le cmp) (sort_by cmp l).
Proof. induction l as [|x l IH]; [constructor|]. by apply insert_by_sorted. Qed.

Lemma insert_by_stable k x l : StronglySorted (cmp_le cmp) l ->
  filter (fun y => cmp k y = Eq) (insert_by cmp x l) = filter (fun y => cmp k y = Eq) (x :: l).
Proof.
  induction 1 as [|y l Hs IH Hy]; cbn [insert_by]; [done|]. destruct (cmp x y) eqn:Hxy; [done..|].
  rewrite filter_cons, IH, !filter_cons.
  destruct (decide (cmp k y = Eq)) as [Hky|], (decide (cmp k x = Eq)) as [Hkx|]; try done.
  assert (cmp x y = Eq); [|congruence]. rewrite <- (cmp_eq_l Hcmp k x y); done.
Qed.

(** Elements that compare as equal keep their order. *)
Lemma sort_by_stable k l : filter (fun y => cmp k y = Eq) (sort_by cmp l) = filter (fun y => cmp k y = Eq) l.
Proof.
  induction l as [|x l IH]; [done|]. cbn [sort_by]. rewrite insert_by_stable by apply sort_by_sorted.
  by rewrite !filter_cons, IH.
Qed.

(** Without ties there is one sorted arrangement. *)
Lemma sort_by_unique l l' :
  (forall x y, x ∈ l -> y ∈ l -> cmp x y = Eq -> x = y) ->
  StronglySorted (cmp_le cmp) l' -> l' ≡ₚ l -> sort_by cmp l = l'.
Proof.
  intros Hties Hs Hp. apply (StronglySorted_unique_strong (cmp_le cmp)).
  - intros x y Hx Hy H1 H2. rewrite sort_by_perm in Hx. rewrite Hp in Hy. apply Hties; [done..|].
    unfold cmp_le in *. rewrite (cmp_flip Hcmp x y) in H2 by done. by destruct (cmp x y).
  - apply sort_by_sorted.
  - done.
  - by rewrite sort_by_perm, Hp.
Qed.
End sort_by.

Lemma cmp_order_Z : cmp_order always Z.compare.
Proof.
  split; intros *; intros _ _; try intros _.
  - by rewrite Z.compare_antisym.
  - destruct c; rewrite ?Z.compare_eq_iff, ?Z.compare_lt_iff, ?Z.compare_gt_iff; lia.
  - intros ->%Z.compare_eq_iff. done.
Qed.

Lemma list_cmp_flip x y : list_cmp y x = CompOpp (list_cmp x y).
Proof.
  revert y; induction x as [|a x IH]; intros [|b y]; simpl; try done.
  rewrite (Z.compare_antisym a b). destruct (a ?= b); simpl; auto.
Qed.

Lemma list_cmp_eq x y : list_cmp x y = Eq <-> x = y.
Proof.
  split.
  - revert y; induction x as [|a x IH]; intros [|b y]; simpl; try done.
    destruct (Z.compare_spec a b); try done. intros ?%IH. by subst.
  - intros <-. induction x; simpl; [done|]. by rewrite Z.compare_refl.
Qed.

Lemma list_cmp_trans c x y z : list_cmp x y = c -> list_cmp y z = c -> list_cmp x z = c.
Proof.
  revert y z; induction x as [|a x IH]; intros [|b y] [|d z]; simpl; intros <-; try done.
  destruct (Z.compare_spec a b) as [->| |], (Z.compare_spec b d) as [->| |]; try done;
    rewrite ?Z.compare_refl; eauto; intros Hc; try done;
    destruct (Z.compare_spec a d); try lia; try done;
    destruct (Z.compare_spec b d); try lia; done.
Qed.

Lemma cmp_order_list : cmp_order always list_cmp.
Proof.
  split; [intros; apply list_cmp_flip|intros c x y z _ _ _; apply list_cmp_trans|].
  by intros x y z _ _ _ ->%list_cmp_eq.
Qed.

#[export] Instance str_le_trans : Transitive str_le.
Proof.
  unfold str_le. intros x y z Hxy Hyz Hxz.
  destruct (list_cmp x y) eqn:E1; [apply list_cmp_eq in E1 as ->; done| |done].
  destruct (list_cmp y z) eqn:E2; [apply list_cmp_eq in E2 as ->; congruence| |done].
  rewrite (list_cmp_trans Lt x y z E1 E2) in Hxz. done.
Qed.

#[export] Instance str_le_total : Total str_le.
Proof.
  unfold str_le. intros x y. rewrite (list_cmp_flip x y). destruct (list_cmp x y); naive_solver.
Qed.

#[export] Instance str_le_antisym : AntiSymm (=) str_le.
Proof.
  unfold str_le. intros x y H1 H2. rewrite (list_cmp_flip x y) in H2.
  apply list_cmp_eq. by destruct (list_cmp x y).
Qed.

Lemma sort_strs_perm l : sort_strs l ≡ₚ l.
Proof. apply merge_sort_Permutation. Qed.

Lemma sort_strs_sorted l : StronglySorted str_le (sort_strs l).
Proof. apply (StronglySorted_merge_sort _). Qed.

Lemma elem_of_sort_strs x l : x ∈ sort_strs l <-> x ∈ l.
Proof. by rewrite sort_strs_perm. Qed.

(** The result does not depend on the order in which a hash table is read. *)
Lemma sort_strs_unique l1 l2 : l1 ≡ₚ l2 -> sort_strs l1 = sort_strs l2.
Proof.
  intros H. apply (StronglySorted_unique str_le); auto using sort_strs_sorted.
  by rewrite !sort_strs_perm.
Qed.

Lemma dedup_cons2 a b l : dedup (a :: b :: l) = if decide (a = b) then dedup (b :: l) else a :: dedup (b :: l).
Proof. done. Qed.

Lemma elem_of_dedup x l : x ∈ dedup l <-> x ∈ l.
Proof.
  induction l as [|a l IH]; [done|]. destruct l as [|b l]; [done|]. rewrite dedup_cons2.
  destruct (decide (a = b)) as [->|]; [rewrite IH; set_solver|]. rewrite !elem_of_cons, IH. set_solver.
Qed.

Lemma dedup_sorted l : StronglySorted str_le l -> StronglySorted str_le (dedup l) /\ NoDup (dedup l).
Proof.
  induction 1 as [|a l Hl [IH1 IH2] Ha]; [split; constructor|]. destruct l as [|b l].
  - split; [by repeat constructor|apply NoDup_singleton].
  - rewrite dedup_cons2. destruct (decide (a = b)) as [->|Hab]; [done|].
    assert (Hle : Forall (str_le a) (dedup (b :: l))).
    { apply Forall_forall. intros x Hx. rewrite elem_of_dedup in Hx. by eapply (proj1 (Forall_forall _ _) Ha). }
    split; [by constructor|]. constructor; [|done]. intros Hin. rewrite elem_of_dedup in Hin.
    apply Hab. apply (anti_symm str_le); [by inversion Ha|].
    apply elem_of_cons in Hin as [->|Hin]; [done|]. inversion Hl as [|? ? _ Hb]; subst.
    by eapply (proj1 (Forall_forall _ _) Hb).
Qed.

(** [sort] then [dedup] of two vectors with the same elements are equal: the
    sorted set of the elements. *)
Lemma sorted_set_unique l1 l2 :
  StronglySorted str_le l1 -> NoDup l1 -> StronglySorted str_le l2 -> NoDup l2 ->
  (forall x, x ∈ l1 <-> x ∈ l2) -> l1 = l2.
Proof.
  intros S1 N1 S2 N2 H. apply (StronglySorted_unique str_le); [done..|]. by apply NoDup_Permutation.
Qed.

Lemma dedup_sort_sorted l : StronglySorted str_le (dedup (sort_strs l)) /\ NoDup (dedup (sort_strs l)).
Proof. apply dedup_sorted, sort_strs_sorted. Qed.

Lemma elem_of_dedup_sort x l : x ∈ dedup (sort_strs l) <-> x ∈ l.
Proof. by rewrite elem_of_dedup, elem_of_sort_strs. Qed.

Lemma dedup_sort_unique l1 l2 :
  (forall x, x ∈ l1 <-> x ∈ l2) -> dedup (sort_strs l1) = dedup (sort_strs l2).
Proof.
  intros H. apply sorted_set_unique; try apply dedup_sort_sorted. intros x. by rewrite !elem_of_dedup_sort.
Qed.

#[export] Hint Resolve str_len_nonneg cmp_order_Z cmp_order_list : omg.
#[export] Hint Rewrite as_bytes_app str_len_app length_le_bytes length_be_bytes : omg_rw.
