(* ===== verification/DebVersion.v ===== *)
(** Debian version ordering: the module [debian_version] of
    src/src/package_managers/types.rs, which orders update candidates and
    decides dependency constraints.

    Each function of the module has its definition here. The comparison loop
    of [compare_deb_part] is a fuelled fixpoint that answers [None] only when
    the fuel runs out; [compare_deb_part_total] shows that the fuel given is
    always enough. [hash_deb_version] is modelled by the sequence of values it
    feeds to the hasher. The theorems: the comparator is a total preorder on
    Rust strings, numeric runs of any length are compared by value, versions
    that compare equal feed the hasher identically, and a tilde suffix sorts
    before the version it extends. *)

From S2P Require Import Prelude.
Open Scope Z_scope.
Open Scope omg_scope.

(** * Definitions *)

(** [deb_character_order]: tilde first, then letters, then everything else. *)
Definition deb_character_order (character : char) : Z :=
  if character =? ch "~" then -1
  else if is_ascii_alphabetic character then character
  else character + 256.

Fixpoint compare_deb_non_digits (a b : rstr) : comparison :=
  match a, b with
  | [], [] => Eq
  | character :: _, [] => if character =? ch "~" then Lt else Gt
  | [], character :: _ => if character =? ch "~" then Gt else Lt
  | x :: a, y :: b =>
      match deb_character_order x ?= deb_character_order y with
      | Eq => compare_deb_non_digits a b
      | other => other
      end
  end.

Definition trim_zeros : rstr -> rstr := trim_start_matches (Z.eqb (ch "0")).

Definition compare_deb_numeric_strings (a b : rstr) : comparison :=
  let a := trim_zeros a in
  let b := trim_zeros b in
  then_with (str_len a ?= str_len b) (list_cmp a b).

Definition split_at_deb_digit (value : rstr) : rstr * rstr :=
  span_not is_ascii_digit value.

Definition split_at_deb_non_digit (value : rstr) : rstr * rstr :=
  span_not (fun c => negb (is_ascii_digit c)) value.

(** The [loop] of [compare_deb_part]: one iteration per unit of fuel. *)
Fixpoint compare_deb_part_loop (fuel : nat) (a b : rstr) : option comparison :=
  match fuel with
  | O => None
  | S fuel =>
      let '(a_non_digit, a_after) := split_at_deb_digit a in
      let '(b_non_digit, b_after) := split_at_deb_digit b in
      match compare_deb_non_digits a_non_digit b_non_digit with
      | Eq =>
          let '(a_number, a_next) := split_at_deb_non_digit a_after in
          let '(b_number, b_next) := split_at_deb_non_digit b_after in
          match a_number, b_number with
          | [], [] => Some Eq
          | _, _ =>
              match compare_deb_numeric_strings a_number b_number with
              | Eq => compare_deb_part_loop fuel a_next b_next
              | other => Some other
              end
          end
      | other => Some other
      end
  end.

(** Enough iterations for two parts: each one but the last consumes a digit. *)
Definition part_fuel (a b : rstr) : nat := S (length a + length b).

Definition compare_deb_part (a b : rstr) : comparison :=
  default Eq (compare_deb_part_loop (part_fuel a b) a b).

Definition split_deb_epoch (version : rstr) : Z * rstr :=
  match split_once (ch ":") version with
  | Some (epoch, rest) => (default 0 (parse_uint u64_max epoch), rest)
  | None => (0, version)
  end.

Definition split_deb_revision (version : rstr) : rstr * rstr :=
  default (version, []) (rsplit_once (ch "-") version).

Definition compare_deb_versions (a b : rstr) : comparison :=
  let '(epoch_a, rest_a) := split_deb_epoch a in
  let '(epoch_b, rest_b) := split_deb_epoch b in
  match epoch_a ?= epoch_b with
  | Eq =>
      let '(upstream_a, revision_a) := split_deb_revision rest_a in
      let '(upstream_b, revision_b) := split_deb_revision rest_b in
      match compare_deb_part upstream_a upstream_b with
      | Eq => compare_deb_part revision_a revision_b
      | other => other
      end
  | other => other
  end.

(** One value handed to the hasher. *)
Inductive hash_input :=
| HashU64 (n : Z)
| HashStr (s : rstr).

Fixpoint hash_deb_part (fuel : nat) (part : rstr) : list hash_input :=
  match fuel, part with
  | O, _ | _, [] => []
  | S fuel, _ :: _ =>
      let '(non_digits, rest) := split_at_deb_digit part in
      let '(digits, rest) := split_at_deb_non_digit rest in
      let digits := trim_zeros digits in
      match non_digits with [] => [] | _ => [HashStr non_digits] end
      ++ match digits with [] => [] | _ => [HashStr digits] end
      ++ hash_deb_part fuel rest
  end.

Definition hash_deb_version (version : rstr) : list hash_input :=
  let '(epoch, rest) := split_deb_epoch version in
  let '(upstream, revision) := split_deb_revision rest in
  HashU64 epoch
  :: (hash_deb_part (length upstream) upstream ++ [HashStr []])
  ++ (hash_deb_part (length revision) revision ++ [HashStr []]).

(** [PartialEq] and [PartialOrd] of [DebVersion] defer to [Ord::cmp], which
    compares the wrapped strings. *)
Record DebVersion := { deb_raw : rstr }.

Definition deb_cmp (a b : DebVersion) : comparison :=
  compare_deb_versions (deb_raw a) (deb_raw b).
Definition deb_partial_cmp (a b : DebVersion) : option comparison := Some (deb_cmp a b).
Definition deb_eq (a b : DebVersion) : bool :=
  match deb_cmp a b with Eq => true | _ => false end.

(** Policy section 5.6.12 reads a digit run as the number it denotes. *)
Fixpoint digits_value (acc : Z) (s : rstr) : Z :=
  match s with
  | [] => acc
  | c :: s => digits_value (acc * 10 + (c - ch "0")) s
  end.

Example compare_deb_versions_ex :
  compare_deb_versions (str "1.9") (str "1.10") = Lt
  /\ compare_deb_versions (str "1:1.0") (str "2.0") = Gt
  /\ compare_deb_versions (str "1.0~rc1-1") (str "1.0-1") = Lt
  /\ compare_deb_versions (str "1.0a") (str "1.0+") = Lt
  /\ compare_deb_versions (str "1.0-0") (str "1.00") = Eq
  /\ hash_deb_version (str "1:0a01-2")
     = [HashU64 1; HashStr (str "a"); HashStr (str "1"); HashStr [];
        HashStr (str "2"); HashStr []].
Proof. vm_compute. auto 10. Qed.

(** * Non-digit runs *)

Definition nonneg (s : rstr) : Prop := Forall (fun c => 0 <= c) s.

Lemma deb_character_order_sign c :
  0 <= c -> deb_character_order c < 0 <-> c = ch "~".
Proof.
  unfold deb_character_order, is_ascii_alphabetic. intros Hc. ev_ch.
  destruct (Z.eqb_spec c 126); [lia|]. destruct (_ || _); lia.
Qed.

Lemma deb_character_order_nonzero c : 0 <= c -> deb_character_order c ≠ 0.
Proof.
  unfold deb_character_order, is_ascii_alphabetic, is_ascii_lowercase, is_ascii_uppercase.
  intros Hc. ev_ch. destruct (Z.eqb_spec c 126); [lia|].
  destruct (_ || _) eqn:E; [|lia]. to_prop. destruct E; to_prop; lia.
Qed.

Lemma deb_character_order_inj c d :
  0 <= c -> 0 <= d -> deb_character_order c = deb_character_order d -> c = d.
Proof.
  unfold deb_character_order, is_ascii_alphabetic, is_ascii_lowercase, is_ascii_uppercase.
  intros Hc Hd. ev_ch.
  destruct (Z.eqb_spec c 126), (Z.eqb_spec d 126); try lia;
    repeat case_match; to_prop; repeat case_match; try lia;
    repeat match goal with H : _ \/ _ |- _ => destruct H end; to_prop; lia.
Qed.

(** The end of a run ranks as [0], between the tilde and every other character. *)
Definition non_digit_key (s : rstr) : list Z := map deb_character_order s ++ [0].

Lemma compare_deb_non_digits_key a b :
  nonneg a -> nonneg b ->
  compare_deb_non_digits a b = list_cmp (non_digit_key a) (non_digit_key b).
Proof.
  intros Ha; revert b; induction Ha as [|x a Hx Ha IH]; intros b Hb;
    destruct Hb as [|y b Hy Hb]; cbn -[Z.compare Z.eqb ch]; [done| | |].
  - pose proof (deb_character_order_sign y Hy). pose proof (deb_character_order_nonzero y Hy).
    destruct (Z.eqb_spec y (ch "~")), (Z.compare_spec 0 (deb_character_order y)); try done; lia.
  - pose proof (deb_character_order_sign x Hx). pose proof (deb_character_order_nonzero x Hx).
    destruct (Z.eqb_spec x (ch "~")), (Z.compare_spec (deb_character_order x) 0); try done; lia.
  - destruct (_ ?= _); [|done..]. by apply IH.
Qed.

Lemma compare_deb_non_digits_order : cmp_order nonneg compare_deb_non_digits.
Proof.
  eapply (cmp_order_ext _ always); [done|apply compare_deb_non_digits_key|].
  apply (cmp_order_key non_digit_key always), cmp_order_list.
Qed.

Lemma compare_deb_non_digits_eq a b :
  nonneg a -> nonneg b -> compare_deb_non_digits a b = Eq -> a = b.
Proof.
  intros Ha; revert b; induction Ha as [|x a Hx Ha IH]; intros b Hb;
    destruct Hb as [|y b Hy Hb]; simpl; try (destruct (_ =? _); done); [done|].
  destruct (Z.compare_spec (deb_character_order x) (deb_character_order y)) as [E| |]; try done.
  intros ?%IH; [|done]. apply deb_character_order_inj in E; congruence.
Qed.

Lemma compare_deb_non_digits_tilde v x :
  compare_deb_non_digits (v ++ ch "~" :: x) v = Lt.
Proof. induction v as [|c v IH]; simpl; [done|]. by rewrite Z.compare_refl. Qed.

(** * Digit runs *)

Definition all_digits (s : rstr) : Prop := Forall (fun c => is_ascii_digit c = true) s.

Lemma compare_deb_numeric_strings_order : cmp_order always compare_deb_numeric_strings.
Proof.
  apply (cmp_order_lex always).
  - apply (cmp_order_key (fun s => str_len (trim_zeros s)) always), cmp_order_Z.
  - apply (cmp_order_key trim_zeros always), cmp_order_list.
Qed.

Lemma compare_deb_numeric_strings_eq a b :
  compare_deb_numeric_strings a b = Eq -> trim_zeros a = trim_zeros b.
Proof.
  unfold compare_deb_numeric_strings.
  destruct (_ ?= _); try done. simpl. apply list_cmp_eq.
Qed.

Lemma digits_value_acc acc s :
  digits_value acc s = acc * 10 ^ Z.of_nat (length s) + digits_value 0 s.
Proof.
  revert acc; induction s as [|c s IH]; intros acc; cbn [digits_value length]; [lia|].
  rewrite IH, (IH (0 * 10 + _)), Nat2Z.inj_succ, Z.pow_succ_r by lia. ring.
Qed.

Lemma digits_value_bound s :
  all_digits s -> 0 <= digits_value 0 s < 10 ^ Z.of_nat (length s).
Proof.
  induction 1 as [|c s Hc _ IH]; cbn [digits_value length]; [lia|].
  rewrite digits_value_acc, Nat2Z.inj_succ, Z.pow_succ_r by lia.
  unfold is_ascii_digit in Hc. ev_ch. to_prop. nia.
Qed.

Lemma list_cmp_digits_value a b :
  all_digits a -> all_digits b -> length a = length b ->
  list_cmp a b = (digits_value 0 a ?= digits_value 0 b).
Proof.
  intros Ha; revert b; induction Ha as [|c a Hc Ha IH]; intros b Hb Hl;
    destruct Hb as [|d b Hd Hb]; simplify_eq/=; [done|].
  rewrite digits_value_acc, (digits_value_acc _ b).
  pose proof (digits_value_bound a Ha). pose proof (digits_value_bound b Hb).
  rewrite <- Hl in *. rewrite IH by done. set (p := 10 ^ Z.of_nat (length a)) in *.
  destruct (Z.compare_spec c d) as [->| |]; symmetry.
  - destruct (Z.compare_spec (digits_value 0 a) (digits_value 0 b));
      rewrite ?Z.compare_eq_iff, ?Z.compare_lt_iff, ?Z.compare_gt_iff; lia.
  - apply Z.compare_lt_iff. nia.
  - apply Z.compare_gt_iff. nia.
Qed.

Lemma trim_zeros_spec s :
  all_digits s ->
  all_digits (trim_zeros s) /\ digits_value 0 (trim_zeros s) = digits_value 0 s
  /\ (trim_zeros s = [] \/ 10 ^ (Z.of_nat (length (trim_zeros s)) - 1) <= digits_value 0 (trim_zeros s)).
Proof.
  induction 1 as [|c s Hc Hs IH]; [split; [constructor|split; [done|by left]]|].
  unfold trim_zeros in *. cbn [trim_start_matches]. destruct (Z.eqb_spec (ch "0") c) as [<-|Hne].
  - cbn [digits_value]. replace (0 * 10 + (ch "0" - ch "0")) with 0 by lia. done.
  - split; [by constructor|]. split; [done|]. right. cbn [digits_value length].
    rewrite digits_value_acc. pose proof (digits_value_bound s Hs).
    unfold is_ascii_digit in Hc. ev_ch. to_prop.
    replace (Z.of_nat (S (length s)) - 1) with (Z.of_nat (length s)) by lia. nia.
Qed.

Lemma all_digits_len s : all_digits s -> str_len s = Z.of_nat (length s).
Proof.
  intros H. apply str_len_ascii. eapply Forall_impl; [exact H|].
  intros c. unfold is_ascii_digit. ev_ch. intros; to_prop; lia.
Qed.

(** A shorter run without leading zeros denotes a smaller number. *)
Lemma shorter_run_smaller a b :
  all_digits a -> all_digits b ->
  b = [] \/ 10 ^ (Z.of_nat (length b) - 1) <= digits_value 0 b ->
  (length a < length b)%nat -> digits_value 0 a < digits_value 0 b.
Proof.
  intros Ha Hb [->|Hlow] Hlt; [simpl in Hlt; lia|].
  pose proof (digits_value_bound a Ha).
  assert (10 ^ Z.of_nat (length a) <= 10 ^ (Z.of_nat (length b) - 1)); [|lia].
  apply Z.pow_le_mono_r; lia.
Qed.

(** * Parts *)

Definition head_text (s : rstr) : rstr := (split_at_deb_digit s).1.
Definition head_number (s : rstr) : rstr := (split_at_deb_non_digit (split_at_deb_digit s).2).1.
Definition next_part (s : rstr) : rstr := (split_at_deb_non_digit (split_at_deb_digit s).2).2.

Lemma part_split s : s = head_text s ++ head_number s ++ next_part s.
Proof.
  unfold head_text, head_number, next_part, split_at_deb_digit, split_at_deb_non_digit.
  pose proof (span_not_app is_ascii_digit s) as H1. destruct (span_not is_ascii_digit s) as [x r].
  pose proof (span_not_app (fun c => negb (is_ascii_digit c)) r) as H2.
  simpl. destruct (span_not (fun c => negb (is_ascii_digit c)) r) as [y t]. simpl. by subst r.
Qed.

Lemma part_length s :
  length s = (length (head_text s) + length (head_number s) + length (next_part s))%nat.
Proof. rewrite (part_split s) at 1. rewrite !length_app. lia. Qed.

Lemma head_number_nil s : head_number s = [] -> next_part s = [].
Proof.
  unfold head_number, next_part, split_at_deb_digit, split_at_deb_non_digit.
  destruct (span_not is_ascii_digit s) as [x [|c r]] eqn:E; [done|].
  assert (Hc : is_ascii_digit c = true) by (apply (span_not_snd _ s c r); by rewrite E).
  simpl. rewrite Hc. simpl. by destruct (span_not _ r).
Qed.

Lemma head_number_digits s : all_digits (head_number s).
Proof.
  unfold head_number, split_at_deb_non_digit. eapply Forall_impl; [apply span_not_fst|].
  intros c H. simpl in H. by apply negb_false_iff.
Qed.

Lemma next_part_shorter s : s ≠ [] -> (length (next_part s) < length s)%nat.
Proof.
  intros Hs. pose proof (part_length s). destruct (head_number s) eqn:En; [|simpl in *; lia].
  pose proof (head_number_nil s En) as Hn. rewrite Hn in *. destruct s; simpl in *; [done|lia].
Qed.

Lemma nonneg_parts s : nonneg s -> nonneg (head_text s) /\ nonneg (next_part s).
Proof. unfold nonneg. rewrite (part_split s) at 1. rewrite !Forall_app. tauto. Qed.

(** The comparison read off the first [n] runs of each part. *)
Fixpoint compare_runs (n : nat) (a b : rstr) : comparison :=
  match n with
  | O => Eq
  | S n =>
      then_with (compare_deb_non_digits (head_text a) (head_text b))
        (then_with (compare_deb_numeric_strings (head_number a) (head_number b))
           (compare_runs n (next_part a) (next_part b)))
  end.

Lemma compare_runs_order n : cmp_order nonneg (compare_runs n).
Proof.
  induction n as [|n IH]; [apply cmp_order_const|]. cbn [compare_runs].
  apply cmp_order_lex; [|apply cmp_order_lex].
  - eapply (cmp_order_ext _ (fun s => nonneg (head_text s))); [intros s H%nonneg_parts; apply H|done|].
    apply (cmp_order_key head_text nonneg), compare_deb_non_digits_order.
  - apply (cmp_order_ext _ always _ (fun x y => compare_deb_numeric_strings (head_number x) (head_number y)));
      [done|done|]. apply (cmp_order_key head_number always), compare_deb_numeric_strings_order.
  - eapply (cmp_order_ext _ (fun s => nonneg (next_part s))); [intros s H%nonneg_parts; apply H|done|].
    apply (cmp_order_key next_part nonneg), IH.
Qed.

Lemma compare_runs_nil n : compare_runs n [] [] = Eq.
Proof. by induction n. Qed.

Lemma compare_deb_part_loop_step fuel a b :
  compare_deb_part_loop (S fuel) a b =
  match compare_deb_non_digits (head_text a) (head_text b) with
  | Eq =>
      match head_number a, head_number b with
      | [], [] => Some Eq
      | _, _ =>
          match compare_deb_numeric_strings (head_number a) (head_number b) with
          | Eq => compare_deb_part_loop fuel (next_part a) (next_part b)
          | other => Some other
          end
      end
  | other => Some other
  end.
Proof.
  cbn [compare_deb_part_loop]. unfold head_text, head_number, next_part.
  destruct (split_at_deb_digit a), (split_at_deb_digit b). simpl.
  destruct (split_at_deb_non_digit _), (split_at_deb_non_digit _). done.
Qed.

(** Enough fuel gives an answer, and the answer is the run-wise comparison. *)
Lemma compare_deb_part_loop_runs fuel n a b :
  (length a + length b < fuel)%nat -> (length a + length b < n)%nat ->
  compare_deb_part_loop fuel a b = Some (compare_runs n a b).
Proof.
  revert n a b; induction fuel as [|fuel IH]; intros n a b Hf Hn; [lia|].
  destruct n as [|n]; [lia|]. rewrite compare_deb_part_loop_step. cbn [compare_runs].
  destruct (compare_deb_non_digits _ _); [|done..]. cbn [then_with].
  pose proof (part_length a). pose proof (part_length b).
  destruct (head_number a) eqn:Ea, (head_number b) eqn:Eb.
  - apply head_number_nil in Ea, Eb. rewrite Ea, Eb, compare_runs_nil. done.
  - destruct (compare_deb_numeric_strings _ _); [|done..]. apply IH; simpl in *; lia.
  - destruct (compare_deb_numeric_strings _ _); [|done..]. apply IH; simpl in *; lia.
  - destruct (compare_deb_numeric_strings _ _); [|done..]. apply IH; simpl in *; lia.
Qed.

Lemma compare_deb_part_runs n a b :
  (length a + length b < n)%nat -> compare_deb_part a b = compare_runs n a b.
Proof.
  intros Hn. unfold compare_deb_part, part_fuel.
  rewrite (compare_deb_part_loop_runs _ n) by lia. done.
Qed.

Lemma compare_deb_part_order : cmp_order nonneg compare_deb_part.
Proof.
  apply (cmp_order_limit (@length Z) (fun n => compare_runs (S (n + n)))); [intros n; apply compare_runs_order|].
  intros n x y Hx Hy. apply compare_deb_part_runs. lia.
Qed.

(** * Whole versions *)

Definition epoch_of (v : rstr) : Z := (split_deb_epoch v).1.
Definition upstream_of (v : rstr) : rstr := (split_deb_revision (split_deb_epoch v).2).1.
Definition revision_of (v : rstr) : rstr := (split_deb_revision (split_deb_epoch v).2).2.

Lemma compare_deb_versions_split a b :
  compare_deb_versions a b =
  then_with (epoch_of a ?= epoch_of b)
    (then_with (compare_deb_part (upstream_of a) (upstream_of b))
       (compare_deb_part (revision_of a) (revision_of b))).
Proof.
  unfold compare_deb_versions, epoch_of, upstream_of, revision_of.
  destruct (split_deb_epoch a) as [e r], (split_deb_epoch b) as [e' r']. simpl.
  destruct (split_deb_revision r), (split_deb_revision r'). simpl.
  destruct (e ?= e'); simpl; try done; by destruct (compare_deb_part _ _).
Qed.

Lemma nonneg_split_deb_epoch v : nonneg v -> nonneg (split_deb_epoch v).2.
Proof.
  unfold split_deb_epoch. intros H. destruct (split_once _ v) as [[e r]|] eqn:E; [|done].
  apply split_once_Some in E as [-> _]. unfold nonneg in *. rewrite Forall_app, Forall_cons in H. naive_solver.
Qed.

Lemma nonneg_split_deb_revision v :
  nonneg v -> nonneg (split_deb_revision v).1 /\ nonneg (split_deb_revision v).2.
Proof.
  unfold split_deb_revision. intros H. destruct (rsplit_once _ v) as [[u r]|] eqn:E; simpl.
  - apply rsplit_once_Some in E as [-> _]. unfold nonneg in *. rewrite Forall_app, Forall_cons in H. naive_solver.
  - split; [done|constructor].
Qed.

Lemma compare_deb_versions_order_nonneg : cmp_order nonneg compare_deb_versions.
Proof.
  eapply (cmp_order_ext _ nonneg); [done|intros; apply compare_deb_versions_split|].
  apply cmp_order_lex; [|apply cmp_order_lex].
  - eapply (cmp_order_ext _ always); [done|done|].
    apply (cmp_order_key epoch_of always), cmp_order_Z.
  - eapply (cmp_order_ext _ (fun v => nonneg (upstream_of v))); [|done|].
    + intros v H%nonneg_split_deb_epoch%nonneg_split_deb_revision; apply H.
    + apply (cmp_order_key upstream_of nonneg), compare_deb_part_order.
  - eapply (cmp_order_ext _ (fun v => nonneg (revision_of v))); [|done|].
    + intros v H%nonneg_split_deb_epoch%nonneg_split_deb_revision; apply H.
    + apply (cmp_order_key revision_of nonneg), compare_deb_part_order.
Qed.

Lemma compare_deb_versions_order : cmp_order valid_str compare_deb_versions.
Proof.
  apply (cmp_order_ext _ nonneg _ compare_deb_versions); [apply valid_str_nonneg|done|].
  apply compare_deb_versions_order_nonneg.
Qed.

(** * Hashing *)

Definition run_inputs (s : rstr) : list hash_input :=
  match head_text s with [] => [] | _ => [HashStr (head_text s)] end
  ++ match trim_zeros (head_number s) with
     | [] => []
     | _ => [HashStr (trim_zeros (head_number s))]
     end.

Lemma hash_deb_part_unfold fuel s :
  (length s <= fuel)%nat ->
  hash_deb_part fuel s = run_inputs s ++ hash_deb_part (pred fuel) (next_part s).
Proof.
  destruct fuel as [|fuel], s as [|c s]; intros Hl; simpl in Hl; try lia; [done|by destruct fuel|].
  cbn [hash_deb_part pred]. unfold run_inputs, head_text, head_number, next_part.
  destruct (split_at_deb_digit _) as [t r]. simpl.
  destruct (split_at_deb_non_digit r) as [d n]. simpl. by rewrite <- app_assoc.
Qed.

Lemma hash_deb_part_nil fuel : hash_deb_part fuel [] = [].
Proof. by destruct fuel. Qed.

Lemma compare_runs_eq_step k a b :
  nonneg a -> nonneg b -> compare_runs (S k) a b = Eq ->
  run_inputs a = run_inputs b /\ compare_runs k (next_part a) (next_part b) = Eq.
Proof.
  intros Ha Hb. cbn [compare_runs].
  destruct (compare_deb_non_digits _ _) eqn:En; try done. simpl.
  destruct (compare_deb_numeric_strings _ _) eqn:Ed; try done. simpl.
  apply compare_deb_non_digits_eq in En; [|apply nonneg_parts; done..].
  apply compare_deb_numeric_strings_eq in Ed. unfold run_inputs. by rewrite En, Ed.
Qed.

Lemma next_part_le s n : (length s <= n)%nat -> (length (next_part s) <= pred n)%nat.
Proof.
  destruct s as [|c s]; [simpl; lia|]. pose proof (next_part_shorter (c :: s) ltac:(done)). lia.
Qed.

Lemma hash_deb_part_runs k n m a b :
  nonneg a -> nonneg b -> (length a <= n)%nat -> (length b <= m)%nat ->
  (length a + length b <= k)%nat -> compare_runs k a b = Eq ->
  hash_deb_part n a = hash_deb_part m b.
Proof.
  revert n m a b. induction k as [|k IH]; intros n m a b Ha Hb Hn Hm Hk Hc.
  - destruct a, b; simpl in Hk; try lia. by rewrite !hash_deb_part_nil.
  - destruct (decide (a = [] /\ b = [])) as [[-> ->]|Hne]; [by rewrite !hash_deb_part_nil|].
    apply compare_runs_eq_step in Hc as [Hr Hc]; [|done..].
    rewrite (hash_deb_part_unfold n a), (hash_deb_part_unfold m b), Hr by done. f_equal.
    apply IH; [by apply nonneg_parts..|by apply next_part_le|by apply next_part_le| |done].
    pose proof (next_part_le a (length a) ltac:(lia)). pose proof (next_part_le b (length b) ltac:(lia)).
    destruct a, b; simpl in *; try lia; naive_solver.
Qed.

Lemma hash_deb_part_eq a b :
  nonneg a -> nonneg b -> compare_deb_part a b = Eq ->
  hash_deb_part (length a) a = hash_deb_part (length b) b.
Proof.
  intros Ha Hb Hc. eapply (hash_deb_part_runs (S (length a + length b))); try done; [lia|].
  rewrite <- Hc. symmetry. apply compare_deb_part_runs. lia.
Qed.

(** * Epochs *)

Lemma digits_value_mono acc s : 0 <= acc -> all_digits s -> acc <= digits_value acc s.
Proof.
  intros H0 Hs. rewrite digits_value_acc. pose proof (digits_value_bound s Hs).
  assert (1 <= 10 ^ Z.of_nat (length s)) by (apply (Z.pow_le_mono_r 10 0); lia). nia.
Qed.

Lemma parse_digits_value max acc s :
  0 <= acc -> all_digits s ->
  parse_digits max acc s =
    match s with
    | [] => Some acc
    | _ => if digits_value acc s <=? max then Some (digits_value acc s) else None
    end.
Proof.
  intros H0 Hs; revert acc H0; induction Hs as [|c s Hc Hs IH]; intros acc H0; [done|].
  cbn [parse_digits digits_value]. rewrite Hc. cbn zeta.
  assert (0 <= acc * 10 + (c - ch "0")) as H1.
  { unfold is_ascii_digit in Hc. ev_ch. to_prop. lia. }
  pose proof (digits_value_mono _ s H1 Hs). rewrite IH by done.
  destruct (Z.leb_spec (acc * 10 + (c - ch "0")) max).
  - destruct s; [|done]. cbn [digits_value]. destruct (Z.leb_spec (acc * 10 + (c - ch "0")) max); [done|lia].
  - destruct (Z.leb_spec (digits_value (acc * 10 + (c - ch "0")) s) max); [lia|done].
Qed.

(** * Properties *)

(** C40: [compare_deb_versions], the comparator behind every Debian update and
    dependency decision, is a total preorder on Rust strings: it is reflexive,
    swapping the arguments flips the answer, "not greater" is transitive, and
    versions that compare equal compare alike with every third version. *)
Theorem compare_deb_versions_total_preorder a b c :
  valid_str a -> valid_str b -> valid_str c ->
  compare_deb_versions a a = Eq
  /\ compare_deb_versions b a = CompOpp (compare_deb_versions a b)
  /\ (compare_deb_versions a b ≠ Gt -> compare_deb_versions b c ≠ Gt ->
      compare_deb_versions a c ≠ Gt)
  /\ (compare_deb_versions a b = Eq -> compare_deb_versions a c = compare_deb_versions b c).
Proof.
  intros Ha Hb Hc. pose proof compare_deb_versions_order as O.
  split; [by apply (cmp_refl _ _ _ O)|]. split; [by apply (cmp_flip O)|].
  split; [|by apply (cmp_eq_l O)].
  intros H1 H2. destruct (compare_deb_versions a b) eqn:E1; [|clear H1|done].
  - by rewrite (cmp_eq_l O a b c).
  - destruct (compare_deb_versions b c) eqn:E2; [| |done].
    + by rewrite (cmp_eq_r _ _ a b c O), E1 by done.
    + by rewrite (cmp_trans O Lt a b c).
Qed.

Lemma compare_deb_versions_total_preorder_witness :
  compare_deb_versions (str "1.0~rc1") (str "1.0") ≠ Gt
  /\ compare_deb_versions (str "1.0~rc1") (str "1:0.1") ≠ Gt.
Proof.
  assert (V : forall s, forallb is_scalar s = true -> valid_str s)
    by (intros s H; by apply Forall_forall; intros x Hx; rewrite forallb_forall in H; apply H, list_elem_of_In).
  split; [by vm_compute|].
  apply (compare_deb_versions_total_preorder (str "1.0~rc1") (str "1.0") (str "1:0.1"));
    try (apply V; reflexivity); by vm_compute.
Defined.

(** the [Hash] implementation agrees with the ordering-based equality:
    versions that compare equal feed the hasher the same sequence of values,
    so a [DebVersion] is found in a hash table under every equal spelling. *)
Theorem hash_deb_version_respects_eq a b :
  valid_str (deb_raw a) -> valid_str (deb_raw b) -> deb_eq a b = true ->
  hash_deb_version (deb_raw a) = hash_deb_version (deb_raw b).
Proof.
  unfold deb_eq, deb_cmp. intros Ha%valid_str_nonneg Hb%valid_str_nonneg H.
  destruct (compare_deb_versions (deb_raw a) (deb_raw b)) eqn:E; try done. clear H.
  rewrite compare_deb_versions_split in E.
  destruct (Z.compare_spec (epoch_of (deb_raw a)) (epoch_of (deb_raw b))) as [He| |]; try done.
  simpl in E. destruct (compare_deb_part (upstream_of _) _) eqn:Eu; try done. simpl in E.
  apply hash_deb_part_eq in Eu, E;
    try (apply nonneg_split_deb_revision, nonneg_split_deb_epoch; done).
  unfold epoch_of, upstream_of, revision_of, hash_deb_version in *.
  destruct (split_deb_epoch (deb_raw a)) as [ea ra], (split_deb_epoch (deb_raw b)) as [eb rb]. simpl in *.
  destruct (split_deb_revision ra), (split_deb_revision rb). simpl in *. by rewrite He, Eu, E.
Qed.

Lemma hash_deb_version_respects_eq_witness :
  hash_deb_version (str "0:1.02-0") = hash_deb_version (str "1.2").
Proof.
  apply (hash_deb_version_respects_eq {| deb_raw := str "0:1.02-0" |} {| deb_raw := str "1.2" |});
    [repeat constructor..|reflexivity].
Defined.

(** Digit runs are compared by the number they denote, whatever their
    length: no integer parser is involved, so no repository-supplied version
    can overflow it. *)
Theorem compare_deb_numeric_strings_by_value a b :
  all_digits a -> all_digits b ->
  compare_deb_numeric_strings a b = (digits_value 0 a ?= digits_value 0 b).
Proof.
  intros Ha Hb. unfold compare_deb_numeric_strings.
  destruct (trim_zeros_spec a Ha) as (Da & <- & La). destruct (trim_zeros_spec b Hb) as (Db & <- & Lb).
  rewrite !all_digits_len by done.
  destruct (Z.compare_spec (Z.of_nat (length (trim_zeros a))) (Z.of_nat (length (trim_zeros b)))); simpl.
  - apply list_cmp_digits_value; [done..|lia].
  - symmetry. apply Z.compare_lt_iff, shorter_run_smaller; [done..|lia].
  - symmetry. apply Z.compare_gt_iff, shorter_run_smaller; [done..|lia].
Qed.

Lemma compare_deb_numeric_strings_by_value_witness :
  compare_deb_numeric_strings (str "0099999999999999999999999") (str "100000000000000000000000")
  = (digits_value 0 (str "0099999999999999999999999") ?= digits_value 0 (str "100000000000000000000000")).
Proof. apply compare_deb_numeric_strings_by_value; repeat constructor. Defined.

(** The comparison loop terminates: the iterations it needs are bounded
    by the lengths of its operands, and with that many it always answers. *)
Theorem compare_deb_part_total a b :
  compare_deb_part_loop (part_fuel a b) a b = Some (compare_deb_part a b).
Proof.
  unfold compare_deb_part, part_fuel.
  rewrite (compare_deb_part_loop_runs _ (S (length a + length b))) by lia. done.
Qed.

Lemma compare_runs_tilde n v x :
  (length v < n)%nat -> compare_runs n (v ++ ch "~" :: x) v = Lt.
Proof.
  revert v; induction n as [|n IH]; intros v Hn; [lia|]. cbn [compare_runs].
  unfold head_text, head_number, next_part, split_at_deb_digit, split_at_deb_non_digit.
  rewrite span_not_append. pose proof (span_not_app is_ascii_digit v) as Hv.
  destruct (span_not is_ascii_digit v) as [t [|d r]] eqn:E; simpl.
  - rewrite app_nil_r in Hv. subst t. destruct (span_not is_ascii_digit x) as [y z]. simpl.
    by rewrite compare_deb_non_digits_tilde.
  - assert (Hd : is_ascii_digit d = true) by (apply (span_not_snd _ v d r); by rewrite E).
    rewrite Hd. simpl. rewrite span_not_append.
    assert (Hrefl : compare_deb_non_digits t t = Eq) by (clear; induction t; simpl; [done|by rewrite Z.compare_refl]).
    rewrite Hrefl. simpl. pose proof (span_not_app (fun c => negb (is_ascii_digit c)) r) as Hr.
    destruct (span_not _ r) as [u [|e s]] eqn:Er; simpl; rewrite ?app_nil_r;
      rewrite (cmp_refl _ _ _ compare_deb_numeric_strings_order I); simpl; subst v.
    + apply (IH []). rewrite length_app in Hn. simpl in *. lia.
    + apply (IH (e :: s)). rewrite Hr, length_app in Hn. cbn [length] in Hn.
      rewrite length_app in Hn. simpl in *. lia.
Qed.

(** A tilde suffix marks a pre-release: appending one to an upstream
    version yields a version that sorts strictly before it. *)
Theorem tilde_sorts_before v x :
  ch ":" ∉ v ++ x -> ch "-" ∉ v ++ x ->
  compare_deb_versions (v ++ ch "~" :: x) v = Lt.
Proof.
  intros Hc Hd. rewrite compare_deb_versions_split. unfold epoch_of, upstream_of, split_deb_epoch.
  assert (split_once (ch ":") (v ++ ch "~" :: x) = None) as -> by (apply split_once_None; set_solver).
  assert (split_once (ch ":") v = None) as -> by (apply split_once_None; set_solver).
  simpl. unfold split_deb_revision.
  assert (Hr : forall s, ch "-" ∉ s -> rsplit_once (ch "-") s = None).
  { intros s Hs. destruct (rsplit_once _ s) as [[p q]|] eqn:E; [|done].
    apply rsplit_once_Some in E as [-> _]. set_solver. }
  rewrite !Hr by set_solver. simpl.
  rewrite (compare_deb_part_runs (S (length (v ++ ch "~" :: x) + length v))) by lia.
  rewrite compare_runs_tilde; [done|]. rewrite length_app. simpl. lia.
Qed.

Lemma tilde_sorts_before_witness :
  compare_deb_versions (str "2.38~rc1") (str "2.38") = Lt.
Proof.
  apply (tilde_sorts_before (str "2.38") (str "rc1")); vm_compute; intros H;
    repeat (apply elem_of_cons in H as [H|H]; [discriminate H|]); by apply elem_of_nil in H.
Defined.

(** the epoch of a version is its numeric value when that fits in 64 bits
    and [0] otherwise. *)
Theorem epoch_is_u64 epoch rest :
  epoch ≠ [] -> all_digits epoch ->
  split_deb_epoch (epoch ++ ch ":" :: rest)
  = (if digits_value 0 epoch <=? u64_max then digits_value 0 epoch else 0, rest).
Proof.
  intros Hne Hd. unfold split_deb_epoch.
  assert (split_once (ch ":") (epoch ++ ch ":" :: rest) = Some (epoch, rest)) as ->.
  { apply split_once_Some. split; [done|]. intros Hin.
    unfold all_digits in Hd. rewrite Forall_forall in Hd. by specialize (Hd _ Hin). }
  f_equal. unfold parse_uint. destruct epoch as [|c s]; [done|].
  inversion Hd as [|? ? Hc Hs]; subst. destruct (Z.eqb_spec c (ch "+")); [by subst|].
  rewrite parse_digits_value by done. by destruct (_ <=? _).
Qed.

Lemma epoch_is_u64_witness :
  split_deb_epoch (str "4294967296" ++ ch ":" :: str "1.0") = (4294967296, str "1.0").
Proof. apply (epoch_is_u64 (str "4294967296") (str "1.0")); [done|repeat constructor]. Defined.
