(* ===== verification/DebResolver.v ===== *)
(** The pure Debian dependency resolver:
    src/src/package_managers/debian_db/resolver.rs.

    The parser of the [Depends:] syntax, the resolver state and every method
    of [DependencyResolver] are translated here. Hash maps and sets are gmaps
    and gsets; where the code iterates a hash set the enumeration is an
    argument of the definition ([order], [keys]), so a theorem quantified over
    it speaks about every iteration order. The two explicit-stack loops
    ([resolve_package], [topological_sort]) carry fuel; [StepLimit] is the
    answer of the model when it runs out, and [resolve_never_hits_step_limit]
    shows that it never does. The theorems about these definitions are in
    DebResolverClosure.v and DebResolverOrder.v. *)

From S2P Require Import Prelude DebVersion.
Open Scope Z_scope.
Open Scope omg_scope.

(** * Data *)

Inductive VersionOp := OpEq | OpGe | OpGt | OpLe | OpLt.

#[export] Instance VersionOp_eq_dec : EqDecision VersionOp.
Proof. solve_decision. Defined.

Record VersionConstraint := {
  op : VersionOp;
  version : rstr
}.

#[warnings="-register-all"]
Inductive Dependency :=
  mkDependency (name : rstr) (version_constraint : option VersionConstraint)
    (alternatives : list Dependency).

Definition dep_name (d : Dependency) : rstr := let 'mkDependency n _ _ := d in n.
Definition dep_constraint (d : Dependency) : option VersionConstraint :=
  let 'mkDependency _ c _ := d in c.
Definition dep_alternatives (d : Dependency) : list Dependency :=
  let 'mkDependency _ _ a := d in a.

Inductive DependencyTarget :=
| Installed
| Available (name : rstr).

Record DebianPackage := {
  pkg_name : rstr;
  pkg_version : rstr;
  pkg_description : rstr;
  pkg_section : rstr;
  pkg_priority : rstr;
  pkg_installed_size : Z;
  pkg_maintainer : rstr;
  pkg_architecture : rstr;
  pkg_depends : list rstr;
  pkg_filename : rstr;
  pkg_size : Z;
  pkg_sha256 : rstr;
  pkg_homepage : rstr;
  pkg_component : rstr;
  pkg_suite : rstr;
  pkg_source_key : rstr
}.

Record DpkgPackageEntry := {
  dpkg_name : rstr;
  dpkg_version : rstr;
  dpkg_description : rstr;
  dpkg_architecture : rstr;
  dpkg_is_explicit : bool
}.

Record ResolutionResult := {
  to_install : list rstr;
  to_upgrade : list (rstr * rstr * rstr);
  to_remove : list rstr;
  download_size : Z;
  installed_size : Z
}.

Record DependencyResolver := {
  available : gmap rstr DebianPackage;
  installed : gmap rstr rstr;
  selected : gset rstr;
  dep_graph : gmap rstr (gset rstr)
}.

Definition set_dep_graph (self : DependencyResolver) (g : gmap rstr (gset rstr)) :=
  {| available := available self; installed := installed self;
     selected := selected self; dep_graph := g |}.

(** Why a [Depends:] entry was rejected. *)
Inductive DepParseError :=
| DepNameEmpty
| QualifierUnsupported (qualifier : rstr)
| ClosingParenMissing
| ClosingParenStray
| ConstraintUnsupported (s : rstr)
| DepVersionEmpty.

Inductive ResolveError :=
| NotInRepositories (name : rstr) (similar : list rstr)
| PackageNotFound (name : rstr)
| InvalidDependency (raw package : rstr) (e : DepParseError)
| CannotSatisfy (raw package : rstr) (dep : Dependency)
| PlanUnsatisfied (raw package : rstr)
| StepLimit.

(** [debian_arch]: Debian's name of the build target's architecture. *)
Definition debian_arch (ARCH : rstr) : rstr :=
  if str_eqb ARCH (str "x86_64") then str "amd64"
  else if str_eqb ARCH (str "aarch64") then str "arm64"
  else if str_eqb ARCH (str "x86") then str "i386"
  else if str_eqb ARCH (str "arm") then str "armhf"
  else ARCH.

(** * Parsing *)

(** [std::env::consts::ARCH] is fixed when the program is compiled. *)
Section resolver.
Context (ARCH : rstr).

Definition parse_version_constraint (s : rstr) : result VersionConstraint DepParseError :=
  let s := trim s in
  let? (o, v) :=
    match strip_prefix (str ">=") s with
    | Some v => Ok (OpGe, v)
    | None =>
    match strip_prefix (str ">>") s with
    | Some v => Ok (OpGt, v)
    | None =>
    match strip_prefix (str "<=") s with
    | Some v => Ok (OpLe, v)
    | None =>
    match strip_prefix (str "<<") s with
    | Some v => Ok (OpLt, v)
    | None =>
    match strip_prefix (str "=") s with
    | Some v => Ok (OpEq, v)
    | None =>
    match strip_prefix (str ">") s with
    | Some v => Ok (OpGe, v)
    | None =>
    match strip_prefix (str "<") s with
    | Some v => Ok (OpLe, v)
    | None => Err (ConstraintUnsupported s)
    end end end end end end end in
  let v := trim v in
  ensure (negb (str_eqb v [])) DepVersionEmpty ;?
  Ok {| op := o; version := v |}.

Definition parse_dependency_name (raw_name : rstr) : result rstr DepParseError :=
  let raw_name := trim raw_name in
  let '(name, qualifier) :=
    match split_once (ch ":") raw_name with
    | Some (name, qualifier) => (name, Some qualifier)
    | None => (raw_name, None)
    end in
  ensure (negb (str_eqb name [])) DepNameEmpty ;?
  (match qualifier with
   | Some qualifier =>
       ensure (str_eqb qualifier (str "native") || str_eqb qualifier (debian_arch ARCH))
         (QualifierUnsupported qualifier)
   | None => Ok tt
   end) ;?
  Ok name.

Definition parse_single_dep (s : rstr) : result Dependency DepParseError :=
  match split_once (ch "(") s with
  | Some (before, remainder) =>
      let raw_name := trim before in
      let? name := parse_dependency_name raw_name in
      let? constraint_str :=
        match split_once (ch ")") remainder with
        | Some (constraint_str, _) => Ok constraint_str
        | None => Err ClosingParenMissing
        end in
      let? c := parse_version_constraint constraint_str in
      Ok (mkDependency name (Some c) [])
  | None =>
      ensure (negb (contains_char (ch ")") s)) ClosingParenStray ;?
      let? name := parse_dependency_name s in
      Ok (mkDependency name None [])
  end.

Definition parse_dependency (s : rstr) : result Dependency DepParseError :=
  let parts := map trim (split_char (ch "|") (trim s)) in
  let? dependency := parse_single_dep (default [] (head parts)) in
  let? alternatives := try_map parse_single_dep (tail parts) in
  Ok (mkDependency (dep_name dependency) (dep_constraint dependency) alternatives).

(** * State *)

(** [installed_versions_for_resolver]: native entries overwrite, architecture
    independent ones only fill gaps, foreign ones are ignored. *)
Definition installed_versions_for_resolver (entries : list DpkgPackageEntry) : gmap rstr rstr :=
  foldl (fun versions package =>
    if str_eqb (dpkg_architecture package) (debian_arch ARCH) then
      <[dpkg_name package := dpkg_version package]> versions
    else if str_eqb (dpkg_architecture package) (str "all") then
      match versions !! dpkg_name package with
      | Some _ => versions
      | None => <[dpkg_name package := dpkg_version package]> versions
      end
    else versions) ∅ entries.

(** [DependencyResolver::new], given what [get_detailed_best_candidates] and
    [list_installed_fast] read. *)
Definition resolver_new (packages : list DebianPackage) (installed_list : list DpkgPackageEntry)
  : DependencyResolver :=
  {| available := foldl (fun m pkg => <[pkg_name pkg := pkg]> m) ∅ packages;
     installed := installed_versions_for_resolver installed_list;
     selected := ∅;
     dep_graph := ∅ |}.

Definition similarity_prefix (name : rstr) : rstr := take 3 name.

(** [add_package]; [keys] is the order in which the hash map yields its keys. *)
Definition add_package (keys : list rstr) (self : DependencyResolver) (name : rstr)
  : result DependencyResolver ResolveError :=
  match available self !! name with
  | None =>
      let similar := take 5 (filter (fun k =>
        starts_with (similarity_prefix name) k || contains name k || contains k name = true) keys) in
      Err (NotInRepositories name similar)
  | Some _ =>
      Ok {| available := available self; installed := installed self;
            selected := {[name]} ∪ selected self; dep_graph := dep_graph self |}
  end.

Definition version_satisfies (v : rstr) (c : VersionConstraint) : bool :=
  let cmp := compare_deb_versions v (version c) in
  match op c with
  | OpEq => bool_decide (cmp = Eq)
  | OpGe => bool_decide (cmp ≠ Lt)
  | OpGt => bool_decide (cmp = Gt)
  | OpLe => bool_decide (cmp ≠ Gt)
  | OpLt => bool_decide (cmp = Lt)
  end.

(** [is_none_or] of the optional constraint. *)
Definition constraint_ok (v : rstr) (c : option VersionConstraint) : bool :=
  match c with Some c => version_satisfies v c | None => true end.

(** [std::iter::once(dep).chain(dep.alternatives.iter())]. *)
Definition candidates (dep : Dependency) : list Dependency := dep :: dep_alternatives dep.

(** Whether a map of versions meets one candidate. *)
Definition candidate_met (versions : gmap rstr rstr) (candidate : Dependency) : bool :=
  match versions !! dep_name candidate with
  | Some v => constraint_ok v (dep_constraint candidate)
  | None => false
  end.

Definition candidate_target (self : DependencyResolver) (candidate : Dependency)
  : option DependencyTarget :=
  if candidate_met (installed self) candidate then Some Installed
  else match available self !! dep_name candidate with
       | Some package =>
           if constraint_ok (pkg_version package) (dep_constraint candidate)
           then Some (Available (dep_name candidate)) else None
       | None => None
       end.

Fixpoint find_map {A B} (f : A -> option B) (l : list A) : option B :=
  match l with
  | [] => None
  | x :: l => match f x with Some y => Some y | None => find_map f l end
  end.

Definition dependency_target (self : DependencyResolver) (dep : Dependency)
  : option DependencyTarget :=
  find_map (candidate_target self) (candidates dep).

Definition resolve_dependency_target (self : DependencyResolver) (dep : Dependency)
  : result (option rstr) Dependency :=
  match dependency_target self dep with
  | Some Installed => Ok None
  | Some (Available name) => Ok (Some name)
  | None => Err dep
  end.

(** * Closure of one package *)

(** The body of [for raw in package.depends.iter().rev()]: push the target of
    one dependency. The head of the list is the top of the stack. *)
Definition push_dependency (self : DependencyResolver) (package_name : rstr)
    (stack : list (rstr * bool)) (raw : rstr) : result (list (rstr * bool)) ResolveError :=
  let? dependency := map_err (InvalidDependency raw package_name) (parse_dependency raw) in
  match resolve_dependency_target self dependency with
  | Ok (Some name) => Ok ((name, false) :: stack)
  | Ok None => Ok stack
  | Err dep => Err (CannotSatisfy raw package_name dep)
  end.

Record WalkState := {
  walk_stack : list (rstr * bool);
  walk_visited : gset rstr;
  walk_install : list rstr
}.

(** One iteration of [while let Some((package_name, expanded)) = stack.pop()]
    once the pair is popped. *)
Definition walk_step (self : DependencyResolver) (package_name : rstr) (expanded : bool)
    (stack : list (rstr * bool)) (visited : gset rstr) (install : list rstr)
  : result WalkState ResolveError :=
  if expanded then
    Ok {| walk_stack := stack; walk_visited := visited; walk_install := install ++ [package_name] |}
  else if decide (package_name ∈ visited) then
    Ok {| walk_stack := stack; walk_visited := visited; walk_install := install |}
  else
    let visited := {[package_name]} ∪ visited in
    let? package := ok_or (available self !! package_name) (PackageNotFound package_name) in
    let? stack := for_each (push_dependency self package_name) ((package_name, true) :: stack)
                    (rev (pkg_depends package)) in
    Ok {| walk_stack := stack; walk_visited := visited; walk_install := install |}.

Fixpoint walk_loop (fuel : nat) (self : DependencyResolver) (w : WalkState)
  : result (gset rstr * list rstr) ResolveError :=
  match walk_stack w with
  | [] => Ok (walk_visited w, walk_install w)
  | (package_name, expanded) :: stack =>
      match fuel with
      | O => Err StepLimit
      | S fuel =>
          let? w := walk_step self package_name expanded stack (walk_visited w) (walk_install w) in
          walk_loop fuel self w
      end
  end.

(** Work one package can add to the stack: its marker and its dependencies. *)
Definition package_weight (self : DependencyResolver) (name : rstr) : nat :=
  match available self !! name with
  | Some package => S (length (pkg_depends package))
  | None => 0
  end.

Definition total_weight (w : rstr -> nat) (s : gset rstr) : nat :=
  sum_list_with w (elements s).

Definition walk_fuel (self : DependencyResolver) : nat :=
  S (total_weight (package_weight self) (dom (available self))).

(** [resolve_package], started with the caller's [visited] and [to_install]. *)
Definition resolve_package (self : DependencyResolver) (name : rstr)
    (visited : gset rstr) (install : list rstr) : result (gset rstr * list rstr) ResolveError :=
  walk_loop (walk_fuel self) self
    {| walk_stack := [(name, false)]; walk_visited := visited; walk_install := install |}.

(** * Dependency edges *)

(** The set of available targets of one package's dependencies. *)
Definition package_edges (self : DependencyResolver) (name : rstr) (pkg : DebianPackage)
  : result (gset rstr) ResolveError :=
  for_each (fun dependencies raw =>
    let? dependency := map_err (InvalidDependency raw name) (parse_dependency raw) in
    Ok match dependency_target self dependency with
       | Some (Available target) => {[target]} ∪ dependencies
       | _ => dependencies
       end) ∅ (pkg_depends pkg).

(** [record_dependency_edges] mutates [dep_graph] in place: entries recorded
    before an error stay. *)
Fixpoint record_dependency_edges (self : DependencyResolver) (packages : list rstr)
  : DependencyResolver * result unit ResolveError :=
  match packages with
  | [] => (self, Ok tt)
  | name :: packages =>
      match dep_graph self !! name with
      | Some _ => record_dependency_edges self packages
      | None =>
          match available self !! name with
          | None => record_dependency_edges self packages
          | Some pkg =>
              match package_edges self name pkg with
              | Err e => (self, Err e)
              | Ok dependencies =>
                  record_dependency_edges
                    (set_dep_graph self (<[name := dependencies]> (dep_graph self))) packages
              end
          end
      end
  end.

(** * Ordering *)

Inductive VisitState := VISITING | ORDERED.

#[export] Instance VisitState_eq_dec : EqDecision VisitState.
Proof. solve_decision. Defined.

(** The dependencies of [package] inside the plan, sorted. *)
Definition sort_dependencies (self : DependencyResolver) (in_packages : gset rstr) (package : rstr)
  : list rstr :=
  let deps := default ∅ (dep_graph self !! package) in
  dedup (sort_strs (filter (fun d => d ∈ in_packages) (elements deps))).

Record SortState := {
  sort_stack : list (rstr * bool);
  sort_states : gmap rstr VisitState;
  sort_result : list rstr
}.

(** One iteration of the inner [while let] of [topological_sort]. *)
Definition sort_step (self : DependencyResolver) (in_packages : gset rstr)
    (package : rstr) (expanded : bool) (stack : list (rstr * bool))
    (states : gmap rstr VisitState) (res : list rstr) : SortState :=
  if expanded then
    if decide (states !! package = Some VISITING) then
      {| sort_stack := stack; sort_states := <[package := ORDERED]> states;
         sort_result := res ++ [package] |}
    else {| sort_stack := stack; sort_states := states; sort_result := res |}
  else
    match states !! package with
    | Some _ => {| sort_stack := stack; sort_states := states; sort_result := res |}
    | None =>
        {| sort_stack :=
             map (fun d => (d, false)) (sort_dependencies self in_packages package)
             ++ (package, true) :: stack;
           sort_states := <[package := VISITING]> states;
           sort_result := res |}
    end.

Fixpoint sort_loop (fuel : nat) (self : DependencyResolver) (in_packages : gset rstr) (s : SortState)
  : option SortState :=
  match sort_stack s with
  | [] => Some s
  | (package, expanded) :: stack =>
      match fuel with
      | O => None
      | S fuel =>
          sort_loop fuel self in_packages
            (sort_step self in_packages package expanded stack (sort_states s) (sort_result s))
      end
  end.

Definition sort_weight (self : DependencyResolver) (in_packages : gset rstr) (p : rstr) : nat :=
  S (length (sort_dependencies self in_packages p)).

Definition sort_fuel (self : DependencyResolver) (in_packages : gset rstr) : nat :=
  S (total_weight (sort_weight self in_packages) in_packages).

(** The [for root in roots] loop. *)
Fixpoint sort_roots (self : DependencyResolver) (in_packages : gset rstr)
    (roots : list rstr) (states : gmap rstr VisitState) (res : list rstr) : option (list rstr) :=
  match roots with
  | [] => Some res
  | root :: roots =>
      if decide (states !! root = Some ORDERED) then sort_roots self in_packages roots states res
      else
        match sort_loop (sort_fuel self in_packages) self in_packages
                {| sort_stack := [(root, false)]; sort_states := states; sort_result := res |} with
        | Some s => sort_roots self in_packages roots (sort_states s) (sort_result s)
        | None => None
        end
  end.

Definition topological_sort (self : DependencyResolver) (packages : list rstr) : option (list rstr) :=
  let in_packages : gset rstr := list_to_set packages in
  sort_roots self in_packages (sort_strs (elements in_packages)) ∅ [].

(** * Validation of the plan *)

(** The versions installed once the plan is applied. *)
Definition projected_versions (self : DependencyResolver) (packages : list rstr) : gmap rstr rstr :=
  foldl (fun projected name =>
    match available self !! name with
    | Some package => <[name := pkg_version package]> projected
    | None => projected
    end) (installed self) packages.

Definition validate_package (self : DependencyResolver) (projected : gmap rstr rstr) (name : rstr)
  : result unit ResolveError :=
  match available self !! name with
  | None => Ok tt
  | Some package =>
      for_each (fun _ raw =>
        let? dependency := map_err (InvalidDependency raw name) (parse_dependency raw) in
        ensure (existsb (candidate_met projected) (candidates dependency)) (PlanUnsatisfied raw name))
        tt (pkg_depends package)
  end.

Definition validate_projected_dependencies (self : DependencyResolver) (packages : list rstr)
  : result unit ResolveError :=
  let projected := projected_versions self packages in
  for_each (fun _ name => validate_package self projected name) tt packages.

(** * Resolution *)

(** Merge the per-package closures, keeping the first occurrence. *)
Definition merge_installs (results : list (list rstr)) : list rstr :=
  (foldl (fun '(seen, acc) pkg =>
     if decide (pkg ∈ (seen : gset rstr)) then (seen, acc) else ({[pkg]} ∪ seen, acc ++ [pkg]))
     (∅, []) (concat results)).2.

(** The closure of all selected packages; [order] enumerates [selected]. *)
Definition resolve_closure (self : DependencyResolver) (order : list rstr)
  : result (list rstr) ResolveError :=
  if (1 <? length order)%nat then
    let? results := try_map (fun name =>
      let? vi := resolve_package self name ∅ [] in Ok (snd vi)) order in
    Ok (merge_installs results)
  else
    let? vi := for_each (fun '(v, i) name => resolve_package self name v i) (∅, []) order in
    Ok (snd vi).

(** Classify one package of the sorted plan. Sizes are [u64]. *)
Definition classify (self : DependencyResolver) (acc : ResolutionResult) (name : rstr)
  : ResolutionResult :=
  match available self !! name with
  | None => acc
  | Some pkg =>
      match installed self !! name with
      | Some installed_ver =>
          if decide (compare_deb_versions installed_ver (pkg_version pkg) = Lt) then
            {| to_install := to_install acc;
               to_upgrade := to_upgrade acc ++ [(name, installed_ver, pkg_version pkg)];
               to_remove := to_remove acc;
               download_size := wrap64 (download_size acc + pkg_size pkg);
               installed_size := wrap64 (installed_size acc + pkg_installed_size pkg) |}
          else acc
      | None =>
          {| to_install := to_install acc ++ [name];
             to_upgrade := to_upgrade acc;
             to_remove := to_remove acc;
             download_size := wrap64 (download_size acc + pkg_size pkg);
             installed_size := wrap64 (installed_size acc + pkg_installed_size pkg) |}
      end
  end.

Definition empty_result : ResolutionResult :=
  {| to_install := []; to_upgrade := []; to_remove := []; download_size := 0; installed_size := 0 |}.

(** [resolve]: the new state (its [dep_graph] may have grown) and the outcome. *)
Definition resolve (self : DependencyResolver) (order : list rstr)
  : DependencyResolver * result ResolutionResult ResolveError :=
  match resolve_closure self order with
  | Err e => (self, Err e)
  | Ok install =>
      match record_dependency_edges self install with
      | (self, Err e) => (self, Err e)
      | (self, Ok tt) =>
          match topological_sort self install with
          | None => (self, Err StepLimit)
          | Some sorted =>
              match validate_projected_dependencies self sorted with
              | Err e => (self, Err e)
              | Ok tt => (self, Ok (foldl (classify self) empty_result sorted))
              end
          end
      end
  end.

End resolver.
