(* ===== verification/DebResolverClosure.v ===== *)
(** The dependency closure computed by [resolve_package]
    (src/src/package_managers/debian_db/resolver.rs): the walk terminates, it
    succeeds exactly when every package reachable from the request can have
    its dependencies resolved, and then it returns exactly the reachable
    packages, each once. *)

From stdpp Require Import relations.
From S2P Require Import Prelude DebVersion DebResolver.
Open Scope Z_scope.
Open Scope omg_scope.

(** * Weights of finite sets *)

Lemma sum_list_with_perm {A} (w : A -> nat) l1 l2 :
  l1 ≡ₚ l2 -> sum_list_with w l1 = sum_list_with w l2.
Proof. induction 1; simpl; lia. Qed.

Lemma total_weight_remove (w : rstr -> nat) (s : gset rstr) (x : rstr) :
  x ∈ s -> total_weight w s = (w x + total_weight w (s ∖ {[x]}))%nat.
Proof.
  intros Hx. unfold total_weight.
  assert (Hp : elements s ≡ₚ x :: elements (s ∖ {[x]})).
  { rewrite (union_difference_L {[x]} s) at 1 by set_solver.
    rewrite elements_union_singleton; set_solver. }
  by rewrite (sum_list_with_perm _ _ _ Hp).
Qed.

Lemma total_weight_mono (w : rstr -> nat) (s t : gset rstr) :
  s ⊆ t -> (total_weight w s <= total_weight w t)%nat.
Proof.
  intros Hs. unfold total_weight. pose proof (elements_submseteq s t Hs) as [k Hk]%submseteq_Permutation.
  rewrite (sum_list_with_perm w _ _ Hk), sum_list_with_app. lia.
Qed.

Section closure.
Context (ARCH : rstr) (self : DependencyResolver).

(** * The dependency relation *)

(** [raw], an entry of [Depends:], is resolved to [target]. *)
Definition resolves_to (raw : rstr) (target : DependencyTarget) : Prop :=
  exists dep, parse_dependency ARCH raw = Ok dep /\ dependency_target self dep = Some target.

(** [p] pulls in the available package [q]. *)
Definition requires (p q : rstr) : Prop :=
  exists pkg raw, available self !! p = Some pkg /\ raw ∈ pkg_depends pkg
    /\ resolves_to raw (Available q).

(** Every dependency of [p] has a target. *)
Definition resolvable (p : rstr) : Prop :=
  exists pkg, available self !! p = Some pkg
    /\ forall raw, raw ∈ pkg_depends pkg -> exists t, resolves_to raw t.

Lemma push_dependency_Ok p st raw st' :
  push_dependency ARCH self p st raw = Ok st' <->
  (resolves_to raw Installed /\ st' = st)
  \/ exists q, resolves_to raw (Available q) /\ st' = (q, false) :: st.
Proof.
  unfold push_dependency, resolves_to, resolve_dependency_target.
  destruct (parse_dependency ARCH raw) as [dep|e]; simpl; [|naive_solver].
  destruct (dependency_target self dep) as [[|q]|] eqn:E; naive_solver.
Qed.

Lemma push_dependency_total p st raw t :
  resolves_to raw t -> exists st', push_dependency ARCH self p st raw = Ok st'.
Proof.
  intros H. destruct t as [|q]; eexists; apply push_dependency_Ok; [by left|right; eauto].
Qed.

(** The targets pushed for a list of dependencies. *)
Lemma push_dependencies_Ok p raws st st' :
  for_each (push_dependency ARCH self p) st raws = Ok st' ->
  exists targets, st' = map (fun q => (q, false)) targets ++ st
    /\ (length targets <= length raws)%nat
    /\ (forall q, q ∈ targets <-> exists raw, raw ∈ raws /\ resolves_to raw (Available q))
    /\ (forall raw, raw ∈ raws -> exists t, resolves_to raw t).
Proof.
  revert st; induction raws as [|raw raws IH]; intros st; simpl; intros H; res_inv.
  - exists []. simpl. split; [done|]. split; [lia|]. set_solver.
  - apply IH in H as (ts & -> & Hl & Hin & Hall).
    apply push_dependency_Ok in Hr as [[Hr ->]|(q & Hr & ->)].
    + exists ts. split; [done|]. split; [lia|]. split.
      * intros q. rewrite Hin. split; [set_solver|]. intros (r & [->|?]%elem_of_cons & Hq); [|set_solver].
        destruct Hr as (d & ? & ?), Hq as (d' & ? & ?). congruence.
      * intros r [->|?]%elem_of_cons; eauto.
    + exists (ts ++ [q]). rewrite map_app, <- app_assoc, length_app. simpl. split; [done|]. split; [lia|]. split.
      * intros q'. rewrite elem_of_app, Hin, list_elem_of_singleton. split.
        -- intros [(r & ? & ?)| ->]; [set_solver|]. exists raw. set_solver.
        -- intros (r & [->|?]%elem_of_cons & Hq); [|left; set_solver]. right.
           destruct Hr as (d & ? & ?), Hq as (d' & ? & ?). congruence.
      * intros r [->|?]%elem_of_cons; eauto.
Qed.

Lemma push_dependencies_total p raws st :
  (forall raw, raw ∈ raws -> exists t, resolves_to raw t) ->
  exists st', for_each (push_dependency ARCH self p) st raws = Ok st'.
Proof.
  revert st; induction raws as [|raw raws IH]; intros st H; simpl; [eauto|].
  destruct (H raw ltac:(set_solver)) as [t Ht].
  destruct (push_dependency_total p st raw t Ht) as [st' ->]. simpl. apply IH. set_solver.
Qed.

(** * The step function, case by case *)

Inductive walk_rel : WalkState -> WalkState -> Prop :=
| walk_mark p st v i :
    walk_rel {| walk_stack := (p, true) :: st; walk_visited := v; walk_install := i |}
             {| walk_stack := st; walk_visited := v; walk_install := i ++ [p] |}
| walk_skip p st v i :
    p ∈ v ->
    walk_rel {| walk_stack := (p, false) :: st; walk_visited := v; walk_install := i |}
             {| walk_stack := st; walk_visited := v; walk_install := i |}
| walk_expand p st v i pkg targets :
    p ∉ v -> available self !! p = Some pkg ->
    (length targets <= length (pkg_depends pkg))%nat ->
    (forall q, q ∈ targets <-> requires p q) -> resolvable p ->
    walk_rel {| walk_stack := (p, false) :: st; walk_visited := v; walk_install := i |}
             {| walk_stack := map (fun q => (q, false)) targets ++ (p, true) :: st;
                walk_visited := {[p]} ∪ v; walk_install := i |}.

Lemma walk_step_rel p b st v i w :
  walk_step ARCH self p b st v i = Ok w ->
  walk_rel {| walk_stack := (p, b) :: st; walk_visited := v; walk_install := i |} w.
Proof.
  unfold walk_step. destruct b; intros H; [res_inv; constructor|].
  case_decide; [res_inv; by constructor|].
  destruct (available self !! p) as [pkg|] eqn:Ep; simpl in H; [|done]. res_inv.
  apply push_dependencies_Ok in Hr as (ts & -> & Hl & Hin & Hall). rewrite length_rev in Hl.
  assert (Hrev : forall raw, raw ∈ rev (pkg_depends pkg) <-> raw ∈ pkg_depends pkg)
    by (intros raw; by rewrite !list_elem_of_In, <- in_rev).
  econstructor; [done|exact Ep|done| |].
  - intros q. rewrite Hin. unfold requires. setoid_rewrite Hrev. naive_solver.
  - exists pkg. split; [done|]. intros raw Hraw. by apply Hall, Hrev.
Qed.

Lemma walk_step_total p b st v i :
  b = true \/ resolvable p -> exists w, walk_step ARCH self p b st v i = Ok w.
Proof.
  unfold walk_step. intros [->|(pkg & Ep & Hall)]; [by eexists|].
  destruct b; [by eexists|]. case_decide; [by eexists|]. rewrite Ep. simpl.
  destruct (push_dependencies_total p (rev (pkg_depends pkg)) ((p, true) :: st)) as [st' ->];
    [|by eexists]. intros raw Hraw. apply Hall. by rewrite list_elem_of_In, in_rev, <- list_elem_of_In.
Qed.

(** * Termination *)

Definition walk_measure (w : WalkState) : nat :=
  length (walk_stack w)
  + total_weight (package_weight self) (dom (available self) ∖ walk_visited w).

Lemma walk_rel_measure w w' : walk_rel w w' -> (walk_measure w' < walk_measure w)%nat.
Proof.
  destruct 1 as [| |p st v i pkg ts Hv Ep Hl _ _]; unfold walk_measure; simpl; [lia..|].
  rewrite (total_weight_remove _ (dom (available self) ∖ v) p).
  2: { apply elem_of_difference. split; [|done]. apply elem_of_dom. eauto. }
  replace (dom (available self) ∖ ({[p]} ∪ v)) with (dom (available self) ∖ v ∖ {[p]}) by set_solver.
  unfold package_weight at 2. rewrite Ep, length_app, length_map. simpl. lia.
Qed.

Lemma walk_step_not_limit p b st v i : walk_step ARCH self p b st v i ≠ Err StepLimit.
Proof.
  unfold walk_step. destruct b; [done|]. case_decide; [done|].
  destruct (available self !! p) as [pkg|]; simpl; [|done].
  intros He. apply res_bind_Err in He as [He|(? & ? & ?)]; [|done]. revert He.
  generalize ((p, true) :: st) as s0. generalize (rev (pkg_depends pkg)) as raws.
  induction raws as [|raw raws IH]; intros s0; simpl; [done|].
  intros He. apply res_bind_Err in He as [He|(? & ? & ?)]; [|by eapply IH]. revert He.
  unfold push_dependency, resolve_dependency_target.
  destruct (parse_dependency ARCH raw) as [dep|e]; simpl; [|done].
  by destruct (dependency_target self dep) as [[|q]|].
Qed.

Lemma walk_loop_not_limit fuel w :
  (walk_measure w <= fuel)%nat -> walk_loop ARCH fuel self w ≠ Err StepLimit.
Proof.
  revert w; induction fuel as [|fuel IH]; intros [[|[p b] st] v i] Hm; simpl; try done.
  - unfold walk_measure in Hm. simpl in Hm. lia.
  - intros H. apply res_bind_Err in H as [H|(w & Hw & H)]; [by apply walk_step_not_limit in H|].
    revert H. apply IH. apply walk_step_rel, walk_rel_measure in Hw. lia.
Qed.

Lemma resolve_package_not_limit name i : resolve_package ARCH self name ∅ i ≠ Err StepLimit.
Proof.
  apply walk_loop_not_limit. unfold walk_measure, walk_fuel. simpl.
  by replace (dom (available self) ∖ ∅) with (dom (available self)) by set_solver.
Qed.

(** * The invariant of the walk *)

(** The packages whose expansion marker is on the stack. *)
Definition open_packages (st : list (rstr * bool)) : list rstr :=
  map fst (List.filter snd st).

Lemma elem_of_open_packages p st : p ∈ open_packages st <-> (p, true) ∈ st.
Proof.
  unfold open_packages. rewrite !list_elem_of_In, in_map_iff. split.
  - intros ([q b] & Hq & Hin%filter_In). simpl in *. destruct Hin as [Hin Hb]. by subst.
  - intros H. exists (p, true). split; [done|]. by apply filter_In.
Qed.

Lemma open_packages_app st1 st2 : open_packages (st1 ++ st2) = open_packages st1 ++ open_packages st2.
Proof. unfold open_packages. by rewrite List.filter_app, map_app. Qed.

Lemma open_packages_pending targets :
  open_packages (map (fun q => (q, false)) targets) = [].
Proof. by induction targets. Qed.

Record walk_inv (root : rstr) (w : WalkState) : Prop := {
  wi_nodup : NoDup (walk_install w ++ open_packages (walk_stack w));
  wi_visited : forall p, p ∈ walk_visited w <->
    p ∈ walk_install w \/ (p, true) ∈ walk_stack w;
  wi_resolvable : forall p, p ∈ walk_visited w -> resolvable p;
  wi_closed : forall p q, p ∈ walk_visited w -> requires p q ->
    q ∈ walk_visited w \/ (q, false) ∈ walk_stack w;
  wi_stack_reach : forall p b, (p, b) ∈ walk_stack w -> rtc requires root p;
  wi_root : root ∈ walk_visited w \/ (root, false) ∈ walk_stack w
}.

Lemma walk_inv_init root :
  walk_inv root {| walk_stack := [(root, false)]; walk_visited := ∅; walk_install := [] |}.
Proof.
  split; simpl; [constructor|set_solver..| |set_solver].
  intros p b [= -> ->]%list_elem_of_singleton. constructor.
Qed.

Lemma walk_inv_step root w w' : walk_inv root w -> walk_rel w w' -> walk_inv root w'.
Proof.
  intros [Hnd Hv Hres Hcl Hst Hroot] Hw.
  destruct Hw as [p st v i|p st v i Hp|p st v i pkg ts Hp Ep Hl Hts Hok]; simpl in *.
  - split; simpl; [|intros q; rewrite Hv; set_solver|done| | |].
    + by rewrite <- app_assoc.
    + intros q r Hq Hr. destruct (Hcl q r Hq Hr) as [?|H%elem_of_cons]; [by left|right; naive_solver].
    + set_solver.
    + destruct Hroot as [?|H%elem_of_cons]; [by left|right; naive_solver].
  - split; simpl; [done|intros q; rewrite Hv; set_solver|done| | |].
    + intros q r Hq Hr. destruct (Hcl q r Hq Hr) as [?|[[= ->]|?]%elem_of_cons]; [by left..|by right].
    + set_solver.
    + destruct Hroot as [?|[[= ->]|?]%elem_of_cons]; [by left..|by right].
  - assert (Hpend : forall q b, (q, b) ∈ map (fun q => (q, false)) ts <-> b = false /\ q ∈ ts).
    { intros q b. rewrite list_elem_of_In, in_map_iff. setoid_rewrite <- list_elem_of_In. naive_solver. }
    split; simpl.
    + rewrite open_packages_app, open_packages_pending. simpl.
      change (open_packages ((p, true) :: st)) with (p :: open_packages st).
      rewrite <- Permutation_middle. constructor; [|done].
      rewrite elem_of_app, elem_of_open_packages. intros Hin. apply Hp. rewrite Hv. set_solver.
    + intros q. rewrite elem_of_union, elem_of_singleton, Hv, elem_of_app, elem_of_cons, Hpend. set_solver.
    + intros q [->%elem_of_singleton|?]%elem_of_union; auto.
    + intros q r Hq Hr. rewrite elem_of_app, Hpend.
      apply elem_of_union in Hq as [->%elem_of_singleton|Hq].
      * right. left. split; [done|]. by apply Hts.
      * destruct (Hcl q r Hq Hr) as [?|[[= ->]|?]%elem_of_cons]; set_solver.
    + intros q b. rewrite elem_of_app, Hpend. intros [[-> Hq]|Hq].
      * eapply rtc_r; [by apply (Hst p false); left|]. by apply Hts.
      * apply elem_of_cons in Hq as [[= -> ->]|?]; [apply (Hst p false); by left|].
        eapply Hst. by right.
    + destruct Hroot as [?|[[= ->]|?]%elem_of_cons]; set_solver.
Qed.

(** Installed packages were on the stack once, so they are reachable too. *)
Definition walk_reach (root : rstr) (w : WalkState) : Prop :=
  forall p, p ∈ walk_visited w -> rtc requires root p.

Lemma walk_reach_step root w w' :
  walk_inv root w -> walk_reach root w -> walk_rel w w' -> walk_reach root w'.
Proof.
  intros Hi Hr Hw p Hp. destruct Hw; simpl in *; [by apply Hr..|].
  apply elem_of_union in Hp as [->%elem_of_singleton|Hp]; [|by apply Hr].
  eapply (wi_stack_reach _ _ Hi _ false). by left.
Qed.

Lemma walk_loop_inv fuel root w v i :
  walk_inv root w -> walk_reach root w -> walk_loop ARCH fuel self w = Ok (v, i) ->
  walk_inv root {| walk_stack := []; walk_visited := v; walk_install := i |}
  /\ (forall p, p ∈ v -> rtc requires root p).
Proof.
  revert w; induction fuel as [|fuel IH]; intros [[|[p b] st] v0 i0] Hi Hr H; simpl in H;
    [res_inv; by split|done|res_inv; by split|].
  res_inv. apply walk_step_rel in Hr0. eapply IH; [| |exact H].
  - by eapply walk_inv_step.
  - by eapply walk_reach_step.
Qed.

(** What a successful walk returns. *)
Lemma resolve_package_Ok root v i :
  resolve_package ARCH self root ∅ [] = Ok (v, i) ->
  NoDup i /\ (forall p, p ∈ i <-> rtc requires root p) /\ (forall p, p ∈ i -> resolvable p).
Proof.
  intros H. apply walk_loop_inv with (root := root) in H as [Hi Hr];
    [|apply walk_inv_init|intros p Hp; simpl in Hp; set_solver].
  destruct Hi as [Hnd Hv Hres Hcl _ Hroot]; simpl in *. rewrite app_nil_r in Hnd.
  assert (Hnil : forall x : rstr * bool, x ∈ [] -> False) by (intros x Hx; by apply elem_of_nil in Hx).
  assert (Hvi : forall p, p ∈ i <-> p ∈ v)
    by (intros p; rewrite Hv; split; [by left|]; intros [?|?]; [done|exfalso; by eapply Hnil]).
  split; [done|]. split.
  - intros p. rewrite Hvi. split; [apply Hr|].
    intros Hreach. destruct Hroot as [Hroot|Hroot]; [|exfalso; by eapply Hnil]. clear Hr.
    induction Hreach as [|x y z Hxy _ IH]; [done|]. apply IH.
    destruct (Hcl x y) as [?|?]; [done..|]. exfalso; by eapply Hnil.
  - intros p Hp. by apply Hres, Hvi.
Qed.

(** Under the success condition no step fails. *)
Lemma walk_loop_total fuel root w :
  walk_inv root w -> (walk_measure w <= fuel)%nat ->
  (forall p, rtc requires root p -> resolvable p) ->
  exists r, walk_loop ARCH fuel self w = Ok r.
Proof.
  intros Hi Hm Hok. revert w Hi Hm; induction fuel as [|fuel IH]; intros [[|[p b] st] v i] Hi Hm;
    simpl; try (by eexists); [unfold walk_measure in Hm; simpl in Hm; lia|].
  destruct (walk_step_total p b st v i) as [w Hw].
  { right. apply Hok. apply (wi_stack_reach _ _ Hi p b). simpl. by left. }
  rewrite Hw. simpl. apply walk_step_rel in Hw. apply IH.
  - by eapply walk_inv_step.
  - apply walk_rel_measure in Hw. lia.
Qed.

Lemma resolve_package_total root :
  (forall p, rtc requires root p -> resolvable p) ->
  exists r, resolve_package ARCH self root ∅ [] = Ok r.
Proof.
  intros Hok. unfold resolve_package. eapply walk_loop_total; [apply walk_inv_init| |done].
  unfold walk_measure, walk_fuel. simpl.
  by replace (dom (available self) ∖ ∅) with (dom (available self)) by set_solver.
Qed.

End closure.

(** * Properties *)

(** the closure of a requested package is computed exactly: the walk
    returns a list without repetitions whose members are precisely the
    packages reachable from the request through resolved dependencies, and
    every dependency of every member has a target. *)
Theorem resolve_package_is_closure ARCH self name visited install :
  resolve_package ARCH self name ∅ [] = Ok (visited, install) ->
  NoDup install
  /\ (forall p, p ∈ install <-> rtc (requires ARCH self) name p)
  /\ (forall p, p ∈ install -> resolvable ARCH self p).
Proof. apply resolve_package_Ok. Qed.

Definition sample_package (n v : string) (deps : list string) (size : Z) : DebianPackage :=
  {| pkg_name := str n; pkg_version := str v; pkg_description := []; pkg_section := [];
     pkg_priority := []; pkg_installed_size := 2 * size; pkg_maintainer := [];
     pkg_architecture := str "amd64"; pkg_depends := map str deps; pkg_filename := [];
     pkg_size := size; pkg_sha256 := []; pkg_homepage := []; pkg_component := str "main";
     pkg_suite := str "stable"; pkg_source_key := [] |}.

Definition small_resolver : DependencyResolver :=
  resolver_new (str "x86_64")
    [sample_package "app" "1" ["lib (>= 2)"; "app"] 1; sample_package "lib" "2" ["app"] 1] [].

Lemma resolve_package_is_closure_witness :
  NoDup [str "lib"; str "app"]
  /\ forall p, p ∈ [str "lib"; str "app"] <-> rtc (requires (str "x86_64") small_resolver) (str "app") p.
Proof.
  destruct (resolve_package_is_closure (str "x86_64") small_resolver (str "app")
    {[str "lib"; str "app"]} [str "lib"; str "app"]) as (H1 & H2 & _).
  - vm_compute. reflexivity.
  - split; [exact H1|exact H2].
Defined.

(** The walk always ends, and it ends in success exactly when every
    package reachable from the request is available with all its dependencies
    resolvable; repository-supplied cycles or long chains cannot make it run
    on or fail. *)
Theorem resolve_package_succeeds_iff ARCH self name :
  resolve_package ARCH self name ∅ [] ≠ Err StepLimit
  /\ ((exists r, resolve_package ARCH self name ∅ [] = Ok r) <->
      forall p, rtc (requires ARCH self) name p -> resolvable ARCH self p).
Proof.
  split; [apply resolve_package_not_limit|]. split.
  - intros [[v i] H] p Hp. apply resolve_package_Ok in H as (_ & Hin & Hres). by apply Hres, Hin.
  - apply resolve_package_total.
Qed.
