(* ===== verification/DebResolverOrder.v ===== *)
(** The installation order computed by [topological_sort] and the edges
    recorded for it (src/src/package_managers/debian_db/resolver.rs): the
    depth-first ordering terminates, returns every planned package once, and
    puts a dependency before its dependent unless the two lie on a common
    dependency cycle. *)

From stdpp Require Import relations.
From S2P Require Import Prelude DebVersion DebResolver DebResolverClosure.
Open Scope Z_scope.
Open Scope omg_scope.

(** * Positions in a list and on a stack *)

(** [x] occurs before an occurrence of [y]. *)
Definition before {A} (l : list A) (x y : A) : Prop :=
  exists l1 l2, l = l1 ++ y :: l2 /\ x ∈ l1.

Lemma before_snoc {A} (l : list A) x y : x ∈ l -> before (l ++ [y]) x y.
Proof. intros H. by exists l, []. Qed.

Lemma before_app {A} (l k : list A) x y : before l x y -> before (l ++ k) x y.
Proof. intros (l1 & l2 & -> & H). exists l1, (l2 ++ k). by rewrite <- app_assoc. Qed.

(** An entry for [x] lies above the expansion marker of [p]. *)
Definition above (st : list (rstr * bool)) (x p : rstr) : Prop :=
  exists st1 b st2, st = st1 ++ (p, true) :: st2 /\ (x, b) ∈ st1.

Lemma above_cons_inv y b st x p :
  above ((y, b) :: st) x p -> above st x p \/ (x = y /\ (p, true) ∈ st).
Proof.
  intros (st1 & c & st2 & Heq & Hin). destruct st1 as [|[y' b'] st1]; [by apply elem_of_nil in Hin|].
  injection Heq as <- <- ->. apply elem_of_cons in Hin as [[= -> ->]|Hin].
  - right. split; [done|]. apply elem_of_app. right. by left.
  - left. by exists st1, c, st2.
Qed.

Lemma above_cons e st x p : above st x p -> above (e :: st) x p.
Proof. intros (st1 & b & st2 & -> & Hin). exists (e :: st1), b, st2. split; [done|]. by right. Qed.

Lemma above_app st0 st x p : above st x p -> above (st0 ++ st) x p.
Proof. induction st0; simpl; auto using above_cons. Qed.

Lemma above_marker st0 b st x p : (x, b) ∈ st0 -> (p, true) ∈ st -> above (st0 ++ st) x p.
Proof.
  intros Hx Hp. apply list_elem_of_In, in_split in Hp as (a & c & ->).
  exists (st0 ++ a), b, c. rewrite <- app_assoc. split; [done|]. apply elem_of_app. by left.
Qed.

Lemma above_in st x p : above st x p -> (p, true) ∈ st.
Proof. intros (st1 & b & st2 & -> & _). apply elem_of_app. right. by left. Qed.

Lemma markers_compare st p q :
  (p, true) ∈ st -> (q, true) ∈ st -> p = q \/ above st p q \/ above st q p.
Proof.
  induction st as [|[y b] st IH]; [by intros ?%elem_of_nil|].
  intros Hp Hq. apply elem_of_cons in Hp, Hq. destruct Hp as [Hp|Hp], Hq as [Hq|Hq]; simplify_eq.
  - by left.
  - right; left. by apply (above_marker [(y, true)] true); [left|].
  - right; right. by apply (above_marker [(y, true)] true); [left|].
  - destruct (IH Hp Hq) as [?|[?|?]]; auto using above_cons.
Qed.

Section order.
Context (self : DependencyResolver) (in_packages : gset rstr).

Abbreviation succs := (sort_dependencies self in_packages).

(** [p] depends on [d] inside the plan. *)
Definition plan_edge (p d : rstr) : Prop := d ∈ succs p.

Lemma plan_edge_spec p d :
  plan_edge p d <-> d ∈ (default ∅ (dep_graph self !! p) : gset rstr) /\ d ∈ in_packages.
Proof.
  unfold plan_edge, sort_dependencies.
  rewrite elem_of_dedup, elem_of_sort_strs, list_elem_of_filter, elem_of_elements. tauto.
Qed.

(** * The invariant of the ordering loop *)

Record sort_inv (s : SortState) : Prop := {
  si_result : forall p, p ∈ sort_result s <-> sort_states s !! p = Some ORDERED;
  si_nodup : NoDup (sort_result s);
  si_open : forall p, (p, true) ∈ sort_stack s <-> sort_states s !! p = Some VISITING;
  si_open_nodup : NoDup (open_packages (sort_stack s));
  si_path : forall p x, above (sort_stack s) x p -> rtc plan_edge p x;
  si_pending : forall p d, (p, true) ∈ sort_stack s -> plan_edge p d ->
    sort_states s !! d = Some ORDERED \/ above (sort_stack s) d p \/ rtc plan_edge d p;
  si_done : forall p d, p ∈ sort_result s -> plan_edge p d ->
    before (sort_result s) d p \/ rtc plan_edge d p;
  si_stack_in : forall p b, (p, b) ∈ sort_stack s -> p ∈ in_packages;
  si_states_in : forall p, is_Some (sort_states s !! p) -> p ∈ in_packages
}.

Lemma sort_inv_mark p st states res :
  sort_inv {| sort_stack := (p, true) :: st; sort_states := states; sort_result := res |} ->
  sort_inv {| sort_stack := st; sort_states := <[p := ORDERED]> states; sort_result := res ++ [p] |}.
Proof.
  intros [Hres Hnd Hop Hond Hpath Hpend Hdone Hin Hsin]; simpl in *.
  assert (Hp : states !! p = Some VISITING) by (apply Hop; by left).
  assert (Hpst : (p, true) ∉ st).
  { intros H. change (open_packages _) with (p :: open_packages st) in Hond.
    apply NoDup_cons in Hond as [Hn _]. apply Hn. by apply elem_of_open_packages. }
  assert (Hpres : p ∉ res) by (rewrite Hres; congruence).
  split; simpl.
  - intros q. rewrite elem_of_app, list_elem_of_singleton, Hres, lookup_insert.
    case_decide; [subst; by split; auto|]. split; [|by left]. intros [?|?]; congruence.
  - apply NoDup_app. split; [done|]. split; [set_solver|apply NoDup_singleton].
  - intros q. rewrite lookup_insert. case_decide as Hpq.
    + subst. split; [done|discriminate].
    + rewrite <- Hop, elem_of_cons. naive_solver.
  - change (open_packages _) with (p :: open_packages st) in Hond. by apply NoDup_cons in Hond as [_ ?].
  - intros q x H. apply Hpath. by apply above_cons.
  - intros q d Hq Hd. rewrite lookup_insert. case_decide as Hpd; [by left|].
    destruct (Hpend q d) as [?|[H|?]]; [by right|done|by left| |by right; right].
    apply above_cons_inv in H as [?|[-> _]]; [by right; left|done].
  - intros q d. rewrite elem_of_app, list_elem_of_singleton. intros [Hq| ->] Hd.
    + destruct (Hdone q d Hq Hd); [left; by apply before_app|by right].
    + destruct (Hpend p d) as [?|[H|?]]; [by left|done| | |by right].
      * left. apply before_snoc. by apply Hres.
      * apply above_cons_inv in H as [H|[_ H]]; [by apply above_in in H|done].
  - intros q b Hq. eapply Hin. by right.
  - intros q. rewrite lookup_insert. case_decide; [subst; intros _; by eapply Hin; left|apply Hsin].
Qed.

Lemma sort_inv_skip p st states res v :
  states !! p = Some v ->
  sort_inv {| sort_stack := (p, false) :: st; sort_states := states; sort_result := res |} ->
  sort_inv {| sort_stack := st; sort_states := states; sort_result := res |}.
Proof.
  intros Hp [Hres Hnd Hop Hond Hpath Hpend Hdone Hin Hsin]; simpl in *.
  assert (Hop' : forall q, (q, true) ∈ st <-> states !! q = Some VISITING)
    by (intros q; rewrite <- Hop, elem_of_cons; naive_solver).
  split; simpl; try done.
  - intros q x H. apply Hpath. by apply above_cons.
  - intros q d Hq Hd. destruct (Hpend q d) as [?|[H|?]]; [by right|done|by left| |by right; right].
    apply above_cons_inv in H as [?|[-> _]]; [by right; left|].
    destruct v; [|by left]. apply Hop' in Hp.
    destruct (markers_compare st p q Hp Hq) as [->|[?|H]]; [right; right; constructor|by right; left|].
    right; right. apply Hpath. by apply above_cons.
  - intros q b Hq. eapply Hin. by right.
Qed.

Lemma sort_inv_expand p st states res :
  states !! p = None ->
  sort_inv {| sort_stack := (p, false) :: st; sort_states := states; sort_result := res |} ->
  sort_inv {| sort_stack := map (fun d => (d, false)) (succs p) ++ (p, true) :: st;
              sort_states := <[p := VISITING]> states; sort_result := res |}.
Proof.
  intros Hp [Hres Hnd Hop Hond Hpath Hpend Hdone Hin Hsin]; simpl in *.
  assert (Hmap : forall q b, (q, b) ∈ map (fun d => (d, false)) (succs p) <-> b = false /\ plan_edge p q).
  { intros q b. unfold plan_edge. rewrite list_elem_of_In, in_map_iff.
    setoid_rewrite <- list_elem_of_In. naive_solver. }
  assert (Hpst : (p, true) ∉ st).
  { intros H. assert (states !! p = Some VISITING) by (apply Hop; by right). congruence. }
  (* an entry of the new stack above a marker *)
  assert (Habove : forall x q, above (map (fun d => (d, false)) (succs p) ++ (p, true) :: st) x q ->
    (plan_edge p x \/ x = p) /\ ((q = p /\ plan_edge p x) \/ (q, true) ∈ st) \/ above st x q).
  { intros x q (st1 & b & st2 & Heq & Hx). apply app_eq_app in Heq as (k & [[H1 H2]|[H1 H2]]).
    - destruct k as [|e k]; simplify_eq/=.
      + left. rewrite app_nil_r in H1. rewrite <- H1 in Hx. apply Hmap in Hx as [_ Hx]. auto.
      + exfalso. assert ((q, true) ∈ map (fun d => (d, false)) (succs p)) as [? _]%Hmap; [|done].
        rewrite H1. apply elem_of_app. right. by left.
    - destruct k as [|e k]; simplify_eq/=.
      + left. rewrite app_nil_r in Hx. apply Hmap in Hx as [_ Hx]. auto.
      + apply elem_of_app in Hx as [[_ Hx]%Hmap|[[= -> ->]|Hx]%elem_of_cons].
        * left. split; [by left|]. right. apply elem_of_app. right. by left.
        * left. split; [by right|]. right. apply elem_of_app. right. by left.
        * right. by exists k, b, st2. }
  assert (Hpathp : forall q, (q, true) ∈ st -> rtc plan_edge q p).
  { intros q Hq. apply Hpath. by apply (above_marker [(p, false)] false); [left|]. }
  split; simpl; try done.
  - intros q. rewrite Hres, lookup_insert. case_decide; [subst; naive_solver|done].
  - intros q. rewrite elem_of_app, elem_of_cons, Hmap, lookup_insert. case_decide as Hpq; [naive_solver|].
    rewrite <- Hop, elem_of_cons. naive_solver.
  - rewrite open_packages_app, open_packages_pending. simpl.
    change (NoDup (p :: open_packages st)). apply NoDup_cons. split; [|done].
    by rewrite elem_of_open_packages.
  - intros q x [[Hx Hq]|H]%Habove.
    + destruct Hq as [[-> Hx']|Hq]; [by apply rtc_once|]. destruct Hx as [Hx| ->]; [|by apply Hpathp].
      eapply rtc_r; [by apply Hpathp|done].
    + apply Hpath. by apply above_cons.
  - intros q d. rewrite elem_of_app, elem_of_cons, Hmap. intros [[? _]|[[= ->]|Hq]] Hd; [done| |].
    + right; left. exists (map (fun d => (d, false)) (succs p)), false, st. split; [done|]. by apply Hmap.
    + destruct (Hpend q d) as [H|[H|?]]; [by right|done| | |by right; right].
      * left. rewrite lookup_insert_ne; [done|naive_solver].
      * apply above_cons_inv in H as [?|[-> _]]; right; left.
        -- by apply above_app, above_cons.
        -- rewrite cons_middle, app_assoc. apply (above_marker _ true); [|done].
           apply elem_of_app. right. by left.
  - intros q b. rewrite elem_of_app, elem_of_cons, Hmap. intros [[-> H]|[[= -> ->]|H]].
    + by apply plan_edge_spec in H as [_ ?].
    + eapply Hin. by left.
    + eapply Hin. by right.
  - intros q. rewrite lookup_insert. case_decide; [subst; intros _; by eapply Hin; left|apply Hsin].
Qed.

Lemma sort_step_inv p b st states res :
  sort_inv {| sort_stack := (p, b) :: st; sort_states := states; sort_result := res |} ->
  sort_inv (sort_step self in_packages p b st states res).
Proof.
  intros Hi. unfold sort_step. destruct b.
  - rewrite decide_True by (apply (si_open _ Hi); simpl; by left). by apply sort_inv_mark.
  - destruct (states !! p) as [v|] eqn:E; [by eapply sort_inv_skip|by apply sort_inv_expand].
Qed.

(** * Termination *)

Definition sort_measure (s : SortState) : nat :=
  length (sort_stack s)
  + total_weight (sort_weight self in_packages) (in_packages ∖ dom (sort_states s)).

Lemma sort_step_measure p b st states res :
  (b = false -> p ∈ in_packages) ->
  (sort_measure (sort_step self in_packages p b st states res)
   < sort_measure {| sort_stack := (p, b) :: st; sort_states := states; sort_result := res |})%nat.
Proof.
  intros Hp. unfold sort_step. destruct b.
  - case_decide as Hv; unfold sort_measure; simpl; [|lia].
    replace (dom (<[p:=ORDERED]> states)) with (dom states); [lia|].
    rewrite dom_insert_L. assert (p ∈ dom states) by (apply elem_of_dom; eauto). set_solver.
  - destruct (states !! p) eqn:E; unfold sort_measure; simpl; [lia|].
    rewrite (total_weight_remove _ (in_packages ∖ dom states) p).
    2: { apply elem_of_difference. split; [by apply Hp|]. by apply not_elem_of_dom. }
    rewrite dom_insert_L.
    replace (in_packages ∖ ({[p]} ∪ dom states)) with (in_packages ∖ dom states ∖ {[p]}) by set_solver.
    unfold sort_weight at 2. rewrite length_app, length_map. simpl. lia.
Qed.

(** States only ever get added. *)
Lemma sort_step_dom p b st states res :
  dom states ⊆ dom (sort_states (sort_step self in_packages p b st states res)).
Proof.
  unfold sort_step. destruct b; [case_decide; simpl; [rewrite dom_insert_L|]; set_solver|].
  destruct (states !! p); simpl; [done|]. rewrite dom_insert_L. set_solver.
Qed.

Lemma sort_loop_total fuel s :
  sort_inv s -> (sort_measure s <= fuel)%nat ->
  exists s', sort_loop fuel self in_packages s = Some s'
    /\ sort_inv s' /\ sort_stack s' = [] /\ dom (sort_states s) ⊆ dom (sort_states s').
Proof.
  revert s; induction fuel as [|fuel IH]; intros [[|[p b] st] states res] Hi Hm; simpl.
  - by eexists.
  - unfold sort_measure in Hm. simpl in Hm. lia.
  - by eexists.
  - destruct (IH (sort_step self in_packages p b st states res)) as (s' & Hs' & Hi' & He & Hd).
    + by apply sort_step_inv.
    + pose proof (sort_step_measure p b st states res).
      pose proof (si_stack_in _ Hi p b ltac:(by left)). lia || (simpl in *; intuition lia).
    + exists s'. split_and!; [done..|]. simpl. etrans; [apply sort_step_dom|done].
Qed.

(** * All roots *)

Lemma sort_inv_root root s :
  sort_inv s -> sort_stack s = [] -> root ∈ in_packages ->
  sort_inv {| sort_stack := [(root, false)]; sort_states := sort_states s; sort_result := sort_result s |}.
Proof.
  intros [Hres Hnd Hop Hond Hpath Hpend Hdone Hin Hsin] He Hroot.
  rewrite He in *. split; simpl; try done.
  - intros p. rewrite <- Hop, list_elem_of_singleton. split; [done|by intros ?%elem_of_nil].
  - intros p x [?|[_ ?%elem_of_nil]]%above_cons_inv; [|done].
    by apply Hpath.
  - intros p d ?%list_elem_of_singleton. done.
  - by intros p b [= -> ->]%list_elem_of_singleton.
Qed.

Lemma sort_loop_root fuel root s :
  sort_inv s -> sort_stack s = [] -> root ∈ in_packages ->
  (sort_fuel self in_packages <= fuel)%nat ->
  exists s', sort_loop fuel self in_packages
      {| sort_stack := [(root, false)]; sort_states := sort_states s; sort_result := sort_result s |} = Some s'
    /\ sort_inv s' /\ sort_stack s' = [] /\ dom (sort_states s) ∪ {[root]} ⊆ dom (sort_states s').
Proof.
  intros Hi He Hroot Hf. pose proof (sort_inv_root root s Hi He Hroot) as Hi0.
  destruct fuel as [|fuel]; [unfold sort_fuel in Hf; lia|]. cbn [sort_loop sort_stack sort_states sort_result].
  pose proof (sort_step_inv _ _ _ _ _ Hi0) as Hi1.
  destruct (sort_loop_total fuel _ Hi1) as (s' & Hs' & Hi' & He' & Hd).
  - pose proof (sort_step_measure root false [] (sort_states s) (sort_result s) ltac:(done)) as Hm.
    assert (sort_measure {| sort_stack := [(root, false)]; sort_states := sort_states s;
                            sort_result := sort_result s |} <= sort_fuel self in_packages)%nat; [|lia].
    unfold sort_measure, sort_fuel. simpl. apply le_n_S, total_weight_mono. set_solver.
  - exists s'. split_and!; [done..|]. etrans; [|exact Hd].
    unfold sort_step. destruct (sort_states s !! root) eqn:E; simpl.
    + assert (root ∈ dom (sort_states s)) by (apply elem_of_dom; eauto). set_solver.
    + rewrite dom_insert_L. set_solver.
Qed.

Lemma sort_roots_total roots s :
  sort_inv s -> sort_stack s = [] -> (forall r, r ∈ roots -> r ∈ in_packages) ->
  exists s', sort_roots self in_packages roots (sort_states s) (sort_result s) = Some (sort_result s')
    /\ sort_inv s' /\ sort_stack s' = []
    /\ dom (sort_states s) ∪ list_to_set roots ⊆ dom (sort_states s').
Proof.
  revert s; induction roots as [|root roots IH]; intros s Hi He Hin; cbn [sort_roots].
  - exists s. split_and!; [done..|]. set_solver.
  - case_decide as Ho.
    + destruct (IH s Hi He) as (s' & -> & Hi' & He' & Hd); [set_solver|].
      exists s'. split_and!; [done..|]. assert (root ∈ dom (sort_states s)) by (apply elem_of_dom; eauto).
      set_solver.
    + destruct (sort_loop_root (sort_fuel self in_packages) root s Hi He) as (s1 & -> & Hi1 & He1 & Hd1);
        [set_solver|done|].
      destruct (IH s1 Hi1 He1) as (s' & -> & Hi' & He' & Hd); [set_solver|].
      exists s'. split_and!; [done..|]. set_solver.
Qed.

Lemma sort_inv_init : sort_inv {| sort_stack := []; sort_states := ∅; sort_result := [] |}.
Proof.
  split; simpl; try (by constructor).
  - intros p. rewrite lookup_empty. split; [by intros ?%elem_of_nil|done].
  - intros p. rewrite lookup_empty. split; [by intros ?%elem_of_nil|done].
  - by intros p x ?%above_in%elem_of_nil.
  - by intros p d ?%elem_of_nil.
  - by intros p d ?%elem_of_nil.
  - by intros p b ?%elem_of_nil.
  - intros p. rewrite lookup_empty. by intros [??].
Qed.

End order.

(** What the ordering returns, for any plan. *)
Lemma topological_sort_spec self packages :
  exists sorted, topological_sort self packages = Some sorted
    /\ NoDup sorted
    /\ (forall p, p ∈ sorted <-> p ∈ packages)
    /\ (forall p d, p ∈ sorted -> plan_edge self (list_to_set packages) p d ->
        before sorted d p \/ rtc (plan_edge self (list_to_set packages)) d p).
Proof.
  unfold topological_sort. set (inp := list_to_set packages : gset rstr).
  destruct (sort_roots_total self inp (sort_strs (elements inp))
              {| sort_stack := []; sort_states := ∅; sort_result := [] |}) as (s & Hs & Hi & He & Hd).
  - apply sort_inv_init.
  - done.
  - intros r Hr. by apply elem_of_sort_strs, elem_of_elements in Hr.
  - exists (sort_result s). split_and!; [done|apply (si_nodup _ _ _ Hi)| |apply (si_done _ _ _ Hi)].
    intros p. rewrite (si_result _ _ _ Hi). split.
    + intros Hp. assert (p ∈ inp) by (apply (si_states_in _ _ _ Hi); eauto). subst inp. set_solver.
    + intros Hp. assert (p ∈ dom (sort_states s)) as [v Hv]%elem_of_dom.
      { apply Hd, elem_of_union. right. apply elem_of_list_to_set, elem_of_sort_strs, elem_of_elements.
        subst inp. set_solver. }
      destruct v; [|done]. exfalso. apply (si_open _ _ _ Hi) in Hv. rewrite He in Hv. by apply elem_of_nil in Hv.
Qed.

(** Only the set of planned packages matters. *)
Lemma topological_sort_set self l1 l2 :
  (forall p, p ∈ l1 <-> p ∈ l2) -> topological_sort self l1 = topological_sort self l2.
Proof.
  intros H. unfold topological_sort.
  by replace (list_to_set l2 : gset rstr) with (list_to_set l1 : gset rstr) by set_solver.
Qed.

(** * Property *)

(** ordering a plan always ends, returns each planned package exactly
    once, and puts every recorded dependency of a package that is itself in
    the plan before that package, except where the dependency leads back to
    the package, that is on a dependency cycle. *)
Theorem topological_sort_dependencies_first self packages :
  exists sorted, topological_sort self packages = Some sorted
    /\ NoDup sorted
    /\ (forall p, p ∈ sorted <-> p ∈ packages)
    /\ (forall p E d, p ∈ packages -> dep_graph self !! p = Some E -> d ∈ E -> d ∈ packages ->
        before sorted d p \/ rtc (plan_edge self (list_to_set packages)) d p).
Proof.
  destruct (topological_sort_spec self packages) as (sorted & Hs & Hnd & Hin & Hord).
  exists sorted. split_and!; [done..|]. intros p E d Hp HE Hd Hdp.
  apply Hord; [by apply Hin|]. apply plan_edge_spec. rewrite HE. simpl. split; [done|].
  by apply elem_of_list_to_set.
Qed.
