(* ===== verification/DebResolverPlan.v ===== *)
(** The whole [resolve] of src/src/package_managers/debian_db/resolver.rs:
    closure of the selected packages, dependency edges, order, validation and
    classification composed, with the properties of the plan it returns. *)

From stdpp Require Import relations.
From S2P Require Import Prelude DebVersion DebResolver DebResolverClosure DebResolverOrder.
Open Scope Z_scope.
Open Scope omg_scope.

(** * Merging closures *)

Lemma merge_installs_spec results :
  NoDup (merge_installs results)
  /\ forall p, p ∈ merge_installs results <-> p ∈ concat results.
Proof.
  unfold merge_installs.
  assert (Hgen : forall l seen acc, NoDup acc -> (forall p, p ∈ seen <-> p ∈ acc) ->
    let r := (foldl (fun '(seen, acc) pkg =>
       if decide (pkg ∈ (seen : gset rstr)) then (seen, acc) else ({[pkg]} ∪ seen, acc ++ [pkg]))
       (seen, acc) l).2 in
    NoDup r /\ forall p, p ∈ r <-> p ∈ acc \/ p ∈ l).
  { induction l as [|x l IH]; intros seen acc Hnd Hs; simpl; [set_solver|].
    case_decide as Hx.
    - destruct (IH seen acc Hnd Hs) as [H1 H2]. split; [done|]. intros p. rewrite H2. set_solver.
    - destruct (IH ({[x]} ∪ seen) (acc ++ [x])) as [H1 H2].
      + apply NoDup_app. split; [done|]. split; [set_solver|apply NoDup_singleton].
      + set_solver.
      + split; [done|]. intros p. rewrite H2. set_solver. }
  destruct (Hgen (concat results) ∅ []) as [H1 H2]; [constructor|set_solver|].
  split; [done|]. intros p. rewrite H2. set_solver.
Qed.

Lemma elem_of_concat {A} (x : A) ls : x ∈ concat ls <-> exists l, l ∈ ls /\ x ∈ l.
Proof.
  rewrite list_elem_of_In, in_concat. setoid_rewrite <- list_elem_of_In. naive_solver.
Qed.

Section plan.
Context (ARCH : rstr).

(** * The closure of the selection *)

(** The packages the selection pulls in. *)
Definition planned (self : DependencyResolver) (order : list rstr) (p : rstr) : Prop :=
  exists s, s ∈ order /\ rtc (requires ARCH self) s p.

Lemma resolve_closure_Ok self order l :
  resolve_closure ARCH self order = Ok l ->
  NoDup l /\ (forall p, p ∈ l <-> planned self order p)
  /\ (forall p, p ∈ l -> resolvable ARCH self p).
Proof.
  unfold resolve_closure, planned. case_match eqn:Hlen; intros H; res_inv.
  - apply try_map_Ok in Hr. destruct (merge_installs_spec a) as [Hnd Hin].
    assert (Hall : forall s, s ∈ order -> exists i, i ∈ a /\
      (forall p, p ∈ i <-> rtc (requires ARCH self) s p) /\ (forall p, p ∈ i -> resolvable ARCH self p)).
    { clear -Hr. induction Hr as [|s i order a Hs _ IH]; [by intros s ?%elem_of_nil|].
      res_inv. destruct a0 as [v i0]. apply resolve_package_Ok in Hr as (_ & ? & ?).
      intros s' [->|Hs']%elem_of_cons; [exists i0; set_solver|]. destruct (IH s' Hs'). set_solver. }
    assert (Hall' : forall i, i ∈ a -> exists s, s ∈ order /\
      (forall p, p ∈ i <-> rtc (requires ARCH self) s p) /\ (forall p, p ∈ i -> resolvable ARCH self p)).
    { clear -Hr. induction Hr as [|s i order a Hs _ IH]; [by intros s ?%elem_of_nil|].
      res_inv. destruct a0 as [v i0]. apply resolve_package_Ok in Hr as (_ & ? & ?).
      intros i' [->|Hi']%elem_of_cons; [exists s; set_solver|]. destruct (IH i' Hi'). set_solver. }
    split; [done|]. split; intros p; rewrite Hin, elem_of_concat.
    + split.
      * intros (i & Hi & Hp). destruct (Hall' i Hi) as (s & ? & Hs & _). exists s. by rewrite <- Hs.
      * intros (s & Hs & Hp). destruct (Hall s Hs) as (i & ? & Hi & _). exists i. by rewrite Hi.
    + intros (i & Hi & Hp). destruct (Hall' i Hi) as (s & ? & _ & ?). auto.
  - apply Nat.ltb_ge in Hlen. destruct order as [|s [|]]; simpl in *; [res_inv| |lia].
    + split; [constructor|]. set_solver.
    + res_inv. destruct a as [v i]. apply resolve_package_Ok in Hr0 as (Hnd & Hin & Hok). simpl.
      split; [done|]. split; [|done]. intros p. rewrite Hin. set_solver.
Qed.

Lemma resolve_closure_total self order :
  (forall p, planned self order p -> resolvable ARCH self p) ->
  exists l, resolve_closure ARCH self order = Ok l.
Proof.
  intros Hok. assert (Hone : forall s, s ∈ order -> exists r, resolve_package ARCH self s ∅ [] = Ok r).
  { intros s Hs. apply resolve_package_total. intros p Hp. apply Hok. by exists s. }
  unfold resolve_closure. case_match eqn:Hlen.
  - enough (exists rs, try_map (fun name => let? vi := resolve_package ARCH self name ∅ [] in Ok vi.2) order
      = (Ok rs : result _ ResolveError)) as [rs ->] by (by eexists).
    clear Hlen Hok. induction order as [|s order IH]; simpl; [by eexists|].
    destruct (Hone s ltac:(by left)) as [r ->]. simpl.
    destruct IH as [rs ->]; [intros s' ?; apply Hone; by right|]. by eexists.
  - apply Nat.ltb_ge in Hlen. destruct order as [|s [|]]; simpl in *; [by eexists| |lia].
    destruct (Hone s ltac:(by left)) as [r Hr]. rewrite Hr. by eexists.
Qed.

Lemma resolve_closure_succeeds self order :
  (exists l, resolve_closure ARCH self order = Ok l) <->
  (forall p, planned self order p -> resolvable ARCH self p).
Proof.
  split; [|apply resolve_closure_total].
  intros [l (_ & Hin & Hok)%resolve_closure_Ok] p Hp. by apply Hok, Hin.
Qed.

Lemma resolve_closure_not_limit self order : resolve_closure ARCH self order ≠ Err StepLimit.
Proof.
  unfold resolve_closure. case_match eqn:Hlen; intros H; apply res_bind_Err in H as [H|(?&?&?)]; try done.
  - clear Hlen. induction order as [|s order IH]; simpl in H; [done|].
    apply res_bind_Err in H as [H|(?&?&H)].
    + apply res_bind_Err in H as [H|(?&?&?)]; [|done]. by apply resolve_package_not_limit in H.
    + apply res_bind_Err in H as [H|(?&?&?)]; [by apply IH|done].
  - apply Nat.ltb_ge in Hlen. destruct order as [|s [|]]; simpl in *; [done| |lia].
    apply res_bind_Err in H as [H|(?&?&?)]; [by apply resolve_package_not_limit in H|done].
Qed.

(** * Edges *)

Lemma package_edges_Ok self p pkg :
  available self !! p = Some pkg -> resolvable ARCH self p ->
  exists E, package_edges ARCH self p pkg = Ok E /\ forall q, q ∈ E <-> requires ARCH self p q.
Proof.
  intros Hp (pkg' & Hp' & Hok). assert (pkg' = pkg) as -> by congruence. unfold package_edges.
  assert (Hgen : forall raws E0, (forall raw, raw ∈ raws -> exists t, resolves_to ARCH self raw t) ->
    exists E, for_each (fun (dependencies : gset rstr) raw =>
      let? dependency := map_err (InvalidDependency raw p) (parse_dependency ARCH raw) in
      Ok match dependency_target self dependency with
         | Some (Available target) => {[target]} ∪ dependencies
         | _ => dependencies
         end) E0 raws = Ok E
      /\ forall q, q ∈ E <-> q ∈ E0 \/ exists raw, raw ∈ raws /\ resolves_to ARCH self raw (Available q)).
  { induction raws as [|raw raws IH]; intros E0 Hall; simpl; [exists E0; set_solver|].
    destruct (Hall raw ltac:(by left)) as (t & dep & Hdep & Ht). rewrite Hdep. simpl. rewrite Ht.
    destruct (IH (match t with Available target => {[target]} ∪ E0 | Installed => E0 end)) as (E & HE & Hin);
      [set_solver|]. exists E. split; [by destruct t|]. intros q. rewrite Hin.
    assert (Hraw : resolves_to ARCH self raw (Available q) <-> t = Available q).
    { split; [intros (d & ? & ?); congruence|]. intros ->. by exists dep. }
    setoid_rewrite elem_of_cons. destruct t as [|tq]; [|rewrite elem_of_union, elem_of_singleton];
      (split; [intros Hq|intros [Hq|(r & [->|Hr] & Hq)]]);
      try (apply Hraw in Hq; simplify_eq); naive_solver. }
  destruct (Hgen (pkg_depends pkg) ∅ Hok) as (E & HE & Hin). exists E. split; [done|].
  intros q. rewrite Hin. unfold requires. set_solver.
Qed.

(** The graph after recording a list of packages. *)
Definition recorded (self : DependencyResolver) (l : list rstr) (p : rstr) : option (gset rstr) :=
  match dep_graph self !! p with
  | Some E => Some E
  | None =>
      if decide (p ∈ l) then
        match available self !! p with
        | Some pkg => ok (package_edges ARCH self p pkg)
        | None => None
        end
      else None
  end.

Lemma record_dependency_edges_Ok self l :
  (forall p, p ∈ l -> resolvable ARCH self p) ->
  exists g, record_dependency_edges ARCH self l = (set_dep_graph self g, Ok tt)
    /\ forall p, g !! p = recorded self l p.
Proof.
  revert self; induction l as [|x l IH]; intros self Hok; cbn [record_dependency_edges].
  - exists (dep_graph self). split; [by destruct self|]. intros p. unfold recorded.
    by destruct (dep_graph self !! p).
  - destruct (dep_graph self !! x) as [E|] eqn:Hx.
    + destruct (IH self) as (g & -> & Hg); [set_solver|]. exists g. split; [done|].
      intros p. rewrite Hg. unfold recorded. destruct (dep_graph self !! p) eqn:Hp; [done|].
      assert (p ≠ x) by congruence. repeat case_decide; set_solver.
    + destruct (Hok x ltac:(by left)) as (pkg & Hpkg & Hall). rewrite Hpkg.
      destruct (package_edges_Ok self x pkg Hpkg) as (E & HE & _); [by exists pkg|]. rewrite HE.
      destruct (IH (set_dep_graph self (<[x:=E]> (dep_graph self)))) as (g & -> & Hg).
      { intros p Hp. apply Hok. by right. }
      exists g. split; [done|]. intros p. rewrite Hg. unfold recorded. simpl. rewrite lookup_insert.
      case_decide as Hxp.
      * subst. rewrite Hx, decide_True by (by left). by rewrite Hpkg, HE.
      * destruct (dep_graph self !! p); [done|]. repeat case_decide; try done; set_solver.
Qed.

(** Edges recorded earlier describe the same packages. *)
Definition graph_ok (self : DependencyResolver) : Prop :=
  forall p E, dep_graph self !! p = Some E ->
    forall q, q ∈ E <-> requires ARCH self p q.

Lemma graph_ok_record self l g :
  graph_ok self -> (forall p, p ∈ l -> resolvable ARCH self p) ->
  (forall p, g !! p = recorded self l p) -> graph_ok (set_dep_graph self g).
Proof.
  intros Hg Hok Hrec p E. simpl. rewrite Hrec. unfold recorded.
  destruct (dep_graph self !! p) as [E'|] eqn:Hp; [intros [= <-]; by apply Hg|].
  case_decide as Hl; [|done]. destruct (Hok p Hl) as (pkg & Hpkg & Hall). rewrite Hpkg.
  destruct (package_edges_Ok self p pkg Hpkg) as (E' & -> & HE); [by exists pkg|]. by intros [= <-].
Qed.

(** * The whole resolution *)

Lemma validate_package_not_limit self m p : validate_package ARCH self m p ≠ Err StepLimit.
Proof.
  unfold validate_package. destruct (available self !! p) as [pkg|]; [|done].
  induction (pkg_depends pkg) as [|raw raws IH]; cbn [for_each]; [done|].
  intros H. apply res_bind_Err in H as [H|([]&_&H)]; [|by apply IH in H].
  apply res_bind_Err in H as [H|(d & Hd & H)].
  - by destruct (parse_dependency ARCH raw).
  - by destruct (existsb _ _).
Qed.

Lemma validate_not_limit self l : validate_projected_dependencies ARCH self l ≠ Err StepLimit.
Proof.
  unfold validate_projected_dependencies. generalize (projected_versions self l) as m.
  intros m. induction l as [|p l IH]; cbn [for_each]; [done|].
  intros H. apply res_bind_Err in H as [H|([]&_&H)]; [by apply validate_package_not_limit in H|by apply IH in H].
Qed.

(** When every planned package is resolvable, [resolve] reaches validation. *)
Lemma resolve_run self order :
  (forall p, planned self order p -> resolvable ARCH self p) ->
  exists l g sorted,
    resolve_closure ARCH self order = Ok l
    /\ (forall p, g !! p = recorded self l p)
    /\ topological_sort (set_dep_graph self g) l = Some sorted
    /\ resolve ARCH self order =
       (set_dep_graph self g,
        let? _ := validate_projected_dependencies ARCH (set_dep_graph self g) sorted in
        Ok (foldl (classify self) empty_result sorted)).
Proof.
  intros Hok. destruct (resolve_closure_total self order Hok) as [l Hl].
  destruct (resolve_closure_Ok self order l Hl) as (_ & _ & Hres).
  destruct (record_dependency_edges_Ok self l Hres) as (g & Hrec & Hg).
  destruct (topological_sort_spec (set_dep_graph self g) l) as (sorted & Hs & _).
  exists l, g, sorted. split_and!; [done..|]. unfold resolve. rewrite Hl, Hrec, Hs.
  by destruct (validate_projected_dependencies _ _ _) as [[]|].
Qed.

Lemma resolve_stuck self order e :
  resolve_closure ARCH self order = Err e -> resolve ARCH self order = (self, Err e).
Proof. unfold resolve. by intros ->. Qed.

Lemma resolve_Ok_inv self order self' r :
  resolve ARCH self order = (self', Ok r) ->
  forall p, planned self order p -> resolvable ARCH self p.
Proof.
  intros H. destruct (resolve_closure ARCH self order) as [l|e] eqn:E.
  - apply resolve_closure_succeeds. by exists l.
  - apply resolve_stuck in E. congruence.
Qed.

(** * Classification *)

(** The names a plan changes. *)
Definition changed (self : DependencyResolver) (p : rstr) : bool :=
  match available self !! p, installed self !! p with
  | Some pkg, Some v => bool_decide (compare_deb_versions v (pkg_version pkg) = Lt)
  | Some _, None => true
  | None, _ => false
  end.

(** Available and not installed. *)
Definition fresh (self : DependencyResolver) (p : rstr) : bool :=
  match available self !! p, installed self !! p with
  | Some _, None => true
  | _, _ => false
  end.

Lemma fresh_true self p :
  fresh self p = true <-> is_Some (available self !! p) /\ installed self !! p = None.
Proof.
  unfold fresh. destruct (available self !! p), (installed self !! p); naive_solver eauto.
Qed.

Definition size_of (field : DebianPackage -> Z) (self : DependencyResolver) (p : rstr) : Z :=
  match available self !! p with Some pkg => field pkg | None => 0 end.

Definition sum_sizes (field : DebianPackage -> Z) (self : DependencyResolver) (l : list rstr) : Z :=
  foldr Z.add 0 (map (size_of field self) l).

Record classified (self : DependencyResolver) (l : list rstr) (r : ResolutionResult) : Prop := {
  cl_install : to_install r = List.filter (fresh self) l;
  cl_upgrade : forall p o v, (p, o, v) ∈ to_upgrade r <->
    p ∈ l /\ exists pkg, available self !! p = Some pkg /\ installed self !! p = Some o
      /\ v = pkg_version pkg /\ compare_deb_versions o v = Lt;
  cl_download : download_size r = wrap64 (sum_sizes pkg_size self (List.filter (changed self) l));
  cl_installed : installed_size r = wrap64 (sum_sizes pkg_installed_size self (List.filter (changed self) l))
}.

Lemma sum_sizes_app field self l1 l2 :
  sum_sizes field self (l1 ++ l2) = sum_sizes field self l1 + sum_sizes field self l2.
Proof. unfold sum_sizes. induction l1 as [|x l1 IH]; simpl; [done|]. rewrite IH. lia. Qed.

Lemma wrap64_add a b : wrap64 (wrap64 a + b) = wrap64 (a + b).
Proof. unfold wrap64. by rewrite Zplus_mod_idemp_l. Qed.

Lemma classify_step self l p r :
  classified self l r -> classified self (l ++ [p]) (classify self r p).
Proof.
  intros [Hi Hu Hd Hs]. unfold classify.
  assert (Hf : List.filter (changed self) (l ++ [p])
    = List.filter (changed self) l ++ if changed self p then [p] else [])
    by (rewrite List.filter_app; by simpl; destruct (changed self p)).
  assert (Hsz : forall field, sum_sizes field self [p] = size_of field self p)
    by (intros; unfold sum_sizes; simpl; lia).
  assert (Hn : List.filter (fresh self) (l ++ [p])
    = List.filter (fresh self) l ++ if fresh self p then [p] else [])
    by (rewrite List.filter_app; by simpl; destruct (fresh self p)).
  destruct (available self !! p) as [pkg|] eqn:Hp.
  - destruct (installed self !! p) as [v|] eqn:Hv; [case_decide as Hlt|]; split; simpl.
    all: try (rewrite Hf; unfold changed; rewrite Hp, Hv; rewrite ?bool_decide_true, ?bool_decide_false by done;
              rewrite ?app_nil_r, ?sum_sizes_app, ?Hsz, ?Hd, ?Hs, ?wrap64_add;
              unfold size_of; rewrite ?Hp; done).
    all: try (rewrite Hn, Hi; unfold fresh; rewrite Hp, Hv; by rewrite ?app_nil_r).
    + intros q o w. rewrite elem_of_app, Hu, elem_of_app, !list_elem_of_singleton. naive_solver congruence.
    + intros q o w. rewrite Hu, elem_of_app, !list_elem_of_singleton. naive_solver congruence.
    + intros q o w. rewrite Hu, elem_of_app, !list_elem_of_singleton. naive_solver congruence.
  - assert (Hc : changed self p = false) by (unfold changed; by rewrite Hp).
    assert (Hr : fresh self p = false) by (unfold fresh; by rewrite Hp).
    split; simpl; rewrite ?Hf, ?Hn, ?Hc, ?Hr, ?app_nil_r; try done.
    intros q o w. rewrite Hu, elem_of_app, list_elem_of_singleton. naive_solver congruence.
Qed.

Lemma classify_all self l : classified self l (foldl (classify self) empty_result l).
Proof.
  induction l as [|p l IH] using rev_ind; simpl.
  - split; simpl; try done; set_solver.
  - rewrite foldl_app. simpl. by apply classify_step.
Qed.

(** What a successful resolution has done. *)
Lemma resolve_Ok self order self' r :
  resolve ARCH self order = (self', Ok r) ->
  exists l g sorted,
    self' = set_dep_graph self g
    /\ NoDup l /\ (forall p, p ∈ l <-> planned self order p)
    /\ (forall p, p ∈ l -> resolvable ARCH self p)
    /\ (forall p, g !! p = recorded self l p)
    /\ topological_sort (set_dep_graph self g) l = Some sorted
    /\ validate_projected_dependencies ARCH (set_dep_graph self g) sorted = Ok tt
    /\ r = foldl (classify self) empty_result sorted.
Proof.
  intros H. pose proof (resolve_Ok_inv _ _ _ _ H) as Hres.
  destruct (resolve_run self order Hres) as (l & g & sorted & Hl & Hg & Hs & Hrun).
  rewrite Hrun in H. injection H as <- H. apply res_bind_Ok in H as ([] & Hv & [= <-]).
  destruct (resolve_closure_Ok self order l Hl) as (? & ? & ?). by exists l, g, sorted.
Qed.

End plan.
