(* ===== verification/DebResolverSound.v ===== *)
(** Properties of the plan returned by [DependencyResolver::resolve]
    (src/src/package_managers/debian_db/resolver.rs): when a resolution
    succeeds, that it does not depend on hash order, that dependencies come
    first, that the versions left installed satisfy every dependency, and how
    the sizes add up. The last theorem exhibits the states in which the
    validation accepts a plan that leaves a dependency unsatisfied. *)

From stdpp Require Import relations.
From S2P Require Import Prelude DebVersion DebResolver DebResolverClosure DebResolverOrder DebResolverPlan.
Open Scope Z_scope.
Open Scope omg_scope.

(** * Constraints of valid strings *)

Definition valid_constraint (c : option VersionConstraint) : Prop :=
  match c with Some c => valid_str (version c) | None => True end.

Lemma parse_version_constraint_valid s c :
  valid_str s -> parse_version_constraint s = Ok c -> valid_str (version c).
Proof.
  unfold parse_version_constraint. intros Hs H. apply (Forall_trim (fun c => is_scalar c = true)) in Hs.
  apply res_bind_Ok in H as ([o v] & Hv & H). apply res_bind_Ok in H as ([] & _ & [= <-]). simpl.
  apply Forall_trim. repeat case_match; simplify_eq; eauto using Forall_strip_prefix.
Qed.

Lemma parse_single_dep_valid ARCH s d :
  valid_str s -> parse_single_dep ARCH s = Ok d -> valid_constraint (dep_constraint d).
Proof.
  unfold parse_single_dep. intros Hs H. destruct (split_once (ch "(") s) as [[x y]|] eqn:E.
  - apply (Forall_split_once (fun c => is_scalar c = true)) in E as [_ Hy]; [|done].
    apply res_bind_Ok in H as (n & _ & H). apply res_bind_Ok in H as (cs & Hcs & H).
    destruct (split_once (ch ")") y) as [[u w]|] eqn:E2; [|done]. injection Hcs as <-.
    apply (Forall_split_once (fun c => is_scalar c = true)) in E2 as [Hu _]; [|done].
    apply res_bind_Ok in H as (c & Hc & [= <-]). simpl. by eapply parse_version_constraint_valid.
  - apply res_bind_Ok in H as ([] & _ & H). by apply res_bind_Ok in H as (n & _ & [= <-]).
Qed.

Lemma parse_dependency_valid ARCH s d :
  valid_str s -> parse_dependency ARCH s = Ok d ->
  Forall (fun c => valid_constraint (dep_constraint c)) (candidates d).
Proof.
  unfold parse_dependency, candidates. intros Hs H.
  apply (Forall_trim (fun c => is_scalar c = true)), (Forall_split_char _ (ch "|")) in Hs.
  assert (Hp : Forall valid_str (map trim (split_char (ch "|") (trim s))))
    by (apply Forall_map; eapply Forall_impl; [exact Hs|]; intros; by apply Forall_trim).
  destruct (map trim _) as [|x xs]; simpl in H.
  - done.
  - apply Forall_cons in Hp as [Hx Hxs]. apply res_bind_Ok in H as (y & Hy & H).
    apply res_bind_Ok in H as (ys & Hys & [= <-]). simpl. constructor.
    + exact (parse_single_dep_valid ARCH x y Hx Hy).
    + apply try_map_Ok in Hys. clear -Hys Hxs.
      induction Hys as [|? ? ? ? Hd _ IH]; constructor; apply Forall_cons in Hxs as [? ?];
        eauto using parse_single_dep_valid.
Qed.

Lemma version_satisfies_equal v w c :
  valid_str v -> valid_str w -> valid_str (version c) -> compare_deb_versions v w = Eq ->
  version_satisfies v c = version_satisfies w c.
Proof.
  intros Hv Hw Hc E. unfold version_satisfies.
  by rewrite (cmp_eq_l compare_deb_versions_order v w (version c)) by done.
Qed.

Lemma constraint_ok_equal v w c :
  valid_str v -> valid_str w -> valid_constraint c -> compare_deb_versions v w = Eq ->
  constraint_ok v c = constraint_ok w c.
Proof. destruct c; simpl; [apply version_satisfies_equal|done]. Qed.

(** * The state left by a plan *)

(** What executing a plan does to the installed versions. *)
Definition apply_plan (self : DependencyResolver) (r : ResolutionResult) : gmap rstr rstr :=
  foldl (fun m '(p, _, v) => <[p := v]> m)
    (foldl (fun m p =>
       match available self !! p with
       | Some pkg => <[p := pkg_version pkg]> m
       | None => m
       end) (installed self) (to_install r))
    (to_upgrade r).

Lemma projected_versions_lookup self l p :
  projected_versions self l !! p =
  if decide (p ∈ l) then
    match available self !! p with
    | Some pkg => Some (pkg_version pkg)
    | None => installed self !! p
    end
  else installed self !! p.
Proof.
  unfold projected_versions. generalize (installed self) as m. intros m. revert m.
  induction l as [|x l IH] using rev_ind; intros m; [done|]. rewrite foldl_app. simpl.
  destruct (decide (p = x)) as [->|Hne].
  - rewrite decide_True by set_solver. destruct (available self !! x) eqn:E; [by rewrite lookup_insert_eq|].
    rewrite IH. by case_decide.
  - assert (Hd : forall (A : Type) (a b : A), (if decide (p ∈ l ++ [x]) then a else b)
      = if decide (p ∈ l) then a else b) by (intros; repeat case_decide; set_solver).
    rewrite Hd. destruct (available self !! x); [rewrite lookup_insert_ne by done|]; apply IH.
Qed.

Lemma upgrades_other (m : gmap rstr rstr) (u : list (rstr * rstr * rstr)) p :
  (forall o w, (p, o, w) ∉ u) -> foldl (fun m '(p, _, v) => <[p := v]> m) m u !! p = m !! p.
Proof.
  induction u as [|[[q o] w] u IH] using rev_ind; intros Hu; [done|]. rewrite foldl_app. simpl.
  assert (p ≠ q) by (intros ->; apply (Hu o w); set_solver).
  rewrite lookup_insert_ne by done. apply IH. set_solver.
Qed.

Lemma upgrades_same (m : gmap rstr rstr) (u : list (rstr * rstr * rstr)) p v :
  (exists o, (p, o, v) ∈ u) -> (forall o w, (p, o, w) ∈ u -> w = v) ->
  foldl (fun m '(p, _, v) => <[p := v]> m) m u !! p = Some v.
Proof.
  induction u as [|[[q o] w] u IH] using rev_ind; intros [o' Ho] Hu; [by apply elem_of_nil in Ho|].
  rewrite foldl_app. simpl. destruct (decide (p = q)) as [->|Hne].
  - rewrite lookup_insert_eq. f_equal. apply (Hu o). set_solver.
  - rewrite lookup_insert_ne by done. apply IH; [set_solver|]. intros. apply (Hu o0). set_solver.
Qed.

Lemma apply_plan_lookup self l r p :
  classified self l r ->
  apply_plan self r !! p =
  if decide (p ∈ l /\ changed self p = true) then pkg_version <$> available self !! p
  else installed self !! p.
Proof.
  intros [Hi Hu _ _]. unfold apply_plan.
  change (foldl _ (installed self) (to_install r)) with (projected_versions self (to_install r)).
  pose proof (projected_versions_lookup self (to_install r) p) as Hpr.
  assert (Hin : p ∈ to_install r <-> p ∈ l /\ fresh self p = true)
    by (by rewrite Hi, !list_elem_of_In, List.filter_In).
  destruct (decide (p ∈ l /\ changed self p = true)) as [[Hl Hc]|Hn].
  - unfold changed in Hc. destruct (available self !! p) as [pkg|] eqn:Hp; [|done]. simpl.
    destruct (installed self !! p) as [v|] eqn:Hv.
    + apply bool_decide_eq_true in Hc. apply upgrades_same; [exists v; apply Hu; naive_solver|].
      intros o w (_ & ? & ? & ? & ? & ?)%Hu. by simplify_eq.
    + rewrite upgrades_other; [|intros o w (_ & ? & ? & ? & ? & ?)%Hu; by simplify_eq].
      rewrite Hpr, decide_True; [done|]. apply Hin. split; [done|]. unfold fresh. by rewrite Hp, Hv.
  - rewrite upgrades_other.
    + rewrite Hpr. case_decide as Hd; [|done]. apply Hin in Hd as [Hl Hf]. exfalso. apply Hn.
      split; [done|]. unfold fresh in Hf. unfold changed. by repeat case_match.
    + intros o w (Hl & pkg & Hp & Hv & -> & Hlt)%Hu. apply Hn. split; [done|].
      unfold changed. rewrite Hp, Hv. by apply bool_decide_eq_true.
Qed.

(** * Validation *)

(** Every dependency of [p] has a candidate met by [versions]. *)
Definition dependencies_met (ARCH : rstr) (self : DependencyResolver) (versions : gmap rstr rstr)
    (p : rstr) : Prop :=
  forall pkg raw, available self !! p = Some pkg -> raw ∈ pkg_depends pkg ->
    exists dep candidate, parse_dependency ARCH raw = Ok dep /\ candidate ∈ candidates dep
      /\ candidate_met versions candidate = true.

Lemma validate_package_Ok ARCH self m p :
  validate_package ARCH self m p = Ok tt <-> dependencies_met ARCH self m p.
Proof.
  unfold validate_package, dependencies_met. destruct (available self !! p) as [pkg|]; [|naive_solver].
  rewrite (for_each_unit_Ok (fun raw => let? dependency := map_err (InvalidDependency raw p) (parse_dependency ARCH raw) in
    ensure (existsb (candidate_met m) (candidates dependency)) (PlanUnsatisfied raw p))).
  split.
  - intros H pkg' raw [= <-] Hraw. specialize (H raw Hraw). apply res_bind_Ok in H as (dep & Hdep & H).
    destruct (parse_dependency ARCH raw) as [dep'|]; [|done]. injection Hdep as ->.
    apply ensure_Ok, existsb_exists in H as (c & Hc & Hm). exists dep, c. by rewrite list_elem_of_In.
  - intros H raw Hraw. destruct (H pkg raw eq_refl Hraw) as (dep & c & -> & Hc & Hm). cbn [map_err res_bind].
    apply ensure_Ok, existsb_exists. exists c. by rewrite <- list_elem_of_In.
Qed.

Lemma validate_Ok ARCH self l :
  validate_projected_dependencies ARCH self l = Ok tt <->
  forall p, p ∈ l -> dependencies_met ARCH self (projected_versions self l) p.
Proof.
  unfold validate_projected_dependencies. rewrite (for_each_unit_Ok (fun p => validate_package ARCH self _ p)).
  by setoid_rewrite validate_package_Ok.
Qed.

Lemma projected_versions_set self l1 l2 :
  (forall p, p ∈ l1 <-> p ∈ l2) -> projected_versions self l1 = projected_versions self l2.
Proof.
  intros H. apply map_eq. intros p. rewrite !projected_versions_lookup. specialize (H p).
  repeat case_decide; tauto.
Qed.

Section sound.
Context (ARCH : rstr).

Abbreviation planned := (planned ARCH).

(** What a successful resolution validated, in terms of the closure. *)
Lemma resolve_validated self l sorted g :
  topological_sort (set_dep_graph self g) l = Some sorted ->
  validate_projected_dependencies ARCH (set_dep_graph self g) sorted = Ok tt <->
  forall p, p ∈ l -> dependencies_met ARCH self (projected_versions self l) p.
Proof.
  intros Hs. destruct (topological_sort_spec (set_dep_graph self g) l) as (s & Hs' & _ & Hin & _).
  assert (s = sorted) as -> by congruence. rewrite validate_Ok.
  change (projected_versions (set_dep_graph self g) sorted) with (projected_versions self sorted).
  rewrite (projected_versions_set self sorted l) by done. by setoid_rewrite Hin.
Qed.

Lemma resolve_not_limit self order : (resolve ARCH self order).2 ≠ Err StepLimit.
Proof.
  destruct (resolve_closure ARCH self order) as [l|e] eqn:E.
  - assert (Hres : forall p, planned self order p -> resolvable ARCH self p)
      by (apply resolve_closure_succeeds; by exists l).
    destruct (resolve_run ARCH self order Hres) as (l' & g & sorted & _ & _ & _ & ->). simpl.
    intros H. apply res_bind_Err in H as [H|(?&?&?)]; [by apply validate_not_limit in H|done].
  - rewrite (resolve_stuck _ _ _ _ E). simpl. intros [= ->]. by apply resolve_closure_not_limit in E.
Qed.

Lemma resolve_succeeds self order l :
  resolve_closure ARCH self order = Ok l ->
  (exists r, (resolve ARCH self order).2 = Ok r) <->
  forall p, p ∈ l -> dependencies_met ARCH self (projected_versions self l) p.
Proof.
  intros Hl. assert (Hres : forall p, planned self order p -> resolvable ARCH self p)
    by (apply resolve_closure_succeeds; by exists l).
  destruct (resolve_run ARCH self order Hres) as (l' & g & sorted & Hl' & _ & Hs & ->).
  assert (l' = l) as -> by congruence. rewrite <- (resolve_validated self l sorted g Hs). simpl.
  destruct (validate_projected_dependencies _ _ _) as [[]|]; naive_solver eauto.
Qed.

Lemma planned_set self o1 o2 p :
  (forall q, q ∈ o1 <-> q ∈ o2) -> planned self o1 p <-> planned self o2 p.
Proof. intros H. unfold DebResolverPlan.planned. by setoid_rewrite H. Qed.

Lemma recorded_set self l1 l2 p :
  (forall q, q ∈ l1 <-> q ∈ l2) -> recorded ARCH self l1 p = recorded ARCH self l2 p.
Proof. intros H. unfold recorded. specialize (H p). destruct (dep_graph self !! p); [done|].
  repeat case_decide; by tauto. Qed.

Lemma resolve_order self o1 o2 s r :
  (forall p, p ∈ o1 <-> p ∈ o2) ->
  resolve ARCH self o1 = (s, Ok r) -> resolve ARCH self o2 = (s, Ok r).
Proof.
  intros Ho H. apply resolve_Ok in H as (l1 & g1 & sorted1 & -> & _ & Hin1 & Hres1 & Hg1 & Hs1 & Hv1 & ->).
  assert (Hres : forall p, planned self o2 p -> resolvable ARCH self p)
    by (intros p Hp; by apply Hres1, Hin1, (planned_set self o1 o2)).
  destruct (resolve_run ARCH self o2 Hres) as (l2 & g2 & sorted2 & Hl2 & Hg2 & Hs2 & ->).
  apply resolve_closure_Ok in Hl2 as (_ & Hin2 & _).
  assert (Hl : forall p, p ∈ l1 <-> p ∈ l2)
    by (intros p; rewrite Hin1, Hin2; by apply planned_set).
  assert (g2 = g1) as -> by (apply map_eq; intros p; rewrite Hg1, Hg2; symmetry; by apply recorded_set).
  rewrite (topological_sort_set _ l1 l2) in Hs1 by done.
  assert (sorted2 = sorted1) as -> by congruence. by rewrite Hv1.
Qed.

(** * Reachable resolvers *)

(** Resolvers obtained from [new] by [add_package] and [resolve] calls. *)
Inductive resolver_reachable : DependencyResolver -> Prop :=
| reach_new packages installed_list :
    resolver_reachable (resolver_new ARCH packages installed_list)
| reach_add keys s name s' :
    resolver_reachable s -> add_package keys s name = Ok s' -> resolver_reachable s'
| reach_resolve s order s' r :
    resolver_reachable s -> (forall p, p ∈ order <-> p ∈ selected s) ->
    resolve ARCH s order = (s', r) -> resolver_reachable s'.

Lemma resolve_graph_ok self order self' r :
  graph_ok ARCH self -> resolve ARCH self order = (self', r) ->
  graph_ok ARCH self' /\ available self' = available self /\ installed self' = installed self
  /\ selected self' = selected self.
Proof.
  intros Hg H. destruct (resolve_closure ARCH self order) as [l|e] eqn:E.
  - assert (Hres : forall p, planned self order p -> resolvable ARCH self p)
      by (apply resolve_closure_succeeds; by exists l).
    destruct (resolve_run ARCH self order Hres) as (l' & g & sorted & Hl & Hr & _ & Hrun).
    rewrite Hrun in H. injection H as <- _. split; [|done].
    apply resolve_closure_Ok in Hl as (_ & _ & Hok). by eapply graph_ok_record.
  - rewrite (resolve_stuck _ _ _ _ E) in H. by injection H as <- _.
Qed.

Lemma reachable_invariant s :
  resolver_reachable s -> graph_ok ARCH s /\ (forall p, p ∈ selected s -> is_Some (available s !! p)).
Proof.
  induction 1 as [|keys s name s' _ [Hg Hs] Hadd|s order s' r _ [Hg Hs] _ Hr].
  - split; [intros p E; simpl; by rewrite lookup_empty|set_solver].
  - unfold add_package in Hadd. destruct (available s !! name) as [pkg|] eqn:Hn; [|done].
    injection Hadd as <-. split; [exact Hg|]. simpl. intros p [->%elem_of_singleton|?]%elem_of_union; eauto.
  - destruct (resolve_graph_ok _ _ _ _ Hg Hr) as (? & -> & _ & ->). done.
Qed.

End sound.

(** * Installation order of the plan *)

Lemma before_filter {A} (f : A -> bool) l x y :
  before l x y -> f x = true -> f y = true -> before (List.filter f l) x y.
Proof.
  intros (l1 & l2 & -> & Hx) Hfx Hfy. exists (List.filter f l1), (List.filter f l2).
  rewrite List.filter_app. simpl. rewrite Hfy. split; [done|].
  apply list_elem_of_In, List.filter_In. split; [by apply list_elem_of_In|done].
Qed.

(** * A sample repository *)

Definition sample_installed (n v arch : string) : DpkgPackageEntry :=
  {| dpkg_name := str n; dpkg_version := str v; dpkg_description := [];
     dpkg_architecture := str arch; dpkg_is_explicit := true |}.

(** [app] needs a newer [lib] than the installed one and one of two tools;
    [lib] and [base] depend on each other. *)
Definition sample_resolver : DependencyResolver :=
  resolver_new (str "x86_64")
    [ sample_package "app" "1.0-1" ["lib (>= 2.0)"; "tool (>> 9) | extra:amd64"; "doc"] 10;
      sample_package "lib" "2.1" ["base"] 20;
      sample_package "base" "1:0.9" ["lib (>= 2.0~rc1)"] 30;
      sample_package "tool" "3" [] 40;
      sample_package "extra" "1" [] 50 ]
    [ sample_installed "lib" "1.9" "amd64"; sample_installed "doc" "4" "all";
      sample_installed "base" "7" "armhf" ].

Definition sample_selected : DependencyResolver :=
  match add_package [] sample_resolver (str "app") with Ok s => s | Err _ => sample_resolver end.

Definition sample_plan : ResolutionResult :=
  match (resolve (str "x86_64") sample_selected [str "app"]).2 with
  | Ok r => r
  | Err _ => empty_result
  end.

Example sample_plan_value :
  to_install sample_plan = [str "extra"; str "base"; str "app"]
  /\ to_upgrade sample_plan = [(str "lib", str "1.9", str "2.1")]
  /\ download_size sample_plan = 110.
Proof. vm_compute. done. Qed.

Lemma resolves_to_compute ARCH self raw t :
  match parse_dependency ARCH raw with Ok d => dependency_target self d | Err _ => None end = Some t ->
  resolves_to ARCH self raw t.
Proof. destruct (parse_dependency ARCH raw) as [d|] eqn:E; [|done]. by exists d. Qed.

Lemma sample_selected_reachable : resolver_reachable (str "x86_64") sample_selected.
Proof. eapply (reach_add _ [] sample_resolver (str "app")); [apply reach_new|by vm_compute]. Defined.

Lemma sample_resolve :
  exists s, resolve (str "x86_64") sample_selected [str "app"] = (s, Ok sample_plan).
Proof. eexists. vm_compute. reflexivity. Defined.

(** * Properties *)

(** ** What makes a selection resolvable *)

(** A version meets the optional constraint of a dependency. *)
Definition meets (v : rstr) (c : option VersionConstraint) : Prop :=
  match c with
  | None => True
  | Some c =>
      let o := compare_deb_versions v (version c) in
      match op c with
      | OpEq => o = Eq
      | OpGe => o = Gt \/ o = Eq
      | OpGt => o = Gt
      | OpLe => o = Lt \/ o = Eq
      | OpLt => o = Lt
      end
  end.

(** The alternatives of a dependency are tried in order: the first one that
    is installed, or else available, at a version meeting its constraint. *)
Inductive chosen (self : DependencyResolver) : list Dependency -> DependencyTarget -> Prop :=
| chosen_installed c rest v :
    installed self !! dep_name c = Some v -> meets v (dep_constraint c) -> chosen self (c :: rest) Installed
| chosen_available c rest pkg :
    (forall v, installed self !! dep_name c = Some v -> ~ meets v (dep_constraint c)) ->
    available self !! dep_name c = Some pkg -> meets (pkg_version pkg) (dep_constraint c) ->
    chosen self (c :: rest) (Available (dep_name c))
| chosen_later c rest t :
    (forall v, installed self !! dep_name c = Some v -> ~ meets v (dep_constraint c)) ->
    (forall pkg, available self !! dep_name c = Some pkg -> ~ meets (pkg_version pkg) (dep_constraint c)) ->
    chosen self rest t -> chosen self (c :: rest) t.

Definition pulls_in (ARCH : rstr) (self : DependencyResolver) (p q : rstr) : Prop :=
  exists pkg raw dep, available self !! p = Some pkg /\ raw ∈ pkg_depends pkg
    /\ parse_dependency ARCH raw = Ok dep /\ chosen self (dep :: dep_alternatives dep) (Available q).

Definition pulled_in (ARCH : rstr) (self : DependencyResolver) (order : list rstr) (p : rstr) : Prop :=
  exists s, s ∈ order /\ rtc (pulls_in ARCH self) s p.

(** The version a package has once the plan is executed. *)
Definition version_after (ARCH : rstr) (self : DependencyResolver) (order : list rstr) (q v : rstr) : Prop :=
  (pulled_in ARCH self order q /\ exists pkg, available self !! q = Some pkg /\ v = pkg_version pkg)
  \/ (~ pulled_in ARCH self order q /\ installed self !! q = Some v).

(** Every package the selection pulls in is available, each of its
    dependencies has an alternative that is installed or available, and one
    that is met by the versions present afterwards. *)
Definition satisfiable (ARCH : rstr) (self : DependencyResolver) (order : list rstr) : Prop :=
  forall p, pulled_in ARCH self order p ->
    exists pkg, available self !! p = Some pkg
      /\ forall raw, raw ∈ pkg_depends pkg ->
           exists dep, parse_dependency ARCH raw = Ok dep
             /\ (exists t, chosen self (dep :: dep_alternatives dep) t)
             /\ exists c v, c ∈ dep :: dep_alternatives dep /\ version_after ARCH self order (dep_name c) v
                  /\ meets v (dep_constraint c).

Lemma constraint_ok_meets v c : constraint_ok v c = true <-> meets v c.
Proof.
  destruct c as [c|]; [|done]. simpl. unfold version_satisfies, meets.
  destruct (op c); rewrite ?bool_decide_eq_true; destruct (compare_deb_versions v (version c)); naive_solver.
Qed.

Lemma candidate_met_meets m c :
  candidate_met m c = true <-> exists v, m !! dep_name c = Some v /\ meets v (dep_constraint c).
Proof.
  unfold candidate_met. destruct (m !! dep_name c) as [v|]; [|naive_solver].
  rewrite constraint_ok_meets. naive_solver.
Qed.

Lemma chosen_target self l t : chosen self l t <-> find_map (candidate_target self) l = Some t.
Proof.
  induction l as [|c l IH]; simpl; [split; [intros H; inversion H|done]|]. unfold candidate_target at 1.
  destruct (candidate_met (installed self) c) eqn:Hi.
  - apply candidate_met_meets in Hi as (v & Hv & Hm). split; [|intros [= <-]; by econstructor].
    intros H. inversion H; naive_solver.
  - assert (Hn : forall v, installed self !! dep_name c = Some v -> ~ meets v (dep_constraint c)).
    { intros v Hv Hm. enough (candidate_met (installed self) c = true) by congruence.
      apply candidate_met_meets. by exists v. }
    destruct (available self !! dep_name c) as [pkg|] eqn:Ha.
    + destruct (constraint_ok (pkg_version pkg) (dep_constraint c)) eqn:Hc.
      * apply constraint_ok_meets in Hc. split; [|intros [= <-]; by eapply chosen_available].
        intros H. inversion H; subst; naive_solver.
      * assert (~ meets (pkg_version pkg) (dep_constraint c)) by (rewrite <- constraint_ok_meets; congruence).
        rewrite <- IH. split; [intros H'; inversion H'; subst; naive_solver|].
        intros. apply chosen_later; naive_solver.
    + rewrite <- IH. split; [intros H'; inversion H'; subst; naive_solver|].
      intros. apply chosen_later; naive_solver.
Qed.

Lemma pulls_in_requires ARCH self p q : pulls_in ARCH self p q <-> requires ARCH self p q.
Proof.
  unfold pulls_in, requires, resolves_to, dependency_target, candidates.
  setoid_rewrite chosen_target. naive_solver.
Qed.

Lemma pulled_in_planned ARCH self order p : pulled_in ARCH self order p <-> planned ARCH self order p.
Proof.
  split; intros (s & Hs & Hr); exists s; (split; [done|]); clear Hs;
    induction Hr as [|x y z H _ IH]; eauto using rtc_refl; eapply rtc_l; eauto; by apply pulls_in_requires.
Qed.

Lemma version_after_projected ARCH self order l q v :
  (forall p, p ∈ l <-> planned ARCH self order p) ->
  (forall p, p ∈ l -> is_Some (available self !! p)) ->
  version_after ARCH self order q v <-> projected_versions self l !! q = Some v.
Proof.
  intros Hin Hav. unfold version_after. rewrite projected_versions_lookup, pulled_in_planned, <- Hin.
  destruct (decide (q ∈ l)) as [Hl|Hl]; [|naive_solver].
  destruct (Hav q Hl) as [pkg Hpkg]. rewrite Hpkg. naive_solver.
Qed.

Lemma satisfiable_closure ARCH self order :
  satisfiable ARCH self order <->
  exists l, resolve_closure ARCH self order = Ok l
    /\ forall p, p ∈ l -> dependencies_met ARCH self (projected_versions self l) p.
Proof.
  assert (Hres : satisfiable ARCH self order -> forall p, planned ARCH self order p -> resolvable ARCH self p).
  { intros H p Hp. destruct (H p ltac:(by apply pulled_in_planned)) as (pkg & Hpkg & Hd). exists pkg. split; [done|].
    intros raw Hraw. destruct (Hd raw Hraw) as (dep & Hdep & [t Ht] & _). exists t, dep.
    split; [done|]. by apply chosen_target. }
  split.
  - intros H. destruct (resolve_closure_total ARCH self order (Hres H)) as [l Hl].
    exists l. split; [done|]. destruct (resolve_closure_Ok _ _ _ _ Hl) as (_ & Hin & Hok).
    intros p Hp pkg raw Hpkg Hraw. destruct (H p) as (pkg' & Hpkg' & Hd); [by apply pulled_in_planned, Hin|].
    assert (pkg' = pkg) as -> by congruence. destruct (Hd raw Hraw) as (dep & Hdep & _ & c & v & Hc & Hv & Hm).
    exists dep, c. split_and!; [done..|]. apply candidate_met_meets. exists v. split; [|done].
    eapply version_after_projected; eauto. intros q (? & ? & _)%Hok. eauto.
  - intros (l & Hl & Hm) p Hp%pulled_in_planned. destruct (resolve_closure_Ok _ _ _ _ Hl) as (_ & Hin & Hok).
    apply Hin in Hp. destruct (Hok p Hp) as (pkg & Hpkg & Hd). exists pkg. split; [done|]. intros raw Hraw.
    destruct (Hd raw Hraw) as (t & dep & Hdep & Ht). exists dep. split_and!; [done|exists t; by apply chosen_target|].
    destruct (Hm p Hp pkg raw Hpkg Hraw) as (dep' & c & Hdep' & Hc & (v & Hv & Hmv)%candidate_met_meets).
    assert (dep' = dep) as -> by congruence. exists c, v. split_and!; [done| |done].
    eapply version_after_projected; eauto. intros q (? & ? & _)%Hok. eauto.
Qed.


(** the outcome of a successful resolution, and the resolver state it
    leaves, depend only on which packages are selected, not on the order in
    which the hash set of selected packages is enumerated. *)
Theorem resolve_order_independent ARCH self o1 o2 s r :
  (forall p, p ∈ o1 <-> p ∈ o2) ->
  resolve ARCH self o1 = (s, Ok r) -> resolve ARCH self o2 = (s, Ok r).
Proof. apply resolve_order. Qed.

Definition sample_two : DependencyResolver :=
  match add_package [] sample_selected (str "tool") with Ok s => s | Err _ => sample_resolver end.

Lemma resolve_order_independent_witness :
  exists s r, resolve (str "x86_64") sample_two [str "tool"; str "app"] = (s, Ok r)
    /\ to_install r = [str "extra"; str "base"; str "app"; str "tool"].
Proof.
  eexists _, _. split.
  - apply (resolve_order_independent _ _ [str "app"; str "tool"]); [set_solver|]. by vm_compute.
  - by vm_compute.
Defined.

(** in every resolver obtained from [new] by [add_package] and [resolve]
    calls, a successful resolution installs dependencies first: when a
    package to be installed requires another package to be installed, the
    latter comes earlier in [to_install] unless it requires the former back. *)
Theorem resolve_installs_dependencies_first ARCH self order self' r p q :
  resolver_reachable ARCH self ->
  resolve ARCH self order = (self', Ok r) ->
  p ∈ to_install r -> q ∈ to_install r -> requires ARCH self p q ->
  before (to_install r) q p \/ rtc (requires ARCH self) q p.
Proof.
  intros Hreach H Hp Hq Hreq. apply reachable_invariant in Hreach as [Hg _].
  apply resolve_Ok in H as (l & g & sorted & -> & _ & Hin & Hres & Hrec & Hs & _ & ->).
  pose proof (graph_ok_record ARCH self l g Hg Hres Hrec) as Hg'.
  destruct (classify_all self sorted) as [Hi _ _ _]. rewrite Hi in *.
  apply list_elem_of_In, List.filter_In in Hp as [Hp Hfp].
  apply list_elem_of_In, List.filter_In in Hq as [Hq Hfq].
  destruct (topological_sort_spec (set_dep_graph self g) l) as (s & Hs' & _ & Hin' & Hord).
  assert (s = sorted) as -> by congruence. rewrite <- list_elem_of_In in Hp, Hq.
  assert (Hedge : forall x y, plan_edge (set_dep_graph self g) (list_to_set l) x y -> requires ARCH self x y).
  { intros x y [He _]%plan_edge_spec. destruct (dep_graph (set_dep_graph self g) !! x) eqn:Ex; [|set_solver].
    by apply (Hg' x _ Ex) in He. }
  destruct (Hord p q Hp) as [Hb|Hc].
  - apply plan_edge_spec. split; [|apply elem_of_list_to_set; by apply Hin'].
    assert (Hpl : p ∈ l) by (by apply Hin'). destruct (Hres p Hpl) as (pkg & Hpkg & Hall).
    assert (Hlk : exists E, dep_graph (set_dep_graph self g) !! p = Some E).
    { simpl. rewrite Hrec. unfold recorded. destruct (dep_graph self !! p); [by eexists|].
      rewrite decide_True, Hpkg by done.
      destruct (package_edges_Ok ARCH self p pkg Hpkg) as (E & -> & _); [by exists pkg|by eexists]. }
    destruct Hlk as [E HE]. rewrite HE. by apply (Hg' p E HE).
  - left. by apply before_filter.
  - right. eapply rtc_subrel; [exact Hedge|done].
Qed.

Lemma resolve_installs_dependencies_first_witness :
  before (to_install sample_plan) (str "extra") (str "app").
Proof.
  destruct sample_resolve as [s Hs].
  destruct (resolve_installs_dependencies_first (str "x86_64") sample_selected [str "app"] s sample_plan
    (str "app") (str "extra")) as [H|H]; [| | | | |exact H|].
  - apply sample_selected_reachable.
  - exact Hs.
  - apply list_elem_of_In. vm_compute. auto.
  - apply list_elem_of_In. vm_compute. auto.
  - eexists _, (str "tool (>> 9) | extra:amd64"). split; [vm_compute; reflexivity|].
    split; [apply list_elem_of_In; vm_compute; auto|].
    apply resolves_to_compute. vm_compute. reflexivity.
  - apply rtc_inv in H as [H|(y & (pkg & raw & Hpkg & Hraw & _) & _)].
    + vm_compute in H. congruence.
    + assert (Hd : (pkg_depends <$> available sample_selected !! str "extra") = Some []) by (by vm_compute).
      rewrite Hpkg in Hd. injection Hd as Hd. rewrite Hd in Hraw. destruct (not_elem_of_nil _ Hraw).
Defined.

(** The version strings a resolver holds are Rust strings. *)
Definition valid_resolver (self : DependencyResolver) : Prop :=
  map_Forall (fun _ pkg => valid_str (pkg_version pkg) /\ Forall valid_str (pkg_depends pkg))
    (available self)
  /\ map_Forall (fun _ v => valid_str v) (installed self).

(** No package of the plan is installed above its candidate. *)
Definition no_downgrade ARCH (self : DependencyResolver) (order : list rstr) : Prop :=
  forall p pkg v, planned ARCH self order p -> available self !! p = Some pkg ->
    installed self !! p = Some v -> compare_deb_versions v (pkg_version pkg) ≠ Gt.

(** The executed plan and the projection agree up to equal versions. *)
Lemma apply_plan_projected ARCH self order l r q v :
  valid_resolver self -> no_downgrade ARCH self order ->
  (forall p, p ∈ l <-> planned ARCH self order p) -> classified self l r ->
  projected_versions self l !! q = Some v ->
  exists w, apply_plan self r !! q = Some w /\ valid_str v /\ valid_str w /\ compare_deb_versions w v = Eq.
Proof.
  intros [Ha Hi] Hno Hin Hcl Hq. rewrite (apply_plan_lookup self l r q Hcl).
  rewrite projected_versions_lookup in Hq.
  assert (Hrefl : forall x, valid_str x -> compare_deb_versions x x = Eq)
    by (intros; by apply (cmp_refl valid_str), H; apply compare_deb_versions_order).
  destruct (decide (q ∈ l)) as [Hl|Hl].
  - destruct (available self !! q) as [pkg|] eqn:Hpkg.
    + injection Hq as <-. destruct (Ha q pkg Hpkg) as [Hv _].
      destruct (changed self q) eqn:Hc; [rewrite decide_True by done; eexists; simpl; split_and!; eauto|].
      rewrite decide_False by naive_solver. unfold changed in Hc. rewrite Hpkg in Hc.
      destruct (installed self !! q) as [w|] eqn:Hw; [|done]. exists w. split_and!; [done|done|by apply (Hi q)|].
      apply bool_decide_eq_false in Hc. apply Hin in Hl. specialize (Hno q pkg w Hl Hpkg Hw).
      by destruct (compare_deb_versions w (pkg_version pkg)).
    + rewrite decide_False; [|unfold changed; rewrite Hpkg; naive_solver].
      exists v. split_and!; eauto; by apply (Hi q).
  - rewrite decide_False by naive_solver. exists v. split_and!; eauto; by apply (Hi q).
Qed.

(** C1: a returned plan is closed under dependencies: once it is executed,
    every dependency of every package the selection pulls in has a candidate
    installed at a version meeting its constraint, provided no such package
    is installed above its repository candidate. *)
Theorem resolve_plan_sound ARCH self order self' r p :
  valid_resolver self -> no_downgrade ARCH self order ->
  resolve ARCH self order = (self', Ok r) ->
  planned ARCH self order p ->
  dependencies_met ARCH self (apply_plan self r) p.
Proof.
  intros Hval Hno H Hp.
  apply resolve_Ok in H as (l & g & sorted & -> & _ & Hin & Hres & _ & Hs & Hv & ->).
  destruct (topological_sort_spec (set_dep_graph self g) l) as (s & Hs' & _ & Hin' & _).
  assert (s = sorted) as -> by congruence.
  rewrite (resolve_validated ARCH self l sorted g Hs) in Hv. specialize (Hv p (proj2 (Hin p) Hp)).
  intros pkg raw Hpkg Hraw. destruct (Hv pkg raw Hpkg Hraw) as (dep & c & Hdep & Hc & Hm).
  exists dep, c. split_and!; [done..|]. unfold candidate_met in *.
  destruct (projected_versions self l !! dep_name c) as [v|] eqn:Ev; [|done].
  rewrite (projected_versions_set self l sorted) in Ev by (intros; by rewrite Hin').
  destruct (apply_plan_projected ARCH self order sorted _ _ v Hval Hno
    (fun x => iff_trans (Hin' x) (Hin x)) (classify_all self sorted) Ev) as (w & -> & Hvv & Hvw & Heq).
  destruct Hval as [Ha _]. destruct (Ha p pkg Hpkg) as [_ Hdeps].
  pose proof (proj1 (Forall_forall _ _) Hdeps raw Hraw) as Hvraw.
  pose proof (parse_dependency_valid ARCH raw dep Hvraw Hdep) as Hcs.
  by rewrite (constraint_ok_equal w v) by (try done; by apply (proj1 (Forall_forall _ _) Hcs)).
Qed.

Lemma valid_resolver_compute self :
  forallb (fun '(_, pkg) => forallb is_scalar (pkg_version pkg) && forallb (forallb is_scalar) (pkg_depends pkg))
    (map_to_list (available self)) = true ->
  forallb (fun '(_, v) => forallb is_scalar v) (map_to_list (installed self)) = true ->
  valid_resolver self.
Proof.
  assert (Hv : forall s, forallb is_scalar s = true -> valid_str s)
    by (intros s Hs; apply Forall_forall; intros x Hx; rewrite forallb_forall in Hs; apply Hs; by apply list_elem_of_In).
  rewrite !forallb_forall. intros Ha Hi. split; intros k x Hk%elem_of_map_to_list%list_elem_of_In.
  - specialize (Ha _ Hk). simpl in Ha. apply andb_prop in Ha as [H1 H2]. split; [auto|].
    apply Forall_forall. intros y Hy. rewrite forallb_forall in H2. apply Hv, H2. by apply list_elem_of_In.
  - specialize (Hi _ Hk). simpl in Hi. auto.
Qed.

Lemma no_downgrade_compute ARCH self order :
  forallb (fun '(p, v) => match available self !! p with
                          | Some pkg => bool_decide (compare_deb_versions v (pkg_version pkg) ≠ Gt)
                          | None => true
                          end) (map_to_list (installed self)) = true ->
  no_downgrade ARCH self order.
Proof.
  rewrite forallb_forall. intros H p pkg v _ Hp Hv%elem_of_map_to_list%list_elem_of_In.
  specialize (H _ Hv). simpl in H. rewrite Hp in H. by apply bool_decide_eq_true in H.
Qed.

Lemma resolve_plan_sound_witness :
  dependencies_met (str "x86_64") sample_selected (apply_plan sample_selected sample_plan) (str "app")
  /\ apply_plan sample_selected sample_plan !! str "lib" = Some (str "2.1").
Proof.
  destruct sample_resolve as [s Hs]. split; [|vm_compute; reflexivity].
  apply (resolve_plan_sound (str "x86_64") sample_selected [str "app"] s sample_plan).
  - apply valid_resolver_compute; vm_compute; reflexivity.
  - apply no_downgrade_compute. vm_compute. reflexivity.
  - exact Hs.
  - exists (str "app"). split; [apply list_elem_of_In; left; reflexivity|apply rtc_refl].
Defined.

(** executing a plan leaves every package the selection pulls in
    installed at the candidate version or a newer one, never lowers an
    installed version and touches nothing else. *)
Theorem resolve_plan_reaches_candidates ARCH self order self' r p :
  valid_resolver self -> resolve ARCH self order = (self', Ok r) ->
  (planned ARCH self order p ->
    exists pkg v, available self !! p = Some pkg /\ apply_plan self r !! p = Some v
      /\ compare_deb_versions v (pkg_version pkg) ≠ Lt)
  /\ (forall w, installed self !! p = Some w ->
       exists v, apply_plan self r !! p = Some v /\ compare_deb_versions w v ≠ Gt)
  /\ (~ planned ARCH self order p -> apply_plan self r !! p = installed self !! p).
Proof.
  intros [Ha Hi] H. apply resolve_Ok in H as (l & g & sorted & -> & _ & Hin & Hres & _ & Hs & _ & ->).
  destruct (topological_sort_spec (set_dep_graph self g) l) as (s & Hs' & _ & Hin' & _).
  assert (s = sorted) as -> by congruence.
  pose proof (apply_plan_lookup self sorted _ p (classify_all self sorted)) as ->.
  assert (Hrefl : forall x, valid_str x -> compare_deb_versions x x = Eq)
    by (intros; by apply (cmp_refl valid_str), H; apply compare_deb_versions_order).
  assert (Hpl : p ∈ sorted <-> planned ARCH self order p) by (by rewrite Hin').
  case_decide as Hd.
  - destruct Hd as [Hp Hc]. unfold changed in Hc. destruct (available self !! p) as [pkg|] eqn:Hpkg; [|done].
    simpl. split_and!; [|intros w Hw|tauto].
    + intros _. exists pkg, (pkg_version pkg). rewrite Hrefl by (by apply (Ha p)). done.
    + rewrite Hw in Hc. apply bool_decide_eq_true in Hc. eexists. split; [done|]. by rewrite Hc.
  - split_and!; [intros Hp|intros w Hw; exists w; rewrite Hrefl by (by apply (Hi p)); done|done].
    destruct (Hres p) as (pkg & Hpkg & _); [by apply Hin', Hpl|]. exists pkg. unfold changed in Hd.
    rewrite Hpkg in *. destruct (installed self !! p) as [v|] eqn:Hv; [|by destruct Hd; rewrite Hpl].
    exists v. split_and!; [done..|]. intros Hlt. apply Hd. rewrite Hpl, bool_decide_eq_true. done.
Qed.

Lemma resolve_plan_reaches_candidates_witness :
  exists pkg v, available sample_selected !! str "base" = Some pkg
    /\ apply_plan sample_selected sample_plan !! str "base" = Some v
    /\ compare_deb_versions v (pkg_version pkg) ≠ Lt.
Proof.
  destruct sample_resolve as [s Hs].
  apply (resolve_plan_reaches_candidates (str "x86_64") sample_selected [str "app"] s sample_plan (str "base")).
  - apply valid_resolver_compute; vm_compute; reflexivity.
  - exact Hs.
  - exists (str "app"). split; [apply list_elem_of_In; left; reflexivity|].
    eapply rtc_l; [exists (default (sample_package "" "" [] 0) (available sample_selected !! str "app")), (str "lib (>= 2.0)")|
    eapply rtc_l; [exists (default (sample_package "" "" [] 0) (available sample_selected !! str "lib")), (str "base")|
    apply rtc_refl]]; (split_and!; [vm_compute; reflexivity|apply list_elem_of_In; vm_compute; auto|
    apply resolves_to_compute; vm_compute; reflexivity]).
Defined.

(** the totals of a plan count every package it installs or upgrades
    once: they are the sums of the index's sizes over exactly those packages,
    modulo 2^64, hence exact whenever the sums fit in a [u64]. *)
Theorem resolve_sizes_exact ARCH self order self' r :
  resolve ARCH self order = (self', Ok r) ->
  exists l, NoDup l
    /\ (forall p, p ∈ l <-> planned ARCH self order p /\ changed self p = true)
    /\ download_size r = wrap64 (sum_sizes pkg_size self l)
    /\ installed_size r = wrap64 (sum_sizes pkg_installed_size self l)
    /\ (0 <= sum_sizes pkg_size self l <= u64_max -> download_size r = sum_sizes pkg_size self l).
Proof.
  intros H. apply resolve_Ok in H as (l & g & sorted & -> & _ & Hin & _ & _ & Hs & _ & ->).
  destruct (topological_sort_spec (set_dep_graph self g) l) as (s & Hs' & Hnd & Hin' & _).
  assert (s = sorted) as -> by congruence. destruct (classify_all self sorted) as [_ _ Hd Hz].
  exists (List.filter (changed self) sorted). split_and!; [| |done|done|].
  - apply NoDup_ListNoDup, List.NoDup_filter. by apply NoDup_ListNoDup.
  - intros p. rewrite list_elem_of_In, List.filter_In, <- list_elem_of_In, Hin', Hin. done.
  - intros Hb. rewrite Hd. unfold wrap64. apply Z.mod_small. unfold u64_max in Hb. lia.
Qed.

Lemma resolve_sizes_exact_witness :
  exists l, (forall p, p ∈ l <-> planned (str "x86_64") sample_selected [str "app"] p
                       /\ changed sample_selected p = true)
    /\ wrap64 (sum_sizes pkg_size sample_selected l) = 110.
Proof.
  destruct sample_resolve as [s Hs].
  destruct (resolve_sizes_exact (str "x86_64") sample_selected [str "app"] s sample_plan Hs)
    as (l & _ & Hin & Hd & _).
  exists l. split; [exact Hin|]. rewrite <- Hd. vm_compute. reflexivity.
Defined.

(** [lib] is installed above its candidate; [app] needs at most the candidate. *)
Definition held_resolver : DependencyResolver :=
  resolver_new (str "x86_64")
    [ sample_package "app" "1" ["lib (<= 1.0)"] 10; sample_package "lib" "1.0" [] 20 ]
    [ sample_installed "lib" "2.0" "amd64" ].

Definition held_plan : ResolutionResult :=
  match (resolve (str "x86_64") held_resolver [str "app"]).2 with Ok r => r | Err _ => empty_result end.

(** the proviso of C13 is needed. [validate_projected_dependencies]
    projects the candidate version of every planned package, also of one that
    is installed above its candidate and that the plan therefore leaves alone,
    so a plan can be accepted that leaves a dependency unsatisfied: here [app]
    is installed although it needs [lib (<= 1.0)] and [lib] stays at 2.0. *)
Theorem resolve_accepts_unsatisfied_dependency :
  resolver_reachable (str "x86_64") held_resolver /\ valid_resolver held_resolver
  /\ (resolve (str "x86_64") held_resolver [str "app"]).2 = Ok held_plan
  /\ to_install held_plan = [str "app"] /\ to_upgrade held_plan = []
  /\ ~ dependencies_met (str "x86_64") held_resolver (apply_plan held_resolver held_plan) (str "app").
Proof.
  split_and!; [apply reach_new|apply valid_resolver_compute; vm_compute; reflexivity
    |vm_compute; reflexivity..|].
  intros H. specialize (H (sample_package "app" "1" ["lib (<= 1.0)"] 10) (str "lib (<= 1.0)")).
  destruct H as (dep & c & Hdep & Hc & Hm); [vm_compute; reflexivity|left|].
  assert (Hall : match parse_dependency (str "x86_64") (str "lib (<= 1.0)") with
                 | Ok d => forallb (fun c => negb (candidate_met (apply_plan held_resolver held_plan) c)) (candidates d)
                 | Err _ => false end = true) by (vm_compute; reflexivity).
  rewrite Hdep, forallb_forall in Hall. specialize (Hall c (proj1 (list_elem_of_In _ _) Hc)).
  rewrite Hm in Hall. discriminate.
Qed.

(** The installed versions the resolver works with: a name's version is
    that of its last native entry; without one, that of its first
    architecture-independent entry; foreign entries never count. *)
Theorem installed_versions_precedence ARCH entries n :
  installed_versions_for_resolver ARCH entries !! n =
  match last (List.filter (fun e => str_eqb (dpkg_name e) n
                && str_eqb (dpkg_architecture e) (debian_arch ARCH)) entries) with
  | Some e => Some (dpkg_version e)
  | None => dpkg_version <$> head (List.filter (fun e => str_eqb (dpkg_name e) n
                && str_eqb (dpkg_architecture e) (str "all")) entries)
  end.
Proof.
  unfold installed_versions_for_resolver. induction entries as [|e l IH] using rev_ind; [done|].
  rewrite foldl_app, !List.filter_app. cbn [foldl List.filter].
  set (m := foldl _ ∅ l) in *. unfold str_eqb in *.
  destruct (decide (dpkg_name e = n)) as [Hn|Hn];
    [rewrite !(bool_decide_true (dpkg_name e = n)) by done|rewrite !(bool_decide_false (dpkg_name e = n)) by done];
    cbn [andb].
  - destruct (bool_decide (dpkg_architecture e = debian_arch ARCH)) eqn:Ha.
    + rewrite last_snoc, Hn. by rewrite lookup_insert_eq.
    + rewrite app_nil_r. destruct (bool_decide (dpkg_architecture e = str "all")) eqn:Hb; [|by rewrite app_nil_r].
      rewrite Hn. destruct (last _) as [e'|] eqn:El.
      * by rewrite IH.
      * rewrite IH. clear El. destruct (List.filter _ l) as [|e' l']; cbn [head fmap option_fmap option_map app] in *;
          [apply lookup_insert_eq|exact IH].
  - rewrite !app_nil_r. rewrite <- IH.
    repeat case_match; by rewrite ?lookup_insert_ne by done.
Qed.
