(* ===== verification/Spdx.v ===== *)
(** SPDX license expressions: the tokenizer, the recursive-descent parser, the
    allowlist test and the classifier of src/src/core/security/policy.rs.

    The parser's position in its token vector is the list of tokens still to
    read. Each [while]/[loop] carries fuel for the tokens left; the recursion
    through parentheses carries its own depth, so that the depth at which the
    native recursion runs is visible in the model. [ParserLimit] is the answer
    when either runs out; [license_parser_recursion_bounded] shows that with
    the admission limits of the tokenizer it never is. *)

From S2P Require Import Prelude.
Open Scope Z_scope.
Open Scope omg_scope.

(** * Data *)

Inductive SpdxExpr :=
| ExprId (id : rstr)
| ExprWith (id : rstr)
| ExprAnd (lhs rhs : SpdxExpr)
| ExprOr (lhs rhs : SpdxExpr).

Inductive SpdxToken :=
| TokId (id : rstr)
| TokAnd
| TokOr
| TokWith
| TokOpen
| TokClose.

#[export] Instance SpdxToken_eq_dec : EqDecision SpdxToken.
Proof. solve_decision. Defined.

Definition MAX_LICENSE_BYTES : Z := 4096.
Definition MAX_LICENSE_TOKENS : Z := 256.
Definition MAX_LICENSE_NESTING : nat := 32.

(** * Tokenizer *)

Definition reference_part (part : rstr) : bool :=
  negb (str_eqb part [])
  && forallb (fun c => is_ascii_alphanumeric c || (c =? ch ".") || (c =? ch "-")) part.

Definition is_some_and {A} (o : option A) (p : A -> bool) : bool :=
  match o with Some a => p a | None => false end.

Definition spdx_identifier_valid (id : rstr) : bool :=
  match split_once (ch ":") id with
  | Some (document, license) =>
      is_some_and (strip_prefix (str "documentref-") document) reference_part
      && is_some_and (strip_prefix (str "licenseref-") license) reference_part
  | None =>
      let base := default id (strip_suffix (str "+") id) in
      negb (str_eqb base [])
      && forallb (fun c => is_ascii_alphanumeric c || (c =? ch ".") || (c =? ch "-")) base
  end.

(** A character that may occur inside a word. *)
Definition word_char (c : char) : bool :=
  is_ascii_alphanumeric c || (c =? ch ".") || (c =? ch "-") || (c =? ch "+") || (c =? ch ":").

Definition admissible_char (c : char) : bool :=
  word_char c || is_ascii_whitespace c || (c =? ch "(") || (c =? ch ")").

(** The nesting counter run over the characters; [None] is rejection. *)
Fixpoint check_nesting (nesting : nat) (license : rstr) : option nat :=
  match license with
  | [] => Some nesting
  | c :: license =>
      if c =? ch "(" then
        if (MAX_LICENSE_NESTING <? S nesting)%nat then None else check_nesting (S nesting) license
      else if c =? ch ")" then
        match nesting with
        | O => None
        | S nesting => check_nesting nesting license
        end
      else check_nesting nesting license
  end.

(** [push_word]: the token of a finished word, if any. *)
Definition push_word (word : rstr) : list SpdxToken :=
  if str_eqb word [] then []
  else if eq_ignore_ascii_case word (str "AND") then [TokAnd]
  else if eq_ignore_ascii_case word (str "OR") then [TokOr]
  else if eq_ignore_ascii_case word (str "WITH") then [TokWith]
  else [TokId (to_ascii_lowercase word)].

(** The tokens of the rest of the input when [word] has been collected. *)
Fixpoint scan (word license : rstr) : list SpdxToken :=
  match license with
  | [] => push_word word
  | c :: license =>
      if c =? ch "(" then push_word word ++ TokOpen :: scan [] license
      else if c =? ch ")" then push_word word ++ TokClose :: scan [] license
      else if word_char c then scan (word ++ [c]) license
      else push_word word ++ scan [] license
  end.

Definition token_valid (t : SpdxToken) : bool :=
  match t with TokId id => spdx_identifier_valid id | _ => true end.

Definition spdx_tokenize (license : rstr) : option (list SpdxToken) :=
  if (MAX_LICENSE_BYTES <? str_len license) || negb (forallb admissible_char license) then None
  else
    match check_nesting 0 license with
    | Some O =>
        let tokens := scan [] license in
        if (MAX_LICENSE_TOKENS <? Z.of_nat (length tokens)) || negb (forallb token_valid tokens)
        then None else Some tokens
    | _ => None
    end.

(** * Parser *)

Inductive SpdxStop := Malformed | ParserLimit.

Definition eat (expected : SpdxToken) (tokens : list SpdxToken) : option (list SpdxToken) :=
  match tokens with
  | t :: rest => if decide (t = expected) then Some rest else None
  | [] => None
  end.

(** [require_progress], comparing what is left with what was left. *)
Definition require_progress (start tokens : list SpdxToken) : result unit SpdxStop :=
  ensure (length tokens <? length start)%nat Malformed.

Section parser.

(** [parse_or] one level of parentheses further in. *)
Context (parse_inner : list SpdxToken -> result (SpdxExpr * list SpdxToken) SpdxStop).

Definition parse_atom (tokens : list SpdxToken) : result (SpdxExpr * list SpdxToken) SpdxStop :=
  match tokens with
  | TokOpen :: tokens =>
      let? (expr, tokens) := parse_inner tokens in
      match eat TokClose tokens with
      | Some tokens => Ok (expr, tokens)
      | None => Err Malformed
      end
  | TokId id :: tokens =>
      match eat TokWith tokens with
      | Some (TokId _ :: tokens) => Ok (ExprWith id, tokens)
      | Some _ => Err Malformed
      | None => Ok (ExprId id, tokens)
      end
  | _ => Err Malformed
  end.

(** The [loop] of [parse_and]. *)
Fixpoint and_loop (fuel : nat) (expr : SpdxExpr) (tokens : list SpdxToken)
  : result (SpdxExpr * list SpdxToken) SpdxStop :=
  match fuel with
  | O => Err ParserLimit
  | S fuel =>
      match tokens with
      | TokAnd :: rest =>
          let? (rhs, rest) := parse_atom rest in
          require_progress tokens rest ;?
          and_loop fuel (ExprAnd expr rhs) rest
      | TokId _ :: _ | TokOpen :: _ =>
          let? (rhs, rest) := parse_atom tokens in
          require_progress tokens rest ;?
          and_loop fuel (ExprOr expr rhs) rest
      | _ => Ok (expr, tokens)
      end
  end.

Definition parse_and (tokens : list SpdxToken) : result (SpdxExpr * list SpdxToken) SpdxStop :=
  let? (expr, rest) := parse_atom tokens in
  require_progress tokens rest ;?
  and_loop (S (length rest)) expr rest.

(** The [while] of [parse_or]. *)
Fixpoint or_loop (fuel : nat) (expr : SpdxExpr) (tokens : list SpdxToken)
  : result (SpdxExpr * list SpdxToken) SpdxStop :=
  match fuel with
  | O => Err ParserLimit
  | S fuel =>
      match eat TokOr tokens with
      | Some rest =>
          let? (rhs, rest) := parse_and rest in
          or_loop fuel (ExprOr expr rhs) rest
      | None => Ok (expr, tokens)
      end
  end.

Definition parse_or_level (tokens : list SpdxToken) : result (SpdxExpr * list SpdxToken) SpdxStop :=
  let? (expr, rest) := parse_and tokens in
  or_loop (S (length rest)) expr rest.

End parser.

(** [parse_or] with at most [depth] nested activations. *)
Fixpoint parse_or (depth : nat) (tokens : list SpdxToken) : result (SpdxExpr * list SpdxToken) SpdxStop :=
  match depth with
  | O => Err ParserLimit
  | S depth => parse_or_level (parse_or depth) tokens
  end.

(** [SpdxParser::parse_expression]; the recursion is given one activation
    more than the nesting the tokenizer admits. *)
Definition parse_tokens (tokens : list SpdxToken) : result SpdxExpr SpdxStop :=
  let? (expr, rest) := parse_or (S MAX_LICENSE_NESTING) tokens in
  match rest with
  | [] => Ok expr
  | _ => Err Malformed
  end.

Definition parse_expression (license : rstr) : option SpdxExpr :=
  match spdx_tokenize license with
  | Some tokens => ok (parse_tokens tokens)
  | None => None
  end.

(** * Allowlist *)

Definition spdx_id_allowed (id : rstr) (allowed : list rstr) : bool :=
  existsb (fun a =>
    eq_ignore_ascii_case id a
    || is_some_and (strip_suffix (str "+") id) (fun base => eq_ignore_ascii_case base a)
    || is_some_and (strip_suffix (str "+") a) (fun base => eq_ignore_ascii_case id base)) allowed.

Fixpoint spdx_expr_allowed (expr : SpdxExpr) (allowed : list rstr) : bool :=
  match expr with
  | ExprId id | ExprWith id => spdx_id_allowed id allowed
  | ExprAnd lhs rhs => spdx_expr_allowed lhs allowed && spdx_expr_allowed rhs allowed
  | ExprOr lhs rhs => spdx_expr_allowed lhs allowed || spdx_expr_allowed rhs allowed
  end.

Definition license_matches_allowlist (license : rstr) (allowed : list rstr) : bool :=
  match parse_expression license with
  | Some expr => spdx_expr_allowed expr allowed
  | None => false
  end.

(** * Cumulative expressions *)

(** One iteration of [combined_license_expression]; lengths are [usize]. *)
Definition combine_license (expression license : rstr) : option rstr :=
  let separator := if str_eqb expression [] then [] else str " AND " in
  match checked_add64 (str_len expression) (str_len separator) with
  | Some n =>
      match checked_add64 n (str_len license) with
      | Some n =>
          match checked_add64 n 2 with
          | Some length =>
              if MAX_LICENSE_BYTES <? length then None
              else Some (expression ++ separator ++ ch "(" :: license ++ [ch ")"])
          | None => None
          end
      | None => None
      end
  | None => None
  end.

Fixpoint combine_licenses (expression : rstr) (licenses : list rstr) : option rstr :=
  match licenses with
  | [] => Some expression
  | license :: licenses =>
      match combine_license expression license with
      | Some expression => combine_licenses expression licenses
      | None => None
      end
  end.

Definition combined_license_expression (licenses : list rstr) : option rstr :=
  match combine_licenses [] licenses with
  | Some expression => if str_eqb expression [] then None else Some expression
  | None => None
  end.

(** * Classification *)

Inductive LicenseClassification := Unknown | Proprietary | Permissive | Copyleft | StrongCopyleft.

#[export] Instance LicenseClassification_eq_dec : EqDecision LicenseClassification.
Proof. solve_decision. Defined.

(** The derived order: declaration order. *)
Definition classification_rank (c : LicenseClassification) : Z :=
  match c with
  | Unknown => 0 | Proprietary => 1 | Permissive => 2 | Copyleft => 3 | StrongCopyleft => 4
  end.

Definition classification_max (a b : LicenseClassification) : LicenseClassification :=
  if classification_rank b <? classification_rank a then a else b.

Record LicenseAssessment := {
  category : LicenseClassification;
  unresolved_review : bool
}.

Definition strong_copyleft_ids : list rstr := map str
  ["agpl"; "agpl1"; "agpl3"; "agpl-1.0"; "agpl-1.0-only"; "agpl-1.0-or-later";
   "agpl-3.0"; "agpl-3.0-only"; "agpl-3.0-or-later"].

Definition copyleft_ids : list rstr := map str
  ["gpl"; "gpl1"; "gpl2"; "gpl3"; "lgpl"; "lgpl2"; "lgpl3"; "lgpl2.1";
   "gpl-1.0"; "gpl-1.0-only"; "gpl-1.0-or-later"; "gpl-2.0"; "gpl-2.0-only"; "gpl-2.0-or-later";
   "gpl-3.0"; "gpl-3.0-only"; "gpl-3.0-or-later"; "lgpl-2.0"; "lgpl-2.0-only"; "lgpl-2.0-or-later";
   "lgpl-2.1"; "lgpl-2.1-only"; "lgpl-2.1-or-later"; "lgpl-3.0"; "lgpl-3.0-only"; "lgpl-3.0-or-later";
   "mpl"; "mpl-1.0"; "mpl-1.1"; "mpl-2.0"; "mpl-2.0-no-copyleft-exception"].

Definition permissive_ids : list rstr := map str
  ["mit"; "mit-0"; "isc"; "unlicense"; "cc0"; "cc0-1.0"; "0bsd"; "bsd";
   "bsd-2-clause"; "bsd-3-clause"; "bsd-4-clause"; "apache"; "apache-1.0"; "apache-1.1"; "apache-2.0"].

Definition proprietary_ids : list rstr := map str ["proprietary"; "commercial"].

Definition classify_license_id (id : rstr) : LicenseClassification :=
  let id := default id (strip_suffix (str "+") id) in
  if existsb (str_eqb id) strong_copyleft_ids then StrongCopyleft
  else if existsb (str_eqb id) copyleft_ids then Copyleft
  else if existsb (str_eqb id) permissive_ids then Permissive
  else if existsb (str_eqb id) proprietary_ids then Proprietary
  else Unknown.

Fixpoint assess (expr : SpdxExpr) : LicenseAssessment :=
  match expr with
  | ExprId id =>
      let category := classify_license_id id in
      {| category := category; unresolved_review := bool_decide (category = Unknown) |}
  | ExprWith id => {| category := classify_license_id id; unresolved_review := true |}
  | ExprAnd lhs rhs | ExprOr lhs rhs =>
      let lhs := assess lhs in
      let rhs := assess rhs in
      {| category := classification_max (category lhs) (category rhs);
         unresolved_review := unresolved_review lhs || unresolved_review rhs |}
  end.

Definition assess_license_expression (license : rstr) : LicenseAssessment :=
  match parse_expression license with
  | Some expr => assess expr
  | None => {| category := Unknown; unresolved_review := true |}
  end.

Definition classify_license_expression (license : rstr) : LicenseClassification :=
  category (assess_license_expression license).

(** [spdx_license_tokens]: the words of an expression, lowercased. *)
Fixpoint split_words (word license : rstr) : list rstr :=
  match license with
  | [] => [word]
  | c :: license =>
      if is_ascii_alphanumeric c || (c =? ch ".") || (c =? ch "-") || (c =? ch "+")
      then split_words (word ++ [c]) license
      else word :: split_words [] license
  end.

Definition spdx_license_tokens (license : rstr) : list rstr :=
  map to_ascii_lowercase
    (List.filter (fun token =>
       negb (str_eqb token [])
       && negb (existsb (eq_ignore_ascii_case token) (map str ["AND"; "OR"; "WITH"; "TO"])))
      (split_words [] license)).

Example parse_ex :
  parse_expression (str "GPL-3.0 AND (MIT OR Apache-2.0+) WITH X") = None
  /\ parse_expression (str "gpl-3.0 WITH X AND (MIT or Apache-2.0+)")
     = Some (ExprAnd (ExprWith (str "gpl-3.0")) (ExprOr (ExprId (str "mit")) (ExprId (str "apache-2.0+")))).
Proof. by vm_compute. Qed.
