(* ===== verification/SpdxProofs.v ===== *)
(** Properties of the SPDX parser and allowlist of
    src/src/core/security/policy.rs modelled in Spdx.v: the recursion depth is
    bounded by the admission limits, cumulative license expressions are
    conjunctions of their entries as long as each entry is an expression of
    its own, and an entry that is not can escape the conjunction. *)

From S2P Require Import Prelude Spdx.
Open Scope Z_scope.
Open Scope omg_scope.

(** * Parenthesis balance *)

Definition paren (t : SpdxToken) : Z :=
  match t with TokOpen => 1 | TokClose => -1 | _ => 0 end.

Definition net (ts : list SpdxToken) : Z := foldr (fun t n => paren t + n) 0 ts.

Lemma net_app a b : net (a ++ b) = net a + net b.
Proof. unfold net. induction a as [|t a IH]; simpl; [done|]. rewrite IH. lia. Qed.

(** No prefix opens more than [D] levels. *)
Definition deep (D : Z) (ts : list SpdxToken) : Prop := forall p q, ts = p ++ q -> net p <= D.

Lemma deep_drop D pre r : deep D (pre ++ r) -> deep (D - net pre) r.
Proof.
  intros H p q ->. specialize (H (pre ++ p) q). rewrite <- app_assoc, net_app in H. specialize (H eq_refl). lia.
Qed.

Lemma deep_cons D t r : deep D (t :: r) -> deep (D - paren t) r.
Proof.
  intros H. apply (deep_drop D [t] r) in H. simpl in H.
  intros p q E. specialize (H p q E). unfold net in H. simpl in H. fold (net p) in H. lia.
Qed.

Lemma deep_open D r : deep D (TokOpen :: r) -> 1 <= D /\ deep (D - 1) r.
Proof. intros H. split; [exact (H [TokOpen] r eq_refl)|exact (deep_cons D TokOpen r H)]. Qed.

(** * What a parser reads *)

Abbreviation parser := (list SpdxToken -> result (SpdxExpr * list SpdxToken) SpdxStop).

(** Reads a nonempty balanced prefix. *)
Definition reads (f : parser) : Prop :=
  forall ts e r, f ts = Ok (e, r) -> exists pre, ts = pre ++ r /\ pre ≠ [] /\ net pre = 0.

Section level.
Context (inner : parser).

Lemma eat_Some t ts r : eat t ts = Some r -> ts = t :: r.
Proof. destruct ts as [|x ts]; simpl; [done|]. case_decide; [by intros [= ->]; subst|done]. Qed.

Lemma parse_atom_cases ts e r :
  parse_atom inner ts = Ok (e, r) ->
  (exists ts1, ts = TokOpen :: ts1 /\ inner ts1 = Ok (e, TokClose :: r))
  \/ (exists id, ts = TokId id :: r /\ e = ExprId id /\ eat TokWith r = None)
  \/ (exists id x, ts = TokId id :: TokWith :: TokId x :: r /\ e = ExprWith id).
Proof.
  destruct ts as [|[id| | | | |] ts]; simpl; try done.
  - destruct (eat TokWith ts) as [[|[x| | | | |] w]|] eqn:E; try done.
    + apply eat_Some in E as ->. intros [= <- <-]. eauto 6.
    + intros [= <- <-]. eauto 6.
  - intros H. apply res_bind_Ok in H as ([e' r'] & Hi & H).
    destruct (eat TokClose r') as [w|] eqn:E; [|done]. apply eat_Some in E as ->. injection H as <- <-. eauto.
Qed.

Context (Hinner : reads inner).

Lemma parse_atom_reads : reads (parse_atom inner).
Proof.
  intros ts e r [(ts1 & -> & H)|[(id & -> & _)|(id & x & -> & _)]]%parse_atom_cases.
  - apply Hinner in H as (pre & -> & _ & Hn). exists (TokOpen :: pre ++ [TokClose]).
    split; [by simpl; rewrite <- app_assoc|]. split; [done|].
    change (TokOpen :: pre ++ [TokClose]) with ([TokOpen] ++ pre ++ [TokClose]). rewrite !net_app, Hn. done.
  - by exists [TokId id].
  - by exists [TokId id; TokWith; TokId x].
Qed.

(** One turn of the [parse_and] loop. *)
Lemma and_loop_step fuel e ts e' r :
  and_loop inner (S fuel) e ts = Ok (e', r) ->
  (e' = e /\ r = ts)
  \/ (exists rest a r1, ts = TokAnd :: rest /\ parse_atom inner rest = Ok (a, r1)
        /\ and_loop inner fuel (ExprAnd e a) r1 = Ok (e', r))
  \/ (exists a r1, parse_atom inner ts = Ok (a, r1) /\ and_loop inner fuel (ExprOr e a) r1 = Ok (e', r)).
Proof.
  cbn [and_loop]. destruct ts as [|[] ts]; try (intros [= <- <-]; by left); intros H;
    apply res_bind_Ok in H as ([a r1] & Ha & H); apply res_bind_Ok in H as ([] & _ & H); eauto 9.
Qed.

Lemma and_loop_reads fuel e ts e' r :
  and_loop inner fuel e ts = Ok (e', r) -> exists pre, ts = pre ++ r /\ net pre = 0.
Proof.
  revert e ts; induction fuel as [|fuel IH]; intros e ts; [done|].
  intros [[-> ->]|[(rest & a & r1 & -> & Ha & H)|(a & r1 & Ha & H)]]%and_loop_step; [by exists []|..].
  - apply parse_atom_reads in Ha as (p1 & -> & _ & Hp1). apply IH in H as (p2 & -> & Hp2).
    exists (TokAnd :: p1 ++ p2). simpl. rewrite app_assoc. split; [done|].
    fold (net (p1 ++ p2)). rewrite net_app. lia.
  - apply parse_atom_reads in Ha as (p1 & -> & _ & Hp1). apply IH in H as (p2 & -> & Hp2).
    exists (p1 ++ p2). rewrite app_assoc, net_app. split; [done|lia].
Qed.

Lemma parse_and_reads : reads (parse_and inner).
Proof.
  intros ts e r H. unfold parse_and in H. apply res_bind_Ok in H as ([a r1] & Ha & H).
  apply res_bind_Ok in H as ([] & _ & H). apply parse_atom_reads in Ha as (p1 & -> & Hne & Hp1).
  apply and_loop_reads in H as (p2 & -> & Hp2). exists (p1 ++ p2). rewrite app_assoc, net_app.
  split_and!; [done|by destruct p1|lia].
Qed.

Lemma or_loop_reads fuel e ts e' r :
  or_loop inner fuel e ts = Ok (e', r) -> exists pre, ts = pre ++ r /\ net pre = 0.
Proof.
  revert e ts; induction fuel as [|fuel IH]; intros e ts; [done|]. cbn [or_loop].
  destruct (eat TokOr ts) as [rest|] eqn:E; [|intros [= <- <-]; by exists []].
  apply eat_Some in E as ->. intros H. apply res_bind_Ok in H as ([a r1] & Ha & H).
  apply parse_and_reads in Ha as (p1 & -> & _ & Hp1). apply IH in H as (p2 & -> & Hp2).
  exists (TokOr :: p1 ++ p2). simpl. rewrite app_assoc. split; [done|]. fold (net (p1 ++ p2)). rewrite net_app. lia.
Qed.

Lemma parse_or_level_reads : reads (parse_or_level inner).
Proof.
  intros ts e r H. unfold parse_or_level in H. apply res_bind_Ok in H as ([a r1] & Ha & H).
  apply parse_and_reads in Ha as (p1 & -> & Hne & Hp1). apply or_loop_reads in H as (p2 & -> & Hp2).
  exists (p1 ++ p2). rewrite app_assoc, net_app. split_and!; [done|by destruct p1|lia].
Qed.

End level.

Lemma parse_or_reads depth : reads (parse_or depth).
Proof. induction depth as [|d IH]; [done|]. by apply parse_or_level_reads. Qed.

(** * No parser runs out of fuel *)

(** Enough depth for inputs that open at most [D] levels. *)
Definition enough (f : parser) (D : Z) : Prop := forall ts, deep D ts -> f ts ≠ Err ParserLimit.

Lemma reads_shorter f ts e r : reads f -> f ts = Ok (e, r) -> (length r < length ts)%nat.
Proof.
  intros Hf H. apply Hf in H as (pre & -> & Hne & _). rewrite length_app.
  destruct pre; simpl; [done|lia].
Qed.

Lemma reads_deep f D ts e r : reads f -> f ts = Ok (e, r) -> deep D ts -> deep D r.
Proof.
  intros Hf H Hd. apply Hf in H as (pre & -> & _ & Hn). apply deep_drop in Hd. by rewrite Hn, Z.sub_0_r in Hd.
Qed.

Section limits.
Context (inner : parser) (Hinner : reads inner) (D : Z).
Context (Henough : 1 <= D -> enough inner (D - 1)).

Lemma parse_atom_enough : enough (parse_atom inner) D.
Proof.
  intros ts Hd. destruct ts as [|[id| | | | |] ts]; simpl; try done.
  - by destruct (eat TokWith ts) as [[|[]]|].
  - intros H. apply deep_open in Hd as [HD Hd]. apply res_bind_Err in H as [H|([e r] & _ & H)].
    + by apply (Henough HD ts Hd).
    + by destruct (eat TokClose r).
Qed.

Lemma require_progress_not_limit ts r : require_progress ts r ≠ Err ParserLimit.
Proof. unfold require_progress, ensure. by destruct (_ <? _)%nat. Qed.

Lemma and_loop_enough fuel e ts :
  deep D ts -> (length ts < fuel)%nat -> and_loop inner fuel e ts ≠ Err ParserLimit.
Proof.
  pose proof (parse_atom_reads inner Hinner) as Hr.
  revert e ts; induction fuel as [|fuel IH]; intros e ts Hd Hlen; [lia|]. cbn [and_loop].
  assert (Hgo : forall c ts', deep D ts' -> (length ts' <= length ts)%nat ->
    (let? (rhs, rest) := parse_atom inner ts' in require_progress ts rest ;? and_loop inner fuel (c rhs) rest)
    ≠ Err ParserLimit).
  { intros c ts' Hd' Hl H. apply res_bind_Err in H as [H|([a r] & Ha & H)]; [by apply (parse_atom_enough ts' Hd')|].
    apply res_bind_Err in H as [H|([] & _ & H)]; [by apply require_progress_not_limit in H|].
    apply (IH (c a) r); [by eapply reads_deep|apply (reads_shorter _ _ _ _ Hr) in Ha; lia|done]. }
  destruct ts as [|[] ts]; try done; try (apply (Hgo (ExprOr e)); [done|simpl; lia]).
  apply (Hgo (ExprAnd e)); [|simpl; lia]. apply deep_cons in Hd. simpl in Hd. by rewrite Z.sub_0_r in Hd.
Qed.

Lemma parse_and_enough : enough (parse_and inner) D.
Proof.
  intros ts Hd H. unfold parse_and in H. apply res_bind_Err in H as [H|([a r] & Ha & H)]; [by apply (parse_atom_enough ts)|].
  apply res_bind_Err in H as [H|([] & _ & H)]; [by apply require_progress_not_limit in H|].
  apply and_loop_enough in H; [done| |lia]. eapply reads_deep; [by apply parse_atom_reads|done|done].
Qed.

Lemma or_loop_enough fuel e ts :
  deep D ts -> (length ts < fuel)%nat -> or_loop inner fuel e ts ≠ Err ParserLimit.
Proof.
  pose proof (parse_and_reads inner Hinner) as Hr.
  revert e ts; induction fuel as [|fuel IH]; intros e ts Hd Hlen; [lia|]. cbn [or_loop].
  destruct (eat TokOr ts) as [rest|] eqn:E; [|done]. apply eat_Some in E as ->.
  apply deep_cons in Hd. simpl in Hd, Hlen. rewrite Z.sub_0_r in Hd.
  intros H. apply res_bind_Err in H as [H|([a r] & Ha & H)]; [by apply (parse_and_enough rest)|].
  apply (IH (ExprOr e a) r); [by eapply reads_deep|apply (reads_shorter _ _ _ _ Hr) in Ha; lia|done].
Qed.

Lemma parse_or_level_enough : enough (parse_or_level inner) D.
Proof.
  intros ts Hd H. unfold parse_or_level in H. apply res_bind_Err in H as [H|([a r] & Ha & H)]; [by apply (parse_and_enough ts)|].
  apply or_loop_enough in H; [done| |lia]. eapply reads_deep; [by apply parse_and_reads|done|done].
Qed.

End limits.

Lemma parse_or_enough depth D : 0 <= D < Z.of_nat depth -> enough (parse_or depth) D.
Proof.
  revert D; induction depth as [|d IH]; intros D HD; [lia|].
  apply parse_or_level_enough; [apply parse_or_reads|]. intros H1. apply IH. lia.
Qed.

(** * More depth changes nothing *)

(** [g] answers as [f] wherever [f] does not run out. *)
Definition extends (f g : parser) : Prop := forall ts, f ts ≠ Err ParserLimit -> g ts = f ts.

(** Binding keeps the relation. *)
Lemma extends_bind {A B} (r r' : result A SpdxStop) (k k' : A -> result B SpdxStop) :
  (r ≠ Err ParserLimit -> r' = r) ->
  (forall a, k a ≠ Err ParserLimit -> k' a = k a) ->
  (let? x := r in k x) ≠ Err ParserLimit -> (let? x := r' in k' x) = (let? x := r in k x).
Proof.
  intros Hr Hk H. destruct r as [a|e]; simpl in *.
  - rewrite Hr by done. simpl. auto.
  - rewrite Hr by congruence. done.
Qed.

Section depth.
Context (f g : parser) (Hext : extends f g).

Lemma parse_atom_extends : extends (parse_atom f) (parse_atom g).
Proof.
  intros [|[] ts]; try done. simpl. apply extends_bind; [apply Hext|]. by intros [].
Qed.

Lemma and_loop_extends fuel e ts :
  and_loop f fuel e ts ≠ Err ParserLimit -> and_loop g fuel e ts = and_loop f fuel e ts.
Proof.
  revert e ts; induction fuel as [|fuel IH]; intros e ts; [done|]. cbn [and_loop].
  destruct ts as [|[] ts]; try done; (apply extends_bind; [apply parse_atom_extends|]);
    intros []; apply extends_bind; auto.
Qed.

Lemma parse_and_extends : extends (parse_and f) (parse_and g).
Proof.
  intros ts. unfold parse_and. apply extends_bind; [apply parse_atom_extends|].
  intros []. apply extends_bind; auto using and_loop_extends.
Qed.

Lemma or_loop_extends fuel e ts :
  or_loop f fuel e ts ≠ Err ParserLimit -> or_loop g fuel e ts = or_loop f fuel e ts.
Proof.
  revert e ts; induction fuel as [|fuel IH]; intros e ts; [done|]. cbn [or_loop].
  destruct (eat TokOr ts); [|done]. apply extends_bind; [apply parse_and_extends|]. intros []; auto.
Qed.

Lemma parse_or_level_extends : extends (parse_or_level f) (parse_or_level g).
Proof.
  intros ts. unfold parse_or_level. apply extends_bind; [apply parse_and_extends|].
  intros []. apply or_loop_extends.
Qed.

End depth.

Lemma parse_or_extends d d' : (d <= d')%nat -> extends (parse_or d) (parse_or d').
Proof.
  revert d'; induction d as [|d IH]; intros d' H ts; [done|]. destruct d' as [|d']; [lia|].
  apply parse_or_level_extends, IH. lia.
Qed.

(** * A closing parenthesis ends every parser *)

Definition closes (f : parser) : Prop :=
  forall ts e r k, f ts = Ok (e, r) -> f (ts ++ TokClose :: k) = Ok (e, r ++ TokClose :: k).

Section closing.
Context (inner : parser) (Hinner : closes inner).

Lemma parse_atom_closes : closes (parse_atom inner).
Proof.
  intros ts e r k [(ts1 & -> & H)|[(id & -> & -> & He)|(id & x & -> & ->)]]%parse_atom_cases; simpl; [| |done].
  - rewrite (Hinner _ _ _ k H). simpl. done.
  - destruct r as [|t r]; simpl in *; [done|]. by case_decide.
Qed.

Lemma require_progress_app ts r k :
  require_progress (ts ++ k) (r ++ k) = require_progress ts r.
Proof.
  unfold require_progress. rewrite !length_app. f_equal.
  destruct (Nat.ltb_spec (length r) (length ts)), (Nat.ltb_spec (length r + length k) (length ts + length k)); lia || done.
Qed.

Lemma and_loop_closes fuel e ts e' r k :
  and_loop inner fuel e ts = Ok (e', r) ->
  and_loop inner fuel e (ts ++ TokClose :: k) = Ok (e', r ++ TokClose :: k).
Proof.
  revert e ts; induction fuel as [|fuel IH]; intros e ts; [done|]. cbn [and_loop].
  destruct ts as [|t ts]; [by intros [= <- <-]|].
  destruct t; try (by intros [= <- <-]); intros H; apply res_bind_Ok in H as ([a r1] & Ha & H);
    apply (parse_atom_closes _ _ _ k) in Ha; simpl in *; rewrite Ha; cbn [res_bind];
    pose proof (require_progress_app) as Hp;
    match type of H with (let? _ := require_progress ?x r1 in _) = _ => specialize (Hp x r1 (TokClose :: k)) end;
    simpl in Hp; rewrite Hp; apply res_bind_Ok in H as ([] & -> & H); simpl; by apply IH.
Qed.

Lemma and_loop_fuel fuel fuel' e ts x :
  (fuel <= fuel')%nat -> and_loop inner fuel e ts = Ok x -> and_loop inner fuel' e ts = Ok x.
Proof.
  revert fuel' e ts; induction fuel as [|fuel IH]; intros fuel' e ts Hle; [done|].
  destruct fuel' as [|fuel']; [lia|]. cbn [and_loop].
  destruct ts as [|[] ts]; try done; intros H; apply res_bind_Ok in H as ([a r1] & -> & H); cbn [res_bind];
    apply res_bind_Ok in H as ([] & -> & H); cbn [res_bind]; (apply IH; [lia|done]).
Qed.

Lemma parse_and_closes : closes (parse_and inner).
Proof.
  intros ts e r k H. unfold parse_and in *. apply res_bind_Ok in H as ([a r1] & Ha & H).
  rewrite (parse_atom_closes _ _ _ k Ha). cbn [res_bind]. rewrite require_progress_app.
  apply res_bind_Ok in H as ([] & -> & H). cbn [res_bind]. apply (and_loop_closes _ _ _ _ _ k) in H.
  eapply and_loop_fuel; [|exact H]. rewrite length_app. lia.
Qed.

Lemma or_loop_closes fuel e ts e' r k :
  or_loop inner fuel e ts = Ok (e', r) ->
  or_loop inner fuel e (ts ++ TokClose :: k) = Ok (e', r ++ TokClose :: k).
Proof.
  revert e ts; induction fuel as [|fuel IH]; intros e ts; [done|]. cbn [or_loop].
  destruct (eat TokOr ts) as [rest|] eqn:E.
  - apply eat_Some in E as ->. intros H. apply res_bind_Ok in H as ([a r1] & Ha & H). simpl.
    rewrite (parse_and_closes _ _ _ k Ha). cbn [res_bind]. by apply IH.
  - intros [= <- <-]. destruct ts as [|t ts]; [done|]. simpl in *. by case_decide.
Qed.

Lemma or_loop_fuel fuel fuel' e ts x :
  (fuel <= fuel')%nat -> or_loop inner fuel e ts = Ok x -> or_loop inner fuel' e ts = Ok x.
Proof.
  revert fuel' e ts; induction fuel as [|fuel IH]; intros fuel' e ts Hle; [done|].
  destruct fuel' as [|fuel']; [lia|]. cbn [or_loop]. destruct (eat TokOr ts); [|done].
  intros H. apply res_bind_Ok in H as ([a r1] & -> & H). cbn [res_bind]. apply IH; [lia|done].
Qed.

Lemma parse_or_level_closes : closes (parse_or_level inner).
Proof.
  intros ts e r k H. unfold parse_or_level in *. apply res_bind_Ok in H as ([a r1] & Ha & H).
  rewrite (parse_and_closes _ _ _ k Ha). cbn [res_bind]. apply (or_loop_closes _ _ _ _ _ k) in H.
  eapply or_loop_fuel; [|exact H]. rewrite length_app. lia.
Qed.

End closing.

Lemma parse_or_closes depth : closes (parse_or depth).
Proof. induction depth as [|d IH]; [done|]. by apply parse_or_level_closes. Qed.

(** * The tokenizer *)

Lemma push_word_net w p q : push_word w = p ++ q -> net p = 0.
Proof.
  assert (Hone : forall t, paren t = 0 -> [t] = p ++ q -> net p = 0).
  { intros t Ht H. destruct p as [|x [|y p]]; [done| |done]. injection H as <- _. unfold net. simpl. lia. }
  unfold push_word. repeat case_match; try (by apply Hone).
  intros Hnil. symmetry in Hnil. by apply app_eq_nil in Hnil as [-> _].
Qed.

(** Prefixes of a finished word followed by more tokens. *)
Lemma push_word_prefix w ts p q :
  push_word w ++ ts = p ++ q -> net p = 0 \/ exists p', p = push_word w ++ p' /\ ts = p' ++ q.
Proof.
  intros H. apply app_eq_app in H as (l & [[Hw ->]|[-> ->]]).
  - left. by eapply push_word_net.
  - right. eauto.
Qed.

(** The nesting check over characters bounds the nesting of the tokens. *)
Lemma check_nesting_deep word s n m :
  (n <= MAX_LICENSE_NESTING)%nat -> check_nesting n s = Some m ->
  deep (Z.of_nat MAX_LICENSE_NESTING - Z.of_nat n) (scan word s).
Proof.
  revert word n; induction s as [|c s IH]; intros word n Hn; cbn [check_nesting scan].
  - intros _ p q H. rewrite (push_word_net _ _ _ H). lia.
  - destruct (c =? ch "("); [|destruct (c =? ch ")")].
    + destruct (MAX_LICENSE_NESTING <? S n)%nat eqn:E; [done|]. apply Nat.ltb_ge in E. intros H.
      intros p q [->|(p' & -> & Hp)]%push_word_prefix; [lia|].
      rewrite net_app, (push_word_net word _ []) by (by rewrite app_nil_r).
      destruct p' as [|t p']; [simpl; lia|]. injection Hp as <- Hp.
      pose proof (IH [] (S n) E H p' q Hp). unfold net in *. simpl. lia.
    + destruct n as [|n]; [done|]. intros H.
      intros p q [->|(p' & -> & Hp)]%push_word_prefix; [lia|].
      rewrite net_app, (push_word_net word _ []) by (by rewrite app_nil_r).
      destruct p' as [|t p']; [simpl; lia|]. injection Hp as <- Hp.
      pose proof (IH [] n ltac:(lia) H p' q Hp). unfold net in *. simpl. lia.
    + intros H. destruct (word_char c); [by apply (IH _ n)|].
      intros p q [->|(p' & -> & Hp)]%push_word_prefix; [lia|].
      rewrite net_app, (push_word_net word _ []) by (by rewrite app_nil_r).
      pose proof (IH [] n Hn H p' q Hp). lia.
Qed.

Lemma spdx_tokenize_Some s ts :
  spdx_tokenize s = Some ts ->
  ts = scan [] s /\ check_nesting 0 s = Some 0%nat /\ Forall (fun c => admissible_char c = true) s.
Proof.
  unfold spdx_tokenize. case_match eqn:E; [done|]. apply orb_false_elim in E as [_ E].
  destruct (check_nesting 0 s) as [[|]|]; [|done..]. case_match; [done|]. intros [= <-].
  split_and!; [done..|]. apply negb_false_iff in E. rewrite forallb_forall in E.
  apply Forall_forall. intros x Hx. apply E. by apply list_elem_of_In.
Qed.

Lemma spdx_tokenize_deep s ts : spdx_tokenize s = Some ts -> deep (Z.of_nat MAX_LICENSE_NESTING) ts.
Proof.
  intros (-> & H & _)%spdx_tokenize_Some. pose proof (check_nesting_deep [] s 0 0 ltac:(lia) H) as Hd.
  by rewrite Z.sub_0_r in Hd.
Qed.

Lemma scan_paren word s c s' :
  c = ch "(" \/ c = ch ")" ->
  scan word (s ++ c :: s')
  = scan word s ++ (if c =? ch "(" then TokOpen else TokClose) :: scan [] s'.
Proof.
  intros Hc. revert word; induction s as [|x s IH]; intros word; cbn [scan app].
  - destruct Hc as [-> | ->]; done.
  - rewrite !IH. destruct (x =? ch "("); [|destruct (x =? ch ")")]; [by rewrite <- app_assoc..|].
    destruct (word_char x); [done|]. by rewrite <- app_assoc.
Qed.

Lemma scan_close_space word s s' :
  scan word (s ++ ch ")" :: ch " " :: s') = scan word (s ++ [ch ")"]) ++ scan [] s'.
Proof. rewrite !scan_paren by auto. by rewrite <- app_assoc. Qed.

(** * Cumulative expressions *)

(** The tokens of the entries, each in its parentheses, after a first one. *)
Definition and_tail (tss : list (list SpdxToken)) : list SpdxToken :=
  tss ≫= fun ts => TokAnd :: TokOpen :: ts ++ [TokClose].

Definition combined_tokens (ls : list rstr) : list SpdxToken :=
  match ls with
  | [] => []
  | l :: ls => TokOpen :: scan [] l ++ TokClose :: and_tail (map (scan []) ls)
  end.

Lemma combine_license_Some e l s :
  combine_license e l = Some s ->
  s = e ++ (if str_eqb e [] then [] else str " AND ") ++ ch "(" :: l ++ [ch ")"].
Proof. unfold combine_license. repeat case_match; naive_solver. Qed.

Lemma combine_licenses_tokens e ls s :
  combine_licenses (e ++ [ch ")"]) ls = Some s ->
  scan [] s = scan [] (e ++ [ch ")"]) ++ and_tail (map (scan []) ls).
Proof.
  revert e; induction ls as [|l ls IH]; intros e; cbn [combine_licenses].
  - intros [= <-]. by rewrite app_nil_r.
  - destruct (combine_license _ _) as [s1|] eqn:E; [|done]. apply combine_license_Some in E as ->.
    assert (str_eqb (e ++ [ch ")"]) [] = false) as ->
      by (apply bool_decide_eq_false; by destruct e).
    set (x := e ++ [ch ")"]).
    replace (x ++ str " AND " ++ ch "(" :: l ++ [ch ")"]) with ((x ++ str " AND " ++ ch "(" :: l) ++ [ch ")"])
      by (by rewrite <- !app_assoc).
    intros ->%IH. cbn [map and_tail mbind list_bind]. rewrite !app_assoc. f_equal.
    assert (Hx : scan [] ((x ++ str " AND " ++ ch "(" :: l) ++ [ch ")"])
      = scan [] x ++ scan [] (str "AND " ++ ch "(" :: l ++ [ch ")"])).
    { subst x. rewrite <- !app_assoc. etransitivity; [apply scan_close_space|done]. }
    rewrite <- (app_assoc x), Hx. f_equal.
    change (scan [] (str "AND " ++ ch "(" :: l ++ [ch ")"])) with (TokAnd :: TokOpen :: scan [] (l ++ [ch ")"])).
    by rewrite scan_paren by auto.
Qed.

Lemma combined_license_tokens ls s :
  combined_license_expression ls = Some s -> ls ≠ [] /\ scan [] s = combined_tokens ls.
Proof.
  unfold combined_license_expression. destruct ls as [|l ls]; [done|]. cbn [combine_licenses].
  destruct (combine_license [] l) as [s1|] eqn:E; [|done]. apply combine_license_Some in E.
  change (s1 = (ch "(" :: l) ++ [ch ")"]) in E. subst s1.
  destruct (combine_licenses _ ls) as [s2|] eqn:E2; [|done]. case_match; [done|]. intros [= <-].
  split; [done|]. apply (combine_licenses_tokens (ch "(" :: l)) in E2. rewrite E2.
  change ((ch "(" :: l) ++ [ch ")"]) with (ch "(" :: l ++ [ch ")"]).
  change (scan [] (ch "(" :: l ++ [ch ")"])) with (TokOpen :: scan [] (l ++ [ch ")"])).
  rewrite scan_paren by auto. simpl. by rewrite <- app_assoc.
Qed.

(** The conjunction the parser builds from the entries' expressions. *)
Definition and_all (e : SpdxExpr) (es : list SpdxExpr) : SpdxExpr := foldl ExprAnd e es.

Lemma and_all_allowed e es allowed :
  spdx_expr_allowed (and_all e es) allowed
  = spdx_expr_allowed e allowed && forallb (fun x => spdx_expr_allowed x allowed) es.
Proof.
  revert e; induction es as [|x es IH]; intros e; simpl; [by rewrite andb_true_r|].
  unfold and_all in IH. rewrite IH. simpl. by rewrite andb_assoc.
Qed.

(** A parenthesised entry is read as one atom. *)
Lemma parse_atom_group d ts e k :
  parse_or d ts = Ok (e, []) -> parse_atom (parse_or d) (TokOpen :: ts ++ TokClose :: k) = Ok (e, k).
Proof. intros H. simpl. by rewrite (parse_or_closes d _ _ _ k H). Qed.

Lemma and_loop_groups d fuel e tss es :
  Forall2 (fun ts x => parse_or d ts = Ok (x, [])) tss es ->
  (length (and_tail tss) < fuel)%nat ->
  and_loop (parse_or d) fuel e (and_tail tss) = Ok (and_all e es, []).
Proof.
  intros H. revert fuel e; induction H as [|ts x tss es Hx _ IH]; intros fuel e Hf.
  - by destruct fuel; [lia|].
  - destruct fuel as [|fuel]; [lia|].
    assert (Ht : and_tail (ts :: tss) = TokAnd :: TokOpen :: ts ++ TokClose :: and_tail tss)
      by (unfold and_tail; cbn [mbind list_bind]; simpl; by rewrite <- app_assoc).
    rewrite Ht in *. cbn [and_loop]. rewrite (parse_atom_group d ts x) by done. cbn [res_bind].
    simpl in Hf. rewrite length_app in Hf. simpl in Hf.
    assert (require_progress (TokAnd :: TokOpen :: ts ++ TokClose :: and_tail tss) (and_tail tss) = Ok tt) as ->.
    { unfold require_progress. apply ensure_Ok, Nat.ltb_lt. simpl. rewrite length_app. simpl. lia. }
    cbn [res_bind]. apply IH. lia.
Qed.

Lemma parse_or_groups d ts e tss es :
  parse_or d ts = Ok (e, []) ->
  Forall2 (fun ts x => parse_or d ts = Ok (x, [])) tss es ->
  parse_or (S d) (TokOpen :: ts ++ TokClose :: and_tail tss) = Ok (and_all e es, []).
Proof.
  intros He Hes. cbn [parse_or]. unfold parse_or_level, parse_and.
  rewrite (parse_atom_group d ts e) by done. cbn [res_bind].
  assert (require_progress (TokOpen :: ts ++ TokClose :: and_tail tss) (and_tail tss) = Ok tt) as ->.
  { unfold require_progress. apply ensure_Ok, Nat.ltb_lt. simpl. rewrite length_app. simpl. lia. }
  cbn [res_bind]. rewrite (and_loop_groups d _ e tss es) by (done || lia). done.
Qed.

Lemma deep_app_l D a b : deep D (a ++ b) -> deep D a.
Proof. intros H p q ->. apply (H p (q ++ b)). by rewrite app_assoc. Qed.

(** An entry nested in a conjunction of entries keeps one level less. *)
Lemma and_tail_deep D tss ts :
  Forall (fun ts => net ts = 0) tss -> deep D (and_tail tss) -> ts ∈ tss -> deep (D - 1) ts.
Proof.
  induction 1 as [|x tss Hx _ IH]; intros Hd Hin; [by apply elem_of_nil in Hin|].
  assert (Ht : and_tail (x :: tss) = TokAnd :: TokOpen :: x ++ TokClose :: and_tail tss)
    by (unfold and_tail; cbn [mbind list_bind]; simpl; by rewrite <- app_assoc).
  rewrite Ht in Hd. apply deep_cons in Hd. simpl in Hd. rewrite Z.sub_0_r in Hd.
  apply deep_open in Hd as [_ Hd]. apply elem_of_cons in Hin as [->|Hin]; [by eapply deep_app_l|].
  apply IH; [|done]. apply deep_drop in Hd. rewrite Hx in Hd. apply deep_cons in Hd. simpl in Hd.
  by replace (D - 1 - 0 - -1) with D in Hd by lia.
Qed.

Lemma parse_expression_Some l e :
  parse_expression l = Some e ->
  parse_or (S MAX_LICENSE_NESTING) (scan [] l) = Ok (e, []) /\ net (scan [] l) = 0.
Proof.
  unfold parse_expression, parse_tokens. destruct (spdx_tokenize l) as [ts|] eqn:E; [|done].
  apply spdx_tokenize_Some in E as (-> & _ & _). intros H.
  destruct (parse_or _ _) as [[e' [|]]|] eqn:Ep; try done. injection H as <-. split; [done|].
  apply parse_or_reads in Ep as (pre & -> & _ & Hn). by rewrite app_nil_r.
Qed.

(** An entry accepted on its own is read the same way one level further in. *)
Lemma parse_or_one_less ts e :
  parse_or (S MAX_LICENSE_NESTING) ts = Ok (e, []) -> deep (Z.of_nat MAX_LICENSE_NESTING - 1) ts ->
  parse_or MAX_LICENSE_NESTING ts = Ok (e, []).
Proof.
  intros H Hd. assert (Hlim : parse_or MAX_LICENSE_NESTING ts ≠ Err ParserLimit)
    by (apply (parse_or_enough _ (Z.of_nat MAX_LICENSE_NESTING - 1)); [unfold MAX_LICENSE_NESTING; lia|done]).
  by rewrite <- (parse_or_extends MAX_LICENSE_NESTING (S MAX_LICENSE_NESTING) ltac:(lia) ts Hlim).
Qed.

Lemma parse_combined l ls e es :
  parse_expression l = Some e -> Forall2 (fun l e => parse_expression l = Some e) ls es ->
  deep (Z.of_nat MAX_LICENSE_NESTING) (combined_tokens (l :: ls)) ->
  parse_tokens (combined_tokens (l :: ls)) = Ok (and_all e es).
Proof.
  intros [Hl Hn]%parse_expression_Some Hls Hd. unfold parse_tokens. cbn [combined_tokens] in *.
  apply deep_open in Hd as [_ Hd].
  assert (He : parse_or MAX_LICENSE_NESTING (scan [] l) = Ok (e, []))
    by (apply parse_or_one_less; [done|by eapply deep_app_l]).
  apply deep_drop in Hd. rewrite Hn in Hd. apply deep_cons in Hd. simpl in Hd.
  replace (_ - 1 - 0 - -1) with (Z.of_nat MAX_LICENSE_NESTING) in Hd by lia.
  assert (Hnet : Forall (fun ts => net ts = 0) (map (scan []) ls)).
  { apply Forall_map. clear -Hls. induction Hls as [|? ? ? ? H _ IH]; constructor; [|done].
    by apply parse_expression_Some in H as [_ ?]. }
  rewrite (parse_or_groups MAX_LICENSE_NESTING (scan [] l) e (map (scan []) ls) es); [done|done|].
  assert (Hall : forall ts, ts ∈ map (scan []) ls -> deep (Z.of_nat MAX_LICENSE_NESTING - 1) ts)
    by (intros ts; by apply and_tail_deep).
  clear -Hls Hall. induction Hls as [|l x ls es H _ IH]; simpl in *; constructor.
  - apply parse_expression_Some in H as [H _]. apply parse_or_one_less; [done|]. apply Hall. by left.
  - apply IH. intros ts Hts. apply Hall. by right.
Qed.

(** * Properties *)

(** cumulative license obligations are enforced one by one: when every
    metadata entry is an expression of its own, the combined expression is
    allowed exactly when it is within the admission limits and every entry is
    allowed, so an alternative inside one entry cannot excuse another. *)
Theorem combined_license_requires_every_entry licenses expression allowed :
  (forall l, l ∈ licenses -> is_Some (parse_expression l)) ->
  combined_license_expression licenses = Some expression ->
  license_matches_allowlist expression allowed
  = is_some_and (spdx_tokenize expression) (fun _ =>
      forallb (fun l => license_matches_allowlist l allowed) licenses).
Proof.
  intros Hp [Hne Htok]%combined_license_tokens.
  assert (Hes : exists es, Forall2 (fun l e => parse_expression l = Some e) licenses es).
  { clear -Hp. induction licenses as [|l ls IH]; [by exists []|].
    destruct (Hp l ltac:(by left)) as [e He]. destruct IH as [es Hes]; [intros; apply Hp; by right|].
    exists (e :: es). by constructor. }
  destruct Hes as [es Hes]. unfold license_matches_allowlist at 1, parse_expression.
  destruct (spdx_tokenize expression) as [ts|] eqn:Et; [|done]. simpl.
  pose proof (spdx_tokenize_deep _ _ Et) as Hd. apply spdx_tokenize_Some in Et as (-> & _ & _).
  rewrite Htok in *. destruct Hes as [|l e ls es He Hes]; [done|].
  rewrite (parse_combined l ls e es He Hes Hd). simpl. rewrite and_all_allowed.
  unfold license_matches_allowlist at 1. rewrite He. f_equal.
  clear -Hes. induction Hes as [|? ? ? ? H _ IH]; simpl; [done|]. unfold license_matches_allowlist at 1. by rewrite H, IH.
Qed.

Lemma combined_license_requires_every_entry_witness :
  license_matches_allowlist (str "(GPL-3.0 OR MIT) AND (BSD)") [str "MIT"] = false
  /\ license_matches_allowlist (str "(GPL-3.0 OR MIT) AND (BSD)") [str "MIT"; str "bsd+"] = true.
Proof.
  split; (rewrite (combined_license_requires_every_entry [str "GPL-3.0 OR MIT"; str "BSD"]);
    [vm_compute; reflexivity| |vm_compute; reflexivity]);
    intros l Hl; apply list_elem_of_In in Hl; destruct Hl as [<-|[<-|[]]]; eexists; vm_compute; reflexivity.
Defined.

(** an entry that is not an expression of its own escapes the
    conjunction. The entries [GPL-3.0] and [X) OR (MIT] combine to
    [(GPL-3.0) AND (X) OR (MIT)], which an allowlist holding only MIT accepts
    although the first obligation is not allowed. *)
Theorem combined_license_entry_escapes_conjunction :
  exists licenses expression,
    combined_license_expression licenses = Some expression
    /\ license_matches_allowlist expression [str "MIT"] = true
    /\ str "GPL-3.0" ∈ licenses
    /\ is_Some (parse_expression (str "GPL-3.0"))
    /\ license_matches_allowlist (str "GPL-3.0") [str "MIT"] = false.
Proof.
  exists [str "GPL-3.0"; str "X) OR (MIT"], (str "(GPL-3.0) AND (X) OR (MIT)").
  split_and!; [vm_compute; reflexivity..|by left|eexists; vm_compute; reflexivity|vm_compute; reflexivity].
Qed.

(** the native recursion of the parser is bounded by the admission
    limits: on every token list the tokenizer lets through, the parser
    answers within 33 nested activations of [parse_or] and within its loop
    bounds, and allowing more depth does not change the answer. *)
Theorem license_parser_recursion_bounded license tokens :
  spdx_tokenize license = Some tokens ->
  parse_tokens tokens ≠ Err ParserLimit
  /\ forall depth, (S MAX_LICENSE_NESTING <= depth)%nat ->
       parse_or depth tokens = parse_or (S MAX_LICENSE_NESTING) tokens.
Proof.
  intros Hd%spdx_tokenize_deep.
  assert (Hlim : parse_or (S MAX_LICENSE_NESTING) tokens ≠ Err ParserLimit)
    by (apply (parse_or_enough _ (Z.of_nat MAX_LICENSE_NESTING)); [unfold MAX_LICENSE_NESTING; lia|done]).
  split; [|intros depth Hle; by apply parse_or_extends].
  unfold parse_tokens. destruct (parse_or _ tokens) as [[e [|]]|[]]; done.
Qed.

Lemma license_parser_recursion_bounded_witness :
  parse_tokens [TokOpen; TokId (str "mit"); TokClose] ≠ Err ParserLimit.
Proof.
  apply (license_parser_recursion_bounded (str "(MIT)")). vm_compute. reflexivity.
Defined.

(** * Assessment *)

(** The identifiers of an expression, with whether an exception is attached. *)
Fixpoint leaves (e : SpdxExpr) : list (rstr * bool) :=
  match e with
  | ExprId id => [(id, false)]
  | ExprWith id => [(id, true)]
  | ExprAnd a b | ExprOr a b => leaves a ++ leaves b
  end.

Lemma classification_max_ge a b :
  classification_rank a <= classification_rank (classification_max a b)
  /\ classification_rank b <= classification_rank (classification_max a b).
Proof. unfold classification_max. destruct (Z.ltb_spec (classification_rank b) (classification_rank a)); lia. Qed.

(** A recognised identifier without exception, of rank at most [rank]. *)
Definition leaf_ok (rank : Z) (leaf : rstr * bool) : Prop :=
  leaf.2 = false /\ classify_license_id leaf.1 ≠ Unknown
  /\ classification_rank (classify_license_id leaf.1) <= rank.

Lemma leaf_ok_le m n l : m <= n -> Forall (leaf_ok m) l -> Forall (leaf_ok n) l.
Proof.
  intros Hle H. eapply Forall_impl; [exact H|]. intros x (? & ? & ?). unfold leaf_ok. split_and!; (done || lia).
Qed.

Lemma assess_leaves e :
  unresolved_review (assess e) = false ->
  Forall (leaf_ok (classification_rank (category (assess e)))) (leaves e).
Proof.
  induction e as [id|id|a IHa b IHb|a IHa b IHb]; simpl; [|done|..].
  - intros H. apply bool_decide_eq_false in H. repeat constructor; [done|simpl; lia].
  - intros [H1 H2]%orb_false_elim. destruct (classification_max_ge (category (assess a)) (category (assess b))).
    apply Forall_app. split; eauto using leaf_ok_le.
  - intros [H1 H2]%orb_false_elim. destruct (classification_max_ge (category (assess a)) (category (assess b))).
    apply Forall_app. split; eauto using leaf_ok_le.
Qed.

(** an assessment that asks for no review is justified: the input is a
    well-formed expression, none of its identifiers carries an exception, all
    belong to a recognised family, and the reported category is at least as
    strong as that of every one of them. *)
Theorem assessment_without_review_is_justified license :
  unresolved_review (assess_license_expression license) = false ->
  exists expr, parse_expression license = Some expr
    /\ Forall (leaf_ok (classification_rank (classify_license_expression license))) (leaves expr).
Proof.
  unfold classify_license_expression, assess_license_expression.
  destruct (parse_expression license) as [expr|]; [|done]. intros H. exists expr. split; [done|].
  by apply assess_leaves.
Qed.

Lemma assessment_without_review_is_justified_witness :
  exists expr, parse_expression (str "MIT AND (GPL2 OR ISC)") = Some expr
    /\ Forall (leaf_ok (classification_rank (classify_license_expression (str "MIT AND (GPL2 OR ISC)")))) (leaves expr).
Proof. apply assessment_without_review_is_justified. vm_compute. reflexivity. Defined.
