(* ===== verification/Policy.v ===== *)
(** Security policy enforcement: src/src/core/security/policy.rs.

    [check_package] and its callers, the loading of policy.toml with the
    refusal of legacy settings, and the hand-over of the parent's policy to
    the elevated child. The file system, TOML, JSON and hexadecimal codecs are
    inputs: an opened file is what [open] and [metadata] returned together
    with the bytes a read would deliver, and the codecs are the operations of
    [Codecs]. The process-wide [INHERITED_POLICY] cell is explicit state. *)

From S2P Require Import Prelude Spdx.
Open Scope Z_scope.
Open Scope omg_scope.

(** * Data *)

Inductive SecurityGrade := Risk | Community | Verified | Locked.

#[export] Instance SecurityGrade_eq_dec : EqDecision SecurityGrade.
Proof. solve_decision. Defined.

Definition grade_value (g : SecurityGrade) : Z :=
  match g with Risk => 0 | Community => 1 | Verified => 2 | Locked => 3 end.

Definition grade_lt (a b : SecurityGrade) : bool := grade_value a <? grade_value b.

Record SecurityPolicy := {
  minimum_grade : SecurityGrade;
  allow_aur : bool;
  require_pgp : bool;
  allowed_licenses : list rstr;
  banned_packages : list rstr
}.

#[export] Instance SecurityPolicy_eq_dec : EqDecision SecurityPolicy.
Proof. solve_decision. Defined.

Definition policy_default : SecurityPolicy :=
  {| minimum_grade := Community; allow_aur := true; require_pgp := false;
     allowed_licenses := []; banned_packages := [] |}.

Inductive IoError := NotFound | InvalidData | OtherIo.

Inductive PolicyError :=
| LegacySecurityConfig (path : rstr)
| PolicyRead (path : rstr) (source : IoError)
| PolicyParse (path : rstr)
| GradeTooLow (name : rstr) (grade minimum : SecurityGrade)
| Banned (name : rstr)
| AurDisabled (name : rstr)
| PgpRequired (name : rstr)
| LicenseNotAllowed (name license : rstr)
| LicenseUnknown (name : rstr).

(** * Enforcement *)

Definition check_package (self : SecurityPolicy) (name : rstr) (is_aur : bool)
    (license : option rstr) (grade : SecurityGrade) : result unit PolicyError :=
  if grade_lt grade (minimum_grade self) then Err (GradeTooLow name grade (minimum_grade self))
  else if existsb (str_eqb name) (banned_packages self) then Err (Banned name)
  else if is_aur && negb (allow_aur self) then Err (AurDisabled name)
  else if require_pgp self && grade_lt grade Verified then Err (PgpRequired name)
  else
    match allowed_licenses self with
    | [] => Ok tt
    | _ =>
        match license with
        | Some lic =>
            if license_matches_allowlist lic (allowed_licenses self) then Ok tt
            else Err (LicenseNotAllowed name lic)
        | None => Err (LicenseUnknown name)
        end
    end.

Definition check_source (self : SecurityPolicy) (name : rstr) (is_aur : bool)
    (license : option rstr) : result unit PolicyError :=
  check_package self name is_aur license (if is_aur then Community else Verified).

(** The [VulnerabilitySource] trait: evidence for one package version. *)
Class VulnerabilitySource (Report VulnerabilityError : Type) := {
  scan_package : rstr -> rstr -> result (list Report) VulnerabilityError
}.

(** What the anyhow error of the prepared-plan check carries. *)
Inductive PreparedError (VulnerabilityError : Type) :=
| PolicyViolation (e : PolicyError)
| EvidenceUnavailable (e : VulnerabilityError)
| WorkerFailed.
Arguments PolicyViolation {_}.
Arguments EvidenceUnavailable {_}.
Arguments WorkerFailed {_}.

Section grading.
Context `{VulnerabilitySource Report VulnerabilityError}.

Definition assign_grade (name version : rstr) (is_official : bool)
  : result SecurityGrade VulnerabilityError :=
  let? reports := scan_package name version in
  Ok match reports with
     | _ :: _ => Risk
     | [] => if is_official then Verified else Community
     end.

(** A prepared package: name, version, whether it is a community package,
    license. *)
Definition Prepared : Type := rstr * rstr * bool * option rstr.

Definition check_prepared_one (policy : SecurityPolicy) (package : Prepared)
  : result unit (PreparedError VulnerabilityError) :=
  let '(name, version, community, license) := package in
  map_err PolicyViolation (check_source policy name community license) ;?
  let? grade := map_err EvidenceUnavailable (assign_grade name version (negb community)) in
  map_err PolicyViolation (check_package policy name community license grade).

Definition check_prepared_with_source (policy : SecurityPolicy) (packages : list Prepared)
  : result unit (PreparedError VulnerabilityError) :=
  for_each (fun _ package => check_prepared_one policy package) tt packages.

End grading.

(** * Loading *)

Definition MAX_POLICY_BYTES : Z := 1024 * 1024.

(** A file opened read-only with [O_NOFOLLOW | O_NONBLOCK]. *)
Record OpenedFile := {
  metadata_is_file : bool;
  metadata_len : Z;
  file_bytes : list Z
}.

Definition read_policy_file (opened : result OpenedFile IoError) : result rstr IoError :=
  let? file := opened in
  if negb (metadata_is_file file) then Err InvalidData
  else if MAX_POLICY_BYTES <? metadata_len file then Err InvalidData
  else
    let? content := ok_or (decode_utf8 (take (Z.to_nat (MAX_POLICY_BYTES + 1)) (file_bytes file))) InvalidData in
    if MAX_POLICY_BYTES <? str_len content then Err InvalidData else Ok content.

(** The third-party codecs: TOML, JSON and hexadecimal. *)
Class Codecs (Table Value : Type) := {
  toml_policy : rstr -> option SecurityPolicy;
  toml_table : rstr -> option Table;
  table_get : Table -> rstr -> option Value;
  as_table : Value -> option Table;
  table_is_empty : Table -> bool;
  json_to_vec : SecurityPolicy -> option (list Z);
  json_from_slice : list Z -> option SecurityPolicy;
  hex_encode : list Z -> rstr;
  hex_decode : rstr -> option (list Z)
}.

(** What a process sees of its surroundings: its effective user, whether
    policy.toml exists, and the two files of the configuration directory. *)
Record PolicyEnv := {
  is_root : bool;
  policy_path : rstr;
  config_path : rstr;
  policy_exists : bool;
  open_policy : result OpenedFile IoError;
  open_config : result OpenedFile IoError
}.

(** Errors of the elevation hand-over. *)
Inductive HandoffError :=
| NotElevated
| MarkerMissing
| HandoffTooLong
| HandoffUndecodable
| HandoffPolicy (e : PolicyError)
| HandoffMismatch
| HandoffDuplicate
| HandoffUnserializable
| PolicyUnenforceable.

Section loading.
Context `{Codecs Table Value}.

Definition validate_legacy_security_config (table : Table) (path : rstr) : result unit PolicyError :=
  match table_get table (str "security") with
  | Some security =>
      if is_some_and (as_table security) table_is_empty then Ok tt
      else Err (LegacySecurityConfig path)
  | None => Ok tt
  end.

Definition reject_legacy_security_file (path : rstr) (opened : result OpenedFile IoError)
  : result unit PolicyError :=
  match read_policy_file opened with
  | Ok content =>
      let? table := ok_or (toml_table content) (PolicyParse path) in
      validate_legacy_security_config table path
  | Err NotFound => Ok tt
  | Err source => Err (PolicyRead path source)
  end.

Definition load (path : rstr) (opened : result OpenedFile IoError) : result SecurityPolicy PolicyError :=
  let? content := map_err (PolicyRead path) (read_policy_file opened) in
  ok_or (toml_policy content) (PolicyParse path).

Definition load_optional (env : PolicyEnv) : result SecurityPolicy PolicyError :=
  reject_legacy_security_file (config_path env) (open_config env) ;?
  match load (policy_path env) (open_policy env) with
  | Ok policy => Ok policy
  | Err (PolicyRead _ NotFound) => Ok policy_default
  | Err error => Err error
  end.

(** [INHERITED_POLICY] is the second argument. *)
Definition load_default (env : PolicyEnv) (inherited : option SecurityPolicy)
  : result SecurityPolicy PolicyError :=
  match inherited with
  | Some policy => Ok policy
  | None => load_optional env
  end.

(** * Elevation hand-over *)

Definition POLICY_MARKER : rstr := str "__omg_policy=".

Definition validate_inherited_policy (env : PolicyEnv) (policy : SecurityPolicy) : result unit HandoffError :=
  let? trusted := map_err HandoffPolicy (load_optional env) in
  ensure (bool_decide (policy = trusted)) HandoffMismatch.

(** [inherit_policy]: the new contents of [INHERITED_POLICY]. *)
Definition inherit_policy (env : PolicyEnv) (inherited : option SecurityPolicy) (argument : rstr)
  : result (option SecurityPolicy) HandoffError :=
  ensure (is_root env) NotElevated ;?
  let? encoded := ok_or (strip_prefix POLICY_MARKER argument) MarkerMissing in
  ensure (str_len encoded <=? 65536) HandoffTooLong ;?
  let? bytes := ok_or (hex_decode encoded) HandoffUndecodable in
  let? policy := ok_or (json_from_slice bytes) HandoffUndecodable in
  validate_inherited_policy env policy ;?
  match inherited with
  | None => Ok (Some policy)
  | Some _ => Err HandoffDuplicate
  end.

Definition explicit_policy_exists (env : PolicyEnv) (inherited : option SecurityPolicy) : bool :=
  match inherited with Some _ => true | None => policy_exists env end.

Definition policy_handoff (env : PolicyEnv) (inherited : option SecurityPolicy)
  : result (option rstr) HandoffError :=
  if negb (explicit_policy_exists env inherited) then Ok None
  else
    let? policy := map_err HandoffPolicy (load_default env inherited) in
    let? bytes := ok_or (json_to_vec policy) HandoffUnserializable in
    ensure (Z.of_nat (length bytes) <=? 32768) HandoffTooLong ;?
    Ok (Some (POLICY_MARKER ++ hex_encode bytes)).

Definition require_native_plan_support (env : PolicyEnv) (inherited : option SecurityPolicy)
  : result unit HandoffError :=
  let? policy := map_err HandoffPolicy (load_default env inherited) in
  ensure (negb (explicit_policy_exists env inherited) && bool_decide (policy = policy_default))
    PolicyUnenforceable.

(** [check_prepared_packages]; [runtime_built] is the outcome of building the
    worker's runtime. *)
Definition check_prepared_packages `{VulnerabilitySource Report VulnerabilityError}
    (env : PolicyEnv) (inherited : option SecurityPolicy) (runtime_built : bool) (packages : list Prepared)
  : result unit (PreparedError VulnerabilityError) :=
  let? policy := map_err PolicyViolation (load_default env inherited) in
  if negb (explicit_policy_exists env inherited) then
    for_each (fun _ '(name, _, community, license) =>
      map_err PolicyViolation (check_source policy name community license)) tt packages
  else
    ensure runtime_built WorkerFailed ;?
    check_prepared_with_source policy packages.

End loading.

(** * Helper lemmas *)

Lemma grade_lt_false a b : grade_lt a b = false <-> grade_value b <= grade_value a.
Proof. unfold grade_lt. apply Z.ltb_ge. Qed.

Lemma existsb_str_eqb x l : existsb (str_eqb x) l = true <-> x ∈ l.
Proof.
  rewrite existsb_exists, list_elem_of_In. unfold str_eqb. split.
  - intros (y & Hy & ->%bool_decide_eq_true). done.
  - intros H. exists x. split; [done|]. by apply bool_decide_eq_true.
Qed.

(** The conditions a policy puts on a package of a given grade. *)
Definition permitted (self : SecurityPolicy) (name : rstr) (is_aur : bool)
    (license : option rstr) (grade : SecurityGrade) : Prop :=
  grade_value (minimum_grade self) <= grade_value grade
  /\ (name ∉ banned_packages self)
  /\ (is_aur = true -> allow_aur self = true)
  /\ (require_pgp self = true -> grade_value Verified <= grade_value grade)
  /\ (allowed_licenses self = []
      \/ exists lic, license = Some lic /\ license_matches_allowlist lic (allowed_licenses self) = true).

(** The license clause on its own. *)
Lemma license_clause_Ok {E} (allowed : list rstr) (license : option rstr) (e : rstr -> E) (e' : E) :
  match allowed with
  | [] => Ok tt
  | _ => match license with
         | Some lic => if license_matches_allowlist lic allowed then Ok tt else Err (e lic)
         | None => Err e'
         end
  end = Ok tt <->
  allowed = [] \/ exists lic, license = Some lic /\ license_matches_allowlist lic allowed = true.
Proof.
  destruct allowed as [|a allowed]; [naive_solver|]. destruct license as [lic|]; [|naive_solver].
  destruct (license_matches_allowlist lic (a :: allowed)) eqn:E'; naive_solver congruence.
Qed.

Lemma guard_Ok {E} (b : bool) (e : E) (r : result unit E) :
  (if b then Err e else r) = Ok tt <-> b = false /\ r = Ok tt.
Proof. destruct b; naive_solver. Qed.

Lemma check_package_Ok self name is_aur license grade :
  check_package self name is_aur license grade = Ok tt <-> permitted self name is_aur license grade.
Proof.
  unfold check_package, permitted. rewrite !guard_Ok.
  rewrite (license_clause_Ok (allowed_licenses self) license (LicenseNotAllowed name) (LicenseUnknown name)).
  rewrite <- !grade_lt_false, <- existsb_str_eqb, not_true_iff_false, !andb_false_iff, negb_false_iff.
  destruct is_aur, (require_pgp self); naive_solver.
Qed.

Lemma assign_grade_Ok `{VulnerabilitySource Report VulnerabilityError} name version official g :
  assign_grade name version official = Ok g <->
  exists reports, scan_package name version = Ok reports
    /\ g = match reports with _ :: _ => Risk | [] => if official then Verified else Community end.
Proof.
  unfold assign_grade. rewrite res_bind_Ok. split.
  - intros (reports & Hs & [= <-]). eauto.
  - intros (reports & Hs & ->). eauto.
Qed.

Lemma check_prepared_one_Ok `{VulnerabilitySource Report VulnerabilityError} policy package :
  check_prepared_one policy package = Ok tt <->
  let '(name, version, community, license) := package in
  exists reports, scan_package name version = Ok reports
    /\ permitted policy name community license (if community then Community else Verified)
    /\ permitted policy name community license
         (match reports with _ :: _ => Risk | [] => if community then Community else Verified end).
Proof.
  destruct package as [[[name version] community] license]. unfold check_prepared_one, check_source.
  rewrite res_bind_Ok. setoid_rewrite map_err_Ok.
  split.
  - intros ([] & H1 & H2). apply res_bind_Ok in H2 as (g & Hg & H2).
    apply map_err_Ok, assign_grade_Ok in Hg as (reports & Hs & ->). apply map_err_Ok, check_package_Ok in H2.
    rewrite check_package_Ok in H1. exists reports. split_and!; [done..|]. by destruct reports, community.
  - intros (reports & Hs & H1 & H2). exists tt. split; [by apply check_package_Ok|].
    apply res_bind_Ok. eexists. split; [apply map_err_Ok, assign_grade_Ok; eauto|].
    apply map_err_Ok, check_package_Ok. by destruct reports, community.
Qed.

Lemma read_policy_file_Ok opened content :
  read_policy_file opened = Ok content ->
  exists file, opened = Ok file /\ metadata_is_file file = true /\ str_len content <= MAX_POLICY_BYTES.
Proof.
  unfold read_policy_file. intros H. apply res_bind_Ok in H as (file & -> & H).
  destruct (metadata_is_file file) eqn:Ef; [|done]. cbn [negb] in H.
  destruct (MAX_POLICY_BYTES <? metadata_len file); [done|]. apply res_bind_Ok in H as (c & _ & H).
  destruct (Z.ltb_spec MAX_POLICY_BYTES (str_len c)); [done|]. injection H as <-. eauto.
Qed.

Section policy_loading.
Context `{Codecs Table Value}.

(** Where a loaded policy comes from. *)
Definition policy_source (env : PolicyEnv) (policy : SecurityPolicy) : Prop :=
  (read_policy_file (open_policy env) = Err NotFound /\ policy = policy_default)
  \/ exists content, read_policy_file (open_policy env) = Ok content
       /\ str_len content <= MAX_POLICY_BYTES /\ toml_policy content = Some policy.

(** The sibling config.toml holds no populated [security] entry. *)
Definition no_legacy (env : PolicyEnv) : Prop :=
  read_policy_file (open_config env) = Err NotFound
  \/ exists content table, read_policy_file (open_config env) = Ok content
       /\ toml_table content = Some table
       /\ (table_get table (str "security") = None
           \/ exists security t, table_get table (str "security") = Some security
                /\ as_table security = Some t /\ table_is_empty t = true).

Lemma reject_legacy_Ok env :
  reject_legacy_security_file (config_path env) (open_config env) = Ok tt <-> no_legacy env.
Proof.
  unfold reject_legacy_security_file, no_legacy. destruct (read_policy_file (open_config env)) as [content|e].
  - rewrite res_bind_Ok. unfold ok_or, validate_legacy_security_config. split.
    + intros (table & Ht & Hs). destruct (toml_table content) as [x|] eqn:Et; [|done]. injection Ht as ->.
      right. exists content, table. split_and!; [done..|].
      destruct (table_get table (str "security")) as [security|] eqn:Es; [|by left]. right. exists security.
      destruct (as_table security) as [t|] eqn:Ea; [|done]. exists t. simpl in Hs.
      destruct (table_is_empty t) eqn:Ee; done.
    + intros [?|(c & table & [= <-] & Ht & Hs)]; [done|]. exists table. rewrite Ht. split; [done|].
      destruct Hs as [->|(security & t & -> & Ha & He)]; [done|]. rewrite Ha. simpl. by rewrite He.
  - destruct e; (split; [try (by left); done|]); intros [?|(c & table & ? & _)]; done.
Qed.

Lemma load_Ok env policy :
  match load (policy_path env) (open_policy env) with
  | Ok policy => Ok policy
  | Err (PolicyRead _ NotFound) => Ok policy_default
  | Err error => Err error
  end = Ok policy <-> policy_source env policy.
Proof.
  unfold load, policy_source. destruct (read_policy_file (open_policy env)) as [content|e] eqn:Er.
  - pose proof (read_policy_file_Ok _ _ Er) as (_ & _ & _ & Hlen).
    cbn [map_err res_bind]. destruct (toml_policy content) as [p|] eqn:Et; simpl.
    + split; [intros [= <-]; right; eauto|]. intros [[? _]|(c & [= <-] & _ & Hp)]; [done|congruence].
    + split; [done|]. intros [[? _]|(c & [= <-] & _ & Hp)]; congruence.
  - destruct e; simpl.
    + split; [intros [= <-]; by left|]. by intros [[_ ->]|(c & ? & _)].
    + split; [done|]. by intros [[? _]|(c & ? & _)].
    + split; [done|]. by intros [[? _]|(c & ? & _)].
Qed.

Lemma load_optional_Ok env policy :
  load_optional env = Ok policy <-> no_legacy env /\ policy_source env policy.
Proof.
  unfold load_optional. rewrite res_bind_Ok, <- reject_legacy_Ok, <- load_Ok.
  split; [intros ([] & ? & ?); done|]. intros [? ?]. by exists tt.
Qed.

Lemma inherit_policy_Ok env inherited argument st :
  inherit_policy env inherited argument = Ok st <->
  is_root env = true /\ inherited = None /\ exists encoded bytes policy,
    argument = POLICY_MARKER ++ encoded /\ str_len encoded <= 65536 /\ hex_decode encoded = Some bytes
    /\ json_from_slice bytes = Some policy /\ load_optional env = Ok policy /\ st = Some policy.
Proof.
  unfold inherit_policy, validate_inherited_policy. split.
  - intros E. apply res_bind_Ok in E as ([] & Hroot%ensure_Ok & E).
    apply res_bind_Ok in E as (encoded & Hm & E).
    destruct (strip_prefix POLICY_MARKER argument) as [x|] eqn:Ep; [|done]. injection Hm as ->.
    apply strip_prefix_Some in Ep as ->. apply res_bind_Ok in E as ([] & Hlen%ensure_Ok%Z.leb_le & E).
    apply res_bind_Ok in E as (bytes & Hb & E). destruct (hex_decode encoded) as [y|] eqn:Eh; [|done]. injection Hb as ->.
    apply res_bind_Ok in E as (policy & Hp & E). destruct (json_from_slice bytes) as [z|] eqn:Ej; [|done]. injection Hp as ->.
    apply res_bind_Ok in E as ([] & Hv & E). apply res_bind_Ok in Hv as (trusted & Ht & Hv).
    apply map_err_Ok in Ht. apply ensure_Ok, bool_decide_eq_true in Hv as ->.
    destruct inherited; [done|]. injection E as <-. naive_solver eauto.
  - intros (-> & -> & encoded & bytes & policy & -> & Hlen & Hh & Hj & Hl & ->).
    rewrite (proj2 (strip_prefix_Some POLICY_MARKER _ encoded) eq_refl). cbn [ensure res_bind ok_or].
    rewrite (proj2 (Z.leb_le _ _) Hlen), Hh. cbn [ensure res_bind ok_or]. rewrite Hj. cbn [res_bind ok_or].
    rewrite Hl. cbn [map_err res_bind]. by rewrite bool_decide_true by done.
Qed.

End policy_loading.

(** * Properties *)

(** [check_package] lets a package through exactly when the policy
    permits it: grade high enough, not banned, AUR enabled for AUR packages,
    verified when PGP is required, and, under a license allowlist, a known
    license the allowlist covers. *)
Theorem check_package_enforces_policy self name is_aur license grade :
  check_package self name is_aur license grade = Ok tt <-> permitted self name is_aur license grade.
Proof. apply check_package_Ok. Qed.

(** a prepared transaction passes under an explicit policy only if every
    package of it has vulnerability evidence and is permitted both at the
    grade of its source and at the grade that evidence assigns; one with a
    reported vulnerability is accepted only by a policy whose minimum grade is
    [Risk] and that does not require PGP. *)
Theorem prepared_plan_needs_evidence `{Codecs Table Value} `{VulnerabilitySource Report VulnError}
    env inherited runtime_built (packages : list Prepared) :
  explicit_policy_exists env inherited = true ->
  check_prepared_packages env inherited runtime_built packages = Ok tt ->
  exists policy, load_default env inherited = Ok policy
    /\ forall name version community license, (name, version, community, license) ∈ packages ->
       exists reports, scan_package name version = Ok reports
         /\ permitted policy name community license (if community then Community else Verified)
         /\ (reports ≠ [] -> minimum_grade policy = Risk /\ require_pgp policy = false).
Proof.
  intros Hex Hc. unfold check_prepared_packages in Hc. rewrite Hex in Hc.
  apply res_bind_Ok in Hc as (policy & Hp%map_err_Ok & Hc). cbn [negb] in Hc.
  apply res_bind_Ok in Hc as ([] & _ & Hc). exists policy. split; [done|].
  unfold check_prepared_with_source in Hc. rewrite for_each_unit_Ok in Hc.
  intros name version community license Hin. specialize (Hc _ Hin). rewrite check_prepared_one_Ok in Hc.
  destruct Hc as (reports & Hs & H1 & H2). exists reports. split_and!; [done..|]. intros Hne.
  destruct reports; [done|]. destruct H2 as (Hg & _ & _ & Hpgp & _). simpl in Hg.
  split; [by destruct (minimum_grade policy)|]. destruct (require_pgp policy); [|done].
  by specialize (Hpgp eq_refl).
Qed.

(** C12: the elevation hand-over cannot be forged: whatever argument the
    caller appends, the child only ever inherits the policy it loads from the
    trusted policy file itself, which it refuses to do while legacy settings
    are unresolved, and only as root and once. *)
Theorem inherited_policy_is_the_trusted_one `{Codecs Table Value} env inherited argument st :
  inherit_policy env inherited argument = Ok st ->
  is_root env = true /\ inherited = None
  /\ exists policy, st = Some policy /\ load_default env None = Ok policy
       /\ no_legacy env /\ policy_source env policy.
Proof.
  intros (Hr & Hi & encoded & bytes & policy & _ & _ & _ & _ & Hl & ->)%inherit_policy_Ok.
  split_and!; [done..|]. exists policy. split_and!; [done..| |]; by apply load_optional_Ok in Hl as [? ?].
Qed.

(** A sequence of bytes. *)
Definition bytes (b : list Z) : Prop := Forall (fun x => 0 <= x < 256) b.

(** the hand-over is complete: the argument a parent with an explicit
    policy file produces is accepted by a root child that sees the same
    files, and the child then enforces exactly the parent's policy. *)
Theorem policy_handoff_roundtrip `{Codecs Table Value} parent child argument :
  (forall b, bytes b -> hex_decode (hex_encode b) = Some b) ->
  (forall b, bytes b -> str_len (hex_encode b) = 2 * Z.of_nat (length b)) ->
  (forall p b, json_to_vec p = Some b -> bytes b /\ json_from_slice b = Some p) ->
  load_optional child = load_optional parent -> is_root child = true ->
  policy_handoff parent None = Ok (Some argument) ->
  exists policy, load_default parent None = Ok policy
    /\ inherit_policy child None argument = Ok (Some policy)
    /\ load_default child (Some policy) = Ok policy.
Proof.
  intros Hhex Hlen Hjson Hsame Hroot E. unfold policy_handoff in E.
  destruct (explicit_policy_exists parent None); [|done]. cbn [negb] in E.
  apply res_bind_Ok in E as (policy & Hp%map_err_Ok & E). apply res_bind_Ok in E as (data & Hb & E).
  destruct (json_to_vec policy) as [b|] eqn:Ej; [|done]. injection Hb as ->.
  destruct (Hjson _ _ Ej) as [Hbytes Hback].
  apply res_bind_Ok in E as ([] & Hsz%ensure_Ok%Z.leb_le & [= <-]).
  exists policy. split_and!; [done| |done]. apply inherit_policy_Ok. split_and!; [done..|].
  exists (hex_encode data), data, policy. simpl in Hp. rewrite Hsame, Hlen by done. split_and!; auto; lia.
Qed.


Definition hex_digit (n : Z) : Z := if n <? 10 then ch "0" + n else ch "a" + n - 10.

Definition unhex_digit (c : Z) : option Z :=
  if (ch "0" <=? c) && (c <=? ch "9") then Some (c - ch "0")
  else if (ch "a" <=? c) && (c <=? ch "f") then Some (c - ch "a" + 10)
  else None.

Definition hex_of (b : list Z) : rstr := b ≫= fun x => [hex_digit (x / 16); hex_digit (x mod 16)].

Fixpoint unhex (s : rstr) : option (list Z) :=
  match s with
  | [] => Some []
  | a :: b :: s =>
      match unhex_digit a, unhex_digit b, unhex s with
      | Some x, Some y, Some l => Some (16 * x + y :: l)
      | _, _, _ => None
      end
  | [_] => None
  end.

Lemma unhex_hex_digit n : 0 <= n < 16 -> unhex_digit (hex_digit n) = Some n.
Proof.
  intros Hn. assert (Hc : n ∈ map Z.of_nat (seq 0 16))
    by (apply list_elem_of_In, in_map_iff; exists (Z.to_nat n); rewrite in_seq; split; lia).
  simpl in Hc. repeat (apply elem_of_cons in Hc as [->|Hc]; [reflexivity|]). by apply elem_of_nil in Hc.
Qed.

Lemma unhex_hex b : bytes b -> unhex (hex_of b) = Some b.
Proof.
  induction 1 as [|x b Hx _ IH]; [done|]. unfold hex_of in *. cbn [mbind list_bind app unhex].
  rewrite !unhex_hex_digit by (Z.div_mod_to_equations; lia).
  rewrite IH. do 2 f_equal. Z.div_mod_to_equations; lia.
Qed.

Lemma hex_len b : bytes b -> str_len (hex_of b) = 2 * Z.of_nat (length b).
Proof.
  intros Hb. assert (Ha : Forall (fun c => c < 0x80) (hex_of b)).
  { induction Hb as [|x b Hx _ IH]; [constructor|]. unfold hex_of in *. cbn [mbind list_bind app].
    repeat constructor; [..|exact IH]; unfold hex_digit; ev_ch;
      match goal with |- context [if ?c then _ else _] => destruct c eqn:? end; Z.div_mod_to_equations; lia. }
  rewrite (str_len_ascii _ Ha). clear. induction b as [|x b IH]; [done|].
  unfold hex_of in *. cbn [mbind list_bind app length] in *. lia.
Qed.

Definition sample_policy : SecurityPolicy :=
  {| minimum_grade := Verified; allow_aur := false; require_pgp := true;
     allowed_licenses := [str "MIT"]; banned_packages := [str "evil"] |}.

Definition sample_codecs : Codecs (list rstr) unit :=
  {| toml_policy := fun s => if str_eqb s (str "strict") then Some sample_policy else None;
     toml_table := fun s => Some [s];
     table_get := fun _ _ => None;
     as_table := fun _ => None;
     table_is_empty := fun _ => true;
     json_to_vec := fun p => if decide (p = sample_policy) then Some [123; 125] else None;
     json_from_slice := fun b => if decide (b = [123; 125]) then Some sample_policy else None;
     hex_encode := hex_of;
     hex_decode := unhex |}.

Definition sample_env (root : bool) : PolicyEnv :=
  {| is_root := root; policy_path := str "policy.toml"; config_path := str "config.toml";
     policy_exists := true;
     open_policy := Ok {| metadata_is_file := true; metadata_len := 6; file_bytes := as_bytes (str "strict") |};
     open_config := Err NotFound |}.

Definition sample_scanner : VulnerabilitySource rstr unit :=
  {| scan_package := fun n _ => if str_eqb n (str "old") then Ok [str "CVE-1"] else Ok [] |}.

Lemma prepared_plan_needs_evidence_witness :
  exists policy, load_default (H := sample_codecs) (sample_env false) None = Ok policy
    /\ minimum_grade policy = Verified
    /\ forall name version community license,
         (name, version, community, license) ∈ [(str "bash", str "5", false, Some (str "MIT"))] ->
         exists reports : list rstr, scan_package (VulnerabilitySource := sample_scanner) name version = Ok reports
           /\ permitted policy name community license (if community then Community else Verified)
           /\ (reports ≠ [] -> minimum_grade policy = Risk /\ require_pgp policy = false).
Proof.
  destruct (prepared_plan_needs_evidence (H := sample_codecs) (H0 := sample_scanner) (sample_env false) None true
    [(str "bash", str "5", false, Some (str "MIT"))]) as (policy & Hp & Hall).
  - reflexivity.
  - vm_compute. reflexivity.
  - exists policy. split; [exact Hp|]. split; [|exact Hall].
    assert (Hd : load_default (H := sample_codecs) (sample_env false) None = Ok sample_policy) by (vm_compute; reflexivity).
    rewrite Hd in Hp. injection Hp as <-. reflexivity.
Defined.

Lemma inherited_policy_is_the_trusted_one_witness :
  exists policy, Some sample_policy = Some policy
    /\ load_default (H := sample_codecs) (sample_env true) None = Ok policy
    /\ policy_source (H := sample_codecs) (sample_env true) policy.
Proof.
  destruct (inherited_policy_is_the_trusted_one (H := sample_codecs) (sample_env true) None
    (str "__omg_policy=7b7d") (Some sample_policy)) as (_ & _ & policy & H1 & H2 & _ & H3).
  - vm_compute. reflexivity.
  - exists policy. split; [exact H1|]. split; [exact H2|exact H3].
Defined.

Lemma policy_handoff_roundtrip_witness :
  exists policy, load_default (H := sample_codecs) (sample_env false) None = Ok policy
    /\ inherit_policy (H := sample_codecs) (sample_env true) None (str "__omg_policy=7b7d") = Ok (Some policy)
    /\ load_default (H := sample_codecs) (sample_env true) (Some policy) = Ok policy.
Proof.
  apply (policy_handoff_roundtrip (H := sample_codecs) (sample_env false)).
  - apply unhex_hex.
  - apply hex_len.
  - intros p b E. simpl in E. destruct (decide (p = sample_policy)) as [->|]; [|discriminate]. injection E as <-.
    split; [repeat constructor; lia|reflexivity].
  - vm_compute. reflexivity.
  - reflexivity.
  - vm_compute. reflexivity.
Defined.
