(* ===== verification/AuditCore.v ===== *)
(** The tamper-evident audit log: src/src/core/security/audit.rs.

    The entry with its two hash preimages, the JSONL file operations of
    [AuditLogger] (append, rotation, verification, tail reading, recovery) and
    the field sanitizers. Files are byte lists; a directory entry that is not
    a regular file is [NodeOther]. File-system failures come from an oracle
    [fault], one answer per operation, so every error path of the code is a
    path of the model; a failed write leaves the first [torn] bytes. SHA-256
    (in hex) and serde_json are the operations of [AuditCodec]. Clock, UUID
    and the [USER] variable are arguments. Advisory locking is not modelled:
    an operation is one atomic step, as the exclusive lock makes it. *)

From S2P Require Import Prelude.
Open Scope Z_scope.
Open Scope omg_scope.

Definition DEFAULT_MAX_AUDIT_BYTES : Z := 16 * 1024 * 1024.
Definition DEFAULT_AUDIT_ARCHIVES : nat := 5.
Definition MAX_AUDIT_FIELD_BYTES : nat := 4096.
Definition MAX_AUDIT_ENTRY_BYTES : Z := 128 * 1024.

(** * Data *)

Inductive AuditEventType :=
| PackageInstall | PackageRemove | PackageUpgrade | PackageDowngrade
| SecurityAudit | VulnerabilityDetected | SignatureVerified | SignatureFailed | PolicyViolated
| PolicyChanged | ConfigChanged
| DaemonStarted | DaemonStopped
| SbomGenerated | SbomExported.

Inductive AuditSeverity := SevDebug | SevInfo | SevWarning | SevError | SevCritical.

#[export] Instance AuditEventType_eq_dec : EqDecision AuditEventType.
Proof. solve_decision. Defined.
#[export] Instance AuditSeverity_eq_dec : EqDecision AuditSeverity.
Proof. solve_decision. Defined.

(** [format!("{:?}", _)] of the derived [Debug]: the variant's name. *)
Definition event_debug (e : AuditEventType) : rstr :=
  str match e with
      | PackageInstall => "PackageInstall" | PackageRemove => "PackageRemove"
      | PackageUpgrade => "PackageUpgrade" | PackageDowngrade => "PackageDowngrade"
      | SecurityAudit => "SecurityAudit" | VulnerabilityDetected => "VulnerabilityDetected"
      | SignatureVerified => "SignatureVerified" | SignatureFailed => "SignatureFailed"
      | PolicyViolated => "PolicyViolation" | PolicyChanged => "PolicyChanged"
      | ConfigChanged => "ConfigChanged" | DaemonStarted => "DaemonStarted"
      | DaemonStopped => "DaemonStopped" | SbomGenerated => "SbomGenerated"
      | SbomExported => "SbomExported"
      end.

Definition severity_debug (s : AuditSeverity) : rstr :=
  str match s with
      | SevDebug => "Debug" | SevInfo => "Info" | SevWarning => "Warning"
      | SevError => "Error" | SevCritical => "Critical"
      end.

Definition severity_value (s : AuditSeverity) : Z :=
  match s with SevDebug => 0 | SevInfo => 1 | SevWarning => 2 | SevError => 3 | SevCritical => 4 end.

Record AuditEntry (Value : Type) := {
  entry_id : rstr;
  entry_timestamp : rstr;
  entry_event : AuditEventType;
  entry_severity : AuditSeverity;
  entry_user : rstr;
  entry_resource : rstr;
  entry_description : rstr;
  entry_metadata : option Value;
  entry_prev_hash : rstr;
  entry_hash_version : Z;
  entry_hash : option rstr
}.
Arguments entry_id {_}. Arguments entry_timestamp {_}. Arguments entry_event {_}.
Arguments entry_severity {_}. Arguments entry_user {_}. Arguments entry_resource {_}.
Arguments entry_description {_}. Arguments entry_metadata {_}. Arguments entry_prev_hash {_}.
Arguments entry_hash_version {_}. Arguments entry_hash {_}.

Definition set_hash {Value} (e : AuditEntry Value) (h : option rstr) : AuditEntry Value :=
  {| entry_id := entry_id e; entry_timestamp := entry_timestamp e; entry_event := entry_event e;
     entry_severity := entry_severity e; entry_user := entry_user e; entry_resource := entry_resource e;
     entry_description := entry_description e; entry_metadata := entry_metadata e;
     entry_prev_hash := entry_prev_hash e; entry_hash_version := entry_hash_version e; entry_hash := h |}.

Definition HASH_VERSION_LEGACY : Z := 0.
Definition HASH_VERSION_LENGTH_PREFIXED : Z := 1.

(** SHA-256 printed in hexadecimal, JSON values and JSON entries. *)
Class AuditCodec (Value : Type) := {
  sha256_hex : list Z -> rstr;
  value_to_string : Value -> rstr;
  entry_to_json : AuditEntry Value -> option rstr;
  entry_from_json : rstr -> option (AuditEntry Value)
}.

Inductive AuditError :=
| AuditOpen (source : Z)
| AuditRead
| AuditWrite
| AuditSerialize
| AuditCorruptLine (line : Z)
| AuditMissingHash (line : Z)
| AuditEntryInvariant.

(** The two [io::ErrorKind]s that [AuditOpen] carries. *)
Definition KIND_NOT_FOUND : Z := 0.
Definition KIND_INVALID_INPUT : Z := 1.
Definition KIND_OTHER : Z := 2.

(** * Sanitizers *)

(** Lowercase hexadecimal digits of a control character's code point. *)
Definition lower_hex_digit (n : Z) : char := if n <? 10 then ch "0" + n else ch "a" + n - 10.

Definition lower_hex (n : Z) : rstr :=
  if n <? 16 then [lower_hex_digit n] else [lower_hex_digit (n / 16); lower_hex_digit (n mod 16)].

Definition escape_char (c : char) : rstr :=
  if c =? 10 then str "\n"
  else if c =? 13 then str "\r"
  else if c =? 9 then str "\t"
  else if is_control c then str "\u{" ++ lower_hex c ++ str "}"
  else [c].

Definition tracing_safe_audit_text (value : rstr) : rstr := value ≫= escape_char.

(** [&value[..end]] when [end] is a character boundary. *)
Fixpoint prefix_at (end_ : Z) (value : rstr) : option rstr :=
  if end_ =? 0 then Some []
  else
    match value with
    | [] => None
    | c :: value => if end_ <? len_utf8 c then None else cons c <$> prefix_at (end_ - len_utf8 c) value
    end.

(** The loop that moves [end] back to a character boundary. *)
Fixpoint back_to_boundary (end_ : nat) (value : rstr) : rstr :=
  match prefix_at (Z.of_nat end_) value with
  | Some p => p
  | None => match end_ with O => [] | S end_ => back_to_boundary end_ value end
  end.

Definition bounded_audit_field (value : rstr) : rstr :=
  if str_len value <=? Z.of_nat MAX_AUDIT_FIELD_BYTES then value
  else back_to_boundary MAX_AUDIT_FIELD_BYTES value.

(** * Hashing *)

Definition update_length_prefixed (field : list Z) : list Z :=
  be_bytes 8 (Z.min (Z.of_nat (length field)) u64_max) ++ field.

Section hashing.
Context {Value : Type} `{AuditCodec Value}.

Definition legacy_preimage (e : AuditEntry Value) : list Z :=
  as_bytes (entry_id e) ++ as_bytes (entry_timestamp e) ++ as_bytes (event_debug (entry_event e))
  ++ as_bytes (severity_debug (entry_severity e)) ++ as_bytes (entry_user e)
  ++ as_bytes (entry_resource e) ++ as_bytes (entry_description e)
  ++ match entry_metadata e with Some meta => as_bytes (value_to_string meta) | None => [] end
  ++ as_bytes (entry_prev_hash e).

Definition metadata_text (e : AuditEntry Value) : rstr :=
  match entry_metadata e with Some meta => value_to_string meta | None => [] end.

(** The fields the length-prefixed encoding covers, in order. *)
Definition hashed_fields (e : AuditEntry Value) : list rstr :=
  [entry_id e; entry_timestamp e; event_debug (entry_event e); severity_debug (entry_severity e);
   entry_user e; entry_resource e; entry_description e; metadata_text e; entry_prev_hash e].

Definition prefixed_preimage (e : AuditEntry Value) : list Z :=
  [0xff; entry_hash_version e] ++ (hashed_fields e ≫= fun f => update_length_prefixed (as_bytes f)).

Definition preimage (e : AuditEntry Value) : list Z :=
  if entry_hash_version e =? HASH_VERSION_LEGACY then legacy_preimage e else prefixed_preimage e.

Definition compute_hash (e : AuditEntry Value) : rstr := sha256_hex (preimage e).

Definition verify (e : AuditEntry Value) : bool :=
  if HASH_VERSION_LENGTH_PREFIXED <? entry_hash_version e then false
  else match entry_hash e with
       | Some hash => str_eqb (compute_hash e) hash
       | None => false
       end.

End hashing.

(** * Files *)

(** [NodeOther] exists but is no regular file: a directory, a FIFO, a symlink
    to something that exists. *)
Inductive Node := NodeRegular (bytes : list Z) | NodeOther.

(** The directory of one log: the active file, its archives by index, the
    incompleteness marker and the quarantined logs. *)
Record AuditDir := {
  log_file : option Node;
  archives : gmap nat Node;
  incomplete_marker : bool;
  quarantined : list Node
}.

Definition set_log (d : AuditDir) (n : option Node) : AuditDir :=
  {| log_file := n; archives := archives d; incomplete_marker := incomplete_marker d;
     quarantined := quarantined d |}.

Definition set_archives (d : AuditDir) (a : gmap nat Node) : AuditDir :=
  {| log_file := log_file d; archives := a; incomplete_marker := incomplete_marker d;
     quarantined := quarantined d |}.

(** The operations that can fail for reasons outside the model. *)
Inductive FsOp :=
| OpStat | OpRemoveLog | OpRemoveOldest | OpRenameArchive (index : nat) | OpRenameLog
| OpRead | OpOpenAppend | OpReadLastByte | OpNewline | OpWriteEntry | OpSync
| OpMark | OpSyncDir (call : nat) | OpQuarantine.

(** ** A state and error monad over the directory *)

Definition AuditM (A : Type) : Type := AuditDir -> AuditDir * result A AuditError.

Definition ret {A} (a : A) : AuditM A := fun d => (d, Ok a).
Definition raise {A} (e : AuditError) : AuditM A := fun d => (d, Err e).
Definition bind {A B} (m : AuditM A) (k : A -> AuditM B) : AuditM B := fun d =>
  match m d with
  | (d, Ok a) => k a d
  | (d, Err e) => (d, Err e)
  end.
Definition get_dir : AuditM AuditDir := fun d => (d, Ok d).
Definition put_dir (d : AuditDir) : AuditM unit := fun _ => (d, Ok tt).

Notation "'let!' x := m 'in' k" := (bind m (fun x => k))
  (at level 10, x binder, m at level 100, k at level 200) : omg_scope.
Notation "m ;! k" := (bind m (fun _ => k)) (at level 100, right associativity) : omg_scope.

(** [anyhow]-free helper: fail with [e] when the oracle says so. *)
Definition guard_fault (fault : bool) (e : AuditError) : AuditM unit :=
  if fault then raise e else ret tt.

Definition lift {A} (r : result A AuditError) : AuditM A := fun d => (d, r).

(** [open_regular_audit_file] with [O_NOFOLLOW], read-only. *)
Definition open_read_file (d : AuditDir) : result (list Z) AuditError :=
  match log_file d with
  | None => Err (AuditOpen KIND_NOT_FOUND)
  | Some NodeOther => Err (AuditOpen KIND_INVALID_INPUT)
  | Some (NodeRegular bytes) => Ok bytes
  end.

Section log.
Context {Value : Type} `{AuditCodec Value}.

Definition genesis : rstr := str "genesis".

Definition is_newline (b : Z) : bool := (b =? 10) || (b =? 13).

(** [get_last_hash]: the hash of the last entry, read from the tail. *)
Definition get_last_hash (fault : FsOp -> bool) (d : AuditDir) : result rstr AuditError :=
  match open_read_file d with
  | Err (AuditOpen kind) => if kind =? KIND_NOT_FOUND then Ok genesis else Err (AuditOpen kind)
  | Err e => Err e
  | Ok bytes =>
      let length_ := Z.of_nat (length bytes) in
      if fault OpRead then Err AuditRead
      else if length_ =? 0 then Ok genesis
      else
        let tail_start := saturating_sub64 length_ (MAX_AUDIT_ENTRY_BYTES + 2) in
        let tail := drop (Z.to_nat tail_start) bytes in
        let tail := rev (trim_start_matches is_newline (rev tail)) in
        match tail with
        | [] => Ok genesis
        | _ =>
            let? (line, line_number) :=
              match rsplit_once 10 tail with
              | Some (before_, line) =>
                  Ok (line, if tail_start =? 0
                            then Z.of_nat (length (List.filter (Z.eqb 10) before_)) + 2 else 0)
              | None => if 0 <? tail_start then Err AuditRead else Ok (tail, 1)
              end in
            let? line := ok_or (decode_utf8 line) AuditRead in
            let? entry := ok_or (entry_from_json line) (AuditCorruptLine line_number) in
            ok_or (entry_hash entry) (AuditMissingHash line_number)
        end
  end.

(** * Rotation *)

(** The loop over [(1..max_archives).rev()], from index [n] down. *)
Fixpoint shift_archives (fault : FsOp -> bool) (n : nat) : AuditM unit :=
  match n with
  | O => ret tt
  | S n' =>
      let! d := get_dir in
      guard_fault (fault (OpRenameArchive n)) AuditWrite ;!
      (match archives d !! n with
       | Some node => put_dir (set_archives d (<[S n := node]> (delete n (archives d))))
       | None => ret tt
       end) ;!
      shift_archives fault n'
  end.

Definition rotate_if_needed (fault : FsOp -> bool) (max_bytes : Z) (max_archives : nat) : AuditM unit :=
  let! d := get_dir in
  match log_file d with
  | None => if fault OpStat then raise (AuditOpen KIND_OTHER) else ret tt
  | Some NodeOther =>
      if fault OpStat then raise (AuditOpen KIND_OTHER) else raise (AuditOpen KIND_INVALID_INPUT)
  | Some (NodeRegular bytes) =>
      if fault OpStat then raise (AuditOpen KIND_OTHER)
      else if Z.of_nat (length bytes) <? max_bytes then ret tt
      else
        match max_archives with
        | O => guard_fault (fault OpRemoveLog) AuditWrite ;! put_dir (set_log d None)
        | S n =>
            guard_fault (fault OpRemoveOldest) AuditWrite ;!
            put_dir (set_archives d (delete max_archives (archives d))) ;!
            shift_archives fault n ;!
            guard_fault (fault OpRenameLog) AuditWrite ;!
            let! d := get_dir in
            put_dir (set_log (set_archives d (<[1%nat := NodeRegular bytes]> (archives d))) None)
        end
  end.

(** * Appending *)

(** [open_append_file] creates a missing log. *)
Definition open_append_file (fault : FsOp -> bool) : AuditM (list Z) :=
  guard_fault (fault OpOpenAppend) (AuditOpen KIND_OTHER) ;!
  let! d := get_dir in
  match log_file d with
  | None => put_dir (set_log d (Some (NodeRegular []))) ;! ret []
  | Some NodeOther => raise (AuditOpen KIND_INVALID_INPUT)
  | Some (NodeRegular bytes) => ret bytes
  end.

(** Write [data] at the end of the log; when it fails, [torn] bytes made it. *)
Definition append_bytes (failed : bool) (torn : nat) (data : list Z) : AuditM unit :=
  let! d := get_dir in
  match log_file d with
  | Some (NodeRegular bytes) =>
      if failed then put_dir (set_log d (Some (NodeRegular (bytes ++ take torn data)))) ;! raise AuditWrite
      else put_dir (set_log d (Some (NodeRegular (bytes ++ data))))
  | _ => raise AuditWrite
  end.

Definition ensure_trailing_newline (fault : FsOp -> bool) (torn : nat) (bytes : list Z) : AuditM unit :=
  guard_fault (fault OpReadLastByte) AuditWrite ;!
  match last bytes with
  | None => ret tt
  | Some b => if b =? 10 then ret tt else append_bytes (fault OpNewline) torn [10]
  end.

(** What the caller and the environment supply for one entry. *)
Record LogRequest := {
  req_event : AuditEventType;
  req_severity : AuditSeverity;
  req_resource : rstr;
  req_description : rstr;
  req_timestamp : rstr;
  req_uuid : rstr;
  req_user : option rstr
}.

Definition new_entry (r : LogRequest) (prev_hash : rstr) : AuditEntry Value :=
  let entry :=
    {| entry_id := req_uuid r; entry_timestamp := req_timestamp r; entry_event := req_event r;
       entry_severity := req_severity r;
       entry_user := bounded_audit_field (default (str "unknown") (req_user r));
       entry_resource := bounded_audit_field (req_resource r);
       entry_description := bounded_audit_field (req_description r);
       entry_metadata := None; entry_prev_hash := prev_hash;
       entry_hash_version := HASH_VERSION_LENGTH_PREFIXED; entry_hash := None |} in
  set_hash entry (Some (compute_hash entry)).

(** The second half of [log_locked], once the log is open with [bytes] in it. *)
Definition write_entry (fault : FsOp -> bool) (torn : nat) (bytes : list Z) (entry : AuditEntry Value)
  : AuditM rstr :=
  ensure_trailing_newline fault torn bytes ;!
  let! json := lift (ok_or (entry_to_json entry) AuditSerialize) in
  append_bytes (fault OpWriteEntry) torn (as_bytes json ++ [10]) ;!
  guard_fault (fault OpSync) AuditWrite ;!
  lift (ok_or (entry_hash entry) AuditEntryInvariant).

(** [log_locked]: the new value of [last_hash]. *)
Definition log_locked (fault : FsOp -> bool) (torn : nat) (max_bytes : Z) (max_archives : nat)
    (r : LogRequest) : AuditM rstr :=
  rotate_if_needed fault max_bytes max_archives ;!
  let! d := get_dir in
  let! prev_hash := lift (get_last_hash fault d) in
  let entry := new_entry r prev_hash in
  let! bytes := open_append_file fault in
  write_entry fault torn bytes entry.

(** * Verification *)

Record AuditIntegrityReport := {
  total_entries : Z;
  valid_entries : Z;
  chain_valid : bool;
  first_invalid_entry : option rstr
}.

Definition is_valid (r : AuditIntegrityReport) : bool :=
  chain_valid r && (total_entries r =? valid_entries r).

(** The loop's variables: the report so far and [expected_prev_hash]. *)
Definition first_or (o : option rstr) (id : rstr) : option rstr :=
  match o with Some x => Some x | None => Some id end.

Definition verify_line (s : AuditIntegrityReport * rstr) (line : list Z)
  : result (AuditIntegrityReport * rstr) AuditError :=
  let '(r, expected) := s in
  let? text := ok_or (decode_utf8 line) AuditRead in
  let total := total_entries r + 1 in
  Ok match entry_from_json text with
     | Some entry =>
         let ok := verify entry in
         let linked := str_eqb (entry_prev_hash entry) expected in
         ({| total_entries := total;
             valid_entries := if ok then valid_entries r + 1 else valid_entries r;
             chain_valid := chain_valid r && linked;
             first_invalid_entry :=
               if ok && linked then first_invalid_entry r
               else first_or (first_invalid_entry r) (entry_id entry) |},
          default expected (entry_hash entry))
     | None =>
         ({| total_entries := total; valid_entries := valid_entries r; chain_valid := false;
             first_invalid_entry := first_or (first_invalid_entry r)
               (str "line_" ++ to_string total) |},
          expected)
     end.

Definition empty_report : AuditIntegrityReport :=
  {| total_entries := 0; valid_entries := 0; chain_valid := true; first_invalid_entry := None |}.

Definition verify_integrity_unlocked (d : AuditDir) : result AuditIntegrityReport AuditError :=
  let? bytes := open_read_file d in
  let? s := for_each verify_line (empty_report, genesis) (byte_lines bytes) in
  Ok (fst s).

(** * Reading *)

Definition read_line_entry (s : Z * list (AuditEntry Value)) (line : list Z)
  : result (Z * list (AuditEntry Value)) AuditError :=
  let '(index, entries) := s in
  let? text := ok_or (decode_utf8 line) AuditRead in
  if str_eqb text [] then Ok (index + 1, entries)
  else
    let? entry := ok_or (entry_from_json text) (AuditCorruptLine (index + 1)) in
    Ok (index + 1, entries ++ [entry]).

Definition read_all_entries_unlocked (d : AuditDir) : result (list (AuditEntry Value)) AuditError :=
  match log_file d with
  | None => Ok []
  | Some _ =>
      let? bytes := open_read_file d in
      let? s := for_each read_line_entry (0, []) (byte_lines bytes) in
      Ok (snd s)
  end.

Definition get_recent (limit : nat) (d : AuditDir) : result (list (AuditEntry Value)) AuditError :=
  let? entries := read_all_entries_unlocked d in
  Ok (take limit (rev entries)).

Definition filter_by_severity (min_severity : AuditSeverity) (d : AuditDir)
  : result (list (AuditEntry Value)) AuditError :=
  let? entries := read_all_entries_unlocked d in
  Ok (List.filter (fun e => severity_value min_severity <=? severity_value (entry_severity e)) entries).

(** * Recovery *)

(** [quarantine_corrupt_audit_log]: the log is renamed to a fresh name. *)
Definition quarantine_corrupt_audit_log (fault : FsOp -> bool) : AuditM unit :=
  guard_fault (fault OpQuarantine) AuditWrite ;!
  let! d := get_dir in
  match log_file d with
  | Some node =>
      put_dir {| log_file := None; archives := archives d; incomplete_marker := incomplete_marker d;
                 quarantined := quarantined d ++ [node] |}
  | None => raise AuditWrite
  end.

Definition mark_audit_incomplete_at (fault : FsOp -> bool) : AuditM unit :=
  guard_fault (fault OpMark) AuditWrite ;!
  let! d := get_dir in
  put_dir {| log_file := log_file d; archives := archives d; incomplete_marker := true;
             quarantined := quarantined d |}.

(** [recover_audit_logger]: the [last_hash] of the logger it returns. *)
Definition recover_audit_logger (fault : FsOp -> bool) : AuditM rstr :=
  let! d := get_dir in
  match get_last_hash fault d with
  | Ok hash => ret hash
  | Err (AuditCorruptLine _) | Err (AuditMissingHash _) =>
      mark_audit_incomplete_at fault ;!
      guard_fault (fault (OpSyncDir 0)) AuditWrite ;!
      quarantine_corrupt_audit_log fault ;!
      guard_fault (fault (OpSyncDir 1)) AuditWrite ;!
      let! d := get_dir in
      lift (get_last_hash fault d)
  | Err e => raise e
  end.

End log.
