(* ===== verification/AuditChain.v ===== *)
(** Tamper evidence of the audit chain (src/src/core/security/audit.rs): the
    length-prefixed hash preimage determines every field of an entry and never
    coincides with a legacy preimage, so two verifying chains with the same
    final hash are the same chain or exhibit a SHA-256 collision. *)

From S2P Require Import Prelude AuditCore.
Open Scope Z_scope.
Open Scope omg_scope.

(** * Length-prefixed fields *)

Definition small (b : list Z) : Prop := Z.of_nat (length b) <= u64_max.

Lemma length_prefixed_inj x y r s :
  small x -> small y -> update_length_prefixed x ++ r = update_length_prefixed y ++ s -> x = y /\ r = s.
Proof.
  unfold update_length_prefixed, small. intros Hx Hy H. rewrite !Z.min_l in H by done.
  rewrite <- !app_assoc in H. apply app_inj_1 in H as [Hl H]; [|by rewrite !length_be_bytes].
  apply be_bytes_inj in Hl; [|unfold u64_max in *; lia..].
  apply app_inj_1 in H; [done|lia].
Qed.

Lemma fields_inj fs gs :
  Forall (fun f => valid_str f /\ small (as_bytes f)) fs ->
  Forall (fun f => valid_str f /\ small (as_bytes f)) gs ->
  length fs = length gs ->
  (fs ≫= fun f => update_length_prefixed (as_bytes f)) = (gs ≫= fun f => update_length_prefixed (as_bytes f)) ->
  fs = gs.
Proof.
  intros Hf. revert gs. induction Hf as [|f fs [Hv Hs] _ IH]; intros gs Hg Hlen H.
  - by destruct gs.
  - destruct gs as [|g gs]; [done|]. apply Forall_cons in Hg as [[Hvg Hsg] Hg]. cbn [mbind list_bind] in H.
    apply length_prefixed_inj in H as [Hfg H]; [|done..]. apply as_bytes_inj in Hfg as ->; [|done..].
    f_equal. apply IH; [done|simpl in Hlen; lia|exact H].
Qed.

Lemma event_debug_inj a b : event_debug a = event_debug b -> a = b.
Proof. destruct a, b; vm_compute; intros H; congruence. Qed.

Lemma severity_debug_inj a b : severity_debug a = severity_debug b -> a = b.
Proof. destruct a, b; vm_compute; intros H; congruence. Qed.

Lemma event_debug_valid a : valid_str (event_debug a).
Proof. destruct a; apply valid_str_compute; reflexivity. Qed.

Lemma severity_debug_valid a : valid_str (severity_debug a).
Proof. destruct a; apply valid_str_compute; reflexivity. Qed.

Section chain.
Context {Value : Type} `{AuditCodec Value}.

(** Strings of an entry are Rust strings that fit in memory. *)
Definition valid_entry (e : AuditEntry Value) : Prop :=
  Forall (fun f => valid_str f /\ small (as_bytes f))
    [entry_id e; entry_timestamp e; entry_user e; entry_resource e; entry_description e;
     metadata_text e; entry_prev_hash e].

Lemma hashed_fields_valid e :
  valid_entry e -> Forall (fun f => valid_str f /\ small (as_bytes f)) (hashed_fields e).
Proof.
  unfold valid_entry, hashed_fields. rewrite !Forall_cons.
  intros ([? ?] & [? ?] & [? ?] & [? ?] & [? ?] & [? ?] & [? ?] & _). split_and!; try done.
  - apply event_debug_valid.
  - unfold small, u64_max. destruct (entry_event e); vm_compute; discriminate.
  - apply severity_debug_valid.
  - unfold small, u64_max. destruct (entry_severity e); vm_compute; discriminate.
Qed.

(** Everything the hash covers agrees. *)
Definition same_content (a b : AuditEntry Value) : Prop :=
  entry_hash_version a = entry_hash_version b
  /\ entry_id a = entry_id b /\ entry_timestamp a = entry_timestamp b
  /\ entry_event a = entry_event b /\ entry_severity a = entry_severity b
  /\ entry_user a = entry_user b /\ entry_resource a = entry_resource b
  /\ entry_description a = entry_description b /\ metadata_text a = metadata_text b
  /\ entry_prev_hash a = entry_prev_hash b.

Lemma legacy_preimage_utf8 e : valid_entry e -> head (legacy_preimage e) ≠ Some 0xff.
Proof.
  intros He Hh. assert (Hall : Forall (fun b => 0 <= b < 0xF8) (legacy_preimage e)).
  { unfold valid_entry in He. rewrite !Forall_cons in He.
    destruct He as ([? _] & [? _] & [? _] & [? _] & [? _] & [? _] & [? _] & _).
    unfold legacy_preimage. rewrite !Forall_app. split_and!; try (by apply as_bytes_range).
    - apply as_bytes_range, event_debug_valid.
    - apply as_bytes_range, severity_debug_valid.
    - unfold metadata_text in *. destruct (entry_metadata e); [by apply as_bytes_range|constructor]. }
  destruct (legacy_preimage e) as [|b l]; [done|]. injection Hh as ->. apply Forall_cons in Hall as [? _]. lia.
Qed.

Lemma preimage_prefixed_inj a b :
  valid_entry a -> valid_entry b -> entry_hash_version a ≠ HASH_VERSION_LEGACY ->
  preimage a = preimage b -> same_content a b.
Proof.
  intros Ha Hb Hv. unfold preimage. rewrite (proj2 (Z.eqb_neq _ _) Hv).
  destruct (Z.eqb_spec (entry_hash_version b) HASH_VERSION_LEGACY) as [Hl|Hl]; intros E.
  - exfalso. apply (legacy_preimage_utf8 b Hb). by rewrite <- E.
  - unfold prefixed_preimage in E. apply app_inj_1 in E as [Hver E]; [|done]. injection Hver as Hver.
    apply fields_inj in E; [|by apply hashed_fields_valid..|done].
    unfold hashed_fields in E. injection E as ? ? He Hs ? ? ? ? ?.
    apply event_debug_inj in He. apply severity_debug_inj in Hs. done.
Qed.

(** * Chains *)

(** Entries that verify, each linked to its predecessor's hash. *)
Fixpoint chain_ok (prev : rstr) (es : list (AuditEntry Value)) : Prop :=
  match es with
  | [] => True
  | e :: es => verify e = true /\ entry_prev_hash e = prev /\ chain_ok (compute_hash e) es
  end.

(** The hash the next entry has to link to. *)
Definition tip (prev : rstr) (es : list (AuditEntry Value)) : rstr :=
  match last es with Some e => compute_hash e | None => prev end.

Lemma tip_snoc prev es e : tip prev (es ++ [e]) = compute_hash e.
Proof. unfold tip. by rewrite last_snoc. Qed.

Lemma tip_cons prev e es : tip prev (e :: es) = tip (compute_hash e) es.
Proof.
  unfold tip. destruct es as [|x es]; [done|]. rewrite last_cons_cons.
  destruct (last (x :: es)) eqn:E; [done|]. by apply last_None in E.
Qed.

Lemma chain_ok_app prev es1 es2 :
  chain_ok prev (es1 ++ es2) <-> chain_ok prev es1 /\ chain_ok (tip prev es1) es2.
Proof.
  revert prev; induction es1 as [|e es1 IH]; intros prev; [by unfold tip; simpl; tauto|].
  cbn [chain_ok app]. rewrite IH, tip_cons. tauto.
Qed.

Lemma verify_hash e : verify e = true -> entry_hash e = Some (compute_hash e).
Proof.
  unfold verify. case_match; [done|]. destruct (entry_hash e) as [h|]; [|done].
  unfold str_eqb. by intros ->%bool_decide_eq_true.
Qed.

(** Two different inputs with the same digest. *)
Definition collision : Prop :=
  exists b1 b2, b1 ≠ b2 /\ sha256_hex b1 = sha256_hex b2.

End chain.

(** * Sample entries *)

#[export] Instance AuditEntry_eq_dec : EqDecision (AuditEntry unit).
Proof. solve_decision. Defined.

(** A stand-in digest with the shape of SHA-256 in hex. *)
Definition sample_sha (b : list Z) : rstr :=
  let sum := foldl (fun a x => (a * 31 + x) mod 256) 7 b in
  repeat (ch "0") 62 ++ [lower_hex_digit (sum / 16); lower_hex_digit (sum mod 16)].

Definition bare_codec : AuditCodec unit :=
  {| sha256_hex := sample_sha; value_to_string := fun _ => str "null";
     entry_to_json := fun _ => None; entry_from_json := fun _ => None |}.

Definition sample_request : LogRequest :=
  {| req_event := PackageInstall; req_severity := SevInfo; req_resource := str "bash";
     req_description := str "installed"; req_timestamp := str "2025-01-01T00:00:00.000Z";
     req_uuid := str "id-1"; req_user := None |}.

Definition sample_entry : AuditEntry unit := new_entry (H := bare_codec) sample_request genesis.

(** The stand-in encoder knows the one entry of the example. *)
Definition sample_codec : AuditCodec unit :=
  {| sha256_hex := sample_sha; value_to_string := fun _ => str "null";
     entry_to_json := fun e => if decide (e = sample_entry) then Some (str "{1}") else None;
     entry_from_json := fun s => if str_eqb s (str "{1}") then Some sample_entry else None |}.

Lemma sample_entry_valid : valid_entry (H := sample_codec) sample_entry.
Proof.
  unfold valid_entry. repeat (apply Forall_cons; split); try apply Forall_nil_2;
    (split; [apply valid_str_compute; vm_compute; reflexivity|vm_compute; discriminate]).
Defined.

Lemma sample_sha_not_genesis b : sample_sha b ≠ genesis.
Proof. unfold sample_sha. simpl. discriminate. Defined.

(** * Properties *)

(** the current encoding binds the hash of an entry to its content: two
    entries with the same preimage, one of them in the length-prefixed
    encoding, agree on the encoding and on every hashed field. No shift of
    text between fields and no legacy entry can produce the same preimage. *)
Theorem preimage_binds_fields {Value} `{AuditCodec Value} (a b : AuditEntry Value) :
  valid_entry a -> valid_entry b -> entry_hash_version a ≠ HASH_VERSION_LEGACY ->
  preimage a = preimage b -> same_content a b.
Proof. apply preimage_prefixed_inj. Qed.

Lemma preimage_binds_fields_witness :
  same_content (H := sample_codec) sample_entry (set_hash sample_entry None).
Proof.
  apply (preimage_binds_fields (H := sample_codec)).
  - apply sample_entry_valid.
  - apply sample_entry_valid.
  - vm_compute. discriminate.
  - reflexivity.
Defined.

(** C3: the log is tamper evident up to its last hash: if two chains both
    verify from the genesis value and end in the same hash, and one consists of
    entries in the current encoding, then they agree entry by entry, or a
    SHA-256 collision is known. *)
Theorem chain_is_tamper_evident {Value} `{AuditCodec Value} (es1 es2 : list (AuditEntry Value)) :
  (forall b, sha256_hex b ≠ genesis) ->
  Forall valid_entry es1 -> Forall valid_entry es2 ->
  Forall (fun e => entry_hash_version e ≠ HASH_VERSION_LEGACY) es1 ->
  chain_ok genesis es1 -> chain_ok genesis es2 ->
  tip genesis es1 = tip genesis es2 ->
  Forall2 same_content es1 es2 \/ collision (Value := Value).
Proof.
  intros Hgen. revert es2. induction es1 as [|a es1 IH] using rev_ind; intros es2 Hv1 Hv2 Hver H1 H2 Ht.
  - destruct es2 as [|b es2 _] using rev_ind; [by left; constructor|].
    rewrite tip_snoc in Ht. by destruct (Hgen (preimage b)).
  - destruct es2 as [|b es2 _] using rev_ind; [rewrite tip_snoc in Ht; by destruct (Hgen (preimage a))|].
    rewrite !tip_snoc in Ht. apply Forall_app in Hv1 as [Hv1 [Hva _]%Forall_cons].
    apply Forall_app in Hv2 as [Hv2 [Hvb _]%Forall_cons]. apply Forall_app in Hver as [Hver [Hva' _]%Forall_cons].
    apply chain_ok_app in H1 as [H1 (_ & Hp1 & _)]. apply chain_ok_app in H2 as [H2 (_ & Hp2 & _)].
    destruct (decide (preimage a = preimage b)) as [E|E]; [|by right; exists (preimage a), (preimage b)].
    pose proof (preimage_prefixed_inj a b Hva Hvb Hva' E) as Hsame.
    assert (Hpp : entry_prev_hash a = entry_prev_hash b) by apply Hsame.
    destruct (IH es2 Hv1 Hv2 Hver H1 H2) as [Hf|?]; [congruence| |by right].
    left. apply Forall2_app; [done|]. by constructor.
Qed.

Lemma chain_is_tamper_evident_witness :
  Forall2 (same_content (H := sample_codec)) [sample_entry] [sample_entry]
  \/ collision (Value := unit) (H := sample_codec).
Proof.
  apply (chain_is_tamper_evident (H := sample_codec)).
  - intros b. apply sample_sha_not_genesis.
  - constructor; [apply sample_entry_valid|constructor].
  - constructor; [apply sample_entry_valid|constructor].
  - constructor; [vm_compute; discriminate|constructor].
  - vm_compute. repeat split.
  - vm_compute. repeat split.
  - reflexivity.
Defined.
