(* ===== verification/AuditLog.v ===== *)
(** The audit log on disk (src/src/core/security/audit.rs): verification
    accepts exactly the files whose lines form a chain, appending extends the
    chain and keeps it readable from the tail, rotation and every failure
    keep the bytes already written. *)

From S2P Require Import Prelude AuditCore AuditChain.
Open Scope Z_scope.
Open Scope omg_scope.

(** * Lines *)

(** A text that occupies one line. *)
Definition one_line (j : rstr) : Prop :=
  valid_str j /\ (10 ∉ j) /\ (13 ∉ j) /\ j ≠ [].

Lemma as_bytes_ascii_notin c j : 0 <= c < 0x80 -> valid_str j -> c ∉ j -> c ∉ as_bytes j.
Proof.
  intros Hc. induction 1 as [|x j Hx Hj IH]; intros Hn; [set_solver|].
  rewrite as_bytes_cons. apply is_scalar_range in Hx. apply not_elem_of_app. split; [|set_solver].
  assert (c ≠ x) by set_solver. unfold encode_utf8.
  utf8_cases; rewrite ?not_elem_of_cons; split_and!; try set_solver; Z.div_mod_to_equations; lia.
Qed.

Lemma as_bytes_nil j : as_bytes j = [] -> j = [].
Proof.
  destruct j as [|c j]; [done|]. rewrite as_bytes_cons. intros [E _]%app_eq_nil.
  by destruct (encode_utf8_nonempty c).
Qed.

(** The file holding one line per text. *)
Definition canonical (js : list rstr) : list Z := js ≫= fun j => as_bytes j ++ [10].

Lemma canonical_snoc js j : canonical (js ++ [j]) = canonical js ++ as_bytes j ++ [10].
Proof. unfold canonical. rewrite bind_app. simpl. by rewrite app_nil_r. Qed.

Lemma byte_lines_canonical js : Forall one_line js -> byte_lines (canonical js) = map as_bytes js.
Proof.
  intros Hjs. assert (canonical js = map as_bytes js ≫= fun l => l ++ [10]) as ->.
  { unfold canonical. clear Hjs. induction js as [|j js IH]; [done|]. simpl. by f_equal. }
  apply byte_lines_unlines, Forall_map. eapply Forall_impl; [exact Hjs|]. intros j (Hv & H10 & H13 & _). simpl.
  split; [apply as_bytes_ascii_notin; [lia|done..]|]. apply strip_cr_id, as_bytes_ascii_notin; [lia|done..].
Qed.

Section verification.
Context {Value : Type} `{AuditCodec Value}.

(** The lines of a file, decoded to entries. *)
Definition decodes (lines : list (list Z)) (es : list (AuditEntry Value)) : Prop :=
  Forall2 (fun l e => exists text, decode_utf8 l = Some text /\ entry_from_json text = Some e) lines es.

Definition step_report (s : AuditIntegrityReport * rstr) (e : AuditEntry Value) : AuditIntegrityReport * rstr :=
  let ok := verify e in
  let linked := str_eqb (entry_prev_hash e) s.2 in
  ({| total_entries := total_entries s.1 + 1;
      valid_entries := if ok then valid_entries s.1 + 1 else valid_entries s.1;
      chain_valid := chain_valid s.1 && linked;
      first_invalid_entry :=
        if ok && linked then first_invalid_entry s.1
        else first_or (first_invalid_entry s.1) (entry_id e) |},
   default s.2 (entry_hash e)).

Lemma verify_line_entry s l text e :
  decode_utf8 l = Some text -> entry_from_json text = Some e -> verify_line s l = Ok (step_report s e).
Proof. destruct s as [r expected]. unfold verify_line. intros Hd Hj. rewrite Hd. cbn [ok_or res_bind]. by rewrite Hj. Qed.

(** The counters never go back, and a defect is never repaired. *)
Definition report_le (r r' : AuditIntegrityReport) : Prop :=
  valid_entries r' - valid_entries r <= total_entries r' - total_entries r
  /\ (chain_valid r' = true -> chain_valid r = true).

Lemma verify_lines_le s lines s' :
  for_each verify_line s lines = Ok s' -> report_le s.1 s'.1.
Proof.
  revert s; induction lines as [|l lines IH]; intros s; cbn [for_each].
  - intros [= <-]. unfold report_le. split; [lia|done].
  - intros E. apply res_bind_Ok in E as (s1 & Hl & E). apply IH in E. revert E.
    destruct s as [r expected]. unfold verify_line in Hl. apply res_bind_Ok in Hl as (text & _ & [= <-]).
    unfold report_le. destruct (entry_from_json text) as [e|]; simpl; [|intros [? ?]; split; [lia|naive_solver]].
    destruct (verify e), (chain_valid r); simpl; intros [? ?]; split; try lia; naive_solver.
Qed.

(** From a defect-free state, staying defect-free means reading a chain. *)
Lemma verify_lines_valid r expected lines s' :
  for_each verify_line (r, expected) lines = Ok s' ->
  chain_valid s'.1 = true -> total_entries s'.1 - valid_entries s'.1 = total_entries r - valid_entries r ->
  exists es, decodes lines es /\ chain_ok expected es.
Proof.
  revert r expected; induction lines as [|l lines IH]; intros r expected; cbn [for_each].
  - intros _ _ _. exists []. split; [constructor|done].
  - intros E Hc Ht. apply res_bind_Ok in E as (s1 & Hl & E). unfold verify_line in Hl.
    apply res_bind_Ok in Hl as (text & Htext & Hs1). pose proof (verify_lines_le _ _ _ E) as [Hle Hch].
    specialize (Hch Hc). destruct (decode_utf8 l) as [x|] eqn:Ed; [|done]. injection Htext as ->.
    destruct (entry_from_json text) as [e|] eqn:Ej; injection Hs1 as <-; simpl in *; [|done].
    apply andb_prop in Hch as [Hcr Hlink]. unfold str_eqb in Hlink. apply bool_decide_eq_true in Hlink.
    destruct (verify e) eqn:Ev; [|lia].
    rewrite (verify_hash e Ev) in E. simpl in E.
    destruct (IH _ _ E Hc) as (es & Hd & Hes); [simpl; lia|].
    exists (e :: es). split; [constructor; eauto|]. done.
Qed.

Lemma verify_lines_chain r expected lines es :
  decodes lines es -> chain_ok expected es -> chain_valid r = true ->
  exists r', for_each verify_line (r, expected) lines = Ok (r', tip expected es)
    /\ chain_valid r' = true
    /\ total_entries r' - valid_entries r' = total_entries r - valid_entries r.
Proof.
  intros Hd. revert r expected; induction Hd as [|l e lines es (text & Ht & Hj) _ IH]; intros r expected Hes Hc.
  - exists r. done.
  - destruct Hes as (Hv & Hp & Hes). cbn [for_each]. rewrite (verify_line_entry _ l text e) by done.
    cbn [res_bind]. unfold step_report. rewrite (verify_hash e Hv), Hv. simpl.
    assert (str_eqb (entry_prev_hash e) expected = true) as -> by (by apply bool_decide_eq_true).
    rewrite Hc. cbn [andb].
    match goal with |- context [for_each _ (?r0, _) lines] =>
      destruct (IH r0 (compute_hash e) Hes eq_refl) as (r' & Hr & Hc' & Heq) end.
    exists r'. rewrite tip_cons. split_and!; [exact Hr|done|]. rewrite Heq. simpl. lia.
Qed.

End verification.

(** [verify_integrity] accepts a log exactly when every line of the file
    decodes to an entry whose stored hash is the hash of its content and
    whose [prev_hash] is the hash of the entry before it, starting from
    genesis. *)
Theorem verify_integrity_accepts_chains {Value} `{AuditCodec Value} (d : AuditDir) bytes :
  open_read_file d = Ok bytes ->
  (exists r, verify_integrity_unlocked d = Ok r /\ is_valid r = true) <->
  exists es : list (AuditEntry Value), decodes (byte_lines bytes) es /\ chain_ok genesis es.
Proof.
  intros Ho. unfold verify_integrity_unlocked. rewrite Ho. cbn [res_bind]. split.
  - intros (r & E & Hv). apply res_bind_Ok in E as (s & E & [= <-]).
    apply andb_prop in Hv as [Hc Ht]. apply Z.eqb_eq in Ht.
    eapply verify_lines_valid; [exact E|done|]. simpl. lia.
  - intros (es & Hd & Hes). destruct (verify_lines_chain empty_report genesis _ es Hd Hes eq_refl)
      as (r & -> & Hc & Ht). exists r. split; [done|]. unfold is_valid. rewrite Hc. simpl in *.
    apply Z.eqb_eq. lia.
Qed.

(** * The tail of a canonical file *)

Lemma trim_start_matches_stop p s : (forall c s', s = c :: s' -> p c = false) -> trim_start_matches p s = s.
Proof. destruct s as [|c s]; intros Hs; [done|]. simpl. by rewrite (Hs c s eq_refl). Qed.

(** Trailing line terminators are cut off after a line without any. *)
Lemma cut_terminators x l :
  l ≠ [] -> (10 ∉ l) -> (13 ∉ l) ->
  rev (trim_start_matches is_newline (rev (x ++ l ++ [10]))) = x ++ l.
Proof.
  intros Hne H10 H13. rewrite !rev_app_distr. cbn [rev app trim_start_matches is_newline Z.eqb orb].
  change (is_newline 10) with true. cbn iota.
  destruct l as [|b l _] using rev_ind; [done|]. rewrite rev_app_distr. cbn [rev app].
  rewrite trim_start_matches_stop.
  - rewrite <- (rev_involutive (x ++ l ++ [b])). f_equal. rewrite !rev_app_distr. done.
  - intros c s' [= <- _]. unfold is_newline. apply orb_false_intro; apply Z.eqb_neq; set_solver.
Qed.

(** Suffixes of a canonical file end with a line feed. *)
Lemma canonical_suffix js n :
  drop n (canonical js) = [] \/ exists x, drop n (canonical js) = x ++ [10].
Proof.
  destruct (decide (n < length (canonical js))%nat) as [Hn|Hn]; [|left; apply drop_ge; lia].
  destruct js as [|j js _] using rev_ind; [simpl in Hn; lia|]. right.
  rewrite canonical_snoc, app_assoc in *. rewrite length_app in Hn. simpl in Hn.
  exists (drop n (canonical js ++ as_bytes j)). by rewrite drop_app_le by lia.
Qed.

Section tail.
Context {Value : Type} `{AuditCodec Value}.

Abbreviation no_fault := (fun _ : FsOp => false).

Lemma get_last_hash_canonical d js j e h :
  log_file d = Some (NodeRegular (canonical (js ++ [j]))) ->
  one_line j -> str_len j <= MAX_AUDIT_ENTRY_BYTES ->
  entry_from_json j = Some e -> entry_hash e = Some h ->
  get_last_hash no_fault d = Ok h.
Proof.
  intros Hd (Hv & H10 & H13 & Hne) Hlen Hj Hh. unfold get_last_hash, open_read_file. rewrite Hd. cbn iota beta.
  rewrite canonical_snoc. set (bytes := canonical js ++ as_bytes j ++ [10]).
  assert (Hb10 : 10 ∉ as_bytes j) by (by apply as_bytes_ascii_notin; [lia|..]).
  assert (Hb13 : 13 ∉ as_bytes j) by (by apply as_bytes_ascii_notin; [lia|..]).
  assert (Hbne : as_bytes j ≠ []) by (intros ?%as_bytes_nil; done).
  assert (Hlb : length bytes = (length (canonical js) + length (as_bytes j) + 1)%nat)
    by (subst bytes; rewrite !length_app; simpl; lia).
  destruct (Z.eqb_spec (Z.of_nat (length bytes)) 0); [lia|].
  set (start := saturating_sub64 (Z.of_nat (length bytes)) (MAX_AUDIT_ENTRY_BYTES + 2)).
  unfold str_len in Hlen.
  assert (Hs : start = 0 \/ 0 < start < Z.of_nat (length (canonical js)))
    by (unfold start, saturating_sub64; lia).
  assert (Hdrop : drop (Z.to_nat start) bytes = drop (Z.to_nat start) (canonical js) ++ as_bytes j ++ [10])
    by (subst bytes; apply drop_app_le; lia).
  rewrite Hdrop, cut_terminators by done.
  destruct (drop (Z.to_nat start) (canonical js) ++ as_bytes j) as [|b rest] eqn:E;
    [by apply app_eq_nil in E as [_ E]|]. rewrite <- E. clear E b rest.
  destruct (canonical_suffix js (Z.to_nat start)) as [Hx|[x Hx]]; rewrite Hx; cbn [app].
  - assert (rsplit_once 10 (as_bytes j) = None) as ->.
    { destruct (rsplit_once 10 (as_bytes j)) as [[? ?]|] eqn:E; [|done]. apply rsplit_once_Some in E as [E _].
      rewrite E in Hb10. set_solver. }
    assert (start = 0) as -> by (apply (f_equal length) in Hx; rewrite length_drop in Hx; simpl in Hx; lia).
    simpl. rewrite decode_as_bytes by done. simpl. rewrite Hj. simpl. by rewrite Hh.
  - assert (rsplit_once 10 ((x ++ [10]) ++ as_bytes j) = Some (x, as_bytes j)) as ->
      by (apply rsplit_once_Some; by rewrite <- app_assoc).
    cbn [res_bind]. rewrite decode_as_bytes by done. simpl. rewrite Hj. simpl. by rewrite Hh.
Qed.

(** * What the codec is relied on for *)

Class AuditCodecLaws : Prop := {
  hash_valid : forall b, valid_str (sha256_hex b);
  hash_len : forall b, str_len (sha256_hex b) = 64;
  json_roundtrip : forall e j, entry_to_json e = Some j -> entry_from_json j = Some e;
  json_one_line : forall e j, entry_to_json e = Some j -> one_line j;
  json_size : forall e j, entry_metadata e = None -> entry_to_json e = Some j ->
    str_len j <= 512 + 6 * (str_len (entry_id e) + str_len (entry_timestamp e) + str_len (entry_user e)
      + str_len (entry_resource e) + str_len (entry_description e) + str_len (entry_prev_hash e)
      + str_len (default [] (entry_hash e)))
}.

(** A log the program wrote: missing, or canonical lines that chain. *)
Definition log_holds (d : AuditDir) (es : list (AuditEntry Value)) : Prop :=
  (log_file d = None /\ es = [])
  \/ exists js, log_file d = Some (NodeRegular (canonical js))
       /\ Forall (fun j => one_line j /\ str_len j <= MAX_AUDIT_ENTRY_BYTES) js
       /\ Forall2 (fun j e => entry_from_json j = Some e) js es
       /\ chain_ok genesis es.

Lemma log_holds_tip d es : log_holds d es -> get_last_hash no_fault d = Ok (tip genesis es).
Proof.
  intros [[Hd ->]|(js & Hd & Hl & Hj & Hc)]; [unfold get_last_hash, open_read_file; by rewrite Hd|].
  destruct es as [|e es _] using rev_ind.
  - apply Forall2_nil_inv_r in Hj as ->. unfold get_last_hash, open_read_file. by rewrite Hd.
  - apply Forall2_app_inv_r in Hj as (js1 & js2 & _ & Hj & ->).
    apply Forall2_cons_inv_r in Hj as (j & js3 & Hj & H3 & ->). apply Forall2_nil_inv_r in H3 as ->.
    apply Forall_app in Hl as [_ [[Hol Hsz] _]%Forall_cons]. apply chain_ok_app in Hc as [_ (Hv & _)].
    rewrite tip_snoc. eapply get_last_hash_canonical; eauto using verify_hash.
Qed.

Lemma new_entry_verifies r prev :
  verify (new_entry r prev : AuditEntry Value) = true
  /\ entry_hash (new_entry r prev : AuditEntry Value) = Some (compute_hash (new_entry r prev : AuditEntry Value))
  /\ entry_prev_hash (new_entry r prev : AuditEntry Value) = prev.
Proof. split_and!; [|done..]. unfold verify. simpl. by apply bool_decide_eq_true. Qed.

End tail.

(** * Bounded fields *)

Lemma prefix_at_Some n v p : prefix_at n v = Some p -> str_len p = n /\ exists r, v = p ++ r.
Proof.
  revert n p; induction v as [|c v IH]; intros n p; simpl.
  - destruct (Z.eqb_spec n 0); [|done]. intros [= <-]. split; [done|by exists []].
  - destruct (Z.eqb_spec n 0); [intros [= <-]; split; [done|by eexists]|].
    destruct (Z.ltb_spec n (len_utf8 c)); [done|]. intros E. apply fmap_Some in E as (q & Hq & ->).
    apply IH in Hq as [Hn [r ->]]. rewrite str_len_cons. split; [lia|by exists r].
Qed.

Lemma prefix_at_None n v p r : v = p ++ r -> str_len p = n -> prefix_at n v = Some p.
Proof.
  revert n p; induction v as [|c v IH]; intros n p Hv Hn.
  - symmetry in Hv. apply app_eq_nil in Hv as [-> ->]. simpl. by subst n.
  - destruct p as [|x p]; [subst n; done|]. injection Hv as <- Hv. rewrite str_len_cons in Hn.
    pose proof (len_utf8_pos c). pose proof (str_len_nonneg p). simpl.
    destruct (Z.eqb_spec n 0); [lia|]. destruct (Z.ltb_spec n (len_utf8 c)); [lia|].
    rewrite (IH (n - len_utf8 c) p Hv); [done|lia].
Qed.

(** The longest prefix of at most [n] bytes that ends between characters. *)
Lemma back_to_boundary_spec n v :
  let p := back_to_boundary n v in
  str_len p <= Z.of_nat n /\ (exists r, v = p ++ r)
  /\ (forall q r, v = q ++ r -> str_len q <= Z.of_nat n -> str_len q <= str_len p).
Proof.
  induction n as [|n IH]; cbn [back_to_boundary].
  - assert (Hz : prefix_at (Z.of_nat 0) v = Some []) by (by destruct v). rewrite Hz.
    split; [done|]. split; [by exists v|]. intros q r _ Hq. change (str_len []) with 0. lia.
  - destruct (prefix_at (Z.of_nat (S n)) v) as [p|] eqn:E.
    + apply prefix_at_Some in E as [Hp Hr]. split; [lia|]. split; [done|]. intros. lia.
    + destruct IH as (H1 & H2 & H3). split; [lia|]. split; [done|]. intros q r Hv Hq.
      apply (H3 q r Hv). destruct (decide (str_len q = Z.of_nat (S n))) as [Hs|]; [|lia].
      rewrite (prefix_at_None _ v q r Hv Hs) in E. done.
Qed.

Lemma bounded_audit_field_len v : str_len (bounded_audit_field v) <= Z.of_nat MAX_AUDIT_FIELD_BYTES.
Proof.
  unfold bounded_audit_field. destruct (Z.leb_spec (str_len v) (Z.of_nat MAX_AUDIT_FIELD_BYTES)); [done|].
  apply back_to_boundary_spec.
Qed.

(** * The monad *)

Lemma bind_inv {A B} (m : AuditM A) (k : A -> AuditM B) d d' r :
  bind m k d = (d', r) ->
  (exists a d1, m d = (d1, Ok a) /\ k a d1 = (d', r)) \/ (exists e, m d = (d', Err e) /\ r = Err e).
Proof. unfold bind. destruct (m d) as [d1 [a|e]]; [eauto|]. intros [= <- <-]. eauto. Qed.

Lemma bind_Ok {A B} (m : AuditM A) (k : A -> AuditM B) d d1 a :
  m d = (d1, Ok a) -> bind m k d = k a d1.
Proof. unfold bind. by intros ->. Qed.

Lemma guard_fault_inv b e d d' r :
  guard_fault b e d = (d', r) -> d' = d /\ ((b = false /\ r = Ok tt) \/ (b = true /\ r = Err e)).
Proof. unfold guard_fault, raise, ret. destruct b; intros [= <- <-]; auto. Qed.

(** * Rotation *)

Lemma shift_archives_log fault n d d' r :
  shift_archives fault n d = (d', r) -> log_file d' = log_file d.
Proof.
  revert d; induction n as [|n IH]; intros d; cbn [shift_archives]; [by intros [= <- _]|].
  intros E. apply bind_inv in E as [(a & d1 & [= <- <-] & E)|(e & [=] & _)].
  apply bind_inv in E as [([] & d1 & Hg & E)|(e & Hg & _)]; apply guard_fault_inv in Hg as [-> _]; [|done].
  apply bind_inv in E as [([] & d1 & Hm & E)|(e & Hm & _)];
    (destruct (archives d !! S n); [injection Hm as <-|injection Hm as <-]); try done; by apply IH in E.
Qed.

(** Without failures every archive moves up by one. *)
Lemma shift_archives_ok n d :
  archives d !! S n = None ->
  exists a, shift_archives (fun _ => false) n d = (set_archives d a, Ok tt)
    /\ forall i, a !! i = if decide (2 <= i <= S n)%nat then archives d !! (i - 1)%nat
                          else if decide (i = 1 /\ 1 <= n)%nat then None else archives d !! i.
Proof.
  revert d; induction n as [|n IH]; intros d Hn; cbn [shift_archives].
  - exists (archives d). split; [by destruct d|]. intros i. rewrite !decide_False by lia. done.
  - set (a1 := match archives d !! S n with
               | Some node => <[S (S n) := node]> (delete (S n) (archives d))
               | None => archives d
               end).
    assert (Hstep : forall k : AuditM unit, bind (match archives d !! S n with
       | Some node => put_dir (set_archives d (<[S (S n) := node]> (delete (S n) (archives d))))
       | None => ret tt
       end) (fun _ => k) d = k (set_archives d a1)).
    { intros k. subst a1. unfold bind. destruct (archives d !! S n); [done|]. simpl. by destruct d. }
    unfold bind at 1. cbn [get_dir]. unfold bind at 1. cbn [guard_fault ret]. rewrite Hstep.
    assert (Ha1 : forall i, a1 !! i = if decide (i = S (S n)) then archives d !! S n
                                      else if decide (i = S n) then None else archives d !! i).
    { intros i. subst a1. destruct (archives d !! S n) as [node|] eqn:E.
      - rewrite lookup_insert, lookup_delete. repeat case_decide; congruence || lia.
      - repeat case_decide; congruence. }
    destruct (IH (set_archives d a1)) as (a & Ha & Hi).
    { simpl. rewrite Ha1. repeat case_decide; lia || done. }
    exists a. split; [exact Ha|]. intros i. rewrite Hi. simpl. rewrite !Ha1.
    repeat case_decide; try lia; try done; f_equal; lia.
Qed.

(** What rotation does to the log itself, failures included. *)
Lemma rotate_keeps_log fault mb ma d d' r b :
  log_file d = Some (NodeRegular b) -> rotate_if_needed fault mb ma d = (d', r) ->
  log_file d' = Some (NodeRegular b)
  \/ log_file d' = None /\ mb <= Z.of_nat (length b)
     /\ (ma = 0%nat \/ archives d' !! 1%nat = Some (NodeRegular b)).
Proof.
  intros Hd. unfold rotate_if_needed, bind at 1. cbn [get_dir]. rewrite Hd.
  destruct (fault OpStat); [intros [= <- _]; by left|].
  destruct (Z.ltb_spec (Z.of_nat (length b)) mb); [intros [= <- _]; by left|].
  destruct ma as [|n]; intros E.
  - apply bind_inv in E as [([] & d1 & Hg & E)|(e & Hg & _)]; apply guard_fault_inv in Hg as [-> _]; [|by left].
    injection E as <- _. right. simpl. auto.
  - apply bind_inv in E as [([] & d1 & Hg & E)|(e & Hg & _)]; apply guard_fault_inv in Hg as [-> _]; [|by left].
    apply bind_inv in E as [([] & d1 & [= <-] & E)|(e & [=] & _)].
    apply bind_inv in E as [([] & d2 & Hs & E)|(e & Hs & _)]; apply shift_archives_log in Hs; simpl in Hs; [|left; congruence].
    apply bind_inv in E as [([] & d3 & Hg & E)|(e & Hg & _)]; apply guard_fault_inv in Hg as [-> _]; [|left; congruence].
    injection E as <- _. right. simpl. rewrite lookup_insert_eq. auto.
Qed.

(** * Appending *)

(** The log holds [b] and possibly more. *)
Definition log_extends (d : AuditDir) (b : list Z) : Prop :=
  exists ext, log_file d = Some (NodeRegular (b ++ ext)).

Lemma append_bytes_extends failed torn data d d' r b :
  log_extends d b -> append_bytes failed torn data d = (d', r) ->
  log_extends d' b /\ archives d' = archives d.
Proof.
  intros [ext Hd]. unfold append_bytes, bind at 1. cbn [get_dir]. rewrite Hd. unfold log_extends.
  destruct failed; unfold bind, put_dir, raise; intros [= <- _]; simpl; (split; [|done]); rewrite <- app_assoc; eauto.
Qed.

Section append.
Context {Value : Type} `{AuditCodec Value}.

Lemma ensure_trailing_newline_extends fault torn bytes d d' r b :
  log_extends d b -> ensure_trailing_newline fault torn bytes d = (d', r) ->
  log_extends d' b /\ archives d' = archives d.
Proof.
  intros Hd Hn. unfold ensure_trailing_newline in Hn.
  apply bind_inv in Hn as [([] & d1 & Hg & Hn)|(e & Hg & _)]; apply guard_fault_inv in Hg as [-> _]; [|done].
  destruct (last bytes) as [x|]; [|by injection Hn as <- _].
  destruct (x =? 10); [by injection Hn as <- _|]. by eapply append_bytes_extends.
Qed.

Lemma write_entry_extends fault torn bytes (entry : AuditEntry Value) d d' r b :
  log_extends d b -> write_entry fault torn bytes entry d = (d', r) ->
  log_extends d' b /\ archives d' = archives d.
Proof.
  intros Hd E. unfold write_entry in E.
  apply bind_inv in E as [([] & d1 & Hn & E)|(e & Hn & _)];
    apply (ensure_trailing_newline_extends _ _ _ _ _ _ b Hd) in Hn as [H1 Ha1]; [|done].
  apply bind_inv in E as [(json & d2 & [= <- _] & E)|(e & [= <- _] & _)]; [|done].
  apply bind_inv in E as [([] & d2 & Ha & E)|(e & Ha & _)];
    apply (append_bytes_extends _ _ _ _ _ _ b H1) in Ha as [H2 Ha2]; [|split; congruence].
  apply bind_inv in E as [([] & d3 & Hg & E)|(e & Hg & _)]; apply guard_fault_inv in Hg as [-> _];
    [injection E as <- _|]; (split; [done|congruence]).
Qed.

Lemma open_append_file_inv fault d d' r :
  open_append_file fault d = (d', r) ->
  archives d' = archives d
  /\ (d' = d \/ log_file d = None /\ log_file d' = Some (NodeRegular []))
  /\ (forall bytes, r = Ok bytes -> log_file d' = Some (NodeRegular bytes)).
Proof.
  intros E. unfold open_append_file in E.
  apply bind_inv in E as [([] & d1 & Hg & E)|(e & Hg & ->)]; apply guard_fault_inv in Hg as [-> _];
    [|split_and!; [done|by left|done]].
  unfold bind at 1 in E. cbn [get_dir] in E.
  destruct (log_file d) as [[bytes|]|] eqn:Hl; injection E as <- <-; split_and!; auto; intros ? [= <-]; auto.
Qed.

(** After rotation, whatever happens only adds to the log. *)
Lemma log_locked_keeps fault torn mb ma req d d' r b :
  log_file d = Some (NodeRegular b) -> log_locked fault torn mb ma req d = (d', r) ->
  log_extends d' b
  \/ mb <= Z.of_nat (length b) /\ (ma = 0%nat \/ archives d' !! 1%nat = Some (NodeRegular b)).
Proof.
  intros Hd E. unfold log_locked in E.
  assert (Hbase : forall d0, log_file d0 = Some (NodeRegular b) -> log_extends d0 b)
    by (intros d0 Hd0; exists []; by rewrite app_nil_r).
  apply bind_inv in E as [([] & d1 & Hr & E)|(e & Hr & _)];
    apply (rotate_keeps_log _ _ _ _ _ _ _ Hd) in Hr; [|destruct Hr as [?|(? & ? & ?)]; auto].
  apply bind_inv in E as [(x & d2 & [= <- <-] & E)|(e & [=] & _)].
  apply bind_inv in E as [(prev & d2 & [= <- _] & E)|(e & [= <- _] & _)];
    [|destruct Hr as [?|(? & ? & ?)]; auto].
  apply bind_inv in E as [(bytes & d3 & Ho & E)|(e & Ho & ->)];
    apply open_append_file_inv in Ho as (Ha & Hl & Hb).
  - destruct Hr as [Hr|(Hr & Hmb & Har)].
    + destruct Hl as [->|[? _]]; [|congruence]. left.
      by apply (write_entry_extends _ _ _ _ _ _ _ b (Hbase _ Hr)) in E as [? _].
    + right. split; [done|]. destruct Har as [?|Har]; [by left|right].
      apply (write_entry_extends _ _ _ _ _ _ _ []) in E as [_ ->]; [congruence|].
      exists bytes. by apply Hb.
  - destruct Hr as [Hr|(Hr & Hmb & Har)].
    + destruct Hl as [->|[? _]]; [|congruence]. auto.
    + right. rewrite Ha. auto.
Qed.

Abbreviation no_fault := (fun _ : FsOp => false).

(** Sizes the environment supplies. *)
Definition small_request (r : LogRequest) : Prop := str_len (req_uuid r) <= 64 /\ str_len (req_timestamp r) <= 64.

Lemma new_entry_size {Hlaws : AuditCodecLaws} r es j :
  small_request r -> entry_to_json (new_entry r (tip genesis es) : AuditEntry Value) = Some j ->
  str_len j <= MAX_AUDIT_ENTRY_BYTES.
Proof.
  intros [Hu Ht] Hj. pose proof (json_size (new_entry r (tip genesis es)) j eq_refl Hj) as Hs. simpl in Hs.
  pose proof (bounded_audit_field_len (default (str "unknown") (req_user r))).
  pose proof (bounded_audit_field_len (req_resource r)). pose proof (bounded_audit_field_len (req_description r)).
  unfold compute_hash in Hs. rewrite hash_len in Hs.
  assert (Htip : str_len (tip genesis es) <= 64).
  { unfold tip, compute_hash. destruct (last es); [by rewrite hash_len|]. vm_compute. discriminate. }
  unfold MAX_AUDIT_FIELD_BYTES in *. unfold MAX_AUDIT_ENTRY_BYTES. lia.
Qed.

Lemma canonical_ends js d :
  log_file d = Some (NodeRegular (canonical js)) ->
  ensure_trailing_newline no_fault 0 (canonical js) d = (d, Ok tt).
Proof.
  intros _. unfold ensure_trailing_newline, bind. cbn [guard_fault ret].
  destruct js as [|j js _] using rev_ind; [done|]. by rewrite canonical_snoc, app_assoc, last_snoc.
Qed.

(** Writing one more line. *)
Lemma write_entry_canonical {Hlaws : AuditCodecLaws} js es r d j :
  small_request r ->
  log_file d = Some (NodeRegular (canonical js)) ->
  Forall (fun j => one_line j /\ str_len j <= MAX_AUDIT_ENTRY_BYTES) js ->
  Forall2 (fun j e => entry_from_json j = Some e) js es -> chain_ok genesis es ->
  let e := new_entry r (tip genesis es) : AuditEntry Value in
  entry_to_json e = Some j ->
  exists d', write_entry no_fault 0 (canonical js) e d = (d', Ok (compute_hash e))
    /\ archives d' = archives d /\ log_holds d' (es ++ [e]).
Proof.
  intros Hsm Hd Hl Hj Hc e Hjson. unfold write_entry. rewrite (bind_Ok _ _ _ _ _ (canonical_ends js d Hd)).
  rewrite (bind_Ok _ _ d d j) by (unfold lift; by rewrite Hjson). unfold append_bytes, bind. cbn [get_dir].
  rewrite Hd. eexists. split; [reflexivity|]. split; [done|]. right. exists (js ++ [j]). simpl.
  rewrite canonical_snoc. split_and!; [done| | |].
  - apply Forall_app. split; [done|]. constructor; [|done]. split; [by eapply json_one_line|by eapply new_entry_size].
  - apply Forall2_app; [done|]. constructor; [by apply json_roundtrip|done].
  - apply chain_ok_app. split; [done|]. destruct (new_entry_verifies r (tip genesis es)) as (? & _ & ?). done.
Qed.

(** Rotation without failures: the log stays, or starts over with an empty
    chain and the old file as newest archive. *)
Lemma rotate_ok mb ma d es :
  log_holds d es ->
  exists d', rotate_if_needed no_fault mb ma d = (d', Ok tt)
    /\ (d' = d /\ (forall b, log_file d = Some (NodeRegular b) -> Z.of_nat (length b) < mb)
        \/ exists b, log_file d = Some (NodeRegular b) /\ mb <= Z.of_nat (length b)
         /\ log_file d' = None
         /\ forall i, archives d' !! i =
              if decide (1 <= ma)%nat then
                if decide (i = 1)%nat then Some (NodeRegular b)
                else if decide (2 <= i <= ma)%nat then archives d !! (i - 1)%nat
                else archives d !! i
              else archives d !! i).
Proof.
  intros Hh. unfold rotate_if_needed, bind at 1. cbn [get_dir].
  destruct Hh as [[Hd _]|(js & Hd & _)]; rewrite Hd; [exists d; naive_solver|].
  destruct (Z.ltb_spec (Z.of_nat (length (canonical js))) mb); [exists d; naive_solver|].
  destruct ma as [|n].
  - eexists. split; [reflexivity|]. right. exists (canonical js). split_and!; [done..|]. intros i. by rewrite decide_False by lia.
  - unfold bind at 1. cbn [guard_fault ret]. unfold bind at 1. cbn [put_dir].
    set (d1 := set_archives d (delete (S n) (archives d))).
    destruct (shift_archives_ok n d1) as (a & Ha & Hi); [subst d1; simpl; apply lookup_delete_eq|].
    rewrite (bind_Ok _ _ _ _ _ Ha). eexists. split; [reflexivity|]. right. exists (canonical js).
    split_and!; [done..|]. intros i. cbn [set_log set_archives archives]. rewrite lookup_insert, Hi.
    subst d1. cbn [set_archives archives]. rewrite !lookup_delete.
    repeat case_decide; subst; try lia; done.
Qed.

End append.

Lemma log_holds_verifies {Value} `{AuditCodec Value} d (es : list (AuditEntry Value)) :
  log_holds d es -> log_file d ≠ None -> exists r, verify_integrity_unlocked d = Ok r /\ is_valid r = true.
Proof.
  intros [[? _]|(js & Hd & Hl & Hj & Hc)] Hne; [done|].
  unfold verify_integrity_unlocked, open_read_file. rewrite Hd. cbn [res_bind].
  rewrite byte_lines_canonical by (eapply Forall_impl; [exact Hl|]; naive_solver).
  assert (Hdec : decodes (map as_bytes js) es).
  { clear -Hl Hj. induction Hj as [|j e js es He _ IH]; [constructor|]. apply Forall_cons in Hl as [[[Hv _] _] Hl].
    constructor; [|by apply IH]. exists j. by rewrite decode_as_bytes. }
  destruct (verify_lines_chain empty_report genesis _ es Hdec Hc eq_refl) as (r & -> & Hc' & Ht).
  exists r. split; [done|]. unfold is_valid. rewrite Hc'. apply Z.eqb_eq. simpl in *. lia.
Qed.

(** C23: appending works and keeps the log verifiable: on a log the program
    wrote, when the file system cooperates, [log_locked] adds exactly one
    entry linked to the previous tail hash: to the log itself, with the
    archives untouched, while the log is below the size limit, and otherwise
    to a fresh log, after moving the full one to archive 1 and each older
    archive up by one; the new log verifies, and its tail hash is read back
    within the bounded window, so the next append can continue from it. *)
Theorem append_extends_chain {Value} `{AuditCodec Value} {Hlaws : AuditCodecLaws}
    (d : AuditDir) (es : list (AuditEntry Value)) mb ma req :
  log_holds d es -> small_request req ->
  (forall prev, prev = genesis \/ prev = tip genesis es ->
     is_Some (entry_to_json (new_entry req prev : AuditEntry Value))) ->
  exists d' es', let e := new_entry req (tip genesis es') : AuditEntry Value in
    log_locked (fun _ => false) 0 mb ma req d = (d', Ok (compute_hash e))
    /\ log_holds d' (es' ++ [e])
    /\ (exists r, verify_integrity_unlocked d' = Ok r /\ is_valid r = true)
    /\ get_last_hash (fun _ => false) d' = Ok (compute_hash e)
    /\ (es' = es /\ archives d' = archives d
          /\ (forall b, log_file d = Some (NodeRegular b) -> Z.of_nat (length b) < mb)
        \/ es' = [] /\ exists b, log_file d = Some (NodeRegular b) /\ mb <= Z.of_nat (length b)
             /\ forall i, archives d' !! i =
                  if decide (1 <= ma)%nat then
                    if decide (i = 1)%nat then Some (NodeRegular b)
                    else if decide (2 <= i <= ma)%nat then archives d !! (i - 1)%nat
                    else archives d !! i
                  else archives d !! i).
Proof.
  intros Hh Hsm Hjson. destruct (rotate_ok mb ma d es Hh) as (d1 & Hrot & Hcase).
  assert (Hgo : forall es' a, log_holds d1 es' -> archives d1 = a ->
    (exists j, entry_to_json (new_entry req (tip genesis es') : AuditEntry Value) = Some j) ->
    exists d', log_locked (fun _ => false) 0 mb ma req d
        = (d', Ok (compute_hash (new_entry req (tip genesis es') : AuditEntry Value)))
      /\ log_holds d' (es' ++ [new_entry req (tip genesis es')]) /\ archives d' = a /\ log_file d' ≠ None).
  { clear Hh Hcase Hjson. intros es' a Hh1 <- [j Hj]. unfold log_locked. rewrite (bind_Ok _ _ _ _ _ Hrot).
    unfold bind at 1. cbn [get_dir]. unfold bind at 1, lift at 1. rewrite (log_holds_tip d1 es' Hh1). cbn iota beta.
    assert (Hopen : exists d2 js, open_append_file (fun _ => false) d1 = (d2, Ok (canonical js))
      /\ archives d2 = archives d1 /\ log_file d2 = Some (NodeRegular (canonical js))
      /\ Forall (fun j => one_line j /\ str_len j <= MAX_AUDIT_ENTRY_BYTES) js
      /\ Forall2 (fun j e => entry_from_json j = Some e) js es' /\ chain_ok genesis es').
    { unfold open_append_file, bind. cbn [guard_fault ret get_dir].
      destruct Hh1 as [[Hd ->]|(js & Hd & Hl & Hjs & Hc)]; rewrite Hd.
      - eexists _, []. split; [reflexivity|]. split_and!; done || constructor.
      - exists d1, js. done. }
    destruct Hopen as (d2 & js & Ho & Ha & Hd2 & Hl & Hjs & Hc). rewrite (bind_Ok _ _ _ _ _ Ho).
    destruct (write_entry_canonical js es' req d2 j Hsm Hd2 Hl Hjs Hc Hj) as (d' & Hw & Ha' & Hh').
    exists d'. split_and!; [done|done|congruence|]. destruct Hh' as [[_ Hnil]|(? & -> & _)]; [|done].
    by destruct es'. }
  destruct Hcase as [[-> Hlt]|(b & Hb & Hmb & Hnone & Hi)].
  - destruct (Hgo es (archives d) Hh eq_refl) as (d' & H1 & H2 & H3 & H4); [apply Hjson; by right|].
    exists d', es. split_and!; [done|done|by eapply log_holds_verifies| |by left].
    apply log_holds_tip in H2. by rewrite tip_snoc in H2.
  - destruct (Hgo [] (archives d1)) as (d' & H1 & H2 & H3 & H4); [by left|done|apply Hjson; by left|].
    exists d', []. split_and!; [done|done|by eapply log_holds_verifies| |].
    + apply log_holds_tip in H2. by rewrite tip_snoc in H2.
    + right. split; [done|]. exists b. rewrite H3. done.
Qed.

(** whatever fails, nothing already written is lost: after [log_locked],
    with any file-system failures and any torn write, the bytes the log held
    are still a prefix of the log or are archive 1, unless the log had reached
    its size limit and the logger keeps no archives. *)
Theorem append_never_loses_bytes {Value} `{AuditCodec Value} fault torn mb ma req d d' r b :
  log_file d = Some (NodeRegular b) -> log_locked fault torn mb ma req d = (d', r) ->
  (exists ext, log_file d' = Some (NodeRegular (b ++ ext)))
  \/ mb <= Z.of_nat (length b) /\ (ma = 0%nat \/ archives d' !! 1%nat = Some (NodeRegular b)).
Proof. apply log_locked_keeps. Qed.

(** ** Witnesses *)

Lemma lower_hex_digit_ascii n : 0 <= n < 16 -> 0 <= lower_hex_digit n < 0x80.
Proof. intros Hn. unfold lower_hex_digit. ev_ch. destruct (Z.ltb_spec n 10); lia. Qed.

Lemma sample_sha_ascii b : Forall (fun c => 0 <= c < 0x80) (sample_sha b).
Proof.
  unfold sample_sha. apply Forall_app. split; [apply Forall_forall; intros x Hx; apply list_elem_of_In, repeat_spec in Hx as ->; ev_ch; lia|].
  assert (Hs : 0 <= foldl (fun a x => (a * 31 + x) mod 256) 7 b < 256).
  { destruct b as [|x b _] using rev_ind; [simpl; lia|]. rewrite foldl_app. simpl. apply Z.mod_pos_bound. lia. }
  repeat constructor; apply lower_hex_digit_ascii; Z.div_mod_to_equations; lia.
Qed.

Lemma sample_laws : AuditCodecLaws (H := sample_codec).
Proof.
  split; simpl.
  - intros b. eapply Forall_impl; [apply sample_sha_ascii|]. intros c Hc. cbv beta in *. unfold is_scalar. apply orb_true_iff. left.
    apply andb_true_intro. split; [apply Z.leb_le|apply Z.ltb_lt]; lia.
  - intros b. rewrite str_len_ascii; [unfold sample_sha; by rewrite length_app, repeat_length|].
    eapply Forall_impl; [apply sample_sha_ascii|]. intros c Hc. cbv beta in *. lia.
  - intros e j E. destruct (decide (e = sample_entry)) as [->|]; [|done]. by injection E as <-.
  - intros e j E. destruct (decide (e = sample_entry)) as [->|]; [|done]. injection E as <-.
    split_and!; [apply valid_str_compute; reflexivity|set_solver..].
  - intros e j _ E. destruct (decide (e = sample_entry)) as [->|]; [|done]. injection E as <-. vm_compute. discriminate.
Defined.

Definition empty_dir : AuditDir :=
  {| log_file := None; archives := ∅; incomplete_marker := false; quarantined := [] |}.

Lemma append_extends_chain_witness :
  exists d' es', let e := new_entry (H := sample_codec) sample_request (tip (H := sample_codec) genesis es') in
    log_locked (H := sample_codec) (fun _ => false) 0 1000 3 sample_request empty_dir
      = (d', Ok (compute_hash (H := sample_codec) e))
    /\ log_holds (H := sample_codec) d' (es' ++ [e]).
Proof.
  destruct (append_extends_chain (H := sample_codec) (Hlaws := sample_laws) empty_dir [] 1000 3 sample_request)
    as (d' & es' & H1 & H2 & _).
  - left. split; reflexivity.
  - split; vm_compute; discriminate.
  - intros prev [->| ->]; eexists; vm_compute; reflexivity.
  - exists d', es'. split; [exact H1|exact H2].
Defined.

Definition torn_dir : AuditDir :=
  {| log_file := Some (NodeRegular (canonical [str "{1}"])); archives := ∅; incomplete_marker := false;
     quarantined := [] |}.

Lemma append_never_loses_bytes_witness :
  let d' := (log_locked (H := sample_codec) (fun op => match op with OpSync => true | _ => false end) 0 1 3
               sample_request torn_dir).1 in
  (exists ext, log_file d' = Some (NodeRegular (canonical [str "{1}"] ++ ext)))
  \/ 1 <= Z.of_nat (length (canonical [str "{1}"]))
     /\ (3%nat = 0%nat \/ archives d' !! 1%nat = Some (NodeRegular (canonical [str "{1}"]))).
Proof.
  intros d'.
  apply (append_never_loses_bytes (H := sample_codec) (fun op => match op with OpSync => true | _ => false end) 0 1 3
    sample_request torn_dir d' (Err AuditWrite)); [reflexivity|].
  subst d'. vm_compute. reflexivity.
Defined.

Lemma verify_integrity_accepts_chains_witness :
  exists es : list (AuditEntry unit),
    decodes (H := sample_codec) (byte_lines (canonical [str "{1}"])) es /\ chain_ok (H := sample_codec) genesis es.
Proof.
  apply (verify_integrity_accepts_chains (H := sample_codec) torn_dir); [reflexivity|].
  eexists. split; vm_compute; reflexivity.
Defined.
