(* ===== verification/AuditQueue.v ===== *)
(** The daemon's audit queue and the recovery of a damaged log
    (src/src/core/security/audit.rs: [recover_audit_logger], [record_global],
    [enqueue_audit_event], the writer thread, [wait_for_audit_drain]).

    The bounded channel is a list with its capacity; enqueuing, draining and
    the writer's turns are the steps of a transition system in which they
    interleave freely. Each step carries its own failure oracle. The log, its
    marker and its quarantine are one directory, that of the active logger. *)

From S2P Require Import Prelude AuditCore AuditChain AuditLog.
Open Scope Z_scope.
Open Scope omg_scope.

Definition AUDIT_QUEUE_CAPACITY : nat := 1024.

(** * The global logger *)

Record GlobalLogger := {
  poisoned : bool;
  logger_open : bool;
  audit_dir : AuditDir
}.

Definition set_dir (g : GlobalLogger) (d : AuditDir) : GlobalLogger :=
  {| poisoned := poisoned g; logger_open := logger_open g; audit_dir := d |}.

(** [mark_audit_incomplete_at_or_log]: a failure to mark is only logged. *)
Definition mark_audit_incomplete (fault : FsOp -> bool) (d : AuditDir) : AuditDir :=
  (mark_audit_incomplete_at fault d).1.

Section queue.
Context {Value : Type} `{AuditCodec Value}.

(** [record_global] and whether the event reached the log. *)
Definition record_global (fault : FsOp -> bool) (torn : nat) (g : GlobalLogger) (r : LogRequest)
  : GlobalLogger * bool :=
  if poisoned g then (set_dir g (mark_audit_incomplete fault (audit_dir g)), false)
  else
    let '(g, ready) :=
      if logger_open g then (g, true)
      else match recover_audit_logger fault (audit_dir g) with
           | (d, Ok _) => ({| poisoned := false; logger_open := true; audit_dir := d |}, true)
           | (d, Err _) => (set_dir g (mark_audit_incomplete fault d), false)
           end in
    if ready then
      match log_locked fault torn DEFAULT_MAX_AUDIT_BYTES DEFAULT_AUDIT_ARCHIVES r (audit_dir g) with
      | (d, Ok _) => (set_dir g d, true)
      | (d, Err _) => (set_dir g (mark_audit_incomplete fault d), false)
      end
    else (g, false).

(** * The queue *)

Inductive AuditQueueMessage :=
| QEvent (r : LogRequest)
| QDrain (id : nat).

(** The channel, the logger, and what happened so far: accepted messages and
    handled ones in order, events that reached the log, events that did not,
    and barriers that were answered. *)
Record QueueState := {
  channel : list AuditQueueMessage;
  writer_alive : bool;
  global : GlobalLogger;
  accepted : list AuditQueueMessage;
  handled : list AuditQueueMessage;
  submitted : list LogRequest;
  persisted : list LogRequest;
  lost : list LogRequest;
  answered : list nat
}.

(** The event as queued: its fields are bounded first. *)
Definition queued_event (r : LogRequest) : LogRequest :=
  {| req_event := req_event r; req_severity := req_severity r;
     req_resource := bounded_audit_field (req_resource r);
     req_description := bounded_audit_field (req_description r);
     req_timestamp := req_timestamp r; req_uuid := req_uuid r; req_user := req_user r |}.

(** [enqueue_audit_event]: [try_send], and the marker when it fails. *)
Definition enqueue_audit_event (fault : FsOp -> bool) (r : LogRequest) (s : QueueState) : QueueState :=
  let message := queued_event r in
  if writer_alive s && (length (channel s) <? AUDIT_QUEUE_CAPACITY)%nat then
    {| channel := channel s ++ [QEvent message]; writer_alive := writer_alive s; global := global s;
       accepted := accepted s ++ [QEvent message]; handled := handled s;
       submitted := submitted s ++ [message]; persisted := persisted s; lost := lost s;
       answered := answered s |}
  else
    {| channel := channel s; writer_alive := writer_alive s;
       global := set_dir (global s) (mark_audit_incomplete fault (audit_dir (global s)));
       accepted := accepted s; handled := handled s;
       submitted := submitted s ++ [message]; persisted := persisted s; lost := lost s ++ [message];
       answered := answered s |}.

(** One [try_send] of [wait_for_audit_drain]. *)
Definition try_send_drain (id : nat) (s : QueueState) : option QueueState :=
  if writer_alive s && (length (channel s) <? AUDIT_QUEUE_CAPACITY)%nat then
    Some {| channel := channel s ++ [QDrain id]; writer_alive := writer_alive s; global := global s;
            accepted := accepted s ++ [QDrain id]; handled := handled s; submitted := submitted s;
            persisted := persisted s; lost := lost s; answered := answered s |}
  else None.

(** One turn of the writer thread's [while let Ok(message) = receiver.recv()]. *)
Definition writer_turn (fault : FsOp -> bool) (torn : nat) (s : QueueState) : option QueueState :=
  match channel s with
  | [] => None
  | QEvent r :: rest =>
      let '(g, ok) := record_global fault torn (global s) r in
      Some {| channel := rest; writer_alive := writer_alive s; global := g; accepted := accepted s;
              handled := handled s ++ [QEvent r]; submitted := submitted s;
              persisted := if ok then persisted s ++ [r] else persisted s;
              lost := if ok then lost s else lost s ++ [r]; answered := answered s |}
  | QDrain id :: rest =>
      Some {| channel := rest; writer_alive := writer_alive s; global := global s; accepted := accepted s;
              handled := handled s ++ [QDrain id]; submitted := submitted s; persisted := persisted s;
              lost := lost s; answered := answered s ++ [id] |}
  end.

(** Steps, and whether the marker could be written in them. *)
Inductive queue_step : QueueState -> bool -> QueueState -> Prop :=
| step_enqueue fault r s : queue_step s (negb (fault OpMark)) (enqueue_audit_event fault r s)
| step_drain id s s' : try_send_drain id s = Some s' -> queue_step s true s'
| step_writer fault torn s s' :
    writer_turn fault torn s = Some s' -> queue_step s (negb (fault OpMark)) s'.

Inductive queue_run : QueueState -> QueueState -> Prop :=
| run_refl s : queue_run s s
| run_step s1 s2 s3 : queue_run s1 s2 -> queue_step s2 true s3 -> queue_run s1 s3.

End queue.

Definition initial_queue (writer : bool) (g : GlobalLogger) : QueueState :=
  {| channel := []; writer_alive := writer; global := g; accepted := []; handled := [];
     submitted := []; persisted := []; lost := []; answered := [] |}.

(** * The marker is never withdrawn *)

(** An operation keeps the marker as it is. *)
Definition keeps_marker {A} (m : AuditM A) : Prop :=
  forall d d' r, m d = (d', r) -> incomplete_marker d' = incomplete_marker d.

Lemma keeps_bind {A B} (m : AuditM A) (k : A -> AuditM B) :
  keeps_marker m -> (forall a, keeps_marker (k a)) -> keeps_marker (bind m k).
Proof.
  intros Hm Hk d d' r E. apply bind_inv in E as [(a & d1 & H1 & H2)|(e & H1 & _)].
  - rewrite (Hk a _ _ _ H2). by eapply Hm.
  - by eapply Hm.
Qed.

Lemma keeps_ret {A} (a : A) : keeps_marker (ret a).
Proof. by intros d d' r [= <- _]. Qed.
Lemma keeps_raise {A} e : keeps_marker (raise (A := A) e).
Proof. by intros d d' r [= <- _]. Qed.
Lemma keeps_lift {A} (x : result A AuditError) : keeps_marker (lift x).
Proof. by intros d d' r [= <- _]. Qed.
Lemma keeps_guard b e : keeps_marker (guard_fault b e).
Proof. intros d d' r [-> _]%guard_fault_inv. done. Qed.

(** Reading the directory to write it back with the same marker. *)
Lemma keeps_get {A} (k : AuditDir -> AuditM A) :
  (forall d d' r, k d d = (d', r) -> incomplete_marker d' = incomplete_marker d) -> keeps_marker (bind get_dir k).
Proof. intros Hk d d' r E. by apply Hk in E. Qed.

Lemma shift_archives_marker fault n : keeps_marker (shift_archives fault n).
Proof.
  induction n as [|n IH]; cbn [shift_archives]; [apply keeps_ret|]. apply keeps_get. intros d d' r E.
  apply bind_inv in E as [([] & d1 & Hg & E)|(e & Hg & _)]; apply guard_fault_inv in Hg as [-> _]; [|done].
  apply bind_inv in E as [([] & d1 & Hm & E)|(e & Hm & _)].
  - rewrite (IH _ _ _ E). by destruct (archives d !! S n); injection Hm as <-.
  - by destruct (archives d !! S n); injection Hm as <-.
Qed.

Lemma rotate_marker fault mb ma : keeps_marker (rotate_if_needed fault mb ma).
Proof.
  unfold rotate_if_needed. apply keeps_get. intros d d' r. destruct (log_file d) as [[b|]|].
  - destruct (fault OpStat); [apply keeps_raise|]. destruct (_ <? mb); [apply keeps_ret|]. destruct ma as [|n]; intros E.
    + apply bind_inv in E as [([] & d1 & Hg & E)|(e & Hg & _)]; apply guard_fault_inv in Hg as [-> _]; [|done].
      by injection E as <- _.
    + apply bind_inv in E as [([] & d1 & Hg & E)|(e & Hg & _)]; apply guard_fault_inv in Hg as [-> _]; [|done].
      apply bind_inv in E as [([] & d1 & [= <-] & E)|(e & [=] & _)].
      apply bind_inv in E as [([] & d2 & Hs & E)|(e & Hs & _)]; apply shift_archives_marker in Hs; simpl in Hs; [|done].
      apply bind_inv in E as [([] & d3 & Hg & E)|(e & Hg & _)]; apply guard_fault_inv in Hg as [-> _]; [|done].
      injection E as <- _. done.
  - destruct (fault OpStat); apply keeps_raise.
  - destruct (fault OpStat); [apply keeps_raise|apply keeps_ret].
Qed.

Lemma append_bytes_marker failed torn data : keeps_marker (append_bytes failed torn data).
Proof.
  unfold append_bytes. apply keeps_get. intros d d' r. destruct (log_file d) as [[b|]|]; [|apply keeps_raise..].
  destruct failed; unfold bind, put_dir, raise; by intros [= <- _].
Qed.

Section proofs.
Context {Value : Type} `{AuditCodec Value}.

Lemma log_locked_marker fault torn mb ma r : keeps_marker (log_locked (Value := Value) fault torn mb ma r).
Proof.
  unfold log_locked. apply keeps_bind; [apply rotate_marker|intros _]. apply keeps_get. intros d.
  apply keeps_bind; [apply keeps_lift|intros prev]. apply keeps_bind.
  - unfold open_append_file. apply keeps_bind; [apply keeps_guard|intros _]. apply keeps_get.
    intros d1 d2 x. destruct (log_file d1) as [[b|]|]; [apply keeps_ret|apply keeps_raise|].
    unfold bind, put_dir, ret. by intros [= <- _].
  - intros bytes. unfold write_entry. apply keeps_bind.
    + unfold ensure_trailing_newline. apply keeps_bind; [apply keeps_guard|intros _].
      destruct (last bytes) as [b|]; [|apply keeps_ret]. destruct (b =? 10); [apply keeps_ret|apply append_bytes_marker].
    + intros _. apply keeps_bind; [apply keeps_lift|intros json].
      apply keeps_bind; [apply append_bytes_marker|intros _]. apply keeps_bind; [apply keeps_guard|intros _; apply keeps_lift].
Qed.

Lemma mark_audit_incomplete_set fault d :
  fault OpMark = false -> incomplete_marker (mark_audit_incomplete fault d) = true.
Proof. unfold mark_audit_incomplete, mark_audit_incomplete_at, bind, guard_fault. by intros ->. Qed.

Lemma mark_audit_incomplete_mono fault d :
  incomplete_marker d = true -> incomplete_marker (mark_audit_incomplete fault d) = true.
Proof.
  unfold mark_audit_incomplete, mark_audit_incomplete_at, bind, guard_fault, raise, ret. by destruct (fault OpMark).
Qed.

(** Recovery either leaves the log alone or marks and quarantines it. *)
Lemma recover_cases fault d d' r :
  recover_audit_logger (Value := Value) fault d = (d', r) ->
  log_file d' = log_file d /\ quarantined d' = quarantined d
    /\ (incomplete_marker d' = incomplete_marker d \/ incomplete_marker d' = true)
    /\ (forall h, r = Ok h -> d' = d /\ get_last_hash (Value := Value) fault d = Ok h)
  \/ exists node, log_file d = Some node /\ log_file d' = None /\ quarantined d' = quarantined d ++ [node]
       /\ incomplete_marker d' = true.
Proof.
  unfold recover_audit_logger, bind at 1. cbn [get_dir]. destruct (get_last_hash fault d) as [h|e] eqn:El.
  - intros [= <- <-]. left. split_and!; [done..|by left|]. by intros ? [= <-].
  - assert (Hfix : forall d' r, (mark_audit_incomplete_at fault ;! guard_fault (fault (OpSyncDir 0)) AuditWrite ;!
      quarantine_corrupt_audit_log fault ;! guard_fault (fault (OpSyncDir 1)) AuditWrite ;!
      (let! d := get_dir in lift (get_last_hash (Value := Value) fault d))) d = (d', r) ->
      (log_file d' = log_file d /\ quarantined d' = quarantined d
       /\ (incomplete_marker d' = incomplete_marker d \/ incomplete_marker d' = true) /\ is_ok r = false)
      \/ exists node, log_file d = Some node /\ log_file d' = None /\ quarantined d' = quarantined d ++ [node]
           /\ incomplete_marker d' = true).
    { clear. intros d' r E. unfold mark_audit_incomplete_at, quarantine_corrupt_audit_log, bind, guard_fault, raise, ret, lift in E.
      destruct (fault OpMark); [injection E as <- <-; left; auto|]. cbn in E.
      destruct (fault (OpSyncDir 0)); [injection E as <- <-; left; auto|]. cbn in E.
      destruct (fault OpQuarantine); [injection E as <- <-; left; auto|]. cbn in E.
      destruct (log_file d) as [node|] eqn:Hd; [|injection E as <- <-; left; auto]. cbn in E. right. exists node.
      destruct (fault (OpSyncDir 1)); injection E as <- _; auto. }
    destruct e; try (intros [= <- <-]; left; split_and!; [done..|by left|done]);
      (intros E; apply Hfix in E as [(? & ? & ? & Hr)|?]; [left|by right]; split_and!; [done..|]; by intros h ->).
Qed.

Lemma recover_marker_mono fault d d' r :
  recover_audit_logger (Value := Value) fault d = (d', r) -> incomplete_marker d = true -> incomplete_marker d' = true.
Proof. intros [(_ & _ & [->| ->] & _)|(? & _ & _ & _ & ->)]%recover_cases; done. Qed.

Lemma record_global_marker fault torn g r g' ok :
  record_global (Value := Value) fault torn g r = (g', ok) ->
  (incomplete_marker (audit_dir g) = true -> incomplete_marker (audit_dir g') = true)
  /\ (fault OpMark = false -> ok = false -> incomplete_marker (audit_dir g') = true).
Proof.
  unfold record_global. destruct (poisoned g).
  { intros [= <- <-]. simpl. eauto using mark_audit_incomplete_mono, mark_audit_incomplete_set. }
  assert (Hlog : forall g0, (let (d, r0) := log_locked (Value := Value) fault torn DEFAULT_MAX_AUDIT_BYTES DEFAULT_AUDIT_ARCHIVES r (audit_dir g0) in
      match r0 with Ok _ => (set_dir g0 d, true) | Err _ => (set_dir g0 (mark_audit_incomplete fault d), false) end) = (g', ok) ->
    (incomplete_marker (audit_dir g0) = true -> incomplete_marker (audit_dir g') = true)
    /\ (fault OpMark = false -> ok = false -> incomplete_marker (audit_dir g') = true)).
  { intros g0. destruct (log_locked _ _ _ _ _ _) as [d [h|e]] eqn:El; pose proof (log_locked_marker _ _ _ _ _ _ _ _ El) as Hm;
      intros [= <- <-]; simpl; (split; [intros Hg|]); try done; try congruence;
      eauto using mark_audit_incomplete_set. apply mark_audit_incomplete_mono. congruence. }
  destruct (logger_open g); [apply Hlog|].
  destruct (recover_audit_logger fault (audit_dir g)) as [d [h|e]] eqn:Er; intros E.
  - apply Hlog in E as [E1 E2]. simpl in E1. split; [|done]. intros Hg. by apply E1, (recover_marker_mono _ _ _ _ Er).
  - injection E as <- <-. simpl. split; [intros Hg|]; eauto using mark_audit_incomplete_set.
    by apply mark_audit_incomplete_mono, (recover_marker_mono _ _ _ _ Er).
Qed.

End proofs.

(** * The invariant of the queue *)

Definition events_of (l : list AuditQueueMessage) : list LogRequest :=
  l ≫= fun m => match m with QEvent r => [r] | QDrain _ => [] end.

Lemma events_of_app a b : events_of (a ++ b) = events_of a ++ events_of b.
Proof. apply bind_app. Qed.

Record queue_inv (s : QueueState) : Prop := {
  qi_fifo : accepted s = handled s ++ channel s;
  qi_bounded : (length (channel s) <= AUDIT_QUEUE_CAPACITY)%nat;
  qi_account : submitted s ≡ₚ persisted s ++ events_of (channel s) ++ lost s;
  qi_flagged : lost s ≠ [] -> incomplete_marker (audit_dir (global s)) = true;
  qi_answered : forall id, id ∈ answered s <-> QDrain id ∈ handled s;
  qi_handled : forall r, QEvent r ∈ handled s -> r ∈ persisted s \/ r ∈ lost s
}.

Lemma initial_queue_inv w g : queue_inv (initial_queue w g).
Proof. split; simpl; try done; try lia; set_solver. Qed.

Lemma enqueue_inv fault r s :
  fault OpMark = false -> queue_inv s -> queue_inv (enqueue_audit_event fault r s).
Proof.
  intros Hf [Hq Hb Ha Hl Hans Hh]. unfold enqueue_audit_event.
  destruct (writer_alive s && (length (channel s) <? AUDIT_QUEUE_CAPACITY)%nat) eqn:E; split; simpl; try done.
  - by rewrite Hq, app_assoc.
  - apply andb_prop in E as [_ E%Nat.ltb_lt]. rewrite length_app. simpl. lia.
  - rewrite events_of_app. change (events_of [QEvent (queued_event r)]) with [queued_event r]. rewrite Ha.
    rewrite <- !app_assoc. do 2 apply Permutation_app_head. apply Permutation_app_comm.
  - rewrite Ha. by rewrite <- !app_assoc.
  - intros _. by apply mark_audit_incomplete_set.
  - intros x Hx. apply Hh in Hx as [?|?]; [by left|right]. apply elem_of_app. by left.
Qed.

Lemma drain_inv id s s' : try_send_drain id s = Some s' -> queue_inv s -> queue_inv s'.
Proof.
  unfold try_send_drain. destruct (writer_alive s && _) eqn:E; [|done]. intros [= <-] [Hq Hb Ha Hl Hans Hh].
  split; simpl; try done.
  - by rewrite Hq, app_assoc.
  - apply andb_prop in E as [_ E%Nat.ltb_lt]. rewrite length_app. simpl. lia.
  - rewrite events_of_app. change (events_of [QDrain id]) with (@nil LogRequest). by rewrite app_nil_r.
Qed.

Lemma writer_inv {Value} `{AuditCodec Value} fault torn s s' :
  fault OpMark = false -> writer_turn (Value := Value) fault torn s = Some s' -> queue_inv s -> queue_inv s'.
Proof.
  intros Hf. unfold writer_turn. destruct (channel s) as [|[r|id] rest] eqn:Ec; [done|..].
  - destruct (record_global fault torn (global s) r) as [g ok] eqn:Eg. intros [= <-] [Hq Hb Ha Hl Hans Hh].
    apply record_global_marker in Eg as [Hmono Hset]. rewrite Ec in *.
    split; simpl in *.
    + by rewrite Hq, <- app_assoc.
    + lia.
    + rewrite Ha. change (events_of (QEvent r :: rest)) with (r :: events_of rest).
      destruct ok; [by rewrite <- (app_assoc (persisted s) [r])|].
      apply Permutation_app_head. rewrite app_assoc. cbn [app]. apply Permutation_cons_append.
    + intros Hne. destruct ok; [by apply Hmono, Hl|by apply Hset].
    + intros id. rewrite Hans, elem_of_app, list_elem_of_singleton. naive_solver.
    + intros x [Hx|[= ->]%list_elem_of_singleton]%elem_of_app.
      * apply Hh in Hx as [?|?]; destruct ok; rewrite ?elem_of_app; auto.
      * destruct ok; rewrite ?elem_of_app, ?list_elem_of_singleton; auto.
  - intros [= <-] [Hq Hb Ha Hl Hans Hh]. rewrite Ec in *. split; simpl in *; try done.
    + by rewrite Hq, <- app_assoc.
    + lia.
    + intros x. rewrite !elem_of_app, Hans, !list_elem_of_singleton. naive_solver.
    + intros x [Hx|?%list_elem_of_singleton]%elem_of_app; [by apply Hh|done].
Qed.

Lemma queue_run_inv {Value} `{AuditCodec Value} s s' :
  queue_run (Value := Value) s s' -> queue_inv s -> queue_inv s'.
Proof.
  induction 1 as [|s1 s2 s3 _ IH Hstep]; intros Hi; [done|]. specialize (IH Hi).
  inversion Hstep as [fault r s Hs Hf|id s s4 Hd|fault torn s s4 Hw Hs Hf]; subst.
  - apply enqueue_inv; [by destruct (fault OpMark)|done].
  - by eapply drain_inv.
  - eapply (writer_inv fault torn); [by destruct (fault OpMark)|done|done].
Qed.

(** * Properties *)

(** no audit event is dropped silently: in every interleaving of
    enqueues, drains and writer turns, each submitted event is in the log,
    still in the bounded queue, or lost, and once one is lost the collection
    is marked incomplete (as long as the marker file itself can be written). *)
Theorem audit_events_are_accounted_for {Value} `{AuditCodec Value} writer g s :
  queue_run (Value := Value) (initial_queue writer g) s ->
  submitted s ≡ₚ persisted s ++ events_of (channel s) ++ lost s
  /\ (length (channel s) <= AUDIT_QUEUE_CAPACITY)%nat
  /\ (lost s ≠ [] -> incomplete_marker (audit_dir (global s)) = true).
Proof.
  intros Hrun. destruct (queue_run_inv _ _ Hrun (initial_queue_inv writer g)) as [? ? ? ? ? ?]. done.
Qed.

(** a drain is a barrier: once the drain message with a given identity
    has been answered, every event accepted before it has been handled, that
    is written to the log or counted as lost. *)
Theorem drain_is_a_barrier {Value} `{AuditCodec Value} writer g s id before_ after r :
  queue_run (Value := Value) (initial_queue writer g) s ->
  id ∈ answered s ->
  accepted s = before_ ++ QDrain id :: after -> QDrain id ∉ before_ ++ after ->
  QEvent r ∈ before_ -> r ∈ persisted s \/ r ∈ lost s.
Proof.
  intros Hrun Hid Hacc Huniq Hr. destruct (queue_run_inv _ _ Hrun (initial_queue_inv writer g)) as [Hq _ _ _ Hans Hh].
  apply Hans in Hid. apply Hh. rewrite Hq in Hacc.
  apply list_elem_of_In, in_split in Hid as (h1 & h2 & Hhs). rewrite Hhs in Hacc |- *. rewrite <- app_assoc in Hacc.
  cbn [app] in Hacc.
  assert (Heq : h1 = before_).
  { apply app_eq_app in Hacc as (l & [[-> Hl]|[-> Hl]]).
    - destruct l as [|m l]; [by rewrite app_nil_r|]. injection Hl as <- Hl. exfalso. apply Huniq.
      rewrite Hl. set_solver.
    - destruct l as [|m l]; [by rewrite app_nil_r|]. injection Hl as <- Hl. exfalso. apply Huniq. set_solver. }
  subst. set_solver.
Qed.

(** recovery never discards history: whatever fails, the log is left as
    it was, or it is moved to quarantine unchanged after the collection has
    been marked incomplete. *)
Theorem recovery_never_discards_history {Value} `{AuditCodec Value} fault d d' r :
  recover_audit_logger (Value := Value) fault d = (d', r) ->
  (log_file d' = log_file d /\ quarantined d' = quarantined d)
  \/ exists node, log_file d = Some node /\ log_file d' = None
       /\ quarantined d' = quarantined d ++ [node] /\ incomplete_marker d' = true.
Proof. intros [(? & ? & _)|?]%recover_cases; auto. Qed.

(** ** Witnesses *)

Definition fresh_global : GlobalLogger := {| poisoned := false; logger_open := false; audit_dir := empty_dir |}.

Abbreviation healthy := (fun _ : FsOp => false).

(** One event, a barrier, and two turns of the writer. *)
Definition drained_queue : QueueState :=
  let s := enqueue_audit_event healthy sample_request (initial_queue true fresh_global) in
  let s := default s (try_send_drain 7 s) in
  let s := default s (writer_turn (H := sample_codec) healthy 0 s) in
  default s (writer_turn (H := sample_codec) healthy 0 s).

Lemma drained_queue_run :
  queue_run (H := sample_codec) (initial_queue true fresh_global) drained_queue.
Proof.
  eapply run_step; [eapply run_step; [eapply run_step; [eapply run_step; [apply run_refl|]|]|]|].
  - apply (step_enqueue healthy sample_request).
  - apply (step_drain 7). reflexivity.
  - apply (step_writer healthy 0). vm_compute. reflexivity.
  - apply (step_writer healthy 0). vm_compute. reflexivity.
Defined.

Lemma audit_events_are_accounted_for_witness :
  submitted drained_queue ≡ₚ persisted drained_queue ++ events_of (channel drained_queue) ++ lost drained_queue
  /\ length (persisted drained_queue) = 1%nat.
Proof.
  split; [|vm_compute; reflexivity].
  apply (audit_events_are_accounted_for (H := sample_codec) true fresh_global), drained_queue_run.
Defined.

Lemma drain_is_a_barrier_witness :
  sample_request ∈ persisted drained_queue \/ sample_request ∈ lost drained_queue.
Proof.
  apply (drain_is_a_barrier (H := sample_codec) true fresh_global drained_queue 7 [QEvent sample_request] []).
  - apply drained_queue_run.
  - apply list_elem_of_In. vm_compute. auto.
  - vm_compute. reflexivity.
  - intros H. apply list_elem_of_In in H. destruct H as [H|[]]. discriminate.
  - apply list_elem_of_In. left. reflexivity.
Defined.

Definition corrupt_dir : AuditDir :=
  {| log_file := Some (NodeRegular (as_bytes (str "{torn"))); archives := ∅; incomplete_marker := false;
     quarantined := [] |}.

Lemma recovery_never_discards_history_witness :
  exists node, log_file corrupt_dir = Some node
    /\ quarantined (recover_audit_logger (H := sample_codec) healthy corrupt_dir).1 = [node].
Proof.
  destruct (recovery_never_discards_history (H := sample_codec) healthy corrupt_dir
    (recover_audit_logger (H := sample_codec) healthy corrupt_dir).1 (Ok genesis)) as [[H _]|(node & H1 & _ & H2 & _)].
  - vm_compute. reflexivity.
  - vm_compute in H. discriminate.
  - exists node. split; [exact H1|exact H2].
Defined.
