(* ===== verification/RustPath.v ===== *)
(** Paths as [std::path] splits them: components of byte paths, joining, and
    lexical resolution of a relative path, shared by the inspector of built
    packages and the Debian extractor. *)

From S2P Require Import Prelude.
Open Scope Z_scope.
Open Scope omg_scope.

(** * [std::path::Component] on byte paths *)

(** The normal and parent components; empty and [.] components vanish. *)
Definition path_components (path : rstr) : list rstr :=
  List.filter (fun c => negb (str_eqb c [] || str_eqb c (str "."))) (split_char (ch "/") path).

Inductive Component :=
| RootDir
| CurDir
| ParentDir
| Normal (part : list Z).

Definition component (piece : list Z) : Component :=
  if str_eqb piece (str "..") then ParentDir else Normal piece.

(** A root first, or the [.] the path starts with; later [.] and empty pieces vanish. *)
Definition components (path : list Z) : list Component :=
  (if starts_with (str "/") path then [RootDir]
   else if str_eqb (default [] (head (split_char (ch "/") path))) (str ".") then [CurDir] else [])
  ++ map component (path_components path).

Definition is_relative (path : list Z) : bool := negb (starts_with (str "/") path).

(** [parts.join("/")]. *)
Fixpoint join_slash (parts : list rstr) : rstr :=
  match parts with
  | [] => []
  | [p] => p
  | p :: parts => p ++ ch "/" :: join_slash parts
  end.

(** * Facts *)

Lemma str_eqb_false a b : str_eqb a b = false <-> a ≠ b.
Proof. apply bool_decide_eq_false. Qed.

(** A byte string that is one normal path component. *)
Definition clean_part (p : list Z) : Prop :=
  p ≠ [] /\ p ≠ str "." /\ p ≠ str ".." /\ (ch "/" ∉ p).

Lemma path_components_elem p q :
  q ∈ path_components p -> q ≠ [] /\ q ≠ str "." /\ (ch "/" ∉ q).
Proof.
  unfold path_components. rewrite list_elem_of_In, List.filter_In, <- list_elem_of_In.
  intros [Hin Hb]. to_prop. split_and!; [by apply str_eqb_false..|].
  by eapply split_char_no_sep.
Qed.

Lemma components_Normal p q : Normal q ∈ components p -> clean_part q.
Proof.
  unfold components. rewrite elem_of_app. intros [H|H].
  - repeat case_match; set_solver.
  - apply list_elem_of_In, List.in_map_iff in H as (c & E & Hc%list_elem_of_In).
    apply path_components_elem in Hc as (? & ? & ?). unfold component in E.
    destruct (str_eqb c (str "..")) eqn:Ec; [done|]. injection E as <-.
    apply str_eqb_false in Ec. by split_and!.
Qed.

Lemma split_join ps : ps ≠ [] -> Forall (fun p => ch "/" ∉ p) ps -> split_char (ch "/") (join_slash ps) = ps.
Proof.
  intros Hne H. induction H as [|p ps Hp Hps IH]; [done|]. destruct ps as [|q ps]; [by apply split_char_none|].
  change (join_slash (p :: q :: ps)) with (p ++ ch "/" :: join_slash (q :: ps)).
  rewrite split_char_cut by done. by rewrite IH.
Qed.

Lemma keep_clean ps :
  Forall clean_part ps ->
  map component (List.filter (fun c => negb (str_eqb c [] || str_eqb c (str "."))) ps) = map Normal ps.
Proof.
  induction 1 as [|q qs (H1 & H2 & H3 & H4) _ IH]; [done|]. cbn [List.filter].
  rewrite (proj2 (str_eqb_false q _) H1), (proj2 (str_eqb_false q _) H2). cbn [orb negb map]. rewrite IH.
  unfold component. by rewrite (proj2 (str_eqb_false q _) H3).
Qed.

Lemma components_join ps :
  ps ≠ [] -> Forall clean_part ps -> components (join_slash ps) = map Normal ps.
Proof.
  intros Hne H. assert (Hsp : split_char (ch "/") (join_slash ps) = ps).
  { apply split_join; [done|]. eapply Forall_impl; [exact H|]. by intros p (? & ? & ? & ?). }
  unfold components. assert (starts_with (str "/") (join_slash ps) = false) as ->.
  { destruct (starts_with _ _) eqn:E; [|done]. apply starts_with_true in E as [r Hr]. rewrite Hr in Hsp.
    simpl in Hsp. subst ps. inversion H as [|? ? (? & _)]; done. }
  unfold path_components. rewrite Hsp, keep_clean by done. destruct H as [|p ps (_ & Hdot & _) _]; [done|].
  change (default [] (head (p :: ps))) with p. by rewrite (proj2 (str_eqb_false p _) Hdot).
Qed.

Lemma as_bytes_join ps : as_bytes (join_slash ps) = join_slash (map as_bytes ps).
Proof.
  induction ps as [|p ps IH]; [done|]. destruct ps as [|q ps]; [done|].
  change (join_slash (p :: q :: ps)) with (p ++ ch "/" :: join_slash (q :: ps)).
  rewrite as_bytes_app, as_bytes_cons, IH. done.
Qed.

(** Following a relative path from a directory given by its components;
    [None] when it steps above the root. *)
Fixpoint follow (dir : list (list Z)) (cs : list Component) : option (list (list Z)) :=
  match cs with
  | [] => Some dir
  | Normal p :: cs => follow (dir ++ [p]) cs
  | CurDir :: cs => follow dir cs
  | ParentDir :: cs => match dir with [] => None | _ => follow (removelast dir) cs end
  | RootDir :: _ => None
  end.

Lemma length_removelast {A} (l : list A) : length (removelast l) = (length l - 1)%nat.
Proof. rewrite removelast_firstn_len, length_take. lia. Qed.
