(* ===== verification/Validation.v ===== *)
(** Input validation: src/src/core/security/validation.rs.

    Every validator of the module, as a function from the input string to
    [Ok] or the error variant of [ValidationError]. [validate_local_archive_file]
    takes what the file system answered ([lstat], canonical path, [stat] of
    the archive and of its directory) as an argument. *)

From S2P Require Import Prelude Spdx RustPath.
Open Scope Z_scope.
Open Scope omg_scope.

Definition MAX_PACKAGE_NAME_LENGTH : Z := 255.
Definition MAX_VERSION_LENGTH : Z := 128.
Definition MAX_RELATIVE_PATH_LENGTH : Z := 4096.

Inductive ValidationError :=
| PackageNameEmpty
| PackageNameTooLong (max : Z)
| PackageNameStartsWithDash
| PackageNameStartsWithDot
| PackageNameInvalidChar (character : char)
| PackageNamePathTraversal
| PackageNameAbsolute
| ImageRefEmpty
| ImageRefTooLong (max : Z)
| ImageRefMustStartAlphanumeric
| ImageRefInvalidChar (character : char)
| VersionEmpty
| VersionTooLong (max : Z)
| VersionPathComponent
| VersionInvalidChar (character : char)
| RuntimeVersionReserved
| RuntimeVersionUnsafePath
| PathEmpty
| PathTooLong (max : Z)
| PathNullByte
| PathAbsolute
| PathTraversal
| PathDoubleSlash.

(** [guard b e]: the early [return Err(e)] when [b]. *)
Definition reject_if (b : bool) (e : ValidationError) : result unit ValidationError :=
  if b then Err e else Ok tt.

(** [if let Some(character) = s.chars().find(bad) { return Err(..) }]. *)
Definition reject_char (bad : char -> bool) (e : char -> ValidationError) (s : rstr)
  : result unit ValidationError :=
  match List.find bad s with Some c => Err (e c) | None => Ok tt end.

Definition is_safe_package_char (c : char) : bool :=
  is_ascii_alphanumeric c || (c =? ch "-") || (c =? ch "_") || (c =? ch "+") || (c =? ch ".")
  || (c =? ch "@") || (c =? ch "/").

Definition validate_package_name (name : rstr) : result unit ValidationError :=
  reject_if (str_eqb name []) PackageNameEmpty ;?
  reject_if (MAX_PACKAGE_NAME_LENGTH <? str_len name) (PackageNameTooLong MAX_PACKAGE_NAME_LENGTH) ;?
  reject_if (starts_with (str "-") name) PackageNameStartsWithDash ;?
  reject_if (starts_with (str ".") name) PackageNameStartsWithDot ;?
  reject_char (fun c => negb (is_safe_package_char c)) PackageNameInvalidChar name ;?
  reject_if (contains (str "..") name) PackageNamePathTraversal ;?
  reject_if (starts_with (str "/") name) PackageNameAbsolute.

Definition validate_version_shape (version : rstr) : result unit ValidationError :=
  reject_if (str_eqb version []) VersionEmpty ;?
  reject_if (MAX_VERSION_LENGTH <? str_len version) (VersionTooLong MAX_VERSION_LENGTH) ;?
  reject_if (str_eqb version (str ".") || str_eqb version (str "..")) VersionPathComponent.

Definition validate_version (version : rstr) : result unit ValidationError :=
  validate_version_shape version ;?
  reject_char (fun c => negb (is_ascii_alphanumeric c || (c =? ch ".") || (c =? ch "-") || (c =? ch "+")
                              || (c =? ch ":") || (c =? ch "~"))) VersionInvalidChar version.

Definition validate_runtime_version (version : rstr) : result unit ValidationError :=
  validate_version_shape version ;?
  reject_if (eq_ignore_ascii_case version (str "current")) RuntimeVersionReserved ;?
  reject_if (contains_char (ch ":") version || contains_char (ch "~") version) RuntimeVersionUnsafePath ;?
  reject_char (fun c => negb (is_ascii_alphanumeric c || (c =? ch ".") || (c =? ch "-") || (c =? ch "+")
                              || (c =? ch "_"))) VersionInvalidChar version.

(** The body of the loop of [validate_debian_package_specs]. *)
Definition validate_debian_package_spec (spec : rstr) : result unit ValidationError :=
  match split_once (ch "=") spec with
  | None => validate_package_name spec
  | Some (name, version) =>
      validate_package_name name ;?
      reject_if (contains_char (ch "=") version) (VersionInvalidChar (ch "=")) ;?
      validate_version version
  end.

Definition validate_debian_package_specs (specs : list rstr) : result unit ValidationError :=
  for_each (fun _ spec => validate_debian_package_spec spec) tt specs.

Definition validate_package_names (names : list rstr) : result unit ValidationError :=
  for_each (fun _ name => validate_package_name name) tt names.

Definition validate_image_ref (image : rstr) : result unit ValidationError :=
  reject_if (str_eqb image []) ImageRefEmpty ;?
  reject_if (256 <? str_len image) (ImageRefTooLong 256) ;?
  reject_char (fun c => negb (is_ascii_alphanumeric c || (c =? ch ".") || (c =? ch "_") || (c =? ch "-")
                              || (c =? ch "/") || (c =? ch ":") || (c =? ch "@"))) ImageRefInvalidChar image ;?
  reject_if (negb (is_some_and (head image) is_ascii_alphanumeric)) ImageRefMustStartAlphanumeric ;?
  reject_if (contains (str "..") image) (ImageRefInvalidChar (ch ".")).

Definition is_local_package_file (name : rstr) : bool :=
  if negb (starts_with (str "/") name) then false
  else if negb (existsb (fun ext => ends_with ext name)
            (map str [".pkg.tar.zst"; ".pkg.tar.xz"; ".pkg.tar.gz"; ".pkg.tar.bz2"; ".pkg.tar"])) then false
  else if contains (str "..") name then false
  else true.

(** ** [std::path] on slash-separated strings *)

Definition path_file_name (path : rstr) : option rstr :=
  match last (path_components path) with
  | Some c => if str_eqb c (str "..") then None else Some c
  | None => None
  end.

Definition path_extension (path : rstr) : option rstr :=
  match path_file_name path with
  | Some name =>
      match rsplit_once (ch ".") name with
      | Some ([], _) => None
      | Some (_, ext) => Some ext
      | None => None
      end
  | None => None
  end.

Definition is_local_debian_package_file (name : rstr) : bool :=
  is_some_and (path_extension name) (fun extension =>
    eq_ignore_ascii_case extension (str "deb") || eq_ignore_ascii_case extension (str "ddeb"))
  && negb (starts_with (str "-") name) && negb (contains (str "..") name) && negb (contains_char 0 name).

Definition validate_package_name_or_file (name : rstr) : result unit ValidationError :=
  if is_local_package_file name then Ok tt else validate_package_name name.

Definition validate_package_names_or_files (names : list rstr) : result unit ValidationError :=
  for_each (fun _ name => validate_package_name_or_file name) tt names.

Definition validate_debian_package_name_or_file (name : rstr) : result unit ValidationError :=
  if is_local_debian_package_file name then Ok tt else validate_debian_package_specs [name].

Definition validate_debian_package_names_or_files (names : list rstr) : result unit ValidationError :=
  for_each (fun _ name => validate_debian_package_name_or_file name) tt names.

Definition validate_relative_path (path : rstr) : result unit ValidationError :=
  reject_if (str_eqb path []) PathEmpty ;?
  reject_if (MAX_RELATIVE_PATH_LENGTH <? str_len path) (PathTooLong MAX_RELATIVE_PATH_LENGTH) ;?
  reject_if (contains_char 0 path) PathNullByte ;?
  reject_if (starts_with (str "/") path) PathAbsolute ;?
  reject_if (contains (str "..") path) PathTraversal ;?
  reject_if (contains (str "//") path) PathDoubleSlash.

(** ** Local archives *)

Record FileStat := {
  stat_is_symlink : bool;
  stat_is_file : bool;
  stat_uid : Z;
  stat_mode : Z
}.

(** What the file system and the process credentials answer for one path. *)
Record ArchiveFacts := {
  archive_lstat : option FileStat;
  archive_canonical : option rstr;
  archive_stat : option FileStat;
  archive_parent_stat : option (option FileStat);
  archive_invoking_uid : option Z
}.

Inductive ArchiveError :=
| ArchiveUnsupported
| ArchiveUnreadable
| ArchiveSymlink
| ArchiveNotRegular
| ArchiveUntrustedOwner
| ArchiveWritable
| ArchiveNoParent
| ArchiveDirUntrustedOwner
| ArchiveDirWritable.

Definition validate_local_archive_file (facts : ArchiveFacts) (supported : bool) : result rstr ArchiveError :=
  ensure supported ArchiveUnsupported ;?
  let? link := ok_or (archive_lstat facts) ArchiveUnreadable in
  ensure (negb (stat_is_symlink link)) ArchiveSymlink ;?
  let? canonical := ok_or (archive_canonical facts) ArchiveUnreadable in
  let? metadata := ok_or (archive_stat facts) ArchiveUnreadable in
  ensure (stat_is_file metadata) ArchiveNotRegular ;?
  let? invoking_uid := ok_or (archive_invoking_uid facts) ArchiveUnreadable in
  let owner_allowed uid := (uid =? 0) || (uid =? invoking_uid) in
  ensure (owner_allowed (stat_uid metadata)) ArchiveUntrustedOwner ;?
  ensure (Z.land (stat_mode metadata) 18 =? 0) ArchiveWritable ;?
  let? parent := ok_or (archive_parent_stat facts) ArchiveNoParent in
  let? parent_metadata := ok_or parent ArchiveUnreadable in
  ensure (owner_allowed (stat_uid parent_metadata)) ArchiveDirUntrustedOwner ;?
  ensure (Z.land (stat_mode parent_metadata) 18 =? 0) ArchiveDirWritable ;?
  Ok canonical.

Definition validate_local_package_file (facts : ArchiveFacts) (path : rstr) : result rstr ArchiveError :=
  validate_local_archive_file facts (is_local_package_file path).

Definition validate_local_debian_package_file (facts : ArchiveFacts) (path : rstr) : result rstr ArchiveError :=
  validate_local_archive_file facts (is_local_debian_package_file path).

(** * Lemmas *)

Lemma reject_if_Ok b e : reject_if b e = Ok tt <-> b = false.
Proof. unfold reject_if. by destruct b. Qed.

Lemma reject_char_Ok bad e s : reject_char bad e s = Ok tt <-> Forall (fun c => bad c = false) s.
Proof.
  unfold reject_char. destruct (List.find bad s) as [c|] eqn:E.
  - apply List.find_some in E as [Hin Hc]. split; [done|]. rewrite Forall_forall. intros Hf.
    rewrite (Hf c) in Hc; [done|by apply list_elem_of_In].
  - split; [intros _|done]. apply Forall_forall. intros c Hc. by apply (List.find_none _ _ E), list_elem_of_In.
Qed.

Lemma seq_Ok {E} (a b : result unit E) : (a ;? b) = Ok tt <-> a = Ok tt /\ b = Ok tt.
Proof. destruct a as [[]|]; simpl; naive_solver. Qed.

(** Components of a path are pieces of its text. *)
Lemma split_char_piece c s p : p ∈ split_char c s -> exists a b, s = a ++ p ++ b.
Proof.
  revert p; induction s as [|x s IH]; intros p; simpl.
  - intros ->%list_elem_of_singleton. by exists [], [].
  - destruct (Z.eqb_spec c x) as [->|Hne].
    + intros [->|Hp]%elem_of_cons; [by exists [], (x :: s)|]. destruct (IH p Hp) as (a & b & ->). by exists (x :: a), b.
    + destruct (split_char c s) as [|q qs] eqn:E; [intros ->%list_elem_of_singleton; by exists [], s|].
      intros [->|Hp]%elem_of_cons.
      * assert (Hq : exists b, s = q ++ b).
        { clear -E. revert q qs E. induction s as [|y s IH]; intros q qs E; simpl in E.
          - injection E as <- <-. by exists [].
          - destruct (c =? y); [injection E as <- <-; by eexists|].
            destruct (split_char c s) as [|q' qs'] eqn:E'; injection E as <- <-; [by eexists|].
            destruct (IH q' qs' eq_refl) as [b ->]. by exists b. }
        destruct Hq as [b ->]. by exists [], b.
      * destruct (IH p) as (a & b & ->); [by right|]. by exists (x :: a), b.
Qed.

(** A parent component steps above the starting directory. *)
Fixpoint escapes (depth : nat) (components : list rstr) : bool :=
  match components with
  | [] => false
  | c :: components =>
      if str_eqb c (str "..") then
        match depth with O => true | S depth => escapes depth components end
      else escapes (S depth) components
  end.

(** A path that, joined to a directory, names something below it. *)
Definition confined (path : rstr) : Prop :=
  starts_with (str "/") path = false /\ escapes 0 (path_components path) = false.

Lemma escapes_none depth cs : Forall (fun c => c ≠ str "..") cs -> escapes depth cs = false.
Proof.
  intros H. revert depth; induction H as [|c cs Hc _ IH]; intros depth; simpl; [done|].
  by rewrite (proj2 (str_eqb_false c _) Hc).
Qed.

Lemma no_dotdot_confined path :
  starts_with (str "/") path = false -> contains (str "..") path = false -> confined path.
Proof.
  intros Ha Hd. split; [done|]. apply escapes_none, Forall_forall. intros c Hc ->.
  unfold path_components in Hc. apply list_elem_of_In, List.filter_In in Hc as [Hc _].
  apply list_elem_of_In, split_char_piece in Hc as (a & b & E).
  rewrite (proj2 (contains_true (str "..") path)) in Hd; [done|eauto].
Qed.

(** Characters a shell or an option parser gives a meaning to. *)
Definition shell_special : list char :=
  str " ;|&$()<>`'\*?[]{}!#~=%^," ++ [34; 9; 10; 13; 0].

Definition shell_inert (s : rstr) : Prop := Forall (fun c => c ∉ shell_special) s.

Lemma inert_by (allowed : char -> bool) s :
  forallb (fun c => negb (allowed c)) shell_special = true ->
  Forall (fun c => allowed c = true) s -> shell_inert s.
Proof.
  rewrite forallb_forall. intros Hs Ha. eapply Forall_impl; [exact Ha|]. intros c Hc Hin.
  specialize (Hs c (proj1 (list_elem_of_In _ _) Hin)). cbv beta in *. by rewrite Hc in Hs.
Qed.

Lemma validate_package_name_Ok name :
  validate_package_name name = Ok tt <->
  name ≠ [] /\ str_len name <= MAX_PACKAGE_NAME_LENGTH
  /\ starts_with (str "-") name = false /\ starts_with (str ".") name = false
  /\ starts_with (str "/") name = false
  /\ Forall (fun c => is_safe_package_char c = true) name /\ contains (str "..") name = false.
Proof.
  unfold validate_package_name. rewrite !seq_Ok, !reject_if_Ok, reject_char_Ok, str_eqb_false, Z.ltb_ge.
  setoid_rewrite negb_false_iff. tauto.
Qed.

Lemma validate_version_Ok version :
  validate_version version = Ok tt ->
  version ≠ [] /\ str_len version <= MAX_VERSION_LENGTH
  /\ Forall (fun c => is_ascii_alphanumeric c || (c =? ch ".") || (c =? ch "-") || (c =? ch "+")
                      || (c =? ch ":") || (c =? ch "~") = true) version.
Proof.
  unfold validate_version, validate_version_shape.
  rewrite !seq_Ok, !reject_if_Ok, reject_char_Ok, str_eqb_false, Z.ltb_ge. setoid_rewrite negb_false_iff. tauto.
Qed.

(** * Properties *)

(** an accepted package name is harmless to whatever it is passed to: no
    character of it is special to a shell, it is not taken for an option or a
    hidden file, and used as a path it is relative and stays below the
    directory it is joined to. A pinned Debian spec is such a name, an equals
    sign and a version without further equals signs. *)
Theorem accepted_package_specs_are_inert spec :
  validate_debian_package_spec spec = Ok tt ->
  exists name, (spec = name \/ exists version, spec = name ++ ch "=" :: version
                  /\ validate_version version = Ok tt /\ (ch "=" ∉ version))
    /\ shell_inert name /\ confined name
    /\ starts_with (str "-") name = false /\ starts_with (str ".") name = false
    /\ 0 < str_len name <= MAX_PACKAGE_NAME_LENGTH.
Proof.
  assert (Hname : forall name, validate_package_name name = Ok tt ->
    shell_inert name /\ confined name /\ starts_with (str "-") name = false
    /\ starts_with (str ".") name = false /\ 0 < str_len name <= MAX_PACKAGE_NAME_LENGTH).
  { intros name (Hne & Hlen & Hdash & Hdot & Hslash & Hsafe & Hdd)%validate_package_name_Ok.
    assert (str_len name ≠ 0) by (by rewrite str_len_0). pose proof (str_len_nonneg name).
    split_and!; [|by apply no_dotdot_confined|done|done|lia|done].
    by apply (inert_by is_safe_package_char). }
  unfold validate_debian_package_spec. destruct (split_once (ch "=") spec) as [[name version]|] eqn:E.
  - apply split_once_Some in E as [-> _]. rewrite !seq_Ok, reject_if_Ok, contains_char_false.
    intros (Hn & Heq & Hv). exists name. split; [|by apply Hname]. right. eauto.
  - intros Hn. exists spec. split; [by left|by apply Hname].
Qed.

Lemma accepted_package_specs_are_inert_witness :
  exists name, (str "libc6=2:2.38-1~bpo" = name \/ exists version, str "libc6=2:2.38-1~bpo" = name ++ ch "=" :: version
                  /\ validate_version version = Ok tt /\ (ch "=" ∉ version))
    /\ shell_inert name /\ confined name
    /\ starts_with (str "-") name = false /\ starts_with (str ".") name = false
    /\ 0 < str_len name <= MAX_PACKAGE_NAME_LENGTH.
Proof. apply accepted_package_specs_are_inert. vm_compute. reflexivity. Defined.

(** An accepted runtime version is a plain file name. *)
Lemma runtime_version_plain version :
  validate_runtime_version version = Ok tt ->
  path_components version = [version] /\ (ch "/" ∉ version) /\ version ≠ str ".." /\
  eq_ignore_ascii_case version (str "current") = false.
Proof.
  unfold validate_runtime_version, validate_version_shape.
  rewrite !seq_Ok, !reject_if_Ok, reject_char_Ok, str_eqb_false, orb_false_iff, !str_eqb_false.
  intros ((Hne & _ & Hdot & Hdd) & Hcur & _ & Hchars).
  assert (Hns : ch "/" ∉ version).
  { intros Hin. apply (proj1 (Forall_forall _ _) Hchars) in Hin. by vm_compute in Hin. }
  split_and!; [|done|done|done]. unfold path_components. rewrite split_char_none by done. simpl.
  by rewrite (proj2 (str_eqb_false version []) Hne), (proj2 (str_eqb_false version (str ".")) Hdot).
Qed.

(** accepted runtime versions and relative paths stay where they are
    put: a runtime version is exactly one path component, neither [.] nor
    [..] nor any spelling of the reserved [current]; a relative path stays
    below its base directory and holds no NUL. *)
Theorem accepted_paths_stay_inside :
  (forall version, validate_runtime_version version = Ok tt ->
     path_components version = [version] /\ confined version
     /\ eq_ignore_ascii_case version (str "current") = false)
  /\ (forall path, validate_relative_path path = Ok tt ->
     confined path /\ (0 ∉ path) /\ str_len path <= MAX_RELATIVE_PATH_LENGTH).
Proof.
  split.
  - intros version (Hc & Hns & Hdd & Hcur)%runtime_version_plain. split_and!; [done| |done]. split.
    + destruct (starts_with (str "/") version) eqn:E; [|done]. apply starts_with_true in E as [r ->]. set_solver.
    + rewrite Hc. apply escapes_none. by repeat constructor.
  - intros path. unfold validate_relative_path. rewrite !seq_Ok, !reject_if_Ok, contains_char_false, Z.ltb_ge.
    intros (_ & Hlen & Hnul & Habs & Hdd & _). split_and!; [by apply no_dotdot_confined|done|done].
Qed.
