(* ===== verification/FastStatus.v ===== *)
(** The zero-IPC status file: src/src/core/fast_status.rs.

    The 32-byte record the daemon writes and the CLI reads, with the layout
    zerocopy derives from [repr(C)] on a little-endian target. The clock is an
    argument; a file is the byte list a read delivers, [None] when it cannot
    be opened. *)

From S2P Require Import Prelude.
Open Scope Z_scope.
Open Scope omg_scope.

Record FastStatus := {
  magic : Z;
  fs_version : Z;
  pad : list Z;
  total_packages : Z;
  explicit_packages : Z;
  orphan_packages : Z;
  updates_available : Z;
  timestamp : Z
}.

Definition MAGIC : Z := 0x4F4D4753.
Definition VERSION : Z := 1.
Definition FAST_STATUS_FRESHNESS_SECS : Z := 300.

(** [FastStatus::new]; [now] is the clock in seconds, [None] before 1970. *)
Definition fast_status_new (total explicit orphans updates : Z) (now : option Z) : FastStatus :=
  {| magic := MAGIC; fs_version := VERSION; pad := [0; 0; 0];
     total_packages := Z.min total u32_max; explicit_packages := Z.min explicit u32_max;
     orphan_packages := Z.min orphans u32_max; updates_available := Z.min updates u32_max;
     timestamp := default 0 now |}.

(** [IntoBytes::as_bytes] of the [repr(C)] layout: no implicit padding. *)
Definition status_as_bytes (s : FastStatus) : list Z :=
  le_bytes 4 (magic s) ++ le_bytes 1 (fs_version s) ++ pad s ++ le_bytes 4 (total_packages s)
  ++ le_bytes 4 (explicit_packages s) ++ le_bytes 4 (orphan_packages s)
  ++ le_bytes 4 (updates_available s) ++ le_bytes 8 (timestamp s).

Definition STATUS_SIZE : nat := 32.

(** Split off [n] bytes. *)
Definition field (off n : nat) (b : list Z) : Z := le_value (take n (drop off b)).

(** [FromBytes::read_from_bytes]: exactly [STATUS_SIZE] bytes. *)
Definition read_from_bytes (b : list Z) : option FastStatus :=
  if decide (length b = STATUS_SIZE) then
    Some {| magic := field 0 4 b; fs_version := field 4 1 b; pad := take 3 (drop 5 b);
            total_packages := field 8 4 b; explicit_packages := field 12 4 b;
            orphan_packages := field 16 4 b; updates_available := field 20 4 b;
            timestamp := field 24 8 b |}
  else None.

(** [read_from_file]: [read_exact] fails on a short file and ignores what
    follows the record. *)
Definition read_from_file (file : option (list Z)) (now : option Z) : option FastStatus :=
  match file with
  | None => None
  | Some content =>
      if (length content <? STATUS_SIZE)%nat then None
      else
        match read_from_bytes (take STATUS_SIZE content) with
        | None => None
        | Some status =>
            if negb (magic status =? MAGIC) || negb (fs_version status =? VERSION) then None
            else
              let now := default 0 now in
              if (now <? timestamp status) || (FAST_STATUS_FRESHNESS_SECS <? now - timestamp status)
              then None else Some status
        end
  end.

(** The steps of [write_to_file] that can fail. *)
Inductive StatusWriteStep := CreateTemp | WriteTemp | SyncTemp | PersistTemp | SyncParent.

(** [write_to_file]: the file at [path] afterwards and whether it reported
    success. The record reaches [path] only through the rename. *)
Definition write_to_file (fault : StatusWriteStep -> bool) (s : FastStatus) (file : option (list Z))
  : option (list Z) * bool :=
  if fault CreateTemp then (file, false)
  else if fault WriteTemp then (file, false)
  else if fault SyncTemp then (file, false)
  else if fault PersistTemp then (file, false)
  else if fault SyncParent then (Some (status_as_bytes s), false)
  else (Some (status_as_bytes s), true).

(** [read_validated]: only below a directory that passed validation. *)
Definition read_validated (parent_valid : bool) (file : option (list Z)) (now : option Z) : option FastStatus :=
  if parent_valid then read_from_file file now else None.

Definition read_explicit_count (parent_valid : bool) (file : option (list Z)) (now : option Z) : option Z :=
  explicit_packages <$> read_validated parent_valid file now.

(** * Lemmas *)

(** Field values in the range of their Rust types. *)
Definition in_range (s : FastStatus) : Prop :=
  0 <= magic s < 256 ^ 4 /\ 0 <= fs_version s < 256 ^ 1 /\ length (pad s) = 3%nat
  /\ 0 <= total_packages s < 256 ^ 4 /\ 0 <= explicit_packages s < 256 ^ 4
  /\ 0 <= orphan_packages s < 256 ^ 4 /\ 0 <= updates_available s < 256 ^ 4
  /\ 0 <= timestamp s < 256 ^ 8.

Lemma status_as_bytes_length s : length (pad s) = 3%nat -> length (status_as_bytes s) = STATUS_SIZE.
Proof. intros Hp. unfold status_as_bytes. rewrite !length_app, !length_le_bytes, Hp. done. Qed.

(** The pieces of the layout, in order. *)
Definition pieces (s : FastStatus) : list (list Z) :=
  [le_bytes 4 (magic s); le_bytes 1 (fs_version s); pad s; le_bytes 4 (total_packages s);
   le_bytes 4 (explicit_packages s); le_bytes 4 (orphan_packages s);
   le_bytes 4 (updates_available s); le_bytes 8 (timestamp s)].

Lemma status_as_bytes_pieces s : status_as_bytes s = concat (pieces s).
Proof. unfold status_as_bytes, pieces. cbn [concat]. by rewrite app_nil_r. Qed.

(** The slice at the offset of piece [i] is that piece. *)
Lemma slice_piece (ps : list (list Z)) i p off n :
  ps !! i = Some p -> off = length (concat (take i ps)) -> n = length p ->
  take n (drop off (concat ps)) = p.
Proof.
  intros Hi -> ->. rewrite <- (take_drop_middle ps i p Hi) at 2. rewrite concat_app. cbn [concat].
  by rewrite drop_app_length, take_app_length.
Qed.

Lemma read_from_bytes_as_bytes s : in_range s -> read_from_bytes (status_as_bytes s) = Some s.
Proof.
  intros (H1 & H2 & H3 & H4 & H5 & H6 & H7 & H8). unfold read_from_bytes.
  rewrite decide_True by (by apply status_as_bytes_length). rewrite status_as_bytes_pieces. unfold field.
  assert (Hs : forall i p off n, pieces s !! i = Some p -> off = length (concat (take i (pieces s))) ->
    n = length p -> take n (drop off (concat (pieces s))) = p) by (intros; by eapply slice_piece).
  rewrite (Hs 0%nat (le_bytes 4 (magic s))), (Hs 1%nat (le_bytes 1 (fs_version s))), (Hs 2%nat (pad s)),
    (Hs 3%nat (le_bytes 4 (total_packages s))), (Hs 4%nat (le_bytes 4 (explicit_packages s))),
    (Hs 5%nat (le_bytes 4 (orphan_packages s))), (Hs 6%nat (le_bytes 4 (updates_available s))),
    (Hs 7%nat (le_bytes 8 (timestamp s)));
    try reflexivity; try (cbn [pieces take concat]; rewrite ?length_app, ?length_le_bytes, ?H3; reflexivity);
    try (by rewrite H3).
  rewrite !le_value_le_bytes by done. by destruct s.
Qed.

Lemma fast_status_new_in_range t e o u now :
  0 <= t -> 0 <= e -> 0 <= o -> 0 <= u -> (forall n, now = Some n -> 0 <= n < 2 ^ 64) ->
  in_range (fast_status_new t e o u now).
Proof.
  intros. unfold in_range, fast_status_new, u32_max, MAGIC, VERSION. simpl.
  assert (0 <= default 0 now < 2 ^ 64) by (destruct now; simpl; [auto|lia]). split_and!; lia.
Qed.

(** * Property *)

(** the status file is exact and never stale: after a reported write of
    the counters at time [t0], a reader at time [t1] gets that very record
    when it is at most five minutes old and nothing otherwise; a failed write
    leaves the previous file or a complete record, never a partial one; and
    whatever is in the file, a reader only ever returns a record with the
    right header that is neither from the future nor stale. *)
Theorem fast_status_roundtrip :
  (forall fault t e o u t0 file file' t1,
     0 <= t -> 0 <= e -> 0 <= o -> 0 <= u -> 0 <= t0 < 2 ^ 64 ->
     write_to_file fault (fast_status_new t e o u (Some t0)) file = (file', true) ->
     read_from_file file' (Some t1) =
       if (t0 <=? t1) && (t1 - t0 <=? FAST_STATUS_FRESHNESS_SECS)
       then Some (fast_status_new t e o u (Some t0)) else None)
  /\ (forall fault s file, let file' := (write_to_file fault s file).1 in
        file' = file \/ file' = Some (status_as_bytes s))
  /\ (forall file now s, read_from_file file (Some now) = Some s ->
        magic s = MAGIC /\ fs_version s = VERSION /\ timestamp s <= now <= timestamp s + 300).
Proof.
  split_and!.
  - intros fault t e o u t0 file file' t1 Ht He Ho Hu Ht0 Hw. unfold write_to_file in Hw.
    assert (file' = Some (status_as_bytes (fast_status_new t e o u (Some t0)))) as ->
      by (repeat case_match; congruence).
    set (s := fast_status_new t e o u (Some t0)).
    assert (Hr : in_range s) by (apply fast_status_new_in_range; naive_solver).
    unfold read_from_file. rewrite status_as_bytes_length by done. cbn [Nat.ltb Nat.leb STATUS_SIZE].
    rewrite take_ge by (by rewrite status_as_bytes_length). rewrite read_from_bytes_as_bytes by done.
    subst s. cbn [magic fs_version timestamp fast_status_new default negb].
    rewrite !Z.eqb_refl. cbn [negb orb]. unfold FAST_STATUS_FRESHNESS_SECS.
    simpl.
    destruct (Z.leb_spec t0 t1), (Z.ltb_spec t1 t0), (Z.leb_spec (t1 - t0) 300), (Z.ltb_spec 300 (t1 - t0)); simpl; done || lia.
  - intros fault s file. unfold write_to_file. repeat case_match; simpl; auto.
  - intros file now s. unfold read_from_file. destruct file as [content|]; [|done].
    case_match; [done|]. destruct (read_from_bytes _) as [s'|]; [|done].
    destruct (Z.eqb_spec (magic s') MAGIC); [|done]. destruct (Z.eqb_spec (fs_version s') VERSION); [|done]. simpl.
    unfold FAST_STATUS_FRESHNESS_SECS.
    destruct (Z.ltb_spec now (timestamp s')); [done|]. destruct (Z.ltb_spec 300 (now - timestamp s')); [done|].
    intros [= <-]. split_and!; (done || lia).
Qed.
