(* ===== verification/History.v ===== *)
(** Package transaction history: src/src/core/history.rs.

    The bounded live file, the append-only archive of retired transactions and
    the operations of [HistoryManager] under its lock. Files are modelled by
    the records they decode to: the live file is absent, refused, malformed
    JSON (with its bytes) or a list of transactions; the archive is a list of
    transactions followed by bytes that do not decode. serde_json and the byte
    framing of records are thereby abstracted. Each file-system operation
    consults a failure oracle, so that an oracle also describes a crash: the
    state after the failing operation is the state the next run finds. *)

From S2P Require Import Prelude.
Open Scope Z_scope.
Open Scope omg_scope.

Definition MAX_HISTORY_TRANSACTIONS : nat := 1000.

Inductive TransactionType := TxInstall | TxRemove | TxUpdate | TxSync.

#[export] Instance TransactionType_eq_dec : EqDecision TransactionType.
Proof. solve_decision. Defined.

Record PackageChange := {
  change_name : rstr;
  old_version : option rstr;
  new_version : option rstr;
  source : rstr
}.

#[export] Instance PackageChange_eq_dec : EqDecision PackageChange.
Proof. solve_decision. Defined.

Definition is_official_source (c : PackageChange) : bool :=
  negb (eq_ignore_ascii_case (source c) (str "aur")) && negb (eq_ignore_ascii_case (source c) (str "local")).

(** [tx_seconds] and [tx_nanoseconds] are the parts of [jiff::Timestamp]. *)
Record Transaction := {
  tx_id : rstr;
  tx_seconds : Z;
  tx_nanoseconds : Z;
  transaction_type : TransactionType;
  changes : list PackageChange;
  success : bool
}.

#[export] Instance Transaction_eq_dec : EqDecision Transaction.
Proof. solve_decision. Defined.

Inductive LiveFile :=
| LiveAbsent
| LiveRefused
| LiveMalformed (content : list Z)
| LiveRecords (records : list Transaction).

Inductive ArchiveFile :=
| ArchiveAbsent
| ArchiveRefused
| ArchiveRecords (records : list Transaction) (undecodable : list Z).

Record HistoryStore := {
  live : LiveFile;
  archive : ArchiveFile;
  corrupt_files : list (list Z)
}.

Inductive HistoryError :=
| HistoryRefused
| HistoryMalformed
| ArchiveUnreadableError
| ArchiveMalformed
| HistoryConflict (id : rstr)
| HistoryIo.

(** The file-system operations that can fail. *)
Inductive HistoryOp :=
| HQuarantine | HOpenArchive | HWriteArchive | HRestoreArchive | HSyncArchive | HSyncArchiveDir
| HWriteLive | HSyncLiveDir.

(** * Reading *)

Definition load_locked (st : HistoryStore) : result (list Transaction) HistoryError :=
  match live st with
  | LiveAbsent => Ok []
  | LiveRefused => Err HistoryRefused
  | LiveMalformed _ => Err HistoryMalformed
  | LiveRecords l => Ok l
  end.

(** One record of the loop of [load]: [positions] is a lookup by id in the
    history collected so far. *)
Definition merge_record (history : list Transaction) (transaction : Transaction)
  : result (list Transaction) HistoryError :=
  match List.find (fun t => str_eqb (tx_id t) (tx_id transaction)) history with
  | Some known =>
      ensure (bool_decide (known = transaction)) (HistoryConflict (tx_id transaction)) ;?
      Ok history
  | None => Ok (history ++ [transaction])
  end.

Definition load (st : HistoryStore) : result (list Transaction) HistoryError :=
  let? live_records := load_locked st in
  let? (archived, undecodable) :=
    match archive st with
    | ArchiveAbsent => Ok ([], [])
    | ArchiveRefused => Err ArchiveUnreadableError
    | ArchiveRecords l u => Ok (l, u)
    end in
  let? history := for_each merge_record [] archived in
  match undecodable with
  | [] => for_each merge_record history live_records
  | _ => Err ArchiveMalformed
  end.

(** [rollback_referenced_versions]: the pairs a [BTreeSet] collects, [now]
    being the clock in seconds; [i64] arithmetic saturates. *)
Definition i64_clamp (z : Z) : Z := Z.max (- 2 ^ 63) (Z.min z (2 ^ 63 - 1)).

Definition referenced_by (cutoff : Z) (entry : Transaction) : list (rstr * rstr) :=
  if negb (success entry) then []
  else if negb (bool_decide (transaction_type entry = TxRemove) || bool_decide (transaction_type entry = TxUpdate))
  then []
  else if tx_seconds entry <? cutoff then []
  else omap (fun c => match old_version c with Some v => Some (change_name c, v) | None => None end) (changes entry).

Definition rollback_referenced_versions (now days : Z) (st : HistoryStore)
  : result (gset (rstr * rstr)) HistoryError :=
  let? entries := load st in
  let cutoff := i64_clamp (now - i64_clamp (days * (24 * 60 * 60))) in
  Ok (list_to_set (entries ≫= referenced_by cutoff)).

(** * Writing *)

Definition set_live (st : HistoryStore) (l : LiveFile) : HistoryStore :=
  {| live := l; archive := archive st; corrupt_files := corrupt_files st |}.

Definition set_archive (st : HistoryStore) (a : ArchiveFile) : HistoryStore :=
  {| live := live st; archive := a; corrupt_files := corrupt_files st |}.

(** [save]: an atomic replacement; the directory sync comes after it. *)
Definition save (fault : HistoryOp -> bool) (history : list Transaction) (st : HistoryStore)
  : HistoryStore * result unit HistoryError :=
  if fault HWriteLive then (st, Err HistoryIo)
  else
    let st := set_live st (LiveRecords history) in
    if fault HSyncLiveDir then (st, Err HistoryIo) else (st, Ok tt).

(** [archive_drained]. When the append fails and the archive cannot be
    restored, [kept] whole records and [torn] further bytes stay in it. *)
Definition archive_drained (fault : HistoryOp -> bool) (kept : nat) (torn : list Z)
    (drained : list Transaction) (st : HistoryStore) : HistoryStore * result unit HistoryError :=
  match drained with
  | [] => (st, Ok tt)
  | _ =>
      if fault HOpenArchive then (st, Err HistoryIo)
      else
        match archive st with
        | ArchiveRefused => (st, Err ArchiveUnreadableError)
        | ArchiveRecords _ (_ :: _) => (st, Err ArchiveMalformed)
        | _ =>
            let old := match archive st with ArchiveRecords l _ => l | _ => [] end in
            if fault HWriteArchive then
              if fault HRestoreArchive then
                (set_archive st (ArchiveRecords (old ++ take kept drained) torn), Err HistoryIo)
              else (set_archive st (ArchiveRecords old []), Err HistoryIo)
            else
              let st := set_archive st (ArchiveRecords (old ++ drained) []) in
              if fault HSyncArchive then (st, Err HistoryIo)
              else if fault HSyncArchiveDir then (st, Err HistoryIo)
              else (st, Ok tt)
        end
  end.

(** The load-or-quarantine prologue of [add_transaction_locked]. *)
Definition load_or_quarantine (fault : HistoryOp -> bool) (st : HistoryStore)
  : HistoryStore * result (list Transaction) HistoryError :=
  match live st with
  | LiveMalformed content =>
      if fault HQuarantine then (st, Err HistoryIo)
      else ({| live := LiveAbsent; archive := archive st; corrupt_files := corrupt_files st ++ [content] |}, Ok [])
  | _ => (st, load_locked st)
  end.

(** [add_transaction_locked] for the transaction the clock and the UUID
    generator complete. *)
Definition add_transaction_locked (fault : HistoryOp -> bool) (kept : nat) (torn : list Z)
    (transaction : Transaction) (st : HistoryStore) : HistoryStore * result unit HistoryError :=
  match load_or_quarantine fault st with
  | (st, Err e) => (st, Err e)
  | (st, Ok history) =>
      let history := history ++ [transaction] in
      let excess := (length history - MAX_HISTORY_TRANSACTIONS)%nat in
      if (0 <? excess)%nat then
        match archive_drained fault kept torn (take excess history) st with
        | (st, Err e) => (st, Err e)
        | (st, Ok tt) => save fault (drop excess history) st
        end
      else save fault history st
  end.

(** [finish_operation]: the operation's own result, the outcome of the audit
    record and who owns the history decide what is recorded and returned. *)
Inductive FinishError (E : Type) :=
| OperationFailed (e : E)
| AuditFailed (operation : option E)
| HistoryFailed (operation : option E) (e : HistoryError).
Arguments OperationFailed {_}. Arguments AuditFailed {_}. Arguments HistoryFailed {_}.

Definition finish_operation {E} (fault : HistoryOp -> bool) (kept : nat) (torn : list Z)
    (audit_ok parent_owns_history : bool) (transaction : bool -> Transaction)
    (operation_result : result unit E) (st : HistoryStore) : HistoryStore * result unit (FinishError E) :=
  if negb audit_ok then
    (st, Err (AuditFailed match operation_result with Ok _ => None | Err e => Some e end))
  else if parent_owns_history then (st, map_err OperationFailed operation_result)
  else
    let '(st, history_result) := add_transaction_locked fault kept torn (transaction (is_ok operation_result)) st in
    (st, match operation_result, history_result with
         | Ok tt, Ok tt => Ok tt
         | Err operation_error, Ok tt => Err (OperationFailed operation_error)
         | Ok tt, Err history_error => Err (HistoryFailed None history_error)
         | Err operation_error, Err history_error => Err (HistoryFailed (Some operation_error) history_error)
         end).

(** * Merging records *)

Definition same_id (a b : Transaction) : bool := str_eqb (tx_id a) (tx_id b).

Definition unique_ids (h : list Transaction) : Prop := NoDup (map tx_id h).

Lemma merge_record_Ok h t h' :
  unique_ids h -> merge_record h t = Ok h' ->
  unique_ids h' /\ t ∈ h' /\ (h' = h \/ h' = h ++ [t]).
Proof.
  unfold merge_record, unique_ids. intros Hu. destruct (List.find _ h) as [k|] eqn:E.
  - apply List.find_some in E as [Hin _]. intros H. apply res_bind_Ok in H as ([] & Hk & [= <-]).
    apply ensure_Ok, bool_decide_eq_true in Hk as ->. split_and!; [done|by apply list_elem_of_In|by left].
  - intros [= <-]. split_and!; [|set_solver|by right]. rewrite map_app. apply NoDup_app. split_and!; [done| |apply NoDup_singleton].
    intros i Hi ->%list_elem_of_singleton. apply list_elem_of_In, in_map_iff in Hi as (x & Hx & Hin).
    apply (List.find_none _ _ E) in Hin. unfold str_eqb in Hin. by apply bool_decide_eq_false in Hin.
Qed.

Lemma merge_records_Ok h l h' :
  unique_ids h -> for_each merge_record h l = Ok h' ->
  unique_ids h' /\ (forall t, t ∈ h -> t ∈ h') /\ (forall t, t ∈ l -> t ∈ h') /\ (forall t, t ∈ h' -> t ∈ h \/ t ∈ l).
Proof.
  revert h; induction l as [|x l IH]; intros h Hu; cbn [for_each]; [intros [= <-]; set_solver|].
  intros H. apply res_bind_Ok in H as (h1 & H1 & H). apply merge_record_Ok in H1 as (Hu1 & Hx & Hh); [|done].
  apply IH in H as (? & H2 & H3 & H4); [|done]. split; [done|]. destruct Hh as [->| ->]; set_solver.
Qed.

(** A record already collected changes nothing. *)
Lemma merge_record_known h t : unique_ids h -> t ∈ h -> merge_record h t = Ok h.
Proof.
  intros Hu Hin. unfold merge_record. destruct (List.find _ h) as [k|] eqn:E.
  - apply List.find_some in E as [Hk Hid]. unfold str_eqb in Hid. apply bool_decide_eq_true in Hid.
    assert (k = t) as ->; [|by rewrite bool_decide_true by done].
    apply list_elem_of_In in Hk. clear -Hu Hin Hk Hid. unfold unique_ids in Hu.
    induction h as [|x h IH]; [by apply elem_of_nil in Hin|]. simpl in Hu. apply NoDup_cons in Hu as [Hn Hu].
    assert (Hno : forall y, y ∈ h -> tx_id y ≠ tx_id x).
    { intros y Hy Heq. apply Hn. apply list_elem_of_In, in_map_iff. exists y. split; [done|by apply list_elem_of_In]. }
    apply elem_of_cons in Hin as [->|Hin], Hk as [->|Hk]; [done|by apply Hno in Hk|by apply Hno in Hin|auto].
  - apply list_elem_of_In in Hin. apply (List.find_none _ _ E) in Hin. unfold str_eqb in Hin.
    by apply bool_decide_eq_false in Hin.
Qed.

Lemma merge_records_known h l : unique_ids h -> (forall t, t ∈ l -> t ∈ h) -> for_each merge_record h l = Ok h.
Proof.
  intros Hu. induction l as [|x l IH]; intros Hl; cbn [for_each]; [done|].
  rewrite merge_record_known by set_solver. apply IH. set_solver.
Qed.

(** Records archived twice, once for good and once in an interrupted
    retirement, are read once. *)
Lemma merge_repeated a x y h :
  for_each merge_record [] (a ++ x ++ y) = Ok h -> for_each merge_record [] (a ++ x ++ x ++ y) = Ok h.
Proof.
  rewrite !for_each_app. destruct (for_each merge_record [] a) as [ha|] eqn:Ea; [|done]. cbn [res_bind].
  rewrite !for_each_app. destruct (for_each merge_record ha x) as [hx|] eqn:Ex; [|done]. cbn [res_bind].
  rewrite for_each_app. destruct (merge_records_Ok [] a ha (NoDup_nil_2 : unique_ids []) Ea) as [Hua _].
  apply merge_records_Ok in Ex as (Hux & _ & Hx & _); [|done]. by rewrite (merge_records_known hx x).
Qed.

(** * The store as one sequence of records *)

Definition archived_records (st : HistoryStore) : list Transaction :=
  match archive st with ArchiveRecords l _ => l | _ => [] end.

Definition live_records (st : HistoryStore) : list Transaction :=
  match live st with LiveRecords l => l | _ => [] end.

Lemma load_Ok_inv st l :
  load st = Ok l ->
  for_each merge_record [] (archived_records st ++ live_records st) = Ok l
  /\ load_locked st = Ok (live_records st)
  /\ archive st ≠ ArchiveRefused /\ (forall r u, archive st = ArchiveRecords r u -> u = [])
  /\ (forall c, live st ≠ LiveMalformed c).
Proof.
  unfold load, load_locked, archived_records, live_records. intros H.
  apply res_bind_Ok in H as (lr & Hlive & H). apply res_bind_Ok in H as ([ar u] & Ha & H).
  apply res_bind_Ok in H as (h & Hh & H). rewrite for_each_app.
  assert (u = []) as -> by (by destruct u).
  destruct (live st); try done; injection Hlive as <-; destruct (archive st); try done; simplify_eq;
    rewrite ?Hh; cbn [res_bind for_each] in *;
    (split_and!; [congruence|done|done|intros ? ? [=]; congruence|done]).
Qed.

Lemma load_Ok_intro st l :
  load_locked st = Ok (live_records st) -> archive st ≠ ArchiveRefused ->
  (forall r u, archive st = ArchiveRecords r u -> u = []) ->
  for_each merge_record [] (archived_records st ++ live_records st) = Ok l -> load st = Ok l.
Proof.
  unfold load. intros -> Ha Hu H. cbn [res_bind]. rewrite for_each_app in H. unfold archived_records in H.
  destruct (archive st) as [| |r u]; [|done|rewrite (Hu r u eq_refl)]; cbn [res_bind for_each] in *; [done|].
  destruct (for_each merge_record [] r); [done|done].
Qed.

Lemma merge_fresh R l t :
  for_each merge_record [] R = Ok l -> (forall x, x ∈ l -> tx_id x ≠ tx_id t) ->
  for_each merge_record [] (R ++ [t]) = Ok (l ++ [t]).
Proof.
  intros H Hf. rewrite for_each_app, H. cbn [res_bind for_each]. unfold merge_record.
  destruct (List.find _ l) as [k|] eqn:E; [|done]. apply List.find_some in E as [Hk Hid].
  unfold str_eqb in Hid. apply bool_decide_eq_true in Hid. apply list_elem_of_In in Hk. by apply Hf in Hk.
Qed.

Lemma merge_prefix_repeated A L n l :
  for_each merge_record [] (A ++ L) = Ok l -> for_each merge_record [] ((A ++ take n L) ++ L) = Ok l.
Proof.
  intros H. rewrite <- (take_drop n L) in H. apply merge_repeated in H. by rewrite take_drop, app_assoc in H.
Qed.

(** A store with the given records, otherwise as [st], reads as [l]. *)
Lemma load_of_parts st A L l :
  live st = LiveRecords L \/ live st = LiveAbsent /\ L = [] ->
  archive st = ArchiveRecords A [] \/ archive st = ArchiveAbsent /\ A = [] ->
  for_each merge_record [] (A ++ L) = Ok l -> load st = Ok l.
Proof.
  intros Hl Ha H. apply load_Ok_intro; unfold load_locked, live_records, archived_records.
  - by destruct Hl as [->|[-> _]].
  - by destruct Ha as [->|[-> _]].
  - intros r u. destruct Ha as [->|[-> _]]; by intros [= <- <-].
  - destruct Hl as [->|[-> ->]], Ha as [->|[-> ->]]; done.
Qed.

Lemma load_parts st l :
  load st = Ok l ->
  (live st = LiveRecords (live_records st) \/ live st = LiveAbsent /\ live_records st = [])
  /\ (archive st = ArchiveRecords (archived_records st) [] \/ archive st = ArchiveAbsent /\ archived_records st = [])
  /\ for_each merge_record [] (archived_records st ++ live_records st) = Ok l.
Proof.
  intros (H & Hl & Ha & Hu & Hm)%load_Ok_inv. split_and!; [| |done].
  - unfold load_locked, live_records in *. destruct (live st); try done; auto.
  - unfold archived_records. destruct (archive st) as [| |r u] eqn:E; try done; [by right|]. left. by rewrite (Hu r u eq_refl).
Qed.

(** What the archive holds after [archive_drained], failures included. *)
Lemma archive_drained_cases fault kept torn X st st' r :
  (archive st = ArchiveRecords (archived_records st) [] \/ archive st = ArchiveAbsent /\ archived_records st = []) ->
  archive_drained fault kept torn X st = (st', r) ->
  live st' = live st
  /\ ((archive st' = archive st \/ archive st' = ArchiveRecords (archived_records st) []) /\ (r = Ok tt -> X = [])
      \/ archive st' = ArchiveRecords (archived_records st ++ X) []
      \/ archive st' = ArchiveRecords (archived_records st ++ take kept X) torn /\ r = Err HistoryIo).
Proof.
  intros Ha. unfold archive_drained. destruct X as [|x X]; [intros [= <- <-]; auto|].
  destruct (fault HOpenArchive); [intros [= <- <-]; split; [done|]; left; split; [by left|done]|].
  assert (Hold : match archive st with ArchiveRecords l _ => l | _ => [] end = archived_records st) by done.
  cbv zeta. rewrite Hold. set (old := archived_records st) in *.
  assert (Hgo : (if fault HWriteArchive
     then if fault HRestoreArchive then (set_archive st (ArchiveRecords (old ++ take kept (x :: X)) torn), Err HistoryIo)
          else (set_archive st (ArchiveRecords old []), Err HistoryIo)
     else if fault HSyncArchive then (set_archive st (ArchiveRecords (old ++ x :: X) []), Err HistoryIo)
          else if fault HSyncArchiveDir then (set_archive st (ArchiveRecords (old ++ x :: X) []), Err HistoryIo)
          else (set_archive st (ArchiveRecords (old ++ x :: X) []), Ok tt)) = (st', r) ->
     live st' = live st
     /\ ((archive st' = archive st \/ archive st' = ArchiveRecords old []) /\ (r = Ok tt -> x :: X = [])
         \/ archive st' = ArchiveRecords (old ++ x :: X) []
         \/ archive st' = ArchiveRecords (old ++ take kept (x :: X)) torn /\ r = Err HistoryIo)).
  { destruct (fault HWriteArchive); [destruct (fault HRestoreArchive)|destruct (fault HSyncArchive); [|destruct (fault HSyncArchiveDir)]];
      intros [= <- <-]; (split; [done|]); auto. left. split; [by right|done]. }
  destruct Ha as [Ha|[Ha _]]; rewrite Ha in Hgo |- *; exact Hgo.
Qed.

Lemma save_cases fault history st st' r :
  save fault history st = (st', r) ->
  archive st' = archive st
  /\ (st' = st /\ r = Err HistoryIo \/ live st' = LiveRecords history).
Proof.
  unfold save. destruct (fault HWriteLive); [intros [= <- <-]; auto|].
  destruct (fault HSyncLiveDir); intros [= <- <-]; simpl; auto.
Qed.

(** * Properties *)

(** C26: recording a transaction is atomic for every reader and never loses
    history: whichever file operation fails, and wherever a crash interrupts
    it, the next [load] returns the old history or the old history followed by
    the new transaction (records retired twice are read once); only an append
    that could neither complete nor be undone leaves undecodable bytes, which
    later reads report, with every earlier record still in one of the files.
    Success means the transaction is there and the live file is within its
    cap. *)
Theorem add_transaction_is_atomic fault kept torn transaction st st' r l :
  load st = Ok l -> (forall t, t ∈ l -> tx_id t ≠ tx_id transaction) ->
  add_transaction_locked fault kept torn transaction st = (st', r) ->
  (load st' = Ok l \/ load st' = Ok (l ++ [transaction])
   \/ torn ≠ [] /\ r = Err HistoryIo
      /\ archive st' = ArchiveRecords (archived_records st') torn
      /\ forall t, t ∈ l -> t ∈ archived_records st' \/ t ∈ live_records st')
  /\ (r = Ok tt -> load st' = Ok (l ++ [transaction])
        /\ (length (live_records st) <= MAX_HISTORY_TRANSACTIONS ->
            length (live_records st') <= MAX_HISTORY_TRANSACTIONS)%nat).
Proof.
  intros Hload Hfresh E. destruct (load_parts st l Hload) as (Hl & Ha & Hm).
  unfold add_transaction_locked in E.
  assert (Hlq : load_or_quarantine fault st = (st, Ok (live_records st))).
  { unfold load_or_quarantine. destruct (load_Ok_inv st l Hload) as (_ & Hll & _ & _ & Hmal).
    destruct (live st); try (by rewrite Hll); by destruct (Hmal content). }
  rewrite Hlq in E. clear Hlq. set (L := live_records st) in *. set (A := archived_records st) in *.
  set (excess := (length (L ++ [transaction]) - MAX_HISTORY_TRANSACTIONS)%nat) in *.
  assert (Hall : for_each merge_record [] ((A ++ L) ++ [transaction]) = Ok (l ++ [transaction])) by (by apply merge_fresh).
  rewrite <- app_assoc in Hall.
  assert (Hexc : excess = (length L + 1 - MAX_HISTORY_TRANSACTIONS)%nat) by (subst excess; by rewrite length_app).
  clearbody excess. unfold MAX_HISTORY_TRANSACTIONS in *.
  destruct (Nat.ltb_spec 0 excess) as [Hex|Hex].
  - assert (HX : take excess (L ++ [transaction]) = take excess L)
      by (apply take_app_le; lia).
    rewrite HX in E. destruct (archive_drained fault kept torn (take excess L) st) as [st1 [[]|e]] eqn:Ed;
      apply archive_drained_cases in Ed as (Hl1 & Hcase); try exact Ha.
    + assert (Ha1 : archive st1 = ArchiveRecords (A ++ take excess L) []).
      { destruct Hcase as [[_ Hnil]|[?|[_ ?]]]; [|done|done]. specialize (Hnil eq_refl).
        apply (f_equal length) in Hnil. rewrite length_take in Hnil. simpl in Hnil. lia. }
      apply save_cases in E as (Ha' & [[-> ->]|Hl']).
      * split; [|done]. left. eapply (load_of_parts _ (A ++ take excess L) L); [by rewrite Hl1|by left|by apply merge_prefix_repeated].
      * assert (Hnew : load st' = Ok (l ++ [transaction])).
        { eapply (load_of_parts _ (A ++ take excess L) (drop excess (L ++ [transaction]))); [by left|left; congruence|].
          by rewrite <- HX, <- app_assoc, take_drop. }
        split; [by right; left|]. intros _. split; [done|]. intros _. unfold live_records. rewrite Hl', length_drop.
        rewrite length_app. simpl. lia.
    + injection E as <- <-. split; [|done]. destruct Hcase as [[Harch _]|[Harch|[Harch [= ->]]]].
      * left. eapply (load_of_parts _ A L); [by rewrite Hl1|destruct Harch as [->|?]; auto|done].
      * left. eapply (load_of_parts _ (A ++ take excess L) L); [by rewrite Hl1|by left|by apply merge_prefix_repeated].
      * destruct torn as [|b torn].
        -- left. eapply (load_of_parts _ (A ++ take kept (take excess L)) L); [by rewrite Hl1|by left|].
           rewrite take_take. by apply merge_prefix_repeated.
        -- right; right. split_and!; [done|done|unfold archived_records; by rewrite Harch|].
           intros t Ht. apply (merge_records_Ok [] _ l (NoDup_nil_2 : unique_ids [])) in Hm as (_ & _ & _ & Hm).
           apply Hm in Ht as [?%elem_of_nil|Ht]; [done|]. unfold archived_records, live_records. rewrite Harch, Hl1.
           apply elem_of_app in Ht as [Ht|Ht]; [left; apply elem_of_app; by left|by right].
  - apply save_cases in E as (Ha' & [[-> ->]|Hl']); [split; [by left|done]|].
    assert (Hnew : load st' = Ok (l ++ [transaction]))
      by (eapply (load_of_parts _ A (L ++ [transaction])); [by left|by rewrite Ha'|done]).
    split; [by right; left|]. intros _. split; [done|]. intros _. unfold live_records. rewrite Hl', length_app. simpl. lia.
Qed.

Definition sample_tx (id : string) : Transaction :=
  {| tx_id := str id; tx_seconds := 0; tx_nanoseconds := 0; transaction_type := TxInstall; changes := []; success := true |}.

(** A full live file, so that recording one more retires the oldest. *)
Definition full_store : HistoryStore :=
  {| live := LiveRecords (map (fun i => {| tx_id := [Z.of_nat i]; tx_seconds := 0; tx_nanoseconds := 0;
       transaction_type := TxInstall; changes := []; success := true |}) (seq 0 1000));
     archive := ArchiveAbsent; corrupt_files := [] |}.

Definition interrupted (op : HistoryOp) : bool := match op with HWriteLive => true | _ => false end.

Lemma add_transaction_is_atomic_witness :
  let st' := (add_transaction_locked interrupted 0 [] (sample_tx "new") full_store).1 in
  archived_records st' = [{| tx_id := [0]; tx_seconds := 0; tx_nanoseconds := 0;
       transaction_type := TxInstall; changes := []; success := true |}]
  /\ (load st' = Ok (live_records full_store) \/ load st' = Ok (live_records full_store ++ [sample_tx "new"])).
Proof.
  intros st'. split; [vm_compute; reflexivity|].
  destruct (add_transaction_is_atomic interrupted 0 [] (sample_tx "new") full_store st' (Err HistoryIo)
    (live_records full_store)) as [[H|[H|[H _]]] _].
  - vm_compute. reflexivity.
  - intros t Ht. apply list_elem_of_In, in_map_iff in Ht as (i & <- & _). discriminate.
  - vm_compute. reflexivity.
  - left. exact H.
  - right. exact H.
  - destruct H. reflexivity.
Defined.

(** The set of rollback references is what its specification says. *)
Lemma rollback_referenced_versions_spec now days st entries refs name version :
  load st = Ok entries -> rollback_referenced_versions now days st = Ok refs ->
  (name, version) ∈ refs <->
  exists entry change, entry ∈ entries /\ success entry = true
    /\ (transaction_type entry = TxRemove \/ transaction_type entry = TxUpdate)
    /\ i64_clamp (now - i64_clamp (days * 86400)) <= tx_seconds entry
    /\ change ∈ changes entry /\ change_name change = name /\ old_version change = Some version.
Proof.
  intros Hl H. unfold rollback_referenced_versions in H. rewrite Hl in H. injection H as <-.
  rewrite elem_of_list_to_set, list_elem_of_bind. change (24 * 60 * 60) with 86400.
  set (cutoff := i64_clamp _). unfold referenced_by. split.
  - intros (entry & Hin & He). exists entry. destruct (success entry); [|by apply elem_of_nil in Hin]. cbn [negb] in Hin.
    destruct (bool_decide_reflect (transaction_type entry = TxRemove)), (bool_decide_reflect (transaction_type entry = TxUpdate));
      cbn [orb negb] in Hin; try (by apply elem_of_nil in Hin);
      (destruct (Z.ltb_spec (tx_seconds entry) cutoff); [by apply elem_of_nil in Hin|]);
      apply list_elem_of_omap in Hin as (change & Hc & Hv); exists change; destruct (old_version change) eqn:Eo; naive_solver.
  - intros (entry & change & Hin & Hs & Ht & Hc & Hch & <- & Hv). exists entry. split; [|done]. rewrite Hs. cbn [negb].
    assert (bool_decide (transaction_type entry = TxRemove) || bool_decide (transaction_type entry = TxUpdate) = true) as ->
      by (apply orb_true_iff; rewrite !bool_decide_eq_true; done).
    cbn [negb]. destruct (Z.ltb_spec (tx_seconds entry) cutoff); [lia|].
    apply list_elem_of_omap. exists change. by rewrite Hv.
Qed.

(** Success is reported only when the operation, its audit record and, unless
    the parent process keeps the history, its history record all succeeded. *)
Lemma finish_operation_Ok {E} fault kept torn audit_ok owns tx (op : result unit E) st st' :
  finish_operation fault kept torn audit_ok owns tx op st = (st', Ok tt) ->
  audit_ok = true /\ op = Ok tt
  /\ (owns = true /\ st' = st \/ add_transaction_locked fault kept torn (tx true) st = (st', Ok tt)).
Proof.
  unfold finish_operation. destruct audit_ok; [|done]. destruct owns; cbn [negb].
  - destruct op as [[]|]; [|done]. intros [= <-]. auto.
  - destruct op as [[]|]; cbn [is_ok]; destruct (add_transaction_locked _ _ _ _ _) as [s [[]|]] eqn:Ea; try done.
    intros [= <-]. auto.
Qed.
