(* ===== verification/ArtifactInspector.v ===== *)
(** Inspection of built AUR packages before they are installed as root:
    src/src/package_managers/aur/artifact_inspector.rs, with the size budgets
    of src/src/runtimes/common.rs it reads through.

    Paths and contents are bytes, names are decoded strings, as in the code.
    Decompression, the tar format and SHA-256 are libraries and hence the
    operations of the class [ArchiveCodec]: a decoder is the sequence of reads
    it answers, an opened tar archive the sequence of its entries, each with
    what its accessors return ([None] for an error). The theorems hold for
    every instance. *)

From S2P Require Import Prelude RustPath Spdx Validation.
Open Scope Z_scope.
Open Scope omg_scope.

Definition MAX_DECLARED_BYTES : Z := 8 * 1024 * 1024 * 1024.
Definition MAX_MEMBERS : Z := 100000.
Definition MAX_ARCHIVE_STREAM_BYTES : Z := MAX_DECLARED_BYTES + MAX_MEMBERS * 1024.
Definition MAX_PATH_BYTES : Z := 4096.
Definition MAX_METADATA_BYTES : Z := 16 * 1024 * 1024.
Definition MAX_PRIVILEGED_FILES : Z := 256.
Definition INSPECTION_POLICY_VERSION : Z := 2.

Definition zlen {A} (l : list A) : Z := Z.of_nat (length l).

Inductive InspectError :=
| InspectIo
| InspectInvalidArchive
| InspectNonUtf8Path
| InspectUnsafePath
| InspectEmptyPath
| InspectAbsoluteLink
| InspectEscapingLink
| InspectEmptyLink
| InspectLinkWithoutTarget
| InspectTooManyMembers
| InspectDeclaredOverflow
| InspectDeclaredTooLarge
| InspectPathTooLong
| InspectDuplicatePath
| InspectSpecialFile
| InspectTooManyPrivileged
| InspectMetadataNotRegular
| InspectMetadataTooLarge
| InspectMetadataNonUtf8
| InspectMissingField (name : rstr)
| InspectInvalidField (e : ValidationError)
| InspectEmptyArchitecture
| InspectAmbiguousField (name : rstr)
| InspectInvalidFormat
| InspectMissingPkginfo
| InspectMissingBuildinfo
| InspectIdentityDiffers
| InspectMissingMtree.

(** ** Member paths and links *)

Definition push_component (parts : list rstr) (c : Component) : result (list rstr) InspectError :=
  match c with
  | Normal part => let? text := ok_or (decode_utf8 part) InspectNonUtf8Path in Ok (parts ++ [text])
  | CurDir => Ok parts
  | _ => Err InspectUnsafePath
  end.

Definition normalize_member_path (path : list Z) : result rstr InspectError :=
  let? parts := for_each push_component [] (components path) in
  ensure (negb (bool_decide (parts = []))) InspectEmptyPath ;?
  Ok (join_slash parts).

(** [Path::new(member).parent().map_or(0, |parent| parent.components().count())]. *)
Definition parent_depth (member : rstr) : nat :=
  length (components (as_bytes member)) - 1.

Definition link_step (depth : nat) (c : Component) : result nat InspectError :=
  match c with
  | Normal _ => Ok (S depth)
  | CurDir => Ok depth
  | ParentDir => match depth with S depth => Ok depth | O => Err InspectEscapingLink end
  | RootDir => Err InspectEscapingLink
  end.

Definition validate_relative_link (member : rstr) (target : list Z) (hard_link : bool) : result unit InspectError :=
  ensure (is_relative target) InspectAbsoluteLink ;?
  let? depth := for_each link_step (if hard_link then O else parent_depth member) (components target) in
  ensure (negb (bool_decide (depth = O))) InspectEmptyLink.

(** ** Metadata members *)

(** The value of a [name = value] line. *)
Definition line_field (name line : rstr) : option rstr :=
  match split_once (ch "=") line with
  | Some (key, value) => if str_eqb (trim key) name then Some (trim value) else None
  | None => None
  end.

Definition fields (name content : rstr) : list rstr := omap (line_field name) (byte_lines content).

Definition identity : Type := rstr * rstr * rstr * rstr.

Definition parse_pkginfo (content : rstr) : result identity InspectError :=
  let field name := head (fields (str name) content) in
  let? name := ok_or (field "pkgname"%string) (InspectMissingField (str "pkgname")) in
  let? version := ok_or (field "pkgver"%string) (InspectMissingField (str "pkgver")) in
  let base := default name (field "pkgbase"%string) in
  let? architecture := ok_or (field "arch"%string) (InspectMissingField (str "arch")) in
  map_err InspectInvalidField (validate_package_name name) ;?
  map_err InspectInvalidField (validate_package_name base) ;?
  map_err InspectInvalidField (validate_version version) ;?
  ensure (negb (str_eqb architecture [])) InspectEmptyArchitecture ;?
  Ok (name, version, base, architecture).

Definition exactly_one (name content : rstr) : result rstr InspectError :=
  match fields name content with
  | [value] => Ok value
  | _ => Err (InspectAmbiguousField name)
  end.

Definition parse_buildinfo (content : rstr) : result identity InspectError :=
  let? format := exactly_one (str "format") content in
  ensure (is_some_and (parse_uint u32_max format) (fun value => 0 <? value)) InspectInvalidFormat ;?
  let? name := exactly_one (str "pkgname") content in
  let? version := exactly_one (str "pkgver") content in
  let? base := exactly_one (str "pkgbase") content in
  let? architecture := exactly_one (str "pkgarch") content in
  Ok (name, version, base, architecture).

(** ** Reports *)

Record PrivilegedFile := {
  path : rstr;
  mode : Z;
  capability : option rstr
}.

Record ArtifactInspection := {
  policy_version : Z;
  archive_sha256 : rstr;
  package_name : rstr;
  package_version : rstr;
  package_base : rstr;
  architecture : rstr;
  report_member_count : Z;
  report_executable_files : list rstr;
  report_privileged_files : list PrivilegedFile;
  report_install_hook : option rstr;
  report_paired_build_reasons : list rstr
}.

Definition requires_exception (r : ArtifactInspection) : bool :=
  match report_install_hook r with Some _ => true | None => false end
  || match report_privileged_files r with [] => false | _ => true end.

Definition requires_paired_build (r : ArtifactInspection) : bool :=
  requires_exception r || match report_paired_build_reasons r with [] => false | _ => true end.

(** ** Size budgets (runtimes/common.rs) *)

(** What successive calls of [read] answer. *)
Definition Reads : Type := list (option (list Z)).

(** [BudgetedReader]: a read beyond the remaining budget is an error. *)
Fixpoint budgeted_reads (remaining : Z) (reads : Reads) : Reads :=
  match reads with
  | [] => []
  | None :: reads => None :: budgeted_reads remaining reads
  | Some chunk :: reads =>
      if remaining <? zlen chunk then None :: budgeted_reads remaining reads
      else Some chunk :: budgeted_reads (remaining - zlen chunk) reads
  end.

(** [BudgetedWriter] over an in-memory or temporary file. *)
Record BudgetedWriter := {
  inner : list Z;
  written : Z;
  budget : Z
}.

Definition budgeted_write (w : BudgetedWriter) (buffer : list Z) : result BudgetedWriter InspectError :=
  if saturating_sub64 (budget w) (written w) <? zlen buffer then Err InspectInvalidArchive
  else Ok {| inner := inner w ++ buffer; written := saturating_add64 (written w) (zlen buffer); budget := budget w |}.

(** [decode_xz_to]: [io::copy] from the decoder, stopping at the first error. *)
Definition decode_xz_to (reads : Reads) (output : BudgetedWriter) : result BudgetedWriter InspectError :=
  for_each (fun w read => let? chunk := ok_or read InspectInvalidArchive in budgeted_write w chunk) output reads.

Inductive ArchiveReader :=
| BudgetedReader (reads : Reads)
| TempFile (content : list Z).

(** The bytes a reader delivers, at most. *)
Definition delivered (r : ArchiveReader) : Z :=
  match r with
  | BudgetedReader reads => zlen (concat (omap id reads))
  | TempFile content => zlen content
  end.

(** ** The archive *)

Inductive EntryType := Regular | Directory | Symlink | Link | Special.

Record TarEntry := {
  entry_size : Z;
  entry_path : option (list Z);
  entry_type : EntryType;
  entry_link_name : option (option (list Z));
  entry_mode : option Z;
  entry_pax : option (option (list (option (list Z * list Z))));
  (** [entry.take(limit).read_to_end(..)] *)
  entry_read : Z -> option (list Z)
}.

Class ArchiveCodec := {
  zstd_open : list Z -> option Reads;
  xz_reads : list Z -> Reads;
  gzip_reads : list Z -> Reads;
  file_reads : list Z -> Reads;
  tar_entries : ArchiveReader -> option (list (option TarEntry));
  sha256_hex : list Z -> rstr;
  hex_encode : list Z -> rstr
}.

Section inspector.
Context `{ArchiveCodec}.

Definition archive_reader_with_limit (file : list Z) (limit : Z) : result ArchiveReader InspectError :=
  let magic := take 6 file in
  if starts_with [0x28; 0xb5; 0x2f; 0xfd] magic then
    let? decoder := ok_or (zstd_open file) InspectInvalidArchive in
    Ok (BudgetedReader (budgeted_reads limit decoder))
  else if starts_with [0xfd; ch "7"; ch "z"; ch "X"; ch "Z"; 0] magic then
    let? output := decode_xz_to (xz_reads file) {| inner := []; written := 0; budget := limit |} in
    Ok (TempFile (inner output))
  else if starts_with [0x1f; 0x8b] magic then Ok (BudgetedReader (budgeted_reads limit (gzip_reads file)))
  else Ok (BudgetedReader (budgeted_reads limit (file_reads file))).

Definition archive_reader (file : list Z) : result ArchiveReader InspectError :=
  archive_reader_with_limit file MAX_ARCHIVE_STREAM_BYTES.

Definition is_file (k : EntryType) : bool := match k with Regular => true | _ => false end.
Definition is_link (k : EntryType) : bool := match k with Symlink | Link => true | _ => false end.
Definition is_hard_link (k : EntryType) : bool := match k with Link => true | _ => false end.
Definition allowed_kind (k : EntryType) : bool := match k with Special => false | _ => true end.

Definition under (prefixes : list string) (member : rstr) : bool :=
  existsb (fun p => starts_with (str p) member) prefixes.

(** The reasons a member's location gives for a paired build. *)
Definition location_reasons (member : rstr) : list rstr :=
  (if under ["etc/"] member then [str "system-configuration"] else [])
  ++ (if under ["usr/lib/systemd/"; "etc/systemd/"] member then [str "systemd-unit"] else [])
  ++ (if under ["usr/lib/modules/"; "lib/modules/"] member then [str "kernel-module"] else [])
  ++ (if under ["usr/share/libalpm/hooks/"; "usr/share/libalpm/scripts/"] member
      then [str "package-manager-hook"] else [])
  ++ (if under ["usr/lib/udev/rules.d/"; "usr/lib/tmpfiles.d/"; "usr/lib/sysusers.d/";
                "usr/lib/modules-load.d/"; "usr/share/polkit-1/"; "usr/share/dbus-1/system-services/";
                "usr/share/dbus-1/system.d/"; "usr/lib/kernel/install.d/"; "usr/lib/initcpio/";
                "usr/share/mkinitcpio/"; "usr/lib/dracut/"; "usr/lib/NetworkManager/dispatcher.d/"] member
      then [str "privileged-system-integration"] else []).

Definition check_link (member : rstr) (entry : TarEntry) : result unit InspectError :=
  if is_link (entry_type entry) then
    let? link_name := ok_or (entry_link_name entry) InspectIo in
    let? target := ok_or link_name InspectLinkWithoutTarget in
    validate_relative_link member target (is_hard_link (entry_type entry))
  else Ok tt.

Definition capability_key (key : list Z) : bool :=
  str_eqb key (str "SCHILY.xattr.security.capability")
  || str_eqb key (str "LIBARCHIVE.xattr.security.capability").

Definition pax_capability (found : option rstr) (extension : option (list Z * list Z))
  : result (option rstr) InspectError :=
  let? e := ok_or extension InspectIo in
  Ok (if capability_key e.1 then Some (hex_encode e.2) else found).

Definition entry_capability (entry : TarEntry) : result (option rstr) InspectError :=
  let? extensions := ok_or (entry_pax entry) InspectIo in
  for_each pax_capability None (default [] extensions).

(** The variables of the loop of [inspect_archive]. *)
Record Scan := {
  seen : gset rstr;
  member_count : Z;
  declared_bytes : Z;
  executable_files : list rstr;
  privileged_files : list PrivilegedFile;
  paired_build_reasons : gset rstr;
  install_hook : option rstr;
  pkginfo : option identity;
  buildinfo : option identity;
  mtree_seen : bool
}.

Definition initial_scan : Scan :=
  {| seen := ∅; member_count := 0; declared_bytes := 0; executable_files := []; privileged_files := [];
     paired_build_reasons := ∅; install_hook := None; pkginfo := None; buildinfo := None; mtree_seen := false |}.

Definition with_pkginfo (i : identity) (s : Scan) : Scan :=
  {| seen := seen s; member_count := member_count s; declared_bytes := declared_bytes s;
     executable_files := executable_files s; privileged_files := privileged_files s;
     paired_build_reasons := paired_build_reasons s; install_hook := install_hook s;
     pkginfo := Some i; buildinfo := buildinfo s; mtree_seen := mtree_seen s |}.

Definition with_buildinfo (i : identity) (s : Scan) : Scan :=
  {| seen := seen s; member_count := member_count s; declared_bytes := declared_bytes s;
     executable_files := executable_files s; privileged_files := privileged_files s;
     paired_build_reasons := paired_build_reasons s; install_hook := install_hook s;
     pkginfo := pkginfo s; buildinfo := Some i; mtree_seen := mtree_seen s |}.

Definition with_mtree (s : Scan) : Scan :=
  {| seen := seen s; member_count := member_count s; declared_bytes := declared_bytes s;
     executable_files := executable_files s; privileged_files := privileged_files s;
     paired_build_reasons := paired_build_reasons s; install_hook := install_hook s;
     pkginfo := pkginfo s; buildinfo := buildinfo s; mtree_seen := true |}.

Definition with_install_hook (digest : rstr) (s : Scan) : Scan :=
  {| seen := seen s; member_count := member_count s; declared_bytes := declared_bytes s;
     executable_files := executable_files s; privileged_files := privileged_files s;
     paired_build_reasons := paired_build_reasons s ∪ {[str "install-hook"]};
     install_hook := Some digest;
     pkginfo := pkginfo s; buildinfo := buildinfo s; mtree_seen := mtree_seen s |}.

Definition read_metadata (entry : TarEntry) : result (list Z) InspectError :=
  ensure (is_file (entry_type entry)) InspectMetadataNotRegular ;?
  ensure (entry_size entry <=? MAX_METADATA_BYTES) InspectMetadataTooLarge ;?
  let? bytes := ok_or (entry_read entry (MAX_METADATA_BYTES + 1)) InspectIo in
  ensure (zlen bytes <=? MAX_METADATA_BYTES) InspectMetadataTooLarge ;?
  Ok bytes.

Definition inspect_metadata (member : rstr) (entry : TarEntry) (s : Scan) : result Scan InspectError :=
  if str_eqb member (str ".PKGINFO") then
    let? bytes := read_metadata entry in
    let? content := ok_or (decode_utf8 bytes) InspectMetadataNonUtf8 in
    let? parsed := parse_pkginfo content in
    Ok (with_pkginfo parsed s)
  else if str_eqb member (str ".BUILDINFO") then
    let? bytes := read_metadata entry in
    let? content := ok_or (decode_utf8 bytes) InspectMetadataNonUtf8 in
    let? parsed := parse_buildinfo content in
    Ok (with_buildinfo parsed s)
  else if str_eqb member (str ".MTREE") then
    let? _ := read_metadata entry in Ok (with_mtree s)
  else if str_eqb member (str ".INSTALL") then
    let? bytes := read_metadata entry in Ok (with_install_hook (sha256_hex bytes) s)
  else Ok s.

(** [mode & 0o111] and [mode & 0o6000]. *)
Definition executable_mode (mode : Z) : bool := negb (Z.land mode 73 =? 0).
Definition set_id_mode (mode : Z) : bool := negb (Z.land mode 3072 =? 0).

Definition privileged (kind : EntryType) (mode : Z) (capability : option rstr) : bool :=
  is_file kind && (set_id_mode mode || match capability with Some _ => true | None => false end).

(** The body of the loop of [inspect_archive]. *)
Definition inspect_entry (s : Scan) (e : option TarEntry) : result Scan InspectError :=
  let? entry := ok_or e InspectIo in
  let count := member_count s + 1 in
  ensure (count <=? MAX_MEMBERS) InspectTooManyMembers ;?
  let? declared := ok_or (checked_add64 (declared_bytes s) (entry_size entry)) InspectDeclaredOverflow in
  ensure (declared <=? MAX_DECLARED_BYTES) InspectDeclaredTooLarge ;?
  let? raw_path := ok_or (entry_path entry) InspectIo in
  ensure (zlen raw_path <=? MAX_PATH_BYTES) InspectPathTooLong ;?
  let? member := normalize_member_path raw_path in
  ensure (bool_decide (member ∉ seen s)) InspectDuplicatePath ;?
  let kind := entry_type entry in
  ensure (allowed_kind kind) InspectSpecialFile ;?
  check_link member entry ;?
  let? mode := ok_or (entry_mode entry) InspectIo in
  let? capability := entry_capability entry in
  let powerful := privileged kind mode capability in
  ensure (negb powerful || (zlen (privileged_files s) <? MAX_PRIVILEGED_FILES)) InspectTooManyPrivileged ;?
  inspect_metadata member entry
    {| seen := seen s ∪ {[member]};
       member_count := count;
       declared_bytes := declared;
       executable_files := executable_files s ++ (if is_file kind && executable_mode mode then [member] else []);
       privileged_files := privileged_files s
         ++ (if powerful then [{| path := member; mode := mode; capability := capability |}] else []);
       paired_build_reasons := paired_build_reasons s ∪ list_to_set (location_reasons member)
         ∪ (if powerful then {[str "privilege-bearing-file"]} else ∅);
       install_hook := install_hook s;
       pkginfo := pkginfo s;
       buildinfo := buildinfo s;
       mtree_seen := mtree_seen s |}.

Definition path_le (a b : PrivilegedFile) : Prop := str_le (path a) (path b).

#[export] Instance path_le_dec a b : Decision (path_le a b).
Proof. unfold path_le. apply _. Defined.

Definition finish_inspection (digest : rstr) (s : Scan) : result ArtifactInspection InspectError :=
  let? found := ok_or (pkginfo s) InspectMissingPkginfo in
  let '(name, version, base, arch) := found in
  let? built := ok_or (buildinfo s) InspectMissingBuildinfo in
  ensure (bool_decide (built = (name, version, base, arch))) InspectIdentityDiffers ;?
  ensure (mtree_seen s) InspectMissingMtree ;?
  Ok {| policy_version := INSPECTION_POLICY_VERSION;
        archive_sha256 := digest;
        package_name := name;
        package_version := version;
        package_base := base;
        architecture := arch;
        report_member_count := member_count s;
        report_executable_files := sort_strs (executable_files s);
        report_privileged_files := merge_sort path_le (privileged_files s);
        report_install_hook := install_hook s;
        report_paired_build_reasons := sort_strs (elements (paired_build_reasons s)) |}.

(** [file] is the content of the file at the path, [None] when it cannot be opened or read. *)
Definition inspect_archive (file : option (list Z)) : result ArtifactInspection InspectError :=
  let? bytes := ok_or file InspectIo in
  let digest := sha256_hex bytes in
  let? reader := archive_reader bytes in
  let? entries := ok_or (tar_entries reader) InspectIo in
  let? s := for_each inspect_entry initial_scan entries in
  finish_inspection digest s.
End inspector.

(** * Paths and links *)

(** An accepted member path names its components, all of them normal. *)
Lemma normalize_member_path_Ok p m :
  normalize_member_path p = Ok m ->
  exists parts, parts ≠ [] /\ components (as_bytes m) = map Normal parts.
Proof.
  unfold normalize_member_path. intros Hn. res_inv. to_prop.
  exists (map as_bytes a). split; [by destruct a|]. rewrite as_bytes_join. apply components_join; [by destruct a|].
  revert Hr. apply (for_each_inv _ (fun _ s => Forall clean_part (map as_bytes s))); [constructor|].
  intros pre x s1 s2 Hs1 Hx. destruct x as [| | |part]; simpl; try done; [congruence|].
  intros Hs2. res_inv. destruct (decode_utf8 part) as [text|] eqn:Ed; [|done]. simpl in Hr. res_inv.
  apply decode_utf8_Some in Ed as [_ Hb]. rewrite map_app. apply Forall_app; split; [done|].
  constructor; [|constructor]. rewrite Hb. by eapply components_Normal.
Qed.

Lemma link_steps_follow dir cs d :
  for_each link_step (length dir) cs = Ok d -> exists r, follow dir cs = Some r /\ length r = d.
Proof.
  revert dir; induction cs as [|c cs IH]; intros dir; cbn [for_each]; [intros [= <-]; eauto|].
  destruct c as [| | |p]; simpl; [done|apply IH| |].
  - destruct dir as [|x dir]; simpl; [done|]. intros Hd.
    apply (IH (removelast (x :: dir))). rewrite length_removelast. simpl. by rewrite Nat.sub_0_r.
  - intros Hd. apply IH. rewrite length_app. simpl. by rewrite Nat.add_1_r.
Qed.

Lemma validate_relative_link_Ok member target hard_link parts :
  components (as_bytes member) = map Normal parts ->
  validate_relative_link member target hard_link = Ok tt ->
  exists r, follow (if hard_link then [] else removelast parts) (components target) = Some r /\ r ≠ [].
Proof.
  intros Hm Hv. unfold validate_relative_link in Hv. res_inv. to_prop.
  destruct (link_steps_follow (if hard_link then [] else removelast parts) (components target) a0) as (r & Hf & Hl).
  - rewrite <- Hr0. f_equal. destruct hard_link; [done|]. unfold parent_depth.
    by rewrite Hm, length_map, length_removelast.
  - exists r. split; [done|]. intros ->. by subst.
Qed.

(** * What an accepted archive contains *)

Section inspected.
Context `{ArchiveCodec}.

(** An archive member with what the inspector reads of it. *)
Record Member := {
  m_entry : TarEntry;
  m_path : rstr;
  m_mode : Z;
  m_capability : option rstr
}.

Definition m_file (x : Member) : bool := is_file (entry_type (m_entry x)).
(** Executable by owner, group or others. *)
Definition m_executable (x : Member) : bool :=
  m_file x && existsb (Z.testbit (m_mode x)) [6; 3; 0].
(** Set-user-id, set-group-id or a file capability. *)
Definition m_privileged (x : Member) : bool :=
  m_file x && (existsb (Z.testbit (m_mode x)) [11; 10] || bool_decide (is_Some (m_capability x))).
Definition m_report (x : Member) : PrivilegedFile :=
  {| path := m_path x; mode := m_mode x; capability := m_capability x |}.
Definition m_reasons (x : Member) : list rstr :=
  location_reasons (m_path x) ++ (if m_privileged x then [str "privilege-bearing-file"] else [])
  ++ (if str_eqb (m_path x) (str ".INSTALL") then [str "install-hook"] else []).

(** [x] is what the accessors of its entry say. *)
Definition described (x : Member) : Prop :=
  (exists raw, entry_path (m_entry x) = Some raw /\ zlen raw <= MAX_PATH_BYTES
     /\ normalize_member_path raw = Ok (m_path x))
  /\ entry_mode (m_entry x) = Some (m_mode x)
  /\ entry_capability (m_entry x) = Ok (m_capability x).

(** The members of the archive in [file], in order. *)
Definition archive_members (file : option (list Z)) (xs : list Member) : Prop :=
  exists bytes reader, file = Some bytes /\ archive_reader bytes = Ok reader
    /\ tar_entries reader = Some (map (fun x => Some (m_entry x)) xs) /\ Forall described xs.

(** The text of the metadata member [name], when it has [x]'s path. *)
Definition metadata (name : rstr) (x : Member) : option (list Z) :=
  if str_eqb (m_path x) name then ok (read_metadata (m_entry x)) else None.

Definition pkginfo_of (x : Member) : option identity :=
  (metadata (str ".PKGINFO") x ≫= decode_utf8) ≫= fun text => ok (parse_pkginfo text).
Definition buildinfo_of (x : Member) : option identity :=
  (metadata (str ".BUILDINFO") x ≫= decode_utf8) ≫= fun text => ok (parse_buildinfo text).
Definition hook_of (x : Member) : option rstr := sha256_hex <$> metadata (str ".INSTALL") x.

Definition declared_total (xs : list Member) : Z := foldr (fun x n => entry_size (m_entry x) + n) 0 xs.

(** The scan of the members [xs]. *)
Record scanned (xs : list Member) (s : Scan) : Prop := {
  sc_described : Forall described xs;
  sc_kinds : Forall (fun x => allowed_kind (entry_type (m_entry x)) = true) xs;
  sc_links : Forall (fun x => check_link (m_path x) (m_entry x) = Ok tt) xs;
  sc_distinct : NoDup (m_path <$> xs);
  sc_seen : seen s = list_to_set (m_path <$> xs);
  sc_count : member_count s = zlen xs /\ zlen xs <= MAX_MEMBERS;
  sc_declared : declared_bytes s = declared_total xs /\ declared_total xs <= MAX_DECLARED_BYTES;
  sc_executable : executable_files s = m_path <$> List.filter m_executable xs;
  sc_privileged : privileged_files s = m_report <$> List.filter m_privileged xs;
  sc_privileged_max : zlen (List.filter m_privileged xs) <= MAX_PRIVILEGED_FILES;
  sc_reasons : paired_build_reasons s = list_to_set (xs ≫= m_reasons);
  sc_hook : install_hook s = last (omap hook_of xs);
  sc_hook_file : Forall (fun x => m_path x = str ".INSTALL" -> is_Some (hook_of x)) xs;
  sc_pkginfo : pkginfo s = last (omap pkginfo_of xs);
  sc_buildinfo : buildinfo s = last (omap buildinfo_of xs);
  sc_mtree : mtree_seen s = true -> str ".MTREE" ∈ m_path <$> xs
}.

Lemma last_omap_snoc {A B} (f : A -> option B) l x :
  last (omap f (l ++ [x])) = match f x with Some y => Some y | None => last (omap f l) end.
Proof.
  rewrite omap_app. simpl. destruct (f x); [by rewrite last_snoc|by rewrite app_nil_r].
Qed.

(** A metadata member updates the fields it is about and nothing else. *)
Lemma inspect_metadata_Ok x s s' :
  inspect_metadata (m_path x) (m_entry x) s = Ok s' ->
  seen s' = seen s /\ member_count s' = member_count s /\ declared_bytes s' = declared_bytes s
  /\ executable_files s' = executable_files s /\ privileged_files s' = privileged_files s
  /\ paired_build_reasons s' = paired_build_reasons s
      ∪ (if str_eqb (m_path x) (str ".INSTALL") then {[str "install-hook"]} else ∅)
  /\ install_hook s' = match hook_of x with Some h => Some h | None => install_hook s end
  /\ (m_path x = str ".INSTALL" -> is_Some (hook_of x))
  /\ pkginfo s' = match pkginfo_of x with Some i => Some i | None => pkginfo s end
  /\ buildinfo s' = match buildinfo_of x with Some i => Some i | None => buildinfo s end
  /\ (mtree_seen s' = true -> mtree_seen s = true \/ m_path x = str ".MTREE").
Proof.
  unfold inspect_metadata, hook_of, pkginfo_of, buildinfo_of, metadata.
  set (m := m_path x).
  destruct (decide (m = str ".PKGINFO")) as [->|N1]; [|rewrite (proj2 (str_eqb_false m _) N1)].
  { change (str_eqb (str ".PKGINFO") (str ".PKGINFO")) with true. cbv iota. intros Hs. res_inv.
    rewrite Hr. simpl. rewrite ok_or_Ok in Hr0. rewrite Hr0. simpl. rewrite Hr1. simpl.
    change (str_eqb (str ".PKGINFO") (str ".INSTALL")) with false.
    change (str_eqb (str ".PKGINFO") (str ".BUILDINFO")) with false. cbv iota. simpl.
    split_and!; auto; try done; set_solver. }
  destruct (decide (m = str ".BUILDINFO")) as [->|N2]; [|rewrite (proj2 (str_eqb_false m _) N2)].
  { change (str_eqb (str ".BUILDINFO") (str ".BUILDINFO")) with true. cbv iota. intros Hs. res_inv.
    rewrite Hr. simpl. rewrite ok_or_Ok in Hr0. rewrite Hr0. simpl. rewrite Hr1. simpl.
    change (str_eqb (str ".BUILDINFO") (str ".INSTALL")) with false. cbv iota. simpl.
    split_and!; auto; try done; set_solver. }
  destruct (decide (m = str ".MTREE")) as [->|N3]; [|rewrite (proj2 (str_eqb_false m _) N3)].
  { change (str_eqb (str ".MTREE") (str ".MTREE")) with true. cbv iota. intros Hs. res_inv.
    change (str_eqb (str ".MTREE") (str ".INSTALL")) with false. cbv iota. simpl.
    split_and!; auto; try done; set_solver. }
  destruct (decide (m = str ".INSTALL")) as [->|N4]; [|rewrite (proj2 (str_eqb_false m _) N4)].
  { change (str_eqb (str ".INSTALL") (str ".INSTALL")) with true. cbv iota. intros Hs. res_inv.
    rewrite Hr. simpl. split_and!; auto; done. }
  intros Hs. res_inv. simpl. split_and!; auto; try done; set_solver.
Qed.

Lemma Forall_snoc {A} (P : A -> Prop) l x : Forall P l -> P x -> Forall P (l ++ [x]).
Proof. intros Hl Hx. apply Forall_app. split; [done|]. by constructor. Qed.

Lemma filter_snoc {A} (f : A -> bool) l x :
  List.filter f (l ++ [x]) = List.filter f l ++ (if f x then [x] else []).
Proof. by rewrite List.filter_app. Qed.

Lemma declared_total_snoc xs x : declared_total (xs ++ [x]) = declared_total xs + entry_size (m_entry x).
Proof. unfold declared_total. rewrite foldr_app. simpl. induction xs as [|y xs IH]; simpl; lia. Qed.

Lemma zlen_app {A} (l1 l2 : list A) : zlen (l1 ++ l2) = zlen l1 + zlen l2.
Proof. unfold zlen. rewrite length_app. lia. Qed.

(** A mask test is the disjunction of the tests of its bits. *)
Lemma mask_bits m ks :
  Forall (fun k => 0 <= k) ks ->
  negb (Z.land m (foldr (fun k n => Z.lor (2 ^ k) n) 0 ks) =? 0) = existsb (Z.testbit m) ks.
Proof.
  induction 1 as [|k ks Hk _ IH]; cbn [foldr existsb]; [by rewrite Z.land_0_r|].
  rewrite Z.land_lor_distr_r, <- IH. apply eq_iff_eq_true.
  rewrite orb_true_iff, !negb_true_iff, !Z.eqb_neq, Z.lor_eq_0_iff.
  assert (Hb : Z.land m (2 ^ k) ≠ 0 <-> Z.testbit m k = true).
  { split.
    - intros Hn. destruct (Z.testbit m k) eqn:E; [done|]. destruct Hn. apply Z.bits_inj'. intros n Hn.
      rewrite Z.land_spec, Z.bits_0, Z.pow2_bits_eqb by done. destruct (Z.eqb_spec k n) as [->|]; [by rewrite E|].
      apply andb_false_r.
    - intros Ht H0. apply (f_equal (fun z => Z.testbit z k)) in H0. cbv beta in H0.
      by rewrite Z.land_spec, Z.bits_0, Z.pow2_bits_true, Ht in H0. }
  rewrite <- Hb. destruct (decide (Z.land m (2 ^ k) = 0)); tauto.
Qed.

Lemma executable_mode_bits m : executable_mode m = existsb (Z.testbit m) [6; 3; 0].
Proof. rewrite <- (mask_bits m [6; 3; 0]); [done|by repeat constructor]. Qed.

Lemma privileged_bits x :
  privileged (entry_type (m_entry x)) (m_mode x) (m_capability x) = m_privileged x.
Proof.
  unfold privileged, m_privileged, set_id_mode.
  rewrite <- (mask_bits (m_mode x) [11; 10]) by (by repeat constructor).
  do 2 f_equal. by destruct (m_capability x).
Qed.

(** What one turn of the loop checked, and the scan it hands to the metadata step. *)
Lemma inspect_entry_Ok s e s' :
  inspect_entry s e = Ok s' ->
  exists x s1, e = Some (m_entry x) /\ described x
    /\ allowed_kind (entry_type (m_entry x)) = true /\ check_link (m_path x) (m_entry x) = Ok tt
    /\ (m_path x ∉ seen s) /\ member_count s + 1 <= MAX_MEMBERS
    /\ declared_bytes s + entry_size (m_entry x) <= MAX_DECLARED_BYTES
    /\ (m_privileged x = true -> zlen (privileged_files s) < MAX_PRIVILEGED_FILES)
    /\ inspect_metadata (m_path x) (m_entry x) s1 = Ok s'
    /\ s1 = {| seen := seen s ∪ {[m_path x]};
               member_count := member_count s + 1;
               declared_bytes := declared_bytes s + entry_size (m_entry x);
               executable_files := executable_files s ++ (if m_executable x then [m_path x] else []);
               privileged_files := privileged_files s ++ (if m_privileged x then [m_report x] else []);
               paired_build_reasons := paired_build_reasons s ∪ list_to_set (location_reasons (m_path x))
                 ∪ (if m_privileged x then {[str "privilege-bearing-file"]} else ∅);
               install_hook := install_hook s; pkginfo := pkginfo s; buildinfo := buildinfo s;
               mtree_seen := mtree_seen s |}.
Proof.
  unfold inspect_entry. intros Hs.
  apply res_bind_Ok in Hs as (entry & He%ok_or_Ok & Hs).
  apply res_bind_Ok in Hs as (u1 & Hcount%ensure_Ok & Hs). apply Z.leb_le in Hcount.
  apply res_bind_Ok in Hs as (declared & Hdecl%ok_or_Ok & Hs).
  unfold checked_add64 in Hdecl. destruct (_ <=? u64_max); [|done]. injection Hdecl as <-.
  apply res_bind_Ok in Hs as (u2 & Hmax%ensure_Ok & Hs). apply Z.leb_le in Hmax.
  apply res_bind_Ok in Hs as (raw & Hraw%ok_or_Ok & Hs).
  apply res_bind_Ok in Hs as (u3 & Hlen%ensure_Ok & Hs). apply Z.leb_le in Hlen.
  apply res_bind_Ok in Hs as (member & Hmember & Hs).
  apply res_bind_Ok in Hs as (u4 & Hfresh%ensure_Ok%bool_decide_eq_true & Hs).
  apply res_bind_Ok in Hs as (u5 & Hkind%ensure_Ok & Hs).
  apply res_bind_Ok in Hs as ([] & Hlink & Hs).
  apply res_bind_Ok in Hs as (mode & Hmode%ok_or_Ok & Hs).
  apply res_bind_Ok in Hs as (cap & Hcap & Hs).
  apply res_bind_Ok in Hs as (u6 & Hpriv%ensure_Ok & Hs).
  rewrite executable_mode_bits in Hs.
  set (x := {| m_entry := entry; m_path := member; m_mode := mode; m_capability := cap |}).
  change (privileged (entry_type entry) mode cap)
    with (privileged (entry_type (m_entry x)) (m_mode x) (m_capability x)) in *.
  rewrite privileged_bits in *. exists x. eexists.
  split_and!; [exact He|split_and!; eauto|exact Hkind|exact Hlink|exact Hfresh|exact Hcount|exact Hmax| |exact Hs|reflexivity].
  intros Hp. rewrite Hp in Hpriv. by apply Z.ltb_lt in Hpriv.
Qed.

Lemma inspect_entry_scanned xs s e s' :
  scanned xs s -> inspect_entry s e = Ok s' ->
  exists x, e = Some (m_entry x) /\ scanned (xs ++ [x]) s'.
Proof.
  intros Hsc (x & s1 & He & Hd & Hk & Hl & Hf & Hc & Hm & Hp & Hmeta & ->)%inspect_entry_Ok.
  exists x. split; [done|].
  apply inspect_metadata_Ok in Hmeta as (E1 & E2 & E3 & E4 & E5 & E6 & E7 & Ehf & E8 & E9 & E10).
  cbn [seen member_count declared_bytes executable_files privileged_files paired_build_reasons
       install_hook pkginfo buildinfo mtree_seen] in *.
  destruct Hsc as [S1 S2 S3 S4 S5 [S6 S6'] [S7 S7'] S8 S9 S9' S10 S11 S11' S12 S13 S14].
  split; rewrite ?last_omap_snoc, ?filter_snoc, ?declared_total_snoc, ?fmap_app.
  - by apply Forall_snoc.
  - by apply Forall_snoc.
  - by apply Forall_snoc.
  - apply NoDup_app. split_and!; [done| |apply NoDup_singleton].
    intros y Hy ->%list_elem_of_singleton. apply Hf. rewrite S5. by apply elem_of_list_to_set.
  - rewrite E1, S5. simpl. set_solver.
  - rewrite E2, S6, zlen_app. change (zlen [x]) with 1. lia.
  - rewrite E3, S7. lia.
  - rewrite E4, S8. by destruct (m_executable x).
  - rewrite E5, S9. by destruct (m_privileged x).
  - rewrite zlen_app. destruct (m_privileged x) eqn:Ep.
    + specialize (Hp eq_refl). rewrite S9 in Hp. unfold zlen in *. rewrite length_fmap in Hp. simpl. lia.
    + change (zlen []) with 0. lia.
  - rewrite E6, S10, bind_app, list_to_set_app_L, <- !(assoc_L (∪)). f_equal.
    change ([x] ≫= m_reasons) with (m_reasons x ++ []). unfold m_reasons.
    rewrite app_nil_r, !list_to_set_app_L. do 2 f_equal.
    + destruct (m_privileged x); [|done]. by rewrite list_to_set_singleton_L.
    + destruct (str_eqb _ _); [|done]. by rewrite list_to_set_singleton_L.
  - rewrite E7. by rewrite S11.
  - by apply Forall_snoc.
  - rewrite E8. by rewrite S12.
  - rewrite E9. by rewrite S13.
  - intros Ht. apply elem_of_app. destruct (E10 Ht) as [?|Em]; [left; auto|right].
    change (m_path <$> [x]) with [m_path x]. rewrite Em. by left.
Qed.

Lemma scanned_initial : scanned [] initial_scan.
Proof.
  split; simpl; try constructor; try done; try (vm_compute; discriminate).
Qed.

Lemma scan_entries es s :
  for_each inspect_entry initial_scan es = Ok s ->
  exists xs, es = map (fun x => Some (m_entry x)) xs /\ scanned xs s.
Proof.
  apply (for_each_inv _ (fun pre s => exists xs, pre = map (fun x => Some (m_entry x)) xs /\ scanned xs s)).
  - exists []. split; [done|apply scanned_initial].
  - intros pre e s1 s2 (xs & -> & Hsc) _ Hs2.
    destruct (inspect_entry_scanned _ _ _ _ Hsc Hs2) as (x & -> & Hx). exists (xs ++ [x]).
    split; [by rewrite map_app|done].
Qed.

Lemma inspect_archive_Ok file report :
  inspect_archive file = Ok report ->
  exists bytes reader xs s, file = Some bytes /\ archive_reader bytes = Ok reader
    /\ tar_entries reader = Some (map (fun x => Some (m_entry x)) xs)
    /\ scanned xs s /\ finish_inspection (sha256_hex bytes) s = Ok report.
Proof.
  unfold inspect_archive. intros (bytes & Hf%ok_or_Ok & H1)%res_bind_Ok.
  apply res_bind_Ok in H1 as (reader & Hr & H1).
  apply res_bind_Ok in H1 as (entries & He%ok_or_Ok & H1).
  apply res_bind_Ok in H1 as (s & Hs & H1). apply scan_entries in Hs as (xs & -> & Hsc).
  eauto 10.
Qed.

Lemma last_omap_Some {A B} (f : A -> option B) l y :
  last (omap f l) = Some y -> exists x, x ∈ l /\ f x = Some y.
Proof.
  intros Hl. apply last_Some in Hl as [l' Hl]. apply list_elem_of_omap. rewrite Hl. set_solver.
Qed.

Lemma last_omap_is_Some {A B} (f : A -> option B) l :
  is_Some (last (omap f l)) <-> exists x, x ∈ l /\ is_Some (f x).
Proof.
  split.
  - intros [y Hy%last_omap_Some]. destruct Hy as (x & Hx & Hf). eauto.
  - intros (x & Hx & y & Hy). rewrite last_is_Some. intros Hn.
    assert (Hin : y ∈ omap f l) by (apply list_elem_of_omap; eauto). rewrite Hn in Hin. set_solver.
Qed.

Lemma metadata_Some name x bytes :
  metadata name x = Some bytes -> m_path x = name /\ read_metadata (m_entry x) = Ok bytes.
Proof.
  unfold metadata. destruct (str_eqb (m_path x) name) eqn:E; [|done]. apply bool_decide_eq_true in E.
  destruct (read_metadata (m_entry x)); naive_solver.
Qed.

Lemma hook_of_Some x : is_Some (hook_of x) -> m_path x = str ".INSTALL".
Proof.
  unfold hook_of. intros [y Hy]. destruct (metadata _ x) as [b|] eqn:E; [|done]. by apply metadata_Some in E as [? _].
Qed.

(** The identity fields a member declares, when it is the metadata member [name]. *)
Definition declares (name : rstr) (parse : rstr -> result identity InspectError) (i : identity) (x : Member) : Prop :=
  m_path x = name /\ exists bytes text, read_metadata (m_entry x) = Ok bytes
    /\ decode_utf8 bytes = Some text /\ parse text = Ok i.

Lemma metadata_declares name parse x i :
  (metadata name x ≫= decode_utf8) ≫= (fun text => ok (parse text)) = Some i -> declares name parse i x.
Proof.
  destruct (metadata name x) as [bytes|] eqn:Em; simpl; [|done].
  destruct (decode_utf8 bytes) as [text|] eqn:Ed; simpl; [|done].
  destruct (parse text) as [j|] eqn:Ep; simpl; [|done]. intros [= <-].
  apply metadata_Some in Em as [Hp Hr]. split; [exact Hp|]. eauto.
Qed.

(** Where a member and, for a link, its target land. *)
Definition contained (x : Member) : Prop :=
  exists parts, parts ≠ [] /\ components (as_bytes (m_path x)) = map Normal parts
    /\ (is_link (entry_type (m_entry x)) = true ->
        exists target r, entry_link_name (m_entry x) = Some (Some target)
          /\ follow (if is_hard_link (entry_type (m_entry x)) then [] else removelast parts) (components target) = Some r
          /\ r ≠ []).

Lemma described_contained x :
  described x -> check_link (m_path x) (m_entry x) = Ok tt -> contained x.
Proof.
  intros ((raw & _ & _ & Hn) & _) Hl. apply normalize_member_path_Ok in Hn as (parts & Hne & Hp).
  exists parts. split_and!; [done..|]. intros Hk. unfold check_link in Hl. rewrite Hk in Hl.
  apply res_bind_Ok in Hl as (name & Hn%ok_or_Ok & Hl). apply res_bind_Ok in Hl as (target & ->%ok_or_Ok & Hl).
  destruct (validate_relative_link_Ok _ _ _ parts Hp Hl) as (r & Hf & Hr). eauto.
Qed.

(** A budgeted reader never delivers more than its budget. *)
Lemma budgeted_reads_le limit reads :
  0 <= limit -> zlen (concat (omap id (budgeted_reads limit reads))) <= limit.
Proof.
  revert limit; induction reads as [|[chunk|] reads IH]; intros limit Hl; cbn [budgeted_reads]; [done| |by apply IH].
  destruct (Z.ltb_spec limit (zlen chunk)); [by apply IH|].
  change (omap id (Some chunk :: ?l)) with (chunk :: omap id l). simpl. rewrite zlen_app.
  specialize (IH (limit - zlen chunk)). lia.
Qed.

Lemma decode_xz_to_le reads limit w :
  0 <= limit <= u64_max ->
  decode_xz_to reads {| inner := []; written := 0; budget := limit |} = Ok w -> zlen (inner w) <= limit.
Proof.
  intros Hl Hw. cut (written w = zlen (inner w) /\ budget w = limit /\ zlen (inner w) <= limit); [lia|].
  revert Hw. apply (for_each_inv _ (fun _ w => written w = zlen (inner w) /\ budget w = limit /\ zlen (inner w) <= limit)).
  - simpl. unfold zlen. simpl. lia.
  - intros _ o w1 w2 (H1 & H2 & H3) _ (chunk & _ & Hw)%res_bind_Ok. unfold budgeted_write in Hw.
    destruct (Z.ltb_spec (saturating_sub64 (budget w1) (written w1)) (zlen chunk)); [done|].
    injection Hw as <-. cbn [inner written budget]. rewrite zlen_app.
    unfold saturating_sub64, saturating_add64 in *. lia.
Qed.

Lemma archive_reader_le file reader :
  archive_reader file = Ok reader -> delivered reader <= MAX_ARCHIVE_STREAM_BYTES.
Proof.
  assert (Hmax : 0 <= MAX_ARCHIVE_STREAM_BYTES <= u64_max) by (by vm_compute).
  unfold archive_reader, archive_reader_with_limit. revert Hmax. generalize MAX_ARCHIVE_STREAM_BYTES. intros limit Hl.
  case_match; [|case_match; [|case_match]]; intros Hr; res_inv; simpl; try (apply budgeted_reads_le; lia).
  by eapply decode_xz_to_le.
Qed.

(** ** Reports *)

Lemma nonempty_exists {A} (l : list A) :
  match l with [] => false | _ => true end = true <-> exists x, x ∈ l.
Proof. destruct l; split; try done; [intros [x ?%elem_of_nil]; done|eauto using list_elem_of_here]. Qed.

Lemma exists_privileged xs :
  (exists p, p ∈ m_report <$> List.filter m_privileged xs) <-> exists x, x ∈ xs /\ m_privileged x = true.
Proof.
  split.
  - intros (p & (x & _ & Hx)%list_elem_of_fmap). apply list_elem_of_In, List.filter_In in Hx as [Hx Hp].
    exists x. by rewrite list_elem_of_In.
  - intros (x & Hx & Hp). exists (m_report x). apply list_elem_of_fmap. exists x. split; [done|].
    apply list_elem_of_In, List.filter_In. by rewrite <- list_elem_of_In.
Qed.

Lemma finish_inspection_Ok digest s report :
  finish_inspection digest s = Ok report ->
  pkginfo s = Some (package_name report, package_version report, package_base report, architecture report)
  /\ buildinfo s = pkginfo s /\ mtree_seen s = true
  /\ report_member_count report = member_count s
  /\ report_executable_files report = sort_strs (executable_files s)
  /\ report_privileged_files report = merge_sort path_le (privileged_files s)
  /\ report_install_hook report = install_hook s
  /\ report_paired_build_reasons report = sort_strs (elements (paired_build_reasons s)).
Proof.
  unfold finish_inspection. intros ([[[name version] base] arch] & Hp%ok_or_Ok & Hf)%res_bind_Ok.
  apply res_bind_Ok in Hf as (built & Hb%ok_or_Ok & Hf).
  apply res_bind_Ok in Hf as (u1 & ->%ensure_Ok%bool_decide_eq_true & Hf).
  apply res_bind_Ok in Hf as (u2 & Hm%ensure_Ok & Hf). injection Hf as <-. rewrite Hp, Hb. done.
Qed.

Lemma parse_pkginfo_valid content name version base arch :
  parse_pkginfo content = Ok (name, version, base, arch) ->
  validate_package_name name = Ok tt /\ validate_package_name base = Ok tt /\ validate_version version = Ok tt.
Proof.
  assert (Hm : forall r : result unit ValidationError, map_err InspectInvalidField r = Ok tt -> r = Ok tt).
  { intros [[]|]; simpl; congruence. }
  unfold parse_pkginfo. intros Hp.
  apply res_bind_Ok in Hp as (n & _ & Hp). apply res_bind_Ok in Hp as (v & _ & Hp).
  apply res_bind_Ok in Hp as (a & _ & Hp). apply res_bind_Ok in Hp as ([] & H1 & Hp).
  apply res_bind_Ok in Hp as ([] & H2 & Hp). apply res_bind_Ok in Hp as ([] & H3 & Hp).
  apply res_bind_Ok in Hp as (u & _ & Hp). injection Hp as <- <- <- <-. auto.
Qed.

(** * Properties *)

(** C17: an archive that passes inspection stays inside the installation
    root: its member paths are pairwise distinct after normalisation, each is
    a non-empty sequence of normal components, and the target of every link,
    followed from the directory of the link (from the root for a hard link),
    is present, never steps above the root and does not end at it. *)
Theorem accepted_archive_is_contained file report :
  inspect_archive file = Ok report ->
  exists xs, archive_members file xs /\ NoDup (m_path <$> xs) /\ Forall contained xs
    /\ Forall (fun x => allowed_kind (entry_type (m_entry x)) = true) xs.
Proof.
  intros (bytes & reader & xs & s & Hf & Hr & Ht & Hsc & _)%inspect_archive_Ok. exists xs.
  split_and!; [exists bytes, reader; eauto using sc_described|by eapply sc_distinct| |by eapply sc_kinds].
  apply Forall_forall. intros x Hx. apply described_contained.
  - by eapply (proj1 (Forall_forall _ _) (sc_described _ _ Hsc)).
  - by eapply (proj1 (Forall_forall _ _) (sc_links _ _ Hsc)).
Qed.

(** the report is complete: it lists exactly the executable files in
    order and exactly the files with a set-id bit or a capability, gives a
    paired-build reason exactly when some member has it, names the install
    hook exactly when there is one; so an exception is required exactly for
    an archive with a privileged file or an install hook, and a paired build
    exactly when some member gives a reason. *)
Theorem inspection_report_is_complete file report :
  inspect_archive file = Ok report ->
  exists xs, archive_members file xs
    /\ report_executable_files report = sort_strs (m_path <$> List.filter m_executable xs)
    /\ report_privileged_files report ≡ₚ m_report <$> List.filter m_privileged xs
    /\ (forall reason, reason ∈ report_paired_build_reasons report <-> exists x, x ∈ xs /\ reason ∈ m_reasons x)
    /\ (is_Some (report_install_hook report) <-> exists x, x ∈ xs /\ m_path x = str ".INSTALL")
    /\ (requires_exception report = true <->
        exists x, x ∈ xs /\ (m_privileged x = true \/ m_path x = str ".INSTALL"))
    /\ (requires_paired_build report = true <-> exists x reason, x ∈ xs /\ reason ∈ m_reasons x).
Proof.
  intros (bytes & reader & xs & s & Hf & Hr & Ht & Hsc & Hfin)%inspect_archive_Ok. exists xs.
  apply finish_inspection_Ok in Hfin as (_ & _ & _ & _ & He & Hp & Hh & Hreasons).
  assert (Hperm : report_privileged_files report ≡ₚ m_report <$> List.filter m_privileged xs).
  { rewrite Hp, (sc_privileged _ _ Hsc). apply merge_sort_Permutation. }
  assert (Hreason : forall reason, reason ∈ report_paired_build_reasons report <->
                      exists x, x ∈ xs /\ reason ∈ m_reasons x).
  { intros reason. rewrite Hreasons, elem_of_sort_strs, elem_of_elements, (sc_reasons _ _ Hsc), elem_of_list_to_set.
    rewrite list_elem_of_bind. naive_solver. }
  assert (Hhook : is_Some (report_install_hook report) <-> exists x, x ∈ xs /\ m_path x = str ".INSTALL").
  { rewrite Hh, (sc_hook _ _ Hsc), last_omap_is_Some. split; intros (x & Hx & Hi); exists x; split; try done.
    - by apply hook_of_Some.
    - by apply (proj1 (Forall_forall _ _) (sc_hook_file _ _ Hsc)). }
  assert (Hex : requires_exception report = true <->
                exists x, x ∈ xs /\ (m_privileged x = true \/ m_path x = str ".INSTALL")).
  { unfold requires_exception. rewrite orb_true_iff, nonempty_exists. setoid_rewrite Hperm.
    assert (Hb : match report_install_hook report with Some _ => true | None => false end = true
                 <-> is_Some (report_install_hook report)).
    { destruct (report_install_hook report); split; try done. }
    rewrite Hb, Hhook, exists_privileged. naive_solver. }
  split_and!; [exists bytes, reader; eauto using sc_described|by rewrite He, (sc_executable _ _ Hsc)|done..|].
  unfold requires_paired_build. rewrite orb_true_iff, Hex, nonempty_exists. setoid_rewrite Hreason. split.
  - intros [(x & Hx & Hc)|(reason & x & Hx & Hc)]; [|eauto]. unfold m_reasons.
    destruct Hc as [Hc|Hc]; [exists x, (str "privilege-bearing-file")|exists x, (str "install-hook")]; (split; [done|]).
    + rewrite Hc. set_solver.
    + rewrite Hc. apply elem_of_app. right. apply elem_of_app. right. by left.
  - intros (x & reason & Hx & Hc). right. eauto.
Qed.

(** an accepted archive is within every limit and has one identity: the
    decompressed stream, the number of members, their declared sizes, their
    path lengths and the privileged files are bounded, and the name, version,
    base and architecture of the report are those of both metadata members,
    valid as a package name and version, in an archive that has an .MTREE. *)
Theorem accepted_archive_is_bounded file report :
  inspect_archive file = Ok report ->
  exists xs bytes reader,
    archive_members file xs /\ file = Some bytes /\ archive_reader bytes = Ok reader
    /\ delivered reader <= MAX_ARCHIVE_STREAM_BYTES
    /\ report_member_count report = zlen xs /\ zlen xs <= MAX_MEMBERS
    /\ declared_total xs <= MAX_DECLARED_BYTES
    /\ zlen (report_privileged_files report) <= MAX_PRIVILEGED_FILES
    /\ (let identity := (package_name report, package_version report, package_base report, architecture report) in
        Exists (declares (str ".PKGINFO") parse_pkginfo identity) xs
        /\ Exists (declares (str ".BUILDINFO") parse_buildinfo identity) xs)
    /\ validate_package_name (package_name report) = Ok tt
    /\ validate_package_name (package_base report) = Ok tt
    /\ validate_version (package_version report) = Ok tt
    /\ (str ".MTREE" ∈ m_path <$> xs).
Proof.
  intros (bytes & reader & xs & s & Hf & Hr & Ht & Hsc & Hfin)%inspect_archive_Ok. exists xs, bytes, reader.
  apply finish_inspection_Ok in Hfin as (Hpi & Hbi & Hm & Hc & _ & Hp & _). rewrite Hpi in Hbi.
  destruct (sc_count _ _ Hsc) as [Hn Hmax]. destruct (sc_declared _ _ Hsc) as [_ Hd].
  rewrite (sc_pkginfo _ _ Hsc) in Hpi. apply last_omap_Some in Hpi as (x & Hx & Hxi%metadata_declares).
  rewrite (sc_buildinfo _ _ Hsc) in Hbi. apply last_omap_Some in Hbi as (y & Hy & Hyi%metadata_declares).
  pose proof Hxi as (_ & b & text & _ & _ & (Hv1 & Hv2 & Hv3)%parse_pkginfo_valid).
  assert (Hpl : zlen (report_privileged_files report) = zlen (List.filter m_privileged xs)).
  { unfold zlen. rewrite Hp, (merge_sort_Permutation path_le), (sc_privileged _ _ Hsc), length_fmap. done. }
  split_and!; try done.
  - exists bytes, reader. eauto using sc_described.
  - by apply archive_reader_le in Hr.
  - by rewrite Hc, Hn.
  - rewrite Hpl. apply (sc_privileged_max _ _ Hsc).
  - split; apply Exists_exists; eauto.
  - by apply (sc_mtree _ _ Hsc).
Qed.
End inspected.

(** ** A concrete archive *)

Definition plain_entry (name : string) (kind : EntryType) (mode : Z) (content : string) : TarEntry :=
  {| entry_size := zlen (str content); entry_path := Some (str name); entry_type := kind;
     entry_link_name := Some (Some (str content)); entry_mode := Some mode; entry_pax := Some None;
     entry_read := fun _ => Some (map (fun c => if c =? ch ";" then 10 else c) (str content)) |}.

Definition sample_entries : list TarEntry :=
  [plain_entry "./.PKGINFO" Regular 420 "pkgname = tool;pkgver = 1.0-1;arch = any;";
   plain_entry ".BUILDINFO" Regular 420 "format = 2;pkgname = tool;pkgver = 1.0-1;pkgbase = tool;pkgarch = any";
   plain_entry ".MTREE" Regular 420 "m";
   plain_entry ".INSTALL" Regular 420 "post_install";
   plain_entry "usr/bin/tool" Regular 2541 "elf";
   plain_entry "usr/bin/alias" Symlink 511 "../lib/tool";
   plain_entry "etc/tool.conf" Regular 420 "x=1"].

Definition sample_archive_codec : ArchiveCodec :=
  {| zstd_open := fun _ => None; xz_reads := fun _ => []; gzip_reads := fun _ => [];
     file_reads := fun file => [Some file];
     tar_entries := fun _ => Some (map Some sample_entries);
     sha256_hex := fun l => l; hex_encode := fun l => l |}.

Lemma accepted_archive_is_contained_witness :
  exists report, inspect_archive (H := sample_archive_codec) (Some [1; 2; 3]) = Ok report
  /\ exists xs, archive_members (H := sample_archive_codec) (Some [1; 2; 3]) xs
    /\ NoDup (m_path <$> xs) /\ Forall contained xs
    /\ Forall (fun x => allowed_kind (entry_type (m_entry x)) = true) xs.
Proof.
  eexists. split; [vm_compute; reflexivity|].
  eapply (accepted_archive_is_contained (H := sample_archive_codec)). vm_compute. reflexivity.
Defined.

Lemma inspection_report_is_complete_witness :
  exists report, inspect_archive (H := sample_archive_codec) (Some [1; 2; 3]) = Ok report
  /\ exists xs, archive_members (H := sample_archive_codec) (Some [1; 2; 3]) xs
    /\ report_executable_files report = sort_strs (m_path <$> List.filter m_executable xs)
    /\ report_privileged_files report ≡ₚ m_report <$> List.filter m_privileged xs
    /\ (forall reason, reason ∈ report_paired_build_reasons report <-> exists x, x ∈ xs /\ reason ∈ m_reasons x)
    /\ (is_Some (report_install_hook report) <-> exists x, x ∈ xs /\ m_path x = str ".INSTALL")
    /\ (requires_exception report = true <->
        exists x, x ∈ xs /\ (m_privileged x = true \/ m_path x = str ".INSTALL"))
    /\ (requires_paired_build report = true <-> exists x reason, x ∈ xs /\ reason ∈ m_reasons x).
Proof.
  eexists. split; [vm_compute; reflexivity|].
  eapply (inspection_report_is_complete (H := sample_archive_codec)). vm_compute. reflexivity.
Defined.

Lemma accepted_archive_is_bounded_witness :
  exists report, inspect_archive (H := sample_archive_codec) (Some [1; 2; 3]) = Ok report
  /\ exists xs bytes reader,
    archive_members (H := sample_archive_codec) (Some [1; 2; 3]) xs /\ Some [1; 2; 3] = Some bytes
    /\ archive_reader (H := sample_archive_codec) bytes = Ok reader
    /\ delivered reader <= MAX_ARCHIVE_STREAM_BYTES
    /\ report_member_count report = zlen xs /\ zlen xs <= MAX_MEMBERS
    /\ declared_total xs <= MAX_DECLARED_BYTES
    /\ zlen (report_privileged_files report) <= MAX_PRIVILEGED_FILES
    /\ (let identity := (package_name report, package_version report, package_base report, architecture report) in
        Exists (declares (str ".PKGINFO") parse_pkginfo identity) xs
        /\ Exists (declares (str ".BUILDINFO") parse_buildinfo identity) xs)
    /\ validate_package_name (package_name report) = Ok tt
    /\ validate_package_name (package_base report) = Ok tt
    /\ validate_version (package_version report) = Ok tt
    /\ (str ".MTREE" ∈ m_path <$> xs).
Proof.
  eexists. split; [vm_compute; reflexivity|].
  eapply (accepted_archive_is_bounded (H := sample_archive_codec)). vm_compute. reflexivity.
Defined.
