(* ===== verification/AurDeps.v ===== *)
(** Dependencies of AUR packages: src/src/package_managers/aur_deps.rs.

    A recipe builds several outputs; the plan selects the requested ones with
    the same-base outputs they need at run time and lists the external
    packages needed before and after the build. The parsed .SRCINFO is the
    record [SourceInfo]; libalpm's dependency expressions and version
    comparison, and its answer whether an expression is satisfied by what is
    installed, are parameters. Ordered maps and sets are gmaps and gsets,
    enumerated in string order. The worklist loop carries fuel, one unit per
    output; [PlanStepLimit] is the answer when it runs out and [PlanIndex]
    the panic of an index into the package map. *)

From stdpp Require Import relations.
From S2P Require Import Prelude.
Open Scope Z_scope.
Open Scope omg_scope.

(** * Data *)

Record AurPackage := {
  aur_version : rstr;
  dependencies : list rstr;
  make_dependencies : list rstr;
  check_dependencies : list rstr
}.

(** The names of all outputs, and the packages of one architecture. *)
Record SourceInfo (Arch : Type) := {
  package_names : list rstr;
  packages_for_architecture : Arch -> list (rstr * AurPackage)
}.
Arguments package_names {_}. Arguments packages_for_architecture {_}.

Record DependencyInfo := {
  missing : list rstr;
  package_outputs : list rstr
}.

Inductive PlanError :=
| SrcinfoUnreadable
| SrcinfoInvalid
| UnsupportedArchitecture
| OutputAbsent (output : rstr)
| SiblingVersion (dependency : rstr)
| SiblingUnavailable (name : rstr)
| BuildInputsMissing (names : list rstr)
| PlanIndex
| PlanStepLimit.

(** * Operations *)

Inductive SystemArchitecture := X86_64 | Aarch64 | Arm | I686.

Definition current_arch (architecture : rstr) : option SystemArchitecture :=
  if str_eqb architecture (str "x86_64") then Some X86_64
  else if str_eqb architecture (str "aarch64") then Some Aarch64
  else if str_eqb architecture (str "arm") then Some Arm
  else if str_eqb architecture (str "x86") then Some I686
  else None.

Definition dependency_name (dependency : rstr) : rstr :=
  fst (span_not (fun c => (c =? ch ">") || (c =? ch "<") || (c =? ch "=")) dependency).

Inductive DepMod := DepAny | DepEq | DepGe | DepLe | DepGt | DepLt.

(** libalpm: the parts of a dependency expression and [vercmp]. *)
Class Alpm := {
  depend_version : rstr -> option rstr;
  depend_depmod : rstr -> DepMod;
  vercmp : rstr -> rstr -> comparison
}.

Section plan.
Context `{Alpm}.

Definition output_version_satisfies (dependency candidate : rstr) : bool :=
  match depend_version dependency with
  | None => true
  | Some required =>
      match depend_depmod dependency, vercmp candidate required with
      | DepAny, _ => true
      | DepEq, Eq => true
      | DepGe, (Eq | Gt) => true
      | DepLe, (Eq | Lt) => true
      | DepGt, Gt => true
      | DepLt, Lt => true
      | _, _ => false
      end
  end.

(** The map the code collects: of two packages of one name the last wins. *)
Definition collect_packages (l : list (rstr * AurPackage)) : gmap rstr AurPackage :=
  foldl (fun m kv => <[kv.1 := kv.2]> m) ∅ l.

(** The selected outputs and the outputs still to visit. *)
Definition Work : Type := gset rstr * list rstr.

Section outputs.
Context (names : list rstr) (packages : gmap rstr AurPackage).

Definition visit_dependency (w : Work) (dependency : rstr) : result Work PlanError :=
  let '(selected, pending) := w in
  let name := dependency_name dependency in
  match packages !! name with
  | Some sibling =>
      ensure (output_version_satisfies dependency (aur_version sibling)) (SiblingVersion dependency) ;?
      Ok (if decide (name ∈ selected) then (selected, pending) else ({[name]} ∪ selected, name :: pending))
  | None =>
      ensure (negb (bool_decide (name ∈ names))) (SiblingUnavailable name) ;?
      Ok (selected, pending)
  end.

(** [while let Some(output) = pending_outputs.pop()]; the end of the vector
    is the head of the list. *)
Fixpoint select_outputs (fuel : nat) (w : Work) : result (gset rstr) PlanError :=
  match w with
  | (selected, []) => Ok selected
  | (selected, output :: pending) =>
      match fuel with
      | O => Err PlanStepLimit
      | S fuel =>
          let? package := ok_or (packages !! output) PlanIndex in
          let? w := for_each visit_dependency (selected, pending) (dependencies package) in
          select_outputs fuel w
      end
  end.

Definition output_dependencies (output : rstr) : result (list rstr) PlanError :=
  let? package := ok_or (packages !! output) PlanIndex in
  Ok (List.filter (fun d => negb (bool_decide (is_Some (packages !! dependency_name d)))) (dependencies package)
      ++ make_dependencies package ++ check_dependencies package).
End outputs.

Definition dependency_plan (arch : option SystemArchitecture) (srcinfo : SourceInfo SystemArchitecture)
    (requested_outputs : list rstr) : result (list rstr * list rstr) PlanError :=
  let? arch := ok_or arch UnsupportedArchitecture in
  let packages := collect_packages (packages_for_architecture srcinfo arch) in
  let all_outputs : gset rstr := dom packages in
  let selected := match requested_outputs with [] => all_outputs | _ => list_to_set requested_outputs end in
  for_each (fun _ output => ensure (bool_decide (output ∈ all_outputs)) (OutputAbsent output)) tt
    (sort_strs (elements selected)) ;?
  let? selected := select_outputs (package_names srcinfo) packages (S (size all_outputs))
                     (selected, rev (sort_strs (elements selected))) in
  let? lists := try_map (output_dependencies packages) (sort_strs (elements selected)) in
  Ok (dedup (sort_strs (concat lists)), sort_strs (elements selected)).

Definition dependency_info (arch : option SystemArchitecture) (srcinfo : SourceInfo SystemArchitecture)
    (requested_outputs : list rstr) (is_installed : rstr -> bool) : result DependencyInfo PlanError :=
  let? (all_deps, outputs) := dependency_plan arch srcinfo requested_outputs in
  let missing_ := List.filter (fun d => negb (is_installed d)) all_deps in
  let build_inputs :=
    List.filter (fun d => bool_decide (dependency_name d ∈ package_names srcinfo)) missing_ in
  ensure (bool_decide (build_inputs = [])) (BuildInputsMissing build_inputs) ;?
  Ok {| missing := missing_; package_outputs := outputs |}.

(** [file] is the .SRCINFO: [None] when there is none, [Some None] when it
    cannot be read; [parse] is the .SRCINFO parser. *)
Definition check_dependencies_for_outputs (arch : option SystemArchitecture)
    (parse : rstr -> option (SourceInfo SystemArchitecture)) (file : option (option rstr))
    (requested_outputs : list rstr) (is_installed : rstr -> bool) : result DependencyInfo PlanError :=
  match file with
  | None => Ok {| missing := []; package_outputs := requested_outputs |}
  | Some content =>
      let? content := ok_or content SrcinfoUnreadable in
      let? srcinfo := ok_or (parse content) SrcinfoInvalid in
      dependency_info arch srcinfo requested_outputs is_installed
  end.
End plan.

(** * The selected outputs *)

Section proofs.
Context `{Alpm} (names : list rstr) (packages : gmap rstr AurPackage).

(** Output [o] needs the same-base output [o'] at run time. *)
Definition needs (o o' : rstr) : Prop :=
  exists p d, packages !! o = Some p /\ d ∈ dependencies p /\ dependency_name d = o' /\ is_Some (packages !! o').

(** A run-time dependency the build itself can satisfy, or an external one. *)
Definition dependency_ok (d : rstr) : bool :=
  match packages !! dependency_name d with
  | Some sibling => output_version_satisfies d (aur_version sibling)
  | None => negb (bool_decide (dependency_name d ∈ names))
  end.

Definition output_ok (o : rstr) : Prop :=
  exists p, packages !! o = Some p /\ Forall (fun d => dependency_ok d = true) (dependencies p).

Definition add_dependency (w : Work) (d : rstr) : Work :=
  let name := dependency_name d in
  if decide (is_Some (packages !! name) /\ (name ∉ w.1)) then ({[name]} ∪ w.1, name :: w.2) else w.

Lemma visit_dependency_eq w d :
  visit_dependency names packages w d =
  if dependency_ok d then Ok (add_dependency w d)
  else Err (match packages !! dependency_name d with
            | Some _ => SiblingVersion d | None => SiblingUnavailable (dependency_name d) end).
Proof.
  destruct w as [selected pending]. unfold visit_dependency, dependency_ok, add_dependency. simpl.
  destruct (packages !! dependency_name d) as [sibling|] eqn:E.
  - destruct (output_version_satisfies d (aur_version sibling)); simpl; [|done]. f_equal.
    destruct (decide (dependency_name d ∈ selected)), (decide _) as [[? ?]|Hn]; try done.
    destruct Hn. eauto.
  - destruct (negb _); simpl; [|done]. repeat case_decide; naive_solver.
Qed.

Lemma visit_dependencies_Ok w ds w' :
  for_each (visit_dependency names packages) w ds = Ok w' <->
  Forall (fun d => dependency_ok d = true) ds /\ w' = foldl add_dependency w ds.
Proof.
  revert w; induction ds as [|d ds IH]; intros w; cbn [for_each foldl].
  - split; [intros [= <-]; by split|]. by intros [_ ->].
  - rewrite visit_dependency_eq, Forall_cons. destruct (dependency_ok d); simpl; [rewrite IH; tauto|].
    split; [done|]. by intros [[? _] _].
Qed.

(** Adding selects the known names, and stacks exactly the new ones. *)
Lemma add_dependencies_spec (w : Work) ds :
  let w' := foldl add_dependency w ds in
  (forall x, x ∈ w'.1 <-> x ∈ w.1 \/ exists d, d ∈ ds /\ dependency_name d = x /\ is_Some (packages !! x))
  /\ exists new, w'.2 = new ++ w.2 /\ NoDup new /\ (forall x, x ∈ new -> x ∉ w.1)
     /\ (forall x, x ∈ w'.1 <-> x ∈ w.1 \/ x ∈ new) /\ (size w'.1 = size w.1 + length new)%nat.
Proof.
  revert w; induction ds as [|d ds IH]; intros w; cbn [foldl].
  - split; [set_solver|]. exists []. simpl. split_and!; try constructor; set_solver.
  - destruct (IH (add_dependency w d)) as (H1 & new & H2 & H3 & H4 & H5 & H6). clear IH. set (w0 := add_dependency w d) in *.
    unfold add_dependency in w0. subst w0.
    destruct (decide (is_Some (packages !! dependency_name d) /\ (dependency_name d ∉ w.1))) as [[Hs Hn]|Hno];
      cbn [fst snd] in *.
    + split; [set_solver|]. exists (new ++ [dependency_name d]). split_and!.
      * by rewrite H2, <- app_assoc.
      * apply NoDup_app. split_and!; [done|set_solver|apply NoDup_singleton].
      * set_solver.
      * set_solver.
      * rewrite H6, size_union, size_singleton, length_app by set_solver. simpl. lia.
    + split; [|by exists new]. intros x. rewrite H1. split; [set_solver|].
      intros [Hx|(d' & [->|Hd]%elem_of_cons & Hname & Hs)]; [by left| |right; eauto].
      subst x. left. destruct (decide (dependency_name d ∈ w.1)); [done|]. destruct Hno. eauto.
Qed.

(** The worklist: what is selected is known and reachable from [start], and
    whatever is not pending has been visited. *)
Record work_inv (start : gset rstr) (w : Work) : Prop := {
  wi_start : start ⊆ w.1;
  wi_known : forall x, x ∈ w.1 -> is_Some (packages !! x);
  wi_reach : forall x, x ∈ w.1 -> exists s, s ∈ start /\ rtc needs s x;
  wi_pending : NoDup w.2 /\ forall x, x ∈ w.2 -> x ∈ w.1;
  wi_visited : forall x, x ∈ w.1 -> x ∈ w.2 \/ output_ok x /\ forall y, needs x y -> y ∈ w.1
}.

(** Outputs not yet selected, plus those pending. *)
Definition work_left (w : Work) : nat := (size (dom packages) - size w.1 + length w.2)%nat.

Lemma work_step start selected output pending package :
  work_inv start (selected, output :: pending) -> packages !! output = Some package ->
  Forall (fun d => dependency_ok d = true) (dependencies package) ->
  let w' := foldl add_dependency (selected, pending) (dependencies package) in
  work_inv start w' /\ (work_left w' < work_left (selected, output :: pending))%nat.
Proof.
  intros [W1 W2 W3 [W4 W4'] W5] Hp Hok. cbn [fst snd] in *.
  destruct (add_dependencies_spec (selected, pending) (dependencies package)) as (H1 & new & H2 & H3 & H4 & H5 & H6).
  cbn [fst snd] in *. set (w' := foldl _ _ _) in *. inversion W4 as [|? ? Hout Hnd]; subst.
  assert (Hknown : forall x, x ∈ w'.1 -> is_Some (packages !! x)).
  { intros x [Hx|(d & _ & _ & Hx)]%H1; auto. }
  assert (Hneeds : forall y, needs output y <-> exists d, d ∈ dependencies package /\ dependency_name d = y /\ is_Some (packages !! y)).
  { intros y. unfold needs. rewrite Hp. naive_solver. }
  split.
  - split; [set_solver|done| | |].
    + intros x [Hx|Hx]%H1; [auto|]. apply Hneeds in Hx. destruct (W3 output) as (s & Hs & Hr); [set_solver|].
      exists s. split; [done|]. by eapply rtc_r.
    + rewrite H2. split; [apply NoDup_app; split_and!; [done|set_solver|done]|]. set_solver.
    + intros x [Hx|Hx]%H5; [|left; rewrite H2; set_solver]. rewrite H2.
      destruct (W5 x Hx) as [[->|Hin]%elem_of_cons|[Ho Hn]]; [|left; set_solver|right; set_solver].
      right. split; [by exists package|]. intros y Hy%Hneeds. apply H1. by right.
  - unfold work_left. cbn [fst snd length]. rewrite H2, length_app, H6.
    assert (size w'.1 <= size (dom packages))%nat.
    { apply subseteq_size. intros x Hx%Hknown. by apply elem_of_dom. }
    lia.
Qed.

Lemma select_outputs_Ok fuel start w selected :
  work_inv start w -> select_outputs names packages fuel w = Ok selected ->
  work_inv start (selected, []).
Proof.
  revert w; induction fuel as [|fuel IH]; intros [sel [|output pending]] Hw; simpl.
  - intros [= <-]. done.
  - done.
  - intros [= <-]. done.
  - intros (package & Hp%ok_or_Ok & Hs)%res_bind_Ok. apply res_bind_Ok in Hs as (w' & Hv & Hs).
    apply visit_dependencies_Ok in Hv as [Hok ->].
    eapply IH; [|exact Hs]. by eapply work_step.
Qed.

(** With one unit of fuel per output the loop answers. *)
Lemma select_outputs_total fuel start w :
  work_inv start w -> (work_left w <= fuel)%nat ->
  (forall s x, s ∈ start -> rtc needs s x -> output_ok x) ->
  exists selected, select_outputs names packages fuel w = Ok selected.
Proof.
  revert w; induction fuel as [|fuel IH]; intros [sel [|output pending]] Hw Hf Hgood; simpl; [eauto| |eauto|].
  { exfalso. destruct Hw as [_ _ _ [_ Hin] _]. unfold work_left in Hf. simpl in Hf. lia. }
  assert (Hout : output ∈ sel) by (apply (wi_pending _ _ Hw); by left).
  destruct (wi_reach _ _ Hw output Hout) as (s & Hs & Hr).
  destruct (Hgood s output Hs Hr) as (package & Hp & Hok). rewrite Hp. simpl.
  assert (Hv : for_each (visit_dependency names packages) (sel, pending) (dependencies package)
               = Ok (foldl add_dependency (sel, pending) (dependencies package))) by (by apply visit_dependencies_Ok).
  rewrite Hv. simpl. destruct (work_step start sel output pending package Hw Hp Hok) as [Hw' Hlt].
  apply IH; [done|lia|done].
Qed.

(** The selection is the closure of [start], and all of it is satisfiable. *)
Lemma work_done start selected :
  work_inv start (selected, []) ->
  (forall x, x ∈ selected <-> exists s, s ∈ start /\ rtc needs s x) /\ forall x, x ∈ selected -> output_ok x.
Proof.
  intros [W1 W2 W3 _ W5]. cbn [fst snd] in *.
  assert (Hv : forall x, x ∈ selected -> output_ok x /\ forall y, needs x y -> y ∈ selected).
  { intros x Hx. destruct (W5 x Hx) as [?%elem_of_nil|?]; done. }
  split; [|naive_solver]. intros x. split; [auto|]. intros (s & Hs & Hr). apply W1 in Hs.
  induction Hr as [|a b c Hab _ IH]; [done|]. apply IH. by apply (Hv a).
Qed.

Lemma work_start (start : gset rstr) :
  (forall x, x ∈ start -> is_Some (packages !! x)) ->
  work_inv start (start, rev (sort_strs (elements start)))
  /\ (work_left (start, rev (sort_strs (elements start))) <= S (size (dom packages)))%nat.
Proof.
  intros Hk. assert (Hperm : rev (sort_strs (elements start)) ≡ₚ elements start).
  { by rewrite <- Permutation_rev, sort_strs_perm. }
  split.
  - split; cbn [fst snd]; [done|done| | |].
    + intros x Hx. exists x. split; [done|apply rtc_refl].
    + rewrite Hperm. split; [apply NoDup_elements|]. intros x. rewrite Hperm. by rewrite elem_of_elements.
    + intros x Hx. left. by rewrite Hperm, elem_of_elements.
  - unfold work_left. cbn [fst snd]. rewrite Hperm. change (length (elements start)) with (size start).
    assert (size start <= size (dom packages))%nat.
    { apply subseteq_size. intros x Hx%Hk. by apply elem_of_dom. }
    lia.
Qed.
End proofs.

Section plan_proofs.
Context `{Alpm}.

(** The outputs the closure starts from. *)
Definition start_outputs (packages : gmap rstr AurPackage) (requested : list rstr) : gset rstr :=
  match requested with [] => dom packages | _ => list_to_set requested end.

(** Output [o] is requested or needed at run time by one that is. *)
Definition wanted (packages : gmap rstr AurPackage) (requested : list rstr) (o : rstr) : Prop :=
  exists s, s ∈ start_outputs packages requested /\ rtc (needs packages) s o.

(** [d] must be installed for output [o]: an external run-time dependency or
    a build or check input. *)
Definition input_of (packages : gmap rstr AurPackage) (o d : rstr) : Prop :=
  exists p, packages !! o = Some p
    /\ (d ∈ dependencies p /\ packages !! dependency_name d = None
        \/ d ∈ make_dependencies p \/ d ∈ check_dependencies p).

Lemma output_dependencies_Ok packages o l :
  output_dependencies packages o = Ok l -> forall d, d ∈ l <-> input_of packages o d.
Proof.
  unfold output_dependencies, input_of. intros (p & Hp%ok_or_Ok & Hl)%res_bind_Ok d. injection Hl as <-.
  rewrite Hp, !elem_of_app, list_elem_of_In, List.filter_In, <- list_elem_of_In, negb_true_iff, bool_decide_eq_false,
    <- eq_None_not_Some. naive_solver.
Qed.

Lemma output_dependencies_total packages o :
  is_Some (packages !! o) -> exists l, output_dependencies packages o = Ok l.
Proof. unfold output_dependencies. intros [p ->]. simpl. eauto. Qed.

(** The members of the lists computed for the members of [l]. *)
Lemma concat_elem {A B E} (f : A -> result (list B) E) (R : A -> B -> Prop) l ls :
  Forall2 (fun x y => f x = Ok y) l ls ->
  (forall x y, f x = Ok y -> forall b, b ∈ y <-> R x b) ->
  forall b, b ∈ concat ls <-> exists x, x ∈ l /\ R x b.
Proof.
  intros Hl HR b. induction Hl as [|x y l ls Hxy _ IH]; simpl; [set_solver|].
  rewrite elem_of_app, IH, (HR x y Hxy). set_solver.
Qed.

Lemma Forall2_exists {A B} (R : A -> B -> Prop) l :
  (forall x, x ∈ l -> exists y, R x y) -> exists l', Forall2 R l l'.
Proof.
  induction l as [|x l IH]; intros Hl; [by exists []|].
  destruct (Hl x) as [y Hy]; [by left|]. destruct IH as [l' Hl']; [intros z Hz; apply Hl; by right|].
  exists (y :: l'). by constructor.
Qed.

(** The checks of the requested outputs. *)
Lemma outputs_known (packages : gmap rstr AurPackage) (start : gset rstr) :
  for_each (fun _ output => ensure (bool_decide (output ∈ dom packages)) (OutputAbsent output)) tt
    (sort_strs (elements start)) = Ok tt
  <-> forall x : rstr, x ∈ start -> is_Some (packages !! x).
Proof.
  rewrite for_each_unit_Ok. split; intros Hk x Hx.
  - specialize (Hk x). rewrite elem_of_sort_strs, elem_of_elements in Hk. specialize (Hk Hx).
    apply ensure_Ok, bool_decide_eq_true, elem_of_dom in Hk. done.
  - apply ensure_Ok, bool_decide_eq_true, elem_of_dom, Hk. by rewrite elem_of_sort_strs, elem_of_elements in Hx.
Qed.

Lemma dependency_plan_Ok arch srcinfo requested deps outputs :
  dependency_plan arch srcinfo requested = Ok (deps, outputs) ->
  exists host, arch = Some host
    /\ let packages := collect_packages (packages_for_architecture srcinfo host) in
       (forall x, x ∈ start_outputs packages requested -> is_Some (packages !! x))
       /\ (forall o, wanted packages requested o -> output_ok (package_names srcinfo) packages o)
       /\ (StronglySorted str_le outputs /\ NoDup outputs /\ forall o, o ∈ outputs <-> wanted packages requested o)
       /\ (StronglySorted str_le deps /\ NoDup deps
           /\ forall d, d ∈ deps <-> exists o, wanted packages requested o /\ input_of packages o d).
Proof.
  unfold dependency_plan. intros (host & ->%ok_or_Ok & Hr)%res_bind_Ok. exists host. split; [done|].
  cbv zeta in *. set (packages := collect_packages _) in *. fold (start_outputs packages requested) in Hr.
  apply res_bind_Ok in Hr as ([] & Hk & Hr). pose proof (proj1 (outputs_known packages _) Hk) as Hknown.
  apply res_bind_Ok in Hr as (selected & Hs & Hr). destruct (work_start (package_names srcinfo) packages _ Hknown) as [Hw _].
  eapply select_outputs_Ok in Hs; [|exact Hw].
  apply work_done in Hs as [Hsel Hok].
  apply res_bind_Ok in Hr as (lists & Hl%try_map_Ok & Hr). injection Hr as <- <-.
  split_and!; [done|intros o Ho; by apply Hok, Hsel|apply sort_strs_sorted| | | | |].
  - rewrite sort_strs_perm. apply NoDup_elements.
  - intros o. by rewrite elem_of_sort_strs, elem_of_elements, Hsel.
  - apply dedup_sorted, sort_strs_sorted.
  - apply dedup_sorted, sort_strs_sorted.
  - intros d. rewrite elem_of_dedup, elem_of_sort_strs, (concat_elem _ (input_of packages) _ _ Hl).
    + split; intros (o & Ho & Hd); exists o; (split; [|done]).
      * apply Hsel. by rewrite elem_of_sort_strs, elem_of_elements in Ho.
      * by rewrite elem_of_sort_strs, elem_of_elements, Hsel.
    + apply output_dependencies_Ok.
Qed.

Lemma dependency_plan_total host srcinfo requested :
  let packages := collect_packages (packages_for_architecture srcinfo host) in
  (forall x, x ∈ start_outputs packages requested -> is_Some (packages !! x)) ->
  (forall o, wanted packages requested o -> output_ok (package_names srcinfo) packages o) ->
  exists plan, dependency_plan (Some host) srcinfo requested = Ok plan.
Proof.
  intros packages Hk Hgood. unfold dependency_plan. cbn [ok_or res_bind]. cbv zeta. fold packages.
  fold (start_outputs packages requested). rewrite (proj2 (outputs_known packages _) Hk).
  cbn [res_bind].
  destruct (work_start (package_names srcinfo) packages _ Hk) as [Hw Hf].
  destruct (select_outputs_total _ _ _ _ _ Hw Hf) as [selected Hs].
  { intros s x Hs Hr. apply Hgood. by exists s. }
  rewrite Hs. cbn [res_bind]. eapply select_outputs_Ok in Hs; [|exact Hw].
  assert (Hl : exists lists, try_map (output_dependencies packages) (sort_strs (elements selected)) = Ok lists).
  { setoid_rewrite try_map_Ok. apply Forall2_exists. intros x Hx.
    apply output_dependencies_total, (wi_known _ _ _ _ Hs). by rewrite elem_of_sort_strs, elem_of_elements in Hx. }
  destruct Hl as [lists ->]. cbn [res_bind]. eauto.
Qed.

(** * Properties *)

(** the plan is exact: the outputs are, in order and once each, those
    requested and the same-base outputs they need at run time, transitively;
    the missing packages are, once each, the inputs of those outputs that are
    not installed: external run-time dependencies and all build and check
    inputs. None of them is an output of the same base, which building could
    not provide in time. *)
Theorem aur_plan_is_closure arch srcinfo requested is_installed info :
  dependency_info arch srcinfo requested is_installed = Ok info ->
  exists host, arch = Some host
    /\ let packages := collect_packages (packages_for_architecture srcinfo host) in
       (StronglySorted str_le (package_outputs info) /\ NoDup (package_outputs info)
        /\ forall o, o ∈ package_outputs info <-> wanted packages requested o)
       /\ NoDup (missing info)
       /\ (forall d, d ∈ missing info <->
             is_installed d = false /\ exists o, wanted packages requested o /\ input_of packages o d)
       /\ (forall d, d ∈ missing info -> dependency_name d ∉ package_names srcinfo).
Proof.
  unfold dependency_info. intros ([deps outputs] & Hp & Hr)%res_bind_Ok. cbv zeta in Hr.
  apply res_bind_Ok in Hr as (u & Hb%ensure_Ok%bool_decide_eq_true & Hr). injection Hr as <-.
  apply dependency_plan_Ok in Hp as (host & -> & _ & _ & Houts & _ & Hnd & Hdeps).
  exists host. split; [done|]. cbv zeta. cbn [missing package_outputs].
  assert (Hm : forall d, d ∈ List.filter (fun d => negb (is_installed d)) deps <-> is_installed d = false /\ d ∈ deps).
  { intros d. rewrite list_elem_of_In, List.filter_In, <- list_elem_of_In, negb_true_iff. tauto. }
  split_and!; try apply Houts.
  - apply NoDup_ListNoDup, List.NoDup_filter. by apply NoDup_ListNoDup.
  - intros d. by rewrite Hm, Hdeps.
  - intros d Hd Hin. assert (Hf : d ∈ List.filter (fun d => bool_decide (dependency_name d ∈ package_names srcinfo))
      (List.filter (fun d => negb (is_installed d)) deps)).
    { apply list_elem_of_In, List.filter_In. rewrite <- list_elem_of_In. split; [done|by apply bool_decide_eq_true]. }
    rewrite Hb in Hf. by apply elem_of_nil in Hf.
Qed.

(** planning always answers, and fails only for a reason: there is a
    plan exactly when the architecture is supported, every requested output
    exists for it, and for every output in the closure each same-base run-time
    dependency is met by the version being built, none being an output of
    another architecture only. *)
Theorem aur_plan_succeeds_iff arch srcinfo requested :
  (exists plan, dependency_plan arch srcinfo requested = Ok plan) <->
  exists host, arch = Some host
    /\ let packages := collect_packages (packages_for_architecture srcinfo host) in
       (forall x, x ∈ start_outputs packages requested -> is_Some (packages !! x))
       /\ forall o, wanted packages requested o -> output_ok (package_names srcinfo) packages o.
Proof.
  split.
  - intros [[deps outputs] (host & -> & Hk & Hok & _)%dependency_plan_Ok]. exists host. auto.
  - intros (host & -> & Hk & Hok). by apply dependency_plan_total.
Qed.
End plan_proofs.

(** ** A recipe with two outputs *)

Definition sample_alpm : Alpm :=
  {| depend_version := fun _ => None; depend_depmod := fun _ => DepAny; vercmp := fun _ _ => Eq |}.

Definition sample_srcinfo : SourceInfo SystemArchitecture :=
  {| package_names := [str "tool"; str "tool-libs"];
     packages_for_architecture := fun _ =>
       [(str "tool", {| aur_version := str "1-1"; dependencies := [str "tool-libs=1"; str "glibc>2"];
                        make_dependencies := [str "cmake"; str "glibc>2"]; check_dependencies := [] |});
        (str "tool-libs", {| aur_version := str "1-1"; dependencies := []; make_dependencies := [str "cmake"];
                             check_dependencies := [] |})] |}.

Example sample_plan :
  dependency_plan (H := sample_alpm) (current_arch (str "x86_64")) sample_srcinfo [str "tool"]
  = Ok ([str "cmake"; str "glibc>2"], [str "tool"; str "tool-libs"]).
Proof. vm_compute. reflexivity. Qed.

Lemma aur_plan_is_closure_witness :
  exists info, dependency_info (H := sample_alpm) (Some X86_64) sample_srcinfo [str "tool"] (str_eqb (str "cmake")) = Ok info
  /\ exists host, Some X86_64 = Some host
    /\ let packages := collect_packages (packages_for_architecture sample_srcinfo host) in
       (StronglySorted str_le (package_outputs info) /\ NoDup (package_outputs info)
        /\ forall o, o ∈ package_outputs info <-> wanted packages [str "tool"] o)
       /\ NoDup (missing info)
       /\ (forall d, d ∈ missing info <->
             str_eqb (str "cmake") d = false /\ exists o, wanted packages [str "tool"] o /\ input_of packages o d)
       /\ (forall d, d ∈ missing info -> dependency_name d ∉ package_names sample_srcinfo).
Proof.
  eexists. split; [vm_compute; reflexivity|].
  apply (aur_plan_is_closure (H := sample_alpm)). vm_compute. reflexivity.
Defined.
