(* ===== verification/AptSources.v ===== *)
(** APT repository configuration: src/src/package_managers/debian_db/sources.rs.

    The one-line format of sources.list and the deb822 format of .sources
    files, from text to [Repository] values, and the collection of all files.
    Hash maps are gmaps. [str::to_lowercase] is exact on ASCII text and a
    parameter on the rest. What the file system delivers is the argument
    [AptFiles]. *)

From S2P Require Import Prelude Spdx Validation.
Open Scope Z_scope.
Open Scope omg_scope.

Inductive RepoType := Binary | Source.

#[export] Instance RepoType_eq_dec : EqDecision RepoType.
Proof. solve_decision. Defined.

Record Repository := {
  repo_type : RepoType;
  uri : rstr;
  suite : rstr;
  repo_components : list rstr;
  arch : option rstr;
  signed_by : option rstr;
  enabled : bool;
  source_file : rstr;
  options : gmap rstr rstr
}.

Definition release_url (self : Repository) : rstr :=
  rev (trim_start_matches (Z.eqb (ch "/")) (rev (uri self))) ++ str "/dists/" ++ suite self ++ str "/InRelease".

Definition repo_type_from_str (s : rstr) : option RepoType :=
  if str_eqb s (str "deb") then Some Binary
  else if str_eqb s (str "deb-src") then Some Source
  else None.

(** * The one-line format *)

Definition parse_option (opts : gmap rstr rstr) (opt : rstr) : gmap rstr rstr :=
  match split_once (ch "=") opt with
  | Some (key, value) => <[key := value]> opts
  | None => opts
  end.

Definition parse_options (opts_str : rstr) : gmap rstr rstr :=
  foldl parse_option ∅ (split_whitespace opts_str).

(** The bracketed options and the rest of the line; [None] when the bracket
    is not closed. *)
Definition split_options (rest : rstr) : option (gmap rstr rstr * rstr) :=
  match strip_prefix (str "[") rest with
  | Some body =>
      match split_once (ch "]") body with
      | Some (opts_str, rest) => Some (parse_options opts_str, trim rest)
      | None => None
      end
  | None => Some (∅, rest)
  end.

Definition parse_source_line (file : rstr) (line : rstr) (is_enabled : bool) : option Repository :=
  let line := trim line in
  match span_not is_whitespace line with
  | (_, []) => None
  | (type_token, _ :: rest) =>
      let rest := trim_start_matches is_whitespace rest in
      match repo_type_from_str type_token with
      | None => None
      | Some ty =>
          match split_options rest with
          | None => None
          | Some (opts, rest) =>
              match split_whitespace rest with
              | u :: s :: components =>
                  Some {| repo_type := ty; uri := u; suite := s; repo_components := components;
                          arch := opts !! str "arch"; signed_by := opts !! str "signed-by";
                          enabled := is_enabled; source_file := file; options := opts |}
              | _ => None
              end
          end
      end
  end.

(** One turn of the loop of [parse_sources_list_content]. *)
Definition parse_line (file : rstr) (line : rstr) : option Repository :=
  let line := trim line in
  if str_eqb line [] then None
  else
    match strip_prefix (str "#") line with
    | Some stripped =>
        let disabled_line := trim stripped in
        if negb (starts_with (str "deb ") disabled_line) && negb (starts_with (str "deb-src ") disabled_line)
        then None else parse_source_line file disabled_line false
    | None => parse_source_line file line true
    end.

Definition parse_sources_list_content (file : rstr) (content : rstr) : list Repository :=
  omap (parse_line file) (byte_lines content).

(** * The deb822 format *)

Section deb822.
Context (unicode_lowercase : rstr -> rstr).

Definition to_lowercase (s : rstr) : rstr :=
  if forallb (fun c => c <? 128) s then to_ascii_lowercase s else unicode_lowercase s.

Definition words_of (stanza : gmap rstr rstr) (key : rstr) : list rstr :=
  match stanza !! key with Some s => split_whitespace s | None => [] end.

Definition stanza_types (stanza : gmap rstr rstr) : list RepoType :=
  match stanza !! str "types" with
  | Some s => omap repo_type_from_str (split_whitespace s)
  | None => [Binary]
  end.

Definition known_keys : list rstr :=
  map str ["types"; "uris"; "suites"; "components"; "architectures"; "signed-by"; "enabled"].

Definition stanza_signed_by (stanza : gmap rstr rstr) : option rstr :=
  match stanza !! str "signed-by" with
  | Some value => if contains_char 10 value then None else Some value
  | None => None
  end.

Definition stanza_options (stanza : gmap rstr rstr) : gmap rstr rstr :=
  let opts := filter (fun kv => kv.1 ∉ known_keys) stanza in
  match stanza_signed_by stanza, stanza !! str "signed-by" with
  | None, Some value => <[str "signed-by" := value]> opts
  | _, _ => opts
  end.

Definition stanza_enabled (stanza : gmap rstr rstr) : bool :=
  match stanza !! str "enabled" with
  | Some s => negb (str_eqb s (str "no")) && negb (str_eqb s (str "false"))
  | None => true
  end.

Definition expand_deb822_stanza (file : rstr) (stanza : gmap rstr rstr) : list Repository :=
  let uris := words_of stanza (str "uris") in
  let suites := words_of stanza (str "suites") in
  match uris, suites with
  | [], _ | _, [] => []
  | _, _ =>
      stanza_types stanza ≫= fun ty =>
      uris ≫= fun u =>
      map (fun s =>
        {| repo_type := ty; uri := u; suite := s;
           repo_components := words_of stanza (str "components");
           arch := stanza !! str "architectures";
           signed_by := stanza_signed_by stanza;
           enabled := stanza_enabled stanza;
           source_file := file;
           options := stanza_options stanza |}) suites
  end.

(** The variables of the loop of [parse_deb822_content]. *)
Record Deb822State := {
  repos : list Repository;
  current_stanza : gmap rstr rstr;
  last_key : option rstr
}.

Definition flush_stanza (file : rstr) (s : Deb822State) : list Repository :=
  if decide (current_stanza s = ∅) then repos s
  else repos s ++ expand_deb822_stanza file (current_stanza s).

Definition deb822_line (file : rstr) (s : Deb822State) (raw_line : rstr) : Deb822State :=
  let trimmed := trim raw_line in
  if str_eqb trimmed [] then
    {| repos := flush_stanza file s; current_stanza := ∅; last_key := None |}
  else if starts_with (str "#") trimmed then s
  else if starts_with (str " ") raw_line || starts_with [9] raw_line then
    match last_key s with
    | Some key =>
        match current_stanza s !! key with
        | Some value =>
            {| repos := repos s; current_stanza := <[key := value ++ 10 :: trimmed]> (current_stanza s);
               last_key := last_key s |}
        | None => s
        end
    | None => s
    end
  else
    match split_once (ch ":") trimmed with
    | Some (key, value) =>
        let key := to_lowercase (trim key) in
        {| repos := repos s; current_stanza := <[key := trim value]> (current_stanza s); last_key := Some key |}
    | None => s
    end.

Definition parse_deb822_content (file : rstr) (content : rstr) : list Repository :=
  flush_stanza file
    (foldl (deb822_line file) {| repos := []; current_stanza := ∅; last_key := None |} (byte_lines content)).

(** * All files *)

Inductive SourcesError := SourcesUnreadable | SourcesDirUnreadable | SourcesEntryUnreadable.

Inductive SourcesDir :=
| DirNotFound
| DirFailed
| DirEntries (entries : list (option (rstr * option rstr))).

(** sources.list, when it exists, and the entries of sources.list.d with
    their contents; [None] marks what cannot be read. *)
Record AptFiles := {
  main_sources : option (option rstr);
  sources_dir : SourcesDir
}.

Definition MAIN_SOURCES : rstr := str "/etc/apt/sources.list".

Definition parse_sources_list (file : rstr) (content : option rstr) : result (list Repository) SourcesError :=
  let? content := ok_or content SourcesUnreadable in
  Ok (parse_sources_list_content file content).

Definition parse_deb822_sources (file : rstr) (content : option rstr) : result (list Repository) SourcesError :=
  let? content := ok_or content SourcesUnreadable in
  Ok (parse_deb822_content file content).

Definition parse_dir_entry (acc : list Repository) (entry : option (rstr * option rstr))
  : result (list Repository) SourcesError :=
  let? (path, content) := ok_or entry SourcesEntryUnreadable in
  match path_extension path with
  | None => Ok acc
  | Some ext =>
      if str_eqb ext (str "list") then
        let? parsed := parse_sources_list path content in Ok (acc ++ parsed)
      else if str_eqb ext (str "sources") then
        let? parsed := parse_deb822_sources path content in Ok (acc ++ parsed)
      else Ok acc
  end.

Definition parse_all_sources (files : AptFiles) : result (list Repository) SourcesError :=
  let? main := match main_sources files with
               | Some content => parse_sources_list MAIN_SOURCES content
               | None => Ok []
               end in
  match sources_dir files with
  | DirNotFound => Ok main
  | DirFailed => Err SourcesDirUnreadable
  | DirEntries entries => for_each parse_dir_entry main entries
  end.

Definition get_enabled_binary_repos (files : AptFiles) : result (list Repository) SourcesError :=
  let? all := parse_all_sources files in
  Ok (List.filter (fun r => enabled r && bool_decide (repo_type r = Binary)) all).
End deb822.

(** * Writing the one-line format *)

Definition render_option (kv : rstr * rstr) : rstr := kv.1 ++ ch "=" :: kv.2.

Definition render_options (opts : gmap rstr rstr) : rstr :=
  if decide (opts = ∅) then []
  else ch "[" :: join_words (map render_option (map_to_list opts)) ++ str "] ".

Definition render_type (ty : RepoType) : rstr :=
  match ty with Binary => str "deb" | Source => str "deb-src" end.

Definition render_words (r : Repository) : rstr := join_words (uri r :: suite r :: repo_components r).

Definition render_entry (r : Repository) : rstr :=
  render_type (repo_type r) ++ 32 :: render_options (options r) ++ render_words r.

(** A disabled entry is the entry commented out. *)
Definition render_line (r : Repository) : rstr :=
  if enabled r then render_entry r else str "# " ++ render_entry r.

Definition render_sources_list (repos : list Repository) : rstr := (map render_line repos) ≫= fun l => l ++ [10].

Definition option_text (k v : rstr) : Prop :=
  Forall (fun c => is_whitespace c = false) (k ++ v) /\ (ch "=" ∉ k) /\ (ch "]" ∉ k ++ v).

(** A repository the one-line format can express. *)
Record expressible (file : rstr) (r : Repository) : Prop := {
  ex_file : source_file r = file;
  ex_arch : arch r = options r !! str "arch";
  ex_signed : signed_by r = options r !! str "signed-by";
  ex_words : Forall word (uri r :: suite r :: repo_components r);
  ex_uri : starts_with (str "[") (uri r) = false;
  ex_options : forall k v, options r !! k = Some v -> option_text k v
}.

Lemma parse_option_render opts kv :
  option_text kv.1 kv.2 -> parse_option opts (render_option kv) = <[kv.1 := kv.2]> opts.
Proof.
  intros (_ & Heq & _). unfold parse_option, render_option.
  assert (split_once (ch "=") (kv.1 ++ ch "=" :: kv.2) = Some (kv.1, kv.2)) as ->; [|done].
  by apply split_once_Some.
Qed.

Lemma render_option_word kv : option_text kv.1 kv.2 -> word (render_option kv).
Proof.
  intros (Hws & _ & _). apply Forall_app in Hws as [H1 H2]. split.
  - unfold render_option. by destruct kv.1.
  - apply Forall_app. split; [done|]. by constructor.
Qed.

Lemma fold_parse_options l m :
  (forall kv, kv ∈ l -> option_text kv.1 kv.2) ->
  foldl parse_option m (map render_option l) = foldl (fun m kv => <[kv.1 := kv.2]> m) m l.
Proof.
  revert m; induction l as [|kv l IH]; intros m Hl; simpl; [done|].
  rewrite parse_option_render by (apply Hl; by left). apply IH. intros kv' Hkv. apply Hl. by right.
Qed.

Lemma map_options_text opts :
  (forall k v, opts !! k = Some v -> option_text k v) ->
  forall kv, kv ∈ map_to_list opts -> option_text kv.1 kv.2.
Proof. intros H [k v] Hin%elem_of_map_to_list. by apply H. Qed.

Lemma parse_options_render opts :
  (forall k v, opts !! k = Some v -> option_text k v) ->
  parse_options (join_words (map render_option (map_to_list opts))) = opts.
Proof.
  intros H. pose proof (map_options_text opts H) as Hl. unfold parse_options. rewrite split_whitespace_join.
  - rewrite fold_parse_options, foldl_insert_list_to_map;
      [|apply NoDup_fst_map_to_list|intros; apply lookup_empty|done].
    by rewrite (right_id_L ∅ (∪)), list_to_map_to_list.
  - apply Forall_map, Forall_forall. intros kv Hkv. by apply render_option_word, Hl.
Qed.

(** No closing bracket inside the options. *)
Lemma join_words_notin c ws : c ≠ 32 -> Forall (fun w => c ∉ w) ws -> c ∉ join_words ws.
Proof.
  intros Hc. induction 1 as [|w ws Hw _ IH]; [set_solver|]. destruct ws as [|v ws]; [done|].
  change (join_words (w :: v :: ws)) with (w ++ 32 :: join_words (v :: ws)). set_solver.
Qed.

Lemma split_options_render opts rest :
  (forall k v, opts !! k = Some v -> option_text k v) ->
  visible_ends rest -> starts_with (str "[") rest = false ->
  split_options (render_options opts ++ rest) = Some (opts, rest).
Proof.
  intros H Hv Hs. unfold split_options, render_options. destruct (decide (opts = ∅)) as [->|Hne].
  - simpl. unfold starts_with in Hs. simpl in Hs. by destruct rest as [|c rest]; simpl in *; [|case_match].
  - set (text := join_words (map render_option (map_to_list opts))).
    assert (strip_prefix (str "[") ((ch "[" :: text ++ str "] ") ++ rest) = Some (text ++ ch "]" :: 32 :: rest)) as ->.
    { apply strip_prefix_Some. simpl. by rewrite <- app_assoc. }
    assert (split_once (ch "]") (text ++ ch "]" :: 32 :: rest) = Some (text, 32 :: rest)) as ->.
    { apply split_once_Some. split; [done|]. apply join_words_notin; [done|].
      apply Forall_map, Forall_forall. intros kv (_ & _ & Hb)%(map_options_text opts H).
      unfold render_option. simpl. apply not_elem_of_app in Hb as [??]. apply not_elem_of_app.
      rewrite not_elem_of_cons. by split_and!. }
    unfold text. rewrite parse_options_render by done. do 2 f_equal. transitivity (trim rest); [done|]. by apply trim_visible.
Qed.

Lemma render_words_ends file r : expressible file r -> visible_ends (render_words r).
Proof. intros Hr. by apply join_words_ends; [|apply (ex_words _ _ Hr)]. Qed.

Lemma render_type_word ty : word (render_type ty).
Proof. destruct ty; (split; [done|]); by repeat constructor. Qed.

Lemma render_words_bracket file r : expressible file r -> starts_with (str "[") (render_words r) = false.
Proof.
  intros Hr. destruct (starts_with (str "[") (render_words r)) eqn:E; [|done].
  apply starts_with_true in E as [s Hs]. rewrite <- (ex_uri _ _ Hr). symmetry. apply starts_with_true.
  pose proof (ex_words _ _ Hr) as Hw. inversion Hw as [|? ? [Hne _] _]; subst.
  destruct (uri r) as [|c u] eqn:Eu; [done|]. unfold render_words in Hs. rewrite Eu in Hs.
  injection Hs as -> _. by exists u.
Qed.

Lemma render_entry_ends file r : expressible file r -> visible_ends (render_entry r).
Proof.
  intros Hr. unfold render_entry.
  change (render_type (repo_type r) ++ 32 :: render_options (options r) ++ render_words r)
    with (render_type (repo_type r) ++ (32 :: render_options (options r)) ++ render_words r).
  apply visible_ends_app; [apply word_ends, render_type_word|by eapply render_words_ends].
Qed.

(** The part after the type starts with a visible character. *)
Lemma render_rest_trim file r :
  expressible file r ->
  trim_start_matches is_whitespace (render_options (options r) ++ render_words r)
  = render_options (options r) ++ render_words r.
Proof.
  intros Hr. unfold render_options. destruct (decide _); [|by apply trim_start_id].
  destruct (render_words_ends file r Hr) as [(c & s & -> & Hc) _]. by apply trim_start_id.
Qed.

Lemma repo_type_render ty : repo_type_from_str (render_type ty) = Some ty.
Proof. by destruct ty. Qed.

Lemma parse_source_line_render file r b :
  expressible file r -> enabled r = b -> parse_source_line file (render_entry r) b = Some r.
Proof.
  intros Hr Hb. unfold parse_source_line. rewrite trim_visible by (by eapply render_entry_ends).
  unfold render_entry. rewrite span_not_cut; [|apply (render_type_word (repo_type r))|done].
  rewrite (render_rest_trim file), repo_type_render by done.
  rewrite split_options_render; [|apply (ex_options _ _ Hr)|by eapply render_words_ends|by eapply render_words_bracket].
  unfold render_words. rewrite split_whitespace_join by apply (ex_words _ _ Hr).
  rewrite <- (ex_arch _ _ Hr), <- (ex_signed _ _ Hr), <- (ex_file _ _ Hr), <- Hb. by destruct r.
Qed.

Lemma parse_line_render file r : expressible file r -> parse_line file (render_line r) = Some r.
Proof.
  intros Hr. pose proof (render_entry_ends file r Hr) as He. unfold parse_line, render_line.
  destruct (enabled r) eqn:Een.
  - rewrite trim_visible by done.
    assert (str_eqb (render_entry r) [] = false /\ strip_prefix (str "#") (render_entry r) = None) as [-> ->].
    { unfold render_entry. by destruct (repo_type r). }
    by apply parse_source_line_render.
  - assert (Hv : visible_ends (str "# " ++ render_entry r)).
    { change (str "# " ++ render_entry r) with (str "#" ++ [32] ++ render_entry r). apply visible_ends_app; [|done].
      apply word_ends. split; [done|]. by repeat constructor. }
    rewrite trim_visible by done.
    assert (str_eqb (str "# " ++ render_entry r) [] = false) as -> by done.
    assert (strip_prefix (str "#") (str "# " ++ render_entry r) = Some (32 :: render_entry r)) as -> by done.
    assert (trim (32 :: render_entry r) = render_entry r) as -> by (transitivity (trim (render_entry r)); [done|by apply trim_visible]).
    assert (starts_with (str "deb ") (render_entry r) || starts_with (str "deb-src ") (render_entry r) = true) as Hd.
    { unfold render_entry. by destruct (repo_type r). }
    rewrite <- negb_orb, Hd. simpl. by apply parse_source_line_render.
Qed.

Lemma word_notin w : word w -> 10 ∉ w.
Proof. intros [_ Hw] Hin. by specialize (proj1 (Forall_forall _ _) Hw _ Hin). Qed.

Lemma render_line_line file r : expressible file r -> (10 ∉ render_line r) /\ strip_cr (render_line r) = render_line r.
Proof.
  intros Hr. pose proof (render_entry_ends file r Hr) as He.
  assert (H10 : 10 ∉ render_entry r).
  { unfold render_entry. apply not_elem_of_app. split; [by destruct (repo_type r); vm_compute; set_solver|].
    rewrite not_elem_of_cons, not_elem_of_app. split_and!; [done| |].
    - unfold render_options. destruct (decide _); [set_solver|]. rewrite not_elem_of_cons, not_elem_of_app.
      split_and!; [done| |by vm_compute; set_solver]. apply join_words_notin; [done|].
      apply Forall_map, Forall_forall. intros kv Hkv%(map_options_text _ (ex_options _ _ Hr)).
      by apply word_notin, render_option_word.
    - apply join_words_notin; [done|]. eapply Forall_impl; [apply (ex_words _ _ Hr)|]. by intros w Hw%word_notin. }
  unfold render_line. destruct (enabled r); [by split; [|apply strip_cr_visible]|]. split.
  - apply not_elem_of_app. split; [by vm_compute; set_solver|done].
  - apply strip_cr_visible. change (str "# " ++ render_entry r) with (str "#" ++ [32] ++ render_entry r).
    apply visible_ends_app; [|done]. apply word_ends. split; [done|]. by repeat constructor.
Qed.

(** * Writing the deb822 format *)

(** A field: its name and the first line of its value, then continuations. *)
Definition render_field (kv : rstr * rstr) : list rstr :=
  match split_char 10 kv.2 with
  | first :: more => (kv.1 ++ ch ":" :: 32 :: first) :: map (cons 32) more
  | [] => []
  end.

(** The lines of a stanza, closed by an empty one. *)
Definition stanza_lines (stanza : gmap rstr rstr) : list rstr :=
  (map_to_list stanza ≫= render_field) ++ [[]].

Definition render_deb822 (stanzas : list (gmap rstr rstr)) : rstr :=
  (stanzas ≫= stanza_lines) ≫= fun l => l ++ [10].

Section deb822_proofs.
Context (unicode_lowercase : rstr -> rstr) (file : rstr).

(** Field names are lowercase words without a colon; the lines of a value
    have visible ends, the first may be empty. *)
Record field_text (k v : rstr) : Prop := {
  ft_word : word k;
  ft_lower : to_lowercase unicode_lowercase k = k;
  ft_colon : ch ":" ∉ k;
  ft_comment : starts_with (str "#") k = false;
  ft_first : forall first more, split_char 10 v = first :: more -> first = [] \/ visible_ends first;
  ft_more : forall first more, split_char 10 v = first :: more ->
    Forall (fun l => visible_ends l /\ starts_with (str "#") l = false) more
}.

Definition stanza_text (stanza : gmap rstr rstr) : Prop := forall k v, stanza !! k = Some v -> field_text k v.

Lemma trim_indent l : trim (32 :: l) = trim l.
Proof. done. Qed.

Lemma visible_nonempty l : visible_ends l -> str_eqb l [] = false.
Proof. intros [(c & r & -> & _) _]. done. Qed.

Lemma trim_first_line k first :
  word k -> first = [] \/ visible_ends first ->
  exists rest, trim (k ++ ch ":" :: 32 :: first) = k ++ ch ":" :: rest /\ trim rest = first.
Proof.
  intros Hk [->|Hf].
  - exists []. split; [|done]. unfold trim. destruct (word_ends k Hk) as [(c & r & -> & Hc) _].
    cbn [app]. rewrite trim_start_id by done. change (c :: r ++ [ch ":"; 32]) with ((c :: r) ++ [ch ":"; 32]).
    rewrite rev_app_distr. simpl rev at 2. cbn [app trim_start_matches]. simpl is_whitespace. cbv iota.
    rewrite <- (rev_involutive (c :: r ++ [ch ":"])). f_equal. change (c :: r ++ [ch ":"]) with ((c :: r) ++ [ch ":"]).
    by rewrite rev_app_distr.
  - exists (32 :: first). split; [|rewrite trim_indent; by apply trim_visible].
    apply trim_visible. change (k ++ ch ":" :: 32 :: first) with (k ++ [ch ":"; 32] ++ first).
    apply visible_ends_app; [by apply word_ends|done].
Qed.

Lemma deb822_first_line s k v first more :
  field_text k v -> split_char 10 v = first :: more ->
  deb822_line unicode_lowercase file s (k ++ ch ":" :: 32 :: first)
  = {| repos := repos s; current_stanza := <[k := first]> (current_stanza s); last_key := Some k |}.
Proof.
  intros [Hw Hl Hc Hh Hf _] Hv. destruct (trim_first_line k first Hw (Hf _ _ Hv)) as (rest & Ht & Hr).
  unfold deb822_line. rewrite Ht.
  assert (split_once (ch ":") (k ++ ch ":" :: rest) = Some (k, rest)) as -> by (by apply split_once_Some).
  rewrite (trim_visible k), Hl, Hr by (by apply word_ends). destruct Hw as [Hne Hw]. destruct Hw as [|c k Hcw Hkw]; [done|].
  assert (starts_with (str "#") ((c :: k) ++ ch ":" :: rest) = false) as ->.
  { clear -Hh. unfold starts_with in *. cbn [app str map String.list_ascii_of_string strip_prefix] in *.
    by destruct (ch "#" =? c). }
  assert (starts_with (str " ") ((c :: k) ++ ch ":" :: 32 :: first) = false) as ->.
  { unfold starts_with. cbn [app str map String.list_ascii_of_string strip_prefix]. ev_ch.
    destruct (Z.eqb_spec 32 c); [by subst|done]. }
  assert (starts_with [9] ((c :: k) ++ ch ":" :: 32 :: first) = false) as ->.
  { unfold starts_with. cbn [app strip_prefix]. destruct (Z.eqb_spec 9 c); [by subst|done]. }
  done.
Qed.

Lemma deb822_continuation s k v l :
  last_key s = Some k -> current_stanza s !! k = Some v -> visible_ends l -> starts_with (str "#") l = false ->
  deb822_line unicode_lowercase file s (32 :: l)
  = {| repos := repos s; current_stanza := <[k := v ++ 10 :: l]> (current_stanza s); last_key := Some k |}.
Proof.
  intros Hk Hv Hl Hh. unfold deb822_line. rewrite trim_indent, trim_visible, visible_nonempty, Hh by done.
  assert (starts_with (str " ") (32 :: l) = true) as -> by done. simpl orb. cbv iota. by rewrite Hk, Hv.
Qed.

(** The value is its first line and the continuations, newline-separated. *)
Lemma split_char_join v first more :
  split_char 10 v = first :: more -> v = first ++ (more ≫= fun l => 10 :: l).
Proof.
  revert first more; induction v as [|c v IH]; intros first more; cbn [split_char].
  - by intros [= <- <-].
  - destruct (Z.eqb_spec 10 c) as [<-|Hne].
    + intros [= <- <-]. destruct (split_char_cons 10 v) as (p & ps & E). rewrite E. simpl. f_equal. by apply IH.
    + destruct (split_char_cons 10 v) as (p & ps & E). rewrite E. intros [= <- <-]. simpl. f_equal. by apply IH.
Qed.

Lemma deb822_continuations s k v more :
  last_key s = Some k -> current_stanza s !! k = Some v ->
  Forall (fun l => visible_ends l /\ starts_with (str "#") l = false) more ->
  foldl (deb822_line unicode_lowercase file) s (map (cons 32) more)
  = {| repos := repos s; current_stanza := <[k := v ++ (more ≫= fun l => 10 :: l)]> (current_stanza s);
       last_key := Some k |}.
Proof.
  intros Hk Hv H. revert s v Hk Hv; induction H as [|l more [Hl Hh] _ IH]; intros s v Hk Hv; cbn [map foldl].
  - simpl. rewrite app_nil_r, insert_id by done. destruct s; simpl in *. by subst.
  - rewrite (deb822_continuation _ k v) by done. rewrite (IH _ (v ++ 10 :: l)); [|done|apply lookup_insert_eq].
    cbn [repos current_stanza]. rewrite insert_insert_eq. by rewrite <- app_assoc.
Qed.

(** A field sets its value. *)
Lemma deb822_field s kv :
  field_text kv.1 kv.2 ->
  foldl (deb822_line unicode_lowercase file) s (render_field kv)
  = {| repos := repos s; current_stanza := <[kv.1 := kv.2]> (current_stanza s); last_key := Some kv.1 |}.
Proof.
  intros Hf. unfold render_field. destruct (split_char_cons 10 kv.2) as (first & more & E). rewrite E. cbn [foldl].
  rewrite (deb822_first_line s kv.1 kv.2 first more) by done.
  rewrite (deb822_continuations _ kv.1 first); [|done|apply lookup_insert_eq|by eapply ft_more].
  cbn [repos current_stanza]. rewrite insert_insert_eq. by rewrite <- (split_char_join _ _ _ E).
Qed.

Lemma deb822_fields l s :
  Forall (fun kv => field_text kv.1 kv.2) l ->
  let s' := foldl (deb822_line unicode_lowercase file) s (l ≫= render_field) in
  repos s' = repos s /\ current_stanza s' = foldl (fun m kv => <[kv.1 := kv.2]> m) (current_stanza s) l.
Proof.
  intros H. revert s; induction H as [|kv l Hkv _ IH]; intros s; [done|]. cbn [mbind list_bind foldl].
  rewrite foldl_app, deb822_field by done. apply (IH {| repos := _; current_stanza := _; last_key := _ |}).
Qed.

Lemma expand_empty : expand_deb822_stanza file ∅ = [].
Proof. done. Qed.

Lemma deb822_stanza s stanza :
  stanza_text stanza -> current_stanza s = ∅ ->
  foldl (deb822_line unicode_lowercase file) s (stanza_lines stanza)
  = {| repos := repos s ++ expand_deb822_stanza file stanza; current_stanza := ∅; last_key := None |}.
Proof.
  intros Hst Hs. unfold stanza_lines. rewrite foldl_app.
  destruct (deb822_fields (map_to_list stanza) s) as [Hr Hc].
  { apply Forall_forall. intros [k v] Hkv%elem_of_map_to_list. by apply Hst. }
  set (s' := foldl _ s _) in *. rewrite Hs, foldl_insert_list_to_map in Hc;
    [|apply NoDup_fst_map_to_list|intros; apply lookup_empty].
  rewrite (right_id_L ∅ (∪)), list_to_map_to_list in Hc. simpl. unfold deb822_line. simpl. f_equal.
  unfold flush_stanza. rewrite Hc, Hr. destruct (decide (stanza = ∅)) as [->|]; [|done].
  by rewrite expand_empty, app_nil_r.
Qed.

Lemma field_lines kv :
  field_text kv.1 kv.2 -> Forall (fun l => (10 ∉ l) /\ strip_cr l = l) (render_field kv).
Proof.
  intros Hf. unfold render_field. destruct (split_char_cons 10 kv.2) as (first & more & E). rewrite E.
  assert (H10 : forall l, l ∈ first :: more -> 10 ∉ l) by (intros l; rewrite <- E; apply split_char_no_sep).
  constructor.
  - split; [rewrite not_elem_of_app, !not_elem_of_cons; split_and!; [apply word_notin, Hf|done|done|apply H10; by left]|].
    destruct (ft_first _ _ Hf _ _ E) as [->|[_ (r & c & -> & Hc)]].
    + apply (strip_cr_last (kv.1 ++ [ch ":"]) 32 (kv.1 ++ [ch ":"; 32])); [by rewrite <- app_assoc|done].
    + eapply (strip_cr_last (kv.1 ++ ch ":" :: 32 :: r) c); [by rewrite <- app_assoc|by intros ->].
  - apply Forall_map, Forall_forall. intros l Hl. split; [apply not_elem_of_cons; split; [done|apply H10; by right]|].
    destruct (proj1 (Forall_forall _ _) (ft_more _ _ Hf _ _ E) l Hl) as [[_ (r & c & -> & Hc)] _].
    apply (strip_cr_last (32 :: r) c); [done|by intros ->].
Qed.

Lemma deb822_stanzas stanzas s :
  Forall stanza_text stanzas -> current_stanza s = ∅ ->
  flush_stanza file (foldl (deb822_line unicode_lowercase file) s (stanzas ≫= stanza_lines))
  = repos s ++ (stanzas ≫= expand_deb822_stanza file).
Proof.
  intros H. revert s; induction H as [|stanza stanzas Hst _ IH]; intros s Hs.
  - simpl. unfold flush_stanza. by rewrite decide_True, app_nil_r.
  - cbn [mbind list_bind]. rewrite foldl_app, deb822_stanza by done.
    rewrite (IH {| repos := _; current_stanza := ∅; last_key := None |}) by done. simpl. by rewrite <- app_assoc.
Qed.

Lemma parse_deb822_render stanzas :
  Forall stanza_text stanzas ->
  parse_deb822_content unicode_lowercase file (render_deb822 stanzas) = stanzas ≫= expand_deb822_stanza file.
Proof.
  intros H. unfold parse_deb822_content, render_deb822. rewrite byte_lines_unlines.
  - rewrite deb822_stanzas; done.
  - apply Forall_bind. eapply Forall_impl; [exact H|]. intros stanza Hst. unfold stanza_lines.
    apply Forall_app. split; [|constructor; [split; [set_solver|done]|constructor]].
    apply Forall_bind, Forall_forall. intros [k v] Hkv%elem_of_map_to_list. apply field_lines. by apply Hst.
Qed.
End deb822_proofs.

(** * Properties *)

(** the one-line parser reads what the format says: a file written from
    repositories the format can express, enabled or commented out, with any
    options and components, parses back to exactly those repositories, in
    order; in particular no signing key, architecture or enabled flag is lost
    or invented. *)
Theorem sources_list_roundtrip file repositories :
  Forall (expressible file) repositories ->
  parse_sources_list_content file (render_sources_list repositories) = repositories.
Proof.
  intros H. unfold parse_sources_list_content, render_sources_list. rewrite byte_lines_unlines.
  - induction H as [|r rs Hr _ IH]; [done|]. cbn [map omap list_omap]. by rewrite parse_line_render, IH.
  - apply Forall_map. eapply Forall_impl; [exact H|]. intros r Hr. by eapply render_line_line.
Qed.

(** a deb822 file is the list of its stanzas, multi-line values
    included, each expanded to every combination of its types, URIs and
    suites; every repository keeps the signing key of its stanza, as a path or
    as inline key material in the options, and is disabled exactly when the
    stanza says so. *)
Theorem deb822_expands_stanzas unicode_lowercase file stanzas :
  Forall (stanza_text unicode_lowercase) stanzas ->
  parse_deb822_content unicode_lowercase file (render_deb822 stanzas) = (stanzas ≫= expand_deb822_stanza file)
  /\ forall r, r ∈ stanzas ≫= expand_deb822_stanza file ->
       exists stanza, stanza ∈ stanzas
         /\ repo_type r ∈ stanza_types stanza
         /\ uri r ∈ words_of stanza (str "uris") /\ suite r ∈ words_of stanza (str "suites")
         /\ (forall key, stanza !! str "signed-by" = Some key ->
              signed_by r = Some key \/ signed_by r = None /\ options r !! str "signed-by" = Some key)
         /\ (enabled r = false <-> stanza !! str "enabled" = Some (str "no") \/ stanza !! str "enabled" = Some (str "false")).
Proof.
  intros H. split; [by apply parse_deb822_render|]. intros r (stanza & Hr & Hin)%list_elem_of_bind.
  exists stanza. split; [done|]. unfold expand_deb822_stanza in Hr.
  destruct (words_of stanza (str "uris")) as [|u0 us] eqn:Eu; [set_solver|].
  destruct (words_of stanza (str "suites")) as [|s0 ss] eqn:Es; [set_solver|].
  apply list_elem_of_bind in Hr as (ty & Hr & Hty). apply list_elem_of_bind in Hr as (u & Hr & Hu).
  apply list_elem_of_In, List.in_map_iff in Hr as (s & <- & Hs). cbn [repo_type uri suite signed_by options enabled].
  split_and!; [done|done|by apply list_elem_of_In| |].
  - intros key Hkey. unfold stanza_options, stanza_signed_by. rewrite Hkey.
    destruct (contains_char 10 key); [right|by left]. split; [done|]. by rewrite lookup_insert_eq.
  - unfold stanza_enabled. destruct (stanza !! str "enabled") as [v|]; [|naive_solver].
    rewrite andb_false_iff, !negb_false_iff. unfold str_eqb. rewrite !bool_decide_eq_true. naive_solver.
Qed.

Definition sample_repository (on : bool) : Repository :=
  {| repo_type := Binary; uri := str "https://deb.debian.org/debian"; suite := str "bookworm";
     repo_components := [str "main"; str "contrib"]; arch := None;
     signed_by := Some (str "/usr/share/keyrings/debian.gpg"); enabled := on;
     source_file := str "/etc/apt/sources.list";
     options := {[str "signed-by" := str "/usr/share/keyrings/debian.gpg"]} |}.

Lemma sample_expressible on : expressible (str "/etc/apt/sources.list") (sample_repository on).
Proof.
  split; [done|done|done| |done|].
  - repeat (constructor; [split; [done|by repeat constructor]|]). constructor.
  - intros k v Hkv. cbn [sample_repository options] in Hkv. apply lookup_singleton_Some in Hkv as [<- <-]. split; [by repeat constructor|]. split; vm_compute; set_solver.
Qed.

Lemma sources_list_roundtrip_witness :
  render_sources_list [sample_repository true; sample_repository false]
  = str "deb [signed-by=/usr/share/keyrings/debian.gpg] https://deb.debian.org/debian bookworm main contrib" ++ [10]
    ++ str "# deb [signed-by=/usr/share/keyrings/debian.gpg] https://deb.debian.org/debian bookworm main contrib" ++ [10]
  /\ parse_sources_list_content (str "/etc/apt/sources.list")
       (render_sources_list [sample_repository true; sample_repository false])
     = [sample_repository true; sample_repository false].
Proof.
  split; [vm_compute; reflexivity|]. apply sources_list_roundtrip.
  constructor; [apply sample_expressible|]. constructor; [apply sample_expressible|]. constructor.
Defined.

Definition sample_stanza : gmap rstr rstr :=
  {[str "uris" := str "https://deb.debian.org/debian"; str "suites" := str "bookworm bookworm-updates";
    str "signed-by" := str "BEGIN" ++ 10 :: str "mQINBF" ++ 10 :: str "END"]}.

Lemma sample_field k v first more :
  forallb (fun c => negb (is_whitespace c) && (c <? 128)) k = true -> to_ascii_lowercase k = k ->
  k ≠ [] -> (ch ":" ∉ k) -> starts_with (str "#") k = false ->
  split_char 10 v = first :: more ->
  (first = [] \/ visible_ends first) -> Forall (fun l => visible_ends l /\ starts_with (str "#") l = false) more ->
  field_text (fun s => s) k v.
Proof.
  intros Hk Hl Hne Hc Hh Hv Hf Hm.
  assert (Hall : Forall (fun c => is_whitespace c = false /\ (c <? 128) = true) k).
  { apply Forall_forall. intros c Hin. rewrite forallb_forall in Hk.
    specialize (Hk c (proj1 (list_elem_of_In _ _) Hin)). by to_prop. }
  split; [|unfold to_lowercase| | | |]; try done.
  - split; [done|]. eapply Forall_impl; [exact Hall|]. by intros c [? _].
  - by destruct (forallb (fun c => c <? 128) k).
  - intros f m Hfm. rewrite Hv in Hfm. by injection Hfm as <- <-.
  - intros f m Hfm. rewrite Hv in Hfm. by injection Hfm as <- <-.
Qed.

(** Both ends of a concrete text are visible. *)
Lemma sample_stanza_text : stanza_text (fun s => s) sample_stanza.
Proof.
  intros k v Hkv. unfold sample_stanza in Hkv.
  apply lookup_insert_Some in Hkv as [[<- <-]|[_ Hkv]];
    [|apply lookup_insert_Some in Hkv as [[<- <-]|[_ Hkv]]; [|apply lookup_singleton_Some in Hkv as [<- <-]]];
    (eapply sample_field; [reflexivity|reflexivity|discriminate|vm_compute; set_solver|reflexivity|reflexivity| |]).
  - right. by apply visible_ends_compute.
  - constructor.
  - right. by apply visible_ends_compute.
  - constructor.
  - right. by apply visible_ends_compute.
  - repeat (constructor; [split; [by apply visible_ends_compute|reflexivity]|]). constructor.
Qed.

Lemma deb822_expands_stanzas_witness :
  length (expand_deb822_stanza (str "d.sources") sample_stanza) = 2%nat
  /\ parse_deb822_content (fun s => s) (str "d.sources") (render_deb822 [sample_stanza])
     = ([sample_stanza] ≫= expand_deb822_stanza (str "d.sources")).
Proof.
  split; [vm_compute; reflexivity|].
  apply (deb822_expands_stanzas (fun s => s) (str "d.sources") [sample_stanza]).
  constructor; [apply sample_stanza_text|constructor].
Defined.
