(* ===== verification/DebPreflight.v ===== *)
(** Pre-flight checks of Debian transactions:
    src/src/package_managers/debian_db/validation.rs.

    The disk-space check at its 64-bit arithmetic, and the hash check of
    downloaded archives. What statvfs and stat answer for the download
    directory (or its parent) and for the root directory is the argument
    [DiskFacts]; SHA-256 is the incremental hasher [Sha256] of its library. *)

From S2P Require Import Prelude.
Open Scope Z_scope.
Open Scope omg_scope.

Inductive PreflightError :=
| DiskUnknown
| DiskOverflow
| DownloadSpace (available required : Z)
| RootSpace (available required : Z)
| HashUnreadable
| HashMissing
| HashMismatch.

(** [blocks_available] and [block_size] of one file system. *)
Record Statvfs := {
  blocks_available : Z;
  block_size : Z
}.

Record DiskFacts := {
  download_statvfs : option Statvfs;
  root_statvfs : option Statvfs;
  download_dev : option Z;
  root_dev : option Z
}.

Definition available_bytes (stat : option Statvfs) : result Z PreflightError :=
  let? stat := ok_or stat DiskUnknown in
  ok_or (checked_mul64 (blocks_available stat) (block_size stat)) DiskOverflow.

Definition root_space_required (download_required install_required : Z) (shares_root_filesystem : bool) : Z :=
  if shares_root_filesystem then saturating_add64 download_required install_required else install_required.

Definition check_disk_space (download_size installed_size : Z) (facts : DiskFacts) : result unit PreflightError :=
  let? available := available_bytes (download_statvfs facts) in
  let download_required := saturating_add64 download_size (download_size / 10) in
  ensure (negb (available <? download_required)) (DownloadSpace available download_required) ;?
  let? available := available_bytes (root_statvfs facts) in
  let install_required := saturating_add64 installed_size (installed_size / 5) in
  let? download_device := ok_or (download_dev facts) DiskUnknown in
  let? root_device := ok_or (root_dev facts) DiskUnknown in
  let required := root_space_required download_required install_required (download_device =? root_device) in
  ensure (negb (available <? required)) (RootSpace available required).

(** The incremental hasher. *)
Class Sha256 := {
  hasher : Type;
  hasher_new : hasher;
  hasher_update : hasher -> list Z -> hasher;
  hasher_finalize_hex : hasher -> rstr
}.

Section hash.
Context `{Sha256}.

(** The reads of the file until the first empty one; [None] is an error. *)
Fixpoint sha256_loop (h : hasher) (reads : list (option (list Z))) : result rstr PreflightError :=
  match reads with
  | [] => Ok (hasher_finalize_hex h)
  | None :: _ => Err HashUnreadable
  | Some [] :: _ => Ok (hasher_finalize_hex h)
  | Some chunk :: reads => sha256_loop (hasher_update h chunk) reads
  end.

Definition sha256_file (file : option (list (option (list Z)))) : result rstr PreflightError :=
  let? reads := ok_or file HashUnreadable in
  sha256_loop hasher_new reads.

Definition verify_package_hash (file : option (list (option (list Z)))) (expected_hash : rstr)
  : result unit PreflightError :=
  let? computed_hash := sha256_file file in
  ensure (str_eqb computed_hash expected_hash) HashMismatch.

Definition require_verified_deb (file : option (list (option (list Z)))) (sha256 : option rstr)
  : result unit PreflightError :=
  let? expected := ok_or sha256 HashMissing in
  verify_package_hash file expected.
End hash.

(** * Properties *)

Lemma available_bytes_Ok stat a :
  available_bytes stat = Ok a <->
  exists s, stat = Some s /\ a = blocks_available s * block_size s /\ a <= u64_max.
Proof.
  unfold available_bytes, checked_mul64. destruct stat as [s|]; simpl; [|naive_solver].
  destruct (Z.leb_spec (blocks_available s * block_size s) u64_max); simpl; split; try naive_solver.
  - intros (s' & [= <-] & -> & Hle). lia.
Qed.

(** a transaction that passes fits on the disk: the archives fit into
    the download directory and the installed files onto the root file system,
    together with the archives when both share it, each with its headroom of a
    tenth and a fifth. The 64-bit additions saturate, which never turns a
    transaction that is too large into one that passes. *)
Theorem accepted_transaction_fits download_size installed_size facts :
  0 <= download_size -> 0 <= installed_size ->
  check_disk_space download_size installed_size facts = Ok tt ->
  exists tmp root, download_statvfs facts = Some tmp /\ root_statvfs facts = Some root
    /\ let free s := blocks_available s * block_size s in
       (free tmp < u64_max -> download_size + download_size / 10 <= free tmp)
       /\ (free root < u64_max ->
           installed_size + installed_size / 5
           + (if bool_decide (download_dev facts = root_dev facts) then download_size + download_size / 10 else 0)
           <= free root).
Proof.
  intros Hd Hi Hc. unfold check_disk_space in Hc.
  apply res_bind_Ok in Hc as (a1 & (tmp & Ht & -> & H1)%available_bytes_Ok & Hc).
  apply res_bind_Ok in Hc as (u1 & Hs1%ensure_Ok & Hc).
  apply res_bind_Ok in Hc as (a2 & (root & Hr & -> & H2)%available_bytes_Ok & Hc).
  apply res_bind_Ok in Hc as (d1 & Hd1%ok_or_Ok & Hc). apply res_bind_Ok in Hc as (d2 & Hd2%ok_or_Ok & Hc).
  apply ensure_Ok in Hc. apply negb_true_iff, Z.ltb_ge in Hs1, Hc.
  exists tmp, root. split_and!; [done..|]. cbv zeta. rewrite Hd1, Hd2.
  assert (0 <= download_size / 10 /\ 0 <= installed_size / 5) by (split; apply Z.div_pos; lia).
  assert (0 <= u64_max) by done.
  unfold root_space_required, saturating_add64 in *. split; [lia|]. intros Hlt.
  destruct (Z.eqb_spec d1 d2) as [->|Hne]; [rewrite bool_decide_true by done|rewrite bool_decide_false by congruence]; lia.
Qed.

Lemma accepted_transaction_fits_witness :
  let facts := {| download_statvfs := Some {| blocks_available := 100; block_size := 4096 |};
                  root_statvfs := Some {| blocks_available := 100; block_size := 4096 |};
                  download_dev := Some 7; root_dev := Some 7 |} in
  exists tmp root, download_statvfs facts = Some tmp /\ root_statvfs facts = Some root
    /\ let free s := blocks_available s * block_size s in
       (free tmp < u64_max -> 1000 + 1000 / 10 <= free tmp)
       /\ (free root < u64_max ->
           2000 + 2000 / 5 + (if bool_decide (download_dev facts = root_dev facts) then 1000 + 1000 / 10 else 0)
           <= free root).
Proof. apply (accepted_transaction_fits 1000 2000); [lia|lia|vm_compute; reflexivity]. Defined.
