(* ===== verification/SearchIndex.v ===== *)
(** The daemon's package index: src/src/daemon/index.rs, with the name kinds
    of package_managers/mod.rs and the ranking of core/packages/search.rs.

    The index keeps an interned string pool, a Bloom filter, a name table and
    a trigram index beside its items. Text is a list of scalar values, so the
    byte positions of the code are characters here; lengths and trigrams go
    through the UTF-8 bytes. Handles and item numbers are cast to 32 bits as
    in the code. An index out of range (a panic in the code) reads the empty
    string or is skipped; [index_inv] shows there is none. The hash function
    of the Bloom filter, the fuzzy matcher and non-ASCII lowercasing are
    parameters. Selecting the first [limit] elements and sorting them is
    taking the first [limit] of the sorted list: no two scores are equal. *)

From S2P Require Import Prelude Spdx.
Open Scope Z_scope.
Open Scope omg_scope.

(** * Bloom filter *)

Record PackageBloomFilter := {
  bits : list Z;
  num_bits : Z
}.

Definition bloom_new (expected_items : Z) : PackageBloomFilter :=
  let n := Z.max (expected_items * 8) 4096 in
  {| bits := replicate (Z.to_nat ((n + 63) / 64)) 0; num_bits := n |}.

Section bloom.
Context (ahash : rstr -> Z).

Definition GOLDEN : Z := 0x9e3779b97f4a7c15.

Definition hash_positions (self : PackageBloomFilter) (name : rstr) : list Z :=
  let h1 := ahash name in
  let h2 := wrap64 (h1 * GOLDEN) in
  let h3 := wrap64 (h2 * GOLDEN) in
  [h1 mod num_bits self; h2 mod num_bits self; h3 mod num_bits self].

Definition set_bit (words : list Z) (pos : Z) : list Z :=
  alter (fun w => Z.lor w (Z.shiftl 1 (pos mod 64))) (Z.to_nat (pos / 64)) words.

Definition bloom_insert (self : PackageBloomFilter) (name : rstr) : PackageBloomFilter :=
  {| bits := foldl set_bit (bits self) (hash_positions self name); num_bits := num_bits self |}.

Definition test_bit (words : list Z) (pos : Z) : bool :=
  negb (Z.land (nth (Z.to_nat (pos / 64)) words 0) (Z.shiftl 1 (pos mod 64)) =? 0).

Definition might_contain (self : PackageBloomFilter) (name : rstr) : bool :=
  forallb (test_bit (bits self)) (hash_positions self name).
End bloom.

(** * String pool *)

Record StringPool := {
  strings : list rstr;
  interned : gmap rstr Z
}.

Definition pool_default : StringPool := {| strings := []; interned := ∅ |}.

(** [as u32]. *)
Definition as_u32 (z : Z) : Z := z mod 2 ^ 32.

Definition intern (self : StringPool) (s : rstr) : Z * StringPool :=
  match interned self !! s with
  | Some handle => (handle, self)
  | None =>
      let handle := as_u32 (Z.of_nat (length (strings self))) in
      (handle, {| strings := strings self ++ [s]; interned := <[s := handle]> (interned self) |})
  end.

Definition pool_get (self : StringPool) (handle : Z) : rstr := nth (Z.to_nat handle) (strings self) [].

(** * Trigrams *)

Definition Trigram : Type := Z * Z * Z.

Fixpoint windows3 (bytes : list Z) : list Trigram :=
  match bytes with
  | a :: ((b :: c :: _) as rest) => (a, b, c) :: windows3 rest
  | _ => []
  end.

Definition TrigramIndex : Type := gmap Trigram (list Z).

Definition trigram_push (idx : Z) (s : gset Trigram * TrigramIndex) (t : Trigram) : gset Trigram * TrigramIndex :=
  let '(seen, postings) := s in
  if decide (t ∈ seen) then s
  else ({[t]} ∪ seen, <[t := default [] (postings !! t) ++ [idx]]> postings).

(** [TrigramIndex::insert]; below three bytes there is no window. *)
Definition trigram_insert (postings : TrigramIndex) (name_lower : rstr) (idx : Z) : TrigramIndex :=
  snd (foldl (trigram_push idx) (∅, postings) (windows3 (as_bytes name_lower))).

Fixpoint intersect (postings : TrigramIndex) (res : option (list Z)) (windows : list Trigram) : option (list Z) :=
  match windows with
  | [] => res
  | t :: windows =>
      match postings !! t with
      | None => Some []
      | Some posting =>
          intersect postings
            (Some match res with
                  | None => posting
                  | Some prev => List.filter (fun idx => bool_decide (idx ∈ posting)) prev
                  end) windows
      end
  end.

Definition trigram_candidates (postings : TrigramIndex) (query_lower : rstr) : option (list Z) :=
  let bytes := as_bytes query_lower in
  if (length bytes <? 3)%nat then None else intersect postings None (windows3 bytes).

(** * Items and scores *)

Inductive WirePackageSource := WireOfficial | WireAur | WireApt.

Inductive SearchNameKind := Literal | RpmIdentity.

#[export] Instance WirePackageSource_eq_dec : EqDecision WirePackageSource.
Proof. solve_decision. Defined.
#[export] Instance SearchNameKind_eq_dec : EqDecision SearchNameKind.
Proof. solve_decision. Defined.

Definition exact_key (self : SearchNameKind) (query name : rstr) : option rstr :=
  if str_eqb name query then Some name
  else
    match self with
    | RpmIdentity =>
        match rsplit_once (ch ".") name with
        | Some (basename, architecture) =>
            if negb (str_eqb basename []) && negb (str_eqb architecture []) && str_eqb basename query
            then Some basename else None
        | None => None
        end
    | Literal => None
    end.

Record CompactPackageInfo := {
  rpm_eligible : bool;
  name_offset : Z;
  name_lower_offset : Z;
  version_offset : Z;
  description_offset : Z;
  description_lower_offset : Z;
  url_offset : Z;
  item_size : Z;
  item_download_size : Z;
  repo_offset : Z;
  item_depends : list rstr;
  item_licenses : list rstr;
  item_source : WirePackageSource
}.

Record PackageIndex := {
  name_kind : SearchNameKind;
  items : list CompactPackageInfo;
  pool : StringPool;
  name_to_idx : gmap rstr Z;
  bloom : PackageBloomFilter;
  trigrams : TrigramIndex
}.

(** The arguments of [push]: one catalogue entry. *)
Record CatalogEntry := {
  ce_name : rstr;
  ce_version : rstr;
  ce_description : rstr;
  ce_url : rstr;
  ce_size : Z;
  ce_download_size : Z;
  ce_repo : rstr;
  ce_depends : list rstr;
  ce_licenses : list rstr;
  (** set after [push] by [from_packages], [true] elsewhere *)
  ce_rpm_eligible : bool
}.

Record PackageInfo := {
  pi_name : rstr;
  pi_version : rstr;
  pi_description : rstr;
  pi_source : WirePackageSource
}.

Record DetailedPackageInfo := {
  di_name : rstr;
  di_version : rstr;
  di_description : rstr;
  di_url : rstr;
  di_size : Z;
  di_download_size : Z;
  di_repo : rstr;
  di_depends : list rstr;
  di_licenses : list rstr;
  di_source : WirePackageSource
}.

Record RelevanceScore := {
  rank : Z;
  name_len_rev : Z;
  idx_rev : Z
}.

Definition EXACT_NAME_MATCH : Z := 5.
Definition RPM_BASENAME_MATCH : Z := 4.
Definition PREFIX_MATCH : Z := 3.
Definition WORD_BOUNDARY_MATCH : Z := 2.
Definition SUBSTRING_MATCH : Z := 1.
Definition DESCRIPTION_ONLY : Z := 0.

(** [usize::MAX.saturating_sub(..)]. *)
Definition score_new (rank_ name_len idx : Z) : RelevanceScore :=
  {| rank := rank_; name_len_rev := saturating_sub64 u64_max name_len; idx_rev := saturating_sub64 u64_max idx |}.

Definition with_capacity (capacity : Z) : PackageIndex :=
  {| name_kind := Literal; items := []; pool := pool_default; name_to_idx := ∅;
     bloom := bloom_new capacity; trigrams := ∅ |}.

Section index.
Context (ahash : rstr -> Z).

Definition index_push (self : PackageIndex) (e : CatalogEntry) : PackageIndex :=
  let name_lower := to_ascii_lowercase (ce_name e) in
  let idx := Z.of_nat (length (items self)) in
  let '(name_h, p1) := intern (pool self) (ce_name e) in
  let '(name_lower_h, p2) := intern p1 name_lower in
  let '(version_h, p3) := intern p2 (ce_version e) in
  let '(description_h, p4) := intern p3 (ce_description e) in
  let '(description_lower_h, p5) := intern p4 (to_ascii_lowercase (ce_description e)) in
  let '(url_h, p6) := intern p5 (ce_url e) in
  let '(repo_h, p7) := intern p6 (ce_repo e) in
  {| name_kind := name_kind self;
     items := items self ++
       [{| rpm_eligible := ce_rpm_eligible e; name_offset := name_h; name_lower_offset := name_lower_h;
           version_offset := version_h; description_offset := description_h;
           description_lower_offset := description_lower_h; url_offset := url_h;
           item_size := ce_size e; item_download_size := ce_download_size e; repo_offset := repo_h;
           item_depends := ce_depends e; item_licenses := ce_licenses e; item_source := WireOfficial |}];
     pool := p7;
     name_to_idx := match name_to_idx self !! ce_name e with
                    | Some _ => name_to_idx self
                    | None => <[ce_name e := idx]> (name_to_idx self)
                    end;
     bloom := bloom_insert ahash (bloom self) (ce_name e);
     trigrams := trigram_insert (trigrams self) name_lower (as_u32 idx) |}.

(** The loop of [from_packages] and of the other constructors. *)
Definition build_index (kind : SearchNameKind) (entries : list CatalogEntry) : PackageIndex :=
  let empty := with_capacity (Z.of_nat (length entries)) in
  foldl index_push
    {| name_kind := kind; items := items empty; pool := pool empty; name_to_idx := name_to_idx empty;
       bloom := bloom empty; trigrams := trigrams empty |} entries.

(** [core::Package]: name, version text, description and whether the source
    is the official one. *)
Definition from_packages (packages : list (rstr * rstr * rstr * bool)) (kind : SearchNameKind) : PackageIndex :=
  build_index kind (map (fun '(name, version, description, official) =>
    {| ce_name := name; ce_version := version; ce_description := description; ce_url := []; ce_size := 0;
       ce_download_size := 0; ce_repo := str "official"; ce_depends := []; ce_licenses := [];
       ce_rpm_eligible := official |}) packages).

Definition get (self : PackageIndex) (name : rstr) : option DetailedPackageInfo :=
  if negb (might_contain ahash (bloom self) name) then None
  else
    idx ← name_to_idx self !! name;
    item ← items self !! Z.to_nat idx;
    let s := pool_get (pool self) in
    Some {| di_name := s (name_offset item); di_version := s (version_offset item);
            di_description := s (description_offset item); di_url := s (url_offset item);
            di_size := item_size item; di_download_size := item_download_size item;
            di_repo := s (repo_offset item); di_depends := item_depends item;
            di_licenses := item_licenses item; di_source := item_source item |}.
End index.

(** ** Matching *)

(** [name.match_indices(query)]: the character before each match, [None] at
    the start; after a match [skip] characters are passed over. *)
Fixpoint match_prevs (query : rstr) (prev : option char) (skip : nat) (name : rstr) : list (option char) :=
  match name with
  | [] => []
  | c :: rest =>
      match skip with
      | S skip => match_prevs query (Some c) skip rest
      | O =>
          if starts_with query name
          then prev :: match_prevs query (Some c) (length query - 1) rest
          else match_prevs query (Some c) 0 rest
      end
  end.

Definition is_boundary (c : char) : bool :=
  (c =? ch "-") || (c =? ch "_") || (c =? ch ".") || is_ascii_whitespace c.

(** The loop over the matches; [found] is [found_substring]. *)
Fixpoint match_rank (same_len : bool) (found : bool) (prevs : list (option char)) : option Z :=
  match prevs with
  | [] => if found then Some SUBSTRING_MATCH else None
  | None :: _ => Some (if same_len then EXACT_NAME_MATCH else PREFIX_MATCH)
  | Some c :: prevs => if is_boundary c then Some WORD_BOUNDARY_MATCH else match_rank same_len true prevs
  end.

Definition score_name_match (kind : SearchNameKind) (item : CompactPackageInfo) (query_lower name_lower : rstr) (idx : Z)
  : option RelevanceScore :=
  if negb (str_eqb name_lower query_lower) && rpm_eligible item && bool_decide (item_source item = WireOfficial)
     && match exact_key kind query_lower name_lower with Some _ => true | None => false end
  then Some (score_new RPM_BASENAME_MATCH (str_len name_lower) idx)
  else
    match match_rank (str_len name_lower =? str_len query_lower) false (match_prevs query_lower None 0 name_lower) with
    | Some r => Some (score_new r (str_len name_lower) idx)
    | None => None
    end.

(** ** Search *)

Definition score_cmp (a b : RelevanceScore) : comparison :=
  then_with (rank a ?= rank b) (then_with (name_len_rev a ?= name_len_rev b) (idx_rev a ?= idx_rev b)).

(** [sort_unstable_by_key(Reverse(score))]. *)
Definition best_first (a b : RelevanceScore * Z) : comparison := score_cmp (b.1) (a.1).

Definition item_name_lower (self : PackageIndex) (item : CompactPackageInfo) : rstr :=
  pool_get (pool self) (name_lower_offset item).

Definition description_match (self : PackageIndex) (query_lower : rstr) (item : CompactPackageInfo) : bool :=
  contains (as_bytes query_lower) (as_bytes (pool_get (pool self) (description_lower_offset item))).

Definition description_score (self : PackageIndex) (item : CompactPackageInfo) (idx : Z) : RelevanceScore * Z :=
  (score_new DESCRIPTION_ONLY (str_len (item_name_lower self item)) idx, as_u32 idx).

(** The loop over the trigram candidates. *)
Definition candidate_hits (self : PackageIndex) (query_lower : rstr) (candidates : list Z) : list (RelevanceScore * Z) :=
  omap (fun idx =>
    item ← items self !! Z.to_nat idx;
    score ← score_name_match (name_kind self) item query_lower (item_name_lower self item) idx;
    Some (score, idx)) candidates.

(** The description scan that follows it; it stops once enough is collected. *)
Fixpoint description_scan (self : PackageIndex) (query_lower : rstr) (limit name_match_count : nat)
    (idx : Z) (rest : list CompactPackageInfo) (scored : list (RelevanceScore * Z)) : list (RelevanceScore * Z) :=
  match rest with
  | [] => scored
  | item :: rest =>
      if (limit * 4 <=? name_match_count + length scored)%nat then scored
      else
        description_scan self query_lower limit name_match_count (idx + 1) rest
          (if description_match self query_lower item
           then match score_name_match (name_kind self) item query_lower (item_name_lower self item) idx with
                | None => scored ++ [description_score self item idx]
                | Some _ => scored
                end
           else scored)
  end.

(** The full scan for queries too short for the trigrams. *)
Fixpoint short_scan (self : PackageIndex) (query_lower : rstr) (limit name_match_count : nat)
    (idx : Z) (rest : list CompactPackageInfo) (scored : list (RelevanceScore * Z)) : list (RelevanceScore * Z) :=
  match rest with
  | [] => scored
  | item :: rest =>
      match score_name_match (name_kind self) item query_lower (item_name_lower self item) idx with
      | Some score =>
          short_scan self query_lower limit (S name_match_count) (idx + 1) rest (scored ++ [(score, as_u32 idx)])
      | None =>
          short_scan self query_lower limit name_match_count (idx + 1) rest
            (if (name_match_count <? limit)%nat && description_match self query_lower item
             then scored ++ [description_score self item idx] else scored)
      end
  end.

Definition package_info (self : PackageIndex) (item : CompactPackageInfo) : PackageInfo :=
  let s := pool_get (pool self) in
  {| pi_name := s (name_offset item); pi_version := s (version_offset item);
     pi_description := s (description_offset item); pi_source := item_source item |}.

Definition search_literal (self : PackageIndex) (query : rstr) (limit : nat) : list PackageInfo :=
  let query_lower := to_ascii_lowercase query in
  let scored_matches :=
    match trigram_candidates (trigrams self) query_lower with
    | Some candidates =>
        let hits := candidate_hits self query_lower candidates in
        if (length hits <? limit)%nat
        then description_scan self query_lower limit (length hits) 0 (items self) hits
        else hits
    | None => short_scan self query_lower limit 0 0 (items self) []
    end in
  omap (fun '(_, idx) => item ← items self !! Z.to_nat idx; Some (package_info self item))
    (take limit (sort_by best_first scored_matches)).

(** *** RPM names: core/packages/search.rs *)

Inductive MatchTier := Exact | RpmBasenameExact | Prefix | WordBoundary | Fuzzy | Substring.

Definition tier_index (t : MatchTier) : Z :=
  match t with
  | Exact => 0 | RpmBasenameExact => 1 | Prefix => 2 | WordBoundary => 3 | Fuzzy => 4 | Substring => 5
  end.

Section rpm.
(** [str::to_lowercase] beyond ASCII, and the matcher's score of a name
    against the lowercased query ([None] when it does not match). *)
Context (to_lowercase : rstr -> rstr) (fuzzy_score : rstr -> rstr -> option Z).

Definition is_langpack (name : rstr) : bool :=
  let lower := to_lowercase name in
  contains (str "-i18n-") lower || ends_with (str "-i18n") lower || ends_with (str "-l10n") lower
  || ends_with (str "-lang") lower || ends_with (str "-locale") lower.

Definition match_tier (query name : rstr) : MatchTier :=
  if str_eqb name query then Exact
  else if starts_with query name then Prefix
  else if existsb (fun w => str_eqb w query)
            (split_by (fun c => (c =? ch "-") || (c =? ch "_") || (c =? ch " ")) name) then WordBoundary
  else Substring.

(** [SearchScore]: the tier, the language-pack flag and the reversed fuzzy
    score; lower sorts first. *)
Definition SearchScore : Type := MatchTier * bool * Z.

Definition ranker_score (query_lower name_lower : rstr) (kind : SearchNameKind) : SearchScore :=
  let key := exact_key kind query_lower name_lower in
  let tier :=
    if negb (str_eqb name_lower query_lower) && match key with Some _ => true | None => false end
    then RpmBasenameExact else match_tier query_lower name_lower in
  let fuzzy := default 0 (fuzzy_score query_lower (default name_lower key)) in
  let tier := match tier with Substring => if 0 <? fuzzy then Fuzzy else Substring | t => t end in
  (tier, is_langpack name_lower, fuzzy).

Definition search_score_cmp (a b : SearchScore) : comparison :=
  let '(t1, l1, f1) := a in
  let '(t2, l2, f2) := b in
  then_with (tier_index t1 ?= tier_index t2) (then_with (Z.b2z l1 ?= Z.b2z l2) (f2 ?= f1)).

Definition item_name (self : PackageIndex) (idx : Z) : rstr :=
  match items self !! Z.to_nat idx with
  | Some item => pool_get (pool self) (name_offset item)
  | None => []
  end.

Definition rpm_cmp (self : PackageIndex) (a b : SearchScore * Z) : comparison :=
  then_with (search_score_cmp a.1 b.1)
    (then_with (list_cmp (as_bytes (item_name self a.2)) (as_bytes (item_name self b.2))) (a.2 ?= b.2)).

Definition rpm_scored (self : PackageIndex) (query : rstr) (idx : Z) (item : CompactPackageInfo) : option (SearchScore * Z) :=
  let query_lower := to_lowercase query in
  let name_lower := to_lowercase (pool_get (pool self) (name_offset item)) in
  if negb (contains query_lower name_lower)
     && negb (contains query_lower (to_lowercase (pool_get (pool self) (description_offset item))))
  then None
  else
    let kind := if rpm_eligible item && bool_decide (item_source item = WireOfficial) then RpmIdentity else Literal in
    Some (ranker_score query_lower name_lower kind, idx).

Definition search_rpm (self : PackageIndex) (query : rstr) (limit : nat) : list PackageInfo :=
  let scored := omap (fun '(i, item) => rpm_scored self query (Z.of_nat i) item) (imap pair (items self)) in
  omap (fun '(_, idx) => item ← items self !! Z.to_nat idx; Some (package_info self item))
    (take limit (sort_by (rpm_cmp self) scored)).

Definition search (self : PackageIndex) (query : rstr) (limit : nat) : list PackageInfo :=
  if str_eqb query [] || (limit =? 0)%nat then []
  else
    match name_kind self with
    | RpmIdentity => search_rpm self query limit
    | Literal => search_literal self query limit
    end.

(** *** Suggestions: [CompletionEngine::fuzzy_indices] of core/completion.rs

    The matcher here parses the pattern as it was typed. The sort is stable:
    the last key is the index. *)

Definition is_prefix_candidate (pattern candidate : rstr) : bool :=
  let p := as_bytes pattern in
  let c := as_bytes candidate in
  (length p <=? length c)%nat && eq_ignore_ascii_case (take (length p) c) p.

Definition suggest_cmp (candidates : list rstr) (a b : nat * Z * bool) : comparison :=
  let '(i, score_a, prefix_a) := a in
  let '(j, score_b, prefix_b) := b in
  let x := default [] (candidates !! i) in
  let y := default [] (candidates !! j) in
  let by_name := then_with (str_len x ?= str_len y) (list_cmp (as_bytes x) (as_bytes y)) in
  then_with (Z.b2z prefix_b ?= Z.b2z prefix_a)
    (then_with (if prefix_a && prefix_b then by_name else then_with (score_b ?= score_a) by_name)
       (Z.of_nat i ?= Z.of_nat j)).

Definition fuzzy_indices (pattern : rstr) (candidates : list rstr) (limit : nat) : list nat :=
  if str_eqb pattern [] then take limit (seq 0 (length candidates))
  else
    let matches := omap (fun '(index, candidate) =>
      score ← fuzzy_score pattern candidate;
      Some (index, score, is_prefix_candidate pattern candidate)) (imap pair candidates) in
    take limit (map (fun '(index, _, _) => index) (sort_by (suggest_cmp candidates) matches)).

Definition suggest (self : PackageIndex) (query : rstr) (limit : nat) : list rstr :=
  if str_eqb query [] then []
  else
    let names := map (fun item => pool_get (pool self) (name_offset item)) (items self) in
    (foldl (fun '(taken, names) index => (taken ++ [default [] (names !! index)], <[index := []]> names))
       ([], names) (fuzzy_indices query names limit)).1.
End rpm.

Definition len (self : PackageIndex) : nat := length (items self).
Definition is_empty (self : PackageIndex) : bool := bool_decide (items self = []).
