(* ===== verification/SearchIndexProofs.v ===== *)
(** The package index holds its catalogue: lookups find the first entry of a
    name, and the trigram search returns what a scan of every name would. *)

From S2P Require Import Prelude Spdx SearchIndex.
Open Scope Z_scope.
Open Scope omg_scope.

(** * The string pool *)

Definition denotes (p : StringPool) (h : Z) (s : rstr) : Prop :=
  0 <= h /\ strings p !! Z.to_nat h = Some s.

Definition pool_ok (p : StringPool) : Prop := map_Forall (fun s h => denotes p h s) (interned p).

Definition pool_le (p p' : StringPool) : Prop := strings p `prefix_of` strings p'.

#[export] Instance pool_le_preorder : PreOrder pool_le.
Proof. split; unfold pool_le; [intros x|intros x y z]; [done|apply transitivity]. Qed.

Lemma denotes_mono p p' h s : pool_le p p' -> denotes p h s -> denotes p' h s.
Proof. intros Hle [H0 Hs]. split; [done|]. by eapply prefix_lookup_Some. Qed.

Lemma denotes_get p h s : denotes p h s -> pool_get p h = s.
Proof. intros [_ H]. unfold pool_get. by apply nth_lookup_Some. Qed.

(** Interning yields a handle of the string and keeps every older one. *)
Lemma intern_spec p s h p' :
  pool_ok p -> Z.of_nat (length (strings p)) < 2 ^ 32 -> intern p s = (h, p') ->
  pool_ok p' /\ pool_le p p' /\ denotes p' h s /\ (length (strings p') <= S (length (strings p)))%nat.
Proof.
  unfold intern. intros Hok Hlen. destruct (interned p !! s) as [h0|] eqn:Hs.
  { intros [= <- <-]. split_and!; [done|reflexivity|by apply Hok|lia]. }
  intros [= <- <-]. set (p' := {| strings := _ |}).
  assert (Hle : pool_le p p') by (unfold pool_le; simpl; by exists [s]).
  assert (Hd : denotes p' (as_u32 (Z.of_nat (length (strings p)))) s).
  { unfold as_u32. rewrite Z.mod_small by lia. split; [lia|]. simpl.
    by rewrite Nat2Z.id, lookup_app_r, Nat.sub_diag by lia. }
  split_and!; [|done|done|simpl; rewrite length_app; simpl; lia].
  unfold pool_ok. simpl. apply map_Forall_insert_2; [done|].
  intros s' h' H'. eapply denotes_mono; [exact Hle|]. by apply Hok.
Qed.

(** * The Bloom filter *)

Lemma land_bit w k : 0 <= k -> negb (Z.land w (Z.shiftl 1 k) =? 0) = Z.testbit w k.
Proof.
  intros Hk. rewrite Z.shiftl_1_l. destruct (Z.testbit w k) eqn:E.
  - apply negb_true_iff, Z.eqb_neq. intros H0.
    pose proof (f_equal (fun z => Z.testbit z k) H0) as H.
    simpl in H. rewrite Z.land_spec, E, Z.pow2_bits_true, Z.bits_0 in H by done. done.
  - apply negb_false_iff, Z.eqb_eq, Z.bits_inj'. intros n Hn.
    rewrite Z.land_spec, Z.bits_0, Z.pow2_bits_eqb by done.
    destruct (Z.eqb_spec k n) as [<-|]; [by rewrite E|apply andb_false_r].
Qed.

Lemma test_bit_spec words pos :
  test_bit words pos = Z.testbit (nth (Z.to_nat (pos / 64)) words 0) (pos mod 64).
Proof. apply land_bit, Z.mod_pos_bound. lia. Qed.

Lemma nth_set_bit words pos i :
  nth i (set_bit words pos) 0 =
  if decide (i = Z.to_nat (pos / 64) /\ (i < length words)%nat)
  then Z.lor (nth i words 0) (Z.shiftl 1 (pos mod 64)) else nth i words 0.
Proof.
  unfold set_bit. rewrite !nth_lookup. case_decide as Hc.
  - destruct Hc as [-> Hlt]. rewrite list_lookup_alter_eq.
    by destruct (lookup_lt_is_Some_2 words (Z.to_nat (pos / 64)) Hlt) as [w ->].
  - destruct (decide (i = Z.to_nat (pos / 64))) as [->|].
    + rewrite list_lookup_alter_eq, lookup_ge_None_2 by lia. done.
    + by rewrite list_lookup_alter_ne by congruence.
Qed.

Lemma test_bit_mono words q pos : test_bit words pos = true -> test_bit (set_bit words q) pos = true.
Proof.
  rewrite !test_bit_spec, nth_set_bit. case_decide; [|done].
  intros E. by rewrite Z.lor_spec, E.
Qed.

Lemma test_bit_set words pos :
  (Z.to_nat (pos / 64) < length words)%nat -> test_bit (set_bit words pos) pos = true.
Proof.
  intros Hlt. rewrite test_bit_spec, nth_set_bit, decide_True by (split; [done|lia]).
  rewrite Z.lor_spec, Z.shiftl_1_l, Z.pow2_bits_true; [apply orb_true_r|].
  apply Z.mod_pos_bound. lia.
Qed.

Lemma length_set_bits ps words : length (foldl set_bit words ps) = length words.
Proof.
  revert words. induction ps as [|p ps IH]; intros words; simpl; [done|].
  rewrite IH. apply length_alter.
Qed.

Lemma set_bits_mono ps words pos : test_bit words pos = true -> test_bit (foldl set_bit words ps) pos = true.
Proof.
  revert words. induction ps as [|p ps IH]; intros words H; simpl; [done|]. apply IH. by apply test_bit_mono.
Qed.

Lemma set_bits_all ps words :
  Forall (fun pos => (Z.to_nat (pos / 64) < length words)%nat) ps ->
  Forall (fun pos => test_bit (foldl set_bit words ps) pos = true) ps.
Proof.
  revert words. induction ps as [|p ps IH]; intros words H; simpl; [done|].
  inv H. constructor; [by apply set_bits_mono, test_bit_set|].
  apply IH. eapply Forall_impl; [done|]. intros q Hq. simpl in *. unfold set_bit. by rewrite length_alter.
Qed.

(** There is a word for every bit. *)
Definition bloom_ok (f : PackageBloomFilter) : Prop :=
  0 < num_bits f /\ num_bits f <= 64 * Z.of_nat (length (bits f)).

Lemma bloom_new_ok n : bloom_ok (bloom_new n).
Proof.
  unfold bloom_ok, bloom_new; simpl. rewrite length_replicate. split; [lia|].
  rewrite Z2Nat.id by (apply Z.div_pos; lia).
  pose proof (Z.div_mod (Z.max (n * 8) 4096 + 63) 64). pose proof (Z.mod_pos_bound (Z.max (n * 8) 4096 + 63) 64). lia.
Qed.

Section bloom.
Context (ahash : rstr -> Z).

Lemma bloom_insert_ok f name : bloom_ok f -> bloom_ok (bloom_insert ahash f name).
Proof. unfold bloom_ok, bloom_insert; cbn [bits num_bits]. by rewrite length_set_bits. Qed.

Lemma might_contain_mono f name x :
  might_contain ahash f x = true -> might_contain ahash (bloom_insert ahash f name) x = true.
Proof.
  unfold might_contain. rewrite !forallb_forall. intros H pos Hin.
  unfold bloom_insert; cbn [bits]. apply set_bits_mono. by apply H.
Qed.

Lemma might_contain_insert f name : bloom_ok f -> might_contain ahash (bloom_insert ahash f name) name = true.
Proof.
  intros [Hpos Hlen]. unfold might_contain. apply forallb_forall. intros pos Hin.
  unfold bloom_insert; cbn [bits].
  assert (Hall : Forall (fun pos => (Z.to_nat (pos / 64) < length (bits f))%nat) (hash_positions ahash f name)).
  { unfold hash_positions. repeat constructor;
      (match goal with |- context [?h mod num_bits f] =>
         pose proof (Z.mod_pos_bound h (num_bits f) Hpos);
         apply Nat2Z.inj_lt; rewrite Z2Nat.id by (apply Z.div_pos; lia); apply Z.div_lt_upper_bound; lia end). }
  apply set_bits_all in Hall. rewrite Forall_forall in Hall. apply Hall. by apply list_elem_of_In.
Qed.
End bloom.

(** * Trigrams *)

Definition posting (P : TrigramIndex) (t : Trigram) : list Z := default [] (P !! t).

Lemma posting_insert P w l t : posting (<[w := l]> P) t = if decide (w = t) then l else posting P t.
Proof.
  unfold posting, TrigramIndex in *. case_decide as E; [by rewrite E, lookup_insert_eq|by rewrite lookup_insert_ne].
Qed.

(** Each distinct window of a name appends its number once. *)
Lemma trigram_push_posting idx ws seen P t :
  posting (foldl (trigram_push idx) (seen, P) ws).2 t =
  posting P t ++ (if decide (t ∈ ws /\ t ∉ seen) then [idx] else []).
Proof.
  revert seen P. induction ws as [|w ws IH]; intros seen P; cbn [foldl].
  { rewrite decide_False, app_nil_r by set_solver. done. }
  change (trigram_push idx (seen, P) w) with
    (if decide (w ∈ seen) then (seen, P) else ({[w]} ∪ seen, <[w := posting P w ++ [idx]]> P)).
  destruct (decide (w ∈ seen)) as [Hw|Hw].
  - rewrite IH. f_equal. by apply decide_ext; set_solver.
  - rewrite IH, posting_insert. destruct (decide (w = t)) as [->|Hne].
    + rewrite (decide_False (P := t ∈ ws /\ _)) by set_solver.
      rewrite decide_True by set_solver. by rewrite app_nil_r.
    + f_equal. by apply decide_ext; set_solver.
Qed.

Lemma trigram_insert_posting P name idx t :
  posting (trigram_insert P name idx) t =
  posting P t ++ (if decide (t ∈ windows3 (as_bytes name)) then [idx] else []).
Proof.
  unfold trigram_insert. rewrite trigram_push_posting. f_equal.
  by apply decide_ext; set_solver.
Qed.

Lemma intersect_None P ts res : (exists t, t ∈ ts /\ P !! t = None) -> intersect P res ts = Some [].
Proof.
  intros (t & Hin & Ht). revert res. induction ts as [|w ts IH]; intros res; [by apply not_elem_of_nil in Hin|].
  simpl. destruct (P !! w) eqn:E; [|done]. apply elem_of_cons in Hin as [<-|Hin]; [congruence|auto].
Qed.

(** The intersection keeps what every posting list holds. *)
Lemma intersect_Some P ts prev :
  intersect P (Some prev) ts = Some (List.filter (fun i => forallb (fun t => bool_decide (i ∈ posting P t)) ts) prev).
Proof.
  revert prev. induction ts as [|t ts IH]; intros prev; simpl.
  { f_equal. induction prev; simpl; congruence. }
  assert (Hp : posting P t = default [] (P !! t)) by done. rewrite Hp.
  destruct (P !! t) as [l|]; simpl.
  - rewrite IH. f_equal. induction prev as [|i prev IHp]; simpl; [done|].
    destruct (bool_decide (i ∈ l)); simpl; [|done]. destruct (forallb _ ts); by rewrite IHp.
  - f_equal. by induction prev.
Qed.

Lemma trigram_candidates_spec P q :
  (3 <= length (as_bytes q))%nat ->
  exists t ts, windows3 (as_bytes q) = t :: ts /\
  trigram_candidates P q =
    Some (List.filter (fun i => forallb (fun t => bool_decide (i ∈ posting P t)) (t :: ts)) (posting P t)).
Proof.
  intros Hlen. unfold trigram_candidates. rewrite (proj2 (Nat.ltb_ge _ _)) by done.
  destruct (as_bytes q) as [|a [|b [|c r]]]; try (simpl in Hlen; lia).
  exists (a, b, c), (windows3 (b :: c :: r)). split; [done|].
  change (windows3 (a :: b :: c :: r)) with ((a, b, c) :: windows3 (b :: c :: r)).
  generalize ((a, b, c) : Trigram) as t, (windows3 (b :: c :: r)) as ts. intros t ts. cbn [intersect].
  assert (Hp : posting P t = default [] (P !! t)) by done. rewrite Hp.
  destruct (P !! t) as [l|]; [|done]. cbn [default from_option id] in *. rewrite intersect_Some. f_equal.
  apply filter_ext_in. intros i Hi. cbn [forallb]. rewrite Hp. by rewrite bool_decide_true by by apply list_elem_of_In.
Qed.

Lemma windows3_app_l a b t : t ∈ windows3 b -> t ∈ windows3 (a ++ b).
Proof.
  induction a as [|x a IH]; [done|]. intros H. apply IH in H. simpl.
  destruct (a ++ b) as [|y [|z r]]; [by apply not_elem_of_nil in H..|]. rewrite elem_of_cons. by right.
Qed.

Lemma windows3_app_r a b t : t ∈ windows3 a -> t ∈ windows3 (a ++ b).
Proof.
  induction a as [|x a IH]; [intros []%not_elem_of_nil|].
  destruct a as [|y [|z r]]; [intros []%not_elem_of_nil..|]. simpl. rewrite !elem_of_cons.
  intros [->|H]; [by left|right]. by apply IH.
Qed.

(** A name that contains the query has all of the query's trigrams. *)
Lemma windows3_contains q name t :
  contains q name = true -> t ∈ windows3 (as_bytes q) -> t ∈ windows3 (as_bytes name).
Proof.
  intros (a & b & ->)%contains_true H. rewrite !as_bytes_app. by apply windows3_app_l, windows3_app_r.
Qed.

(** ** Name scores *)

Lemma match_prevs_contains q prev skip name : match_prevs q prev skip name ≠ [] -> contains q name = true.
Proof.
  revert prev skip. induction name as [|c rest IH]; intros prev skip; simpl; [done|].
  destruct skip as [|skip].
  - destruct (starts_with q (c :: rest)); [done|]. apply IH.
  - intros H. apply orb_true_iff. right. by eapply IH.
Qed.

Lemma match_rank_Some same ps r : match_rank same false ps = Some r -> ps ≠ [].
Proof. by destruct ps. Qed.

Lemma match_rank_range same f ps r : match_rank same f ps = Some r -> 1 <= r.
Proof.
  revert f. induction ps as [|[c|] ps IH]; intros f; simpl.
  - destruct f; [intros [= <-]; done|done].
  - destruct (is_boundary c); [intros [= <-]; done|apply IH].
  - destruct same; intros [= <-]; done.
Qed.

(** * The catalogue and its index *)

Fixpoint numbered (idx : Z) (es : list CatalogEntry) : list (Z * CatalogEntry) :=
  match es with
  | [] => []
  | e :: es => (idx, e) :: numbered (idx + 1) es
  end.

Lemma numbered_app idx a b : numbered idx (a ++ b) = numbered idx a ++ numbered (idx + Z.of_nat (length a)) b.
Proof.
  revert idx. induction a as [|e a IH]; intros idx; cbn [app numbered length].
  - f_equal. lia.
  - rewrite IH. do 3 f_equal. lia.
Qed.

Lemma elem_of_numbered idx es i e :
  (i, e) ∈ numbered idx es <-> idx <= i /\ es !! Z.to_nat (i - idx) = Some e.
Proof.
  revert idx. induction es as [|x es IH]; intros idx; cbn [numbered].
  { split; [by intros ?%not_elem_of_nil|]. intros [_ H]. by rewrite lookup_nil in H. }
  rewrite elem_of_cons, IH. split.
  - intros [[= -> ->]|[Hi Hl]]; [split; [lia|]; by rewrite Z.sub_diag|]. split; [lia|].
    replace (Z.to_nat (i - idx)) with (S (Z.to_nat (i - (idx + 1)))) by lia. done.
  - intros [Hi Hl]. destruct (decide (i = idx)) as [->|].
    + rewrite Z.sub_diag in Hl. simpl in Hl. left. congruence.
    + right. split; [lia|]. replace (Z.to_nat (i - idx)) with (S (Z.to_nat (i - (idx + 1)))) in Hl by lia. done.
Qed.

Definition name_trigrams (e : CatalogEntry) : list Trigram := windows3 (as_bytes (to_ascii_lowercase (ce_name e))).

(** The numbers of the entries that pass a test. *)
Definition numbers (f : CatalogEntry -> bool) (idx : Z) (es : list CatalogEntry) : list Z :=
  map fst (List.filter (fun ie => f ie.2) (numbered idx es)).

Lemma elem_of_numbers f idx es i :
  i ∈ numbers f idx es <-> exists e, (i, e) ∈ numbered idx es /\ f e = true.
Proof.
  unfold numbers. rewrite list_elem_of_In, in_map_iff. split.
  - intros ([j e] & [= <-] & [H1 H2]%filter_In). exists e. by rewrite list_elem_of_In.
  - intros (e & H1%list_elem_of_In & H2). exists (i, e). split; [done|]. by apply filter_In.
Qed.

Lemma numbers_snoc f es e :
  numbers f 0 (es ++ [e]) = numbers f 0 es ++ (if f e then [Z.of_nat (length es)] else []).
Proof.
  unfold numbers. rewrite numbered_app, List.filter_app, map_app. f_equal. simpl. by destruct (f e).
Qed.

(** Testing the numbers again is testing the entries. *)
Lemma filter_numbers (g : Z -> bool) (f h : CatalogEntry -> bool) idx es :
  (forall i e, (i, e) ∈ numbered idx es -> g i = h e) ->
  List.filter g (numbers f idx es) = numbers (fun e => f e && h e) idx es.
Proof.
  unfold numbers. revert idx. induction es as [|e es IH]; intros idx Hg; [done|]. simpl.
  pose proof (Hg idx e ltac:(apply elem_of_cons; by left)) as H1.
  destruct (f e); simpl; [rewrite H1; destruct (h e); simpl; [f_equal|]|];
    apply IH; intros i e' H; apply Hg; apply elem_of_cons; by right.
Qed.

Record item_of (p : StringPool) (item : CompactPackageInfo) (e : CatalogEntry) : Prop := {
  io_name : denotes p (name_offset item) (ce_name e);
  io_name_lower : denotes p (name_lower_offset item) (to_ascii_lowercase (ce_name e));
  io_version : denotes p (version_offset item) (ce_version e);
  io_description : denotes p (description_offset item) (ce_description e);
  io_description_lower : denotes p (description_lower_offset item) (to_ascii_lowercase (ce_description e));
  io_url : denotes p (url_offset item) (ce_url e);
  io_repo : denotes p (repo_offset item) (ce_repo e);
  io_rest : rpm_eligible item = ce_rpm_eligible e /\ item_size item = ce_size e /\
            item_download_size item = ce_download_size e /\ item_depends item = ce_depends e /\
            item_licenses item = ce_licenses e /\ item_source item = WireOfficial
}.

Lemma item_of_mono p p' item e : pool_le p p' -> item_of p item e -> item_of p' item e.
Proof. intros Hle []. split; eauto using denotes_mono. Qed.

Definition first_index (es : list CatalogEntry) (name : rstr) : option Z :=
  Z.of_nat ∘ fst <$> list_find (fun e => ce_name e = name) es.

Record index_inv (ahash : rstr -> Z) (kind : SearchNameKind) (self : PackageIndex) (es : list CatalogEntry) : Prop := {
  inv_kind : name_kind self = kind;
  inv_pool : pool_ok (pool self);
  inv_pool_len : (length (strings (pool self)) <= 7 * length es)%nat;
  inv_items : Forall2 (item_of (pool self)) (items self) es;
  inv_names : forall name, name_to_idx self !! name = first_index es name;
  inv_bloom : bloom_ok (bloom self);
  inv_bloom_names : Forall (fun e => might_contain ahash (bloom self) (ce_name e) = true) es;
  inv_trigrams : forall t, posting (trigrams self) t = numbers (fun e => bool_decide (t ∈ name_trigrams e)) 0 es
}.

(** Runs the next [intern] of the goal; [Hle] collects what the pool keeps. *)
Ltac run_intern h p :=
  match goal with
  | |- context [intern ?q ?s] =>
      destruct (intern q s) as [h p] eqn:E;
      match goal with
      | Hq : pool_ok q |- _ =>
          let Hn := fresh "Hok" in
          destruct (intern_spec q s h p Hq ltac:(lia) E) as (Hn & ? & ? & ?); clear E
      end
  end.

(** Older handles stay good: goes back along the chain of pools. *)
Ltac still_denotes :=
  match goal with
  | H : denotes ?p ?h ?s |- denotes ?p ?h ?s => exact H
  | Hle : pool_le ?q ?p |- denotes ?p _ _ => apply (denotes_mono q p); [exact Hle|still_denotes]
  end.

Lemma first_index_snoc es e name :
  first_index (es ++ [e]) name =
  match first_index es name with
  | Some i => Some i
  | None => if decide (ce_name e = name) then Some (Z.of_nat (length es)) else None
  end.
Proof.
  unfold first_index. destruct (list_find _ es) as [[i x]|] eqn:E.
  - by rewrite (list_find_app_l _ _ _ _ _ E).
  - rewrite list_find_app_r by done. simpl. by case_decide.
Qed.

Section push.
Context (ahash : rstr -> Z) (kind : SearchNameKind).

Lemma index_push_inv self es e :
  Z.of_nat (7 * S (length es)) < 2 ^ 32 ->
  index_inv ahash kind self es -> index_inv ahash kind (index_push ahash self e) (es ++ [e]).
Proof.
  intros Hlen [Hk Hp Hpl Hi Hn Hb Hbn Ht]. unfold index_push.
  run_intern h1 p1. run_intern h2 p2. run_intern h3 p3. run_intern h4 p4.
  run_intern h5 p5. run_intern h6 p6. run_intern h7 p7.
  assert (Hle : pool_le (pool self) p7) by (repeat (etrans; [eassumption|]); reflexivity).
  pose proof (Forall2_length _ _ _ Hi) as Hil.
  split; cbn [name_kind pool items name_to_idx bloom trigrams]; try done.
  - rewrite length_app. simpl. lia.
  - apply Forall2_app; [eapply Forall2_impl; [exact Hi|]; eauto using item_of_mono|].
    constructor; [|constructor]. split; cbn; [still_denotes..|done].
  - intros name. rewrite first_index_snoc, <- Hn, Hil.
    destruct (name_to_idx self !! ce_name e) as [i|] eqn:E.
    + destruct (name_to_idx self !! name) eqn:E'; [done|]. rewrite decide_False; [done|]. congruence.
    + case_decide as Hc.
      * subst name. by rewrite lookup_insert_eq, E.
      * rewrite lookup_insert_ne by done. by destruct (_ !! name).
  - by apply bloom_insert_ok.
  - apply Forall_app. split; [|repeat constructor; by apply might_contain_insert].
    eapply Forall_impl; [exact Hbn|]. intros x Hx. by apply might_contain_mono.
  - intros t. rewrite trigram_insert_posting, Ht, numbers_snoc. f_equal. rewrite Hil.
    unfold as_u32. rewrite Z.mod_small by lia. unfold name_trigrams. by case_bool_decide; case_decide.
Qed.

Lemma build_index_inv es :
  Z.of_nat (7 * length es) < 2 ^ 32 -> index_inv ahash kind (build_index ahash kind es) es.
Proof.
  unfold build_index. generalize (Z.of_nat (length es)) as cap. intros cap.
  induction es as [|e es IH] using rev_ind; intros Hlen.
  - split; cbn; try done. apply bloom_new_ok.
  - rewrite length_app in Hlen. simpl in Hlen. rewrite foldl_app. cbn [foldl].
    apply index_push_inv; [lia|]. apply IH. lia.
Qed.
End push.

(** * Lookup *)

Definition describe (e : CatalogEntry) : DetailedPackageInfo :=
  {| di_name := ce_name e; di_version := ce_version e; di_description := ce_description e; di_url := ce_url e;
     di_size := ce_size e; di_download_size := ce_download_size e; di_repo := ce_repo e;
     di_depends := ce_depends e; di_licenses := ce_licenses e; di_source := WireOfficial |}.

(** looking a name up in an index built from a catalogue answers with
    the first entry of that name, field by field, and with nothing exactly
    when the catalogue has no such name: the Bloom filter, the name table and
    the string pool together implement a first-match search of the list. The
    catalogue is small enough for 32-bit handles. *)
Theorem get_refines_catalogue ahash kind es name :
  Z.of_nat (7 * length es) < 2 ^ 32 ->
  get ahash (build_index ahash kind es) name = describe ∘ snd <$> list_find (fun e => ce_name e = name) es.
Proof.
  intros Hlen. destruct (build_index_inv ahash kind es Hlen) as [_ _ _ Hi Hn _ Hbn _].
  unfold get. rewrite Hn. unfold first_index.
  destruct (list_find _ es) as [[i e]|] eqn:E; [|by destruct (might_contain _ _ _)].
  apply list_find_Some in E as (Hl & <- & _).
  rewrite (proj1 (Forall_lookup _ _) Hbn i e Hl). simpl. rewrite Nat2Z.id.
  destruct (Forall2_lookup_r _ _ _ _ _ Hi Hl) as (item & -> & Hit).
  simpl. unfold describe. destruct Hit as [H1 _ H2 H3 _ H4 H5 (_ & -> & -> & -> & -> & ->)].
  by rewrite (denotes_get _ _ _ H1), (denotes_get _ _ _ H2), (denotes_get _ _ _ H3), (denotes_get _ _ _ H4),
    (denotes_get _ _ _ H5).
Qed.

(** * Search as a scan of the catalogue *)

Definition name_lower_of (e : CatalogEntry) : rstr := to_ascii_lowercase (ce_name e).

(** The rank of a name, whatever the index holds. *)
Definition name_rank (q : rstr) (e : CatalogEntry) : option Z :=
  match_rank (str_len (name_lower_of e) =? str_len q) false (match_prevs q None 0 (name_lower_of e)).

Definition name_hit (q : rstr) (ie : Z * CatalogEntry) : option (RelevanceScore * Z) :=
  r ← name_rank q ie.2; Some (score_new r (str_len (name_lower_of ie.2)) ie.1, ie.1).

Definition description_hit (q : rstr) (ie : Z * CatalogEntry) : option (RelevanceScore * Z) :=
  if contains (as_bytes q) (as_bytes (to_ascii_lowercase (ce_description ie.2)))
  then match name_rank q ie.2 with
       | None => Some (score_new DESCRIPTION_ONLY (str_len (name_lower_of ie.2)) ie.1, ie.1)
       | Some _ => None
       end
  else None.

(** Every entry whose name matches, and every other entry whose description
    does, in catalogue order. *)
Definition name_hits (q : rstr) (es : list CatalogEntry) := omap (name_hit q) (numbered 0 es).
Definition description_hits (q : rstr) (es : list CatalogEntry) := omap (description_hit q) (numbered 0 es).

Lemma score_name_match_literal p item e q i :
  item_of p item e ->
  score_name_match Literal item q (name_lower_of e) i =
  r ← name_rank q e; Some (score_new r (str_len (name_lower_of e)) i).
Proof.
  intros _. unfold score_name_match, exact_key.
  assert (negb (str_eqb (name_lower_of e) q) && rpm_eligible item && bool_decide (item_source item = WireOfficial)
    && match (if str_eqb (name_lower_of e) q then Some (name_lower_of e) else None) with Some _ => true | None => false end
    = false) as ->.
  { destruct (str_eqb (name_lower_of e) q); simpl; [done|]. apply andb_false_r. }
  unfold name_rank. by destruct (match_rank _ _ _).
Qed.

Lemma name_rank_contains q e : name_rank q e ≠ None -> contains q (name_lower_of e) = true.
Proof.
  unfold name_rank. destruct (match_rank _ _ _) as [r|] eqn:E; [|done]. intros _.
  by eapply match_prevs_contains, match_rank_Some.
Qed.

Lemma name_hit_eq q i e :
  name_hit q (i, e) = r ← name_rank q e; Some (score_new r (str_len (name_lower_of e)) i, i).
Proof. done. Qed.

Lemma description_hit_eq q i e :
  description_hit q (i, e) =
  if contains (as_bytes q) (as_bytes (to_ascii_lowercase (ce_description e)))
  then match name_rank q e with
       | None => Some (score_new DESCRIPTION_ONLY (str_len (name_lower_of e)) i, i)
       | Some _ => None
       end
  else None.
Proof. done. Qed.

Section scan.
Context (self : PackageIndex) (q : rstr) (limit : nat) (Hkind : name_kind self = Literal).

Lemma item_lookup es i :
  Forall2 (item_of (pool self)) (items self) es ->
  (exists item e, items self !! i = Some item /\ es !! i = Some e /\ item_of (pool self) item e) \/
  (items self !! i = None /\ es !! i = None).
Proof.
  intros H. pose proof (proj1 (Forall2_lookup _ _ _) H i) as Hl. destruct Hl; [left; eauto|by right].
Qed.

Lemma item_score item e i :
  item_of (pool self) item e ->
  score_name_match (name_kind self) item q (item_name_lower self item) i =
  r ← name_rank q e; Some (score_new r (str_len (name_lower_of e)) i).
Proof.
  intros H. unfold item_name_lower. rewrite Hkind, (denotes_get _ _ _ (io_name_lower _ _ _ H)).
  by eapply score_name_match_literal.
Qed.

(** The candidates are the entries with every trigram of the query. *)
Lemma candidates_numbers es cs :
  (3 <= length (as_bytes q))%nat ->
  (forall t, posting (trigrams self) t = numbers (fun e => bool_decide (t ∈ name_trigrams e)) 0 es) ->
  trigram_candidates (trigrams self) q = Some cs ->
  exists f, cs = numbers f 0 es /\ forall e, name_rank q e ≠ None -> f e = true.
Proof.
  intros Hlen Ht. destruct (trigram_candidates_spec (trigrams self) q Hlen) as (t & ts & Hw & ->).
  intros Hcs. apply (inj Some) in Hcs. subst cs. eexists. split.
  - etrans; [apply (f_equal (List.filter _)), Ht|].
    apply (filter_numbers _ _ (fun e => forallb (fun t => bool_decide (t ∈ name_trigrams e)) (t :: ts))).
    intros i e Hin. generalize (t :: ts) as l. intros l. induction l as [|w l IH]; [done|]. cbn [forallb].
    f_equal; [|done]. apply bool_decide_ext. rewrite Ht, elem_of_numbers. split.
    + intros (e' & Hin' & Hb%bool_decide_eq_true). apply elem_of_numbered in Hin as [_ H1], Hin' as [_ H2].
      congruence.
    + intros H. exists e. by rewrite bool_decide_eq_true.
  - intros e He%name_rank_contains. simpl.
    assert (Hin : forall w, w ∈ t :: ts -> w ∈ name_trigrams e).
    { intros w Hw'. apply (windows3_contains q); [done|]. by rewrite Hw. }
    rewrite (bool_decide_true (t ∈ _)) by (apply Hin, elem_of_cons; by left). simpl.
    apply forallb_forall. intros w Hw'%list_elem_of_In. apply bool_decide_eq_true, Hin, elem_of_cons. by right.
Qed.

(** The candidates' hits are all the hits. *)
Lemma candidate_hits_spec es f :
  Forall2 (item_of (pool self)) (items self) es -> (forall e, name_rank q e ≠ None -> f e = true) ->
  candidate_hits self q (numbers f 0 es) = name_hits q es.
Proof.
  intros Hi Hf. unfold candidate_hits, name_hits, numbers.
  assert (Hall : forall i e, (i, e) ∈ numbered 0 es -> es !! Z.to_nat i = Some e).
  { intros i e [H0 H]%elem_of_numbered. by rewrite Z.sub_0_r in H. }
  revert Hall. generalize (numbered 0 es) as l. intros l Hall. induction l as [|[i e] l IH]; [done|].
  specialize (IH (fun j x Hj => Hall j x (proj2 (elem_of_cons _ _ _) (or_intror Hj)))).
  pose proof (Hall i e (proj2 (elem_of_cons _ _ _) (or_introl eq_refl))) as He.
  cbn [List.filter snd omap list_omap]. rewrite <- IH. unfold name_hit at 1. cbn [fst snd].
  destruct (f e) eqn:Ef.
  - destruct (item_lookup es (Z.to_nat i) Hi) as [(item & e' & H1 & H2 & H3)|[_ H2]]; [|congruence].
    assert (e' = e) as -> by congruence. cbn [map fst omap list_omap]. rewrite H1. simpl.
    rewrite (item_score item e i H3). by destruct (name_rank q e).
  - destruct (name_rank q e) eqn:Er; [|done]. by rewrite Hf in Ef by congruence.
Qed.

(** ** The two scans *)

(** What the description scan adds to [scored]. *)
Lemma description_scan_spec nmc idx rest es scored :
  Forall2 (item_of (pool self)) rest es -> 0 <= idx -> idx + Z.of_nat (length es) <= 2 ^ 32 ->
  exists ds, description_scan self q limit nmc idx rest scored = scored ++ ds /\
    ds `sublist_of` omap (description_hit q) (numbered idx es) /\
    (ds = omap (description_hit q) (numbered idx es) \/ (limit * 4 <= nmc + length (scored ++ ds))%nat).
Proof.
  intros H. revert idx scored. induction H as [|item e rest es Hit _ IH]; intros idx scored H0 Hn; simpl.
  { exists []. rewrite app_nil_r. auto. }
  simpl in Hn. destruct (Nat.leb_spec (limit * 4) (nmc + length scored)).
  { exists []. rewrite app_nil_r. split_and!; [done|apply sublist_nil_l|by right]. }
  rewrite (item_score item e idx Hit), description_hit_eq. unfold description_match.
  rewrite (denotes_get _ _ _ (io_description_lower _ _ _ Hit)). cbn [fst snd].
  unfold description_score, item_name_lower. rewrite (denotes_get _ _ _ (io_name_lower _ _ _ Hit)).
  unfold as_u32. rewrite Z.mod_small by lia. fold (name_lower_of e).
  set (hit := (score_new DESCRIPTION_ONLY _ _, idx)).
  destruct (contains _ _); [destruct (name_rank q e); cbn [mbind option_bind]|].
  2:{ destruct (IH (idx + 1) (scored ++ [hit])) as (ds & -> & Hs & Hd); [lia..|].
      exists (hit :: ds). rewrite <- app_assoc. split_and!; [done|by constructor|]. rewrite <- app_assoc in Hd.
      destruct Hd as [->|Hd]; [by left|by right]. }
  all: destruct (IH (idx + 1) scored) as (ds & -> & Hs & Hd); [lia..|]; by exists ds.
Qed.

Lemma short_scan_spec nmc idx rest es scored :
  Forall2 (item_of (pool self)) rest es -> 0 <= idx -> idx + Z.of_nat (length es) <= 2 ^ 32 ->
  exists ds, short_scan self q limit nmc idx rest scored ≡ₚ scored ++ omap (name_hit q) (numbered idx es) ++ ds /\
    ds `sublist_of` omap (description_hit q) (numbered idx es) /\
    (ds = omap (description_hit q) (numbered idx es)
     \/ (limit <= nmc + length (omap (name_hit q) (numbered idx es)))%nat).
Proof.
  intros H. revert idx nmc scored. induction H as [|item e rest es Hit _ IH]; intros idx nmc scored H0 Hn; simpl.
  { exists []. rewrite app_nil_r. auto. }
  simpl in Hn. rewrite (item_score item e idx Hit). rewrite name_hit_eq, description_hit_eq.
  unfold description_match. rewrite (denotes_get _ _ _ (io_description_lower _ _ _ Hit)). cbn [fst snd].
  unfold description_score, item_name_lower. rewrite (denotes_get _ _ _ (io_name_lower _ _ _ Hit)).
  unfold as_u32. rewrite Z.mod_small by lia. fold (name_lower_of e).
  set (hit := (score_new DESCRIPTION_ONLY _ _, idx)).
  destruct (name_rank q e) as [r|]; cbn [mbind option_bind].
  - destruct (IH (idx + 1) (S nmc) (scored ++ [(score_new r (str_len (name_lower_of e)) idx, idx)]))
      as (ds & Hp & Hs & Hd); [lia..|]. exists ds. rewrite <- app_assoc in Hp.
    destruct (contains _ _); (split_and!; [exact Hp|done|]; destruct Hd as [->|Hd]; [by left|right; rewrite Nat.add_succ_comm in Hd; exact Hd]).
  - destruct (contains _ _); rewrite ?andb_true_r, ?andb_false_r; [|by apply IH; lia].
    destruct (Nat.ltb_spec nmc limit).
    + destruct (IH (idx + 1) nmc (scored ++ [hit])) as (ds & Hp & Hs & Hd); [lia..|].
      exists (hit :: ds). split_and!; [|by constructor|destruct Hd as [->|Hd]; auto].
      etrans; [exact Hp|]. rewrite <- app_assoc. simpl. apply Permutation_app_head, Permutation_middle.
    + destruct (IH (idx + 1) nmc scored) as (ds & Hp & Hs & Hd); [lia..|].
      exists ds. split_and!; [exact Hp|by apply sublist_cons|right; lia].
Qed.
End scan.

(** ** Ranking *)

Lemma best_first_order : cmp_order always best_first.
Proof.
  apply (cmp_order_ext always always _ (fun a b => then_with (- rank a.1 ?= - rank b.1)
    (then_with (- name_len_rev a.1 ?= - name_len_rev b.1) (- idx_rev a.1 ?= - idx_rev b.1)))); [done|..].
  - intros a b _ _. unfold best_first, score_cmp. by rewrite !Z.compare_opp.
  - apply cmp_order_lex; [exact (cmp_order_key (fun a : RelevanceScore * Z => - rank a.1) always _ cmp_order_Z)|].
    apply cmp_order_lex;
      [exact (cmp_order_key (fun a : RelevanceScore * Z => - name_len_rev a.1) always _ cmp_order_Z)
      |exact (cmp_order_key (fun a : RelevanceScore * Z => - idx_rev a.1) always _ cmp_order_Z)].
Qed.

(** A score carries the number it belongs to, so equal scores are equal hits. *)
Definition scored_ok (x : RelevanceScore * Z) : Prop := idx_rev x.1 = u64_max - x.2.

Lemma best_first_ties x y : scored_ok x -> scored_ok y -> best_first x y = Eq -> x = y.
Proof.
  destruct x as [[r n i] k], y as [[r' n' i'] k']. unfold scored_ok, best_first, score_cmp; simpl. intros -> ->.
  destruct (Z.compare_spec r' r) as [->| |]; simpl; [|done..].
  destruct (Z.compare_spec n' n) as [->| |]; simpl; [|done..].
  intros H%Z.compare_eq_iff. assert (k = k') as -> by lia. done.
Qed.

Lemma name_hit_ok q es x :
  Z.of_nat (length es) <= 2 ^ 32 -> x ∈ name_hits q es -> scored_ok x /\ 1 <= rank x.1.
Proof.
  intros Hn ([i e] & Hin & Hx)%list_elem_of_omap. apply elem_of_numbered in Hin as [H0 Hl].
  apply lookup_lt_Some in Hl. rewrite name_hit_eq in Hx. unfold name_rank in Hx.
  destruct (match_rank _ _ _) as [r|] eqn:Er; simplify_eq/=. apply match_rank_range in Er.
  unfold scored_ok; simpl. unfold saturating_sub64, u64_max, DESCRIPTION_ONLY. lia.
Qed.

Lemma description_hit_ok q es x :
  Z.of_nat (length es) <= 2 ^ 32 -> x ∈ description_hits q es -> scored_ok x /\ rank x.1 = 0.
Proof.
  intros Hn ([i e] & Hin & Hx)%list_elem_of_omap. apply elem_of_numbered in Hin as [H0 Hl].
  apply lookup_lt_Some in Hl. rewrite description_hit_eq in Hx.
  destruct (contains _ _); [|done]. destruct (name_rank q e); [done|]. simplify_eq/=.
  unfold scored_ok; simpl. unfold saturating_sub64, u64_max, DESCRIPTION_ONLY. lia.
Qed.

(** Name matches rank before description matches, each best first. *)
Lemma sort_hits q es ds l :
  Z.of_nat (length es) <= 2 ^ 32 -> ds `sublist_of` description_hits q es -> l ≡ₚ name_hits q es ++ ds ->
  sort_by best_first l = sort_by best_first (name_hits q es) ++ sort_by best_first ds.
Proof.
  intros Hn Hs Hl. pose proof best_first_order as Ho.
  assert (Hd : forall x, x ∈ ds -> scored_ok x /\ rank x.1 = 0).
  { intros x Hx. eapply description_hit_ok; [done|]. by eapply elem_of_sublist. }
  apply sort_by_unique; [done|..].
  - intros x y Hx Hy. rewrite Hl in Hx, Hy. apply elem_of_app in Hx, Hy.
    apply best_first_ties; [destruct Hx|destruct Hy]; first [by apply (name_hit_ok q es)|by apply Hd].
  - apply StronglySorted_app. split_and!; [|by apply sort_by_sorted..].
    intros x y Hx Hy. rewrite sort_by_perm in Hx, Hy.
    apply name_hit_ok in Hx as [_ Hx]; [|done]. apply Hd in Hy as [_ Hy].
    unfold cmp_le, best_first, score_cmp. rewrite Hy. by rewrite (proj2 (Z.compare_lt_iff _ _)) by lia.
  - by rewrite !sort_by_perm, Hl.
Qed.

(** * The search theorem *)

Definition entry_info (e : CatalogEntry) : PackageInfo :=
  {| pi_name := ce_name e; pi_version := ce_version e; pi_description := ce_description e; pi_source := WireOfficial |}.

Lemma infos_of_entries self es (l : list (RelevanceScore * Z)) :
  Forall2 (item_of (pool self)) (items self) es ->
  omap (fun '(_, idx) => item ← items self !! Z.to_nat idx; Some (package_info self item)) l =
  omap (fun '(_, idx) => entry_info <$> es !! Z.to_nat idx) l.
Proof.
  intros Hi. induction l as [|[s i] l IH]; [done|]. cbn [omap list_omap]. 
  destruct (item_lookup self es (Z.to_nat i) Hi) as [(item & e & -> & -> & [H1 _ H2 H3 _ _ _ H])|[-> ->]]; [|done].
  simpl. unfold package_info, entry_info.
  rewrite (denotes_get _ _ _ H1), (denotes_get _ _ _ H2), (denotes_get _ _ _ H3).
  destruct H as (_ & _ & _ & _ & _ & ->). f_equal. exact IH.
Qed.

(** C32: a search of a literal-name index returns the first [limit] of: every
    catalogue entry whose lowercased name contains the query, best first, and
    then description matches, best first. The trigram candidates lose no name
    match, description matches never displace one, and all description
    matches are considered unless those taken fill the limit already. *)
Theorem search_is_catalogue_scan ahash to_lowercase fuzzy es query limit :
  query ≠ [] -> limit ≠ 0%nat -> Z.of_nat (7 * length es) < 2 ^ 32 ->
  let q := to_ascii_lowercase query in
  exists ds, ds `sublist_of` description_hits q es /\
    (ds = description_hits q es \/ (limit <= length (name_hits q es) + length ds)%nat) /\
    search to_lowercase fuzzy (build_index ahash Literal es) query limit =
    omap (fun '(_, idx) => entry_info <$> es !! Z.to_nat idx)
      (take limit (sort_by best_first (name_hits q es) ++ sort_by best_first ds)).
Proof.
  intros Hq Hl Hn q. destruct (build_index_inv ahash Literal es Hn) as [Hk _ _ Hi _ _ _ Ht].
  set (self := build_index ahash Literal es) in *.
  assert (Hlim : 0 + Z.of_nat (length es) <= 2 ^ 32) by lia.
  unfold search, str_eqb. rewrite bool_decide_false, (proj2 (Nat.eqb_neq _ _)), Hk by done. simpl.
  unfold search_literal. fold q.
  destruct (trigram_candidates (trigrams self) q) as [cs|] eqn:Ec.
  - assert (Hlen : (3 <= length (as_bytes q))%nat).
    { unfold trigram_candidates in Ec. destruct (Nat.ltb_spec (length (as_bytes q)) 3); [done|lia]. }
    destruct (candidates_numbers self q es cs Hlen Ht Ec) as (f & -> & Hf).
    rewrite (candidate_hits_spec self q Hk es f Hi Hf).
    destruct (Nat.ltb_spec (length (name_hits q es)) limit).
    + destruct (description_scan_spec self q limit Hk (length (name_hits q es)) 0 (items self) es
        (name_hits q es) Hi ltac:(lia) Hlim) as (ds & -> & Hs & Hd).
      exists ds. split_and!; [done|rewrite length_app in Hd; destruct Hd; [by left|right; lia]|].
      rewrite (sort_hits q es ds) by (lia || done). by apply infos_of_entries.
    + exists []. split_and!; [apply sublist_nil_l|right; simpl; lia|].
      rewrite <- (sort_hits q es [] (name_hits q es)) by (lia || apply sublist_nil_l || by rewrite app_nil_r). by apply infos_of_entries.
  - destruct (short_scan_spec self q limit Hk 0 0 (items self) es [] Hi ltac:(lia) Hlim) as (ds & Hp & Hs & Hd).
    exists ds. split_and!; [done|destruct Hd; [by left|right; fold (name_hits q es) in *; lia]|].
    rewrite (sort_hits q es ds) by (lia || done). by apply infos_of_entries.
Qed.

(** ** What the ranks mean *)

Lemma match_prevs_some q c skip name : Forall is_Some (match_prevs q (Some c) skip name).
Proof.
  revert c skip. induction name as [|d rest IH]; intros c skip; simpl; [constructor|].
  destruct skip; [|done]. destruct (starts_with q (d :: rest)); [constructor|]; eauto.
Qed.

Lemma contains_match_prevs q prev name : name ≠ [] -> contains q name = true -> match_prevs q prev 0 name ≠ [].
Proof.
  revert prev. induction name as [|c rest IH]; intros prev Hne; [done|]. simpl.
  destruct (starts_with q (c :: rest)) eqn:E; [done|]. simpl. intros H. apply IH; [|done].
  intros ->. simpl in H. destruct q; [by rewrite (proj2 (starts_with_true _ _)) in E by (by eexists)|done].
Qed.

Lemma match_rank_inner same f ps r :
  Forall is_Some ps -> match_rank same f ps = Some r -> r = WORD_BOUNDARY_MATCH \/ r = SUBSTRING_MATCH.
Proof.
  intros H. revert f. induction H as [|x ps [c ->] _ IH]; intros f; simpl; [destruct f; naive_solver|].
  destruct (is_boundary c); [naive_solver|apply IH].
Qed.

Lemma match_rank_found same ps : match_rank same true ps ≠ None.
Proof. induction ps as [|[c|] ps IH]; simpl; [done| |done]. by destruct (is_boundary c). Qed.

(** for a non-empty query a name scores at all exactly when it contains
    the query; the exact rank is equality, the prefix rank a proper prefix,
    and any other hit has one of the two inner ranks. *)
Theorem name_match_tiers item q name idx :
  q ≠ [] ->
  match score_name_match Literal item q name idx with
  | None => contains q name = false
  | Some s =>
      contains q name = true /\
      (rank s = EXACT_NAME_MATCH <-> name = q) /\
      (rank s = PREFIX_MATCH <-> starts_with q name = true /\ name ≠ q) /\
      (starts_with q name = false -> rank s = WORD_BOUNDARY_MATCH \/ rank s = SUBSTRING_MATCH)
  end.
Proof.
  intros Hq. unfold score_name_match, exact_key.
  assert (negb (str_eqb name q) && rpm_eligible item && bool_decide (item_source item = WireOfficial)
    && match (if str_eqb name q then Some name else None) with Some _ => true | None => false end
    = false) as -> by (destruct (str_eqb name q); simpl; [done|apply andb_false_r]).
  destruct (match_rank _ _ _) as [r|] eqn:E.
  2:{ apply not_true_iff_false. intros Hc.
      apply (contains_match_prevs q None) in Hc; [|by intros ->; destruct q].
      destruct (match_prevs q None 0 name) as [|[c|] ps]; [done| |done]. simpl in E.
      destruct (is_boundary c); [done|]. by apply match_rank_found in E. }
  split; [by eapply match_prevs_contains, match_rank_Some|]. cbn [rank score_new].
  destruct name as [|c rest]; [by destruct q|]. cbn [match_prevs] in E.
  destruct (starts_with q (c :: rest)) eqn:Hs.
  - cbn [match_rank] in E. apply starts_with_true in Hs as [b Hb]. rewrite Hb in *.
    rewrite str_len_app in E. destruct (Z.eqb_spec (str_len q + str_len b) (str_len q)); simplify_eq.
    + assert (b = []) as -> by (apply str_len_0; lia). rewrite app_nil_r. naive_solver.
    + assert (q ++ b ≠ q) by (intros Hx; apply (f_equal str_len) in Hx; rewrite str_len_app in Hx; lia).
      naive_solver.
  - apply match_rank_inner in E; [|apply match_prevs_some].
    assert (c :: rest ≠ q).
    { intros <-. apply not_true_iff_false in Hs. apply Hs, starts_with_true. exists []. by rewrite app_nil_r. }
    naive_solver.
Qed.

(** ** Witnesses *)

Definition sample_entry (name description : string) : CatalogEntry :=
  {| ce_name := str name; ce_version := str "1.0"; ce_description := str description; ce_url := []; ce_size := 7;
     ce_download_size := 3; ce_repo := str "extra"; ce_depends := []; ce_licenses := []; ce_rpm_eligible := true |}.

Definition sample_catalogue : list CatalogEntry :=
  [sample_entry "neovim" "Editor"; sample_entry "vim" "Vi improved"; sample_entry "gvim" "vim with a GUI";
   sample_entry "nano" "Simpler than vim"; sample_entry "vim" "duplicate"].

Lemma get_refines_catalogue_witness :
  get str_len (build_index str_len Literal sample_catalogue) (str "vim") =
  Some (describe (sample_entry "vim" "Vi improved")).
Proof.
  etrans; [apply (get_refines_catalogue str_len Literal sample_catalogue (str "vim")); vm_compute; done|].
  vm_compute. done.
Defined.

Lemma search_is_catalogue_scan_witness :
  exists ds,
    search id (fun _ _ => None) (build_index str_len Literal sample_catalogue) (str "VIM") 2 =
    omap (fun '(_, idx) => entry_info <$> sample_catalogue !! Z.to_nat idx)
      (take 2 (sort_by best_first (name_hits (str "vim") sample_catalogue) ++ sort_by best_first ds)).
Proof.
  destruct (search_is_catalogue_scan str_len id (fun _ _ => None) sample_catalogue (str "VIM") 2)
    as (ds & _ & _ & H); [done|done|vm_compute; done|].
  exists ds. exact H.
Defined.

Lemma name_match_tiers_witness :
  rank <$> score_name_match Literal
    {| rpm_eligible := true; name_offset := 0; name_lower_offset := 0; version_offset := 0; description_offset := 0;
       description_lower_offset := 0; url_offset := 0; item_size := 0; item_download_size := 0; repo_offset := 0;
       item_depends := []; item_licenses := []; item_source := WireOfficial |} (str "vim") (str "vim-airline") 0
  ≠ Some EXACT_NAME_MATCH.
Proof.
  match goal with |- rank <$> score_name_match _ ?item ?q ?name ?idx ≠ _ =>
    pose proof (name_match_tiers item q name idx ltac:(done)) as H end.
  vm_compute in H |- *. done.
Defined.
