(* ===== verification/Deb822.v ===== *)
(** Debian control files: the paragraphs, fields and package entries of
    src/src/package_managers/debian_db/db.rs.

    [status_paragraphs] cuts a file at blank lines, [validate_deb822_fields]
    checks the shape of a paragraph, [control_field] reads one field and
    [parse_paragraph_str] builds a [DebianPackage]. Text is a list of scalar
    values; the separators the code searches for are ASCII, so cutting at a
    character is cutting at a byte. *)

From S2P Require Import Prelude DebVersion DebResolver.
Open Scope Z_scope.
Open Scope omg_scope.

Definition NL : char := 10.
Definition CR : char := 13.
Definition TAB : char := 9.

(** [content.lines()]. *)
Definition lines (s : rstr) : list rstr := byte_lines s.

Definition trim_start (s : rstr) : rstr := trim_start_matches is_whitespace s.

(** [line.starts_with([' ', '\t'])]. *)
Definition is_continuation (line : rstr) : bool :=
  match line with
  | c :: _ => (c =? ch " ") || (c =? TAB)
  | [] => false
  end.

(** * Paragraphs *)

(** The first blank line: what comes before it and what follows. [before] is
    the text already passed, reversed. *)
Fixpoint find_separator (before s : rstr) : option (rstr * rstr) :=
  match s with
  | [] => None
  | c :: rest =>
      if c =? NL then
        match strip_prefix [NL] rest with
        | Some after => Some (rev before, after)
        | None =>
            match strip_prefix [CR] before, strip_prefix [CR; NL] rest with
            | Some before', Some after => Some (rev before', after)
            | _, _ => find_separator (c :: before) rest
            end
        end
      else find_separator (c :: before) rest
  end.

Fixpoint paragraphs_loop (fuel : nat) (content : rstr) : list rstr :=
  match fuel with
  | O => []
  | S fuel =>
      if str_eqb content [] then []
      else
        match find_separator [] content with
        | Some (paragraph, rest) => paragraph :: paragraphs_loop fuel rest
        | None => [content]
        end
  end.

(** Every step but the last drops at least two characters. *)
Definition status_paragraphs (content : rstr) : list rstr := paragraphs_loop (S (length content)) content.

(** * Fields *)

Inductive ControlError :=
| OrphanContinuation
| ContinuedIdentity
| FieldWithoutColon
| InvalidFieldName (name : rstr)
| DuplicateField (name : rstr)
| MissingField (field : rstr)
| InvalidInstalledSize (value : rstr)
| InvalidSize (value : rstr)
| MissingPackageName.

Definition control_field (paragraph field : rstr) : option rstr :=
  find_map (fun '(name, value) => if eq_ignore_ascii_case name field then Some (trim value) else None)
    (omap (split_once (ch ":")) (List.filter (fun line => negb (is_continuation line)) (lines paragraph))).

Definition required_control_field (paragraph field : rstr) : result rstr ControlError :=
  match control_field paragraph field with
  | Some value => if str_eqb value [] then Err (MissingField field) else Ok value
  | None => Err (MissingField field)
  end.

Record FieldScan := {
  seen : gset rstr;
  has_field : bool;
  scalar_identity : bool
}.

Definition identity_fields : list rstr := [str "Package"; str "Version"; str "Architecture"; str "Status"].

Definition valid_field_name (name : rstr) : bool :=
  negb (str_eqb name []) && negb (starts_with (str "#") name) && negb (starts_with (str "-") name)
  && forallb (fun byte => (0x21 <=? byte) && (byte <=? 0x7e) && negb (byte =? ch ":")) (as_bytes name).

Definition validate_line (s : FieldScan) (line : rstr) : result FieldScan ControlError :=
  if str_eqb line [] then Ok s
  else if is_continuation line then
    ensure (has_field s) OrphanContinuation ;?
    ensure (negb (scalar_identity s)) ContinuedIdentity ;?
    Ok s
  else
    match split_once (ch ":") line with
    | None => Err FieldWithoutColon
    | Some (name, _) =>
        ensure (valid_field_name name) (InvalidFieldName name) ;?
        ensure (negb (bool_decide (to_ascii_lowercase name ∈ seen s))) (DuplicateField name) ;?
        Ok {| seen := {[to_ascii_lowercase name]} ∪ seen s; has_field := true;
              scalar_identity := existsb (fun field => eq_ignore_ascii_case name field) identity_fields |}
    end.

Definition validate_deb822_fields (paragraph : rstr) : result unit ControlError :=
  let? _ := for_each validate_line {| seen := ∅; has_field := false; scalar_identity := false |} (lines paragraph) in
  Ok tt.

(** * Package entries *)

Definition append_dependencies (value : rstr) (dependencies : list rstr) : list rstr :=
  dependencies ++ List.filter (fun d => negb (str_eqb d [])) (map trim (split_char (ch ",") value)).

(** The variables of [parse_paragraph_str]. *)
Record ParseState := {
  ps_name : rstr;
  ps_version : rstr;
  ps_description : rstr;
  ps_section : rstr;
  ps_priority : rstr;
  ps_installed_size : Z;
  ps_maintainer : rstr;
  ps_architecture : rstr;
  ps_depends : list rstr;
  ps_filename : rstr;
  ps_size : Z;
  ps_sha256 : rstr;
  ps_homepage : rstr;
  current_field : option rstr
}.

Inductive FieldUpdate :=
| SetName (v : rstr) | SetVersion (v : rstr) | SetDescription (v : rstr) | SetSection (v : rstr)
| SetPriority (v : rstr) | SetInstalledSize (z : Z) | SetMaintainer (v : rstr) | SetArchitecture (v : rstr)
| AddDepends (v : rstr) | SetFilename (v : rstr) | SetSize (z : Z) | SetSha256 (v : rstr) | SetHomepage (v : rstr)
| NoUpdate.

(** One assignment to the parser's variables, with the field it came from. *)
Definition apply_update (s : ParseState) (field : option rstr) (u : FieldUpdate) : ParseState :=
  {| ps_name := match u with SetName v => v | _ => ps_name s end;
     ps_version := match u with SetVersion v => v | _ => ps_version s end;
     ps_description := match u with SetDescription v => v | _ => ps_description s end;
     ps_section := match u with SetSection v => v | _ => ps_section s end;
     ps_priority := match u with SetPriority v => v | _ => ps_priority s end;
     ps_installed_size := match u with SetInstalledSize z => z | _ => ps_installed_size s end;
     ps_maintainer := match u with SetMaintainer v => v | _ => ps_maintainer s end;
     ps_architecture := match u with SetArchitecture v => v | _ => ps_architecture s end;
     ps_depends := match u with AddDepends v => append_dependencies v (ps_depends s) | _ => ps_depends s end;
     ps_filename := match u with SetFilename v => v | _ => ps_filename s end;
     ps_size := match u with SetSize z => z | _ => ps_size s end;
     ps_sha256 := match u with SetSha256 v => v | _ => ps_sha256 s end;
     ps_homepage := match u with SetHomepage v => v | _ => ps_homepage s end;
     current_field := field |}.

(** The [match key.as_bytes()] of the loop; keys are case-sensitive here. *)
Definition field_update (key value : rstr) : result FieldUpdate ControlError :=
  if str_eqb key (str "Package") then Ok (SetName value)
  else if str_eqb key (str "Version") then Ok (SetVersion value)
  else if str_eqb key (str "Description") then Ok (SetDescription value)
  else if str_eqb key (str "Section") then Ok (SetSection value)
  else if str_eqb key (str "Priority") then Ok (SetPriority value)
  else if str_eqb key (str "Installed-Size") then
    match parse_uint u64_max value with
    | Some z => Ok (SetInstalledSize z)
    | None => Err (InvalidInstalledSize value)
    end
  else if str_eqb key (str "Maintainer") then Ok (SetMaintainer value)
  else if str_eqb key (str "Architecture") then Ok (SetArchitecture value)
  else if str_eqb key (str "Depends") || str_eqb key (str "Pre-Depends") then Ok (AddDepends value)
  else if str_eqb key (str "Filename") then Ok (SetFilename value)
  else if str_eqb key (str "Size") then
    match parse_uint u64_max value with
    | Some z => Ok (SetSize z)
    | None => Err (InvalidSize value)
    end
  else if str_eqb key (str "SHA256") then Ok (SetSha256 value)
  else if str_eqb key (str "Homepage") then Ok (SetHomepage value)
  else Ok NoUpdate.

(** A folded description line: a single full stop stands for an empty one. *)
Definition fold_description (description line : rstr) : rstr :=
  let value := trim_start line in
  description ++ [NL] ++ (if str_eqb value (str ".") then [] else value).

Definition parse_line (s : ParseState) (line : rstr) : result ParseState ControlError :=
  if is_continuation line then
    Ok match current_field s with
       | Some key =>
           if str_eqb key (str "Description") && negb (str_eqb (ps_description s) []) then
             apply_update s (current_field s) (SetDescription (fold_description (ps_description s) line))
           else if str_eqb key (str "Depends") || str_eqb key (str "Pre-Depends") then
             apply_update s (current_field s) (AddDepends (trim_start line))
           else s
       | None => s
       end
  else if str_eqb line [] then Ok s
  else
    match split_once (ch ":") line with
    | None => Err FieldWithoutColon
    | Some (key, rest) =>
        let? u := field_update key (trim_start rest) in
        Ok (apply_update s (Some key) u)
    end.

Definition parse_paragraph_str (paragraph component suite source_key : rstr) : result DebianPackage ControlError :=
  validate_deb822_fields paragraph ;?
  let? name := required_control_field paragraph (str "Package") in
  let? version := required_control_field paragraph (str "Version") in
  let? architecture := required_control_field paragraph (str "Architecture") in
  let? s := for_each parse_line
    {| ps_name := name; ps_version := version; ps_description := []; ps_section := []; ps_priority := [];
       ps_installed_size := 0; ps_maintainer := []; ps_architecture := architecture; ps_depends := [];
       ps_filename := []; ps_size := 0; ps_sha256 := []; ps_homepage := []; current_field := None |}
    (lines paragraph) in
  ensure (negb (str_eqb (ps_name s) [])) MissingPackageName ;?
  Ok {| pkg_name := ps_name s; pkg_version := ps_version s; pkg_description := ps_description s;
        pkg_section := ps_section s; pkg_priority := ps_priority s; pkg_installed_size := ps_installed_size s;
        pkg_maintainer := ps_maintainer s; pkg_architecture := ps_architecture s; pkg_depends := ps_depends s;
        pkg_filename := ps_filename s; pkg_size := ps_size s; pkg_sha256 := ps_sha256 s;
        pkg_homepage := ps_homepage s; pkg_component := component; pkg_suite := suite;
        pkg_source_key := source_key |}.

Definition parse_packages_paragraph (paragraph component suite source_key : rstr)
  : result (option DebianPackage) ControlError :=
  if str_eqb (trim paragraph) [] then Ok None
  else let? p := parse_paragraph_str paragraph component suite source_key in Ok (Some p).

(** * List file names *)

(** The text after the last occurrence, the whole string without one:
    [s.rsplit(c).next()]. *)
Definition rsplit_next (c : char) (s : rstr) : rstr :=
  match rsplit_once c s with Some (_, b) => b | None => s end.

(** [s.split(c).next()]. *)
Definition split_next (c : char) (s : rstr) : rstr :=
  match split_once c s with Some (a, _) => a | None => s end.

Definition extract_component_from_path (filename : rstr) : rstr :=
  let fallback :=
    match strip_suffix (str "_Packages") filename with
    | Some stripped =>
        match split_once (ch "_") stripped with
        | Some (component, _) => if str_eqb component [] then str "main" else component
        | None => str "main"
        end
    | None => str "main"
    end in
  match split_once_str (str "_binary-") filename with
  | Some (prefix, _) =>
      let component := rsplit_next (ch "_") prefix in
      if str_eqb component [] then fallback else component
  | None => fallback
  end.

Definition extract_suite_from_path (filename : rstr) : rstr :=
  match split_once_str (str "_dists_") filename with
  | Some (_, after) =>
      let rest := match split_once_str (str "_dists_") after with Some (a, _) => a | None => after end in
      split_next (ch "_") rest
  | None => []
  end.

Definition extract_source_key_from_path (filename : rstr) : rstr :=
  match split_once_str (str "_dists_") filename with
  | Some (source, _) => source
  | None => []
  end.

Definition is_packages_index_name (name : rstr) : bool :=
  ends_with (str "_Packages") name
  || match rsplit_once (ch ".") name with
     | Some (stem, encoding) =>
         ends_with (str "_Packages") stem
         && existsb (fun supported => eq_ignore_ascii_case encoding supported) [str "lz4"; str "gz"; str "xz"]
     | None => false
     end.
