(* ===== verification/Deb822Proofs.v ===== *)
(** Writing Debian control files and reading them back. *)

From S2P Require Import Prelude DebVersion DebResolver Deb822.
Open Scope Z_scope.
Open Scope omg_scope.

(** * Lines and paragraphs *)

Fixpoint intercalate (sep : rstr) (ls : list rstr) : rstr :=
  match ls with
  | [] => []
  | [l] => l
  | l :: ls => l ++ sep ++ intercalate sep ls
  end.

Lemma intercalate_cons sep l ls : ls ≠ [] -> intercalate sep (l :: ls) = l ++ sep ++ intercalate sep ls.
Proof. by destruct ls. Qed.

(** Text that fits on one line of a paragraph. *)
Definition one_line (l : rstr) : Prop := (NL ∉ l) /\ (CR ∉ l).

Lemma split_char_intercalate c ls :
  ls ≠ [] -> Forall (fun l => (c ∉ l)) ls -> split_char c (intercalate [c] ls) = ls.
Proof.
  induction ls as [|l ls IH]; [done|]. intros _ [Hl Hls]%Forall_cons. destruct ls as [|l' ls]; [by apply split_char_none|].
  rewrite intercalate_cons by done. etrans; [by apply split_char_cut|]. f_equal. by apply IH.
Qed.

Lemma intercalate_split_char c s : intercalate [c] (split_char c s) = s.
Proof.
  induction s as [|d s IH]; [done|]. simpl. destruct (split_char_cons c s) as (p & ps & E). rewrite E in *.
  destruct (Z.eqb_spec c d) as [<-|]; [by rewrite intercalate_cons, IH|].
  rewrite <- IH. by destruct ps.
Qed.

Lemma terminated_lines ls l :
  Forall one_line ls -> l ≠ [] -> terminated (ls ++ [l]) = ls ++ [l].
Proof.
  intros H Hl. induction H as [|x ls [_ Hx] _ IH]; simpl.
  - by rewrite decide_False.
  - rewrite strip_cr_id by done. destruct (ls ++ [l]) eqn:E; [by destruct ls|]. by rewrite IH.
Qed.

Lemma lines_intercalate ls :
  ls ≠ [] -> Forall (fun l => one_line l /\ l ≠ []) ls -> lines (intercalate [NL] ls) = ls.
Proof.
  intros Hne H. unfold lines, byte_lines. rewrite split_char_intercalate; [|done|].
  2:{ eapply Forall_impl; [exact H|]. by intros l [[? _] _]. }
  destruct (exists_last Hne) as (ls' & l & ->). apply Forall_app in H as [H1 H2]. rewrite Forall_singleton in H2.
  apply terminated_lines; [|apply H2]. eapply Forall_impl; [exact H1|]. naive_solver.
Qed.

Lemma find_separator_line b l s : (NL ∉ l) -> find_separator b (l ++ s) = find_separator (rev l ++ b) s.
Proof.
  revert b. induction l as [|c l IH]; intros b; [done|]. intros [Hc Hl]%not_elem_of_cons. simpl.
  rewrite (proj2 (Z.eqb_neq c NL)) by done. rewrite IH by done. by rewrite <- app_assoc.
Qed.

Lemma strip_prefix_ne a c p s : a ≠ c -> strip_prefix (a :: p) (c :: s) = None.
Proof. intros H. cbn [strip_prefix]. by rewrite (proj2 (Z.eqb_neq a c)). Qed.

(** A line feed before an ordinary character separates nothing. *)
Lemma find_separator_inner b c s :
  c ≠ NL -> c ≠ CR -> find_separator b (NL :: c :: s) = find_separator (NL :: b) (c :: s).
Proof.
  intros H1 H2. unfold find_separator at 1. fold find_separator.
  rewrite Z.eqb_refl, !strip_prefix_ne by congruence. by destruct (strip_prefix [CR] b).
Qed.

(** Lines that are not empty hold no separator. *)
Lemma find_separator_lines b ls rest :
  ls ≠ [] -> Forall (fun l => one_line l /\ l ≠ []) ls ->
  find_separator b (intercalate [NL] ls ++ [NL; NL] ++ rest) = Some (rev b ++ intercalate [NL] ls, rest).
Proof.
  revert b. induction ls as [|l ls IH]; [done|]. intros b _ [[[Hnl Hcr] Hne] Hls]%Forall_cons.
  destruct ls as [|l' ls].
  - simpl intercalate. rewrite find_separator_line by done. simpl. by rewrite rev_app_distr, rev_involutive.
  - rewrite intercalate_cons by done. rewrite <- !app_assoc. rewrite find_separator_line by done.
    specialize (IH (NL :: rev l ++ b) ltac:(done) Hls).
    set (t := intercalate [NL] (l' :: ls)) in *. set (tail := [NL; NL] ++ rest) in *. clearbody tail.
    assert (exists c t', t = c :: t' /\ c ≠ NL /\ c ≠ CR) as (c & t' & Et & Hc & Hc').
    { apply Forall_cons in Hls as [[[H1 H2] H3] _]. destruct l' as [|c l']; [done|].
      apply not_elem_of_cons in H1, H2. exists c. unfold t. destruct ls; simpl; eexists; split_and!; naive_solver. }
    rewrite Et in *. etrans; [exact (find_separator_inner (rev l ++ b) c (t' ++ tail) Hc Hc')|].
    simpl in IH |- *. rewrite IH. by rewrite rev_app_distr, rev_involutive, <- !app_assoc.
Qed.

(** A file of paragraphs, each closed by a blank line. *)
Definition render_file (ps : list (list rstr)) : rstr := ps ≫= fun ls => intercalate [NL] ls ++ [NL; NL].

Definition good_paragraph (ls : list rstr) : Prop := ls ≠ [] /\ Forall (fun l => one_line l /\ l ≠ []) ls.

Lemma paragraphs_loop_render fuel ps :
  Forall good_paragraph ps -> (length (render_file ps) < fuel)%nat ->
  paragraphs_loop fuel (render_file ps) = map (intercalate [NL]) ps.
Proof.
  intros H. revert fuel. induction H as [|ls ps [Hne Hls] _ IH]; intros [|fuel] Hf; [lia|done|lia|].
  unfold render_file in *. rewrite bind_cons in *. rewrite <- app_assoc in *. cbn [paragraphs_loop].
  assert (str_eqb (intercalate [NL] ls ++ [NL; NL] ++ render_file ps) [] = false) as Hn.
  { apply bool_decide_false. by destruct (intercalate [NL] ls). }
  unfold render_file in Hn. rewrite Hn, find_separator_lines by done. simpl. f_equal. apply IH.
  rewrite !length_app in Hf. simpl in Hf. lia.
Qed.

Lemma status_paragraphs_render ps :
  Forall good_paragraph ps -> status_paragraphs (render_file ps) = map (intercalate [NL]) ps.
Proof. intros H. apply paragraphs_loop_render; [done|lia]. Qed.

(** * Numbers *)

Lemma digits_value_snoc acc s c : digits_value acc (s ++ [c]) = digits_value acc s * 10 + (c - ch "0").
Proof. revert acc. induction s as [|d s IH]; intros acc; [done|]. simpl. apply IH. Qed.

Lemma decimal_spec fuel n :
  0 <= n < 10 ^ Z.of_nat fuel -> (0 < fuel)%nat ->
  all_digits (decimal fuel n) /\ digits_value 0 (decimal fuel n) = n /\ decimal fuel n ≠ [].
Proof.
  revert n. induction fuel as [|fuel IH]; intros n Hn Hf; [lia|]. cbn [decimal].
  assert (Hdigit : forall d, 0 <= d < 10 -> is_ascii_digit (ch "0" + d) = true).
  { intros d Hd. unfold is_ascii_digit. ev_ch. to_prop. lia. }
  destruct (Z.ltb_spec n 10).
  - split_and!; [repeat constructor; apply Hdigit; lia|cbn [digits_value]; lia|done].
  - assert (0 <= n / 10 < 10 ^ Z.of_nat fuel) as Hq.
    { rewrite Nat2Z.inj_succ, Z.pow_succ_r in Hn by lia. split; [apply Z.div_pos; lia|apply Z.div_lt_upper_bound; lia]. }
    destruct fuel as [|fuel]; [simpl in Hq; lia|].
    destruct (IH (n / 10) Hq ltac:(lia)) as (Hd & Hv & _). pose proof (Z.mod_pos_bound n 10 ltac:(lia)).
    split_and!; [|rewrite digits_value_snoc, Hv; pose proof (Z.div_mod n 10); lia|by destruct (decimal _ _)].
    apply Forall_app. split; [done|]. repeat constructor. by apply Hdigit.
Qed.

Lemma to_string_spec n :
  0 <= n -> all_digits (to_string n) /\ digits_value 0 (to_string n) = n /\ to_string n ≠ [].
Proof.
  intros Hn. apply decimal_spec; [|lia]. split; [done|]. rewrite Nat2Z.inj_succ, Z2Nat.id by apply Z.log2_nonneg.
  destruct (decide (n = 0)) as [->|]; [done|].
  apply Z.lt_le_trans with (2 ^ Z.succ (Z.log2 n)); [apply Z.log2_spec; lia|].
  apply Z.pow_le_mono_l. pose proof (Z.log2_nonneg n). lia.
Qed.

Lemma parse_to_string max n : 0 <= n <= max -> parse_uint max (to_string n) = Some n.
Proof.
  intros Hn. destruct (to_string_spec n) as (Hd & Hv & Hne); [lia|]. unfold parse_uint.
  destruct (to_string n) as [|c s] eqn:E; [done|]. rewrite <- E in *.
  assert ((c =? ch "+") = false) as ->.
  { rewrite E in Hd. inv Hd. unfold is_ascii_digit in *. ev_ch. to_prop. lia. }
  rewrite parse_digits_value by done. rewrite Hv. rewrite E. rewrite (proj2 (Z.leb_le _ _)) by lia. done.
Qed.

Lemma number_char c n : 0 <= n -> is_ascii_digit c = false -> c ∉ to_string n.
Proof.
  intros Hn Hc Hin. destruct (to_string_spec n Hn) as [Hd _]. apply (proj1 (Forall_forall _ _) Hd) in Hin. congruence.
Qed.

(** * Fields *)

Definition header (k v : rstr) : rstr := k ++ str ": " ++ v.

(** A field name the reader accepts. *)
Definition good_key (k : rstr) : bool :=
  valid_field_name k && negb (is_continuation k) && negb (contains_char (ch ":") k)
  && negb (contains_char NL k) && negb (contains_char CR k).

Lemma good_key_spec k :
  good_key k = true ->
  valid_field_name k = true /\ is_continuation k = false /\ (ch ":" ∉ k) /\ k ≠ [] /\ one_line k.
Proof.
  unfold good_key, one_line. rewrite !andb_true_iff, !negb_true_iff, !contains_char_false.
  intros ((((H1 & H2) & H3) & H4) & H5). split_and!; [done..| |done|done]. by intros ->.
Qed.

Lemma header_shape k v :
  good_key k = true -> header k v ≠ [] /\ is_continuation (header k v) = false /\
  split_once (ch ":") (header k v) = Some (k, ch " " :: v).
Proof.
  intros (H1 & H2 & H3 & H4 & _)%good_key_spec. unfold header. split_and!.
  - by destruct k.
  - by destruct k.
  - apply split_once_Some. by split.
Qed.

Lemma trim_start_space v : trim_start v = v -> trim_start (ch " " :: v) = v.
Proof. done. Qed.

Lemma validate_header s k v :
  good_key k = true -> (to_ascii_lowercase k ∉ seen s) ->
  validate_line s (header k v) =
  Ok {| seen := {[to_ascii_lowercase k]} ∪ seen s; has_field := true;
        scalar_identity := existsb (fun field => eq_ignore_ascii_case k field) identity_fields |}.
Proof.
  intros Hk Hs. destruct (header_shape k v Hk) as (H1 & H2 & H3). unfold validate_line.
  unfold str_eqb. rewrite bool_decide_false, H2, H3 by done.
  rewrite (proj1 (good_key_spec k Hk)). simpl. by rewrite bool_decide_false.
Qed.

(** Distinct headers pass; the scan remembers the last one. *)
Lemma validate_headers s kvs k v :
  Forall (fun kv => good_key kv.1 = true) (kvs ++ [(k, v)]) ->
  NoDup (map (fun kv => to_ascii_lowercase kv.1) (kvs ++ [(k, v)])) ->
  Forall (fun kv => (to_ascii_lowercase kv.1 ∉ seen s)) (kvs ++ [(k, v)]) ->
  exists s', for_each validate_line s (map (fun kv => header kv.1 kv.2) (kvs ++ [(k, v)])) = Ok s' /\
    has_field s' = true /\ scalar_identity s' = existsb (fun field => eq_ignore_ascii_case k field) identity_fields.
Proof.
  revert s. induction kvs as [|[k0 v0] kvs IH]; intros s Hg Hnd Hs; simpl in *.
  - rewrite Forall_singleton in Hg, Hs. simpl in *. rewrite validate_header by done. simpl. eauto.
  - inv Hg. inv Hs. apply NoDup_cons in Hnd as [Hk0 Hnd]. simpl in *.
    rewrite validate_header by done. cbn [res_bind]. apply IH; [done..|].
    apply Forall_forall. intros kv Hkv. simpl. apply not_elem_of_union. split.
    + rewrite not_elem_of_singleton. intros E. apply Hk0. rewrite <- E.
      by apply (list_elem_of_fmap_2 (fun kv : rstr * rstr => to_ascii_lowercase kv.1)).
    + by eapply Forall_forall in Hkv; [|done].
Qed.

Lemma validate_continuations s ls :
  has_field s = true -> scalar_identity s = false ->
  Forall (fun l => is_continuation l = true /\ l ≠ []) ls -> for_each validate_line s ls = Ok s.
Proof.
  intros Hf Hi. induction 1 as [|l ls [Hc Hne] _ IH]; [done|]. simpl. unfold validate_line at 1.
  unfold str_eqb. rewrite bool_decide_false, Hc, Hf, Hi by done. simpl. exact IH.
Qed.

Lemma parse_header s k v u :
  good_key k = true -> trim_start v = v -> field_update k v = Ok u ->
  parse_line s (header k v) = Ok (apply_update s (Some k) u).
Proof.
  intros Hk Hv Hu. destruct (header_shape k v Hk) as (H1 & H2 & H3). unfold parse_line.
  assert (str_eqb (header k v) [] = false) as -> by by apply bool_decide_false.
  by rewrite H2, H3, trim_start_space, Hu by done.
Qed.

Definition field_step (s : ParseState) (f : rstr * rstr * FieldUpdate) : ParseState :=
  apply_update s (Some f.1.1) f.2.

Lemma parse_headers s (fs : list (rstr * rstr * FieldUpdate)) :
  Forall (fun f => good_key f.1.1 = true /\ trim_start f.1.2 = f.1.2 /\ field_update f.1.1 f.1.2 = Ok f.2) fs ->
  for_each parse_line s (map (fun f => header f.1.1 f.1.2) fs) = Ok (foldl field_step s fs).
Proof.
  intros H. revert s. induction H as [|f fs (H1 & H2 & H3) _ IH]; intros s; [done|].
  simpl. rewrite (parse_header _ _ _ _ H1 H2 H3). apply IH.
Qed.

(** * Writing a package entry *)

Definition fold_line (l : rstr) : rstr := ch " " :: (if str_eqb l [] then str "." else l).

Definition description_head (d : rstr) : rstr := default [] (head (split_char NL d)).
Definition description_tail (d : rstr) : list rstr := tail (split_char NL d).

(** The fields written, with the assignment each one causes when read. *)
Definition package_fields (p : DebianPackage) : list (rstr * rstr * FieldUpdate) :=
  [(str "Package", pkg_name p, SetName (pkg_name p));
   (str "Version", pkg_version p, SetVersion (pkg_version p));
   (str "Architecture", pkg_architecture p, SetArchitecture (pkg_architecture p));
   (str "Section", pkg_section p, SetSection (pkg_section p));
   (str "Priority", pkg_priority p, SetPriority (pkg_priority p));
   (str "Installed-Size", to_string (pkg_installed_size p), SetInstalledSize (pkg_installed_size p));
   (str "Maintainer", pkg_maintainer p, SetMaintainer (pkg_maintainer p));
   (str "Depends", intercalate (str ", ") (pkg_depends p), AddDepends (intercalate (str ", ") (pkg_depends p)));
   (str "Filename", pkg_filename p, SetFilename (pkg_filename p));
   (str "Size", to_string (pkg_size p), SetSize (pkg_size p));
   (str "SHA256", pkg_sha256 p, SetSha256 (pkg_sha256 p));
   (str "Homepage", pkg_homepage p, SetHomepage (pkg_homepage p));
   (str "Description", description_head (pkg_description p), SetDescription (description_head (pkg_description p)))].

Definition package_lines (p : DebianPackage) : list rstr :=
  map (fun f => header f.1.1 f.1.2) (package_fields p) ++ map fold_line (description_tail (pkg_description p)).

(** Text that survives being written as a field value. *)
Definition field_text (v : rstr) : Prop := one_line v /\ trim_start v = v.

Definition dep_text (d : rstr) : Prop := d ≠ [] /\ trim d = d /\ (ch "," ∉ d) /\ one_line d.

Record writable (p : DebianPackage) : Prop := {
  wr_text : Forall field_text [pkg_name p; pkg_version p; pkg_architecture p; pkg_section p; pkg_priority p;
                               pkg_maintainer p; pkg_filename p; pkg_sha256 p; pkg_homepage p];
  wr_identity : pkg_name p ≠ [] /\ pkg_version p ≠ [] /\ pkg_architecture p ≠ [];
  wr_sizes : 0 <= pkg_installed_size p <= u64_max /\ 0 <= pkg_size p <= u64_max;
  wr_depends : Forall dep_text (pkg_depends p);
  wr_description : Forall (fun l => (CR ∉ l) /\ trim_start l = l /\ l ≠ str ".") (split_char NL (pkg_description p));
  wr_synopsis : pkg_description p ≠ [] -> description_head (pkg_description p) ≠ []
}.

Lemma trim_start_length s : (length (trim_start s) <= length s)%nat.
Proof. unfold trim_start. induction s as [|c s IH]; simpl; [done|]. destruct (is_whitespace c); simpl; lia. Qed.

Lemma trim_start_head c s : trim_start (c :: s) = c :: s -> is_whitespace c = false.
Proof.
  unfold trim_start. simpl. destruct (is_whitespace c); [|done]. intros H.
  pose proof (trim_start_length s) as Hl. unfold trim_start in Hl. rewrite H in Hl. simpl in Hl. lia.
Qed.

Lemma trim_start_blank s : trim_start s = [] -> Forall (fun c => is_whitespace c = true) s.
Proof.
  unfold trim_start. induction s as [|c s IH]; simpl; [constructor|].
  destruct (is_whitespace c) eqn:E; [|done]. constructor; auto.
Qed.

Lemma trim_space v : trim (ch " " :: v) = trim v.
Proof. done. Qed.

Lemma trim_start_trim v : trim v = v -> trim_start v = v.
Proof.
  intros H. destruct v as [|c v]; [done|]. destruct (is_whitespace c) eqn:E; [|by apply trim_start_id].
  exfalso. unfold trim in H. cbn [trim_start_matches] in H. rewrite E in H. apply (f_equal length) in H.
  rewrite length_rev in H. pose proof (trim_start_length (rev (trim_start v))) as H1.
  rewrite length_rev in H1. pose proof (trim_start_length v). unfold trim_start in *. simpl in *. lia.
Qed.

Lemma trim_nonempty v : v ≠ [] -> trim_start v = v -> trim v ≠ [].
Proof.
  intros Hne Hv Ht. destruct v as [|c v]; [done|]. pose proof (trim_start_head c v Hv) as Hc.
  unfold trim in Ht. fold (trim_start (c :: v)) in Ht. rewrite Hv in Ht.
  apply (f_equal (@rev Z)) in Ht. rewrite rev_involutive in Ht. apply trim_start_blank in Ht. simpl in Ht.
  apply Forall_app in Ht as [_ Ht]. rewrite Forall_singleton in Ht. congruence.
Qed.

Lemma append_dependencies_render ds :
  Forall dep_text ds -> append_dependencies (intercalate (str ", ") ds) [] = ds.
Proof.
  intros H. unfold append_dependencies. simpl app.
  assert (Hsplit : map trim (split_char (ch ",") (intercalate (str ", ") ds)) = if decide (ds = []) then [[]] else ds).
  { induction H as [|d ds (Hne & Ht & Hc & Hl) Hds IH]; [done|]. rewrite decide_False by done.
    destruct ds as [|d' ds]; [cbn [intercalate]; rewrite split_char_none by done; cbn [map]; by rewrite Ht|].
    rewrite intercalate_cons by done.
    change (str ", " ++ ?x) with (ch "," :: ch " " :: x).
    rewrite split_char_cut by done. cbn [map]. rewrite Ht. f_equal. rewrite decide_False in IH by done.
    etrans; [|exact IH].
    destruct (split_char_cons (ch ",") (intercalate (str ", ") (d' :: ds))) as (p & ps & E).
    change (split_char (ch ",") (ch " " :: ?x)) with
      (match split_char (ch ",") x with p :: ps => (ch " " :: p) :: ps | [] => [[ch " "]] end).
    rewrite E. reflexivity. }
  rewrite Hsplit. case_decide as E; [by subst|]. clear Hsplit E.
  induction H as [|d ds (Hne & _) _ IH]; [done|]. simpl. unfold str_eqb at 1.
  rewrite bool_decide_false by done. simpl. by rewrite IH.
Qed.

(** ** Reading it back *)

Lemma fold_line_shape l : is_continuation (fold_line l) = true /\ fold_line l ≠ [].
Proof. done. Qed.

Lemma fold_description_line d l :
  trim_start l = l -> l ≠ str "." -> fold_description d (fold_line l) = d ++ [NL] ++ l.
Proof.
  intros Ht Hdot. destruct (decide (l = [])) as [->|E]; [done|].
  assert (fold_line l = ch " " :: l) as -> by (unfold fold_line, str_eqb; by rewrite bool_decide_false).
  unfold fold_description. rewrite trim_start_space by done. unfold str_eqb. by rewrite bool_decide_false.
Qed.

Lemma parse_description s ls :
  current_field s = Some (str "Description") -> (ps_description s = [] -> ls = []) ->
  Forall (fun l => (CR ∉ l) /\ trim_start l = l /\ l ≠ str ".") ls ->
  for_each parse_line s (map fold_line ls) =
  Ok (apply_update s (current_field s) (SetDescription (intercalate [NL] (ps_description s :: ls)))).
Proof.
  intros Hf Hd H. revert s Hf Hd. induction H as [|l ls (_ & Ht & Hdot) _ IH]; intros s Hf Hd.
  { simpl. by destruct s. }
  destruct (decide (ps_description s = [])) as [E|E]; [by apply Hd in E|].
  cbn [map for_each]. unfold parse_line at 1. rewrite (proj1 (fold_line_shape l)), Hf.
  replace (str_eqb (str "Description") (str "Description")) with true by done.
  assert (str_eqb (ps_description s) [] = false) as -> by by apply bool_decide_false.
  cbn [andb negb res_bind]. rewrite fold_description_line by done. rewrite IH; [|done|].
  - assert (intercalate [NL] (ps_description s :: l :: ls) =
      intercalate [NL] ((ps_description s ++ [NL] ++ l) :: ls)) as ->; [|done].
    destruct ls as [|l' ls]; [done|]. rewrite (intercalate_cons _ _ (l :: _)), !(intercalate_cons _ _ (l' :: ls)) by done.
    by rewrite <- !app_assoc.
  - cbn. by destruct (ps_description s).
Qed.

Section entry.
Context (p : DebianPackage) (Hp : writable p).

Lemma all_digits_text n : 0 <= n -> field_text (to_string n).
Proof.
  intros Hn. destruct (to_string_spec n Hn) as (Hd & _ & Hne). split.
  - unfold all_digits in Hd. rewrite Forall_forall in Hd. split; intros Hin%Hd; by vm_compute in Hin.
  - destruct (to_string n) as [|c s]; [done|]. apply trim_start_id. inv Hd.
    unfold is_ascii_digit, is_whitespace in *. ev_ch. to_prop. lia.
Qed.

Lemma depends_text : field_text (intercalate (str ", ") (pkg_depends p)).
Proof.
  pose proof (wr_depends p Hp) as H. split.
  - induction H as [|d ds (_ & _ & _ & Hl) Hds IH]; [by split; apply not_elem_of_nil|].
    destruct ds; [done|]. rewrite intercalate_cons by done.
    split; rewrite !not_elem_of_app; (split_and!; [apply Hl|by vm_compute; set_solver|apply IH]).
  - destruct H as [|d ds (Hne & Ht & _) _]; [done|]. apply trim_start_trim in Ht.
    destruct d as [|c d]; [done|]. apply trim_start_head in Ht. destruct ds; simpl; by apply trim_start_id.
Qed.

Lemma description_head_text : field_text (description_head (pkg_description p)).
Proof.
  pose proof (wr_description p Hp) as H. unfold description_head.
  destruct (split_char NL (pkg_description p)) as [|l ls] eqn:E; [split; [split|done]; apply not_elem_of_nil|].
  inv H. simpl. split; [split; [|naive_solver]|naive_solver].
  apply (split_char_no_sep NL (pkg_description p)). rewrite E. by left.
Qed.

Lemma package_fields_text : Forall (fun f => field_text f.1.2) (package_fields p).
Proof.
  destruct (wr_sizes p Hp) as [H1 H2]. pose proof (wr_text p Hp) as Ht. rewrite !Forall_cons in Ht. simpl in Ht.
  pose proof (all_digits_text (pkg_installed_size p) ltac:(lia)). pose proof (all_digits_text (pkg_size p) ltac:(lia)).
  pose proof depends_text. pose proof description_head_text.
  unfold package_fields. rewrite !Forall_cons. simpl. naive_solver.
Qed.

Lemma size_update n :
  0 <= n <= u64_max ->
  field_update (str "Installed-Size") (to_string n) = Ok (SetInstalledSize n) /\
  field_update (str "Size") (to_string n) = Ok (SetSize n).
Proof.
  intros Hn. split.
  - change (field_update (str "Installed-Size") (to_string n)) with
      (match parse_uint u64_max (to_string n) with
       | Some z => Ok (SetInstalledSize z) | None => Err (InvalidInstalledSize (to_string n)) end : result _ _).
    by rewrite parse_to_string.
  - change (field_update (str "Size") (to_string n)) with
      (match parse_uint u64_max (to_string n) with
       | Some z => Ok (SetSize z) | None => Err (InvalidSize (to_string n)) end : result _ _).
    by rewrite parse_to_string.
Qed.

Lemma package_fields_ok :
  Forall (fun f => good_key f.1.1 = true /\ trim_start f.1.2 = f.1.2 /\ field_update f.1.1 f.1.2 = Ok f.2)
    (package_fields p).
Proof.
  destruct (wr_sizes p Hp) as [H1 H2].
  pose proof (proj1 (size_update _ H1)) as Hi. pose proof (proj2 (size_update _ H2)) as Hs.
  pose proof package_fields_text as Ht. unfold package_fields in *. rewrite !Forall_cons in Ht |- *.
  cbn [fst snd] in *. destruct Ht as ((_ & ?) & (_ & ?) & (_ & ?) & (_ & ?) & (_ & ?) & (_ & ?) & (_ & ?) & (_ & ?)
    & (_ & ?) & (_ & ?) & (_ & ?) & (_ & ?) & (_ & ?) & _).
  split_and!; first [done|constructor|reflexivity].
Qed.

Lemma header_one_line k v : good_key k = true -> one_line v -> one_line (header k v).
Proof.
  intros (_ & _ & _ & _ & Hn & Hc)%good_key_spec [Hn' Hc'].
  split; unfold header; rewrite !not_elem_of_app; (split_and!; [done|vm_compute; set_solver|done]).
Qed.

Lemma fold_line_one_line l : one_line l -> one_line (fold_line l).
Proof.
  intros [Hn Hc]. unfold fold_line. destruct (str_eqb l []); split; vm_compute in *; set_solver.
Qed.

Lemma package_lines_good : good_paragraph (package_lines p).
Proof.
  split; [done|]. unfold package_lines. apply Forall_app. split.
  - pose proof package_fields_text as H1. pose proof package_fields_ok as H2.
    apply Forall_map, Forall_forall. intros [[k v] u] Hin. rewrite Forall_forall in H1, H2.
    destruct (H1 _ Hin) as [Hv _]. destruct (H2 _ Hin) as [Hk _]. cbn [fst snd] in *.
    split; [by apply header_one_line|]. by apply header_shape.
  - apply Forall_map, Forall_forall. intros l Hin. split; [|done]. apply fold_line_one_line.
    assert (Hl : l ∈ split_char NL (pkg_description p)).
    { unfold description_tail in Hin. destruct (split_char NL _); [done|]. by right. }
    split; [by apply (split_char_no_sep NL (pkg_description p))|].
    pose proof (wr_description p Hp) as Hd. rewrite Forall_forall in Hd. by apply Hd.
Qed.

Lemma package_validates : validate_deb822_fields (intercalate [NL] (package_lines p)) = Ok tt.
Proof.
  unfold validate_deb822_fields. destruct package_lines_good as [Hne Hl]. rewrite lines_intercalate by done.
  unfold package_lines. rewrite for_each_app.
  set (kvs := map fst (package_fields p)).
  assert (map (fun f => header f.1.1 f.1.2) (package_fields p) = map (fun kv => header kv.1 kv.2) kvs) as -> by done.
  destruct (validate_headers {| seen := ∅; has_field := false; scalar_identity := false |}
    (take 12 kvs) (str "Description") (description_head (pkg_description p))) as (s' & E & Hf & Hi).
  - change (take 12 kvs ++ _) with kvs. pose proof package_fields_ok as H. apply Forall_map.
    eapply Forall_impl; [exact H|]. naive_solver.
  - change (map (fun kv : rstr * rstr => to_ascii_lowercase kv.1) (take 12 kvs ++ _)) with
      (map (fun f : rstr * rstr * FieldUpdate => to_ascii_lowercase f.1.1) (package_fields p)).
    apply (bool_decide_unpack _). vm_compute. done.
  - apply Forall_forall. intros kv _. apply not_elem_of_empty.
  - change (take 12 kvs ++ _) with kvs in E. rewrite E. cbn [res_bind].
    rewrite validate_continuations; [done|done|by rewrite Hi|].
    apply Forall_map, Forall_forall. intros l _. apply fold_line_shape.
Qed.

(** The first header of the name decides [control_field]. *)
Lemma control_field_headers paragraph field pre k v ls :
  lines paragraph = map (fun kv => header kv.1 kv.2) pre ++ header k v :: ls ->
  Forall (fun kv => good_key kv.1 = true /\ eq_ignore_ascii_case kv.1 field = false) pre ->
  good_key k = true -> eq_ignore_ascii_case k field = true ->
  control_field paragraph field = Some (trim v).
Proof.
  intros E Hpre Hk Heq. unfold control_field. rewrite E. clear E.
  induction Hpre as [|[k0 v0] pre [Hg Hne] _ IH]; cbn [map app List.filter].
  - destruct (header_shape k v Hk) as (_ & H2 & H3). rewrite H2. cbn [negb omap list_omap].
    rewrite H3. cbn [find_map]. by rewrite Heq, trim_space.
  - cbn [fst snd] in *. destruct (header_shape k0 v0 Hg) as (_ & H2 & H3). rewrite H2. cbn [negb omap list_omap].
    rewrite H3. cbn [find_map]. rewrite Hne. exact IH.
Qed.

Lemma required_field pre field k v ls :
  package_lines p = map (fun kv => header kv.1 kv.2) pre ++ header k v :: ls ->
  Forall (fun kv => good_key kv.1 = true /\ eq_ignore_ascii_case kv.1 field = false) pre ->
  good_key k = true -> eq_ignore_ascii_case k field = true -> field_text v -> v ≠ [] ->
  exists w, required_control_field (intercalate [NL] (package_lines p)) field = Ok w.
Proof.
  intros E Hpre Hk Heq [_ Hv] Hne. destruct package_lines_good as [Hl1 Hl2].
  unfold required_control_field. rewrite (control_field_headers _ field pre k v ls);
    [|by rewrite lines_intercalate|done..].
  unfold str_eqb. rewrite bool_decide_false by by apply trim_nonempty. eauto.
Qed.

Lemma description_lines :
  intercalate [NL] (description_head (pkg_description p) :: description_tail (pkg_description p)) = pkg_description p.
Proof.
  unfold description_head, description_tail. destruct (split_char_cons NL (pkg_description p)) as (l & ls & E).
  pose proof (intercalate_split_char NL (pkg_description p)) as H. by rewrite E in *.
Qed.

(** An entry written is the entry read. *)
Lemma parse_rendered_package :
  parse_packages_paragraph (intercalate [NL] (package_lines p)) (pkg_component p) (pkg_suite p) (pkg_source_key p)
  = Ok (Some p).
Proof.
  destruct package_lines_good as [Hl1 Hl2]. destruct (wr_identity p Hp) as (Hi1 & Hi2 & Hi3).
  pose proof (wr_text p Hp) as Ht. rewrite !Forall_cons in Ht. destruct Ht as (Ht1 & Ht2 & Ht3 & _).
  unfold parse_packages_paragraph.
  assert (str_eqb (trim (intercalate [NL] (package_lines p))) [] = false) as ->.
  { apply bool_decide_false, trim_nonempty; done. }
  unfold parse_paragraph_str. rewrite package_validates. cbn [res_bind].
  destruct (required_field [] (str "Package") (str "Package") (pkg_name p) _ eq_refl) as [w1 ->]; [done..|].
  destruct (required_field [(str "Package", pkg_name p)] (str "Version") (str "Version") (pkg_version p) _ eq_refl)
    as [w2 ->]; [by repeat constructor|done..|].
  destruct (required_field [(str "Package", pkg_name p); (str "Version", pkg_version p)] (str "Architecture")
    (str "Architecture") (pkg_architecture p) _ eq_refl) as [w3 ->]; [by repeat constructor|done..|].
  cbn [res_bind]. rewrite lines_intercalate by done. unfold package_lines. rewrite for_each_app.
  rewrite parse_headers by apply package_fields_ok. cbn [res_bind].
  rewrite parse_description.
  - rewrite (description_lines : intercalate [NL] (ps_description (foldl field_step _ (package_fields p)) :: _) = _).
    cbn [res_bind]. unfold package_fields, field_step.
    cbn [foldl apply_update fst snd ps_name ps_version ps_description ps_section ps_priority ps_installed_size
      ps_maintainer ps_architecture ps_depends ps_filename ps_size ps_sha256 ps_homepage current_field].
    rewrite append_dependencies_render by apply (wr_depends p Hp).
    unfold str_eqb. rewrite bool_decide_false by done. cbn [negb ensure res_bind]. by destruct p.
  - done.
  - intros E. change (description_head (pkg_description p) = []) in E.
    destruct (decide (pkg_description p = [])) as [E'|E']; [by rewrite E'|]. by apply (wr_synopsis p Hp) in E'.
  - pose proof (wr_description p Hp) as Hd. unfold description_tail.
    destruct (split_char NL (pkg_description p)); [done|]. by inv Hd.
Qed.
End entry.
