(* ===== verification/DebIndexProofs.v ===== *)
(** The tables of the Debian package index hold the best candidates. *)

From S2P Require Import Prelude DebVersion DebResolver Deb822 Deb822Proofs DebIndex.
Open Scope Z_scope.
Open Scope omg_scope.

(** * What a table promises *)

(** [r] is the best of the packages with the key: it beats every earlier one
    and no later one beats it. *)
Definition picks (key_of : DebianPackage -> rstr) (order : DebianPackage -> DebianPackage -> comparison)
    (pkgs : list DebianPackage) (key : rstr) (r : option DebianPackage) : Prop :=
  match r with
  | None => forall q, q ∈ pkgs -> key_of q ≠ key
  | Some p =>
      exists before after, pkgs = before ++ p :: after /\ key_of p = key /\
        (forall q, q ∈ before -> key_of q = key -> order p q = Gt) /\
        (forall q, q ∈ after -> key_of q = key -> order p q ≠ Lt)
  end.

Arguments picks : simpl never.

Section table.
Context (key_of : DebianPackage -> rstr) (order : DebianPackage -> DebianPackage -> comparison).
Context (better : DebianPackage -> DebianPackage -> bool).
Context (P : DebianPackage -> Prop) (Horder : cmp_order P order).
Context (Hbetter : forall p q, better p q = true <-> order p q = Gt).

Definition table_ok (pkgs : list DebianPackage) (table : gmap rstr nat) : Prop :=
  forall key, picks key_of order pkgs key (idx ← table !! key; pkgs !! idx) /\
    forall idx, table !! key = Some idx -> (idx < length pkgs)%nat.

Lemma picks_other pkgs pkg key r :
  key_of pkg ≠ key -> picks key_of order pkgs key r -> picks key_of order (pkgs ++ [pkg]) key r.
Proof.
  intros Hne. destruct r as [p|]; unfold picks.
  - intros (before & after & -> & Hk & Hb & Ha). exists before, (after ++ [pkg]).
    rewrite <- app_assoc. split_and!; [done..|]. intros q [Hq| ->%list_elem_of_singleton]%elem_of_app; [by apply Ha|done].
  - intros H q [Hq| ->%list_elem_of_singleton]%elem_of_app; [by apply H|done].
Qed.

Lemma picks_first pkgs pkg :
  picks key_of order pkgs (key_of pkg) None -> picks key_of order (pkgs ++ [pkg]) (key_of pkg) (Some pkg).
Proof.
  intros H. exists pkgs, []. split_and!; [done..| |by intros q ?%not_elem_of_nil].
  intros q Hq Hk. by apply H in Hk.
Qed.

(** A new candidate that beats the old one beats all that the old one beat. *)
Lemma picks_better pkgs pkg p :
  Forall P pkgs -> P pkg -> picks key_of order pkgs (key_of pkg) (Some p) ->
  picks key_of order (pkgs ++ [pkg]) (key_of pkg) (Some (if better pkg p then pkg else p)).
Proof.
  intros Hall HP (before & after & -> & Hk & Hb & Ha). apply Forall_app in Hall as [HPb HPa].
  inv HPa as [|?? HPp HPa']. rewrite Forall_forall in HPb, HPa'. destruct (better pkg p) eqn:Eb.
  - apply Hbetter in Eb. exists (before ++ p :: after), []. split_and!; [done..| |by intros q ?%not_elem_of_nil].
    intros q [Hq|[-> |Hq]%elem_of_cons]%elem_of_app Hkq; [|done|].
    + apply (cmp_trans Horder _ pkg p q); auto.
    + specialize (Ha q Hq Hkq). destruct (order p q) eqn:E; [|done|].
      * rewrite (cmp_eq_r P order pkg p q Horder); auto.
      * apply (cmp_trans Horder _ pkg p q); auto.
  - exists before, (after ++ [pkg]). rewrite <- app_assoc. split_and!; [done..|].
    intros q [Hq| ->%list_elem_of_singleton]%elem_of_app Hkq; [by apply Ha|].
    intros Hlt. apply not_true_iff_false in Eb. apply Eb, Hbetter.
    rewrite (cmp_flip Horder p pkg), Hlt by done. done.
Qed.

Lemma offer_ok pkgs table pkg :
  Forall P pkgs -> P pkg -> table_ok pkgs table ->
  table_ok (pkgs ++ [pkg]) (offer better pkgs table (key_of pkg) pkg (length pkgs)).
Proof.
  intros Hall HP Htab key. unfold offer. rewrite length_app.
  assert (Hlast : (pkgs ++ [pkg]) !! length pkgs = Some pkg) by by apply list_lookup_middle.
  destruct (Htab key) as [Hpick Hlt].
  destruct (decide (key_of pkg = key)) as [<-|Hne].
  2:{ assert (Hsame : forall t : gmap rstr nat, t !! key = table !! key ->
        picks key_of order (pkgs ++ [pkg]) key (idx ← t !! key; (pkgs ++ [pkg]) !! idx) /\
        forall idx, t !! key = Some idx -> (idx < length pkgs + length [pkg])%nat).
      { intros t ->. split; [|intros idx H; specialize (Hlt idx H); lia].
        destruct (table !! key) as [idx|]; simpl in *; [|by apply picks_other].
        rewrite lookup_app_l by by apply Hlt. by apply picks_other. }
      destruct (table !! key_of pkg) as [i|]; [destruct (pkgs !! i); [destruct (better _ _)|]|];
        apply Hsame; try done; by rewrite lookup_insert_ne. }
  destruct (table !! key_of pkg) as [i|] eqn:Et; simpl in *.
  - specialize (Hlt i eq_refl). destruct (lookup_lt_is_Some_2 pkgs i Hlt) as [p Hp]. rewrite Hp in *.
    pose proof (picks_better pkgs pkg p Hall HP Hpick) as Hb. destruct (better pkg p).
    + rewrite lookup_insert_eq. simpl. rewrite Hlast. split; [done|]. intros ? [= <-]. lia.
    + rewrite Et. simpl. rewrite lookup_app_l, Hp by done. split; [done|]. intros ? [= <-]. lia.
  - rewrite lookup_insert_eq. simpl. rewrite Hlast. split; [by apply picks_first|]. intros ? [= <-]. lia.
Qed.
End table.

(** * The two orders *)

Section orders.
Context (ARCH : rstr).

Definition host_rank (p : DebianPackage) : Z := Z.b2z (str_eqb (pkg_architecture p) (debian_arch ARCH)).
Definition all_rank (p : DebianPackage) : Z := Z.b2z (str_eqb (pkg_architecture p) (str "all")).
Definition main_rank (p : DebianPackage) : Z := Z.b2z (str_eqb (pkg_component p) (str "main")).

Definition arch_order (p q : DebianPackage) : comparison :=
  then_with (main_rank p ?= main_rank q) (compare_deb_versions (pkg_version p) (pkg_version q)).

(** The host architecture first, [all] before foreign ones, then [main] before
    other components, then the newer version: one criterion after the other. *)
Definition name_order (p q : DebianPackage) : comparison :=
  then_with (host_rank p ?= host_rank q) (then_with (all_rank p ?= all_rank q) (arch_order p q)).

Definition valid_version (p : DebianPackage) : Prop := valid_str (pkg_version p).

Lemma ranked_version_order (rank : DebianPackage -> Z) :
  cmp_order valid_version (fun p q => then_with (rank p ?= rank q) (compare_deb_versions (pkg_version p) (pkg_version q))).
Proof.
  apply cmp_order_lex.
  - apply (cmp_order_ext _ always _ (fun p q => rank p ?= rank q)); [done..|].
    exact (cmp_order_key rank always _ cmp_order_Z).
  - exact (cmp_order_key pkg_version valid_str _ compare_deb_versions_order).
Qed.

Lemma ranked_order (rank : DebianPackage -> Z) order : cmp_order valid_version order ->
  cmp_order valid_version (fun p q => then_with (rank p ?= rank q) (order p q)).
Proof.
  intros Ho. apply cmp_order_lex; [|done]. apply (cmp_order_ext _ always _ (fun p q => rank p ?= rank q)); [done..|].
  exact (cmp_order_key rank always _ cmp_order_Z).
Qed.

Lemma name_order_order : cmp_order valid_version name_order.
Proof. apply ranked_order, ranked_order, ranked_version_order. Qed.

(** The sum of the scores compares as the criteria do. *)
Lemma score_lex p q : (name_candidate_score ARCH p ?= name_candidate_score ARCH q)
  = then_with (host_rank p ?= host_rank q) (then_with (all_rank p ?= all_rank q) (main_rank p ?= main_rank q)).
Proof.
  unfold name_candidate_score, host_rank, all_rank, main_rank.
  destruct (str_eqb (pkg_architecture p) (debian_arch ARCH)) eqn:E1, (str_eqb (pkg_architecture q) (debian_arch ARCH)) eqn:E2;
    destruct (str_eqb (pkg_component p) (str "main")), (str_eqb (pkg_component q) (str "main"));
    destruct (str_eqb (pkg_architecture p) (str "all")) eqn:E3, (str_eqb (pkg_architecture q) (str "all")) eqn:E4; try done;
    unfold str_eqb in *; rewrite ?bool_decide_eq_true, ?bool_decide_eq_false in *; congruence.
Qed.

Lemma then_with_assoc a b c : then_with a (then_with b c) = then_with (then_with a b) c.
Proof. by destruct a. Qed.

Lemma better_name_spec p q : is_better_name_candidate ARCH p q = true <-> name_order p q = Gt.
Proof.
  unfold is_better_name_candidate, name_order, arch_order, version_gt. rewrite (then_with_assoc (all_rank p ?= _)), then_with_assoc, <- score_lex.
  destruct (Z.compare_spec (name_candidate_score ARCH p) (name_candidate_score ARCH q)) as [->| |]; simpl.
  - rewrite Z.eqb_refl. simpl. by destruct (compare_deb_versions _ _).
  - rewrite (proj2 (Z.eqb_neq _ _)) by lia. simpl. rewrite Z.ltb_lt. split; [lia|done].
  - rewrite (proj2 (Z.eqb_neq _ _)) by lia. simpl. rewrite Z.ltb_lt. split; [done|lia].
Qed.

Lemma better_arch_spec p q : is_better_arch_candidate p q = true <-> arch_order p q = Gt.
Proof.
  unfold is_better_arch_candidate, arch_order, main_rank, version_gt.
  destruct (str_eqb (pkg_component p) (str "main")), (str_eqb (pkg_component q) (str "main")); simpl;
    try done; by destruct (compare_deb_versions _ _).
Qed.

(** * The index *)

Definition index_of (pkgs : list DebianPackage) : DebianPackageIndex := foldl (index_add_package ARCH) index_new pkgs.

Definition arch_key (p : DebianPackage) : rstr := name_arch_key (pkg_name p) (pkg_architecture p).
Definition component_key (p : DebianPackage) : rstr :=
  name_arch_component_key (pkg_name p) (pkg_architecture p) (pkg_component p).

(** The last package of the key, as a map that overwrites has it. *)
Definition picks_last (key_of : DebianPackage -> rstr) (pkgs : list DebianPackage) (key : rstr)
    (r : option DebianPackage) : Prop :=
  match r with
  | None => forall q, q ∈ pkgs -> key_of q ≠ key
  | Some p =>
      exists before after, pkgs = before ++ p :: after /\ key_of p = key /\ forall q, q ∈ after -> key_of q ≠ key
  end.

Record deb_index_inv (self : DebianPackageIndex) (pkgs : list DebianPackage) : Prop := {
  di_packages : idx_packages self = pkgs;
  di_names : table_ok pkg_name name_order pkgs (idx_name self);
  di_archs : table_ok arch_key arch_order pkgs (idx_name_arch self);
  di_components : forall key, picks_last component_key pkgs key (index_lookup (idx_name_arch_component self) self key)
    /\ forall idx, idx_name_arch_component self !! key = Some idx -> (idx < length pkgs)%nat
}.

Lemma index_new_inv : deb_index_inv index_new [].
Proof.
  split; [done|..]; intros key; unfold index_lookup; cbn [index_new idx_name idx_name_arch idx_name_arch_component];
    rewrite lookup_empty; (split; [by intros q ?%not_elem_of_nil|done]).
Qed.

Lemma index_add_package_inv self pkgs pkg :
  Forall valid_version pkgs -> valid_version pkg -> deb_index_inv self pkgs ->
  deb_index_inv (index_add_package ARCH self pkg) (pkgs ++ [pkg]).
Proof.
  intros Hall HP [Hp Hn Ha Hc]. subst pkgs. split; cbn [index_add_package idx_packages idx_name idx_name_arch]; [done|..].
  - apply (offer_ok pkg_name name_order (is_better_name_candidate ARCH) valid_version
      name_order_order better_name_spec); done.
  - apply (offer_ok arch_key arch_order is_better_arch_candidate valid_version
      (ranked_version_order _) better_arch_spec); done.
  - intros key. destruct (Hc key) as [Hpick Hlt]. unfold index_lookup in *. cbn [index_add_package idx_packages idx_name_arch_component].
    fold (component_key pkg). rewrite length_app. destruct (decide (component_key pkg = key)) as [<-|Hne].
    + rewrite lookup_insert_eq. simpl. rewrite list_lookup_middle by done.
      split; [exists (idx_packages self), []; split_and!; [done..|by intros q ?%not_elem_of_nil]|].
      intros ? [= <-]. lia.
    + rewrite lookup_insert_ne by done. split; [|intros idx H; specialize (Hlt idx H); lia].
      destruct (idx_name_arch_component self !! key) as [i|]; simpl in *.
      * rewrite lookup_app_l by by apply Hlt. destruct (idx_packages self !! i); simpl in *.
        -- destruct Hpick as (before & after & -> & Hk & Hq). exists before, (after ++ [pkg]).
           rewrite <- app_assoc. split_and!; [done..|].
           intros q [?| ->%list_elem_of_singleton]%elem_of_app; [by apply Hq|done].
        -- intros q [?| ->%list_elem_of_singleton]%elem_of_app; [by apply Hpick|done].
      * intros q [?| ->%list_elem_of_singleton]%elem_of_app; [by apply Hpick|done].
Qed.

Lemma index_of_inv pkgs : Forall valid_version pkgs -> deb_index_inv (index_of pkgs) pkgs.
Proof.
  unfold index_of. induction pkgs as [|pkg pkgs IH] using rev_ind; intros H; [apply index_new_inv|].
  apply Forall_app in H as [H1 H2]. rewrite Forall_singleton in H2. rewrite foldl_app. cbn [foldl].
  apply index_add_package_inv; [done|done|by apply IH].
Qed.
End orders.

(** * Theorems *)

Lemma index_lookup_picks ARCH key_of order self pkgs table key :
  deb_index_inv ARCH self pkgs -> table_ok key_of order pkgs table ->
  picks key_of order pkgs key (index_lookup table self key).
Proof. intros H Ht. unfold index_lookup. rewrite (di_packages _ _ _ H). apply Ht. Qed.

(** C36: [get] answers with the best entry of the name, whatever order the
    Packages files were read in: it beats every entry of that name that came
    before it and none that came after beats it, where an entry of the host
    architecture comes before any other, among the others one of [all] before
    one of a foreign architecture, then one of [main] before one of another
    component, and then the newer Debian version. It answers nothing
    exactly when no entry has the name. *)
Theorem get_is_best_candidate ARCH pkgs name :
  Forall valid_version pkgs ->
  picks pkg_name (name_order ARCH) pkgs name (get (index_of ARCH pkgs) name).
Proof.
  intros H. pose proof (index_of_inv ARCH pkgs H) as Hi.
  exact (index_lookup_picks ARCH _ _ _ _ _ name Hi (di_names _ _ _ Hi)).
Qed.

Lemma split_once_key name rest : (ch ":" ∉ name) -> split_once (ch ":") (name ++ [ch ":"] ++ rest) = Some (name, rest).
Proof. intros H. by apply split_once_Some. Qed.

Lemma name_arch_key_inj n a n' a' :
  (ch ":" ∉ n) -> (ch ":" ∉ n') -> name_arch_key n a = name_arch_key n' a' -> n = n' /\ a = a'.
Proof.
  unfold name_arch_key. intros H H' E. pose proof (split_once_key n a H) as E1.
  rewrite E, (split_once_key n' a' H') in E1. by simplify_eq.
Qed.

Lemma picks_le key_of order P pkgs key p :
  cmp_order P order -> Forall P pkgs -> picks key_of order pkgs key (Some p) ->
  key_of p = key /\ forall q, q ∈ pkgs -> key_of q = key -> order p q ≠ Lt.
Proof.
  intros Ho HP (before & after & -> & Hk & Hb & Ha). split; [done|].
  apply Forall_app in HP as [_ [Hp _]%Forall_cons].
  intros q [Hq|[-> |Hq]%elem_of_cons]%elem_of_app Hkq; [|by rewrite (cmp_refl P order p Ho)|by apply Ha].
  by rewrite Hb.
Qed.

(** a query with an architecture answers with the best entry of that
    name and architecture when there is one, and otherwise with the best
    entry of the name on any architecture. *)
Theorem get_query_name_arch ARCH pkgs name arch :
  Forall valid_version pkgs -> Forall (fun p => (ch ":" ∉ pkg_name p)) pkgs ->
  (ch ":" ∉ name) -> (ch ":" ∉ arch) ->
  let answer := get_query (index_of ARCH pkgs) (name_arch_key name arch) in
  let matches q := pkg_name q = name /\ pkg_architecture q = arch in
  (exists p, answer = Some p /\ matches p /\ forall q, q ∈ pkgs -> matches q -> arch_order p q ≠ Lt) \/
  ((forall q, q ∈ pkgs -> ~ matches q) /\ picks pkg_name (name_order ARCH) pkgs name answer).
Proof.
  intros Hv Hc Hn Ha answer matches. pose proof (index_of_inv ARCH pkgs Hv) as Hi.
  assert (Hkey : forall q, q ∈ pkgs -> arch_key q = name_arch_key name arch <-> matches q).
  { intros q Hq. rewrite Forall_forall in Hc. unfold arch_key. split.
    - intros E. by apply name_arch_key_inj in E; [|by apply Hc|].
    - by intros [-> ->]. }
  assert (Eq : answer = or_else (get_name_arch (index_of ARCH pkgs) name arch) (get (index_of ARCH pkgs) name)).
  { unfold answer, get_query, name_arch_key at 1. rewrite split_once_key by done. by rewrite (proj2 (split_once_None _ _)). }
  pose proof (index_lookup_picks ARCH _ _ _ _ _ (name_arch_key name arch) Hi (di_archs _ _ _ Hi)) as Hp.
  unfold get_name_arch in Eq. destruct (index_lookup _ _ (name_arch_key name arch)) as [p|].
  - left. exists p. destruct (picks_le _ _ _ _ _ _ (ranked_version_order _) Hv Hp) as [Hk Hbest].
    destruct Hp as (before & after & -> & _). split_and!; [done|apply Hkey; [|done]; set_solver|].
    intros q Hq Hm. apply Hbest; [done|]. by apply Hkey.
  - right. split; [intros q Hq Hm; by apply (Hp q Hq), Hkey|].
    rewrite Eq. exact (index_lookup_picks ARCH _ _ _ _ _ name Hi (di_names _ _ _ Hi)).
Qed.

(** [best_candidates] lists one package per name, in the order of the
    names: exactly the answers of [get], and every name of the index is
    there. *)
Theorem best_candidates_complete ARCH pkgs :
  Forall valid_version pkgs ->
  let self := index_of ARCH pkgs in
  StronglySorted str_le (map pkg_name (best_candidates self)) /\
  NoDup (map pkg_name (best_candidates self)) /\
  (forall p, p ∈ best_candidates self <-> get self (pkg_name p) = Some p) /\
  (forall q, q ∈ pkgs -> pkg_name q ∈ map pkg_name (best_candidates self)).
Proof.
  intros Hv self. pose proof (index_of_inv ARCH pkgs Hv) as Hi. fold self in Hi.
  set (names := sort_strs (map fst (map_to_list (idx_name self)))).
  assert (Hget : forall name p, get self name = Some p -> pkg_name p = name).
  { intros name p E. pose proof (index_lookup_picks ARCH _ _ _ _ _ name Hi (di_names _ _ _ Hi)) as Hp.
    unfold get in E. rewrite E in Hp. destruct Hp as (? & ? & _ & Hk & _). done. }
  assert (Hin : forall name, name ∈ names <-> exists p, get self name = Some p).
  { intros name. unfold names. rewrite elem_of_sort_strs, list_elem_of_fmap. split.
    - intros ([k i] & -> & Hk%elem_of_map_to_list). destruct (di_names _ _ _ Hi k) as [_ Hlt].
      unfold get, index_lookup. simpl. rewrite Hk, (di_packages _ _ _ Hi). simpl.
      apply lookup_lt_is_Some_2. by apply Hlt.
    - intros [p E]. unfold get, index_lookup in E. destruct (idx_name self !! name) as [i|] eqn:Ei; [|done].
      exists (name, i). by rewrite elem_of_map_to_list. }
  assert (Hmap : map pkg_name (best_candidates self) = names).
  { unfold best_candidates. fold names. clearbody names.
    assert (Hall : forall n, n ∈ names -> exists p, get self n = Some p) by (intros n; apply Hin). clear Hin.
    induction names as [|n names IH]; [done|]. simpl.
    destruct (Hall n ltac:(by left)) as [p E]. rewrite E. simpl. rewrite (Hget _ _ E). f_equal.
    apply IH. intros m Hm. apply Hall. by right. }
  rewrite Hmap. split_and!.
  - apply sort_strs_sorted.
  - unfold names. rewrite sort_strs_perm. apply NoDup_fst_map_to_list.
  - intros p. unfold best_candidates. rewrite list_elem_of_omap. split.
    + intros (n & Hn & E). by rewrite (Hget _ _ E).
    + intros E. exists (pkg_name p). split; [|done]. apply Hin. eauto.
  - intros q Hq. apply Hin. pose proof (index_lookup_picks ARCH _ _ _ _ _ (pkg_name q) Hi (di_names _ _ _ Hi)) as Hp.
    unfold get. destruct (index_lookup _ _ _) as [p|]; [eauto|]. by apply Hp in Hq.
Qed.

(** ** Rebuilding from files *)

(** A Packages file: its name, its entries and its size on disk. *)
Record ListFile := {
  lf_name : rstr;
  lf_packages : list DebianPackage;
  lf_encoded : Z
}.

Definition lf_text (f : ListFile) : rstr := render_file (map package_lines (lf_packages f)).

(** The entries carry what the file name says about their origin. *)
Definition lf_ok (f : ListFile) : Prop :=
  0 <= lf_encoded f /\
  Forall (fun p => writable p /\ pkg_component p = extract_component_from_path (lf_name f) /\
                   pkg_suite p = extract_suite_from_path (lf_name f) /\
                   pkg_source_key p = extract_source_key_from_path (lf_name f)) (lf_packages f).

Definition total (size : ListFile -> Z) (files : list ListFile) : Z := foldr (fun f acc => size f + acc) 0 files.

Section rebuild.
Context (ARCH : rstr) {E : Type} (read : rstr -> Z -> Z -> result (rstr * Z) E) (files : list ListFile).
(** Reading answers the text and size of a file that fits both limits. *)
Context (Hread : forall f encoded_limit limit, f ∈ files -> lf_encoded f <= encoded_limit ->
  str_len (lf_text f) <= limit -> read (lf_name f) encoded_limit limit = Ok (lf_text f, lf_encoded f)).

Lemma add_paragraphs_render f ps index :
  Forall (fun p => writable p /\ pkg_component p = extract_component_from_path (lf_name f) /\
                   pkg_suite p = extract_suite_from_path (lf_name f) /\
                   pkg_source_key p = extract_source_key_from_path (lf_name f)) ps ->
  for_each (add_paragraph ARCH (E := E) (extract_component_from_path (lf_name f)) (extract_suite_from_path (lf_name f))
      (extract_source_key_from_path (lf_name f))) index (map (intercalate [NL]) (map package_lines ps))
  = Ok (foldl (index_add_package ARCH) index ps).
Proof.
  intros H. revert index. induction H as [|p ps (Hw & Hc & Hs & Hk) _ IH]; intros index; [done|].
  cbn [map for_each foldl]. unfold add_paragraph at 1. rewrite <- Hc, <- Hs, <- Hk.
  rewrite parse_rendered_package by done. cbn [map_err res_bind]. rewrite Hc, Hs, Hk. apply IH.
Qed.

Lemma add_files_render fs er r index :
  Forall (fun f => f ∈ files /\ lf_ok f) fs ->
  total lf_encoded fs <= er -> total (fun f => str_len (lf_text f)) fs <= r ->
  exists er' r', for_each (add_file ARCH read) (er, r, index) (map lf_name fs)
    = Ok (er', r', foldl (index_add_package ARCH) index (fs ≫= lf_packages)).
Proof.
  intros H. revert er r index. induction H as [|f fs [Hin [H0 Hok]] Hfs IH]; intros er r index He Hr; [by eexists _, _|].
  simpl in He, Hr.
  assert (0 <= total lf_encoded fs /\ 0 <= total (fun f => str_len (lf_text f)) fs) as [T1 T2].
  { clear -Hfs. induction Hfs as [|g fs [_ [Hg _]] _ IHf]; simpl; [done|]. pose proof (str_len_nonneg (lf_text g)). lia. }
  pose proof (str_len_nonneg (lf_text f)).
  cbn [map for_each]. unfold add_file at 1. rewrite Hread by (done || lia). cbn [map_err res_bind].
  unfold checked_sub64. rewrite (proj2 (Z.ltb_ge er _)), (proj2 (Z.ltb_ge r _)) by lia. cbn [ok_or res_bind].
  assert (status_paragraphs (lf_text f) = map (intercalate [NL]) (map package_lines (lf_packages f))) as ->.
  { apply status_paragraphs_render. apply Forall_map. eapply Forall_impl; [exact Hok|]. intros p (Hw & _). by apply package_lines_good. }
  rewrite add_paragraphs_render by done. cbn [res_bind]. rewrite bind_cons, foldl_app. apply IH; lia.
Qed.

(** rebuilding the index from Packages files that were written out reads
    every entry back: the index is the one with all packages added in the
    order of the files, provided the files together stay within the byte
    budgets. *)
Theorem rebuild_reads_written now :
  Forall lf_ok files ->
  total lf_encoded files <= MAX_INDEX_SNAPSHOT_BYTES ->
  total (fun f => str_len (lf_text f)) files <= MAX_INDEX_SNAPSHOT_BYTES ->
  exists index, rebuild_package_index ARCH read now (map lf_name files) = Ok index /\
    idx_packages index = files ≫= lf_packages /\ updated_at index = now /\
    forall query, get_query index query = get_query (index_of ARCH (files ≫= lf_packages)) query.
Proof.
  intros Hok He Hr. unfold rebuild_package_index.
  destruct (add_files_render files MAX_INDEX_SNAPSHOT_BYTES MAX_INDEX_SNAPSHOT_BYTES index_new) as (er & r & ->); [|done..|].
  { apply Forall_forall. intros f Hf. rewrite Forall_forall in Hok. auto. }
  cbn [res_bind]. eexists. split_and!; [done| |done|done]. cbn [idx_packages].
  generalize (files ≫= lf_packages) as ps. intros ps. induction ps as [|x ps IH] using rev_ind; [done|].
  rewrite foldl_app. cbn [foldl index_add_package idx_packages]. by rewrite IH.
Qed.
End rebuild.

(** ** Witnesses *)

Definition sample_file_name : rstr := str "deb.debian.org_debian_dists_bookworm_main_binary-amd64_Packages".

Definition sample_package (name version arch : string) : DebianPackage :=
  {| pkg_name := str name; pkg_version := str version; pkg_description := str "Tool" ++ [NL] ++ str "Long text";
     pkg_section := str "utils"; pkg_priority := str "optional"; pkg_installed_size := 12; pkg_maintainer := [];
     pkg_architecture := str arch; pkg_depends := [str "libc6 (>= 2.36)"; str "zlib1g"];
     pkg_filename := str "pool/main/t.deb"; pkg_size := 340; pkg_sha256 := str "ab"; pkg_homepage := [];
     pkg_component := extract_component_from_path sample_file_name;
     pkg_suite := extract_suite_from_path sample_file_name;
     pkg_source_key := extract_source_key_from_path sample_file_name |}.

Definition sample_packages : list DebianPackage :=
  [sample_package "tool" "1.0" "i386"; sample_package "tool" "0.9" "amd64"; sample_package "tool" "1.1" "amd64"].

Lemma sample_packages_valid : Forall valid_version sample_packages.
Proof. repeat constructor; by apply valid_str_compute. Qed.

Lemma get_is_best_candidate_witness :
  exists before after, sample_packages = before ++ sample_package "tool" "1.1" "amd64" :: after.
Proof.
  pose proof (get_is_best_candidate (str "x86_64") sample_packages (str "tool") sample_packages_valid) as H.
  replace (get _ _) with (Some (sample_package "tool" "1.1" "amd64")) in H by (vm_compute; reflexivity).
  destruct H as (before & after & E & _). by exists before, after.
Defined.

Lemma get_query_name_arch_witness :
  exists p, get_query (index_of (str "x86_64") sample_packages) (name_arch_key (str "tool") (str "i386")) = Some p /\
    pkg_version p = str "1.0".
Proof.
  destruct (get_query_name_arch (str "x86_64") sample_packages (str "tool") (str "i386") sample_packages_valid)
    as [(p & E & (_ & Ha) & _)|[H _]].
  - repeat constructor; apply (bool_decide_unpack _); vm_compute; done.
  - apply (bool_decide_unpack _); vm_compute; done.
  - apply (bool_decide_unpack _); vm_compute; done.
  - exists p. split; [exact E|]. vm_compute in E. injection E as <-. done.
  - exfalso. apply (H (sample_package "tool" "1.0" "i386")); [by left|done].
Defined.

Lemma best_candidates_complete_witness :
  map pkg_version (best_candidates (index_of (str "x86_64") sample_packages)) = [str "1.1"] /\
  NoDup (map pkg_name (best_candidates (index_of (str "x86_64") sample_packages))).
Proof.
  destruct (best_candidates_complete (str "x86_64") sample_packages sample_packages_valid) as (_ & H & _).
  split; [vm_compute; done|exact H].
Defined.

Definition sample_list_file : ListFile :=
  {| lf_name := sample_file_name; lf_packages := [sample_package "tool" "1.0" "i386"]; lf_encoded := 100 |}.

Lemma sample_writable : writable (sample_package "tool" "1.0" "i386").
Proof.
  split; unfold field_text, dep_text, one_line; apply (bool_decide_unpack _); vm_compute; done.
Qed.

Lemma rebuild_reads_written_witness :
  exists index, rebuild_package_index (str "x86_64") (fun _ _ _ => Ok (lf_text sample_list_file, 100) : result _ unit) 7
    [sample_file_name] = Ok index /\ idx_packages index = [sample_package "tool" "1.0" "i386"].
Proof.
  destruct (rebuild_reads_written (str "x86_64") (fun _ _ _ => Ok (lf_text sample_list_file, 100) : result _ unit)
    [sample_list_file]) with (now := 7) as (index & H1 & H2 & _).
  - intros f el l Hf%list_elem_of_singleton _ _. by subst f.
  - apply Forall_singleton. split; [done|]. apply Forall_singleton. split_and!; [apply sample_writable|done..].
  - done.
  - vm_compute. done.
  - exists index. split; [exact H1|exact H2].
Defined.
