(* ===== verification/DpkgStatus.v ===== *)
(** The installed side of Debian: the readers of the dpkg status file and of
    APT's extended states in src/src/package_managers/debian_db/db.rs.

    The inventory of installed packages, the auto-installed marks, dependency
    and size queries, update selection and the orphan search are translated.
    The files are their decoded text; reading them and the process-wide cache
    of the inventory are not modelled. *)

From S2P Require Import Prelude DebVersion DebResolver Deb822.
Open Scope Z_scope.
Open Scope omg_scope.

(** * Status paragraphs *)

Record StatusScan := {
  st_name : rstr;
  st_version : rstr;
  st_description : rstr;
  st_arch : rstr;
  st_field : option rstr
}.

Definition status_line (s : StatusScan) (line : rstr) : StatusScan :=
  if is_continuation line then
    match st_field s with
    | Some key =>
        if str_eqb key (str "Description") && negb (str_eqb (st_description s) [])
        then {| st_name := st_name s; st_version := st_version s;
                st_description := fold_description (st_description s) line;
                st_arch := st_arch s; st_field := st_field s |}
        else s
    | None => s
    end
  else
    match split_once (ch ":") line with
    | None =>
        {| st_name := st_name s; st_version := st_version s; st_description := st_description s;
           st_arch := st_arch s; st_field := None |}
    | Some (key, rest) =>
        let value := trim_start rest in
        {| st_name := if str_eqb key (str "Package") then value else st_name s;
           st_version := if str_eqb key (str "Version") then value else st_version s;
           st_description := if str_eqb key (str "Description") then value else st_description s;
           st_arch := if str_eqb key (str "Architecture") then value else st_arch s;
           st_field := Some key |}
    end.

Definition parse_status_paragraph (paragraph : rstr) : option (rstr * rstr * rstr * rstr) :=
  _ ← ok (validate_deb822_fields paragraph);
  name ← ok (required_control_field paragraph (str "Package"));
  let s := foldl status_line
    {| st_name := name; st_version := default [] (control_field paragraph (str "Version")); st_description := [];
       st_arch := default [] (control_field paragraph (str "Architecture")); st_field := None |} (lines paragraph) in
  if str_eqb (st_name s) [] then None
  else Some (st_name s, st_version s, st_description s, st_arch s).

(** * The security inventory *)

Record SecurityPackage := {
  sp_name : rstr;
  sp_version : rstr;
  sp_advisory_source : option (rstr * rstr);
  sp_architecture : option rstr;
  sp_description : rstr;
  sp_licenses : list rstr
}.

Inductive InventoryError :=
| ControlInvalid (e : ControlError)
| InvalidValue (field : rstr)
| MultiArchWithoutArch
| InvalidStatus (status : rstr)
| IncompleteState (status : rstr)
| FieldCount (field : rstr)
| NoPackageName
| NoVersionOrArch (name : rstr)
| DuplicateIdentity (name arch : rstr)
| DuplicateSource (name : rstr)
| InvalidSourceVersion
| InvalidSourceIdentity (name : rstr)
| EmptyStatusFile.

Definition has_ascii_whitespace (s : rstr) : bool := existsb is_ascii_whitespace (as_bytes s).

(** The values of the fields of that name, on any line. *)
Definition named_fields (paragraph field : rstr) : list rstr :=
  omap (fun line => '(key, value) ← split_once (ch ":") line;
                    if eq_ignore_ascii_case key field then Some value else None) (lines paragraph).

Definition check_value (paragraph field : rstr) : result unit InventoryError :=
  match control_field paragraph field with
  | Some value => ensure (negb (str_eqb value []) && negb (has_ascii_whitespace value)) (InvalidValue field)
  | None => Ok tt
  end.

Definition check_multi_arch (paragraph : rstr) : result unit InventoryError :=
  if bool_decide (control_field paragraph (str "Multi-Arch") = Some (str "same")) then
    ensure match control_field paragraph (str "Architecture") with
           | Some value => negb (str_eqb value []) && negb (str_eqb value (str "all"))
           | None => false
           end MultiArchWithoutArch
  else Ok tt.

Definition valid_want (want : rstr) : bool :=
  existsb (str_eqb want) [str "install"; str "hold"; str "deinstall"; str "purge"; str "unknown"].

(** The three words of a sound [Status] field: its third is the state. *)
Definition status_state (status : rstr) : result rstr InventoryError :=
  match split_whitespace status with
  | [want; flag; state] =>
      if valid_want want && str_eqb flag (str "ok") then Ok state else Err (InvalidStatus status)
  | _ => Err (InvalidStatus status)
  end.

Definition source_name_ok (name : rstr) : bool :=
  let bytes := as_bytes name in
  (2 <=? length bytes)%nat
  && match bytes with b :: _ => is_ascii_alphanumeric b | [] => false end
  && forallb (fun b => is_ascii_lowercase b || is_ascii_digit b || (b =? ch "+") || (b =? ch "-") || (b =? ch ".")) bytes.

Definition source_version_ok (version : rstr) : bool :=
  negb (str_eqb version []) && forallb (fun b => negb (is_ascii_whitespace b || (b =? ch ")"))) (as_bytes version).

Definition advisory_source (paragraph name version : rstr) : result (option (rstr * rstr)) InventoryError :=
  match map trim (named_fields paragraph (str "Source")) with
  | [] => Ok None
  | [source] =>
      let? sv :=
        match split_once_str (str " (") source with
        | Some (source_name, suffix) =>
            match strip_suffix (str ")") suffix with
            | Some source_version => Ok (source_name, source_version)
            | None => Err InvalidSourceVersion
            end
        | None => Ok (source, version)
        end in
      let '(source_name, source_version) := sv in
      ensure (source_name_ok source_name && source_version_ok source_version) (InvalidSourceIdentity name) ;?
      Ok (if negb (str_eqb source_name name) || negb (str_eqb source_version version)
          then Some (source_name, source_version) else None)
  | _ => Err (DuplicateSource name)
  end.

Definition installed_entry (paragraph : rstr) (identities : gset (rstr * rstr)) : result SecurityPackage InventoryError :=
  let? _ := map_err ControlInvalid (required_control_field paragraph (str "Architecture")) in
  for_each (fun _ field => ensure (length (named_fields paragraph field) =? 1)%nat (FieldCount field)) tt
    [str "Package"; str "Version"; str "Architecture"] ;?
  let? e := ok_or (parse_status_paragraph paragraph) NoPackageName in
  let '(name, version, description, architecture) := e in
  ensure (negb (str_eqb version []) && negb (str_eqb architecture [])) (NoVersionOrArch name) ;?
  ensure (negb (bool_decide ((name, architecture) ∈ identities))) (DuplicateIdentity name architecture) ;?
  let? source := advisory_source paragraph name version in
  Ok {| sp_name := name; sp_version := version; sp_advisory_source := source; sp_architecture := Some architecture;
        sp_description := description; sp_licenses := [] |}.

Definition Inventory : Type := list SecurityPackage * gset (rstr * rstr).

Definition inventory_paragraph (s : Inventory) (paragraph : rstr) : result Inventory InventoryError :=
  let '(packages, identities) := s in
  if str_eqb (trim paragraph) [] then Ok s
  else
    map_err ControlInvalid (validate_deb822_fields paragraph) ;?
    let? _ := map_err ControlInvalid (required_control_field paragraph (str "Package")) in
    check_value paragraph (str "Version") ;?
    check_value paragraph (str "Architecture") ;?
    check_multi_arch paragraph ;?
    let? status := map_err ControlInvalid (required_control_field paragraph (str "Status")) in
    let? state := status_state status in
    if str_eqb state (str "not-installed") then Ok s
    else
      let? _ := map_err ControlInvalid (required_control_field paragraph (str "Version")) in
      if str_eqb state (str "config-files") then Ok s
      else
        ensure (str_eqb state (str "installed")) (IncompleteState status) ;?
        let? p := installed_entry paragraph identities in
        Ok (packages ++ [p], {[(sp_name p, default [] (sp_architecture p))]} ∪ identities).

Definition parse_security_inventory (contents : rstr) : result (list SecurityPackage) InventoryError :=
  let? s := for_each inventory_paragraph ([], ∅) (status_paragraphs contents) in
  Ok s.1.

Definition validate_native_status (contents : rstr) : result unit InventoryError :=
  ensure (negb (str_eqb (trim contents) [])) EmptyStatusFile ;?
  let? _ := parse_security_inventory contents in
  Ok tt.

(** * Auto-installed marks *)

(** The first line with exactly that key. *)
Definition exact_field (paragraph name : rstr) : option rstr :=
  find_map (fun line => match split_once (ch ":") line with
                        | Some (key, value) => if str_eqb key name then Some (trim value) else None
                        | None => None
                        end) (lines paragraph).

Definition non_empty (o : option rstr) : option rstr :=
  v ← o; if str_eqb v [] then None else Some v.

Definition auto_installed_mark (paragraph : rstr) : option rstr :=
  name ← non_empty (exact_field paragraph (str "Package"));
  if bool_decide (exact_field paragraph (str "Auto-Installed") = Some (str "1"))
  then Some match non_empty (exact_field paragraph (str "Architecture")) with
            | Some arch => name ++ [ch ":"] ++ arch
            | None => name
            end
  else None.

Definition auto_installed_names_from_extended_states (content : rstr) : gset rstr :=
  list_to_set (omap auto_installed_mark (status_paragraphs content)).

Section installed.
Context (ARCH : rstr).

Definition is_package_auto_installed (auto_installed : gset rstr) (package_name : rstr) : bool :=
  let qualified := if contains_char (ch ":") package_name then package_name
                   else package_name ++ [ch ":"] ++ debian_arch ARCH in
  bool_decide (qualified ∈ auto_installed) || bool_decide (package_name ∈ auto_installed).

Definition dpkg_entry (auto_installed : gset rstr) (package : SecurityPackage) : result DpkgPackageEntry InventoryError :=
  let? architecture := ok_or (sp_architecture package) (NoVersionOrArch (sp_name package)) in
  let auto :=
    bool_decide (sp_name package ++ [ch ":"] ++ architecture ∈ auto_installed)
    || bool_decide (sp_name package ∈ auto_installed)
    || (str_eqb architecture (str "all")
        && bool_decide (sp_name package ++ [ch ":"] ++ debian_arch ARCH ∈ auto_installed)) in
  Ok {| dpkg_name := sp_name package; dpkg_version := sp_version package; dpkg_description := sp_description package;
        dpkg_architecture := architecture; dpkg_is_explicit := negb auto |}.

(** [list_installed_from_paths] on a cache miss. *)
Definition list_installed (status extended_states : rstr) : result (list DpkgPackageEntry) InventoryError :=
  let? packages := parse_security_inventory status in
  try_map (dpkg_entry (auto_installed_names_from_extended_states extended_states)) packages.
End installed.

(** * Queries *)

Definition find_prefixed (prefix : rstr) (paragraph : rstr) : option rstr :=
  find_map (strip_prefix prefix) (lines paragraph).

Definition status_paragraph_is_installed (paragraph : rstr) : bool :=
  match find_prefixed (str "Status:") paragraph with
  | None => false
  | Some status =>
      match split_whitespace status with
      | [_; flag; state] => str_eqb flag (str "ok") && str_eqb state (str "installed")
      | _ => false
      end
  end.

Definition installed_paragraphs (content : rstr) : list rstr :=
  List.filter status_paragraph_is_installed (status_paragraphs content).

Definition append_dependency_names (value : rstr) (out : list rstr) : list rstr :=
  out ++ (split_char (ch ",") value ≫= fun dep =>
    split_char (ch "|") dep ≫= fun alternative =>
      match split_whitespace alternative with
      | word :: _ =>
          let dep_name := split_next (ch ":") word in
          if str_eqb dep_name [] then [] else [dep_name]
      | [] => []
      end).

Record DependencyScan := {
  ds_dependencies : list rstr;
  ds_value : rstr;
  ds_selected : bool
}.

Definition dependency_line (wanted : list rstr) (s : DependencyScan) (line : rstr) : DependencyScan :=
  if is_continuation line then
    if ds_selected s
    then {| ds_dependencies := ds_dependencies s; ds_value := ds_value s ++ str " " ++ trim line; ds_selected := true |}
    else s
  else
    let dependencies := if ds_selected s then append_dependency_names (ds_value s) (ds_dependencies s)
                        else ds_dependencies s in
    match split_once (ch ":") line with
    | Some (name, contents) =>
        if existsb (fun field => eq_ignore_ascii_case name field) wanted
        then {| ds_dependencies := dependencies; ds_value := trim contents; ds_selected := true |}
        else {| ds_dependencies := dependencies; ds_value := []; ds_selected := false |}
    | None => {| ds_dependencies := dependencies; ds_value := []; ds_selected := false |}
    end.

Definition status_dependency_names (paragraph : rstr) (wanted : list rstr) : list rstr :=
  let s := foldl (dependency_line wanted) {| ds_dependencies := []; ds_value := []; ds_selected := false |}
             (lines paragraph) in
  if ds_selected s then append_dependency_names (ds_value s) (ds_dependencies s) else ds_dependencies s.

(** The last [Package: ] line of a paragraph, empty without one. *)
Definition current_package (paragraph : rstr) : rstr :=
  foldl (fun pkg line => match strip_prefix (str "Package: ") line with Some p => trim p | None => pkg end)
    [] (lines paragraph).

Definition dependencies_from_status (content package_name : rstr) : list rstr * list rstr :=
  foldl (fun '(dependencies, reverse_deps) paragraph =>
    let current_deps := status_dependency_names paragraph [str "Depends"; str "Pre-Depends"] in
    let current_pkg := current_package paragraph in
    if str_eqb current_pkg package_name then (current_deps, reverse_deps)
    else if negb (str_eqb current_pkg []) && existsb (fun dep => str_eqb dep package_name) current_deps
    then (dependencies, reverse_deps ++ [current_pkg])
    else (dependencies, reverse_deps)) ([], []) (installed_paragraphs content).

Definition installed_version_from_status (content package_name : rstr) : option rstr :=
  find_map (fun paragraph =>
    name ← find_prefixed (str "Package: ") paragraph;
    if str_eqb (trim name) package_name then trim <$> find_prefixed (str "Version: ") paragraph else None)
    (installed_paragraphs content).

(** ** Sizes *)

Definition i64_max : Z := 2 ^ 63 - 1.

(** [str::parse::<i64>]. *)
Definition parse_i64 (s : rstr) : option Z :=
  match s with
  | [] => None
  | c :: digits =>
      if c =? ch "-"
      then match digits with [] => None | _ => Z.opp <$> parse_digits (i64_max + 1) 0 digits end
      else parse_uint i64_max s
  end.

Inductive SizeError := BadInstalledSize (name size : rstr) | SizeOverflow (name size : rstr).

Definition checked_mul_i64 (a b : Z) : option Z :=
  if (- (i64_max + 1) <=? a * b) && (a * b <=? i64_max) then Some (a * b) else None.

Definition status_size_bytes (size_str package_name : rstr) : result Z SizeError :=
  let? kib := ok_or (parse_i64 (trim size_str)) (BadInstalledSize package_name size_str) in
  ok_or (checked_mul_i64 kib 1024) (SizeOverflow package_name size_str).

(** The inner loop of [package_size_from_status]; [None] goes on to the next
    paragraph. *)
Fixpoint size_in_lines (package_name : rstr) (in_package : bool) (ls : list rstr) : result (option Z) SizeError :=
  match ls with
  | [] => Ok None
  | line :: ls =>
      match strip_prefix (str "Package: ") line with
      | Some pkg => size_in_lines package_name (str_eqb (trim pkg) package_name) ls
      | None =>
          match strip_prefix (str "Installed-Size: ") line with
          | Some size_str =>
              if in_package then let? size := status_size_bytes size_str package_name in Ok (Some size)
              else size_in_lines package_name in_package ls
          | None => size_in_lines package_name in_package ls
          end
      end
  end.

Fixpoint size_in_paragraphs (package_name : rstr) (ps : list rstr) : result (option Z) SizeError :=
  match ps with
  | [] => Ok None
  | p :: ps =>
      let? found := size_in_lines package_name false (lines p) in
      match found with
      | Some size => Ok (Some size)
      | None => size_in_paragraphs package_name ps
      end
  end.

Definition package_size_from_status (content package_name : rstr) : result (option Z) SizeError :=
  size_in_paragraphs package_name (installed_paragraphs content).

Definition size_line (s : rstr * Z) (line : rstr) : result (rstr * Z) SizeError :=
  let '(current_pkg, current_size) := s in
  match strip_prefix (str "Package: ") line with
  | Some pkg => Ok (trim pkg, current_size)
  | None =>
      match strip_prefix (str "Installed-Size: ") line with
      | Some size_str => let? size := status_size_bytes size_str current_pkg in Ok (current_pkg, size)
      | None => Ok s
      end
  end.

Definition packages_with_sizes_from_status (content : rstr) : result (list (rstr * Z)) SizeError :=
  for_each (fun results paragraph =>
    let? s := for_each size_line ([], 0) (lines paragraph) in
    let '(pkg, size) := s in
    Ok (if negb (str_eqb pkg []) && (0 <? size) then results ++ [(pkg, size)] else results))
    [] (installed_paragraphs content).

(** * Updates *)

Definition installed_version_for_arch (installed_map : gmap rstr rstr) (package_name available_arch host_arch : rstr)
  : option rstr :=
  if negb (str_eqb available_arch host_arch) && negb (str_eqb available_arch (str "all")) then None
  else
    match installed_map !! (package_name ++ [ch ":"] ++ available_arch) with
    | Some v => Some v
    | None =>
        if str_eqb available_arch (str "all") then installed_map !! (package_name ++ [ch ":"] ++ host_arch) else None
    end.

Definition offer_update (best : gmap rstr (rstr * rstr)) (update : rstr * rstr * rstr) : gmap rstr (rstr * rstr) :=
  let '(name, old_version, new_version) := update in
  let replace :=
    match best !! name with
    | None => true
    | Some (_, existing_new) =>
        match compare_deb_versions new_version existing_new with Gt => true | _ => false end
    end in
  if replace then <[name := (old_version, new_version)]> best else best.

(** The names of the table are distinct: sorting by name sorts the entries. *)
Definition best_update_versions (updates : list (rstr * rstr * rstr)) : list (rstr * rstr * rstr) :=
  let best := foldl offer_update ∅ updates in
  omap (fun name => v ← best !! name; Some (name, v.1, v.2)) (sort_strs (elements (dom best))).

(** [get_updates_from_mmap] over the packages of the archived index. *)
Definition get_updates (ARCH : rstr) (installed_map : gmap rstr rstr) (packages : list DebianPackage)
  : list (rstr * rstr * rstr) :=
  best_update_versions
    (omap (fun pkg =>
      installed_ver ← installed_version_for_arch installed_map (pkg_name pkg) (pkg_architecture pkg) (debian_arch ARCH);
      match compare_deb_versions (pkg_version pkg) installed_ver with
      | Gt => Some (pkg_name pkg, installed_ver, pkg_version pkg)
      | _ => None
      end) packages).

(** * Orphans *)

Definition add_provider (providers : gmap rstr (list rstr)) (name provided : rstr) : gmap rstr (list rstr) :=
  <[provided := default [] (providers !! provided) ++ [name]]> providers.

Definition paragraph_providers (providers : gmap rstr (list rstr)) (paragraph : rstr) : gmap rstr (list rstr) :=
  match trim <$> find_prefixed (str "Package: ") paragraph with
  | None => providers
  | Some name =>
      foldl (fun providers value => foldl (fun ps provided => add_provider ps name provided) providers
               (append_dependency_names value []))
        providers (omap (strip_prefix (str "Provides: ")) (lines paragraph))
  end.

Definition paragraph_dependencies (providers : gmap rstr (list rstr)) (dep_map : gmap rstr (list rstr))
    (paragraph : rstr) : gmap rstr (list rstr) :=
  let current_deps := status_dependency_names paragraph [str "Depends"; str "Pre-Depends"; str "Recommends"] in
  let current_pkg := current_package paragraph in
  if status_paragraph_is_installed paragraph && negb (str_eqb current_pkg []) && negb (bool_decide (current_deps = []))
  then <[current_pkg := current_deps ++ (current_deps ≫= fun name => default [] (providers !! name))]> dep_map
  else dep_map.

Definition dependency_map_from_status (content : rstr) : gmap rstr (list rstr) :=
  let providers := foldl paragraph_providers ∅ (installed_paragraphs content) in
  foldl (paragraph_dependencies providers) ∅ (status_paragraphs content).

(** The marking loop: [to_visit] is a stack, its top first. *)
Fixpoint mark_required (fuel : nat) (dep_map : gmap rstr (list rstr)) (to_visit : list rstr) (required : gset rstr)
  : option (gset rstr) :=
  match fuel with
  | O => None
  | S fuel =>
      match to_visit with
      | [] => Some required
      | pkg :: to_visit =>
          if bool_decide (pkg ∈ required) then mark_required fuel dep_map to_visit required
          else
            let required := {[pkg]} ∪ required in
            let deps := default [] (dep_map !! pkg) in
            mark_required fuel dep_map
              (rev (List.filter (fun dep => negb (bool_decide (dep ∈ required))) deps) ++ to_visit) required
      end
  end.

(** Each name pushes its dependencies at most once. *)
Definition mark_fuel (dep_map : gmap rstr (list rstr)) (manual : list rstr) : nat :=
  S (length manual + total_weight (fun n => length (default [] (dep_map !! n))) (dom dep_map)).

Definition list_orphans_from_status (installed : list DpkgPackageEntry) (dep_map : gmap rstr (list rstr))
  : option (gset rstr) :=
  let auto_installed : gset rstr := list_to_set (map dpkg_name (List.filter (fun p => negb (dpkg_is_explicit p)) installed)) in
  let manual_packages := map dpkg_name (List.filter dpkg_is_explicit installed) in
  required ← mark_required (mark_fuel dep_map manual_packages) dep_map (rev manual_packages) ∅;
  Some (auto_installed ∖ required).
