(* ===== verification/DpkgStatusProofs.v ===== *)
(** What the readers of the dpkg database promise: the inventory keeps every
    installed package or fails, updates never downgrade, and an orphan is not
    reachable from a package the user chose. *)

From S2P Require Import Prelude DebVersion DebResolver DebResolverClosure Deb822 Deb822Proofs DpkgStatus.
Open Scope Z_scope.
Open Scope omg_scope.

(** * Orphans *)

Lemma elem_of_rev {A} (l : list A) x : x ∈ rev l <-> x ∈ l.
Proof. by rewrite !list_elem_of_In, <- in_rev. Qed.

Section mark.
Context (dep_map : gmap rstr (list rstr)).

Definition depends_on (a b : rstr) : Prop := exists deps, dep_map !! a = Some deps /\ b ∈ deps.

Definition weight (n : rstr) : nat := length (default [] (dep_map !! n)).

(** What the loop can still do. *)
Definition mark_measure (to_visit : list rstr) (required : gset rstr) : nat :=
  length to_visit + total_weight weight (dom dep_map ∖ required).

Definition fresh_deps (pkg : rstr) (required : gset rstr) : list rstr :=
  List.filter (fun dep => negb (bool_decide (dep ∈ required))) (default [] (dep_map !! pkg)).

Lemma elem_of_fresh_deps pkg required d :
  d ∈ fresh_deps pkg required <-> depends_on pkg d /\ d ∉ required.
Proof.
  unfold fresh_deps, depends_on. rewrite list_elem_of_In, filter_In, <- list_elem_of_In, negb_true_iff, bool_decide_eq_false.
  destruct (dep_map !! pkg) as [deps|]; simpl; [naive_solver|]. rewrite elem_of_nil. naive_solver.
Qed.

Lemma mark_measure_step pkg to_visit required :
  (pkg ∉ required) ->
  (mark_measure (rev (fresh_deps pkg ({[pkg]} ∪ required)) ++ to_visit) ({[pkg]} ∪ required)
   <= length to_visit + total_weight weight (dom dep_map ∖ required))%nat.
Proof.
  intros Hp. unfold mark_measure. rewrite length_app, length_rev.
  assert (Hlen : (length (fresh_deps pkg ({[pkg]} ∪ required)) <= weight pkg)%nat) by apply List.filter_length_le.
  destruct (dep_map !! pkg) as [deps|] eqn:E.
  - rewrite (total_weight_remove weight (dom dep_map ∖ required) pkg).
    2:{ apply elem_of_difference. split; [by apply elem_of_dom_2 in E|done]. }
    replace (dom dep_map ∖ required ∖ {[pkg]}) with (dom dep_map ∖ ({[pkg]} ∪ required)) by set_solver. lia.
  - assert (weight pkg = 0%nat) as Hw by (unfold weight; by rewrite E).
    pose proof (total_weight_mono weight (dom dep_map ∖ ({[pkg]} ∪ required)) (dom dep_map ∖ required) ltac:(set_solver)).
    lia.
Qed.

(** The set built is closed once the stack is empty. *)
Record mark_inv (manual : list rstr) (to_visit : list rstr) (required : gset rstr) : Prop := {
  mi_start : forall m, m ∈ manual -> m ∈ required \/ m ∈ to_visit;
  mi_closed : forall a b, a ∈ required -> depends_on a b -> b ∈ required \/ b ∈ to_visit;
  mi_reach : forall x, x ∈ required \/ x ∈ to_visit -> exists m, m ∈ manual /\ rtc depends_on m x
}.

Lemma mark_required_spec manual fuel to_visit required :
  (mark_measure to_visit required < fuel)%nat -> mark_inv manual to_visit required ->
  exists r, mark_required fuel dep_map to_visit required = Some r /\ mark_inv manual [] r.
Proof.
  revert to_visit required. induction fuel as [|fuel IH]; intros to_visit required Hf Hi; [lia|].
  destruct to_visit as [|pkg to_visit]; [by exists required|]. cbn [mark_required]. cbn [mark_measure length] in Hf.
  destruct Hi as [Hs Hc Hr]. case_bool_decide as Hp.
  - apply IH; [unfold mark_measure in *; simpl in Hf; lia|]. split.
    + intros m Hm. destruct (Hs m Hm) as [?|[-> |?]%elem_of_cons]; auto.
    + intros a b Ha Hab. destruct (Hc a b Ha Hab) as [?|[-> |?]%elem_of_cons]; auto.
    + intros x Hx. apply Hr. destruct Hx; [by left|right; by apply elem_of_cons; right].
  - fold (fresh_deps pkg ({[pkg]} ∪ required)). apply IH.
    + pose proof (mark_measure_step pkg to_visit required Hp). unfold mark_measure in Hf. simpl in Hf. lia.
    + split.
      * intros m Hm. destruct (Hs m Hm) as [?|[-> |?]%elem_of_cons]; set_solver.
      * intros a b Ha Hab. destruct (decide (b ∈ {[pkg]} ∪ required)) as [|Hb]; [by left|right].
        rewrite elem_of_app. apply elem_of_union in Ha as [->%elem_of_singleton|Ha].
        -- left. by apply elem_of_rev, elem_of_fresh_deps.
        -- right. destruct (Hc a b Ha Hab) as [?|[-> |?]%elem_of_cons]; set_solver.
      * intros x Hx.
        assert (Hpkg : exists m, m ∈ manual /\ rtc depends_on m pkg) by (apply Hr; right; apply elem_of_cons; by left).
        destruct Hx as [[->%elem_of_singleton|Hx]%elem_of_union|[Hx|Hx]%elem_of_app]; [done|by apply Hr; left| |].
        -- rewrite elem_of_rev in Hx. apply elem_of_fresh_deps in Hx as [Hx _].
           destruct Hpkg as (m & Hm & Hmp). exists m. split; [done|]. by eapply rtc_r.
        -- apply Hr. right. apply elem_of_cons. by right.
Qed.

Lemma mark_required_total manual :
  exists r, mark_required (mark_fuel dep_map manual) dep_map (rev manual) ∅ = Some r /\
    forall x, x ∈ r <-> exists m, m ∈ manual /\ rtc depends_on m x.
Proof.
  destruct (mark_required_spec manual (mark_fuel dep_map manual) (rev manual) ∅) as (r & Hr & [Hs Hc Hreach]).
  - unfold mark_fuel, mark_measure. fold weight. rewrite length_rev.
    rewrite difference_empty_L. unfold weight. lia.
  - split.
    + intros m Hm. right. by rewrite elem_of_rev.
    + intros a b Ha. set_solver.
    + intros x [Hx|Hx]; [set_solver|]. rewrite elem_of_rev in Hx. exists x. split; [done|apply rtc_refl].
  - exists r. split; [done|]. intros x. split.
    + intros Hx. apply Hreach. by left.
    + intros (m & Hm & Hmx). assert (Hmr : m ∈ r) by (destruct (Hs m Hm) as [?|?%not_elem_of_nil]; done).
      clear Hm. induction Hmx as [|a b c Hab _ IH]; [done|]. apply IH.
      destruct (Hc a b Hmr Hab) as [?|?%not_elem_of_nil]; done.
Qed.
End mark.

(** the orphan search ends and answers exactly the names that are only
    installed automatically and that no explicitly installed package reaches
    through dependencies, recommendations and their providers. *)
Theorem orphans_are_unreachable installed dep_map :
  exists orphans, list_orphans_from_status installed dep_map = Some orphans /\
    forall x, x ∈ orphans <->
      (exists p, p ∈ installed /\ dpkg_name p = x /\ dpkg_is_explicit p = false) /\
      ~ (exists p, p ∈ installed /\ dpkg_is_explicit p = true /\ rtc (depends_on dep_map) (dpkg_name p) x).
Proof.
  unfold list_orphans_from_status.
  destruct (mark_required_total dep_map (map dpkg_name (List.filter dpkg_is_explicit installed))) as (r & -> & Hr).
  eexists. split; [done|]. intros x. rewrite elem_of_difference, elem_of_list_to_set, Hr.
  rewrite list_elem_of_In, in_map_iff. setoid_rewrite filter_In.
  split; intros [H1 H2]; (split; [|intros H; apply H2; clear H2]).
  - destruct H1 as (p & <- & Hp & He). exists p. rewrite list_elem_of_In. by apply negb_true_iff in He.
  - destruct H as (p & Hp & He & Hx). exists (dpkg_name p). split; [|done].
    apply list_elem_of_In, in_map. apply filter_In. by rewrite <- list_elem_of_In.
  - destruct H1 as (p & Hp & <- & He). exists p. rewrite <- list_elem_of_In. by rewrite He.
  - destruct H as (m & (p & <- & [Hp He]%filter_In)%list_elem_of_In%in_map_iff & Hx). exists p.
    by rewrite list_elem_of_In.
Qed.

(** * Updates *)

Definition valid_update (u : rstr * rstr * rstr) : Prop := valid_str u.2.

(** The table holds the newest offer of each name. *)
Definition best_ok (updates : list (rstr * rstr * rstr)) (best : gmap rstr (rstr * rstr)) : Prop :=
  forall name,
    match best !! name with
    | None => forall u, u ∈ updates -> u.1.1 ≠ name
    | Some (old, new) =>
        (name, old, new) ∈ updates /\
        forall u, u ∈ updates -> u.1.1 = name -> compare_deb_versions new u.2 ≠ Lt
    end.

Lemma offer_update_other best n old new name :
  n ≠ name -> offer_update best (n, old, new) !! name = best !! name.
Proof. intros H. unfold offer_update. case_match; [by rewrite lookup_insert_ne|done]. Qed.

Lemma offer_update_ok updates best u :
  Forall valid_update updates -> valid_update u -> best_ok updates best -> best_ok (updates ++ [u]) (offer_update best u).
Proof.
  intros Hall Hu Hb name. specialize (Hb name) as Hn. destruct u as [[n old] new]. unfold valid_update in *.
  simpl in Hu. pose proof compare_deb_versions_order as Ho. rewrite Forall_forall in Hall.
  destruct (decide (n = name)) as [->|Hne].
  2:{ rewrite offer_update_other by done. destruct (best !! name) as [[o w]|].
      - destruct Hn as [H1 H2]. split; [set_solver|].
        intros u [?| ->%list_elem_of_singleton]%elem_of_app Hk; [by apply H2|done].
      - intros u [?| ->%list_elem_of_singleton]%elem_of_app; [by apply Hn|done]. }
  unfold offer_update.
  destruct (best !! name) as [[o w]|] eqn:Eb.
  - destruct Hn as [H1 H2]. pose proof (Hall _ H1) as Hw. simpl in Hw.
    destruct (compare_deb_versions new w) eqn:Ec.
    3:{ rewrite lookup_insert_eq. split; [set_solver|].
        intros u [Hin| ->%list_elem_of_singleton]%elem_of_app Hk; [|simpl; by rewrite (cmp_refl _ _ _ Ho)].
        pose proof (Hall _ Hin). specialize (H2 u Hin Hk). destruct (compare_deb_versions w u.2) eqn:Ew; [|done|].
        - by rewrite (cmp_eq_r _ _ new w u.2 Ho), Ec.
        - by rewrite (cmp_trans Ho Gt new w u.2). }
    all: rewrite Eb; split; [set_solver|];
      intros u [Hin| ->%list_elem_of_singleton]%elem_of_app Hk; [by apply H2|simpl];
      rewrite (cmp_flip Ho new w) by done; by rewrite Ec.
  - rewrite lookup_insert_eq. split; [set_solver|].
    intros u [Hin| ->%list_elem_of_singleton]%elem_of_app Hk; [by apply Hn in Hk|simpl; by rewrite (cmp_refl _ _ _ Ho)].
Qed.

Lemma best_table_ok updates : Forall valid_update updates -> best_ok updates (foldl offer_update ∅ updates).
Proof.
  induction updates as [|u updates IH] using rev_ind; intros H.
  { intros name. cbn [foldl]. rewrite lookup_empty. by intros u ?%not_elem_of_nil. }
  apply Forall_app in H as [H1 H2]. rewrite Forall_singleton in H2. rewrite foldl_app. cbn [foldl].
  apply offer_update_ok; auto.
Qed.

Lemma elem_of_best_updates updates name old new :
  (name, old, new) ∈ best_update_versions updates <-> foldl offer_update ∅ updates !! name = Some (old, new).
Proof.
  unfold best_update_versions. rewrite list_elem_of_omap. split.
  - intros (n & _ & E). destruct (_ !! n) as [[o w]|] eqn:En; simpl in E; [|done]. by simplify_eq/=.
  - intros E. exists name. rewrite elem_of_sort_strs, elem_of_elements, E. split; [by apply elem_of_dom_2 in E|done].
Qed.

Lemma best_updates_names updates :
  map (fun u => u.1.1) (best_update_versions updates) = sort_strs (elements (dom (foldl offer_update ∅ updates))).
Proof.
  unfold best_update_versions. set (best := foldl offer_update ∅ updates).
  assert (Hall : forall n, n ∈ sort_strs (elements (dom best)) -> n ∈ dom best).
  { intros n. by rewrite elem_of_sort_strs, elem_of_elements. }
  induction (sort_strs (elements (dom best))) as [|n ns IH]; [done|]. simpl.
  destruct (proj1 (elem_of_dom best n) (Hall n ltac:(by left))) as [[o w] E]. rewrite E. simpl. f_equal.
  apply IH. intros m Hm. apply Hall. by right.
Qed.

(** the update list has one entry per name, sorted by name. Each entry
    offers an available package for the host (or for every architecture)
    whose version is strictly newer than the installed one, and no available
    package that updates the same name is newer than what is offered: an
    update is never a downgrade and never an older release than needed. *)
Theorem updates_are_newest_upgrades ARCH installed_map packages :
  Forall (fun p => valid_str (pkg_version p)) packages ->
  let updates := get_updates ARCH installed_map packages in
  let upgrades p old := p ∈ packages /\
    installed_version_for_arch installed_map (pkg_name p) (pkg_architecture p) (debian_arch ARCH) = Some old /\
    compare_deb_versions (pkg_version p) old = Gt in
  StronglySorted str_le (map (fun u => u.1.1) updates) /\ NoDup (map (fun u => u.1.1) updates) /\
  (forall name old new, (name, old, new) ∈ updates ->
    (exists p, upgrades p old /\ pkg_name p = name /\ pkg_version p = new) /\
    forall q o, upgrades q o -> pkg_name q = name -> compare_deb_versions new (pkg_version q) ≠ Lt) /\
  (forall p old, upgrades p old -> pkg_name p ∈ map (fun u => u.1.1) updates).
Proof.
  intros Hv updates upgrades. unfold updates, get_updates. set (offers := omap _ packages).
  assert (Hoff : forall u, u ∈ offers <-> exists p old, upgrades p old /\ u = (pkg_name p, old, pkg_version p)).
  { intros u. unfold offers. rewrite list_elem_of_omap. split.
    - intros (p & Hp & E). destruct (installed_version_for_arch _ _ _ _) as [old|] eqn:Ei; simpl in E; [|done].
      destruct (compare_deb_versions _ _) eqn:Ec; simplify_eq. exists p, old. done.
    - intros (p & old & (Hp & Hi & Hc) & ->). exists p. split; [done|]. rewrite Hi. simpl. by rewrite Hc. }
  assert (Hval : Forall valid_update offers).
  { apply Forall_forall. intros u (p & old & (Hp & _) & ->)%Hoff. rewrite Forall_forall in Hv. by apply Hv. }
  pose proof (best_table_ok offers Hval) as Hb. rewrite best_updates_names. split_and!.
  - apply sort_strs_sorted.
  - rewrite sort_strs_perm. apply NoDup_elements.
  - intros name old new E%elem_of_best_updates. specialize (Hb name). rewrite E in Hb. destruct Hb as [H1 H2]. split.
    + apply Hoff in H1 as (p & o & Hu & [= -> -> ->]). eauto.
    + intros q o Hu Hq. apply (H2 (pkg_name q, o, pkg_version q)); [|done]. apply Hoff. eauto.
  - intros p old Hu. rewrite elem_of_sort_strs, elem_of_elements, elem_of_dom. specialize (Hb (pkg_name p)).
    destruct (_ !! pkg_name p); [done|]. exfalso.
    apply (Hb (pkg_name p, old, pkg_version p)); [|done]. apply Hoff. eauto.
Qed.

(** * The inventory *)

Definition blank (paragraph : rstr) : bool := str_eqb (trim paragraph) [].

(** The fields of a paragraph: the lines that are no continuations, cut at
    their first colon. *)
Definition fields_of (paragraph : rstr) : list (rstr * rstr) :=
  omap (split_once (ch ":")) (List.filter (fun line => negb (is_continuation line)) (lines paragraph)).

Definition named (field : rstr) (kv : rstr * rstr) : Prop := to_ascii_lowercase kv.1 = to_ascii_lowercase field.

(** The paragraph has the field, and no other value for it. *)
Definition only_field (paragraph field value : rstr) : Prop :=
  (exists kv, kv ∈ fields_of paragraph /\ named field kv /\ trim kv.2 = value) /\
  (forall kv, kv ∈ fields_of paragraph -> named field kv -> trim kv.2 = value).

(** A sound status: what is wanted, [ok], and the state. *)
Definition state_is (paragraph state : rstr) : Prop :=
  exists status want, only_field paragraph (str "Status") status /\ split_whitespace status = [want; str "ok"; state] /\
    want ∈ [str "install"; str "hold"; str "deinstall"; str "purge"; str "unknown"].

Definition identity_of (s : SecurityPackage) : rstr * rstr := (sp_name s, default [] (sp_architecture s)).

(** The entry has the name, version and architecture of the paragraph, up to
    blanks around them. *)
Definition entry_of (paragraph : rstr) (s : SecurityPackage) : Prop :=
  only_field paragraph (str "Package") (trim (sp_name s)) /\ only_field paragraph (str "Version") (trim (sp_version s)) /\
  (exists architecture, sp_architecture s = Some architecture /\ only_field paragraph (str "Architecture") (trim architecture) /\ architecture ≠ []) /\
  (sp_name s ≠ []) /\ (sp_version s ≠ []).

(** The packages of a sequence of paragraphs: every paragraph is blank, without
    files, or installed. *)
Inductive inventory_of : list rstr -> list SecurityPackage -> Prop :=
| inventory_nil : inventory_of [] []
| inventory_blank paragraph paragraphs packages :
    blank paragraph = true -> inventory_of paragraphs packages -> inventory_of (paragraphs ++ [paragraph]) packages
| inventory_without_files paragraph paragraphs packages state :
    blank paragraph = false -> state_is paragraph state -> state ∈ [str "not-installed"; str "config-files"] ->
    inventory_of paragraphs packages -> inventory_of (paragraphs ++ [paragraph]) packages
| inventory_installed paragraph paragraphs packages s :
    blank paragraph = false -> state_is paragraph (str "installed") -> entry_of paragraph s ->
    inventory_of paragraphs packages -> inventory_of (paragraphs ++ [paragraph]) (packages ++ [s]).

(** ** Fields *)

Lemma eq_case_named key value field : eq_ignore_ascii_case key field = true <-> named field (key, value).
Proof. unfold eq_ignore_ascii_case, named, str_eqb. apply bool_decide_eq_true. Qed.

Lemma control_field_has paragraph field value : control_field paragraph field = Some value ->
  exists kv, kv ∈ fields_of paragraph /\ named field kv /\ trim kv.2 = value.
Proof.
  unfold control_field. fold (fields_of paragraph). induction (fields_of paragraph) as [|[k v] kvs IH]; [done|]. cbn [find_map].
  destruct (eq_ignore_ascii_case k field) eqn:E.
  - intros [= <-]. exists (k, v). split_and!; [by left|by apply eq_case_named|done].
  - intros (kv & Hkv & ?)%IH. exists kv. split; [by right|done].
Qed.

Definition key_of (kv : rstr * rstr) : rstr := to_ascii_lowercase kv.1.

(** No field twice. *)
Lemma validated_fields paragraph : validate_deb822_fields paragraph = Ok tt -> NoDup (map key_of (fields_of paragraph)).
Proof.
  unfold validate_deb822_fields, fields_of. intros H. res_inv.
  enough (NoDup (map key_of (omap (split_once (ch ":")) (List.filter (fun line => negb (is_continuation line)) (lines paragraph)))) /\
    forall k, k ∈ seen a <-> k ∈ map key_of (omap (split_once (ch ":")) (List.filter (fun line => negb (is_continuation line)) (lines paragraph)))) by tauto.
  revert Hr. apply (for_each_inv _ (fun done s => NoDup (map key_of (omap (split_once (ch ":")) (List.filter (fun line => negb (is_continuation line)) done))) /\
    forall k, k ∈ seen s <-> k ∈ map key_of (omap (split_once (ch ":")) (List.filter (fun line => negb (is_continuation line)) done)))).
  { cbn. split; [constructor|]. intros k. rewrite elem_of_nil. set_solver. }
  intros pre line s1 s2 [Hnd Hseen] _ Hl. unfold validate_line in Hl. rewrite List.filter_app, omap_app, map_app.
  destruct (str_eqb line []) eqn:E0; [unfold str_eqb in E0; to_prop; subst; res_inv; cbn; by rewrite app_nil_r|]. cbn [List.filter].
  destruct (is_continuation line) eqn:Ec; cbn [negb]; [res_inv; cbn; by rewrite app_nil_r|]. destruct (split_once (ch ":") line) as [[name rest]|] eqn:Es; [|done]. res_inv. to_prop.
  cbn [omap list_omap]. rewrite Es. cbn [map key_of fst seen]. split.
  - apply NoDup_app. split_and!; [done| |by apply NoDup_singleton]. intros k Hk ->%list_elem_of_singleton. naive_solver.
  - intros k. rewrite elem_of_app, elem_of_union, elem_of_singleton, list_elem_of_singleton, Hseen. unfold key_of. cbn. tauto.
Qed.

Lemma only_one paragraph field value : validate_deb822_fields paragraph = Ok tt -> control_field paragraph field = Some value -> only_field paragraph field value.
Proof.
  intros Hnd%validated_fields (kv & Hin & Hn & Hv)%control_field_has. split; [eauto|]. intros kv' Hin' Hn'.
  assert (kv = kv') as ->; [|done]. apply list_elem_of_lookup in Hin as [i Hi]. apply list_elem_of_lookup in Hin' as [j Hj].
  assert (map key_of (fields_of paragraph) !! i = Some (key_of kv)) as Ki by (by rewrite list_lookup_fmap, Hi).
  assert (map key_of (fields_of paragraph) !! j = Some (key_of kv')) as Kj by (by rewrite list_lookup_fmap, Hj).
  assert (key_of kv = key_of kv') as E by (unfold key_of, named in *; congruence). rewrite E in Ki.
  pose proof (NoDup_lookup _ _ _ _ Hnd Ki Kj). congruence.
Qed.

Lemma required_only paragraph field value : validate_deb822_fields paragraph = Ok tt -> required_control_field paragraph field = Ok value ->
  value ≠ [] /\ only_field paragraph field value.
Proof.
  unfold required_control_field. destruct (control_field paragraph field) as [v|] eqn:E; [|done]. unfold str_eqb. case_bool_decide; [done|].
  intros Hv [= <-]. split; [done|by apply only_one].
Qed.

Lemma trim_trim_start s : trim (trim_start s) = trim s.
Proof.
  unfold trim, trim_start. replace (trim_start_matches is_whitespace (trim_start_matches is_whitespace s)) with (trim_start_matches is_whitespace s); [done|].
  induction s as [|c s IH]; [done|]. cbn. destruct (is_whitespace c) eqn:E; [done|]. cbn. by rewrite E.
Qed.

(** The scan of the lines agrees with the fields. *)
Lemma status_scan_fields paragraph name version architecture s :
  only_field paragraph (str "Package") name -> only_field paragraph (str "Version") version -> only_field paragraph (str "Architecture") architecture ->
  trim (st_name s) = name -> trim (st_version s) = version -> trim (st_arch s) = architecture ->
  let s' := foldl status_line s (lines paragraph) in trim (st_name s') = name /\ trim (st_version s') = version /\ trim (st_arch s') = architecture.
Proof.
  intros [_ Hn] [_ Hv] [_ Ha]. cbn zeta. assert (Hf : forall kv, kv ∈ omap (split_once (ch ":")) (List.filter (fun line => negb (is_continuation line)) (lines paragraph)) -> kv ∈ fields_of paragraph) by done.
  revert s Hf. induction (lines paragraph) as [|line ls IH]; intros s Hf H1 H2 H3; [done|]. cbn [foldl]. cbn [List.filter] in Hf. unfold status_line at 2 4 6.
  destruct (is_continuation line) eqn:Ec; cbn [negb] in Hf.
  - apply IH; [done|..]; by repeat case_match.
  - cbn [omap list_omap] in Hf. destruct (split_once (ch ":") line) as [[key rest]|] eqn:Es; [|by apply IH].
    apply IH; [intros kv Hkv; apply Hf; by right|..]; cbn [st_name st_version st_arch]; unfold str_eqb; case_bool_decide as E; try done; rewrite trim_trim_start;
      [apply (Hn (key, rest))|apply (Hv (key, rest))|apply (Ha (key, rest))]; try (apply Hf; by left); by subst.
Qed.

Lemma parse_status_fields paragraph name version description architecture v a : parse_status_paragraph paragraph = Some (name, version, description, architecture) ->
  required_control_field paragraph (str "Version") = Ok v -> required_control_field paragraph (str "Architecture") = Ok a ->
  (name ≠ []) /\ only_field paragraph (str "Package") (trim name) /\ only_field paragraph (str "Version") (trim version) /\ only_field paragraph (str "Architecture") (trim architecture).
Proof.
  unfold parse_status_paragraph. intros H Hv Ha. apply bind_Some in H as ([] & Hval & H). destruct (validate_deb822_fields paragraph) as [[]|] eqn:Ev; [|done].
  apply bind_Some in H as (n & Hn & H). destruct (required_control_field paragraph (str "Package")) as [n0|] eqn:En; [|done]. injection Hn as ->.
  destruct (required_only _ _ _ Ev En) as [_ On]. destruct (required_only _ _ _ Ev Hv) as [_ Ov]. destruct (required_only _ _ _ Ev Ha) as [_ Oa].
  unfold required_control_field in Hv, Ha. destruct (control_field paragraph (str "Version")) as [v'|]; [|done]. destruct (control_field paragraph (str "Architecture")) as [a'|]; [|done].
  repeat case_match; try done. injection Hv as ->. injection Ha as ->. cbn [default from_option id] in *. rename H into Hout.
  assert (Htrim : forall f x, only_field paragraph f x -> trim x = x) by (intros f x [(kv & _ & _ & <-) _]; apply trim_idem).
  match type of Hout with Some (st_name (foldl status_line ?s _), _, _, _) = _ => pose proof (status_scan_fields paragraph n v a s On Ov Oa (Htrim _ _ On) (Htrim _ _ Ov) (Htrim _ _ Oa)) as (Hn & Hv & Ha) end.
  injection Hout as <- <- _ <-. rewrite Hn, Hv, Ha. unfold str_eqb in *. to_prop. done.
Qed.

Lemma status_state_sound paragraph status state : validate_deb822_fields paragraph = Ok tt -> required_control_field paragraph (str "Status") = Ok status ->
  status_state status = Ok state -> state_is paragraph state.
Proof.
  intros Hv Hr Hs. destruct (required_only _ _ _ Hv Hr) as [_ Ho]. unfold status_state in Hs. destruct (split_whitespace status) as [|want [|flag [|s [|? ?]]]] eqn:E; try done.
  destruct (valid_want want && str_eqb flag (str "ok")) eqn:Ew; [|done]. injection Hs as ->. apply andb_true_iff in Ew as [Hw Hf]. unfold str_eqb in Hf. apply bool_decide_eq_true in Hf as ->.
  exists status, want. split_and!; [done..|]. unfold valid_want in Hw. apply existsb_exists in Hw as (x & Hx & Heq). unfold str_eqb in Heq. apply bool_decide_eq_true in Heq as ->. by apply list_elem_of_In.
Qed.

Lemma installed_entry_ok paragraph ids v s : required_control_field paragraph (str "Version") = Ok v ->
  installed_entry paragraph ids = Ok s -> entry_of paragraph s /\ (identity_of s ∉ ids).
Proof.
  unfold installed_entry. intros Hv H. res_inv. destruct a1 as [[[name version] description] architecture]. apply map_err_Ok in Hr.
  apply ok_or_Ok in Hr1. destruct (parse_status_fields _ _ _ _ _ _ _ Hr1 Hv Hr) as (Hn & On & Ov & Oa). unfold entry_of, identity_of, str_eqb in *. res_inv. to_prop. simpl.
  split; [|done]. split_and!; eauto.
Qed.

(** One paragraph: skipped when blank or in a state without files, taken when
    installed, and an error in every other state. *)
Lemma inventory_paragraph_ok packages ids paragraph s' :
  inventory_paragraph (packages, ids) paragraph = Ok s' ->
  if blank paragraph then s' = (packages, ids)
  else exists state, state_is paragraph state /\
    (state ∈ [str "not-installed"; str "config-files"] /\ s' = (packages, ids) \/
     state = str "installed" /\ exists p, entry_of paragraph p /\ (identity_of p ∉ ids) /\
       s' = (packages ++ [p], {[identity_of p]} ∪ ids)).
Proof.
  unfold inventory_paragraph, blank. destruct (str_eqb (trim paragraph) []); [congruence|].
  intros H. res_inv. repeat match goal with H : map_err _ _ = Ok _ |- _ => apply map_err_Ok in H end.
  match goal with H : validate_deb822_fields _ = Ok ?u |- _ => destruct u; rename H into Hval end.
  match goal with H : required_control_field paragraph (str "Status") = Ok ?st, H' : status_state ?st = Ok ?state |- _ =>
    exists state; split; [exact (status_state_sound _ _ _ Hval H H')|] end.
  unfold str_eqb in H. case_bool_decide as E1; [res_inv; left; subst; split; [by left|done]|]. res_inv.
  case_bool_decide as E2; [res_inv; left; subst; split; [right; by left|done]|]. res_inv. repeat match goal with H : map_err _ _ = Ok _ |- _ => apply map_err_Ok in H end.
  match goal with H : bool_decide _ = true |- _ => apply bool_decide_eq_true in H end.
  match goal with H : required_control_field paragraph (str "Version") = Ok _, H' : installed_entry _ _ = Ok _ |- _ => destruct (installed_entry_ok _ _ _ _ H H') as [? ?] end.
  right. split; [done|]. eexists. split_and!; [done|done|done].
Qed.

(** C33: when the status file is accepted, the inventory holds exactly its
    installed packages, in file order, each with the name, version and
    architecture of its paragraph and no identity twice. Every other paragraph
    is blank or in one of the two states that own no files: a status with
    another want, without [ok] or in any other state, two different values of
    a field, or an unreadable entry make the reader fail instead of dropping
    the entry. *)
Theorem inventory_is_complete contents packages :
  parse_security_inventory contents = Ok packages ->
  inventory_of (status_paragraphs contents) packages /\ NoDup (map identity_of packages).
Proof.
  unfold parse_security_inventory. intros H. res_inv.
  enough (Hinv : inventory_of (status_paragraphs contents) a.1 /\ NoDup (map identity_of a.1) /\ a.2 = list_to_set (map identity_of a.1)) by naive_solver.
  revert Hr. apply (for_each_inv inventory_paragraph (fun done s => inventory_of done s.1 /\ NoDup (map identity_of s.1) /\ s.2 = list_to_set (map identity_of s.1))).
  { split_and!; [constructor|constructor|done]. }
  intros pre x [ps ids] s2 (H1 & H2 & H3) _ Hx. apply inventory_paragraph_ok in Hx. simpl in *.
  destruct (blank x) eqn:Eb; [subst s2; simpl; by split_and!; [constructor|..]|].
  destruct Hx as (state & Hst & [[Hs ->]|[-> (p & He & Hid & ->)]]); simpl; [by split_and!; [eapply inventory_without_files|..]|].
  rewrite map_app. subst ids. split_and!; [by constructor| |].
  - apply NoDup_app. split_and!; [done| |apply NoDup_singleton].
    intros i Hi. rewrite elem_of_list_to_set in Hid. simpl. rewrite list_elem_of_singleton. by intros ->.
  - rewrite list_to_set_app_L. simpl. set_solver.
Qed.

(** the identity values are checked after trimming but stored with their
    trailing blanks: the reader accepts an installed entry whose version ends
    in a space, although it means to refuse white space in versions. *)
Theorem inventory_keeps_trailing_space :
  exists contents p, parse_security_inventory contents = Ok [p] /\ has_ascii_whitespace (sp_version p) = true.
Proof.
  exists (str "Package: a" ++ [NL] ++ str "Status: install ok installed" ++ [NL] ++ str "Architecture: all" ++ [NL]
    ++ str "Version: 1.0 " ++ [NL]). eexists. split; [vm_compute; reflexivity|done].
Qed.

(** ** Witnesses *)

Definition sample_available (name version arch : string) : DebianPackage :=
  {| pkg_name := str name; pkg_version := str version; pkg_description := []; pkg_section := []; pkg_priority := [];
     pkg_installed_size := 0; pkg_maintainer := []; pkg_architecture := str arch; pkg_depends := []; pkg_filename := [];
     pkg_size := 0; pkg_sha256 := []; pkg_homepage := []; pkg_component := str "main"; pkg_suite := [];
     pkg_source_key := [] |}.

Lemma updates_are_newest_upgrades_witness :
  NoDup (map (fun u => u.1.1) (get_updates (str "x86_64") {[str "vim:amd64" := str "9.0"]}
    [sample_available "vim" "9.1" "amd64"; sample_available "vim" "9.0.2" "amd64"; sample_available "vim" "10" "i386"])) /\
  get_updates (str "x86_64") {[str "vim:amd64" := str "9.0"]}
    [sample_available "vim" "9.1" "amd64"; sample_available "vim" "9.0.2" "amd64"; sample_available "vim" "10" "i386"]
  = [(str "vim", str "9.0", str "9.1")].
Proof.
  split; [|vm_compute; reflexivity].
  destruct (updates_are_newest_upgrades (str "x86_64") {[str "vim:amd64" := str "9.0"]}
    [sample_available "vim" "9.1" "amd64"; sample_available "vim" "9.0.2" "amd64"; sample_available "vim" "10" "i386"])
    as (_ & H & _); [repeat constructor; by apply valid_str_compute|exact H].
Defined.

Definition sample_status : rstr :=
  str "Package: a" ++ [NL] ++ str "Status: install ok installed" ++ [NL] ++ str "Architecture: all" ++ [NL]
  ++ str "Version: 1.0" ++ [NL; NL] ++ str "Package: b" ++ [NL] ++ str "Status: deinstall ok config-files" ++ [NL]
  ++ str "Version: 2" ++ [NL].

Lemma inventory_is_complete_witness :
  exists p, parse_security_inventory sample_status = Ok [p] /\ inventory_of (status_paragraphs sample_status) [p] /\ NoDup (map identity_of [p]).
Proof.
  eexists. split; [vm_compute; reflexivity|].
  eapply (inventory_is_complete sample_status). vm_compute. reflexivity.
Defined.
