(* ===== verification/DebRemoval.v ===== *)
(** Planning the removal of Debian packages: [plan_debian_removal] and
    [merge_status_entries] of
    src/src/package_managers/debian_db/transaction.rs.

    The planner reads the dpkg status text, refuses protected packages and
    removals that would break an installed package, and orders the rest with
    Kahn's algorithm, dependents first. Where the code walks a hash table the
    model walks its elements in some order; only the choice among several
    error messages depends on it. *)

From S2P Require Import Prelude DebVersion DebResolver DebResolverClosure Deb822 DpkgStatus.
Open Scope Z_scope.
Open Scope omg_scope.

(** [s.split(needle)] for a non-empty needle. *)
Fixpoint split_str_loop (fuel : nat) (needle s : rstr) : list rstr :=
  match fuel with
  | O => [s]
  | S fuel =>
      match split_once_str needle s with
      | Some (a, b) => a :: split_str_loop fuel needle b
      | None => [s]
      end
  end.

Definition split_str (needle s : rstr) : list rstr := split_str_loop (length s) needle s.

(** * Reading the status file *)

Record InstalledRemovalPackage := {
  essential : bool;
  protected : bool;
  dependency_groups : list (list rstr)
}.

Definition removal_alternative (alternative : rstr) : option rstr :=
  match split_whitespace alternative with
  | name :: _ => let name := split_next (ch ":") name in if str_eqb name [] then None else Some name
  | [] => None
  end.

Definition append_removal_dependency_groups (value : rstr) (groups : list (list rstr)) : list (list rstr) :=
  groups ++ List.filter (fun alternatives => negb (bool_decide (alternatives = [])))
    (map (fun group => omap removal_alternative (split_char (ch "|") group)) (split_char (ch ",") value)).

Record RemovalScan := {
  rs_name : option rstr;
  rs_info : InstalledRemovalPackage;
  reading_dependencies : bool
}.

Definition yes (value : rstr) : bool := eq_ignore_ascii_case (trim value) (str "yes").

Definition removal_line (s : RemovalScan) (line : rstr) : RemovalScan :=
  let info := rs_info s in
  let with_groups value :=
    {| essential := essential info; protected := protected info;
       dependency_groups := append_removal_dependency_groups (trim value) (dependency_groups info) |} in
  if is_continuation line then
    if reading_dependencies s
    then {| rs_name := rs_name s; rs_info := with_groups line; reading_dependencies := true |}
    else s
  else
    match strip_prefix (str "Package:") line with
    | Some value => {| rs_name := Some (trim value); rs_info := info; reading_dependencies := false |}
    | None =>
        match strip_prefix (str "Essential:") line with
        | Some value =>
            {| rs_name := rs_name s;
               rs_info := {| essential := yes value; protected := protected info;
                             dependency_groups := dependency_groups info |};
               reading_dependencies := false |}
        | None =>
            match strip_prefix (str "Protected:") line with
            | Some value =>
                {| rs_name := rs_name s;
                   rs_info := {| essential := essential info; protected := yes value;
                                 dependency_groups := dependency_groups info |};
                   reading_dependencies := false |}
            | None =>
                match (match strip_prefix (str "Depends:") line with
                       | Some value => Some value
                       | None => strip_prefix (str "Pre-Depends:") line
                       end) with
                | Some value => {| rs_name := rs_name s; rs_info := with_groups value; reading_dependencies := true |}
                | None => {| rs_name := rs_name s; rs_info := info; reading_dependencies := false |}
                end
            end
        end
    end.

Definition removal_paragraph (paragraph : rstr) : option (rstr * InstalledRemovalPackage) :=
  if existsb (fun line => str_eqb line (str "Status: install ok installed")) (lines paragraph) then
    let s := foldl removal_line
      {| rs_name := None; rs_info := {| essential := false; protected := false; dependency_groups := [] |};
         reading_dependencies := false |} (lines paragraph) in
    name ← rs_name s; Some (name, rs_info s)
  else None.

Definition read_installed (status : rstr) : gmap rstr InstalledRemovalPackage :=
  foldl (fun installed paragraph =>
    match removal_paragraph paragraph with
    | Some (name, info) => <[name := info]> installed
    | None => installed
    end) ∅ (split_str [NL; NL] status).

(** * The plan *)

Inductive RemovalError :=
| NotInstalled (name : rstr)
| ProtectedPackage (name : rstr)
| Blocked (dependents : list rstr).

Section plan.
Context (installed : gmap rstr InstalledRemovalPackage) (requested : gset rstr).

Definition check_requested (name : rstr) : result unit RemovalError :=
  let? info := ok_or (installed !! name) (NotInstalled name) in
  ensure (negb (essential info) && negb (protected info)) (ProtectedPackage name).

(** Some alternative goes away and none stays. *)
Definition group_broken (alternatives : list rstr) : bool :=
  existsb (fun name => bool_decide (name ∈ requested)) alternatives
  && negb (existsb (fun name => bool_decide (name ∈ dom installed) && negb (bool_decide (name ∈ requested))) alternatives).

Definition blockers : gset rstr :=
  list_to_set (omap (fun '(dependent, info) =>
    if bool_decide (dependent ∈ requested) then None
    else if existsb group_broken (dependency_groups info) then Some dependent else None) (map_to_list installed)).

(** The dependencies of a requested package that are requested too. *)
Definition requested_dependencies (dependent : rstr) : list rstr :=
  match installed !! dependent with
  | Some info => List.filter (fun name => bool_decide (name ∈ requested)) (concat (dependency_groups info))
  | None => []
  end.

Record RemovalGraph := {
  in_degree : gmap rstr nat;
  dependencies : gmap rstr (gset rstr)
}.

Definition graph_edge (dependent : rstr) (g : RemovalGraph) (dependency : rstr) : RemovalGraph :=
  let deps := default ∅ (dependencies g !! dependent) in
  {| in_degree :=
       if bool_decide (dependency ∈ deps) then in_degree g
       else <[dependency := S (default 0%nat (in_degree g !! dependency))]> (in_degree g);
     dependencies := <[dependent := {[dependency]} ∪ deps]> (dependencies g) |}.

Definition removal_graph : RemovalGraph :=
  foldl (fun g dependent => foldl (graph_edge dependent) g (requested_dependencies dependent))
    {| in_degree := gset_to_gmap 0%nat requested; dependencies := ∅ |} (elements requested).

(** [pop_first] of a BTreeSet. *)
Definition pop_first (s : gset rstr) : option (rstr * gset rstr) :=
  match sort_strs (elements s) with
  | x :: _ => Some (x, s ∖ {[x]})
  | [] => None
  end.

(** One dependency of the package just ordered. *)
Definition release (s : gset rstr * gmap rstr nat) (dependency : rstr) : gset rstr * gmap rstr nat :=
  let '(ready, degrees) := s in
  match degrees !! dependency with
  | Some degree =>
      let degree := pred degree in
      (if (degree =? 0)%nat then {[dependency]} ∪ ready else ready, <[dependency := degree]> degrees)
  | None => s
  end.

Fixpoint order_loop (fuel : nat) (g : RemovalGraph) (ready : gset rstr) (degrees : gmap rstr nat) (ordered : list rstr)
  : option (list rstr) :=
  match fuel with
  | O => None
  | S fuel =>
      match pop_first ready with
      | None => Some ordered
      | Some (name, ready) =>
          let '(ready, degrees) :=
            foldl release (ready, degrees) (sort_strs (elements (default ∅ (dependencies g !! name)))) in
          order_loop fuel g ready degrees (ordered ++ [name])
      end
  end.

Definition initial_ready (degrees : gmap rstr nat) : gset rstr :=
  list_to_set (omap (fun '(name, degree) => if (degree =? 0)%nat then Some name else None) (map_to_list degrees)).

(** Every pass orders one more package. *)
Definition removal_order : option (list rstr) :=
  let g := removal_graph in
  ordered ← order_loop (S (size requested)) g (initial_ready (in_degree g)) (in_degree g) [];
  Some (if (length ordered =? size requested)%nat then ordered
        else ordered ++ sort_strs (elements (requested ∖ list_to_set ordered))).

(** [None] is running out of fuel. *)
Definition plan_removal : result (option (list rstr)) RemovalError :=
  for_each (fun _ => check_requested) tt (elements requested) ;?
  ensure (bool_decide (blockers = ∅)) (Blocked (sort_strs (elements blockers))) ;?
  Ok removal_order.
End plan.

Definition plan_debian_removal (status : rstr) (requested : list rstr) : result (option (list rstr)) RemovalError :=
  plan_removal (read_installed status) (list_to_set requested).

(** * Rewriting the status file *)

Definition paragraph_package (paragraph : rstr) : option rstr :=
  trim <$> find_prefixed (str "Package: ") paragraph.

(** [pending] maps the names still to be written to their entries. *)
Definition merge_paragraph (s : gmap rstr rstr * rstr) (paragraph : rstr) : gmap rstr rstr * rstr :=
  let '(pending, out) := s in
  if str_eqb (trim paragraph) [] then s
  else
    match (name ← paragraph_package paragraph; entry ← pending !! name; Some (name, entry)) with
    | Some (name, entry) => (delete name pending, out ++ entry ++ [NL])
    | None => (pending, out ++ paragraph ++ [NL; NL])
    end.

Definition append_pending (s : gmap rstr rstr * rstr) (e : rstr * rstr) : gmap rstr rstr * rstr :=
  let '(pending, out) := s in
  let '(name, entry) := e in
  match pending !! name with
  | Some _ => (delete name pending, out ++ entry ++ [NL])
  | None => s
  end.

Definition merge_status_entries (current : rstr) (entries : list (rstr * rstr)) : rstr :=
  let pending := foldl (fun m '(name, entry) => <[name := entry]> m) ∅ entries in
  let s := foldl merge_paragraph (pending, []) (split_str [NL; NL] current) in
  (foldl append_pending s entries).2.
