(* ===== verification/DebRemovalProofs.v ===== *)
(** A removal plan removes what was asked for, breaks no installed package,
    and takes dependents before what they depend on. *)

From S2P Require Import Prelude DebVersion DebResolver DebResolverClosure Deb822 Deb822Proofs DpkgStatus DpkgStatusProofs DebRemoval.
Open Scope Z_scope.
Open Scope omg_scope.

Section plan.
Context (installed : gmap rstr InstalledRemovalPackage) (requested : gset rstr).

(** Requested [a] depends on requested [b]. *)
Definition removal_dep (a b : rstr) : Prop := a ∈ requested /\ b ∈ requested_dependencies installed requested a.

Definition deps_of (a : rstr) : gset rstr := list_to_set (requested_dependencies installed requested a).

(** The packages of [s] that depend on [x]. *)
Definition preds (s : gset rstr) (x : rstr) : gset rstr := filter (fun a => x ∈ deps_of a) s.

Lemma elem_of_preds s x a : a ∈ preds s x <-> a ∈ s /\ x ∈ deps_of a.
Proof. unfold preds. rewrite elem_of_filter. naive_solver. Qed.

Lemma deps_of_requested a x : x ∈ deps_of a -> x ∈ requested.
Proof.
  unfold deps_of, requested_dependencies. rewrite elem_of_list_to_set.
  destruct (installed !! a); [|by intros ?%not_elem_of_nil].
  rewrite list_elem_of_In, filter_In. intros [_ H]. by apply bool_decide_eq_true in H.
Qed.

Lemma size_preds_union s a x :
  (a ∉ s) -> size (preds ({[a]} ∪ s) x) = (size (preds s x) + (if decide (x ∈ deps_of a) then 1 else 0))%nat.
Proof.
  intros Ha. case_decide as Hx.
  - replace (preds ({[a]} ∪ s) x) with ({[a]} ∪ preds s x).
    + rewrite size_union, size_singleton; [lia|]. apply disjoint_singleton_l. rewrite elem_of_preds. naive_solver.
    + apply set_eq. intros b. rewrite elem_of_union, !elem_of_preds, elem_of_union, elem_of_singleton. naive_solver.
  - replace (preds ({[a]} ∪ s) x) with (preds s x); [lia|].
    apply set_eq. intros b. rewrite !elem_of_preds, elem_of_union, elem_of_singleton. naive_solver.
Qed.

(** ** The graph *)

Record graph_ok (g : RemovalGraph) (done : gset rstr) : Prop := {
  go_deps : forall a, default ∅ (dependencies g !! a) = if decide (a ∈ done) then deps_of a else ∅;
  go_degree : forall x, x ∈ requested -> in_degree g !! x = Some (size (preds done x));
  go_dom : dom (in_degree g) = requested
}.

(** Adding the edges of one package, some of them already there. *)
Lemma graph_edges_spec a g ds deps :
  Forall (fun d => d ∈ requested) ds -> default ∅ (dependencies g !! a) = deps -> dom (in_degree g) = requested ->
  let g' := foldl (graph_edge a) g ds in
  default ∅ (dependencies g' !! a) = list_to_set ds ∪ deps /\
  (forall b, b ≠ a -> dependencies g' !! b = dependencies g !! b) /\
  dom (in_degree g') = requested /\
  forall x n, in_degree g !! x = Some n ->
    in_degree g' !! x = Some (n + (if decide (x ∈ ds /\ x ∉ deps) then 1 else 0))%nat.
Proof.
  intros H. revert g deps. induction H as [|d ds Hd Hds IH]; intros g deps Hdeps Hdom; cbn [foldl].
  { split_and!; [rewrite Hdeps; set_solver|done|done|].
    intros x n Hx. rewrite decide_False, Nat.add_0_r by set_solver. done. }
  assert (Hdeps' : default ∅ (dependencies (graph_edge a g d) !! a) = {[d]} ∪ deps).
  { simpl. rewrite lookup_insert_eq. simpl. by rewrite Hdeps. }
  assert (Hdom' : dom (in_degree (graph_edge a g d)) = requested).
  { simpl. case_bool_decide; [done|]. rewrite dom_insert_L, Hdom. clear -Hd. set_solver. }
  destruct (IH (graph_edge a g d) ({[d]} ∪ deps) Hdeps' Hdom') as (H1 & H2 & H3 & H4). split_and!.
  - rewrite H1. clear. set_solver.
  - intros b Hb. rewrite H2 by done. simpl. by rewrite lookup_insert_ne.
  - done.
  - intros x n Hx. assert (Hstep : in_degree (graph_edge a g d) !! x =
      Some (n + (if decide (x = d /\ x ∉ deps) then 1 else 0))%nat).
    { simpl. rewrite Hdeps. case_bool_decide as Hin.
      - rewrite decide_False, Nat.add_0_r by (intros [-> ?]; done). done.
      - destruct (decide (x = d)) as [->|Hne].
        + rewrite lookup_insert_eq, Hx. simpl. rewrite decide_True by done. f_equal. lia.
        + rewrite lookup_insert_ne, decide_False, Nat.add_0_r by (done || naive_solver). done. }
    rewrite (H4 _ _ Hstep). f_equal. clear.
    repeat case_decide; try lia; exfalso; set_solver.
Qed.

Lemma removal_graph_ok : graph_ok (removal_graph installed requested) requested.
Proof.
  unfold removal_graph.
  assert (Hgen : forall l done g, NoDup l -> (forall a, a ∈ l -> a ∉ done) -> graph_ok g done ->
    graph_ok (foldl (fun g dependent => foldl (graph_edge dependent) g (requested_dependencies installed requested dependent)) g l)
      (list_to_set l ∪ done)).
  { induction l as [|a l IH]; intros done g Hnd Hfresh Hg; cbn [foldl].
    - replace (list_to_set [] ∪ done) with done by set_solver. done.
    - apply NoDup_cons in Hnd as [Ha Hnd].
      replace (list_to_set (a :: l) ∪ done) with (list_to_set l ∪ ({[a]} ∪ done) : gset rstr) by set_solver.
      assert (Hda : a ∉ done) by (apply Hfresh; by left).
      destruct Hg as [G1 G2 G3].
      destruct (graph_edges_spec a g (requested_dependencies installed requested a) ∅) as (E1 & E2 & E3 & E4).
      { apply Forall_forall. intros d Hd. apply (deps_of_requested a). by apply elem_of_list_to_set. }
      { rewrite G1. by rewrite decide_False. }
      { done. }
      apply IH; [done| |].
      { intros b Hb. apply not_elem_of_union. split; [|apply Hfresh; by right].
        rewrite not_elem_of_singleton. by intros ->. }
      split; [| |done].
      + intros b. destruct (decide (b = a)) as [->|Hb].
        * rewrite E1, decide_True by set_solver. unfold deps_of. set_solver.
        * rewrite E2, G1 by done. repeat case_decide; set_solver.
      + intros x Hx. rewrite (E4 x _ (G2 x Hx)), size_preds_union by done. f_equal. f_equal.
        unfold deps_of. repeat case_decide; try done; exfalso; set_solver. }
  specialize (Hgen (elements requested) ∅ {| in_degree := gset_to_gmap 0%nat requested; dependencies := ∅ |}).
  rewrite list_to_set_elements_L, union_empty_r_L in Hgen. apply Hgen.
  - apply NoDup_elements.
  - set_solver.
  - split; cbn [dependencies in_degree].
    + intros a. rewrite lookup_empty, decide_False by set_solver. done.
    + intros x Hx. rewrite lookup_gset_to_gmap, option_guard_True by done. done.
    + apply dom_gset_to_gmap.
Qed.

(** ** Ordering *)

Lemma pop_first_Some s x s' : pop_first s = Some (x, s') -> x ∈ s /\ s' = s ∖ {[x]}.
Proof.
  unfold pop_first. destruct (sort_strs (elements s)) as [|y l] eqn:E; [done|]. intros [= <- <-]. split; [|done].
  apply elem_of_elements, elem_of_sort_strs. rewrite E. by left.
Qed.

Lemma pop_first_None s : pop_first s = None -> s = ∅.
Proof.
  unfold pop_first. destruct (sort_strs (elements s)) as [|y l] eqn:E; [|done]. intros _.
  apply leibniz_equiv, elements_empty_iff, Permutation_nil_r. by rewrite <- (sort_strs_perm (elements s)), E.
Qed.

(** Releasing the dependencies of a package lowers each of their degrees. *)
Lemma release_spec ds ready degrees :
  NoDup ds -> (forall d, d ∈ ds -> is_Some (degrees !! d)) ->
  let '(ready', degrees') := foldl release (ready, degrees) ds in
  (forall x, degrees' !! x = if decide (x ∈ ds) then pred <$> degrees !! x else degrees !! x) /\
  (forall x, x ∈ ready' <-> x ∈ ready \/ x ∈ ds /\ degrees' !! x = Some 0%nat).
Proof.
  revert ready degrees. induction ds as [|d ds IH]; intros ready degrees Hnd Hs; cbn [foldl].
  { split; intros x; [by rewrite decide_False by apply not_elem_of_nil|]. rewrite elem_of_nil. naive_solver. }
  apply NoDup_cons in Hnd as [Hd Hnd]. destruct (Hs d ltac:(by left)) as [n Hn].
  unfold release at 2. rewrite Hn.
  set (ready1 := if (pred n =? 0)%nat then {[d]} ∪ ready else ready). set (degrees1 := <[d := pred n]> degrees).
  specialize (IH ready1 degrees1 Hnd). destruct (foldl release (ready1, degrees1) ds) as [ready' degrees'].
  destruct IH as [H1 H2].
  { intros x Hx. unfold degrees1. rewrite lookup_insert_ne by (intros ->; done). apply Hs. by right. }
  assert (Hd' : degrees' !! d = Some (pred n)).
  { rewrite H1, decide_False by done. unfold degrees1. by rewrite lookup_insert_eq. }
  split.
  - intros x. destruct (decide (x = d)) as [->|Hne]; [rewrite Hd', decide_True, Hn by (by left); done|].
    rewrite H1. unfold degrees1. rewrite !lookup_insert_ne by done.
    rewrite (decide_ext (x ∈ d :: ds) (x ∈ ds)); [done|]. rewrite elem_of_cons. naive_solver.
  - intros x. rewrite H2, elem_of_cons. unfold ready1. destruct (Nat.eqb_spec (pred n) 0) as [E|E].
    + rewrite elem_of_union, elem_of_singleton. split; [|naive_solver]. intros [[-> |?]|[? ?]]; [|naive_solver..].
      right. split; [by left|]. by rewrite Hd', E.
    + split; [naive_solver|]. intros [?|[[-> |?] ?]]; naive_solver.
Qed.

(** [ordered] lists every dependent before its dependencies. *)
Definition dependents_first (ordered : list rstr) : Prop :=
  forall l1 x l2, ordered = l1 ++ x :: l2 -> forall a, a ∈ preds requested x -> a ∈ l1.

Record order_inv (ready : gset rstr) (degrees : gmap rstr nat) (ordered : list rstr) : Prop := {
  oi_nodup : NoDup ordered;
  oi_requested : forall x, x ∈ ordered -> x ∈ requested;
  oi_degree : forall x, x ∈ requested -> degrees !! x = Some (size (preds (requested ∖ list_to_set ordered) x));
  oi_ready : forall x, x ∈ ready <-> x ∈ requested ∖ list_to_set ordered /\ preds (requested ∖ list_to_set ordered) x = ∅;
  oi_first : dependents_first ordered
}.

Lemma dependents_first_snoc ordered x :
  dependents_first ordered -> (forall a, a ∈ preds requested x -> a ∈ ordered) -> dependents_first (ordered ++ [x]).
Proof.
  intros Ho Hx l1 y l2 E a Ha. destruct l2 as [|z l2] using rev_ind.
  - apply app_inj_tail in E as [<- <-]. by apply Hx.
  - clear IHl2. rewrite app_comm_cons, app_assoc in E. apply app_inj_tail in E as [-> _]. by eapply Ho.
Qed.

Lemma order_step g ready degrees ordered name :
  graph_ok g requested -> order_inv ready degrees ordered -> name ∈ ready ->
  let '(ready', degrees') :=
    foldl release (ready ∖ {[name]}, degrees) (sort_strs (elements (default ∅ (dependencies g !! name)))) in
  order_inv ready' degrees' (ordered ++ [name]).
Proof.
  intros Hg [Hnd Hreq Hdeg Hready Hfirst] Hname. set (R := requested ∖ list_to_set ordered) in *.
  apply Hready in Hname as [HnR Hnp]. assert (Hnreq : name ∈ requested) by (unfold R in HnR; set_solver).
  assert (Hno : name ∉ ordered) by (unfold R in HnR; set_solver).
  rewrite (go_deps _ _ Hg), decide_True by done.
  pose proof (release_spec (sort_strs (elements (deps_of name))) (ready ∖ {[name]}) degrees) as Hrel.
  destruct (foldl release _ _) as [ready' degrees'].
  destruct Hrel as [H1 H2].
  { rewrite sort_strs_perm. apply NoDup_elements. }
  { intros d Hd. rewrite elem_of_sort_strs, elem_of_elements in Hd. rewrite Hdeg by by eapply deps_of_requested. eauto. }
  set (R' := requested ∖ list_to_set (ordered ++ [name])).
  assert (HR : R = {[name]} ∪ R') by (apply set_eq; intros x; unfold R, R'; rewrite list_to_set_app_L; destruct (decide (x = name)); set_solver).
  assert (HnR' : name ∉ R') by (unfold R'; set_solver).
  assert (Hself : name ∉ deps_of name).
  { intros Hin. assert (name ∈ preds R name) as Hp by by apply elem_of_preds. rewrite Hnp in Hp. set_solver. }
  assert (Hdeg' : forall x, x ∈ requested -> degrees' !! x = Some (size (preds R' x))).
  { intros x Hx. rewrite H1, (Hdeg x Hx), HR, size_preds_union by done.
    destruct (decide (x ∈ deps_of name)) as [Hxd|Hxd].
    - rewrite decide_True by by rewrite elem_of_sort_strs, elem_of_elements. simpl. f_equal. lia.
    - rewrite decide_False by by rewrite elem_of_sort_strs, elem_of_elements. f_equal. lia. }
  split.
  - apply NoDup_app. split_and!; [done| |apply NoDup_singleton]. intros x Hx ->%list_elem_of_singleton. done.
  - intros x [Hx| ->%list_elem_of_singleton]%elem_of_app; [by apply Hreq|done].
  - done.
  - intros x. rewrite H2, elem_of_difference, elem_of_singleton, Hready, elem_of_sort_strs, elem_of_elements. fold R'.
    split.
    + intros [[[HxR Hxp] Hxn]|[Hxd Hx0]].
      * split; [set_solver|]. apply set_eq. intros a. rewrite elem_of_preds.
        assert (a ∉ preds R x) as Ha by (rewrite Hxp; set_solver). rewrite elem_of_preds in Ha. set_solver.
      * assert (Hxr : x ∈ requested) by by eapply deps_of_requested.
        rewrite (Hdeg' x Hxr) in Hx0. injection Hx0 as Hx0. apply size_empty_inv in Hx0.
        split; [|by apply leibniz_equiv in Hx0].
        assert (x ∉ ordered).
        { intros Hxo. apply list_elem_of_split in Hxo as (l1 & l2 & E). apply Hno.
          rewrite E. apply elem_of_app. left. eapply Hfirst; [exact E|]. by apply elem_of_preds. }
        assert (x ≠ name) by (intros ->; done). unfold R'. rewrite list_to_set_app_L. set_solver.
    + intros [HxR' Hxp]. destruct (decide (x ∈ deps_of name)) as [Hxd|Hxd].
      * right. split; [done|]. rewrite Hdeg' by (unfold R' in HxR'; set_solver). rewrite Hxp. by rewrite size_empty.
      * left. split; [split|]; [set_solver| |set_solver]. apply set_eq. intros a. rewrite elem_of_preds.
        assert (a ∉ preds R' x) as Ha by (rewrite Hxp; set_solver). rewrite elem_of_preds in Ha. set_solver.
  - apply dependents_first_snoc; [done|]. intros a [Har Had]%elem_of_preds.
    destruct (decide (a ∈ ordered)); [done|]. exfalso.
    assert (a ∈ preds R name) as Hp by (apply elem_of_preds; unfold R; set_solver). rewrite Hnp in Hp. set_solver.
Qed.

Lemma order_inv_length ready degrees ordered : order_inv ready degrees ordered -> (length ordered <= size requested)%nat.
Proof.
  intros H. rewrite <- (size_list_to_set (C := gset rstr) ordered) by apply (oi_nodup _ _ _ H).
  apply subseteq_size. intros x Hx. apply elem_of_list_to_set in Hx. by apply (oi_requested _ _ _ H).
Qed.

Lemma order_loop_spec g fuel ready degrees ordered :
  graph_ok g requested -> order_inv ready degrees ordered -> (size requested < fuel + length ordered)%nat ->
  exists ordered' degrees', order_loop fuel g ready degrees ordered = Some ordered' /\ order_inv ∅ degrees' ordered'.
Proof.
  intros Hg. revert ready degrees ordered. induction fuel as [|fuel IH]; intros ready degrees ordered Hi Hf.
  { pose proof (order_inv_length _ _ _ Hi). lia. }
  cbn [order_loop]. destruct (pop_first ready) as [[name ready1]|] eqn:E.
  - apply pop_first_Some in E as [Hn ->]. pose proof (order_step g ready degrees ordered name Hg Hi Hn) as Hs.
    destruct (foldl release _ _) as [ready' degrees']. apply IH; [done|]. rewrite length_app. simpl. lia.
  - apply pop_first_None in E as ->. by exists ordered, degrees.
Qed.

Lemma initial_inv : order_inv (initial_ready (in_degree (removal_graph installed requested)))
  (in_degree (removal_graph installed requested)) [].
Proof.
  destruct removal_graph_ok as [G1 G2 G3]. set (g := removal_graph installed requested) in *.
  assert (Hr : requested ∖ list_to_set [] = requested) by set_solver.
  split; rewrite ?Hr; [constructor|by intros x ?%not_elem_of_nil|done| |by intros [|? ?]].
  intros x. unfold initial_ready. rewrite elem_of_list_to_set, list_elem_of_omap. split.
  - intros ([k n] & Hk%elem_of_map_to_list & E). destruct (Nat.eqb_spec n 0) as [->|]; [|done]. injection E as ->.
    assert (Hx : x ∈ requested) by (rewrite <- G3; by apply elem_of_dom_2 in Hk).
    split; [done|]. rewrite G2 in Hk by done. injection Hk as Hk. by apply size_empty_inv, leibniz_equiv in Hk.
  - intros [Hx Hp]. exists (x, 0%nat). split; [|done]. apply elem_of_map_to_list. rewrite G2, Hp, size_empty by done. done.
Qed.

(** What is never ordered is downstream of a cycle. *)
Lemma accessible_ordered degrees ordered x :
  order_inv ∅ degrees ordered -> x ∈ requested -> Acc removal_dep x -> x ∈ ordered.
Proof.
  intros Hi Hx Hacc. induction Hacc as [x _ IH]. destruct (decide (x ∈ ordered)) as [|Hno]; [done|]. exfalso.
  destruct (set_choose_or_empty (preds (requested ∖ list_to_set ordered) x)) as [[a Ha]|He].
  - apply elem_of_preds in Ha as [Ha Hd]. apply elem_of_list_to_set in Hd.
    assert (Har : a ∈ requested) by set_solver.
    apply (IH a) in Har; [|done]. set_solver.
  - assert (Hin : x ∈ (∅ : gset rstr)); [|set_solver]. apply (oi_ready _ _ _ Hi). apply leibniz_equiv in He.
    split; [set_solver|done].
Qed.

Definition before (a b : rstr) (l : list rstr) : Prop := exists l1 l2 l3, l = l1 ++ a :: l2 ++ b :: l3.

Lemma removal_order_spec :
  exists ordered, removal_order installed requested = Some ordered /\ ordered ≡ₚ elements requested /\
    forall a b, removal_dep a b -> Acc removal_dep b -> before a b ordered.
Proof.
  unfold removal_order.
  destruct (order_loop_spec (removal_graph installed requested) (S (size requested)) _ _ []
    removal_graph_ok initial_inv) as (ordered & degrees & -> & Hi); [simpl; lia|].
  eexists. split; [done|].
  assert (Hrest : forall rest, (forall a b, removal_dep a b -> Acc removal_dep b -> before a b (ordered ++ rest))).
  { intros rest a b [Ha Hab] Hacc. assert (Hab' : b ∈ deps_of a) by by apply elem_of_list_to_set.
    assert (Hb : b ∈ ordered) by (eapply accessible_ordered; [done|by eapply deps_of_requested|done]).
    apply list_elem_of_split in Hb as (l1 & l3 & E).
    assert (Hal : a ∈ l1) by (eapply (oi_first _ _ _ Hi); [exact E|]; by apply elem_of_preds).
    apply list_elem_of_split in Hal as (k1 & k2 & ->). exists k1, k2, (l3 ++ rest). rewrite E.
    by rewrite <- !app_assoc. }
  assert (Hperm : ordered ++ sort_strs (elements (requested ∖ list_to_set ordered)) ≡ₚ elements requested).
  { rewrite sort_strs_perm. rewrite <- (elements_list_to_set (C := gset rstr) ordered) at 1 by apply (oi_nodup _ _ _ Hi).
    rewrite <- elements_disj_union by set_solver.
    replace (list_to_set ordered ∪ requested ∖ list_to_set ordered) with requested; [done|].
    apply set_eq. intros x. pose proof (oi_requested _ _ _ Hi x) as Hr.
    destruct (decide (x ∈ ordered)); set_solver. }
  destruct (Nat.eqb_spec (length ordered) (size requested)) as [E|E].
  - split.
    + assert (Hnil : sort_strs (elements (requested ∖ list_to_set ordered)) = []).
      { apply length_zero_iff_nil. apply Permutation_length in Hperm. rewrite length_app in Hperm.
        unfold size, set_size in E. simpl in E. lia. }
      by rewrite Hnil, app_nil_r in Hperm.
    + intros a b Hab Hacc. rewrite <- (app_nil_r ordered). by apply Hrest.
  - split; [done|]. intros a b. apply Hrest.
Qed.

(** Nothing essential or protected is asked for, and everything asked for is
    installed. *)
Definition removable : Prop :=
  forall x, x ∈ requested -> exists info, installed !! x = Some info /\ essential info = false /\ protected info = false.

(** A package that stays keeps a satisfier of every dependency group that
    loses one. *)
Definition keeps_satisfiers : Prop :=
  forall d info alternatives, installed !! d = Some info -> (d ∉ requested) -> alternatives ∈ dependency_groups info ->
    (exists x, x ∈ alternatives /\ x ∈ requested) ->
    exists y, y ∈ alternatives /\ y ∈ dom installed /\ (y ∉ requested).

Lemma check_requested_Ok name :
  check_requested installed name = Ok tt <->
  exists info, installed !! name = Some info /\ essential info = false /\ protected info = false.
Proof.
  unfold check_requested. destruct (installed !! name) as [info|]; simpl; [|split; [done|by intros (? & ? & _)]].
  rewrite ensure_Ok, andb_true_iff, !negb_true_iff. naive_solver.
Qed.

Lemma group_broken_true alternatives :
  group_broken installed requested alternatives = true <->
  (exists x, x ∈ alternatives /\ x ∈ requested) /\
  ~ (exists y, y ∈ alternatives /\ y ∈ dom installed /\ (y ∉ requested)).
Proof.
  unfold group_broken. rewrite andb_true_iff, negb_true_iff, existsb_exists, <- not_true_iff_false, existsb_exists.
  setoid_rewrite <- list_elem_of_In. setoid_rewrite andb_true_iff. setoid_rewrite negb_true_iff.
  setoid_rewrite bool_decide_eq_true. setoid_rewrite bool_decide_eq_false. done.
Qed.

Lemma blockers_empty : blockers installed requested = ∅ <-> keeps_satisfiers.
Proof.
  rewrite <- leibniz_equiv_iff, elem_of_equiv_empty. unfold blockers. setoid_rewrite elem_of_list_to_set.
  setoid_rewrite list_elem_of_omap. split.
  - intros H d info alts Hd Hn Hg Hx. destruct (decide (Exists (fun y => y ∈ dom installed /\ (y ∉ requested)) alts)) as [He|He].
    { apply Exists_exists in He. naive_solver. }
    exfalso. apply (H d). exists (d, info). rewrite elem_of_map_to_list. split; [done|].
    rewrite bool_decide_false by done. rewrite (proj2 (existsb_exists _ _)); [done|].
    exists alts. rewrite <- list_elem_of_In. split; [done|]. apply group_broken_true. split; [done|].
    rewrite Exists_exists in He. naive_solver.
  - intros H d ([d' info] & Hd%elem_of_map_to_list & E). case_bool_decide as Hn; [done|].
    destruct (existsb _ _) eqn:Eb; [|done]. apply existsb_exists in Eb as (alts & Hg%list_elem_of_In & Hb).
    apply group_broken_true in Hb as [Hx Hno]. apply Hno. by eapply H.
Qed.

(** C31: a removal is planned exactly when every requested package is
    installed and neither essential nor protected, and no package that stays
    would lose the last installed alternative of a dependency; every other
    request is refused with an error and nothing is removed. *)
Theorem removal_planned_iff_safe :
  (exists ordered, plan_removal installed requested = Ok (Some ordered)) <-> removable /\ keeps_satisfiers.
Proof.
  unfold plan_removal. split.
  - intros [ordered H]. res_inv. apply bool_decide_eq_true in Hr0. split; [|by apply blockers_empty].
    destruct a. intros x Hx. apply check_requested_Ok.
    apply (proj1 (for_each_unit_Ok (check_requested installed) (elements requested)) Hr). by apply elem_of_elements.
  - intros [Hr Hk]. destruct removal_order_spec as (ordered & -> & _). exists ordered.
    rewrite (proj2 (blockers_empty)) by done.
    rewrite (proj2 (for_each_unit_Ok (check_requested installed) (elements requested))); [done|].
    intros x Hx. apply check_requested_Ok, Hr. by apply elem_of_elements.
Qed.

(** a plan always comes out complete: it lists each requested package
    once, and a package comes before the packages it depends on, except where
    the dependency lies on or behind a dependency cycle. *)
Theorem removal_plan_is_ordered plan :
  plan_removal installed requested = Ok plan ->
  exists ordered, plan = Some ordered /\ ordered ≡ₚ elements requested /\
    forall a b, removal_dep a b -> Acc removal_dep b -> before a b ordered.
Proof.
  unfold plan_removal. intros H. res_inv. destruct removal_order_spec as (ordered & -> & Hp). by exists ordered.
Qed.
End plan.

(** * The status file after a transaction *)

Lemma split_once_str_line l s :
  (NL ∉ l) ->
  split_once_str [NL; NL] (l ++ s) = (fun ab => (l ++ ab.1, ab.2)) <$> split_once_str [NL; NL] s.
Proof.
  induction l as [|c l IH]; [by intros; simpl; destruct (split_once_str _ _) as [[? ?]|]|].
  intros [Hc Hl]%not_elem_of_cons.
  change (split_once_str [NL; NL] ((c :: l) ++ s)) with
    (match strip_prefix [NL; NL] (c :: l ++ s) with
     | Some rest => Some ([], rest)
     | None => match split_once_str [NL; NL] (l ++ s) with Some (a, b) => Some (c :: a, b) | None => None end
     end).
  rewrite strip_prefix_ne, IH by congruence. by destruct (split_once_str _ s) as [[? ?]|].
Qed.

Lemma split_once_str_inner c s :
  c ≠ NL -> split_once_str [NL; NL] (NL :: c :: s) =
  (fun ab => (NL :: ab.1, ab.2)) <$> split_once_str [NL; NL] (c :: s).
Proof.
  intros Hc.
  change (split_once_str [NL; NL] (NL :: c :: s)) with
    (match strip_prefix [NL] (c :: s) with
     | Some rest => Some ([], rest)
     | None => match split_once_str [NL; NL] (c :: s) with Some (a, b) => Some (NL :: a, b) | None => None end
     end).
  rewrite strip_prefix_ne by congruence. by destruct (split_once_str _ (c :: s)) as [[? ?]|].
Qed.

Lemma split_once_str_lines ls rest :
  good_paragraph ls ->
  split_once_str [NL; NL] (intercalate [NL] ls ++ [NL; NL] ++ rest) = Some (intercalate [NL] ls, rest).
Proof.
  intros [Hne H]. induction ls as [|l ls IH]; [done|]. apply Forall_cons in H as [[[Hnl _] Hl] Hls].
  destruct ls as [|l' ls].
  - cbn [intercalate]. rewrite split_once_str_line by done.
    change (split_once_str [NL; NL] ([NL; NL] ++ rest)) with (Some ([] : rstr, rest)). simpl. by rewrite app_nil_r.
  - rewrite intercalate_cons, <- !app_assoc by done. rewrite split_once_str_line by done.
    specialize (IH ltac:(done) Hls). set (tail := [NL; NL] ++ rest) in *.
    destruct (intercalate [NL] (l' :: ls)) as [|c t] eqn:Et.
    { apply Forall_cons in Hls as [[_ H] _]. destruct l'; [done|]. by destruct ls. }
    assert (c ≠ NL).
    { apply Forall_cons in Hls as [[[Hn _] Hx] _]. destruct l' as [|d l']; [done|]. apply not_elem_of_cons in Hn as [Hn _].
      destruct ls; simpl in Et; congruence. }
    change ([NL] ++ (c :: t) ++ tail) with (NL :: c :: t ++ tail). rewrite split_once_str_inner by done.
    change (c :: t ++ tail) with ((c :: t) ++ tail). by rewrite IH.
Qed.

Lemma split_str_render ps :
  Forall good_paragraph ps -> split_str [NL; NL] (render_file ps) = map (intercalate [NL]) ps ++ [[]].
Proof.
  intros H. unfold split_str.
  assert (Hf : (length (render_file ps) <= length (render_file ps))%nat) by lia.
  revert Hf. generalize (length (render_file ps)) at 2 3 as fuel.
  induction H as [|ls ps Hls _ IH]; intros fuel Hf; [by destruct fuel|].
  unfold render_file in *. rewrite bind_cons in *. rewrite <- app_assoc in *.
  rewrite !length_app in Hf. simpl in Hf. destruct fuel as [|fuel]; [lia|]. cbn [split_str_loop].
  rewrite split_once_str_lines by done. cbn [map app]. f_equal. apply IH. lia.
Qed.

(** A paragraph with its package name, and the entry text that replaces one. *)
Definition named_paragraph (np : rstr * list rstr) : Prop :=
  good_paragraph np.2 /\ paragraph_package (intercalate [NL] np.2) = Some np.1 /\ trim (intercalate [NL] np.2) ≠ [].

Definition entry_text (np : rstr * list rstr) : rstr * rstr := (np.1, intercalate [NL] np.2 ++ [NL]).

Definition replace_paragraph (entries : gmap rstr (list rstr)) (np : rstr * list rstr) : list rstr :=
  default np.2 (entries !! np.1).

Lemma pending_lookup (entries : list (rstr * list rstr)) n :
  NoDup (map fst entries) ->
  foldl (fun m '(name, entry) => <[name := entry]> m) (∅ : gmap rstr rstr) (map entry_text entries) !! n =
  (fun ls => intercalate [NL] ls ++ [NL]) <$> (list_to_map entries : gmap rstr (list rstr)) !! n.
Proof.
  intros Hnd. induction entries as [|[k ls] entries IH] using rev_ind; [done|].
  rewrite map_app in Hnd. apply NoDup_app in Hnd as (Hnd & Hk & _). rewrite map_app, foldl_app. simpl.
  assert (Hkn : k ∉ map fst entries) by (intros Hin; apply (Hk k Hin); by left).
  rewrite list_to_map_snoc by done. destruct (decide (k = n)) as [->|Hne].
  - by rewrite !lookup_insert_eq.
  - rewrite !lookup_insert_ne by done. by apply IH.
Qed.

Lemma merge_paragraphs_spec (entries : gmap rstr (list rstr)) ps pending out :
  Forall named_paragraph ps -> NoDup (map fst ps) ->
  (forall n, n ∈ map fst ps -> pending !! n = (fun ls => intercalate [NL] ls ++ [NL]) <$> entries !! n) ->
  let '(pending', out') := foldl merge_paragraph (pending, out) (map (fun np => intercalate [NL] np.2) ps) in
  out' = out ++ render_file (map (replace_paragraph entries) ps) /\
  forall n, pending' !! n = if decide (n ∈ map fst ps) then None else pending !! n.
Proof.
  intros H. revert pending out. induction H as [|[n ls] ps (Hg & Hn & Ht) _ IH]; intros pending out Hnd Hp; cbn [map foldl].
  { split; [by rewrite app_nil_r|done]. }
  apply NoDup_cons in Hnd as [Hnp Hnd]. cbn [fst snd] in *.
  assert (E : merge_paragraph (pending, out) (intercalate [NL] ls) =
    (delete n pending, out ++ render_file [replace_paragraph entries (n, ls)])).
  { unfold merge_paragraph, str_eqb. rewrite bool_decide_false, Hn by done. cbn [mbind option_bind].
    rewrite (Hp n) by by left. unfold replace_paragraph, render_file. cbn [fst snd].
    destruct (entries !! n) as [ls'|] eqn:En; simpl; rewrite ?app_nil_r, <- ?app_assoc; [done|].
    rewrite delete_id; [done|]. rewrite (Hp n) by by left. by rewrite En. }
  rewrite E. specialize (IH (delete n pending) (out ++ render_file [replace_paragraph entries (n, ls)]) Hnd).
  destruct (foldl merge_paragraph _ _) as [pending' out']. destruct IH as [H1 H2].
  { intros m Hm. rewrite lookup_delete_ne by (intros ->; done). apply Hp. by right. }
  split.
  - rewrite H1. unfold render_file. simpl. by rewrite app_nil_r, <- !app_assoc.
  - intros m. rewrite H2. destruct (decide (m = n)) as [->|Hne].
    + rewrite lookup_delete_eq, (decide_True (P := n ∈ n :: _)) by by left. by case_decide.
    + rewrite lookup_delete_ne by done. rewrite (decide_ext (m ∈ n :: map fst ps) (m ∈ map fst ps)); [done|].
      rewrite elem_of_cons. naive_solver.
Qed.

Lemma append_pending_spec entries pending out :
  NoDup (map fst entries) ->
  (foldl append_pending (pending, out) (map entry_text entries)).2 =
  out ++ render_file (map snd (List.filter (fun np => bool_decide (is_Some (pending !! np.1))) entries)).
Proof.
  revert pending out. induction entries as [|[n ls] entries IH]; intros pending out Hnd; cbn [map foldl]; [by rewrite app_nil_r|].
  apply NoDup_cons in Hnd as [Hn Hnd]. cbn [fst snd List.filter].
  change (append_pending (pending, out) (entry_text (n, ls))) with
    (match pending !! n with
     | Some _ => (delete n pending, out ++ (intercalate [NL] ls ++ [NL]) ++ [NL])
     | None => (pending, out)
     end).
  destruct (pending !! n) as [e|] eqn:E; [rewrite bool_decide_true by (by eexists)|].
  2:{ rewrite bool_decide_false by (by intros [? ?]). by rewrite IH. }
  rewrite IH by done. unfold render_file. cbn [map snd]. rewrite bind_cons, <- !app_assoc.
  rewrite (filter_ext_in (fun np : rstr * list rstr => bool_decide (is_Some (delete n pending !! np.1)))
    (fun np => bool_decide (is_Some (pending !! np.1)))); [done|].
  intros [m ls'] Hin%list_elem_of_In. simpl. apply bool_decide_ext.
  rewrite lookup_delete_ne; [done|]. intros <-. apply Hn. by apply (list_elem_of_fmap_2 fst) in Hin.
Qed.

(** recording a transaction in the dpkg status file replaces the
    paragraph of each recorded package in place, appends the paragraphs of
    new packages in order, and keeps every other paragraph as it was: the
    file written is again a sequence of paragraphs separated by one blank
    line. *)
Theorem merge_status_replaces ps entries :
  Forall named_paragraph ps -> NoDup (map fst ps) -> NoDup (map fst entries) ->
  merge_status_entries (render_file (map snd ps)) (map entry_text entries) =
  render_file (map (replace_paragraph (list_to_map entries)) ps ++
               map snd (List.filter (fun np => negb (bool_decide (np.1 ∈ map fst ps))) entries)).
Proof.
  intros Hps Hnd Hne. unfold merge_status_entries. rewrite split_str_render.
  2:{ apply Forall_map. eapply Forall_impl; [exact Hps|]. by intros np [? _]. }
  rewrite foldl_app, map_map. set (pending := foldl _ ∅ (map entry_text entries)).
  pose proof (merge_paragraphs_spec (list_to_map entries) ps pending [] Hps Hnd) as Hm.
  destruct (foldl merge_paragraph _ _) as [pending' out]. destruct Hm as [-> Hp].
  { intros n _. by apply pending_lookup. }
  change (foldl merge_paragraph (pending', ?o) [[]]) with (pending', o).
  rewrite append_pending_spec by done. unfold render_file. rewrite bind_app. simpl app.
  rewrite (filter_ext_in (fun np : rstr * list rstr => bool_decide (is_Some (pending' !! np.1)))
    (fun np => negb (bool_decide (np.1 ∈ map fst ps)))); [done|].
  intros [n ls] Hin%list_elem_of_In. simpl. rewrite Hp. case_decide as Hc.
  - rewrite bool_decide_false by (by intros [? ?]). by rewrite bool_decide_true.
  - rewrite (bool_decide_false (n ∈ _)) by done. apply bool_decide_true. unfold pending. rewrite pending_lookup by done.
    destruct ((list_to_map entries : gmap rstr (list rstr)) !! n) eqn:El; [done|].
    apply not_elem_of_list_to_map in El. exfalso. apply El. by apply (list_elem_of_fmap_2 fst) in Hin.
Qed.

(** * Packages on hold *)

Definition held_status : rstr :=
  render_file [[str "Package: libfoo"; str "Status: install ok installed"; str "Architecture: amd64"; str "Version: 1"];
               [str "Package: editor"; str "Status: hold ok installed"; str "Architecture: amd64"; str "Version: 2";
                str "Depends: libfoo"]].

(** a package on hold is installed for the inventory but not for the
    removal planner, which only knows the status [install ok installed]: the
    planner lets the only satisfier of its dependency be removed. *)
Theorem held_package_loses_dependency :
  exists inventory, parse_security_inventory held_status = Ok inventory /\
    map sp_name inventory = [str "libfoo"; str "editor"] /\
    dependencies_from_status held_status (str "editor") = ([str "libfoo"], []) /\
    plan_debian_removal held_status [str "libfoo"] = Ok (Some [str "libfoo"]).
Proof. eexists. split_and!; vm_compute; reflexivity. Qed.

(** ** Witnesses *)

Definition sample_removal : gmap rstr InstalledRemovalPackage :=
  {[str "app" := {| essential := false; protected := false; dependency_groups := [[str "lib"]] |};
    str "lib" := {| essential := false; protected := false; dependency_groups := [] |}]}.

Lemma removal_plan_is_ordered_witness :
  exists ordered, plan_removal sample_removal {[str "app"; str "lib"]} = Ok (Some ordered) /\
    ordered ≡ₚ elements ({[str "app"; str "lib"]} : gset rstr) /\ ordered = [str "app"; str "lib"].
Proof.
  exists [str "app"; str "lib"].
  assert (E : plan_removal sample_removal {[str "app"; str "lib"]} = Ok (Some [str "app"; str "lib"]))
    by (vm_compute; reflexivity).
  split; [exact E|]. split; [|reflexivity].
  destruct (removal_plan_is_ordered sample_removal {[str "app"; str "lib"]} _ E) as (o & Ho & Hp & _).
  injection Ho as <-. exact Hp.
Defined.

Lemma merge_status_replaces_witness :
  merge_status_entries
    (render_file [[str "Package: a"; str "Version: 1"]; [str "Package: b"; str "Version: 1"]])
    (map entry_text [(str "c", [str "Package: c"]); (str "a", [str "Package: a"; str "Version: 2"])]) =
  render_file [[str "Package: a"; str "Version: 2"]; [str "Package: b"; str "Version: 1"]; [str "Package: c"]].
Proof.
  etrans; [apply (merge_status_replaces
    [(str "a", [str "Package: a"; str "Version: 1"]); (str "b", [str "Package: b"; str "Version: 1"])]
    [(str "c", [str "Package: c"]); (str "a", [str "Package: a"; str "Version: 2"])])|].
  - unfold named_paragraph, good_paragraph, one_line. apply (bool_decide_unpack _). vm_compute. done.
  - apply (bool_decide_unpack _). vm_compute. done.
  - apply (bool_decide_unpack _). vm_compute. done.
  - vm_compute. reflexivity.
Defined.
