(* ===== verification/ParallelBuild.v ===== *)
(** Parallel AUR builds: src/src/package_managers/aur/parallel_build.rs.

    Jobs are grouped into waves by their dependencies; within a wave builds
    run concurrently under a limit and finish in any order. A wave is a
    transition system: [spawn] and [join] are the two halves of the loop of
    [build_level], and [level_step] lets any running task finish next with any
    outcome. The AUR client (authorization, building, installing) is outside
    this file: its answers are arbitrary. *)

From S2P Require Import Prelude.
Open Scope Z_scope.
Open Scope omg_scope.

(** * Jobs *)

Record BuildJob := {
  job_package : rstr;
  job_outputs : list rstr;
  job_dependencies : list rstr
}.

Definition job_new (package : rstr) (dependencies : list rstr) : BuildJob :=
  {| job_package := package; job_outputs := [package]; job_dependencies := dependencies |}.

Definition for_package_base (package_base : rstr) (outputs dependencies : list rstr) : BuildJob :=
  {| job_package := package_base; job_outputs := dedup (sort_strs outputs);
     job_dependencies := dedup (sort_strs dependencies) |}.

(** * Summary *)

Section build.
(** Errors, authorizations and built archives of the client. *)
Context {E Auth Archive : Type}.

Inductive BuildError :=
| DuplicateJob (package : rstr)
| ReviewNeedsTerminal
| CircularDependency (packages : list rstr)
| MissingJob (package : rstr)
| MissingAuthorization (package : rstr)
| MissingTask (id : nat)
| ClientError (e : E).

Record ParallelBuildSummary := {
  succeeded_outputs : list rstr;
  failed_outputs : list rstr;
  skipped_outputs : list rstr;
  failures : list (rstr * E)
}.

Definition summary_default : ParallelBuildSummary :=
  {| succeeded_outputs := []; failed_outputs := []; skipped_outputs := []; failures := [] |}.

Definition record_job_result (self : ParallelBuildSummary) (job : BuildJob) (r : result unit E) : ParallelBuildSummary :=
  match r with
  | Ok _ =>
      {| succeeded_outputs := succeeded_outputs self ++ job_outputs job; failed_outputs := failed_outputs self;
         skipped_outputs := skipped_outputs self; failures := failures self |}
  | Err error =>
      {| succeeded_outputs := succeeded_outputs self; failed_outputs := failed_outputs self ++ job_outputs job;
         skipped_outputs := skipped_outputs self; failures := failures self ++ [(job_package job, error)] |}
  end.

Definition record_skipped (self : ParallelBuildSummary) (job : BuildJob) : ParallelBuildSummary :=
  {| succeeded_outputs := succeeded_outputs self; failed_outputs := failed_outputs self;
     skipped_outputs := skipped_outputs self ++ job_outputs job; failures := failures self |}.

Definition merge (self other : ParallelBuildSummary) : ParallelBuildSummary :=
  {| succeeded_outputs := succeeded_outputs self ++ succeeded_outputs other;
     failed_outputs := failed_outputs self ++ failed_outputs other;
     skipped_outputs := skipped_outputs self ++ skipped_outputs other;
     failures := failures self ++ failures other |}.

(** * Waves *)

Definition validate_unique_jobs (jobs : list BuildJob) : result unit BuildError :=
  let? _ := for_each (fun (bases : gset rstr) job =>
    ensure (negb (bool_decide (job_package job ∈ bases))) (DuplicateJob (job_package job)) ;?
    Ok ({[job_package job]} ∪ bases)) ∅ jobs in
  Ok tt.

Definition build_dependency_graph (jobs : list BuildJob) : gmap rstr (gset rstr) :=
  let all_packages : gset rstr := list_to_set (map job_package jobs) in
  foldl (fun graph job =>
    <[job_package job := list_to_set (List.filter (fun dep => bool_decide (dep ∈ all_packages)) (job_dependencies job))]> graph)
    ∅ jobs.

(** The packages whose dependencies are all satisfied. *)
Definition level_ready (graph : gmap rstr (gset rstr)) (satisfied : gset rstr) (pkg : rstr) : bool :=
  match graph !! pkg with
  | None => true
  | Some deps => bool_decide (deps ⊆ satisfied)
  end.

(** [None] is running out of fuel. Which five packages a cycle error names
    depends on the order of a hash set. *)
Fixpoint levels_loop (fuel : nat) (graph : gmap rstr (gset rstr)) (remaining satisfied : gset rstr) (levels : list (list rstr))
  : option (result (list (list rstr)) BuildError) :=
  match fuel with
  | O => None
  | S fuel =>
      if bool_decide (remaining = ∅) then Some (Ok levels)
      else
        match sort_strs (List.filter (level_ready graph satisfied) (elements remaining)) with
        | [] => Some (Err (CircularDependency (take 5 (elements remaining))))
        | current_level =>
            levels_loop fuel graph (remaining ∖ list_to_set current_level) (list_to_set current_level ∪ satisfied)
              (levels ++ [current_level])
        end
  end.

(** Every pass removes at least one package. *)
Definition topological_levels (graph : gmap rstr (gset rstr)) : option (result (list (list rstr)) BuildError) :=
  levels_loop (S (size (dom graph))) graph (dom graph) ∅ [].

Definition concurrency_for_level (max_concurrent level_len : nat) : nat := Nat.min (Nat.max max_concurrent 1) level_len.

(** ** One wave *)

Record LevelState := {
  package_iter : list rstr;
  tasks : gset nat;
  in_flight_jobs : gmap nat BuildJob;
  next_id : nat;
  wave_archives : list Archive;
  level_summary : ParallelBuildSummary;
  authorized_jobs : gmap rstr Auth
}.

Definition level_start (packages : list rstr) (authorized : gmap rstr Auth) : LevelState :=
  {| package_iter := packages; tasks := ∅; in_flight_jobs := ∅; next_id := 0; wave_archives := [];
     level_summary := summary_default; authorized_jobs := authorized |}.

Section level.
Context (jobs : gmap rstr BuildJob) (concurrency : nat).

(** The condition and the exit of the inner loop. *)
Definition can_spawn (s : LevelState) : bool :=
  (size (tasks s) <? concurrency)%nat && negb (bool_decide (package_iter s = [])).

Definition spawn (s : LevelState) : result LevelState BuildError :=
  match package_iter s with
  | [] => Ok s
  | package :: rest =>
      let? job := ok_or (jobs !! package) (MissingJob package) in
      let? _ := ok_or (authorized_jobs s !! package) (MissingAuthorization package) in
      Ok {| package_iter := rest; tasks := {[next_id s]} ∪ tasks s;
            in_flight_jobs := <[next_id s := job]> (in_flight_jobs s); next_id := S (next_id s);
            wave_archives := wave_archives s; level_summary := level_summary s;
            authorized_jobs := delete package (authorized_jobs s) |}
  end.

(** Task [id] ends with [outcome]; a panic or a cancellation is an error. *)
Definition join (s : LevelState) (id : nat) (outcome : result (list Archive) E) : result LevelState BuildError :=
  let? job := ok_or (in_flight_jobs s !! id) (MissingTask id) in
  Ok {| package_iter := package_iter s; tasks := tasks s ∖ {[id]}; in_flight_jobs := delete id (in_flight_jobs s);
        next_id := next_id s;
        wave_archives := wave_archives s ++ match outcome with Ok archives => archives | Err _ => [] end;
        level_summary :=
          record_job_result (level_summary s) job (match outcome with Ok _ => Ok tt | Err error => Err error end);
        authorized_jobs := authorized_jobs s |}.

Inductive LevelConfig :=
| Running (s : LevelState)
| Finished (s : LevelState)
| Failed (e : BuildError).

Definition resume (r : result LevelState BuildError) : LevelConfig :=
  match r with Ok s => Running s | Err e => Failed e end.

Inductive level_step : LevelConfig -> LevelConfig -> Prop :=
| step_spawn s : can_spawn s = true -> level_step (Running s) (resume (spawn s))
| step_join s id outcome : can_spawn s = false -> id ∈ tasks s -> level_step (Running s) (resume (join s id outcome))
| step_finish s : can_spawn s = false -> tasks s = ∅ -> level_step (Running s) (Finished s).
End level.

(** The runs of [build_level]: the wave and then the installation of what it
    built, which may fail. *)
Inductive build_level (jobs : gmap rstr BuildJob) (max_concurrent : nat) (packages : list rstr) (authorized : gmap rstr Auth)
  : result (ParallelBuildSummary * gmap rstr Auth) BuildError -> Prop :=
| level_failed e :
    rtc (level_step jobs (concurrency_for_level max_concurrent (length packages)))
      (Running (level_start packages authorized)) (Failed e) ->
    build_level jobs max_concurrent packages authorized (Err e)
| level_not_installed s e :
    rtc (level_step jobs (concurrency_for_level max_concurrent (length packages)))
      (Running (level_start packages authorized)) (Finished s) ->
    wave_archives s ≠ [] ->
    build_level jobs max_concurrent packages authorized (Err (ClientError e))
| level_done s :
    rtc (level_step jobs (concurrency_for_level max_concurrent (length packages)))
      (Running (level_start packages authorized)) (Finished s) ->
    build_level jobs max_concurrent packages authorized (Ok (level_summary s, authorized_jobs s)).

(** ** All waves *)

Definition skip_level (jobs : gmap rstr BuildJob) (summary : ParallelBuildSummary) (packages : list rstr)
  : result ParallelBuildSummary BuildError :=
  for_each (fun summary package =>
    let? job := ok_or (jobs !! package) (MissingJob package) in
    Ok (record_skipped summary job)) summary packages.

Inductive build_waves (jobs : gmap rstr BuildJob) (max_concurrent : nat)
  : list (list rstr) -> gmap rstr Auth -> ParallelBuildSummary -> result ParallelBuildSummary BuildError -> Prop :=
| waves_done authorized summary : build_waves jobs max_concurrent [] authorized summary (Ok summary)
| waves_error level levels authorized summary e :
    build_level jobs max_concurrent level authorized (Err e) ->
    build_waves jobs max_concurrent (level :: levels) authorized summary (Err e)
| waves_stop level levels authorized summary wave authorized' :
    build_level jobs max_concurrent level authorized (Ok (wave, authorized')) -> failed_outputs wave ≠ [] ->
    build_waves jobs max_concurrent (level :: levels) authorized summary
      (skip_level jobs (merge summary wave) (concat levels))
| waves_next level levels authorized summary wave authorized' r :
    build_level jobs max_concurrent level authorized (Ok (wave, authorized')) -> failed_outputs wave = [] ->
    build_waves jobs max_concurrent levels authorized' (merge summary wave) r ->
    build_waves jobs max_concurrent (level :: levels) authorized summary r.

Section packages.
(** The client: whether a review would need a terminal that is missing, the
    authorization of a job, and taking the privileges to install. *)
Context (review_blocked : bool) (authorize : rstr -> list rstr -> result Auth E) (privileges : result unit E).

Definition jobs_by_package (jobs : list BuildJob) : gmap rstr BuildJob :=
  list_to_map (rev (map (fun job => (job_package job, job)) jobs)).

Definition authorize_all (jobs : gmap rstr BuildJob) (packages : list rstr) : result (gmap rstr Auth) BuildError :=
  for_each (fun authorized package =>
    let? job := ok_or (jobs !! package) (MissingJob package) in
    let? auth := map_err ClientError (authorize (job_package job) (job_outputs job)) in
    Ok (<[package := auth]> authorized)) ∅ packages.

(** The checks before the first wave; [None] is running out of fuel. *)
Definition prepare (jobs : list BuildJob) : option (result (list (list rstr) * gmap rstr Auth) BuildError) :=
  match validate_unique_jobs jobs, review_blocked with
  | Err e, _ => Some (Err e)
  | Ok _, true => Some (Err ReviewNeedsTerminal)
  | Ok _, false =>
      levels ← topological_levels (build_dependency_graph jobs);
      Some (let? levels := levels in
            let? authorized := authorize_all (jobs_by_package jobs) (concat levels) in
            let? _ := map_err ClientError privileges in
            Ok (levels, authorized))
  end.

(** [build_packages]: its possible answers. *)
Definition build_packages (max_concurrent : nat) (jobs : list BuildJob) (r : result ParallelBuildSummary BuildError) : Prop :=
  if bool_decide (map job_package jobs = []) then r = Ok summary_default
  else
    match prepare jobs with
    | None => False
    | Some (Err e) => r = Err e
    | Some (Ok (levels, authorized)) =>
        build_waves (jobs_by_package jobs) (Nat.max max_concurrent 1) levels authorized summary_default r
    end.
End packages.
End build.
