(* ===== verification/ParallelBuildProofs.v ===== *)
(** Parallel builds: the waves respect dependencies, every wave ends whatever
    order its builds finish in, and every output is accounted for. *)

From S2P Require Import Prelude ParallelBuild.
Open Scope Z_scope.
Open Scope omg_scope.

(** * Waves from the dependency graph *)

Section levels.
Context {E : Type} (graph : gmap rstr (gset rstr)).

(** [p] waits for [d]. *)
Definition waits_for (d p : rstr) : Prop := exists deps, graph !! p = Some deps /\ d ∈ deps.

(** Each package's dependencies lie in earlier levels. *)
Definition layered (levels : list (list rstr)) : Prop :=
  forall pre level post p d, levels = pre ++ level :: post -> p ∈ level -> waits_for d p -> d ∈ concat pre.

Record levels_inv (remaining satisfied : gset rstr) (levels : list (list rstr)) : Prop := {
  li_nodup : NoDup (concat levels);
  li_satisfied : satisfied = list_to_set (concat levels);
  li_split : forall p, p ∈ dom graph <-> p ∈ remaining \/ p ∈ satisfied;
  li_disjoint : remaining ## satisfied;
  li_layered : layered levels;
  li_sorted : Forall (StronglySorted str_le) levels
}.

Lemma elem_of_ready (remaining satisfied : gset rstr) p :
  p ∈ sort_strs (List.filter (level_ready graph satisfied) (elements remaining)) <->
  p ∈ remaining /\ level_ready graph satisfied p = true.
Proof. rewrite elem_of_sort_strs, list_elem_of_In, filter_In, <- list_elem_of_In, elem_of_elements. done. Qed.

Lemma level_ready_true satisfied p : level_ready graph satisfied p = true <-> forall d, waits_for d p -> d ∈ satisfied.
Proof.
  unfold level_ready, waits_for. destruct (graph !! p) as [deps|]; [|naive_solver].
  rewrite bool_decide_eq_true. split; [intros H d (? & [= <-] & Hd); by apply H|].
  intros H d Hd. apply H. eauto.
Qed.

Lemma layered_snoc levels level :
  layered levels -> (forall p d, p ∈ level -> waits_for d p -> d ∈ concat levels) -> layered (levels ++ [level]).
Proof.
  intros Hl Hn pre lv post p d Eq Hp Hd. destruct post as [|x post] using rev_ind.
  - apply app_inj_tail in Eq as [<- <-]. by eapply Hn.
  - clear IHpost. rewrite app_comm_cons, app_assoc in Eq. apply app_inj_tail in Eq as [-> _]. by eapply Hl.
Qed.

Lemma levels_step remaining satisfied levels level :
  levels_inv remaining satisfied levels ->
  level = sort_strs (List.filter (level_ready graph satisfied) (elements remaining)) ->
  levels_inv (remaining ∖ list_to_set level) (list_to_set level ∪ satisfied) (levels ++ [level]).
Proof.
  intros [Hnd Hs Hsp Hd Hl Hso] El.
  assert (Hin : forall p, p ∈ level <-> p ∈ remaining /\ level_ready graph satisfied p = true)
    by (intros p; rewrite El; apply elem_of_ready).
  assert (Hlnd : NoDup level).
  { rewrite El, sort_strs_perm. apply NoDup_ListNoDup, List.NoDup_filter, NoDup_ListNoDup, NoDup_elements. }
  split.
  - rewrite concat_app. cbn [concat]. rewrite app_nil_r. apply NoDup_app. split_and!; [done| |done].
    intros p Hp Hp'. apply Hin in Hp' as [Hp' _]. apply (Hd p Hp'). rewrite Hs. by apply elem_of_list_to_set.
  - rewrite concat_app. cbn [concat]. rewrite app_nil_r, list_to_set_app_L, Hs. apply union_comm_L.
  - intros p. rewrite Hsp, elem_of_difference, elem_of_union, elem_of_list_to_set.
    destruct (decide (p ∈ level)) as [Hp|]; [|naive_solver]. apply Hin in Hp as Hp'. naive_solver.
  - intros p [Hp1 Hp2]%elem_of_difference [Hp|Hp]%elem_of_union; [done|]. by apply (Hd p).
  - apply layered_snoc; [done|]. intros p d [_ Hr]%Hin Hw. rewrite level_ready_true in Hr. apply Hr in Hw.
    by rewrite Hs, elem_of_list_to_set in Hw.
  - apply Forall_app. split; [done|]. repeat constructor. rewrite El. apply sort_strs_sorted.
Qed.

(** The loop ends: with all packages placed, or with a rest in which every
    package waits for another of the rest. *)
Lemma levels_loop_spec fuel remaining satisfied levels :
  (size remaining < fuel)%nat -> levels_inv remaining satisfied levels ->
  (exists levels', levels_loop (E := E) fuel graph remaining satisfied levels = Some (Ok levels') /\
     levels_inv ∅ (list_to_set (concat levels')) levels') \/
  (exists e rest sat levels', levels_loop (E := E) fuel graph remaining satisfied levels = Some (Err e) /\
     levels_inv rest sat levels' /\ rest ≠ ∅ /\ forall p, p ∈ rest -> level_ready graph sat p = false).
Proof.
  revert remaining satisfied levels. induction fuel as [|fuel IH]; intros remaining satisfied levels Hf Hi; [lia|].
  cbn [levels_loop]. case_bool_decide as He.
  { left. exists levels. split; [done|]. rewrite <- (li_satisfied _ _ _ Hi), <- He. done. }
  pose proof (levels_step remaining satisfied levels _ Hi eq_refl) as Hi'.
  pose proof (elem_of_ready remaining satisfied) as Hin.
  destruct (sort_strs (List.filter (level_ready graph satisfied) (elements remaining))) as [|p level] eqn:El.
  - right. eexists _, remaining, satisfied, levels. split_and!; [done..|].
    intros p Hp. apply not_true_iff_false. intros Hr. by apply (not_elem_of_nil p), Hin.
  - apply IH; [|done]. assert (Hp : p ∈ remaining) by (apply Hin; by left).
    apply Nat.lt_le_trans with (size remaining); [|lia]. apply subset_size. set_solver.
Qed.

Lemma levels_start : levels_inv (dom graph) ∅ [].
Proof.
  split; [constructor|done|set_solver|set_solver| |constructor]. intros [|? ?] level post p d Eq; discriminate Eq.
Qed.

Lemma topological_levels_spec :
  (forall p d, waits_for d p -> d ∈ dom graph) ->
  match topological_levels (E := E) graph with
  | None => False
  | Some (Ok levels) =>
      concat levels ≡ₚ elements (dom graph) /\ layered levels /\ Forall (StronglySorted str_le) levels /\
      (forall p, p ∈ dom graph -> Acc waits_for p)
  | Some (Err e) => ~ (forall p, p ∈ dom graph -> Acc waits_for p)
  end.
Proof.
  intros Hclosed. unfold topological_levels.
  destruct (levels_loop_spec (S (size (dom graph))) (dom graph) ∅ [] ltac:(lia) levels_start)
    as [(levels & -> & Hi)|(e & rest & sat & levels & -> & Hi & Hne & Hr)].
  - assert (Hdom : forall p, p ∈ dom graph <-> p ∈ concat levels).
    { intros p. rewrite (li_split _ _ _ Hi p), elem_of_list_to_set. set_solver. }
    split_and!; [|apply (li_layered _ _ _ Hi)|apply (li_sorted _ _ _ Hi)|].
    + apply NoDup_Permutation; [apply (li_nodup _ _ _ Hi)|apply NoDup_elements|].
      intros p. by rewrite elem_of_elements, Hdom.
    + assert (Hacc : forall pre post, levels = pre ++ post -> forall p, p ∈ concat pre -> Acc waits_for p).
      { induction pre as [|level pre IH] using rev_ind; intros post Eq p Hp; [by apply not_elem_of_nil in Hp|].
        rewrite <- app_assoc in Eq. rewrite concat_app, elem_of_app in Hp. cbn [concat] in Hp. rewrite app_nil_r in Hp.
        destruct Hp as [Hp|Hp]; [by eapply IH|]. constructor. intros d Hd.
        eapply IH; [exact Eq|]. by eapply (li_layered _ _ _ Hi). }
      intros p Hp. apply (Hacc levels []); [by rewrite app_nil_r|]. by apply Hdom.
  - intros Hacc. apply set_choose_L in Hne as [p Hp].
    assert (Hpd : p ∈ dom graph) by (apply (li_split _ _ _ Hi); by left). specialize (Hacc p Hpd). clear Hpd.
    induction Hacc as [p _ IH]. specialize (Hr p Hp) as Hr'. apply not_true_iff_false in Hr'. apply Hr'.
    apply level_ready_true. intros d Hd. destruct (decide (d ∈ sat)) as [|Hds]; [done|]. exfalso.
    apply (IH d Hd). destruct (proj1 (li_split _ _ _ Hi d) (Hclosed _ _ Hd)); done.
Qed.
(** grouping into waves never runs on and is right: when it answers,
    every package is in exactly one wave, waves are sorted and a package comes
    in a later wave than everything it waits for; it refuses exactly the
    graphs in which some package waits, directly or not, for a cycle. The
    graph's dependencies are packages of the graph. *)
Theorem waves_are_topological :
  (forall p d, waits_for d p -> d ∈ dom graph) ->
  match topological_levels (E := E) graph with
  | None => False
  | Some (Ok levels) =>
      concat levels ≡ₚ elements (dom graph) /\ layered levels /\ Forall (StronglySorted str_le) levels /\
      (forall p, p ∈ dom graph -> Acc waits_for p)
  | Some (Err e) => ~ (forall p, p ∈ dom graph -> Acc waits_for p)
  end.
Proof. apply topological_levels_spec. Qed.
End levels.

(** * One wave *)

Section wave.
Context {E Auth Archive : Type} (jobs : gmap rstr BuildJob) (packages : list rstr) (authorized : gmap rstr Auth).
Context (concurrency : nat).
Context (Hnodup : NoDup packages).
Context (Hready : forall p, p ∈ packages -> is_Some (jobs !! p) /\ is_Some (authorized !! p)).

Definition outputs_of (p : rstr) : list rstr := match jobs !! p with Some job => job_outputs job | None => [] end.

Definition in_flight_outputs (m : gmap nat BuildJob) : list rstr := map_to_list m ≫= fun ij => job_outputs ij.2.

Abbreviation level_state := (LevelState (E := E) (Auth := Auth) (Archive := Archive)).
Abbreviation step := (level_step (E := E) (Auth := Auth) (Archive := Archive) jobs concurrency).

Record wave_inv (s : level_state) : Prop := {
  wv_tasks : forall id, id ∈ tasks s <-> is_Some (in_flight_jobs s !! id);
  wv_fresh : forall id, id ∈ tasks s -> (id < next_id s)%nat;
  wv_limit : (size (tasks s) <= concurrency)%nat;
  wv_iter : NoDup (package_iter s);
  wv_sub : forall p, p ∈ package_iter s -> p ∈ packages;
  wv_auth : forall p, p ∈ package_iter s \/ (p ∉ packages) -> authorized_jobs s !! p = authorized !! p;
  wv_account :
    succeeded_outputs (level_summary s) ++ failed_outputs (level_summary s) ++ in_flight_outputs (in_flight_jobs s)
    ++ (package_iter s ≫= outputs_of) ≡ₚ packages ≫= outputs_of;
  wv_skipped : skipped_outputs (level_summary s) = []
}.

Lemma wave_start : wave_inv (level_start packages authorized).
Proof.
  split; cbn [level_start tasks in_flight_jobs package_iter authorized_jobs level_summary]; try done.
  - intros id. rewrite lookup_empty. split; [set_solver|by intros [? ?]].
  - rewrite size_empty. lia.
Qed.

Lemma in_flight_insert m id job :
  m !! id = None -> in_flight_outputs (<[id := job]> m) ≡ₚ job_outputs job ++ in_flight_outputs m.
Proof. intros H. unfold in_flight_outputs. by rewrite map_to_list_insert. Qed.

Lemma in_flight_delete m id job :
  m !! id = Some job -> in_flight_outputs m ≡ₚ job_outputs job ++ in_flight_outputs (delete id m).
Proof.
  intros H. unfold in_flight_outputs. by rewrite <- (map_to_list_delete m id job H).
Qed.

(** Starting a build never fails and moves one package into flight. *)
Lemma spawn_inv s : wave_inv s -> can_spawn concurrency s = true -> exists s', spawn jobs s = Ok s' /\ wave_inv s'.
Proof.
  intros [Ht Hf Hl Hnd Hsub Ha Hacc Hsk] Hc. unfold can_spawn in Hc. apply andb_true_iff in Hc as [Hlt Hne].
  apply Nat.ltb_lt in Hlt. unfold spawn. destruct (package_iter s) as [|p rest] eqn:Ei; [done|].
  apply NoDup_cons in Hnd as [Hp Hnd].
  destruct (Hready p) as [[job Hj] [auth Hau]]; [apply Hsub; by left|].
  rewrite Hj, (Ha p), Hau by (left; by left). cbn [ok_or res_bind]. eexists. split; [done|].
  assert (Hid : next_id s ∉ tasks s) by (intros H; apply Hf in H; lia).
  assert (Hnone : in_flight_jobs s !! next_id s = None).
  { apply eq_None_not_Some. intros H. apply Hid. by apply Ht. }
  split; cbn [tasks in_flight_jobs next_id package_iter authorized_jobs level_summary].
  - intros id. rewrite elem_of_union, elem_of_singleton, Ht. destruct (decide (next_id s = id)) as [<-|Hne'].
    + rewrite lookup_insert_eq. naive_solver.
    + rewrite lookup_insert_ne by done. naive_solver.
  - intros id [->%elem_of_singleton|H]%elem_of_union; [lia|]. apply Hf in H. lia.
  - rewrite size_union, size_singleton by set_solver. lia.
  - done.
  - intros q Hq. apply Hsub. by right.
  - intros q Hq. rewrite lookup_delete_ne; [apply Ha; destruct Hq as [Hq|Hq]; [left; by right|by right]|].
    intros <-. destruct Hq as [Hq|Hq]; [done|]. apply Hq, Hsub. by left.
  - rewrite in_flight_insert by done. etrans; [|exact Hacc]. simpl. unfold outputs_of at 2. rewrite Hj.
    do 2 apply Permutation_app_head. rewrite !app_assoc. apply Permutation_app_tail, Permutation_app_comm.
  - done.
Qed.

(** A finished build leaves the flight and is recorded. *)
Lemma join_inv s id outcome : wave_inv s -> id ∈ tasks s -> exists s', join s id outcome = Ok s' /\ wave_inv s'.
Proof.
  intros [Ht Hf Hl Hnd Hsub Ha Hacc Hsk] Hid. apply Ht in Hid as Hj. destruct Hj as [job Hj].
  unfold join. rewrite Hj. cbn [ok_or res_bind]. eexists. split; [done|].
  split; cbn [tasks in_flight_jobs next_id package_iter authorized_jobs level_summary]; try done.
  - intros i. rewrite elem_of_difference, elem_of_singleton, Ht. destruct (decide (id = i)) as [<-|Hne].
    + rewrite lookup_delete_eq. split; [naive_solver|by intros [? ?]].
    + rewrite lookup_delete_ne by done. naive_solver.
  - intros i [H _]%elem_of_difference. by apply Hf.
  - etrans; [|exact Hl]. apply subseteq_size. set_solver.
  - etrans; [|exact Hacc]. rewrite (in_flight_delete _ _ _ Hj).
    destruct outcome as [archives|e]; cbn [record_job_result succeeded_outputs failed_outputs]; rewrite <- !app_assoc.
    + apply Permutation_app_head. rewrite !app_assoc. do 2 apply Permutation_app_tail. apply Permutation_app_comm.
    + done.
  - by destruct outcome.
Qed.

Definition config_ok (c : LevelConfig) : Prop :=
  match c with
  | Running s => wave_inv s
  | Finished s => wave_inv s /\ package_iter s = [] /\ tasks s = ∅
  | Failed _ => False
  end.

Lemma step_ok c c' : (packages = [] \/ (0 < concurrency)%nat) -> config_ok c -> step c c' -> config_ok c'.
Proof.
  intros Hpos Hc Hs. destruct Hs as [s Hsp|s id outcome Hsp Hid|s Hsp Ht]; simpl in Hc.
  - by destruct (spawn_inv s Hc Hsp) as (s' & -> & ?).
  - by destruct (join_inv s id outcome Hc Hid) as (s' & -> & ?).
  - split_and!; [done| |done]. unfold can_spawn in Hsp. rewrite Ht, size_empty in Hsp.
    destruct (package_iter s) as [|p rest] eqn:Ei; [done|]. destruct Hpos as [Hpos|Hpos].
    + pose proof (wv_sub s Hc p) as Hin. rewrite Ei, Hpos in Hin. by apply not_elem_of_nil in Hin; [|left].
    + rewrite (proj2 (Nat.ltb_lt _ _)) in Hsp by done. done.
Qed.

Lemma reachable_ok c :
  (packages = [] \/ (0 < concurrency)%nat) -> rtc step (Running (level_start packages authorized)) c -> config_ok c.
Proof.
  intros Hpos Hr. assert (H0 : config_ok (Running (level_start packages authorized))) by apply wave_start.
  revert H0. induction Hr as [|c1 c2 c3 Hs _ IH]; intros H; [done|]. apply IH. by eapply step_ok.
Qed.

(** What a wave still has to do; every step does some of it. *)
Definition work (c : LevelConfig (E := E) (Auth := Auth) (Archive := Archive)) : nat :=
  match c with
  | Running s => S (2 * length (package_iter s) + size (tasks s))
  | Finished _ => 0
  | Failed _ => 0
  end.

Lemma step_work c c' : step c c' -> (work c' < work c)%nat.
Proof.
  intros [s Hsp|s id outcome Hsp Hid|s Hsp Ht]; [| |simpl; lia].
  - unfold spawn. unfold can_spawn in Hsp. destruct (package_iter s) as [|p rest] eqn:Ei; [by rewrite andb_false_r in Hsp|].
    destruct (jobs !! p); cbn [ok_or res_bind resume work]; [|lia].
    destruct (authorized_jobs s !! p); cbn [ok_or res_bind resume work package_iter tasks]; [|lia].
    rewrite Ei. cbn [length]. pose proof (size_union_alt {[next_id s]} (tasks s)).
    assert ((size (({[next_id s]} : gset nat) ∪ tasks s) <= S (size (tasks s)))%nat).
    { rewrite size_union_alt, size_singleton. pose proof (subseteq_size (tasks s ∖ {[next_id s]}) (tasks s) ltac:(set_solver)). lia. }
    lia.
  - unfold join. destruct (in_flight_jobs s !! id); cbn [ok_or res_bind resume work package_iter tasks]; [|lia].
    assert ((size (tasks s ∖ {[id]}) < size (tasks s))%nat) by (apply subset_size; set_solver). lia.
Qed.

(** A finished wave has recorded all of its packages' outputs. *)
Lemma finished_accounts s :
  config_ok (Finished s) ->
  succeeded_outputs (level_summary s) ++ failed_outputs (level_summary s) ≡ₚ packages ≫= outputs_of.
Proof.
  intros (Hr & Hi & Ht). pose proof (wv_account s Hr) as Ha.
  assert (Hfl : in_flight_jobs s = ∅).
  { apply map_eq. intros id. rewrite lookup_empty. apply eq_None_not_Some. intros Hs.
    apply (wv_tasks s Hr) in Hs. rewrite Ht in Hs. set_solver. }
  rewrite Hi, Hfl in Ha. unfold in_flight_outputs in Ha. rewrite map_to_list_empty in Ha. simpl in Ha.
  by rewrite app_nil_r in Ha.
Qed.

(** C30: a wave always ends, whatever order its builds finish in and whatever
    they answer: no run makes more than two steps per package plus one, a
    running wave is never stuck, it never builds more than the limit at once
    and never fails by itself; when it ends, every output of its packages is
    recorded as succeeded or failed, exactly once. *)
Theorem wave_always_ends :
  packages = [] \/ (0 < concurrency)%nat ->
  (forall n c, nsteps step n (Running (level_start packages authorized)) c -> (n <= 2 * length packages + 1)%nat) /\
  (forall c, rtc step (Running (level_start packages authorized)) c ->
     match c with
     | Running s => (exists c', step (Running s) c') /\ (size (tasks s) <= concurrency)%nat
     | Finished s =>
         succeeded_outputs (level_summary s) ++ failed_outputs (level_summary s) ≡ₚ packages ≫= outputs_of
     | Failed _ => False
     end).
Proof.
  intros Hpos. split.
  - intros n c Hn. assert (Hw : forall m c1 c2, nsteps step m c1 c2 -> (m + work c2 <= work c1)%nat).
    { intros m c1 c2 H. induction H as [|m x y z Hxy _ IH]; [lia|]. apply step_work in Hxy. lia. }
    apply Hw in Hn. cbn [work level_start package_iter tasks] in Hn. rewrite size_empty in Hn. lia.
  - intros c Hr%reachable_ok; [|done]. destruct c as [s|s|e]; simpl in Hr; [| |done].
    + split; [|apply (wv_limit s Hr)]. destruct (can_spawn concurrency s) eqn:Hc.
      * eexists. by apply step_spawn.
      * destruct (set_choose_or_empty (tasks s)) as [[id Hid]|He].
        -- destruct (join_inv s id (Ok []) Hr Hid) as (s' & Hj & _). eexists. by apply (step_join jobs concurrency s id (Ok [])).
        -- eexists. apply step_finish; [done|]. by apply leibniz_equiv.
    + by apply finished_accounts.
Qed.
End wave.

(** * All waves *)

Section waves.
Context {E Auth Archive : Type} (jobs : gmap rstr BuildJob) (max_concurrent : nat) (Hmax : (0 < max_concurrent)%nat).

Lemma concurrency_positive (level : list rstr) :
  level = [] \/ (0 < concurrency_for_level max_concurrent (length level))%nat.
Proof. unfold concurrency_for_level. destruct level; [by left|right; simpl; lia]. Qed.

Definition level_ok (authorized : gmap rstr Auth) (level : list rstr) : Prop :=
  NoDup level /\ forall p, p ∈ level -> is_Some (jobs !! p) /\ is_Some (authorized !! p).

Lemma build_level_Ok level authorized (wave : ParallelBuildSummary (E := E)) authorized' :
  level_ok authorized level ->
  build_level (Archive := Archive) jobs max_concurrent level authorized (Ok (wave, authorized')) ->
  succeeded_outputs wave ++ failed_outputs wave ≡ₚ level ≫= outputs_of jobs /\ skipped_outputs wave = [] /\
  forall q, (q ∉ level) -> authorized' !! q = authorized !! q.
Proof.
  intros [Hnd Hr] H. inv H as [| |s Hs].
  pose proof (reachable_ok jobs level authorized _ Hnd Hr _ (concurrency_positive level) Hs) as Hok.
  destruct (Hok) as (Hi & _).
  split_and!; [by eapply finished_accounts|apply (wv_skipped _ _ _ _ _ Hi)|].
  intros q Hq. apply (wv_auth _ _ _ _ _ Hi). by right.
Qed.

Lemma skip_level_spec (summary : ParallelBuildSummary (E := E)) ps :
  (forall p, p ∈ ps -> is_Some (jobs !! p)) ->
  skip_level jobs summary ps =
  Ok {| succeeded_outputs := succeeded_outputs summary; failed_outputs := failed_outputs summary;
        skipped_outputs := skipped_outputs summary ++ (ps ≫= outputs_of jobs); failures := failures summary |}.
Proof.
  unfold skip_level. revert summary. induction ps as [|p ps IH]; intros summary H; cbn [for_each].
  { rewrite app_nil_r. by destruct summary. }
  destruct (H p ltac:(by left)) as [job Hj]. rewrite Hj. cbn [ok_or res_bind].
  rewrite IH by (intros q Hq; apply H; by right). cbn [record_skipped succeeded_outputs failed_outputs skipped_outputs failures].
  rewrite bind_cons, <- app_assoc. unfold outputs_of at 2. by rewrite Hj.
Qed.

(** The waves attempted and the ones skipped. Every attempted wave but the
    last succeeded completely. *)
Definition waves_shape (levels : list (list rstr)) (before after : ParallelBuildSummary (E := E)) : Prop :=
  exists pre post, levels = pre ++ post /\
    succeeded_outputs after ++ failed_outputs after ≡ₚ succeeded_outputs before ++ (concat pre ≫= outputs_of jobs) /\
    skipped_outputs after = skipped_outputs before ++ (concat post ≫= outputs_of jobs) /\
    (post ≠ [] -> failed_outputs after ≠ []) /\
    (forall o, o ∈ succeeded_outputs before -> o ∈ succeeded_outputs after) /\
    (forall pre1 level post1 o, pre = pre1 ++ level :: post1 -> o ∈ concat pre1 ≫= outputs_of jobs ->
       o ∈ succeeded_outputs after).

Lemma build_waves_shape (levels : list (list rstr)) (authorized : gmap rstr Auth) (summary after : ParallelBuildSummary (E := E)) :
  NoDup (concat levels) -> (forall p, p ∈ concat levels -> is_Some (jobs !! p) /\ is_Some (authorized !! p)) ->
  failed_outputs summary = [] ->
  build_waves (Archive := Archive) jobs max_concurrent levels authorized summary (Ok after) ->
  waves_shape levels summary after.
Proof.
  intros Hnd Hr Hf H. remember (Ok after) as r eqn:Er. revert after Er.
  induction H as [authorized summary|level levels authorized summary e H|
    level levels authorized summary wave authorized' H Hfail|
    level levels authorized summary wave authorized' r H Hok Hrest IH]; intros after Er.
  { simplify_eq. exists [], []. rewrite Hf. split_and!; [done|by rewrite !app_nil_r|by rewrite app_nil_r|done|done|].
    intros [|? ?] level post1 o Eq; discriminate Eq. }
  { discriminate Er. }
  all: simpl in Hnd, Hr; apply NoDup_app in Hnd as (Hnd1 & Hdis & Hnd2).
  all: apply build_level_Ok in H as (Hacc & Hsk & Hau);
    [|split; [done|intros p Hp; apply Hr, elem_of_app; by left]].
  - rewrite skip_level_spec in Er by (intros p Hp; apply Hr, elem_of_app; by right). injection Er as <-.
    exists [level], levels. cbn [succeeded_outputs failed_outputs skipped_outputs merge].
    rewrite Hf, Hsk, app_nil_r. simpl app at 2. rewrite <- app_assoc, Hacc. cbn [concat]. rewrite app_nil_r.
    split_and!; [done|done|done|done|intros o Ho; apply elem_of_app; by left|].
    intros [|? [|? ?]] lv post1 o Eq Ho; [by apply not_elem_of_nil in Ho|discriminate Eq|discriminate Eq].
  - destruct (IH Hnd2) with (after := after) as (pre & post & -> & H1 & H2 & H3 & H4 & H5); [|by simpl; rewrite Hf, Hok|done|].
    { intros p Hp. destruct (Hr p ltac:(apply elem_of_app; by right)) as [? Ha]. split; [done|].
      rewrite Hau; [done|]. intros Hp'. by apply (Hdis p). }
    rewrite Hok, app_nil_r in Hacc.
    assert (Hwave : forall o, o ∈ level ≫= outputs_of jobs -> o ∈ succeeded_outputs after).
    { intros o Ho. apply H4. simpl. apply elem_of_app. right. by rewrite Hacc. }
    exists (level :: pre), post. cbn [merge succeeded_outputs skipped_outputs] in H1, H2, H4.
    split_and!; [done| |by rewrite H2, Hsk, app_nil_r|done|intros o Ho; apply H4, elem_of_app; by left|].
    + rewrite H1, Hacc. cbn [concat]. by rewrite bind_app, app_assoc.
    + intros [|l0 pre1] lv post1 o Eq Ho; [by apply not_elem_of_nil in Ho|]. injection Eq as <- Eq.
      cbn [concat] in Ho. rewrite bind_app, elem_of_app in Ho. destruct Ho as [Ho|Ho]; [by apply Hwave|].
      by eapply H5.
Qed.
End waves.

(** * All jobs *)

Lemma validate_unique_jobs_Ok {E} jobs :
  validate_unique_jobs (E := E) jobs = Ok tt -> NoDup (map job_package jobs).
Proof.
  unfold validate_unique_jobs. intros H. apply res_bind_Ok in H as (bases & H & _).
  enough (NoDup (map job_package jobs) /\ bases = list_to_set (map job_package jobs)) by naive_solver.
  revert H. apply (for_each_inv _ (fun done (bases : gset rstr) =>
    NoDup (map job_package done) /\ bases = list_to_set (map job_package done))).
  { by split; [constructor|]. }
  intros pre job s1 s2 [Hnd ->] _ H. apply res_bind_Ok in H as (u & He & H). apply ensure_Ok in He. injection H as <-.
  apply negb_true_iff, bool_decide_eq_false in He. rewrite elem_of_list_to_set in He. rewrite map_app. split.
  - apply NoDup_app. split_and!; [done| |apply NoDup_singleton]. intros p Hp ->%list_elem_of_singleton. done.
  - rewrite list_to_set_app_L. simpl. set_solver.
Qed.

Lemma jobs_by_package_lookup jobs p job :
  NoDup (map job_package jobs) -> jobs_by_package jobs !! p = Some job <-> job ∈ jobs /\ job_package job = p.
Proof.
  intros Hnd. unfold jobs_by_package. rewrite <- elem_of_list_to_map.
  - rewrite list_elem_of_In, <- in_rev, in_map_iff. setoid_rewrite <- list_elem_of_In. naive_solver.
  - assert (Hk : map fst (rev (map (fun job => (job_package job, job)) jobs)) = rev (map job_package jobs))
      by by rewrite map_rev, map_map.
    change (NoDup (map fst (rev (map (fun job => (job_package job, job)) jobs)))). rewrite Hk.
    by rewrite <- Permutation_rev.
Qed.

Lemma graph_lookup jobs p deps :
  NoDup (map job_package jobs) -> build_dependency_graph jobs !! p = Some deps <->
  exists job, job ∈ jobs /\ job_package job = p /\
    deps = list_to_set (List.filter (fun dep => bool_decide (dep ∈ (list_to_set (map job_package jobs) : gset rstr)))
                          (job_dependencies job)).
Proof.
  unfold build_dependency_graph. generalize (list_to_set (map job_package jobs) : gset rstr) as all. intros all Hnd.
  induction jobs as [|job jobs IH] using rev_ind; [simpl; rewrite lookup_empty; split; [done|by intros (? & ?%not_elem_of_nil & _)]|].
  rewrite map_app in Hnd. apply NoDup_app in Hnd as (Hnd & Hdis & _). specialize (IH Hnd).
  rewrite foldl_app. cbn [foldl]. destruct (decide (job_package job = p)) as [<-|Hne].
  - rewrite lookup_insert_eq. split.
    + intros [= <-]. exists job. split_and!; [set_solver|done|done].
    + intros (job' & [Hj| ->%list_elem_of_singleton]%elem_of_app & Hp & ->); [|done]. exfalso.
      apply (Hdis (job_package job)); [|by left]. rewrite <- Hp. by apply (list_elem_of_fmap_2 job_package).
  - rewrite lookup_insert_ne by done. rewrite IH. split; intros (job' & Hj & Hp & ->).
    + exists job'. split_and!; [set_solver|done|done].
    + apply elem_of_app in Hj as [Hj| ->%list_elem_of_singleton]; [|done]. by exists job'.
Qed.

Lemma graph_waits jobs d p :
  NoDup (map job_package jobs) ->
  waits_for (build_dependency_graph jobs) d p <->
  exists job, job ∈ jobs /\ job_package job = p /\ d ∈ job_dependencies job /\ d ∈ map job_package jobs.
Proof.
  intros Hnd. unfold waits_for. setoid_rewrite (graph_lookup jobs p _ Hnd). split.
  - intros (deps & (job & Hj & Hp & ->) & Hd). exists job. rewrite elem_of_list_to_set in Hd.
    apply list_elem_of_In, filter_In in Hd as [Hd Ha]. apply bool_decide_eq_true in Ha. rewrite elem_of_list_to_set in Ha.
    by rewrite <- list_elem_of_In in Hd.
  - intros (job & Hj & Hp & Hd & Ha). eexists. split; [by exists job|]. rewrite elem_of_list_to_set, list_elem_of_In, filter_In.
    rewrite <- list_elem_of_In. split; [done|]. apply bool_decide_eq_true. by rewrite elem_of_list_to_set.
Qed.

Lemma graph_dom jobs p :
  NoDup (map job_package jobs) -> p ∈ dom (build_dependency_graph jobs) <-> p ∈ map job_package jobs.
Proof.
  intros Hnd. rewrite elem_of_dom. unfold is_Some. setoid_rewrite (graph_lookup jobs p _ Hnd).
  rewrite (list_elem_of_fmap job_package). naive_solver.
Qed.

Section packages.
Context {E Auth Archive : Type} (review_blocked : bool) (authorize : rstr -> list rstr -> result Auth E).
Context (privileges : result unit E).

Lemma authorize_all_Ok jobs ps authorized :
  authorize_all authorize jobs ps = Ok authorized ->
  forall p, p ∈ ps -> is_Some (jobs !! p) /\ is_Some (authorized !! p).
Proof.
  unfold authorize_all. apply (for_each_inv _ (fun done (authorized : gmap rstr Auth) =>
    forall p, p ∈ done -> is_Some (jobs !! p) /\ is_Some (authorized !! p))); [by intros p ?%not_elem_of_nil|].
  intros pre p s1 s2 Hi _ Hs. apply res_bind_Ok in Hs as (job & Hj%ok_or_Ok & Hs).
  apply res_bind_Ok in Hs as (auth & _ & Hs). injection Hs as <-.
  intros q [Hq| ->%list_elem_of_singleton]%elem_of_app; [|rewrite lookup_insert_eq; eauto].
  destruct (Hi q Hq) as [H1 H2]. split; [done|]. destruct (decide (p = q)) as [->|Hne]; [rewrite lookup_insert_eq; eauto|].
  by rewrite lookup_insert_ne.
Qed.

(** A finished run went through waves of a topological grouping. *)
Lemma build_packages_shape max_concurrent jobs summary :
  build_packages (Archive := Archive) review_blocked authorize privileges max_concurrent jobs (Ok summary) ->
  NoDup (map job_package jobs) /\
  exists levels, concat levels ≡ₚ map job_package jobs /\ layered (build_dependency_graph jobs) levels /\
    waves_shape (jobs_by_package jobs) levels summary_default summary.
Proof.
  unfold build_packages. case_bool_decide as He.
  { intros [= ->]. rewrite He. split; [constructor|]. exists []. split_and!; [done|by intros [|? ?]|].
    exists [], []. split_and!; try done. by intros [|? ?]. }
  unfold prepare. destruct (validate_unique_jobs jobs) as [[]|e] eqn:Ev; [|done].
  apply validate_unique_jobs_Ok in Ev. destruct review_blocked; [done|].
  pose proof (topological_levels_spec (E := E) (build_dependency_graph jobs)) as Hw.
  destruct (topological_levels _) as [[levels|e]|]; cbn [mbind option_bind res_bind]; [|done|done].
  destruct Hw as (Hperm & Hlay & _).
  { intros p d Hd. apply graph_dom; [done|]. apply graph_waits in Hd; naive_solver. }
  assert (Hp : concat levels ≡ₚ map job_package jobs).
  { rewrite Hperm. apply NoDup_Permutation; [apply NoDup_elements|done|]. intros p. rewrite elem_of_elements.
    by apply graph_dom. }
  destruct (authorize_all authorize (jobs_by_package jobs) (concat levels)) as [authorized|e] eqn:Ea; [|done].
  destruct privileges as [[]|e]; cbn [map_err res_bind]; [|done]. intros H. split; [done|]. exists levels. split_and!; [done|done|].
  eapply build_waves_shape; [|by rewrite Hp|by eapply authorize_all_Ok|done|exact H]. lia.
Qed.

Lemma outputs_of_jobs jobs :
  NoDup (map job_package jobs) -> (map job_package jobs ≫= outputs_of (jobs_by_package jobs)) = jobs ≫= job_outputs.
Proof.
  intros Hnd. assert (H : forall job, job ∈ jobs -> outputs_of (jobs_by_package jobs) (job_package job) = job_outputs job).
  { intros job Hj. unfold outputs_of. by rewrite (proj2 (jobs_by_package_lookup jobs _ job Hnd)). }
  clear Hnd. revert H. generalize (jobs_by_package jobs) as m. induction jobs as [|job jobs IH]; intros m H; [done|].
  cbn [map]. rewrite !bind_cons, H by (by left). f_equal. apply IH. intros j Hj. apply H. by right.
Qed.

(** a finished build accounts for every output of every job exactly once
    as succeeded, failed or skipped, in whatever order the builds ran, and
    outputs are skipped only after a failure. *)
Theorem build_accounts_for_every_output max_concurrent jobs summary :
  build_packages (Archive := Archive) review_blocked authorize privileges max_concurrent jobs (Ok summary) ->
  succeeded_outputs summary ++ failed_outputs summary ++ skipped_outputs summary ≡ₚ jobs ≫= job_outputs /\
  (skipped_outputs summary ≠ [] -> failed_outputs summary ≠ []).
Proof.
  intros (Hnd & levels & Hp & _ & pre & post & -> & H1 & H2 & H3 & _)%build_packages_shape.
  simpl in H1, H2. split.
  - rewrite app_assoc, H1, H2, <- bind_app, <- concat_app, Hp. by rewrite outputs_of_jobs.
  - rewrite H2. intros Hs. apply H3. by intros ->.
Qed.

(** no job is attempted before its dependencies have succeeded: when an
    output of a job was built or failed to build, every output of each job of
    the set it depends on is among the succeeded ones. *)
Theorem dependencies_succeed_first max_concurrent jobs summary job dep :
  build_packages (Archive := Archive) review_blocked authorize privileges max_concurrent jobs (Ok summary) ->
  NoDup (jobs ≫= job_outputs) -> job ∈ jobs -> dep ∈ jobs -> job_package dep ∈ job_dependencies job ->
  (exists o, o ∈ job_outputs job /\ (o ∈ succeeded_outputs summary \/ o ∈ failed_outputs summary)) ->
  forall o, o ∈ job_outputs dep -> o ∈ succeeded_outputs summary.
Proof.
  intros (Hnd & levels & Hp & Hlay & pre & post & -> & H1 & H2 & _ & _ & H5)%build_packages_shape Hout Hj Hd Hdep (o & Ho & Hatt).
  simpl in H1, H2.
  assert (Hof : forall j, j ∈ jobs -> outputs_of (jobs_by_package jobs) (job_package j) = job_outputs j).
  { intros j Hjj. unfold outputs_of. by rewrite (proj2 (jobs_by_package_lookup jobs _ j Hnd)). }
  assert (Hcat : (concat pre ≫= outputs_of (jobs_by_package jobs)) ++ (concat post ≫= outputs_of (jobs_by_package jobs))
    ≡ₚ jobs ≫= job_outputs) by by rewrite <- bind_app, <- concat_app, Hp, outputs_of_jobs.
  rewrite <- Hcat in Hout. apply NoDup_app in Hout as (_ & Hdis & _).
  assert (Hpre : job_package job ∈ concat pre).
  { assert (Hin : job_package job ∈ concat (pre ++ post)) by (rewrite Hp; by apply (list_elem_of_fmap_2 job_package)).
    rewrite concat_app, elem_of_app in Hin. destruct Hin as [Hin|Hin]; [done|]. exfalso. apply (Hdis o).
    - rewrite <- H1. apply elem_of_app. tauto.
    - apply list_elem_of_bind. exists (job_package job). by rewrite Hof. }
  apply list_elem_of_In, in_concat in Hpre as (level & Hl%list_elem_of_In & Hjl%list_elem_of_In).
  apply list_elem_of_split in Hl as (pre1 & post1 & ->).
  intros o' Ho'. eapply H5; [done|]. apply list_elem_of_bind. exists (job_package dep). rewrite Hof by done. split; [done|].
  eapply (Hlay pre1 level (post1 ++ post) (job_package job)); [by rewrite <- app_assoc|done|].
  apply graph_waits; [done|]. exists job. split_and!; [done..|]. by apply (list_elem_of_fmap_2 job_package).
Qed.
End packages.

(** ** Witnesses *)

Definition sample_jobs : list BuildJob := [job_new (str "app") [str "lib"; str "glibc"]; job_new (str "lib") []].

Lemma waves_are_topological_witness :
  topological_levels (E := unit) (build_dependency_graph sample_jobs) = Some (Ok [[str "lib"]; [str "app"]]) /\
  concat [[str "lib"]; [str "app"]] ≡ₚ elements (dom (build_dependency_graph sample_jobs)).
Proof.
  assert (Eq : topological_levels (E := unit) (build_dependency_graph sample_jobs) = Some (Ok [[str "lib"]; [str "app"]]))
    by (vm_compute; reflexivity).
  split; [exact Eq|].
  pose proof (waves_are_topological (E := unit) (build_dependency_graph sample_jobs)) as H.
  set (graph := build_dependency_graph sample_jobs) in *. destruct (topological_levels graph) as [r|]; [|done].
  injection Eq as ->. apply H. intros p d Hd. apply graph_dom; [apply (bool_decide_unpack _); vm_compute; done|].
  apply graph_waits in Hd; [|apply (bool_decide_unpack _); vm_compute; done]. naive_solver.
Defined.

Definition sample_authorized : gmap rstr unit := {[str "app" := tt; str "lib" := tt]}.

Lemma wave_always_ends_witness :
  let step := level_step (E := unit) (Auth := unit) (Archive := unit) (jobs_by_package sample_jobs) 2 in
  let start := Running (level_start [str "app"; str "lib"] sample_authorized) in
  (exists c, step start c) /\ (forall n c, nsteps step n start c -> (n <= 5)%nat).
Proof.
  destruct (wave_always_ends (E := unit) (Archive := unit) (jobs_by_package sample_jobs) [str "app"; str "lib"]
    sample_authorized 2) as [Hn Hr].
  - apply (bool_decide_unpack _). vm_compute. done.
  - intros p [-> |[-> |[]%not_elem_of_nil]%elem_of_cons]%elem_of_cons; (split; eexists; vm_compute; reflexivity).
  - right. lia.
  - split; [apply (Hr _ (rtc_refl _ _))|exact Hn].
Defined.

Definition sample_summary : ParallelBuildSummary (E := unit) :=
  {| succeeded_outputs := [str "lib"]; failed_outputs := [str "app"]; skipped_outputs := [];
     failures := [(str "app", tt)] |}.

Ltac run_wave outcome :=
  eapply rtc_l; [by apply step_spawn|]; eapply rtc_l; [apply (step_join _ _ _ 0%nat outcome); [done|vm_compute; set_solver]|];
  eapply rtc_l; [by apply step_finish|]; apply rtc_refl.

Lemma waves_stop_eq {E Auth Archive} jobs max_concurrent level levels authorized summary wave authorized'
    (r : result (ParallelBuildSummary (E := E)) (BuildError (E := E))) :
  build_level (Auth := Auth) (Archive := Archive) jobs max_concurrent level authorized (Ok (wave, authorized')) ->
  failed_outputs wave ≠ [] -> skip_level jobs (merge summary wave) (concat levels) = r ->
  build_waves (Archive := Archive) jobs max_concurrent (level :: levels) authorized summary r.
Proof. intros H1 H2 <-. by eapply waves_stop. Qed.

Lemma sample_run :
  build_packages (Auth := unit) (Archive := unit) false (fun _ _ => Ok tt) (Ok tt) 4 sample_jobs (Ok sample_summary).
Proof.
  unfold build_packages. rewrite bool_decide_false by done.
  replace (prepare _ _ _ _) with (Some (Ok ([[str "lib"]; [str "app"]], sample_authorized) : result _ (BuildError (E := unit))))
    by (vm_compute; reflexivity).
  eapply waves_next; [apply level_done; run_wave (Ok [] : result (list unit) unit)|done|].
  eapply waves_stop_eq; [apply level_done; run_wave (Err tt : result (list unit) unit)|done|].
  vm_compute. reflexivity.
Qed.

Lemma build_accounts_for_every_output_witness :
  succeeded_outputs sample_summary ++ failed_outputs sample_summary ++ skipped_outputs sample_summary
  ≡ₚ sample_jobs ≫= job_outputs.
Proof. apply (build_accounts_for_every_output false (fun _ _ => Ok tt) (Ok tt) 4 sample_jobs sample_summary sample_run). Defined.

Lemma dependencies_succeed_first_witness : str "lib" ∈ succeeded_outputs sample_summary.
Proof.
  eapply (dependencies_succeed_first false (fun _ _ => Ok tt) (Ok tt) 4 sample_jobs sample_summary
    (job_new (str "app") [str "lib"; str "glibc"]) (job_new (str "lib") []) sample_run).
  - apply (bool_decide_unpack _). vm_compute. done.
  - by left.
  - right. by left.
  - by left.
  - exists (str "app"). split; [by left|right; by left].
  - by left.
Defined.
