(* ===== verification/FaultProg.v ===== *)
(** Programs that make system calls, with faults.

    The shared setting of [DatabaseCommit], [RuntimeStore] and [DebExtract]: a program runs
    on a state of files, every system call consults an oracle, which lets it
    succeed, makes it fail or kills the process there, and a small program
    logic reasons about values and about kills alike. *)

From S2P Require Import Prelude.
Open Scope Z_scope.
Open Scope omg_scope.

Inductive FileKind := RegularFile | Symlink | Directory | SpecialFile.

#[export] Instance FileKind_eq_dec : EqDecision FileKind.
Proof. solve_decision. Defined.

Inductive IoError := NotFound | AlreadyExists | NotPermitted | IsADirectory | NotADirectory | DirectoryNotEmpty | TooManyLinks | IoFault.

Inductive Fault := NoFault | IoFailure | Crash.

(** [clock] counts the system calls; [keep_staging] is the state of the guard
    of a temporary directory ([TempDir::disable_cleanup]). *)
Record FMachine {S : Type} := {
  fs : S;
  clock : nat;
  keep_staging : bool
}.
Arguments FMachine S : clear implicits.

(** A program that the oracle kills has no value. *)
Definition FProg (S A : Type) : Type := FMachine S -> FMachine S * option A.

#[export] Instance prog_ret {S} : MRet (FProg S) := fun A a m => (m, Some a).
#[export] Instance prog_bind {S} : MBind (FProg S) := fun A B k p m =>
  match p m with
  | (m', Some a) => k a m'
  | (m', None) => (m', None)
  end.

Section prog.
Context {S : Type}.
Implicit Types m : FMachine S.

(** Early return of an error ([?]). *)
Definition try_prog {A B E} (p : FProg S (result A E)) (k : A -> FProg S (result B E)) : FProg S (result B E) :=
  r ← p; match r with Ok a => k a | Err e => mret (Err e) end.

Definition tick (m : FMachine S) (fs' : S) : FMachine S :=
  {| fs := fs'; clock := Datatypes.S (clock m); keep_staging := keep_staging m |}.

Definition disable_cleanup : FProg S unit := fun m =>
  ({| fs := fs m; clock := clock m; keep_staging := true |}, Some tt).

Definition syscall (oracle : nat -> Fault) {A} (act : S -> result (A * S) IoError) : FProg S (result A IoError) := fun m =>
  match oracle (clock m) with
  | Crash => (m, None)
  | IoFailure => (tick m (fs m), Some (Err IoFault))
  | NoFault =>
      match act (fs m) with
      | Ok (a, fs') => (tick m fs', Some (Ok a))
      | Err e => (tick m (fs m), Some (Err e))
      end
  end.

(** * Reasoning about programs

    [wp C p Q m]: started in [m], [p] ends in a state and with a value that
    satisfy [Q], or is killed in a state that satisfies [C]. *)

Definition wp {A} (C : FMachine S -> Prop) (p : FProg S A) (Q : A -> FMachine S -> Prop) (m : FMachine S) : Prop :=
  match p m with
  | (m', Some a) => Q a m'
  | (m', None) => C m'
  end.

Context (C : FMachine S -> Prop).

Lemma wp_ret {A} (a : A) Q m : Q a m -> wp C (mret a) Q m.
Proof. done. Qed.

Lemma wp_bind {A B} (p : FProg S A) (k : A -> FProg S B) Q m : wp C p (fun a => wp C (k a) Q) m -> wp C (p ≫= k) Q m.
Proof. unfold wp, mbind, prog_bind. by destruct (p m) as [m' [a|]]. Qed.

Lemma wp_mono {A} (p : FProg S A) (Q Q' : A -> FMachine S -> Prop) m :
  wp C p Q m -> (forall a m', Q a m' -> Q' a m') -> wp C p Q' m.
Proof. unfold wp. intros H HQ. destruct (p m) as [m' [a|]]; auto. Qed.

Lemma wp_try {A B E} (p : FProg S (result A E)) (k : A -> FProg S (result B E)) Q m :
  wp C p (fun r m' => match r with Ok a => wp C (k a) Q m' | Err e => Q (Err e) m' end) m ->
  wp C (try_prog p k) Q m.
Proof. intros H. apply wp_bind. eapply wp_mono; [exact H|]. intros [a|e] m'; simpl; [done|]. apply wp_ret. Qed.

Lemma wp_syscall {A} oracle (act : S -> result (A * S) IoError) Q m :
  C m ->
  (forall e, e = IoFault \/ act (fs m) = Err e -> Q (Err e) (tick m (fs m))) ->
  (forall a fs', act (fs m) = Ok (a, fs') -> Q (Ok a) (tick m fs')) ->
  wp C (syscall oracle act) Q m.
Proof.
  intros Hc He Ho. unfold wp, syscall. destruct (oracle (clock m)); [|by apply He; left|done].
  destruct (act (fs m)) as [[a fs']|e] eqn:Ha; [by apply Ho|apply He; by right].
Qed.
End prog.
