(* ===== verification/DatabaseCommit.v ===== *)
(** Publishing the sync databases: src/src/package_managers/parallel_sync.rs.

    [commit_staged_files] replaces the live databases of pacman by the ones
    downloaded to a staging directory, all of them or none. The file system is
    a table of directory entries and a table of inodes, since the code relies
    on hard links: the backup of a database is a second link to it, and
    renaming a link onto another link of the same inode does nothing. Every
    system call consults an oracle, which lets it succeed, makes it fail or
    kills the process there. Locking through libalpm is a parameter, and the
    durability of directory entries is not modelled: a directory sync has no
    effect, but may fail. *)

From S2P Require Import Prelude FaultProg.
Open Scope Z_scope.
Open Scope omg_scope.

(** * Files *)

Record FileInfo := {
  file_kind : FileKind;
  file_mode : Z;
  file_content : list Z
}.

Record Fs := {
  entries : gmap rstr Z;
  inodes : gmap Z FileInfo
}.

Abbreviation Prog := (FProg Fs) (only parsing).
Abbreviation Machine := (FMachine Fs) (only parsing).

Definition with_entries (fs : Fs) (es : gmap rstr Z) : Fs := {| entries := es; inodes := inodes fs |}.

(** The inode a path denotes, without following a link. *)
Definition lookup_file (fs : Fs) (path : rstr) : option (Z * FileInfo) :=
  ino ← entries fs !! path; info ← inodes fs !! ino; Some (ino, info).

Definition symlink_metadata (path : rstr) (fs : Fs) : result (FileInfo * Fs) IoError :=
  match lookup_file fs path with
  | Some (_, info) => Ok (info, fs)
  | None => Err NotFound
  end.

(** [set_permissions] on a path that is not a symbolic link. *)
Definition set_permissions (path : rstr) (mode : Z) (fs : Fs) : result (unit * Fs) IoError :=
  match lookup_file fs path with
  | Some (ino, info) =>
      let info' := {| file_kind := file_kind info; file_mode := mode; file_content := file_content info |} in
      Ok (tt, {| entries := entries fs; inodes := <[ino := info']> (inodes fs) |})
  | None => Err NotFound
  end.

(** [linkat] without [AT_SYMLINK_FOLLOW]: a symbolic link is linked itself. *)
Definition linkat (old new : rstr) (fs : Fs) : result (unit * Fs) IoError :=
  match lookup_file fs old with
  | None => Err NotFound
  | Some (ino, info) =>
      if bool_decide (file_kind info = Directory) then Err NotPermitted
      else match entries fs !! new with
           | Some _ => Err AlreadyExists
           | None => Ok (tt, with_entries fs (<[new := ino]> (entries fs)))
           end
  end.

(** [rename] of something other than a directory. *)
Definition rename (old new : rstr) (fs : Fs) : result (unit * Fs) IoError :=
  match lookup_file fs old with
  | None => Err NotFound
  | Some (ino, info) =>
      if bool_decide (file_kind info = Directory) then Err NotPermitted
      else if bool_decide (entries fs !! new = Some ino) then Ok (tt, fs)
      else match lookup_file fs new with
           | Some (_, target) =>
               if bool_decide (file_kind target = Directory) then Err IsADirectory
               else Ok (tt, with_entries fs (<[new := ino]> (delete old (entries fs))))
           | None => Ok (tt, with_entries fs (<[new := ino]> (delete old (entries fs))))
           end
  end.

Definition remove_file (path : rstr) (fs : Fs) : result (unit * Fs) IoError :=
  match lookup_file fs path with
  | None => Err NotFound
  | Some (_, info) =>
      if bool_decide (file_kind info = Directory) then Err IsADirectory
      else Ok (tt, with_entries fs (delete path (entries fs)))
  end.

(** [sync_parent_directory_sync]. *)
Definition sync_parent_directory (path : rstr) (fs : Fs) : result (unit * Fs) IoError := Ok (tt, fs).

(** [Path::with_extension] for a path that ends in a file name. *)
Definition file_stem (name : rstr) : rstr :=
  match rsplit_once (ch ".") name with
  | Some (before, _) => if str_eqb before [] then name else before
  | None => name
  end.

Definition with_extension (path extension : rstr) : rstr :=
  match rsplit_once (ch "/") path with
  | Some (dir, name) => dir ++ ch "/" :: file_stem name ++ ch "." :: extension
  | None => file_stem path ++ ch "." :: extension
  end.

(** * Staged files and publications *)

Record StagedFile := {
  sf_staged : rstr;
  sf_destination : rstr;
  sf_publish : bool
}.

Record DatabasePublication := {
  staged : rstr;
  destination : rstr;
  publish : bool;
  backup : option rstr;
  published : bool
}.

Inductive RollbackError :=
| WithdrawFailed (path : rstr) (e : IoError)
| RestoreFailed (path : rstr) (e : IoError)
| SyncRollbackFailed (path : rstr) (e : IoError)
| RecoveryRetained.

Inductive CommitError {E : Type} :=
| DownloadsFailed (n : Z)
| LockFailed (e : E)
| MissingStaged (path : rstr) (e : IoError)
| StagedNotRegular (path : rstr)
| StagedModeFailed (path : rstr) (e : IoError)
| NotReplaceable (path : rstr) (rollback : list RollbackError)
| InspectFailed (path : rstr) (e : IoError) (rollback : list RollbackError)
| BackupFailed (path : rstr) (e : IoError) (rollback : list RollbackError)
| PublishFailed (path : rstr) (e : IoError) (rollback : list RollbackError)
| SyncFailed (path : rstr) (e : IoError) (rollback : list RollbackError)
| ReleaseFailed (e : E).
Arguments CommitError E : clear implicits.

Definition publication (file : StagedFile) : DatabasePublication :=
  {| staged := sf_staged file; destination := sf_destination file; publish := sf_publish file;
     backup := None; published := false |}.

Definition set_backup (p : DatabasePublication) (path : rstr) : DatabasePublication :=
  {| staged := staged p; destination := destination p; publish := publish p;
     backup := Some path; published := published p |}.

Definition set_published (p : DatabasePublication) : DatabasePublication :=
  {| staged := staged p; destination := destination p; publish := publish p;
     backup := backup p; published := true |}.

Definition backup_path (staged : rstr) (index : nat) : rstr :=
  with_extension staged (str "omg-backup-" ++ to_string (Z.of_nat index)).

Section commit.
Context (oracle : nat -> Fault).
Context {E : Type}.

(** ** Rolling back *)

(** Push a message when a call failed. *)
Definition note {A} (errors : list RollbackError) (r : result A IoError) (message : IoError -> RollbackError)
  : list RollbackError :=
  match r with Ok _ => errors | Err e => errors ++ [message e] end.

Definition withdraw (p : DatabasePublication) (errors : list RollbackError) : Prog (list RollbackError) :=
  if published p && publish p then
    r ← match backup p with
        | Some _ => syscall oracle (linkat (destination p) (staged p))
        | None => syscall oracle (rename (destination p) (staged p))
        end;
    mret (note errors r (WithdrawFailed (destination p)))
  else mret errors.

Definition restore (p : DatabasePublication) (errors : list RollbackError) : Prog (list RollbackError) :=
  match backup p with
  | Some path =>
      r ← syscall oracle (rename path (destination p));
      mret (note errors r (RestoreFailed (destination p)))
  | None => mret errors
  end.

Fixpoint undo_all (publications : list DatabasePublication) (errors : list RollbackError) : Prog (list RollbackError) :=
  match publications with
  | [] => mret errors
  | p :: publications =>
      errors ← withdraw p errors;
      errors ← restore p errors;
      undo_all publications errors
  end.

Fixpoint sync_rollback (publications : list DatabasePublication) (errors : list RollbackError)
  : Prog (list RollbackError) :=
  match publications with
  | [] => mret errors
  | p :: publications =>
      errors ←
        (if bool_decide (is_Some (backup p)) || (published p && publish p) then
           r ← syscall oracle (sync_parent_directory (destination p));
           mret (note errors r (SyncRollbackFailed (destination p)))
         else mret errors);
      sync_rollback publications errors
  end.

Definition rollback_database_publication (publications : list DatabasePublication) : Prog (list RollbackError) :=
  errors ← undo_all (rev publications) [];
  errors ← sync_rollback publications errors;
  match errors with
  | [] => mret []
  | _ => _ ← disable_cleanup; mret (errors ++ [RecoveryRetained])
  end.

Definition roll_back_and_fail {A} (publications : list DatabasePublication)
    (failure : list RollbackError -> CommitError E) : Prog (result A (CommitError E)) :=
  errors ← rollback_database_publication publications; mret (Err (failure errors)).

(** ** The phases of a commit *)

(** The staged databases become world-readable: [0o644] is 420. *)
Fixpoint check_staged (publications : list DatabasePublication) : Prog (result unit (CommitError E)) :=
  match publications with
  | [] => mret (Ok tt)
  | p :: publications =>
      if negb (publish p) then check_staged publications
      else
        metadata ← syscall oracle (symlink_metadata (staged p));
        match metadata with
        | Err e => mret (Err (MissingStaged (staged p) e))
        | Ok metadata =>
            if negb (bool_decide (file_kind metadata = RegularFile)) then mret (Err (StagedNotRegular (staged p)))
            else
              r ← syscall oracle (set_permissions (staged p) 420);
              match r with
              | Err e => mret (Err (StagedModeFailed (staged p) e))
              | Ok _ => check_staged publications
              end
        end
  end.

(** One round of the second loop: whether there is a live entry, and a link
    to it when it will be replaced. *)
Definition back_up (publications : list DatabasePublication) (index : nat) (p : DatabasePublication)
  : Prog (result (list DatabasePublication) (CommitError E)) :=
  metadata ← syscall oracle (symlink_metadata (destination p));
  match metadata with
  | Err NotFound => mret (Ok publications)
  | Err e => roll_back_and_fail publications (InspectFailed (destination p) e)
  | Ok metadata =>
      if bool_decide (file_kind metadata = RegularFile \/ file_kind metadata = Symlink) then
        let path := backup_path (staged p) index in
        if negb (publish p) then mret (Ok publications)
        else
          r ← syscall oracle (linkat (destination p) path);
          match r with
          | Err e => roll_back_and_fail publications (BackupFailed (destination p) e)
          | Ok _ => mret (Ok (<[index := set_backup p path]> publications))
          end
      else roll_back_and_fail publications (NotReplaceable (destination p))
  end.

Definition publish_one (publications : list DatabasePublication) (index : nat) (p : DatabasePublication)
  : Prog (result (list DatabasePublication) (CommitError E)) :=
  r ← (if publish p then syscall oracle (rename (staged p) (destination p)) else mret (Ok tt));
  match r with
  | Err e => roll_back_and_fail publications (PublishFailed (destination p) e)
  | Ok _ => mret (Ok (<[index := set_published p]> publications))
  end.

Definition sync_one (publications : list DatabasePublication) (index : nat) (p : DatabasePublication)
  : Prog (result (list DatabasePublication) (CommitError E)) :=
  r ← syscall oracle (sync_parent_directory (destination p));
  match r with
  | Err e => roll_back_and_fail publications (SyncFailed (destination p) e)
  | Ok _ => mret (Ok publications)
  end.

(** [for index in 0..publications.len()], from [index] on. *)
Fixpoint for_indices
    (body : list DatabasePublication -> nat -> DatabasePublication -> Prog (result (list DatabasePublication) (CommitError E)))
    (count index : nat) (publications : list DatabasePublication)
  : Prog (result (list DatabasePublication) (CommitError E)) :=
  match count with
  | O => mret (Ok publications)
  | S count =>
      match publications !! index with
      | None => mret (Ok publications)
      | Some p => try_prog (body publications index p) (for_indices body count (S index))
      end
  end.

(** Removing the backups after the commit; failures are logged only. *)
Fixpoint remove_backups (publications : list DatabasePublication) : Prog unit :=
  match publications with
  | [] => mret tt
  | p :: publications =>
      match backup p with
      | Some path => _ ← syscall oracle (remove_file path); remove_backups publications
      | None => remove_backups publications
      end
  end.

(** [acquire] and [release] are the answers of libalpm for the database lock. *)
Definition commit_staged_files (acquire release : result unit E) (files : list StagedFile) (failed_downloads : Z)
  : Prog (result unit (CommitError E)) :=
  if negb (failed_downloads =? 0) then mret (Err (DownloadsFailed failed_downloads))
  else
    match acquire with
    | Err e => mret (Err (LockFailed e))
    | Ok _ =>
        let publications := map publication files in
        let count := length publications in
        try_prog (check_staged publications) (fun _ =>
        try_prog (for_indices back_up count 0 publications) (fun publications =>
        try_prog (for_indices publish_one count 0 publications) (fun publications =>
        try_prog (for_indices sync_one count 0 publications) (fun publications =>
          _ ← remove_backups publications;
          mret (map_err ReleaseFailed release)))))
    end.

(** ** The caller *)

(** Dropping the staging directory removes everything below it, unless the
    rollback kept it. *)
Definition below (dir path : rstr) : bool := starts_with (dir ++ [ch "/"]) path.

Definition remove_dir_all (dir : rstr) (fs : Fs) : result (unit * Fs) IoError :=
  Ok (tt, with_entries fs (filter (fun '(path, _) => below dir path = false) (entries fs))).

Definition drop_staging (dir : rstr) : Prog unit := fun m =>
  if keep_staging m then (m, Some tt) else (_ ← syscall oracle (remove_dir_all dir); mret tt) m.

Record StagedRepository := {
  database : rstr;
  database_destination : rstr;
  signature : rstr;
  signature_destination : rstr
}.

(** [Path::is_file] on a staged path. *)
Definition is_file (fs : Fs) (path : rstr) : bool :=
  match lookup_file fs path with
  | Some (_, info) => bool_decide (file_kind info = RegularFile)
  | None => false
  end.

Definition staged_files (fs : Fs) (repositories : list StagedRepository) : list StagedFile :=
  repositories ≫= fun repo =>
    [{| sf_staged := database repo; sf_destination := database_destination repo; sf_publish := true |};
     {| sf_staged := signature repo; sf_destination := signature_destination repo;
        sf_publish := is_file fs (signature repo) |}].

(** The end of [sync_databases_parallel], after the downloads and their
    verification. *)
Definition publish_databases (acquire release : result unit E) (staging : rstr) (repositories : list StagedRepository)
    (errors : Z) : Prog (result unit (CommitError E)) := fun m =>
  (r ← commit_staged_files acquire release (staged_files (fs m) repositories) errors;
   _ ← drop_staging staging;
   mret r) m.
End commit.

Definition rollback_errors {E} (e : CommitError E) : list RollbackError :=
  match e with
  | NotReplaceable _ errors | InspectFailed _ _ errors | BackupFailed _ _ errors
  | PublishFailed _ _ errors | SyncFailed _ _ errors => errors
  | _ => []
  end.
