(* ===== verification/DatabaseCommitProofs.v ===== *)
(** Publishing the sync databases is atomic: proofs on [DatabaseCommit]. *)

From S2P Require Import Prelude FaultProg DatabaseCommit.
Open Scope Z_scope.
Open Scope omg_scope.

(** * The file system *)

(** Every directory entry denotes a file. *)
Definition wf (fs : Fs) : Prop := forall path ino, entries fs !! path = Some ino -> is_Some (inodes fs !! ino).

(** No file lost its contents. *)
Definition same_contents (fs fs' : Fs) : Prop :=
  forall ino, file_content <$> inodes fs' !! ino = file_content <$> inodes fs !! ino.

(** What reading a path gives. *)
Definition contents (fs : Fs) (path : rstr) : option (list Z) :=
  ino ← entries fs !! path; file_content <$> inodes fs !! ino.

Lemma lookup_file_Some fs path ino info :
  lookup_file fs path = Some (ino, info) <-> entries fs !! path = Some ino /\ inodes fs !! ino = Some info.
Proof.
  unfold lookup_file. destruct (entries fs !! path) as [i|]; simpl; [|naive_solver].
  destruct (inodes fs !! i) eqn:Hi; simpl; naive_solver.
Qed.

Lemma lookup_file_None fs path : wf fs -> lookup_file fs path = None -> entries fs !! path = None.
Proof.
  unfold lookup_file. intros Hw. destruct (entries fs !! path) as [i|] eqn:Hp; simpl; [|done].
  destruct (Hw _ _ Hp) as [info ->]. done.
Qed.

Lemma same_contents_trans fs1 fs2 fs3 : same_contents fs1 fs2 -> same_contents fs2 fs3 -> same_contents fs1 fs3.
Proof. intros H1 H2 ino. by rewrite H2. Qed.

Lemma contents_eq fs fs' path path' :
  same_contents fs fs' -> entries fs' !! path = entries fs !! path' -> contents fs' path = contents fs path'.
Proof. unfold contents. intros Hs ->. destruct (entries fs !! path'); simpl; [apply Hs|done]. Qed.

(** What the calls change: [touches paths fs fs'] keeps files and their
    contents, and every entry outside [paths]. *)
Definition touches (paths : list rstr) (fs fs' : Fs) : Prop :=
  (wf fs -> wf fs') /\ same_contents fs fs' /\ forall path, (path ∉ paths) -> entries fs' !! path = entries fs !! path.

Lemma touches_entries paths fs es :
  (wf fs -> forall path ino, es !! path = Some ino -> is_Some (inodes fs !! ino)) ->
  (forall path, (path ∉ paths) -> es !! path = entries fs !! path) -> touches paths fs (with_entries fs es).
Proof. intros Hw Hp. split_and!; [exact Hw|by intros ino|exact Hp]. Qed.

Lemma touches_none fs : touches [] fs fs.
Proof. by split_and!. Qed.

Lemma touches_weaken paths paths' fs fs' : paths ⊆ paths' -> touches paths fs fs' -> touches paths' fs fs'.
Proof. intros Hs (Hw & Hc & Hp). split_and!; [done|done|]. intros path Hn. apply Hp. set_solver. Qed.

Lemma linkat_Ok old new fs u fs' :
  linkat old new fs = Ok (u, fs') ->
  touches [new] fs fs' /\ is_Some (entries fs !! old) /\
  entries fs' = <[new := default 0 (entries fs !! old)]> (entries fs).
Proof.
  unfold linkat. destruct (lookup_file fs old) as [[ino info]|] eqn:Hl; [|done].
  apply lookup_file_Some in Hl as [He Hi]. destruct (bool_decide _); [done|].
  destruct (entries fs !! new) eqn:Hn; [done|]. intros [= _ <-]. rewrite He. split_and!; [|done|done].
  apply touches_entries; [|intros path Hp; apply lookup_insert_ne; set_solver].
  intros Hw path ino' [[_ <-]|[_ Hp]]%lookup_insert_Some; [by eexists|by eapply Hw].
Qed.

Lemma rename_Ok old new fs u fs' :
  rename old new fs = Ok (u, fs') ->
  touches [old; new] fs fs' /\ is_Some (entries fs !! old) /\
  entries fs' !! new = entries fs !! old /\
  (old ≠ new -> entries fs' !! old = None \/ entries fs !! new = entries fs !! old /\ fs' = fs).
Proof.
  unfold rename. destruct (lookup_file fs old) as [[ino info]|] eqn:Hl; [|done].
  apply lookup_file_Some in Hl as [He Hi]. destruct (bool_decide (file_kind _ = _)); [done|].
  case_bool_decide as Hs.
  { intros [= _ <-]. rewrite He. split_and!; [|done|done|by right].
    eapply touches_weaken; [|apply touches_none]. set_solver. }
  intros H.
  assert (Heq : fs' = with_entries fs (<[new := ino]> (delete old (entries fs)))).
  { destruct (lookup_file fs new) as [[]|]; [destruct (bool_decide _)|]; congruence. }
  subst fs'. clear H. cbn [with_entries entries]. rewrite He, lookup_insert_eq. split_and!; [|done|done|].
  - apply touches_entries.
    + intros Hw path ino' [[_ <-]|[_ [_ Hp]%lookup_delete_Some]]%lookup_insert_Some; [by eexists|by eapply Hw].
    + intros path Hp. rewrite lookup_insert_ne, lookup_delete_ne by set_solver. done.
  - intros Hne. left. by rewrite lookup_insert_ne, lookup_delete_eq.
Qed.

Lemma remove_file_Ok path fs u fs' : remove_file path fs = Ok (u, fs') -> touches [path] fs fs'.
Proof.
  unfold remove_file. destruct (lookup_file fs path) as [[ino info]|]; [|done]. destruct (bool_decide _); [done|].
  intros [= _ <-]. apply touches_entries; [|intros p Hp; apply lookup_delete_ne; set_solver].
  intros Hw p i [_ Hp]%lookup_delete_Some. by eapply Hw.
Qed.

Lemma set_permissions_Ok path mode fs u fs' :
  set_permissions path mode fs = Ok (u, fs') -> touches [] fs fs' /\ entries fs' = entries fs.
Proof.
  unfold set_permissions. destruct (lookup_file fs path) as [[ino info]|] eqn:Hl; [|done].
  apply lookup_file_Some in Hl as [He Hi]. intros [= _ <-]. split; [|done]. split_and!; [| |done].
  - intros Hw p i Hp. simpl in *. destruct (decide (ino = i)) as [->|Hne].
    + rewrite lookup_insert_eq. by eexists.
    + rewrite lookup_insert_ne by done. by eapply Hw.
  - intros i. simpl. destruct (decide (ino = i)) as [->|Hne]; [|by rewrite lookup_insert_ne].
    by rewrite lookup_insert_eq, Hi.
Qed.

Lemma symlink_metadata_Ok path fs info fs' :
  symlink_metadata path fs = Ok (info, fs') -> fs' = fs /\ is_Some (entries fs !! path).
Proof.
  unfold symlink_metadata. destruct (lookup_file fs path) as [[ino i]|] eqn:Hl; [|done].
  apply lookup_file_Some in Hl as [He _]. intros [= _ <-]. by rewrite He.
Qed.

(** * The commit *)

(** The paths a file owns: its destination, its staged copy and its backup. *)
Definition footprint (index : nat) (file : StagedFile) : list rstr :=
  [sf_destination file; sf_staged file; backup_path (sf_staged file) index].

Lemma concat_disjoint {A} (ls : list (list A)) i j a b x :
  NoDup (concat ls) -> ls !! i = Some a -> ls !! j = Some b -> i ≠ j -> x ∈ a -> (x ∉ b).
Proof.
  revert i j. induction ls as [|l ls IH]; [done|]. simpl. intros i j (H1 & H12 & H2)%NoDup_app Hi Hj Hne Ha Hb.
  assert (Hin : forall k c, ls !! k = Some c -> x ∈ c -> x ∈ concat ls).
  { intros k c Hk Hc. apply list_elem_of_In, in_concat. exists c. split; apply list_elem_of_In; [|done].
    by apply list_elem_of_lookup_2 in Hk. }
  destruct i as [|i], j as [|j]; simpl in *; [done| | |].
  - injection Hi as ->. eapply H12; [done|by eapply Hin].
  - injection Hj as ->. eapply H12; [done|by eapply Hin].
  - eapply (IH i j); try done. congruence.
Qed.

Lemma concat_lookup_NoDup {A} (ls : list (list A)) i a : NoDup (concat ls) -> ls !! i = Some a -> NoDup a.
Proof.
  revert i. induction ls as [|l ls IH]; [done|]. simpl. intros i (H1 & _ & H2)%NoDup_app Hi.
  destruct i as [|i]; [by simplify_eq/=|by eapply IH].
Qed.

Section commit.
Context (oracle : nat -> Fault) {E : Type} (files : list StagedFile) (fs0 : Fs).
Context (Hdisjoint : NoDup (concat (imap footprint files))).

Lemma footprint_lookup i f : files !! i = Some f -> imap footprint files !! i = Some (footprint i f).
Proof. intros Hf. by rewrite list_lookup_imap, Hf. Qed.

Lemma footprint_other i j f g path :
  files !! i = Some f -> files !! j = Some g -> i ≠ j -> path ∈ footprint i f -> (path ∉ footprint j g).
Proof. intros Hi%footprint_lookup Hj%footprint_lookup. by apply (concat_disjoint _ _ _ _ _ _ Hdisjoint Hi Hj). Qed.

Lemma footprint_distinct i f :
  files !! i = Some f ->
  sf_destination f ≠ sf_staged f /\ sf_destination f ≠ backup_path (sf_staged f) i /\
  sf_staged f ≠ backup_path (sf_staged f) i.
Proof.
  intros Hi%footprint_lookup. pose proof (concat_lookup_NoDup _ _ _ Hdisjoint Hi) as Hn. unfold footprint in Hn.
  rewrite !NoDup_cons in Hn. set_solver.
Qed.

Lemma footprint_all i f path : files !! i = Some f -> path ∈ footprint i f -> path ∈ concat (imap footprint files).
Proof.
  intros Hf%footprint_lookup Hp. apply list_elem_of_In, in_concat. exists (footprint i f).
  split; apply list_elem_of_In; [by apply list_elem_of_lookup_2 in Hf|done].
Qed.

(** ** States *)

Definition live (m : Machine) (path : rstr) : option Z := entries (fs m) !! path.
Definition before (path : rstr) : option Z := entries fs0 !! path.

(** What holds throughout: files are intact, foreign entries are as before. *)
Definition base (m : Machine) : Prop :=
  wf (fs m) /\ same_contents fs0 (fs m) /\
  forall path, (path ∉ concat (imap footprint files)) -> live m path = before path.

(** The bookkeeping of a publication agrees with the file system. *)
Record tracks (m : Machine) (i : nat) (f : StagedFile) (p : DatabasePublication) : Prop := {
  tr_staged : staged p = sf_staged f;
  tr_destination : destination p = sf_destination f;
  tr_publish : publish p = sf_publish f;
  tr_backup : forall b, backup p = Some b ->
    b = backup_path (sf_staged f) i /\ is_Some (before (sf_destination f)) /\ live m b = before (sf_destination f);
  tr_new : published p && publish p = true ->
    is_Some (before (sf_staged f)) /\ live m (sf_destination f) = before (sf_staged f) /\
    (is_Some (before (sf_destination f)) -> is_Some (backup p)) /\
    (before (sf_destination f) = None -> live m (sf_staged f) = None);
  tr_old : published p && publish p = false ->
    live m (sf_destination f) = before (sf_destination f) /\ live m (sf_staged f) = before (sf_staged f)
}.

(** The old or the new file is live, and the old one is not lost. *)
Definition recoverable (m : Machine) (i : nat) (f : StagedFile) : Prop :=
  (live m (sf_destination f) = before (sf_destination f) \/
   sf_publish f = true /\ is_Some (before (sf_staged f)) /\ live m (sf_destination f) = before (sf_staged f)) /\
  (is_Some (before (sf_destination f)) ->
   live m (sf_destination f) = before (sf_destination f) \/
   live m (backup_path (sf_staged f) i) = before (sf_destination f)).

Definition safe (m : Machine) : Prop := base m /\ forall i f, files !! i = Some f -> recoverable m i f.

Definition committed (m : Machine) : Prop :=
  base m /\ forall i f, files !! i = Some f ->
    if sf_publish f then is_Some (before (sf_staged f)) /\ live m (sf_destination f) = before (sf_staged f)
    else live m (sf_destination f) = before (sf_destination f).

Definition restored (m : Machine) : Prop :=
  forall f, f ∈ files -> live m (sf_destination f) = before (sf_destination f).

Definition crash_ok (m : Machine) : Prop := safe m \/ committed m.

Definition inv (publications : list DatabasePublication) (m : Machine) : Prop :=
  base m /\ length publications = length files /\
  forall i f p, files !! i = Some f -> publications !! i = Some p -> tracks m i f p.

Lemma tracks_recoverable m i f p : tracks m i f p -> recoverable m i f.
Proof.
  intros T. destruct (published p && publish p) eqn:Hp.
  - destruct (tr_new _ _ _ _ T Hp) as (Hn & Hd & Hb & _). split.
    + right. split_and!; [|done|done]. rewrite <- (tr_publish _ _ _ _ T). by apply andb_prop in Hp as [_ ->].
    + intros Ho. destruct (Hb Ho) as [b Hbk]. destruct (tr_backup _ _ _ _ T b Hbk) as (-> & _ & Hl). by right.
  - destruct (tr_old _ _ _ _ T Hp) as [Hd _]. split; [by left|]. intros _. by left.
Qed.

Lemma inv_lookup publications m i f :
  inv publications m -> files !! i = Some f -> exists p, publications !! i = Some p /\ tracks m i f p.
Proof.
  intros (_ & Hl & Ht) Hf. destruct (lookup_lt_is_Some_2 publications i) as [p Hp].
  { rewrite Hl. by eapply lookup_lt_Some. } exists p. split; [done|by apply Ht].
Qed.

Lemma inv_safe publications m : inv publications m -> safe m.
Proof.
  intros Hi. split; [apply Hi|]. intros i f Hf. destruct (inv_lookup _ _ _ _ Hi Hf) as (p & _ & T).
  by eapply tracks_recoverable.
Qed.

(** ** Frames *)

Lemma base_touches m i f paths fs' k :
  files !! i = Some f -> paths ⊆ footprint i f -> touches paths (fs m) fs' -> base m ->
  base {| fs := fs'; clock := k; keep_staging := keep_staging m |}.
Proof.
  intros Hf Hs (Hw & Hc & Hp) (Hb1 & Hb2 & Hb3). split_and!; [auto|by eapply same_contents_trans|].
  intros path Hn. unfold live. simpl. rewrite Hp; [by apply Hb3|]. intros Hin. apply Hn. eapply footprint_all; [done|auto].
Qed.

Lemma live_frame m i j f g paths fs' k path :
  files !! i = Some f -> files !! j = Some g -> i ≠ j -> paths ⊆ footprint i f -> touches paths (fs m) fs' ->
  path ∈ footprint j g -> live {| fs := fs'; clock := k; keep_staging := keep_staging m |} path = live m path.
Proof.
  intros Hi Hj Hne Hs (_ & _ & Hp) Hin. apply Hp. intros Hx. apply (footprint_other j i g f path); auto.
Qed.

Lemma tracks_ext m m' i f p :
  (forall path, path ∈ footprint i f -> live m' path = live m path) -> tracks m i f p -> tracks m' i f p.
Proof.
  intros He [T1 T2 T3 T4 T5 T6].
  assert (Hd : live m' (sf_destination f) = live m (sf_destination f)) by (apply He; set_solver).
  assert (Hs : live m' (sf_staged f) = live m (sf_staged f)) by (apply He; set_solver).
  split; [done|done|done| |by rewrite Hd, Hs|by rewrite Hd, Hs].
  intros b Hb. destruct (T4 b Hb) as (-> & ? & Hl). split_and!; [done|done|]. rewrite He; [done|set_solver].
Qed.

Lemma recoverable_ext m m' i f :
  (forall path, path ∈ footprint i f -> live m' path = live m path) -> recoverable m i f -> recoverable m' i f.
Proof. intros He. unfold recoverable. rewrite !He by set_solver. done. Qed.

(** ** Rolling back *)

Lemma note_nil {A} errors (r : result A IoError) message :
  note errors r message = [] -> errors = [] /\ exists a, r = Ok a.
Proof. destruct r as [a|e]; simpl; [naive_solver|]. intros [_ ?]%app_nil. done. Qed.

(** A publication that was undone, given the messages so far. *)
Definition undone (errors : list RollbackError) (m : Machine) (i : nat) (f : StagedFile) : Prop :=
  recoverable m i f /\ (errors = [] -> live m (sf_destination f) = before (sf_destination f)).

(** Between withdrawing and restoring. *)
Definition withdrawn (errors : list RollbackError) (m : Machine) (i : nat) (f : StagedFile)
    (p : DatabasePublication) : Prop :=
  match backup p with
  | Some b =>
      b = backup_path (sf_staged f) i /\ destination p = sf_destination f /\ recoverable m i f /\
      live m b = before (sf_destination f)
  | None => undone errors m i f
  end.

(** The other publications during one round. *)
Definition around (i : nat) (m m' : Machine) : Prop :=
  keep_staging m' = keep_staging m /\
  forall j g path, files !! j = Some g -> j ≠ i -> path ∈ footprint j g -> live m' path = live m path.

Lemma around_refl i m : around i m m.
Proof. by split. Qed.

Lemma around_tick i m : around i m (tick m (fs m)).
Proof. by split. Qed.

Lemma around_trans i m1 m2 m3 : around i m1 m2 -> around i m2 m3 -> around i m1 m3.
Proof. intros [H1 H1'] [H2 H2']. split; [congruence|]. intros j g path Hj Hne Hp. by erewrite H2', H1'. Qed.

Lemma around_touches i f m paths fs' :
  files !! i = Some f -> paths ⊆ footprint i f -> touches paths (fs m) fs' -> around i m (tick m fs').
Proof. intros Hf Hs Ht. split; [done|]. intros j g path Hj Hne Hp. by eapply (live_frame m i j f g). Qed.

Lemma withdraw_ok i f p errors m :
  files !! i = Some f -> safe m -> tracks m i f p ->
  wp crash_ok (withdraw oracle p errors)
    (fun errors' m' => base m' /\ around i m m' /\ withdrawn errors' m' i f p /\ (errors' = [] -> errors = [])) m.
Proof.
  intros Hf Hsafe T. pose proof (tracks_recoverable _ _ _ _ T) as Hr.
  assert (Hb : base m) by apply Hsafe. destruct (footprint_distinct i f Hf) as (Hds & Hdb & Hsb).
  pose proof (tr_destination _ _ _ _ T) as Ed. pose proof (tr_staged _ _ _ _ T) as Es. unfold withdraw.
  destruct (published p && publish p) eqn:Hp.
  - destruct (tr_new _ _ _ _ T Hp) as (Hn & Hl & Hob & Hno). apply wp_bind. rewrite Ed, Es.
    destruct (backup p) as [b|] eqn:Hbk.
    + destruct (tr_backup _ _ _ _ T b Hbk) as (-> & Ho & Hlb). apply wp_syscall; [by left| |].
      * intros e _. apply wp_ret. split_and!; [done|apply around_tick| |by intros [? _]%note_nil].
        unfold withdrawn. by rewrite Hbk.
      * intros [] fs' (Ht & _ & He)%linkat_Ok. apply wp_ret.
        split_and!; [|by eapply around_touches; [..|exact Ht]; [done|set_solver]| |by intros [? _]%note_nil].
        { eapply base_touches; [done| |done|done]. set_solver. }
        unfold withdrawn. rewrite Hbk.
        assert (Hsame : forall path, path ≠ sf_staged f -> live (tick m fs') path = live m path).
        { intros path Hne. unfold live. simpl. rewrite He. by rewrite lookup_insert_ne. }
        split_and!; [done|done| |by rewrite Hsame]. unfold recoverable. rewrite !Hsame by done. exact Hr.
    + assert (Hnone : before (sf_destination f) = None).
      { apply eq_None_not_Some. intros Ho. by destruct (Hob Ho) as [? ?]. }
      apply wp_syscall; [by left| |].
      * intros e _. apply wp_ret. split_and!; [done|apply around_tick| |by intros [? _]%note_nil].
        unfold withdrawn. rewrite Hbk. split; [done|]. by intros [_ [? ?]]%note_nil.
      * intros [] fs' (Ht & _ & Hs & Ho)%rename_Ok. apply wp_ret.
        split_and!; [|by eapply around_touches; [..|exact Ht]; [done|set_solver]| |by intros [? _]%note_nil].
        { eapply base_touches; [done| |done|done]. set_solver. }
        unfold withdrawn. rewrite Hbk.
        assert (Hd : live (tick m fs') (sf_destination f) = before (sf_destination f)).
        { rewrite Hnone. destruct (Ho Hds) as [?|[H1 _]]; [done|]. unfold live in Hno, Hl. rewrite Hno in H1 by done.
          rewrite Hl in H1. destruct Hn as [? Hn]. congruence. }
        split; [|done]. split; [by left|]. by left.
  - destruct (tr_old _ _ _ _ T Hp) as [Hl Hls]. apply wp_ret. split_and!; [done|apply around_refl| |done].
    unfold withdrawn. destruct (backup p) as [b|] eqn:Hbk; [|by split].
    destruct (tr_backup _ _ _ _ T b Hbk) as (-> & Ho & Hlb). by split_and!.
Qed.

Lemma withdrawn_recoverable errors m i f p : withdrawn errors m i f p -> recoverable m i f.
Proof. unfold withdrawn. destruct (backup p); [naive_solver|by intros [? _]]. Qed.

Lemma safe_around i f m m' :
  files !! i = Some f -> safe m -> base m' -> around i m m' -> recoverable m' i f -> safe m'.
Proof.
  intros Hf [_ Hs] Hb [_ Ha] Hr. split; [done|]. intros j g Hg. destruct (decide (j = i)) as [->|Hne]; [by simplify_eq|].
  eapply recoverable_ext; [|by apply Hs]. intros path Hp. by eapply Ha.
Qed.

Lemma restore_ok i f p errors m :
  files !! i = Some f -> safe m -> withdrawn errors m i f p ->
  wp crash_ok (restore oracle p errors)
    (fun errors' m' => base m' /\ around i m m' /\ undone errors' m' i f /\ (errors' = [] -> errors = [])) m.
Proof.
  intros Hf Hsafe Hw. assert (Hb : base m) by apply Hsafe. unfold withdrawn in Hw. unfold restore.
  destruct (backup p) as [b|] eqn:Hbk; [|apply wp_ret; by split_and!; [|apply around_refl| |]].
  destruct Hw as (-> & Ed & Hr & Hlb). destruct (footprint_distinct i f Hf) as (Hds & Hdb & Hsb).
  apply wp_bind. rewrite Ed. apply wp_syscall; [by left| |].
  - intros e _. apply wp_ret. split_and!; [done|apply around_tick| |by intros [? _]%note_nil].
    split; [done|]. by intros [_ [? ?]]%note_nil.
  - intros [] fs' (Ht & _ & Hs & _)%rename_Ok. apply wp_ret.
    split_and!; [|by eapply around_touches; [..|exact Ht]; [done|set_solver]| |by intros [? _]%note_nil].
    { eapply base_touches; [done| |done|done]. set_solver. }
    assert (Hd : live (tick m fs') (sf_destination f) = before (sf_destination f)).
    { unfold live at 1. simpl. rewrite Hs. exact Hlb. }
    split; [|done]. split; by left.
Qed.

Lemma undone_ext errors errors' m m' i f :
  (forall path, path ∈ footprint i f -> live m' path = live m path) -> (errors' = [] -> errors = []) ->
  undone errors m i f -> undone errors' m' i f.
Proof. intros He Hn [H1 H2]. split; [by eapply recoverable_ext|]. intros ?. rewrite He by set_solver. auto. Qed.

(** The rounds of the first loop: the publications are undone from the last
    to the first. *)
Lemma undo_all_ok l errors m :
  forall finished, safe m -> length (rev l ++ finished) = length files ->
  (forall i f p, files !! i = Some f -> rev l !! i = Some p -> tracks m i f p) ->
  (forall i f, files !! i = Some f -> (length l <= i)%nat -> undone errors m i f) ->
  wp crash_ok (undo_all oracle l errors)
    (fun errors' m' => safe m' /\ keep_staging m' = keep_staging m /\ (errors' = [] -> restored m')) m.
Proof.
  revert errors m. induction l as [|p l IH]; intros errors m finished Hsafe Hlen Ht Hu.
  - apply wp_ret. split_and!; [done|done|]. intros -> f Hf. apply list_elem_of_lookup in Hf as [i Hf].
    by apply (Hu i f Hf); [simpl; lia|].
  - cbn [undo_all]. cbn [List.rev] in Ht, Hlen. rewrite <- app_assoc in Hlen. destruct (lookup_lt_is_Some_2 files (length l)) as [f Hf].
    { rewrite <- Hlen, !length_app, length_rev. simpl. lia. }
    assert (Hp : (rev l ++ [p]) !! length l = Some p) by (rewrite lookup_app_r, length_rev, Nat.sub_diag by (rewrite length_rev; lia); done).
    apply wp_bind. eapply wp_mono; [apply (withdraw_ok (length l) f); [done|done|by apply Ht]|].
    intros e1 m1 (Hb1 & Ha1 & Hw & He1). pose proof (safe_around _ _ _ _ Hf Hsafe Hb1 Ha1 (withdrawn_recoverable _ _ _ _ _ Hw)) as Hs1.
    apply wp_bind. eapply wp_mono; [by apply (restore_ok (length l) f)|].
    intros e2 m2 (Hb2 & Ha2 & Hun & He2). pose proof (safe_around _ _ _ _ Hf Hs1 Hb2 Ha2 (proj1 Hun)) as Hs2.
    pose proof (around_trans _ _ _ _ Ha1 Ha2) as [Hk Ha].
    eapply wp_mono; [apply (IH e2 m2 (p :: finished) Hs2)|].
    + exact Hlen.
    + intros i g q Hg Hq. apply lookup_lt_Some in Hq as Hlt. rewrite length_rev in Hlt.
      eapply tracks_ext; [|apply (Ht i g q Hg); by apply lookup_app_l_Some].
      intros path Hin. eapply Ha; [done|lia|done].
    + intros i g Hg Hle. destruct (decide (i = length l)) as [->|Hne]; [by simplify_eq|].
      eapply undone_ext; [intros path Hin; by eapply Ha|by auto|]. apply Hu; [done|simpl; lia].
    + intros e3 m3 (H1 & H2 & H3). split_and!; [done|congruence|done].
Qed.

Lemma safe_tick m : safe m -> safe (tick m (fs m)).
Proof. done. Qed.

Lemma sync_rollback_ok l errors m :
  safe m ->
  wp crash_ok (sync_rollback oracle l errors)
    (fun errors' m' => fs m' = fs m /\ keep_staging m' = keep_staging m /\ (errors' = [] -> errors = [])) m.
Proof.
  revert errors m. induction l as [|p l IH]; intros errors m Hs; [by apply wp_ret|]. cbn [sync_rollback].
  assert (Hrest : forall errors' m', fs m' = fs m -> keep_staging m' = keep_staging m -> (errors' = [] -> errors = []) ->
    wp crash_ok (sync_rollback oracle l errors')
      (fun errors'' m'' => fs m'' = fs m /\ keep_staging m'' = keep_staging m /\ (errors'' = [] -> errors = [])) m').
  { intros errors' m' Hf Hk He. eapply wp_mono; [apply IH; unfold safe, base, recoverable, live; by rewrite Hf|].
    intros e m'' (? & ? & ?). split_and!; [congruence|congruence|auto]. }
  apply wp_bind. destruct (_ || _); [|by apply wp_ret, Hrest]. apply wp_bind, wp_syscall; [by left| |].
  - intros e _. apply wp_ret, Hrest; [done|done|by intros [? _]%note_nil].
  - intros [] fs' [= <-]. apply wp_ret, Hrest; [done|done|done].
Qed.

(** The outcome of a failed commit. *)
Definition rolled_back (errors : list RollbackError) (m : Machine) : Prop :=
  safe m /\ (errors = [] -> restored m) /\ (errors ≠ [] -> keep_staging m = true).

Lemma rollback_ok publications m :
  inv publications m -> wp crash_ok (rollback_database_publication oracle publications) rolled_back m.
Proof.
  intros Hi. unfold rollback_database_publication. apply wp_bind. destruct Hi as (Hb & Hl & Ht).
  eapply wp_mono; [apply (undo_all_ok (rev publications) [] m []); [by apply (inv_safe publications)| | |]|].
  - by rewrite rev_involutive, app_nil_r.
  - intros i f p Hf. rewrite rev_involutive. by apply Ht.
  - intros i f Hf%lookup_lt_Some. rewrite length_rev. lia.
  - intros e1 m1 (Hs1 & Hk1 & Hr1). apply wp_bind. eapply wp_mono; [by apply sync_rollback_ok|].
    intros e2 m2 (Hf & Hk & He).
    assert (Hs2 : safe m2) by (unfold safe, base, recoverable, live; rewrite Hf; apply Hs1).
    destruct e2 as [|x e2].
    + apply wp_ret. split_and!; [done| |done]. intros _ f Hin. unfold live. rewrite Hf. by apply Hr1; [apply He|].
    + apply wp_bind. unfold wp at 1, disable_cleanup. apply wp_ret. split_and!; [exact Hs2| |done].
      by intros [? _]%app_nil.
Qed.

Lemma roll_back_and_fail_ok {A} publications failure m :
  inv publications m ->
  wp crash_ok (roll_back_and_fail (A := A) (E := E) oracle publications failure)
    (fun r m' => exists errors, r = Err (failure errors) /\ rolled_back errors m') m.
Proof.
  intros Hi. apply wp_bind. eapply wp_mono; [by apply rollback_ok|]. intros errors m' Hr. apply wp_ret. by exists errors.
Qed.

(** ** The phases *)

Definition aborted (e : CommitError E) (m : Machine) : Prop :=
  match e with ReleaseFailed _ => False | _ => rolled_back (rollback_errors e) m end.

Definition phase (I : list DatabasePublication -> Machine -> Prop)
    (r : result (list DatabasePublication) (CommitError E)) (m : Machine) : Prop :=
  match r with Ok publications => I publications m | Err e => aborted e m end.

Lemma for_indices_ok (I : nat -> list DatabasePublication -> Machine -> Prop) body count k publications m :
  (forall k publications m, I k publications m -> length publications = length files) ->
  (forall k publications p m, I k publications m -> publications !! k = Some p ->
     wp crash_ok (body publications k p) (phase (I (S k))) m) ->
  I k publications m -> (length files <= k + count)%nat ->
  wp crash_ok (for_indices (E := E) body count k publications)
    (phase (fun publications' m' => exists k', (length files <= k')%nat /\ I k' publications' m')) m.
Proof.
  intros Hlen Hbody. revert k publications m. induction count as [|count IH]; intros k publications m HI Hk; cbn [for_indices].
  { apply wp_ret. exists k. split; [lia|done]. }
  destruct (publications !! k) as [p|] eqn:Hp.
  - apply wp_try. eapply wp_mono; [by apply Hbody|]. intros [pubs|e] m' HI'; [|exact HI']. apply IH; [exact HI'|lia].
  - apply wp_ret. exists k. split; [|done]. apply lookup_ge_None in Hp. by rewrite (Hlen _ _ _ HI) in Hp.
Qed.

Lemma inv_insert publications m m' i f p :
  files !! i = Some f -> inv publications m -> base m' -> around i m m' -> tracks m' i f p ->
  inv (<[i := p]> publications) m'.
Proof.
  intros Hf (_ & Hl & Ht) Hb [_ Ha] T. split_and!; [done|by rewrite length_insert|].
  intros j g q Hg Hq. destruct (decide (j = i)) as [->|Hne].
  - rewrite list_lookup_insert_eq in Hq by (rewrite Hl; by eapply lookup_lt_Some). by simplify_eq.
  - rewrite list_lookup_insert_ne in Hq by done. eapply tracks_ext; [|by apply Ht]. intros path Hin. by eapply Ha.
Qed.

Lemma inv_entries publications m fs' :
  entries fs' = entries (fs m) -> touches [] (fs m) fs' -> inv publications m -> inv publications (tick m fs').
Proof.
  intros He (Hw & Hc & _) ((Hb1 & Hb2 & Hb3) & Hl & Ht).
  assert (Hlive : forall path, live (tick m fs') path = live m path) by (intros; unfold live; simpl; by rewrite He).
  split_and!; [split_and!; [auto|by eapply same_contents_trans|intros path Hp; rewrite Hlive; auto]|done|].
  intros i f p Hf Hp. eapply tracks_ext; [|by apply Ht]. intros path _. apply Hlive.
Qed.

Lemma inv_tick publications m : inv publications m -> inv publications (tick m (fs m)).
Proof. apply inv_entries; [done|apply touches_none]. Qed.

(** Before the first database is replaced. *)
Definition idle (publications : list DatabasePublication) : Prop := Forall (fun p => published p = false) publications.

Lemma idle_restored publications m : inv publications m -> idle publications -> restored m.
Proof.
  intros Hi Hd f Hf. apply list_elem_of_lookup in Hf as [i Hf]. destruct (inv_lookup _ _ _ _ Hi Hf) as (p & Hp & T).
  apply (tr_old _ _ _ _ T). by rewrite (proj1 (Forall_lookup _ _) Hd _ _ Hp).
Qed.

Lemma idle_rolled_back publications m : inv publications m -> idle publications -> rolled_back [] m.
Proof. intros Hi Hd. split_and!; [by eapply inv_safe|intros _; by eapply idle_restored|done]. Qed.

Lemma check_staged_ok l publications m :
  inv publications m -> idle publications ->
  wp crash_ok (check_staged (E := E) oracle l)
    (fun r m' => match r with Ok _ => inv publications m' | Err e => aborted e m' end) m.
Proof.
  revert m. induction l as [|p l IH]; intros m Hi Hd; [by apply wp_ret|]. cbn [check_staged].
  destruct (negb (publish p)); [by apply IH|]. apply wp_bind, wp_syscall; [left; exact (inv_safe publications m Hi)| |].
  { intros e _. apply wp_ret. exact (idle_rolled_back publications m Hi Hd). }
  intros info fs' [-> _]%symlink_metadata_Ok. destruct (negb _); [apply wp_ret; exact (idle_rolled_back publications m Hi Hd)|].
  apply wp_bind, wp_syscall; [left; exact (inv_safe publications m Hi)|intros e _; apply wp_ret; exact (idle_rolled_back publications m Hi Hd)|].
  intros [] fs' [Ht He]%set_permissions_Ok. apply IH; [|done]. apply inv_entries; [done|done|by apply inv_tick].
Qed.

Definition backed_up (f : StagedFile) (p : DatabasePublication) : Prop :=
  publish p = true -> is_Some (before (sf_destination f)) -> is_Some (backup p).

Definition backup_inv (k : nat) (publications : list DatabasePublication) (m : Machine) : Prop :=
  inv publications m /\ idle publications /\
  forall i f p, (i < k)%nat -> files !! i = Some f -> publications !! i = Some p -> backed_up f p.

Lemma backup_inv_same k publications m p f :
  backup_inv k publications m -> publications !! k = Some p -> files !! k = Some f -> backed_up f p ->
  backup_inv (S k) publications m.
Proof.
  intros (Hi & Hd & Hb) Hp Hf Hbu. split_and!; [done|done|]. intros i g q Hlt Hg Hq.
  destruct (decide (i = k)) as [->|Hne]; [by simplify_eq|]. apply (Hb i); [lia|done|done].
Qed.

Lemma abort_here {A} publications failure m :
  inv publications m -> (forall errors, rollback_errors (failure errors) = errors) ->
  (forall errors e, failure errors ≠ ReleaseFailed e) ->
  wp crash_ok (roll_back_and_fail (A := A) (E := E) oracle publications failure)
    (fun r m' => match r with Ok _ => False | Err e => aborted e m' end) m.
Proof.
  intros Hi Hf Hr. eapply wp_mono; [by apply roll_back_and_fail_ok|]. intros r m' (errors & -> & Hb). unfold aborted.
  destruct (failure errors) eqn:He; try (rewrite <- He, Hf; done). by eapply Hr.
Qed.

Lemma phase_abort I publications failure m :
  inv publications m -> (forall errors, rollback_errors (failure errors) = errors) ->
  (forall errors e, failure errors ≠ ReleaseFailed e) ->
  wp crash_ok (roll_back_and_fail (E := E) oracle publications failure) (phase I) m.
Proof. intros Hi Hf Hr. eapply wp_mono; [by apply abort_here|]. by intros [pubs|e] m'. Qed.

Lemma back_up_ok k publications p m :
  backup_inv k publications m -> publications !! k = Some p ->
  wp crash_ok (back_up oracle publications k p) (phase (backup_inv (S k))) m.
Proof.
  intros HI Hp. pose proof HI as (Hi & Hd & Hb). pose proof (inv_tick _ _ Hi) as Hi'. destruct (lookup_lt_is_Some_2 files k) as [f Hf].
  { destruct Hi as (_ & <- & _). by eapply lookup_lt_Some. }
  assert (T : tracks m k f p) by by apply Hi. assert (Hpub : published p = false) by exact (proj1 (Forall_lookup _ _) Hd _ _ Hp).
  destruct (tr_old _ _ _ _ T) as [Hlo Hln]; [by rewrite Hpub|]. unfold back_up.
  rewrite (tr_destination _ _ _ _ T), (tr_staged _ _ _ _ T).
  assert (Hcr : crash_ok m) by (left; exact (inv_safe publications m Hi)).
  apply wp_bind, wp_syscall; [done| |].
  - intros e He. destruct e; try (apply phase_abort; done). apply wp_ret. destruct He as [|He]; [done|].
    eapply (backup_inv_same k); [by split_and!|done|done|]. intros _ Hs. exfalso. unfold symlink_metadata in He.
    destruct (lookup_file (fs m) (sf_destination f)) as [[]|] eqn:Hl; [done|].
    apply lookup_file_None in Hl; [|apply Hi]. unfold live in Hlo. rewrite <- Hlo, Hl in Hs. by destruct Hs.
  - intros info fs' [-> Hs]%symlink_metadata_Ok. case_bool_decide; [|by apply phase_abort].
    destruct (publish p) eqn:Hpb; [|apply wp_ret; eapply (backup_inv_same k); [by split_and!|done|done|]; intros ?; congruence].
    apply wp_bind, wp_syscall; [done|intros e _; apply phase_abort; [by apply inv_tick|done|done]|].
    intros [] fs' (Ht & _ & He)%linkat_Ok. apply wp_ret. destruct (footprint_distinct k f Hf) as (Hds & Hdb & Hsb).
    assert (Ha : around k m (tick (tick m (fs m)) fs')).
    { apply (around_touches k f (tick m (fs m)) [backup_path (sf_staged f) k]); [done|set_solver|done]. }
    split_and!.
    + eapply inv_insert; [done|exact Hi| |exact Ha|].
      { eapply (base_touches (tick m (fs m)) k f); [done| |done|apply Hi]. set_solver. }
      destruct T as [T1 T2 T3 T4 T5 T6]. simpl in He.
      assert (Hsame : forall path, path ≠ backup_path (sf_staged f) k -> live (tick (tick m (fs m)) fs') path = live m path).
      { intros path Hne. unfold live. simpl. rewrite He. by rewrite lookup_insert_ne. }
      split; [done|done|done| |by simpl; rewrite Hpub|].
      * intros b [= <-]. split_and!; [done|rewrite <- Hlo; done|]. unfold live at 1. simpl. rewrite He, lookup_insert_eq.
        unfold live in Hlo. rewrite <- Hlo. by destruct Hs as [? ->].
      * intros _. by rewrite !Hsame.
    + apply Forall_insert; [done|by simpl].
    + intros i g q Hlt Hg Hq. destruct (decide (i = k)) as [->|Hne].
      * rewrite list_lookup_insert_eq in Hq by by eapply lookup_lt_Some. injection Hq as <-. by intros _ _.
      * rewrite list_lookup_insert_ne in Hq by done. apply (Hb i); [lia|done|done].
Qed.

Definition all_backed_up (publications : list DatabasePublication) : Prop :=
  forall i f p, files !! i = Some f -> publications !! i = Some p -> backed_up f p.

Definition publish_inv (k : nat) (publications : list DatabasePublication) (m : Machine) : Prop :=
  inv publications m /\ all_backed_up publications /\
  forall i p, publications !! i = Some p -> published p = bool_decide (i < k)%nat.

Lemma publish_one_ok k publications p m :
  publish_inv k publications m -> publications !! k = Some p ->
  wp crash_ok (publish_one oracle publications k p) (phase (publish_inv (S k))) m.
Proof.
  intros (Hi & Hb & Hk) Hp. destruct (lookup_lt_is_Some_2 files k) as [f Hf].
  { destruct Hi as (_ & <- & _). by eapply lookup_lt_Some. }
  assert (T : tracks m k f p) by by apply Hi.
  assert (Hpub : published p = false) by (rewrite (Hk k p Hp); apply bool_decide_eq_false; lia).
  destruct (tr_old _ _ _ _ T) as [Hlo Hln]; [by rewrite Hpub|].
  assert (Hrest : forall m', base m' -> around k m m' -> tracks m' k f (set_published p) ->
    publish_inv (S k) (<[k := set_published p]> publications) m').
  { intros m' Hbm Ha T'. split_and!; [by eapply inv_insert| |].
    - intros i g q Hg Hq. destruct (decide (i = k)) as [->|Hne].
      + rewrite list_lookup_insert_eq in Hq by by eapply lookup_lt_Some. injection Hq as <-.
        intros Hx. by apply (Hb k g p Hg Hp).
      + rewrite list_lookup_insert_ne in Hq by done. by apply (Hb i).
    - intros i q Hq. destruct (decide (i = k)) as [->|Hne].
      + rewrite list_lookup_insert_eq in Hq by by eapply lookup_lt_Some. injection Hq as <-. symmetry.
        apply bool_decide_eq_true. lia.
      + rewrite list_lookup_insert_ne in Hq by done. rewrite (Hk i q Hq). apply bool_decide_ext. lia. }
  unfold publish_one. apply wp_bind. destruct (publish p) eqn:Hpb.
  - rewrite (tr_destination _ _ _ _ T), (tr_staged _ _ _ _ T).
    apply wp_syscall; [left; exact (inv_safe publications m Hi)| |].
    { intros e _. apply phase_abort; [by apply inv_tick|done|done]. }
    intros [] fs' (Ht & Hs & Hd & Hst)%rename_Ok. apply wp_ret.
    destruct (footprint_distinct k f Hf) as (Hds & Hdb & Hsb). apply Hrest.
    { eapply base_touches; [done| |done|apply Hi]. set_solver. }
    { eapply around_touches; [done| |done]. set_solver. }
    destruct T as [T1 T2 T3 T4 T5 T6]. unfold live in Hln, Hlo. split; [done|done|done| | |by simpl; rewrite Hpb].
    + intros b Hbk. destruct (T4 b Hbk) as (-> & Ho & Hl). split_and!; [done|done|]. rewrite <- Hl.
      destruct Ht as (_ & _ & Ht). apply Ht. set_solver.
    + intros _. split_and!; [by rewrite <- Hln| |by apply (Hb k f p)|].
      * unfold live. simpl. by rewrite Hd.
      * intros Hnone. unfold live. simpl. destruct (Hst (not_eq_sym Hds)) as [?|[Hx _]]; [done|].
        rewrite Hlo, Hnone in Hx. rewrite <- Hx in Hs. by destruct Hs.
  - apply wp_ret, wp_ret. apply Hrest; [apply Hi|apply around_refl|]. destruct T as [T1 T2 T3 T4 T5 T6].
    split; [done|done|done|done| |]; simpl; by rewrite Hpb.
Qed.

Definition published_inv (publications : list DatabasePublication) (m : Machine) : Prop :=
  inv publications m /\ Forall (fun p => published p = true) publications.

Lemma sync_one_ok k publications p m :
  published_inv publications m -> publications !! k = Some p ->
  wp crash_ok (sync_one oracle publications k p) (phase published_inv) m.
Proof.
  intros [Hi Hd] Hp. apply wp_bind, wp_syscall; [left; exact (inv_safe publications m Hi)| |].
  - intros e _. apply phase_abort; [by apply inv_tick|done|done].
  - intros [] fs' [= <-]. apply wp_ret. split; [by apply inv_tick|done].
Qed.

Lemma published_committed publications m : published_inv publications m -> committed m.
Proof.
  intros [Hi Hd]. split; [apply Hi|]. intros i f Hf. destruct (inv_lookup _ _ _ _ Hi Hf) as (p & Hp & T).
  pose proof (proj1 (Forall_lookup _ _) Hd _ _ Hp) as Hpub. simpl in Hpub. rewrite <- (tr_publish _ _ _ _ T).
  destruct (publish p) eqn:Hpb.
  - destruct (tr_new _ _ _ _ T) as (? & ? & _); [by rewrite Hpub, Hpb|]. done.
  - destruct (tr_old _ _ _ _ T) as [? _]; [by rewrite Hpb, andb_false_r|]. done.
Qed.

Lemma committed_frame m i f paths fs' :
  files !! i = Some f -> (sf_destination f ∉ paths) -> paths ⊆ footprint i f -> touches paths (fs m) fs' ->
  committed m -> committed (tick m fs').
Proof.
  intros Hf Hn Hs Ht [Hb Hc]. split; [by eapply (base_touches m i f)|]. intros j g Hg.
  assert (Hl : live (tick m fs') (sf_destination g) = live m (sf_destination g)).
  { destruct (decide (j = i)) as [->|Hne]; [simplify_eq; by apply Ht|].
    eapply (live_frame m i j f g); try done. set_solver. }
  rewrite Hl. by apply (Hc j g).
Qed.

Lemma remove_backups_ok l m :
  committed m ->
  Forall (fun p => forall b, backup p = Some b -> exists i f, files !! i = Some f /\ b = backup_path (sf_staged f) i) l ->
  wp crash_ok (remove_backups oracle l) (fun _ => committed) m.
Proof.
  revert m. induction l as [|p l IH]; intros m Hc Hl; [by apply wp_ret|]. apply Forall_cons in Hl as [Hp Hl].
  cbn [remove_backups]. destruct (backup p) as [b|] eqn:Hb; [|by apply IH].
  destruct (Hp b eq_refl) as (i & f & Hf & ->). apply wp_bind, wp_syscall; [by right|by intros e _; apply IH|].
  intros [] fs' Ht%remove_file_Ok. apply IH; [|done]. destruct (footprint_distinct i f Hf) as (_ & Hdb & _).
  eapply (committed_frame m i f); [done| |  |exact Ht|done]; set_solver.
Qed.

(** The outcome of a commit. *)
Definition committed_or_aborted (r : result unit (CommitError E)) (m : Machine) : Prop :=
  match r with
  | Ok _ => committed m
  | Err (ReleaseFailed _) => committed m
  | Err e => rolled_back (rollback_errors e) m
  end.

Lemma aborted_outcome e m : aborted e m -> committed_or_aborted (Err e) m.
Proof. by destruct e. Qed.

Lemma commit_ok acquire release n m :
  fs m = fs0 -> wf fs0 -> wp crash_ok (commit_staged_files oracle acquire release files n) committed_or_aborted m.
Proof.
  intros Hfs Hwf. set (pubs := map publication files).
  assert (Hi : inv pubs m).
  { split_and!; [split_and!; [by rewrite Hfs|by rewrite Hfs|intros; unfold live; by rewrite Hfs]|apply length_map|].
    intros i f p Hf Hp. unfold pubs in Hp. rewrite list_lookup_fmap, Hf in Hp. injection Hp as <-.
    split; try done. intros _. unfold live. by rewrite Hfs. }
  assert (Hd : idle pubs) by (apply Forall_map, Forall_true; done).
  assert (Hlen : length pubs = length files) by apply length_map.
  unfold commit_staged_files. destruct (negb _); [apply wp_ret; by eapply idle_rolled_back|].
  destruct acquire as [[]|e]; [|apply wp_ret; by eapply idle_rolled_back]. fold pubs.
  apply wp_try. eapply wp_mono; [by apply check_staged_ok|]. intros [[]|e] m1; [|apply aborted_outcome]. intros Hi1.
  apply wp_try. eapply wp_mono; [apply (for_indices_ok backup_inv)|].
  { intros k pb m' (H & _). apply H. }
  { apply back_up_ok. }
  { split_and!; [done|done|]. intros; lia. }
  { rewrite Hlen. lia. }
  intros [pubs2|e] m2; [|apply aborted_outcome]. intros (k2 & Hk2 & Hi2 & Hd2 & Hb2).
  apply wp_try. eapply wp_mono; [apply (for_indices_ok publish_inv)|].
  { intros k pb m' (H & _). apply H. }
  { apply publish_one_ok. }
  { split_and!; [done| |].
    - intros i f p Hf Hp. apply (Hb2 i); [|done|done]. apply lookup_lt_Some in Hf. lia.
    - intros i p Hp. rewrite (proj1 (Forall_lookup _ _) Hd2 _ _ Hp). symmetry. apply bool_decide_eq_false. lia. }
  { rewrite Hlen. lia. }
  intros [pubs3|e] m3; [|apply aborted_outcome]. intros (k3 & Hk3 & Hi3 & Hb3 & Hd3).
  apply wp_try. eapply wp_mono; [apply (for_indices_ok (fun _ => published_inv))|].
  { intros k pb m' (H & _). apply H. }
  { apply sync_one_ok. }
  { split; [done|]. apply Forall_lookup. intros i p Hp. rewrite (Hd3 i p Hp). apply bool_decide_eq_true.
    apply lookup_lt_Some in Hp. destruct Hi3 as (_ & Hl3 & _). lia. }
  { rewrite Hlen. lia. }
  intros [pubs4|e] m4; [|apply aborted_outcome]. intros (k4 & _ & H4). apply wp_bind.
  eapply wp_mono; [apply remove_backups_ok; [by eapply published_committed|]|].
  { destruct H4 as [(_ & Hl4 & Ht4) _]. apply Forall_lookup. intros i p Hp b Hb.
    destruct (lookup_lt_is_Some_2 files i) as [f Hf]; [rewrite <- Hl4; by eapply lookup_lt_Some|].
    exists i, f. split; [done|]. by destruct (tr_backup _ _ _ _ (Ht4 i f p Hf Hp) b Hb). }
  intros [] m5 Hc5. apply wp_ret. by destruct release.
Qed.
End commit.

(** * The publication *)

(** Dropping the staging directory changes nothing outside of it, and nothing
    at all when a rollback was incomplete. *)
Definition swept (staging : rstr) (m m' : Machine) : Prop :=
  inodes (fs m') = inodes (fs m) /\
  (forall path, below staging path = false -> live m' path = live m path) /\
  (keep_staging m = true -> m' = m).

Lemma drop_staging_ok oracle (C : Machine -> Prop) staging m :
  C m -> wp C (drop_staging oracle staging) (fun _ => swept staging m) m.
Proof.
  intros Hc. unfold drop_staging, wp. destruct (keep_staging m) eqn:Hk; [done|].
  change (wp C (_ ← syscall oracle (remove_dir_all staging); mret tt) (fun _ => swept staging m) m).
  apply wp_bind, wp_syscall; [done| |].
  - intros e _. apply wp_ret. split_and!; [done|done|congruence].
  - intros [] fs' [= <-]. apply wp_ret. split_and!; [done| |congruence]. intros path Hp. unfold live. simpl.
    destruct (entries (fs m) !! path) as [ino|] eqn:Hl.
    + by apply map_lookup_filter_Some_2.
    + apply map_lookup_filter_None_2. by left.
Qed.

Lemma swept_contents staging m m' path fs0 path' :
  swept staging m m' -> same_contents fs0 (fs m) -> below staging path = false \/ keep_staging m = true ->
  live m path = entries fs0 !! path' -> contents (fs m') path = contents fs0 path'.
Proof.
  intros (Hi & Hl & Hk) Hs Hb Hp. apply contents_eq; [intros ino; rewrite Hi; apply Hs|]. rewrite <- Hp.
  destruct Hb as [Hb|Hb]; [by apply Hl|]. by rewrite Hk.
Qed.

Section publication.
Context (fs0 fs' : Fs) (files : list StagedFile).

Definition new_contents (f : StagedFile) : option (list Z) :=
  contents fs0 (if sf_publish f then sf_staged f else sf_destination f).

Definition all_new : Prop := forall f, f ∈ files ->
  contents fs' (sf_destination f) = new_contents f /\ (sf_publish f = true -> is_Some (new_contents f)).

Definition all_old : Prop := forall f, f ∈ files ->
  contents fs' (sf_destination f) = contents fs0 (sf_destination f).

(** Old or new, and the old contents are live or in the backup. *)
Definition none_lost : Prop := forall i f, files !! i = Some f ->
  (contents fs' (sf_destination f) = contents fs0 (sf_destination f) \/
   contents fs' (sf_destination f) = new_contents f) /\
  (is_Some (contents fs0 (sf_destination f)) ->
   contents fs' (sf_destination f) = contents fs0 (sf_destination f) \/
   contents fs' (backup_path (sf_staged f) i) = contents fs0 (sf_destination f)).

Definition others_kept (staging : rstr) : Prop := forall path,
  (path ∉ concat (imap footprint files)) -> below staging path = false -> contents fs' path = contents fs0 path.
End publication.

Lemma contents_is_Some fs path : wf fs -> is_Some (entries fs !! path) -> is_Some (contents fs path).
Proof. unfold contents. intros Hw [ino Hp]. rewrite Hp. simpl. apply fmap_is_Some. by eapply Hw. Qed.

Lemma contents_entry fs path : is_Some (contents fs path) -> is_Some (entries fs !! path).
Proof. unfold contents. destruct (entries fs !! path); simpl; [by eexists|by intros [? ?]]. Qed.

Lemma swept_refl staging m : swept staging m m.
Proof. by split_and!. Qed.

Lemma base_others files fs0 staging m m' : base files fs0 m -> swept staging m m' -> others_kept fs0 (fs m') files staging.
Proof. intros (_ & Hs & Ho) Hw path Hp Hb. eapply swept_contents; [done|done|by left|]. by apply Ho. Qed.

Lemma committed_all_new files fs0 staging m m' :
  wf fs0 -> Forall (fun f => below staging (sf_destination f) = false) files ->
  committed files fs0 m -> swept staging m m' -> all_new fs0 (fs m') files.
Proof.
  intros Hwf Hd [(_ & Hs & _) Hc] Hw f Hf. rewrite Forall_forall in Hd. specialize (Hd f Hf).
  apply list_elem_of_lookup in Hf as [i Hf]. specialize (Hc i f Hf). unfold new_contents. destruct (sf_publish f).
  - destruct Hc as [Hi Hl]. split; [|intros _; by apply contents_is_Some]. eapply swept_contents; [done|done|by left|done].
  - split; [|done]. eapply swept_contents; [done|done|by left|done].
Qed.

Lemma restored_all_old files fs0 staging m m' :
  Forall (fun f => below staging (sf_destination f) = false) files ->
  base files fs0 m -> restored files fs0 m -> swept staging m m' -> all_old fs0 (fs m') files.
Proof.
  intros Hd (_ & Hs & _) Hr Hw f Hf. rewrite Forall_forall in Hd. eapply swept_contents; [done|done|left; auto|by apply Hr].
Qed.

Lemma safe_none_lost files fs0 m : safe files fs0 m -> none_lost fs0 (fs m) files.
Proof.
  intros [(_ & Hs & _) Hr] i f Hf. destruct (Hr i f Hf) as [Hd Hb]. split.
  - unfold new_contents. destruct Hd as [Hd|(-> & _ & Hd)]; [left|right]; by apply contents_eq.
  - intros Ho%contents_entry. destruct (Hb Ho) as [H|H]; [left|right]; by apply contents_eq.
Qed.

(** C9: replacing the package databases is atomic, whatever calls fail and
    wherever the process is killed. When it reports success, or only fails to
    release the lock, every database is the new one; when it fails and the
    rollback had no errors, every database is the old one; after an
    incomplete rollback the staging directory is kept, so that, as after a
    kill before the end, each destination holds its old or its new contents
    and the old contents are there or in the backup. Nothing else is touched. *)
Theorem publication_is_atomic {E} oracle (acquire release : result unit E) staging repositories errors m :
  let files := staged_files (fs m) repositories in
  wf (fs m) -> NoDup (concat (imap footprint files)) ->
  Forall (fun f => below staging (sf_destination f) = false) files ->
  let '(m', r) := publish_databases oracle acquire release staging repositories errors m in
  others_kept (fs m) (fs m') files staging /\
  match r with
  | Some (Ok _) | Some (Err (ReleaseFailed _)) => all_new (fs m) (fs m') files
  | Some (Err e) =>
      if decide (rollback_errors e = []) then all_old (fs m) (fs m') files
      else none_lost (fs m) (fs m') files
  | None => all_new (fs m) (fs m') files \/ none_lost (fs m) (fs m') files
  end.
Proof.
  intros files Hwf Hdis Hd. set (C := crash_ok files (fs m)).
  assert (H : wp C (publish_databases oracle acquire release staging repositories errors)
    (fun r m2 => exists m1, committed_or_aborted files (fs m) r m1 /\ swept staging m1 m2) m).
  { unfold publish_databases, wp. fold files.
    change (wp C (r ← commit_staged_files oracle acquire release files errors; _ ← drop_staging oracle staging; mret r)
      (fun r m2 => exists m1, committed_or_aborted files (fs m) r m1 /\ swept staging m1 m2) m).
    apply wp_bind. eapply wp_mono; [by apply (commit_ok oracle files (fs m))|]. intros r m1 H1. apply wp_bind.
    eapply wp_mono; [apply drop_staging_ok|].
    - destruct r as [[]|[]]; first [right; exact H1|left; apply H1].
    - intros [] m2 Hs. apply wp_ret. by exists m1. }
  unfold wp in H. destruct (publish_databases _ _ _ _ _ _ m) as [m' [r|]].
  - destruct H as (m1 & H1 & Hs).
    assert (Hnew : committed files (fs m) m1 -> others_kept (fs m) (fs m') files staging /\ all_new (fs m) (fs m') files).
    { intros Hc. split; [by eapply base_others; [apply Hc|]|by eapply committed_all_new]. }
    assert (Hold : forall es, rolled_back files (fs m) es m1 -> others_kept (fs m) (fs m') files staging /\
      if decide (es = []) then all_old (fs m) (fs m') files else none_lost (fs m) (fs m') files).
    { intros es ([Hb Hr] & Hr1 & Hk). split; [by eapply base_others|]. destruct (decide (es = [])) as [He|He].
      - eapply restored_all_old; [done|done|by apply Hr1|done].
      - destruct Hs as (_ & _ & Hs). rewrite (Hs (Hk He)). by apply safe_none_lost. }
    destruct r as [[]|[]]; first [exact (Hnew H1)|exact (Hold _ H1)].
  - destruct H as [Hs|Hc].
    + split; [eapply base_others; [apply Hs|apply swept_refl]|]. right. by apply safe_none_lost.
    + split; [eapply base_others; [apply Hc|apply swept_refl]|]. left. eapply committed_all_new; [done|done|done|].
      apply swept_refl.
Qed.

Definition sample_repository : StagedRepository :=
  {| database := str "/sync/.omg/core.db"; database_destination := str "/sync/core.db";
     signature := str "/sync/.omg/core.db.sig"; signature_destination := str "/sync/core.db.sig" |}.

Definition regular (content : list Z) : FileInfo := {| file_kind := RegularFile; file_mode := 384; file_content := content |}.

Definition sample_machine : Machine :=
  {| fs := {| entries := {[str "/sync/core.db" := 1; str "/sync/.omg/core.db" := 2]};
              inodes := {[1 := regular [1]; 2 := regular [2]]} |};
     clock := 0; keep_staging := false |}.

Lemma sample_wf : wf (fs sample_machine).
Proof.
  intros path ino Hp. cbn [sample_machine fs entries] in Hp. revert Hp.
  intros [[_ <-]|[_ [_ <-]%lookup_singleton_Some]]%lookup_insert_Some; eexists; vm_compute; reflexivity.
Qed.

Definition sample_publication : Machine * option (result unit (CommitError unit)) :=
  publish_databases (fun _ => NoFault) (Ok tt) (Ok tt) (str "/sync/.omg") [sample_repository] 0 sample_machine.

Lemma publication_is_atomic_witness :
  let '(m', r) := sample_publication in
  r = Some (Ok tt) /\ contents (fs m') (str "/sync/core.db") = Some [2] /\
  all_new (fs sample_machine) (fs m') (staged_files (fs sample_machine) [sample_repository]).
Proof.
  assert (Hr : snd sample_publication = Some (Ok tt)) by (vm_compute; reflexivity).
  assert (Hc : contents (fs (fst sample_publication)) (str "/sync/core.db") = Some [2]) by (vm_compute; reflexivity).
  pose proof (publication_is_atomic (E := unit) (fun _ => NoFault) (Ok tt) (Ok tt) (str "/sync/.omg")
    [sample_repository] 0 sample_machine sample_wf) as H.
  fold sample_publication in H. destruct sample_publication as [m' r]. simpl in Hr, Hc.
  split; [done|]. split; [done|]. rewrite Hr in H. apply H.
  - apply (bool_decide_unpack _). vm_compute. done.
  - repeat constructor.
Defined.
