(* ===== verification/RuntimeVersions.v ===== *)
(** Versions of language runtimes: src/src/runtimes/common.rs.

    The ordering [version_cmp] of vendor version strings, the normalisation of
    requests, and the choice of a release for a partial request. Whether a
    string is a semantic version is decided by the semver crate, a parameter
    of the definitions. *)

From S2P Require Import Prelude.
Open Scope Z_scope.
Open Scope omg_scope.

Definition zero : rstr := str "0".

Definition numeric_parts (version : rstr) : list rstr :=
  List.filter (fun part => negb (str_eqb part [])) (split_by (fun c => negb (is_ascii_digit c)) version).

(** The digits that count: leading zeros are dropped, but one is kept. *)
Definition significant (part : rstr) : rstr :=
  let part := trim_start_matches (Z.eqb (ch "0")) part in
  if str_eqb part [] then zero else part.

Definition compare_numeric_parts (left right : rstr) : comparison :=
  let left := significant left in
  let right := significant right in
  then_with (str_len left ?= str_len right) (list_cmp left right).

(** [find(|&ordering| ordering != Equal).unwrap_or(Equal)]. *)
Fixpoint first_unequal (orderings : list comparison) : comparison :=
  match orderings with
  | [] => Eq
  | Eq :: orderings => first_unequal orderings
  | ordering :: _ => ordering
  end.

Definition compare_part_lists (left right : list rstr) : comparison :=
  first_unequal
    (map (fun index => compare_numeric_parts (default zero (left !! index)) (default zero (right !! index)))
         (seq 0 (length left `max` length right))).

Definition core_and_suffix (version : rstr) : rstr * rstr :=
  span_not (fun c => negb (is_ascii_digit c) && negb (c =? ch ".")) version.

Definition stages : list rstr :=
  [str "alpha"; str "beta"; str "rc"; str "pre"; str "dev"; str "nightly"; str "snapshot"; str "a"; str "b"].

Definition all_ascii_digits (part : rstr) : bool := forallb is_ascii_digit part.

(** The stage and sequence of a vendor suffix, when it is a recognized one. *)
Definition vendor_prerelease (suffix : rstr) : option (list rstr) :=
  let '(stage, sequence) := span_not (fun c => negb (is_ascii_alphabetic c)) suffix in
  let stage_only := str_eqb sequence [] in
  let sequence := default sequence (strip_prefix (str ".") sequence) in
  if existsb (str_eqb stage) stages &&
     (stage_only ||
      forallb (fun part => negb (str_eqb part []) && all_ascii_digits part) (split_char (ch ".") sequence))
  then Some (stage :: (if str_eqb sequence [] then [] else split_char (ch ".") sequence))
  else None.

Definition identifier_cmp (left right : rstr) : comparison :=
  match all_ascii_digits left, all_ascii_digits right with
  | true, true => compare_numeric_parts left right
  | true, false => Lt
  | false, true => Gt
  | false, false => list_cmp left right
  end.

Fixpoint compare_identifiers (left right : list rstr) : comparison :=
  match left, right with
  | l :: ls, r :: rs => then_with (identifier_cmp l r) (compare_identifiers ls rs)
  | _, _ => Nat.compare (length left) (length right)
  end.

Record VersionKey := {
  key_core : list rstr;
  key_prerelease : option (list rstr);
  key_revision : list rstr
}.

Section semver.
Context (is_semver : rstr -> bool).

Definition key (version : rstr) : VersionKey :=
  let version := trim_start_matches (fun c => (c =? ch "v") || (c =? ch "V")) version in
  let version := match split_once (ch "+") version with Some (core, _) => core | None => version end in
  let '(core, suffix) := core_and_suffix version in
  let suffix := default suffix (strip_prefix (str "-") suffix) in
  let prerelease :=
    if is_semver version then (if str_eqb suffix [] then None else Some (split_char (ch ".") suffix))
    else vendor_prerelease suffix in
  {| key_core := numeric_parts core; key_prerelease := prerelease; key_revision := numeric_parts suffix |}.

Definition key_cmp (a b : VersionKey) : comparison :=
  then_with (compare_part_lists (key_core a) (key_core b))
    match key_prerelease a, key_prerelease b with
    | Some a, Some b => compare_identifiers a b
    | Some _, None => Lt
    | None, Some _ => Gt
    | None, None => compare_part_lists (key_revision a) (key_revision b)
    end.

Definition version_cmp (a b : rstr) : comparison := key_cmp (key a) (key b).

(** [version_cmp(a, b).then_with(|| a.cmp(b))]. *)
Definition version_then_text (a b : rstr) : comparison := then_with (version_cmp a b) (list_cmp a b).

(** The order of [list_installed_versions]: newest first. *)
Definition newest_first (versions : list rstr) : list rstr :=
  sort_by (fun a b => version_then_text b a) versions.

(** * Requests *)

Definition normalize_version (version : rstr) : rstr :=
  match version with
  | c :: ((d :: _) as rest) => if ((c =? ch "v") || (c =? ch "V")) && is_ascii_digit d then rest else version
  | _ => version
  end.

Definition numeric_part (part : rstr) : bool := negb (str_eqb part []) && all_ascii_digits part.

Definition is_partial_version (requested : rstr) : bool :=
  let parts := split_char (ch ".") (normalize_version requested) in
  (1 <=? length parts)%nat && (length parts <=? 2)%nat && forallb numeric_part parts.

(** [candidate_parts.len() >= parts.len() && candidate_parts[..parts.len()] == parts[..]]. *)
Definition extends_request (parts : list rstr) (candidate : rstr) : bool :=
  let candidate_parts := split_char (ch ".") (normalize_version candidate) in
  (length parts <=? length candidate_parts)%nat && bool_decide (take (length parts) candidate_parts = parts).

(** [Iterator::max_by]: the last of the greatest elements. *)
Definition max_by {A} (cmp : A -> A -> comparison) (l : list A) : option A :=
  foldl (fun best x =>
    match best with
    | None => Some x
    | Some b => match cmp b x with Gt => Some b | _ => Some x end
    end) None l.

Definition resolve_partial_version (available : list rstr) (requested : rstr) : option rstr :=
  let parts := split_char (ch ".") (normalize_version requested) in
  if (3 <? length parts)%nat || existsb (fun part => negb (numeric_part part)) parts then None
  else
    normalize_version <$>
      max_by version_then_text (List.filter (extends_request parts) available).
End semver.

(** * Digests *)

(** [parse_sha256_digest] and [parse_sha512_digest], with their prefix and the
    number of digits; [None] is the error. *)
Definition parse_digest (prefix : rstr) (digits : Z) (value : rstr) : option rstr :=
  digest ← head (split_whitespace value);
  let digest := default digest (strip_prefix prefix digest) in
  if (str_len digest =? digits) && forallb is_ascii_hexdigit digest then Some (to_ascii_lowercase digest) else None.

Definition parse_sha256_digest : rstr -> option rstr := parse_digest (str "sha256:") 64.
Definition parse_sha512_digest : rstr -> option rstr := parse_digest (str "sha512:") 128.

(** * The order *)

Lemma compare_numeric_parts_order : cmp_order always compare_numeric_parts.
Proof.
  apply (cmp_order_lex always).
  - apply (cmp_order_key (fun s => str_len (significant s)) always), cmp_order_Z.
  - apply (cmp_order_key significant always), cmp_order_list.
Qed.

(** The first [n] positions, the lists continued by zeros. *)
Fixpoint padded_cmp (n : nat) (left right : list rstr) : comparison :=
  match n with
  | O => Eq
  | S n =>
      then_with (compare_numeric_parts (default zero (head left)) (default zero (head right)))
        (padded_cmp n (tail left) (tail right))
  end.

Lemma padded_cmp_order n : cmp_order always (padded_cmp n).
Proof.
  induction n as [|n IH]; [apply cmp_order_const|]. cbn [padded_cmp]. apply cmp_order_lex.
  - apply (cmp_order_key (fun l => default zero (head l)) always), compare_numeric_parts_order.
  - by apply (cmp_order_key tail always).
Qed.

Lemma first_unequal_cons o os : first_unequal (o :: os) = then_with o (first_unequal os).
Proof. by destruct o. Qed.

Lemma padded_cmp_nil n : padded_cmp n [] [] = Eq.
Proof. induction n as [|n IH]; [done|]. simpl. by rewrite IH. Qed.

Lemma padded_cmp_spec n k left right :
  (length left `max` length right <= n)%nat -> (k = length left `max` length right)%nat ->
  first_unequal (map (fun i => compare_numeric_parts (default zero (left !! i)) (default zero (right !! i))) (seq 0 k))
  = padded_cmp n left right.
Proof.
  revert k left right. induction n as [|n IH]; intros k left right Hn ->.
  { assert (length left `max` length right = 0)%nat as -> by lia. done. }
  destruct (length left `max` length right)%nat as [|k] eqn:Hk.
  { destruct left as [|l left]; [|simpl in Hk; lia]. destruct right as [|r right]; [|simpl in Hk; lia].
    by rewrite padded_cmp_nil. }
  cbn [seq map]. rewrite first_unequal_cons. cbn [padded_cmp]. rewrite <- (IH k (tail left) (tail right)).
  - f_equal; [by destruct left, right|]. rewrite <- seq_shift, map_map. f_equal. apply map_ext. intros i.
    by destruct left, right.
  - destruct left, right; simpl in *; lia.
  - destruct left, right; simpl in *; lia.
Qed.

Lemma compare_part_lists_order : cmp_order always compare_part_lists.
Proof.
  apply (cmp_order_limit (@length rstr) padded_cmp); [apply padded_cmp_order|]. intros n x y Hx Hy.
  apply padded_cmp_spec; [lia|done].
Qed.

(** Text that matters only on one side of a distinction. *)
Definition digits_or_nil (s : rstr) : rstr := if all_ascii_digits s then s else [].
Definition text_or_nil (s : rstr) : rstr := if all_ascii_digits s then [] else s.
Definition is_text (s : rstr) : Z := if all_ascii_digits s then 0 else 1.

Lemma identifier_cmp_order : cmp_order always identifier_cmp.
Proof.
  apply (cmp_order_ext _ always _ (fun a b => then_with (is_text a ?= is_text b)
    (then_with (compare_numeric_parts (digits_or_nil a) (digits_or_nil b)) (list_cmp (text_or_nil a) (text_or_nil b)))));
    [done| |].
  - intros a b _ _. unfold identifier_cmp, is_text, digits_or_nil, text_or_nil.
    destruct (all_ascii_digits a), (all_ascii_digits b); simpl; try done. by destruct (compare_numeric_parts a b).
  - apply cmp_order_lex; [|apply cmp_order_lex].
    + apply (cmp_order_key is_text always), cmp_order_Z.
    + apply (cmp_order_key digits_or_nil always), compare_numeric_parts_order.
    + apply (cmp_order_key text_or_nil always), cmp_order_list.
Qed.

Definition option_cmp (a b : option rstr) : comparison :=
  match a, b with
  | Some a, Some b => identifier_cmp a b
  | Some _, None => Gt
  | None, Some _ => Lt
  | None, None => Eq
  end.

Lemma option_cmp_order : cmp_order always option_cmp.
Proof.
  pose proof identifier_cmp_order as H. split.
  - intros [x|] [y|] _ _; simpl; try done. by apply (cmp_flip H).
  - intros c [x|] [y|] [z|] _ _ _; simpl; try congruence. by apply (cmp_trans H).
  - intros [x|] [y|] [z|] _ _ _; simpl; try done. by apply (cmp_eq_l H).
Qed.

(** The first [n] identifiers, a missing one counting as the least. *)
Fixpoint prefix_cmp (n : nat) (left right : list rstr) : comparison :=
  match n with
  | O => Eq
  | S n => then_with (option_cmp (head left) (head right)) (prefix_cmp n (tail left) (tail right))
  end.

Lemma prefix_cmp_order n : cmp_order always (prefix_cmp n).
Proof.
  induction n as [|n IH]; [apply cmp_order_const|]. cbn [prefix_cmp]. apply cmp_order_lex.
  - apply (cmp_order_key head always), option_cmp_order.
  - by apply (cmp_order_key tail always).
Qed.

Lemma compare_identifiers_order : cmp_order always compare_identifiers.
Proof.
  apply (cmp_order_limit (@length rstr) prefix_cmp); [apply prefix_cmp_order|].
  intros n. induction n as [|n IH]; intros [|x xs] [|y ys] Hx Hy; simpl in *; try done; try lia.
  - clear. by induction n.
  - rewrite <- (IH xs ys) by lia. by destruct (identifier_cmp x y).
Qed.

Definition is_release (k : VersionKey) : Z := match key_prerelease k with Some _ => 0 | None => 1 end.
Definition prerelease_or_nil (k : VersionKey) : list rstr := default [] (key_prerelease k).
Definition revision_or_nil (k : VersionKey) : list rstr :=
  match key_prerelease k with Some _ => [] | None => key_revision k end.

Lemma key_cmp_order : cmp_order always key_cmp.
Proof.
  apply (cmp_order_ext _ always _ (fun a b => then_with (compare_part_lists (key_core a) (key_core b))
    (then_with (is_release a ?= is_release b)
      (then_with (compare_identifiers (prerelease_or_nil a) (prerelease_or_nil b))
        (compare_part_lists (revision_or_nil a) (revision_or_nil b)))))); [done| |].
  - intros a b _ _. unfold key_cmp, is_release, prerelease_or_nil, revision_or_nil. f_equal.
    destruct (key_prerelease a), (key_prerelease b); simpl; try done. by destruct (compare_identifiers _ _).
  - apply cmp_order_lex; [|apply cmp_order_lex; [|apply cmp_order_lex]].
    + apply (cmp_order_key key_core always), compare_part_lists_order.
    + apply (cmp_order_key is_release always), cmp_order_Z.
    + apply (cmp_order_key prerelease_or_nil always), compare_identifiers_order.
    + apply (cmp_order_key revision_or_nil always), compare_part_lists_order.
Qed.

Section order.
Context (is_semver : rstr -> bool).

Lemma version_cmp_order : cmp_order always (version_cmp is_semver).
Proof. apply (cmp_order_key (key is_semver) always), key_cmp_order. Qed.

Lemma version_then_text_order : cmp_order always (version_then_text is_semver).
Proof. apply (cmp_order_lex always); [apply version_cmp_order|apply cmp_order_list]. Qed.

Lemma version_then_text_eq a b : version_then_text is_semver a b = Eq -> a = b.
Proof. unfold version_then_text. destruct (version_cmp is_semver a b); simpl; try done. apply list_cmp_eq. Qed.
End order.

(** * Choosing a release *)

Section max_by.
Context {A : Type} (cmp : A -> A -> comparison) (Hcmp : cmp_order always cmp).

Definition greatest (l : list A) (x : A) : Prop := x ∈ l /\ forall y, y ∈ l -> cmp_le cmp y x.

Lemma max_by_snoc l x :
  max_by cmp (l ++ [x]) =
  match max_by cmp l with None => Some x | Some b => match cmp b x with Gt => Some b | _ => Some x end end.
Proof. unfold max_by. by rewrite foldl_app. Qed.

Lemma max_by_spec l :
  match max_by cmp l with Some x => greatest l x | None => l = [] end.
Proof.
  induction l as [|x l IH] using rev_ind; [done|]. rewrite max_by_snoc.
  assert (Hrefl : cmp_le cmp x x) by (unfold cmp_le; by rewrite (cmp_refl always cmp x Hcmp)).
  destruct (max_by cmp l) as [b|]; [|subst l; split; [set_solver|]; intros y Hy; by assert (y = x) as -> by set_solver].
  destruct IH as [Hb Hle]. destruct (cmp b x) eqn:Hc.
  1,2: split; [set_solver|]; intros y [Hy|Hy]%elem_of_app; [|by assert (y = x) as -> by set_solver].
  1,2: apply (cmp_le_trans cmp Hcmp y b); [by apply Hle|unfold cmp_le; by rewrite Hc].
  split; [set_solver|]. intros y [Hy|Hy]%elem_of_app; [by apply Hle|]. assert (y = x) as -> by set_solver.
  unfold cmp_le. by rewrite (cmp_flip Hcmp b x), Hc.
Qed.

Lemma greatest_unique l l' x y :
  (forall a b, cmp a b = Eq -> a = b) -> l ≡ₚ l' -> greatest l x -> greatest l' y -> x = y.
Proof.
  intros Heq Hp [Hx Hgx] [Hy Hgy]. rewrite Hp in Hx. rewrite <- Hp in Hy. apply Heq.
  pose proof (Hgx y Hy) as H1. pose proof (Hgy x Hx) as H2. unfold cmp_le in *.
  rewrite (cmp_flip Hcmp x y) in H1 by done. by destruct (cmp x y).
Qed.
End max_by.

Lemma Permutation_filter_bool {A} (f : A -> bool) l l' : l ≡ₚ l' -> List.filter f l ≡ₚ List.filter f l'.
Proof.
  induction 1 as [|x l l' _ IH|x y l|l1 l2 l3 _ IH1 _ IH2]; simpl; [done| | |by etrans].
  - destruct (f x); [by constructor|done].
  - destruct (f x), (f y); try done. by constructor.
Qed.

Lemma trim_start_matches_app p v c r :
  p c = false -> trim_start_matches p (v ++ c :: r) = trim_start_matches p v ++ c :: r.
Proof. intros Hc. induction v as [|x v IH]; simpl; [by rewrite Hc|]. by destruct (p x). Qed.

Lemma trim_start_matches_notin p c v : (c ∉ v) -> (c ∉ trim_start_matches p v).
Proof. induction v as [|x v IH]; [done|]. simpl. intros Hn. destruct (p x); [apply IH; set_solver|done]. Qed.

Lemma key_metadata is_semver v metadata : (ch "+" ∉ v) -> key is_semver (v ++ ch "+" :: metadata) = key is_semver v.
Proof.
  intros Hv. unfold key. rewrite trim_start_matches_app by done.
  pose proof (trim_start_matches_notin (fun c => (c =? ch "v") || (c =? ch "V")) _ v Hv) as Hn.
  set (w := trim_start_matches _ v) in *.
  assert (Hc : split_once (ch "+") (w ++ ch "+" :: metadata) = Some (w, metadata)).
  { by apply split_once_Some. }
  assert (Hc' : split_once (ch "+") w = None) by (by apply split_once_None).
  by rewrite Hc, Hc'.
Qed.

(** versions of runtimes are totally ordered up to equivalence, so that
    sorting and choosing the newest are well defined: comparing the other way
    round mirrors the outcome, each outcome is transitive, and equivalent
    versions compare alike with any third one. A leading [v] and build
    metadata do not matter. *)
Theorem version_cmp_is_order is_semver :
  (forall a b, version_cmp is_semver b a = CompOpp (version_cmp is_semver a b)) /\
  (forall c a b d, version_cmp is_semver a b = c -> version_cmp is_semver b d = c -> version_cmp is_semver a d = c) /\
  (forall a b d, version_cmp is_semver a b = Eq -> version_cmp is_semver a d = version_cmp is_semver b d) /\
  (forall v metadata, (ch "+" ∉ v) ->
     version_cmp is_semver (ch "v" :: v) v = Eq /\ version_cmp is_semver (v ++ ch "+" :: metadata) v = Eq).
Proof.
  pose proof (version_cmp_order is_semver) as H. split_and!.
  - intros a b. by apply (cmp_flip H).
  - intros c a b d. by apply (cmp_trans H).
  - intros a b d. by apply (cmp_eq_l H).
  - intros v metadata Hv. assert (Hk : forall a, version_cmp is_semver a a = Eq) by (intros; by apply (cmp_refl _ _ _ H)).
    split; [exact (Hk v)|]. unfold version_cmp.
    replace (key is_semver (v ++ ch "+" :: metadata)) with (key is_semver v) by (symmetry; by apply key_metadata). apply Hk.
Qed.

(** a request of one to three numeric components resolves to the newest
    available version that extends it component by component, whatever the
    order of the list; it has no answer exactly when no version extends it,
    and other requests have none. *)
Theorem resolve_partial_is_newest is_semver available requested :
  let parts := split_char (ch ".") (normalize_version requested) in
  let answer := resolve_partial_version is_semver available requested in
  (forall available', available' ≡ₚ available -> resolve_partial_version is_semver available' requested = answer) /\
  if (length parts <=? 3)%nat && forallb numeric_part parts then
    match answer with
    | Some version => exists candidate, version = normalize_version candidate /\
        candidate ∈ available /\ extends_request parts candidate = true /\
        forall other, other ∈ available -> extends_request parts other = true ->
          version_cmp is_semver other candidate ≠ Gt
    | None => forall candidate, candidate ∈ available -> extends_request parts candidate = false
    end
  else answer = None.
Proof.
  intros parts answer. unfold answer, resolve_partial_version. fold parts.
  assert (Hcond : ((3 <? length parts)%nat || existsb (fun part => negb (numeric_part part)) parts) =
    negb ((length parts <=? 3)%nat && forallb numeric_part parts)).
  { rewrite negb_andb, Nat.ltb_antisym. f_equal. clear. induction parts as [|p ps IH]; [done|]. simpl.
    by rewrite IH, negb_andb. }
  rewrite !Hcond. destruct (_ && _); simpl; [|done].
  pose proof (version_then_text_order is_semver) as Ho. set (cmp := version_then_text is_semver) in *.
  pose proof (fun l => max_by_spec cmp Ho (List.filter (extends_request parts) l)) as Hmax. split.
  - intros available' Hp%(Permutation_filter_bool (extends_request parts)). f_equal.
    pose proof (Hmax available') as H1. pose proof (Hmax available) as H2.
    destruct (max_by cmp (List.filter _ available')) as [x|], (max_by cmp (List.filter _ available)) as [y|].
    + f_equal. by eapply (greatest_unique cmp Ho); [apply version_then_text_eq|exact Hp|..].
    + rewrite H2 in Hp. apply Permutation_nil_r in Hp. rewrite Hp in H1. destruct H1 as [[]%not_elem_of_nil _].
    + rewrite H1 in Hp. apply Permutation_nil_l in Hp. rewrite <- Hp in H2. destruct H2 as [[]%not_elem_of_nil _].
    + done.
  - specialize (Hmax available). destruct (max_by _ _) as [x|]; simpl.
    + destruct Hmax as [Hx Hle]. exists x. apply list_elem_of_In, filter_In in Hx as [Hx He].
      split_and!; [done|by apply list_elem_of_In|done|]. intros o Hin Hext Hgt.
      apply (Hle o); [apply list_elem_of_In, filter_In; split; [by apply list_elem_of_In|done]|].
      unfold cmp, version_then_text. by rewrite Hgt.
    + intros c Hc. destruct (extends_request parts c) eqn:He; [|done].
      assert (Hin : c ∈ List.filter (extends_request parts) available)
        by (apply list_elem_of_In, filter_In; split; [by apply list_elem_of_In|done]).
      rewrite Hmax in Hin. set_solver.
Qed.

(** A request with three components is not only answered by itself: a version
    with a fourth component is taken as its extension. *)
Lemma full_request_is_extended :
  resolve_partial_version (fun _ => false) [str "17.0.8"; str "17.0.8.1"] (str "17.0.8") = Some (str "17.0.8.1") /\
  resolve_partial_version (fun _ => false) [str "17.0.8.1"] (str "17.0.8") = Some (str "17.0.8.1").
Proof. split; vm_compute; reflexivity. Qed.

Lemma StronglySorted_mono {A} (R R' : A -> A -> Prop) l :
  (forall x y, R x y -> R' x y) -> StronglySorted R l -> StronglySorted R' l.
Proof. intros HR. induction 1 as [|x l _ IH Hx]; constructor; [done|]. eapply Forall_impl; [exact Hx|]. apply HR. Qed.

(** Sorting the installed versions, newest first, does not depend on the
    order of the directory. *)
Lemma newest_first_spec is_semver versions :
  newest_first is_semver versions ≡ₚ versions /\
  StronglySorted (fun a b => version_cmp is_semver a b ≠ Lt) (newest_first is_semver versions) /\
  forall versions', versions' ≡ₚ versions -> newest_first is_semver versions' = newest_first is_semver versions.
Proof.
  pose proof (version_then_text_order is_semver) as Ho. set (cmp := fun a b => version_then_text is_semver b a).
  assert (Hcmp : cmp_order always cmp).
  { split.
    - intros x y _ _. unfold cmp. by apply (cmp_flip Ho).
    - intros c x y z _ _ _ H1 H2. unfold cmp in *. by apply (cmp_trans Ho c z y x).
    - intros x y z _ _ _ H. unfold cmp in *. by apply (cmp_eq_r always _ z y x Ho). }
  assert (Hties : forall x y, cmp x y = Eq -> x = y) by (intros x y H%version_then_text_eq; done).
  unfold newest_first. fold cmp. split_and!.
  - apply sort_by_perm.
  - eapply StronglySorted_mono; [|by apply sort_by_sorted]. intros a b Hle Hlt. apply Hle. unfold cmp, version_then_text.
    by rewrite (cmp_flip (version_cmp_order is_semver) a b), Hlt.
  - intros versions' Hp. apply (sort_by_unique cmp Hcmp); [intros; by apply Hties|by apply sort_by_sorted|].
    by rewrite sort_by_perm.
Qed.
