(* ===== verification/RuntimeStore.v ===== *)
(** The directory of installed runtimes: src/src/runtimes/common.rs.

    Publishing a staged installation, replacing one, switching the [current]
    link, uninstalling and listing, on a versions directory whose entries are
    directory trees, links and other files. System calls run under an oracle
    (see [FaultProg]); whole operations exclude each other through the
    mutation lock. The names of temporary files are arguments. A marker counts
    as present when there is an entry of its name. *)

From S2P Require Import Prelude FaultProg RustPath Spdx Validation RuntimeVersions.
Open Scope Z_scope.
Open Scope omg_scope.

Definition INSTALL_MARKER : rstr := str ".omg-install-complete".
Definition TEST_RUNTIME_MARKER : rstr := str ".omg-test-mock".
Definition INSTALL_PENDING_MARKER : rstr := str ".omg-installing".
Definition current : rstr := str "current".

(** The files of a tree by their path relative to it, with the text of the
    install marker. *)
Inductive TreeFile := TreeEntry (kind : FileKind) | MarkerFile (version : rstr).

Abbreviation Tree := (gmap rstr TreeFile) (only parsing).

Inductive Entry :=
| EntryDir (tree : Tree)
| EntryLink (target : rstr)
| EntryOther.

(** The entries of the versions directory by name. *)
Abbreviation Store := (gmap rstr Entry) (only parsing).

Abbreviation Prog := (FProg Store) (only parsing).

Inductive StoreError :=
| InvalidVersion (e : ValidationError)
| NotInstalled (version : rstr)
| VersionActive (version : rstr)
| CurrentNotALink
| CannotReplace
| BinaryMissing
| StoreIo (e : IoError).

Definition is_valid_tree (tree : Tree) : bool :=
  bool_decide (tree !! TEST_RUNTIME_MARKER = None) && bool_decide (tree !! INSTALL_PENDING_MARKER = None).

Definition is_valid_version_dir (st : Store) (name : rstr) : bool :=
  match st !! name with
  | Some (EntryDir tree) => is_valid_tree tree
  | _ => false
  end.

(** * System calls *)

Definition lstat (name : rstr) (st : Store) : result (Entry * Store) IoError :=
  match st !! name with Some e => Ok (e, st) | None => Err NotFound end.

(** A temporary file is persisted as the marker of a directory. *)
Definition put_marker (name version : rstr) (st : Store) : result (unit * Store) IoError :=
  match st !! name with
  | Some (EntryDir tree) => Ok (tt, <[name := EntryDir (<[INSTALL_MARKER := MarkerFile version]> tree)]> st)
  | _ => Err NotFound
  end.

(** [renameat2] with [RENAME_NOREPLACE] and with [RENAME_EXCHANGE]. *)
Definition rename_noreplace (old new : rstr) (st : Store) : result (unit * Store) IoError :=
  match st !! old, st !! new with
  | None, _ => Err NotFound
  | Some _, Some _ => Err AlreadyExists
  | Some e, None => Ok (tt, <[new := e]> (delete old st))
  end.

Definition rename_exchange (old new : rstr) (st : Store) : result (unit * Store) IoError :=
  match st !! old, st !! new with
  | Some e, Some e' => Ok (tt, <[new := e]> (<[old := e']> st))
  | _, _ => Err NotFound
  end.

(** [rename] of a link or a file. *)
Definition rename_link (old new : rstr) (st : Store) : result (unit * Store) IoError :=
  match st !! old, st !! new with
  | None, _ | Some (EntryDir _), _ => Err NotFound
  | Some _, Some (EntryDir _) => Err IsADirectory
  | Some e, _ => Ok (tt, <[new := e]> (delete old st))
  end.

Definition create_new (name : rstr) (e : Entry) (st : Store) : result (unit * Store) IoError :=
  match st !! name with Some _ => Err AlreadyExists | None => Ok (tt, <[name := e]> st) end.

Definition unlink (name : rstr) (st : Store) : result (unit * Store) IoError :=
  match st !! name with
  | None => Err NotFound
  | Some (EntryDir _) => Err IsADirectory
  | Some _ => Ok (tt, delete name st)
  end.

(** Removing one file of a tree, and an empty tree. *)
Definition unlink_in (name path : rstr) (st : Store) : result (unit * Store) IoError :=
  match st !! name with
  | Some (EntryDir tree) => Ok (tt, <[name := EntryDir (delete path tree)]> st)
  | _ => Err NotFound
  end.

Definition rmdir (name : rstr) (st : Store) : result (unit * Store) IoError :=
  match st !! name with
  | Some (EntryDir tree) => if bool_decide (tree = ∅) then Ok (tt, delete name st) else Err NotPermitted
  | _ => Err NotFound
  end.

Section store.
(** [root] is the absolute path of the versions directory. [foreign] resolves
    paths that are not the path of one of its entries. *)
Context (root : rstr) (foreign : rstr -> option rstr).
Context (oracle : nat -> Fault).

Definition call {A} (act : Store -> result (A * Store) IoError) : Prog (result A StoreError) :=
  r ← syscall oracle act; mret (map_err StoreIo r).

(** Reading the directory without faults, as the queries do. *)
Definition reads {A} (f : Store -> A) : Prog A := fun m => (m, Some (f (fs m))).

Definition entry_path (name : rstr) : rstr := root ++ ch "/" :: name.

(** * Installing *)

Definition complete_staged_install (staging version_dir version : rstr) : Prog (result unit StoreError) :=
  try_prog (call (put_marker staging version)) (fun _ => call (rename_noreplace staging version_dir)).

Definition replace_staged_install (staging version_dir version : rstr) : Prog (result unit StoreError) :=
  try_prog (call (put_marker staging version)) (fun _ =>
    valid ← reads (fun st => is_valid_version_dir st version_dir);
    if negb valid then mret (Err CannotReplace) else call (rename_exchange staging version_dir)).

(** * Switching *)

(** The temporary link is dropped at the end, whatever happened. *)
Definition set_current_version (temp_link version : rstr) : Prog (result unit StoreError) :=
  match validate_runtime_version version with
  | Err e => mret (Err (InvalidVersion e))
  | Ok _ =>
      valid ← reads (fun st => is_valid_version_dir st version);
      if negb valid then mret (Err (NotInstalled version))
      else
        metadata ← syscall oracle (lstat current);
        match metadata with
        | Ok (EntryDir _) | Ok EntryOther => mret (Err CurrentNotALink)
        | Err NotFound | Ok (EntryLink _) =>
            try_prog (call (create_new temp_link EntryOther)) (fun _ =>
              r ← try_prog (call (unlink temp_link)) (fun _ =>
                  try_prog (call (create_new temp_link (EntryLink (entry_path version)))) (fun _ =>
                    call (rename_link temp_link current)));
              _ ← syscall oracle (unlink temp_link);
              mret r)
        | Err e => mret (Err (StoreIo e))
        end
  end.

Definition require_regular_file (version expected_binary : rstr) : Prog (result unit StoreError) :=
  reads (fun st =>
    match st !! version with
    | Some (EntryDir tree) =>
        match tree !! expected_binary with
        | Some (TreeEntry RegularFile) | Some (MarkerFile _) => Ok tt
        | _ => Err BinaryMissing
        end
    | _ => Err BinaryMissing
    end).

Definition activate_version (temp_link version expected_binary : rstr) : Prog (result unit StoreError) :=
  try_prog (require_regular_file version expected_binary) (fun _ => set_current_version temp_link version).

(** * Uninstalling *)

(** [Path::ends_with]. *)
Definition path_ends_with (path child : rstr) : bool :=
  let components := path_components path in
  let suffix := path_components child in
  bool_decide (drop (length components - length suffix) components = suffix).

Definition is_active (st : Store) (version : rstr) : bool :=
  match st !! current with
  | Some (EntryLink target) => path_ends_with target version
  | _ => false
  end.

Fixpoint remove_files (name : rstr) (files : list rstr) : Prog (result unit StoreError) :=
  match files with
  | [] => call (rmdir name)
  | file :: files => try_prog (call (unlink_in name file)) (fun _ => remove_files name files)
  end.

Definition remove_dir_all (name : rstr) : Prog (result unit StoreError) :=
  files ← reads (fun st => match st !! name with Some (EntryDir tree) => (map_to_list tree).*1 | _ => [] end);
  remove_files name files.

Definition uninstall_version (version : rstr) : Prog (result unit StoreError) :=
  match validate_runtime_version version with
  | Err e => mret (Err (InvalidVersion e))
  | Ok _ =>
      valid ← reads (fun st => is_valid_version_dir st version);
      active ← reads (fun st => is_active st version);
      if negb valid then mret (Err (NotInstalled version))
      else if negb active then remove_dir_all version
      else mret (Err (VersionActive version))
  end.

(** * Queries *)

(** [fs::canonicalize] of a path: an entry that is a directory or a file is
    its own canonical path. *)
Definition canonicalize (st : Store) (path : rstr) : option rstr :=
  match strip_prefix (root ++ [ch "/"]) path with
  | Some name =>
      if contains_char (ch "/") name then foreign path
      else match st !! name with
           | Some (EntryLink target) => foreign target
           | Some _ => Some path
           | None => None
           end
  | None => foreign path
  end.

Definition get_current_version (st : Store) : option rstr :=
  match st !! current with
  | Some (EntryLink target) =>
      version ← path_file_name target;
      if is_valid_version_dir st version then
        let target := if starts_with (str "/") target then target else entry_path target in
        target ← canonicalize st target;
        expected ← canonicalize st (entry_path version);
        if str_eqb target expected then Some version else None
      else None
  | _ => None
  end.

Definition list_installed_versions (is_semver : rstr -> bool) (st : Store) : list rstr :=
  newest_first is_semver
    (List.filter (fun name => negb (starts_with (str ".") name) && negb (str_eqb name current)
                              && is_valid_version_dir st name) (map_to_list st).*1).
End store.
