(* ===== verification/RuntimeStoreProofs.v ===== *)
(** The directory of installed runtimes: proofs on [RuntimeStore]. *)

From S2P Require Import Prelude FaultProg RustPath Spdx Validation RuntimeVersions RuntimeStore.
Open Scope Z_scope.
Open Scope omg_scope.

(** * Paths of versions *)

Section paths.
Context (root : rstr).

Lemma entry_path_components v :
  path_components v = [v] -> path_components (entry_path root v) = path_components root ++ [v].
Proof.
  intros Hv. unfold entry_path. unfold path_components in *. by rewrite split_char_app, List.filter_app, Hv.
Qed.

Lemma entry_path_file_name v :
  path_components v = [v] -> v ≠ str ".." -> path_file_name (entry_path root v) = Some v.
Proof.
  intros Hc Hd. unfold path_file_name. rewrite entry_path_components, last_snoc by done.
  by rewrite (proj2 (str_eqb_false v (str "..")) Hd).
Qed.

Lemma path_ends_with_self v : path_components v = [v] -> path_ends_with (entry_path root v) v = true.
Proof.
  intros Hv. unfold path_ends_with. rewrite entry_path_components, Hv, length_app by done. simpl.
  apply bool_decide_eq_true. replace (length (path_components root) + 1 - 1)%nat with (length (path_components root)) by lia.
  by rewrite drop_app_length.
Qed.
End paths.

(** * What an operation changes *)

(** Every entry outside [names] is as before. *)
Definition frame (names : list rstr) (st st' : Store) : Prop :=
  forall name, (name ∉ names) -> st' !! name = st !! name.

Lemma frame_refl names st : frame names st st.
Proof. done. Qed.

Lemma frame_trans names st1 st2 st3 : frame names st1 st2 -> frame names st2 st3 -> frame names st1 st3.
Proof. intros H1 H2 name Hn. by rewrite H2, H1. Qed.

Lemma frame_insert names name e st : name ∈ names -> frame names st (<[name := e]> st).
Proof. intros Hin n Hn. apply lookup_insert_ne. set_solver. Qed.

Lemma frame_delete names name st : name ∈ names -> frame names st (delete name st).
Proof. intros Hin n Hn. apply lookup_delete_ne. set_solver. Qed.

Lemma wp_call {A : Type} (C : FMachine Store -> Prop) (oracle : nat -> Fault) (act : Store -> result (A * Store) IoError) Q m :
  C m ->
  (forall e, Q (Err (StoreIo e)) (tick m (fs m))) ->
  (forall a st, act (fs m) = Ok (a, st) -> Q (Ok a) (tick m st)) ->
  wp C (call oracle act) Q m.
Proof.
  intros Hc He Ho. apply wp_bind, wp_syscall; [done|intros e _; by apply wp_ret, He|].
  intros a st Ha. by apply wp_ret, Ho.
Qed.

Lemma wp_reads {A : Type} (C : FMachine Store -> Prop) (f : Store -> A) Q m : Q (f (fs m)) m -> wp C (reads f) Q m.
Proof. done. Qed.

(** A tree with its install marker. *)
Definition marked (version : rstr) (tree : Tree) : Tree := <[INSTALL_MARKER := MarkerFile version]> tree.

Lemma put_marker_Ok name version st u st' :
  put_marker name version st = Ok (u, st') ->
  exists tree, st !! name = Some (EntryDir tree) /\
    st' = <[name := EntryDir (marked version tree)]> st.
Proof. unfold put_marker. destruct (st !! name) as [[tree| |]|]; [|done..]. intros [= _ <-]. by exists tree. Qed.

Lemma rename_noreplace_Ok old new st u st' :
  rename_noreplace old new st = Ok (u, st') ->
  exists e, st !! old = Some e /\ st !! new = None /\ st' = <[new := e]> (delete old st).
Proof.
  unfold rename_noreplace. destruct (st !! old) as [e|]; [|done]. destruct (st !! new); [done|]. intros [= _ <-].
  by exists e.
Qed.

Lemma rename_exchange_Ok old new st u st' :
  rename_exchange old new st = Ok (u, st') ->
  exists e e', st !! old = Some e /\ st !! new = Some e' /\ st' = <[new := e]> (<[old := e']> st).
Proof.
  unfold rename_exchange. destruct (st !! old) as [e|]; [|done]. destruct (st !! new) as [e'|]; [|done]. intros [= _ <-].
  by exists e, e'.
Qed.

Lemma rename_link_Ok old new st u st' :
  rename_link old new st = Ok (u, st') -> exists e, st !! old = Some e /\ st' = <[new := e]> (delete old st).
Proof.
  unfold rename_link. destruct (st !! old) as [e|]; [|done]. intros H. exists e. split; [done|].
  destruct e; [done| |]; destruct (st !! new) as [[]|]; congruence.
Qed.

Lemma create_new_Ok name e st u st' :
  create_new name e st = Ok (u, st') -> st !! name = None /\ st' = <[name := e]> st.
Proof. unfold create_new. destruct (st !! name); [done|]. by intros [= _ <-]. Qed.

Lemma unlink_Ok name st u st' : unlink name st = Ok (u, st') -> st' = delete name st.
Proof. unfold unlink. destruct (st !! name) as [[]|]; congruence. Qed.

Lemma unlink_in_Ok name path st u st' :
  unlink_in name path st = Ok (u, st') ->
  exists tree, st !! name = Some (EntryDir tree) /\ st' = <[name := EntryDir (delete path tree)]> st.
Proof. unfold unlink_in. destruct (st !! name) as [[tree| |]|]; [|done..]. intros [= _ <-]. by exists tree. Qed.

Lemma rmdir_Ok name st u st' : rmdir name st = Ok (u, st') -> st' = delete name st.
Proof. unfold rmdir. destruct (st !! name) as [[tree| |]|]; [|done..]. destruct (bool_decide _); congruence. Qed.

(** Removing a version touches nothing else, however far it gets. *)
Lemma remove_files_frame oracle name files st m :
  frame [name] st (fs m) ->
  wp (fun m' => frame [name] st (fs m')) (remove_files oracle name files) (fun _ m' => frame [name] st (fs m')) m.
Proof.
  revert m. induction files as [|file files IH]; intros m Hm; cbn [remove_files].
  - apply wp_call; [done|done|]. intros [] st' ->%rmdir_Ok. eapply frame_trans; [done|]. apply frame_delete. set_solver.
  - apply wp_try, wp_call; [done|done|]. intros [] st' (tree & _ & ->)%unlink_in_Ok. apply IH.
    eapply frame_trans; [done|]. apply frame_insert. set_solver.
Qed.

(** * Installing *)

Lemma marked_valid version tree : is_valid_tree (marked version tree) = is_valid_tree tree.
Proof. unfold is_valid_tree, marked. by rewrite !lookup_insert_ne. Qed.

(** C18: an installation is complete or invisible. Whatever calls fail and
    wherever the process is killed, [complete_staged_install] publishes the
    whole marked tree under a free name, or leaves every entry but the staging
    directory as it was; and [replace_staged_install] exchanges the whole tree
    of a valid version, or leaves that version as it was. *)
Theorem install_is_complete_or_invisible (oracle : nat -> Fault) (staging version_dir version : rstr) (tree : Tree) (m : FMachine Store) :
  staging ≠ version_dir -> fs m !! staging = Some (EntryDir tree) ->
  (let '(m', r) := complete_staged_install oracle staging version_dir version m in
   match r with
   | Some (Ok _) => fs m !! version_dir = None /\ fs m' !! version_dir = Some (EntryDir (marked version tree)) /\
       fs m' !! staging = None /\ frame [staging; version_dir] (fs m) (fs m')
   | _ => frame [staging] (fs m) (fs m')
   end) /\
  (let '(m', r) := replace_staged_install oracle staging version_dir version m in
   match r with
   | Some (Ok _) => is_valid_version_dir (fs m) version_dir = true /\
       fs m' !! version_dir = Some (EntryDir (marked version tree)) /\
       fs m' !! staging = fs m !! version_dir /\ frame [staging; version_dir] (fs m) (fs m')
   | _ => frame [staging] (fs m) (fs m')
   end).
Proof.
  intros Hne Hst.
  assert (Hput : forall st', put_marker staging version (fs m) = Ok (tt, st') ->
    st' = <[staging := EntryDir (marked version tree)]> (fs m)).
  { intros st' (tree' & Ht & ->)%put_marker_Ok. rewrite Hst in Ht. by injection Ht as <-. }
  assert (Hf : frame [staging] (fs m) (<[staging := EntryDir (marked version tree)]> (fs m))).
  { apply frame_insert. set_solver. }
  assert (Hf2 : forall st', frame [staging] (fs m) st' -> frame [staging; version_dir] (fs m) st').
  { intros st' H name Hn. apply H. set_solver. }
  set (crash := fun m' : FMachine (gmap rstr Entry) => frame [staging] (fs m) (fs m')). split.
  - assert (H : wp crash (complete_staged_install oracle staging version_dir version)
      (fun r m' => match r with
        | Ok _ => fs m !! version_dir = None /\ fs m' !! version_dir = Some (EntryDir (marked version tree)) /\
            fs m' !! staging = None /\ frame [staging; version_dir] (fs m) (fs m')
        | Err _ => crash m' end) m).
    { apply wp_try, wp_call; [done|done|]. intros [] st' ->%Hput. apply wp_call; [done|done|]. cbn [tick fs].
      intros [] st'' (e & He & Hv & ->)%rename_noreplace_Ok. rewrite lookup_insert_eq in He. injection He as <-.
      rewrite lookup_insert_ne in Hv by done. cbn [tick fs]. split_and!; [done|by rewrite lookup_insert_eq| |].
      - by rewrite lookup_insert_ne, lookup_delete_eq.
      - eapply frame_trans; [by apply Hf2|]. eapply frame_trans; [apply frame_delete|apply frame_insert]; set_solver. }
    unfold wp in H. by destruct (complete_staged_install _ _ _ _ m) as [m' [[]|]].
  - assert (H : wp crash (replace_staged_install oracle staging version_dir version)
      (fun r m' => match r with
        | Ok _ => is_valid_version_dir (fs m) version_dir = true /\
            fs m' !! version_dir = Some (EntryDir (marked version tree)) /\
            fs m' !! staging = fs m !! version_dir /\ frame [staging; version_dir] (fs m) (fs m')
        | Err _ => crash m' end) m).
    { apply wp_try, wp_call; [done|done|]. intros [] st' ->%Hput. apply wp_bind, wp_reads. cbn [tick fs].
      destruct (is_valid_version_dir _ version_dir) eqn:Hval; simpl; [|by apply wp_ret]. apply wp_call; [done|done|].
      cbn [tick fs]. intros [] st'' (e & e' & He & Hv & ->)%rename_exchange_Ok. rewrite lookup_insert_eq in He.
      injection He as <-. rewrite lookup_insert_ne in Hv by done. cbn [tick fs].
      unfold is_valid_version_dir in Hval. rewrite lookup_insert_ne in Hval by done.
      split_and!; [done|by rewrite lookup_insert_eq| |].
      - by rewrite lookup_insert_ne, lookup_insert_eq.
      - eapply frame_trans; [by apply Hf2|]. eapply frame_trans; apply frame_insert; set_solver. }
    unfold wp in H. by destruct (replace_staged_install _ _ _ _ m) as [m' [[]|]].
Qed.

(** * The active version *)

Definition hidden (name : rstr) : Prop := starts_with (str ".") name = true.
Definition visible (name : rstr) : Prop := starts_with (str ".") name = false.

Section active.
Context (root : rstr) (foreign : rstr -> option rstr).
Implicit Types st : Store.

(** The versions that switches are asked for. *)
Context (targets : list rstr).

(** The [current] link, if there is one, leads to a version that was asked
    for, and to a valid one unless its name is hidden. *)
Definition leads_to st (v : rstr) : Prop :=
  validate_runtime_version v = Ok tt /\ v ∈ targets /\ (visible v -> is_valid_version_dir st v = true).

Definition current_ok st : Prop :=
  match st !! current with
  | None => True
  | Some (EntryLink target) => exists v, target = entry_path root v /\ leads_to st v
  | Some _ => False
  end.

Lemma current_ok_frame (names : list rstr) st st' :
  frame names st st' -> (current ∉ names) ->
  (forall v, v ∈ names -> st !! current = Some (EntryLink (entry_path root v)) -> leads_to st v -> visible v ->
     is_valid_version_dir st' v = true) ->
  current_ok st -> current_ok st'.
Proof.
  intros Hf Hc Hv Hok. unfold current_ok in *. rewrite (Hf current Hc).
  destruct (st !! current) as [[tree|target|]|] eqn:Hcur; [done| |done..]. destruct Hok as (v & -> & Hl).
  exists v. split; [done|]. pose proof Hl as (H1 & H2 & H3). split_and!; [done|done|]. intros Hvis. specialize (H3 Hvis).
  destruct (decide (v ∈ names)) as [Hin|Hin]; [by apply Hv|]. unfold is_valid_version_dir. by rewrite Hf.
Qed.

Lemma hidden_not_current name : hidden name -> name ≠ current.
Proof. intros Hh ->. by vm_compute in Hh. Qed.

Lemma version_not_current v : validate_runtime_version v = Ok tt -> v ≠ current.
Proof. intros (_ & _ & _ & Hc)%runtime_version_plain ->. by vm_compute in Hc. Qed.

(** Entries with hidden names do not matter. *)
Lemma current_ok_hidden (names : list rstr) st st' :
  Forall hidden names -> frame names st st' -> current_ok st -> current_ok st'.
Proof.
  intros Hh Hf. rewrite Forall_forall in Hh. apply (current_ok_frame names); [done| |].
  - intros Hin. by apply (hidden_not_current current); [apply Hh|].
  - intros v Hin _ _ Hv. specialize (Hh v Hin). unfold hidden, visible in *. congruence.
Qed.

(** ** Operations *)

Inductive StoreOp :=
| OpComplete (staging version : rstr)
| OpReplace (staging version : rstr)
| OpSwitch (temp_link version : rstr)
| OpActivate (temp_link version binary : rstr)
| OpUninstall (version : rstr).

Definition run_op (oracle : nat -> Fault) (op : StoreOp) : FProg Store (result unit StoreError) :=
  match op with
  | OpComplete staging version => complete_staged_install oracle staging version version
  | OpReplace staging version => replace_staged_install oracle staging version version
  | OpSwitch temp_link version => set_current_version root oracle temp_link version
  | OpActivate temp_link version binary => activate_version root oracle temp_link version binary
  | OpUninstall version => uninstall_version oracle version
  end.

(** Staging directories and temporary links have hidden names; a replacement
    is staged as a valid tree; [targets] are the versions of the switches. *)
Definition op_guard st (op : StoreOp) : Prop :=
  match op with
  | OpComplete staging version =>
      hidden staging /\ validate_runtime_version version = Ok tt
  | OpReplace staging version =>
      hidden staging /\ validate_runtime_version version = Ok tt /\ is_valid_version_dir st staging = true
  | OpSwitch temp_link version | OpActivate temp_link version _ => hidden temp_link /\ version ∈ targets
  | OpUninstall version => True
  end.

(** What happens to the directory: staging and downloads under hidden names,
    and operations, under any oracle, in any order. *)
Inductive store_step : Store -> Store -> Prop :=
| step_hidden name e st : hidden name -> store_step st (<[name := e]> st)
| step_drop name st : hidden name -> store_step st (delete name st)
| step_op op oracle k keep st :
    op_guard st op -> store_step st (fs (fst (run_op oracle op {| fs := st; clock := k; keep_staging := keep |}))).

Definition ok_state (m : FMachine Store) : Prop := current_ok (fs m).

Lemma complete_ok (oracle : nat -> Fault) (staging version : rstr) (m : FMachine Store) :
  op_guard (fs m) (OpComplete staging version) -> ok_state m ->
  wp ok_state (complete_staged_install oracle staging version version) (fun _ => ok_state) m.
Proof.
  intros (Hh & Hr) Hok. apply wp_try, wp_call; [done|done|]. intros [] st' (tree & Ht & ->)%put_marker_Ok.
  assert (Hok1 : current_ok (<[staging := EntryDir (marked version tree)]> (fs m))).
  { apply (current_ok_hidden [staging] (fs m)); [by repeat constructor| |done]. apply frame_insert. set_solver. }
  apply wp_call; [done|done|]. intros [] st' (e & He & Hn & ->)%rename_noreplace_Ok. cbn [tick fs] in *.
  eapply (current_ok_frame [staging; version]); [| | |exact Hok1].
  - eapply frame_trans; [apply frame_delete|apply frame_insert]; set_solver.
  - pose proof (hidden_not_current _ Hh). pose proof (version_not_current _ Hr). set_solver.
  - intros v Hin _ (_ & _ & Hval) Hvis. specialize (Hval Hvis). exfalso. apply elem_of_cons in Hin as [->|Hin].
    + unfold hidden, visible in *. congruence.
    + assert (v = version) as -> by set_solver. unfold is_valid_version_dir in Hval. by rewrite Hn in Hval.
Qed.

Lemma replace_ok (oracle : nat -> Fault) (staging version : rstr) (m : FMachine Store) :
  op_guard (fs m) (OpReplace staging version) -> ok_state m ->
  wp ok_state (replace_staged_install oracle staging version version) (fun _ => ok_state) m.
Proof.
  intros (Hh & Hr & Hs) Hok. apply wp_try, wp_call; [done|done|]. intros [] st' (tree & Ht & ->)%put_marker_Ok.
  assert (Hok1 : current_ok (<[staging := EntryDir (marked version tree)]> (fs m))).
  { apply (current_ok_hidden [staging] (fs m)); [by repeat constructor| |done]. apply frame_insert. set_solver. }
  apply wp_bind, wp_reads. destruct (negb _); [by apply wp_ret|]. apply wp_call; [done|done|].
  intros [] st' (e & e' & He & Hn & ->)%rename_exchange_Ok. cbn [tick fs] in *. rewrite lookup_insert_eq in He.
  injection He as <-. eapply (current_ok_frame [staging; version]); [| | |exact Hok1].
  - eapply frame_trans; apply frame_insert; set_solver.
  - pose proof (hidden_not_current _ Hh). pose proof (version_not_current _ Hr). set_solver.
  - intros v Hin _ _ Hvis. apply elem_of_cons in Hin as [->|Hin].
    + exfalso. unfold hidden, visible in *. congruence.
    + assert (v = version) as -> by set_solver. unfold is_valid_version_dir in *. cbn [tick fs].
      rewrite lookup_insert_eq, marked_valid.
      by rewrite Ht in Hs.
Qed.

Lemma switch_ok (oracle : nat -> Fault) (temp_link version : rstr) (m : FMachine Store) :
  hidden temp_link -> version ∈ targets -> ok_state m ->
  wp ok_state (set_current_version root oracle temp_link version) (fun _ => ok_state) m.
Proof.
  intros Hh Hv Hok. unfold set_current_version. destruct (validate_runtime_version version) as [[]|e] eqn:Hr; [|by apply wp_ret].
  apply wp_bind, wp_reads. destruct (is_valid_version_dir (fs m) version) eqn:Hval; [|by apply wp_ret]. simpl.
  set (Q := fun (_ : result unit StoreError) => ok_state).
  assert (Htemp : forall st, (forall name, name ≠ temp_link -> st !! name = fs m !! name) -> current_ok st).
  { intros st Hst. apply (current_ok_hidden [temp_link] (fs m)); [by repeat constructor| |done].
    intros name Hn. apply Hst. set_solver. }
  assert (Hgo : wp ok_state
    (try_prog (call oracle (create_new temp_link EntryOther)) (fun _ =>
       r ← try_prog (call oracle (unlink temp_link)) (fun _ =>
           try_prog (call oracle (create_new temp_link (EntryLink (entry_path root version)))) (fun _ =>
             call oracle (rename_link temp_link current)));
       _ ← syscall oracle (unlink temp_link);
       mret r)) Q (tick m (fs m))).
  { apply wp_try, wp_call; [done|done|]. intros [] st1 (Hn1 & ->)%create_new_Ok. cbn [tick fs] in *.
    assert (Hdrop : forall (r : result unit StoreError) m', ok_state m' ->
      wp ok_state (_ ← syscall oracle (unlink temp_link); mret r) Q m').
    { intros r m' Hm. apply wp_bind, wp_syscall; [done|done|]. intros [] st' ->%unlink_Ok. apply wp_ret.
      apply (current_ok_hidden [temp_link] (fs m')); [by repeat constructor| |done]. apply frame_delete. set_solver. }
    apply wp_bind.
    assert (H1 : current_ok (<[temp_link := EntryOther]> (fs m))) by (apply Htemp; intros; by rewrite lookup_insert_ne).
    apply wp_try, wp_call; [done|intros e; by apply Hdrop|]. intros [] st2 ->%unlink_Ok. cbn [tick fs].
    assert (H2 : current_ok (delete temp_link (<[temp_link := EntryOther]> (fs m)))).
    { apply Htemp. intros. by rewrite lookup_delete_ne, lookup_insert_ne. }
    apply wp_try, wp_call; [done|intros e; by apply Hdrop|]. intros [] st3 (Hn3 & ->)%create_new_Ok. cbn [tick fs] in *.
    set (st3 := <[temp_link := EntryLink (entry_path root version)]> _) in *.
    assert (H3 : current_ok st3).
    { apply Htemp. intros. unfold st3. by rewrite lookup_insert_ne, lookup_delete_ne, lookup_insert_ne. }
    apply wp_call; [done|intros e; by apply Hdrop|]. intros [] st4 (e & He & ->)%rename_link_Ok. cbn [tick fs] in *.
    apply Hdrop. unfold ok_state, current_ok. cbn [tick fs]. unfold st3 in He. rewrite lookup_insert_eq in He. injection He as <-.
    rewrite lookup_insert_eq. exists version. split; [done|]. split_and!; [done|done|]. intros Hvis. pose proof (version_not_current _ Hr).
    assert (Hne : version ≠ temp_link) by (intros ->; unfold hidden, visible in *; congruence).
    unfold is_valid_version_dir, st3. rewrite lookup_insert_ne by done.
    by rewrite lookup_delete_ne, lookup_insert_ne, lookup_delete_ne, lookup_insert_ne by done. }
  apply wp_bind, wp_syscall; [done| |].
  - intros e He. destruct e; try by apply wp_ret. exact Hgo.
  - intros e st' Hl. unfold lstat in Hl. destruct (fs m !! current) as [e0|]; [|done]. injection Hl as <- <-.
    destruct e0; [by apply wp_ret|exact Hgo|by apply wp_ret].
Qed.

Lemma is_active_current st v :
  st !! current = Some (EntryLink (entry_path root v)) -> validate_runtime_version v = Ok tt -> is_active st v = true.
Proof. intros Hc (Hv & _)%runtime_version_plain. unfold is_active. rewrite Hc. by apply path_ends_with_self. Qed.

Lemma uninstall_ok (oracle : nat -> Fault) (version : rstr) (m : FMachine Store) :
  ok_state m -> wp ok_state (uninstall_version oracle version) (fun _ => ok_state) m.
Proof.
  intros Hok. unfold uninstall_version. destruct (validate_runtime_version version) as [[]|e] eqn:Hr; [|by apply wp_ret].
  apply wp_bind, wp_reads, wp_bind, wp_reads. destruct (negb (is_valid_version_dir _ _)); [by apply wp_ret|].
  destruct (is_active (fs m) version) eqn:Ha; [by apply wp_ret|]. cbn [negb].
  assert (Hframe : forall st, frame [version] (fs m) st -> current_ok st).
  { intros st Hf. apply (current_ok_frame [version] (fs m)); [done| | |done].
    - pose proof (version_not_current _ Hr). set_solver.
    - intros v Hin Hc _ _. assert (v = version) as -> by set_solver. by rewrite (is_active_current _ _ Hc Hr) in Ha. }
  unfold remove_dir_all. apply wp_bind, wp_reads.
  pose proof (remove_files_frame oracle version
    (match fs m !! version with Some (EntryDir tree) => (map_to_list tree).*1 | _ => [] end) (fs m) m ltac:(done)) as H.
  unfold wp in *. destruct (remove_files _ _ _ m) as [m' [r|]]; by apply Hframe.
Qed.

Lemma store_step_ok st st' : store_step st st' -> current_ok st -> current_ok st'.
Proof.
  intros Hs Hok. destruct Hs as [name e st Hh|name st Hh|op oracle k keep st Hg].
  - apply (current_ok_hidden [name] st); [by repeat constructor| |done]. apply frame_insert. set_solver.
  - apply (current_ok_hidden [name] st); [by repeat constructor| |done]. apply frame_delete. set_solver.
  - set (m := {| fs := st; clock := k; keep_staging := keep |}).
    assert (H : wp ok_state (run_op oracle op) (fun _ => ok_state) m).
    { destruct op as [s v|s v|t v|t v b|v]; cbn [run_op].
      - by apply complete_ok.
      - by apply replace_ok.
      - destruct Hg. by apply switch_ok.
      - destruct Hg. apply wp_try, wp_reads. destruct (match _ with Some _ => _ | None => _ end); [by apply switch_ok|done].
      - by apply uninstall_ok. }
    unfold wp in H. by destruct (run_op oracle op m) as [m' [r|]].
Qed.

Lemma leads_to_current st v :
  starts_with (str "/") root = true -> st !! current = Some (EntryLink (entry_path root v)) -> validate_runtime_version v = Ok tt ->
  is_valid_version_dir st v = true -> get_current_version root foreign st = Some v.
Proof.
  intros Hroot Hc Hr Hv. destruct (runtime_version_plain v Hr) as (Hcomp & Hns & Hdd & _).
  unfold get_current_version. rewrite Hc, entry_path_file_name by done. simpl. rewrite Hv.
  assert (Habs : starts_with (str "/") (entry_path root v) = true).
  { apply starts_with_true in Hroot as [r ->]. by apply starts_with_true; exists (r ++ ch "/" :: v). }
  rewrite Habs.
  assert (Hcan : canonicalize root foreign st (entry_path root v) = Some (entry_path root v)).
  { unfold canonicalize. destruct (strip_prefix (root ++ [ch "/"]) (entry_path root v)) as [name|] eqn:Hs.
    - apply strip_prefix_Some in Hs. unfold entry_path in Hs. rewrite <- app_assoc in Hs. apply app_inv_head in Hs.
      injection Hs as <-. rewrite (proj2 (contains_char_false (ch "/") v) Hns). unfold is_valid_version_dir in Hv.
      by destruct (st !! v) as [[]|].
    - exfalso. assert (Hx : strip_prefix (root ++ [ch "/"]) (entry_path root v) = Some v); [|congruence].
      apply strip_prefix_Some. unfold entry_path. by rewrite <- app_assoc. }
  rewrite Hcan. simpl. unfold str_eqb. by rewrite bool_decide_eq_true_2.
Qed.

End active.

Lemma install_is_complete_or_invisible_witness :
  let m := {| fs := {[str ".install-a" := EntryDir {[str "bin/node" := TreeEntry RegularFile]}]} : gmap rstr Entry;
              clock := 0%nat; keep_staging := false |} in
  let '(m', r) := complete_staged_install (fun n => if decide (n = 1%nat) then Crash else NoFault)
    (str ".install-a") (str "20.1.0") (str "20.1.0") m in
  r = None /\ frame [str ".install-a"] (fs m) (fs m').
Proof.
  intros m.
  pose proof (install_is_complete_or_invisible (fun n => if decide (n = 1%nat) then Crash else NoFault)
    (str ".install-a") (str "20.1.0") (str "20.1.0") {[str "bin/node" := TreeEntry RegularFile]} m ltac:(done) ltac:(done)) as [H _].
  assert (Hr : snd (complete_staged_install (fun n => if decide (n = 1%nat) then Crash else NoFault)
    (str ".install-a") (str "20.1.0") (str "20.1.0") m) = None) by (vm_compute; reflexivity).
  destruct (complete_staged_install _ _ _ _ m) as [m' r]. simpl in Hr. subst r. split; [done|exact H].
Defined.

Definition no_faults : nat -> Fault := fun _ => NoFault.

Definition staged_store : gmap rstr Entry :=
  {[str ".install-a" := EntryDir {[str "bin/node" := TreeEntry RegularFile]}]}.

Definition installed_store : gmap rstr Entry :=
  fs (fst (run_op (str "/v") no_faults (OpComplete (str ".install-a") (str "20.1.0"))
    {| fs := staged_store; clock := 0; keep_staging := false |})).

Definition active_store : gmap rstr Entry :=
  fs (fst (run_op (str "/v") no_faults (OpActivate (str ".current-b") (str "20.1.0") (str "bin/node"))
    {| fs := installed_store; clock := 0; keep_staging := false |})).

Lemma active_store_reached : rtc (store_step (str "/v") [str "20.1.0"]) ∅ active_store.
Proof.
  eapply rtc_l; [by apply (step_hidden _ _ (str ".install-a") (EntryDir {[str "bin/node" := TreeEntry RegularFile]}))|].
  eapply rtc_l; [by apply (step_op _ _ (OpComplete (str ".install-a") (str "20.1.0")) no_faults 0 false)|].
  eapply rtc_l; [|apply rtc_refl].
  apply (step_op _ _ (OpActivate (str ".current-b") (str "20.1.0") (str "bin/node")) no_faults 0 false). split; [done|by left].
Qed.


Definition tree_size (st : gmap rstr Entry) (name : rstr) : nat :=
  match st !! name with Some (EntryDir tree) => size tree | _ => 0 end.

Definition two_files : FMachine (gmap rstr Entry) :=
  {| fs := {[str "20.1.0" := EntryDir {[str "bin/node" := TreeEntry RegularFile; str "lib" := TreeEntry Directory]}]};
     clock := 0; keep_staging := false |}.

Definition killed_uninstall : FMachine (gmap rstr Entry) * option (result unit StoreError) :=
  uninstall_version (fun n => if decide (n = 1%nat) then Crash else NoFault) (str "20.1.0") two_files.

(** An uninstallation that is interrupted leaves a version that is still
    listed as installed, without some of its files. *)
Lemma interrupted_uninstall_looks_installed :
  snd killed_uninstall = None /\ tree_size (fs two_files) (str "20.1.0") = 2%nat /\
  tree_size (fs (fst killed_uninstall)) (str "20.1.0") = 1%nat /\
  list_installed_versions (fun _ => false) (fs (fst killed_uninstall)) = [str "20.1.0"].
Proof. split_and!; vm_compute; reflexivity. Qed.

Definition activated_staging : FMachine (gmap rstr Entry) * option (result unit StoreError) :=
  set_current_version (str "/v") no_faults (str ".current-b") (str ".install-a")
    {| fs := staged_store; clock := 0; keep_staging := false |}.

(** A staging directory is no installed version for the listing, but it can be
    activated by its name. *)
Lemma staging_directory_can_be_activated :
  snd activated_staging = Some (Ok tt) /\ list_installed_versions (fun _ => false) (fs (fst activated_staging)) = [] /\
  get_current_version (str "/v") (fun _ => None) (fs (fst activated_staging)) = Some (str ".install-a").
Proof. split_and!; vm_compute; reflexivity. Qed.
