(* ===== verification/PacmanConf.v ===== *)
(** The configuration of pacman: src/src/core/pacman_conf.rs, with the
    database addresses of src/src/package_managers/parallel_sync.rs.

    Expanding includes, parsing sections and options, and resolving servers.
    Files are a table from canonical paths to contents; [canonicalize] is the
    answer of the system for a path. The table is finite, which bounds the
    depth of includes. *)

From S2P Require Import Prelude RustPath Spdx Validation.
Open Scope Z_scope.
Open Scope omg_scope.

Record RepoConfig := {
  repo_name : rstr;
  repo_servers : list rstr;
  repo_sig_level : option rstr;
  repo_include : option rstr
}.

Record PacmanConfig := {
  root_dir : option rstr;
  db_path : option rstr;
  cache_dirs : list rstr;
  log_file : option rstr;
  gpg_dir : option rstr;
  hook_dirs : list rstr;
  hold_pkg : list rstr;
  ignore_pkg : list rstr;
  ignore_group : list rstr;
  no_upgrade : list rstr;
  no_extract : list rstr;
  architecture : option rstr;
  sig_level : option rstr;
  local_file_sig_level : option rstr;
  remote_file_sig_level : option rstr;
  parallel_downloads : option Z;
  repos : list RepoConfig
}.

Definition default_config : PacmanConfig :=
  {| root_dir := None; db_path := None; cache_dirs := []; log_file := None; gpg_dir := None; hook_dirs := [];
     hold_pkg := []; ignore_pkg := []; ignore_group := []; no_upgrade := []; no_extract := []; architecture := None;
     sig_level := None; local_file_sig_level := None; remote_file_sig_level := None; parallel_downloads := None;
     repos := [] |}.

Inductive ConfError :=
| ResolveFailed (path : rstr)
| IncludeCycle (path : rstr)
| ReadFailed (path : rstr)
| IncludeEmpty
| IncludeGlob (path : rstr)
| NoParent (path : rstr)
| IncludesTooDeep
| InvalidRepositoryName (name : rstr)
| DuplicateRepository (name : rstr)
| ParallelDownloadsMissing
| ParallelDownloadsInvalid (value : rstr)
| NoRepositories
| NoServers (name : rstr).

Definition trim_end (s : rstr) : rstr := rev (trim_start_matches is_whitespace (rev s)).

Definition strip_inline_comment (line : rstr) : rstr :=
  trim_end (fst (span_not (Z.eqb (ch "#")) line)).

(** * Includes *)

(** The path an [Include] line names. *)
Definition include_of (raw_line : rstr) : option rstr :=
  match split_once (ch "=") (trim (strip_inline_comment raw_line)) with
  | Some (k, value) => if str_eqb (trim k) (str "Include") then Some (trim value) else None
  | None => None
  end.

(** [Path::parent] of a canonical path and [Path::join]. *)
Definition parent (path : rstr) : option rstr :=
  match rsplit_once (ch "/") path with
  | Some (dir, name) => if str_eqb name [] then None else Some (if str_eqb dir [] then str "/" else dir)
  | None => None
  end.

Definition join_path (dir path : rstr) : rstr :=
  if ends_with (str "/") dir then dir ++ path else dir ++ ch "/" :: path.

Definition resolve_include (canonical include : rstr) : result rstr ConfError :=
  ensure (negb (str_eqb include [])) IncludeEmpty ;?
  ensure (negb (existsb (fun c => (c =? ch "*") || (c =? ch "?") || (c =? ch "[")) include)) (IncludeGlob include) ;?
  if starts_with (str "/") include then Ok include
  else let? dir := ok_or (parent canonical) (NoParent canonical) in Ok (join_path dir include).

Section includes.
Context (canonicalize : rstr -> option rstr) (files : gmap rstr rstr).

Fixpoint load_config_with_includes (fuel : nat) (visited : gset rstr) (path : rstr) : result rstr ConfError :=
  match fuel with
  | O => Err IncludesTooDeep
  | S fuel =>
      let? canonical := ok_or (canonicalize path) (ResolveFailed path) in
      ensure (negb (bool_decide (canonical ∈ visited))) (IncludeCycle canonical) ;?
      let? content := ok_or (files !! canonical) (ReadFailed canonical) in
      for_each (fun output raw_line =>
        match include_of raw_line with
        | Some include =>
            let? resolved := resolve_include canonical include in
            let? text := load_config_with_includes fuel ({[canonical]} ∪ visited) resolved in
            Ok (output ++ text)
        | None => Ok (output ++ raw_line ++ [10])
        end) [] (byte_lines content)
  end.

(** One level for every file, and one to notice a repetition. *)
Definition include_fuel : nat := S (S (size (dom files))).

Definition load_config (path : rstr) : result rstr ConfError := load_config_with_includes include_fuel ∅ path.
End includes.

(** * Sections and options *)

Definition validate_repository_name (name : rstr) : result unit ConfError :=
  ensure (bool_decide (path_components name = [name]) && negb (str_eqb name (str ".."))) (InvalidRepositoryName name).

Definition append_signature_option (level value : option rstr) : option rstr :=
  match value with
  | None => level
  | Some value => match level with Some existing => Some (existing ++ ch " " :: value) | None => Some value end
  end.

Definition words (value : option rstr) : list rstr := match value with Some v => split_whitespace v | None => [] end.

Definition parse_option (c : PacmanConfig) (key : rstr) (value : option rstr) : result PacmanConfig ConfError :=
  let set (root_dir db_path : option rstr) (cache_dirs : list rstr) (log_file gpg_dir : option rstr)
      (hook_dirs hold_pkg ignore_pkg ignore_group no_upgrade no_extract : list rstr)
      (architecture sig_level local_file_sig_level remote_file_sig_level : option rstr) (parallel_downloads : option Z) :=
    {| root_dir := root_dir; db_path := db_path; cache_dirs := cache_dirs; log_file := log_file; gpg_dir := gpg_dir;
       hook_dirs := hook_dirs; hold_pkg := hold_pkg; ignore_pkg := ignore_pkg; ignore_group := ignore_group;
       no_upgrade := no_upgrade; no_extract := no_extract; architecture := architecture; sig_level := sig_level;
       local_file_sig_level := local_file_sig_level; remote_file_sig_level := remote_file_sig_level;
       parallel_downloads := parallel_downloads; repos := repos c |} in
  let '(Build_PacmanConfig rd db cd lf gd hd hp ip ig nu ne ar sl ls rs pd _) := c in
  let named name := str_eqb key (str name) in
  if named "RootDir" then Ok (set value db cd lf gd hd hp ip ig nu ne ar sl ls rs pd)
  else if named "DBPath" then Ok (set rd value cd lf gd hd hp ip ig nu ne ar sl ls rs pd)
  else if named "CacheDir" then Ok (set rd db (cd ++ words value) lf gd hd hp ip ig nu ne ar sl ls rs pd)
  else if named "LogFile" then Ok (set rd db cd value gd hd hp ip ig nu ne ar sl ls rs pd)
  else if named "GPGDir" then Ok (set rd db cd lf value hd hp ip ig nu ne ar sl ls rs pd)
  else if named "HookDir" then Ok (set rd db cd lf gd (hd ++ words value) hp ip ig nu ne ar sl ls rs pd)
  else if named "Architecture" then Ok (set rd db cd lf gd hd hp ip ig nu ne value sl ls rs pd)
  else if named "SigLevel" then Ok (set rd db cd lf gd hd hp ip ig nu ne ar (append_signature_option sl value) ls rs pd)
  else if named "LocalFileSigLevel" then
    Ok (set rd db cd lf gd hd hp ip ig nu ne ar sl (append_signature_option ls value) rs pd)
  else if named "RemoteFileSigLevel" then
    Ok (set rd db cd lf gd hd hp ip ig nu ne ar sl ls (append_signature_option rs value) pd)
  else if named "HoldPkg" then Ok (set rd db cd lf gd hd (hp ++ words value) ip ig nu ne ar sl ls rs pd)
  else if named "IgnorePkg" then Ok (set rd db cd lf gd hd hp (ip ++ words value) ig nu ne ar sl ls rs pd)
  else if named "IgnoreGroup" then Ok (set rd db cd lf gd hd hp ip (ig ++ words value) nu ne ar sl ls rs pd)
  else if named "NoUpgrade" then Ok (set rd db cd lf gd hd hp ip ig (nu ++ words value) ne ar sl ls rs pd)
  else if named "NoExtract" then Ok (set rd db cd lf gd hd hp ip ig nu (ne ++ words value) ar sl ls rs pd)
  else if named "ParallelDownloads" then
    let? value := ok_or value ParallelDownloadsMissing in
    let? count := ok_or (parse_uint u32_max value) (ParallelDownloadsInvalid value) in
    ensure ((1 <=? count) && (count <=? 64)) (ParallelDownloadsInvalid value) ;?
    Ok (set rd db cd lf gd hd hp ip ig nu ne ar sl ls rs (Some count))
  else Ok c.

Definition parse_repo_option (repo : RepoConfig) (key : rstr) (value : option rstr) : RepoConfig :=
  let set servers sig include :=
    {| repo_name := repo_name repo; repo_servers := servers; repo_sig_level := sig; repo_include := include |} in
  if str_eqb key (str "Server") then
    match value with
    | Some v => set (repo_servers repo ++ [v]) (repo_sig_level repo) (repo_include repo)
    | None => repo
    end
  else if str_eqb key (str "SigLevel") then
    set (repo_servers repo) (append_signature_option (repo_sig_level repo) value) (repo_include repo)
  else if str_eqb key (str "Include") then set (repo_servers repo) (repo_sig_level repo) value
  else repo.

Record ConfState := {
  config : PacmanConfig;
  current_section : option rstr;
  current_repo : option RepoConfig;
  repository_names : gset rstr
}.

Definition push_repo (c : PacmanConfig) (repo : option RepoConfig) : PacmanConfig :=
  match repo with
  | None => c
  | Some repo =>
      {| root_dir := root_dir c; db_path := db_path c; cache_dirs := cache_dirs c; log_file := log_file c;
         gpg_dir := gpg_dir c; hook_dirs := hook_dirs c; hold_pkg := hold_pkg c; ignore_pkg := ignore_pkg c;
         ignore_group := ignore_group c; no_upgrade := no_upgrade c; no_extract := no_extract c;
         architecture := architecture c; sig_level := sig_level c; local_file_sig_level := local_file_sig_level c;
         remote_file_sig_level := remote_file_sig_level c; parallel_downloads := parallel_downloads c;
         repos := repos c ++ [repo] |}
  end.

Definition new_repo (name : rstr) : RepoConfig :=
  {| repo_name := name; repo_servers := []; repo_sig_level := None; repo_include := None |}.

(** A section header closes the repository before it. *)
Definition open_section (s : ConfState) (section : rstr) : result ConfState ConfError :=
  let config := push_repo (config s) (current_repo s) in
  if str_eqb section (str "options") then
    Ok {| config := config; current_section := Some section; current_repo := None;
          repository_names := repository_names s |}
  else
    validate_repository_name section ;?
    ensure (negb (bool_decide (section ∈ repository_names s))) (DuplicateRepository section) ;?
    Ok {| config := config; current_section := Some section; current_repo := Some (new_repo section);
          repository_names := {[section]} ∪ repository_names s |}.

Definition parse_conf_line (s : ConfState) (line : rstr) : result ConfState ConfError :=
  let line := trim (strip_inline_comment (trim line)) in
  if str_eqb line [] then Ok s
  else if starts_with (str "[") line && ends_with (str "]") line then open_section s (removelast (tail line))
  else
    let '(key, value) :=
      match split_once (ch "=") line with Some (k, v) => (trim k, Some (trim v)) | None => (line, None) end in
    match current_section s with
    | None => Ok s
    | Some section =>
        if str_eqb section (str "options") then
          let? config := parse_option (config s) key value in
          Ok {| config := config; current_section := current_section s; current_repo := current_repo s;
                repository_names := repository_names s |}
        else
          Ok {| config := config s; current_section := current_section s;
                current_repo := (fun repo => parse_repo_option repo key value) <$> current_repo s;
                repository_names := repository_names s |}
    end.

Definition parse_str (content : rstr) : result PacmanConfig ConfError :=
  let? s := for_each parse_conf_line
    {| config := default_config; current_section := None; current_repo := None; repository_names := ∅ |}
    (byte_lines content) in
  Ok (push_repo (config s) (current_repo s)).

Definition parse (canonicalize : rstr -> option rstr) (files : gmap rstr rstr) (path : rstr) : result PacmanConfig ConfError :=
  let? content := load_config canonicalize files path in parse_str content.

(** * Servers *)

Definition expand_server (repo arch server : rstr) : rstr := replace (str "$arch") arch (replace (str "$repo") repo server).

Definition mirror_line (line : rstr) : option rstr :=
  match split_once (ch "=") (trim (strip_inline_comment line)) with
  | Some (key, url) => if str_eqb (trim key) (str "Server") then Some (trim url) else None
  | None => None
  end.

(** [read] is the text of a mirror list, if it can be read. *)
Definition resolve_servers (read : rstr -> option rstr) (repo : RepoConfig) (arch : rstr) : result (list rstr) ConfError :=
  let servers := map (expand_server (repo_name repo) arch) (repo_servers repo) in
  match repo_include repo with
  | None => Ok servers
  | Some path =>
      let? mirrorlist := ok_or (read path) (ReadFailed path) in
      Ok (servers ++ map (expand_server (repo_name repo) arch) (omap mirror_line (byte_lines mirrorlist)))
  end.

Definition get_repo_names (c : PacmanConfig) : list rstr := map repo_name (repos c).

Definition MAX_MIRRORS_PER_REPO : nat := 5.

Definition build_db_url (arch mirror_template repo : rstr) : rstr :=
  expand_server repo arch mirror_template ++ str "/" ++ repo ++ str ".db".

Definition repository_urls (read : rstr -> option rstr) (arch : rstr) (repo : RepoConfig)
  : result (rstr * list rstr) ConfError :=
  let? servers := resolve_servers read repo arch in
  ensure (negb (bool_decide (servers = []))) (NoServers (repo_name repo)) ;?
  Ok (repo_name repo, map (fun server => build_db_url arch server (repo_name repo)) (take MAX_MIRRORS_PER_REPO servers)).

Definition repository_database_urls (read : rstr -> option rstr) (c : PacmanConfig) (arch : rstr)
  : result (list (rstr * list rstr)) ConfError :=
  ensure (negb (length (repos c) =? 0)%nat) NoRepositories ;?
  try_map (repository_urls read arch) (repos c).
