(* ===== verification/PacmanConfProofs.v ===== *)
(** The configuration of pacman: proofs on [PacmanConf]. *)

From S2P Require Import Prelude RustPath Spdx Validation PacmanConf.
Open Scope Z_scope.
Open Scope omg_scope.

(** * Includes *)

Section includes.
Context (canonicalize : rstr -> option rstr) (files : gmap rstr rstr).

(** The specification: a file expands to its lines, each include replaced by
    the expansion of the file it names. A derivation is finite, so a file that
    includes itself has no expansion. *)
Inductive Expands : rstr -> rstr -> Prop :=
| expands_file path canonical content text :
    canonicalize path = Some canonical -> files !! canonical = Some content ->
    ExpandsLines canonical (byte_lines content) text -> Expands path text
with ExpandsLines : rstr -> list rstr -> rstr -> Prop :=
| expands_nil canonical : ExpandsLines canonical [] []
| expands_text canonical raw_line lines text :
    include_of raw_line = None -> ExpandsLines canonical lines text ->
    ExpandsLines canonical (raw_line :: lines) (raw_line ++ [10] ++ text)
| expands_include canonical raw_line include resolved inner lines text :
    include_of raw_line = Some include -> resolve_include canonical include = Ok resolved ->
    Expands resolved inner -> ExpandsLines canonical lines text ->
    ExpandsLines canonical (raw_line :: lines) (inner ++ text).

Scheme Expands_mut := Induction for Expands Sort Prop
  with ExpandsLines_mut := Induction for ExpandsLines Sort Prop.

(** One step of the include graph, over canonical paths. *)
Definition Includes (canonical canonical' : rstr) : Prop :=
  exists content raw_line include resolved,
    files !! canonical = Some content /\ raw_line ∈ byte_lines content /\ include_of raw_line = Some include /\
    resolve_include canonical include = Ok resolved /\ canonicalize resolved = Some canonical'.

Lemma expands_acc path text :
  Expands path text -> forall canonical, canonicalize path = Some canonical -> Acc (fun a b => Includes b a) canonical.
Proof.
  revert path text. apply (Expands_mut
    (fun path _ _ => forall canonical, canonicalize path = Some canonical -> Acc (fun a b => Includes b a) canonical)
    (fun canonical lines _ _ => forall raw_line include resolved canonical', raw_line ∈ lines ->
       include_of raw_line = Some include -> resolve_include canonical include = Ok resolved ->
       canonicalize resolved = Some canonical' -> Acc (fun a b => Includes b a) canonical')).
  - intros p c content t Hc Hf _ IH c2 Hc2. rewrite Hc in Hc2. injection Hc2 as <-. constructor.
    intros c' (content' & raw & inc & r & Hf' & Hin & Hi & Hr & Hc'). rewrite Hf in Hf'. injection Hf' as <-. by eapply IH.
  - intros c raw inc r c' Hin. by apply not_elem_of_nil in Hin.
  - intros c raw ls t Hn _ IH raw' inc r c' [->|Hin]%elem_of_cons Hi; [congruence|]. by eapply IH.
  - intros c raw inc r inner ls t Hi Hr _ IH1 _ IH2 raw' inc' r' c' [->|Hin]%elem_of_cons Hi' Hr' Hc'; [|by eapply IH2].
    rewrite Hi in Hi'. injection Hi' as <-. rewrite Hr in Hr'. injection Hr' as <-. by apply IH1.
Qed.

Lemma acc_acyclic c : Acc (fun a b => Includes b a) c -> tc Includes c c -> False.
Proof.
  induction 1 as [c _ IH]. intros H. inversion H as [x y Hs|x y z Hs Ht]; subst; [by apply (IH c)|].
  apply (IH y Hs). by eapply tc_r.
Qed.

(** The loop over the lines. *)
Definition load_line (load : rstr -> result rstr ConfError) (canonical output raw_line : rstr) : result rstr ConfError :=
  match include_of raw_line with
  | Some include =>
      let? resolved := resolve_include canonical include in
      let? text := load resolved in
      Ok (output ++ text)
  | None => Ok (output ++ raw_line ++ [10])
  end.

Lemma load_eq fuel visited path :
  load_config_with_includes canonicalize files (S fuel) visited path =
  (let? canonical := ok_or (canonicalize path) (ResolveFailed path) in
   ensure (negb (bool_decide (canonical ∈ visited))) (IncludeCycle canonical) ;?
   let? content := ok_or (files !! canonical) (ReadFailed canonical) in
   for_each (load_line (load_config_with_includes canonicalize files fuel ({[canonical]} ∪ visited)) canonical)
     [] (byte_lines content)).
Proof. done. Qed.

Lemma load_lines_sound load canonical lines acc text :
  (forall path text, load path = Ok text -> Expands path text) ->
  for_each (load_line load canonical) acc lines = Ok text ->
  exists rest, text = acc ++ rest /\ ExpandsLines canonical lines rest.
Proof.
  intros Hload. revert acc. induction lines as [|raw lines IH]; intros acc; cbn [for_each].
  { intros [= <-]. exists []. rewrite app_nil_r. split; [done|constructor]. }
  rewrite res_bind_Ok. intros (acc' & Hl & Hrest). destruct (IH _ Hrest) as (rest & -> & He). unfold load_line in Hl.
  destruct (include_of raw) as [inc|] eqn:Hi.
  - apply res_bind_Ok in Hl as (r & Hr & (t & Ht & [= <-])%res_bind_Ok). exists (t ++ rest).
    split; [by rewrite app_assoc|]. eapply expands_include; eauto.
  - injection Hl as <-. exists (raw ++ [10] ++ rest). split; [by rewrite <- !app_assoc|]. by constructor.
Qed.

Lemma load_sound fuel visited path text :
  load_config_with_includes canonicalize files fuel visited path = Ok text -> Expands path text.
Proof.
  revert visited path text. induction fuel as [|fuel IH]; intros visited path text; [done|]. rewrite load_eq.
  rewrite res_bind_Ok. intros (c & Hc%ok_or_Ok & (u & _ & (content & Hf%ok_or_Ok & H)%res_bind_Ok)%res_bind_Ok).
  apply load_lines_sound in H as (rest & -> & He); [|intros; by eapply IH]. by econstructor.
Qed.

Lemma visited_grows (c : rstr) (visited : gset rstr) :
  c ∈ dom files -> (c ∉ visited) -> visited ⊆ dom files ->
  {[c]} ∪ visited ⊆ dom files /\ size ({[c]} ∪ visited) = S (size visited).
Proof. intros Hc Hn Hs. split; [set_solver|]. rewrite size_union by set_solver. by rewrite size_singleton. Qed.

(** ** Termination *)

Lemma load_total (fuel : nat) (visited : gset rstr) (path : rstr) :
  visited ⊆ dom files -> (size (dom files) < fuel + size visited)%nat ->
  load_config_with_includes canonicalize files fuel visited path ≠ Err IncludesTooDeep.
Proof.
  revert visited path. induction fuel as [|fuel IH]; intros visited path Hs Hf.
  { apply subseteq_size in Hs. lia. }
  rewrite load_eq. destruct (canonicalize path) as [c|]; simpl; [|done].
  destruct (bool_decide (c ∈ visited)) eqn:Hv; simpl; [done|]. apply bool_decide_eq_false in Hv.
  destruct (files !! c) as [content|] eqn:Hc; simpl; [|done].
  destruct (visited_grows c visited) as [Hs' Hsz]; [by apply elem_of_dom_2 in Hc|done|done|].
  generalize (@nil Z). induction (byte_lines content) as [|raw lines IHl]; intros acc; cbn [for_each]; [done|].
  unfold load_line at 1. destruct (include_of raw) as [inc|]; [|apply IHl].
  destruct (resolve_include c inc) as [r|e] eqn:Hr; simpl.
  - pose proof (IH ({[c]} ∪ visited) r Hs' ltac:(lia)) as Hn.
    destruct (load_config_with_includes _ _ fuel _ r) as [t|e]; simpl; [apply IHl|congruence].
  - unfold resolve_include in Hr. destruct (negb (str_eqb inc [])); [|simpl in Hr; congruence].
    destruct (negb (existsb _ inc)); [|simpl in Hr; congruence]. simpl in Hr.
    destruct (starts_with _ inc); [done|]. destruct (parent c); simpl in Hr; congruence.
Qed.

(** ** Completeness *)

Lemma load_complete path text :
  Expands path text -> forall (fuel : nat) (visited : gset rstr), visited ⊆ dom files -> (size (dom files) < fuel + size visited)%nat ->
  (forall v c, v ∈ visited -> canonicalize path = Some c -> tc Includes v c) ->
  load_config_with_includes canonicalize files fuel visited path = Ok text.
Proof.
  intros H. pose proof H as Hall. revert Hall. revert path text H.
  apply (Expands_mut
    (fun path text _ => Expands path text -> forall (fuel : nat) (visited : gset rstr), visited ⊆ dom files ->
       (size (dom files) < fuel + size visited)%nat ->
       (forall v c, v ∈ visited -> canonicalize path = Some c -> tc Includes v c) ->
       load_config_with_includes canonicalize files fuel visited path = Ok text)
    (fun canonical lines text _ => forall (content : rstr) (fuel : nat) (visited : gset rstr) (acc : rstr),
       files !! canonical = Some content -> (forall raw, raw ∈ lines -> raw ∈ byte_lines content) ->
       visited ⊆ dom files -> (size (dom files) < fuel + size visited)%nat ->
       (forall v, v ∈ visited -> v = canonical \/ tc Includes v canonical) ->
       for_each (load_line (load_config_with_includes canonicalize files fuel visited) canonical) acc lines
       = Ok (acc ++ text))).
  - intros p c content t Hc Hf _ IH Hexp fuel visited Hs Hfu Hv. destruct fuel as [|fuel].
    { apply subseteq_size in Hs. lia. }
    assert (Hn : c ∉ visited).
    { intros Hin. apply (acc_acyclic c); [by eapply expands_acc|by apply Hv]. }
    destruct (visited_grows c visited) as [Hs' Hsz]; [by apply elem_of_dom_2 in Hf|done|done|].
    rewrite load_eq, Hc. simpl. rewrite bool_decide_eq_false_2 by done. simpl. rewrite Hf. simpl.
    apply (IH content); [done|done|done|lia|]. intros v [->%elem_of_singleton|Hin]%elem_of_union; [by left|right; by apply Hv].
  - intros c content fuel visited acc _ _ _ _ _. simpl. by rewrite app_nil_r.
  - intros c raw ls t Hi _ IH content fuel visited acc Hf Hls Hs Hfu Hv. cbn [for_each]. unfold load_line at 1. rewrite Hi. simpl.
    rewrite (IH content) by (try done; intros; apply Hls; set_solver). by rewrite <- !app_assoc.
  - intros c raw inc r inner ls t Hi Hr Hexp IH1 _ IH2 content fuel visited acc Hf Hls Hs Hfu Hv. cbn [for_each].
    unfold load_line at 1. rewrite Hi, Hr. simpl. rewrite IH1; [|done|done|done|].
    + simpl. rewrite (IH2 content) by (try done; intros; apply Hls; set_solver). by rewrite <- app_assoc.
    + intros v c' Hin Hc'. assert (Hinc : Includes c c').
      { exists content, raw, inc, r. split_and!; try done. apply Hls. set_solver. }
      destruct (Hv v Hin) as [->|Ht]; [by apply tc_once|by eapply tc_r].
Qed.

(** C25: expanding includes always ends, and implements the inlining of
    included files: it answers exactly the finite expansion of the file, and
    fails when there is none, because a file is missing, cannot be named, or
    includes itself, directly or not. *)
Theorem includes_are_inlined path :
  load_config canonicalize files path ≠ Err IncludesTooDeep /\
  forall text, load_config canonicalize files path = Ok text <-> Expands path text.
Proof.
  assert (Hfuel : (size (dom files) < include_fuel files + size (∅ : gset rstr))%nat) by (unfold include_fuel; lia).
  split; [by apply load_total|]. intros text. split; [apply load_sound|]. intros He. apply load_complete; [done|done|done|].
  intros v c Hin. by apply not_elem_of_empty in Hin.
Qed.
End includes.

(** * Parsing *)

(** A repository name is the name of a file, not a path. *)
Definition plain_name (name : rstr) : Prop := path_components name = [name] /\ name ≠ str "..".

Lemma validate_repository_name_Ok name u : validate_repository_name name = Ok u -> plain_name name.
Proof.
  unfold validate_repository_name. intros H%ensure_Ok. apply andb_prop in H as [H1%bool_decide_eq_true H2%negb_true_iff].
  split; [done|]. by apply str_eqb_false.
Qed.

Definition downloads_ok (c : PacmanConfig) : Prop := forall n, parallel_downloads c = Some n -> 1 <= n <= 64.

(** Names seen so far, the open section last. *)
Definition section_names (s : ConfState) : list rstr :=
  get_repo_names (config s) ++ match current_repo s with Some repo => [repo_name repo] | None => [] end.

Record conf_inv (s : ConfState) : Prop := {
  ci_distinct : NoDup (section_names s);
  ci_known : Forall (fun name => name ∈ repository_names s) (section_names s);
  ci_plain : Forall plain_name (section_names s);
  ci_downloads : downloads_ok (config s)
}.

Lemma push_repo_names c repo :
  get_repo_names (push_repo c repo) =
  get_repo_names c ++ match repo with Some repo => [repo_name repo] | None => [] end.
Proof. destruct repo as [repo|]; simpl; [|by rewrite app_nil_r]. unfold get_repo_names. simpl. by rewrite map_app. Qed.

Lemma push_repo_downloads c repo : parallel_downloads (push_repo c repo) = parallel_downloads c.
Proof. by destruct repo. Qed.

Lemma parse_option_keeps c key value c' :
  parse_option c key value = Ok c' -> repos c' = repos c /\ (downloads_ok c -> downloads_ok c').
Proof.
  unfold parse_option. destruct c.
  repeat (match goal with |- context [if str_eqb ?k ?n then _ else _] => destruct (str_eqb k n) end;
          [solve [intros [= <-]; split; [done|by intros H]]|]).
  destruct (str_eqb key (str "ParallelDownloads")); [|intros [= <-]; by split; [|intros H]].
  rewrite res_bind_Ok. intros (v & _ & (n & _ & (u & Hn%ensure_Ok & [= <-])%res_bind_Ok)%res_bind_Ok).
  split; [done|]. intros _ k [= <-]. apply andb_prop in Hn as [H1%Z.leb_le H2%Z.leb_le]. lia.
Qed.

Lemma parse_repo_option_name repo key value : repo_name (parse_repo_option repo key value) = repo_name repo.
Proof.
  unfold parse_repo_option. destruct (str_eqb key _); [by destruct value|]. destruct (str_eqb key _); [done|].
  by destruct (str_eqb key _).
Qed.

Lemma open_section_inv s section s' : conf_inv s -> open_section s section = Ok s' -> conf_inv s'.
Proof.
  intros [Hd Hk Hp Hn]. unfold open_section. destruct (str_eqb section _) eqn:Ho.
  - intros [= <-]. unfold section_names in *.
    split; unfold section_names; cbn [config current_repo repository_names]; rewrite ?push_repo_names, ?app_nil_r; try done.
    unfold downloads_ok. cbn [config]. by rewrite push_repo_downloads.
  - rewrite res_bind_Ok. intros (u & Hv%validate_repository_name_Ok & (u' & Hf%ensure_Ok & [= <-])%res_bind_Ok).
    apply negb_true_iff, bool_decide_eq_false in Hf.
    assert (Hnames : forall l, section_names {| config := push_repo (config s) (current_repo s); current_section := l;
      current_repo := Some (new_repo section); repository_names := {[section]} ∪ repository_names s |}
      = section_names s ++ [section]).
    { intros l. unfold section_names at 1. cbn [config current_repo]. by rewrite push_repo_names. }
    split; cbn [repository_names config]; rewrite ?Hnames.
    + apply NoDup_app. split_and!; [done| |apply NoDup_singleton]. intros x Hx ->%list_elem_of_singleton.
      apply Hf. by apply (proj1 (Forall_forall _ _) Hk).
    + apply Forall_app. split; [|repeat constructor; set_solver].
      eapply Forall_impl; [exact Hk|]. simpl. set_solver.
    + apply Forall_app. split; [done|by apply Forall_singleton].
    + unfold downloads_ok. by rewrite push_repo_downloads.
Qed.

Lemma parse_conf_line_inv s line s' : conf_inv s -> parse_conf_line s line = Ok s' -> conf_inv s'.
Proof.
  intros Hi. unfold parse_conf_line. set (text := trim _). destruct (str_eqb text []); [by intros [= <-]|].
  destruct (_ && _); [by apply open_section_inv|].
  destruct (match split_once _ text with Some _ => _ | None => _ end) as [key value].
  destruct (current_section s) as [section|]; [|by intros [= <-]]. destruct Hi as [Hd Hk Hp Hn].
  destruct (str_eqb section _).
  - rewrite res_bind_Ok. intros (c & Hc & [= <-]). apply parse_option_keeps in Hc as [Hr Hdl].
    assert (Hg : get_repo_names c = get_repo_names (config s)) by (unfold get_repo_names; by rewrite Hr).
    unfold section_names in *. split; unfold section_names; cbn [config current_repo repository_names]; rewrite ?Hg; auto.
  - intros [= <-].
    assert (Hnames : section_names {| config := config s; current_section := Some section;
      current_repo := (fun repo => parse_repo_option repo key value) <$> current_repo s;
      repository_names := repository_names s |} = section_names s).
    { unfold section_names. cbn [config current_repo]. f_equal. destruct (current_repo s); [|done]. simpl.
      by rewrite parse_repo_option_name. }
    split; cbn [repository_names config]; rewrite ?Hnames; done.
Qed.

Lemma parse_str_inv content c :
  parse_str content = Ok c ->
  NoDup (get_repo_names c) /\ Forall plain_name (get_repo_names c) /\ downloads_ok c.
Proof.
  unfold parse_str. rewrite res_bind_Ok. intros (s & Hs & [= <-]).
  apply (for_each_inv _ (fun _ => conf_inv)) in Hs.
  - destruct Hs as [Hd Hk Hp Hn]. rewrite push_repo_names. split_and!; [done|done|]. unfold downloads_ok.
    by rewrite push_repo_downloads.
  - split; [apply NoDup_nil_2|by apply Forall_nil|by apply Forall_nil|done].
  - intros pre x s1 s2 H1 _ H2. by eapply parse_conf_line_inv.
Qed.

Lemma plain_name_file name : plain_name name -> (ch "/" ∉ name) /\ name ≠ [].
Proof.
  intros [Hc _]. unfold path_components in Hc.
  assert (Hin : name ∈ split_char (ch "/") name).
  { apply list_elem_of_In. assert (H : In name [name]) by (by left). rewrite <- Hc in H. by apply filter_In in H as [? _]. }
  split; [by apply split_char_no_sep in Hin|]. intros ->. done.
Qed.

(** C34: a configuration that is accepted is well formed: the repositories
    have distinct names, each of them one plain path component, so that no
    database file leaves its directory; the number of parallel downloads is
    between 1 and 64; and when the addresses of the databases are computed,
    every repository has between one and five, in the order of the file. *)
Theorem parsed_configuration_is_well_formed canonicalize files path c :
  parse canonicalize files path = Ok c ->
  NoDup (get_repo_names c) /\
  Forall (fun name => (ch "/" ∉ name) /\ name ≠ [] /\ name ≠ str ".." /\ name ≠ str ".") (get_repo_names c) /\
  (forall n, parallel_downloads c = Some n -> 1 <= n <= 64) /\
  (forall read arch urls, repository_database_urls read c arch = Ok urls ->
     map fst urls = get_repo_names c /\
     Forall (fun '(_, addresses) => (1 <= length addresses <= MAX_MIRRORS_PER_REPO)%nat) urls).
Proof.
  unfold parse. rewrite res_bind_Ok. intros (text & _ & (Hd & Hp & Hn)%parse_str_inv).
  split_and!; [done| |done|].
  - eapply Forall_impl; [exact Hp|]. intros name Hname. destruct (plain_name_file _ Hname). destruct Hname as [Hc Hdd].
    split_and!; [done|done|done|]. intros ->. by vm_compute in Hc.
  - intros read arch urls. unfold repository_database_urls. rewrite res_bind_Ok. intros (u & _ & Hu%try_map_Ok). split.
    + unfold get_repo_names. induction Hu as [|repo [name addresses] rs us Hr _ IH]; [done|]. simpl.
      f_equal; [|done]. unfold repository_urls in Hr.
      apply res_bind_Ok in Hr as (servers & _ & (u' & _ & [= <- _])%res_bind_Ok). done.
    + induction Hu as [|repo [name addresses] rs us Hr _ IH]; [done|]. constructor; [|done].
      unfold repository_urls in Hr. apply res_bind_Ok in Hr as (servers & _ & (u' & Hs%ensure_Ok & [= _ <-])%res_bind_Ok).
      apply negb_true_iff, bool_decide_eq_false in Hs. rewrite length_map, length_take. unfold MAX_MIRRORS_PER_REPO.
      destruct servers; [done|]. cbn [length]. lia.
Qed.

Definition sample_conf : rstr :=
  str "[options]" ++ [10] ++ str "ParallelDownloads = 5 # as shipped" ++ [10] ++
  str "[core]" ++ [10] ++ str "Include = mirrorlist" ++ [10].

Definition sample_files : gmap rstr rstr :=
  {[str "/etc/pacman.conf" := sample_conf;
    str "/etc/mirrorlist" := str "Server = https://m/$repo/os/$arch" ++ [10]]}.

Definition sample_parsed : PacmanConfig :=
  match parse Some sample_files (str "/etc/pacman.conf") with Ok c => c | Err _ => default_config end.

Definition sample_urls : list (rstr * list rstr) := [(str "core", [str "https://m/core/os/x86_64/core.db"])].

Lemma parsed_configuration_is_well_formed_witness :
  repository_database_urls (fun _ => None) sample_parsed (str "x86_64") = Ok sample_urls /\
  map fst sample_urls = get_repo_names sample_parsed.
Proof.
  assert (Hp : parse Some sample_files (str "/etc/pacman.conf") = Ok sample_parsed) by (vm_compute; reflexivity).
  assert (Hu : repository_database_urls (fun _ => None) sample_parsed (str "x86_64") = Ok sample_urls) by (vm_compute; reflexivity).
  split; [exact Hu|].
  destruct (parsed_configuration_is_well_formed Some sample_files (str "/etc/pacman.conf") sample_parsed Hp) as (_ & _ & _ & Hwf).
  apply (Hwf (fun _ => None) (str "x86_64") sample_urls Hu).
Defined.
