(* ===== verification/PacmanLocal.v ===== *)
(** The local database of pacman: src/src/package_managers/pacman_db/db.rs.

    Reading the descriptions of installed packages, the report of unsatisfied
    dependencies, the packages that others require, the counts of the status
    line, updates and foreign packages. The parsers of the alpm crates, their
    version type with its comparison, the syntax check of relations and the
    ignore patterns are parameters. *)

From S2P Require Import Prelude.
Open Scope Z_scope.
Open Scope omg_scope.

Section local.
(** [version_of] is [Version::from_str], [version_text] its [Display],
    [compare_versions] and [vercmp] the comparisons of libalpm. *)
Context {Version : Type} (version_of : rstr -> option Version) (version_text : Version -> rstr).
Context (compare_versions : Version -> Version -> comparison) (vercmp : rstr -> rstr -> comparison).

Record LocalDbPackage := {
  name : rstr;
  version : Version;
  desc : rstr;
  install_date : rstr;
  licenses : list rstr;
  explicit : bool;
  depends : list rstr;
  optdepends : list rstr;
  provides : list rstr
}.

Inductive LocalError :=
| NoName
| InvalidReason (reason : rstr)
| InvalidPackageVersion (version : rstr)
| DescUnreadable
| DescTooLong
| InvalidRelation (raw : rstr)
| InvalidName (name : rstr)
| UnsupportedProvision (raw : rstr).

(** * Descriptions *)

Record DescScan := {
  d_name : rstr;
  d_version : rstr;
  d_desc : rstr;
  d_install_date : rstr;
  d_reason : rstr;
  d_licenses : list rstr;
  d_depends : list rstr;
  d_optdepends : list rstr;
  d_provides : list rstr;
  d_field : option rstr
}.

Definition desc_start : DescScan :=
  {| d_name := []; d_version := []; d_desc := []; d_install_date := []; d_reason := []; d_licenses := [];
     d_depends := []; d_optdepends := []; d_provides := []; d_field := None |}.

Definition at_field (s : DescScan) (field : option rstr) : DescScan :=
  {| d_name := d_name s; d_version := d_version s; d_desc := d_desc s; d_install_date := d_install_date s;
     d_reason := d_reason s; d_licenses := d_licenses s; d_depends := d_depends s; d_optdepends := d_optdepends s;
     d_provides := d_provides s; d_field := field |}.

Definition set_field (s : DescScan) (field line : rstr) : DescScan :=
  let '(Build_DescScan n v d i r ls ds os ps f) := s in
  let named text := str_eqb field (str text) in
  if named "%NAME%" then Build_DescScan line v d i r ls ds os ps f
  else if named "%VERSION%" then Build_DescScan n line d i r ls ds os ps f
  else if named "%DESC%" then Build_DescScan n v line i r ls ds os ps f
  else if named "%INSTALLDATE%" then Build_DescScan n v d line r ls ds os ps f
  else if named "%REASON%" then Build_DescScan n v d i line ls ds os ps f
  else if named "%LICENSE%" then Build_DescScan n v d i r (ls ++ [line]) ds os ps f
  else if named "%DEPENDS%" then Build_DescScan n v d i r ls (ds ++ [line]) os ps f
  else if named "%OPTDEPENDS%" then Build_DescScan n v d i r ls ds (os ++ [line]) ps f
  else if named "%PROVIDES%" then Build_DescScan n v d i r ls ds os (ps ++ [line]) f
  else s.

Definition desc_line (s : DescScan) (line : rstr) : DescScan :=
  let line := trim line in
  if str_eqb line [] then at_field s None
  else if starts_with (str "%") line && ends_with (str "%") line then at_field s (Some line)
  else match d_field s with Some field => set_field s field line | None => s end.

Definition explicit_reason (reason : rstr) : result bool LocalError :=
  if str_eqb reason [] || str_eqb reason (str "0") then Ok true
  else if str_eqb reason (str "1") then Ok false
  else Err (InvalidReason reason).

Definition parse_local_desc_manual (content : rstr) : result LocalDbPackage LocalError :=
  let s := foldl desc_line desc_start (byte_lines content) in
  ensure (negb (str_eqb (d_name s) [])) NoName ;?
  let? explicit := explicit_reason (d_reason s) in
  let? version := ok_or (version_of (d_version s)) (InvalidPackageVersion (d_version s)) in
  Ok {| name := d_name s; version := version; desc := d_desc s; install_date := d_install_date s;
        licenses := d_licenses s; explicit := explicit; depends := d_depends s; optdepends := d_optdepends s;
        provides := d_provides s |}.

Definition MAX_DESC_BYTES : Z := 16 * 1024 * 1024.

(** [desc_v1] and [desc_v2] are the parsers of the alpm-db crate. *)
Definition parse_local_desc_content (desc_v1 desc_v2 : rstr -> option LocalDbPackage) (content : rstr)
  : result LocalDbPackage LocalError :=
  match desc_v1 content with
  | Some package => Ok package
  | None =>
      match desc_v2 content with
      | Some package => Ok package
      | None => parse_local_desc_manual content
      end
  end.

(** What opening a description gives: nothing, or its size and text. *)
Definition parse_local_desc (desc_v1 desc_v2 : rstr -> option LocalDbPackage) (file : option rstr)
  : result LocalDbPackage LocalError :=
  let? content := ok_or file DescUnreadable in
  ensure (str_len content <=? MAX_DESC_BYTES) DescTooLong ;?
  parse_local_desc_content desc_v1 desc_v2 content.

(** The readable directories with a description, in directory order; entries
    that cannot be read or parsed are ignored. *)
Definition parse_local_db (desc_v1 desc_v2 : rstr -> option LocalDbPackage) (entries : list (option rstr))
  : gmap rstr LocalDbPackage :=
  foldl (fun packages file =>
    match parse_local_desc desc_v1 desc_v2 file with
    | Ok package => if str_eqb (name package) [] then packages else <[name package := package]> packages
    | Err _ => packages
    end) ∅ entries.

(** * Unsatisfied dependencies *)

Record HealthRelation := {
  rel_name : rstr;
  rel_operator : rstr;
  rel_version : option rstr
}.

(** [is_relation] is the syntax check of alpm-types, [is_name] that of names. *)
Context (is_relation is_name : rstr -> bool).

Definition is_comparator (c : char) : bool := (c =? ch "<") || (c =? ch ">") || (c =? ch "=").

Definition health_relation (raw : rstr) : result HealthRelation LocalError :=
  ensure (is_relation raw) (InvalidRelation raw) ;?
  match span_not is_comparator raw with
  | (_, []) => Ok {| rel_name := raw; rel_operator := []; rel_version := None |}
  | (name, tail) =>
      let width := if starts_with (str "<=") tail || starts_with (str ">=") tail then 2%nat else 1%nat in
      Ok {| rel_name := name; rel_operator := take width tail; rel_version := Some (drop width tail) |}
  end.

Definition accepts (self : HealthRelation) (candidate : option rstr) : bool :=
  match rel_version self with
  | None => true
  | Some required =>
      match candidate with
      | None => false
      | Some candidate =>
          let comparison := vercmp candidate required in
          let op text := str_eqb (rel_operator self) (str text) in
          if op "=" then match comparison with Eq => true | _ => false end
          else if op ">" then match comparison with Gt => true | _ => false end
          else if op ">=" then match comparison with Lt => false | _ => true end
          else if op "<" then match comparison with Lt => true | _ => false end
          else if op "<=" then match comparison with Gt => false | _ => true end
          else false
      end
  end.

(** A provision without a comparison, or with [=]. *)
Definition exact_provision (r : HealthRelation) : bool :=
  str_eqb (rel_operator r) [] || str_eqb (rel_operator r) (str "=").

Definition add_provision (provided : gmap rstr (list HealthRelation)) (raw : rstr) : gmap rstr (list HealthRelation) :=
  match health_relation raw with
  | Ok relation =>
      if exact_provision relation
      then <[rel_name relation := default [] (provided !! rel_name relation) ++ [relation]]> provided
      else provided
  | Err _ => provided
  end.

Definition provisions (packages : gmap rstr LocalDbPackage) : gmap rstr (list HealthRelation) :=
  foldl add_provision ∅ ((map_to_list packages).*2 ≫= provides).

Definition satisfied (packages : gmap rstr LocalDbPackage) (provided : gmap rstr (list HealthRelation)) (raw : rstr) : bool :=
  match health_relation raw with
  | Err _ => false
  | Ok required =>
      match packages !! rel_name required with
      | Some installed => accepts required (Some (version_text (version installed)))
      | None => false
      end
      || match provided !! rel_name required with
         | Some providers => existsb (fun provider => accepts required (rel_version provider)) providers
         | None => false
         end
  end.

(** Pairs of the declaring package and the dependency, as declared. *)
Definition unsatisfied_cmp (a b : rstr * rstr) : comparison := then_with (list_cmp a.1 b.1) (list_cmp a.2 b.2).

Definition missing_of (packages : gmap rstr LocalDbPackage) (provided : gmap rstr (list HealthRelation))
    (package : LocalDbPackage) : list (rstr * rstr) :=
  map (pair (name package)) (List.filter (fun raw => negb (satisfied packages provided raw)) (depends package)).

Definition unsatisfied_dependencies (packages : gmap rstr LocalDbPackage) : list (rstr * rstr) :=
  let provided := provisions packages in
  sort_by unsatisfied_cmp ((map_to_list packages).*2 ≫= missing_of packages provided).

Definition validate_package_relations (package : LocalDbPackage) : result unit LocalError :=
  ensure (is_name (name package)) (InvalidName (name package)) ;?
  for_each (fun _ dependency => let? _ := health_relation dependency in Ok tt) tt (depends package) ;?
  for_each (fun _ provision =>
    let? relation := health_relation provision in
    ensure (exact_provision relation) (UnsupportedProvision provision)) tt (provides package).

Definition validate_health_relations (packages : gmap rstr LocalDbPackage) : result unit LocalError :=
  for_each (fun _ => validate_package_relations) tt (map_to_list packages).*2.

(** * Required packages and counts *)

Definition dependency_base_name (relation : rstr) : rstr :=
  let relation := match split_once_str (str ": ") relation with Some (name, _) => name | None => relation end in
  trim (fst (span_not is_comparator relation)).

Definition add_provider_name (providers : gmap rstr (list rstr)) (provision provider : rstr) : gmap rstr (list rstr) :=
  let key := dependency_base_name provision in
  <[key := default [] (providers !! key) ++ [provider]]> providers.

Definition provider_names (packages : gmap rstr LocalDbPackage) : gmap rstr (list rstr) :=
  foldl (fun providers '(name, package) =>
    foldl (fun providers provision => add_provider_name providers provision name) providers (provides package))
    ∅ (map_to_list packages).

(** The installed packages that one relation of [package] requires. *)
Definition require_target (packages : gmap rstr LocalDbPackage) (providers : gmap rstr (list rstr))
    (package : LocalDbPackage) (relation : rstr) : gset rstr :=
  let target := dependency_base_name relation in
  if str_eqb target (name package) then ∅
  else
    (if bool_decide (is_Some (packages !! target)) then {[target]} else ∅) ∪
    list_to_set (List.filter (fun provider => negb (str_eqb provider (name package))) (default [] (providers !! target))).

Definition compute_required_names (packages : gmap rstr LocalDbPackage) : gset rstr :=
  let providers := provider_names packages in
  foldl (fun required package =>
    foldl (fun required relation => required ∪ require_target packages providers package relation) required
      (depends package ++ optdepends package)) ∅ (map_to_list packages).*2.

Definition is_orphan_package (explicit unrequired : bool) : bool := negb explicit && unrequired.

(** One round of the loop: installed, explicitly installed and orphaned. *)
Definition count_package (required : gset rstr) (counts : nat * nat * nat) (entry : rstr * LocalDbPackage)
  : nat * nat * nat :=
  let '(total, n_explicit, orphans) := counts in
  let '(name, package) := entry in
  if explicit package then (total, S n_explicit, orphans)
  else if is_orphan_package (explicit package) (negb (bool_decide (name ∈ required)))
       then (total, n_explicit, S orphans)
       else (total, n_explicit, orphans).

Definition get_counts_fast (packages : gmap rstr LocalDbPackage) : nat * nat * nat :=
  foldl (count_package (compute_required_names packages)) (size packages, 0%nat, 0%nat) (map_to_list packages).

Definition get_explicit_count (packages : gmap rstr LocalDbPackage) : nat := (get_counts_fast packages).1.2.

(** * Updates and foreign packages *)

Record SyncDbPackage := {
  sync_name : rstr;
  sync_version : Version;
  sync_repo : rstr;
  sync_groups : list rstr
}.

Record CachedUpdate := {
  update_name : rstr;
  old_version : Version;
  new_version : Version;
  update_repo : rstr
}.

(** [ignored_package] and [ignored_group] are the compiled patterns. *)
Context (ignored_package ignored_group : rstr -> bool).

Definition sync_package_is_ignored (package : SyncDbPackage) : bool :=
  ignored_package (sync_name package) || existsb ignored_group (sync_groups package).

Definition pending_update (sync : gmap rstr SyncDbPackage) (entry : rstr * LocalDbPackage) : option CachedUpdate :=
  let '(name, local_pkg) := entry in
  match sync !! name with
  | None => None
  | Some sync_pkg =>
      if sync_package_is_ignored sync_pkg then None
      else match compare_versions (version local_pkg) (sync_version sync_pkg) with
           | Lt => Some {| update_name := name; old_version := version local_pkg;
                           new_version := sync_version sync_pkg; update_repo := sync_repo sync_pkg |}
           | _ => None
           end
  end.

Definition check_updates_cached (local : gmap rstr LocalDbPackage) (sync : gmap rstr SyncDbPackage) : list CachedUpdate :=
  omap (pending_update sync) (map_to_list local).

Definition get_potential_aur_packages (local : gmap rstr LocalDbPackage) (sync : gmap rstr SyncDbPackage) : list rstr :=
  List.filter (fun name => negb (bool_decide (is_Some (sync !! name)))) (map_to_list local).*1.
End local.
