(* ===== verification/PacmanLocalProofs.v ===== *)
(** The local database of pacman: proofs on [PacmanLocal]. *)

From S2P Require Import Prelude PacmanLocal.
Open Scope Z_scope.
Open Scope omg_scope.

(** * Tables of lists *)

Lemma elem_of_values {A} (m : gmap rstr A) (x : A) : x ∈ (map_to_list m).*2 <-> exists k, m !! k = Some x.
Proof.
  rewrite list_elem_of_fmap. split.
  - intros ([k y] & -> & H). apply elem_of_map_to_list in H. by exists k.
  - intros [k H]. exists (k, x). split; [done|]. by apply elem_of_map_to_list.
Qed.

(** Appending to the list of a key. *)
Lemma elem_of_pushed {A} (m : gmap rstr (list A)) (k k' : rstr) (x y : A) :
  y ∈ default [] (<[k := default [] (m !! k) ++ [x]]> m !! k') <->
  y ∈ default [] (m !! k') \/ (k' = k /\ y = x).
Proof.
  destruct (decide (k' = k)) as [->|Hne].
  - rewrite lookup_insert_eq. simpl. rewrite elem_of_app, list_elem_of_singleton. naive_solver.
  - rewrite lookup_insert_ne by done. naive_solver.
Qed.

Section local.
Context {Version : Type} (version_of : rstr -> option Version) (version_text : Version -> rstr).
Context (vercmp : rstr -> rstr -> comparison) (is_relation : rstr -> bool).
Implicit Types packages : gmap rstr (LocalDbPackage (Version := Version)).

(** * Unsatisfied dependencies *)

(** A provision of an installed package that counts for a relation. *)
Definition Provided packages (required provider : HealthRelation) : Prop :=
  exists key package raw, packages !! key = Some package /\ raw ∈ provides package /\
    health_relation is_relation raw = Ok provider /\ exact_provision provider = true /\
    rel_name provider = rel_name required.

(** A dependency holds when a package of its name is installed in an accepted
    version, or when an installed package provides it in an accepted one. *)
Definition Satisfied packages (raw : rstr) : Prop :=
  exists required, health_relation is_relation raw = Ok required /\
    ((exists package, packages !! rel_name required = Some package /\
        accepts vercmp required (Some (version_text (version package))) = true) \/
     (exists provider, Provided packages required provider /\ accepts vercmp required (rel_version provider) = true)).

Lemma add_provision_elem provided raw n r :
  r ∈ default [] (add_provision is_relation provided raw !! n) <->
  r ∈ default [] (provided !! n) \/
  (health_relation is_relation raw = Ok r /\ exact_provision r = true /\ rel_name r = n).
Proof.
  unfold add_provision. destruct (health_relation is_relation raw) as [relation|e].
  2: { split; [by left|]. by intros [?|(? & _)]. }
  destruct (exact_provision relation) eqn:He.
  - rewrite elem_of_pushed. split; [intros [?|[-> ->]]; [by left|by right]|].
    intros [?|([= <-] & _ & <-)]; [by left|by right].
  - split; [by left|]. intros [?|([= <-] & ? & _)]; [done|congruence].
Qed.

Lemma fold_provisions_elem raws provided n r :
  r ∈ default [] (foldl (add_provision is_relation) provided raws !! n) <->
  r ∈ default [] (provided !! n) \/
  exists raw, raw ∈ raws /\ health_relation is_relation raw = Ok r /\ exact_provision r = true /\ rel_name r = n.
Proof.
  revert provided. induction raws as [|raw raws IH]; intros provided; simpl.
  - split; [by left|]. intros [H|(raw & []%not_elem_of_nil & _)]. done.
  - rewrite IH, add_provision_elem. setoid_rewrite elem_of_cons. naive_solver.
Qed.

Lemma provisions_elem packages required provider :
  provider ∈ default [] (provisions is_relation packages !! rel_name required) <-> Provided packages required provider.
Proof.
  unfold provisions. rewrite fold_provisions_elem, lookup_empty. simpl. unfold Provided.
  setoid_rewrite list_elem_of_bind. setoid_rewrite elem_of_values. split.
  - intros [[]%not_elem_of_nil|(raw & (p & Hp & k & Hk) & H)]. exists k, p, raw. naive_solver.
  - intros (k & p & raw & Hk & Hp & H). right. exists raw. naive_solver.
Qed.

Lemma satisfied_spec packages raw :
  satisfied version_text vercmp is_relation packages (provisions is_relation packages) raw = true <-> Satisfied packages raw.
Proof.
  unfold satisfied, Satisfied. destruct (health_relation is_relation raw) as [required|e] eqn:Hr; [|naive_solver].
  rewrite orb_true_iff. split.
  - intros [H|H].
    + destruct (packages !! rel_name required) as [p|] eqn:Hp; [|done]. exists required. split; [done|]. left. by exists p.
    + destruct (provisions is_relation packages !! rel_name required) as [l|] eqn:Hl; [|done].
      apply existsb_exists in H as (provider & Hin & Ha). exists required. split; [done|]. right. exists provider.
      split; [|done]. apply provisions_elem. rewrite Hl. by apply list_elem_of_In.
  - intros (required' & [= <-] & [(p & -> & Ha)|(provider & Hp & Ha)]); [by left|right].
    apply provisions_elem in Hp. destruct (provisions is_relation packages !! rel_name required) as [l|]; [|set_solver].
    apply existsb_exists. exists provider. split; [by apply list_elem_of_In|done].
Qed.

Lemma unsatisfied_cmp_order : cmp_order always unsatisfied_cmp.
Proof.
  apply (cmp_order_lex always).
  - apply (cmp_order_key fst always), cmp_order_list.
  - apply (cmp_order_key snd always), cmp_order_list.
Qed.

(** the report of the dependency check is exact and in order: it names a
    dependency of an installed package if and only if no installed package of
    that name is in an accepted version and none provides it in one. *)
Theorem unsatisfied_report_is_exact packages :
  let report := unsatisfied_dependencies version_text vercmp is_relation packages in
  StronglySorted (cmp_le unsatisfied_cmp) report /\
  forall declaring dependency,
    (declaring, dependency) ∈ report <->
    exists key package, packages !! key = Some package /\ name package = declaring /\
      dependency ∈ depends package /\ ~ Satisfied packages dependency.
Proof.
  intros report. unfold report, unsatisfied_dependencies. split; [apply (sort_by_sorted _ unsatisfied_cmp_order)|].
  intros declaring dependency. rewrite (sort_by_perm _). rewrite list_elem_of_bind. setoid_rewrite elem_of_values.
  unfold missing_of. split.
  - intros (p & Hin & k & Hk). apply list_elem_of_fmap in Hin as (d & [= -> ->] & Hd).
    apply list_elem_of_In, filter_In in Hd as [Hd Hs%negb_true_iff]. exists k, p.
    split_and!; [done|done|by apply list_elem_of_In|]. rewrite <- satisfied_spec, Hs. done.
  - intros (k & p & Hk & <- & Hd & Hs). exists p. split; [|by exists k]. apply list_elem_of_fmap. exists dependency.
    split; [done|]. apply list_elem_of_In, filter_In. split; [by apply list_elem_of_In|]. apply negb_true_iff.
    apply not_true_iff_false. by rewrite satisfied_spec.
Qed.
End local.

(** * Required packages *)

Section required.
Context {Version : Type}.
Implicit Types packages : gmap rstr (LocalDbPackage (Version := Version)).

(** [relation], declared by a package, asks for the installed package [n]: by
    its name or through one of its provisions. *)
Definition Meets packages (relation n : rstr) : Prop :=
  exists package, packages !! n = Some package /\
    (dependency_base_name relation = n \/
     exists provision, provision ∈ provides package /\ dependency_base_name provision = dependency_base_name relation).

(** Another installed package requires [n], or optionally requires it. *)
Definition RequiredByOther packages (n : rstr) : Prop :=
  exists key package relation, packages !! key = Some package /\ key ≠ n /\
    relation ∈ depends package ++ optdepends package /\ dependency_base_name relation ≠ key /\ Meets packages relation n.

(** Every package is filed under its own name. *)
Definition keyed packages : Prop := forall key package, packages !! key = Some package -> name package = key.

Lemma add_providers_elem provisions providers (owner target n : rstr) :
  n ∈ default [] (foldl (fun providers provision => add_provider_name providers provision owner) providers provisions !! target) <->
  n ∈ default [] (providers !! target) \/
  (n = owner /\ exists provision, provision ∈ provisions /\ dependency_base_name provision = target).
Proof.
  revert providers. induction provisions as [|p ps IH]; intros providers; simpl.
  - split; [by left|]. intros [H|(_ & q & []%not_elem_of_nil & _)]. done.
  - rewrite IH. unfold add_provider_name. rewrite elem_of_pushed. setoid_rewrite elem_of_cons. split.
    + intros [[?|[-> ->]]|(-> & q & Hq & Hb)]; [by left|right; split; [done|]; exists p; auto|right; split; [done|]; exists q; auto].
    + intros [?|(-> & q & [->|Hq] & <-)]; [by left; left|by left; right|]. right. split; [done|]. by exists q.
Qed.

Lemma provider_names_elem packages (target n : rstr) :
  n ∈ default [] (provider_names packages !! target) <->
  exists package provision, packages !! n = Some package /\ provision ∈ provides package /\
    dependency_base_name provision = target.
Proof.
  unfold provider_names.
  assert (H : forall l providers,
    n ∈ default [] (foldl (fun providers '(name, package) =>
      foldl (fun providers provision => add_provider_name providers provision name) providers (provides package))
      providers l !! target) <->
    n ∈ default [] (providers !! target) \/
    exists package provision, (n, package) ∈ l /\ provision ∈ provides (Version := Version) package /\
      dependency_base_name provision = target).
  { intros l. induction l as [|[k p] l IH]; intros providers; simpl.
    - split; [by left|]. intros [H|(? & ? & []%not_elem_of_nil & _)]. done.
    - rewrite IH, add_providers_elem. setoid_rewrite elem_of_cons. split.
      + intros [[?|(-> & q & Hq & Hb)]|(p' & q & Hp & Hq)]; [by left|right; exists p, q; auto|right; exists p', q; auto].
      + intros [?|(p' & q & [[= -> ->]|Hp] & Hq & Hb)]; [by left; left|left; right; split; [done|]; by exists q|].
        right. by exists p', q. }
  rewrite H, lookup_empty. simpl. setoid_rewrite elem_of_map_to_list. split; [|by right].
  by intros [[]%not_elem_of_nil|?].
Qed.

Lemma require_target_elem packages package relation n :
  n ∈ require_target packages (provider_names packages) package relation <->
  dependency_base_name relation ≠ name package /\ n ≠ name package /\ Meets packages relation n.
Proof.
  unfold require_target. destruct (str_eqb (dependency_base_name relation) (name package)) eqn:He.
  - apply bool_decide_eq_true in He. set_solver.
  - apply bool_decide_eq_false in He. rewrite elem_of_union, elem_of_list_to_set. unfold Meets. split.
    + intros [H|H].
      * case_bool_decide as Hs; [|set_solver]. apply elem_of_singleton in H as ->. destruct Hs as [p Hp].
        split_and!; [done|done|]. exists p. split; [done|by left].
      * apply list_elem_of_In, filter_In in H as [H Hn%negb_true_iff]. apply bool_decide_eq_false in Hn.
        apply list_elem_of_In, provider_names_elem in H as (p & q & Hp & Hq & Hb). split_and!; [done|done|].
        exists p. split; [done|]. right. by exists q.
    + intros (_ & Hn & p & Hp & [<-|(q & Hq & Hb)]).
      * left. rewrite bool_decide_eq_true_2 by by eexists. set_solver.
      * right. apply list_elem_of_In, filter_In. split; [|by apply negb_true_iff, bool_decide_eq_false].
        apply list_elem_of_In, provider_names_elem. by exists p, q.
Qed.

Lemma fold_union_elem {A} (f : A -> gset rstr) (l : list A) (start : gset rstr) (n : rstr) :
  n ∈ foldl (fun acc x => acc ∪ f x) start l <-> n ∈ start \/ exists x, x ∈ l /\ n ∈ f x.
Proof.
  revert start. induction l as [|x l IH]; intros start; simpl.
  - split; [by left|]. intros [H|(? & []%not_elem_of_nil & _)]. done.
  - rewrite IH, elem_of_union. setoid_rewrite elem_of_cons. naive_solver.
Qed.

Lemma compute_required_names_elem packages n :
  keyed packages -> n ∈ compute_required_names packages <-> RequiredByOther packages n.
Proof.
  intros Hk. unfold compute_required_names, RequiredByOther.
  assert (H : forall l start, n ∈ foldl (fun required package =>
      foldl (fun required relation => required ∪ require_target packages (provider_names packages) package relation) required
        (depends package ++ optdepends package)) start l <->
    n ∈ start \/ exists package relation, package ∈ l /\ relation ∈ depends package ++ optdepends package /\
      n ∈ require_target packages (provider_names packages) package relation).
  { intros l. induction l as [|p l IH]; intros start; simpl.
    - split; [by left|]. intros [H|(? & ? & []%not_elem_of_nil & _)]. done.
    - rewrite IH, fold_union_elem. setoid_rewrite elem_of_cons. split.
      + intros [[?|(r & Hr & Hn)]|(p' & r & Hp & Hr & Hn)]; [by left|right; exists p, r; auto|right; exists p', r; auto].
      + intros [?|(p' & r & [->|Hp] & Hr & Hn)]; [by left; left|left; right; by exists r|right; by exists p', r]. }
  rewrite H. setoid_rewrite require_target_elem. setoid_rewrite elem_of_values. split.
  - intros [Hn|(p & r & (k & Hp) & Hr & Hb & Hne & Hm)]; [set_solver|]. rewrite (Hk k p Hp) in *. by exists k, p, r.
  - intros (k & p & r & Hp & Hne & Hr & Hb & Hm). right. exists p, r. rewrite (Hk k p Hp). split; [by exists k|].
    split_and!; [done|done|done|done].
Qed.

(** ** Counts *)

Definition Orphan packages (n : rstr) : Prop :=
  exists package, packages !! n = Some package /\ explicit package = false /\ ~ RequiredByOther packages n.

Definition counts_of packages (l : list (rstr * LocalDbPackage (Version := Version))) : nat * nat :=
  (length (List.filter (fun '(_, p) => explicit p) l),
   length (List.filter (fun '(n, p) => negb (explicit p) && negb (bool_decide (n ∈ compute_required_names packages))) l)).

Lemma fold_counts packages l total n_explicit orphans :
  foldl (count_package (compute_required_names packages)) (total, n_explicit, orphans) l =
  (total, (n_explicit + (counts_of packages l).1)%nat, (orphans + (counts_of packages l).2)%nat).
Proof.
  revert n_explicit orphans. induction l as [|[n p] l IH]; intros n_explicit orphans.
  { simpl. by rewrite !Nat.add_0_r. }
  cbn [foldl counts_of List.filter]. unfold count_package at 2, is_orphan_package. destruct (explicit p) eqn:Hp; simpl.
  - rewrite IH. unfold counts_of. simpl. rewrite Hp. simpl. by rewrite Nat.add_succ_r.
  - unfold counts_of in *. simpl. rewrite Hp. simpl. destruct (bool_decide _); simpl; rewrite IH; [done|].
    simpl. by rewrite Nat.add_succ_r.
Qed.

Lemma length_filter_keys {A} (m : gmap rstr A) (f : rstr * A -> bool) (s : gset rstr) :
  (forall n, n ∈ s <-> exists x, m !! n = Some x /\ f (n, x) = true) ->
  length (List.filter f (map_to_list m)) = size s.
Proof.
  intros Hs.
  assert (Hs' : s = list_to_set (map fst (List.filter f (map_to_list m)))).
  { apply set_eq. intros n. rewrite Hs, elem_of_list_to_set, list_elem_of_fmap. split.
    - intros (x & Hm & Hf). exists (n, x). split; [done|]. apply list_elem_of_In, filter_In. split; [|done].
      by apply list_elem_of_In, elem_of_map_to_list.
    - intros ([n' x] & -> & H). apply list_elem_of_In, filter_In in H as [H Hf]. exists x. split; [|done].
      by apply list_elem_of_In, elem_of_map_to_list in H. }
  rewrite Hs', size_list_to_set, length_map; [done|]. clear Hs Hs'. pose proof (NoDup_fst_map_to_list m) as Hn.
  induction (map_to_list m) as [|[k x] l IH]; [done|]. simpl in *. apply NoDup_cons in Hn as [Hk Hn].
  destruct (f (k, x)); [|auto]. simpl. apply NoDup_cons. split; [|auto]. intros Hin. apply Hk.
  apply list_elem_of_fmap in Hin as ([k' x'] & -> & Hin). apply list_elem_of_In, filter_In in Hin as [Hin _].
  apply list_elem_of_fmap. exists (k', x'). split; [done|]. by apply list_elem_of_In.
Qed.

Lemma counts_spec packages (explicit_names orphan_names : gset rstr) :
  keyed packages ->
  (forall n, n ∈ explicit_names <-> exists package, packages !! n = Some package /\ explicit package = true) ->
  (forall n, n ∈ orphan_names <-> Orphan packages n) ->
  get_counts_fast packages = (size packages, size explicit_names, size orphan_names).
Proof.
  intros Hk He Ho. unfold get_counts_fast. rewrite fold_counts. simpl. f_equal; [f_equal|].
  - apply length_filter_keys. intros n. rewrite He. done.
  - apply length_filter_keys. intros n. rewrite Ho. unfold Orphan. split.
    + intros (p & Hp & Hf & Hr). exists p. split; [done|]. rewrite Hf. simpl. apply negb_true_iff, bool_decide_eq_false.
      by rewrite compute_required_names_elem.
    + intros (p & Hp & H). apply andb_prop in H as [Hf%negb_true_iff Hr%negb_true_iff]. apply bool_decide_eq_false in Hr.
      rewrite compute_required_names_elem in Hr by done. by exists p.
Qed.

Lemma parse_local_db_keyed (version_of : rstr -> option Version) desc_v1 desc_v2 entries :
  keyed (parse_local_db version_of desc_v1 desc_v2 entries).
Proof.
  unfold parse_local_db. assert (Hgen : forall start, keyed start -> keyed (foldl (fun packages file =>
    match parse_local_desc version_of desc_v1 desc_v2 file with
    | Ok package => if str_eqb (name package) [] then packages else <[name package := package]> packages
    | Err _ => packages
    end) start entries)).
  { induction entries as [|e es IH]; intros start Hs; [done|]. simpl. apply IH.
    destruct (parse_local_desc _ _ _ e) as [p|]; [|done]. destruct (str_eqb (name p) []); [done|].
    intros k q [[<- <-]|[_ Hq]]%lookup_insert_Some; [done|by apply Hs]. }
  apply Hgen. intros k p. by rewrite lookup_empty.
Qed.

(** the counts of the status line are exact: all packages of the local
    database, the explicitly installed ones, and the orphans, the packages
    installed as a dependency that no other installed package requires,
    optionally or not, by name or by what they provide. *)
Theorem counts_are_exact (version_of : rstr -> option Version)
    (desc_v1 desc_v2 : rstr -> option (LocalDbPackage (Version := Version))) (entries : list (option rstr))
    (explicit_names orphan_names : gset rstr) :
  let packages := parse_local_db version_of desc_v1 desc_v2 entries in
  (forall n, n ∈ explicit_names <-> exists package, packages !! n = Some package /\ explicit package = true) ->
  (forall n, n ∈ orphan_names <-> Orphan packages n) ->
  get_counts_fast packages = (size packages, size explicit_names, size orphan_names).
Proof. intros packages. apply counts_spec, parse_local_db_keyed. Qed.
End required.

(** * Descriptions *)

(** A field as pacman writes it: header, values, empty line. *)
Definition desc_section (header : string) (values : list rstr) : list rstr := str header :: values ++ [[]].

Definition optional (value : rstr) : list rstr := if str_eqb value [] then [] else [value].

Section descriptions.
Context {Version : Type} (version_of : rstr -> option Version) (version_text : Version -> rstr).
Implicit Types p : LocalDbPackage (Version := Version).

Definition desc_lines p : list rstr :=
  desc_section "%NAME%" [name p] ++ desc_section "%VERSION%" [version_text (version p)] ++
  desc_section "%DESC%" (optional (desc p)) ++ desc_section "%INSTALLDATE%" (optional (install_date p)) ++
  desc_section "%REASON%" [str (if explicit p then "0" else "1")] ++ desc_section "%LICENSE%" (licenses p) ++
  desc_section "%DEPENDS%" (depends p) ++ desc_section "%OPTDEPENDS%" (optdepends p) ++
  desc_section "%PROVIDES%" (provides p).

Definition render_desc p : rstr := desc_lines p ≫= fun line => line ++ [10].

(** A value that is one line of its own: visible at both ends, and no header. *)
Definition desc_value (v : rstr) : Prop :=
  visible_ends v /\ (10 ∉ v) /\ starts_with (str "%") v && ends_with (str "%") v = false.

Record writable p : Prop := {
  wr_name : desc_value (name p);
  wr_version : desc_value (version_text (version p));
  wr_version_text : version_of (version_text (version p)) = Some (version p);
  wr_desc : desc p = [] \/ desc_value (desc p);
  wr_date : install_date p = [] \/ desc_value (install_date p);
  wr_lists : Forall desc_value (licenses p ++ depends p ++ optdepends p ++ provides p)
}.

Lemma desc_value_line s field v :
  d_field s = Some field -> desc_value v -> desc_line s v = set_field s field v.
Proof.
  intros Hf (Hv & _ & Hh). unfold desc_line. rewrite trim_visible by done.
  assert (Hne : v ≠ []) by (intros ->; by destruct Hv as [(? & ? & [=] & _) _]).
  by rewrite (bool_decide_eq_false_2 _ Hne : str_eqb v [] = false), Hh, Hf.
Qed.

Lemma set_field_keeps s field v : d_field (set_field s field v) = d_field s.
Proof. unfold set_field. destruct s. by repeat (destruct (str_eqb field _); [done|]). Qed.

Lemma fold_section s header values :
  trim (str header) = str header -> starts_with (str "%") (str header) && ends_with (str "%") (str header) = true ->
  Forall desc_value values ->
  foldl desc_line s (desc_section header values) =
  at_field (foldl (fun s v => set_field s (str header) v) (at_field s (Some (str header))) values) None.
Proof.
  intros Ht Hh Hv. unfold desc_section. cbn [foldl]. unfold desc_line at 2. rewrite Ht, Hh.
  assert (Hne : str_eqb (str header) [] = false).
  { apply bool_decide_eq_false. intros E. rewrite E in Hh. done. }
  rewrite Hne, foldl_app. cbn [foldl].
  assert (Hf : forall s, d_field s = Some (str header) ->
    foldl desc_line s values = foldl (fun s v => set_field s (str header) v) s values).
  { induction Hv as [|v vs Hv _ IH]; intros s0 Hs0; [done|]. simpl. rewrite (desc_value_line _ (str header)) by done.
    apply IH. by rewrite set_field_keeps. }
  by rewrite Hf.
Qed.

Lemma optional_values v : v = [] \/ desc_value v -> Forall desc_value (optional v).
Proof.
  unfold optional. intros Hv. destruct (str_eqb v []) eqn:E; [constructor|]. apply bool_decide_eq_false in E.
  destruct Hv; [done|by apply Forall_singleton].
Qed.

(** What each field does to the scan. *)
Ltac section_step := intros; rewrite fold_section by (try done; try (by apply optional_values); by apply Forall_singleton);
  reflexivity.

Lemma section_name n v d i r ls ds os ps f x : desc_value x ->
  foldl desc_line (Build_DescScan n v d i r ls ds os ps f) (desc_section "%NAME%" [x]) = Build_DescScan x v d i r ls ds os ps None.
Proof. section_step. Qed.

Lemma section_version n v d i r ls ds os ps f x : desc_value x ->
  foldl desc_line (Build_DescScan n v d i r ls ds os ps f) (desc_section "%VERSION%" [x]) = Build_DescScan n x d i r ls ds os ps None.
Proof. section_step. Qed.

Lemma section_desc n v d i r ls ds os ps f x : desc_value x ->
  foldl desc_line (Build_DescScan n v d i r ls ds os ps f) (desc_section "%DESC%" [x]) = Build_DescScan n v x i r ls ds os ps None.
Proof. section_step. Qed.

Lemma section_date n v d i r ls ds os ps f x : desc_value x ->
  foldl desc_line (Build_DescScan n v d i r ls ds os ps f) (desc_section "%INSTALLDATE%" [x]) = Build_DescScan n v d x r ls ds os ps None.
Proof. section_step. Qed.

Lemma section_reason n v d i r ls ds os ps f x : desc_value x ->
  foldl desc_line (Build_DescScan n v d i r ls ds os ps f) (desc_section "%REASON%" [x]) = Build_DescScan n v d i x ls ds os ps None.
Proof. section_step. Qed.

Lemma section_licenses n v d i r ls ds os ps f xs : Forall desc_value xs ->
  foldl desc_line (Build_DescScan n v d i r ls ds os ps f) (desc_section "%LICENSE%" xs) = Build_DescScan n v d i r (ls ++ xs) ds os ps None.
Proof.
  intros Hxs. rewrite fold_section by done. cbn [at_field]. revert ls. clear Hxs.
  induction xs as [|x xs IH]; intros ls; cbn [foldl]; [by rewrite app_nil_r|]. etrans; [exact (IH (ls ++ [x]))|]. by rewrite <- app_assoc.
Qed.

Lemma section_depends n v d i r ls ds os ps f xs : Forall desc_value xs ->
  foldl desc_line (Build_DescScan n v d i r ls ds os ps f) (desc_section "%DEPENDS%" xs) = Build_DescScan n v d i r ls (ds ++ xs) os ps None.
Proof.
  intros Hxs. rewrite fold_section by done. cbn [at_field]. revert ds. clear Hxs.
  induction xs as [|x xs IH]; intros ds; cbn [foldl]; [by rewrite app_nil_r|]. etrans; [exact (IH (ds ++ [x]))|]. by rewrite <- app_assoc.
Qed.

Lemma section_optdepends n v d i r ls ds os ps f xs : Forall desc_value xs ->
  foldl desc_line (Build_DescScan n v d i r ls ds os ps f) (desc_section "%OPTDEPENDS%" xs) = Build_DescScan n v d i r ls ds (os ++ xs) ps None.
Proof.
  intros Hxs. rewrite fold_section by done. cbn [at_field]. revert os. clear Hxs.
  induction xs as [|x xs IH]; intros os; cbn [foldl]; [by rewrite app_nil_r|]. etrans; [exact (IH (os ++ [x]))|]. by rewrite <- app_assoc.
Qed.

Lemma section_provides n v d i r ls ds os ps f xs : Forall desc_value xs ->
  foldl desc_line (Build_DescScan n v d i r ls ds os ps f) (desc_section "%PROVIDES%" xs) = Build_DescScan n v d i r ls ds os (ps ++ xs) None.
Proof.
  intros Hxs. rewrite fold_section by done. cbn [at_field]. revert ps. clear Hxs.
  induction xs as [|x xs IH]; intros ps; cbn [foldl]; [by rewrite app_nil_r|]. etrans; [exact (IH (ps ++ [x]))|]. by rewrite <- app_assoc.
Qed.

Lemma section_empty s header : trim (str header) = str header ->
  starts_with (str "%") (str header) && ends_with (str "%") (str header) = true ->
  foldl desc_line s (desc_section header []) = at_field s None.
Proof. intros H1 H2. by rewrite fold_section. Qed.

Definition scan_of p (reason : rstr) : DescScan :=
  {| d_name := name p; d_version := version_text (version p); d_desc := desc p; d_install_date := install_date p;
     d_reason := reason; d_licenses := licenses p; d_depends := depends p; d_optdepends := optdepends p;
     d_provides := provides p; d_field := None |}.

Lemma reason_value (b : bool) : desc_value (str (if b then "0" else "1")).
Proof.
  destruct b; (split_and!; [split; [by eexists _, []; split|by eexists [], _; split]|by apply (bool_decide_unpack _)|done]).
Qed.

Lemma scan_desc_lines p :
  writable p -> foldl desc_line desc_start (desc_lines p) = scan_of p (str (if explicit p then "0" else "1")).
Proof.
  intros [Hn Hv Hvt Hd Hi Hl]. rewrite !Forall_app in Hl. destruct Hl as (Hl1 & Hl2 & Hl3 & Hl4).
  pose proof (reason_value (explicit p)) as Hr.
  assert (Hopt : forall (s s' : DescScan) header v, trim (str header) = str header ->
    starts_with (str "%") (str header) && ends_with (str "%") (str header) = true -> v = [] \/ desc_value v ->
    (v = [] -> at_field s None = s') -> (desc_value v -> foldl desc_line s (desc_section header [v]) = s') ->
    foldl desc_line s (desc_section header (optional v)) = s').
  { intros s s' header v H1 H2 Hval H3 H4. unfold optional. destruct (str_eqb v []) eqn:E.
    - apply bool_decide_eq_true in E. rewrite section_empty by done. by apply H3.
    - apply bool_decide_eq_false in E. destruct Hval; [done|by apply H4]. }
  unfold desc_lines, desc_start. rewrite !foldl_app, section_name, section_version by done.
  rewrite (Hopt _ (Build_DescScan (name p) (version_text (version p)) (desc p) [] [] [] [] [] [] None) "%DESC%"%string (desc p));
    [|done|done|done|by intros ->|intros ?; by apply section_desc].
  rewrite (Hopt _ (Build_DescScan (name p) (version_text (version p)) (desc p) (install_date p) [] [] [] [] [] None)
    "%INSTALLDATE%"%string (install_date p));
    [|done|done|done|by intros ->|intros ?; by apply section_date].
  by rewrite section_reason, section_licenses, section_depends, section_optdepends, section_provides by done.
Qed.

Lemma desc_line_text p : writable p -> Forall (fun l => (10 ∉ l) /\ strip_cr l = l) (desc_lines p).
Proof.
  intros [Hn Hv Hvt Hd Hi Hl]. rewrite !Forall_app in Hl. destruct Hl as (Hl1 & Hl2 & Hl3 & Hl4).
  assert (Hval : forall v, desc_value v -> (10 ∉ v) /\ strip_cr v = v).
  { intros v (Hvis & Hnl & _). split; [done|by apply strip_cr_visible]. }
  assert (Hsec : forall header values, (10 ∉ str header) -> strip_cr (str header) = str header ->
    Forall desc_value values -> Forall (fun l => (10 ∉ l) /\ strip_cr l = l) (desc_section header values)).
  { intros header values H1 H2 Hvs. unfold desc_section. constructor; [done|]. apply Forall_app. split.
    - eapply Forall_impl; [exact Hvs|]. exact Hval.
    - repeat constructor. set_solver. }
  pose proof (reason_value (explicit p)) as Hr.
  assert (Hone : forall v, desc_value v -> Forall desc_value [v]) by (intros; by apply Forall_singleton).
  unfold desc_lines. rewrite !Forall_app.
  split_and!; apply Hsec; try done; try (by apply optional_values); try (by apply Hone); try (by apply not_elem_of_cons; vm_compute);
    by apply (bool_decide_unpack _); vm_compute.
Qed.

(** reading the description of an installed package gives back what was
    written: name, version, texts, reason and lists, for every package whose
    values are lines of their own. *)
Theorem local_desc_roundtrip p :
  writable p -> parse_local_desc_manual version_of (render_desc p) = Ok p.
Proof.
  intros Hw. unfold parse_local_desc_manual, render_desc. rewrite byte_lines_unlines by (by apply desc_line_text).
  rewrite scan_desc_lines by done. destruct Hw as [(Hn & _) _ Hvt _ _ _]. cbn [scan_of d_name d_reason d_version].
  assert (Hne : name p ≠ []) by (intros E; rewrite E in Hn; by destruct Hn as [(? & ? & [=] & _) _]).
  rewrite (bool_decide_eq_false_2 _ Hne : str_eqb (name p) [] = false). cbn [negb ensure res_bind].
  assert (Hr : explicit_reason (str (if explicit p then "0" else "1")) = Ok (explicit p)) by (by destruct (explicit p)).
  rewrite Hr. cbn [res_bind]. rewrite Hvt. simpl. by destruct p.
Qed.
End descriptions.

(** * Witnesses *)

Definition sample_local (n : string) (is_explicit : bool) (needs : list rstr) : LocalDbPackage (Version := rstr) :=
  {| name := str n; version := str "1.0-1"; desc := []; install_date := []; licenses := [str "MIT"];
     explicit := is_explicit; depends := needs; optdepends := []; provides := [] |}.

Definition local_entries : list (option rstr) :=
  [Some (render_desc (fun v => v) (sample_local "app" true [str "lib>=1"]));
   Some (render_desc (fun v => v) (sample_local "lib" false []));
   Some (render_desc (fun v => v) (sample_local "old" false [])); None].

Abbreviation local_packages :=
  (parse_local_db (Version := rstr) Some (fun _ => None) (fun _ => None) local_entries) (only parsing).

Lemma local_packages_eq :
  local_packages = {[str "app" := sample_local "app" true [str "lib>=1"]; str "lib" := sample_local "lib" false [];
                     str "old" := sample_local "old" false []]}.
Proof. vm_compute. reflexivity. Qed.

Lemma local_desc_roundtrip_witness :
  parse_local_desc_manual Some (render_desc (fun v => v) (sample_local "app" true [str "lib>=1"]))
  = Ok (sample_local "app" true [str "lib>=1"]).
Proof.
  apply (local_desc_roundtrip Some (fun v => v)).
  assert (H : forall s, visible_ends s -> (10 ∉ s) -> starts_with (str "%") s && ends_with (str "%") s = false -> desc_value s)
    by (intros; by split_and!).
  split; simpl; try (by left).
  - apply H; [by apply visible_ends_compute|by apply (bool_decide_unpack _)|done].
  - apply H; [by apply visible_ends_compute|by apply (bool_decide_unpack _)|done].
  - done.
  - apply Forall_cons. split; [|apply Forall_singleton];
      (apply H; [by apply visible_ends_compute|by apply (bool_decide_unpack _)|done]).
Defined.

Lemma local_required : compute_required_names local_packages = {[str "lib"]}.
Proof. vm_compute. reflexivity. Qed.

Lemma local_sizes :
  (size local_packages, size ({[str "app"]} : gset rstr), size ({[str "old"]} : gset rstr)) = (3%nat, 1%nat, 1%nat).
Proof. vm_compute. reflexivity. Qed.

Lemma counts_are_exact_witness :
  get_counts_fast local_packages = (3%nat, 1%nat, 1%nat) /\ Orphan local_packages (str "old").
Proof.
  pose proof local_required as Hreq.
  assert (Hkeyed : keyed local_packages) by apply parse_local_db_keyed.
  assert (Hlook : forall n p, local_packages !! n = Some p <->
    n = str "app" /\ p = sample_local "app" true [str "lib>=1"] \/ n = str "lib" /\ p = sample_local "lib" false [] \/
    n = str "old" /\ p = sample_local "old" false []).
  { intros n p. rewrite local_packages_eq. split; [|by intros [[-> ->]|[[-> ->]|[-> ->]]]].
    intros [[<- <-]|[_ [[<- <-]|[_ [<- <-]%lookup_singleton_Some]]%lookup_insert_Some]]%lookup_insert_Some; auto. }
  assert (Horph : forall n, n ∈ ({[str "old"]} : gset rstr) <-> Orphan local_packages n).
  { intros n. rewrite elem_of_singleton. split.
    - intros ->. exists (sample_local "old" false []). split_and!; [apply Hlook; auto|done|].
      rewrite <- compute_required_names_elem, Hreq by done. by intros ?%elem_of_singleton.
    - intros (p & [[-> ->]|[[-> ->]|[-> ->]]]%Hlook & He & Hn); [done| |done]. exfalso. apply Hn.
      apply compute_required_names_elem; [done|]. rewrite Hreq. by apply elem_of_singleton. }
  split; [|by apply Horph, elem_of_singleton].
  assert (Hexp : forall n, n ∈ ({[str "app"]} : gset rstr) <->
    exists package, local_packages !! n = Some package /\ explicit package = true).
  { intros n. rewrite elem_of_singleton. split.
    - intros ->. exists (sample_local "app" true [str "lib>=1"]). split; [apply Hlook; auto|done].
    - by intros (p & [[-> ->]|[[-> ->]|[-> ->]]]%Hlook & He). }
  pose proof (counts_are_exact Some (fun _ => None) (fun _ => None) local_entries {[str "app"]} {[str "old"]} Hexp Horph) as H.
  etrans; [exact H|]. exact local_sizes.
Defined.
