(* ===== verification/EnvFingerprint.v ===== *)
(** Environment fingerprints and team status:
    src/src/core/env/fingerprint.rs and src/src/core/env/team.rs.

    A captured environment (runtimes and explicitly installed packages), its
    hash, the lock file that carries it, the drift report, and the status of a
    team member against the team's lock. The TOML crate and SHA-256 are the
    interface [Lockfile]; the probes of the machine are arguments. A
    [BTreeMap] is a finite map together with its iteration in key order. *)

From S2P Require Import Prelude.
Open Scope Z_scope.
Open Scope omg_scope.

Record EnvironmentState := {
  schema_version : Z;
  runtimes : gmap rstr rstr;
  packages : list rstr;
  timestamp : Z;
  hash : rstr
}.

Definition SCHEMA_VERSION : Z := 1.

Definition default_schema_version : Z := SCHEMA_VERSION.

(** Iteration over a [BTreeMap]: by key. *)
Definition by_key (a b : rstr * rstr) : comparison := list_cmp a.1 b.1.

Definition iter (m : gmap rstr rstr) : list (rstr * rstr) := sort_by by_key (map_to_list m).

(** [collect] into a [BTreeMap]: the last binding of a key stays. *)
Definition collect (l : list (rstr * rstr)) : gmap rstr rstr :=
  foldl (fun m kv => <[kv.1 := kv.2]> m) ∅ l.

(** * Normal form and hash *)

Definition normalized_parts (self : EnvironmentState) : list (rstr * rstr) * list rstr :=
  let runtimes := sort_by by_key (map (fun '(k, v) => (trim k, trim v)) (iter (runtimes self))) in
  let packages := List.filter (fun pkg => negb (bool_decide (pkg = []))) (map trim (packages self)) in
  (runtimes, dedup (sort_strs packages)).

Definition normalize (self : EnvironmentState) : EnvironmentState :=
  let '(rs, ps) := normalized_parts self in
  {| schema_version := schema_version self; runtimes := collect rs; packages := ps;
     timestamp := timestamp self; hash := hash self |}.

Definition set_hash (h : rstr) (self : EnvironmentState) : EnvironmentState :=
  {| schema_version := schema_version self; runtimes := runtimes self; packages := packages self;
     timestamp := timestamp self; hash := h |}.

Definition set_schema_version (v : Z) (self : EnvironmentState) : EnvironmentState :=
  {| schema_version := v; runtimes := runtimes self; packages := packages self;
     timestamp := timestamp self; hash := hash self |}.

(** The bytes given to the hasher, in order. *)
Definition hash_input (self : EnvironmentState) : list Z :=
  let '(rs, ps) := normalized_parts self in
  (rs ≫= fun '(key, value) => as_bytes key ++ as_bytes (str ":") ++ as_bytes value ++ as_bytes (str ";"))
  ++ (ps ≫= fun pkg => as_bytes pkg ++ as_bytes (str ";")).

(** * What the lock file needs from other crates *)

Class Lockfile := {
  (** [hex::encode] of the SHA-256 digest. *)
  sha256_hex : list Z -> rstr;
  (** [toml::to_string_pretty], [toml::from_str]; [None] is an error. *)
  to_string_pretty : EnvironmentState -> option rstr;
  from_str : rstr -> option EnvironmentState;
  (** The document as a [toml::Value]: [None] when it does not parse, else its
      [schema_version] when that is an integer. *)
  raw_schema_version : rstr -> option (option Z)
}.

(** A serialized state is a string, parses to the same state, and shows its
    schema version; a digest in hexadecimal has characters. *)
Class LockfileLaws (L : Lockfile) : Prop := {
  serialized_valid s text : to_string_pretty s = Some text -> valid_str text;
  serialized_parses s text : to_string_pretty s = Some text -> from_str text = Some s;
  serialized_schema s text : to_string_pretty s = Some text -> raw_schema_version text = Some (Some (schema_version s));
  digest_nonempty bytes : sha256_hex bytes ≠ []
}.

Section lockfile.
Context `{L : Lockfile}.

Definition calculate_hash (self : EnvironmentState) : rstr := sha256_hex (hash_input self).

Inductive LockError :=
| NewerSchema (file_version : Z)
| Malformed
| Serialization
| IntegrityCheckFailed
| LockNotFound
| NotRegularFile
| LockTooLarge
| NotUtf8.

(** [capture] from what the probes of the machine return. *)
Definition capture (probed : list (rstr * rstr)) (explicit_packages : list rstr) (now : Z) : EnvironmentState :=
  let state := {| schema_version := SCHEMA_VERSION; runtimes := collect (map (fun '(k, v) => (k, trim v)) probed);
                  packages := explicit_packages; timestamp := now; hash := [] |} in
  let state := normalize state in
  set_hash (calculate_hash state) state.

(** [save]: the bytes that [write_lockfile] stores. *)
Definition save (self : EnvironmentState) : result (list Z) LockError :=
  let normalized := set_schema_version SCHEMA_VERSION self in
  let normalized := normalize normalized in
  let normalized := set_hash (calculate_hash normalized) normalized in
  let? content := ok_or (to_string_pretty normalized) Serialization in
  Ok (as_bytes content).

Definition parse_lockfile (content : rstr) : result EnvironmentState LockError :=
  let? _ := match raw_schema_version content with
            | Some raw =>
                let file_version := default SCHEMA_VERSION raw in
                ensure (negb (SCHEMA_VERSION <? file_version)) (NewerSchema file_version)
            | None => Ok tt
            end in
  let? state := ok_or (from_str content) Malformed in
  let stored_hash := hash state in
  let state := normalize state in
  let calculated_hash := calculate_hash state in
  let? _ := ensure (str_eqb stored_hash calculated_hash) IntegrityCheckFailed in
  Ok (set_hash calculated_hash state).

Inductive LockNode := LockFile (bytes : list Z) | OtherNode.

Definition MAX_LOCKFILE_BYTES : Z := 16 * 1024 * 1024.

Definition read_lockfile (node : option LockNode) : result rstr LockError :=
  match node with
  | None => Err LockNotFound
  | Some OtherNode => Err NotRegularFile
  | Some (LockFile bytes) =>
      let? _ := ensure (Z.of_nat (length bytes) <=? MAX_LOCKFILE_BYTES) LockTooLarge in
      ok_or (decode_utf8 bytes) NotUtf8
  end.

Definition load (node : option LockNode) : result EnvironmentState LockError :=
  let? content := read_lockfile node in
  parse_lockfile content.
End lockfile.

(** * Drift *)

Record DriftReport := {
  has_drift : bool;
  missing_runtimes : list rstr;
  different_runtimes : list (rstr * rstr * rstr);
  extra_runtimes : list rstr;
  missing_packages : list rstr;
  extra_packages : list rstr
}.

Definition no_drift : DriftReport :=
  {| has_drift := false; missing_runtimes := []; different_runtimes := []; extra_runtimes := [];
     missing_packages := []; extra_packages := [] |}.

Section compare.
Variables expected actual : EnvironmentState.

Definition check_runtime (r : DriftReport) (kv : rstr * rstr) : DriftReport :=
  let '(name, ver) := kv in
  match runtimes actual !! name with
  | Some actual_ver =>
      if decide (ver = actual_ver) then r
      else {| has_drift := true; missing_runtimes := missing_runtimes r;
              different_runtimes := different_runtimes r ++ [(name, ver, actual_ver)];
              extra_runtimes := extra_runtimes r; missing_packages := missing_packages r;
              extra_packages := extra_packages r |}
  | None =>
      {| has_drift := true; missing_runtimes := missing_runtimes r ++ [name];
         different_runtimes := different_runtimes r; extra_runtimes := extra_runtimes r;
         missing_packages := missing_packages r; extra_packages := extra_packages r |}
  end.

Definition check_extra_runtime (r : DriftReport) (name : rstr) : DriftReport :=
  if decide (is_Some (runtimes expected !! name)) then r
  else {| has_drift := true; missing_runtimes := missing_runtimes r; different_runtimes := different_runtimes r;
          extra_runtimes := extra_runtimes r ++ [name]; missing_packages := missing_packages r;
          extra_packages := extra_packages r |}.

Definition check_package (r : DriftReport) (pkg : rstr) : DriftReport :=
  if decide (pkg ∈ packages actual) then r
  else {| has_drift := true; missing_runtimes := missing_runtimes r; different_runtimes := different_runtimes r;
          extra_runtimes := extra_runtimes r; missing_packages := missing_packages r ++ [pkg];
          extra_packages := extra_packages r |}.

Definition check_extra_package (r : DriftReport) (pkg : rstr) : DriftReport :=
  if decide (pkg ∈ packages expected) then r
  else {| has_drift := true; missing_runtimes := missing_runtimes r; different_runtimes := different_runtimes r;
          extra_runtimes := extra_runtimes r; missing_packages := missing_packages r;
          extra_packages := extra_packages r ++ [pkg] |}.

Definition compare : DriftReport :=
  let report := foldl check_runtime no_drift (iter (runtimes expected)) in
  let report := foldl check_extra_runtime report (iter (runtimes actual)).*1 in
  let report := foldl check_package report (packages expected) in
  foldl check_extra_package report (packages actual).
End compare.

(** * Team status *)

Record TeamConfig := {
  team_id : rstr;
  team_name : rstr;
  member_id : rstr;
  remote_url : option rstr;
  auto_push : bool
}.

Record TeamMember := {
  id : rstr;
  name : rstr;
  env_hash : rstr;
  last_sync : Z;
  in_sync : bool;
  drift_summary : option rstr
}.

Record TeamStatus := {
  format_version : Z;
  config : TeamConfig;
  lock_hash : rstr;
  members : list TeamMember;
  updated_at : Z
}.

Definition STATUS_FORMAT_VERSION : Z := 1.

Definition in_sync_count (status : TeamStatus) : Z :=
  Z.of_nat (length (List.filter in_sync (members status))).

Inductive TeamError :=
| NoConfig
| NoStatus
| NewerStatus (version : Z)
| DifferentTeam
| AlreadyInitialized
| LockFailed (e : LockError)
| NotAWorkspace.

(** The files of a workspace: [team.toml], the status snapshot (each [None]
    when it is missing or does not parse) and [omg.lock]. *)
Record Workspace := {
  config_file : option TeamConfig;
  status_file : option TeamStatus;
  lock_file : option LockNode
}.

(** [iter_mut().find(..)] or [push]. *)
Fixpoint upsert_member (member : TeamMember) (l : list TeamMember) : list TeamMember :=
  match l with
  | [] => [member]
  | m :: l' => if decide (id m = id member) then member :: l' else m :: upsert_member member l'
  end.

Definition load_status (w : Workspace) : result TeamStatus TeamError :=
  let? status := ok_or (status_file w) NoStatus in
  let? _ := ensure (negb (STATUS_FORMAT_VERSION <? format_version status)) (NewerStatus (format_version status)) in
  let? conf := ok_or (config_file w) NoConfig in
  let? _ := ensure (str_eqb (team_id (config status)) (team_id conf)) DifferentTeam in
  Ok {| format_version := format_version status; config := conf; lock_hash := lock_hash status;
        members := members status; updated_at := updated_at status |}.

Section team.
Context `{L : Lockfile}.

Definition out_of_sync_text : rstr := str "Environment differs from team lock".

(** [update_status], with the captured environment, the name of the user and
    the clock. *)
Definition update_status (w : Workspace) (current_env : EnvironmentState) (user : rstr) (now : Z)
  : result (TeamStatus * Workspace) TeamError :=
  let? conf := ok_or (config_file w) NoConfig in
  let? lock_hash := match lock_file w with
                    | Some _ => let? lock := map_err LockFailed (load (lock_file w)) in Ok (hash lock)
                    | None => Ok []
                    end in
  let in_sync := bool_decide (lock_hash = []) || str_eqb (hash current_env) lock_hash in
  let member := {| id := member_id conf; name := user; env_hash := hash current_env; last_sync := now;
                   in_sync := in_sync; drift_summary := if in_sync then None else Some out_of_sync_text |} in
  let? status := load_status w in
  let status := {| format_version := format_version status; config := config status; lock_hash := lock_hash;
                   members := upsert_member member (members status); updated_at := now |} in
  Ok (status, {| config_file := config_file w; status_file := Some status; lock_file := lock_file w |}).

(** [init], in a directory without a configuration loaded. *)
Definition init (w : Workspace) (team team_display user_id user : rstr) (now : Z) : result Workspace TeamError :=
  match config_file w with
  | Some _ => Err AlreadyInitialized
  | None =>
      let conf := {| team_id := team; team_name := team_display; member_id := user_id;
                     remote_url := None; auto_push := false |} in
      let status := {| format_version := STATUS_FORMAT_VERSION; config := conf; lock_hash := [];
                       members := [{| id := user_id; name := user; env_hash := []; last_sync := now;
                                      in_sync := true; drift_summary := None |}];
                       updated_at := now |} in
      Ok {| config_file := Some conf; status_file := Some status; lock_file := lock_file w |}
  end.

(** [push] captures and saves, then updates the status, which captures again. *)
Definition push (w : Workspace) (state current_env : EnvironmentState) (user : rstr) (now : Z)
  : result Workspace TeamError :=
  let? _ := ok_or (config_file w) NotAWorkspace in
  let? bytes := map_err LockFailed (save state) in
  let w := {| config_file := config_file w; status_file := status_file w; lock_file := Some (LockFile bytes) |} in
  let? updated := update_status w current_env user now in
  Ok updated.2.

(** [pull] after the remote has been fetched. *)
Definition pull (w : Workspace) (current_env : EnvironmentState) (user : rstr) (now : Z)
  : result (bool * Workspace) TeamError :=
  let? conf := ok_or (config_file w) NotAWorkspace in
  let? updated := update_status w current_env user now in
  let member := List.find (fun m => str_eqb (id m) (member_id conf)) (members updated.1) in
  Ok (match member with Some m => in_sync m | None => false end, updated.2).
End team.
