(* ===== verification/EnvFingerprintProofs.v ===== *)
(** Correctness of [EnvFingerprint]: the normal form, lock file round trips,
    the drift report, and the agreement of hash and report. *)

From S2P Require Import Prelude EnvFingerprint.
Open Scope Z_scope.
Open Scope omg_scope.

(** * Maps in key order *)

Lemma by_key_order : cmp_order always by_key.
Proof. apply (cmp_order_key fst _ _ cmp_order_list). Qed.

Lemma iter_perm (m : gmap rstr rstr) : iter m ≡ₚ map_to_list m.
Proof. apply sort_by_perm. Qed.

Lemma elem_of_iter (m : gmap rstr rstr) (k v : rstr) : (k, v) ∈ iter m <-> m !! k = Some v.
Proof. by rewrite iter_perm, elem_of_map_to_list. Qed.

Lemma iter_NoDup (m : gmap rstr rstr) : NoDup (iter m).*1.
Proof. rewrite (iter_perm m). apply NoDup_fst_map_to_list. Qed.

Lemma collect_iter (m : gmap rstr rstr) : collect (iter m) = m.
Proof.
  unfold collect. rewrite foldl_insert_list_to_map.
  - rewrite (right_id_L ∅ (∪)). rewrite (list_to_map_proper (iter m) (map_to_list m)).
    + apply list_to_map_to_list.
    + apply iter_NoDup.
    + apply iter_perm.
  - apply iter_NoDup.
  - intros kv _. apply lookup_empty.
Qed.

Lemma sort_iter (m : gmap rstr rstr) : sort_by by_key (iter m) = iter m.
Proof.
  apply (sort_by_unique _ by_key_order).
  - intros [k v] [k' v'] H1 H2 E. apply list_cmp_eq in E. simpl in E. subst k'.
    rewrite elem_of_iter in H1, H2. by simplify_eq.
  - apply (sort_by_sorted _ by_key_order).
  - done.
Qed.

Lemma collect_lookup (l : list (rstr * rstr)) (k v : rstr) : collect l !! k = Some v -> (k, v) ∈ l.
Proof.
  induction l as [|[k' v'] l IH] using rev_ind; [done|]. unfold collect in *. rewrite foldl_app. simpl.
  rewrite lookup_insert_Some, elem_of_app, list_elem_of_singleton. intros [[-> ->]|[_ H]]; [by right|left; auto].
Qed.

(** * The normal form *)

Definition trimmed (s : rstr) : Prop := trim s = s.

(** A state whose runtimes are trimmed and whose packages are a sorted set of
    trimmed names. *)
Record normal (s : EnvironmentState) : Prop := {
  normal_runtimes k v : runtimes s !! k = Some v -> trimmed k /\ trimmed v;
  normal_packages : Forall (fun p => trimmed p /\ p ≠ []) (packages s);
  normal_sorted : StronglySorted str_le (packages s);
  normal_NoDup : NoDup (packages s)
}.

Lemma normalize_eq s :
  normalize s = {| schema_version := schema_version s; runtimes := collect (normalized_parts s).1;
                   packages := (normalized_parts s).2; timestamp := timestamp s; hash := hash s |}.
Proof. done. Qed.

Lemma normalize_normal s : normal (normalize s).
Proof.
  rewrite normalize_eq. unfold normalized_parts. split; cbn [runtimes packages fst snd].
  - intros k v H%collect_lookup. rewrite (sort_by_perm _) in H. apply list_elem_of_In, in_map_iff in H as ([k0 v0] & E & _).
    injection E as <- <-. split; apply trim_idem.
  - apply Forall_forall. intros p. rewrite elem_of_dedup_sort, list_elem_of_In, filter_In, negb_true_iff, bool_decide_eq_false.
    intros [Hp Hne]. apply in_map_iff in Hp as (q & <- & _). split; [apply trim_idem|done].
  - apply dedup_sort_sorted.
  - apply dedup_sort_sorted.
Qed.

Lemma normal_parts s : normal s -> normalized_parts s = (iter (runtimes s), packages s).
Proof.
  intros [Hr Hp Hs Hn]. unfold normalized_parts. cbv zeta. f_equal.
  - rewrite (map_ext_in _ (fun kv => kv)), map_id; [apply sort_iter|]. intros [k v] H%list_elem_of_In. rewrite elem_of_iter in H.
    destruct (Hr k v H) as [Hk Hv]. unfold trimmed in *. by rewrite Hk, Hv.
  - assert (E : map trim (packages s) = packages s).
    { rewrite <- (map_id (packages s)) at 2. apply map_ext_in. intros p H%list_elem_of_In.
      by apply (proj1 (Forall_forall _ _) Hp) in H as [? _]. }
    rewrite E. apply sorted_set_unique; [apply dedup_sort_sorted|apply dedup_sort_sorted|done..|].
    intros x. rewrite elem_of_dedup_sort, !list_elem_of_In, filter_In, negb_true_iff, bool_decide_eq_false.
    rewrite <- list_elem_of_In. rewrite Forall_forall in Hp. naive_solver.
Qed.

Lemma normalize_id s : normal s -> normalize s = s.
Proof. intros H. rewrite normalize_eq, normal_parts by done. cbn [fst snd]. rewrite collect_iter. by destruct s. Qed.

Lemma normal_set_hash h s : normal s -> normal (set_hash h s).
Proof. intros [? ? ? ?]. by split. Qed.

Lemma hash_input_set_hash h s : hash_input (set_hash h s) = hash_input s.
Proof. done. Qed.

(** * The drift report *)

Definition runtime_drifts (actual : EnvironmentState) (kv : rstr * rstr) : bool :=
  negb (bool_decide (runtimes actual !! kv.1 = Some kv.2)).

(** The runtimes of [l] that [actual] has in another version. *)
Definition differing (actual : EnvironmentState) (l : list (rstr * rstr)) : list (rstr * rstr * rstr) :=
  omap (fun '(n, v) => match runtimes actual !! n with
                       | Some v' => if decide (v = v') then None else Some (n, v, v')
                       | None => None
                       end) l.

Definition absent_from (m : gmap rstr rstr) (n : rstr) : bool := negb (bool_decide (is_Some (m !! n))).

Definition not_among (l : list rstr) (p : rstr) : bool := negb (bool_decide (p ∈ l)).

Lemma absent_from_true (m : gmap rstr rstr) n : ¬ is_Some (m !! n) -> absent_from m n = true.
Proof. intros H. unfold absent_from. by rewrite bool_decide_eq_false_2. Qed.

Lemma absent_from_false (m : gmap rstr rstr) n : is_Some (m !! n) -> absent_from m n = false.
Proof. intros H. unfold absent_from. by rewrite bool_decide_eq_true_2. Qed.

Lemma not_among_true (l : list rstr) p : (p ∉ l) -> not_among l p = true.
Proof. intros H. unfold not_among. by rewrite bool_decide_eq_false_2. Qed.

Lemma not_among_false (l : list rstr) p : p ∈ l -> not_among l p = false.
Proof. intros H. unfold not_among. by rewrite bool_decide_eq_true_2. Qed.

Lemma fold_runtimes (actual : EnvironmentState) (l : list (rstr * rstr)) r :
  foldl (check_runtime actual) r l =
  {| has_drift := has_drift r || existsb (runtime_drifts actual) l;
     missing_runtimes := missing_runtimes r ++ List.filter (absent_from (runtimes actual)) l.*1;
     different_runtimes := different_runtimes r ++ differing actual l;
     extra_runtimes := extra_runtimes r; missing_packages := missing_packages r; extra_packages := extra_packages r |}.
Proof.
  revert r; induction l as [|[n v] l IH]; intros r; simpl; [rewrite orb_false_r, !app_nil_r; by destruct r|].
  rewrite IH. unfold runtime_drifts, absent_from, check_runtime, differing. simpl.
  destruct (runtimes actual !! n) as [v'|]; simpl.
  - destruct (decide (v = v')) as [->|Hv]; simpl; [by rewrite bool_decide_eq_true_2|].
    rewrite (bool_decide_eq_false_2 (Some v' = Some v)) by congruence. by rewrite orb_true_r, <- app_assoc.
  - by rewrite orb_true_r, <- app_assoc.
Qed.

Lemma fold_extra_runtimes (expected : EnvironmentState) (l : list rstr) r :
  foldl (check_extra_runtime expected) r l =
  {| has_drift := has_drift r || existsb (absent_from (runtimes expected)) l;
     missing_runtimes := missing_runtimes r; different_runtimes := different_runtimes r;
     extra_runtimes := extra_runtimes r ++ List.filter (absent_from (runtimes expected)) l;
     missing_packages := missing_packages r; extra_packages := extra_packages r |}.
Proof.
  revert r; induction l as [|n l IH]; intros r; cbn [foldl existsb List.filter]; [rewrite orb_false_r, !app_nil_r; by destruct r|].
  rewrite IH. unfold check_extra_runtime. destruct (decide _) as [H|H].
  - by rewrite (absent_from_false (runtimes expected) n H).
  - rewrite (absent_from_true (runtimes expected) n H). cbn. by rewrite orb_true_r, <- app_assoc.
Qed.

Lemma fold_packages (actual : EnvironmentState) (l : list rstr) r :
  foldl (check_package actual) r l =
  {| has_drift := has_drift r || existsb (not_among (packages actual)) l;
     missing_runtimes := missing_runtimes r; different_runtimes := different_runtimes r;
     extra_runtimes := extra_runtimes r;
     missing_packages := missing_packages r ++ List.filter (not_among (packages actual)) l;
     extra_packages := extra_packages r |}.
Proof.
  revert r; induction l as [|n l IH]; intros r; cbn [foldl existsb List.filter]; [rewrite orb_false_r, !app_nil_r; by destruct r|].
  rewrite IH. unfold check_package. destruct (decide _) as [H|H].
  - by rewrite (not_among_false (packages actual) n H).
  - rewrite (not_among_true (packages actual) n H). cbn. by rewrite orb_true_r, <- app_assoc.
Qed.

Lemma fold_extra_packages (expected : EnvironmentState) (l : list rstr) r :
  foldl (check_extra_package expected) r l =
  {| has_drift := has_drift r || existsb (not_among (packages expected)) l;
     missing_runtimes := missing_runtimes r; different_runtimes := different_runtimes r;
     extra_runtimes := extra_runtimes r; missing_packages := missing_packages r;
     extra_packages := extra_packages r ++ List.filter (not_among (packages expected)) l |}.
Proof.
  revert r; induction l as [|n l IH]; intros r; cbn [foldl existsb List.filter]; [rewrite orb_false_r, !app_nil_r; by destruct r|].
  rewrite IH. unfold check_extra_package. destruct (decide _) as [H|H].
  - by rewrite (not_among_false (packages expected) n H).
  - rewrite (not_among_true (packages expected) n H). cbn. by rewrite orb_true_r, <- app_assoc.
Qed.

(** The report, list by list: what the lock has and the machine lacks, in the
    order of the lock, and the converse. *)
Lemma compare_eq expected actual :
  compare expected actual =
  {| has_drift := existsb (runtime_drifts actual) (iter (runtimes expected))
                  || existsb (absent_from (runtimes expected)) (iter (runtimes actual)).*1
                  || existsb (not_among (packages actual)) (packages expected)
                  || existsb (not_among (packages expected)) (packages actual);
     missing_runtimes := List.filter (absent_from (runtimes actual)) (iter (runtimes expected)).*1;
     different_runtimes := differing actual (iter (runtimes expected));
     extra_runtimes := List.filter (absent_from (runtimes expected)) (iter (runtimes actual)).*1;
     missing_packages := List.filter (not_among (packages actual)) (packages expected);
     extra_packages := List.filter (not_among (packages expected)) (packages actual) |}.
Proof. unfold compare. by rewrite fold_runtimes, fold_extra_runtimes, fold_packages, fold_extra_packages. Qed.

Lemma existsb_false_iff {A} (f : A -> bool) l : existsb f l = false <-> forall x, x ∈ l -> f x = false.
Proof.
  rewrite <- not_true_iff_false, existsb_exists. setoid_rewrite list_elem_of_In. setoid_rewrite <- not_true_iff_false.
  naive_solver.
Qed.

Lemma no_drift_iff expected actual :
  has_drift (compare expected actual) = false <->
  runtimes expected = runtimes actual /\ (forall p, p ∈ packages expected <-> p ∈ packages actual).
Proof.
  rewrite compare_eq. cbn [has_drift]. rewrite !orb_false_iff, !existsb_false_iff.
  unfold runtime_drifts, absent_from, not_among. setoid_rewrite negb_false_iff. setoid_rewrite bool_decide_eq_true.
  split.
  - intros [[[H1 H2] H3] H4]. split; [|naive_solver]. apply map_eq. intros k.
    destruct (runtimes expected !! k) as [v|] eqn:E.
    + symmetry. apply (H1 (k, v)). by apply elem_of_iter.
    + destruct (runtimes actual !! k) as [v|] eqn:E'; [|done]. destruct (H2 k) as [? ?]; [|congruence].
      apply list_elem_of_fmap. exists (k, v). split; [done|]. by apply elem_of_iter.
  - intros [Hr Hp]. split_and!; try naive_solver.
    + intros [k v] H. simpl. rewrite <- Hr. by apply elem_of_iter.
    + intros k ([k' v] & -> & H)%list_elem_of_fmap. rewrite Hr. simpl. apply elem_of_iter in H. by rewrite H.
Qed.

(** * The hash input *)

Definition plain_char (c : char) : Prop := is_scalar c = true /\ c ≠ ch ";".

(** Names without separators: no semicolon anywhere, no colon in the name of a
    runtime or of a package. *)
Record plain (s : EnvironmentState) : Prop := {
  plain_names k v : runtimes s !! k = Some v -> Forall plain_char k /\ Forall plain_char v /\ (ch ":" ∉ k);
  plain_packages : Forall (fun p => Forall plain_char p /\ (ch ":" ∉ p)) (packages s)
}.

Lemma plain_valid s : Forall plain_char s -> valid_str s.
Proof. intros H. eapply Forall_impl; [exact H|]. by intros c [? _]. Qed.

Lemma not_elem_trim c s : (c ∉ s) -> c ∉ trim s.
Proof.
  intros H. assert (Hf : Forall (fun d => d ≠ c) s) by (apply Forall_forall; naive_solver).
  apply Forall_trim in Hf. rewrite Forall_forall in Hf. naive_solver.
Qed.

Lemma normalize_plain s : plain s -> plain (normalize s).
Proof.
  intros [Hr Hp]. rewrite normalize_eq. unfold normalized_parts. split; cbn [runtimes packages fst snd].
  - intros k v H%collect_lookup. rewrite (sort_by_perm _) in H. apply list_elem_of_In, in_map_iff in H as ([k0 v0] & E & Hin).
    injection E as <- <-. apply list_elem_of_In, elem_of_iter, Hr in Hin as (? & ? & ?).
    auto using Forall_trim, not_elem_trim.
  - apply Forall_forall. intros p. rewrite elem_of_dedup_sort, list_elem_of_In, filter_In, in_map_iff.
    intros [(q & <- & Hq) _]. apply list_elem_of_In in Hq. apply (proj1 (Forall_forall _ _) Hp) in Hq as [? ?].
    auto using Forall_trim, not_elem_trim.
Qed.

Definition runtime_entry (kv : rstr * rstr) : rstr := kv.1 ++ ch ":" :: kv.2.

(** What is hashed, as records that end in a semicolon. *)
Definition hash_entries (s : EnvironmentState) : list rstr := map runtime_entry (iter (runtimes s)) ++ packages s.

Definition records (l : list rstr) : rstr := l ≫= fun e => e ++ [ch ";"].

Lemma hash_input_records s : normal s -> hash_input s = as_bytes (records (hash_entries s)).
Proof.
  intros Hn. unfold hash_input, hash_entries, records. rewrite normal_parts by done. rewrite bind_app, as_bytes_app. f_equal.
  - induction (iter (runtimes s)) as [|[k v] l IH]; [done|]. cbn [map]. rewrite !bind_cons, IH, !as_bytes_app.
    unfold runtime_entry. cbn [fst snd]. rewrite !as_bytes_app, as_bytes_cons. by rewrite <- !app_assoc.
  - induction (packages s) as [|p l IH]; [done|]. by rewrite !bind_cons, IH, !as_bytes_app.
Qed.

Lemma split_records l : Forall (fun e => ch ";" ∉ e) l -> split_char (ch ";") (records l) = l ++ [[]].
Proof.
  induction 1 as [|e l He _ IH]; [done|]. unfold records in *. rewrite bind_cons, <- app_assoc. cbn [app].
  by rewrite split_char_cut, IH.
Qed.

Lemma runtime_entry_inj kv kv' :
  (ch ":" ∉ kv.1) -> (ch ":" ∉ kv'.1) -> runtime_entry kv = runtime_entry kv' -> kv = kv'.
Proof.
  destruct kv as [k v], kv' as [k' v']. unfold runtime_entry. simpl. intros Hk Hk' E.
  assert (Some (k, v) = Some (k', v')); [|congruence].
  rewrite <- (proj2 (split_once_Some (ch ":") (k ++ ch ":" :: v) k v)) by done.
  rewrite E. by apply split_once_Some.
Qed.

Lemma entries_inj (rs rs' : list (rstr * rstr)) (ps ps' : list rstr) :
  Forall (fun kv => ch ":" ∉ kv.1) rs -> Forall (fun kv => ch ":" ∉ kv.1) rs' ->
  Forall (fun p => ch ":" ∉ p) ps -> Forall (fun p => ch ":" ∉ p) ps' ->
  map runtime_entry rs ++ ps = map runtime_entry rs' ++ ps' -> rs = rs' /\ ps = ps'.
Proof.
  assert (Hc : forall kv, ch ":" ∈ runtime_entry kv) by (intros kv; unfold runtime_entry; set_solver).
  intros Hr. revert rs'. induction Hr as [|kv rs Hkv Hr IH]; intros [|kv' rs'] Hr' Hp Hp' E; simpl in E.
  - done.
  - subst ps. inversion Hp; subst. exfalso. by apply (H1 (Hc kv')).
  - subst ps'. inversion Hp'; subst. exfalso. by apply (H1 (Hc kv)).
  - injection E as E1 E2. inversion Hr'; subst. apply runtime_entry_inj in E1 as ->; [|done..].
    by destruct (IH rs') as [-> ->].
Qed.

Lemma plain_char_no_semicolon e : Forall plain_char e -> ch ";" ∉ e.
Proof. rewrite Forall_forall. intros H Hin. by apply H in Hin as [_ ?]. Qed.

Lemma plain_entries s :
  plain s ->
  Forall (Forall plain_char) (hash_entries s) /\
  Forall (fun kv => ch ":" ∉ kv.1) (iter (runtimes s)) /\ Forall (fun p => ch ":" ∉ p) (packages s).
Proof.
  intros [Hr Hp]. split_and!.
  - apply Forall_app. split; [|eapply Forall_impl; [exact Hp|]; naive_solver]. apply Forall_forall.
    intros e ([k v] & <- & H%list_elem_of_In)%list_elem_of_In%in_map_iff. apply elem_of_iter, Hr in H as (? & ? & _).
    unfold runtime_entry. apply Forall_app. split; [done|]. by constructor.
  - apply Forall_forall. intros [k v] H%elem_of_iter. by apply Hr in H as (_ & _ & ?).
  - eapply Forall_impl; [exact Hp|]; naive_solver.
Qed.

(** The hashed bytes of two states with plain names are equal exactly when
    the drift report is empty. *)
Lemma hash_input_eq_iff s t :
  normal s -> normal t -> plain s -> plain t ->
  hash_input s = hash_input t <-> has_drift (compare s t) = false.
Proof.
  intros Hs Ht Ps Pt. rewrite no_drift_iff, !hash_input_records by done.
  destruct (plain_entries s Ps) as (S1 & S2 & S3), (plain_entries t Pt) as (T1 & T2 & T3).
  assert (Hv : forall l, Forall (Forall plain_char) l -> valid_str (records l)).
  { intros l Hl. unfold records. induction Hl as [|e l He _ IH]; [constructor|]. rewrite bind_cons.
    apply Forall_app. split; [apply Forall_app; split; [by apply plain_valid|by repeat constructor]|done]. }
  split.
  - intros E%as_bytes_inj; [|by apply Hv..]. apply (f_equal (split_char (ch ";"))) in E.
    rewrite !split_records in E by (eapply Forall_impl; [eassumption|]; apply plain_char_no_semicolon).
    apply app_inj_tail in E as [E _]. apply entries_inj in E as [Er Ep]; [|done..].
    split; [|by rewrite Ep]. rewrite <- (collect_iter (runtimes s)), Er. apply collect_iter.
  - intros [Er Ep]. do 2 f_equal. unfold hash_entries. rewrite Er. f_equal.
    by apply sorted_set_unique; try apply normal_sorted; try apply normal_NoDup.
Qed.

(** A package name with a colon can stand for a runtime: the bytes do not tell
    [a = 1] from the package [a:1]. *)
Lemma hash_input_ambiguous :
  let s := {| schema_version := 1; runtimes := {[ str "a" := str "1" ]}; packages := []; timestamp := 0; hash := [] |} in
  let t := {| schema_version := 1; runtimes := ∅; packages := [str "a:1"]; timestamp := 0; hash := [] |} in
  hash_input s = hash_input t /\ has_drift (compare s t) = true.
Proof. split; vm_compute; reflexivity. Qed.

(** * Lock files *)

Section lock.
Context `{L : Lockfile} {laws : LockfileLaws L}.

(** The state a lock file holds. *)
Definition locked (s : EnvironmentState) : EnvironmentState :=
  let n := normalize (set_schema_version SCHEMA_VERSION s) in set_hash (calculate_hash n) n.

Lemma locked_normal s : normal (locked s).
Proof. apply normal_set_hash, normalize_normal. Qed.

Lemma locked_hash s : hash (locked s) = calculate_hash (locked s).
Proof. done. Qed.

Lemma parse_serialized s text :
  to_string_pretty (locked s) = Some text -> parse_lockfile text = Ok (locked s).
Proof.
  intros Ht. unfold parse_lockfile. rewrite (serialized_schema _ _ Ht). cbn [default res_bind].
  rewrite (serialized_parses _ _ Ht). cbn [ok_or res_bind]. cbv zeta.
  rewrite (normalize_id (locked s)) by apply locked_normal. rewrite locked_hash.
  unfold str_eqb. rewrite bool_decide_eq_true_2 by done. cbn [ensure res_bind]. done.
Qed.

Lemma load_saved s bytes :
  save s = Ok bytes -> Z.of_nat (length bytes) <= MAX_LOCKFILE_BYTES -> load (Some (LockFile bytes)) = Ok (locked s).
Proof.
  unfold save. fold (locked s). intros (text & Ht%ok_or_Ok & [= <-])%res_bind_Ok Hlen.
  unfold load, read_lockfile. rewrite (proj2 (Z.leb_le _ _) Hlen). cbn [ensure res_bind].
  rewrite decode_as_bytes by (by eapply serialized_valid). cbn [ok_or res_bind]. by apply parse_serialized.
Qed.

Lemma load_facts node s : load node = Ok s -> normal s /\ hash s = calculate_hash s.
Proof.
  intros H. unfold load, parse_lockfile in H. res_inv. split; [apply normal_set_hash, normalize_normal|done].
Qed.

(** what [save] writes, [load] reads back: the normal form of the state
    with its hash, as long as the text fits the limit of a lock file; a
    loaded state is normal and carries the hash of its contents. Against the
    file, a state shows no drift exactly when it has the same runtimes and the
    same packages. *)
Theorem lockfile_roundtrip :
  (forall s bytes, save s = Ok bytes -> Z.of_nat (length bytes) <= MAX_LOCKFILE_BYTES ->
     load (Some (LockFile bytes)) = Ok (locked s)) /\
  (forall node s, load node = Ok s -> normal s /\ hash s = calculate_hash s) /\
  (forall s t, has_drift (compare (locked s) t) = false <->
     runtimes (normalize s) = runtimes t /\ (forall p, p ∈ packages (normalize s) <-> p ∈ packages t)).
Proof. split_and!; [exact load_saved|exact load_facts|intros s t; exact (no_drift_iff (locked s) t)]. Qed.

(** * Team status *)

Lemma upsert_found member l : List.find (fun m => str_eqb (id m) (id member)) (upsert_member member l) = Some member.
Proof.
  unfold str_eqb. induction l as [|m l IH]; simpl; [by rewrite bool_decide_eq_true_2|].
  destruct (decide (id m = id member)) as [E|E]; simpl; [by rewrite bool_decide_eq_true_2|].
  by rewrite bool_decide_eq_false_2.
Qed.

Lemma upsert_others member l m : id m ≠ id member -> m ∈ upsert_member member l <-> m ∈ l.
Proof.
  intros Hm. induction l as [|m' l IH]; simpl; [set_solver|].
  destruct (decide (id m' = id member)) as [E|E]; rewrite !elem_of_cons; [|by rewrite IH].
  split; (intros [->|?]; [done|by right]).
Qed.

Lemma upsert_ids member l : NoDup (map id l) -> NoDup (map id (upsert_member member l)).
Proof.
  induction l as [|m l IH]; simpl; [intros _; apply NoDup_singleton|]. intros [Hm Hl]%NoDup_cons.
  destruct (decide (id m = id member)) as [E|E]; simpl; [rewrite <- E; by constructor|].
  constructor; [|auto]. intros Hin. apply Hm. clear -Hin E. induction l as [|m' l IH]; simpl in *; [set_solver|].
  destruct (decide (id m' = id member)) as [E'|E']; simpl in *; [|set_solver].
  apply elem_of_cons in Hin as [?|?]; [congruence|set_solver].
Qed.

(** The status file of a workspace is one that [update_status] accepts. *)
Definition status_ok (w : Workspace) (conf : TeamConfig) (status : TeamStatus) : Prop :=
  config_file w = Some conf /\ status_file w = Some status /\
  format_version status <= STATUS_FORMAT_VERSION /\ team_id (config status) = team_id conf.

Lemma load_status_ok w conf status :
  status_ok w conf status ->
  load_status w = Ok {| format_version := format_version status; config := conf; lock_hash := lock_hash status;
                        members := members status; updated_at := updated_at status |}.
Proof.
  intros (Hc & Hs & Hv & Ht). unfold load_status. rewrite Hs, Hc. cbn [ok_or res_bind].
  rewrite (proj2 (Z.ltb_ge _ _) Hv). cbn [negb ensure res_bind]. unfold str_eqb. by rewrite Ht, bool_decide_eq_true_2.
Qed.
(** The record that [update_status] writes for the local member. *)
Definition own_record (conf : TeamConfig) (env : EnvironmentState) (user : rstr) (now : Z) (sync : bool) : TeamMember :=
  {| id := member_id conf; name := user; env_hash := hash env; last_sync := now; in_sync := sync;
     drift_summary := if sync then None else Some out_of_sync_text |}.

Definition updated_status (conf : TeamConfig) (status : TeamStatus) (lock : rstr) (member : TeamMember) (now : Z) : TeamStatus :=
  {| format_version := format_version status; config := conf; lock_hash := lock;
     members := upsert_member member (members status); updated_at := now |}.

Lemma update_status_locked w conf status node lock env user now :
  status_ok w conf status -> lock_file w = Some node -> load (Some node) = Ok lock -> hash lock ≠ [] ->
  let status' := updated_status conf status (hash lock) (own_record conf env user now (str_eqb (hash env) (hash lock))) now in
  update_status w env user now =
  Ok (status', {| config_file := Some conf; status_file := Some status'; lock_file := Some node |}).
Proof.
  intros Hs Hn Hl Hh. unfold update_status. rewrite (proj1 Hs), Hn, Hl. cbn [ok_or res_bind map_err].
  rewrite (bool_decide_eq_false_2 (hash lock = [])) by done. cbn [orb]. by rewrite (load_status_ok _ _ _ Hs).
Qed.

Lemma capture_normal probed explicit_packages now : normal (capture probed explicit_packages now).
Proof. apply normal_set_hash, normalize_normal. Qed.

(** in a workspace whose lock file loads, [pull] reports "in sync" exactly
    when the drift report between the lock and the captured environment is
    empty, provided names carry no separators and SHA-256 does not collide on
    the two inputs; it records that verdict for the local member, and leaves
    the configuration, the lock and every other member as they were. *)
Theorem pull_agrees_with_drift_report w conf status node lock probed explicit_packages now0 user now :
  let env := capture probed explicit_packages now0 in
  status_ok w conf status -> lock_file w = Some node -> load (Some node) = Ok lock ->
  plain lock -> plain env ->
  (sha256_hex (hash_input env) = sha256_hex (hash_input lock) -> hash_input env = hash_input lock) ->
  let sync := negb (has_drift (compare env lock)) in
  exists w' status',
    pull w env user now = Ok (sync, w') /\
    status_file w' = Some status' /\ config_file w' = config_file w /\ lock_file w' = lock_file w /\
    own_record conf env user now sync ∈ members status' /\
    (forall m, id m ≠ member_id conf -> m ∈ members status' <-> m ∈ members status) /\
    (NoDup (map id (members status)) -> NoDup (map id (members status'))).
Proof.
  intros env Hs Hn Hl Pl Pe Hsha sync. destruct (load_facts _ _ Hl) as [Nl Hh].
  assert (Hsync : str_eqb (hash env) (hash lock) = sync).
  { assert (Heq : hash env = hash lock <-> has_drift (compare env lock) = false).
    { rewrite <- hash_input_eq_iff by (done || apply capture_normal). rewrite Hh. split; [exact Hsha|].
      intros E. change (hash env) with (sha256_hex (hash_input env)). unfold calculate_hash. by rewrite E. }
    unfold str_eqb, sync. destruct (has_drift (compare env lock)); simpl.
    - apply bool_decide_eq_false_2. by intros ?%Heq.
    - apply bool_decide_eq_true_2. by apply Heq. }
  assert (Hne : hash lock ≠ []) by (rewrite Hh; apply digest_nonempty).
  pose proof (update_status_locked w conf status node lock env user now Hs Hn Hl Hne) as Hu. cbv zeta in Hu.
  rewrite Hsync in Hu. eexists _, _. split.
  { unfold pull. rewrite (proj1 Hs), Hu. cbn [ok_or res_bind fst snd members updated_status].
    rewrite (upsert_found (own_record conf env user now sync)). reflexivity. }
  cbn [status_file config_file lock_file]. split_and!; [reflexivity|symmetry; apply (proj1 Hs)|done| | |].
  - simpl. eapply list_elem_of_In, List.find_some, (upsert_found (own_record conf env user now sync)).
  - intros m Hm. by apply upsert_others.
  - apply upsert_ids.
Qed.

(** [push] in a captured environment succeeds when its state serializes
    within the limit, replaces the lock by that environment, and leaves the
    local member in sync, whatever was locked before. *)
Theorem push_leaves_member_in_sync w conf status probed explicit_packages t1 t2 user now bytes :
  let state := capture probed explicit_packages t1 in
  let env := capture probed explicit_packages t2 in
  status_ok w conf status -> save state = Ok bytes -> Z.of_nat (length bytes) <= MAX_LOCKFILE_BYTES ->
  exists w' status',
    push w state env user now = Ok w' /\ status_file w' = Some status' /\
    load (lock_file w') = Ok (locked state) /\ lock_hash status' = hash env /\
    own_record conf env user now true ∈ members status'.
Proof.
  intros state env Hs Hb Hlen. pose proof (load_saved _ _ Hb Hlen) as Hl.
  assert (Hhash : hash (locked state) = hash env).
  { unfold locked. assert (E : set_schema_version SCHEMA_VERSION state = state) by done. rewrite E.
    by rewrite normalize_id by apply capture_normal. }
  set (w1 := {| config_file := config_file w; status_file := status_file w; lock_file := Some (LockFile bytes) |}).
  assert (Hs1 : status_ok w1 conf status) by exact Hs.
  assert (Hne : hash (locked state) ≠ []) by apply digest_nonempty.
  pose proof (update_status_locked w1 conf status _ _ env user now Hs1 eq_refl Hl Hne) as Hu. cbv zeta in Hu.
  unfold str_eqb in Hu. rewrite bool_decide_eq_true_2 in Hu by done.
  unfold push. rewrite (proj1 Hs), Hb. cbn [ok_or res_bind map_err]. fold w1. rewrite <- (proj1 Hs). fold w1. rewrite Hu. cbn [res_bind snd].
  eexists _, _. split_and!; [done|reflexivity|exact Hl|exact Hhash|].
  simpl. eapply list_elem_of_In, List.find_some, (upsert_found (own_record conf env user now true)).
Qed.
End lock.

(** * A concrete codec

    Lock files as bit strings of an encoding of the state, and a digest that
    keeps its input. *)

#[export] Instance EnvironmentState_eq_dec : EqDecision EnvironmentState.
Proof. solve_decision. Defined.

#[export] Program Instance EnvironmentState_countable : Countable EnvironmentState :=
  inj_countable' (fun s => (schema_version s, runtimes s, packages s, timestamp s, hash s))
    (fun '(v, r, p, t, h) => {| schema_version := v; runtimes := r; packages := p; timestamp := t; hash := h |}) _.
Next Obligation. by intros []. Qed.

Fixpoint bits_of (p : positive) : rstr :=
  match p with
  | xH => []
  | xO p => ch "0" :: bits_of p
  | xI p => ch "1" :: bits_of p
  end.

Fixpoint of_bits (s : rstr) : positive :=
  match s with
  | [] => xH
  | c :: s => if c =? ch "0" then xO (of_bits s) else xI (of_bits s)
  end.

Lemma of_bits_bits_of p : of_bits (bits_of p) = p.
Proof. induction p as [p IH|p IH|]; simpl; [by rewrite IH..|done]. Qed.

Lemma bits_of_valid p : valid_str (bits_of p).
Proof. induction p; simpl; by constructor. Qed.

Definition bit_lockfile : Lockfile := {|
  sha256_hex bytes := ch "0" :: bytes;
  to_string_pretty s := Some (bits_of (encode s));
  from_str text := decode (of_bits text);
  raw_schema_version text := (fun s => Some (schema_version s)) <$> decode (of_bits text)
|}.

Lemma bit_lockfile_laws : LockfileLaws bit_lockfile.
Proof.
  split; simpl; [| | |done]; intros s text [= <-].
  - apply bits_of_valid.
  - by rewrite of_bits_bits_of, decode_encode.
  - by rewrite of_bits_bits_of, decode_encode.
Qed.

Lemma bit_digest_inj x y : @sha256_hex bit_lockfile x = @sha256_hex bit_lockfile y -> x = y.
Proof. by intros [= ->]. Qed.

Lemma plain_compute s :
  forallb (fun kv => forallb (fun c => is_scalar c && negb (c =? ch ";")) (kv.1 ++ kv.2) && negb (contains_char (ch ":") kv.1))
    (iter (runtimes s)) = true ->
  forallb (fun p => forallb (fun c => is_scalar c && negb (c =? ch ";")) p && negb (contains_char (ch ":") p)) (packages s) = true ->
  plain s.
Proof.
  assert (Hc : forall l, forallb (fun c => is_scalar c && negb (c =? ch ";")) l = true -> Forall plain_char l).
  { intros l H. apply Forall_forall. intros c Hin. rewrite forallb_forall in H. apply list_elem_of_In, H in Hin.
    apply andb_true_iff in Hin as [? Hin%negb_true_iff%Z.eqb_neq]. done. }
  rewrite !forallb_forall. intros Hr Hp. split.
  - intros k v Hin%elem_of_iter%list_elem_of_In%Hr. simpl in Hin.
    apply andb_true_iff in Hin as [Hkv%Hc Hk%negb_true_iff%contains_char_false]. apply Forall_app in Hkv. naive_solver.
  - apply Forall_forall. intros p Hin%list_elem_of_In%Hp.
    apply andb_true_iff in Hin as [H1%Hc H2%negb_true_iff%contains_char_false]. done.
Qed.

Definition demo_probed : list (rstr * rstr) := [(str "node", str " 20.1"); (str "go", str "1.22")].

Definition demo_packages : list rstr := [str "vim"; str "git "; str "vim"].

Definition demo_config : TeamConfig :=
  {| team_id := str "t"; team_name := str "T"; member_id := str "ann"; remote_url := None; auto_push := false |}.

Definition demo_status : TeamStatus :=
  {| format_version := 1; config := demo_config; lock_hash := [];
     members := [{| id := str "bob"; name := str "B"; env_hash := []; last_sync := 0; in_sync := true; drift_summary := None |}];
     updated_at := 0 |}.

Definition demo_saved : list Z :=
  match save (L := bit_lockfile) (capture (L := bit_lockfile) demo_probed demo_packages 7) with Ok b => b | Err _ => [] end.

Definition demo_workspace : Workspace :=
  {| config_file := Some demo_config; status_file := Some demo_status; lock_file := Some (LockFile demo_saved) |}.

Lemma lockfile_roundtrip_witness :
  load (L := bit_lockfile) (Some (LockFile demo_saved))
  = Ok (locked (L := bit_lockfile) (capture (L := bit_lockfile) demo_probed demo_packages 7)) /\
  packages (normalize (capture (L := bit_lockfile) demo_probed demo_packages 7)) = [str "git"; str "vim"].
Proof.
  split; [|vm_compute; reflexivity].
  apply (proj1 (@lockfile_roundtrip bit_lockfile bit_lockfile_laws)); [vm_compute; reflexivity|].
  apply Z.leb_le. vm_compute. reflexivity.
Defined.

(** The machine has lost [vim] since the lock was written. *)
Lemma pull_agrees_with_drift_report_witness :
  exists w', pull (L := bit_lockfile) demo_workspace (capture (L := bit_lockfile) demo_probed [str "git"] 9) (str "Ann") 9
             = Ok (false, w').
Proof.
  destruct (@pull_agrees_with_drift_report bit_lockfile bit_lockfile_laws demo_workspace demo_config demo_status
              (LockFile demo_saved) (capture (L := bit_lockfile) demo_probed demo_packages 7)
              demo_probed [str "git"] 9 (str "Ann") 9) as (w' & status' & H & _).
  - by split_and!.
  - reflexivity.
  - vm_compute. reflexivity.
  - apply plain_compute; vm_compute; reflexivity.
  - apply plain_compute; vm_compute; reflexivity.
  - apply bit_digest_inj.
  - exists w'. exact H.
Defined.

Lemma push_leaves_member_in_sync_witness :
  exists w', push (L := bit_lockfile) demo_workspace (capture (L := bit_lockfile) demo_probed [str "git"] 9)
               (capture (L := bit_lockfile) demo_probed [str "git"] 10) (str "Ann") 10 = Ok w'.
Proof.
  destruct (@push_leaves_member_in_sync bit_lockfile bit_lockfile_laws demo_workspace demo_config demo_status
              demo_probed [str "git"] 9 10 (str "Ann") 10
              (match save (L := bit_lockfile) (capture (L := bit_lockfile) demo_probed [str "git"] 9) with Ok b => b | Err _ => [] end))
    as (w' & status' & H & _).
  - by split_and!.
  - vm_compute. reflexivity.
  - apply Z.leb_le. vm_compute. reflexivity.
  - exists w'. exact H.
Defined.
