(* ===== verification/DaemonHandlers.v ===== *)
(** The request handlers of the daemon: src/src/daemon/handlers.rs, with the
    caches of src/src/daemon/cache.rs and the background worker of
    src/src/daemon/server.rs.

    Requests run concurrently against one published index, one set of caches
    and the status file of src/src/daemon/db.rs. A handler is a sequence of
    atomic steps: one per access to a sub-cache, to the status file or to the
    published index, and one per suspension point. A task that updates caches
    under [with_current_index] holds the read lock of the index from its first
    write to its last ([Updating]), which a publication waits for. [advance]
    runs the next step of one task, and [step] interleaves the tasks with
    timeouts of requests and with evictions. Metrics, rate limiting counters
    and the text of error messages are left out, and so are the requests that
    touch neither the index nor the caches (audit, metrics, health, updates).
    What package managers, the disk and the clock answer is an input of the
    step that waits for it; so is how long a step waits for locks that are not
    modelled (the budget of catalogue observations, the scan lock, leases of
    native backends). *)

From S2P Require Import Prelude Validation SearchIndex.
Open Scope Z_scope.
Open Scope omg_scope.

(** * The wire protocol, as far as the handlers use it *)

Inductive Request :=
| Search (id : Z) (query : rstr) (limit : option nat)
| Info (id : Z) (package : rstr)
| Status (id : Z)
| Explicit (id : Z)
| ExplicitCount (id : Z)
| Ping (id : Z)
| CacheStats (id : Z)
| CacheClear (id : Z)
| RefreshIndex (id : Z)
| Suggest (id : Z) (query : rstr) (limit : option nat)
| DebianSearch (id : Z) (query : rstr) (limit : option nat).

Definition request_id (r : Request) : Z :=
  match r with
  | Search id _ _ | Info id _ | Status id | Explicit id | ExplicitCount id | Ping id | CacheStats id | CacheClear id
  | RefreshIndex id | Suggest id _ _ | DebianSearch id _ _ => id
  end.

Record StatusResult := {
  total_packages : nat;
  explicit_total : nat;
  orphan_packages : nat;
  updates_available : nat;
  security_vulnerabilities : nat;
  vulnerabilities_scanned : bool;
  runtime_versions : list (rstr * rstr)
}.

Inductive ResponseResult :=
| SearchResult (packages : list PackageInfo) (total : nat)
| InfoResult (info : DetailedPackageInfo)
| StatusResponse (status : StatusResult)
| ExplicitResult (packages : list rstr)
| ExplicitCountResult (count : nat)
| Pong
| CacheStatsResult (size max_size : nat)
| Cleared
| IndexRefreshed (packages : nat)
| SuggestResult (names : list rstr)
| DebianSearchResult (packages : list PackageInfo).

Inductive ErrorCode := PARSE_ERROR | INVALID_PARAMS | INTERNAL_ERROR | PACKAGE_NOT_FOUND | RATE_LIMITED | RESPONSE_TOO_LARGE.

Inductive Response :=
| Success (id : Z) (result : ResponseResult)
| Error (id : Z) (code : ErrorCode).

Definition response_id (r : Response) : Z := match r with Success id _ | Error id _ => id end.

Definition MAX_QUERY_LENGTH : Z := 500.
Definition DEFAULT_SEARCH_LIMIT : nat := 50.
Definition MAX_SEARCH_LIMIT : nat := Z.to_nat 1000.
Definition DEFAULT_SUGGEST_LIMIT : nat := 10.
Definition MAX_SUGGEST_LIMIT : nat := 50.

Definition search_limit (limit : option nat) : nat := Nat.min (default DEFAULT_SEARCH_LIMIT limit) MAX_SEARCH_LIMIT.
Definition suggest_limit (limit : option nat) : nat := Nat.min (default DEFAULT_SUGGEST_LIMIT limit) MAX_SUGGEST_LIMIT.

(** * Caches *)

Inductive CacheName := SearchCache | DebianCache | DetailedCache | InfoMissCache | StatusCache | ExplicitCache | ExplicitCountCache.

#[export] Instance CacheName_eq_dec : EqDecision CacheName.
Proof. solve_decision. Defined.

Record PackageCache := {
  cache : gmap rstr (list PackageInfo);
  debian_cache : gmap rstr (list PackageInfo);
  detailed_cache : gmap rstr DetailedPackageInfo;
  info_miss_cache : gmap rstr bool;
  system_status : option StatusResult;
  explicit_packages : option (list rstr);
  explicit_count : option nat
}.

Definition empty_cache : PackageCache :=
  {| cache := ∅; debian_cache := ∅; detailed_cache := ∅; info_miss_cache := ∅;
     system_status := None; explicit_packages := None; explicit_count := None |}.

(** One write to one sub-cache or to the status file. *)
Inductive Write :=
| PutSearch (query : rstr) (packages : list PackageInfo)
| PutDebian (query : rstr) (packages : list PackageInfo)
| DropMiss (name : rstr)
| PutInfo (info : DetailedPackageInfo)
| PutMiss (name : rstr)
| DropExplicit
| PutExplicit (packages : list rstr)
| PutCount (count : nat)
| PutStatus (result : StatusResult)
| Persist (result : StatusResult).

Definition insert_arc (query : rstr) (packages : list PackageInfo) : list Write := [PutSearch query packages].

Definition insert_debian_arc (query : rstr) (packages : list PackageInfo) : list Write := [PutDebian query packages].

Definition insert_info_arc (info : DetailedPackageInfo) : list Write := [DropMiss (di_name info); PutInfo info].

Definition insert_info_miss (name : rstr) : list Write := [PutMiss name].

Definition update_explicit_arc (packages : list rstr) : list Write := [PutCount (length packages); PutExplicit packages].

Definition update_explicit_count (count : nat) : list Write := [PutCount count].

Definition update_status (result : StatusResult) : list Write := [DropExplicit; PutCount (explicit_total result); PutStatus result].

(** The effect of a write on the sub-caches. *)
Definition write_cache (w : Write) (c : PackageCache) : PackageCache :=
  match w with
  | PutSearch query packages =>
      {| cache := <[query := packages]> (cache c); debian_cache := debian_cache c; detailed_cache := detailed_cache c;
         info_miss_cache := info_miss_cache c; system_status := system_status c;
         explicit_packages := explicit_packages c; explicit_count := explicit_count c |}
  | PutDebian query packages =>
      {| cache := cache c; debian_cache := <[query := packages]> (debian_cache c); detailed_cache := detailed_cache c;
         info_miss_cache := info_miss_cache c; system_status := system_status c;
         explicit_packages := explicit_packages c; explicit_count := explicit_count c |}
  | DropMiss name =>
      {| cache := cache c; debian_cache := debian_cache c; detailed_cache := detailed_cache c;
         info_miss_cache := delete name (info_miss_cache c); system_status := system_status c;
         explicit_packages := explicit_packages c; explicit_count := explicit_count c |}
  | PutInfo info =>
      {| cache := cache c; debian_cache := debian_cache c; detailed_cache := <[di_name info := info]> (detailed_cache c);
         info_miss_cache := info_miss_cache c; system_status := system_status c;
         explicit_packages := explicit_packages c; explicit_count := explicit_count c |}
  | PutMiss name =>
      {| cache := cache c; debian_cache := debian_cache c; detailed_cache := detailed_cache c;
         info_miss_cache := <[name := true]> (info_miss_cache c); system_status := system_status c;
         explicit_packages := explicit_packages c; explicit_count := explicit_count c |}
  | DropExplicit =>
      {| cache := cache c; debian_cache := debian_cache c; detailed_cache := detailed_cache c;
         info_miss_cache := info_miss_cache c; system_status := system_status c;
         explicit_packages := None; explicit_count := explicit_count c |}
  | PutExplicit packages =>
      {| cache := cache c; debian_cache := debian_cache c; detailed_cache := detailed_cache c;
         info_miss_cache := info_miss_cache c; system_status := system_status c;
         explicit_packages := Some packages; explicit_count := explicit_count c |}
  | PutCount count =>
      {| cache := cache c; debian_cache := debian_cache c; detailed_cache := detailed_cache c;
         info_miss_cache := info_miss_cache c; system_status := system_status c;
         explicit_packages := explicit_packages c; explicit_count := Some count |}
  | PutStatus result =>
      {| cache := cache c; debian_cache := debian_cache c; detailed_cache := detailed_cache c;
         info_miss_cache := info_miss_cache c; system_status := Some result;
         explicit_packages := explicit_packages c; explicit_count := explicit_count c |}
  | Persist _ => c
  end.

(** [invalidate_all] of one sub-cache. *)
Definition invalidate_all (name : CacheName) (c : PackageCache) : PackageCache :=
  match name with
  | SearchCache =>
      {| cache := ∅; debian_cache := debian_cache c; detailed_cache := detailed_cache c; info_miss_cache := info_miss_cache c;
         system_status := system_status c; explicit_packages := explicit_packages c; explicit_count := explicit_count c |}
  | DebianCache =>
      {| cache := cache c; debian_cache := ∅; detailed_cache := detailed_cache c; info_miss_cache := info_miss_cache c;
         system_status := system_status c; explicit_packages := explicit_packages c; explicit_count := explicit_count c |}
  | DetailedCache =>
      {| cache := cache c; debian_cache := debian_cache c; detailed_cache := ∅; info_miss_cache := info_miss_cache c;
         system_status := system_status c; explicit_packages := explicit_packages c; explicit_count := explicit_count c |}
  | InfoMissCache =>
      {| cache := cache c; debian_cache := debian_cache c; detailed_cache := detailed_cache c; info_miss_cache := ∅;
         system_status := system_status c; explicit_packages := explicit_packages c; explicit_count := explicit_count c |}
  | StatusCache =>
      {| cache := cache c; debian_cache := debian_cache c; detailed_cache := detailed_cache c; info_miss_cache := info_miss_cache c;
         system_status := None; explicit_packages := explicit_packages c; explicit_count := explicit_count c |}
  | ExplicitCache =>
      {| cache := cache c; debian_cache := debian_cache c; detailed_cache := detailed_cache c; info_miss_cache := info_miss_cache c;
         system_status := system_status c; explicit_packages := None; explicit_count := explicit_count c |}
  | ExplicitCountCache =>
      {| cache := cache c; debian_cache := debian_cache c; detailed_cache := detailed_cache c; info_miss_cache := info_miss_cache c;
         system_status := system_status c; explicit_packages := explicit_packages c; explicit_count := None |}
  end.

(** The order of [PackageCache::clear]. *)
Definition clear_order : list CacheName :=
  [SearchCache; DebianCache; DetailedCache; InfoMissCache; StatusCache; ExplicitCache; ExplicitCountCache].

(** What [replace_observed_index] does behind the new index: it clears the
    caches, then removes the status file. *)
Inductive Invalidation :=
| ClearCache (name : CacheName)
| RemoveStatusFile.

Definition replace_order : list Invalidation := map ClearCache clear_order ++ [RemoveStatusFile].

Definition entries {A} (o : option A) : nat := match o with Some _ => 1%nat | None => 0%nat end.

(** [stats]: live entries of all sub-caches. *)
Definition cache_size (c : PackageCache) : nat :=
  (size (cache c) + size (debian_cache c) + size (detailed_cache c) + size (info_miss_cache c)
   + entries (system_status c) + entries (explicit_packages c) + entries (explicit_count c))%nat.

(** The cache library drops entries on its own (capacity, age). *)
Record evicts (c c' : PackageCache) : Prop := {
  evicts_cache : cache c' ⊆ cache c;
  evicts_debian : debian_cache c' ⊆ debian_cache c;
  evicts_detailed : detailed_cache c' ⊆ detailed_cache c;
  evicts_miss : info_miss_cache c' ⊆ info_miss_cache c;
  evicts_status s : system_status c' = Some s -> system_status c = Some s;
  evicts_explicit l : explicit_packages c' = Some l -> explicit_packages c = Some l;
  evicts_count n : explicit_count c' = Some n -> explicit_count c = Some n
}.

(** * Status policy: src/src/daemon/status_policy.rs *)

Definition vulnerability_count_from_scan (scan previous : option nat) : option nat :=
  match scan with
  | Some count => Some count
  | None => previous
  end.

Definition status_snapshot (total explicit orphans updates : nat) (versions : list (rstr * rstr)) (scanned : option nat)
  : StatusResult * bool :=
  ({| total_packages := total; explicit_total := explicit; orphan_packages := orphans; updates_available := updates;
      security_vulnerabilities := default 0%nat scanned; vulnerabilities_scanned := bool_decide (is_Some scanned);
      runtime_versions := versions |}, bool_decide (is_Some scanned)).

Definition scanned_vulnerability_count (s : StatusResult) : option nat :=
  if vulnerabilities_scanned s then Some (security_vulnerabilities s) else None.

(** * The shared state *)

(** A package as the backend describes it, and as the AUR does. *)
Record BackendPackage := {
  bp_name : rstr;
  bp_version : rstr;
  bp_description : rstr
}.

Record AurDetail := {
  ad_name : rstr;
  ad_version : rstr;
  ad_description : option rstr;
  ad_url : option rstr;
  ad_depends : option (list rstr);
  ad_license : option (list rstr)
}.

Definition backend_info (info : BackendPackage) (cache_info : bool) : DetailedPackageInfo :=
  {| di_name := bp_name info; di_version := bp_version info; di_description := bp_description info; di_url := [];
     di_size := 0; di_download_size := 0; di_repo := if cache_info then [] else str "official"; di_depends := [];
     di_licenses := []; di_source := WireOfficial |}.

Definition aur_info (pkg : AurDetail) : DetailedPackageInfo :=
  {| di_name := ad_name pkg; di_version := ad_version pkg; di_description := default [] (ad_description pkg);
     di_url := default [] (ad_url pkg); di_size := 0; di_download_size := 0; di_repo := str "aur";
     di_depends := default [] (ad_depends pkg); di_licenses := default [] (ad_license pkg); di_source := WireAur |}.

(** What an external source answered. [StatusKept] is a status file that was
    there when the daemon started, or that a publication could not remove. *)
Inductive Observation :=
| SawExplicit (packages : list rstr)
| SawPackage (package : rstr) (answer : option BackendPackage)
| SawAur (package : rstr) (details : list AurDetail)
| SawCounts (total explicit orphans updates : nat)
| SawScan (total : nat)
| SawIndex (index : PackageIndex)
| StatusKept (status : StatusResult).

(** Why an index is rebuilt: a refresh request, or a request that found the
    catalogue on disk changed. *)
Inductive IndexRebuild :=
| ForRefresh (id : Z)
| ForRequest (request : Request).

Definition rebuild_id (b : IndexRebuild) : Z :=
  match b with ForRefresh id => id | ForRequest r => request_id r end.

(** The point a task has reached; [snapshot] is the index it works on.
    [Updating]: the writes left under the read lock of the index, and what
    follows them. *)
Inductive Phase :=
| Received (request : Request)
| Healing (request : Request)
| HealLocking (request : Request)
| HealLocked (request : Request)
| Dispatched (request : Request)
| SearchMissed (id : Z) (query : rstr) (limit : nat) (debian : bool)
| Searching (id : Z) (query : rstr) (limit : nat) (debian : bool) (snapshot : nat)
| Searched (id : Z) (query : rstr) (limit : nat) (debian : bool) (snapshot : nat) (results : list PackageInfo)
| SuggestReady (id : Z) (query : rstr) (limit : nat)
| InfoUncached (id : Z) (package : rstr)
| InfoMissed (id : Z) (package : rstr)
| InfoLookup (id : Z) (package : rstr) (snapshot : nat)
| InfoBackend (id : Z) (package : rstr) (snapshot : nat)
| InfoAur (id : Z) (package : rstr) (snapshot : nat)
| InfoFound (id : Z) (info : DetailedPackageInfo) (snapshot : nat)
| InfoAbsent (id : Z) (package : rstr) (snapshot : nat)
| StatusMissed (id : Z)
| StatusBackend (id : Z)
| ExplicitMissed (id : Z) (count_only : bool)
| Listing (id : Z) (count_only : bool) (snapshot : nat)
| Listed (id : Z) (count_only : bool) (snapshot : nat) (packages : list rstr)
| Clearing (id : Z) (remaining : list CacheName)
| RefreshLocking (id : Z) (observed_generation : nat)
| Debouncing (id : Z)
| Debounced (id : Z)
| Rebuilding (b : IndexRebuild)
| Rebuilt (b : IndexRebuild) (index : PackageIndex)
| Publishing (b : IndexRebuild) (packages : nat)
| Updating (snapshot : nat) (writes : list Write) (next : Phase)
| WorkerStart
| WorkerCounting (snapshot : nat)
| WorkerCounted (snapshot : nat) (counts : nat * nat * nat * nat) (versions : list (rstr * rstr))
| WorkerWritten (snapshot : nat) (counts : nat * nat * nat * nat) (versions : list (rstr * rstr))
| WorkerScanning (snapshot : nat) (counts : nat * nat * nat * nat) (versions : list (rstr * rstr)) (previous : option nat)
| WorkerReady (snapshot : nat) (result : StatusResult)
| PrewarmStart
| PrewarmListing (snapshot : nat)
| PrewarmListed (snapshot : nat) (packages : list rstr)
| PrewarmSnapshot
| Prewarming (snapshot : nat) (queries : list rstr)
| Prewarmed (snapshot : nat) (query : rstr) (results : list PackageInfo) (queries : list rstr)
| Finished (response : option Response).

(** [origin] is how the task began, [since] the last publication that had
    completed then, [seen] the number of observations made by then. *)
Record Task := { origin : Phase; since : nat; seen : nat; phase : Phase }.

(** Every index ever published, the current one last: an [Arc] is its
    position. [replacing] is the state of [replace_observed_index] while it
    holds the write lock: what it has not invalidated yet. [completed] is
    the last index whose publication has finished; [persisted] is what the
    status file says, when it is there and can be read; [log] records what
    external sources answered, with the index that was current then. *)
Record Daemon := {
  history : list PackageIndex;
  replacing : option (list Invalidation);
  completed : nat;
  caches : PackageCache;
  persisted : option StatusResult;
  refresh_locked : bool;
  log : list (nat * Observation);
  tasks : gmap nat Task
}.

Definition current (d : Daemon) : nat := pred (length (history d)).

Definition set_caches (f : PackageCache -> PackageCache) (d : Daemon) : Daemon :=
  {| history := history d; replacing := replacing d; completed := completed d; caches := f (caches d); persisted := persisted d;
     refresh_locked := refresh_locked d; log := log d; tasks := tasks d |}.

Definition set_lock (b : bool) (d : Daemon) : Daemon :=
  {| history := history d; replacing := replacing d; completed := completed d; caches := caches d; persisted := persisted d;
     refresh_locked := b; log := log d; tasks := tasks d |}.

Definition set_persisted (status : option StatusResult) (d : Daemon) : Daemon :=
  {| history := history d; replacing := replacing d; completed := completed d; caches := caches d; persisted := status;
     refresh_locked := refresh_locked d; log := log d; tasks := tasks d |}.

Definition observe (o : Observation) (d : Daemon) : Daemon :=
  {| history := history d; replacing := replacing d; completed := completed d; caches := caches d; persisted := persisted d;
     refresh_locked := refresh_locked d; log := log d ++ [(current d, o)]; tasks := tasks d |}.

Definition set_tasks (t : gmap nat Task) (d : Daemon) : Daemon :=
  {| history := history d; replacing := replacing d; completed := completed d; caches := caches d; persisted := persisted d;
     refresh_locked := refresh_locked d; log := log d; tasks := t |}.

(** [index_snapshot] waits for the write lock. *)
Definition index_snapshot (d : Daemon) : option nat :=
  match replacing d with
  | None => Some (current d)
  | Some _ => None
  end.

(** The index whose read lock a task holds. *)
Definition reading (p : Phase) : option nat :=
  match p with Updating snapshot _ _ => Some snapshot | _ => None end.

(** [with_current_index]: the writes under the read lock, then [ran]; or
    [skipped] when the index has been replaced. It waits for the write lock. *)
Definition with_current_index (snapshot : nat) (writes : list Write) (ran skipped : Phase) (d : Daemon) : option Phase :=
  match replacing d with
  | None => Some (if decide (snapshot = current d) then Updating snapshot writes ran else skipped)
  | Some _ => None
  end.

(** The first half of [replace_observed_index]: the new index is in place,
    what was derived from the old one is still to be invalidated. *)
Definition publish (index : PackageIndex) (d : Daemon) : Daemon :=
  {| history := history d ++ [index]; replacing := Some replace_order; completed := completed d; caches := caches d;
     persisted := persisted d; refresh_locked := refresh_locked d; log := log d; tasks := tasks d |}.

Definition set_replacing (rest : list Invalidation) (d : Daemon) : Daemon :=
  {| history := history d; replacing := Some rest; completed := completed d; caches := caches d; persisted := persisted d;
     refresh_locked := refresh_locked d; log := log d; tasks := tasks d |}.

(** The write lock is released. *)
Definition complete (d : Daemon) : Daemon :=
  {| history := history d; replacing := None; completed := current d; caches := caches d; persisted := persisted d;
     refresh_locked := refresh_locked d; log := log d; tasks := tasks d |}.

Definition index_generation (d : Daemon) : nat := current d.

(** What a step may wait for. *)
Inductive External :=
| NoAnswer
| Limited
| HealAnswer (needed : bool)
| Failed
| TimedOut
| BackendAnswer (info : option BackendPackage)
| AurAnswer (details : list AurDetail)
| ExplicitAnswer (packages : list rstr)
| CountsAnswer (total explicit orphans updates : nat) (versions : list (rstr * rstr))
| ScanAnswer (total : option nat)
| LoadAnswer (index : PackageIndex)
| Recent.

(** [invalidate_status]: a file that cannot be read or removed stays. *)
Definition invalidate_status (x : External) (d : Daemon) : Daemon :=
  match x, persisted d with
  | Failed, Some status => observe (StatusKept status) d
  | Failed, None => d
  | _, _ => set_persisted None d
  end.

(** The second half of [replace_observed_index]: one cache at a time, then the
    status file; then the lock is released. *)
Definition clear_next (d : Daemon) (x : External) : option Daemon :=
  match replacing d with
  | None => None
  | Some (ClearCache name :: rest) => Some (set_replacing rest (set_caches (invalidate_all name) d))
  | Some (RemoveStatusFile :: rest) => Some (set_replacing rest (invalidate_status x d))
  | Some [] => Some (complete d)
  end.

(** One write of a task under the read lock; the status file is written as a
    whole or not at all. *)
Definition apply_write (w : Write) (x : External) (d : Daemon) : Daemon :=
  match w with
  | Persist status => match x with Failed => d | _ => set_persisted (Some status) d end
  | _ => set_caches (write_cache w) d
  end.

Definition update_step (d : Daemon) (snapshot : nat) (writes : list Write) (next : Phase) (x : External) : Daemon * Phase :=
  match writes with
  | w :: rest => (apply_write w x d, Updating snapshot rest next)
  | [] => (d, next)
  end.

(** * Handlers *)

Section handlers.
(** The parameters of the index; whether the package manager is DNF, whether
    the AUR is asked, whether the daemon runs on the system's backends, and
    DNF's syntax check of a selector. *)
Context (ahash : rstr -> Z) (to_lowercase : rstr -> rstr) (fuzzy_score : rstr -> rstr -> option Z).
Context (dnf has_aur production : bool) (validate_query_selector : rstr -> bool) (max_size : nat).

Definition respond (r : Response) : Phase := Finished (Some r).

Definition internal_error (id : Z) : Phase := respond (Error id INTERNAL_ERROR).
Definition validation_error (id : Z) : Phase := respond (Error id INVALID_PARAMS).
Definition not_found_error (id : Z) : Phase := respond (Error id PACKAGE_NOT_FOUND).

(** Requests that read the catalogue of Arch. *)
Definition reads_arch_sync_catalog (r : Request) : bool :=
  match r with
  | Search _ _ _ | Info _ _ | Suggest _ _ _ | Status _ | Explicit _ | ExplicitCount _ => true
  | _ => false
  end.

(** Requests that first look whether the catalogue on disk has changed: with
    DNF those for the installed packages, else those for the catalogue. *)
Definition heals (r : Request) : bool :=
  production && if dnf then match r with Search _ _ _ | Suggest _ _ _ => true | _ => false end
                else reads_arch_sync_catalog r.

Definition query_too_long (r : Request) : bool :=
  match r with
  | Search _ query _ | Suggest _ query _ => MAX_QUERY_LENGTH <? str_len query
  | _ => false
  end.

(** The checks of [handle_request] before the dispatch. *)
Definition admit_request (r : Request) (x : External) : Phase :=
  match x with
  | Limited => respond (Error (request_id r) RATE_LIMITED)
  | _ => if query_too_long r then validation_error (request_id r)
         else if heals r then Healing r else Dispatched r
  end.

(** [heal_installed_catalog_if_changed] and [heal_index_if_catalog_changed]:
    look, wait for the refresh lock, look again, rebuild. *)
Definition heal_step (r : Request) (x : External) : option Phase :=
  match x with
  | HealAnswer true => Some (HealLocking r)
  | HealAnswer false => Some (Dispatched r)
  | Failed => Some (internal_error (request_id r))
  | _ => None
  end.

Definition heal_lock_step (d : Daemon) (r : Request) : option (Daemon * Phase) :=
  if refresh_locked d then None else Some (set_lock true d, HealLocked r).

Definition heal_locked_step (d : Daemon) (r : Request) (x : External) : option (Daemon * Phase) :=
  match x with
  | HealAnswer true => Some (d, Rebuilding (ForRequest r))
  | HealAnswer false => Some (set_lock false d, Dispatched r)
  | Failed => Some (set_lock false d, internal_error (request_id r))
  | _ => None
  end.

Definition search_answer (id : Z) (limit : nat) (debian : bool) (results : list PackageInfo) : Phase :=
  respond (Success id (if debian then DebianSearchResult (take limit results)
                       else SearchResult (take limit results) (length results))).

Definition handle_search (d : Daemon) (id : Z) (query : rstr) (limit : option nat) : Phase :=
  if MAX_QUERY_LENGTH <? str_len query then validation_error id
  else match cache (caches d) !! query with
       | Some cached => search_answer id (search_limit limit) false cached
       | None => SearchMissed id query (search_limit limit) false
       end.

Definition handle_debian_search (d : Daemon) (id : Z) (query : rstr) (limit : option nat) : Phase :=
  if MAX_QUERY_LENGTH <? str_len query then respond (Error id INVALID_PARAMS)
  else match debian_cache (caches d) !! query with
       | Some cached => search_answer id (search_limit limit) true cached
       | None => SearchMissed id query (search_limit limit) true
       end.

Definition set_apt (p : PackageInfo) : PackageInfo :=
  {| pi_name := pi_name p; pi_version := pi_version p; pi_description := pi_description p; pi_source := WireApt |}.

(** The rows a search of an index yields, up to the limit of the cache. *)
Definition index_rows (debian : bool) (index : PackageIndex) (query : rstr) : list PackageInfo :=
  let rows := search to_lowercase fuzzy_score index query MAX_SEARCH_LIMIT in
  if debian then map set_apt rows else rows.

(** [search_index_blocking] on the snapshot; the task of the blocking pool may
    fail. *)
Definition search_index_blocking (d : Daemon) (id : Z) (query : rstr) (limit : nat) (debian : bool) (snapshot : nat) (x : External) : option Phase :=
  match x with
  | Failed => Some (internal_error id)
  | _ => index ← history d !! snapshot; Some (Searched id query limit debian snapshot (index_rows debian index query))
  end.

Definition finish_search (d : Daemon) (id : Z) (query : rstr) (limit : nat) (debian : bool) (snapshot : nat)
    (results : list PackageInfo) : option Phase :=
  let answer := search_answer id limit debian results in
  with_current_index snapshot (if debian then insert_debian_arc query results else insert_arc query results) answer answer d.

Definition handle_suggest (d : Daemon) (id : Z) (query : rstr) (limit : option nat) : Phase :=
  if MAX_QUERY_LENGTH <? str_len query then validation_error id else SuggestReady id query (suggest_limit limit).

Definition run_suggest (d : Daemon) (id : Z) (query : rstr) (limit : nat) (x : External) : option Phase :=
  match x with
  | Failed => Some (internal_error id)
  | _ => snapshot ← index_snapshot d; index ← history d !! snapshot;
         Some (respond (Success id (SuggestResult (suggest fuzzy_score index query limit))))
  end.

(** DNF resolves a name against the installed packages, so its answers are not
    cached. *)
Definition cache_info : bool := negb dnf.

Definition valid_selector (package : rstr) : bool :=
  if dnf then validate_query_selector package else is_ok (validate_package_name package).

Definition handle_info (d : Daemon) (id : Z) (package : rstr) : Phase :=
  if negb (valid_selector package) then validation_error id
  else if cache_info then
    match detailed_cache (caches d) !! package with
    | Some cached => respond (Success id (InfoResult cached))
    | None => InfoUncached id package
    end
  else InfoMissed id package.

Definition check_info_miss (d : Daemon) (id : Z) (package : rstr) : Phase :=
  if bool_decide (is_Some (info_miss_cache (caches d) !! package)) then not_found_error id else InfoMissed id package.

Definition lookup_index (d : Daemon) (id : Z) (package : rstr) (snapshot : nat) : option Phase :=
  index ← history d !! snapshot;
  Some (if cache_info then
          match get ahash index package with
          | Some info => InfoFound id info snapshot
          | None => InfoBackend id package snapshot
          end
        else InfoBackend id package snapshot).

Definition ask_backend (d : Daemon) (id : Z) (package : rstr) (snapshot : nat) (x : External) : option (Daemon * Phase) :=
  match x with
  | BackendAnswer (Some info) =>
      Some (observe (SawPackage package (Some info)) d, InfoFound id (backend_info info cache_info) snapshot)
  | BackendAnswer None =>
      Some (observe (SawPackage package None) d,
            if has_aur && cache_info then InfoAur id package snapshot else InfoAbsent id package snapshot)
  | Failed | TimedOut => Some (d, internal_error id)
  | _ => None
  end.

Definition ask_aur (d : Daemon) (id : Z) (package : rstr) (snapshot : nat) (x : External) : option (Daemon * Phase) :=
  match x with
  | AurAnswer details =>
      Some (observe (SawAur package details) d,
            match List.find (fun p => str_eqb (ad_name p) package) details with
            | Some pkg => InfoFound id (aur_info pkg) snapshot
            | None => InfoAbsent id package snapshot
            end)
  | Failed | TimedOut => Some (d, internal_error id)
  | _ => None
  end.

Definition finish_info (d : Daemon) (id : Z) (info : DetailedPackageInfo) (snapshot : nat) : option Phase :=
  let answer := respond (Success id (InfoResult info)) in
  if cache_info then with_current_index snapshot (insert_info_arc info) answer answer d else Some answer.

Definition finish_info_miss (d : Daemon) (id : Z) (package : rstr) (snapshot : nat) : option Phase :=
  let answer := not_found_error id in
  if cache_info then with_current_index snapshot (insert_info_miss package) answer answer d else Some answer.

Definition handle_status (d : Daemon) (id : Z) : Phase :=
  match system_status (caches d) with
  | Some cached => respond (Success id (StatusResponse cached))
  | None => StatusMissed id
  end.

(** The snapshot on disk; an old one or a failure to read it is a miss. *)
Definition read_persisted (d : Daemon) (id : Z) (x : External) : Phase :=
  match x, persisted d with
  | Failed, _ | _, None => StatusBackend id
  | _, Some cached => respond (Success id (StatusResponse cached))
  end.

Definition query_status (d : Daemon) (id : Z) (x : External) : option (Daemon * Phase) :=
  match x with
  | CountsAnswer total explicit orphans updates versions =>
      Some (observe (SawCounts total explicit orphans updates) d,
            respond (Success id (StatusResponse (status_snapshot total explicit orphans updates versions None).1)))
  | Failed => Some (d, internal_error id)
  | _ => None
  end.

Definition handle_list_explicit (d : Daemon) (id : Z) : Phase :=
  match explicit_packages (caches d) with
  | Some cached => respond (Success id (ExplicitResult cached))
  | None => ExplicitMissed id false
  end.

Definition handle_explicit_count (d : Daemon) (id : Z) : Phase :=
  match explicit_count (caches d) with
  | Some cached => respond (Success id (ExplicitCountResult cached))
  | None => ExplicitMissed id true
  end.

Definition list_explicit (d : Daemon) (id : Z) (count_only : bool) (snapshot : nat) (x : External) : option (Daemon * Phase) :=
  match x with
  | ExplicitAnswer packages => Some (observe (SawExplicit packages) d, Listed id count_only snapshot packages)
  | Failed => Some (d, internal_error id)
  | _ => None
  end.

Definition finish_explicit (d : Daemon) (id : Z) (count_only : bool) (snapshot : nat) (packages : list rstr) : option Phase :=
  let answer := respond (Success id (if count_only then ExplicitCountResult (length packages) else ExplicitResult packages)) in
  with_current_index snapshot (if count_only then update_explicit_count (length packages) else update_explicit_arc packages)
    answer answer d.

(** [PackageCache::clear] of a request: no lock is held between the caches. *)
Definition clear_step (d : Daemon) (id : Z) (remaining : list CacheName) : Daemon * Phase :=
  match remaining with
  | name :: rest => (set_caches (invalidate_all name) d, Clearing id rest)
  | [] => (d, respond (Success id Cleared))
  end.

(** The answer with the size of the published index. *)
Definition index_len (d : Daemon) (id : Z) : option Phase :=
  snapshot ← index_snapshot d; index ← history d !! snapshot;
  Some (respond (Success id (IndexRefreshed (len index)))).

Definition keep (d : Daemon) (p : option Phase) : option (Daemon * Phase) := p' ← p; Some (d, p').

Definition handle_refresh_index (d : Daemon) (id : Z) : Phase :=
  if negb production then validation_error id else RefreshLocking id (index_generation d).

(** Behind the refresh lock: a publication since the request arrived answers
    it; a recent one does too ([Recent]), after the native backends have been
    replaced. *)
Definition refresh_locked_step (d : Daemon) (id : Z) (observed_generation : nat) (x : External) : option (Daemon * Phase) :=
  if refresh_locked d then None
  else if decide (index_generation d = observed_generation) then
    Some (set_lock true d,
          match x with
          | Recent => if dnf then Rebuilding (ForRefresh id) else Debouncing id
          | _ => Rebuilding (ForRefresh id)
          end)
  else keep d (index_len d id).

Definition debounce_step (d : Daemon) (id : Z) (x : External) : Daemon * Phase :=
  (set_lock false d, match x with Failed => internal_error id | _ => Debounced id end).

(** [rebuild_production_index]: load, publish, and release the lock when the
    publication is complete. *)
Definition rebuild_step (d : Daemon) (b : IndexRebuild) (x : External) : option (Daemon * Phase) :=
  match x with
  | LoadAnswer index => Some (observe (SawIndex index) d, Rebuilt b index)
  | Failed => Some (set_lock false d, internal_error (rebuild_id b))
  | _ => None
  end.

(** No task holds the read lock of the index. *)
Definition no_readers (d : Daemon) : Prop := map_Forall (fun _ t => reading (phase t) = None) (tasks d).

#[global] Instance no_readers_dec d : Decision (no_readers d).
Proof. unfold no_readers. apply _. Defined.

Definition publish_step (d : Daemon) (b : IndexRebuild) (index : PackageIndex) (x : External) : option (Daemon * Phase) :=
  match x with
  | Failed => Some (set_lock false d, internal_error (rebuild_id b))
  | _ => match replacing d with
         | None => if decide (no_readers d) then Some (publish index d, Publishing b (len index)) else None
         | Some _ => None
         end
  end.

Definition published_step (d : Daemon) (b : IndexRebuild) (packages : nat) (x : External) : option (Daemon * Phase) :=
  match replacing d with
  | Some _ => d' ← clear_next d x; Some (d', Publishing b packages)
  | None => Some (set_lock false d,
                  match b with
                  | ForRefresh id => respond (Success id (IndexRefreshed packages))
                  | ForRequest r => Dispatched r
                  end)
  end.

Definition dispatch (d : Daemon) (r : Request) : Phase :=
  match r with
  | Search id query limit => handle_search d id query limit
  | Info id package => handle_info d id package
  | Ping id => respond (Success id Pong)
  | Status id => handle_status d id
  | Explicit id => handle_list_explicit d id
  | ExplicitCount id => handle_explicit_count d id
  | CacheStats id => respond (Success id (CacheStatsResult (cache_size (caches d)) max_size))
  | CacheClear id => Clearing id clear_order
  | RefreshIndex id => handle_refresh_index d id
  | Suggest id query limit => handle_suggest d id query limit
  | DebianSearch id query limit => handle_debian_search d id query limit
  end.

(** * The background worker: [refresh_status] and [prewarm_caches] *)

Definition count_step (d : Daemon) (snapshot : nat) (x : External) : option (Daemon * Phase) :=
  match x with
  | CountsAnswer total explicit orphans updates versions =>
      Some (observe (SawCounts total explicit orphans updates) d,
            WorkerCounted snapshot (total, explicit, orphans, updates) versions)
  | Failed => Some (d, Finished None)
  | _ => None
  end.

(** [write_fast_status_async]: the file is written while the snapshot is
    current, else the job ends; a failure to write it does not end the job. *)
Definition fast_status_step (d : Daemon) (snapshot : nat) (counts : nat * nat * nat * nat) (versions : list (rstr * rstr)) (x : External)
  : option Phase :=
  match x with
  | Failed => Some (WorkerWritten snapshot counts versions)
  | _ => with_current_index snapshot [] (WorkerWritten snapshot counts versions) (Finished None) d
  end.

(** The count of the cached status, read before the scan starts; the job ends
    here when scans are off. *)
Definition previous_step (d : Daemon) (snapshot : nat) (counts : nat * nat * nat * nat) (versions : list (rstr * rstr)) (x : External)
  : Phase :=
  match x with
  | Failed => Finished None
  | _ => WorkerScanning snapshot counts versions (system_status (caches d) ≫= scanned_vulnerability_count)
  end.

(** A failed scan keeps the previous count. *)
Definition scan_step (d : Daemon) (snapshot : nat) (counts : nat * nat * nat * nat) (versions : list (rstr * rstr))
    (previous : option nat) (x : External) : option (Daemon * Phase) :=
  match x with
  | ScanAnswer scan =>
      let '(total, explicit, orphans, updates) := counts in
      Some (match scan with Some count => observe (SawScan count) d | None => d end,
            match vulnerability_count_from_scan scan previous with
            | Some count => WorkerReady snapshot (status_snapshot total explicit orphans updates versions (Some count)).1
            | None => Finished None
            end)
  | _ => None
  end.

(** The status file first, then the caches. *)
Definition ready_step (d : Daemon) (snapshot : nat) (result : StatusResult) : option Phase :=
  with_current_index snapshot (Persist result :: update_status result) (Finished None) (Finished None) d.

Definition prewarm_queries : list rstr := [str ""; str "linux"; str "python"; str "node"; str "firefox"; str "git"].

Definition prewarm_step (d : Daemon) (snapshot : nat) (queries : list rstr) (x : External) : option Phase :=
  match queries with
  | [] => Some (Finished None)
  | query :: rest =>
      match x with
      | Failed => Some (Finished None)
      | _ => index ← history d !! snapshot; Some (Prewarmed snapshot query (index_rows false index query) rest)
      end
  end.

Definition prewarmed_step (d : Daemon) (snapshot : nat) (query : rstr) (results : list PackageInfo) (queries : list rstr)
  : option Phase :=
  with_current_index snapshot (insert_arc query results) (Prewarming snapshot queries) (Finished None) d.

(** * One step of one task *)

Definition advance (d : Daemon) (p : Phase) (x : External) : option (Daemon * Phase) :=
  match p with
  | Received r => Some (d, admit_request r x)
  | Healing r => keep d (heal_step r x)
  | HealLocking r => heal_lock_step d r
  | HealLocked r => heal_locked_step d r x
  | Dispatched r => Some (d, dispatch d r)
  | SearchMissed id query limit debian => keep d (s ← index_snapshot d; Some (Searching id query limit debian s))
  | Searching id query limit debian s => keep d (search_index_blocking d id query limit debian s x)
  | Searched id query limit debian s results => keep d (finish_search d id query limit debian s results)
  | SuggestReady id query limit => keep d (run_suggest d id query limit x)
  | InfoUncached id package => Some (d, check_info_miss d id package)
  | InfoMissed id package => keep d (s ← index_snapshot d; Some (InfoLookup id package s))
  | InfoLookup id package s => keep d (lookup_index d id package s)
  | InfoBackend id package s => ask_backend d id package s x
  | InfoAur id package s => ask_aur d id package s x
  | InfoFound id info s => keep d (finish_info d id info s)
  | InfoAbsent id package s => keep d (finish_info_miss d id package s)
  | StatusMissed id => Some (d, read_persisted d id x)
  | StatusBackend id => query_status d id x
  | ExplicitMissed id count_only => keep d (s ← index_snapshot d; Some (Listing id count_only s))
  | Listing id count_only s => list_explicit d id count_only s x
  | Listed id count_only s packages => keep d (finish_explicit d id count_only s packages)
  | Clearing id remaining => Some (clear_step d id remaining)
  | RefreshLocking id observed => refresh_locked_step d id observed x
  | Debouncing id => Some (debounce_step d id x)
  | Debounced id => keep d (index_len d id)
  | Rebuilding b => rebuild_step d b x
  | Rebuilt b index => publish_step d b index x
  | Publishing b packages => published_step d b packages x
  | Updating s writes next => Some (update_step d s writes next x)
  | WorkerStart => keep d (s ← index_snapshot d; Some (WorkerCounting s))
  | WorkerCounting s => count_step d s x
  | WorkerCounted s counts versions => keep d (fast_status_step d s counts versions x)
  | WorkerWritten s counts versions => Some (d, previous_step d s counts versions x)
  | WorkerScanning s counts versions previous => scan_step d s counts versions previous x
  | WorkerReady s result => keep d (ready_step d s result)
  | PrewarmStart => keep d (s ← index_snapshot d; Some (PrewarmListing s))
  | PrewarmListing s =>
      match x with
      | ExplicitAnswer packages => Some (observe (SawExplicit packages) d, PrewarmListed s packages)
      | Failed => Some (d, PrewarmSnapshot)
      | _ => None
      end
  | PrewarmListed s packages => keep d (with_current_index s (update_explicit_arc packages) PrewarmSnapshot PrewarmSnapshot d)
  | PrewarmSnapshot => keep d (s ← index_snapshot d; Some (Prewarming s prewarm_queries))
  | Prewarming s queries => keep d (prewarm_step d s queries x)
  | Prewarmed s query results queries => keep d (prewarmed_step d s query results queries)
  | Finished _ => None
  end.

(** * Interleaving *)

(** What may start: a request and the two background jobs. *)
Definition starts (p : Phase) : Prop :=
  match p with
  | Received _ | WorkerStart | PrewarmStart => True
  | _ => False
  end.

(** The tasks that hold the refresh lock. *)
Definition holds (p : Phase) : bool :=
  match p with HealLocked _ | Debouncing _ | Rebuilding _ | Rebuilt _ _ | Publishing _ _ => true | _ => false end.

(** Where a request can be dropped by its timeout: not inside code that does
    not suspend. *)
Definition suspends (p : Phase) : bool :=
  match p with Updating _ _ _ | Publishing _ _ | Clearing _ _ | Finished _ => false | _ => true end.

(** A request that timed out: its future is dropped, and with it the refresh
    lock. *)
Definition time_out (d : Daemon) (r : Request) (p : Phase) : Daemon * Phase :=
  (if holds p then set_lock false d else d, internal_error (request_id r)).

Definition with_phase (t : Task) (p : Phase) : Task :=
  {| origin := origin t; since := since t; seen := seen t; phase := p |}.

Inductive step : Daemon -> Daemon -> Prop :=
| step_start d tid p :
    tasks d !! tid = None -> starts p ->
    step d (set_tasks (<[tid := {| origin := p; since := completed d; seen := length (log d); phase := p |}]> (tasks d)) d)
| step_task d tid t x d' p' :
    tasks d !! tid = Some t -> advance d (phase t) x = Some (d', p') ->
    step d (set_tasks (<[tid := with_phase t p']> (tasks d')) d')
| step_time_out d tid t r d' p' :
    tasks d !! tid = Some t -> origin t = Received r -> suspends (phase t) = true -> time_out d r (phase t) = (d', p') ->
    step d (set_tasks (<[tid := with_phase t p']> (tasks d')) d')
| step_evict d c :
    evicts (caches d) c ->
    step d (set_caches (fun _ => c) d).

(** A daemon that has just loaded its first index, and the status file it
    found. *)
Definition started (index : PackageIndex) (file : option StatusResult) : Daemon :=
  {| history := [index]; replacing := None; completed := 0; caches := empty_cache; persisted := file; refresh_locked := false;
     log := match file with Some status => [(0%nat, StatusKept status)] | None => [] end; tasks := ∅ |}.

Definition reachable (index : PackageIndex) (file : option StatusResult) (d : Daemon) : Prop := rtc step (started index file) d.
End handlers.
