(* ===== verification/DaemonHandlersProofs.v ===== *)
(** Correctness of [DaemonHandlers]: whatever the interleaving, no answer is
    older than the last index whose publication had completed when the request
    arrived; a coalesced refresh can be stale. *)

From S2P Require Import Prelude Validation SearchIndex DaemonHandlers.
Open Scope Z_scope.
Open Scope omg_scope.

(** What a step keeps: published indexes and recorded answers. *)
Record extends (d d' : Daemon) : Prop := {
  ext_history v i : history d !! v = Some i -> history d' !! v = Some i;
  ext_log o : o ∈ log d -> o ∈ log d';
  ext_completed : (completed d <= completed d')%nat;
  ext_length : (length (history d) <= length (history d'))%nat
}.

#[export] Instance extends_refl : Reflexive extends.
Proof. intros d. by split. Qed.

Lemma extends_eq d d' : history d' = history d -> log d' = log d -> completed d' = completed d -> extends d d'.
Proof. intros H1 H2 H3. split; rewrite ?H1, ?H2, ?H3; auto. Qed.

Lemma extends_observe o d : extends d (observe o d).
Proof. split; simpl; [done| |done|done]. intros x Hx. apply elem_of_app. by left. Qed.

Lemma elem_of_observe o d : (current d, o) ∈ log (observe o d).
Proof. simpl. apply elem_of_app. right. by apply list_elem_of_singleton. Qed.

Section proofs.
Context (ahash : rstr -> Z) (to_lowercase : rstr -> rstr) (fuzzy_score : rstr -> rstr -> option Z).
Context (dnf has_aur production : bool) (validate_query_selector : rstr -> bool) (max_size : nat).

Abbreviation rows_of := (index_rows to_lowercase fuzzy_score).
Abbreviation caches_info := (cache_info dnf).

(** * Evidence for an answer, from index [s] on *)

Definition rows_ok (d : Daemon) (s : nat) (debian : bool) (query : rstr) (rows : list PackageInfo) : Prop :=
  exists v index, (s <= v)%nat /\ history d !! v = Some index /\ rows = rows_of debian index query.

(** [info] answered a lookup of [n] while index [v] was current. *)
Definition info_source (d : Daemon) (v : nat) (n : rstr) (info : DetailedPackageInfo) : Prop :=
  (exists index, history d !! v = Some index /\ get ahash index n = Some info)
  \/ (exists b, (v, SawPackage n (Some b)) ∈ log d /\ info = backend_info b caches_info)
  \/ (exists details pkg, (v, SawAur n details) ∈ log d /\ pkg ∈ details /\ ad_name pkg = n /\ info = aur_info pkg).

(** An answer about [package]: found under that name, or by that name. *)
Definition info_ok (d : Daemon) (s : nat) (package : rstr) (info : DetailedPackageInfo) : Prop :=
  exists v n, (s <= v)%nat /\ (n = package \/ di_name info = package) /\ info_source d v n info.

Definition backend_miss (d : Daemon) (s : nat) (package : rstr) : Prop :=
  exists v, (s <= v)%nat /\ (v, SawPackage package None) ∈ log d.

Definition aur_miss (d : Daemon) (s : nat) (package : rstr) : Prop :=
  exists v details, (s <= v)%nat /\ (v, SawAur package details) ∈ log d /\ forall p, p ∈ details -> ad_name p ≠ package.

Definition index_miss (d : Daemon) (s : nat) (package : rstr) : Prop :=
  exists v index, (s <= v)%nat /\ history d !! v = Some index /\ get ahash index package = None.

Definition miss_ok (d : Daemon) (s : nat) (package : rstr) : Prop :=
  (caches_info = true -> index_miss d s package) /\ backend_miss d s package /\
  (has_aur && caches_info = true -> aur_miss d s package).

Definition explicit_ok (d : Daemon) (s : nat) (packages : list rstr) : Prop :=
  exists v, (s <= v)%nat /\ (v, SawExplicit packages) ∈ log d.

Definition count_ok (d : Daemon) (s : nat) (count : nat) : Prop :=
  (exists packages, explicit_ok d s packages /\ count = length packages)
  \/ (exists v t o u, (s <= v)%nat /\ (v, SawCounts t count o u) ∈ log d).

(** A number of vulnerabilities comes from a scan; without one it is zero. *)
Definition scanned (d : Daemon) (count : nat) : Prop := exists v, (v, SawScan count) ∈ log d.

Definition vulnerabilities_ok (d : Daemon) (r : StatusResult) : Prop :=
  if vulnerabilities_scanned r then scanned d (security_vulnerabilities r) else security_vulnerabilities r = 0%nat.

Definition status_ok (d : Daemon) (s : nat) (r : StatusResult) : Prop :=
  (exists v, (s <= v)%nat /\
    (v, SawCounts (total_packages r) (explicit_total r) (orphan_packages r) (updates_available r)) ∈ log d) /\
  vulnerabilities_ok d r.

(** What the status file says: a status counted since, or the contents of a
    file that the start of the daemon or a publication left in place since. *)
Definition persisted_ok (d : Daemon) (s : nat) (r : StatusResult) : Prop :=
  status_ok d s r \/ exists v, (s <= v)%nat /\ (v, StatusKept r) ∈ log d.

Lemma rows_ok_mono d d' s s' b q r : extends d d' -> (s' <= s)%nat -> rows_ok d s b q r -> rows_ok d' s' b q r.
Proof. intros [H _ _ _] Hs (v & i & Hv & Hi & ->). exists v, i. split_and!; [lia|auto|done]. Qed.

Lemma info_source_mono d d' v n i : extends d d' -> info_source d v n i -> info_source d' v n i.
Proof. intros [H1 H2 _ _]. unfold info_source. naive_solver. Qed.

Lemma info_ok_mono d d' s s' p i : extends d d' -> (s' <= s)%nat -> info_ok d s p i -> info_ok d' s' p i.
Proof.
  intros He Hs (v & n & Hv & Hn & Hi). exists v, n. split_and!; [lia|done|]. by eapply info_source_mono.
Qed.

Lemma index_miss_mono d d' s s' p : extends d d' -> (s' <= s)%nat -> index_miss d s p -> index_miss d' s' p.
Proof. intros [H _ _ _] Hs (v & i & Hv & Hi & Hg). exists v, i. split_and!; [lia|auto|done]. Qed.

Lemma backend_miss_mono d d' s s' p : extends d d' -> (s' <= s)%nat -> backend_miss d s p -> backend_miss d' s' p.
Proof. intros [_ H _ _] Hs (v & Hv & Hl). exists v. split; [lia|auto]. Qed.

Lemma aur_miss_mono d d' s s' p : extends d d' -> (s' <= s)%nat -> aur_miss d s p -> aur_miss d' s' p.
Proof. intros [_ H _ _] Hs (v & ds & Hv & Hl & Hn). exists v, ds. split_and!; [lia|auto|done]. Qed.

Lemma miss_ok_mono d d' s s' p : extends d d' -> (s' <= s)%nat -> miss_ok d s p -> miss_ok d' s' p.
Proof.
  intros He Hs (H1 & H2 & H3). split_and!; eauto using index_miss_mono, backend_miss_mono, aur_miss_mono.
Qed.

Lemma explicit_ok_mono d d' s s' l : extends d d' -> (s' <= s)%nat -> explicit_ok d s l -> explicit_ok d' s' l.
Proof. intros [_ H _ _] Hs (v & Hv & Hl). exists v. split; [lia|auto]. Qed.

Lemma count_ok_mono d d' s s' n : extends d d' -> (s' <= s)%nat -> count_ok d s n -> count_ok d' s' n.
Proof.
  intros He Hs [(l & Hl & ->)|(v & t & o & u & Hv & Hl)]; [left; eauto using explicit_ok_mono|].
  right. exists v, t, o, u. split; [lia|]. by apply He.
Qed.

Lemma scanned_mono d d' n : extends d d' -> scanned d n -> scanned d' n.
Proof. intros [_ H _ _] [v Hv]. exists v. auto. Qed.

Lemma status_ok_mono d d' s s' r : extends d d' -> (s' <= s)%nat -> status_ok d s r -> status_ok d' s' r.
Proof.
  intros He Hs [(v & Hv & Hl) Hn]. split; [exists v; split; [lia|by apply He]|].
  unfold vulnerabilities_ok in *. destruct (vulnerabilities_scanned r); [by eapply scanned_mono|done].
Qed.

Lemma persisted_ok_mono d d' s s' r : extends d d' -> (s' <= s)%nat -> persisted_ok d s r -> persisted_ok d' s' r.
Proof.
  intros He Hs [H|(v & Hv & Hl)]; [left; by eapply status_ok_mono|right]. exists v. split; [lia|by apply He].
Qed.

(** * Coherent caches *)

Record cache_ok (d : Daemon) (s : nat) (c : PackageCache) : Prop := {
  ok_search q r : cache c !! q = Some r -> rows_ok d s false q r;
  ok_debian q r : debian_cache c !! q = Some r -> rows_ok d s true q r;
  ok_info n i : detailed_cache c !! n = Some i -> info_ok d s n i;
  ok_miss n b : info_miss_cache c !! n = Some b -> miss_ok d s n;
  ok_status r : system_status c = Some r -> status_ok d s r;
  ok_explicit l : explicit_packages c = Some l -> explicit_ok d s l;
  ok_count n : explicit_count c = Some n -> count_ok d s n
}.

(** No entry is left in a sub-cache. *)
Definition cleared (name : CacheName) (c : PackageCache) : Prop :=
  match name with
  | SearchCache => cache c = ∅
  | DebianCache => debian_cache c = ∅
  | DetailedCache => detailed_cache c = ∅
  | InfoMissCache => info_miss_cache c = ∅
  | StatusCache => system_status c = None
  | ExplicitCache => explicit_packages c = None
  | ExplicitCountCache => explicit_count c = None
  end.

Lemma cache_ok_mono d d' s s' c : extends d d' -> (s' <= s)%nat -> cache_ok d s c -> cache_ok d' s' c.
Proof.
  intros He Hs [H1 H2 H3 H4 H5 H6 H7]. split; intros;
    eauto using rows_ok_mono, info_ok_mono, miss_ok_mono, status_ok_mono, explicit_ok_mono, count_ok_mono.
Qed.

Lemma cache_ok_evicts d s c c' : evicts c c' -> cache_ok d s c -> cache_ok d s c'.
Proof.
  intros [E1 E2 E3 E4 E5 E6 E7] [H1 H2 H3 H4 H5 H6 H7].
  split; intros; eauto using lookup_weaken.
Qed.

Lemma cleared_evicts name c c' : evicts c c' -> cleared name c -> cleared name c'.
Proof.
  intros [E1 E2 E3 E4 E5 E6 E7].
  destruct name; simpl; intros H; try rewrite H in *; try (by apply map_empty; intros i; apply eq_None_not_Some; intros [x Hx]; eapply lookup_weaken in Hx; [|done]; rewrite lookup_empty in Hx).
  - destruct (system_status c') eqn:E; [|done]. by specialize (E5 _ eq_refl).
  - destruct (explicit_packages c') eqn:E; [|done]. by specialize (E6 _ eq_refl).
  - destruct (explicit_count c') eqn:E; [|done]. by specialize (E7 _ eq_refl).
Qed.

Lemma invalidate_evicts name c : evicts c (invalidate_all name c).
Proof. destruct name; split; simpl; try done; try apply map_empty_subseteq. Qed.

Lemma invalidate_cleared name c : cleared name (invalidate_all name c).
Proof. by destruct name. Qed.

Lemma all_cleared_ok d s c : (forall name, cleared name c) -> cache_ok d s c.
Proof.
  intros H. pose proof (H SearchCache) as H1; pose proof (H DebianCache) as H2; pose proof (H DetailedCache) as H3;
    pose proof (H InfoMissCache) as H4; pose proof (H StatusCache) as H5; pose proof (H ExplicitCache) as H6;
    pose proof (H ExplicitCountCache) as H7; simpl in *.
  split; intros *; rewrite ?H1, ?H2, ?H3, ?H4, ?H5, ?H6, ?H7, ?lookup_empty; done.
Qed.

(** *** What handlers put into the caches *)

Definition write_ok (d : Daemon) (s : nat) (w : Write) : Prop :=
  match w with
  | PutSearch q r => rows_ok d s false q r
  | PutDebian q r => rows_ok d s true q r
  | PutInfo i => info_ok d s (di_name i) i
  | PutMiss p => miss_ok d s p
  | PutExplicit l => explicit_ok d s l
  | PutCount n => count_ok d s n
  | PutStatus r | Persist r => status_ok d s r
  | DropMiss _ | DropExplicit => True
  end.

Lemma write_ok_mono d d' s s' w : extends d d' -> (s' <= s)%nat -> write_ok d s w -> write_ok d' s' w.
Proof.
  intros He Hs. destruct w; simpl; eauto using rows_ok_mono, info_ok_mono, miss_ok_mono, status_ok_mono, explicit_ok_mono, count_ok_mono.
Qed.

Lemma cache_ok_write d s w c : write_ok d s w -> cache_ok d s c -> cache_ok d s (write_cache w c).
Proof.
  intros Hw [H1 H2 H3 H4 H5 H6 H7]. destruct w; simpl in *; split; simpl; try assumption;
    try (intros n b [[<- <-]|[_ Hl]]%lookup_insert_Some; [assumption|by eauto]);
    try (intros n [= <-]; assumption); try (intros n; discriminate).
  intros n b [_ Hl]%lookup_delete_Some. by eauto.
Qed.

Lemma explicit_writes d s (count_only : bool) l :
  explicit_ok d s l -> Forall (write_ok d s) (if count_only then update_explicit_count (length l) else update_explicit_arc l).
Proof. intros Hl. assert (count_ok d s (length l)) by (left; eauto). destruct count_only; by repeat apply Forall_cons_2. Qed.

Lemma status_writes d s r : status_ok d s r -> Forall (write_ok d s) (Persist r :: update_status r).
Proof.
  intros Hr. assert (count_ok d s (explicit_total r)) by (destruct Hr as [(v & Hv & Hl) _]; right; eauto 8).
  by repeat apply Forall_cons_2.
Qed.

(** * The invariant *)

Record inv (d : Daemon) : Prop := {
  inv_history : history d ≠ [];
  inv_completed : (completed d <= current d)%nat;
  inv_idle : replacing d = None -> completed d = current d;
  inv_cache : cache_ok d (completed d) (caches d);
  inv_cleared rem name : replacing d = Some rem -> (ClearCache name ∉ rem) -> cleared name (caches d);
  inv_persisted r : persisted d = Some r -> persisted_ok d (completed d) r;
  inv_removed rem r : replacing d = Some rem -> (RemoveStatusFile ∉ rem) -> persisted d = Some r -> persisted_ok d (current d) r
}.

(** The answer to a request that arrived when [s] was the last complete
    publication. *)
Definition answers (d : Daemon) (s : nat) (r : Request) (resp : Response) : Prop :=
  response_id resp = request_id r /\
  match r, resp with
  | _, Error _ RATE_LIMITED => True
  | _, Error _ INTERNAL_ERROR => True
  | Search _ q _, Error _ INVALID_PARAMS | Suggest _ q _, Error _ INVALID_PARAMS | DebianSearch _ q _, Error _ INVALID_PARAMS =>
      MAX_QUERY_LENGTH < str_len q
  | Info _ p, Error _ INVALID_PARAMS => valid_selector dnf validate_query_selector p = false
  | Info _ p, Error _ PACKAGE_NOT_FOUND => miss_ok d s p
  | RefreshIndex _, Error _ INVALID_PARAMS => production = false
  | Search _ q limit, Success _ (SearchResult packages total) =>
      exists rows, rows_ok d s false q rows /\ packages = take (search_limit limit) rows /\ total = length rows
  | DebianSearch _ q limit, Success _ (DebianSearchResult packages) =>
      exists rows, rows_ok d s true q rows /\ packages = take (search_limit limit) rows
  | Suggest _ q limit, Success _ (SuggestResult names) =>
      exists v index, (s <= v)%nat /\ history d !! v = Some index /\ names = suggest fuzzy_score index q (suggest_limit limit)
  | Info _ p, Success _ (InfoResult info) => info_ok d s p info
  | Status _, Success _ (StatusResponse status) => persisted_ok d s status
  | Explicit _, Success _ (ExplicitResult packages) => explicit_ok d s packages
  | ExplicitCount _, Success _ (ExplicitCountResult count) => count_ok d s count
  | RefreshIndex _, Success _ (IndexRefreshed packages) =>
      exists v index, (s <= v)%nat /\ history d !! v = Some index /\ packages = len index
  | Ping _, Success _ Pong => True
  | CacheStats _, Success _ (CacheStatsResult _ m) => m = max_size
  | CacheClear _, Success _ Cleared => True
  | _, _ => False
  end.

Lemma answers_mono d d' s r resp : extends d d' -> answers d s r resp -> answers d' s r resp.
Proof.
  intros He. unfold answers. intros [Hid H]. split; [done|].
  assert (Hh : forall v i, history d !! v = Some i -> history d' !! v = Some i) by apply He.
  destruct r, resp as [? result|? code]; try destruct result; try destruct code; try done;
    try (by eapply info_ok_mono; eauto); try (by eapply miss_ok_mono; eauto);
    try (by eapply explicit_ok_mono; eauto); try (by eapply count_ok_mono; eauto); try (by eapply persisted_ok_mono; eauto);
    try (destruct H as (rows & Hr & H); exists rows; split; [by eapply rows_ok_mono; eauto|done]);
    destruct H as (v & i & Hv & Hi & H); exists v, i; auto.
Qed.

(** The index a task works on is recent enough and still known. *)
Definition snapshot_ok (d : Daemon) (s snapshot : nat) : Prop :=
  (s <= snapshot)%nat /\ exists index, history d !! snapshot = Some index.

Definition snapshot_rows (d : Daemon) (snapshot : nat) (debian : bool) (query : rstr) (results : list PackageInfo) : Prop :=
  exists index, history d !! snapshot = Some index /\ results = rows_of debian index query.

Definition search_request (debian : bool) (id : Z) (query : rstr) (limit : option nat) : Request :=
  if debian then DebianSearch id query limit else Search id query limit.

Definition explicit_request (count_only : bool) (id : Z) : Request := if count_only then ExplicitCount id else Explicit id.

Definition counts_ok (d : Daemon) (s : nat) (counts : nat * nat * nat * nat) : Prop :=
  let '(t, e, o, u) := counts in exists v, (s <= v)%nat /\ (v, SawCounts t e o u) ∈ log d.

Lemma counts_ok_mono d d' s counts : extends d d' -> counts_ok d s counts -> counts_ok d' s counts.
Proof. intros He. destruct counts as [[[t e] o] u]. intros (v & Hv & Hl). exists v. split; [done|by apply He]. Qed.

Definition rebuild_request (b : IndexRebuild) : Request :=
  match b with ForRefresh id => RefreshIndex id | ForRequest r => r end.

(** What holds of a task at each point. *)
Fixpoint phase_ok (d : Daemon) (s : nat) (from p : Phase) : Prop :=
  match p with
  | Received r => from = p
  | Healing r | HealLocking r | HealLocked r | Dispatched r => from = Received r
  | SearchMissed id q limit debian => exists lo, from = Received (search_request debian id q lo) /\ limit = search_limit lo
  | Searching id q limit debian sn =>
      (exists lo, from = Received (search_request debian id q lo) /\ limit = search_limit lo) /\ snapshot_ok d s sn
  | Searched id q limit debian sn rows =>
      (exists lo, from = Received (search_request debian id q lo) /\ limit = search_limit lo) /\ snapshot_ok d s sn
      /\ snapshot_rows d sn debian q rows
  | SuggestReady id q limit => exists lo, from = Received (Suggest id q lo) /\ limit = suggest_limit lo
  | InfoUncached id p | InfoMissed id p => from = Received (Info id p)
  | InfoLookup id p sn => from = Received (Info id p) /\ snapshot_ok d s sn
  | InfoBackend id p sn => from = Received (Info id p) /\ snapshot_ok d s sn /\ (caches_info = true -> index_miss d sn p)
  | InfoAur id p sn =>
      from = Received (Info id p) /\ snapshot_ok d s sn /\ (caches_info = true -> index_miss d sn p) /\ backend_miss d sn p
  | InfoFound id info sn => exists p, from = Received (Info id p) /\ snapshot_ok d s sn /\
      exists v, (sn <= v)%nat /\ info_source d v p info
  | InfoAbsent id p sn => from = Received (Info id p) /\ snapshot_ok d s sn /\ miss_ok d sn p
  | StatusMissed id | StatusBackend id => from = Received (Status id)
  | ExplicitMissed id count_only => from = Received (explicit_request count_only id)
  | Listing id count_only sn => from = Received (explicit_request count_only id) /\ snapshot_ok d s sn
  | Listed id count_only sn packages =>
      from = Received (explicit_request count_only id) /\ snapshot_ok d s sn /\ explicit_ok d sn packages
  | Clearing id _ => from = Received (CacheClear id)
  | RefreshLocking id _ | Debouncing id | Debounced id => from = Received (RefreshIndex id)
  | Rebuilding b | Rebuilt b _ => from = Received (rebuild_request b)
  | Publishing b packages =>
      from = Received (rebuild_request b) /\
      exists v index, (s <= v)%nat /\ history d !! v = Some index /\ packages = len index
  | Updating sn writes next =>
      snapshot_ok d s sn /\ Forall (write_ok d sn) writes /\ reading next = None /\ phase_ok d s from next
  | WorkerStart => from = WorkerStart
  | WorkerCounting sn => from = WorkerStart /\ snapshot_ok d s sn
  | WorkerCounted sn counts _ | WorkerWritten sn counts _ =>
      from = WorkerStart /\ snapshot_ok d s sn /\ counts_ok d sn counts
  | WorkerScanning sn counts _ previous =>
      from = WorkerStart /\ snapshot_ok d s sn /\ counts_ok d sn counts /\ forall n, previous = Some n -> scanned d n
  | WorkerReady sn result => from = WorkerStart /\ snapshot_ok d s sn /\ status_ok d sn result
  | PrewarmStart | PrewarmSnapshot => from = PrewarmStart
  | PrewarmListing sn | Prewarming sn _ => from = PrewarmStart /\ snapshot_ok d s sn
  | PrewarmListed sn packages => from = PrewarmStart /\ snapshot_ok d s sn /\ explicit_ok d sn packages
  | Prewarmed sn q rows _ => from = PrewarmStart /\ snapshot_ok d s sn /\ snapshot_rows d sn false q rows
  | Finished None => from = WorkerStart \/ from = PrewarmStart
  | Finished (Some resp) => exists r, from = Received r /\ answers d s r resp
  end.

Definition task_ok (d : Daemon) (t : Task) : Prop := (since t <= completed d)%nat /\ phase_ok d (since t) (origin t) (phase t).

Record daemon_ok (d : Daemon) : Prop := {
  ok_inv : inv d;
  ok_tasks tid t : tasks d !! tid = Some t -> task_ok d t;
  ok_readers tid t sn : tasks d !! tid = Some t -> reading (phase t) = Some sn -> replacing d = None /\ sn = current d
}.

Lemma snapshot_ok_mono d d' s sn : extends d d' -> snapshot_ok d s sn -> snapshot_ok d' s sn.
Proof. intros He [Hs [i Hi]]. split; [done|]. exists i. by apply He. Qed.

Lemma snapshot_rows_mono d d' sn b q r : extends d d' -> snapshot_rows d sn b q r -> snapshot_rows d' sn b q r.
Proof. intros He (i & Hi & ->). exists i. split; [by apply He|done]. Qed.

Lemma phase_ok_mono d d' s from p : extends d d' -> phase_ok d s from p -> phase_ok d' s from p.
Proof.
  intros He. assert (Hl : forall o, o ∈ log d -> o ∈ log d') by apply He.
  assert (Hh : forall v i, history d !! v = Some i -> history d' !! v = Some i) by apply He.
  induction p; simpl; try done;
    try (intros H; destruct_and?; split_and?; eauto using snapshot_ok_mono, snapshot_rows_mono, index_miss_mono,
           backend_miss_mono, miss_ok_mono, explicit_ok_mono, status_ok_mono, counts_ok_mono, scanned_mono; fail).
  - intros (p & Hf & Hs & v & Hv & Hi). exists p. split_and!; [done|by eapply snapshot_ok_mono|].
    exists v. split; [done|]. by eapply info_source_mono.
  - intros (Hf & v & i & Hv & Hi & ->). split; [done|]. exists v, i. auto.
  - intros (Hs & Hw & Hr & Hp). split_and!; [by eapply snapshot_ok_mono| |done|auto].
    eapply Forall_impl; [done|]. intros w. by apply write_ok_mono.
  - destruct response as [resp|]; [|done]. intros (r & Hf & Ha). exists r. split; [done|]. by eapply answers_mono.
Qed.

(** * Steps *)

Record stepped (d : Daemon) (s : nat) (from : Phase) (d' : Daemon) (p' : Phase) : Prop := {
  st_inv : inv d';
  st_extends : extends d d';
  st_tasks : tasks d' = tasks d;
  st_phase : phase_ok d' s from p'
}.

Lemma inv_same d d' :
  extends d d' -> history d' = history d -> replacing d' = replacing d -> completed d' = completed d -> caches d' = caches d ->
  persisted d' = persisted d -> inv d -> inv d'.
Proof.
  intros He Hh Hr Hc Hca Hpe [H1 H2 H3 H4 H5 H6 H7]. unfold current in *.
  split; unfold current; rewrite ?Hh, ?Hr, ?Hc, ?Hca, ?Hpe; auto.
  - eapply cache_ok_mono; [done|reflexivity|done].
  - intros r Hp. eapply persisted_ok_mono; [done|reflexivity|auto].
  - intros rem r Hrem Hn Hp. eapply persisted_ok_mono; [done|reflexivity|eauto].
Qed.

Lemma stepped_keep d s from p' : inv d -> phase_ok d s from p' -> stepped d s from d p'.
Proof. by split. Qed.

Lemma stepped_observe d s from p' o : inv d -> phase_ok (observe o d) s from p' -> stepped d s from (observe o d) p'.
Proof. intros Hi Hp. split; [by eapply inv_same; eauto using extends_observe|apply extends_observe|done|done]. Qed.

Lemma stepped_lock d s from p' b : inv d -> phase_ok d s from p' -> stepped d s from (set_lock b d) p'.
Proof.
  intros Hi Hp. assert (He : extends d (set_lock b d)) by (by apply extends_eq).
  split; [by eapply inv_same|done|done|by eapply phase_ok_mono].
Qed.

Lemma stepped_cache d s from p' f :
  inv d -> evicts (caches d) (f (caches d)) -> phase_ok d s from p' -> stepped d s from (set_caches f d) p'.
Proof.
  intros [H1 H2 H3 H4 H5 H6 H7] Hev Hp. assert (He : extends d (set_caches f d)) by (by apply extends_eq).
  split; [|done|done|by eapply phase_ok_mono]. split; simpl; [done..| | |done|done].
  - eapply cache_ok_mono; [done|reflexivity|]. by eapply cache_ok_evicts.
  - intros rem name Hr Hn. eapply cleared_evicts; eauto.
Qed.

Lemma current_lookup d : inv d -> exists index, history d !! current d = Some index.
Proof.
  intros [H _ _ _ _ _ _]. apply lookup_lt_is_Some. unfold current. destruct (history d); [done|simpl; lia].
Qed.

Lemma snapshot_now d s sn :
  inv d -> (s <= completed d)%nat -> index_snapshot d = Some sn -> sn = current d /\ snapshot_ok d s sn.
Proof.
  intros Hi Hs H. unfold index_snapshot in H. destruct (replacing d) eqn:Hr; [done|]. injection H as <-. split; [done|].
  split; [rewrite <- (inv_idle _ Hi Hr); done|by apply current_lookup].
Qed.

(** The writes of [with_current_index] have to be right for the snapshot. *)
Lemma with_current_ok d sn writes ran skipped p' s from :
  with_current_index sn writes ran skipped d = Some p' ->
  snapshot_ok d s sn -> Forall (write_ok d sn) writes -> reading ran = None ->
  phase_ok d s from ran -> phase_ok d s from skipped -> phase_ok d s from p'.
Proof.
  intros H Hs Hw Hr H1 H2. unfold with_current_index in H. destruct (replacing d); [done|]. injection H as <-.
  destruct (decide _); [by split_and!|done].
Qed.

(** A write under the read lock, while the index is the current one. *)
Lemma apply_write_ok d w x :
  inv d -> replacing d = None -> write_ok d (current d) w -> inv (apply_write w x d) /\ extends d (apply_write w x d).
Proof.
  intros Hi Hr Hw. pose proof Hi as [H1 H2 H3 H4 H5 H6 H7]. specialize (H3 Hr).
  assert (Hf : forall f, extends d (set_caches f d)) by (intros f; by apply extends_eq).
  assert (Hc : inv (set_caches (write_cache w) d)).
  { split; simpl; [done..| |by rewrite Hr|done|by rewrite Hr]. eapply cache_ok_mono; [apply Hf|reflexivity|].
    rewrite H3 in *. by apply cache_ok_write. }
  destruct w; try (split; [exact Hc|apply Hf]).
  assert (Hp : extends d (set_persisted (Some result) d)) by (by apply extends_eq).
  assert (Hip : inv (set_persisted (Some result) d)).
  { split; simpl; [done..| | | |by rewrite Hr].
    - by eapply cache_ok_mono; [exact Hp|reflexivity|].
    - intros rem name. by rewrite Hr.
    - intros r [= <-]. left. rewrite H3. by eapply status_ok_mono; [exact Hp|reflexivity|]. }
  simpl. by destruct x.
Qed.

Lemma phase_respond d s r resp : answers d s r resp -> phase_ok d s (Received r) (Finished (Some resp)).
Proof. intros H. by exists r. Qed.

Lemma internal_ok d s r id : request_id r = id -> phase_ok d s (Received r) (internal_error id).
Proof. intros <-. apply phase_respond. split; [done|]. by destruct r. Qed.

Lemma admit_ok d s r x : phase_ok d s (Received r) (admit_request dnf production r x).
Proof.
  unfold admit_request.
  assert (Hq : query_too_long r = true -> phase_ok d s (Received r) (validation_error (request_id r))).
  { intros Hq. apply phase_respond. split; [done|]. destruct r; try done; by apply Z.ltb_lt. }
  assert (Hrl : phase_ok d s (Received r) (respond (Error (request_id r) RATE_LIMITED))).
  { apply phase_respond. split; [done|]. by destruct r. }
  destruct x; destruct (query_too_long r); auto; by destruct (heals _ _ r).
Qed.

Lemma heal_ok d s r x p' : heal_step r x = Some p' -> phase_ok d s (Received r) p'.
Proof. unfold heal_step. destruct x as [| |[]| | | | | | | | |]; try done; intros [= <-]; try done. by apply internal_ok. Qed.

Lemma heal_locked_ok d s r x d' p' : inv d -> heal_locked_step d r x = Some (d', p') -> stepped d s (Received r) d' p'.
Proof.
  intros Hi. unfold heal_locked_step. destruct x as [| |[]| | | | | | | | |]; try done; intros [= <- <-];
    [by apply stepped_keep|by apply stepped_lock|]. apply stepped_lock; [done|by apply internal_ok].
Qed.

Lemma search_answer_ok d s id q lo debian rows :
  rows_ok d s debian q rows ->
  phase_ok d s (Received (search_request debian id q lo)) (search_answer id (search_limit lo) debian rows).
Proof. intros H. apply phase_respond. unfold search_request. destruct debian; split; simpl; eauto. Qed.

Lemma dispatch_ok d s r : inv d -> (s <= completed d)%nat -> phase_ok d s (Received r) (dispatch dnf production validate_query_selector max_size d r).
Proof.
  intros Hi Hs. assert (Hc : cache_ok d s (caches d)) by (eapply cache_ok_mono; [reflexivity|exact Hs|apply Hi]).
  assert (Hm : forall q, (MAX_QUERY_LENGTH <? str_len q) = true -> MAX_QUERY_LENGTH < str_len q) by (intros q; apply Z.ltb_lt).
  destruct r; simpl dispatch; try (apply phase_respond; by split).
  - unfold handle_search. destruct (_ <? _) eqn:E; [apply phase_respond; split; simpl; auto|].
    destruct (cache (caches d) !! query) eqn:Eq; [|exists limit; done]. apply (search_answer_ok d s id query limit false).
    by apply Hc.
  - unfold handle_info. destruct (valid_selector _ _ _) eqn:E; simpl; [|apply phase_respond; by split].
    destruct (cache_info dnf); [|done]. destruct (detailed_cache _ !! _) eqn:Eq; [|done].
    apply phase_respond. split; [done|]. by apply Hc.
  - unfold handle_status. destruct (system_status _) eqn:E; [|done]. apply phase_respond. split; [done|]. left. by apply Hc.
  - unfold handle_list_explicit. destruct (explicit_packages _) eqn:E; [|done]. apply phase_respond. split; [done|]. by apply Hc.
  - unfold handle_explicit_count. destruct (explicit_count _) eqn:E; [|done]. apply phase_respond. split; [done|]. by apply Hc.
  - done.
  - unfold handle_refresh_index. destruct production eqn:E; simpl; [done|]. apply phase_respond. by split.
  - unfold handle_suggest. destruct (_ <? _) eqn:E; [apply phase_respond; split; simpl; auto|]. exists limit. done.
  - unfold handle_debian_search. destruct (_ <? _) eqn:E; [apply phase_respond; split; simpl; auto|].
    destruct (debian_cache (caches d) !! query) eqn:Eq; [|exists limit; done]. apply (search_answer_ok d s id query limit true).
    by apply Hc.
Qed.
Lemma request_id_search debian id q lo : request_id (search_request debian id q lo) = id.
Proof. by destruct debian. Qed.

Lemma search_blocking_ok d s id q lo debian sn x p' :
  snapshot_ok d s sn ->
  search_index_blocking to_lowercase fuzzy_score d id q (search_limit lo) debian sn x = Some p' ->
  phase_ok d s (Received (search_request debian id q lo)) p'.
Proof.
  intros Hsn H. unfold search_index_blocking in H.
  destruct x; try (apply bind_Some in H as (i & Hi & [= <-]); split_and!; [by eexists|done|by exists i]).
  injection H as <-. apply internal_ok, request_id_search.
Qed.

Lemma finish_search_ok d s id q lo debian sn rows p' :
  snapshot_ok d s sn -> snapshot_rows d sn debian q rows ->
  finish_search d id q (search_limit lo) debian sn rows = Some p' ->
  phase_ok d s (Received (search_request debian id q lo)) p'.
Proof.
  intros Hsn (i & Hl & ->) H. unfold finish_search in H.
  assert (Hr : rows_ok d sn debian q (rows_of debian i q)) by (exists sn, i; done).
  assert (Ha : phase_ok d s (Received (search_request debian id q lo)) (search_answer id (search_limit lo) debian (rows_of debian i q))).
  { apply search_answer_ok. by eapply rows_ok_mono; [reflexivity|apply Hsn|]. }
  eapply with_current_ok; [exact H|done| |done|done|done]. destruct debian; by apply Forall_cons_2.
Qed.

Lemma run_suggest_ok d s id q lo x p' :
  inv d -> (s <= completed d)%nat -> run_suggest fuzzy_score d id q (suggest_limit lo) x = Some p' ->
  phase_ok d s (Received (Suggest id q lo)) p'.
Proof.
  intros Hi Hs H. unfold run_suggest in H.
  destruct x; try (apply bind_Some in H as (sn & Hsn & H); apply bind_Some in H as (i & Hl & [= <-]);
    apply phase_respond; split; [done|]; exists sn, i; split_and!; [|done|done];
    apply (snapshot_now _ s) in Hsn as [_ [? _]]; done).
  injection H as <-. by apply internal_ok.
Qed.

Lemma lookup_index_ok d s id p sn p' :
  snapshot_ok d s sn -> lookup_index ahash dnf d id p sn = Some p' -> phase_ok d s (Received (Info id p)) p'.
Proof.
  intros Hsn H. unfold lookup_index in H. apply bind_Some in H as (i & Hl & [= <-]).
  destruct (cache_info dnf) eqn:Ec; [|split_and!; [done|done|by rewrite Ec]]. destruct (get ahash i p) as [info|] eqn:Eg.
  - exists p. split_and!; [done|done|]. exists sn. split; [done|]. left. eauto.
  - split_and!; [done|done|]. intros _. exists sn, i. done.
Qed.

Lemma observed_version d sn : inv d -> snapshot_ok d 0 sn -> (sn <= current d)%nat.
Proof. intros _ [_ [i Hl]]. apply lookup_lt_Some in Hl. unfold current. lia. Qed.

Lemma ask_backend_ok d s id p sn x d' p' :
  inv d -> snapshot_ok d s sn -> (caches_info = true -> index_miss d sn p) ->
  ask_backend dnf has_aur d id p sn x = Some (d', p') -> stepped d s (Received (Info id p)) d' p'.
Proof.
  intros Hi Hsn Hm H. assert (Hv : (sn <= current d)%nat) by (apply observed_version; [done|]; split; [lia|apply Hsn]).
  unfold ask_backend in H.
  destruct x as [| | | | |[b|]| | | | | |]; try done; injection H as <- <-; try (apply stepped_keep; [done|by apply internal_ok]).
  - apply stepped_observe; [done|]. exists p. split_and!; [done|eapply snapshot_ok_mono; [apply extends_observe|done]|].
    exists (current d). split; [done|]. right; left. exists b. split; [apply elem_of_observe|done].
  - apply stepped_observe; [done|]. pose proof (extends_observe (SawPackage p None) d) as He.
    assert (Hb : backend_miss (observe (SawPackage p None) d) sn p).
    { exists (current d). split; [done|]. apply elem_of_observe. }
    assert (Hm' : caches_info = true -> index_miss (observe (SawPackage p None) d) sn p)
      by (intros Hc; eapply index_miss_mono; [exact He|reflexivity|auto]).
    destruct (has_aur && cache_info dnf) eqn:Eh; simpl; split_and!; eauto using snapshot_ok_mono.
    split_and!; [done|done|]. by rewrite Eh.
Qed.

Lemma ask_aur_ok d s id p sn x d' p' :
  inv d -> snapshot_ok d s sn -> (caches_info = true -> index_miss d sn p) -> backend_miss d sn p ->
  ask_aur d id p sn x = Some (d', p') -> stepped d s (Received (Info id p)) d' p'.
Proof.
  intros Hi Hsn Hm Hb H. assert (Hv : (sn <= current d)%nat) by (apply observed_version; [done|]; split; [lia|apply Hsn]).
  unfold ask_aur in H.
  destruct x as [| | | | | |details| | | | |]; try done; injection H as <- <-; try (apply stepped_keep; [done|by apply internal_ok]).
  pose proof (extends_observe (SawAur p details) d) as He. apply stepped_observe; [done|].
  destruct (List.find _ details) as [pkg|] eqn:Ef.
  - apply List.find_some in Ef as [Hin%list_elem_of_In Hn%bool_decide_eq_true]. exists p. split_and!; [done|by eapply snapshot_ok_mono|].
    exists (current d). split; [done|]. right; right. exists details, pkg. split_and!; [apply elem_of_observe|done..].
  - split_and!; [done|by eapply snapshot_ok_mono|]. split_and!;
      [intros Hc; eapply index_miss_mono; [exact He|reflexivity|auto]|eapply backend_miss_mono; [exact He|reflexivity|done]|].
    intros _. exists (current d), details. split_and!; [done|apply elem_of_observe|].
    intros q Hq%list_elem_of_In Hn. apply (List.find_none _ _ Ef) in Hq. by apply bool_decide_eq_false in Hq.
Qed.

Lemma finish_info_ok d s id p info sn p' :
  snapshot_ok d s sn -> (exists v, (sn <= v)%nat /\ info_source d v p info) ->
  finish_info dnf d id info sn = Some p' -> phase_ok d s (Received (Info id p)) p'.
Proof.
  intros Hsn (v & Hv & Hsrc) H. unfold finish_info in H. pose proof Hsn as [Hs _].
  assert (Ha : phase_ok d s (Received (Info id p)) (respond (Success id (InfoResult info)))).
  { apply phase_respond. split; [done|]. exists v, p. split_and!; [lia|by left|done]. }
  destruct (cache_info dnf); [|by injection H as <-]. eapply with_current_ok; [exact H|done| |done|done|done].
  apply Forall_cons_2; [done|]. apply Forall_cons_2; [|done]. exists v, p. split_and!; [lia|by right|done].
Qed.

Lemma finish_miss_ok d s id p sn p' :
  snapshot_ok d s sn -> miss_ok d sn p -> finish_info_miss dnf d id p sn = Some p' -> phase_ok d s (Received (Info id p)) p'.
Proof.
  intros Hsn Hm H. unfold finish_info_miss in H.
  assert (Ha : phase_ok d s (Received (Info id p)) (not_found_error id)).
  { apply phase_respond. split; [done|]. by eapply miss_ok_mono; [reflexivity|apply Hsn|]. }
  destruct (cache_info dnf); [|by injection H as <-]. eapply with_current_ok; [exact H|done| |done|done|done].
  by apply Forall_cons_2.
Qed.

Lemma list_explicit_ok d s id count_only sn x d' p' :
  inv d -> snapshot_ok d s sn -> list_explicit d id count_only sn x = Some (d', p') ->
  stepped d s (Received (explicit_request count_only id)) d' p'.
Proof.
  intros Hi Hsn H. assert (Hv : (sn <= current d)%nat) by (apply observed_version; [done|]; split; [lia|apply Hsn]).
  unfold list_explicit in H. destruct x; try done; injection H as <- <-.
  - apply stepped_keep; [done|]. apply internal_ok. by destruct count_only.
  - apply stepped_observe; [done|]. split_and!; [done|eapply snapshot_ok_mono; [apply extends_observe|done]|].
    exists (current d). split; [done|apply elem_of_observe].
Qed.

Lemma finish_explicit_ok d s id count_only sn packages p' :
  snapshot_ok d s sn -> explicit_ok d sn packages ->
  finish_explicit d id count_only sn packages = Some p' -> phase_ok d s (Received (explicit_request count_only id)) p'.
Proof.
  intros Hsn He H. unfold finish_explicit in H.
  assert (He' : explicit_ok d s packages) by (by eapply explicit_ok_mono; [reflexivity|apply Hsn|]).
  assert (Ha : phase_ok d s (Received (explicit_request count_only id))
    (respond (Success id (if count_only then ExplicitCountResult (length packages) else ExplicitResult packages)))).
  { apply phase_respond. destruct count_only; split; simpl; [done| |done|done]. left. eauto. }
  eapply with_current_ok; [exact H|done|by apply explicit_writes|done|done|done].
Qed.

(** *** Publication *)

Lemma extends_publish d index : extends d (publish index d).
Proof. split; simpl; [intros v i; apply lookup_app_l_Some|done|done|rewrite length_app; lia]. Qed.

Lemma publish_ok d index : inv d -> inv (publish index d).
Proof.
  intros [H1 H2 H3 H4 H5 H6 H7]. split; simpl.
  - by destruct (history d).
  - unfold current in *. simpl. rewrite length_app. simpl. lia.
  - done.
  - eapply cache_ok_mono; [apply extends_publish|reflexivity|done].
  - intros rem name [= <-] Hn. exfalso. apply Hn. unfold replace_order, clear_order. destruct name; set_solver.
  - intros r Hr. eapply persisted_ok_mono; [apply extends_publish|reflexivity|auto].
  - intros rem r [= <-] Hn. exfalso. apply Hn. unfold replace_order. set_solver.
Qed.

Lemma invalidate_status_ok d x :
  extends d (invalidate_status x d) /\ tasks (invalidate_status x d) = tasks d /\ caches (invalidate_status x d) = caches d
  /\ completed (invalidate_status x d) = completed d /\ history (invalidate_status x d) = history d
  /\ (forall r, persisted (invalidate_status x d) = Some r -> persisted d = Some r /\ persisted_ok (invalidate_status x d) (current d) r).
Proof.
  assert (Hn : extends d (set_persisted None d)) by (by apply extends_eq).
  assert (Hs : forall r, persisted (set_persisted None d) = Some r -> persisted d = Some r /\ persisted_ok (set_persisted None d) (current d) r)
    by done.
  unfold invalidate_status. destruct x; try (split_and!; done).
  destruct (persisted d) as [st|] eqn:E; [|split_and!; by try rewrite E].
  split_and!; [apply extends_observe|done..|]. simpl. rewrite E. intros r [= <-]. split; [done|]. right.
  exists (current d). split; [done|apply elem_of_observe].
Qed.

Lemma clear_next_ok d x d' : inv d -> clear_next d x = Some d' -> inv d' /\ extends d d' /\ tasks d' = tasks d.
Proof.
  intros [H1 H2 H3 H4 H5 H6 H7] H. unfold clear_next in H. destruct (replacing d) as [[|[name|] rest]|] eqn:Hr; [| | |done]; injection H as <-.
  - assert (He : extends d (complete d)) by (split; simpl; [done|done|unfold current in H2; exact H2|done]).
    split_and!; [|done|done]. split; simpl; [done|done|done| |done| |done].
    + apply all_cleared_ok. intros name. apply (H5 [] name); [done|set_solver].
    + intros r Hp. eapply persisted_ok_mono; [exact He|reflexivity|]. apply (H7 [] r); [done|set_solver|done].
  - assert (He : extends d (set_replacing rest (set_caches (invalidate_all name) d))) by (by apply extends_eq).
    split_and!; [|done|done]. split; simpl; [done|done|done| | | |].
    + eapply cache_ok_mono; [done|reflexivity|]. eapply cache_ok_evicts; [apply invalidate_evicts|done].
    + intros rem n [= <-] Hn. destruct (decide (n = name)) as [->|Hne]; [apply invalidate_cleared|].
      eapply cleared_evicts; [apply invalidate_evicts|]. apply (H5 (ClearCache name :: rest)); [done|set_solver].
    + intros r Hp. by eapply persisted_ok_mono; [exact He|reflexivity|auto].
    + intros rem r [= <-] Hn Hp. eapply persisted_ok_mono; [exact He|reflexivity|]. eapply (H7 _ r); [done|set_solver|done].
  - destruct (invalidate_status_ok d x) as (He & Ht & Hc & Hco & Hh & Hp).
    assert (He' : extends (invalidate_status x d) (set_replacing rest (invalidate_status x d))) by (by apply extends_eq).
    assert (He2 : extends d (set_replacing rest (invalidate_status x d))).
    { destruct He as [A1 A2 A3 A4]. by split. }
    split_and!; [|done|done]. unfold current in *. split; unfold current; simpl; rewrite ?Hc, ?Hco, ?Hh; [done|done|done| | | |].
    + by eapply cache_ok_mono; [exact He2|reflexivity|].
    + intros rem n [= <-] Hn. apply (H5 (RemoveStatusFile :: rest)); [done|set_solver].
    + intros r Hr'%Hp. destruct Hr' as [Hr' _]. by eapply persisted_ok_mono; [exact He2|reflexivity|auto].
    + intros rem r _ _ Hr'%Hp. by eapply persisted_ok_mono; [exact He'|reflexivity|apply Hr'].
Qed.

Lemma index_len_ok d s id p' :
  inv d -> (s <= completed d)%nat -> index_len d id = Some p' -> phase_ok d s (Received (RefreshIndex id)) p'.
Proof.
  intros Hi Hs H. unfold index_len in H. apply bind_Some in H as (sn & Hsn & H). apply bind_Some in H as (i & Hl & [= <-]).
  apply phase_respond. split; [done|]. exists sn, i. split_and!; [|done|done]. by apply (snapshot_now _ s) in Hsn as [_ [? _]].
Qed.

Lemma keep_Some d p d' p' : keep d p = Some (d', p') <-> d' = d /\ p = Some p'.
Proof. unfold keep. destruct p; simpl; naive_solver. Qed.

Lemma refresh_locked_ok d s id observed x d' p' :
  inv d -> (s <= completed d)%nat -> refresh_locked_step dnf d id observed x = Some (d', p') ->
  stepped d s (Received (RefreshIndex id)) d' p'.
Proof.
  intros Hi Hs H. unfold refresh_locked_step in H. destruct (refresh_locked d); [done|].
  destruct (decide _); [|apply keep_Some in H as [-> H]; apply stepped_keep; [done|by eapply index_len_ok]].
  injection H as <- <-. apply stepped_lock; [done|]. destruct x; try done. by destruct dnf.
Qed.

Lemma rebuild_failed d s b : phase_ok d s (Received (rebuild_request b)) (internal_error (rebuild_id b)).
Proof. apply internal_ok. by destruct b. Qed.

Lemma rebuild_ok d s b x d' p' :
  inv d -> rebuild_step d b x = Some (d', p') -> stepped d s (Received (rebuild_request b)) d' p'.
Proof.
  intros Hi H. unfold rebuild_step in H. destruct x; try done; injection H as <- <-.
  - apply stepped_lock; [done|apply rebuild_failed].
  - by apply stepped_observe.
Qed.

Lemma publish_step_ok d s b index x d' p' :
  inv d -> (s <= completed d)%nat -> publish_step d b index x = Some (d', p') -> stepped d s (Received (rebuild_request b)) d' p'.
Proof.
  intros Hi Hs H. unfold publish_step in H.
  destruct x; try (injection H as <- <-; apply stepped_lock; [done|apply rebuild_failed]);
    (destruct (replacing d); [done|]); (destruct (decide (no_readers d)); [|done]); injection H as <- <-;
    (split; [by apply publish_ok|apply extends_publish|done|]); split; try done;
    exists (length (history d)), index; split_and!; try done; simpl; rewrite ?lookup_app_r, ?Nat.sub_diag by lia; try done;
    pose proof (inv_completed _ Hi); unfold current in *; lia.
Qed.

Lemma published_ok d s from b packages x d' p' :
  inv d -> phase_ok d s from (Publishing b packages) -> published_step d b packages x = Some (d', p') -> stepped d s from d' p'.
Proof.
  intros Hi Hp H. unfold published_step in H. destruct (replacing d).
  - apply bind_Some in H as (d1 & Hc & [= <- <-]). destruct (clear_next_ok d x d1 Hi Hc) as (H1 & H2 & H3).
    split; [done..|]. by eapply phase_ok_mono.
  - injection H as <- <-. apply stepped_lock; [done|]. destruct Hp as [-> Hv]. destruct b; [|done].
    apply phase_respond. by split.
Qed.

(** *** The background worker *)

Lemma count_ok_step d s sn x d' p' :
  inv d -> snapshot_ok d s sn -> count_step d sn x = Some (d', p') -> stepped d s WorkerStart d' p'.
Proof.
  intros Hi Hsn H. assert (Hv : (sn <= current d)%nat) by (apply observed_version; [done|]; split; [lia|apply Hsn]).
  unfold count_step in H. destruct x; try done; injection H as <- <-.
  - apply stepped_keep; [done|by left].
  - apply stepped_observe; [done|]. split_and!; [done|eapply snapshot_ok_mono; [apply extends_observe|done]|].
    exists (current d). split; [done|apply elem_of_observe].
Qed.

Lemma fast_status_ok d s sn counts versions x p' :
  phase_ok d s WorkerStart (WorkerCounted sn counts versions) -> fast_status_step d sn counts versions x = Some p' ->
  phase_ok d s WorkerStart p'.
Proof.
  intros Hp H. unfold fast_status_step in H.
  destruct x; try (injection H as <-; exact Hp);
    (eapply with_current_ok; [exact H|apply Hp|by constructor|done|exact Hp|by left]).
Qed.

Lemma previous_ok d s sn counts versions x :
  inv d -> phase_ok d s WorkerStart (WorkerWritten sn counts versions) ->
  phase_ok d s WorkerStart (previous_step d sn counts versions x).
Proof.
  intros Hi (Hf & Hsn & Hc).
  assert (H : phase_ok d s WorkerStart (WorkerScanning sn counts versions (system_status (caches d) ≫= scanned_vulnerability_count))).
  { split_and!; [done..|]. intros n (r & Hr & Hn)%bind_Some. destruct (ok_status _ _ _ (inv_cache _ Hi) r Hr) as [_ Hv].
    unfold scanned_vulnerability_count in Hn. unfold vulnerabilities_ok in Hv. destruct (vulnerabilities_scanned r); [|done].
    by injection Hn as <-. }
  destruct x; try exact H. by left.
Qed.

Lemma scan_ok d s sn counts versions previous x d' p' :
  inv d -> phase_ok d s WorkerStart (WorkerScanning sn counts versions previous) ->
  scan_step d sn counts versions previous x = Some (d', p') -> stepped d s WorkerStart d' p'.
Proof.
  intros Hi (Hf & Hsn & Hc & Hp) H. unfold scan_step in H. destruct x as [| | | | | | | | |scan| |]; try done.
  destruct counts as [[[t e] o] u]. destruct Hc as (v & Hv & Hl). injection H as <- <-. destruct scan as [n|]; simpl.
  - apply stepped_observe; [done|]. split_and!; [done|eapply snapshot_ok_mono; [apply extends_observe|done]|].
    split; [|exists (current d); apply elem_of_observe]. exists v. split; [done|]. by apply (extends_observe (SawScan n) d).
  - apply stepped_keep; [done|]. destruct previous as [n|]; [|by left].
    split_and!; [done..|]. split; [by exists v|]. by apply Hp.
Qed.

Lemma query_status_ok d s id x d' p' :
  inv d -> (s <= completed d)%nat -> query_status d id x = Some (d', p') -> stepped d s (Received (Status id)) d' p'.
Proof.
  intros Hi Hs H. unfold query_status in H. destruct x; try done; injection H as <- <-.
  - apply stepped_keep; [done|by apply internal_ok].
  - apply stepped_observe; [done|]. apply phase_respond. split; [done|]. left. split; [|done]. exists (current d).
    split; [pose proof (inv_completed _ Hi); lia|apply elem_of_observe].
Qed.

Lemma read_persisted_ok d s id x : inv d -> (s <= completed d)%nat -> phase_ok d s (Received (Status id)) (read_persisted d id x).
Proof.
  intros Hi Hs. assert (H : forall r, persisted d = Some r -> phase_ok d s (Received (Status id)) (respond (Success id (StatusResponse r)))).
  { intros r Hr. apply phase_respond. split; [done|]. eapply persisted_ok_mono; [reflexivity|exact Hs|by apply Hi]. }
  unfold read_persisted. destruct x; try done; destruct (persisted d); auto; done.
Qed.

Lemma prewarm_ok d s sn queries x p' :
  snapshot_ok d s sn -> prewarm_step to_lowercase fuzzy_score d sn queries x = Some p' -> phase_ok d s PrewarmStart p'.
Proof.
  intros Hsn H. unfold prewarm_step in H. destruct queries as [|q rest]; [injection H as <-; by right|].
  destruct x; try (injection H as <-; by right); apply bind_Some in H as (i & Hl & [= <-]); split_and!; try done; by exists i.
Qed.

Lemma prewarmed_ok d s sn q rows queries p' :
  snapshot_ok d s sn -> snapshot_rows d sn false q rows -> prewarmed_step d sn q rows queries = Some p' ->
  phase_ok d s PrewarmStart p'.
Proof.
  intros Hsn (i & Hl & ->) H. eapply with_current_ok; [exact H|done| |done|done|by right].
  apply Forall_cons_2; [|done]. by exists sn, i.
Qed.

Lemma check_info_miss_ok d s id p : inv d -> (s <= completed d)%nat -> phase_ok d s (Received (Info id p)) (check_info_miss d id p).
Proof.
  intros Hi Hs. unfold check_info_miss. case_bool_decide as Hm; [|done]. destruct Hm as [b Hm]. apply phase_respond. split; [done|].
  eapply miss_ok_mono; [reflexivity|exact Hs|]. by eapply ok_miss; [apply Hi|].
Qed.
Abbreviation advances := (advance ahash to_lowercase fuzzy_score dnf has_aur production validate_query_selector max_size).
Abbreviation daemon_step := (step ahash to_lowercase fuzzy_score dnf has_aur production validate_query_selector max_size).

Lemma advance_ok d s from p x d' p' :
  inv d -> (s <= completed d)%nat -> phase_ok d s from p -> (forall sn, reading p = Some sn -> replacing d = None /\ sn = current d) ->
  advances d p x = Some (d', p') -> stepped d s from d' p'.
Proof.
  intros Hi Hs Hp Hread H.
  assert (Hsnap : forall sn, index_snapshot d = Some sn -> snapshot_ok d s sn) by (intros sn Hsn; by eapply snapshot_now).
  destruct p; cbn [advance] in H; simpl in Hp; destruct_and?;
    try (apply keep_Some in H as [-> H]; apply stepped_keep; [done|]);
    try (apply bind_Some in H as (sn & Hsn%Hsnap & [= <-]); simpl; auto; fail).
  - injection H as <- <-. subst from. apply stepped_keep, admit_ok. done.
  - subst from. by eapply heal_ok.
  - subst from. unfold heal_lock_step in H. destruct (refresh_locked d); [done|]. injection H as <- <-. by apply stepped_lock.
  - subst from. by eapply heal_locked_ok.
  - injection H as <- <-. subst from. apply stepped_keep; [done|]. by apply dispatch_ok.
  - destruct H0 as (lo & -> & ->). by eapply search_blocking_ok.
  - destruct H0 as (lo & -> & ->). by eapply finish_search_ok.
  - destruct Hp as (lo & -> & ->). by eapply run_suggest_ok.
  - injection H as <- <-. subst from. apply stepped_keep; [done|]. by apply check_info_miss_ok.
  - subst from. by eapply lookup_index_ok.
  - subst from. by eapply ask_backend_ok.
  - subst from. by eapply ask_aur_ok.
  - destruct Hp as (p & -> & Hsn & Hv). by eapply finish_info_ok.
  - subst from. by eapply finish_miss_ok.
  - injection H as <- <-. subst from. apply stepped_keep; [done|]. by apply read_persisted_ok.
  - subst from. by eapply query_status_ok.
  - subst from. by eapply list_explicit_ok.
  - subst from. by eapply finish_explicit_ok.
  - injection H as H. destruct remaining as [|name rest]; injection H as <- <-; subst from.
    + apply stepped_keep; [done|]. apply phase_respond. by split.
    + apply stepped_cache; [done|apply invalidate_evicts|done].
  - subst from. by eapply refresh_locked_ok.
  - injection H as <- <-. subst from. apply stepped_lock; [done|]. destruct x; try done. by apply internal_ok.
  - subst from. by eapply index_len_ok.
  - subst from. by eapply rebuild_ok.
  - subst from. by eapply publish_step_ok.
  - by eapply published_ok.
  - destruct (Hread _ eq_refl) as [Hr ->]. injection H as H. unfold update_step in H.
    destruct writes as [|w rest]; injection H as <- <-; [by apply stepped_keep|].
    match goal with HF : Forall _ (_ :: _) |- _ => apply Forall_cons in HF as [Hw Hrest] end.
    destruct (apply_write_ok d w x Hi Hr Hw) as [Hinv He].
    split; [done|done|by destruct w; try done; destruct x|]. eapply phase_ok_mono; [exact He|]. by split_and!.
  - subst from. by eapply count_ok_step.
  - subst from. eapply fast_status_ok; [|done]. by split_and!.
  - injection H as <- <-. subst from. apply stepped_keep; [done|]. apply previous_ok; [done|]. by split_and!.
  - subst from. eapply scan_ok; [done| |done]. by split_and!.
  - subst from. eapply with_current_ok; [exact H|done|by apply status_writes|done|by left|by left].
  - subst from. destruct x; try done; injection H as <- <-.
    + by apply stepped_keep.
    + apply stepped_observe; [done|]. split_and!; [done|eapply snapshot_ok_mono; [apply extends_observe|done]|].
      exists (current d). split; [|apply elem_of_observe]. apply observed_version; [done|]. split; [lia|apply H1].
  - subst from. eapply with_current_ok; [exact H|done|by apply (explicit_writes _ _ false)|done..].
  - subst from. by eapply prewarm_ok.
  - subst from. by eapply prewarmed_ok.
  - done.
Qed.

(** *** The read lock *)

(** A step replaces the index only when no task holds the read lock. *)
Lemma advance_index d p x d' p' :
  advances d p x = Some (d', p') ->
  (replacing d' = replacing d /\ history d' = history d) \/ (no_readers d /\ reading p' = None) \/ replacing d ≠ None.
Proof.
  intros H. destruct p; cbn [advance] in H; try (apply keep_Some in H as [-> _]; by left);
    unfold ask_backend, ask_aur, query_status, list_explicit, clear_step, count_step, refresh_locked_step, heal_lock_step, heal_locked_step,
      debounce_step, rebuild_step, scan_step, update_step, publish_step, published_step in H;
    repeat (first [done
      | match goal with
        | H : keep _ _ = Some _ |- _ => apply keep_Some in H as [-> _]; by left
        | H : (let '(_, _) := ?y in _) = Some _ |- _ => destruct y
        | H : (if ?b then _ else _) = Some _ |- _ => destruct b eqn:?
        | H : match ?y with _ => _ end = Some _ |- _ => destruct y eqn:?
        end]);
    simplify_eq/=; try (by left); try (by right; left); try (by right; right).
  - destruct remaining; simplify_eq/=; by left.
  - destruct writes as [|w rest]; simplify_eq/=; [by left|]. left. destruct w; try done; by destruct x.
  - left. by destruct total.
Qed.

(** The read lock is taken while the snapshot is current, and kept. *)
Lemma advance_reading d s from p x d' p' sn :
  phase_ok d s from p -> advances d p x = Some (d', p') -> reading p' = Some sn ->
  reading p = Some sn \/ (replacing d = None /\ sn = current d).
Proof.
  assert (Hw : forall a writes ran skipped q, with_current_index a writes ran skipped d = Some q ->
    reading ran = None -> reading skipped = None -> reading q = Some sn -> replacing d = None /\ sn = current d).
  { unfold with_current_index. intros a writes ran skipped q H H1 H2 H3. destruct (replacing d); [done|]. injection H as <-.
    destruct (decide _); [by simplify_eq/=|congruence]. }
  intros Hp H Hr. destruct p; cbn [advance] in H;
    try (apply keep_Some in H as [-> H];
         unfold finish_search, finish_info, finish_info_miss, finish_explicit, prewarmed_step, ready_step, fast_status_step in H);
    try (right; by eapply Hw; [exact H|done..]);
    try (destruct (cache_info dnf); [right; by eapply Hw; [exact H|done..]|by simplify_eq/=]);
    try (destruct x; (right; by eapply Hw; [exact H|done..]) || by simplify_eq/=);
    unfold search_index_blocking, run_suggest, lookup_index, ask_backend, ask_aur, query_status, list_explicit, refresh_locked_step, index_len,
      heal_step, heal_lock_step, heal_locked_step, debounce_step, rebuild_step, count_step, scan_step, prewarm_step, publish_step,
      published_step in H;
    repeat (first [discriminate
      | match goal with
        | H : keep _ _ = Some _ |- _ => apply keep_Some in H as [-> H]
        | H : _ ≫= _ = Some _ |- _ => apply bind_Some in H as (? & ? & H)
        | H : (let '(_, _) := ?y in _) = Some _ |- _ => destruct y
        | H : (if ?b then _ else _) = Some _ |- _ => destruct b eqn:?
        | H : match ?y with _ => _ end = Some _ |- _ => destruct y eqn:?
        end]);
    simplify_eq/=; try (exfalso; by repeat (case_match; simplify_eq/=)).
  - exfalso. unfold admit_request in Hr. by repeat (case_match; simplify_eq/=).
  - exfalso. destruct request; simpl in Hr; unfold handle_search, handle_info, handle_status, handle_list_explicit, handle_explicit_count,
      handle_refresh_index, handle_suggest, handle_debian_search in Hr; by repeat (case_match; simplify_eq/=).
  - exfalso. unfold check_info_miss in Hr. by case_match.
  - exfalso. unfold read_persisted in Hr. by repeat (case_match; simplify_eq/=).
  - exfalso. destruct remaining; by simplify_eq/=.
  - destruct writes; simplify_eq/=; [|by left]. destruct Hp as (_ & _ & Hn & _). congruence.
Qed.

(** *** Interleavings *)

Lemma task_ok_mono d d' t : extends d d' -> task_ok d t -> task_ok d' t.
Proof. intros He [H1 H2]. pose proof (ext_completed _ _ He). split; [lia|]. by eapply phase_ok_mono. Qed.

Lemma daemon_ok_tasks d d' tid t' :
  daemon_ok d -> extends d d' -> inv d' -> tasks d' = tasks d -> task_ok d' t' ->
  (forall t sn, t = t' \/ (exists i, tasks d !! i = Some t) -> reading (phase t) = Some sn -> replacing d' = None /\ sn = current d') ->
  daemon_ok (set_tasks (<[tid := t']> (tasks d')) d').
Proof.
  intros [Hi Ht Hr] He Hi' Htasks Ht' Hr'. assert (Hx : extends d' (set_tasks (<[tid := t']> (tasks d')) d')) by (by apply extends_eq).
  split; [by eapply inv_same| |]; simpl; rewrite Htasks.
  - intros tid' t [[<- <-]|[_ H]]%lookup_insert_Some; [by rewrite <- Htasks in *; eapply task_ok_mono|].
    apply Ht in H. rewrite <- Htasks. eapply task_ok_mono; [exact Hx|]. by eapply task_ok_mono.
  - intros tid' t sn [[<- <-]|[_ H]]%lookup_insert_Some; [apply Hr'; by left|]. apply Hr'. right. by exists tid'.
Qed.

(** Steps that keep the published index keep the readers. *)
Lemma readers_same d d' t' t sn :
  daemon_ok d -> replacing d' = replacing d -> history d' = history d -> (reading (phase t') = Some sn -> replacing d = None /\ sn = current d) ->
  t = t' \/ (exists i, tasks d !! i = Some t) -> reading (phase t) = Some sn -> replacing d' = None /\ sn = current d'.
Proof.
  intros [_ _ Hr] Hre Hh Ht' Ht Hsn. unfold current. rewrite Hre, Hh. destruct Ht as [->|[i Hi]]; [auto|by eapply Hr].
Qed.

Lemma daemon_task_ok d tid t x d' p' :
  daemon_ok d -> tasks d !! tid = Some t -> advances d (phase t) x = Some (d', p') ->
  daemon_ok (set_tasks (<[tid := with_phase t p']> (tasks d')) d').
Proof.
  intros Hok Hn Ha. pose proof Hok as [Hi Ht Hr]. destruct (Ht _ _ Hn) as [Hs Hph].
  destruct (advance_ok _ _ _ _ _ _ _ Hi Hs Hph (fun sn => Hr tid t sn Hn) Ha) as [H1 H2 H3 H4].
  eapply daemon_ok_tasks; [done..| |].
  - split; [|done]. simpl. pose proof (ext_completed _ _ H2). lia.
  - intros t1 sn Ht1 Hsn.
    assert (Hp' : reading p' = Some sn -> replacing d = None /\ sn = current d).
    { intros Hp'. destruct (advance_reading _ _ _ _ _ _ _ _ Hph Ha Hp') as [Hq|Hq]; [by eapply Hr|done]. }
    assert (Hd : replacing d = None /\ sn = current d) by (destruct Ht1 as [->|[i Ht1]]; [auto|by eapply Hr]).
    destruct (advance_index _ _ _ _ _ Ha) as [[Hre Hh]|[[Hno Hp]|Hre]]; [|exfalso|by destruct Hd].
    + eapply (readers_same d d' (with_phase t p')); eauto.
    + destruct Ht1 as [->|[i Ht1]]; [simpl in Hsn; congruence|]. apply Hno in Ht1. congruence.
Qed.

Lemma daemon_step_ok d d' : daemon_step d d' -> daemon_ok d -> daemon_ok d'.
Proof.
  intros Hstep Hok. pose proof Hok as [Hi Ht Hr].
  destruct Hstep as [d tid p Hn Hp|d tid t x d' p' Hn Ha|d tid t r d' p' Hn Ho Hsu Hto|d c Hev].
  - eapply daemon_ok_tasks; [done|reflexivity|done|done|split; [done|]; simpl; by destruct p|].
    intros t sn. apply readers_same; [done..|]. simpl. by destruct p.
  - by eapply daemon_task_ok.
  - assert (He : extends d d' /\ inv d' /\ tasks d' = tasks d /\ replacing d' = replacing d /\ history d' = history d).
    { unfold time_out in Hto. injection Hto as <- _. destruct (holds (phase t)); [|done].
      assert (He : extends d (set_lock false d)) by (by apply extends_eq). split_and!; [done|by eapply inv_same|done..]. }
    destruct He as (He & Hi' & Hts & Hre & Hh). injection Hto as _ <-. destruct (Ht _ _ Hn) as [Hs _].
    eapply daemon_ok_tasks; [done..| |].
    + split; [simpl; pose proof (ext_completed _ _ He); lia|]. simpl. rewrite Ho. by apply internal_ok.
    + intros t1 sn. by apply readers_same.
  - assert (He : extends d (set_caches (fun _ => c) d)) by (by apply extends_eq).
    split; [|intros tid t Hl; eapply task_ok_mono; [exact He|by eapply Ht]|exact Hr].
    by apply (stepped_cache d 0 WorkerStart WorkerStart (fun _ => c)).
Qed.

Lemma started_ok index file : daemon_ok (started index file).
Proof.
  split; [|intros tid t; simpl; by rewrite lookup_empty|intros tid t sn; simpl; by rewrite lookup_empty]. split; simpl; try done.
  intros r ->. right. exists 0%nat. split; [done|]. by apply list_elem_of_singleton.
Qed.

Lemma daemon_reachable_ok index file d :
  reachable ahash to_lowercase fuzzy_score dnf has_aur production validate_query_selector max_size index file d -> daemon_ok d.
Proof.
  intros H. pose proof (started_ok index file) as H0. induction H as [|d1 d2 d3 Hs _ IH]; [done|]. apply IH. by eapply daemon_step_ok.
Qed.

(** C2: whatever the interleaving of requests, timeouts, index publications,
    background jobs and evictions, the answer to a request is right for an
    index that was not replaced by a publication completed before the request
    arrived: a search shows the rows of a search of such an index, cut to the
    limit, with their full number; package details come from such an index or
    from a source asked while such an index was current, and a package is
    reported missing only when all sources missed it since; the explicit
    packages and their number were read since. The package counts of a status
    were read since, and its number of vulnerabilities comes from a scan that
    completed; the one exception is a status file that was there when the
    daemon started, or that a later publication could not remove, which is
    served as it is until the next publication. A late insertion cannot bring
    back entries of a replaced index. *)
Theorem answers_are_fresh index file d tid t r response :
  reachable ahash to_lowercase fuzzy_score dnf has_aur production validate_query_selector max_size index file d ->
  tasks d !! tid = Some t -> origin t = Received r -> phase t = Finished (Some response) ->
  answers d (since t) r response.
Proof.
  intros Hr Ht Ho Hp. destruct (ok_tasks _ (daemon_reachable_ok _ _ _ Hr) _ _ Ht) as [_ H]. rewrite Hp, Ho in H.
  by destruct H as (r' & [= <-] & H).
Qed.
End proofs.

(** * Runs *)

Inductive Event :=
| Start (tid : nat) (p : Phase)
| Act (tid : nat) (x : External).

Section runs.
Context (ahash : rstr -> Z) (to_lowercase : rstr -> rstr) (fuzzy_score : rstr -> rstr -> option Z).
Context (dnf has_aur production : bool) (validate_query_selector : rstr -> bool) (max_size : nat).

Definition can_start (p : Phase) : bool :=
  match p with Received _ | WorkerStart | PrewarmStart => true | _ => false end.

Definition exec (d : Daemon) (e : Event) : option Daemon :=
  match e with
  | Start tid p =>
      match tasks d !! tid with
      | None => if can_start p then
                  Some (set_tasks (<[tid := {| origin := p; since := completed d; seen := length (log d); phase := p |}]> (tasks d)) d)
                else None
      | Some _ => None
      end
  | Act tid x =>
      t ← tasks d !! tid;
      '(d', p') ← advance ahash to_lowercase fuzzy_score dnf has_aur production validate_query_selector max_size d (phase t) x;
      Some (set_tasks (<[tid := with_phase t p']> (tasks d')) d')
  end.

Fixpoint run (d : Daemon) (es : list Event) : option Daemon :=
  match es with
  | [] => Some d
  | e :: es' => d' ← exec d e; run d' es'
  end.

Lemma exec_step d e d' :
  exec d e = Some d' -> step ahash to_lowercase fuzzy_score dnf has_aur production validate_query_selector max_size d d'.
Proof.
  destruct e as [tid p|tid x]; simpl.
  - destruct (tasks d !! tid) eqn:Et; [done|]. destruct (can_start p) eqn:Ep; [|done]. intros [= <-].
    apply step_start; [done|]. by destruct p.
  - intros (t & Ht & H)%bind_Some. apply bind_Some in H as ([d1 p1] & Ha & [= <-]). by eapply step_task.
Qed.

Lemma run_reachable index file es d :
  run (started index file) es = Some d ->
  reachable ahash to_lowercase fuzzy_score dnf has_aur production validate_query_selector max_size index file d.
Proof.
  unfold reachable. generalize (started index file). induction es as [|e es IH]; intros d0; simpl; [by intros [= ->]|].
  intros (d1 & He & Hr)%bind_Some. eapply rtc_l; [by eapply exec_step|]. by apply IH.
Qed.
End runs.

Definition demo_hash (_ : rstr) : Z := 0.
Definition demo_fuzzy (_ _ : rstr) : option Z := None.

Definition git_index (version : string) : PackageIndex :=
  from_packages demo_hash [(str "git", str version, str "vcs", false)] Literal.

Abbreviation demo_run := (run demo_hash (fun s => s) demo_fuzzy false false true (fun _ => true) 1000%nat).
Abbreviation demo_reachable := (reachable demo_hash (fun s => s) demo_fuzzy false false true (fun _ => true) 1000%nat).

(** A worker counts packages and scans; a search takes its snapshot, the index
    is replaced, the search and the worker end; a second search and a status
    request then start. *)
Definition racing_events : list Event :=
  [Start 4 WorkerStart; Act 4 NoAnswer; Act 4 (CountsAnswer 10 4 1 2 []); Act 4 NoAnswer; Act 4 NoAnswer; Act 4 NoAnswer;
   Act 4 (ScanAnswer (Some 3%nat));
   Start 1 (Received (Search 7 (str "git") None)); Act 1 NoAnswer; Act 1 (HealAnswer false); Act 1 NoAnswer; Act 1 NoAnswer;
   Start 2 (Received (RefreshIndex 8)); Act 2 NoAnswer; Act 2 NoAnswer; Act 2 NoAnswer; Act 2 (LoadAnswer (git_index "2")); Act 2 NoAnswer;
   Act 1 NoAnswer]
  ++ replicate 10 (Act 2 NoAnswer) ++
  [Act 1 NoAnswer; Act 4 NoAnswer; Start 3 (Received (Search 9 (str "git") None)); Act 3 NoAnswer; Act 3 (HealAnswer false)]
  ++ replicate 6 (Act 3 NoAnswer) ++
  [Start 5 (Received (Status 10)); Act 5 NoAnswer; Act 5 (HealAnswer false); Act 5 NoAnswer; Act 5 NoAnswer;
   Act 5 (CountsAnswer 11 5 1 0 [])].

(** The status file of an earlier daemon. *)
Definition old_status : StatusResult := (status_snapshot 9 4 1 2 [] (Some 0%nat)).1.

Definition raced : Daemon :=
  default (started (git_index "1") (Some old_status)) (demo_run (started (git_index "1") (Some old_status)) racing_events).

Lemma raced_reachable : demo_reachable (git_index "1") (Some old_status) raced.
Proof. apply (run_reachable _ _ _ _ _ _ _ _ _ _ racing_events). vm_compute. reflexivity. Qed.

(** The request whose answer a task holds, by number. *)
Definition finished_answer (d : Daemon) (tid : nat) : option (nat * Response) :=
  t ← tasks d !! tid;
  match phase t with Finished (Some r) => Some (since t, r) | _ => None end.

Definition git_row (version : string) : PackageInfo :=
  {| pi_name := str "git"; pi_version := str version; pi_description := str "vcs"; pi_source := WireOfficial |}.

Lemma answers_are_fresh_witness :
  finished_answer raced 1 = Some (0%nat, Success 7 (SearchResult [git_row "1"] 1)) /\
  finished_answer raced 3 = Some (1%nat, Success 9 (SearchResult [git_row "2"] 1)) /\
  finished_answer raced 5 = Some (1%nat, Success 10 (StatusResponse (status_snapshot 11 5 1 0 [] None).1)) /\
  cache (caches raced) !! str "git" = Some [git_row "2"] /\ persisted raced = None /\ system_status (caches raced) = None /\
  answers demo_hash (fun s => s) demo_fuzzy false false true (fun _ => true) 1000 raced 1
    (Search 9 (str "git") None) (Success 9 (SearchResult [git_row "2"] 1)).
Proof.
  split; [vm_compute; reflexivity|]. split; [vm_compute; reflexivity|]. split; [vm_compute; reflexivity|].
  split; [vm_compute; reflexivity|]. split; [vm_compute; reflexivity|]. split; [vm_compute; reflexivity|].
  apply (answers_are_fresh demo_hash (fun s => s) demo_fuzzy false false true (fun _ => true) 1000 (git_index "1") (Some old_status) raced 3
           {| origin := Received (Search 9 (str "git") None); since := 1; seen := 4;
              phase := Finished (Some (Success 9 (SearchResult [git_row "2"] 1))) |}).
  - exact raced_reachable.
  - vm_compute. reflexivity.
  - reflexivity.
  - reflexivity.
Defined.

(** A refresh request that arrives while another task has loaded an index but
    not published it yet is answered by that publication: nothing was read
    from the disk after the request. *)
Definition coalesced_events : list Event :=
  [Start 1 (Received (RefreshIndex 7)); Act 1 NoAnswer; Act 1 NoAnswer; Act 1 NoAnswer; Act 1 (LoadAnswer (git_index "1"));
   Start 2 (Received (RefreshIndex 8)); Act 2 NoAnswer; Act 2 NoAnswer; Act 1 NoAnswer]
  ++ replicate 10 (Act 1 NoAnswer) ++ [Act 2 NoAnswer].

Lemma coalesced_refresh_reads_nothing :
  exists d t, demo_reachable (git_index "0") None d /\ tasks d !! 2%nat = Some t /\ origin t = Received (RefreshIndex 8)
    /\ phase t = Finished (Some (Success 8 (IndexRefreshed 1))) /\ drop (seen t) (log d) = [].
Proof.
  destruct (demo_run (started (git_index "0") None) coalesced_events) as [d|] eqn:E; [|vm_compute in E; discriminate E].
  pose proof (run_reachable _ _ _ _ _ _ _ _ _ _ _ _ E) as Hr.
  assert (Hd : (t ← tasks d !! 2%nat; Some (origin t, phase t, drop (seen t) (log d)))
               = Some (Received (RefreshIndex 8), Finished (Some (Success 8 (IndexRefreshed 1))), [])).
  { apply (f_equal (fun o => d' ← o; t ← tasks d' !! 2%nat; Some (origin t, phase t, drop (seen t) (log d')))) in E.
    simpl in E. rewrite <- E. vm_compute. reflexivity. }
  apply bind_Some in Hd as (t & Ht & [= H1 H2 H3]). exists d, t. auto.
Qed.
