(* ===== verification/DaemonProtocol.v ===== *)
(** Frames and connections of the daemon: src/src/daemon/protocol.rs, the
    connection loop of src/src/daemon/server.rs and the synchronous client of
    src/src/core/client.rs.

    A byte is an integer from 0 to 255, a stream the bytes that are still to
    come. The serializer (bitcode) and the length-delimited codec of tokio are
    interfaces; what a handler answers is an argument. *)

From S2P Require Import Prelude SearchIndex DaemonHandlers.
Open Scope Z_scope.
Open Scope omg_scope.

(** * Frames *)

Definition PROTOCOL_VERSION : Z := 4.

Inductive FrameError :=
| TooShort
| VersionMismatch (peer ours : Z)
| Encode.

(** [bitcode::serialize] and [bitcode::deserialize]; [None] is an error. *)
Class Wire (T : Type) := {
  serialize : T -> option (list Z);
  deserialize : list Z -> option T
}.

Class WireLaws (T : Type) `{Wire T} : Prop := {
  serialized v bytes : serialize v = Some bytes -> deserialize bytes = Some v;
  serialized_bytes v bytes : serialize v = Some bytes -> Forall (fun b => 0 <= b < 256) bytes
}.

Definition encode_frame {T} `{Wire T} (value : T) : result (list Z) FrameError :=
  let? payload := ok_or (serialize value) Encode in
  Ok (le_bytes 4 PROTOCOL_VERSION ++ payload).

Definition split_frame (frame : list Z) : result (Z * list Z) FrameError :=
  if (length frame <? 4)%nat then Err TooShort
  else
    let peer := le_value (take 4 frame) in
    if negb (peer =? PROTOCOL_VERSION) then Err (VersionMismatch peer PROTOCOL_VERSION)
    else Ok (peer, drop 4 frame).

Definition MAX_FRAME_SIZE : Z := 10 * 1024 * 1024.

Inductive IoError := InvalidInput | InvalidData | UnexpectedEof.

(** The bytes of one write. *)
Definition write_frame (payload : list Z) : result (list Z) IoError :=
  let len := Z.of_nat (length payload) in
  let? _ := ensure (len <=? u32_max) InvalidInput in
  Ok (be_bytes 4 len ++ payload).

(** [read_exact]. *)
Definition read_exact (n : nat) (stream : list Z) : result (list Z * list Z) IoError :=
  if (length stream <? n)%nat then Err UnexpectedEof else Ok (take n stream, drop n stream).

Definition read_frame (stream : list Z) : result (list Z * list Z) IoError :=
  let? header := read_exact 4 stream in
  let len := le_value (rev header.1) in
  let? _ := ensure (negb (MAX_FRAME_SIZE <? len)) InvalidData in
  read_exact (Z.to_nat len) header.2.

(** * The server's side of a connection *)

Definition MAX_REQUEST_SIZE : Z := 1024 * 1024.
Definition MAX_RESPONSE_SIZE : Z := 8 * 1024 * 1024.

(** The codec of tokio with a frame limit: [codec_read] takes one frame off a
    stream, [codec_write] frames a payload. *)
Class FrameCodec := {
  codec_read : Z -> list Z -> option (list Z * list Z);
  codec_write : Z -> list Z -> option (list Z)
}.

(** Its documented default: a big-endian length of four bytes, then the
    payload, up to the limit. *)
Class FrameCodecLaws (C : FrameCodec) : Prop := {
  codec_reads max payload rest :
    max <= u32_max -> Z.of_nat (length payload) <= max ->
    codec_read max (be_bytes 4 (Z.of_nat (length payload)) ++ payload ++ rest) = Some (payload, rest);
  codec_writes max payload :
    max <= u32_max -> Z.of_nat (length payload) <= max ->
    codec_write max payload = Some (be_bytes 4 (Z.of_nat (length payload)) ++ payload)
}.

Section server.
Context `{Wire Request} `{Wire Response}.

Definition encode_bounded_response (response : Response) (request_id : Z) : result (list Z) FrameError :=
  let? response_bytes := encode_frame response in
  if Z.of_nat (length response_bytes) <=? MAX_RESPONSE_SIZE then Ok response_bytes
  else encode_frame (Error request_id RESPONSE_TOO_LARGE).

(** What the loop of [handle_client] does with a frame: a reply, if one can be
    encoded, and whether the connection stays open. [None]: the loop ends with
    an error and nothing is sent. *)
Inductive Turn := Reply (frame : list Z) | ReplyAndClose (frame : option (list Z)) | Skip | CloseSilently.

(** [send_error_response]: an error that cannot be encoded is dropped. *)
Definition error_frame (id : Z) (code : ErrorCode) : option (list Z) := ok (encode_frame (Error id code)).

(** What the handler does with the request: an answer, or nothing in time. *)
Definition timed_response (handler : Request -> option Response) (request : Request) : Response :=
  default (Error (request_id request) INTERNAL_ERROR) (handler request).

Definition serve_frame (limited : bool) (handler : Request -> option Response) (frame : list Z) : Turn :=
  match split_frame frame with
  | Err _ => ReplyAndClose (error_frame 0 PARSE_ERROR)
  | Ok (_, payload) =>
      match deserialize payload with
      | None => ReplyAndClose (error_frame 0 PARSE_ERROR)
      | Some request =>
          if limited then
            match error_frame (request_id request) RATE_LIMITED with
            | Some reply => Reply reply
            | None => Skip
            end
          else
            match encode_bounded_response (timed_response handler request) (request_id request) with
            | Ok reply => Reply reply
            | Err _ => CloseSilently
            end
      end
  end.

(** The connection: frames in order, each with the verdict of the rate limiter
    and the handler; an undecodable transport frame ([None]) closes it. *)
Fixpoint serve (frames : list (option (list Z) * bool * (Request -> option Response))) : list (list Z) :=
  match frames with
  | [] => []
  | (None, _, _) :: _ => []
  | (Some frame, limited, handler) :: rest =>
      match serve_frame limited handler frame with
      | Reply reply => reply :: serve rest
      | Skip => serve rest
      | ReplyAndClose reply => option_list reply
      | CloseSilently => []
      end
  end.

(** * The client's side *)

Inductive ClientError :=
| EncodeFailed
| WriteFailed (e : IoError)
| ReadFailed (e : IoError)
| ProtocolError (e : FrameError)
| DecodeFailed
| IdMismatch (sent got : Z).

Definition decode_correlated_response (frame : list Z) (expected_id : Z) : result Response ClientError :=
  let? split := map_err ProtocolError (split_frame frame) in
  let? response := ok_or (deserialize split.2) DecodeFailed in
  let? _ := ensure (response_id response =? expected_id) (IdMismatch expected_id (response_id response)) in
  Ok response.

(** [sync_roundtrip] over a socket, given what the peer sends back. *)
Definition sync_roundtrip (peer : list Z -> list Z) (request : Request) : result Response ClientError :=
  let? request_bytes := map_err (fun _ => EncodeFailed) (encode_frame request) in
  let? sent := map_err WriteFailed (write_frame request_bytes) in
  let? received := map_err ReadFailed (read_frame (peer sent)) in
  decode_correlated_response received.1 (request_id request).

(** The daemon as the peer of one request: its codec takes the frame off the
    stream, the loop answers, the codec frames the reply. *)
Definition daemon_peer `{FrameCodec} (limited : bool) (handler : Request -> option Response) (stream : list Z) : list Z :=
  match codec_read MAX_REQUEST_SIZE stream with
  | Some (frame, _) =>
      match serve [(Some frame, limited, handler)] with
      | reply :: _ => default [] (codec_write MAX_RESPONSE_SIZE reply)
      | [] => []
      end
  | None => []
  end.
End server.

(** * Correctness *)

Lemma be_value_bytes n z : 0 <= z < 256 ^ Z.of_nat n -> le_value (rev (be_bytes n z)) = z.
Proof. intros Hz. unfold be_bytes. rewrite rev_involutive. by apply le_value_le_bytes. Qed.

Lemma u32_bytes z : 0 <= z <= u32_max -> 0 <= z < 256 ^ Z.of_nat 4.
Proof. unfold u32_max. change (256 ^ Z.of_nat 4) with (2 ^ 32). lia. Qed.

Lemma read_exact_app n a b : length a = n -> read_exact n (a ++ b) = Ok (a, b).
Proof.
  intros <-. unfold read_exact. rewrite length_app. destruct (Nat.ltb_spec (length a + length b) (length a)); [lia|].
  by rewrite take_app_length, drop_app_length.
Qed.

Lemma read_exact_short n s : (length s < n)%nat -> read_exact n s = Err UnexpectedEof.
Proof. intros Hl. unfold read_exact. by rewrite (proj2 (Nat.ltb_lt _ _) Hl). Qed.

Lemma write_frame_Ok payload bytes :
  write_frame payload = Ok bytes <->
  Z.of_nat (length payload) <= u32_max /\ bytes = be_bytes 4 (Z.of_nat (length payload)) ++ payload.
Proof.
  unfold write_frame. destruct (Z.leb_spec (Z.of_nat (length payload)) u32_max); simpl; [|split; [done|lia]].
  split; [by intros [= <-]|by intros [_ ->]].
Qed.

(** The announced length decides before any byte of the payload is read. *)
Lemma read_frame_header len rest :
  0 <= len <= u32_max ->
  read_frame (be_bytes 4 len ++ rest) =
  if MAX_FRAME_SIZE <? len then Err InvalidData else read_exact (Z.to_nat len) rest.
Proof.
  intros Hl. unfold read_frame. rewrite read_exact_app by apply length_be_bytes. cbn [res_bind fst snd].
  rewrite be_value_bytes by (by apply u32_bytes). by destruct (MAX_FRAME_SIZE <? len).
Qed.

Lemma read_written payload bytes rest :
  write_frame payload = Ok bytes -> Z.of_nat (length payload) <= MAX_FRAME_SIZE -> read_frame (bytes ++ rest) = Ok (payload, rest).
Proof.
  intros [Hu ->]%write_frame_Ok Hl. rewrite <- app_assoc, read_frame_header by lia.
  rewrite (proj2 (Z.ltb_ge _ _) Hl), Nat2Z.id. by apply read_exact_app.
Qed.

Lemma split_versioned version payload :
  0 <= version <= u32_max ->
  split_frame (le_bytes 4 version ++ payload) =
  if version =? PROTOCOL_VERSION then Ok (version, payload) else Err (VersionMismatch version PROTOCOL_VERSION).
Proof.
  intros Hv. unfold split_frame. rewrite length_app, length_le_bytes. cbn [Nat.ltb Nat.leb Nat.add].
  rewrite take_app_length', drop_app_length' by (by rewrite length_le_bytes).
  rewrite le_value_le_bytes by (by apply u32_bytes). by destruct (version =? PROTOCOL_VERSION).
Qed.

Lemma encode_frame_Ok {T} `{Wire T} (v : T) frame :
  encode_frame v = Ok frame <-> exists payload, serialize v = Some payload /\ frame = le_bytes 4 PROTOCOL_VERSION ++ payload.
Proof.
  unfold encode_frame. rewrite res_bind_Ok. setoid_rewrite ok_or_Ok. naive_solver.
Qed.

Lemma split_encoded {T} `{Wire T} (v : T) frame :
  encode_frame v = Ok frame -> exists payload, serialize v = Some payload /\ split_frame frame = Ok (PROTOCOL_VERSION, payload).
Proof.
  intros (payload & Hp & ->)%encode_frame_Ok. exists payload. split; [done|]. by rewrite split_versioned.
Qed.

(** C39: a payload up to the frame limit is read back as written and leaves the
    rest of the stream; a header that announces more is refused whatever
    follows it, also when nothing does, so before the payload is read; a payload
    whose length does not fit 32 bits is not written, and a truncated frame is
    an error. A value survives encoding into a frame and splitting it, and a
    frame of any other protocol version is refused with that version. *)
Theorem frames_roundtrip {T} `{WireLaws T} :
  (forall payload rest, Z.of_nat (length payload) <= MAX_FRAME_SIZE ->
     exists bytes, write_frame payload = Ok bytes /\ read_frame (bytes ++ rest) = Ok (payload, rest)) /\
  (forall len rest, MAX_FRAME_SIZE < len <= u32_max -> read_frame (be_bytes 4 len ++ rest) = Err InvalidData) /\
  (forall payload, u32_max < Z.of_nat (length payload) -> write_frame payload = Err InvalidInput) /\
  (forall payload bytes n, write_frame payload = Ok bytes -> Z.of_nat (length payload) <= MAX_FRAME_SIZE ->
     (n < length bytes)%nat -> read_frame (take n bytes) = Err UnexpectedEof) /\
  (forall (v : T) frame, encode_frame v = Ok frame ->
     exists payload, split_frame frame = Ok (PROTOCOL_VERSION, payload) /\ deserialize payload = Some v) /\
  (forall version payload, 0 <= version <= u32_max -> version <> PROTOCOL_VERSION ->
     split_frame (le_bytes 4 version ++ payload) = Err (VersionMismatch version PROTOCOL_VERSION)).
Proof.
  split_and!.
  - intros payload rest Hl. exists (be_bytes 4 (Z.of_nat (length payload)) ++ payload).
    assert (Hw : write_frame payload = Ok (be_bytes 4 (Z.of_nat (length payload)) ++ payload)).
    { apply write_frame_Ok. split; [|done]. unfold MAX_FRAME_SIZE, u32_max in *. lia. }
    split; [done|]. by apply read_written.
  - intros len rest Hl. unfold MAX_FRAME_SIZE in *. rewrite read_frame_header by lia. unfold MAX_FRAME_SIZE. by rewrite (proj2 (Z.ltb_lt _ _) (proj1 Hl)).
  - intros payload Hu. unfold write_frame. by rewrite (proj2 (Z.leb_gt _ _) Hu).
  - intros payload bytes n [Hu ->]%write_frame_Ok Hl Hn. rewrite length_app, length_be_bytes in Hn.
    destruct (decide (n < 4)%nat) as [H4|H4].
    + unfold read_frame. rewrite read_exact_short; [done|]. rewrite length_take, length_app, length_be_bytes. lia.
    + rewrite take_app, (take_ge (be_bytes _ _)) by (rewrite length_be_bytes; lia). rewrite read_frame_header by lia.
      rewrite (proj2 (Z.ltb_ge _ _) Hl), Nat2Z.id. apply read_exact_short. rewrite length_take, length_be_bytes. lia.
  - intros v frame (payload & Hp & Hs)%split_encoded. exists payload. split; [done|]. by apply serialized.
  - intros version payload Hv Hne. rewrite split_versioned by done. by rewrite (proj2 (Z.eqb_neq _ _) Hne).
Qed.

Section rpc.
Context `{HQ : WireLaws Request} `{HR : WireLaws Response} `{C : FrameCodec} {CL : FrameCodecLaws C}.

(** The frame of a response that the client accepts for request [id]. *)
Lemma decode_encoded (response : Response) frame id :
  encode_frame response = Ok frame -> response_id response = id -> decode_correlated_response frame id = Ok response.
Proof.
  intros (payload & Hp & Hs)%split_encoded <-. unfold decode_correlated_response. rewrite Hs. cbn [map_err res_bind snd].
  rewrite (serialized _ _ Hp). cbn [ok_or res_bind]. by rewrite Z.eqb_refl.
Qed.

Lemma serve_decoded limited handler request frame :
  encode_frame request = Ok frame ->
  serve_frame limited handler frame =
  if limited then match error_frame (request_id request) RATE_LIMITED with Some reply => Reply reply | None => Skip end
  else match encode_bounded_response (timed_response handler request) (request_id request) with
       | Ok reply => Reply reply
       | Err _ => CloseSilently
       end.
Proof. intros (payload & Hp & Hs)%split_encoded. unfold serve_frame. by rewrite Hs, (serialized _ _ Hp). Qed.

(** The answer that a request gets: the handler's, or an error in its place. *)
Definition rpc_answer (limited : bool) (handler : Request -> option Response) (request : Request) (size : Z) : Response :=
  if limited then Error (request_id request) RATE_LIMITED
  else if size <=? MAX_RESPONSE_SIZE then timed_response handler request
  else Error (request_id request) RESPONSE_TOO_LARGE.

(** Error frames fit the response budget. *)
Definition errors_fit : Prop :=
  forall id code, 0 <= id <= u64_max -> exists frame, encode_frame (Error id code) = Ok frame /\ Z.of_nat (length frame) <= MAX_RESPONSE_SIZE.

Lemma serve_reply limited handler request frame full :
  errors_fit -> 0 <= request_id request <= u64_max -> encode_frame request = Ok frame -> encode_frame (timed_response handler request) = Ok full ->
  exists reply, serve [(Some frame, limited, handler)] = [reply] /\ Z.of_nat (length reply) <= MAX_RESPONSE_SIZE /\
    encode_frame (rpc_answer limited handler request (Z.of_nat (length full))) = Ok reply.
Proof.
  intros He Hu Hq Hf. cbn [serve]. rewrite (serve_decoded _ _ _ _ Hq). unfold rpc_answer. destruct limited.
  - destruct (He (request_id request) RATE_LIMITED Hu) as (reply & Hr & Hl). unfold error_frame. rewrite Hr. simpl. eauto.
  - unfold encode_bounded_response. rewrite Hf. cbn [res_bind].
    destruct (Z.leb_spec (Z.of_nat (length full)) MAX_RESPONSE_SIZE); [eauto|].
    destruct (He (request_id request) RESPONSE_TOO_LARGE Hu) as (reply & Hr & Hl'). rewrite Hr. eauto.
Qed.

(** a request that fits the request limit gets exactly one answer, and
    the client accepts it: the handler's response when its frame fits the
    response budget, else an error with the same identifier that says it is
    too large, that the handler took too long, or that the client was
    throttled. The reply never exceeds what the client reads. *)
Theorem rpc_is_correlated limited handler request frame full :
  errors_fit -> 0 <= request_id request <= u64_max -> encode_frame request = Ok frame -> Z.of_nat (length frame) <= MAX_REQUEST_SIZE ->
  (forall response, handler request = Some response -> response_id response = request_id request) ->
  encode_frame (timed_response handler request) = Ok full ->
  sync_roundtrip (daemon_peer limited handler) request
  = Ok (rpc_answer limited handler request (Z.of_nat (length full))).
Proof.
  intros He Hu Hq Hsize Hid Hf. destruct (serve_reply limited handler request frame full He Hu Hq Hf) as (reply & Hs & Hl & Hr).
  assert (Hsent : write_frame frame = Ok (be_bytes 4 (Z.of_nat (length frame)) ++ frame)).
  { apply write_frame_Ok. split; [|done]. unfold MAX_REQUEST_SIZE, u32_max in *. lia. }
  unfold sync_roundtrip. rewrite Hq. cbn [map_err res_bind]. rewrite Hsent. cbn [map_err res_bind].
  unfold daemon_peer. rewrite <- (app_nil_r frame) at 2. rewrite codec_reads by done.
  rewrite Hs, codec_writes by done. unfold default, id.
  rewrite <- (app_nil_r (be_bytes _ _ ++ reply)). rewrite (read_written reply).
  - cbn [map_err res_bind fst]. apply decode_encoded; [done|]. unfold rpc_answer, timed_response.
    destruct limited; [done|]. destruct (_ <=? _); [|done]. destruct (handler request) eqn:E; [by apply Hid|done].
  - apply write_frame_Ok. split; [|done]. unfold MAX_RESPONSE_SIZE, u32_max in *. lia.
  - unfold MAX_RESPONSE_SIZE, MAX_FRAME_SIZE in *. lia.
Qed.

(** After a frame that does not decode, one error is sent and the connection
    ends. *)
Lemma malformed_frame_closes limited handler frame rest :
  errors_fit -> (forall payload version, split_frame frame = Ok (version, payload) -> deserialize (T := Request) payload = None) ->
  exists reply, serve ((Some frame, limited, handler) :: rest) = [reply]
    /\ encode_frame (Error 0 PARSE_ERROR) = Ok reply.
Proof.
  intros He Hbad. destruct (He 0 PARSE_ERROR) as (reply & Hr & _); [unfold u64_max; lia|]. exists reply. split; [|done]. cbn [serve]. unfold serve_frame, error_frame.
  rewrite Hr. destruct (split_frame frame) as [[version payload]|e] eqn:E; [|done]. by rewrite (Hbad payload version eq_refl).
Qed.
End rpc.

(** * A concrete serializer and codec: pings, pongs and errors *)

Definition in_u64 (id : Z) : bool := (0 <=? id) && (id <=? u64_max).

Definition ping_wire : Wire Request := {|
  serialize r := match r with Ping id => if in_u64 id then Some (le_bytes 8 id) else None | _ => None end;
  deserialize bytes := if (length bytes =? 8)%nat then Some (Ping (le_value bytes)) else None
|}.

Definition code_byte (code : ErrorCode) : Z :=
  match code with
  | PARSE_ERROR => 1 | INVALID_PARAMS => 2 | INTERNAL_ERROR => 3 | PACKAGE_NOT_FOUND => 4 | RATE_LIMITED => 5 | RESPONSE_TOO_LARGE => 6
  end.

Definition pong_wire : Wire Response := {|
  serialize r :=
    match r with
    | Success id Pong => if in_u64 id then Some (0 :: le_bytes 8 id) else None
    | Error id code => if in_u64 id then Some (code_byte code :: le_bytes 8 id) else None
    | _ => None
    end;
  deserialize bytes :=
    match bytes with
    | [] => None
    | kind :: rest =>
        let id := le_value rest in
        if kind =? 0 then Some (Success id Pong) else if kind =? 1 then Some (Error id PARSE_ERROR)
        else if kind =? 2 then Some (Error id INVALID_PARAMS) else if kind =? 3 then Some (Error id INTERNAL_ERROR)
        else if kind =? 4 then Some (Error id PACKAGE_NOT_FOUND) else if kind =? 5 then Some (Error id RATE_LIMITED)
        else if kind =? 6 then Some (Error id RESPONSE_TOO_LARGE) else None
    end
|}.

#[local] Arguments le_bytes : simpl never.
#[local] Arguments le_value : simpl never.

Lemma in_u64_bytes id : in_u64 id = true -> le_value (le_bytes 8 id) = id.
Proof.
  unfold in_u64, u64_max. intros [H1%Z.leb_le H2%Z.leb_le]%andb_true_iff. apply le_value_le_bytes.
  change (256 ^ Z.of_nat 8) with (2 ^ 64). lia.
Qed.

Lemma ping_wire_laws : @WireLaws Request ping_wire.
Proof.
  split; intros [] bytes; cbn [serialize ping_wire]; try done; destruct (in_u64 id) eqn:E; try done; intros [= <-].
  - cbn [deserialize ping_wire]. by rewrite length_le_bytes, (in_u64_bytes id E).
  - apply le_bytes_range.
Qed.

Lemma pong_wire_laws : @WireLaws Response pong_wire.
Proof.
  split; intros [id []|id []] bytes; cbn [serialize pong_wire]; try done; destruct (in_u64 id) eqn:E; try done; intros [= <-];
    try (constructor; [simpl; lia|apply le_bytes_range]); cbn [deserialize pong_wire];
    by rewrite (in_u64_bytes id E).
Qed.

Definition plain_codec : FrameCodec := {|
  codec_read max stream :=
    let len := le_value (rev (take 4 stream)) in
    if (length stream <? 4)%nat || (max <? len) || (length stream <? 4 + Z.to_nat len)%nat then None
    else Some (take (Z.to_nat len) (drop 4 stream), drop (4 + Z.to_nat len) stream);
  codec_write max payload :=
    if Z.of_nat (length payload) <=? max then Some (be_bytes 4 (Z.of_nat (length payload)) ++ payload) else None
|}.

Lemma plain_codec_laws : FrameCodecLaws plain_codec.
Proof.
  split; intros max payload.
  - intros rest Hm Hl. unfold codec_read, plain_codec. set (h := be_bytes 4 (Z.of_nat (length payload))).
    assert (Hh : length h = 4%nat) by apply length_be_bytes.
    rewrite take_app_length', !length_app, Hh by done. unfold h. rewrite be_value_bytes by (apply u32_bytes; lia). fold h.
    rewrite (proj2 (Z.ltb_ge _ _) Hl), Nat2Z.id. rewrite !(proj2 (Nat.ltb_ge _ _)) by lia. cbn [orb].
    rewrite drop_app_length' by done. rewrite take_app_length. do 2 f_equal.
    rewrite drop_app, Hh. rewrite drop_ge by lia. replace (4 + length payload - 4)%nat with (length payload) by lia.
    by rewrite drop_app_length.
  - intros Hm Hl. unfold codec_write, plain_codec. by rewrite (proj2 (Z.leb_le _ _) Hl).
Qed.

Lemma frames_roundtrip_witness :
  (exists bytes, write_frame [1; 2; 3] = Ok bytes /\ read_frame (bytes ++ [9]) = Ok ([1; 2; 3], [9])) /\
  split_frame (le_bytes 4 3 ++ [7]) = Err (VersionMismatch 3 4).
Proof.
  pose proof (@frames_roundtrip Request ping_wire ping_wire_laws) as (H1 & _ & _ & _ & _ & H6). split.
  - apply (H1 [1; 2; 3] [9]). apply Z.leb_le. reflexivity.
  - apply (H6 3 [7]); [split; apply Z.leb_le; reflexivity|discriminate].
Defined.

Lemma rpc_is_correlated_witness :
  @sync_roundtrip ping_wire pong_wire (@daemon_peer ping_wire pong_wire plain_codec false (fun r => Some (Success (request_id r) Pong))) (Ping 7)
  = Ok (Success 7 Pong).
Proof.
  apply (@rpc_is_correlated ping_wire ping_wire_laws pong_wire pong_wire_laws plain_codec plain_codec_laws false
           (fun r => Some (Success (request_id r) Pong)) (Ping 7)
           (le_bytes 4 4 ++ le_bytes 8 7) (le_bytes 4 4 ++ 0 :: le_bytes 8 7)).
  - intros id code Hid. assert (E : in_u64 id = true) by (unfold in_u64; apply andb_true_iff; split; apply Z.leb_le; lia).
    eexists. split; [unfold encode_frame; cbn [serialize pong_wire]; rewrite E; reflexivity|].
    apply Z.leb_le. destruct code; reflexivity.
  - split; apply Z.leb_le; reflexivity.
  - reflexivity.
  - apply Z.leb_le. reflexivity.
  - intros response H. injection H as <-. reflexivity.
  - reflexivity.
Defined.
