(* ===== verification/DebExtract.v ===== *)
(** Extraction of Debian packages and its rollback:
    src/src/package_managers/debian_db/transaction.rs.

    [extract_tar_stream_to_root_at] unpacks the data archive of a package into
    a root directory and keeps the list of paths it wrote, from which
    [rollback] undoes a failed transaction. The file system is a table from
    physical paths to nodes, on which system calls resolve symbolic links as
    the kernel does. Every system call runs under an oracle that may make it
    fail (see [FaultProg]). Reading the archive is an argument: an entry has
    what its accessors return, [None] for an error. A path is the list of its
    components from the root of the file system; the text of an entry path is
    what [to_string_lossy] makes of it. A hard link is a second copy of its
    node, the temporary file that becomes a regular file is not represented,
    and panics of the tar reader are not modelled. *)

From S2P Require Import Prelude FaultProg RustPath.
Open Scope Z_scope.
Open Scope omg_scope.

(** * The file system *)

Abbreviation Path := (list (list Z)) (only parsing).

Inductive Node :=
| NFile (content : list Z) (mode : Z)
| NDir (mode : Z)
| NLink (target : list Z).

#[export] Instance Node_eq_dec : EqDecision Node.
Proof. solve_decision. Defined.

Abbreviation Tree := (gmap (list (list Z)) Node) (only parsing).

(** The number of links the kernel follows in one path. *)
Definition MAXSYMLINKS : nat := 40.

(** The physical path of what [cs] leads to from the directory [dir],
    following every link. *)
Fixpoint walk (links : nat) (t : Tree) (dir : Path) (cs : list Component) {struct links} : result Path IoError :=
  (fix go (dir : Path) (cs : list Component) {struct cs} : result Path IoError :=
    match cs with
    | [] => Ok dir
    | RootDir :: cs => go [] cs
    | CurDir :: cs => go dir cs
    | ParentDir :: cs => go (removelast dir) cs
    | Normal name :: rest =>
        match t !! (dir ++ [name]) with
        | None => Err NotFound
        | Some (NDir _) => go (dir ++ [name]) rest
        | Some (NFile _ _) => if bool_decide (rest = []) then Ok (dir ++ [name]) else Err NotADirectory
        | Some (NLink target) =>
            match links with
            | O => Err TooManyLinks
            | S links => walk links t dir (components target ++ rest)
            end
        end
    end) dir cs.

Definition follow_path (t : Tree) (p : Path) : result Path IoError := walk MAXSYMLINKS t [] (map Normal p).

(** The physical path of a directory entry: links are followed in its parent,
    not at its end. *)
Definition place (t : Tree) (p : Path) : result Path IoError :=
  match last p with
  | None => Ok []
  | Some name =>
      let? dir := follow_path t (removelast p) in
      match t !! dir with
      | Some (NDir _) => Ok (dir ++ [name])
      | _ => Err NotADirectory
      end
  end.

Definition set_mode (mode : Z) (n : Node) : Node :=
  match n with NFile content _ => NFile content mode | NDir _ => NDir mode | NLink target => NLink target end.

(** ** System calls *)

Definition symlink_metadata (p : Path) (t : Tree) : result (Node * Tree) IoError :=
  let? q := place t p in let? n := ok_or (t !! q) NotFound in Ok (n, t).

(** A call that makes a new entry. *)
Definition create_at (p : Path) (n : Node) (t : Tree) : result (unit * Tree) IoError :=
  let? q := place t p in
  match t !! q with
  | Some _ => Err AlreadyExists
  | None => Ok (tt, <[q := n]> t)
  end.

(** [0o755]. *)
Definition DEFAULT_DIR_MODE : Z := 0x1ED.

Definition create_dir (p : Path) : Tree -> result (unit * Tree) IoError := create_at p (NDir DEFAULT_DIR_MODE).

Definition symlink (target : list Z) (p : Path) (t : Tree) : result (unit * Tree) IoError :=
  if bool_decide (target = []) then Err NotFound else create_at p (NLink target) t.

Definition hard_link (target p : Path) (t : Tree) : result (unit * Tree) IoError :=
  let? q := place t target in
  match t !! q with
  | None => Err NotFound
  | Some (NDir _) => Err NotPermitted
  | Some n => create_at p n t
  end.

Definition set_permissions (p : Path) (mode : Z) (t : Tree) : result (unit * Tree) IoError :=
  let? q := follow_path t p in
  match t !! q with
  | Some n => Ok (tt, <[q := set_mode mode n]> t)
  | None => Err NotFound
  end.

(** [NamedTempFile::persist]: rename onto a path that is not a directory. *)
Definition persist (p : Path) (content : list Z) (mode : Z) (t : Tree) : result (unit * Tree) IoError :=
  let? q := place t p in
  match t !! q with
  | Some (NDir _) => Err IsADirectory
  | _ => Ok (tt, <[q := NFile content mode]> t)
  end.

Definition remove_file (p : Path) (t : Tree) : result (unit * Tree) IoError :=
  let? q := place t p in
  match t !! q with
  | None => Err NotFound
  | Some (NDir _) => Err IsADirectory
  | Some _ => Ok (tt, delete q t)
  end.

Definition is_empty_dir (t : Tree) (q : Path) : bool :=
  forallb (fun r => negb (bool_decide (q `prefix_of` r) && negb (bool_decide (r = q)))) (elements (dom t)).

Definition remove_dir (p : Path) (t : Tree) : result (unit * Tree) IoError :=
  let? q := place t p in
  if bool_decide (q = []) then Err NotPermitted
  else match t !! q with
  | None => Err NotFound
  | Some (NDir _) => if is_empty_dir t q then Ok (tt, delete q t) else Err DirectoryNotEmpty
  | Some _ => Err NotADirectory
  end.

(** * Entry paths and link targets *)

Inductive ExtractError :=
| ArchiveFailed
| ParentComponent
| AbsoluteEntry
| EntryIsRoot
| LinkWithoutTarget
| LinkEscapes
| LinkIsRoot
| TargetNotExtracted (path target : Path)
| SpecialEntry (path : Path)
| ParentNotDirectory (path : Path)
| ModeFailed (path : Path) (e : option IoError)
| ExtractIo (e : IoError).

Definition entry_component (resolved : Path) (c : Component) : result Path ExtractError :=
  match c with
  | Normal part => Ok (resolved ++ [part])
  | CurDir => Ok resolved
  | ParentDir => Err ParentComponent
  | RootDir => Err AbsoluteEntry
  end.

Definition data_tar_entry_path (root : Path) (text : list Z) : result Path ExtractError :=
  let rel := default text (strip_prefix (str "./") text) in
  let? resolved := for_each entry_component root (components rel) in
  ensure (negb (bool_decide (resolved = root))) EntryIsRoot ;?
  Ok resolved.

(** The depth guard of a relative target. *)
Definition target_step (depth : nat) (c : Component) : result nat ExtractError :=
  match c with
  | Normal _ => Ok (S depth)
  | CurDir => Ok depth
  | ParentDir => match depth with S depth => Ok depth | O => Err LinkEscapes end
  | RootDir => Err LinkEscapes
  end.

(** The same over an absolute target, which is rebased onto the root. *)
Definition rebase_step (s : nat * Path) (c : Component) : result (nat * Path) ExtractError :=
  let '(depth, rebased) := s in
  match c with
  | Normal part => Ok (S depth, rebased ++ [part])
  | CurDir => Ok s
  | ParentDir => match depth with S depth => Ok (depth, removelast rebased) | O => Err LinkEscapes end
  | RootDir => Err LinkEscapes
  end.

(** The text of an absolute path. *)
Definition path_text (p : Path) : list Z := ch "/" :: join_slash p.

Definition strip_root (root p : Path) : Path :=
  if bool_decide (root `prefix_of` p) then drop (length root) p else p.

Definition validate_root_relative_link_target (root link_path : Path) (target : list Z) : result (list Z) ExtractError :=
  match components target with
  | RootDir :: cs =>
      let? s := for_each rebase_step (O, root) cs in
      ensure (negb (bool_decide (s.2 = root))) LinkIsRoot ;?
      Ok (path_text s.2)
  | cs =>
      let? _ := for_each target_step (length (strip_root root link_path)) cs in
      Ok target
  end.

(** * Extraction *)

Inductive EntryType := TDirectory | TSymlink | THardLink | TRegular | TSpecial.

Record TarEntry := {
  entry_path : option (list Z);
  entry_type : EntryType;
  link_name : option (option (list Z));
  entry_mode : option Z;
  entry_content : option (list Z)
}.

Inductive PendingRootLink :=
| Symbolic (path : Path) (target : list Z)
| Hard (path target : Path).

(** The file system with the variables of the extraction. *)
Record Extraction := {
  tree : Tree;
  installed_files : list Path;
  seen_dirs : gset Path;
  pending_links : list PendingRootLink;
  extracted_regular_files : gset Path
}.

Definition with_tree (s : Extraction) (t : Tree) : Extraction :=
  {| tree := t; installed_files := installed_files s; seen_dirs := seen_dirs s;
     pending_links := pending_links s; extracted_regular_files := extracted_regular_files s |}.

Definition record_file (p : Path) (s : Extraction) : Extraction :=
  {| tree := tree s; installed_files := installed_files s ++ [p]; seen_dirs := seen_dirs s;
     pending_links := pending_links s; extracted_regular_files := extracted_regular_files s |}.

Definition mark_seen (p : Path) (s : Extraction) : Extraction :=
  {| tree := tree s; installed_files := installed_files s; seen_dirs := {[p]} ∪ seen_dirs s;
     pending_links := pending_links s; extracted_regular_files := extracted_regular_files s |}.

Definition add_link (l : PendingRootLink) (s : Extraction) : Extraction :=
  {| tree := tree s; installed_files := installed_files s; seen_dirs := seen_dirs s;
     pending_links := pending_links s ++ [l]; extracted_regular_files := extracted_regular_files s |}.

Definition mark_extracted (p : Path) (s : Extraction) : Extraction :=
  {| tree := tree s; installed_files := installed_files s; seen_dirs := seen_dirs s;
     pending_links := pending_links s; extracted_regular_files := {[p]} ∪ extracted_regular_files s |}.

Abbreviation Prog := (FProg Extraction) (only parsing).

Definition update (f : Extraction -> Extraction) : Prog unit := fun m =>
  ({| fs := f (fs m); clock := clock m; keep_staging := keep_staging m |}, Some tt).

Definition get {A} (f : Extraction -> A) : Prog A := fun m => (m, Some (f (fs m))).

(** A fallible value that makes no system call. *)
Definition pure {A} (r : result A ExtractError) : Prog (result A ExtractError) := mret r.

(** [path.ancestors().skip(1)], nearest first. *)
Fixpoint ancestors (rev_parent : Path) : list Path :=
  match rev_parent with
  | [] => [[]]
  | c :: rest => rev (c :: rest) :: ancestors rest
  end.

Definition parents (p : Path) : list Path := ancestors (tail (rev p)).

Section extract.
Context (oracle : nat -> Fault) (root : Path).

Definition sys {A} (act : Tree -> result (A * Tree) IoError) : Prog (result A IoError) :=
  syscall oracle (fun s => let? r := act (tree s) in Ok (r.1, with_tree s r.2)).

Definition try_io {A} (act : Tree -> result (A * Tree) IoError) : Prog (result A ExtractError) :=
  r ← sys act; mret (map_err ExtractIo r).

(** The ancestors that have to be created, nearest first. *)
Fixpoint missing_parents (above : list Path) : Prog (result (list Path) ExtractError) :=
  match above with
  | [] => mret (Ok [])
  | a :: above =>
      stop ← get (fun s => bool_decide (a = root) || bool_decide (a ∈ seen_dirs s));
      if stop : bool then mret (Ok [])
      else
        _ ← update (mark_seen a);
        r ← sys (symlink_metadata a);
        match r with
        | Ok (NDir _) => missing_parents above
        | Ok _ => mret (Err (ParentNotDirectory a))
        | Err NotFound => try_prog (missing_parents above) (fun missing => mret (Ok (a :: missing)))
        | Err e => mret (Err (ExtractIo e))
        end
  end.

Fixpoint create_parents (missing : list Path) : Prog (result unit ExtractError) :=
  match missing with
  | [] => mret (Ok tt)
  | dir :: missing =>
      try_prog (try_io (create_dir dir)) (fun _ =>
        _ ← update (record_file dir);
        create_parents missing)
  end.

Definition ensure_parent_dirs_recorded (p : Path) : Prog (result unit ExtractError) :=
  try_prog (missing_parents (parents p)) (fun missing => create_parents (rev missing)).

Definition write_archive_regular_file (content : option (list Z)) (p : Path) (mode : Z) : Prog (result unit ExtractError) :=
  match content with
  | Some content => try_io (persist p content mode)
  | None => mret (Err ArchiveFailed)
  end.

Definition extract_directory (p : Path) (mode : option Z) : Prog (result unit ExtractError) :=
  try_prog (ensure_parent_dirs_recorded p) (fun _ =>
  r ← sys (create_dir p);
  match r with
  | Err AlreadyExists | Ok _ =>
      match mode with
      | None => mret (Err (ModeFailed p None))
      | Some mode =>
          r ← sys (set_permissions p mode);
          match r with
          | Ok _ => _ ← update (record_file p); mret (Ok tt)
          | Err e => mret (Err (ModeFailed p (Some e)))
          end
      end
  | Err e => mret (Err (ExtractIo e))
  end).

(** The target of a link entry. *)
Definition link_target (e : TarEntry) : result (list Z) ExtractError :=
  let? name := ok_or (link_name e) ArchiveFailed in ok_or name LinkWithoutTarget.

Definition extract_entry (entry : option TarEntry) : Prog (result unit ExtractError) :=
  match entry with
  | None => mret (Err ArchiveFailed)
  | Some e =>
      try_prog (pure (let? text := ok_or (entry_path e) ArchiveFailed in data_tar_entry_path root text)) (fun p =>
      match entry_type e with
      | TDirectory => extract_directory p (entry_mode e)
      | TSymlink =>
          try_prog (pure (let? target := link_target e in validate_root_relative_link_target root p target)) (fun target =>
          _ ← update (fun s => add_link (Symbolic p target) (record_file p s));
          mret (Ok tt))
      | THardLink =>
          try_prog (pure (let? target := link_target e in data_tar_entry_path root target)) (fun target =>
          _ ← update (fun s => add_link (Hard p target) (record_file p s));
          mret (Ok tt))
      | TSpecial => mret (Err (SpecialEntry p))
      | TRegular =>
          try_prog (ensure_parent_dirs_recorded p) (fun _ =>
          try_prog (pure (ok_or (entry_mode e) ArchiveFailed)) (fun mode =>
          try_prog (write_archive_regular_file (entry_content e) p mode) (fun _ =>
          _ ← update (fun s => record_file p (mark_extracted p s));
          mret (Ok tt))))
      end)
  end.

Fixpoint extract_entries (entries : list (option TarEntry)) : Prog (result unit ExtractError) :=
  match entries with
  | [] => mret (Ok tt)
  | e :: entries => try_prog (extract_entry e) (fun _ => extract_entries entries)
  end.

Fixpoint create_root_links (links : list PendingRootLink) : Prog (result unit ExtractError) :=
  match links with
  | [] => mret (Ok tt)
  | Symbolic p target :: links =>
      try_prog (try_io (symlink target p)) (fun _ => create_root_links links)
  | Hard p target :: links =>
      known ← get (fun s => bool_decide (target ∈ extracted_regular_files s));
      if known : bool then try_prog (try_io (hard_link target p)) (fun _ => create_root_links links)
      else mret (Err (TargetNotExtracted p target))
  end.

(** [None]: the archive cannot be opened. *)
Definition extract_inner (archive : option (list (option TarEntry))) : Prog (result unit ExtractError) :=
  match archive with
  | None => mret (Err ArchiveFailed)
  | Some entries =>
      try_prog (extract_entries entries) (fun _ =>
      links ← get pending_links;
      create_root_links links)
  end.

(** The files written, with the error of an extraction that failed half way
    ([PartialExtractionError]). *)
Definition extract_tar_stream_to_root_at (archive : option (list (option TarEntry)))
  : Prog (list Path * result unit ExtractError) :=
  _ ← update (fun s => {| tree := tree s; installed_files := []; seen_dirs := ∅; pending_links := []; extracted_regular_files := ∅ |});
  r ← extract_inner archive;
  files ← get installed_files;
  mret (files, r).

(** * Rollback *)

Definition remove_file_if_present (p : Path) : Prog (result unit IoError) :=
  r ← sys (symlink_metadata p);
  match r with
  | Ok (NDir _) => sys (remove_dir p)
  | Ok _ =>
      r ← sys (remove_file p);
      match r with Err NotFound => mret (Ok tt) | _ => mret r end
  | Err NotFound => mret (Ok tt)
  | Err e => mret (Err e)
  end.

(** The paths that could not be removed. *)
Fixpoint remove_installed (files : list Path) (failures : list (Path * IoError)) : Prog (list (Path * IoError)) :=
  match files with
  | [] => mret failures
  | p :: files =>
      r ← remove_file_if_present p;
      remove_installed files (match r with Err e => failures ++ [(p, e)] | Ok _ => failures end)
  end.

Definition rollback_files (installed : list Path) : Prog (list (Path * IoError)) :=
  remove_installed (rev installed) [].
End extract.
