(* ===== verification/DebExtractProofs.v ===== *)
(** Proofs about [DebExtract]: regular files and directories are written below
    the root and never through a link, every change is on the list of
    installed files, and a rollback without failures takes exactly the listed
    paths away. *)

From S2P Require Import Prelude FaultProg RustPath DebExtract.
Open Scope Z_scope.
Open Scope omg_scope.

Implicit Types t : gmap (list (list Z)) Node.
Implicit Types p q d : list (list Z).
Implicit Types s : Extraction.

(** * Path resolution *)

#[local] Arguments walk : simpl never.

(** The path and everything above it are directories. *)
Definition real t p : Prop := forall q, q `prefix_of` p -> exists mode, t !! q = Some (NDir mode).

Definition parent p : list (list Z) := removelast p.

Lemma parent_snoc d name : parent (d ++ [name]) = d.
Proof. unfold parent. rewrite removelast_app by done. by rewrite app_nil_r. Qed.

Lemma snoc_parent p : p ≠ [] -> exists name, p = parent p ++ [name].
Proof. intros Hp. destruct (exists_last Hp) as (l & x & ->). exists x. by rewrite parent_snoc. Qed.

Lemma parent_prefix p : parent p `prefix_of` p.
Proof.
  destruct (decide (p = [])) as [->|Hp]; [done|]. destruct (snoc_parent p Hp) as [x Hx]. rewrite Hx at 2. by apply prefix_app_r.
Qed.

Lemma prefix_snoc q d name : q `prefix_of` d ++ [name] <-> q `prefix_of` d \/ q = d ++ [name].
Proof.
  split.
  - intros [k Hk]. destruct (decide (k = [])) as [->|Hn]; [right; by rewrite app_nil_r in Hk|left].
    destruct (exists_last Hn) as (k' & x & ->). rewrite app_assoc in Hk. apply app_inj_tail in Hk as [-> ->]. by exists k'.
  - intros [H| ->]; [by apply prefix_app_r|done].
Qed.

Lemma real_prefix t p q : real t p -> q `prefix_of` p -> real t q.
Proof. intros Hr Hq r Hrq. apply Hr. by etrans. Qed.

Lemma real_snoc t d name mode : real t d -> t !! (d ++ [name]) = Some (NDir mode) -> real t (d ++ [name]).
Proof. intros Hr Hn q [Hq| ->]%prefix_snoc; eauto. Qed.

Lemma real_self t p : real t p -> exists mode, t !! p = Some (NDir mode).
Proof. intros Hr. by apply Hr. Qed.

(** One step of a walk. *)
Lemma walk_nil links t d : walk links t d [] = Ok d.
Proof. by destruct links. Qed.

Lemma walk_cons links t d c cs :
  walk links t d (c :: cs) =
  match c with
  | RootDir => walk links t [] cs
  | CurDir => walk links t d cs
  | ParentDir => walk links t (removelast d) cs
  | Normal name =>
      match t !! (d ++ [name]) with
      | None => Err NotFound
      | Some (NDir _) => walk links t (d ++ [name]) cs
      | Some (NFile _ _) => if bool_decide (cs = []) then Ok (d ++ [name]) else Err NotADirectory
      | Some (NLink target) =>
          match links with O => Err TooManyLinks | S links => walk links t d (components target ++ cs) end
      end
  end.
Proof. destruct links, c; reflexivity. Qed.

(** Induction over the steps of a walk. *)
Lemma walk_ind (P : nat -> list (list Z) -> list Component -> Prop) t :
  (forall links d, P links d []) ->
  (forall links d cs, P links [] cs -> P links d (RootDir :: cs)) ->
  (forall links d cs, P links d cs -> P links d (CurDir :: cs)) ->
  (forall links d cs, P links (removelast d) cs -> P links d (ParentDir :: cs)) ->
  (forall links d name cs,
     (forall mode, t !! (d ++ [name]) = Some (NDir mode) -> P links (d ++ [name]) cs) ->
     (forall target n, t !! (d ++ [name]) = Some (NLink target) -> links = S n -> P n d (components target ++ cs)) ->
     P links d (Normal name :: cs)) ->
  forall links d cs, P links d cs.
Proof.
  intros Hnil Hroot Hcur Hup Hname. induction links as [|links IH]; intros d cs; revert d;
    (induction cs as [|[| | |name] cs IHc]; intros d; [auto..|]); apply Hname; auto; intros; simplify_eq; auto.
Qed.

Lemma walk_real links t d names cs :
  real t (d ++ names) -> walk links t d (map Normal names ++ cs) = walk links t (d ++ names) cs.
Proof.
  revert d; induction names as [|n names IH]; intros d Hr; simpl; [by rewrite app_nil_r|].
  assert (Hd : real t ((d ++ [n]) ++ names)) by (by rewrite <- app_assoc).
  destruct (Hd (d ++ [n])) as [mode Hm]; [by apply prefix_app_r|].
  rewrite walk_cons, Hm, IH by done. by rewrite <- app_assoc.
Qed.

Lemma follow_real t p : real t p -> follow_path t p = Ok p.
Proof.
  intros Hr. unfold follow_path. pose proof (walk_real MAXSYMLINKS t [] p [] Hr) as H.
  rewrite app_nil_r in H. by rewrite H, walk_nil.
Qed.

Lemma place_real t d name : real t d -> place t (d ++ [name]) = Ok (d ++ [name]).
Proof.
  intros Hr. unfold place. rewrite last_snoc. fold (parent (d ++ [name])). rewrite parent_snoc, follow_real by done. simpl.
  by destruct (real_self t d Hr) as [mode ->].
Qed.

Lemma place_self t p : p ≠ [] -> real t (parent p) -> place t p = Ok p.
Proof. intros Hp Hr. destruct (snoc_parent p Hp) as [x Hx]. rewrite Hx. by apply place_real. Qed.

(** Below something that does not exist nothing is found. *)
Lemma follow_missing t d name rest :
  real t d -> t !! (d ++ [name]) = None -> follow_path t (d ++ name :: rest) = Err NotFound.
Proof.
  intros Hr Hn. unfold follow_path. rewrite map_app, (walk_real _ t [] d) by done. cbn [map app]. by rewrite walk_cons, Hn.
Qed.

(** A walk in a larger table. *)
Lemma walk_mono links t t' d cs r : t ⊆ t' -> walk links t d cs = Ok r -> walk links t' d cs = Ok r.
Proof.
  intros Hsub. revert links d cs r. apply (walk_ind (fun links d cs => forall r, walk links t d cs = Ok r -> walk links t' d cs = Ok r) t).
  - intros links d r. by rewrite !walk_nil.
  - intros links d cs IH r. rewrite !walk_cons. apply IH.
  - intros links d cs IH r. rewrite !walk_cons. apply IH.
  - intros links d cs IH r. rewrite !walk_cons. apply IH.
  - intros links d name cs IHd IHl r. rewrite !walk_cons. destruct (t !! (d ++ [name])) as [n|] eqn:Hn; [|done].
    rewrite (lookup_weaken _ _ _ _ Hn Hsub). destruct n as [| |target]; [done|by eapply IHd|].
    destruct links as [|links]; [done|]. by eapply IHl.
Qed.

Lemma place_mono t t' p q : t ⊆ t' -> place t p = Ok q -> place t' p = Ok q.
Proof.
  intros Hsub. unfold place. destruct (last p); [|done]. intros H. res_inv. unfold follow_path in *.
  rewrite (walk_mono _ _ _ _ _ _ Hsub Hr). simpl. destruct (t !! a) as [[| |]|] eqn:Ha; try done.
  by rewrite (lookup_weaken _ _ _ _ Ha Hsub).
Qed.

(** A walk in a smaller table ends at the same place or finds nothing. *)
Lemma walk_anti links t t' d cs : t' ⊆ t -> walk links t' d cs = walk links t d cs \/ walk links t' d cs = Err NotFound.
Proof.
  intros Hsub. revert links d cs.
  apply (walk_ind (fun links d cs => walk links t' d cs = walk links t d cs \/ walk links t' d cs = Err NotFound) t).
  - intros links d. left. by rewrite !walk_nil.
  - intros links d cs IH. by rewrite !walk_cons.
  - intros links d cs IH. by rewrite !walk_cons.
  - intros links d cs IH. by rewrite !walk_cons.
  - intros links d name cs IHd IHl. rewrite !walk_cons. destruct (t' !! (d ++ [name])) as [n|] eqn:Hn; [|by right].
    pose proof (lookup_weaken _ _ _ _ Hn Hsub) as Hn'. rewrite Hn'. destruct n as [| |target]; [by left|by eapply IHd|].
    destruct links as [|links]; [by left|]. by eapply IHl.
Qed.

(** A walk passes through directories only. *)
Lemma walk_result links t d cs r :
  real t d -> walk links t d cs = Ok r -> real t r \/ exists content mode, t !! r = Some (NFile content mode).
Proof.
  revert links d cs r. apply (walk_ind (fun links d cs => forall r, real t d -> walk links t d cs = Ok r ->
    real t r \/ exists content mode, t !! r = Some (NFile content mode)) t).
  - intros links d r Hd. rewrite walk_nil. intros [= <-]. by left.
  - intros links d cs IH r Hd. rewrite walk_cons. apply IH. eapply real_prefix; [done|apply prefix_nil].
  - intros links d cs IH r Hd. rewrite walk_cons. by apply IH.
  - intros links d cs IH r Hd. rewrite walk_cons. apply IH. eapply real_prefix; [done|apply parent_prefix].
  - intros links d name cs IHd IHl r Hd. rewrite walk_cons. destruct (t !! (d ++ [name])) as [[c m|m|target]|] eqn:Hn; [|..|done].
    + case_bool_decide; [|done]. intros [= <-]. right. by eauto.
    + apply (IHd m eq_refl). by eapply real_snoc.
    + destruct links as [|links]; [done|]. by eapply IHl.
Qed.

Lemma walk_not_found_app links t d cs more : walk links t d cs = Err NotFound -> walk links t d (cs ++ more) = Err NotFound.
Proof.
  revert links d cs. apply (walk_ind (fun links d cs => walk links t d cs = Err NotFound -> walk links t d (cs ++ more) = Err NotFound) t).
  - intros links d. by rewrite walk_nil.
  - intros links d cs IH. cbn [app]. rewrite !walk_cons. apply IH.
  - intros links d cs IH. cbn [app]. rewrite !walk_cons. apply IH.
  - intros links d cs IH. cbn [app]. rewrite !walk_cons. apply IH.
  - intros links d name cs IHd IHl. cbn [app]. rewrite !walk_cons.
    destruct (t !! (d ++ [name])) as [[c m|m|target]|] eqn:Hn; [|by eapply IHd| |done]; [by case_bool_decide|].
    destruct links as [|links]; [done|]. rewrite app_assoc. by eapply IHl.
Qed.

(** * Reasoning about programs up to the clock *)

Definition spec {A} (s : Extraction) (p : FProg Extraction A) (Q : A -> Extraction -> Prop) : Prop :=
  forall m, fs m = s -> wp (fun _ => True) p (fun a m' => Q a (fs m')) m.

Lemma spec_ret {A} s (a : A) (Q : A -> Extraction -> Prop) : Q a s -> spec s (mret a) Q.
Proof. intros H m <-. by apply wp_ret. Qed.

Lemma spec_bind {A B} s (p : FProg Extraction A) (k : A -> FProg Extraction B) Q :
  spec s p (fun a s' => spec s' (k a) Q) -> spec s (p ≫= k) Q.
Proof. intros H m Hm. apply wp_bind. eapply wp_mono; [by apply H|]. intros a m' Ha. by apply Ha. Qed.

Lemma spec_mono {A} s (p : FProg Extraction A) (Q Q' : A -> Extraction -> Prop) :
  spec s p Q -> (forall a s', Q a s' -> Q' a s') -> spec s p Q'.
Proof. intros H HQ m Hm. eapply wp_mono; [by apply H|]. auto. Qed.

Lemma spec_try {A B E} s (p : FProg Extraction (result A E)) (k : A -> FProg Extraction (result B E)) Q :
  spec s p (fun r s' => match r with Ok a => spec s' (k a) Q | Err e => Q (Err e) s' end) -> spec s (try_prog p k) Q.
Proof. intros H. apply spec_bind. eapply spec_mono; [exact H|]. intros [a|e] s'; [done|]. apply spec_ret. Qed.

Lemma spec_update s f (Q : unit -> Extraction -> Prop) : Q tt (f s) -> spec s (update f) Q.
Proof. by intros H m <-. Qed.

Lemma spec_get {A} (s : Extraction) (f : Extraction -> A) (Q : A -> Extraction -> Prop) : Q (f s) s -> spec s (get f) Q.
Proof. by intros H m <-. Qed.

Lemma spec_sys {A} (oracle : nat -> Fault) (s : Extraction) (act : gmap (list (list Z)) Node -> result (A * gmap (list (list Z)) Node) IoError) (Q : result A IoError -> Extraction -> Prop) :
  (forall e, e = IoFault \/ act (tree s) = Err e -> Q (Err e) s) ->
  (forall a t, act (tree s) = Ok (a, t) -> Q (Ok a) (with_tree s t)) ->
  spec s (sys oracle act) Q.
Proof.
  intros He Ho m <-. apply wp_syscall; [done|..].
  - intros e [->|H]; simpl; [by auto|]. apply He. right. destruct (act (tree (fs m))) as [[]|]; by simplify_eq/=.
  - intros a s' H. res_inv. destruct a0 as [a0 t]. by apply Ho.
Qed.

Lemma spec_try_io {A} (oracle : nat -> Fault) (s : Extraction) (act : gmap (list (list Z)) Node -> result (A * gmap (list (list Z)) Node) IoError) (Q : result A ExtractError -> Extraction -> Prop) :
  (forall e, Q (Err (ExtractIo e)) s) ->
  (forall a t, act (tree s) = Ok (a, t) -> Q (Ok a) (with_tree s t)) ->
  spec s (try_io oracle act) Q.
Proof. intros He Ho. apply spec_bind, spec_sys; intros; apply spec_ret; [apply He|by apply Ho]. Qed.

(** * What an extraction has changed *)

Definition same t t' p : Prop := set_mode 0 <$> t !! p = set_mode 0 <$> t' !! p.

Definition below (root p : list (list Z)) : Prop := root `prefix_of` p /\ p ≠ root.

Section files.
Context (oracle : nat -> Fault) (root : list (list Z)) (t0 : gmap (list (list Z)) Node) (Hroot : real t0 root).

(** Every change, apart from modes, is below the root, in a directory reached
    without links, and on the list or among [ex]. *)
Record core (ex : list (list Z) -> Prop) (s : Extraction) : Prop := {
  core_dirs q mode : t0 !! q = Some (NDir mode) -> exists mode', tree s !! q = Some (NDir mode');
  core_changed p : same t0 (tree s) p \/ (below root p /\ (p ∈ installed_files s \/ ex p) /\ real (tree s) (parent p))
}.

Definition link_path (l : PendingRootLink) : list (list Z) := match l with Symbolic p _ | Hard p _ => p end.

(** Between two entries. *)
Record full_ex (ex : list (list Z) -> Prop) (s : Extraction) : Prop := {
  full_core : core ex s;
  full_seen d : d ∈ seen_dirs s -> real (tree s) d;
  full_links l : l ∈ pending_links s -> link_path l ∈ installed_files s
}.

Definition full : Extraction -> Prop := full_ex (fun _ => False).

Lemma core_root ex s : core ex s -> real (tree s) root.
Proof. intros Hc q Hq. destruct (Hroot q Hq) as [mode Hm]. by eapply core_dirs. Qed.

Lemma real_insert t p n d : (forall mode, t !! p ≠ Some (NDir mode)) -> real t d -> real (<[p := n]> t) d.
Proof.
  intros Hn Hr q Hq. destruct (Hr q Hq) as [mode Hm]. exists mode. rewrite lookup_insert_ne; [done|]. intros ->. by apply (Hn mode).
Qed.

Lemma core_write ex s p n :
  core ex s -> below root p -> real (tree s) (parent p) -> (forall mode, tree s !! p ≠ Some (NDir mode)) ->
  core (fun q => ex q \/ q = p) (with_tree s (<[p := n]> (tree s))).
Proof.
  intros [Hd Hc] Hb Hr Hn. split; simpl.
  - intros q mode Hq. destruct (Hd q mode Hq) as [mode' Hm]. exists mode'. rewrite lookup_insert_ne; [done|]. intros ->. by apply (Hn mode').
  - intros q. destruct (decide (q = p)) as [->|Hqp]; [right; split_and!; [done|by right; right|by apply real_insert]|].
    destruct (Hc q) as [Hs|(Hq & Hi & Hrq)]; [left; unfold same in *; by rewrite lookup_insert_ne|].
    right. split_and!; [done|tauto|by apply real_insert].
Qed.

Lemma real_chmod t q n mode d : t !! q = Some n -> real t d -> real (<[q := set_mode mode n]> t) d.
Proof.
  intros Hn Hr r Hrd. destruct (Hr r Hrd) as [m Hm]. destruct (decide (r = q)) as [->|].
  - rewrite Hm in Hn. injection Hn as <-. exists mode. by rewrite lookup_insert_eq.
  - exists m. by rewrite lookup_insert_ne.
Qed.

Lemma core_chmod ex s q n mode :
  core ex s -> tree s !! q = Some n -> core ex (with_tree s (<[q := set_mode mode n]> (tree s))).
Proof.
  intros [Hd Hc] Hn. split; simpl.
  - intros r m Hr. destruct (Hd r m Hr) as [m' Hm]. destruct (decide (r = q)) as [->|]; [|exists m'; by rewrite lookup_insert_ne].
    rewrite Hm in Hn. injection Hn as <-. exists mode. by rewrite lookup_insert_eq.
  - intros r. destruct (Hc r) as [Hs|(? & ? & ?)]; [left|right; split_and!; [done..|by apply real_chmod]].
    unfold same in *. rewrite Hs. destruct (decide (r = q)) as [->|]; [|by rewrite lookup_insert_ne].
    rewrite lookup_insert_eq, Hn. simpl. by destruct n.
Qed.

Lemma core_record (ex ex' : list (list Z) -> Prop) s p : core ex s -> (forall q, ex q -> ex' q \/ q = p) -> core ex' (record_file p s).
Proof.
  intros [Hd Hc] Hex. split; [done|]. intros q. destruct (Hc q) as [Hs|(Hb & Hi & Hr)]; [by left|right]. split_and!; [done| |done].
  simpl. rewrite elem_of_app, list_elem_of_singleton. destruct Hi as [Hi|Hi%Hex]; tauto.
Qed.

Lemma core_weaken (ex ex' : list (list Z) -> Prop) s : core ex s -> (forall q, ex q -> ex' q) -> core ex' s.
Proof. intros [Hd Hc] Hex. split; [done|]. intros q. destruct (Hc q) as [?|(? & [?|?] & ?)]; [by left|right..]; split_and!; auto. Qed.

(** Only the tree and the list matter. *)
Lemma core_ext ex s s' : tree s' = tree s -> installed_files s' = installed_files s -> core ex s -> core ex s'.
Proof. intros Ht Hi [Hd Hc]. split; rewrite ?Ht, ?Hi; done. Qed.

(** ** Parent directories *)

Definition lstat t p : result Node IoError := let? q := place t p in ok_or (t !! q) NotFound.

Lemma symlink_metadata_lstat p t : symlink_metadata p t = let? n := lstat t p in Ok (n, t).
Proof. unfold symlink_metadata, lstat. destruct (place t p) as [q|]; [|done]. simpl. by destruct (t !! q). Qed.

(** [missing] are the ancestors of [d] (with [d]) that do not exist, nearest
    first. *)
Inductive makes t : list (list Z) -> list (list (list Z)) -> Prop :=
| makes_nothing d : root `prefix_of` d -> real t d -> makes t d []
| makes_one d name missing :
    makes t d missing -> lstat t (d ++ [name]) = Err NotFound -> makes t (d ++ [name]) ((d ++ [name]) :: missing).

Lemma makes_nil t d : makes t d [] -> root `prefix_of` d /\ real t d.
Proof. by inversion 1. Qed.

Lemma makes_not_found t d missing : makes t d missing -> missing ≠ [] -> follow_path t d = Err NotFound.
Proof.
  induction 1 as [d Hb Hr|d name missing Hm IH Hl]; [done|]. intros _. destruct missing as [|x missing].
  - apply makes_nil in Hm as [_ Hm]. unfold lstat in Hl. rewrite place_real in Hl by done. simpl in Hl.
    destruct (t !! (d ++ [name])) eqn:Hn; [done|]. by apply follow_missing.
  - unfold follow_path in *. rewrite map_app. apply walk_not_found_app. by apply IH.
Qed.

Lemma makes_found t d name missing mode : makes t d missing -> lstat t (d ++ [name]) = Ok (NDir mode) -> makes t (d ++ [name]) missing.
Proof.
  intros Hm Hl. destruct missing as [|x missing].
  - apply makes_nil in Hm as [Hb Hm]. constructor; [by apply prefix_app_r|]. unfold lstat in Hl. rewrite place_real in Hl by done. simpl in Hl.
    destruct (t !! (d ++ [name])) as [n|] eqn:Hn; [|done]. injection Hl as ->. by eapply real_snoc.
  - unfold lstat, place in Hl. rewrite last_snoc in Hl. fold (parent (d ++ [name])) in Hl. rewrite parent_snoc in Hl.
    by rewrite (makes_not_found _ _ _ Hm) in Hl.
Qed.

(** No path is left unrecorded, unless applying its mode failed. *)
Definition unrecorded (e : ExtractError) (p : list (list Z)) : Prop :=
  match e with ModeFailed q _ => p = q | _ => False end.

Definition tracked_error (e : ExtractError) : Prop := forall p, ~ unrecorded e p.

Lemma ancestors_snoc d name : ancestors (rev (d ++ [name])) = (d ++ [name]) :: ancestors (rev d).
Proof. rewrite rev_app_distr. simpl. by rewrite rev_involutive. Qed.

Lemma parents_snoc d name : parents (d ++ [name]) = ancestors (rev d).
Proof. unfold parents. by rewrite rev_app_distr. Qed.

Lemma missing_parents_spec s d :
  root `prefix_of` d -> real (tree s) root -> (forall a, a ∈ seen_dirs s -> a `prefix_of` d -> real (tree s) a) ->
  spec s (missing_parents oracle root (ancestors (rev d))) (fun r s' =>
    tree s' = tree s /\ installed_files s' = installed_files s /\ pending_links s' = pending_links s
    /\ (forall a, a ∈ seen_dirs s' -> a ∈ seen_dirs s \/ a `prefix_of` d)
    /\ match r with Ok missing => makes (tree s) d missing | Err e => tracked_error e end).
Proof.
  revert s. induction d as [|name d IH] using rev_ind; intros s Hd Hr Hs.
  - apply prefix_nil_inv in Hd. cbn [rev ancestors missing_parents].
    apply spec_bind, spec_get. rewrite (bool_decide_eq_true_2 ([] = root)) by done. apply spec_ret. split_and!; auto.
    constructor; [by rewrite Hd|]. by rewrite <- Hd.
  - rewrite ancestors_snoc. cbn [missing_parents].
    apply spec_bind, spec_get. destruct (bool_decide (d ++ [name] = root) || _) eqn:Estop.
    { apply spec_ret. split_and!; auto. constructor; [done|].
      apply orb_true_iff in Estop as [H|H]; apply bool_decide_eq_true in H; [by rewrite H|by apply Hs]. }
    apply orb_false_iff in Estop as [Hne%bool_decide_eq_false Hin%bool_decide_eq_false]. apply spec_bind, spec_update, spec_bind.
    assert (Hd' : root `prefix_of` d) by (apply prefix_snoc in Hd as [?| ->]; done).
    assert (Hrec : spec (mark_seen (d ++ [name]) s) (missing_parents oracle root (ancestors (rev d))) (fun r s' =>
        tree s' = tree s /\ installed_files s' = installed_files s /\ pending_links s' = pending_links s
        /\ (forall a, a ∈ seen_dirs s' -> a ∈ seen_dirs s \/ a `prefix_of` d ++ [name])
        /\ match r with Ok missing => makes (tree s) d missing | Err e => tracked_error e end)).
    { eapply spec_mono; [apply IH; [done..|]|].
      - simpl. intros a [->%elem_of_singleton|Ha]%elem_of_union Hp.
        + exfalso. apply prefix_length in Hp. rewrite length_app in Hp. simpl in Hp. lia.
        + apply Hs; [done|]. apply prefix_snoc. by left.
      - intros r s' (H1 & H2 & H3 & H4 & H5). split_and!; auto. intros a [Ha|Ha]%H4.
        + simpl in Ha. apply elem_of_union in Ha as [->%elem_of_singleton|?]; auto.
        + right. apply prefix_snoc. by left. }
    assert (Hkeep : forall a, a ∈ seen_dirs (mark_seen (d ++ [name]) s) -> a ∈ seen_dirs s \/ a `prefix_of` d ++ [name]).
    { intros a [->%elem_of_singleton|?]%elem_of_union; auto. }
    apply spec_sys; [intros e He|intros n t Hn]; rewrite symlink_metadata_lstat in *; cbn [tree mark_seen] in *.
    + destruct e; try (apply spec_ret; split_and!; auto; intros ? []).
      apply spec_try. eapply spec_mono; [exact Hrec|]. intros [missing|e] s' (H1 & H2 & H3 & H4 & H5).
      * apply spec_ret. split_and!; auto. constructor; [done|]. destruct He as [?|He]; [done|]. by destruct (lstat (tree s) _) eqn:El; simplify_eq/=.
      * split_and!; auto.
    + destruct (lstat (tree s) (d ++ [name])) as [n'|] eqn:El; [|done]. injection Hn as -> <-.
      destruct n; try (apply spec_ret; split_and!; auto; intros ? []).
      eapply spec_mono; [exact Hrec|]. intros [missing|e] s' (H1 & H2 & H3 & H4 & H5); split_and!; auto.
      by eapply makes_found.
Qed.

Lemma create_at_Ok p n t t' u : create_at p n t = Ok (u, t') -> exists q, place t p = Ok q /\ t !! q = None /\ t' = <[q := n]> t.
Proof. unfold create_at. intros H. res_inv. exists a. destruct (t !! a) eqn:Hn; [done|]. by simplify_eq. Qed.

(** The directories on the way from [base] along [names]. *)
Fixpoint chain (base names : list (list Z)) : list (list (list Z)) :=
  match names with
  | [] => []
  | n :: names => (base ++ [n]) :: chain (base ++ [n]) names
  end.

Lemma chain_snoc base names n : chain base (names ++ [n]) = chain base names ++ [base ++ names ++ [n]].
Proof. revert base; induction names as [|x names IH]; intros base; [done|]. simpl. by rewrite IH, <- app_assoc. Qed.

Lemma makes_chain t d missing :
  makes t d missing -> exists base names, root `prefix_of` base /\ real t base /\ d = base ++ names /\ rev missing = chain base names.
Proof.
  induction 1 as [d Hb Hr|d name missing _ (base & names & Hb & Hr & -> & Hm) _].
  - exists d, []. by rewrite app_nil_r.
  - exists base, (names ++ [name]). split_and!; [done..|by rewrite app_assoc|]. simpl. by rewrite Hm, chain_snoc, <- app_assoc.
Qed.

Lemma create_parents_spec s base names :
  core (fun _ => False) s -> root `prefix_of` base -> real (tree s) base ->
  spec s (create_parents oracle (chain base names)) (fun r s' =>
    core (fun _ => False) s' /\ seen_dirs s' = seen_dirs s /\ pending_links s' = pending_links s
    /\ (forall p, p ∈ installed_files s -> p ∈ installed_files s') /\ (forall a, real (tree s) a -> real (tree s') a)
    /\ match r with Ok _ => real (tree s') (base ++ names) | Err e => tracked_error e end).
Proof.
  revert s base. induction names as [|n names IH]; intros s base Hc Hb Hr; cbn [chain create_parents].
  - apply spec_ret. rewrite app_nil_r. by split_and!.
  - apply spec_try, spec_try_io; [intros e; split_and!; auto; intros ? []|].
    intros u t (q & Hq & Hn & ->)%create_at_Ok. rewrite place_real in Hq by done. injection Hq as <-.
    apply spec_bind, spec_update.
    set (s1 := record_file (base ++ [n]) (with_tree s (<[base ++ [n] := NDir DEFAULT_DIR_MODE]> (tree s)))).
    assert (Hnd : forall mode, tree s !! (base ++ [n]) ≠ Some (NDir mode)) by (by rewrite Hn).
    assert (Hk : forall a, real (tree s) a -> real (tree s1) a) by (intros a; by apply real_insert).
    eapply spec_mono; [apply (IH s1 (base ++ [n]))|].
    + eapply core_record; [apply (core_write (fun _ => False) s); [done| |by rewrite parent_snoc|done]|simpl; tauto].
      split; [by apply prefix_app_r|]. intros E. apply prefix_length in Hb. rewrite <- E, length_app in Hb. simpl in Hb. lia.
    + by apply prefix_app_r.
    + eapply real_snoc; [by apply Hk|]. simpl. by rewrite lookup_insert_eq.
    + intros r s' (H1 & H2 & H3 & H4 & H5 & H6). rewrite <- app_assoc in H6. split_and!; auto.
      intros p Hp. apply H4. simpl. apply elem_of_app. by left.
Qed.

(** After its parents are there, a path is reached without links. *)
Lemma ensure_parents_spec s p :
  full s -> below root p ->
  spec s (ensure_parent_dirs_recorded oracle root p) (fun r s' =>
    (forall q, q ∈ installed_files s -> q ∈ installed_files s') /\
    match r with Ok _ => full s' /\ real (tree s') (parent p) | Err e => core (fun _ => False) s' /\ tracked_error e end).
Proof.
  intros [Hc Hs Hl] [Hb Hne]. unfold ensure_parent_dirs_recorded.
  assert (exists d n, p = d ++ [n]) as (d & n & ->).
  { assert (p ≠ []) as Hp by (intros ->; by apply prefix_nil_inv in Hb). destruct (snoc_parent p Hp) as [n Hn]. by exists (parent p), n. }
  rewrite parent_snoc, parents_snoc. apply prefix_snoc in Hb as [Hb|Hb]; [|done].
  apply spec_try. eapply spec_mono; [apply missing_parents_spec; [done|by eapply core_root|by auto]|].
  intros [missing|e] s1 (Ht & Hi & Hp & Hs1 & Hr); [|split; [by rewrite Hi|split; [by eapply core_ext|done]]].
  destruct (makes_chain _ _ _ Hr) as (base & names & Hb1 & Hbase & -> & Hrev). rewrite Hrev.
  eapply spec_mono; [apply create_parents_spec; [by eapply core_ext|done|by rewrite Ht]|].
  intros r s2 (H1 & H2 & H3 & H4 & H5 & H6). split; [intros q Hq; apply H4; by rewrite Hi|].
  destruct r as [u|e]; [|done]. split; [|done]. split; [done|..].
  - intros a. rewrite H2. intros [Ha|Ha]%Hs1; [apply H5; rewrite Ht; by apply Hs|by eapply real_prefix].
  - intros l. rewrite H3, Hp. intros Hin. apply H4. rewrite Hi. by apply Hl.
Qed.

(** ** Entries *)

Lemma data_tar_entry_path_below text p : data_tar_entry_path root text = Ok p -> below root p.
Proof.
  unfold data_tar_entry_path. intros H. res_inv. to_prop. split; [|done].
  revert Hr. apply (for_each_inv _ (fun _ resolved => root `prefix_of` resolved)); [done|].
  intros pre [| | |part] s1 s2 Hs1 _; simpl; try done; [by intros [= <-]|]. intros [= <-]. by apply prefix_app_r.
Qed.

Lemma full_write ex s p n :
  full_ex ex s -> below root p -> real (tree s) (parent p) -> (forall mode, tree s !! p ≠ Some (NDir mode)) ->
  full_ex (fun q => ex q \/ q = p) (with_tree s (<[p := n]> (tree s))).
Proof. intros [Hc Hs Hl] Hb Hr Hn. split; [by apply core_write| |done]. intros d Hd. apply real_insert; auto. Qed.

Lemma full_chmod ex s q n mode :
  full_ex ex s -> tree s !! q = Some n -> full_ex ex (with_tree s (<[q := set_mode mode n]> (tree s))).
Proof. intros [Hc Hs Hl] Hn. split; [by apply core_chmod| |done]. intros d Hd. apply real_chmod; auto. Qed.

Lemma full_record ex s p : full_ex ex s -> (forall q, ex q -> q = p) -> full (record_file p s).
Proof.
  intros [Hc Hs Hl] Hex. split; [|done|]; [eapply core_record; [exact Hc|auto]|].
  intros l Hin. simpl. apply elem_of_app. left. by apply Hl.
Qed.

Lemma full_link s l : full s -> link_path l ∈ installed_files s -> full (add_link l s).
Proof.
  intros [Hc Hs Hl] Hp. split; [by apply (core_ext _ s)|done|]. intros l'. simpl.
  rewrite elem_of_app, list_elem_of_singleton. intros [H| ->]; [by apply Hl|done].
Qed.

Definition entry_post (r : result unit ExtractError) (s : Extraction) : Prop :=
  match r with Ok _ => full s | Err e => core (unrecorded e) s end.

Lemma core_tracked e s : core (fun _ => False) s -> core (unrecorded e) s.
Proof. intros H. by eapply core_weaken. Qed.

(** Applying the mode of a directory and recording it. *)
Lemma apply_mode_spec (ex : list (list Z) -> Prop) s p mode :
  full_ex ex s -> (forall q, ex q -> q = p) ->
  spec s (match mode with
          | None => mret (Err (ModeFailed p None))
          | Some mode => r ← sys oracle (set_permissions p mode);
              match r with Ok _ => _ ← update (record_file p); mret (Ok tt) | Err e => mret (Err (ModeFailed p (Some e))) end
          end) entry_post.
Proof.
  intros Hf Hex. assert (He : forall e, core (unrecorded (ModeFailed p e)) s) by (intros e; by eapply core_weaken; [apply Hf|]).
  destruct mode as [mode|]; [|apply spec_ret, He].
  apply spec_bind, spec_sys; [intros e _; apply spec_ret, He|]. intros a t Ha. apply spec_bind, spec_update, spec_ret.
  unfold set_permissions in Ha. res_inv. destruct (tree s !! a0) eqn:Hn; simplify_eq.
  eapply full_record; [by apply full_chmod|done].
Qed.

Lemma extract_directory_spec s p mode :
  full s -> below root p -> spec s (extract_directory oracle root p mode) entry_post.
Proof.
  intros Hf Hb. apply spec_try. eapply spec_mono; [by apply ensure_parents_spec|].
  intros [u|e] s1 [_ Hr]; [|destruct Hr; by apply core_tracked]. destruct Hr as [Hf1 Hr].
  assert (Hp : p ≠ []) by (intros ->; destruct Hb as [H%prefix_nil_inv Hne]; by rewrite H in Hne).
  apply spec_bind, spec_sys.
  - intros e _. destruct e; try apply spec_ret, core_tracked, Hf1. by eapply apply_mode_spec.
  - intros u' t (q & Hq & Hn & ->)%create_at_Ok. rewrite place_self in Hq by done. injection Hq as <-.
    eapply apply_mode_spec; [apply full_write; [exact Hf1|done|done|by rewrite Hn]|simpl; tauto].
Qed.

Lemma persist_Ok p content mode t t' u :
  persist p content mode t = Ok (u, t') ->
  exists q, place t p = Ok q /\ (forall m, t !! q ≠ Some (NDir m)) /\ t' = <[q := NFile content mode]> t.
Proof. unfold persist. intros H. res_inv. exists a. destruct (t !! a) as [[]|] eqn:Hn; simplify_eq; by split_and!. Qed.

Lemma extract_entry_spec s entry : full s -> spec s (extract_entry oracle root entry) entry_post.
Proof.
  intros Hf. destruct entry as [e|]; [|by apply spec_ret, core_tracked, Hf].
  apply spec_try, spec_ret. destruct (res_bind _ _) as [p|err] eqn:Hp; [|apply core_tracked, Hf].
  assert (Hb : below root p) by (clear -Hp; res_inv; by eapply data_tar_entry_path_below). clear Hp.
  assert (Hlink : forall l, link_path l = p ->
    spec s (_ ← update (fun s => add_link l (record_file p s)); mret (Ok tt)) entry_post).
  { intros l Hl. apply spec_bind, spec_update, spec_ret. apply full_link; [by eapply full_record|].
    rewrite Hl. simpl. apply elem_of_app. right. by apply list_elem_of_singleton. }
  destruct (entry_type e).
  - by apply extract_directory_spec.
  - apply spec_try, spec_ret. destruct (res_bind _ _); [by apply Hlink|apply core_tracked, Hf].
  - apply spec_try, spec_ret. destruct (res_bind _ _); [by apply Hlink|apply core_tracked, Hf].
  - apply spec_try. eapply spec_mono; [by apply ensure_parents_spec|].
    intros [u|err] s1 [_ Hr]; [|destruct Hr; by apply core_tracked]. destruct Hr as [Hf1 Hr].
    apply spec_try, spec_ret. destruct (ok_or _ _) as [mode|err]; [|apply core_tracked, Hf1].
    apply spec_try. unfold write_archive_regular_file. destruct (entry_content e) as [content|]; [|apply spec_ret, core_tracked, Hf1].
    apply spec_try_io; [intros; apply core_tracked, Hf1|]. intros u' t (q & Hq & Hn & ->)%persist_Ok.
    rewrite place_self in Hq; [|intros ->; destruct Hb as [H%prefix_nil_inv Hne]; by rewrite H in Hne|done]. injection Hq as <-.
    apply spec_bind, spec_update, spec_ret. eapply (full_record (fun q => False \/ q = p)); [|simpl; tauto].
    destruct (full_write (fun _ => False) s1 p (NFile content mode) Hf1 Hb Hr Hn) as [Hc Hs Hl].
    split; [by eapply core_ext; [..|exact Hc]|done..].
  - apply spec_ret, core_tracked, Hf.
Qed.

Lemma extract_entries_spec s entries : full s -> spec s (extract_entries oracle root entries) entry_post.
Proof.
  revert s; induction entries as [|e entries IH]; intros s Hf; [by apply spec_ret|]. cbn [extract_entries].
  apply spec_try. eapply spec_mono; [by apply extract_entry_spec|]. intros [u|err] s'; [apply IH|done].
Qed.

(** ** Links *)

(** Every change is where some recorded path leads to, or among [ex]. *)
Record tracked (ex : list (list Z) -> Prop) (s : Extraction) : Prop := {
  tracked_dirs q mode : t0 !! q = Some (NDir mode) -> exists mode', tree s !! q = Some (NDir mode');
  tracked_changed p : same t0 (tree s) p \/ (exists r, r ∈ installed_files s /\ place (tree s) r = Ok p) \/ ex p
}.

Lemma core_is_tracked ex s : core ex s -> tracked ex s.
Proof.
  intros [Hd Hc]. split; [done|]. intros p. destruct (Hc p) as [?|([Hb Hne] & [Hi|?] & Hr)]; [by left| |by auto].
  right; left. exists p. split; [done|]. apply place_self; [|done]. intros ->. by apply prefix_nil_inv in Hb.
Qed.

Lemma tracked_create s p n u t :
  tracked (fun _ => False) s -> p ∈ installed_files s -> create_at p n (tree s) = Ok (u, t) -> tracked (fun _ => False) (with_tree s t).
Proof.
  intros [Hd Hc] Hp (q & Hq & Hn & ->)%create_at_Ok. assert (Hsub : tree s ⊆ <[q := n]> (tree s)) by (by apply insert_subseteq).
  split; simpl.
  - intros r mode Hr. destruct (Hd r mode Hr) as [mode' Hm]. exists mode'. by eapply lookup_weaken.
  - intros r. destruct (decide (r = q)) as [->|Hne].
    { right; left. exists p. split; [done|]. by eapply place_mono. }
    destruct (Hc r) as [Hs|[(x & Hx & Hpx)|[]]].
    + left. unfold same in *. by rewrite lookup_insert_ne.
    + right; left. exists x. split; [done|]. by eapply place_mono.
Qed.

Lemma create_root_links_spec s links :
  tracked (fun _ => False) s -> (forall l, l ∈ links -> link_path l ∈ installed_files s) ->
  spec s (create_root_links oracle links) (fun r s' =>
    tracked (fun _ => False) s' /\ installed_files s' = installed_files s).
Proof.
  revert s; induction links as [|l links IH]; intros s Ht Hl; cbn [create_root_links]; [by apply spec_ret|].
  assert (Hgo : forall t n u, create_at (link_path l) n (tree s) = Ok (u, t) ->
    spec (with_tree s t) (create_root_links oracle links) (fun r s' =>
      tracked (fun _ => False) s' /\ installed_files s' = installed_files s)).
  { intros t n u Hc. eapply spec_mono; [apply IH|]; [|intros; apply Hl; by right|done].
    eapply tracked_create; [done| |exact Hc]. apply Hl. by left. }
  destruct l as [p target|p target].
  - apply spec_try, spec_try_io; [done|]. unfold symlink. intros u t Hc. case_bool_decide; [done|]. by eapply Hgo.
  - apply spec_bind, spec_get. case_bool_decide; [|by apply spec_ret].
    apply spec_try, spec_try_io; [done|]. unfold hard_link. intros u t Hc. res_inv.
    destruct (tree s !! a) as [[]|]; try done; by eapply Hgo.
Qed.

Definition left_over (r : result unit ExtractError) (p : list (list Z)) : Prop :=
  match r with Ok _ => False | Err e => unrecorded e p end.

Lemma extract_spec s archive :
  tree s = t0 ->
  spec s (extract_tar_stream_to_root_at oracle root archive) (fun v s' => installed_files s' = v.1 /\ tracked (left_over v.2) s').
Proof.
  intros Ht. apply spec_bind, spec_update.
  set (s0 := {| tree := tree s; installed_files := []; seen_dirs := ∅; pending_links := []; extracted_regular_files := ∅ |}).
  assert (Hf : full s0).
  { split; simpl; [|by intros d Hd%elem_of_empty|by intros l Hl%elem_of_nil].
    split; simpl; rewrite Ht; [by eauto|]. by left. }
  apply spec_bind. eapply (spec_mono _ _ (fun r s' => tracked (left_over r) s')).
  - destruct archive as [entries|]; [|apply spec_ret, core_is_tracked, core_tracked, Hf].
    apply spec_try. eapply spec_mono; [by apply extract_entries_spec|].
    intros [u|e] s1 H; [|by apply core_is_tracked]. apply spec_bind, spec_get.
    eapply spec_mono; [apply create_root_links_spec; [apply core_is_tracked, H|apply H]|].
    intros r s2 [[Hd Hc] _]. split; [done|]. intros p. destruct (Hc p) as [?|[?|[]]]; auto.
  - intros r s' H. apply spec_bind, spec_get, spec_ret. done.
Qed.
End files.

(** * Rollback *)

Lemma place_inv t p q :
  place t p = Ok q ->
  (p = [] /\ q = []) \/ exists d name mode, last p = Some name /\ follow_path t (removelast p) = Ok d /\ t !! d = Some (NDir mode) /\ q = d ++ [name].
Proof.
  unfold place. destruct (last p) as [name|] eqn:Hl; [|intros [= <-]; left; by apply last_None in Hl].
  intros H. res_inv. right. destruct (t !! a) as [[|mode|]|] eqn:Ha; simplify_eq. by exists a, name, mode.
Qed.

Lemma lstat_anti t t' p : t' ⊆ t -> real t' [] -> lstat t p = Err NotFound -> lstat t' p = Err NotFound.
Proof.
  intros Hsub Hr. unfold lstat, place. destruct (last p) as [name|].
  - unfold follow_path. destruct (walk_anti MAXSYMLINKS t t' [] (map Normal (removelast p)) Hsub) as [He|He]; rewrite He; [|done].
    destruct (walk MAXSYMLINKS t [] (map Normal (removelast p))) as [d|] eqn:Hw; [|done]. simpl.
    destruct (walk_result _ _ _ _ _ Hr He) as [Hd|(c & mode & Hd)]; [apply real_self in Hd as [mode Hd]|];
      rewrite Hd, (lookup_weaken _ _ _ _ Hd Hsub); simpl; [|done].
    destruct (t !! (d ++ [name])) eqn:Hn; [done|]. by rewrite (lookup_weaken_None _ _ _ Hn Hsub).
  - simpl. destruct (real_self _ _ Hr) as [mode Hm]. by rewrite (lookup_weaken _ _ _ _ Hm Hsub).
Qed.

(** After an entry is deleted its path finds nothing. *)
Lemma lstat_deleted t p q : place t p = Ok q -> q ≠ [] -> lstat (delete q t) p = Err NotFound.
Proof.
  intros Hp Hq. destruct (place_inv _ _ _ Hp) as [[-> ->]|(d & name & mode & Hl & Hf & Hd & ->)]; [done|].
  unfold lstat, place. rewrite Hl. unfold follow_path in *.
  destruct (walk_anti MAXSYMLINKS t (delete (d ++ [name]) t) [] (map Normal (removelast p)) (delete_subseteq _ _)) as [He|He];
    rewrite He; [|done]. rewrite Hf. simpl.
  rewrite lookup_delete_ne, Hd; [|intros E; apply (f_equal length) in E; rewrite length_app in E; simpl in E; lia].
  simpl. by rewrite lookup_delete_eq.
Qed.

Lemma is_empty_dir_true t q r : is_empty_dir t q = true -> is_Some (t !! r) -> q `prefix_of` r -> r = q.
Proof.
  unfold is_empty_dir. rewrite forallb_forall. intros H Hr Hq. specialize (H r).
  rewrite <- list_elem_of_In, elem_of_elements, elem_of_dom in H. specialize (H Hr).
  rewrite (bool_decide_eq_true_2 (q `prefix_of` r)) in H by done. simpl in H. rewrite negb_involutive in H. by apply bool_decide_eq_true in H.
Qed.

Section rollback.
Context (oracle : nat -> Fault) (t1 : gmap (list (list Z)) Node) (files : list (list (list Z))).

(** What the rollback may do to the table it started from. *)
Record removed (t : gmap (list (list Z)) Node) : Prop := {
  rm_sub : t ⊆ t1;
  rm_top : real t [];
  rm_only p : t !! p = t1 !! p \/ exists r, r ∈ files /\ place t1 r = Ok p;
  rm_closed p : is_Some (t !! p) -> real t1 (parent p) -> real t (parent p)
}.

Lemma removed_delete t p q :
  removed t -> p ∈ files -> place t p = Ok q -> q ≠ [] ->
  (forall r, is_Some (t !! r) -> q `prefix_of` r -> r = q) \/ (forall mode, t !! q ≠ Some (NDir mode)) ->
  removed (delete q t).
Proof.
  intros [Hsub Htop Hon Hcl] Hp Hq Hne Hleaf. split.
  - etrans; [apply delete_subseteq|done].
  - intros r Hr. apply prefix_nil_inv in Hr as ->. rewrite lookup_delete_ne by done. by apply Htop.
  - intros r. destruct (decide (r = q)) as [->|Hr]; [right; exists p; split; [done|by eapply place_mono]|].
    rewrite lookup_delete_ne by done. apply Hon.
  - intros r Hr Hreal. destruct (decide (r = q)) as [->|Hrq]; [rewrite lookup_delete_eq in Hr; by destruct Hr|].
    rewrite lookup_delete_ne in Hr by done. specialize (Hcl r Hr Hreal).
    assert (Hnp : ~ q `prefix_of` parent r \/ (forall mode, t !! q ≠ Some (NDir mode))).
    { destruct Hleaf as [Hleaf|?]; [left|by right]. intros Hpre. apply Hrq, Hleaf; [done|]. etrans; [done|apply parent_prefix]. }
    intros a Ha. destruct (Hcl a Ha) as [mode Hm]. exists mode. rewrite lookup_delete_ne; [done|].
    intros ->. destruct Hnp as [Hnp|Hnp]; [done|by apply (Hnp mode)].
Qed.

Lemma remove_if_present_spec s p :
  removed (tree s) -> p ∈ files ->
  spec s (remove_file_if_present oracle p) (fun r s' =>
    removed (tree s') /\ tree s' ⊆ tree s /\ match r with Ok _ => lstat (tree s') p = Err NotFound | Err _ => True end).
Proof.
  intros Hrm Hp. apply spec_bind, spec_sys; rewrite symlink_metadata_lstat.
  - intros e He. destruct e; apply spec_ret; (split_and!; [done..|]); [|done..].
    destruct He as [He|He]; [done|]. by destruct (lstat (tree s) p); simplify_eq/=.
  - intros n t Hn. destruct (lstat (tree s) p) as [n'|] eqn:El; [|done]. injection Hn as -> <-. unfold lstat in El. res_inv.
    destruct (tree s !! a) as [n'|] eqn:Ha; [|done]. injection El as ->.
    assert (Hne : a ≠ [] -> (forall r, is_Some (tree s !! r) -> a `prefix_of` r -> r = a) \/ (forall mode, tree s !! a ≠ Some (NDir mode)) ->
      removed (delete a (tree s)) /\ delete a (tree s) ⊆ tree s /\ lstat (delete a (tree s)) p = Err NotFound).
    { intros Hne Hleaf. split_and!; [by eapply removed_delete|apply delete_subseteq|by apply lstat_deleted]. }
    destruct (real_self _ _ (rm_top _ Hrm)) as [top Htop].
    assert (Hother : (forall mode, n ≠ NDir mode) ->
      spec (with_tree s (tree s)) (r ← sys oracle (remove_file p); match r with Err NotFound => mret (Ok tt) | _ => mret r end)
        (fun r s' => removed (tree s') /\ tree s' ⊆ tree s /\ match r with Ok _ => lstat (tree s') p = Err NotFound | Err _ => True end)).
    { intros Hn. apply spec_bind, spec_sys; cbn [tree with_tree]; unfold remove_file; rewrite Hr; simpl; rewrite Ha.
      - intros e He. destruct e; apply spec_ret; try done. destruct He as [?|He]; [done|]. by destruct n.
      - intros u t Ht. apply spec_ret. assert (t = delete a (tree s)) as -> by (destruct n as [|mode|]; [|by destruct (Hn mode)|]; congruence).
        apply Hne; [intros ->|right; intros mode]; congruence. }
    destruct n as [| mode|]; [by apply Hother| |by apply Hother].
    apply spec_sys; [done|]. cbn [tree with_tree]. unfold remove_dir. rewrite Hr. simpl. intros u t Ht.
    case_bool_decide as Hnil; [done|]. rewrite Ha in Ht. destruct (is_empty_dir (tree s) a) eqn:Hemp; [|done]. simplify_eq.
    apply Hne; [done|]. left. intros r. by apply is_empty_dir_true.
Qed.

Lemma remove_installed_spec s todo failures done_files :
  removed (tree s) -> (forall p, p ∈ todo -> p ∈ files) -> (failures = [] -> forall p, p ∈ done_files -> lstat (tree s) p = Err NotFound) ->
  spec s (remove_installed oracle todo failures) (fun fails s' =>
    removed (tree s') /\ (fails = [] -> forall p, p ∈ done_files ++ todo -> lstat (tree s') p = Err NotFound)).
Proof.
  revert s failures done_files. induction todo as [|p todo IH]; intros s failures done_files Hrm Hin Hd; cbn [remove_installed].
  - apply spec_ret. by rewrite app_nil_r.
  - apply spec_bind. eapply spec_mono; [apply remove_if_present_spec; [done|apply Hin; by left]|].
    intros r s1 (Hrm1 & Hsub & Hr). rewrite (cons_middle p), app_assoc.
    apply IH; [done|intros q Hq; apply Hin; by right|]. destruct r as [u|e]; [|by intros []%app_eq_nil].
    intros Hf q. rewrite elem_of_app, list_elem_of_singleton. intros [Hq| ->]; [|done].
    eapply lstat_anti; [done|apply Hrm1|by apply Hd].
Qed.
End rollback.

Lemma spec_run {A} s (p : FProg Extraction A) (Q : A -> Extraction -> Prop) m m' a :
  spec s p Q -> fs m = s -> p m = (m', Some a) -> Q a (fs m').
Proof. intros H Hm Hp. specialize (H m Hm). unfold wp in H. by rewrite Hp in H. Qed.

Lemma rollback_files_removed oracle files m m' :
  real (tree (fs m)) [] -> rollback_files oracle files m = (m', Some []) ->
  removed (tree (fs m)) files (tree (fs m')) /\ forall p, p ∈ files -> lstat (tree (fs m')) p = Err NotFound.
Proof.
  intros Htop Hrun. assert (H0 : removed (tree (fs m)) files (tree (fs m))) by (split; auto).
  assert (Hrev : forall p, p ∈ rev files <-> p ∈ files) by (intros p; rewrite !list_elem_of_In; symmetry; apply in_rev).
  pose proof (remove_installed_spec oracle (tree (fs m)) files (fs m) (rev files) [] [] H0) as H.
  eapply spec_run in H; [|by intros p Hp%Hrev|by intros _ p Hp%elem_of_nil|done|exact Hrun].
  destruct H as [Hrm H]. split; [done|]. intros p Hp%Hrev. by apply H.
Qed.

(** * The properties *)

(** C13: extracting a package and rolling it back, whatever system calls fail.
    When the rollback reports no failure, every path on the list of installed
    files is gone, and everything no listed path leads to is what it was
    before the extraction, up to permission bits. The one exception is the
    directory whose mode could not be applied, which stays behind. *)
Theorem rollback_undoes_extraction oracle root archive (m m1 m2 : FMachine Extraction) files r :
  real (tree (fs m)) root ->
  extract_tar_stream_to_root_at oracle root archive m = (m1, Some (files, r)) ->
  rollback_files oracle files m1 = (m2, Some []) ->
  (forall p, p ∈ files -> lstat (tree (fs m2)) p = Err NotFound) /\
  (forall p, p ∈ files -> real (tree (fs m1)) (parent p) -> tree (fs m2) !! p = None) /\
  (forall p, (forall x, x ∈ files -> place (tree (fs m1)) x ≠ Ok p) ->
     (forall e, r ≠ Err (ModeFailed p e)) -> same (tree (fs m)) (tree (fs m2)) p).
Proof.
  intros Hroot Hrun Hroll.
  destruct (spec_run _ _ _ _ _ _ (extract_spec oracle root _ Hroot (fs m) archive eq_refl) eq_refl Hrun) as [Hi [Hd Hc]].
  simpl in *. assert (Htop : real (tree (fs m1)) []).
  { intros q ->%prefix_nil_inv. destruct (Hroot []) as [mode Hm]; [apply prefix_nil|]. by eapply Hd. }
  destruct (rollback_files_removed _ _ _ _ Htop Hroll) as [[Hsub Htop2 Hon Hcl] Hgone]. split_and!; [done|..].
  - intros p Hp Hr. destruct (tree (fs m2) !! p) as [n|] eqn:Hn; [|done].
    specialize (Hgone p Hp). unfold lstat in Hgone. destruct (decide (p = [])) as [->|Hne].
    { simpl in Hgone. by rewrite Hn in Hgone. }
    rewrite place_self in Hgone by (by try apply Hcl). simpl in Hgone. by rewrite Hn in Hgone.
  - intros p Hno Hex. destruct (Hon p) as [Heq|(x & Hx & Hpx)]; [|by destruct (Hno x Hx)].
    unfold same in *. rewrite Heq. destruct (Hc p) as [?|[(x & Hx & Hpx)|Hl]]; [done|by rewrite Hi in Hx; destruct (Hno x Hx)|].
    destruct r as [|[]]; try done. simpl in Hl. by subst; destruct (Hex e).
Qed.

(** C28: before the links of an archive are created, every path that an
    extraction creates or replaces lies strictly below the root, in a directory
    that is reached without following any link, old or new, and is on the list
    of installed files (or is the directory whose mode could not be applied);
    directories stay directories. *)
Theorem files_are_written_below_root oracle root entries (m m' : FMachine Extraction) r :
  real (tree (fs m)) root -> seen_dirs (fs m) = ∅ -> pending_links (fs m) = [] ->
  extract_entries oracle root entries m = (m', Some r) ->
  (forall q mode, tree (fs m) !! q = Some (NDir mode) -> exists mode', tree (fs m') !! q = Some (NDir mode')) /\
  (forall p, same (tree (fs m)) (tree (fs m')) p \/
     (root `prefix_of` p /\ p ≠ root /\ real (tree (fs m')) (parent p)
      /\ (p ∈ installed_files (fs m') \/ exists e, r = Err (ModeFailed p e)))).
Proof.
  intros Hroot Hs Hl Hrun. assert (Hf : full root (tree (fs m)) (fs m)).
  { split; [|by rewrite Hs; intros d Hd%elem_of_empty|by rewrite Hl; intros l Hin%elem_of_nil]. split; [by eauto|by left]. }
  assert (Hc : core root (tree (fs m)) (left_over r) (fs m')).
  { pose proof (spec_run _ _ _ _ _ _ (extract_entries_spec oracle root _ Hroot _ entries Hf) eq_refl Hrun) as H.
    destruct r; [apply H|done]. }
  destruct Hc as [Hd Hc]. split; [done|]. intros p. destruct (Hc p) as [?|([? ?] & Hi & ?)]; [by left|right]. split_and!; [done..|].
  destruct Hi as [?|Hi]; [by left|right]. destruct r as [|[]]; try done. simpl in Hi. subst. by eauto.
Qed.

(** * Concrete extractions *)

Definition machine t : FMachine Extraction :=
  {| fs := {| tree := t; installed_files := []; seen_dirs := ∅; pending_links := []; extracted_regular_files := ∅ |};
     clock := 0; keep_staging := false |}.

Definition no_faults : nat -> Fault := fun _ => NoFault.

Definition tar_entry (name : string) (type : EntryType) (target : string) : option TarEntry :=
  Some {| entry_path := Some (str name); entry_type := type; link_name := Some (Some (str target));
          entry_mode := Some 0x1ED; entry_content := Some (str "data") |}.

(** A merged /usr: /lib is a link to usr/lib. *)
Definition merged_usr : gmap (list (list Z)) Node :=
  list_to_map [([], NDir 0x1ED); ([str "usr"], NDir 0x1ED); ([str "usr"; str "lib"], NDir 0x1ED); ([str "lib"], NLink (str "usr/lib"))].

Definition broken_package : list (option TarEntry) :=
  [tar_entry "./opt/tool/run" TRegular ""; tar_entry "./usr/bin" TSymlink "../opt/tool"; tar_entry "./dev/fd" TSpecial ""].

Definition after_broken : FMachine Extraction := (extract_tar_stream_to_root_at no_faults [] (Some broken_package) (machine merged_usr)).1.

Lemma merged_usr_real : real merged_usr [].
Proof. intros q ->%prefix_nil_inv. exists 0x1ED. vm_compute. reflexivity. Qed.

(** A package with a device entry fails half way and is rolled back. *)
Lemma rollback_undoes_extraction_witness :
  let files := [[str "opt"]; [str "opt"; str "tool"]; [str "opt"; str "tool"; str "run"]; [str "usr"; str "bin"]] in
  let m2 := (rollback_files no_faults files after_broken).1 in
  installed_files (fs after_broken) = files /\ tree (fs m2) !! [str "opt"] = None /\ same merged_usr (tree (fs m2)) [str "lib"].
Proof.
  intros files m2.
  destruct (rollback_undoes_extraction no_faults [] (Some broken_package) (machine merged_usr) after_broken m2 files
    (Err (SpecialEntry [str "dev"; str "fd"]))) as (_ & H2 & H3).
  - apply merged_usr_real.
  - vm_compute. reflexivity.
  - vm_compute. reflexivity.
  - split_and!; [vm_compute; reflexivity|apply H2|apply H3].
    + left.
    + intros q ->%prefix_nil_inv. exists 0x1ED. vm_compute. reflexivity.
    + intros x Hx. repeat (apply elem_of_cons in Hx as [->|Hx]; [vm_compute; discriminate|]). by apply elem_of_nil in Hx.
    + discriminate.
Defined.

Lemma files_are_written_below_root_witness :
  let m' := (extract_entries no_faults [str "usr"] [tar_entry "./share/doc" TRegular ""] (machine merged_usr)).1 in
  tree (fs m') !! [str "usr"; str "share"; str "doc"] = Some (NFile (str "data") 0x1ED) /\
  (same merged_usr (tree (fs m')) [str "usr"; str "share"; str "doc"] \/ real (tree (fs m')) [str "usr"; str "share"]).
Proof.
  intros m'. split; [vm_compute; reflexivity|].
  destruct (files_are_written_below_root no_faults [str "usr"] [tar_entry "./share/doc" TRegular ""] (machine merged_usr) m' (Ok tt))
    as [_ H].
  - intros q Hq. apply (prefix_snoc q [] (str "usr")) in Hq as [->%prefix_nil_inv| ->]; exists 0x1ED; vm_compute; reflexivity.
  - reflexivity.
  - reflexivity.
  - vm_compute. reflexivity.
  - destruct (H [str "usr"; str "share"; str "doc"]) as [?|(_ & _ & ? & _)]; [by left|by right].
Defined.

(** A directory entry for the link of a merged /usr is recorded although the
    link was there before, and the next entry below it is refused; the
    rollback, which reports no failure, then deletes the link. *)
Lemma rollback_deletes_old_link :
  let p := extract_tar_stream_to_root_at no_faults []
             (Some [tar_entry "./lib/" TDirectory ""; tar_entry "./lib/libfoo.so" TRegular ""]) (machine merged_usr) in
  p.2 = Some ([[str "lib"]], Err (ParentNotDirectory [str "lib"])) /\
  tree (fs p.1) !! [str "lib"] = Some (NLink (str "usr/lib")) /\
  let q := rollback_files no_faults [[str "lib"]] p.1 in
  q.2 = Some [] /\ tree (fs q.1) !! [str "lib"] = None.
Proof. vm_compute. by split_and!. Qed.

(** The depth of a link counts the link itself, so a link at the top of the
    root may point to the parent of the root, and a second link entry is
    created through it, outside. *)
Lemma link_entry_escapes_root :
  let outside := <[[str "srv"] := NDir 0x1ED]> merged_usr in
  let p := extract_tar_stream_to_root_at no_faults [str "srv"]
             (Some [tar_entry "./up" TSymlink ".."; tar_entry "./up/planted" TSymlink "x"]) (machine outside) in
  p.2 = Some ([[str "srv"; str "up"]; [str "srv"; str "up"; str "planted"]], Ok tt) /\
  outside !! [str "planted"] = None /\ tree (fs p.1) !! [str "planted"] = Some (NLink (str "x")).
Proof. vm_compute. by split_and!. Qed.

(** A directory entry with an unreadable mode leaves its directory behind,
    unrecorded. *)
Lemma unreadable_mode_leaves_directory :
  let e := {| entry_path := Some (str "./opt"); entry_type := TDirectory; link_name := None; entry_mode := None; entry_content := None |} in
  let p := extract_tar_stream_to_root_at no_faults [] (Some [Some e]) (machine merged_usr) in
  p.2 = Some ([], Err (ModeFailed [str "opt"] None)) /\ tree (fs p.1) !! [str "opt"] = Some (NDir DEFAULT_DIR_MODE).
Proof. vm_compute. by split_and!. Qed.
