(* ===== verification/DebDpkg.v ===== *)
(** Registering packages with dpkg: the status entry of an installed package,
    the change of its state when it is removed, its file list, and the marker
    of a running transaction, in
    src/src/package_managers/debian_db/transaction.rs.

    Files are their text, as [read_to_string] returns it; merging an entry
    into the status file is [DebRemoval.merge_status_entries]. *)

From S2P Require Import Prelude DebVersion DebResolver Deb822 Deb822Proofs DpkgStatus DpkgStatusProofs DebRemoval DebRemovalProofs.
Open Scope Z_scope.
Open Scope omg_scope.

(** * The status entry of an installed package *)

Definition installed_status : rstr := str "Status: install ok installed".

Definition status_entry_line (has_status : bool) (line : rstr) : list rstr :=
  if starts_with (str "Status:") line then [installed_status]
  else line :: (if negb has_status && starts_with (str "Package:") line then [installed_status] else []).

(** The control file of the package, with the status of an installed one. *)
Definition prepare_status_entry (control_content : rstr) : rstr :=
  let has_status := existsb (starts_with (str "Status:")) (lines control_content) in
  lines control_content ≫= fun line => status_entry_line has_status line ≫= fun l => l ++ [NL].

(** * Marking a package as removed *)

Inductive StatusError := StatusMissing | StatusUnreadable | PackageNotFound (name : rstr).

Record StatusRewrite := {
  updated_content : rstr;
  in_target_package : bool;
  found_package : bool
}.

Definition removed_status : rstr := str "Status: deinstall ok config-files".

Definition rewrite_status_line (package_name : rstr) (s : StatusRewrite) (line : rstr) : StatusRewrite :=
  if str_eqb line [] then
    {| updated_content := updated_content s ++ [NL]; in_target_package := false; found_package := found_package s |}
  else
    match strip_prefix (str "Package: ") line with
    | Some pkg =>
        let target := str_eqb (trim pkg) package_name in
        {| updated_content := updated_content s ++ line ++ [NL]; in_target_package := target;
           found_package := found_package s || target |}
    | None =>
        {| updated_content := updated_content s
             ++ (if in_target_package s && starts_with (str "Status: ") line then removed_status else line) ++ [NL];
           in_target_package := in_target_package s; found_package := found_package s |}
    end.

(** The text to be written: [None] is a status file that does not exist,
    [Some None] one that cannot be read. *)
Definition update_dpkg_status_for_removal (status : option (option rstr)) (package_name : rstr) : result rstr StatusError :=
  let? content := ok_or status StatusMissing in
  let? status_content := ok_or content StatusUnreadable in
  let s := foldl (rewrite_status_line package_name)
             {| updated_content := []; in_target_package := false; found_package := false |} (lines status_content) in
  if found_package s then Ok (updated_content s) else Err (PackageNotFound package_name).

(** * File lists *)

Inductive ListError := InvalidPath | LineBreak | PathMissing.

(** A path with its text, [None] when that is not UTF-8, and whether it is a
    directory, [None] when it cannot be inspected. *)
Record InstalledPath := {
  path_text : option rstr;
  is_directory : option bool
}.

Definition file_list_line (p : InstalledPath) : result rstr ListError :=
  let? line := ok_or (path_text p) InvalidPath in
  ensure (negb (contains_char NL line || contains_char CR line)) LineBreak ;?
  let? dir := ok_or (is_directory p) PathMissing in
  Ok (if dir && negb (ends_with (str "/") line) then line ++ str "/" else line).

(** The contents of the [.list] file of a package. *)
Definition dpkg_file_list (installed_files : list InstalledPath) : result rstr ListError :=
  let? ls := try_map file_list_line installed_files in
  let ls := dedup (sort_strs ls) in
  Ok (if bool_decide (ls = []) then [] else intercalate [NL] ls ++ [NL]).

(** How a removal reads it: files in the order they are removed, and
    directories. *)
Definition list_line (s : list rstr * list rstr) (line : rstr) : list rstr * list rstr :=
  let line := trim line in
  if str_eqb line [] then s
  else if ends_with (str "/") line then (s.1, s.2 ++ [line])
  else (s.1 ++ [line], s.2).

Definition read_file_list (list_content : rstr) : list rstr * list rstr :=
  let s := foldl list_line ([], []) (lines list_content) in
  (rev s.1, s.2).

(** * The marker of a running transaction *)

Record TransactionJournal := {
  started_at_unix : Z;
  pid : Z;
  action : rstr;
  journal_packages : list rstr
}.

(** [serde_json]: [None] is an error. *)
Class JournalCodec := {
  journal_to_vec : TransactionJournal -> option (list Z);
  journal_from_str : rstr -> option TransactionJournal
}.

(** JSON is UTF-8 text. *)
Class JournalLaws (C : JournalCodec) : Prop := {
  journal_text j bytes : journal_to_vec j = Some bytes -> exists text, decode_utf8 bytes = Some text
}.

(** The marker file: [Unreadable] stands for a failing read. *)
Inductive Marker := NoMarker | MarkerBytes (bytes : list Z) | Unreadable.

Inductive JournalError := Interrupted (found : option TransactionJournal) | JournalEncode | JournalWrite.

Inductive TransactionEvent :=
| Completes (j : TransactionJournal) (written removed : bool)
| Killed (j : TransactionJournal).

Section journal.
Context `{JournalCodec}.

Definition read_to_string (marker : Marker) : option rstr :=
  match marker with MarkerBytes bytes => decode_utf8 bytes | _ => None end.

(** The earlier transaction a new one has to wait for, with its journal when
    that can be parsed. *)
Definition stale_transaction_journal (marker : Marker) : option (option TransactionJournal) :=
  text ← read_to_string marker; Some (journal_from_str text).

(** [written]: whether the atomic write succeeds. *)
Definition write_transaction_journal_at (j : TransactionJournal) (written : bool) (marker : Marker) : result Marker JournalError :=
  let? bytes := ok_or (journal_to_vec j) JournalEncode in
  if written then Ok (MarkerBytes bytes) else Err JournalWrite.

Definition acquire_at (j : TransactionJournal) (written : bool) (marker : Marker) : result Marker JournalError :=
  match stale_transaction_journal marker with
  | Some found => Err (Interrupted found)
  | None => write_transaction_journal_at j written marker
  end.

(** Dropping the guard removes the file, if that succeeds. *)
Definition drop_journal (removed : bool) (marker : Marker) : Marker := if removed then NoMarker else marker.

(** One attempt at a transaction: whether it ran, and the marker it leaves. *)
Definition attempt (marker : Marker) (e : TransactionEvent) : bool * Marker :=
  match e with
  | Completes j written removed =>
      match acquire_at j written marker with
      | Ok marker' => (true, drop_journal removed marker')
      | Err _ => (false, marker)
      end
  | Killed j =>
      match acquire_at j true marker with
      | Ok marker' => (true, marker')
      | Err _ => (false, marker)
      end
  end.

Fixpoint attempts (marker : Marker) (es : list TransactionEvent) : list bool * Marker :=
  match es with
  | [] => ([], marker)
  | e :: es => let '(ran, marker) := attempt marker e in let '(rans, marker) := attempts marker es in (ran :: rans, marker)
  end.
End journal.
