(* ===== verification/DebDpkgProofs.v ===== *)
(** Proofs about [DebDpkg]: a package that is installed and then removed
    leaves the inventory as it was, file lists are read back as written, and a
    killed transaction blocks later ones. *)

From S2P Require Import Prelude DebVersion DebResolver DebResolverClosure Deb822 Deb822Proofs DpkgStatus DpkgStatusProofs DebRemoval DebRemovalProofs DebDpkg.
Open Scope Z_scope.
Open Scope omg_scope.

(** * Lines and paragraphs *)

Definition unlines (ls : list rstr) : rstr := ls ≫= fun l => l ++ [NL].

Lemma unlines_cons l ls : unlines (l :: ls) = l ++ NL :: unlines ls.
Proof. unfold unlines. rewrite bind_cons, <- app_assoc. done. Qed.

Lemma unlines_app a b : unlines (a ++ b) = unlines a ++ unlines b.
Proof. unfold unlines. by rewrite bind_app. Qed.

Lemma intercalate_unlines ls : ls ≠ [] -> intercalate [NL] ls ++ [NL] = unlines ls.
Proof.
  induction ls as [|l ls IH]; [done|]. intros _. destruct ls as [|l' ls]; [by rewrite unlines_cons|].
  rewrite intercalate_cons, unlines_cons, <- IH, <- !app_assoc by done. done.
Qed.

(** The lines of a file of paragraphs. *)
Definition file_lines (ps : list (list rstr)) : list rstr := ps ≫= fun ls => ls ++ [[]].

Lemma render_unlines ps : Forall good_paragraph ps -> render_file ps = unlines (file_lines ps).
Proof.
  induction 1 as [|ls ps [Hne _] _ IH]; [done|]. unfold render_file, file_lines in *.
  rewrite !bind_cons, unlines_app, unlines_app, <- intercalate_unlines, IH, <- !app_assoc by done. done.
Qed.

Lemma lines_unlines ls : Forall one_line ls -> lines (unlines ls) = ls.
Proof.
  intros H. apply byte_lines_unlines. eapply Forall_impl; [exact H|]. intros l [Hn Hc]. split; [done|by apply strip_cr_id].
Qed.

Lemma good_lines ps : Forall good_paragraph ps -> Forall one_line (file_lines ps).
Proof.
  induction 1 as [|ls ps [_ Hls] _ IH]; [constructor|]. unfold file_lines in *. rewrite bind_cons.
  apply Forall_app. split; [|done]. apply Forall_app. split.
  - eapply Forall_impl; [exact Hls|]. naive_solver.
  - repeat constructor; apply not_elem_of_nil.
Qed.

(** * Marking a package as removed *)

Section mark.
Context (name : rstr).

Definition is_target (line : rstr) : bool :=
  match strip_prefix (str "Package: ") line with Some pkg => str_eqb (trim pkg) name | None => false end.

(** A paragraph after the removal. *)
Fixpoint mark_lines (target : bool) (ls : list rstr) : list rstr :=
  match ls with
  | [] => []
  | line :: ls =>
      match strip_prefix (str "Package: ") line with
      | Some pkg => line :: mark_lines (str_eqb (trim pkg) name) ls
      | None => (if target && starts_with (str "Status: ") line then removed_status else line) :: mark_lines target ls
      end
  end.

Lemma rewrite_lines s ls :
  Forall (fun l => l ≠ []) ls ->
  exists target, foldl (rewrite_status_line name) s ls =
    {| updated_content := updated_content s ++ unlines (mark_lines (in_target_package s) ls);
       in_target_package := target; found_package := found_package s || existsb is_target ls |}.
Proof.
  intros H. revert s. induction H as [|l ls Hl _ IH]; intros s; cbn [foldl mark_lines existsb].
  - exists (in_target_package s). unfold unlines. cbn. rewrite app_nil_r, orb_false_r. by destruct s.
  - destruct (IH (rewrite_status_line name s l)) as [target ->]. exists target.
    unfold rewrite_status_line, str_eqb, is_target. rewrite bool_decide_false by done.
    destruct (strip_prefix (str "Package: ") l); cbn [updated_content in_target_package found_package orb];
      f_equal; rewrite ?unlines_cons, <- ?app_assoc, ?orb_assoc; done.
Qed.

Lemma rewrite_blank s :
  rewrite_status_line name s [] =
    {| updated_content := updated_content s ++ [NL]; in_target_package := false; found_package := found_package s |}.
Proof. reflexivity. Qed.

Lemma rewrite_file s ps :
  Forall good_paragraph ps -> in_target_package s = false ->
  foldl (rewrite_status_line name) s (file_lines ps) =
    {| updated_content := updated_content s ++ render_file (map (mark_lines false) ps);
       in_target_package := false; found_package := found_package s || existsb (existsb is_target) ps |}.
Proof.
  intros H. revert s. induction H as [|ls ps [Hne Hls] _ IH]; intros s Hs.
  - cbn. rewrite app_nil_r, orb_false_r. destruct s; simpl in *. by subst.
  - unfold file_lines. rewrite bind_cons, !foldl_app. change (ps ≫= _) with (file_lines ps).
    destruct (rewrite_lines s ls) as [target ->]; [eapply Forall_impl; [exact Hls|]; naive_solver|]. rewrite Hs.
    cbn [foldl]. rewrite rewrite_blank, IH by done. cbn [updated_content found_package map existsb].
    unfold render_file. rewrite bind_cons, orb_assoc. f_equal.
    assert (Hm : mark_lines false ls ≠ []) by (destruct ls; [done|]; simpl; by case_match).
    rewrite <- (intercalate_unlines _ Hm), <- !app_assoc. done.
Qed.

(** What the removal writes. *)
Lemma update_status_spec ps :
  Forall good_paragraph ps ->
  update_dpkg_status_for_removal (Some (Some (render_file ps))) name =
  if existsb (existsb is_target) ps then Ok (render_file (map (mark_lines false) ps)) else Err (PackageNotFound name).
Proof.
  intros H. unfold update_dpkg_status_for_removal. cbn [ok_or res_bind].
  assert (Hl : lines (render_file ps) = file_lines ps) by (rewrite render_unlines by done; by apply lines_unlines, good_lines).
  rewrite Hl. by rewrite rewrite_file.
Qed.

Definition foreign (ls : list rstr) : Prop := Forall (fun l => is_target l = false) ls.

Lemma mark_foreign ls : foreign ls -> mark_lines false ls = ls.
Proof.
  induction 1 as [|l ls Hl _ IH]; [done|]. cbn [mark_lines]. unfold is_target in Hl.
  destruct (strip_prefix (str "Package: ") l); [by rewrite Hl, IH|by rewrite IH].
Qed.

Lemma existsb_foreign ls : foreign ls -> existsb is_target ls = false.
Proof. induction 1 as [|l ls Hl _ IH]; [done|]. simpl. by rewrite Hl. Qed.
End mark.

(** * Installing and removing a package *)

Definition plain_line (l : rstr) : Prop := starts_with (str "Package:") l = false /\ starts_with (str "Status:") l = false.

Lemma plain_not_field field l : (exists r, field = str "Package:" ++ r \/ field = str "Status:" ++ r) -> plain_line l -> strip_prefix field l = None.
Proof.
  intros [r Hr] [Hp Hs]. destruct (strip_prefix field l) as [v|] eqn:E; [|done]. apply strip_prefix_Some in E. exfalso.
  destruct Hr as [-> | ->]; [apply not_true_iff_false in Hp; apply Hp|apply not_true_iff_false in Hs; apply Hs];
    apply starts_with_true; exists (r ++ v); by rewrite app_assoc.
Qed.

(** The paragraph of a package with a line after its name. *)
Definition paragraph_with (pre : list rstr) (name status : rstr) (post : list rstr) : list rstr :=
  pre ++ (str "Package: " ++ name) :: status :: post.

Section lifecycle.
Context (name : rstr) (pre post : list rstr).
Context (Hname : trim name = name) (Hplain : Forall plain_line (pre ++ post)).

Abbreviation pkg_line := (str "Package: " ++ name) (only parsing).

Lemma prepared_entry :
  Forall one_line (pre ++ pkg_line :: post) ->
  prepare_status_entry (unlines (pre ++ pkg_line :: post)) = unlines (paragraph_with pre name installed_status post).
Proof.
  intros Hl. unfold prepare_status_entry. rewrite lines_unlines by done.
  apply Forall_app in Hplain as [Hpre Hpost].
  assert (Hno : forall ls, Forall plain_line ls -> existsb (starts_with (str "Status:")) ls = false).
  { induction 1 as [|l ls [_ Hs] _ IH]; [done|]. simpl. by rewrite Hs. }
  assert (Hhas : existsb (starts_with (str "Status:")) (pre ++ pkg_line :: post) = false).
  { rewrite existsb_app, Hno by done. cbn [existsb orb]. by rewrite Hno. }
  rewrite Hhas.
  assert (Hkeep : forall ls, Forall plain_line ls -> (ls ≫= fun line => status_entry_line false line ≫= fun l => l ++ [NL]) = unlines ls).
  { induction 1 as [|l ls [Hp Hs] _ IH]; [done|]. rewrite bind_cons, IH, unlines_cons. unfold status_entry_line. rewrite Hs, Hp.
    cbn. by rewrite app_nil_r, <- app_assoc. }
  rewrite bind_app, bind_cons, !Hkeep by done. unfold paragraph_with. rewrite unlines_app, !unlines_cons. f_equal.
  change (status_entry_line false pkg_line) with [pkg_line; installed_status]. rewrite !bind_cons, <- !app_assoc. done.
Qed.

Lemma find_status status :
  find_map (strip_prefix (str "Status:")) (paragraph_with pre name (str "Status:" ++ status) post) = Some status.
Proof.
  apply Forall_app in Hplain as [Hpre _]. unfold paragraph_with. induction Hpre as [|l ls Hl _ IH]; [reflexivity|].
  cbn [app find_map]. rewrite plain_not_field; [done|by exists []; right|done].
Qed.

Lemma mark_installed : mark_lines name false (paragraph_with pre name installed_status post) = paragraph_with pre name removed_status post.
Proof.
  apply Forall_app in Hplain as [Hpre Hpost]. unfold paragraph_with. induction Hpre as [|l ls Hl _ IH]; cbn [app mark_lines].
  - assert (strip_prefix (str "Package: ") pkg_line = Some name) as -> by (by apply strip_prefix_Some).
    unfold str_eqb. rewrite bool_decide_true by done. f_equal. change (strip_prefix (str "Package: ") installed_status) with (@None rstr).
    cbv iota. f_equal. clear -Hpost. induction Hpost as [|l ls Hl _ IH]; [done|]. cbn [mark_lines].
    rewrite plain_not_field, IH; [|by exists (str " "); left|done].
    assert (starts_with (str "Status: ") l = false) as ->; [|done].
    unfold starts_with. rewrite plain_not_field; [done|by exists (str " "); right|done].
  - rewrite plain_not_field; [|by exists (str " "); left|done]. cbn [andb]. by rewrite IH.
Qed.
End lifecycle.

Lemma good_with pre name status post :
  good_paragraph (pre ++ (str "Package: " ++ name) :: post) -> one_line status -> status ≠ [] -> good_paragraph (paragraph_with pre name status post).
Proof.
  intros [_ H] Hs Hne. split; [by destruct pre|]. unfold paragraph_with. apply Forall_app in H as [H1 [H2 H3]%Forall_cons].
  apply Forall_app. split; [done|]. constructor; [done|]. by constructor.
Qed.

Lemma installed_render ps :
  Forall good_paragraph ps ->
  installed_paragraphs (render_file ps) = List.filter status_paragraph_is_installed (map (intercalate [NL]) ps).
Proof. intros H. unfold installed_paragraphs. by rewrite status_paragraphs_render. Qed.

Lemma with_status_installed name pre post status words :
  Forall plain_line (pre ++ post) -> good_paragraph (paragraph_with pre name (str "Status:" ++ status) post) ->
  split_whitespace status = words ->
  status_paragraph_is_installed (intercalate [NL] (paragraph_with pre name (str "Status:" ++ status) post)) =
  match words with [_; flag; state] => str_eqb flag (str "ok") && str_eqb state (str "installed") | _ => false end.
Proof.
  intros Hp [Hne Hg] <-. unfold status_paragraph_is_installed, find_prefixed.
  by rewrite lines_intercalate, find_status by done.
Qed.

Lemma entry_installed name pre post :
  Forall plain_line (pre ++ post) -> good_paragraph (paragraph_with pre name installed_status post) ->
  status_paragraph_is_installed (intercalate [NL] (paragraph_with pre name installed_status post)) = true.
Proof. intros Hp Hg. by apply (with_status_installed name pre post (str " install ok installed") [str "install"; str "ok"; str "installed"]). Qed.

Lemma entry_removed name pre post :
  Forall plain_line (pre ++ post) -> good_paragraph (paragraph_with pre name removed_status post) ->
  status_paragraph_is_installed (intercalate [NL] (paragraph_with pre name removed_status post)) = false.
Proof. intros Hp Hg. by apply (with_status_installed name pre post (str " deinstall ok config-files") [str "deinstall"; str "ok"; str "config-files"]). Qed.

(** C38: the life of a package in the dpkg status file. Recording the control
    file of a package that the file does not mention adds exactly one
    installed paragraph, the control file with the status line after the name;
    removing the package afterwards marks it as removed, so that the installed
    paragraphs are those from before, and leaves every other paragraph as it
    was. *)
Theorem install_then_remove_status (ps : list (rstr * list rstr)) (name : rstr) (pre post : list rstr) :
  let control := pre ++ (str "Package: " ++ name) :: post in
  let s0 := render_file (map snd ps) in
  let s1 := merge_status_entries s0 [(name, prepare_status_entry (unlines control))] in
  let s2 := render_file (map snd ps ++ [paragraph_with pre name removed_status post]) in
  Forall named_paragraph ps -> NoDup (map fst ps) -> name ∉ map fst ps -> Forall (fun np => foreign name np.2) ps ->
  trim name = name -> good_paragraph control -> Forall plain_line (pre ++ post) ->
  installed_paragraphs s1 = installed_paragraphs s0 ++ [intercalate [NL] (paragraph_with pre name installed_status post)] /\
  update_dpkg_status_for_removal (Some (Some s1)) name = Ok s2 /\
  installed_paragraphs s2 = installed_paragraphs s0.
Proof.
  intros control s0 s1 s2 Hps Hnd Hnew Hfor Htrim Hgood Hplain.
  set (entry := paragraph_with pre name installed_status post). set (gone := paragraph_with pre name removed_status post).
  assert (Hg : good_paragraph entry) by (apply good_with; [done|split; apply (bool_decide_unpack _); vm_compute; done|done]).
  assert (Hg' : good_paragraph gone) by (apply good_with; [done|split; apply (bool_decide_unpack _); vm_compute; done|done]).
  assert (Hall : Forall good_paragraph (map snd ps)) by (apply Forall_map; eapply Forall_impl; [exact Hps|]; by intros np [? _]).
  assert (E1 : s1 = render_file (map snd ps ++ [entry])).
  { unfold s1, control. rewrite prepared_entry; [|done|destruct Hgood as [_ H]; eapply Forall_impl; [exact H|]; naive_solver].
    pose proof (merge_status_replaces ps [(name, entry)] Hps Hnd (NoDup_singleton _)) as Hm. cbn [map] in Hm.
    unfold entry_text in Hm at 1. cbn [fst snd] in Hm. rewrite intercalate_unlines in Hm by (apply Hg).
    unfold entry in Hm at 1. unfold s0. rewrite Hm. f_equal. f_equal.
    - apply map_ext_in. intros [n ls] Hin%list_elem_of_In. unfold replace_paragraph. cbn [fst snd list_to_map foldr].
      rewrite lookup_insert_ne; [done|]. intros <-. apply Hnew. by apply (list_elem_of_fmap_2 fst) in Hin.
    - cbn [List.filter fst]. by rewrite bool_decide_false. }
  assert (Hboth : Forall good_paragraph (map snd ps ++ [entry]) /\ Forall good_paragraph (map snd ps ++ [gone])).
  { split; apply Forall_app; split; try done; by constructor. }
  destruct Hboth as [Hb1 Hb2]. split_and!.
  - rewrite E1, installed_render, map_app, List.filter_app by done. f_equal; [by rewrite <- installed_render|].
    cbn [map List.filter]. unfold entry in *. by rewrite entry_installed.
  - rewrite E1, update_status_spec by done.
    assert (existsb (existsb (is_target name)) (map snd ps ++ [entry]) = true) as ->.
    { rewrite existsb_app. apply orb_true_iff. right. cbn [existsb]. rewrite orb_false_r. unfold entry, paragraph_with.
      rewrite existsb_app. apply orb_true_iff. right. cbn [existsb]. apply orb_true_iff. left. unfold is_target.
      assert (strip_prefix (str "Package: ") (str "Package: " ++ name) = Some name) as -> by (by apply strip_prefix_Some).
      by apply bool_decide_true. }
    unfold s2. f_equal. f_equal. rewrite map_app. cbn [map]. unfold entry. rewrite mark_installed by done. f_equal.
    rewrite map_map. apply map_ext_in. intros np Hin%list_elem_of_In. apply mark_foreign.
    by apply (proj1 (Forall_forall _ _) Hfor).
  - unfold s2. fold gone. unfold s0. rewrite !installed_render, map_app, List.filter_app by done. cbn [map List.filter].
    unfold gone in *. rewrite entry_removed by done. by rewrite app_nil_r.
Qed.

(** * File lists *)

(** The line of a path. *)
Definition list_entry (t : rstr) (dir : bool) : rstr := if dir then t ++ str "/" else t.

(** A path as the extractor records it. *)
Definition listable (p : InstalledPath) : Prop :=
  exists t, path_text p = Some t /\ visible_ends t /\ ends_with (str "/") t = false.

Lemma ends_with_snoc t c : ends_with [c] (t ++ [c]) = true.
Proof.
  unfold ends_with. destruct (strip_suffix [c] (t ++ [c])) as [r|] eqn:E; [done|]. exfalso.
  unfold strip_suffix in E. rewrite rev_app_distr in E. simpl in E. rewrite Z.eqb_refl in E. done.
Qed.

Lemma visible_slash t : visible_ends t -> visible_ends (t ++ str "/").
Proof.
  intros [(c & r & -> & Hc) _]. split; [by exists c, (r ++ str "/")|]. by exists (c :: r), (ch "/").
Qed.

Lemma file_list_line_Ok p line :
  file_list_line p = Ok line ->
  exists t dir, path_text p = Some t /\ is_directory p = Some dir /\ (10 ∉ line) /\ (13 ∉ line)
    /\ (ends_with (str "/") t = false -> line = list_entry t dir).
Proof.
  unfold file_list_line. intros H. res_inv. to_prop. exists a, a1.
  assert (path_text p = Some a /\ is_directory p = Some a1) as [Hp Hd].
  { split; [destruct (path_text p)|destruct (is_directory p)]; simpl in *; congruence. }
  assert (Hc : forall c, contains_char c a = false -> c ∉ a).
  { unfold contains_char. intros c Hf Hin. apply not_true_iff_false in Hf. apply Hf, existsb_exists. exists c.
    split; [by apply list_elem_of_In|apply Z.eqb_refl]. }
  apply Hc in H, H0. split_and!; [done..| | |intros ->].
  - destruct (a1 && _); [|done]. rewrite elem_of_app. intros [?|Hin]; [done|]. revert Hin. apply (bool_decide_unpack _). vm_compute. done.
  - destruct (a1 && _); [|done]. rewrite elem_of_app. intros [?|Hin]; [done|]. revert Hin. apply (bool_decide_unpack _). vm_compute. done.
  - by destruct a1.
Qed.

Definition names_dir (line : rstr) : bool := ends_with (str "/") line.

Lemma fold_list_lines ls s :
  Forall visible_ends ls ->
  foldl list_line s ls = (s.1 ++ List.filter (fun l => negb (names_dir l)) ls, s.2 ++ List.filter names_dir ls).
Proof.
  intros H. revert s. induction H as [|l ls Hl _ IH]; intros s; cbn [foldl List.filter]; [by rewrite !app_nil_r; destruct s|].
  rewrite IH. unfold list_line at 1 2. rewrite trim_visible by done.
  assert (str_eqb l [] = false) as -> by (apply bool_decide_false; by destruct Hl as [(? & ? & -> & _) _]).
  fold (names_dir l). destruct (names_dir l); cbn [negb fst snd]; by rewrite <- app_assoc.
Qed.

(** The lines written are those of the paths. *)
Lemma file_list_lines installed_files ls :
  Forall listable installed_files -> try_map file_list_line installed_files = Ok ls ->
  Forall (fun y => one_line y /\ visible_ends y) ls /\
  (forall dir y, y ∈ ls /\ names_dir y = dir <->
     exists p t, p ∈ installed_files /\ path_text p = Some t /\ is_directory p = Some dir /\ y = list_entry t dir).
Proof.
  intros Hl Hr. destruct (try_map_elem _ _ _ Hr) as [Hto Hfrom].
  assert (Hline : forall p y, p ∈ installed_files -> file_list_line p = Ok y ->
    exists t dir, path_text p = Some t /\ is_directory p = Some dir /\ y = list_entry t dir /\ one_line y /\ visible_ends y /\ names_dir y = dir).
  { intros p y Hp Hf. destruct (file_list_line_Ok _ _ Hf) as (t & dir & Ht & Hd & H10 & H13 & He).
    destruct (proj1 (Forall_forall _ _) Hl p Hp) as (t' & Ht' & Hv & Hs). rewrite Ht in Ht'. injection Ht' as <-. rewrite (He Hs) in *.
    exists t, dir. split_and!; [done..| |]; destruct dir; [by apply visible_slash|done|apply ends_with_snoc|done]. }
  split.
  - apply Forall_forall. intros y (p & Hp & Hf)%Hto. destruct (Hline p y Hp Hf) as (t & dir & _ & _ & _ & ? & ? & _). done.
  - intros dir y. split.
    + intros [(p & Hp & Hf)%Hto Hn]. destruct (Hline p y Hp Hf) as (t & dir' & ? & ? & ? & _ & _ & Hn'). rewrite Hn in Hn'. subst dir'. by exists p, t.
    + intros (p & t & Hp & Ht & Hd & ->). destruct (Hfrom p Hp) as (y & Hy & Hf).
      destruct (Hline p y Hp Hf) as (t' & dir' & Ht' & Hd' & E & _ & _ & Hn). rewrite Ht in Ht'. rewrite Hd in Hd'. by simplify_eq.
Qed.

(** The file list a package is registered with is read back by its
    removal as it was written: the files are the installed paths that are not
    directories, the directories the others, none of them twice. *)
Theorem file_list_roundtrip installed_files text :
  Forall listable installed_files -> dpkg_file_list installed_files = Ok text ->
  let '(files, dirs) := read_file_list text in
  NoDup files /\ NoDup dirs /\
  (forall t, t ∈ files <-> exists p, p ∈ installed_files /\ path_text p = Some t /\ is_directory p = Some false) /\
  (forall d, d ∈ dirs <-> exists p t, p ∈ installed_files /\ path_text p = Some t /\ is_directory p = Some true /\ d = t ++ str "/").
Proof.
  intros Hl Hw. unfold dpkg_file_list in Hw. res_inv. destruct (file_list_lines _ _ Hl Hr) as [Hgood Hmem].
  set (ls := dedup (sort_strs a)) in *. assert (Hls : forall y, y ∈ ls <-> y ∈ a) by (intros y; apply elem_of_dedup_sort).
  assert (Hgood' : Forall (fun y => one_line y /\ visible_ends y) ls).
  { apply Forall_forall. intros y Hy%Hls. by apply (proj1 (Forall_forall _ _) Hgood). }
  assert (Hread : lines (if bool_decide (ls = []) then [] else intercalate [NL] ls ++ [NL]) = ls).
  { case_bool_decide as E; [by rewrite E|]. rewrite intercalate_unlines by done. apply lines_unlines.
    eapply Forall_impl; [exact Hgood'|]. by intros y [? _]. }
  unfold read_file_list. rewrite Hread, fold_list_lines by (eapply Forall_impl; [exact Hgood'|]; by intros y [_ ?]).
  cbn [fst snd app]. pose proof (proj2 (dedup_sort_sorted a)) as Hnd. fold ls in Hnd.
  assert (Hin : forall f y, y ∈ List.filter f ls <-> y ∈ a /\ f y = true).
  { intros f y. by rewrite list_elem_of_In, List.filter_In, <- list_elem_of_In, Hls. }
  split_and!.
  - apply NoDup_ListNoDup, List.NoDup_rev, List.NoDup_filter. by apply NoDup_ListNoDup.
  - apply NoDup_ListNoDup, List.NoDup_filter. by apply NoDup_ListNoDup.
  - intros t. rewrite elem_of_rev, Hin, negb_true_iff, Hmem. split.
    + intros (p & t' & ? & ? & ? & ->). by exists p.
    + intros (p & ? & ? & ?). by exists p, t.
  - intros d. rewrite Hin, Hmem. done.
Qed.

(** * Interrupted transactions *)

(** A transaction that is killed leaves its marker, and no transaction
    starts after it: every later attempt is refused and leaves the marker in
    place. *)
Theorem killed_transaction_blocks `{C : JournalCodec} `{!JournalLaws C} marker j marker' es :
  attempt marker (Killed j) = (true, marker') ->
  attempts marker' es = (replicate (length es) false, marker').
Proof.
  intros Hk. assert (Hstale : exists found, stale_transaction_journal marker' = Some found).
  { unfold attempt in Hk. destruct (acquire_at j true marker) as [m|] eqn:Ha; [|done]. injection Hk as ->.
    unfold acquire_at in Ha. destruct (stale_transaction_journal marker) as [found|]; [done|].
    unfold write_transaction_journal_at in Ha. res_inv. destruct (journal_to_vec j) as [bytes|] eqn:Hj; simplify_eq/=.
    destruct (journal_text _ _ Hj) as [text Ht]. unfold stale_transaction_journal, read_to_string. rewrite Ht. by eauto. }
  destruct Hstale as [found Hs]. induction es as [|e es IH]; [done|]. cbn [attempts].
  assert (attempt marker' e = (false, marker')) as -> by (destruct e; unfold attempt, acquire_at; by rewrite Hs).
  by rewrite IH.
Qed.

(** * Concrete inputs *)

Lemma install_then_remove_status_witness :
  let s0 := render_file [[str "Package: base"; str "Status: install ok installed"; str "Version: 1"]] in
  let s1 := merge_status_entries s0 [(str "tool", prepare_status_entry (unlines [str "Package: tool"; str "Version: 2"]))] in
  s1 = s0 ++ render_file [[str "Package: tool"; str "Status: install ok installed"; str "Version: 2"]] /\
  exists s2, update_dpkg_status_for_removal (Some (Some s1)) (str "tool") = Ok s2 /\ installed_paragraphs s2 = installed_paragraphs s0.
Proof.
  split; [vm_compute; reflexivity|].
  destruct (install_then_remove_status [(str "base", [str "Package: base"; str "Status: install ok installed"; str "Version: 1"])]
    (str "tool") [] [str "Version: 2"]) as (_ & H2 & H3); [..|by eexists; split; [exact H2|exact H3]].
  - unfold named_paragraph, good_paragraph, one_line. apply (bool_decide_unpack _). vm_compute. done.
  - apply (bool_decide_unpack _). vm_compute. done.
  - apply (bool_decide_unpack _). vm_compute. done.
  - unfold foreign. apply (bool_decide_unpack _). vm_compute. done.
  - vm_compute. reflexivity.
  - unfold good_paragraph, one_line. apply (bool_decide_unpack _). vm_compute. done.
  - unfold plain_line. apply (bool_decide_unpack _). vm_compute. done.
Defined.

(** A removal trims the lines of the file list: a file whose name ends with a
    blank is read as another path. *)
Lemma file_list_loses_trailing_blank :
  let file := {| path_text := Some (str "/opt/data "); is_directory := Some false |} in
  exists text, dpkg_file_list [file] = Ok text /\ read_file_list text = ([str "/opt/data"], []).
Proof. eexists. split; vm_compute; reflexivity. Qed.

(** dpkg itself writes directories without a slash; they are read as files. *)
Lemma dpkg_directories_are_files :
  read_file_list (str "/." ++ [NL] ++ str "/usr" ++ [NL] ++ str "/usr/bin" ++ [NL] ++ str "/usr/bin/tool" ++ [NL])
  = ([str "/usr/bin/tool"; str "/usr/bin"; str "/usr"; str "/."], []).
Proof. vm_compute. reflexivity. Qed.

(** A marker that is not UTF-8, or cannot be read, does not stop a
    transaction. *)
Lemma damaged_marker_is_ignored `{JournalCodec} : 
  stale_transaction_journal (MarkerBytes [0xFF]) = None /\ stale_transaction_journal Unreadable = None.
Proof. split; reflexivity. Qed.
