(* ===== verification/Slsa.v ===== *)
(** Verification of build provenance through Sigstore:
    src/src/core/security/slsa.rs.

    An artifact is accepted on the strength of a Rekor log entry: the log
    signed the entry, the entry records the digest and a signature of the
    artifact, and the key of the signature belongs to a Fulcio certificate
    that chains to a pinned root and names the expected signer. Base64, JSON,
    X.509 parsing, digests and signature schemes are libraries and hence
    operations of the class [Sigstore]; a parsed certificate is a record of
    what the code reads of it. The answers of the log server are the argument
    [Rekor]. *)

From S2P Require Import Prelude Deb822.
Open Scope Z_scope.
Open Scope omg_scope.

(** * JSON values *)

(** [JNumber None] is a number that is not an integer. *)
Inductive Json :=
| JNull
| JBool (b : bool)
| JNumber (n : option Z)
| JString (s : rstr)
| JArray (items : list Json)
| JObject (fields : list (rstr * Json)).

Fixpoint assoc {A} (key : rstr) (fields : list (rstr * A)) : option A :=
  match fields with
  | [] => None
  | (k, v) :: fields => if str_eqb k key then Some v else assoc key fields
  end.

(** [value.get(field)]. *)
Definition json_get (field : rstr) (v : Json) : option Json :=
  match v with JObject fields => assoc field fields | _ => None end.

(** [value.pointer] for a path of object keys. *)
Definition json_pointer (path : list rstr) (v : Json) : option Json :=
  foldl (fun v field => v ≫= json_get field) (Some v) path.

Definition as_str (v : Json) : option rstr := match v with JString s => Some s | _ => None end.

Definition as_u64 (v : Json) : option Z :=
  match v with
  | JNumber (Some n) => if (0 <=? n) && (n <=? u64_max) then Some n else None
  | _ => None
  end.

(** * Certificates *)

Inductive GeneralName := RFC822Name (email : rstr) | URI (uri : rstr) | OtherName.

Inductive ParsedExtension :=
| BasicConstraints (ca : bool) (path_len_constraint : option Z)
| KeyUsage (digital_signature key_cert_sign : bool)
| ExtendedKeyUsage (code_signing : bool)
| SubjectAlternativeName (general_names : list GeneralName)
| ParseFailed
| Unparsed
| OtherExtension.

Record Extension := {
  ext_oid : rstr;
  ext_critical : bool;
  ext_parsed : ParsedExtension
}.

Record Certificate := {
  cert_issuer : rstr;
  cert_subject : rstr;
  cert_spki : list Z;
  cert_tbs : list Z;
  cert_signature : list Z;
  cert_algorithm : rstr;
  not_before : Z;
  not_after : Z;
  cert_extensions : list Extension
}.

(** * The libraries *)

Inductive Scheme := RsaSha256 | P256Sha256 | P384Sha384.

Class Sigstore := {
  (** standard base64 *)
  b64_decode : rstr -> option (list Z);
  json_from_slice : list Z -> option Json;
  provenance_from_str : rstr -> bool;
  from_utf8_lossy : list Z -> rstr;
  x509_from_der : list Z -> option Certificate;
  sha256 : list Z -> list Z;
  hex_encode : list Z -> rstr;
  (** [<[u8; 32]>::from_hex] *)
  hex_decode32 : rstr -> option (list Z);
  (** a public key of the scheme *)
  is_key : Scheme -> list Z -> bool;
  (** a well-formed signature of the scheme *)
  is_signature : Scheme -> list Z -> bool;
  (** key, message, signature *)
  verifies : Scheme -> list Z -> list Z -> list Z -> bool;
  (** key, SHA-256 digest, signature *)
  rsa_verifies_prehash : list Z -> list Z -> list Z -> bool;
  (** the pinned key of the log, and whether its text parses *)
  rekor_key : option (list Z);
  FULCIO_ROOT_PEM : rstr;
  FULCIO_INTERMEDIATE_PEM : rstr
}.

(** * Errors and results *)

Inductive RekorError :=
| HttpFailed (status : Z)
| EntryMissingField (uuid field : rstr)
| EntryInvalidField (uuid field : rstr)
| EntryNotFound (uuid : rstr)
| EmptyEntryMap
| EntrySetMalformed (uuid : rstr)
| EntrySetVerificationFailed (uuid : rstr)
| RekorPublicKeyMalformed.

Inductive SlsaError :=
| IdentityRequired
| RekorFailed (e : RekorError)
| RekorRequest
| RekorIndexJson
| RekorEntryRequest
| RekorEntryJson
| RekorBodyDecode
| RekorBodyJson
| RekorBodyMissingField (field : rstr)
| SignatureMalformed
| ReadFailed
| ProvenanceParse.

Inductive SlsaLevel := LevelNone | Level1 | Level2 | Level3.

Record RekorEntry := {
  uuid : rstr;
  log_index : Z;
  integrated_time : Z;
  body : rstr
}.

Record VerificationResult := {
  verified : bool;
  slsa_level : SlsaLevel;
  transparency_log_entry : option rstr;
  builder_id : option rstr;
  build_timestamp : option rstr;
  result_error : option rstr
}.

Inductive SlsaEvidence := EvidenceNone | UnsignedLocalJson | RekorIndexHit.

Definition slsa_unverified (error : rstr) : VerificationResult :=
  {| verified := false; slsa_level := LevelNone; transparency_log_entry := None; builder_id := None;
     build_timestamp := None; result_error := Some error |}.

Definition classify_slsa_evidence (evidence : SlsaEvidence) : VerificationResult :=
  match evidence with
  | EvidenceNone => slsa_unverified (str "No verified SLSA provenance")
  | UnsignedLocalJson => slsa_unverified (str "Local provenance JSON is not a verified attestation")
  | RekorIndexHit => slsa_unverified (str "Rekor log index hit is not in-toto/SLSA verification")
  end.

Definition rekor_http_must_succeed (status : Z) : result unit RekorError :=
  if (200 <=? status) && (status <? 300) then Ok tt else Err (HttpFailed status).

Definition required_u64 (value : Json) (uuid field : rstr) : result Z RekorError :=
  match json_get field value with
  | None => Err (EntryMissingField uuid field)
  | Some v => ok_or (as_u64 v) (EntryInvalidField uuid field)
  end.

(** * Signed entry timestamps *)

Definition MAX_SAFE_INTEGER : Z := 2 ^ 53 - 1.

Definition is_base64_char (c : Z) : bool :=
  is_ascii_alphanumeric c || (c =? ch "+") || (c =? ch "/") || (c =? ch "=").

Definition quote : Z := 34.

(** The text Rekor signs, with [quote] for a double quote. *)
Definition set_payload (log_id : rstr) (log_index integrated_time : Z) (body : rstr) : rstr :=
  str "{" ++ quote :: str "body" ++ quote :: str ":" ++ quote :: body
  ++ quote :: str "," ++ quote :: str "integratedTime" ++ quote :: str ":" ++ to_string integrated_time
  ++ str "," ++ quote :: str "logID" ++ quote :: str ":" ++ quote :: log_id
  ++ quote :: str "," ++ quote :: str "logIndex" ++ quote :: str ":" ++ to_string log_index ++ str "}".

Definition canonical_set_payload (log_id : rstr) (log_index integrated_time : Z) (body : rstr) : option rstr :=
  if (MAX_SAFE_INTEGER <? log_index) || (MAX_SAFE_INTEGER <? integrated_time) then None
  else if negb (forallb is_ascii_hexdigit (as_bytes log_id)) then None
  else if negb (forallb is_base64_char (as_bytes body)) then None
  else Some (set_payload log_id log_index integrated_time body).

(** * The log server *)

(** An HTTP exchange; [None] is a body that is too long or not of the
    expected form. *)
Inductive HttpAnswer (A : Type) := SendFailed | Answered (status : Z) (json : option A).
Arguments SendFailed {A}.
Arguments Answered {A} status json.

Record Rekor := {
  retrieve_index : rstr -> HttpAnswer (list rstr);
  retrieve_entry : rstr -> HttpAnswer (list (rstr * Json))
}.

Section verifier.
Context `{Sigstore}.

Definition verify_set_signature (canonical set_signature_der key : list Z) : bool :=
  is_signature P256Sha256 set_signature_der && verifies P256Sha256 key canonical set_signature_der.

Definition required_str (o : option Json) (uuid field : rstr) : result rstr RekorError :=
  ok_or (o ≫= as_str) (EntryMissingField uuid field).

Definition parse_rekor_entry (requested_uuid : rstr) (entry_map : list (rstr * Json)) : result RekorEntry RekorError :=
  if bool_decide (entry_map = []) then Err EmptyEntryMap
  else
    let? value := ok_or (assoc requested_uuid entry_map) (EntryNotFound requested_uuid) in
    let? log_index := required_u64 value requested_uuid (str "logIndex") in
    let? integrated_time := required_u64 value requested_uuid (str "integratedTime") in
    let? body := required_str (json_get (str "body") value) requested_uuid (str "body") in
    let? log_id := required_str (json_get (str "logID") value) requested_uuid (str "logID") in
    let? set_b64 := required_str (json_pointer [str "verification"; str "signedEntryTimestamp"] value) requested_uuid
                      (str "verification.signedEntryTimestamp") in
    let? set_bytes := ok_or (b64_decode (trim set_b64)) (EntrySetMalformed requested_uuid) in
    let? canonical := ok_or (canonical_set_payload log_id log_index integrated_time body) (EntrySetMalformed requested_uuid) in
    let? key := ok_or rekor_key RekorPublicKeyMalformed in
    ensure (verify_set_signature (as_bytes canonical) set_bytes key) (EntrySetVerificationFailed requested_uuid) ;?
    Ok {| uuid := requested_uuid; log_index := log_index; integrated_time := integrated_time; body := body |}.

(** * Fulcio certificates *)

Definition scheme_of (algorithm_oid : rstr) : option Scheme :=
  if str_eqb algorithm_oid (str "1.2.840.113549.1.1.11") then Some RsaSha256
  else if str_eqb algorithm_oid (str "1.2.840.10045.4.3.2") then Some P256Sha256
  else if str_eqb algorithm_oid (str "1.2.840.10045.4.3.3") then Some P384Sha384
  else None.

Definition verify_x509_signature (issuer_spki_der tbs signature_bits : list Z) (algorithm_oid : rstr) : bool :=
  match scheme_of algorithm_oid with
  | Some s => is_key s issuer_spki_der && is_signature s signature_bits && verifies s issuer_spki_der tbs signature_bits
  | None => false
  end.

Definition decode_pem_body (pem label : rstr) : option (list Z) :=
  let begin := str "-----BEGIN " ++ label ++ str "-----" in
  let finish := str "-----END " ++ label ++ str "-----" in
  b64_decode (concat (List.filter (fun line => negb (str_eqb line begin) && negb (str_eqb line finish)) (map trim (lines pem)))).

(** Whether an extension is allowed, and whether it is supported. [ca_below]
    is [None] for a leaf. *)
Definition extension_permits (ca_below : option Z) (p : ParsedExtension) : option bool :=
  match p with
  | BasicConstraints ca path_len =>
      match ca_below with
      | Some count => if negb ca || (match path_len with Some limit => limit <? count | None => false end) then None else Some true
      | None => if ca || (match path_len with Some _ => true | None => false end) then None else Some true
      end
  | KeyUsage digital_signature key_cert_sign =>
      if (match ca_below with Some _ => key_cert_sign | None => digital_signature end) then Some true else None
  | ExtendedKeyUsage code_signing =>
      match ca_below with
      | None => if code_signing then Some true else None
      | Some _ => Some false
      end
  | SubjectAlternativeName _ => Some (match ca_below with None => true | Some _ => false end)
  | ParseFailed | Unparsed => None
  | OtherExtension => Some false
  end.

Fixpoint permit_extensions (ca_below : option Z) (seen : list rstr) (es : list Extension) : bool :=
  match es with
  | [] => true
  | e :: es =>
      if bool_decide (ext_oid e ∈ seen) then false
      else
        match extension_permits ca_below (ext_parsed e) with
        | None => false
        | Some supported =>
            if ext_critical e && negb supported then false else permit_extensions ca_below (ext_oid e :: seen) es
        end
  end.

Definition fulcio_extensions_permit_role (certificate : Certificate) (ca_below : option Z) : bool :=
  permit_extensions ca_below [] (cert_extensions certificate).

Definition certificate_valid_at (c : Certificate) (at_ : Z) : bool := (not_before c <=? at_) && (at_ <=? not_after c).

Definition certificate_is_ca (c : Certificate) : bool :=
  existsb (fun e => match ext_parsed e with BasicConstraints ca _ => ca | _ => false end) (cert_extensions c).

(** [issuer] is a valid authority with [ca_below] authorities below it, and
    signed [c]. *)
Definition issued_by (c issuer : Certificate) (ca_below at_ : Z) : bool :=
  str_eqb (cert_issuer c) (cert_subject issuer) && certificate_valid_at issuer at_ && certificate_is_ca issuer
  && fulcio_extensions_permit_role issuer (Some ca_below)
  && verify_x509_signature (cert_spki issuer) (cert_tbs c) (cert_signature c) (cert_algorithm c).

Definition leaf_profile (s : bool * bool) (e : Extension) : bool * bool :=
  match ext_parsed e with
  | BasicConstraints ca _ => (ca, s.2)
  | ExtendedKeyUsage true => (s.1, true)
  | _ => s
  end.

(** The signer a list of alternative names gives. *)
Fixpoint first_identity (first_uri : option rstr) (names : list GeneralName) : option rstr :=
  match names with
  | [] => first_uri
  | RFC822Name email :: _ => Some email
  | URI uri :: names => first_identity (match first_uri with None => Some uri | Some _ => first_uri end) names
  | OtherName :: names => first_identity first_uri names
  end.

Fixpoint signer_of (es : list Extension) : option rstr :=
  match es with
  | [] => None
  | e :: es =>
      match ext_parsed e with
      | SubjectAlternativeName names =>
          match first_identity None names with Some signer_id => Some signer_id | None => signer_of es end
      | _ => signer_of es
      end
  end.

Definition fulcio_signer_identity (leaf : Certificate) : option rstr := signer_of (cert_extensions leaf).

Definition parse_roots (roots : list rstr) : list Certificate :=
  omap (fun pem => der ← decode_pem_body pem (str "CERTIFICATE"); x509_from_der der) roots.

Definition verify_fulcio_chain (leaf_der : list Z) (integrated_time : Z) (roots : list rstr) (intermediate_pem : rstr) : option rstr :=
  leaf ← x509_from_der leaf_der;
  if negb (fulcio_extensions_permit_role leaf None) then None
  else
    let inter_der := der ← decode_pem_body intermediate_pem (str "CERTIFICATE"); if bool_decide (der = []) then None else Some der in
    let at_ := Z.min integrated_time (2 ^ 63 - 1) in
    let roots := parse_roots roots in
    let chained :=
      if existsb (fun root => issued_by leaf root 0 at_) roots then true
      else
        match (der ← inter_der; x509_from_der der) with
        | None => false
        | Some intermediate =>
            issued_by leaf intermediate 0 at_ && existsb (fun root => issued_by intermediate root 1 at_) roots
        end in
    if negb chained then None
    else if negb (certificate_valid_at leaf at_) then None
    else
      let '(is_ca, has_code_signing_eku) := foldl leaf_profile (false, false) (cert_extensions leaf) in
      if is_ca || negb has_code_signing_eku then None else fulcio_signer_identity leaf.

(** * Log entries *)

Definition verify_digest_with_bytes (issuer_spki_der : list Z) (artifact_hash : rstr) (artifact_bytes signature : list Z) : bool :=
  match hex_decode32 artifact_hash with
  | None => false
  | Some digest =>
      if negb (eq_ignore_ascii_case (hex_encode (sha256 artifact_bytes)) artifact_hash) then false
      else if is_key RsaSha256 issuer_spki_der then
        is_signature RsaSha256 signature && rsa_verifies_prehash issuer_spki_der digest signature
      else if is_key P256Sha256 issuer_spki_der then
        is_signature P256Sha256 signature && verifies P256Sha256 issuer_spki_der artifact_bytes signature
      else false
  end.

Definition verify_digest_with_spki_from_pem (pem : rstr) (signature : list Z) (artifact_hash : rstr) (artifact_bytes : list Z)
  : result (bool * option rstr) SlsaError :=
  let? der := ok_or (decode_pem_body pem (str "PUBLIC KEY")) RekorBodyDecode in
  Ok (verify_digest_with_bytes der artifact_hash artifact_bytes signature, None).

Definition body_str (path : list rstr) (field : rstr) (spec : Json) : result rstr SlsaError :=
  ok_or (json_pointer path spec ≫= as_str) (RekorBodyMissingField field).

Definition verify_rekor_entry (entry : RekorEntry) (artifact_hash : rstr) (artifact_bytes : list Z)
  (fulcio_roots : list rstr) (fulcio_intermediate : rstr) : result (bool * option rstr) SlsaError :=
  let? body_json := ok_or (b64_decode (trim (body entry))) RekorBodyDecode in
  let? body := ok_or (json_from_slice body_json) RekorBodyJson in
  if negb (bool_decide (json_get (str "kind") body ≫= as_str = Some (str "hashedrekord"))) then Ok (false, None)
  else
    let? spec := ok_or (json_get (str "spec") body) (RekorBodyMissingField (str "spec")) in
    let? recorded_hash := body_str [str "data"; str "hash"; str "value"] (str "spec.data.hash.value") spec in
    if negb (eq_ignore_ascii_case recorded_hash artifact_hash) then Ok (false, None)
    else
      let? signature_b64 := body_str [str "signature"; str "content"] (str "spec.signature.content") spec in
      let? pem_b64 := body_str [str "signature"; str "publicKey"; str "content"] (str "spec.signature.publicKey.content") spec in
      let? signature := ok_or (b64_decode (trim signature_b64)) RekorBodyDecode in
      let? pem_bytes := ok_or (b64_decode (trim pem_b64)) RekorBodyDecode in
      let pem := trim (from_utf8_lossy pem_bytes) in
      if contains (str "BEGIN CERTIFICATE") pem then
        let? der := ok_or (decode_pem_body pem (str "CERTIFICATE")) RekorBodyDecode in
        match verify_fulcio_chain der (integrated_time entry) fulcio_roots fulcio_intermediate with
        | None => Ok (false, None)
        | Some signer =>
            let? cert := ok_or (x509_from_der der) SignatureMalformed in
            Ok (verify_digest_with_bytes (cert_spki cert) artifact_hash artifact_bytes signature, Some signer)
        end
      else
        verify_digest_with_spki_from_pem pem signature artifact_hash artifact_bytes ;?
        Ok (false, None).

(** * Asking the log *)

Definition get_rekor_entry (server : Rekor) (uuid : rstr) : result RekorEntry SlsaError :=
  match retrieve_entry server uuid with
  | SendFailed => Err RekorEntryRequest
  | Answered status json =>
      map_err RekorFailed (rekor_http_must_succeed status) ;?
      let? entry_map := ok_or json RekorEntryJson in
      map_err RekorFailed (parse_rekor_entry uuid entry_map)
  end.

Definition query_rekor (server : Rekor) (artifact_hash : rstr) : result (list RekorEntry) SlsaError :=
  match retrieve_index server (str "sha256:" ++ artifact_hash) with
  | SendFailed => Err RekorRequest
  | Answered status json =>
      map_err RekorFailed (rekor_http_must_succeed status) ;?
      let? uuids := ok_or json RekorIndexJson in
      try_map (get_rekor_entry server) (take 5 uuids)
  end.

(** * Verification of an artifact *)

Definition accepted (entry : RekorEntry) (signer : option rstr) : VerificationResult :=
  {| verified := true; slsa_level := LevelNone; transparency_log_entry := Some (uuid entry); builder_id := signer;
     build_timestamp := None; result_error := None |}.

Fixpoint first_verified (artifact_hash : rstr) (artifact_bytes : list Z) (required_identity : option rstr) (entries : list RekorEntry)
  : option VerificationResult :=
  match entries with
  | [] => None
  | entry :: entries =>
      let next := first_verified artifact_hash artifact_bytes required_identity entries in
      match verify_rekor_entry entry artifact_hash artifact_bytes [FULCIO_ROOT_PEM; FULCIO_INTERMEDIATE_PEM] FULCIO_INTERMEDIATE_PEM with
      | Err _ => next
      | Ok (verified, signer) =>
          if verified && bool_decide (is_Some required_identity) && negb (bool_decide (signer = required_identity)) then next
          else if verified then Some (accepted entry signer)
          else next
      end
  end.

(** The provenance file: absent, unreadable, or its text. *)
Inductive FileContent := FileAbsent | FileUnreadable | FileText (text : rstr).

(** [blob] is the content of the artifact, [None] when it cannot be read. *)
Definition verify_provenance (server : Rekor) (blob : option (list Z)) (provenance : option FileContent) (required_identity : option rstr)
  : result VerificationResult SlsaError :=
  if match required_identity with None => true | Some signer_id => str_eqb (trim signer_id) [] end then Err IdentityRequired
  else
    let? artifact_bytes := ok_or blob ReadFailed in
    let artifact_hash := hex_encode (sha256 artifact_bytes) in
    let? rekor_entries := query_rekor server artifact_hash in
    match first_verified artifact_hash artifact_bytes required_identity rekor_entries with
    | Some result => Ok result
    | None =>
        match rekor_entries with
        | entry :: _ =>
            let r := classify_slsa_evidence RekorIndexHit in
            Ok {| verified := verified r; slsa_level := slsa_level r; transparency_log_entry := Some (uuid entry);
                  builder_id := builder_id r; build_timestamp := build_timestamp r; result_error := result_error r |}
        | [] =>
            match provenance with
            | Some (FileText content) => if provenance_from_str content then Ok (classify_slsa_evidence UnsignedLocalJson) else Err ProvenanceParse
            | Some FileUnreadable => Err ReadFailed
            | Some FileAbsent | None => Ok (classify_slsa_evidence EvidenceNone)
            end
        end
    end.

(** [file] is the content of the file, [None] when it cannot be read. *)
Definition calculate_hash (file : option (list Z)) : result rstr SlsaError :=
  let? bytes := ok_or file ReadFailed in Ok (hex_encode (sha256 bytes)).

Definition verify_hash (file : option (list Z)) (expected_hash : rstr) : result bool SlsaError :=
  let? actual_hash := calculate_hash file in Ok (eq_ignore_ascii_case actual_hash expected_hash).
End verifier.
