(* ===== verification/SlsaProofs.v ===== *)
(** Proofs about [Slsa]: the signed text determines the log entry, and an
    artifact is reported as verified exactly when a log entry attests it for
    the expected signer. *)

From S2P Require Import Prelude DebVersion DebResolver Deb822 Deb822Proofs Slsa.
Open Scope Z_scope.
Open Scope omg_scope.

(** * The signed text *)

Lemma cut_inj {A} (c : A) a b r s : (c ∉ a) -> (c ∉ b) -> a ++ c :: r = b ++ c :: s -> a = b /\ r = s.
Proof.
  revert b; induction a as [|x a IH]; intros [|y b] Ha Hb E; simpl in E.
  - by injection E.
  - injection E as -> _. by destruct Hb; left.
  - injection E as -> _. by destruct Ha; left.
  - apply not_elem_of_cons in Ha as [_ Ha], Hb as [_ Hb]. injection E as -> E. destruct (IH b Ha Hb E) as [-> ->]. done.
Qed.

Lemma byte_of_char c s : 0 <= c < 128 -> c ∈ s -> c ∈ as_bytes s.
Proof.
  intros Hc Hin. unfold as_bytes. apply list_elem_of_bind. exists c. split; [|done]. unfold encode_utf8.
  rewrite (proj2 (Z.ltb_lt c 128)) by lia. by left.
Qed.

Lemma forallb_char p c s : 0 <= c < 128 -> p c = false -> forallb p (as_bytes s) = true -> c ∉ s.
Proof.
  intros Hc Hp Hall Hin. apply (byte_of_char c s Hc) in Hin. rewrite forallb_forall in Hall.
  apply list_elem_of_In, Hall in Hin. congruence.
Qed.

Lemma to_string_inj n m : 0 <= n -> 0 <= m -> to_string n = to_string m -> n = m.
Proof. intros Hn Hm E. destruct (to_string_spec n Hn) as (_ & <- & _), (to_string_spec m Hm) as (_ & <- & _). by rewrite E. Qed.

Lemma set_payload_inj log_id1 log_id2 i1 i2 t1 t2 body1 body2 :
  (quote ∉ body1) -> (quote ∉ body2) -> (quote ∉ log_id1) -> (quote ∉ log_id2) -> 0 <= i1 -> 0 <= i2 -> 0 <= t1 -> 0 <= t2 ->
  set_payload log_id1 i1 t1 body1 = set_payload log_id2 i2 t2 body2 ->
  log_id1 = log_id2 /\ i1 = i2 /\ t1 = t2 /\ body1 = body2.
Proof.
  intros Hb1 Hb2 Hl1 Hl2 Hi1 Hi2 Ht1 Ht2 E. unfold set_payload in E.
  change (str "," ++ ?r) with (ch "," :: r) in E. change (str "}") with [ch "}"] in E.
  apply app_inv_head, (f_equal tail) in E. cbn [tail] in E. apply app_inv_head, (f_equal tail) in E. cbn [tail] in E.
  apply app_inv_head, (f_equal tail) in E. cbn [tail] in E.
  apply cut_inj in E as [-> E]; [|done..]. apply (f_equal tail) in E. cbn [tail] in E. apply (f_equal tail) in E. cbn [tail] in E.
  apply app_inv_head, (f_equal tail) in E. cbn [tail] in E. apply app_inv_head in E.
  apply cut_inj in E as [Et E]; [|by apply number_char..]. apply to_string_inj in Et as ->; [|done..].
  apply (f_equal tail) in E. cbn [tail] in E. apply app_inv_head, (f_equal tail) in E. cbn [tail] in E.
  apply app_inv_head, (f_equal tail) in E. cbn [tail] in E.
  apply cut_inj in E as [-> E]; [|done..]. apply (f_equal tail) in E. cbn [tail] in E. apply (f_equal tail) in E. cbn [tail] in E.
  apply app_inv_head, (f_equal tail) in E. cbn [tail] in E. apply app_inv_head in E.
  apply cut_inj in E as [Ei _]; [|by apply number_char..]. by apply to_string_inj in Ei as ->.
Qed.

(** No text stands for two log entries: the identifier of the log, the index,
    the time and the body can be read off what Rekor signs. *)
Theorem signed_text_determines_entry log_id1 log_id2 i1 i2 t1 t2 body1 body2 text :
  0 <= i1 -> 0 <= i2 -> 0 <= t1 -> 0 <= t2 ->
  canonical_set_payload log_id1 i1 t1 body1 = Some text -> canonical_set_payload log_id2 i2 t2 body2 = Some text ->
  log_id1 = log_id2 /\ i1 = i2 /\ t1 = t2 /\ body1 = body2.
Proof.
  intros Hi1 Hi2 Ht1 Ht2 E1 E2.
  assert (Hc : forall l i t b, canonical_set_payload l i t b = Some text ->
    (quote ∉ b) /\ (quote ∉ l) /\ text = set_payload l i t b).
  { unfold canonical_set_payload. intros l i t b E.
    destruct (_ || _); [done|]. destruct (forallb is_ascii_hexdigit (as_bytes l)) eqn:Hl; [|done].
    destruct (forallb is_base64_char (as_bytes b)) eqn:Hb; [|done]. simpl in E. injection E as <-.
    assert (0 <= quote < 128) by (unfold quote; lia).
    split_and!; [by apply (forallb_char is_base64_char)|by apply (forallb_char is_ascii_hexdigit)|done]. }
  destruct (Hc _ _ _ _ E1) as (? & ? & ->), (Hc _ _ _ _ E2) as (? & ? & E). by apply set_payload_inj.
Qed.

(** * Certificates *)

Section verified.
Context `{Sigstore}.

(** What the extensions of a certificate have to satisfy: no object
    identifier twice, each of them allowed in the role, and the critical ones
    supported. *)
Definition extensions_ok (ca_below : option Z) (es : list Extension) : Prop :=
  NoDup (map ext_oid es) /\
  Forall (fun e => exists supported, extension_permits ca_below (ext_parsed e) = Some supported /\ (ext_critical e = true -> supported = true)) es.

Lemma permit_extensions_spec ca_below seen es :
  permit_extensions ca_below seen es = true <-> extensions_ok ca_below es /\ (forall o, o ∈ map ext_oid es -> o ∉ seen).
Proof.
  revert seen; induction es as [|e es IH]; intros seen; cbn [permit_extensions map].
  - split; [|done]. intros _. split; [by repeat constructor|]. by intros o Ho%elem_of_nil.
  - case_bool_decide as Hin.
    { split; [done|]. intros [_ Hs]. by destruct (Hs (ext_oid e) ltac:(left)). }
    unfold extensions_ok. cbn [map]. rewrite NoDup_cons, Forall_cons.
    destruct (extension_permits ca_below (ext_parsed e)) as [supported|] eqn:Hp.
    2:{ split; [done|]. intros [[_ [(s & Hs & _) _]] _]. congruence. }
    destruct (ext_critical e && negb supported) eqn:Hc.
    { split; [done|]. intros [[_ [(s & [= <-] & Hcrit) _]] _]. apply andb_true_iff in Hc as [Hc Hn]. rewrite Hcrit in Hn; done. }
    rewrite IH. unfold extensions_ok. split.
    + intros [[Hnd Hall] Hseen]. split_and!; [|done| |done|].
      * intros Ho. by apply (Hseen _ Ho); left.
      * exists supported. split; [done|]. intros Hcrit. rewrite Hcrit in Hc. by destruct supported.
      * intros o [->|Ho]%elem_of_cons; [done|]. intros Hs. by apply (Hseen o Ho); right.
    + intros [[[Hn Hnd] [_ Hall]] Hseen]. split; [done|]. intros o Ho [->|Hs]%elem_of_cons; [done|].
      by apply (Hseen o); [right|].
Qed.

Lemma role_spec c ca_below : fulcio_extensions_permit_role c ca_below = true <-> extensions_ok ca_below (cert_extensions c).
Proof. unfold fulcio_extensions_permit_role. rewrite permit_extensions_spec. split; [by intros [? _]|]. intros Hok. split; [done|]. intros o _ Ho. by apply elem_of_nil in Ho. Qed.

(** A leaf that may sign code. *)
Definition may_sign_code (leaf : Certificate) : Prop :=
  extensions_ok None (cert_extensions leaf) /\
  exists e, e ∈ cert_extensions leaf /\ ext_parsed e = ExtendedKeyUsage true.

Lemma leaf_profile_spec es s :
  extensions_ok None es -> s.1 = false ->
  foldl leaf_profile s es = (false, s.2 || existsb (fun e => match ext_parsed e with ExtendedKeyUsage b => b | _ => false end) es).
Proof.
  intros [_ Hall]. revert s. induction Hall as [|e es (supported & Hp & _) _ IH]; intros s Hs; cbn [foldl existsb].
  - rewrite orb_false_r. destruct s. simpl in *. by subst.
  - assert (Hca : (leaf_profile s e).1 = false) by (unfold leaf_profile; destruct (ext_parsed e) as [[] []| | [] | | | |]; done).
    rewrite IH by done. f_equal. unfold leaf_profile. destruct (ext_parsed e) as [| |[]| | | |]; simpl; rewrite ?orb_true_r, ?orb_false_r; try done.
Qed.

(** [leaf] is signed by a pinned root, or by the pinned intermediate
    certificate and that by a root; the issuers are valid at the time. *)
Definition chains (leaf : Certificate) (at_ : Z) (roots : list rstr) (intermediate_pem : rstr) : Prop :=
  (exists root, root ∈ parse_roots roots /\ issued_by leaf root 0 at_ = true) \/
  (exists der intermediate root, decode_pem_body intermediate_pem (str "CERTIFICATE") = Some der /\ der ≠ [] /\
     x509_from_der der = Some intermediate /\ issued_by leaf intermediate 0 at_ = true /\
     root ∈ parse_roots roots /\ issued_by intermediate root 1 at_ = true).

Lemma existsb_elem {A} (f : A -> bool) l : existsb f l = true <-> exists x, x ∈ l /\ f x = true.
Proof. rewrite existsb_exists. split; intros (x & Hx & Hf); exists x; (split; [by apply list_elem_of_In|done]). Qed.

Definition log_time (t : Z) : Z := Z.min t (2 ^ 63 - 1).

Lemma verify_fulcio_chain_spec der t roots inter signer_id :
  verify_fulcio_chain der t roots inter = Some signer_id <->
  exists leaf, x509_from_der der = Some leaf /\ may_sign_code leaf /\ chains leaf (log_time t) roots inter
    /\ certificate_valid_at leaf (log_time t) = true /\ fulcio_signer_identity leaf = Some signer_id.
Proof.
  unfold verify_fulcio_chain. destruct (x509_from_der der) as [leaf|]; [|split; [done|by intros (? & ? & _)]]. cbn [mbind option_bind].
  destruct (fulcio_extensions_permit_role leaf None) eqn:Hrole; cbn [negb].
  2:{ split; [done|]. intros (l & [= <-] & [Hok _] & _). apply role_spec in Hok. congruence. }
  apply role_spec in Hrole. fold (log_time t).
  set (chained := if existsb _ _ then true else _).
  assert (Hch : chained = true <-> chains leaf (log_time t) roots inter).
  { unfold chained, chains. destruct (existsb (fun root => issued_by leaf root 0 (log_time t)) (parse_roots roots)) eqn:Hd.
    - apply existsb_elem in Hd. split; [by left|done].
    - apply not_true_iff_false in Hd. rewrite existsb_elem in Hd.
      destruct (decode_pem_body inter (str "CERTIFICATE")) as [ider|]; cbn [mbind option_bind].
      2:{ split; [done|]. intros [?|(? & ? & ? & ? & _)]; done. }
      case_bool_decide as Hnil; cbn [mbind option_bind].
      { split; [done|]. intros [?|(? & ? & ? & ? & ? & _)]; [done|]. by simplify_eq. }
      destruct (x509_from_der ider) as [intermediate|] eqn:Hx.
      + rewrite andb_true_iff, existsb_elem. split.
        * intros [Hi (root & Hr & Hir)]. right. by exists ider, intermediate, root.
        * intros [?|(d & i & root & ? & ? & ? & ? & ? & ?)]; [done|]. simplify_eq. split; [done|by exists root].
      + split; [done|]. intros [?|(d & i & root & ? & ? & ? & _)]; [done|]. congruence. }
  destruct chained; cbn [negb].
  2:{ split; [done|]. intros (l & [= <-] & _ & Hc & _). by apply Hch in Hc. }
  destruct (certificate_valid_at leaf (log_time t)) eqn:Hv; cbn [negb].
  2:{ split; [done|]. intros (l & [= <-] & _ & _ & Hc & _). congruence. }
  rewrite leaf_profile_spec by done. cbn [snd orb].
  destruct (existsb _ (cert_extensions leaf)) eqn:He; cbn [negb].
  - split; [|by intros (l & [= <-] & _ & _ & _ & ?)]. intros Hs. exists leaf. split_and!; [done|split; [done|]|by apply Hch|done|done].
    apply existsb_elem in He as (e & Hin & Hp). exists e. split; [done|]. destruct (ext_parsed e) as [| |[]| | | |]; done.
  - split; [done|]. intros (l & [= <-] & [_ (e & Hin & Hp)] & _). apply not_true_iff_false in He. exfalso. apply He, existsb_elem.
    exists e. by rewrite Hp.
Qed.

(** * Log entries *)

(** The body of an entry records the digest of an artifact, a signature and
    the text of a key. *)
Definition records (entry : RekorEntry) (artifact_hash : rstr) (signature : list Z) (pem : rstr) : Prop :=
  exists bytes json spec recorded signature64 pem64 pem_bytes,
    b64_decode (trim (body entry)) = Some bytes /\ json_from_slice bytes = Some json /\
    json_get (str "kind") json ≫= as_str = Some (str "hashedrekord") /\ json_get (str "spec") json = Some spec /\
    json_pointer [str "data"; str "hash"; str "value"] spec ≫= as_str = Some recorded /\
    eq_ignore_ascii_case recorded artifact_hash = true /\
    json_pointer [str "signature"; str "content"] spec ≫= as_str = Some signature64 /\
    json_pointer [str "signature"; str "publicKey"; str "content"] spec ≫= as_str = Some pem64 /\
    b64_decode (trim signature64) = Some signature /\ b64_decode (trim pem64) = Some pem_bytes /\ pem = trim (from_utf8_lossy pem_bytes).

(** The entry attests the artifact for a signer: the signature it records
    verifies with the key of a certificate that chains to the pinned roots,
    was valid when the log took the entry, may sign code and names the
    signer. *)
Definition attests (entry : RekorEntry) (artifact_hash : rstr) (artifact : list Z) (roots : list rstr) (inter signer : rstr) : Prop :=
  exists signature pem der leaf,
    records entry artifact_hash signature pem /\ contains (str "BEGIN CERTIFICATE") pem = true /\
    decode_pem_body pem (str "CERTIFICATE") = Some der /\ x509_from_der der = Some leaf /\ may_sign_code leaf /\
    chains leaf (log_time (integrated_time entry)) roots inter /\
    certificate_valid_at leaf (log_time (integrated_time entry)) = true /\ fulcio_signer_identity leaf = Some signer /\
    verify_digest_with_bytes (cert_spki leaf) artifact_hash artifact signature = true.

Ltac some_inv := res_inv; repeat match goal with E : ok_or _ _ = Ok _ |- _ => apply ok_or_Ok in E end.

Lemma verify_rekor_entry_sound entry hash bytes roots inter signer :
  verify_rekor_entry entry hash bytes roots inter = Ok (true, signer) ->
  exists signer_id, signer = Some signer_id /\ attests entry hash bytes roots inter signer_id.
Proof.
  unfold verify_rekor_entry, body_str. intros Hv. some_inv.
  case_bool_decide as Hkind; cbn [negb] in *; [|done]. some_inv.
  destruct (eq_ignore_ascii_case _ hash) eqn:Hhash; cbn [negb] in *; [|done]. some_inv.
  destruct (contains (str "BEGIN CERTIFICATE") _) eqn:Hpem; [|by res_inv].
  some_inv. destruct (verify_fulcio_chain _ _ _ _) as [signer_id|] eqn:Hchain; [|done].
  some_inv. apply verify_fulcio_chain_spec in Hchain as (leaf & Hleaf & ? & ? & ? & ?). simplify_eq.
  exists signer_id. split; [done|]. eexists _, _, _, leaf. split_and!; try done. eexists _, _, _, _, _, _, _. by split_and!.
Qed.

Lemma verify_rekor_entry_complete entry hash bytes roots inter signer_id :
  attests entry hash bytes roots inter signer_id -> verify_rekor_entry entry hash bytes roots inter = Ok (true, Some signer_id).
Proof.
  intros (signature & pem & der & leaf & Hrec & Hpem & Hder & Hleaf & Hcode & Hch & Hval & Hid & Hsig).
  destruct Hrec as (b & json & spec & recorded & s64 & p64 & pb & H1 & H2 & H3 & H4 & H5 & H6 & H7 & H8 & H9 & H10 & ->).
  assert (Hchain : verify_fulcio_chain der (integrated_time entry) roots inter = Some signer_id).
  { apply verify_fulcio_chain_spec. by exists leaf. }
  unfold verify_rekor_entry, body_str. rewrite H1. cbn [ok_or res_bind]. rewrite H2. cbn [ok_or res_bind].
  rewrite H3, bool_decide_true by done. cbn [negb]. rewrite H4. cbn [ok_or res_bind]. rewrite H5. cbn [ok_or res_bind].
  rewrite H6. cbn [negb]. rewrite H7. cbn [ok_or res_bind]. rewrite H8. cbn [ok_or res_bind]. rewrite H9. cbn [ok_or res_bind].
  rewrite H10. cbn [ok_or res_bind]. rewrite Hpem, Hder. cbn [ok_or res_bind]. rewrite Hchain, Hleaf. cbn [ok_or res_bind]. by rewrite Hsig.
Qed.

(** The log signed the entry with the pinned key. *)
Definition signed (server : Rekor) (entry : RekorEntry) : Prop :=
  exists status entry_map value log_id set_b64 set_bytes key text,
    retrieve_entry server (uuid entry) = Answered status (Some entry_map) /\ 200 <= status < 300 /\
    assoc (uuid entry) entry_map = Some value /\
    json_get (str "logIndex") value ≫= as_u64 = Some (log_index entry) /\
    json_get (str "integratedTime") value ≫= as_u64 = Some (integrated_time entry) /\
    json_get (str "body") value ≫= as_str = Some (body entry) /\ json_get (str "logID") value ≫= as_str = Some log_id /\
    json_pointer [str "verification"; str "signedEntryTimestamp"] value ≫= as_str = Some set_b64 /\
    b64_decode (trim set_b64) = Some set_bytes /\ rekor_key = Some key /\
    canonical_set_payload log_id (log_index entry) (integrated_time entry) (body entry) = Some text /\
    is_signature P256Sha256 set_bytes = true /\ verifies P256Sha256 key (as_bytes text) set_bytes = true.

Lemma required_u64_Ok value u field n : required_u64 value u field = Ok n -> json_get field value ≫= as_u64 = Some n.
Proof. unfold required_u64. destruct (json_get field value) as [v|]; [|done]. by rewrite ok_or_Ok. Qed.

Lemma get_rekor_entry_signed server u entry : get_rekor_entry server u = Ok entry -> uuid entry = u /\ signed server entry.
Proof.
  unfold get_rekor_entry. destruct (retrieve_entry server u) as [|status json] eqn:Hr; [done|]. intros He. res_inv.
  repeat match goal with E : map_err _ _ = Ok _ |- _ => apply map_err_Ok in E end. some_inv. unfold rekor_http_must_succeed in *.
  destruct ((200 <=? status) && (status <? 300)) eqn:Hs; [|done]. to_prop.
  unfold parse_rekor_entry, required_str in *. case_bool_decide; [done|]. some_inv. to_prop.
  repeat match goal with E : required_u64 _ _ _ = Ok _ |- _ => apply required_u64_Ok in E end. simpl. split; [done|]. unfold signed. simpl. subst.
  unfold verify_set_signature in *. to_prop. eexists _, _, _, _, _, _, _, _. split_and!; try done; lia.
Qed.

(** * The verdict *)

Abbreviation pinned := [FULCIO_ROOT_PEM; FULCIO_INTERMEDIATE_PEM] (only parsing).

Lemma first_verified_spec hash bytes signer_id es :
  match first_verified hash bytes (Some signer_id) es with
  | Some r => exists e, e ∈ es /\ attests e hash bytes pinned FULCIO_INTERMEDIATE_PEM signer_id /\ r = accepted e (Some signer_id)
  | None => forall e, e ∈ es -> ~ attests e hash bytes pinned FULCIO_INTERMEDIATE_PEM signer_id
  end.
Proof.
  induction es as [|e es IH]; cbn [first_verified]; [by intros e He%elem_of_nil|].
  assert (Hnext : ~ attests e hash bytes pinned FULCIO_INTERMEDIATE_PEM signer_id ->
    match first_verified hash bytes (Some signer_id) es with
    | Some r => exists e', e' ∈ e :: es /\ attests e' hash bytes pinned FULCIO_INTERMEDIATE_PEM signer_id /\ r = accepted e' (Some signer_id)
    | None => forall e', e' ∈ e :: es -> ~ attests e' hash bytes pinned FULCIO_INTERMEDIATE_PEM signer_id
    end).
  { intros Hno. destruct (first_verified hash bytes (Some signer_id) es) as [r|].
    - destruct IH as (e' & ? & ?). exists e'. split; [by right|done].
    - intros e' [->|He]%elem_of_cons; [done|by apply IH]. }
  destruct (verify_rekor_entry e hash bytes pinned FULCIO_INTERMEDIATE_PEM) as [[v signer]|err] eqn:Hv.
  2:{ apply Hnext. intros Ha%verify_rekor_entry_complete. congruence. }
  destruct v; cbn [andb].
  2:{ apply Hnext. intros Ha%verify_rekor_entry_complete. congruence. }
  rewrite bool_decide_true by done. cbn [andb]. case_bool_decide as Hs; cbn [negb].
  - exists e. apply verify_rekor_entry_sound in Hv as (i & -> & Ha). injection Hs as ->. split; [by left|done].
  - apply Hnext. intros Ha%verify_rekor_entry_complete. congruence.
Qed.

(** C4: an artifact is reported as verified exactly when the log answers with
    entries of which one attests it for the expected signer, which has to be
    named; every entry the log answers with, the attesting one included,
    carries a signature of the log over its index, time and body that the
    pinned key verifies, and one without it fails the whole verification. The
    report names the signer, and never claims a build level. *)
Theorem provenance_verified_iff_attested server artifact provenance signer_id :
  let hash := hex_encode (sha256 artifact) in
  ((exists r, verify_provenance server (Some artifact) provenance (Some signer_id) = Ok r /\ verified r = true) <->
   trim signer_id ≠ [] /\ exists entries e, query_rekor server hash = Ok entries /\ e ∈ entries /\
     attests e hash artifact pinned FULCIO_INTERMEDIATE_PEM signer_id) /\
  (forall entries e, query_rekor server hash = Ok entries -> e ∈ entries -> signed server e) /\
  (forall r, verify_provenance server (Some artifact) provenance (Some signer_id) = Ok r ->
     slsa_level r = LevelNone /\ (verified r = true -> builder_id r = Some signer_id)).
Proof.
  intros hash. unfold verify_provenance. cbn [ok_or res_bind]. fold hash. split_and!.
  - unfold str_eqb. case_bool_decide as Hid; [split; [by intros (r & ? & _)|by intros [? _]]|].
    destruct (query_rekor server hash) as [entries|err]; cbn [res_bind]; [|split; [by intros (r & ? & _)|by intros (_ & es & e & ? & _)]].
    pose proof (first_verified_spec hash artifact signer_id entries) as Hf.
    destruct (first_verified hash artifact (Some signer_id) entries) as [r|].
    + destruct Hf as (e & He & Ha & ->). split; [|intros _; by exists (accepted e (Some signer_id))]. intros _. split; [done|]. by exists entries, e.
    + split; [|intros (_ & es & e & [= <-] & He & Ha); by destruct (Hf e He)].
      intros (r & Hr & Hv). exfalso. repeat case_match; simplify_eq/=; done.
  - intros entries e Hq He. unfold query_rekor in Hq. destruct (retrieve_index _ _) as [|status json]; [done|]. res_inv.
    destruct (proj1 (try_map_elem _ _ _ Hq) e He) as (u & _ & Hu).
    by apply get_rekor_entry_signed in Hu as [_ ?].
  - unfold str_eqb. case_bool_decide as Hid; [done|]. intros r Hr. res_inv.
    pose proof (first_verified_spec hash artifact signer_id a) as Hf.
    destruct (first_verified hash artifact (Some signer_id) a) as [r'|].
    + destruct Hf as (e & _ & _ & ->). by simplify_eq.
    + repeat case_match; simplify_eq/=; done.
Qed.
End verified.

(** * A concrete verification *)

(** A toy scheme in which a signature is the key followed by the message;
    encodings are the identity. *)
Definition toy_root : Certificate :=
  {| cert_issuer := str "root"; cert_subject := str "root"; cert_spki := str "K0"; cert_tbs := str "root"; cert_signature := [];
     cert_algorithm := []; not_before := 0; not_after := 100;
     cert_extensions := [{| ext_oid := str "bc"; ext_critical := true; ext_parsed := BasicConstraints true (Some 0) |}] |}.

Definition toy_leaf (purpose : ParsedExtension) : Certificate :=
  {| cert_issuer := str "root"; cert_subject := []; cert_spki := str "K1"; cert_tbs := str "leaf"; cert_signature := str "K0leaf";
     cert_algorithm := str "1.2.840.10045.4.3.2"; not_before := 10; not_after := 20;
     cert_extensions :=
       [{| ext_oid := str "eku"; ext_critical := false; ext_parsed := purpose |};
        {| ext_oid := str "san"; ext_critical := true; ext_parsed := SubjectAlternativeName [OtherName; URI (str "ci"); RFC822Name (str "dev@example.org")] |}] |}.

Definition toy_pem : rstr := str "-----BEGIN CERTIFICATE-----" ++ [NL] ++ str "leaf" ++ [NL] ++ str "-----END CERTIFICATE-----".

Definition toy_body : Json :=
  JObject [(str "kind", JString (str "hashedrekord"));
           (str "spec", JObject [(str "data", JObject [(str "hash", JObject [(str "value", JString (str "BLOB"))])]);
                                 (str "signature", JObject [(str "content", JString (str "K1blob"));
                                                            (str "publicKey", JObject [(str "content", JString toy_pem)])])])].

Definition toy_sigstore (purpose : ParsedExtension) : Sigstore :=
  {| b64_decode s := Some s; json_from_slice b := if str_eqb b (str "entry") then Some toy_body else None;
     provenance_from_str _ := true; from_utf8_lossy b := b;
     x509_from_der der := if str_eqb der (str "leaf") then Some (toy_leaf purpose) else if str_eqb der (str "root") then Some toy_root else None;
     sha256 b := b; hex_encode b := b; hex_decode32 s := Some s;
     is_key s _ := match s with P256Sha256 => true | _ => false end; is_signature _ _ := true;
     verifies _ key message signature := str_eqb signature (key ++ message);
     rsa_verifies_prehash _ _ _ := false; rekor_key := Some (str "LOG"); FULCIO_ROOT_PEM := str "root"; FULCIO_INTERMEDIATE_PEM := [] |}.

(** The log takes the entry at time [t] and signs it at time 15. *)
Definition toy_server (t : Z) : Rekor :=
  {| retrieve_index _ := Answered 200 (Some [str "u"]);
     retrieve_entry _ := Answered 200 (Some [(str "u",
       JObject [(str "logIndex", JNumber (Some 7)); (str "integratedTime", JNumber (Some t)); (str "body", JString (str "entry"));
                (str "logID", JString (str "c0de"));
                (str "verification", JObject [(str "signedEntryTimestamp", JString (str "LOG" ++ set_payload (str "c0de") 7 15 (str "entry")))])])]) |}.

Definition toy_verdict (purpose : ParsedExtension) (t : Z) (signer : string) : option (bool * option rstr) :=
  match verify_provenance (H := toy_sigstore purpose) (toy_server t) (Some (str "blob")) None (Some (str signer)) with
  | Ok r => Some (verified r, builder_id r)
  | Err _ => None
  end.

(** The artifact is verified for its signer and for nobody else, not with a
    certificate for another purpose, and not when the time of the entry is
    changed after the log signed it. *)
Lemma toy_artifact_is_verified :
  toy_verdict (ExtendedKeyUsage true) 15 "dev@example.org" = Some (true, Some (str "dev@example.org")) /\
  toy_verdict (ExtendedKeyUsage true) 15 "ci" = Some (false, None) /\
  toy_verdict OtherExtension 15 "dev@example.org" = Some (false, None) /\
  toy_verdict (ExtendedKeyUsage true) 16 "dev@example.org" = None.
Proof. split_and!; vm_compute; reflexivity. Qed.

Lemma signed_text_determines_entry_witness :
  exists text, canonical_set_payload (str "c0de") 7 15 (str "entry") = Some text /\
    forall t, 0 <= t -> canonical_set_payload (str "c0de") 7 t (str "entry") = Some text -> t = 15.
Proof.
  eexists. split; [reflexivity|]. intros t Ht E.
  edestruct (signed_text_determines_entry (str "c0de") (str "c0de") 7 7 t 15 (str "entry") (str "entry")) as (_ & _ & -> & _); [lia..|exact E| |done].
  reflexivity.
Defined.
