(* ===== verification/Pkgbuild.v ===== *)
(** The PKGBUILD metadata parser: src/src/package_managers/pkgbuild.rs.

    Comments, function bodies and multi-line arrays of the first pass over
    the lines, the trie that finds the next variable to expand, the expansion
    with its size budget and the parser of array values. The version parser
    of the backend and the iteration order of a hash map are parameters; an
    index that would be out of range is the value [Panic]. *)

From S2P Require Import Prelude.
Open Scope Z_scope.
Open Scope omg_scope.

Definition MAX_PKGBUILD_BYTES : Z := 1024 * 1024.
Definition MAX_SUBSTITUTED_VALUE_BYTES : Z := 1024 * 1024.

Inductive PkgbuildError :=
| OpenFailed
| NotRegularFile
| FileTooLarge
| ReadFailed
| InvalidUtf8
| BraceDepthOverflow
| UnexpectedClosingBrace
| MissingOpeningBrace
| UnexpectedClosingParenthesis
| UnterminatedArray (key : rstr)
| UnterminatedFunction
| ExpandsBeyond (key : rstr)
| NotEnclosed
| UnterminatedQuote
| UnterminatedEscape
| UnparseableVersion (raw : rstr)
| Panic.

(** * Reading the file *)

(** What [open] with [O_NOFOLLOW] yields: the metadata of the opened file and
    the bytes that reading it to its end gives, [None] when a read within the
    limit fails. *)
Record OpenedFile := {
  is_file : bool;
  metadata_len : Z;
  file_bytes : option (list Z)
}.

Definition safe_read_file (opened : option OpenedFile) : result rstr PkgbuildError :=
  let? file := ok_or opened OpenFailed in
  ensure (is_file file) NotRegularFile ;?
  ensure (metadata_len file <=? MAX_PKGBUILD_BYTES) FileTooLarge ;?
  let? all := ok_or (file_bytes file) ReadFailed in
  let bytes := take (Z.to_nat (MAX_PKGBUILD_BYTES + 1)) all in
  ensure (Z.of_nat (length bytes) <=? MAX_PKGBUILD_BYTES) FileTooLarge ;?
  ok_or (decode_utf8 bytes) InvalidUtf8.

(** * Scanning a line *)

Definition SQUOTE : char := 39.
Definition DQUOTE : char := 34.

Definition is_quote (c : char) : bool := (c =? SQUOTE) || (c =? DQUOTE).

(** A backslash that escapes the next character. *)
Definition is_escape (quote : option char) (c : char) : bool := (c =? ch "\") && negb (bool_decide (quote = Some SQUOTE)).

Fixpoint strip_comment_from (previous quote : option char) (escaped : bool) (line : rstr) : rstr :=
  match line with
  | [] => []
  | c :: line =>
      if escaped then c :: strip_comment_from (Some c) quote false line
      else if is_escape quote c then c :: strip_comment_from (Some c) quote true line
      else match quote with
           | Some delimiter => c :: strip_comment_from (Some c) (if c =? delimiter then None else quote) false line
           | None =>
               if is_quote c then c :: strip_comment_from (Some c) (Some c) false line
               else if (c =? ch "#") && match previous with None => true | Some p => is_whitespace p end then []
               else c :: strip_comment_from (Some c) None false line
           end
  end.

Definition strip_inline_comment (line : rstr) : rstr := strip_comment_from None None false line.

Definition is_shell_identifier (value : rstr) : bool :=
  match value with
  | [] => false
  | c :: rest =>
      ((c =? ch "_") || is_ascii_alphabetic c) &&
      forallb (fun c => (c =? ch "_") || is_ascii_alphanumeric c) rest
  end.

Definition function_declaration (line : rstr) : bool :=
  let line := trim (strip_inline_comment line) in
  match strip_prefix (str "function ") line with
  | Some rest =>
      is_shell_identifier (span_not (fun c => is_whitespace c || (c =? ch "(") || (c =? ch "{")) rest).1
  | None =>
      match split_once (ch "(") line with
      | None => false
      | Some (name, rest) =>
          is_shell_identifier (trim name) && starts_with [ch ")"] (trim_start_matches is_whitespace rest)
      end
  end.

Fixpoint braces_from (quote : option char) (escaped : bool) (counts : Z * Z) (line : rstr) : Z * Z :=
  match line with
  | [] => counts
  | c :: line =>
      if escaped then braces_from quote false counts line
      else if is_escape quote c then braces_from quote true counts line
      else match quote with
           | Some delimiter => braces_from (if c =? delimiter then None else quote) false counts line
           | None =>
               if is_quote c then braces_from (Some c) false counts line
               else if c =? ch "{" then braces_from None false (counts.1 + 1, counts.2) line
               else if c =? ch "}" then braces_from None false (counts.1, counts.2 + 1) line
               else braces_from None false counts line
           end
  end.

Definition unquoted_braces (line : rstr) : Z * Z := braces_from None false (0, 0) (strip_inline_comment line).

(** * Arrays that span lines *)

Record ArrayCompletion := {
  quote : option char;
  escaped : bool;
  depth : Z
}.

Definition default_completion : ArrayCompletion := {| quote := None; escaped := false; depth := 0 |}.

Fixpoint scan (self : ArrayCompletion) (value : rstr) : result (ArrayCompletion * bool) PkgbuildError :=
  match value with
  | [] => Ok (self, false)
  | c :: value =>
      if escaped self then scan {| quote := quote self; escaped := false; depth := depth self |} value
      else if is_escape (quote self) c then scan {| quote := quote self; escaped := true; depth := depth self |} value
      else match quote self with
           | Some delimiter =>
               scan {| quote := if c =? delimiter then None else quote self; escaped := false; depth := depth self |} value
           | None =>
               if is_quote c then scan {| quote := Some c; escaped := false; depth := depth self |} value
               else if c =? ch "(" then
                 scan {| quote := None; escaped := false; depth := Z.min (depth self + 1) u32_max |} value
               else if c =? ch ")" then
                 ensure (0 <? depth self) UnexpectedClosingParenthesis ;?
                 (let self := {| quote := None; escaped := false; depth := depth self - 1 |} in
                  if depth self =? 0 then Ok (self, true) else scan self value)
               else scan self value
           end
  end.

(** * The first pass over the lines *)

(** An array whose closing parenthesis has not been read. *)
Record OpenArray := {
  array_key : rstr;
  array_content : rstr;
  completion : ArrayCompletion
}.

Record Pass := {
  vars : gmap rstr rstr;
  function_depth : Z;
  awaiting_function_body : bool;
  open_array : option OpenArray
}.

Definition first_state : Pass := {| vars := ∅; function_depth := 0; awaiting_function_body := false; open_array := None |}.

Definition set_function (s : Pass) (depth : Z) (awaiting : bool) : Pass :=
  {| vars := vars s; function_depth := depth; awaiting_function_body := awaiting; open_array := open_array s |}.

Definition insert_var (s : Pass) (key value : rstr) : Pass :=
  {| vars := <[key := value]> (vars s); function_depth := function_depth s;
     awaiting_function_body := awaiting_function_body s; open_array := None |}.

(** A body that may continue on the next lines. *)
Definition function_line (s : Pass) (line : rstr) : result Pass PkgbuildError :=
  let '(opens, closes) := unquoted_braces line in
  ensure (function_depth s + opens <=? u32_max) BraceDepthOverflow ;?
  (let depth := function_depth s + opens in
   ensure (closes <=? depth) UnexpectedClosingBrace ;?
   Ok (set_function s (depth - closes) (awaiting_function_body s))).

Definition body_line (s : Pass) (line : rstr) : result Pass PkgbuildError :=
  let '(opens, closes) := unquoted_braces line in
  ensure (0 <? opens) MissingOpeningBrace ;?
  ensure (closes <=? opens) UnexpectedClosingBrace ;?
  Ok (set_function s (opens - closes) false).

Definition declaration_line (s : Pass) (line : rstr) : result Pass PkgbuildError :=
  let '(opens, closes) := unquoted_braces line in
  ensure (closes <=? opens) UnexpectedClosingBrace ;?
  Ok (if opens =? 0 then set_function s (function_depth s) true
      else set_function s (opens - closes) (awaiting_function_body s)).

Definition is_key_char (c : char) : bool := is_ascii_lowercase c || is_ascii_digit c || (c =? ch "_").

(** [s.trim_matches(c)]. *)
Definition trim_char (c : char) (s : rstr) : rstr :=
  rev (trim_start_matches (Z.eqb c) (rev (trim_start_matches (Z.eqb c) s))).

(** The array is stored once its closing parenthesis has been read. *)
Definition continue_array (s : Pass) (a : OpenArray) (complete : bool) : Pass :=
  if complete then insert_var s (array_key a) (array_content a)
  else {| vars := vars s; function_depth := function_depth s; awaiting_function_body := awaiting_function_body s;
          open_array := Some a |}.

Definition assignment_line (s : Pass) (line : rstr) : result Pass PkgbuildError :=
  match split_once (ch "=") line with
  | None => Ok s
  | Some (key, val) =>
      let key := trim key in
      let val := trim (strip_inline_comment val) in
      if negb (forallb is_key_char key) then Ok s
      else if starts_with [ch "("] val then
        let? (completion, complete) := scan default_completion val in
        Ok (continue_array s {| array_key := key; array_content := val; completion := completion |} complete)
      else Ok (insert_var s key (trim_char SQUOTE (trim_char DQUOTE val)))
  end.

Definition statement_line (s : Pass) (line : rstr) : result Pass PkgbuildError :=
  let line := trim line in
  if match line with [] => true | _ => false end || starts_with [ch "#"] line then Ok s
  else if 0 <? function_depth s then function_line s line
  else if awaiting_function_body s then body_line s line
  else if function_declaration line then declaration_line s line
  else assignment_line s line.

(** One more line of an open array. *)
Definition array_line (s : Pass) (a : OpenArray) (next_line : rstr) : result Pass PkgbuildError :=
  let added := ch " " :: strip_inline_comment next_line in
  let? (completion, complete) := scan (completion a) added in
  Ok (continue_array s
        {| array_key := array_key a; array_content := array_content a ++ added; completion := completion |} complete).

Definition pass_line (s : Pass) (line : rstr) : result Pass PkgbuildError :=
  match open_array s with
  | Some a => array_line s a line
  | None => statement_line s line
  end.

Definition first_pass (content : rstr) : result (gmap rstr rstr) PkgbuildError :=
  let? s := for_each pass_line first_state (byte_lines content) in
  match open_array s with
  | Some a => Err (UnterminatedArray (array_key a))
  | None =>
      ensure ((function_depth s =? 0) && negb (awaiting_function_body s)) UnterminatedFunction ;?
      Ok (vars s)
  end.

(** * The index of the variables *)

Record SubstitutionNode := {
  children : gmap Z nat;
  index : option nat
}.

Definition default_node : SubstitutionNode := {| children := ∅; index := None |}.

Definition add_child (node : SubstitutionNode) (byte : Z) (child : nat) : SubstitutionNode :=
  {| children := <[byte := child]> (children node); index := index node |}.

Definition set_index (node : SubstitutionNode) (i : nat) : SubstitutionNode :=
  {| children := children node; index := Some i |}.

(** Entering one key; [None] is an index out of range. *)
Fixpoint insert_key (nodes : list SubstitutionNode) (node : nat) (key : list Z) (i : nat) : option (list SubstitutionNode) :=
  n ← nodes !! node;
  match key with
  | [] => Some (<[node := set_index n i]> nodes)
  | byte :: key =>
      match children n !! byte with
      | Some child => insert_key nodes child key i
      | None =>
          let child := length nodes in
          insert_key (<[node := add_child n byte child]> (nodes ++ [default_node])) child key i
      end
  end.

Fixpoint insert_keys (nodes : list SubstitutionNode) (i : nat) (keys : list rstr) : option (list SubstitutionNode) :=
  match keys with
  | [] => Some nodes
  | key :: keys => nodes ← insert_key nodes 0 (as_bytes key) i; insert_keys nodes (S i) keys
  end.

Definition new_index (substitutions : list (rstr * rstr)) : option (list SubstitutionNode) :=
  insert_keys [default_node] 0 substitutions.*1.

(** [next.map_or(index, |previous| previous.min(index))]. *)
Definition keep_least (next : option nat) (i : nat) : option nat :=
  Some match next with None => i | Some previous => Nat.min previous i end.

(** The loop that follows one reference through the trie. *)
Fixpoint follow_reference (nodes : list SubstitutionNode) (minimum : nat) (braced : bool) (node : nat) (next : option nat)
    (tail : list Z) : option (option nat) :=
  n ← nodes !! node;
  let next :=
    match index n with
    | Some i =>
        if bool_decide (minimum <= i)%nat && (negb braced || bool_decide (head tail = Some (ch "}")))
        then keep_least next i else next
    | None => next
    end in
  match tail with
  | [] => Some next
  | byte :: tail =>
      match children n !! byte with
      | None => Some next
      | Some child => follow_reference nodes minimum braced child next tail
      end
  end.

(** One occurrence of the dollar sign, with the bytes that follow it. *)
Definition scan_reference (nodes : list SubstitutionNode) (minimum : nat) (next : option nat) (tail : list Z)
    : option (option nat) :=
  root ← nodes !! 0%nat;
  let next :=
    match index root with
    | Some i => if bool_decide (minimum <= i)%nat then keep_least next i else next
    | None => next
    end in
  match tail with
  | byte :: rest =>
      if byte =? ch "{" then follow_reference nodes minimum true 0 next rest
      else follow_reference nodes minimum false 0 next tail
  | [] => follow_reference nodes minimum false 0 next tail
  end.

Fixpoint next_from (nodes : list SubstitutionNode) (minimum : nat) (next : option nat) (value : rstr)
    : option (option nat) :=
  match value with
  | [] => Some next
  | c :: value =>
      if c =? ch "$" then next ← scan_reference nodes minimum next (as_bytes value); next_from nodes minimum next value
      else next_from nodes minimum next value
  end.

Definition next (nodes : list SubstitutionNode) (value : rstr) (minimum : nat) : option (option nat) :=
  next_from nodes minimum None value.

(** * Expansion *)

Definition bare_reference (key : rstr) : rstr := ch "$" :: key.
Definition braced_reference (key : rstr) : rstr := ch "$" :: ch "{" :: key ++ [ch "}"].

(** One replacement pass with its budget. *)
Definition expand_pass (result : rstr) (substitution : rstr * rstr) : Prelude.result rstr PkgbuildError :=
  let '(key, value) := substitution in
  let result := replace (bare_reference key) value result in
  let result := replace (braced_reference key) value result in
  ensure (str_len result <=? MAX_SUBSTITUTED_VALUE_BYTES) (ExpandsBeyond key) ;? Ok result.

(** The loop of [substitute]; every round raises [minimum], so that as many
    rounds as there are substitutions are enough. *)
Fixpoint substitute_from (substitutions : list (rstr * rstr)) (nodes : list SubstitutionNode) (fuel minimum : nat)
    (result : rstr) : Prelude.result rstr PkgbuildError :=
  match fuel with
  | O => Ok result
  | S fuel =>
      if bool_decide (minimum < length substitutions)%nat then
        let? index :=
          if MAX_SUBSTITUTED_VALUE_BYTES <? str_len result then Ok (Some minimum)
          else ok_or (next nodes result minimum) Panic in
        match index with
        | None => Ok result
        | Some index =>
            let? substitution := ok_or (substitutions !! index) Panic in
            let? result := expand_pass result substitution in
            substitute_from substitutions nodes fuel (S index) result
        end
      else Ok result
  end.

Definition substitute (substitutions : list (rstr * rstr)) (nodes : list SubstitutionNode) (val : rstr)
    : result rstr PkgbuildError :=
  substitute_from substitutions nodes (length substitutions) 0 val.

(** Longest key first. *)
Definition longest_first (a b : rstr * rstr) : comparison := Z.compare (str_len b.1) (str_len a.1).

(** * Array values *)

Record ArrayScan := {
  items : list rstr;
  token : rstr;
  token_started : bool;
  array_quote : option char;
  array_escaped : bool
}.

Definition array_start : ArrayScan :=
  {| items := []; token := []; token_started := false; array_quote := None; array_escaped := false |}.

Definition array_char (s : ArrayScan) (c : char) : ArrayScan :=
  if array_escaped s then
    {| items := items s; token := token s ++ [c]; token_started := true; array_quote := array_quote s;
       array_escaped := false |}
  else if is_escape (array_quote s) c then
    {| items := items s; token := token s; token_started := true; array_quote := array_quote s; array_escaped := true |}
  else match array_quote s with
       | Some delimiter =>
           if c =? delimiter then
             {| items := items s; token := token s; token_started := token_started s; array_quote := None;
                array_escaped := false |}
           else
             {| items := items s; token := token s ++ [c]; token_started := token_started s;
                array_quote := Some delimiter; array_escaped := false |}
       | None =>
           if is_quote c then
             {| items := items s; token := token s; token_started := true; array_quote := Some c; array_escaped := false |}
           else if is_whitespace c then
             (if token_started s then
                {| items := items s ++ [token s]; token := []; token_started := false; array_quote := None;
                   array_escaped := false |}
              else s)
           else
             {| items := items s; token := token s ++ [c]; token_started := true; array_quote := None;
                array_escaped := false |}
       end.

(** [lines.join(" ")]. *)
Fixpoint join_space (l : list rstr) : rstr :=
  match l with
  | [] => []
  | [s] => s
  | s :: l => s ++ ch " " :: join_space l
  end.

Definition parse_array (value : rstr) : result (list rstr) PkgbuildError :=
  let cleaned := join_space (map strip_inline_comment (byte_lines value)) in
  let trimmed := trim cleaned in
  let? inner := ok_or (strip_prefix [ch "("] trimmed ≫= strip_suffix [ch ")"]) NotEnclosed in
  let s := foldl array_char array_start inner in
  ensure (match array_quote s with None => true | Some _ => false end) UnterminatedQuote ;?
  ensure (negb (array_escaped s)) UnterminatedEscape ;?
  Ok (if token_started s then items s ++ [token s] else items s).

(** * The whole parser *)

Section parser.
(** [parse_version] and [zero_version] of the backend; [iter] is the order in
    which a hash map yields its entries. *)
Context {Version : Type} (parse_version : rstr -> option Version) (zero_version : Version).
Context (iter : gmap rstr rstr -> list (rstr * rstr)).

Record PkgBuild := {
  name : rstr;
  version : Version;
  release : rstr;
  description : rstr;
  url : rstr;
  license : list rstr;
  depends : list rstr;
  makedepends : list rstr;
  checkdepends : list rstr;
  sources : list rstr;
  sha256sums : list rstr;
  validpgpkeys : list rstr
}.

Definition scalar (substitute : rstr -> result rstr PkgbuildError) (vars : gmap rstr rstr) (key : rstr)
    : result rstr PkgbuildError :=
  match vars !! key with None => Ok [] | Some value => substitute value end.

Definition array (substitute : rstr -> result rstr PkgbuildError) (vars : gmap rstr rstr) (key : rstr)
    : result (list rstr) PkgbuildError :=
  match vars !! key with None => Ok [] | Some value => let? value := substitute value in parse_array value end.

Definition pkgver (substitute : rstr -> result rstr PkgbuildError) (vars : gmap rstr rstr) : result Version PkgbuildError :=
  match vars !! str "pkgver" with
  | None => Ok zero_version
  | Some v => let? raw := substitute v in ok_or (parse_version raw) (UnparseableVersion raw)
  end.

Definition metadata (substitute : rstr -> result rstr PkgbuildError) (vars : gmap rstr rstr) : result PkgBuild PkgbuildError :=
  let? name := scalar substitute vars (str "pkgname") in
  let? version := pkgver substitute vars in
  let? release := scalar substitute vars (str "pkgrel") in
  let? description := scalar substitute vars (str "pkgdesc") in
  let? url := scalar substitute vars (str "url") in
  let? license := array substitute vars (str "license") in
  let? depends := array substitute vars (str "depends") in
  let? makedepends := array substitute vars (str "makedepends") in
  let? checkdepends := array substitute vars (str "checkdepends") in
  let? sources := array substitute vars (str "source") in
  let? sha256sums := array substitute vars (str "sha256sums") in
  let? validpgpkeys := array substitute vars (str "validpgpkeys") in
  Ok {| name := name; version := version; release := release; description := description; url := url;
        license := license; depends := depends; makedepends := makedepends; checkdepends := checkdepends;
        sources := sources; sha256sums := sha256sums; validpgpkeys := validpgpkeys |}.

Definition sorted_substitutions (vars : gmap rstr rstr) : list (rstr * rstr) := sort_by longest_first (iter vars).

Definition parse_content (content : rstr) : result PkgBuild PkgbuildError :=
  let? vars := first_pass content in
  let substitutions := sorted_substitutions vars in
  let? nodes := ok_or (new_index substitutions) Panic in
  metadata (substitute substitutions nodes) vars.

Definition parse (opened : option OpenedFile) : result PkgBuild PkgbuildError :=
  let? content := safe_read_file opened in parse_content content.
End parser.
