(* ===== verification/PkgbuildProofs.v ===== *)
(** Theorems on the PKGBUILD parser: the trie finds the next variable that
    occurs, so that the indexed expansion is the one that runs every
    replacement pass in order; function bodies leave the metadata alone;
    printed metadata is read back; every field is within the budget. *)

From S2P Require Import Prelude Pkgbuild.
Open Scope Z_scope.
Open Scope omg_scope.

(** * The trie *)

(** The node that a byte string leads to, and the index stored there. *)
Fixpoint reach (nodes : list SubstitutionNode) (node : nat) (bs : list Z) : option nat :=
  match bs with
  | [] => Some node
  | b :: bs => n ← nodes !! node; child ← children n !! b; reach nodes child bs
  end.

Definition find (nodes : list SubstitutionNode) (bs : list Z) : option nat :=
  m ← reach nodes 0 bs; n ← nodes !! m; index n.

(** Every node has the byte string that leads to it as its label. *)
Definition labelled (nodes : list SubstitutionNode) (labels : list (list Z)) : Prop :=
  length labels = length nodes /\ labels !! 0%nat = Some [] /\
  forall m n c k, nodes !! m = Some n -> children n !! c = Some k ->
    exists l, labels !! m = Some l /\ labels !! k = Some (l ++ [c]).

Lemma reach_app nodes m a b : reach nodes m (a ++ b) = reach nodes m a ≫= fun k => reach nodes k b.
Proof.
  revert m. induction a as [|c a IH]; intros m; simpl; [done|].
  destruct (nodes !! m) as [n|]; simpl; [|done]. destruct (children n !! c) as [k|]; simpl; [apply IH|done].
Qed.

Section labels.
Context (nodes : list SubstitutionNode) (labels : list (list Z)) (Hw : labelled nodes labels).

Lemma reach_label m l bs k : labels !! m = Some l -> reach nodes m bs = Some k -> labels !! k = Some (l ++ bs).
Proof.
  destruct Hw as (_ & _ & He). revert m l. induction bs as [|b bs IH]; intros m l Hl; simpl.
  - intros [= <-]. by rewrite app_nil_r.
  - destruct (nodes !! m) as [n|] eqn:Hn; simpl; [|done]. destruct (children n !! b) as [c|] eqn:Hc; simpl; [|done].
    intros H. destruct (He _ _ _ _ Hn Hc) as (l' & Hl' & Hk). simplify_eq.
    rewrite (IH _ _ Hk H). by rewrite <- app_assoc.
Qed.

Lemma reach_root bs k : reach nodes 0 bs = Some k -> labels !! k = Some bs.
Proof. intros H. apply (reach_label 0 [] bs k); [apply Hw|done]. Qed.

Lemma reach_inj a b k : reach nodes 0 a = Some k -> reach nodes 0 b = Some k -> a = b.
Proof. intros Ha%reach_root Hb%reach_root. congruence. Qed.

Lemma label_node k l : labels !! k = Some l -> exists n, nodes !! k = Some n.
Proof. intros H%lookup_lt_Some. apply lookup_lt_is_Some. destruct Hw as (<- & _). done. Qed.

Lemma reach_node bs k : reach nodes 0 bs = Some k -> exists n, nodes !! k = Some n.
Proof. intros H%reach_root. by eapply label_node. Qed.
End labels.

(** ** Storing an index at the end of a key *)

Lemma reach_set_index nodes node n i m bs : nodes !! node = Some n ->
  reach (<[node := set_index n i]> nodes) m bs = reach nodes m bs.
Proof.
  intros Hn. assert (Hlt := lookup_lt_Some _ _ _ Hn). revert m. induction bs as [|b bs IH]; intros m; simpl; [done|].
  destruct (decide (m = node)) as [->|Hne].
  - rewrite list_lookup_insert_eq, Hn by done. simpl. destruct (children n !! b); simpl; [apply IH|done].
  - rewrite list_lookup_insert_ne by done. destruct (nodes !! m) as [n'|]; simpl; [|done].
    destruct (children n' !! b); simpl; [apply IH|done].
Qed.

Lemma set_index_spec nodes labels node n i l :
  labelled nodes labels -> nodes !! node = Some n -> reach nodes 0 l = Some node ->
  labelled (<[node := set_index n i]> nodes) labels /\
  forall bs, find (<[node := set_index n i]> nodes) bs = if decide (bs = l) then Some i else find nodes bs.
Proof.
  intros Hw Hn Hl. assert (Hlt := lookup_lt_Some _ _ _ Hn). split.
  - destruct Hw as (Hlen & H0 & He). split; [by rewrite length_insert|]. split; [done|]. intros m n' c k Hm Hc.
    destruct (decide (m = node)) as [->|Hne].
    + rewrite list_lookup_insert_eq in Hm by done. injection Hm as <-. by apply (He _ n).
    + rewrite list_lookup_insert_ne in Hm by done. by apply (He _ n').
  - intros bs. unfold find. rewrite reach_set_index by done. case_decide as Hbs.
    + subst bs. rewrite Hl. simpl. by rewrite list_lookup_insert_eq.
    + destruct (reach nodes 0 bs) as [m|] eqn:Hm; simpl; [|done].
      rewrite list_lookup_insert_ne; [done|]. intros ->. apply Hbs. by eapply reach_inj.
Qed.

(** ** Adding a child *)

Section child.
Context (nodes : list SubstitutionNode) (labels : list (list Z)) (Hw : labelled nodes labels).
Context (node : nat) (n : SubstitutionNode) (l : list Z) (b : Z).
Context (Hn : nodes !! node = Some n) (Hl : reach nodes 0 l = Some node) (Hb : children n !! b = None).

Definition grown : list SubstitutionNode := <[node := add_child n b (length nodes)]> (nodes ++ [default_node]).

Lemma grown_node : grown !! node = Some (add_child n b (length nodes)).
Proof. apply list_lookup_insert_eq. rewrite length_app. apply lookup_lt_Some in Hn. lia. Qed.

Lemma grown_other m : m ≠ node -> (m < length nodes)%nat -> grown !! m = nodes !! m.
Proof. intros Hm Hlt. unfold grown. rewrite list_lookup_insert_ne by done. by apply lookup_app_l. Qed.

Lemma grown_new : grown !! length nodes = Some default_node.
Proof.
  unfold grown. rewrite list_lookup_insert_ne by (apply lookup_lt_Some in Hn; lia).
  rewrite lookup_app_r, Nat.sub_diag by lia. done.
Qed.

Lemma length_grown : length grown = S (length nodes).
Proof. unfold grown. rewrite length_insert, length_app. simpl. lia. Qed.

Lemma grown_labelled : labelled grown (labels ++ [l ++ [b]]).
Proof.
  assert (Hroot := reach_root _ _ Hw _ _ Hl). assert (Hwf := Hw). destruct Hwf as (Hlen & H0 & He).
  split; [rewrite length_app, length_grown; simpl; lia|]. split; [by apply lookup_app_l_Some|].
  intros m n' c k Hm Hc. assert (Hlt := lookup_lt_Some _ _ _ Hm). rewrite length_grown in Hlt.
  destruct (decide (m = node)) as [->|Hne].
  - rewrite grown_node in Hm. injection Hm as <-. simpl in Hc. exists l. split; [by apply lookup_app_l_Some|].
    destruct (decide (c = b)) as [->|Hcb].
    + rewrite lookup_insert_eq in Hc. injection Hc as <-. rewrite <- Hlen, lookup_app_r, Nat.sub_diag by lia. done.
    + rewrite lookup_insert_ne in Hc by done. destruct (He _ _ _ _ Hn Hc) as (l' & Hl' & Hk). simplify_eq.
      by apply lookup_app_l_Some.
  - destruct (decide (m = length nodes)) as [->|Hml].
    + rewrite grown_new in Hm. injection Hm as <-. simpl in Hc. by rewrite lookup_empty in Hc.
    + rewrite grown_other in Hm by lia. destruct (He _ _ _ _ Hm Hc) as (l' & Hl' & Hk).
      exists l'. split; by apply lookup_app_l_Some.
Qed.

Lemma reach_grown m bs k : reach nodes m bs = Some k -> reach grown m bs = Some k.
Proof.
  revert m. induction bs as [|c bs IH]; intros m; simpl; [done|].
  destruct (nodes !! m) as [n'|] eqn:Hm; simpl; [|done]. destruct (children n' !! c) as [j|] eqn:Hc; simpl; [|done].
  intros H. destruct (decide (m = node)) as [->|Hne].
  - rewrite grown_node. simpl. simplify_eq. rewrite lookup_insert_ne by congruence. rewrite Hc. simpl. by apply IH.
  - rewrite grown_other by (try done; by eapply lookup_lt_Some). rewrite Hm. simpl. rewrite Hc. simpl. by apply IH.
Qed.

Lemma reach_grown_inv bs k : reach grown 0 bs = Some k -> k = length nodes \/ reach nodes 0 bs = Some k.
Proof.
  revert k. induction bs as [|c bs IH] using rev_ind; intros k; simpl; [intros [= <-]; by right|].
  rewrite !reach_app. destruct (reach grown 0 bs) as [m|]; simpl; [|done].
  destruct (IH m eq_refl) as [-> | Hm].
  - rewrite grown_new. simpl. by rewrite lookup_empty.
  - rewrite Hm. simpl. destruct (decide (m = node)) as [->|Hne].
    + rewrite grown_node, Hn. simpl. destruct (decide (c = b)) as [->|Hcb].
      * rewrite lookup_insert_eq. simpl. intros [= <-]. by left.
      * rewrite lookup_insert_ne by done. by right.
    + destruct (reach_node _ _ Hw _ _ Hm) as [n' Hn']. rewrite grown_other by (try done; by eapply lookup_lt_Some).
      rewrite Hn'. simpl. by right.
Qed.

Lemma find_grown bs : find grown bs = find nodes bs.
Proof.
  unfold find. destruct (reach grown 0 bs) as [k|] eqn:Hk; simpl.
  - destruct (reach_grown_inv _ _ Hk) as [-> | Hk'].
    + rewrite grown_new. simpl. destruct (reach nodes 0 bs) as [k'|] eqn:Hk'; simpl; [|done].
      destruct (reach_node _ _ Hw _ _ Hk') as [n' Hn']. apply reach_grown in Hk'. rewrite Hk' in Hk.
      injection Hk as ->. apply lookup_lt_Some in Hn'. lia.
    + rewrite Hk'. simpl. destruct (decide (k = node)) as [->|Hne].
      * rewrite grown_node, Hn. done.
      * destruct (reach_node _ _ Hw _ _ Hk') as [n' Hn'].
        by rewrite grown_other by (try done; by eapply lookup_lt_Some).
  - destruct (reach nodes 0 bs) as [k'|] eqn:Hk'; simpl; [|done]. apply reach_grown in Hk'. congruence.
Qed.

Lemma reach_child : reach grown 0 (l ++ [b]) = Some (length nodes).
Proof.
  rewrite reach_app, (reach_grown _ _ _ Hl). simpl. rewrite grown_node. simpl. by rewrite lookup_insert_eq.
Qed.
End child.

(** ** Entering keys *)

Lemma insert_key_spec nodes labels node key i l :
  labelled nodes labels -> reach nodes 0 l = Some node ->
  exists nodes' labels', insert_key nodes node key i = Some nodes' /\ labelled nodes' labels' /\
    forall bs, find nodes' bs = if decide (bs = l ++ key) then Some i else find nodes bs.
Proof.
  revert nodes labels node l. induction key as [|b key IH]; intros nodes labels node l Hw Hl;
    destruct (reach_node _ _ Hw _ _ Hl) as [n Hn]; simpl; rewrite Hn; simpl.
  - destruct (set_index_spec _ _ _ _ i _ Hw Hn Hl) as [Hw' Hf]. rewrite app_nil_r. by exists (<[node := set_index n i]> nodes), labels.
  - destruct (children n !! b) as [child|] eqn:Hb.
    + destruct (IH nodes labels child (l ++ [b]) Hw) as (nodes' & labels' & H1 & H2 & H3).
      { rewrite reach_app, Hl. simpl. rewrite Hn. simpl. by rewrite Hb. }
      rewrite <- app_assoc in H3. by exists nodes', labels'.
    + destruct (IH (grown nodes node n b) (labels ++ [l ++ [b]]) (length nodes) (l ++ [b])) as (nodes' & labels' & H1 & H2 & H3).
      { by apply grown_labelled. }
      { by apply reach_child. }
      exists nodes', labels'. split; [done|]. split; [done|]. intros bs. rewrite H3, <- app_assoc.
      by erewrite find_grown.
Qed.

Lemma insert_keys_spec nodes labels i keys :
  labelled nodes labels -> NoDup (map as_bytes keys) ->
  exists nodes' labels', insert_keys nodes i keys = Some nodes' /\ labelled nodes' labels' /\
    forall bs j, find nodes' bs = Some j <->
      (exists k, map as_bytes keys !! k = Some bs /\ j = (i + k)%nat) \/
      (bs ∉ map as_bytes keys) /\ find nodes bs = Some j.
Proof.
  revert nodes labels i. induction keys as [|key keys IH]; intros nodes labels i Hw Hnd; simpl.
  { exists nodes, labels. split; [done|]. split; [done|]. intros bs j. split; [right; split; [apply not_elem_of_nil|done]|].
    intros [(k & ? & _)|[_ ?]]; [by rewrite lookup_nil in *|done]. }
  apply NoDup_cons in Hnd as [Hk Hnd].
  destruct (insert_key_spec nodes labels 0 (as_bytes key) i [] Hw eq_refl) as (nodes1 & labels1 & -> & Hw1 & Hf1).
  destruct (IH nodes1 labels1 (S i) Hw1 Hnd) as (nodes' & labels' & H1 & H2 & H3). simpl.
  exists nodes', labels'. split; [done|]. split; [done|]. intros bs j. rewrite H3, Hf1, not_elem_of_cons. simpl. split.
  - intros [(k & Hk' & ->)|[Hn Hj]]; [left; exists (S k); split; [done|lia]|].
    case_decide; [left; exists 0%nat; simplify_eq; split; [done|lia]|by right].
  - intros [([|k] & Hk' & ->)|[[Hne Hn] Hj]].
    + injection Hk' as <-. right. split; [done|]. rewrite decide_True by done. f_equal. lia.
    + left. exists k. split; [done|lia].
    + right. split; [done|]. by rewrite decide_False.
Qed.

(** The trie maps exactly the keys to their positions. *)
Lemma new_index_spec subs :
  NoDup (map as_bytes subs.*1) ->
  exists nodes labels, new_index subs = Some nodes /\ labelled nodes labels /\
    forall bs j, find nodes bs = Some j <-> map as_bytes subs.*1 !! j = Some bs.
Proof.
  intros Hnd. destruct (insert_keys_spec [default_node] [[]] 0 subs.*1) as (nodes & labels & H1 & H2 & H3); [|done|].
  { split; [done|]. split; [done|]. intros [|m] n c k Hm Hc; [|by destruct m]. injection Hm as <-.
    simpl in Hc. by rewrite lookup_empty in Hc. }
  exists nodes, labels. split; [done|]. split; [done|]. intros bs j. rewrite H3. split.
  - intros [(k & Hk & ->)|[_ Hf]]; [done|]. unfold find in Hf. destruct bs; simpl in Hf; [done|].
    by rewrite lookup_empty in Hf.
  - intros H. left. by exists j.
Qed.

(** * Finding the next variable *)

(** [o] is the least element of [P], [None] when it has none. *)
Definition is_least (P : nat -> Prop) (o : option nat) : Prop :=
  match o with
  | None => forall j, ~ P j
  | Some i => P i /\ forall j, P j -> (i <= j)%nat
  end.

#[export] Instance is_least_proper : Proper (pointwise_relation nat iff ==> eq ==> iff) is_least.
Proof. intros P Q H o ? <-. destruct o as [i|]; simpl; [rewrite (H i)|]; by setoid_rewrite H. Qed.

Lemma keep_least_spec P o i : is_least P o -> is_least (fun j => P j \/ j = i) (keep_least o i).
Proof.
  destruct o as [p|]; simpl; intros H.
  - destruct H as [Hp Hmin]. split.
    + destruct (Nat.min_spec p i) as [[_ ->]|[_ ->]]; auto.
    + intros j [Hj| ->]; [apply Hmin in Hj|]; lia.
  - split; [by right|]. intros j [Hj| ->]; [by apply H in Hj|done].
Qed.

Lemma is_least_or_false P Q o : (forall j, ~ Q j) -> is_least P o -> is_least (fun j => P j \/ Q j) o.
Proof. intros HQ. apply is_least_proper; [|done]. intros j. specialize (HQ j). tauto. Qed.

(** The keys a walk from the label [l] meets in [tail]. *)
Definition met (nodes : list SubstitutionNode) (minimum : nat) (braced : bool) (l tail : list Z) (j : nat) : Prop :=
  exists p r, tail = p ++ r /\ find nodes (l ++ p) = Some j /\ (minimum <= j)%nat /\
    (braced = true -> head r = Some (ch "}")).

Definition met_here (nodes : list SubstitutionNode) (minimum : nat) (braced : bool) (l tail : list Z) (j : nat) : Prop :=
  find nodes l = Some j /\ (minimum <= j)%nat /\ (braced = true -> head tail = Some (ch "}")).

Lemma met_nil nodes minimum braced l j : met nodes minimum braced l [] j <-> met_here nodes minimum braced l [] j.
Proof.
  split.
  - intros (p & r & H & Hf & Hm & Hb). symmetry in H. apply app_eq_nil in H as [-> ->]. by rewrite app_nil_r in Hf.
  - intros H. exists [], []. rewrite (app_nil_r l). split; [done|exact H].
Qed.

Lemma met_cons nodes minimum braced l c tail j :
  met nodes minimum braced l (c :: tail) j <->
  met_here nodes minimum braced l (c :: tail) j \/ met nodes minimum braced (l ++ [c]) tail j.
Proof.
  split.
  - intros ([|c' p] & r & H & Hf & Hm & Hb).
    + simpl in H. subst r. rewrite app_nil_r in Hf. by left.
    + injection H as <- ->. right. exists p, r. by rewrite <- app_assoc.
  - intros [(Hf & Hm & Hb)|(p & r & -> & Hf & Hm & Hb)].
    + exists [], (c :: tail). rewrite (app_nil_r l). auto.
    + exists (c :: p), r. by rewrite <- app_assoc in Hf.
Qed.

Section next.
Context (nodes : list SubstitutionNode) (labels : list (list Z)) (Hw : labelled nodes labels) (minimum : nat).

Lemma find_at l node n : reach nodes 0 l = Some node -> nodes !! node = Some n -> find nodes l = index n.
Proof. intros H1 H2. unfold find. rewrite H1. simpl. by rewrite H2. Qed.

(** The test of one node. *)
Lemma test_node braced l node n tail P o :
  reach nodes 0 l = Some node -> nodes !! node = Some n -> is_least P o ->
  is_least (fun j => P j \/ met_here nodes minimum braced l tail j)
    (match index n with
     | Some i =>
         if bool_decide (minimum <= i)%nat && (negb braced || bool_decide (head tail = Some (ch "}")))
         then keep_least o i else o
     | None => o
     end).
Proof.
  intros Hl Hn Ho. unfold met_here. rewrite (find_at _ _ _ Hl Hn). destruct (index n) as [i|].
  - destruct (bool_decide (minimum <= i)%nat && (negb braced || bool_decide (head tail = Some (ch "}")))) eqn:Ht.
    + apply keep_least_spec with (i := i) in Ho. revert Ho. apply is_least_proper; [|done]. intros j.
      apply andb_true_iff in Ht as [Hm%bool_decide_eq_true Hb]. split; [intros [?|([= ->] & _)]; auto|].
      intros [?| ->]; [by left|right]. split; [done|]. split; [done|]. intros ->. by apply bool_decide_eq_true in Hb.
    + apply is_least_or_false; [|done]. intros j ([= <-] & Hm & Hb). rewrite bool_decide_true in Ht by done.
      destruct braced; [|done]. rewrite bool_decide_true in Ht by auto. done.
  - apply is_least_or_false; [|done]. by intros j (? & _).
Qed.

Lemma follow_spec braced l node tail P o :
  reach nodes 0 l = Some node -> is_least P o ->
  exists o', follow_reference nodes minimum braced node o tail = Some o' /\
    is_least (fun j => P j \/ met nodes minimum braced l tail j) o'.
Proof.
  revert l node P o. induction tail as [|c tail IH]; intros l node P o Hl Ho;
    destruct (reach_node _ _ Hw _ _ Hl) as [n Hn]; cbn [follow_reference]; rewrite Hn; cbn [mbind option_bind].
  - eexists. split; [done|]. setoid_rewrite met_nil. by apply (test_node _ _ node).
  - eapply (test_node braced _ _ _ (c :: tail)) in Ho; [|done..].
    assert (Hstep : reach nodes 0 (l ++ [c]) = children n !! c).
    { rewrite reach_app, Hl. simpl. rewrite Hn. simpl. by destruct (children n !! c). }
    setoid_rewrite met_cons. destruct (children n !! c) as [child|].
    + destruct (IH _ _ _ _ Hstep Ho) as (o' & -> & H). exists o'. split; [done|]. revert H.
      apply is_least_proper; [|done]. intros j. tauto.
    + eexists. split; [done|]. eapply is_least_or_false in Ho; [revert Ho; apply is_least_proper; [|done]|].
      * intros j. split; [intros [?|[?|H]]; [left; by left|left; by right|right; exact H]|]. tauto.
      * intros j (p & r & _ & Hf & _). unfold find in Hf. rewrite reach_app, Hstep in Hf. done.
Qed.
End next.

(** * From bytes to characters *)

Definition ascii (s : rstr) : Prop := Forall (fun c => c < 0x80) s.

Lemma ascii_prefix k s r : ascii k -> valid_str s ->
  as_bytes s = k ++ r <-> exists s', s = k ++ s' /\ r = as_bytes s'.
Proof.
  intros Hk. revert s. induction Hk as [|c k Hc _ IH]; intros s Hs; simpl; [naive_solver|].
  destruct s as [|d s]; [naive_solver|]. apply Forall_cons in Hs as [Hd Hs]. rewrite as_bytes_cons.
  destruct (Z.ltb_spec d 0x80) as [Hlt|Hge].
  - assert (encode_utf8 d = [d]) as -> by (unfold encode_utf8; by rewrite (proj2 (Z.ltb_lt d 0x80))).
    simpl. specialize (IH s Hs). split.
    + intros [= -> H]. apply IH in H as (s' & -> & ->). by exists s'.
    + intros (s' & [= -> ->] & ->). f_equal. apply IH. by exists s'.
  - split; [|intros (s' & [= -> _] & _); lia]. intros Heq. exfalso. apply is_scalar_range in Hd. revert Heq.
    unfold encode_utf8. utf8_cases; simpl; intros [= Heq _]; Z.div_mod_to_equations; lia.
Qed.

(** * What the index finds *)

(** A reference to [key] at a dollar sign followed by [rest]. *)
Definition reference (key rest : rstr) : bool := starts_with key rest || starts_with (ch "{" :: key ++ [ch "}"]) rest.

Definition occurs (key value : rstr) : bool := contains (bare_reference key) value || contains (braced_reference key) value.

Definition key_chars (key : rstr) : Prop := Forall (fun c => is_key_char c = true) key.

Lemma key_char_facts c : is_key_char c = true -> c < 0x80 /\ c ≠ ch "{" /\ c ≠ ch "}" /\ c ≠ ch "$".
Proof. unfold is_key_char, is_ascii_lowercase, is_ascii_digit. ev_ch. intros H. to_prop; lia. Qed.

Lemma key_ascii key : key_chars key -> ascii key.
Proof. intros H. eapply Forall_impl; [exact H|]. intros c Hc. by apply key_char_facts. Qed.

Lemma starts_with_cons c p d s : starts_with (c :: p) (d :: s) = (c =? d) && starts_with p s.
Proof. unfold starts_with. cbn [strip_prefix]. by destruct (c =? d). Qed.

Lemma occurs_cons key c value :
  occurs key (c :: value) = ((c =? ch "$") && reference key value) || occurs key value.
Proof.
  unfold occurs, reference, bare_reference, braced_reference. cbn [contains]. rewrite !starts_with_cons, (Z.eqb_sym c).
  destruct (ch "$" =? c); simpl; [|done].
  destruct (starts_with key value), (starts_with (ch "{" :: key ++ [ch "}"]) value), (contains (ch "$" :: key) value); done.
Qed.

Lemma reference_bare key rest : head rest ≠ Some (ch "{") -> reference key rest = starts_with key rest.
Proof.
  intros Hh. unfold reference. destruct rest as [|c rest]; [by rewrite orb_false_r|].
  rewrite (starts_with_cons (ch "{")), (proj2 (Z.eqb_neq (ch "{") c)), orb_false_r; [done|]. intros <-. by apply Hh.
Qed.

Lemma reference_braced key rest : key_chars key ->
  reference key (ch "{" :: rest) = true <-> key = [] \/ starts_with (key ++ [ch "}"]) rest = true.
Proof.
  intros Hk. unfold reference. rewrite orb_true_iff, (starts_with_cons (ch "{")), Z.eqb_refl. simpl.
  apply or_iff_compat_r. destruct Hk as [|c k Hc Hk]; [done|]. split; [|done].
  rewrite starts_with_cons. intros [Heq%Z.eqb_eq _]%andb_true_iff. apply key_char_facts in Hc. naive_solver.
Qed.

Section occurrences.
Context (subs : list (rstr * rstr)) (Hkeys : Forall (fun kv => key_chars kv.1) subs).
Context (nodes : list SubstitutionNode) (labels : list (list Z)) (Hw : labelled nodes labels).
Context (Hfind : forall bs j, find nodes bs = Some j <-> map as_bytes subs.*1 !! j = Some bs).

Lemma key_at j kv : subs !! j = Some kv -> ascii kv.1.
Proof. intros H. apply key_ascii. by apply (Forall_lookup_1 _ _ _ _ Hkeys H). Qed.

Lemma find_key bs j : find nodes bs = Some j <-> exists kv, subs !! j = Some kv /\ kv.1 = bs.
Proof.
  rewrite Hfind, !list_lookup_fmap. destruct (subs !! j) as [[k v]|] eqn:Hj; simpl; [|naive_solver].
  rewrite as_bytes_ascii by apply (key_at _ _ Hj). naive_solver.
Qed.

(** The positions whose key occurs at a dollar sign followed by [rest]. *)
Definition refers (minimum : nat) (rest : rstr) (j : nat) : Prop :=
  (minimum <= j)%nat /\ exists kv, subs !! j = Some kv /\ reference kv.1 rest = true.

Lemma met_bare minimum rest j : valid_str rest ->
  met nodes minimum false [] (as_bytes rest) j <->
  (minimum <= j)%nat /\ exists kv, subs !! j = Some kv /\ starts_with kv.1 rest = true.
Proof.
  intros Hv. unfold met. cbn [app]. setoid_rewrite find_key. setoid_rewrite starts_with_true. split.
  - intros (p & r & H & (kv & Hkv & <-) & Hm & _). split; [done|]. exists kv. split; [done|].
    apply ascii_prefix in H as (s & -> & _); [by exists s|by eapply key_at|done].
  - intros (Hm & kv & Hkv & r & ->). exists kv.1, (as_bytes r). rewrite as_bytes_app, as_bytes_ascii.
    + split; [done|]. split; [by exists kv|]. done.
    + by eapply key_at.
Qed.

Lemma met_braced minimum rest j : valid_str rest ->
  met nodes minimum true [] (as_bytes rest) j <->
  (minimum <= j)%nat /\ exists kv, subs !! j = Some kv /\ starts_with (kv.1 ++ [ch "}"]) rest = true.
Proof.
  intros Hv. unfold met. cbn [app]. setoid_rewrite find_key. setoid_rewrite starts_with_true. split.
  - intros (p & r & H & (kv & Hkv & <-) & Hm & Hb). split; [done|]. exists kv. split; [done|].
    specialize (Hb eq_refl). destruct r as [|b r]; [done|]. injection Hb as ->. rewrite (cons_middle (ch "}")), app_assoc in H.
    apply ascii_prefix in H as (s & -> & _); [by exists s| |done]. apply Forall_app. split; [|by repeat constructor].
    by eapply key_at.
  - intros (Hm & kv & Hkv & r & ->). exists kv.1, (ch "}" :: as_bytes r). rewrite !as_bytes_app, as_bytes_ascii.
    + rewrite <- app_assoc. split; [done|]. split; [by exists kv|]. done.
    + by eapply key_at.
Qed.
Lemma met_root minimum tail j :
  met_here nodes minimum false [] tail j <-> (minimum <= j)%nat /\ exists kv, subs !! j = Some kv /\ kv.1 = [].
Proof. unfold met_here. rewrite find_key. naive_solver. Qed.

(** Following a bare reference. *)
Lemma follow_bare minimum rest P o : valid_str rest -> head rest ≠ Some (ch "{") ->
  is_least (fun j => P j \/ met_here nodes minimum false [] (as_bytes rest) j) o ->
  exists o', follow_reference nodes minimum false 0 o (as_bytes rest) = Some o' /\
    is_least (fun j => P j \/ refers minimum rest j) o'.
Proof.
  intros Hv Hh Ho. destruct (follow_spec _ _ Hw minimum false [] 0 (as_bytes rest) _ o eq_refl Ho) as (o' & -> & H).
  exists o'. split; [done|]. revert H. apply is_least_proper; [|done]. intros j. rewrite met_root, met_bare by done.
  unfold refers. setoid_rewrite (reference_bare _ rest Hh). split; [tauto|].
  intros [[?|(Hm & kv & Hkv & Hk)]|H]; [by left| |by right]. right. split; [done|]. exists kv. by rewrite Hk.
Qed.

(** Following a braced reference. *)
Lemma follow_braced minimum rest P o : valid_str rest ->
  is_least (fun j => P j \/ met_here nodes minimum false [] (as_bytes (ch "{" :: rest)) j) o ->
  exists o', follow_reference nodes minimum true 0 o (as_bytes rest) = Some o' /\
    is_least (fun j => P j \/ refers minimum (ch "{" :: rest) j) o'.
Proof.
  intros Hv Ho. destruct (follow_spec _ _ Hw minimum true [] 0 (as_bytes rest) _ o eq_refl Ho) as (o' & -> & H).
  exists o'. split; [done|]. revert H. apply is_least_proper; [|done]. intros j. rewrite met_root, met_braced by done.
  unfold refers. split.
  - intros [?|(Hm & kv & Hkv & Hk)]; [tauto|]. apply reference_braced in Hk; [naive_solver|].
    by apply (Forall_lookup_1 _ _ _ _ Hkeys Hkv).
  - intros [[?|(Hm & kv & Hkv & Hk)]|(Hm & kv & Hkv & Hk)]; [by left|right..]; (split; [done|]); exists kv;
      (split; [done|]); apply reference_braced; auto; by apply (Forall_lookup_1 _ _ _ _ Hkeys Hkv).
Qed.

Lemma scan_reference_spec minimum rest P o : valid_str rest -> is_least P o ->
  exists o', scan_reference nodes minimum o (as_bytes rest) = Some o' /\
    is_least (fun j => P j \/ refers minimum rest j) o'.
Proof.
  intros Hv Ho. unfold scan_reference. destruct (reach_node _ _ Hw [] 0 eq_refl) as [n Hn]. rewrite Hn. cbn [mbind option_bind].
  apply (test_node nodes minimum false [] 0 n (as_bytes rest)) in Ho; [|done..].
  assert (Ho' : is_least (fun j => P j \/ met_here nodes minimum false [] (as_bytes rest) j)
    (match index n with Some i => if bool_decide (minimum <= i)%nat then keep_least o i else o | None => o end)).
  { destruct (index n); [|done]. by rewrite andb_true_r in Ho. }
  clear Ho. revert Ho'. generalize (match index n with Some i => if bool_decide (minimum <= i)%nat then keep_least o i else o | None => o end).
  clear o. intros o Ho. destruct rest as [|c rest]; [by apply follow_bare|].
  apply Forall_cons in Hv as [Hc Hv]. destruct (decide (c = ch "{")) as [->|Hne].
  - change (as_bytes (ch "{" :: rest)) with (ch "{" :: as_bytes rest). cbv iota beta. rewrite Z.eqb_refl. by apply follow_braced.
  - assert (Hhead : exists b bs, as_bytes (c :: rest) = b :: bs /\ b ≠ ch "{").
    { apply is_scalar_range in Hc. rewrite as_bytes_cons. unfold encode_utf8. utf8_cases; eexists _, _; (split; [done|]);
        revert Hne; ev_ch; intros ?; Z.div_mod_to_equations; lia. }
    destruct Hhead as (b & bs & He & Hb).
    destruct (as_bytes (c :: rest)) as [|b' bs'] eqn:Hbs; [done|]. injection He as -> ->.
    rewrite (proj2 (Z.eqb_neq _ _) Hb), <- Hbs.
    apply follow_bare; [by constructor|simpl; congruence|by rewrite Hbs].
Qed.

(** The least position, from [minimum] on, whose key occurs in the value. *)
Lemma next_spec minimum value : valid_str value ->
  exists o, next nodes value minimum = Some o /\
    is_least (fun j => (minimum <= j)%nat /\ exists kv, subs !! j = Some kv /\ occurs kv.1 value = true) o.
Proof.
  intros Hv. unfold next.
  assert (H : forall P o, is_least P o -> exists o', next_from nodes minimum o value = Some o' /\
    is_least (fun j => P j \/ ((minimum <= j)%nat /\ exists kv, subs !! j = Some kv /\ occurs kv.1 value = true)) o').
  { induction Hv as [|c value Hc Hv IH]; intros P o Ho; cbn [next_from].
    { exists o. split; [done|]. apply is_least_or_false; [|done]. intros j (_ & kv & _ & H). done. }
    setoid_rewrite occurs_cons. destruct (Z.eqb_spec c (ch "$")) as [->|Hne]; simpl; [|by apply IH].
    destruct (scan_reference_spec minimum value P o Hv Ho) as (o1 & -> & H1). cbn [mbind option_bind].
    destruct (IH _ _ H1) as (o' & -> & H'). exists o'. split; [done|]. revert H'. apply is_least_proper; [|done].
    intros j. unfold refers. split; [intros [?|(Hm & kv & Hkv & [Hr|Hr]%orb_true_iff)]; eauto 8|].
    intros [[?|(Hm & kv & Hkv & Hr)]|(Hm & kv & Hkv & Hr)]; [by left|right..]; (split; [done|]); exists kv;
      rewrite Hr, ?orb_true_r; done. }
  destruct (H (fun _ => False) None) as (o & Ho & Hl); [intros j Hj; exact Hj|]. exists o. split; [done|]. revert Hl.
  apply is_least_proper; [|done]. intros j. tauto.
Qed.
End occurrences.

(** * The indexed expansion *)

Lemma replace_pass_none kv value : occurs kv.1 value = false -> str_len value <= MAX_SUBSTITUTED_VALUE_BYTES ->
  expand_pass value kv = Ok value.
Proof.
  destruct kv as [key by_]. simpl. intros [H1 H2]%orb_false_iff Hlen. unfold expand_pass.
  rewrite (replace_none _ _ _ H1), (replace_none _ _ _ H2). unfold ensure. by rewrite (proj2 (Z.leb_le _ _)).
Qed.

Lemma skip_passes (l : list (rstr * rstr)) value :
  Forall (fun kv => occurs kv.1 value = false) l -> str_len value <= MAX_SUBSTITUTED_VALUE_BYTES ->
  for_each expand_pass value l = Ok value.
Proof.
  induction 1 as [|kv l Hkv _ IH]; intros Hlen; [done|]. cbn [for_each].
  rewrite replace_pass_none by done. by apply IH.
Qed.

Lemma expand_pass_valid value kv value' : valid_str value -> valid_str kv.2 -> expand_pass value kv = Ok value' -> valid_str value'.
Proof.
  destruct kv as [key by_]. unfold expand_pass. simpl. intros Hv Hb H. res_inv. by repeat apply Forall_replace.
Qed.

Section expansion.
Context (subs : list (rstr * rstr)) (Hkeys : Forall (fun kv => key_chars kv.1 /\ valid_str kv.2) subs).
Context (nodes : list SubstitutionNode) (labels : list (list Z)) (Hw : labelled nodes labels).
Context (Hfind : forall bs j, find nodes bs = Some j <-> map as_bytes subs.*1 !! j = Some bs).

Lemma substitute_from_spec fuel minimum value :
  (length subs <= fuel + minimum)%nat -> valid_str value ->
  substitute_from subs nodes fuel minimum value = for_each expand_pass value (drop minimum subs).
Proof.
  revert minimum value. induction fuel as [|fuel IH]; intros minimum value Hf Hv; cbn [substitute_from].
  { by rewrite drop_ge by lia. }
  case_bool_decide as Hm; [|by rewrite drop_ge by lia].
  assert (Hpass : forall i kv, subs !! i = Some kv -> (minimum <= i)%nat ->
    (let? v := expand_pass value kv in substitute_from subs nodes fuel (S i) v) =
    for_each expand_pass value (drop i subs)).
  { intros i kv Hi Hle. rewrite (drop_S _ _ _ Hi). cbn [for_each]. destruct (expand_pass value kv) as [v|e] eqn:He; [|done].
    simpl. apply IH; [lia|]. eapply expand_pass_valid; [done| |done]. by apply (Forall_lookup_1 _ _ _ _ Hkeys Hi). }
  destruct (Z.ltb_spec MAX_SUBSTITUTED_VALUE_BYTES (str_len value)) as [Hbig|Hsmall]; cbn [res_bind].
  { destruct (lookup_lt_is_Some_2 _ _ Hm) as [kv Hkv]. rewrite Hkv. by apply Hpass. }
  destruct (next_spec subs ltac:(eapply Forall_impl; [exact Hkeys|]; naive_solver) nodes labels Hw Hfind minimum value Hv)
    as (o & -> & Ho). cbn [ok_or res_bind].
  destruct o as [i|]; cbn [is_least] in Ho.
  - destruct Ho as [(Hle & kv & Hkv & _) Hmin]. rewrite Hkv. cbn [ok_or res_bind]. rewrite (Hpass _ _ Hkv Hle).
    rewrite <- (take_drop (i - minimum) (drop minimum subs)), drop_drop, for_each_app.
    rewrite (skip_passes (take _ _)); [simpl; by replace (minimum + (i - minimum))%nat with i by lia| |done].
    apply Forall_lookup. intros k kv' Hk. apply lookup_take_Some in Hk as [Hk Hlt]. rewrite lookup_drop in Hk.
    apply not_true_is_false. intros Hocc. assert (i <= minimum + k)%nat; [|lia]. apply Hmin. split; [lia|]. by exists kv'.
  - symmetry. apply skip_passes; [|done]. apply Forall_lookup. intros k kv' Hk. rewrite lookup_drop in Hk.
    apply not_true_is_false. intros Hocc. apply (Ho (minimum + k)%nat). split; [lia|]. by exists kv'.
Qed.
End expansion.

(** * The variables of the first pass *)

Section kept.
Context (P : char -> Prop).

Lemma Forall_strip_comment previous q e s : Forall P s -> Forall P (strip_comment_from previous q e s).
Proof.
  intros H. revert previous q e. induction H as [|c s Hc _ IH]; intros previous q e; cbn [strip_comment_from]; [done|].
  repeat case_match; auto.
Qed.

Lemma Forall_byte_lines s : Forall P s -> Forall (Forall P) (byte_lines s).
Proof.
  intros H. apply (Forall_split_char P 10) in H. unfold byte_lines. induction H as [|p ps Hp Hps IH]; simpl; [done|].
  destruct ps as [|p' ps]; [case_decide; auto|]. constructor; [|done]. unfold strip_cr.
  destruct (strip_suffix [13] p) as [r|] eqn:Hr; simpl; [|done]. apply strip_suffix_Some in Hr as ->.
  by apply Forall_app in Hp as [Hp _].
Qed.

Lemma Forall_trim_char c s : Forall P s -> Forall P (trim_char c s).
Proof. intros H. by apply Forall_rev', Forall_trim_start, Forall_rev', Forall_trim_start. Qed.
End kept.

Definition var_ok (key value : rstr) : Prop := key_chars key /\ valid_str value.

Definition pass_ok (s : Pass) : Prop :=
  map_Forall var_ok (vars s) /\ forall a, open_array s = Some a -> var_ok (array_key a) (array_content a).

Lemma insert_var_ok s key value : pass_ok s -> var_ok key value -> pass_ok (insert_var s key value).
Proof. intros [Hs _] Hv. split; [by apply map_Forall_insert_2|done]. Qed.

Lemma continue_array_ok s a complete : pass_ok s -> var_ok (array_key a) (array_content a) -> pass_ok (continue_array s a complete).
Proof.
  intros Hs Ha. unfold continue_array. destruct complete; [by apply insert_var_ok|]. split; [apply Hs|]. by intros ? [= <-].
Qed.

Lemma set_function_ok s d w : pass_ok s -> pass_ok (set_function s d w).
Proof. done. Qed.

Lemma key_chars_compute key : forallb is_key_char key = true -> key_chars key.
Proof. intros H. apply Forall_forall. intros c Hc. rewrite forallb_forall in H. apply H. by apply list_elem_of_In. Qed.

Lemma assignment_ok s line s' : pass_ok s -> valid_str line -> assignment_line s line = Ok s' -> pass_ok s'.
Proof.
  intros Hs Hl. unfold assignment_line. destruct (split_once (ch "=") line) as [[key val]|] eqn:He; [|by intros [= <-]].
  destruct (Forall_split_once _ _ _ _ _ Hl He) as [_ Hv].
  assert (Hval : valid_str (trim (strip_inline_comment val))) by (by apply Forall_trim, Forall_strip_comment).
  destruct (negb (forallb is_key_char (trim key))) eqn:Hk; [by intros [= <-]|].
  apply negb_false_iff, key_chars_compute in Hk. destruct (starts_with [ch "("] _).
  - intros H. res_inv. destruct a as [c b]. res_inv. by apply continue_array_ok.
  - intros [= <-]. apply insert_var_ok; [done|]. split; [done|]. by apply Forall_trim_char, Forall_trim_char.
Qed.

Lemma pass_line_ok s line s' : pass_ok s -> valid_str line -> pass_line s line = Ok s' -> pass_ok s'.
Proof.
  intros Hs Hl. unfold pass_line. destruct (open_array s) as [a|] eqn:Ha.
  - intros H. unfold array_line in H. res_inv. destruct a0 as [c b]. res_inv. apply continue_array_ok; [done|].
    destruct (proj2 Hs _ Ha) as [Hk Hv]. split; [done|]. apply Forall_app. split; [done|].
    constructor; [done|]. by apply Forall_strip_comment.
  - unfold statement_line. assert (Ht : valid_str (trim line)) by by apply Forall_trim.
    destruct (_ || _); [by intros [= <-]|]. destruct (0 <? function_depth s).
    { unfold function_line. destruct (unquoted_braces _). intros H. by res_inv. }
    destruct (awaiting_function_body s).
    { unfold body_line. destruct (unquoted_braces _). intros H. by res_inv. }
    destruct (function_declaration _); [|by apply assignment_ok].
    unfold declaration_line. destruct (unquoted_braces _). intros H. res_inv. by case_match.
Qed.

Lemma first_pass_vars content vs : valid_str content -> first_pass content = Ok vs -> map_Forall var_ok vs.
Proof.
  intros Hc H. unfold first_pass in H. res_inv. destruct (open_array a) as [|]; res_inv.
  assert (Hok : pass_ok a); [|apply Hok]. apply Forall_byte_lines in Hc. rewrite Forall_forall in Hc.
  revert Hr. apply (for_each_inv _ (fun _ s => pass_ok s)).
  - split; [apply map_Forall_empty|done].
  - intros pre line s1 s2 Hs Hin. apply pass_line_ok; [done|]. by apply Hc.
Qed.

(** * The whole parser *)

Section whole.
Context {Version : Type} (parse_version : rstr -> option Version) (zero_version : Version).

Lemma metadata_ext (f g : rstr -> result rstr PkgbuildError) (vs : gmap rstr rstr) :
  (forall k v, vs !! k = Some v -> f v = g v) ->
  metadata parse_version zero_version f vs = metadata parse_version zero_version g vs.
Proof.
  intros H. assert (Hs : forall k, scalar f vs k = scalar g vs k).
  { intros k. unfold scalar. destruct (vs !! k) eqn:Hk; [by eapply H|done]. }
  assert (Ha : forall k, array f vs k = array g vs k).
  { intros k. unfold array. destruct (vs !! k) eqn:Hk; [|done]. by erewrite H. }
  assert (Hp : pkgver parse_version zero_version f vs = pkgver parse_version zero_version g vs).
  { unfold pkgver. destruct (vs !! str "pkgver") eqn:Hk; [|done]. by erewrite H. }
  unfold metadata. by rewrite !Hs, !Ha, Hp.
Qed.

Context (iter : gmap rstr rstr -> list (rstr * rstr)) (Hiter : forall m, iter m ≡ₚ map_to_list m).

Lemma sorted_perm (vs : gmap rstr rstr) : sorted_substitutions iter vs ≡ₚ map_to_list vs.
Proof. unfold sorted_substitutions. by rewrite sort_by_perm, Hiter. Qed.

Lemma sorted_vars (vs : gmap rstr rstr) : map_Forall var_ok vs ->
  Forall (fun kv => key_chars kv.1 /\ valid_str kv.2) (sorted_substitutions iter vs).
Proof. intros H. rewrite sorted_perm. apply map_Forall_to_list in H. eapply Forall_impl; [exact H|]. by intros [k v]. Qed.

Lemma sorted_keys (vs : gmap rstr rstr) : map_Forall var_ok vs -> NoDup (map as_bytes (sorted_substitutions iter vs).*1).
Proof.
  intros H. rewrite (list_fmap_ext as_bytes id); [|].
  - rewrite list_fmap_id, sorted_perm. apply NoDup_fst_map_to_list.
  - intros i k Hk. apply list_lookup_fmap_Some in Hk as (kv & -> & Hkv).
    apply as_bytes_ascii, key_ascii. apply (Forall_lookup_1 _ _ _ _ (sorted_vars _ H) Hkv).
Qed.

Lemma substitute_is_passes (vs : gmap rstr rstr) : map_Forall var_ok vs ->
  exists nodes, new_index (sorted_substitutions iter vs) = Some nodes /\
    forall v, valid_str v -> substitute (sorted_substitutions iter vs) nodes v = for_each expand_pass v (sorted_substitutions iter vs).
Proof.
  intros Hp. destruct (new_index_spec (sorted_substitutions iter vs)) as (nodes & labels & -> & Hw & Hf); [by apply sorted_keys|].
  exists nodes. split; [done|]. intros v Hv. unfold substitute.
  rewrite (substitute_from_spec _ (sorted_vars _ Hp) nodes labels); [done..|lia|done].
Qed.

(** C29: Expanding variables through the index is running every replacement
    pass, longest name first, each within the budget: for any text and any
    order in which the hash map yields its entries, the parser returns what
    the passes in order return, errors included, and no index of the trie is
    ever out of range. *)
Theorem indexed_expansion_is_ordered_passes (content : rstr) :
  valid_str content ->
  parse_content parse_version zero_version iter content =
  let? vs := first_pass content in
  metadata parse_version zero_version (fun v => for_each expand_pass v (sorted_substitutions iter vs)) vs.
Proof.
  intros Hc. unfold parse_content. destruct (first_pass content) as [vs|e] eqn:Hp; [|done]. simpl.
  apply first_pass_vars in Hp; [|done].
  destruct (substitute_is_passes vs Hp) as (nodes & -> & Hs). simpl. apply metadata_ext.
  intros k v Hv. apply Hs. by apply (Hp k).
Qed.

(** ** The budget *)

Lemma passes_within_budget value l r : l ≠ [] -> for_each expand_pass value l = Ok r -> str_len r <= MAX_SUBSTITUTED_VALUE_BYTES.
Proof.
  intros Hne. destruct (exists_last Hne) as (l' & [key by_] & ->). rewrite for_each_app. intros H. simpl in H. res_inv. lia.
Qed.

Lemma str_len_trim_start p s : str_len (trim_start_matches p s) <= str_len s.
Proof.
  induction s as [|c s IH]; simpl; [lia|]. rewrite str_len_cons. assert (H := len_utf8_pos c). destruct (p c); [lia|].
  rewrite str_len_cons. lia.
Qed.

Lemma str_len_rev s : str_len (rev s) = str_len s.
Proof. induction s as [|c s IH]; simpl; [done|]. rewrite str_len_app, IH, !str_len_cons. change (str_len []) with 0. lia. Qed.

Lemma str_len_trim s : str_len (trim s) <= str_len s.
Proof.
  unfold trim. rewrite str_len_rev. etrans; [apply str_len_trim_start|]. rewrite str_len_rev. apply str_len_trim_start.
Qed.

Lemma str_len_strip_comment previous q e s : str_len (strip_comment_from previous q e s) <= str_len s.
Proof.
  revert previous q e. induction s as [|c s IH]; intros previous q e; cbn [strip_comment_from]; [lia|].
  assert (H := len_utf8_pos c). assert (H0 := str_len_nonneg s).
  repeat case_match; rewrite ?str_len_cons; try (change (str_len []) with 0; lia);
    match goal with |- context [strip_comment_from ?a ?b ?d s] => specialize (IH a b d); lia end.
Qed.

Lemma array_chars_total inner s :
  str_len (concat (items (foldl array_char s inner)) ++ token (foldl array_char s inner)) <=
  str_len (concat (items s) ++ token s) + str_len inner.
Proof.
  revert s. induction inner as [|c inner IH]; intros s; simpl; [change (str_len []) with 0; lia|].
  etrans; [apply IH|]. rewrite str_len_cons. assert (H := len_utf8_pos c).
  unfold array_char. repeat case_match; simpl; rewrite ?concat_app, ?str_len_app, ?str_len_cons; simpl;
    rewrite ?app_nil_r; change (str_len []) with 0; lia.
Qed.
Definition lines_total (ls : list rstr) : Z := foldr (fun l n => str_len l + 1 + n) 0 ls.

Lemma split_total s : lines_total (split_char 10 s) = str_len s + 1.
Proof.
  induction s as [|c s IH]; [done|]. cbn [split_char]. rewrite str_len_cons. destruct (Z.eqb_spec 10 c) as [<-|Hne].
  - simpl. fold (lines_total (split_char 10 s)). rewrite IH. change (str_len []) with 0. change (len_utf8 10) with 1. lia.
  - destruct (split_char_cons 10 s) as (p & ps & Hp). rewrite Hp in *. unfold lines_total in *. cbn [foldr] in *.
    rewrite str_len_cons. lia.
Qed.

Lemma lines_total_nonneg ls : 0 <= lines_total ls.
Proof. induction ls as [|l ls IH]; simpl; [lia|]. assert (H := str_len_nonneg l). lia. Qed.

Lemma joined_total ls : str_len (join_space (map strip_inline_comment ls)) <= Z.max 0 (lines_total ls - 1).
Proof.
  induction ls as [|l [|l' ls] IH]; [done| |].
  - cbn. assert (H := str_len_strip_comment None None false l). unfold strip_inline_comment. lia.
  - change (join_space (map strip_inline_comment (l :: l' :: ls)))
      with (strip_inline_comment l ++ ch " " :: join_space (map strip_inline_comment (l' :: ls))).
    rewrite str_len_app, str_len_cons. change (len_utf8 (ch " ")) with 1.
    assert (H := str_len_strip_comment None None false l). assert (Hn := lines_total_nonneg ls).
    assert (H0 := str_len_nonneg l). assert (H1 := str_len_nonneg l'). unfold strip_inline_comment in *. simpl in *. lia.
Qed.

Lemma terminated_total ps : lines_total (terminated ps) <= lines_total ps.
Proof.
  induction ps as [|p [|p' ps] IH]; simpl in *; [done|case_decide; simpl; assert (Hp := str_len_nonneg p); lia|].
  assert (str_len (strip_cr p) <= str_len p); [|lia]. unfold strip_cr.
  destruct (strip_suffix [13] p) as [r|] eqn:Hr; simpl; [|done]. apply strip_suffix_Some in Hr as ->.
  rewrite str_len_app. change (str_len [13]) with 1. lia.
Qed.

Lemma array_total value l : parse_array value = Ok l -> str_len (concat l) <= str_len value.
Proof.
  unfold parse_array. intros H. res_inv. apply ok_or_Ok, bind_Some in Hr as (r & Hp & Hsuf).
  apply strip_prefix_Some in Hp. apply strip_suffix_Some in Hsuf as ->.
  assert (Hj := joined_total (byte_lines value)). assert (Ht := terminated_total (split_char 10 value)).
  rewrite split_total in Ht. fold (byte_lines value) in Ht. assert (Htrim := str_len_trim (join_space (map strip_inline_comment (byte_lines value)))).
  rewrite Hp, !str_len_app in Htrim. change (str_len [ch "("]) with 1 in Htrim. change (str_len [ch ")"]) with 1 in Htrim.
  assert (Ha := array_chars_total a array_start). simpl in Ha. change (str_len []) with 0 in Ha.
  rewrite str_len_app in Ha. assert (H0 := str_len_nonneg value).
  assert (H1 := str_len_nonneg (token (foldl array_char array_start a))).
  destruct (token_started _); rewrite ?concat_app, ?str_len_app; simpl; rewrite ?app_nil_r; lia.
Qed.

(** Every scalar of the metadata, and the items of every array together. *)
Definition within_budget (p : PkgBuild (Version := Version)) : Prop :=
  Forall (fun s => str_len s <= MAX_SUBSTITUTED_VALUE_BYTES) [name p; release p; description p; url p] /\
  Forall (fun l => str_len (concat l) <= MAX_SUBSTITUTED_VALUE_BYTES)
    [license p; depends p; makedepends p; checkdepends p; sources p; sha256sums p; validpgpkeys p].

Section fields.
Context (f : rstr -> result rstr PkgbuildError) (vs : gmap rstr rstr).
Context (Hf : forall k v r, vs !! k = Some v -> f v = Ok r -> str_len r <= MAX_SUBSTITUTED_VALUE_BYTES).

Lemma scalar_within k r : scalar f vs k = Ok r -> str_len r <= MAX_SUBSTITUTED_VALUE_BYTES.
Proof. unfold scalar. destruct (vs !! k) as [v|] eqn:Hk; [by apply (Hf k)|]. by intros [= <-]. Qed.

Lemma array_within k l : array f vs k = Ok l -> str_len (concat l) <= MAX_SUBSTITUTED_VALUE_BYTES.
Proof.
  unfold array. destruct (vs !! k) as [v|] eqn:Hk; [|by intros [= <-]]. intros H. res_inv.
  apply array_total in H. apply (Hf k) in Hr; [lia|done].
Qed.

Lemma metadata_within p : metadata parse_version zero_version f vs = Ok p -> within_budget p.
Proof.
  unfold metadata. intros H. res_inv. split; simpl;
    repeat match goal with
    | H : scalar _ _ _ = Ok _ |- _ => apply scalar_within in H
    | H : array _ _ _ = Ok _ |- _ => apply array_within in H
    end; by repeat constructor.
Qed.
End fields.

(** Whatever references a PKGBUILD contains, the metadata that the parser
    returns stays within the budget: no scalar field, and no array field with
    its items taken together, is longer than one mebibyte. *)
Theorem accepted_metadata_is_within_budget content p :
  valid_str content -> parse_content parse_version zero_version iter content = Ok p -> within_budget p.
Proof.
  intros Hc H. unfold parse_content in H. res_inv. apply first_pass_vars in Hr; [|done].
  destruct (substitute_is_passes a Hr) as (nodes & Hn & Hs). apply ok_or_Ok in Hr0. rewrite Hn in Hr0. injection Hr0 as <-.
  apply metadata_within in H; [done|]. intros k v r Hk Hv. rewrite Hs in Hv by by apply (Hr k).
  apply passes_within_budget in Hv; [done|]. intros Hnil. assert (Hin : (k, v) ∈ sorted_substitutions iter a).
  { rewrite sorted_perm. by apply elem_of_map_to_list. }
  rewrite Hnil in Hin. by apply not_elem_of_nil in Hin.
Qed.
End whole.

(** * Functions *)

Definition unlines (ls : list rstr) : rstr := ls ≫= fun l => l ++ [10].

Definition one_line (l : rstr) : Prop := (10 ∉ l) /\ strip_cr l = l.

(** The state between statements. *)
Definition top_level (s : Pass) : bool :=
  (function_depth s =? 0) && negb (awaiting_function_body s) && match open_array s with None => true | Some _ => false end.

Definition blank (line : rstr) : bool := match line with [] => true | _ => false end || starts_with [ch "#"] line.

(** The lines after a declaration are the rest of the function: the braces
    outside quotes and comments balance at the last line, and not before. The
    depth is [None] until the first brace. *)
Fixpoint closes_function (depth : option Z) (ls : list rstr) : bool :=
  match ls with
  | [] => bool_decide (depth = Some 0)
  | l :: ls =>
      negb (bool_decide (depth = Some 0)) &&
      (if blank (trim l) then closes_function depth ls
       else
         let '(opens, closes) := unquoted_braces (trim l) in
         match depth with
         | None => (0 <? opens) && (closes <=? opens) && closes_function (Some (opens - closes)) ls
         | Some d => (d + opens <=? u32_max) && (closes <=? d + opens) && closes_function (Some (d + opens - closes)) ls
         end)
  end.

Definition function_block (block : list rstr) : bool :=
  match block with
  | [] => false
  | decl :: body =>
      negb (blank (trim decl)) && function_declaration (trim decl) &&
      (let '(opens, closes) := unquoted_braces (trim decl) in
       (closes <=? opens) && closes_function (if opens =? 0 then None else Some (opens - closes)) body)
  end.

Definition with_vars (s : Pass) (vs : gmap rstr rstr) : Pass :=
  {| vars := vs; function_depth := function_depth s; awaiting_function_body := awaiting_function_body s;
     open_array := open_array s |}.

Lemma top_level_state s : top_level s = true -> s = with_vars first_state (vars s).
Proof.
  destruct s as [vs d w o]. unfold top_level, with_vars. simpl. intros [[Hd%Z.eqb_eq Hw]%andb_true_iff Ho]%andb_true_iff.
  destruct w, o; simplify_eq. done.
Qed.

(** The state inside a function at a depth. *)
Definition at_depth (vs : gmap rstr rstr) (depth : option Z) : Pass :=
  {| vars := vs; function_depth := default 0 depth; awaiting_function_body := bool_decide (depth = None); open_array := None |}.

(** The lines of a function are read to its end, and set nothing. *)
Lemma function_body_skipped vs depth body :
  match depth with Some d => 0 <= d | None => True end -> closes_function depth body = true ->
  for_each pass_line (at_depth vs depth) body = Ok (with_vars first_state vs).
Proof.
  revert depth. induction body as [|l body IH]; intros depth Hd; cbn [closes_function for_each].
  { intros ->%bool_decide_eq_true. done. }
  intros [Hopen H]%andb_true_iff. apply negb_true_iff, bool_decide_eq_false in Hopen.
  assert (Hline : exists depth', pass_line (at_depth vs depth) l = Ok (at_depth vs depth') /\
    match depth' with Some d => 0 <= d | None => True end /\ closes_function depth' body = true);
    [|destruct Hline as (depth' & -> & Hd' & Hc); by apply IH].
  unfold pass_line, statement_line. cbn [open_array at_depth]. fold (blank (trim l)). destruct (blank (trim l)).
  { by exists depth. }
  destruct depth as [d|]; cbn [function_depth awaiting_function_body at_depth from_option id].
  - rewrite (proj2 (Z.ltb_lt 0 d)) by (destruct (decide (d = 0)) as [->|]; [done|simpl in *; lia]).
    unfold function_line. destruct (unquoted_braces (trim l)) as [opens closes]. apply andb_true_iff in H as [[H1 H2]%andb_true_iff H3].
    exists (Some (d + opens - closes)). cbn [function_depth at_depth from_option id]. rewrite H1, H2. split; [done|].
    split; [apply Z.leb_le in H2; lia|done].
  - unfold body_line. destruct (unquoted_braces (trim l)) as [opens closes]. apply andb_true_iff in H as [[H1 H2]%andb_true_iff H3].
    exists (Some (opens - closes)). simpl. rewrite H1, H2. split; [done|]. split; [apply Z.leb_le in H2; lia|done].
Qed.

Lemma function_block_skipped s block : top_level s = true -> function_block block = true -> for_each pass_line s block = Ok s.
Proof.
  intros ->%top_level_state. unfold function_block. destruct block as [|decl body]; [done|].
  intros [[Hb%negb_true_iff Hd]%andb_true_iff H]%andb_true_iff. cbn [for_each].
  assert (Hl : pass_line (with_vars first_state (vars s)) decl = declaration_line (with_vars first_state (vars s)) (trim decl)).
  { unfold pass_line, statement_line. cbn [open_array with_vars first_state]. fold (blank (trim decl)). by rewrite Hb, Hd. }
  rewrite Hl. unfold declaration_line. destruct (unquoted_braces (trim decl)) as [opens closes].
  apply andb_true_iff in H as [Hc H]. rewrite Hc. simpl.
  apply (function_body_skipped (vars s)) in H; [by destruct (opens =? 0)|].
  apply Z.leb_le in Hc. destruct (opens =? 0); [done|lia].
Qed.

(** A function in the text is as if it were not there. *)
Lemma first_pass_skips_functions pre block post :
  Forall one_line (pre ++ block ++ post) -> function_block block = true ->
  (forall s, for_each pass_line first_state pre = Ok s -> top_level s = true) ->
  first_pass (unlines (pre ++ block ++ post)) = first_pass (unlines (pre ++ post)).
Proof.
  intros Hl Hb Hpre. assert (Hl' : Forall one_line (pre ++ post)) by (rewrite !Forall_app in *; naive_solver).
  unfold first_pass, unlines. rewrite !byte_lines_unlines by done.
  rewrite !for_each_app. destruct (for_each pass_line first_state pre) as [s|e]; [|done]. simpl.
  rewrite for_each_app, function_block_skipped; auto.
Qed.

(** Assignments inside the functions of a PKGBUILD do not reach the
    metadata: the parser returns the same result, or the same error, whether
    or not a function stands between two statements of the text. *)
Theorem functions_do_not_reach_metadata {Version} (parse_version : rstr -> option Version) (zero_version : Version)
    (iter : gmap rstr rstr -> list (rstr * rstr)) (pre block post : list rstr) :
  Forall one_line (pre ++ block ++ post) -> function_block block = true ->
  (forall s, for_each pass_line first_state pre = Ok s -> top_level s = true) ->
  parse_content parse_version zero_version iter (unlines (pre ++ block ++ post)) =
  parse_content parse_version zero_version iter (unlines (pre ++ post)).
Proof. intros Hl Hb Hpre. unfold parse_content. by rewrite first_pass_skips_functions. Qed.

(** * Witnesses *)

Lemma one_line_compute ls : forallb (fun l => negb (contains_char 10 l) && str_eqb (strip_cr l) l) ls = true -> Forall one_line ls.
Proof.
  intros H. apply Forall_forall. intros l Hl. rewrite forallb_forall in H. apply list_elem_of_In, H in Hl.
  apply andb_true_iff in Hl as [H1%negb_true_iff%contains_char_false H2%bool_decide_eq_true]. by split.
Qed.

Definition sample : list rstr :=
  [str "pkgname=demo"; str "_basename=$pkgname-data"; str "pkgdesc='${_basename} # $pkgname'"; str "depends=('a>=1' b # c"; str " d)"].

Definition build_function : list rstr := [str "build() {"; str "  pkgname=other"; str "  if true; then { make; }; fi"; str "}"].

Lemma indexed_expansion_is_ordered_passes_witness :
  parse_content Some [] map_to_list (unlines sample) =
  let? vs := first_pass (unlines sample) in
  metadata Some [] (fun v => for_each expand_pass v (sorted_substitutions map_to_list vs)) vs.
Proof.
  apply (indexed_expansion_is_ordered_passes Some [] map_to_list (fun m => Permutation_refl _) (unlines sample)).
  apply valid_str_compute. vm_compute. reflexivity.
Defined.

(** The sample is accepted, with its references expanded. *)
Lemma sample_is_expanded :
  match parse_content Some [] map_to_list (unlines sample) with
  | Ok p => description p = str "demo-data # demo" /\ depends p = [str "a>=1"; str "b"; str "d"]
  | Err _ => False
  end.
Proof. vm_compute. split; reflexivity. Qed.

Lemma functions_do_not_reach_metadata_witness :
  function_block build_function = true /\
  parse_content Some [] map_to_list (unlines (sample ++ build_function ++ [str "pkgrel=1"])) =
  parse_content Some [] map_to_list (unlines (sample ++ [str "pkgrel=1"])).
Proof.
  split; [vm_compute; reflexivity|].
  apply (functions_do_not_reach_metadata Some [] map_to_list sample build_function [str "pkgrel=1"]).
  - apply one_line_compute. vm_compute. reflexivity.
  - vm_compute. reflexivity.
  - vm_compute. by intros s [= <-].
Defined.

Lemma accepted_metadata_is_within_budget_witness :
  exists p, parse_content Some [] map_to_list (unlines sample) = Ok p /\ within_budget p.
Proof.
  destruct (parse_content Some [] map_to_list (unlines sample)) as [p|] eqn:H; [|by vm_compute in H].
  exists p. split; [reflexivity|]. apply (accepted_metadata_is_within_budget Some [] map_to_list (fun m => Permutation_refl _) (unlines sample) p).
  - apply valid_str_compute. vm_compute. reflexivity.
  - exact H.
Defined.
