(* ===== verification/PkgbuildPrint.v ===== *)
(** Printing the metadata of a PKGBUILD: the parser of [Pkgbuild] reads back
    what is written with single quotes, and two behaviours of the expansion
    that follow from it: the work of one pass is not bounded by the budget,
    and the result can depend on the order of the hash map. *)

From S2P Require Import Prelude Pkgbuild PkgbuildProofs.
Open Scope Z_scope.
Open Scope omg_scope.

(** * Quoted text *)

Definition quoted (v : rstr) : rstr := SQUOTE :: v ++ [SQUOTE].

Definition plain (c : char) : bool := negb (is_quote c) && negb (c =? ch "\") && negb (c =? ch "#").

Lemma plain_facts c : plain c = true -> is_quote c = false /\ is_escape None c = false /\ (c =? ch "#") = false.
Proof. unfold plain, is_escape. intros H. to_prop. by destruct (is_quote c), (c =? ch "\"), (c =? ch "#"). Qed.

Lemma is_escape_squote c : is_escape (Some SQUOTE) c = false.
Proof. unfold is_escape. rewrite bool_decide_true by done. apply andb_false_r. Qed.

Lemma strip_inside p v rest : (SQUOTE ∉ v) ->
  strip_comment_from p (Some SQUOTE) false (v ++ SQUOTE :: rest) = v ++ SQUOTE :: strip_comment_from (Some SQUOTE) None false rest.
Proof.
  revert p. induction v as [|c v IH]; intros p Hv; cbn [app strip_comment_from].
  - rewrite is_escape_squote, Z.eqb_refl. done.
  - apply not_elem_of_cons in Hv as [Hc Hv]. rewrite is_escape_squote, (proj2 (Z.eqb_neq c SQUOTE)) by congruence.
    f_equal. by apply IH.
Qed.

Lemma strip_quoted p v rest : (SQUOTE ∉ v) ->
  strip_comment_from p None false (quoted v ++ rest) = quoted v ++ strip_comment_from (Some SQUOTE) None false rest.
Proof.
  intros Hv. unfold quoted. cbn [app strip_comment_from]. rewrite <- !app_assoc. cbn [app].
  change (is_escape None SQUOTE) with false. change (is_quote SQUOTE) with true. cbv iota. by rewrite strip_inside.
Qed.

Lemma strip_plain p c rest : plain c = true ->
  strip_comment_from p None false (c :: rest) = c :: strip_comment_from (Some c) None false rest.
Proof. intros (Hq & He & Hh)%plain_facts. cbn [strip_comment_from]. by rewrite He, Hq, Hh. Qed.

Lemma strip_plain_app p s rest : Forall (fun c => plain c = true) s ->
  exists p', strip_comment_from p None false (s ++ rest) = s ++ strip_comment_from p' None false rest.
Proof.
  intros H. revert p. induction H as [|c s Hc _ IH]; intros p; [by exists p|]. cbn [app]. rewrite strip_plain by done.
  destruct (IH (Some c)) as [p' ->]. by exists p'.
Qed.

(** ** The items of an array *)

Definition item_text (v : rstr) : Prop := (SQUOTE ∉ v) /\ (10 ∉ v).

Definition array_text (l : list rstr) : rstr := ch "(" :: join_space (map quoted l) ++ [ch ")"].

Lemma join_space_cons (s : rstr) l : l ≠ [] -> join_space (s :: l) = s ++ ch " " :: join_space l.
Proof. by destruct l. Qed.

(** Reading a list of quoted items, one character class at a time. *)
Lemma items_ind (P : list rstr -> Prop) :
  P [] -> (forall v, P [v]) -> (forall v l, l ≠ [] -> P l -> P (v :: l)) -> forall l, P l.
Proof. intros H0 H1 H2 l. induction l as [|v [|w l] IH]; [done|apply H1|by apply H2]. Qed.

Lemma strip_items l p rest : Forall (fun v => SQUOTE ∉ v) l ->
  exists p', strip_comment_from p None false (join_space (map quoted l) ++ rest) =
    join_space (map quoted l) ++ strip_comment_from p' None false rest.
Proof.
  revert p. induction l as [|v|v l Hne IH] using items_ind; intros p Hl; [by exists p|..]; apply Forall_cons in Hl as [Hv Hl].
  - exists (Some SQUOTE). by apply strip_quoted.
  - cbn [map]. rewrite join_space_cons by (by destruct l). rewrite <- !app_assoc. cbn [app].
    rewrite strip_quoted, strip_plain by done. destruct (IH (Some (ch " ")) Hl) as [p' ->]. exists p'. by rewrite <- !app_assoc.
Qed.

Lemma strip_array p l : Forall item_text l -> strip_comment_from p None false (array_text l) = array_text l.
Proof.
  intros Hl. unfold array_text. rewrite strip_plain by done.
  destruct (strip_items l (Some (ch "(")) [ch ")"]) as [p' ->]; [|by rewrite strip_plain].
  eapply Forall_impl; [exact Hl|]. by intros v [].
Qed.

Definition in_array (d : Z) : ArrayCompletion := {| quote := None; escaped := false; depth := d |}.

Lemma scan_inside d v rest : (SQUOTE ∉ v) ->
  scan {| quote := Some SQUOTE; escaped := false; depth := d |} (v ++ SQUOTE :: rest) = scan (in_array d) rest.
Proof.
  induction v as [|c v IH]; intros Hv; cbn [app scan escaped quote depth]; rewrite is_escape_squote.
  - by rewrite Z.eqb_refl.
  - apply not_elem_of_cons in Hv as [Hc Hv]. rewrite (proj2 (Z.eqb_neq c SQUOTE)) by congruence. by apply IH.
Qed.

Lemma scan_items d l rest : Forall item_text l ->
  scan (in_array d) (join_space (map quoted l) ++ rest) = scan (in_array d) rest.
Proof.
  induction l as [|v|v l Hne IH] using items_ind; intros Hl; [done|..]; apply Forall_cons in Hl as [[Hv _] Hl].
  - cbn [map join_space]. unfold quoted. cbn [app scan in_array escaped quote depth]. rewrite <- app_assoc. by apply scan_inside.
  - cbn [map]. rewrite join_space_cons by (by destruct l). rewrite <- app_assoc. unfold quoted at 1.
    cbn [app scan in_array escaped quote depth]. rewrite <- app_assoc. cbn [app].
    change (is_escape None SQUOTE) with false. change (is_quote SQUOTE) with true. cbv iota.
    rewrite scan_inside by done. cbn [scan in_array escaped quote depth]. by apply IH.
Qed.

Lemma scan_array l : Forall item_text l -> exists c, scan default_completion (array_text l) = Ok (c, true).
Proof.
  intros Hl. unfold array_text. cbn [scan default_completion escaped quote depth].
  change (is_escape None (ch "(")) with false. change (is_quote (ch "(")) with false. change (ch "(" =? ch "(") with true.
  cbv iota. change (Z.min (0 + 1) u32_max) with 1. fold (in_array 1). rewrite scan_items by done. eexists. reflexivity.
Qed.

Definition between (its : list rstr) (tok : rstr) (started : bool) : ArrayScan :=
  {| items := its; token := tok; token_started := started; array_quote := None; array_escaped := false |}.

Lemma array_inside its tok v rest : (SQUOTE ∉ v) ->
  foldl array_char {| items := its; token := tok; token_started := true; array_quote := Some SQUOTE; array_escaped := false |}
    (v ++ SQUOTE :: rest) = foldl array_char (between its (tok ++ v) true) rest.
Proof.
  revert tok. induction v as [|c v IH]; intros tok Hv; cbn [app foldl].
  - by rewrite app_nil_r.
  - apply not_elem_of_cons in Hv as [Hc Hv]. unfold array_char at 2. cbn [array_escaped array_quote items token token_started].
    rewrite is_escape_squote, (proj2 (Z.eqb_neq c SQUOTE)) by congruence. rewrite IH by done. by rewrite <- app_assoc.
Qed.

Lemma array_quoted its v rest : (SQUOTE ∉ v) ->
  foldl array_char (between its [] false) (quoted v ++ rest) = foldl array_char (between its v true) rest.
Proof.
  intros Hv. unfold quoted. cbn [app foldl]. rewrite <- app_assoc. cbn [app]. exact (array_inside its [] v rest Hv).
Qed.

Lemma array_items its l : Forall item_text l ->
  exists its' tok started, foldl array_char (between its [] false) (join_space (map quoted l)) = between its' tok started /\
    (if started then its' ++ [tok] else its') = its ++ l.
Proof.
  revert its. induction l as [|v|v l Hne IH] using items_ind; intros its Hl.
  - exists its, [], false. by rewrite app_nil_r.
  - apply Forall_cons in Hl as [[Hv _] _]. exists its, v, true. split; [|done].
    assert (H := array_quoted its v [] Hv). by rewrite app_nil_r in H.
  - apply Forall_cons in Hl as [[Hv _] Hl]. cbn [map]. rewrite join_space_cons, array_quoted by (done || by destruct l).
    cbn [foldl]. destruct (IH (its ++ [v]) Hl) as (its' & tok & started & H1 & H2). exists its', tok, started.
    split; [exact H1|]. by rewrite H2, <- app_assoc.
Qed.

Lemma array_text_ends l : visible_ends (array_text l).
Proof. split; [by eexists _, _|]. by exists (ch "(" :: join_space (map quoted l)), (ch ")"). Qed.

Lemma not_in_join (c : char) l : c ≠ SQUOTE -> c ≠ ch " " -> Forall (fun v => c ∉ v) l -> c ∉ join_space (map quoted l).
Proof.
  intros Hq Hs. induction l as [|v|v l Hne IH] using items_ind; intros Hl; [apply not_elem_of_nil|..];
    apply Forall_cons in Hl as [Hv Hl]; cbn [map]; [|rewrite join_space_cons by (by destruct l)]; unfold quoted in *;
    cbn [join_space]; set_solver.
Qed.

Lemma not_in_array (c : char) l : c ≠ SQUOTE -> c ≠ ch " " -> c ≠ ch "(" -> c ≠ ch ")" -> Forall (fun v => c ∉ v) l ->
  c ∉ array_text l.
Proof. intros H1 H2 H3 H4 Hl. apply (not_in_join c l H1 H2) in Hl. unfold array_text. set_solver. Qed.

Lemma byte_lines_single s : s ≠ [] -> 10 ∉ s -> byte_lines s = [s].
Proof. intros Hne Hs. unfold byte_lines. rewrite split_char_none by done. cbn [terminated]. by rewrite decide_False. Qed.

(** Any list of items without quotes and line ends is read back. *)
Lemma array_roundtrip l : Forall item_text l -> parse_array (array_text l) = Ok l.
Proof.
  intros Hl. unfold parse_array. rewrite byte_lines_single; [|done|].
  2: { apply not_in_array; [done..|]. eapply Forall_impl; [exact Hl|]. by intros v []. }
  cbn [map join_space]. unfold strip_inline_comment. rewrite strip_array, trim_visible by (done || apply array_text_ends).
  assert (Hp : strip_prefix [ch "("] (array_text l) ≫= strip_suffix [ch ")"] = Some (join_space (map quoted l))).
  { unfold array_text. cbn [strip_prefix]. rewrite Z.eqb_refl. cbn [mbind option_bind]. by apply strip_suffix_Some. }
  rewrite Hp. cbn [ok_or res_bind]. destruct (array_items [] l Hl) as (its & tok & started & Hf & Heq).
  change array_start with (between [] [] false). rewrite Hf. simpl. simpl in Heq. by rewrite Heq.
Qed.

(** * Lines *)

Definition assignment (key val : rstr) : rstr := key ++ ch "=" :: val.

(** A value that no scanner of comments shortens. *)
Definition solid (val : rstr) : Prop := visible_ends val /\ forall p, strip_comment_from p None false val = val.

Lemma quoted_solid v : (SQUOTE ∉ v) -> solid (quoted v).
Proof.
  intros Hv. split; [split; [by exists SQUOTE, (v ++ [SQUOTE])|by exists (SQUOTE :: v), SQUOTE]|]. intros p.
  assert (H := strip_quoted p v [] Hv). cbn [strip_comment_from] in H. by rewrite app_nil_r in H.
Qed.

Lemma array_solid l : Forall item_text l -> solid (array_text l).
Proof. intros Hl. split; [apply array_text_ends|]. intros p. by apply strip_array. Qed.

Lemma key_char_plain c : is_key_char c = true ->
  plain c = true /\ is_whitespace c = false /\ c ≠ ch "=" /\ c ≠ ch "(" /\ c ≠ ch " " /\ c ≠ 10.
Proof.
  unfold is_key_char, is_ascii_lowercase, is_ascii_digit, plain, is_quote, SQUOTE, DQUOTE, is_whitespace. ev_ch. intros H.
  assert (Hc : 97 <= c <= 122 \/ 48 <= c <= 57 \/ c = 95) by lia. clear H. repeat split; lia.
Qed.

Section lines.
Context (key val : rstr) (Hne : key ≠ []) (Hkey : key_chars key) (Hval : solid val).

Lemma key_plain : Forall (fun c => plain c = true) key.
Proof. eapply Forall_impl; [exact Hkey|]. intros c H. by apply key_char_plain. Qed.

Lemma not_in_key c : is_key_char c = false -> c ∉ key.
Proof. intros H Hin. unfold key_chars in Hkey. rewrite Forall_forall in Hkey. apply Hkey in Hin. congruence. Qed.

Lemma assignment_strip : strip_inline_comment (assignment key val) = assignment key val.
Proof.
  unfold strip_inline_comment, assignment. destruct (strip_plain_app None key (ch "=" :: val) key_plain) as [p ->].
  rewrite strip_plain by done. by rewrite (proj2 Hval).
Qed.

Lemma assignment_ends : visible_ends (assignment key val).
Proof.
  unfold assignment. split.
  - destruct key as [|c k]; [done|]. exists c, (k ++ ch "=" :: val). split; [done|]. apply Forall_cons in Hkey as [Hc _].
    by apply key_char_plain.
  - destruct Hval as [[_ (r & c & -> & Hc)] _]. exists (key ++ ch "=" :: r), c. by rewrite <- app_assoc.
Qed.

Lemma assignment_no_function : strip_prefix (str "function ") (assignment key val) = None.
Proof.
  destruct (strip_prefix (str "function ") (assignment key val)) as [r|] eqn:H; [|done].
  apply strip_prefix_Some in H. assert (Hs : forall a c b, key_chars a -> is_key_char c = false ->
    span_not (fun c => negb (is_key_char c)) (a ++ c :: b) = (a, c :: b)).
  { intros a c b Ha Hc. apply span_not_cut; [|by rewrite Hc]. eapply Forall_impl; [exact Ha|]. by intros d ->. }
  assert (H1 := Hs key (ch "=") val Hkey eq_refl). fold (assignment key val) in H1. rewrite H in H1.
  change (str "function " ++ r) with (str "function" ++ ch " " :: r) in H1. rewrite Hs in H1; [done| |done].
  by apply key_chars_compute.
Qed.

Lemma elem_of_trim_start (p : char -> bool) c s : c ∈ s -> p c = false -> c ∈ trim_start_matches p s.
Proof.
  intros Hin Hc. induction s as [|d s IH]; [done|]. cbn [trim_start_matches]. destruct (p d) eqn:Hd; [|done].
  apply elem_of_cons in Hin as [->|Hin]; [congruence|by apply IH].
Qed.

Lemma elem_of_trim c s : c ∈ s -> is_whitespace c = false -> c ∈ trim s.
Proof.
  intros Hin Hc. unfold trim. rewrite list_elem_of_In, <- in_rev, <- list_elem_of_In. apply elem_of_trim_start; [|done].
  rewrite list_elem_of_In, <- in_rev, <- list_elem_of_In. by apply elem_of_trim_start.
Qed.

Lemma not_identifier s : ch "=" ∈ s -> is_shell_identifier s = false.
Proof.
  intros Hin. destruct (is_shell_identifier s) eqn:H; [|done]. destruct s as [|c s]; [done|]. simpl in H.
  apply andb_true_iff in H as [Hc Hs]. apply elem_of_cons in Hin as [<-|Hin]; [done|].
  rewrite forallb_forall in Hs. apply list_elem_of_In, Hs in Hin. done.
Qed.

Lemma assignment_not_declaration : function_declaration (assignment key val) = false.
Proof.
  unfold function_declaration. rewrite assignment_strip, trim_visible, assignment_no_function by apply assignment_ends.
  destruct (split_once (ch "(") (assignment key val)) as [[n r]|] eqn:H; [|done].
  apply split_once_Some in H as [H _]. rewrite not_identifier; [done|]. apply elem_of_trim; [|done].
  assert (Hin : ch "(" ∉ key) by by apply not_in_key. unfold assignment in H. clear - H Hin. revert n H.
  induction key as [|c k IH]; intros [|d n] H; simpl in H; simplify_eq; [set_solver..|].
  apply not_elem_of_cons in Hin as [_ Hin]. apply elem_of_cons. right. by apply IH.
Qed.
(** A printed assignment is read as one, between statements. *)
Lemma assignment_read s : top_level s = true ->
  pass_line s (assignment key val) =
  if starts_with [ch "("] val then
    let? (completion, complete) := scan default_completion val in
    Ok (continue_array s {| array_key := key; array_content := val; completion := completion |} complete)
  else Ok (insert_var s key (trim_char SQUOTE (trim_char DQUOTE val))).
Proof.
  intros Hs. rewrite (top_level_state _ Hs). clear Hs. unfold pass_line, statement_line. cbn [open_array with_vars first_state].
  rewrite trim_visible by apply assignment_ends. rewrite assignment_not_declaration.
  assert (Hstart : (match assignment key val with [] => true | _ => false end || starts_with [ch "#"] (assignment key val)) = false).
  { unfold assignment. destruct key as [|c k]; [done|]. cbn [app orb]. rewrite starts_with_cons.
    apply Forall_cons in Hkey as [Hc _]. apply key_char_plain in Hc as [Hc%plain_facts _].
    rewrite Z.eqb_sym. by destruct Hc as (_ & _ & ->). }
  rewrite Hstart. cbn [function_depth awaiting_function_body with_vars first_state]. simpl (0 <? 0). cbv iota.
  unfold assignment_line. replace (split_once (ch "=") (assignment key val)) with (Some (key, val)).
  2: { symmetry. apply split_once_Some. split; [done|]. by apply not_in_key. }
  unfold strip_inline_comment. rewrite (proj2 Hval), (trim_visible val) by apply Hval.
  rewrite (trim_visible key).
  2: { apply word_ends. split; [done|]. eapply Forall_impl; [exact Hkey|]. intros c H. by apply key_char_plain. }
  replace (forallb is_key_char key) with true; [done|]. symmetry. apply forallb_forall. intros c Hc.
  unfold key_chars in Hkey. rewrite Forall_forall in Hkey. by apply Hkey, list_elem_of_In.
Qed.
End lines.

Lemma trim_start_squote v : (SQUOTE ∉ v) -> trim_start_matches (Z.eqb SQUOTE) v = v.
Proof.
  destruct v as [|c v]; [done|]. intros [Hc _]%not_elem_of_cons. cbn [trim_start_matches].
  by rewrite (proj2 (Z.eqb_neq _ _) Hc).
Qed.

Lemma trim_quoted v : (SQUOTE ∉ v) -> trim_char SQUOTE (trim_char DQUOTE (quoted v)) = v.
Proof.
  intros Hv. assert (Hd : trim_char DQUOTE (quoted v) = quoted v).
  { unfold trim_char, quoted. cbn [trim_start_matches]. change (DQUOTE =? SQUOTE) with false. cbv iota.
    cbn [rev]. rewrite rev_app_distr. cbn [rev app trim_start_matches]. change (DQUOTE =? SQUOTE) with false. cbv iota.
    cbn [rev]. rewrite rev_app_distr, rev_involutive. done. }
  rewrite Hd. unfold trim_char, quoted. cbn [trim_start_matches]. rewrite Z.eqb_refl.
  destruct v as [|c v]; [done|]. assert (Hc := Hv). apply not_elem_of_cons in Hc as [Hc _].
  cbn [app trim_start_matches]. rewrite (proj2 (Z.eqb_neq _ _) Hc).
  change (c :: v ++ [SQUOTE]) with ((c :: v) ++ [SQUOTE]). rewrite rev_app_distr. cbn [rev app trim_start_matches].
  rewrite Z.eqb_refl, trim_start_squote.
  - change (rev (rev (c :: v)) = c :: v). apply rev_involutive.
  - intros Hin. apply Hv. change (SQUOTE ∈ rev (c :: v)) in Hin. by rewrite list_elem_of_In, <- in_rev, <- list_elem_of_In in Hin.
Qed.

Lemma scalar_read s key v : top_level s = true -> key ≠ [] -> key_chars key -> (SQUOTE ∉ v) ->
  pass_line s (assignment key (quoted v)) = Ok (insert_var s key v).
Proof.
  intros Hs Hne Hk Hv. rewrite assignment_read by (done || by apply quoted_solid). by rewrite trim_quoted.
Qed.

Lemma array_read s key l : top_level s = true -> key ≠ [] -> key_chars key -> Forall item_text l ->
  pass_line s (assignment key (array_text l)) = Ok (insert_var s key (array_text l)).
Proof.
  intros Hs Hne Hk Hl. rewrite assignment_read by (done || by apply array_solid).
  destruct (scan_array l Hl) as [c ->]. done.
Qed.

(** * Printing *)

Inductive Field := Scalar (v : rstr) | Array (l : list rstr).

Definition stored (f : Field) : rstr := match f with Scalar v => v | Array l => array_text l end.

Definition field_line (f : rstr * Field) : rstr :=
  assignment f.1 match f.2 with Scalar v => quoted v | Array l => array_text l end.

Definition insert_field (s : Pass) (f : rstr * Field) : Pass := insert_var s f.1 (stored f.2).

(** Text without single quotes, line ends and dollar signs. *)
Definition scalar_text (v : rstr) : Prop := valid_str v /\ (SQUOTE ∉ v) /\ (10 ∉ v) /\ (ch "$" ∉ v).

Definition field_text (f : Field) : Prop :=
  match f with Scalar v => scalar_text v | Array l => Forall scalar_text l end /\
  str_len (stored f) <= MAX_SUBSTITUTED_VALUE_BYTES.

Definition field_ok (f : rstr * Field) : Prop := f.1 ≠ [] /\ key_chars f.1 /\ field_text f.2.

Lemma scalar_item v : scalar_text v -> item_text v.
Proof. by intros (_ & H1 & H2 & _). Qed.

Lemma array_items_text l : Forall scalar_text l -> Forall item_text l.
Proof. intros H. eapply Forall_impl; [exact H|]. apply scalar_item. Qed.

Lemma field_read s f : top_level s = true -> field_ok f -> pass_line s (field_line f) = Ok (insert_field s f).
Proof.
  intros Hs (Hne & Hk & Hf & _). destruct f as [key [v|l]]; simpl in *.
  - apply scalar_read; [done..|apply Hf].
  - apply array_read; [done..|by apply array_items_text].
Qed.

Lemma fields_read s fs : top_level s = true -> Forall field_ok fs ->
  for_each pass_line s (map field_line fs) = Ok (foldl insert_field s fs) /\ top_level (foldl insert_field s fs) = true.
Proof.
  intros Hs H. revert s Hs. induction H as [|f fs Hf _ IH]; intros s Hs; [done|]. cbn [map for_each foldl].
  rewrite field_read by done. simpl. apply IH. rewrite (top_level_state _ Hs). done.
Qed.

Lemma array_valid l : Forall scalar_text l -> valid_str (array_text l).
Proof.
  intros H. apply valid_str_compute. unfold array_text. simpl. rewrite forallb_app. simpl. rewrite andb_true_r.
  induction l as [|v|v l Hne IH] using items_ind; [done|..]; apply Forall_cons in H as [[Hv _] H];
    assert (Hq : forallb is_scalar (quoted v) = true)
      by (unfold quoted; simpl; rewrite forallb_app; simpl; rewrite andb_true_r; apply forallb_forall; intros c Hc;
          unfold valid_str in Hv; rewrite Forall_forall in Hv; by apply Hv, list_elem_of_In).
  - done.
  - cbn [map]. rewrite join_space_cons by (by destruct l). rewrite forallb_app, Hq. simpl. by apply IH.
Qed.

Lemma stored_ok f : field_text f -> valid_str (stored f) /\ (ch "$" ∉ stored f) /\ (10 ∉ stored f).
Proof.
  intros [Hf _]. destruct f as [v|l]; simpl in *; [by destruct Hf as (? & _ & ? & ?)|]. split; [by apply array_valid|].
  split; (apply not_in_array; [done..|]); (eapply Forall_impl; [exact Hf|]); by intros v (_ & _ & ? & ?).
Qed.

Lemma field_array l : field_text (Array l) -> parse_array (array_text l) = Ok l.
Proof. intros [Hl _]. by apply array_roundtrip, array_items_text. Qed.

Lemma line_ok f : field_ok f -> one_line (field_line f).
Proof.
  intros (Hne & Hk & Hf). assert (H10 : 10 ∉ f.1) by (by apply not_in_key).
  split.
  - destruct (stored_ok _ Hf) as (_ & _ & Hn). destruct f as [key [v|l]]; unfold field_line, assignment, quoted; simpl in *; set_solver.
  - apply strip_cr_visible. destruct f as [key [v|l]]; simpl in *; apply assignment_ends; [done..| |done|done|].
    + apply quoted_solid. apply Hf.
    + by apply array_solid, array_items_text, Hf.
Qed.

Lemma occurs_no_dollar key v : (ch "$" ∉ v) -> occurs key v = false.
Proof.
  induction v as [|c v IH]; intros Hv; [done|]. apply not_elem_of_cons in Hv as [Hc Hv].
  rewrite occurs_cons, IH by done. by rewrite (proj2 (Z.eqb_neq _ _)) by congruence.
Qed.

(** What the first pass stores is what was printed. *)
Lemma first_pass_printed fs : Forall field_ok fs ->
  first_pass (unlines (map field_line fs)) = Ok (vars (foldl insert_field first_state fs)).
Proof.
  intros H. unfold first_pass, unlines. rewrite byte_lines_unlines.
  - destruct (fields_read first_state fs eq_refl H) as [-> Ht]. simpl. rewrite (top_level_state _ Ht). done.
  - apply Forall_map. eapply Forall_impl; [exact H|]. apply line_ok.
Qed.

Lemma printed_vars fs (P : rstr -> rstr -> Prop) : Forall (fun f => P f.1 (stored f.2)) fs ->
  map_Forall P (vars (foldl insert_field first_state fs)).
Proof.
  intros H. assert (Hg : forall s, map_Forall P (vars s) -> map_Forall P (vars (foldl insert_field s fs))).
  { induction H as [|f fs Hf _ IH]; intros s Hs; [done|]. cbn [foldl]. apply IH. by apply map_Forall_insert_2. }
  apply Hg, map_Forall_empty.
Qed.

(** Each printed field is stored under its key. *)
Lemma printed_lookup fs key f : NoDup fs.*1 -> (key, f) ∈ fs -> vars (foldl insert_field first_state fs) !! key = Some (stored f).
Proof.
  intros Hnd Hin. assert (Hkeep : forall gs s v, (key ∉ gs.*1) -> vars s !! key = Some v -> vars (foldl insert_field s gs) !! key = Some v).
  { induction gs as [|g gs IH]; intros s v Hk Hv; [done|]. apply not_elem_of_cons in Hk as [Hne Hk]. apply IH; [done|].
    simpl. by rewrite lookup_insert_ne by congruence. }
  revert Hnd Hin. generalize first_state. induction fs as [|g fs IH]; intros s Hnd Hin; [by apply not_elem_of_nil in Hin|].
  apply NoDup_cons in Hnd as [Hg Hnd]. apply elem_of_cons in Hin as [<-|Hin]; [|by apply IH].
  cbn [foldl]. apply Hkeep; [exact Hg|]. apply lookup_insert_eq.
Qed.

Section roundtrip.
Context {Version : Type} (parse_version : rstr -> option Version) (zero_version : Version).
Context (iter : gmap rstr rstr -> list (rstr * rstr)) (Hiter : forall m, iter m ≡ₚ map_to_list m).

Definition fields (raw : rstr) (p : PkgBuild (Version := Version)) : list (rstr * Field) :=
  [(str "pkgname", Scalar (name p)); (str "pkgver", Scalar raw); (str "pkgrel", Scalar (release p));
   (str "pkgdesc", Scalar (description p)); (str "url", Scalar (url p)); (str "license", Array (license p));
   (str "depends", Array (depends p)); (str "makedepends", Array (makedepends p));
   (str "checkdepends", Array (checkdepends p)); (str "source", Array (sources p));
   (str "sha256sums", Array (sha256sums p)); (str "validpgpkeys", Array (validpgpkeys p))].

(** The text of a PKGBUILD with the metadata [p], its version written [raw]. *)
Definition print_pkgbuild (raw : rstr) (p : PkgBuild (Version := Version)) : rstr := unlines (map field_line (fields raw p)).

Definition printable (raw : rstr) (p : PkgBuild (Version := Version)) : Prop :=
  Forall (fun f => field_text f.2) (fields raw p).

Lemma fields_ok raw p : printable raw p -> Forall field_ok (fields raw p).
Proof.
  intros H. assert (Hk : Forall (fun f => f.1 ≠ [] /\ key_chars f.1) (fields raw p)).
  { unfold fields. rewrite !Forall_cons. repeat split; (done || by apply key_chars_compute). }
  apply Forall_forall. intros f Hf. unfold printable in H. rewrite Forall_forall in Hk, H.
  destruct (Hk f Hf) as [? ?]. split; [done|]. split; [done|]. by apply H.
Qed.

(** Values without references expand to themselves. *)
Lemma expansion_is_identity fs nodes k v :
  Forall field_ok fs -> new_index (sorted_substitutions iter (vars (foldl insert_field first_state fs))) = Some nodes ->
  vars (foldl insert_field first_state fs) !! k = Some v ->
  substitute (sorted_substitutions iter (vars (foldl insert_field first_state fs))) nodes v = Ok v.
Proof.
  intros Hfs Hn Hk.
  assert (Hv : map_Forall (fun k v => var_ok k v /\ (ch "$" ∉ v) /\ str_len v <= MAX_SUBSTITUTED_VALUE_BYTES)
    (vars (foldl insert_field first_state fs))).
  { apply printed_vars. eapply Forall_impl; [exact Hfs|]. intros f (_ & Hkey & Hf). destruct (stored_ok _ Hf) as (? & ? & _).
    split; [by split|]. split; [done|apply Hf]. }
  destruct (substitute_is_passes iter Hiter (vars (foldl insert_field first_state fs))) as (nodes' & Hn' & Hs).
  { intros k' v' H'. by apply (Hv k'). }
  rewrite Hn in Hn'. injection Hn' as <-. destruct (Hv _ _ Hk) as ([_ Hval] & Hd & Hlen). rewrite Hs by done.
  apply skip_passes; [|done]. apply Forall_forall. intros kv _. by apply occurs_no_dollar.
Qed.

(** C37: Metadata printed as a PKGBUILD, scalars and array items in single
    quotes, is read back as it was, whatever spaces, comment signs, braces or
    parentheses the texts contain and in whatever order the hash map is
    iterated, provided that no text has a single quote, a newline or a dollar
    sign (the parser expands variables inside single quotes too) and that no
    field is longer than the limit on an expanded value, 1 MiB. *)
Theorem metadata_roundtrip raw p :
  parse_version raw = Some (version p) -> printable raw p ->
  parse_content parse_version zero_version iter (print_pkgbuild raw p) = Ok p.
Proof.
  intros Hraw Hp. assert (Hfs := fields_ok _ _ Hp). unfold parse_content, print_pkgbuild.
  rewrite first_pass_printed by done. cbn [res_bind].
  destruct (substitute_is_passes iter Hiter (vars (foldl insert_field first_state (fields raw p)))) as (nodes & Hn & _).
  { apply printed_vars. eapply Forall_impl; [exact Hfs|]. intros f (_ & Hk & Hf). split; [done|]. by apply stored_ok. }
  rewrite Hn. cbn [ok_or res_bind].
  rewrite (metadata_ext parse_version zero_version _ (fun v => Ok v)).
  2: { intros k v Hk. by apply (expansion_is_identity _ _ k). }
  unfold printable, fields in Hp. rewrite !Forall_cons in Hp. simpl in Hp. destruct_and!.
  assert (Hget : forall key f, (key, f) ∈ fields raw p ->
    vars (foldl insert_field first_state (fields raw p)) !! key = Some (stored f)).
  { intros key f. apply printed_lookup. by apply (bool_decide_unpack _). }
  unfold metadata, scalar, array, pkgver.
  rewrite (Hget (str "pkgname") (Scalar (name p))), (Hget (str "pkgver") (Scalar raw)), (Hget (str "pkgrel") (Scalar (release p))),
    (Hget (str "pkgdesc") (Scalar (description p))), (Hget (str "url") (Scalar (url p))),
    (Hget (str "license") (Array (license p))), (Hget (str "depends") (Array (depends p))),
    (Hget (str "makedepends") (Array (makedepends p))), (Hget (str "checkdepends") (Array (checkdepends p))),
    (Hget (str "source") (Array (sources p))), (Hget (str "sha256sums") (Array (sha256sums p))),
    (Hget (str "validpgpkeys") (Array (validpgpkeys p))) by (unfold fields; repeat constructor).
  cbn [res_bind stored]. rewrite Hraw. cbn [ok_or res_bind]. rewrite (field_array (license p)), (field_array (depends p)),
    (field_array (makedepends p)), (field_array (checkdepends p)), (field_array (sources p)), (field_array (sha256sums p)),
    (field_array (validpgpkeys p)) by assumption.
  by destruct p.
Qed.
End roundtrip.

(** * What the budget does not bound *)

(** One pass builds its whole result before it is measured. *)
Lemma replace_repeated (m : rstr) n :
  replace (bare_reference (str "a")) m (concat (replicate n (bare_reference (str "a")))) = concat (replicate n m).
Proof. induction n as [|n IH]; [done|]. cbn [replicate concat]. unfold replace in *. simpl. by rewrite IH. Qed.

Lemma str_len_repeated (s : rstr) n : str_len (concat (replicate n s)) = Z.of_nat n * str_len s.
Proof. induction n as [|n IH]; [done|]. cbn [replicate concat]. rewrite str_len_app, IH. lia. Qed.

Definition repeated (n : nat) : rstr := concat (replicate n (bare_reference (str "a"))).

Definition long (n : nat) : rstr := concat (replicate n (str "x")).

Definition bomb (n : nat) : rstr := unlines (map field_line [(str "a", Scalar (long n)); (str "pkgdesc", Scalar (repeated n))]).

Lemma not_in_repeated (c : char) s n : (c ∉ s) -> c ∉ concat (replicate n s).
Proof. intros H. induction n as [|n IH]; [apply not_elem_of_nil|]. cbn [replicate concat]. set_solver. Qed.

Definition bomb_vars (n : nat) : gmap rstr rstr := <[str "pkgdesc" := repeated n]> (<[str "a" := long n]> ∅).

Lemma bomb_text c n : c ∈ [SQUOTE; 10] -> (c ∉ long n) /\ (c ∉ repeated n).
Proof. intros Hc. split; apply not_in_repeated; revert Hc; clear; set_solver by (vm_compute; congruence). Qed.

Lemma bomb_read n : first_pass (bomb n) = Ok (bomb_vars n).
Proof.
  destruct (bomb_text SQUOTE n) as [Hl Hr]; [set_solver|]. destruct (bomb_text 10 n) as [Hl' Hr']; [set_solver|].
  unfold first_pass, bomb, unlines. rewrite byte_lines_unlines.
  - cbn [map for_each]. unfold field_line. cbn [fst snd].
    rewrite scalar_read by (done || by apply key_chars_compute). cbn [res_bind].
    rewrite scalar_read by (done || by apply key_chars_compute). done.
  - assert (Hone : forall key v, key ≠ [] -> key_chars key -> (SQUOTE ∉ v) -> (10 ∉ v) -> one_line (field_line (key, Scalar v))).
    { intros key v Hne Hk H1 H2. split.
      - assert (10 ∉ key) by (by apply not_in_key). unfold field_line, assignment, quoted. simpl. set_solver.
      - apply strip_cr_visible, assignment_ends; [done..|by apply quoted_solid]. }
    repeat constructor; apply Hone; (done || by apply key_chars_compute).
Qed.

(** The size of the file is linear in [n], the string that the pass for [a]
    builds before it is measured is quadratic. *)
Lemma bomb_size n : str_len (bomb n) = 3 * Z.of_nat n + 16 /\
  str_len (replace (bare_reference (str "a")) (long n) (repeated n)) = Z.of_nat n * Z.of_nat n.
Proof.
  assert (Hl : str_len (long n) = Z.of_nat n) by (unfold long; rewrite str_len_repeated; change (str_len (str "x")) with 1; lia).
  split.
  - unfold bomb, unlines, field_line, assignment, quoted. cbn [map mbind list_bind fst snd].
    rewrite !str_len_app. repeat (rewrite !str_len_cons || rewrite !str_len_app).
    unfold repeated. rewrite str_len_repeated, Hl.
    repeat match goal with |- context [len_utf8 ?c] => change (len_utf8 c) with 1 end.
    change (str_len []) with 0. change (str_len (str "a")) with 1. change (str_len (str "pkgdesc")) with 7.
    change (str_len (bare_reference (str "a"))) with 2. lia.
  - unfold repeated. rewrite replace_repeated, str_len_repeated, Hl. done.
Qed.

Lemma bomb_order (iter : gmap rstr rstr -> list (rstr * rstr)) n : (forall m, iter m ≡ₚ map_to_list m) ->
  sorted_substitutions iter (bomb_vars n) = [(str "pkgdesc", repeated n); (str "a", long n)].
Proof.
  intros Hiter. assert (Hp : iter (bomb_vars n) ≡ₚ [(str "pkgdesc", repeated n); (str "a", long n)]).
  { rewrite Hiter. unfold bomb_vars. rewrite !map_to_list_insert by (rewrite ?lookup_insert_ne by done; apply lookup_empty).
    by rewrite map_to_list_empty. }
  unfold sorted_substitutions. apply Permutation_sym, Permutation_length_2_inv in Hp as [-> | ->]; done.
Qed.

Lemma bomb_no_pkgdesc n : occurs (str "pkgdesc") (repeated n) = false.
Proof.
  induction n as [|n IH]; [done|]. unfold repeated. cbn [replicate concat]. fold (repeated n).
  change (occurs (str "pkgdesc") (ch "$" :: ch "a" :: repeated n) = false). rewrite !occurs_cons, IH. done.
Qed.

Lemma valid_repeated s n : valid_str s -> valid_str (concat (replicate n s)).
Proof. intros H. induction n as [|n IH]; [constructor|]. cbn [replicate concat]. by apply Forall_app. Qed.

Lemma bomb_vars_ok n : map_Forall var_ok (bomb_vars n).
Proof.
  repeat apply map_Forall_insert_2; [split..|apply map_Forall_empty]; (by apply key_chars_compute) || (by apply valid_repeated, valid_str_compute).
Qed.

(** The budget does not bound the work: a PKGBUILD of [3n + 16] bytes is
    refused as expanding beyond the budget only after one replacement pass
    has built a string of [n * n] bytes; with [n] up to 349520 the file is
    below the size limit of one mebibyte, and the string above 100 gigabytes. *)
Theorem budget_is_checked_after_expansion {Version} (parse_version : rstr -> option Version) (zero_version : Version)
    (iter : gmap rstr rstr -> list (rstr * rstr)) (n : nat) :
  (forall m, iter m ≡ₚ map_to_list m) -> 1024 < Z.of_nat n <= 349520 ->
  str_len (bomb n) <= MAX_PKGBUILD_BYTES /\
  str_len (replace (bare_reference (str "a")) (long n) (repeated n)) = Z.of_nat n * Z.of_nat n /\
  parse_content parse_version zero_version iter (bomb n) = Err (ExpandsBeyond (str "a")).
Proof.
  intros Hiter Hn. destruct (bomb_size n) as [Hb Hr]. split; [rewrite Hb; unfold MAX_PKGBUILD_BYTES; lia|]. split; [done|].
  unfold parse_content. rewrite bomb_read. cbn [res_bind].
  destruct (substitute_is_passes iter Hiter (bomb_vars n) (bomb_vars_ok n)) as (nodes & -> & Hs). cbn [ok_or res_bind].
  assert (Hlen : str_len (repeated n) = 2 * Z.of_nat n).
  { unfold repeated. rewrite str_len_repeated. change (str_len (bare_reference (str "a"))) with 2. lia. }
  assert (Hd : substitute (sorted_substitutions iter (bomb_vars n)) nodes (repeated n) = Err (ExpandsBeyond (str "a"))).
  { rewrite Hs by (by apply valid_repeated, valid_str_compute). rewrite bomb_order by done. cbn [for_each].
    rewrite replace_pass_none by (apply bomb_no_pkgdesc || (rewrite Hlen; unfold MAX_SUBSTITUTED_VALUE_BYTES; lia)).
    cbn [res_bind]. unfold expand_pass, repeated. rewrite replace_repeated, replace_none.
    - unfold ensure. rewrite (proj2 (Z.leb_gt _ _)); [done|]. unfold repeated in Hr. rewrite replace_repeated in Hr. rewrite Hr.
      unfold MAX_SUBSTITUTED_VALUE_BYTES. nia.
    - apply not_true_is_false. intros (a & b & Heq)%contains_true. assert (Hin : ch "$" ∈ concat (replicate n (long n))).
      { rewrite Heq. unfold braced_reference. set_solver. }
      revert Hin. apply not_in_repeated, not_in_repeated. change (ch "$" ∉ [ch "x"]). intros Hx%list_elem_of_singleton. done. }
  revert Hd. generalize (substitute (sorted_substitutions iter (bomb_vars n)) nodes). intros f Hd.
  unfold metadata, scalar, pkgver, bomb_vars.
  rewrite (lookup_insert_eq _ (str "pkgdesc")), !lookup_insert_ne, !lookup_empty by done. cbn [res_bind]. by rewrite Hd.
Qed.

(** * The order of the hash map *)

Definition ascending (m : gmap rstr rstr) : list (rstr * rstr) := sort_by (fun a b => list_cmp a.1 b.1) (map_to_list m).
Definition descending (m : gmap rstr rstr) : list (rstr * rstr) := rev (ascending m).

Lemma ascending_perm m : ascending m ≡ₚ map_to_list m.
Proof. apply sort_by_perm. Qed.

Lemma descending_perm m : descending m ≡ₚ map_to_list m.
Proof. unfold descending. rewrite <- Permutation_rev. apply ascending_perm. Qed.

Definition tied : rstr := unlines [str "_majver=5"; str "_minver=$_majver.2"; str "pkgdesc=$_minver"].

(** Names of the same length are expanded in the order of the hash map: the
    description of one text is read in two ways. *)
Lemma expansion_depends_on_map_order :
  let read iter := match parse_content Some [] iter tied with Ok p => Some (description p) | Err _ => None end in
  read ascending = Some (str "$_majver.2") /\ read descending = Some (str "5.2").
Proof. split; vm_compute; reflexivity. Qed.

(** * Witnesses *)

Definition demo : PkgBuild :=
  {| name := str "demo"; version := str "1.2"; release := str "1"; description := str "A # (small) {tool}"; url := [];
     license := [str "MIT"]; depends := [str "glibc>=2.38"; str "a b"]; makedepends := []; checkdepends := [];
     sources := [str "https://example.org/demo-1.2.tar.gz"]; sha256sums := [str "SKIP"]; validpgpkeys := [] |}.

Definition scalar_check (v : rstr) : bool :=
  forallb is_scalar v && negb (contains_char SQUOTE v) && negb (contains_char 10 v) && negb (contains_char (ch "$") v).

Lemma scalar_check_true v : scalar_check v = true -> scalar_text v.
Proof.
  unfold scalar_check. intros H. to_prop. split; [by apply valid_str_compute|]. by rewrite <- !contains_char_false.
Qed.

Definition field_check (f : Field) : bool :=
  match f with Scalar v => scalar_check v | Array l => forallb scalar_check l end &&
  (str_len (stored f) <=? MAX_SUBSTITUTED_VALUE_BYTES).

Lemma field_check_true f : field_check f = true -> field_text f.
Proof.
  unfold field_check. intros [H Hl%Z.leb_le]%andb_true_iff. split; [|done]. destruct f as [v|l]; [by apply scalar_check_true|].
  apply Forall_forall. intros v Hv. rewrite forallb_forall in H. by apply scalar_check_true, H, list_elem_of_In.
Qed.

Lemma printable_compute {Version} raw (p : PkgBuild (Version := Version)) :
  forallb (fun f => field_check f.2) (fields raw p) = true -> printable raw p.
Proof.
  intros H. apply Forall_forall. intros f Hf. rewrite forallb_forall in H. by apply field_check_true, H, list_elem_of_In.
Qed.

(** The hypotheses of [metadata_roundtrip] hold of a small package. *)
Lemma metadata_roundtrip_witness :
  printable (str "1.2") demo /\ parse_content Some [] ascending (print_pkgbuild (str "1.2") demo) = Ok demo.
Proof.
  assert (H : printable (str "1.2") demo) by (apply printable_compute; vm_compute; reflexivity).
  split; [exact H|]. apply (metadata_roundtrip Some [] ascending ascending_perm (str "1.2") demo); [reflexivity|exact H].
Defined.

Lemma budget_is_checked_after_expansion_witness :
  1024 < Z.of_nat 2000 <= 349520 /\
  str_len (bomb 2000) <= MAX_PKGBUILD_BYTES /\
  str_len (replace (bare_reference (str "a")) (long 2000) (repeated 2000)) = Z.of_nat 2000 * Z.of_nat 2000 /\
  parse_content Some [] ascending (bomb 2000) = Err (ExpandsBeyond (str "a")).
Proof.
  split; [lia|]. apply (budget_is_checked_after_expansion Some [] ascending 2000 ascending_perm). lia.
Defined.
