(* ===== verification/AurReview.v ===== *)
(** The seal on reviewed AUR sources: [ReviewedSource] of
    src/src/package_managers/aur/client.rs.

    Capturing the files of a checkout with their limits, the lexical check of
    symbolic links, the digest over paths, permissions and contents, the
    comparison before a build, and the previews shown for approval. A checkout
    is a tree that stays as it is during one capture; what the operating
    system refuses to read is part of the tree. *)

From S2P Require Import Prelude RustPath ArtifactInspector.
Open Scope Z_scope.
Open Scope omg_scope.

Abbreviation Path := (list (list Z)) (only parsing).

(** * The checkout *)

Unset Elimination Schemes.

(** Entries of a directory as [symlink_metadata] sees them: a regular file
    with its mode, its reported length and its bytes; a link; a directory; a
    device, socket or pipe. [None] is content, a target or a listing that
    cannot be read; [Broken] an entry that [read_dir] fails to yield and
    [Gone] one whose metadata cannot be read. *)
Inductive Node :=
| FileNode (mode len : Z) (content : option (list Z))
| LinkNode (mode : Z) (target : option (list Z))
| DirNode (listing : option (list (list Z * Node)))
| SpecialNode (mode : Z)
| Gone
| Broken.

Set Elimination Schemes.

Section node_ind.
Context (P : Node -> Prop).
Context (Hfile : forall mode len content, P (FileNode mode len content)) (Hlink : forall mode target, P (LinkNode mode target)).
Context (Hdir : forall es, Forall (fun e => P e.2) es -> P (DirNode (Some es))) (Hnone : P (DirNode None)).
Context (Hspecial : forall mode, P (SpecialNode mode)) (Hgone : P Gone) (Hbroken : P Broken).

(** Induction over a tree whose directories hold lists of trees. *)
Fixpoint Node_ind (n : Node) : P n :=
  match n with
  | FileNode mode len content => Hfile mode len content
  | LinkNode mode target => Hlink mode target
  | DirNode (Some es) =>
      Hdir es ((fix go (es : list (list Z * Node)) : Forall (fun e => P e.2) es :=
        match es with
        | [] => Forall_nil_2 _
        | e :: es => Forall_cons_2 _ e es (Node_ind e.2) (go es)
        end) es)
  | DirNode None => Hnone
  | SpecialNode mode => Hspecial mode
  | Gone => Hgone
  | Broken => Hbroken
  end.
End node_ind.

(** * Limits *)

Definition MAX_SOURCE_FILE_BYTES : Z := 16 * 1024 * 1024.
Definition MAX_SOURCE_BYTES : Z := 64 * 1024 * 1024.
Definition MAX_SOURCE_ENTRIES : Z := 10000.
Definition MAX_SOURCE_DEPTH : nat := 64.
Definition MAX_PKGBUILD_REVIEW_BYTES : Z := 1024 * 1024.

Inductive ReviewError :=
| SourceIo
| SourceFileTooLarge
| NestingTooDeep
| TooManyEntries
| MustBeRegular
| LinkNotRelative
| LinkEscapes
| ManifestTooLarge
| MissingSources
| PathNotUtf8
| SourceChanged
| Unreviewed (path : rstr)
| TextNotUtf8
| HookAbsent (name : rstr)
| HookTooLarge (name : rstr)
| HookNotUtf8 (name : rstr)
| ReviewTooLarge
| NotInteractive
| ReviewDeclined.

Definition GIT : list Z := str ".git".
Definition PKGBUILD : list Z := str "PKGBUILD".
Definition SRCINFO : list Z := str ".SRCINFO".

(** * Symbolic links *)

(** [a.starts_with(b)] for paths. *)
Fixpoint path_starts_with (a b : Path) : bool :=
  match b, a with
  | [], _ => true
  | y :: b, x :: a => bool_decide (x = y) && path_starts_with a b
  | _ :: _, [] => false
  end.

(** One component of a target, resolved from the directory [resolved]; the
    last test of [ParentDir] is what [resolved.pop()] answers. *)
Definition link_component (root : Path) (resolved : Path) (c : Component) : result Path ReviewError :=
  match c with
  | Normal part => Ok (resolved ++ [part])
  | CurDir => Ok resolved
  | ParentDir =>
      ensure (path_starts_with resolved root && negb (bool_decide (resolved = root)) && negb (bool_decide (resolved = [])))
        LinkEscapes ;?
      Ok (removelast resolved)
  | RootDir => Err LinkNotRelative
  end.

Definition contained_aur_symlink_target (root link_path : Path) (target : list Z) : result unit ReviewError :=
  ensure (is_relative target) LinkNotRelative ;?
  let parent := match link_path with [] => root | _ => removelast link_path end in
  let? resolved := for_each (link_component root) parent (components target) in
  ensure (path_starts_with resolved root && negb (bool_decide (resolved = root))) LinkEscapes.

Definition encode_symlink_manifest (target : list Z) : list Z := str "symlink" ++ [0] ++ target.

(** * Capturing *)

Record Visit := {
  files : gmap (list (list Z)) (list Z);
  budget : Z;
  entries : Z
}.

Definition count_entry (st : Visit) : Visit := {| files := files st; budget := budget st; entries := entries st + 1 |}.

Definition insert_file (st : Visit) (relative : Path) (bytes : list Z) : Visit :=
  {| files := <[relative := bytes]> (files st); budget := budget st + zlen bytes; entries := entries st |}.

(** [reader.take(n)], counting in binary. *)
Fixpoint take_bytes (n : Z) (l : list Z) : list Z :=
  match l with
  | [] => []
  | x :: l => if n <=? 0 then [] else x :: take_bytes (n - 1) l
  end.

(** [file.take(limit + 1)] and the check of its length. *)
Definition read_source_file (content : option (list Z)) : result (list Z) ReviewError :=
  let? all := ok_or content SourceIo in
  let bytes := take_bytes (MAX_SOURCE_FILE_BYTES + 1) all in
  ensure (zlen bytes <=? MAX_SOURCE_FILE_BYTES) SourceFileTooLarge ;?
  Ok bytes.

Definition visit_link (root relative : Path) (target : option (list Z)) (st : Visit) : result Visit ReviewError :=
  ensure (negb (bool_decide (relative = [PKGBUILD])) && negb (bool_decide (relative = [SRCINFO]))) MustBeRegular ;?
  let? target := ok_or target SourceIo in
  contained_aur_symlink_target root (root ++ relative) target ;?
  (let bytes := encode_symlink_manifest target in
   ensure (budget st + zlen bytes <=? u64_max) ManifestTooLarge ;?
   ensure ((budget st + zlen bytes <=? MAX_SOURCE_BYTES) && (Z.of_nat (size (files st)) <? MAX_SOURCE_ENTRIES)) ManifestTooLarge ;?
   Ok (insert_file st relative bytes)).

Definition visit_file (relative : Path) (len : Z) (content : option (list Z)) (st : Visit) : result Visit ReviewError :=
  ensure ((len <=? MAX_SOURCE_FILE_BYTES) && (Z.of_nat (size (files st)) <? MAX_SOURCE_ENTRIES)) ManifestTooLarge ;?
  let? bytes := read_source_file content in
  ensure (budget st + zlen bytes <=? u64_max) ManifestTooLarge ;?
  ensure (budget st + zlen bytes <=? MAX_SOURCE_BYTES) ManifestTooLarge ;?
  Ok (insert_file st relative bytes).

(** [visit] on the entry [n] found at [relative], inside a directory at
    [depth]; a directory visits its own entries one level down. *)
Fixpoint visit_entry (root : Path) (depth : nat) (relative : Path) (n : Node) (st : Visit) : result Visit ReviewError :=
  match n with
  | LinkNode _ target => visit_link root relative target st
  | DirNode listing =>
      ensure (bool_decide (S depth <= MAX_SOURCE_DEPTH)%nat) NestingTooDeep ;?
      match listing with
      | None => Err SourceIo
      | Some es =>
          (fix visit_all (es : list (list Z * Node)) (st : Visit) : result Visit ReviewError :=
             match es with
             | [] => Ok st
             | (name, n) :: es =>
                 match n with
                 | Broken => Err SourceIo
                 | _ =>
                     ensure (entries st + 1 <=? MAX_SOURCE_ENTRIES) TooManyEntries ;?
                     (if bool_decide (name = GIT) then visit_all es (count_entry st)
                      else let? st := visit_entry root (S depth) (relative ++ [name]) n (count_entry st) in visit_all es st)
                 end
             end) es st
      end
  | FileNode _ len content => visit_file relative len content st
  | SpecialNode _ => Err ManifestTooLarge
  | Gone | Broken => Err SourceIo
  end.

(** The loop over the entries of one directory. *)
Fixpoint visit_all (root : Path) (depth : nat) (relative : Path) (es : list (list Z * Node)) (st : Visit) : result Visit ReviewError :=
  match es with
  | [] => Ok st
  | (name, n) :: es =>
      match n with
      | Broken => Err SourceIo
      | _ =>
          ensure (entries st + 1 <=? MAX_SOURCE_ENTRIES) TooManyEntries ;?
          (if bool_decide (name = GIT) then visit_all root depth relative es (count_entry st)
           else let? st := visit_entry root depth (relative ++ [name]) n (count_entry st) in visit_all root depth relative es st)
      end
  end.

Definition first_visit : Visit := {| files := ∅; budget := 0; entries := 0 |}.

(** The checkout itself, at depth 0. *)
Definition visit (root : Path) (directory : Node) : result Visit ReviewError :=
  match directory with
  | DirNode (Some es) => visit_all root 0 [] es first_visit
  | _ => Err SourceIo
  end.

(** * The digest *)

(** [symlink_metadata(directory.join(path))?.permissions().mode()]. *)
Fixpoint node_at (n : Node) (p : Path) : option Node :=
  match p with
  | [] => Some n
  | name :: p =>
      match n with
      | DirNode (Some es) => e ← List.find (fun e => bool_decide (e.1 = name)) es; node_at e.2 p
      | _ => None
      end
  end.

(** The modes of directories are not looked at. *)
Definition mode_at (n : Node) (p : Path) : option Z :=
  match node_at n p with
  | Some (FileNode mode _ _) | Some (LinkNode mode _) | Some (SpecialNode mode) => Some mode
  | _ => None
  end.

(** The order of a [BTreeMap] of paths: component by component. *)
Fixpoint path_cmp (a b : Path) : comparison :=
  match a, b with
  | [], [] => Eq
  | [], _ => Lt
  | _, [] => Gt
  | x :: a, y :: b => match list_cmp x y with Eq => path_cmp a b | o => o end
  end.

Definition sorted_files (fs : gmap (list (list Z)) (list Z)) : list (Path * list Z) :=
  sort_by (fun a b => path_cmp a.1 b.1) (map_to_list fs).

(** What is hashed of one file. *)
Definition frame (mode : Z) (path bytes : list Z) : list Z :=
  le_bytes 4 mode ++ le_bytes 8 (zlen path) ++ path ++ le_bytes 8 (zlen bytes) ++ bytes.

Definition hash_file (directory : Node) (input : list Z) (file : Path * list Z) : result (list Z) ReviewError :=
  let path := join_slash file.1 in
  let? _ := ok_or (decode_utf8 path) PathNotUtf8 in
  let? mode := ok_or (mode_at directory file.1) SourceIo in
  Ok (input ++ frame mode path file.2).

Record ReviewedSource := {
  source_files : gmap (list (list Z)) (list Z);
  source_digest : rstr
}.

(** The parts of a path without a root and without [.] and [..]: paths are
    equal when their components are. *)
Fixpoint normal_parts (cs : list Component) : option Path :=
  match cs with
  | [] => Some []
  | Normal part :: cs => parts ← normal_parts cs; Some (part :: parts)
  | _ => None
  end.

(** [files.get(Path::new(path))]. *)
Definition get_file (self : ReviewedSource) (path : rstr) : option (list Z) :=
  parts ← normal_parts (components (as_bytes path)); source_files self !! parts.

Section seal.
Context `{ArchiveCodec}.

Definition capture (root : Path) (directory : Node) : result ReviewedSource ReviewError :=
  let? st := visit root directory in
  ensure (bool_decide (is_Some (files st !! [PKGBUILD])) && bool_decide (is_Some (files st !! [SRCINFO]))) MissingSources ;?
  let? input := for_each (hash_file directory) [] (sorted_files (files st)) in
  Ok {| source_files := files st; source_digest := sha256_hex input |}.

Definition verify (self : ReviewedSource) (root : Path) (directory : Node) : result unit ReviewError :=
  let? current := capture root directory in
  ensure (str_eqb (source_digest current) (source_digest self)) SourceChanged.

Definition text (self : ReviewedSource) (path : rstr) : result rstr ReviewError :=
  let? bytes := ok_or (get_file self path) (Unreviewed path) in
  ok_or (decode_utf8 bytes) TextNotUtf8.

(** * What is shown for approval *)

(** Characters that reorder text on a terminal. *)
Definition is_bidi (c : char) : bool := ((0x202a <=? c) && (c <=? 0x202e)) || ((0x2066 <=? c) && (c <=? 0x2069)).

Definition shown_char (c : char) : bool :=
  (c =? 10) || (c =? 9) || (negb (is_control c) && negb (is_bidi c)).

(** [from_utf8_lossy] is [lossy]. *)
Definition pkgbuild_review_text (lossy : list Z -> rstr) (bytes : list Z) : result rstr ReviewError :=
  ensure (zlen bytes <=? MAX_PKGBUILD_REVIEW_BYTES) ReviewTooLarge ;?
  Ok (List.filter shown_char (lossy bytes)).

Definition hook_name (names : list rstr) (line : rstr) : list rstr :=
  match split_once (ch "=") line with
  | None => names
  | Some (key, value) =>
      let value := trim value in
      if str_eqb (trim key) (str "install") && negb (str_eqb value []) && negb (existsb (str_eqb value) names)
      then names ++ [value] else names
  end.

(** [escape_default] of a control or reordering character is [escape]. *)
Definition hook_preview (escape : char -> rstr) (self : ReviewedSource) (name : rstr) : result (rstr * rstr) ReviewError :=
  let? bytes := ok_or (get_file self name) (HookAbsent name) in
  ensure (zlen bytes <=? MAX_PKGBUILD_REVIEW_BYTES) (HookTooLarge name) ;?
  let? text := ok_or (decode_utf8 bytes) (HookNotUtf8 name) in
  Ok (name, text ≫= fun c => if negb (c =? 10) && (is_control c || is_bidi c) then escape c else [c]).

Definition declared_install_hook_previews (escape : char -> rstr) (self : ReviewedSource) : result (list (rstr * rstr)) ReviewError :=
  let? srcinfo := text self (str ".SRCINFO") in
  try_map (hook_preview escape self) (foldl hook_name [] (byte_lines srcinfo)).

(** The decision on one PKGBUILD: [attended] is whether there is a terminal,
    [yes] the flag that answers prompts, [answer] what the user says. *)
Definition review_pkgbuild (lossy : list Z -> rstr) (escape : char -> rstr) (attended yes answer : bool) (root : Path) (directory : Node)
    : result ReviewedSource ReviewError :=
  ensure attended NotInteractive ;?
  let? source := capture root directory in
  let? pkgbuild := ok_or (source_files source !! [PKGBUILD]) MissingSources in
  let? _ := pkgbuild_review_text lossy pkgbuild in
  let? _ := declared_install_hook_previews escape source in
  (if yes then Ok tt else ensure answer ReviewDeclined) ;?
  Ok source.
End seal.
