(* ===== verification/AurReviewProofs.v ===== *)
(** Theorems on the seal of AUR sources: a checkout that passes the comparison
    has, path by path, the permissions and contents that were reviewed; links
    stay inside lexically, and a chain of links can still leave; what is not
    part of the seal. *)

From S2P Require Import Prelude RustPath ArtifactInspector AurReview.
Open Scope Z_scope.
Open Scope omg_scope.

(** * The specification: what a path of the checkout holds *)

(** The entry of a name; nothing under the name [.git] counts. *)
Definition entry_named (es : list (list Z * Node)) (name : list Z) : option Node :=
  if decide (name = GIT) then None else e ← List.find (fun e => bool_decide (e.1 = name)) es; Some e.2.

Fixpoint holds (n : Node) (p : Path) : option (Z * list Z) :=
  match p with
  | [] =>
      match n with
      | FileNode mode _ (Some content) => Some (mode, content)
      | LinkNode mode (Some target) => Some (mode, encode_symlink_manifest target)
      | _ => None
      end
  | name :: p =>
      match n with
      | DirNode (Some es) => n ← entry_named es name; holds n p
      | _ => None
      end
  end.

(** What a file system guarantees: names of a directory are distinct, one to
    255 bytes without a slash; a mode has 32 bits. *)
Definition name_ok (name : list Z) : Prop := clean_part name /\ zlen name <= 255.

Fixpoint node_ok (n : Node) : Prop :=
  match n with
  | FileNode mode _ _ | LinkNode mode _ => 0 <= mode < 2 ^ 32
  | DirNode (Some es) =>
      NoDup es.*1 /\ Forall name_ok es.*1 /\
      (fix all (es : list (list Z * Node)) : Prop := match es with [] => True | e :: es => node_ok e.2 /\ all es end) es
  | _ => True
  end.

Lemma node_ok_dir es :
  node_ok (DirNode (Some es)) <-> NoDup es.*1 /\ Forall name_ok es.*1 /\ Forall (fun e => node_ok e.2) es.
Proof.
  cbn [node_ok]. assert (Hall : forall l : list (list Z * Node),
    (fix all (es : list (list Z * Node)) : Prop := match es with [] => True | e :: es => node_ok e.2 /\ all es end) l <->
    Forall (fun e => node_ok e.2) l).
  { induction l as [|e l IH]; [by split|]. rewrite Forall_cons, <- IH. done. }
  by rewrite Hall.
Qed.

(** * One capture *)

Lemma visit_entry_dir root depth relative es st :
  visit_entry root depth relative (DirNode (Some es)) st =
  (ensure (bool_decide (S depth <= MAX_SOURCE_DEPTH)%nat) NestingTooDeep ;? visit_all root (S depth) relative es st).
Proof.
  cbn [visit_entry]. destruct (bool_decide (S depth <= MAX_SOURCE_DEPTH)%nat); [|done]. cbn [ensure res_bind].
  revert st. induction es as [|[name n] es IH]; intros st; [done|]. cbn [visit_all].
  destruct n; try done; (destruct (entries st + 1 <=? MAX_SOURCE_ENTRIES); [|done]); cbn [ensure res_bind];
    (destruct (bool_decide (name = GIT)); [apply IH|]);
    (match goal with |- res_bind ?r _ = _ => destruct r; [apply IH|done] end).
Qed.

Lemma take_bytes_spec n l : take_bytes n l = take (Z.to_nat n) l.
Proof.
  revert n. induction l as [|x l IH]; intros n; cbn [take_bytes]; [by rewrite take_nil|]. destruct (Z.leb_spec n 0).
  - by rewrite Z2Nat.nonpos by lia.
  - replace (Z.to_nat n) with (S (Z.to_nat (n - 1))) by lia. cbn [take]. by rewrite IH.
Qed.

Lemma read_source_file_Ok content bytes :
  read_source_file content = Ok bytes <-> content = Some bytes /\ zlen bytes <= MAX_SOURCE_FILE_BYTES.
Proof.
  unfold read_source_file. destruct content as [all|]; cbn [ok_or res_bind]; [|naive_solver].
  assert (Hmax : 0 <= MAX_SOURCE_FILE_BYTES) by done. generalize dependent MAX_SOURCE_FILE_BYTES. intros limit Hmax.
  rewrite take_bytes_spec. unfold zlen. split.
  - intros H. res_inv. apply Z.leb_le in Hr. rewrite length_take in Hr.
    rewrite take_ge in * by lia. split; [done|]. lia.
  - intros [[= ->] Hlen]. rewrite take_ge by lia. by rewrite (proj2 (Z.leb_le _ _)) by lia.
Qed.

(** What a file or a link adds. *)
Lemma visit_leaf root depth relative n st st' :
  visit_entry root depth relative n st = Ok st' -> match n with DirNode _ => False | _ => True end ->
  exists mode bytes, holds n [] = Some (mode, bytes) /\ st' = insert_file st relative bytes /\
    budget st + zlen bytes <= MAX_SOURCE_BYTES /\ Z.of_nat (size (files st)) < MAX_SOURCE_ENTRIES /\
    match n with LinkNode _ (Some target) => contained_aur_symlink_target root (root ++ relative) target = Ok tt | _ => True end.
Proof.
  intros Hv Hn. destruct n as [mode len content|mode target| | | |]; try done; cbn [visit_entry] in Hv.
  - unfold visit_file in Hv. res_inv. apply read_source_file_Ok in Hr0 as [-> _]. apply andb_true_iff in Hr as [_ Hr].
    eexists _, _. split; [done|]. split; [done|]. split; [|split; [|done]]; lia.
  - unfold visit_link in Hv. destruct target as [target|]; res_inv; [|done]. apply ok_or_Ok in Hr0. injection Hr0 as <-.
    apply andb_true_iff in Hr3 as [? ?]. eexists _, _. split; [done|]. split; [done|]. split; [|split]; [lia..|].
    by destruct a1.
Qed.

(** ** Relative paths *)

Definition strip_path (base q : Path) : option Path := if path_starts_with q base then Some (drop (length base) q) else None.

Lemma path_starts_with_true q base : path_starts_with q base = true <-> exists p, q = base ++ p.
Proof.
  revert q. induction base as [|y base IH]; intros q; [split; [by exists q|by destruct q]|].
  destruct q as [|x q]; simpl; [split; [done|by intros [p ?]]|].
  rewrite andb_true_iff, bool_decide_eq_true, IH. naive_solver.
Qed.

Lemma strip_path_app base p : strip_path base (base ++ p) = Some p.
Proof.
  unfold strip_path. rewrite (proj2 (path_starts_with_true (base ++ p) base)) by eauto. by rewrite drop_app_length.
Qed.

Lemma strip_path_Some base q p : strip_path base q = Some p <-> q = base ++ p.
Proof.
  split; [|intros ->; apply strip_path_app]. unfold strip_path. destruct (path_starts_with q base) eqn:E; [|done].
  apply path_starts_with_true in E as [r ->]. rewrite drop_app_length. by intros [= ->].
Qed.

Lemma strip_path_None base q : strip_path base q = None <-> forall p, q ≠ base ++ p.
Proof.
  destruct (strip_path base q) as [p|] eqn:E.
  - apply strip_path_Some in E. naive_solver.
  - split; [|done]. intros _ p ->. by rewrite strip_path_app in E.
Qed.

(** The bytes that the tree [n], placed at [base], holds at [q]. *)
Definition bytes_at (n : Node) (base q : Path) : option (list Z) := p ← strip_path base q; snd <$> holds n p.

Lemma entry_named_cons x n es name :
  entry_named ((x, n) :: es) name = if decide (name = GIT) then None else if decide (x = name) then Some n else entry_named es name.
Proof.
  unfold entry_named. cbn [List.find fst]. case_decide; [done|]. case_decide as Hx.
  - by rewrite bool_decide_true.
  - by rewrite bool_decide_false.
Qed.

Lemma entry_named_None es name : (name ∉ es.*1) -> entry_named es name = None.
Proof.
  induction es as [|[x n] es IH]; intros Hn; [unfold entry_named; by case_decide|]. apply not_elem_of_cons in Hn as [Hx Hn].
  rewrite entry_named_cons. case_decide; [done|]. rewrite decide_False by (simpl in *; congruence). by apply IH.
Qed.

Lemma bytes_at_skip x n es base q : x = GIT \/ strip_path (base ++ [x]) q = None ->
  bytes_at (DirNode (Some ((x, n) :: es))) base q = bytes_at (DirNode (Some es)) base q.
Proof.
  intros H. unfold bytes_at. destruct (strip_path base q) as [[|name p]|] eqn:E; [done| |done].
  apply strip_path_Some in E as ->. cbn [mbind option_bind holds]. rewrite entry_named_cons.
  destruct H as [-> |H].
  - destruct (decide (name = GIT)) as [-> |Hne]; [unfold entry_named; by rewrite decide_True|].
    by rewrite decide_False by congruence.
  - rewrite strip_path_None in H. destruct (decide (x = name)) as [-> |Hne].
    { exfalso. apply (H p). by rewrite <- app_assoc. }
    destruct (decide (name = GIT)) as [-> |?]; [unfold entry_named; by rewrite decide_True|]. done.
Qed.

Lemma bytes_at_here x n es base p : x ≠ GIT -> (x ∉ es.*1) ->
  bytes_at (DirNode (Some ((x, n) :: es))) base (base ++ x :: p) = snd <$> holds n p /\
  bytes_at (DirNode (Some es)) base (base ++ x :: p) = None.
Proof.
  intros Hx Hn. unfold bytes_at. rewrite !strip_path_app. cbn [mbind option_bind holds].
  rewrite entry_named_cons, decide_False, decide_True, entry_named_None by done. done.
Qed.

(** Everything a subtree holds is added, nothing else changes. *)
Definition adds (n : Node) (base : Path) (st st' : Visit) : Prop :=
  forall q, files st' !! q = match bytes_at n base q with Some c => Some c | None => files st !! q end.

Lemma adds_leaf n base st bytes mode :
  match n with DirNode _ => False | _ => True end -> holds n [] = Some (mode, bytes) -> adds n base st (insert_file st base bytes).
Proof.
  intros Hn Hh q. cbn [files insert_file]. unfold bytes_at. destruct (decide (q = base)) as [-> |Hne].
  - rewrite lookup_insert_eq. rewrite <- (app_nil_r base) at 2. rewrite strip_path_app. cbn [mbind option_bind]. by rewrite Hh.
  - rewrite lookup_insert_ne by done. destruct (strip_path base q) as [[|name p]|] eqn:E; [|by destruct n|done].
    apply strip_path_Some in E. by rewrite app_nil_r in E.
Qed.

Lemma adds_cons x n es base st st1 st' : x ≠ GIT -> (x ∉ es.*1) ->
  adds n (base ++ [x]) (count_entry st) st1 -> adds (DirNode (Some es)) base st1 st' ->
  adds (DirNode (Some ((x, n) :: es))) base st st'.
Proof.
  intros Hx Hn H1 H2 q. rewrite H2, H1. destruct (strip_path (base ++ [x]) q) as [p|] eqn:E.
  - apply strip_path_Some in E as ->. rewrite <- app_assoc. cbn [app].
    destruct (bytes_at_here x n es base p Hx Hn) as [-> ->]. unfold bytes_at.
    replace (base ++ x :: p) with ((base ++ [x]) ++ p) by by rewrite <- app_assoc. by rewrite strip_path_app.
  - rewrite bytes_at_skip by by right. unfold bytes_at at 2. by rewrite E.
Qed.

Lemma visit_all_cons root depth base x n es st st' :
  visit_all root depth base ((x, n) :: es) st = Ok st' ->
  entries st + 1 <= MAX_SOURCE_ENTRIES /\ n ≠ Broken /\
  (x = GIT /\ visit_all root depth base es (count_entry st) = Ok st' \/
   x ≠ GIT /\ exists st1, visit_entry root depth (base ++ [x]) n (count_entry st) = Ok st1 /\ visit_all root depth base es st1 = Ok st').
Proof.
  cbn [visit_all]. intros H. assert (Hn : n ≠ Broken) by (intros ->; done).
  assert (H' : (ensure (entries st + 1 <=? MAX_SOURCE_ENTRIES) TooManyEntries ;?
    (if bool_decide (x = GIT) then visit_all root depth base es (count_entry st)
     else let? st := visit_entry root depth (base ++ [x]) n (count_entry st) in visit_all root depth base es st)) = Ok st')
    by (by destruct n).
  clear H. res_inv. apply Z.leb_le in Hr. split; [done|]. split; [done|]. case_bool_decide; [by left|right].
  res_inv. eauto.
Qed.

Lemma visit_all_adds_from root depth base es st st' :
  Forall (fun e => forall base st st', visit_entry root depth base e.2 st = Ok st' -> adds e.2 base st st') es ->
  NoDup es.*1 -> visit_all root depth base es st = Ok st' -> adds (DirNode (Some es)) base st st'.
Proof.
  intros IH Hnd. revert st. induction es as [|[x n] es IHes]; intros st Hv.
  { injection Hv as ->. intros q. unfold bytes_at. destruct (strip_path base q) as [[|name p]|]; [done| |done].
    cbn [mbind option_bind holds]. by rewrite entry_named_None by apply not_elem_of_nil. }
  apply visit_all_cons in Hv as (_ & _ & Hv). apply NoDup_cons in Hnd as [Hx Hnd].
  apply Forall_cons in IH as [IHn IH]. cbn [fst snd] in *.
  destruct Hv as [[-> Hv]|(Hgit & st1 & Hv1 & Hv)].
  - intros q. rewrite bytes_at_skip by by left. by apply (IHes IH Hnd _ Hv).
  - eapply adds_cons; [done|exact Hx|by eapply IHn|by apply IHes].
Qed.

Lemma visit_entry_adds root n : forall depth base st st',
  node_ok n -> visit_entry root depth base n st = Ok st' -> adds n base st st'.
Proof.
  induction n as [mode len content|mode target|es IH| |mode| |] using Node_ind; intros depth base st st' Hok Hv;
    try (destruct (visit_leaf root depth base _ st st' Hv I) as (m & bytes & Hh & -> & _); by eapply adds_leaf);
    try (cbn [visit_entry] in Hv; by res_inv).
  rewrite visit_entry_dir in Hv. res_inv. apply node_ok_dir in Hok as (Hnd & _ & Hok).
  eapply visit_all_adds_from; [|done|done]. apply Forall_forall. intros e He. rewrite Forall_forall in IH, Hok.
  intros base' st1 st2. apply IH; [done|]. by apply Hok.
Qed.

(** A capture holds what the checkout holds, path by path. *)
Lemma visit_files root directory st : node_ok directory -> visit root directory = Ok st ->
  forall q, files st !! q = snd <$> holds directory q.
Proof.
  intros Hok Hv q. unfold visit in Hv. destruct directory as [| |[es|]| | |]; try done.
  apply node_ok_dir in Hok as (Hnd & _ & Hok). rewrite Forall_forall in Hok.
  apply (visit_all_adds_from root 0 [] es) in Hv; [|by apply Forall_forall; intros e He base st1 st2; apply visit_entry_adds, Hok|done].
  rewrite (Hv q). unfold bytes_at. replace (strip_path [] q) with (Some q) by (symmetry; apply (strip_path_app [] q)).
  cbn [mbind option_bind]. by destruct (holds _ q).
Qed.

(** ** Modes and paths of what is captured *)

Lemma holds_mode n p mode bytes : holds n p = Some (mode, bytes) -> mode_at n p = Some mode.
Proof.
  unfold mode_at. revert n. induction p as [|x p IH]; intros n; cbn [holds node_at].
  { destruct n as [? ? [|]|? [|]|[|]| | |]; try done; by intros [= -> _]. }
  destruct n as [| |[es|]| | |]; try done. unfold entry_named. case_decide; [done|].
  destruct (List.find _ es) as [e|]; cbn [mbind option_bind]; [apply IH|done].
Qed.

Lemma find_elem (es : list (list Z * Node)) x e : List.find (fun e => bool_decide (e.1 = x)) es = Some e -> e ∈ es /\ e.1 = x.
Proof. intros H. apply List.find_some in H as [Hin Hx%bool_decide_eq_true]. split; [by apply list_elem_of_In|done]. Qed.

(** A held path has names the file system allows, and a mode of 32 bits. *)
Lemma holds_ok n p v : node_ok n -> holds n p = Some v -> Forall name_ok p /\ 0 <= v.1 < 2 ^ 32.
Proof.
  revert n. induction p as [|x p IH]; intros n Hok Hh; cbn [holds] in Hh.
  { destruct n as [? ? [|]|? [|]|[|]| | |]; simplify_eq; by split. }
  destruct n as [| |[es|]| | |]; try done. apply node_ok_dir in Hok as (_ & Hnames & Hok).
  unfold entry_named in Hh. case_decide; [done|]. destruct (List.find _ es) as [e|] eqn:He; [|done].
  apply find_elem in He as [Hin <-]. rewrite Forall_forall in Hok. destruct (IH e.2 (Hok e Hin) Hh) as [Hp Hm].
  split; [|done]. constructor; [|done]. rewrite Forall_forall in Hnames. apply Hnames. by apply list_elem_of_fmap_2.
Qed.

(** ** Depth *)

Lemma visit_all_entry root depth base es st st' e :
  visit_all root depth base es st = Ok st' -> e ∈ es -> e.1 ≠ GIT ->
  exists s1 s2, visit_entry root depth (base ++ [e.1]) e.2 s1 = Ok s2.
Proof.
  revert st. induction es as [|[x n] es IH]; intros st Hv Hin Hne; [by apply not_elem_of_nil in Hin|].
  apply visit_all_cons in Hv as (_ & _ & Hv). apply elem_of_cons in Hin as [-> |Hin].
  - destruct Hv as [[-> _]|(_ & st1 & Hv1 & _)]; [done|]. eauto.
  - destruct Hv as [[_ Hv]|(_ & st1 & _ & Hv)]; by eapply IH.
Qed.

Lemma entry_named_elem es x n : entry_named es x = Some n -> (x, n) ∈ es /\ x ≠ GIT.
Proof.
  unfold entry_named. case_decide; [done|]. destruct (List.find _ es) as [[y m]|] eqn:He; [|done].
  apply find_elem in He as [Hin Hx]. simpl in *. subst y. intros [= ->]. done.
Qed.

Lemma holds_depth root n : forall depth base st st' p v,
  visit_entry root depth base n st = Ok st' -> (depth <= MAX_SOURCE_DEPTH)%nat -> holds n p = Some v ->
  (depth + length p <= S MAX_SOURCE_DEPTH)%nat.
Proof.
  induction n as [mode len content|mode target|es IH| |mode| |] using Node_ind; intros depth base st st' p v Hv Hd Hh;
    try (destruct p; [simpl in *; lia|done]).
  destruct p as [|x p]; [done|]. rewrite visit_entry_dir in Hv. res_inv. apply bool_decide_eq_true in Hr. cbn [holds] in Hh.
  destruct (entry_named es x) as [n|] eqn:He; [|done]. apply entry_named_elem in He as [Hin Hx].
  destruct (visit_all_entry _ _ _ _ _ _ _ Hv Hin Hx) as (s1 & s2 & Hn). rewrite Forall_forall in IH.
  assert (H := IH _ Hin _ _ _ _ _ _ Hn Hr Hh). simpl. lia.
Qed.

Lemma visit_depth root directory st p v : visit root directory = Ok st -> holds directory p = Some v ->
  (length p <= 66)%nat.
Proof.
  intros Hv Hh. unfold visit in Hv. destruct directory as [| |[es|]| | |]; try done. destruct p as [|x p]; [done|].
  cbn [holds] in Hh. destruct (entry_named es x) as [n|] eqn:He; [|done]. apply entry_named_elem in He as [Hin Hx].
  destruct (visit_all_entry _ _ _ _ _ _ _ Hv Hin Hx) as (s1 & s2 & Hn).
  assert (H := holds_depth _ _ _ _ _ _ _ _ Hn ltac:(unfold MAX_SOURCE_DEPTH; lia) Hh). unfold MAX_SOURCE_DEPTH in H. simpl. lia.
Qed.

Lemma join_slash_length (p : Path) : Forall name_ok p -> zlen (join_slash p) <= 256 * zlen p.
Proof.
  unfold zlen. induction 1 as [|x p [_ Hx] Hp IH]; [done|]. unfold zlen in Hx. destruct p as [|y p]; [simpl in *; lia|].
  change (join_slash (x :: y :: p)) with (x ++ ch "/" :: join_slash (y :: p)). rewrite length_app. cbn [length] in *. lia.
Qed.

(** ** Sizes *)

Section visit_inv.
Context (P : Visit -> Prop) (root : Path).
Context (Hcount : forall st, P st -> entries st + 1 <= MAX_SOURCE_ENTRIES -> P (count_entry st)).
Context (Hinsert : forall st relative bytes, P st -> budget st + zlen bytes <= MAX_SOURCE_BYTES ->
  Z.of_nat (size (files st)) < MAX_SOURCE_ENTRIES -> P (insert_file st relative bytes)).

Lemma visit_all_inv depth base es st st' :
  Forall (fun e => forall base st st', P st -> visit_entry root depth base e.2 st = Ok st' -> P st') es ->
  P st -> visit_all root depth base es st = Ok st' -> P st'.
Proof.
  intros IH. revert st. induction IH as [|[x n] es IHn _ IHes]; intros st Hst Hv; [by injection Hv as <-|].
  apply visit_all_cons in Hv as (He & _ & [[_ Hv]|(_ & st1 & Hv1 & Hv)]); [by eapply IHes; [apply Hcount|]|].
  eapply IHes; [|done]. eapply IHn; [|done]. by apply Hcount.
Qed.

(** What every stored file and every counted entry preserves holds at the end. *)
Lemma visit_entry_inv n : forall depth base st st', P st -> visit_entry root depth base n st = Ok st' -> P st'.
Proof.
  induction n as [mode len content|mode target|es IH| |mode| |] using Node_ind; intros depth base st st' Hst Hv;
    try (destruct (visit_leaf root depth base _ st st' Hv I) as (m & bytes & _ & -> & ? & ? & _); by apply Hinsert);
    try (cbn [visit_entry] in Hv; by res_inv).
  rewrite visit_entry_dir in Hv. res_inv. eapply visit_all_inv; [|done|done]. eapply Forall_impl; [exact IH|].
  intros e He base' st1 st2. apply He.
Qed.

Lemma visit_inv directory st : P first_visit -> visit root directory = Ok st -> P st.
Proof.
  intros H0 Hv. unfold visit in Hv. destruct directory as [| |[es|]| | |]; try done.
  eapply visit_all_inv; [|done|done]. apply Forall_forall. intros e _ base st1 st2. apply visit_entry_inv.
Qed.
End visit_inv.

Definition within (st : Visit) : Prop :=
  0 <= budget st <= MAX_SOURCE_BYTES /\ map_Forall (fun _ bytes => zlen bytes <= budget st) (files st).

Lemma visit_within root directory st : visit root directory = Ok st -> within st.
Proof.
  apply visit_inv.
  - by intros s [H1 H2].
  - intros s relative bytes [H1 H2] Hb _. assert (0 <= zlen bytes) by (unfold zlen; lia). split; [simpl; lia|].
    simpl. apply map_Forall_insert_2; [lia|]. intros k v Hk. apply H2 in Hk. simpl in *. lia.
  - split; [done|apply map_Forall_empty].
Qed.

(** * The digest determines what is held *)

Definition Sealed : Type := Z * list Z * list Z.

Definition sealed_frame (f : Sealed) : list Z := frame f.1.1 f.1.2 f.2.

Definition sealed_ok (f : Sealed) : Prop := 0 <= f.1.1 < 2 ^ 32 /\ zlen f.1.2 < 2 ^ 64 /\ zlen f.2 < 2 ^ 64.

Lemma le_prefix n x y (a b : list Z) : 0 <= x < 256 ^ Z.of_nat n -> 0 <= y < 256 ^ Z.of_nat n ->
  le_bytes n x ++ a = le_bytes n y ++ b -> x = y /\ a = b.
Proof.
  intros Hx Hy H. apply app_inj_1 in H as [H ->]; [|by rewrite !length_le_bytes]. split; [|done].
  by apply (le_bytes_inj n).
Qed.

Lemma counted_prefix (p q a b : list Z) : zlen p < 2 ^ 64 -> zlen q < 2 ^ 64 ->
  le_bytes 8 (zlen p) ++ p ++ a = le_bytes 8 (zlen q) ++ q ++ b -> p = q /\ a = b.
Proof.
  unfold zlen. intros Hp Hq H. apply le_prefix in H as [Hlen H]; [|change (256 ^ Z.of_nat 8) with (2 ^ 64); lia..].
  apply app_inj_1 in H; [done|lia].
Qed.

Lemma sealed_frame_prefix f g a b : sealed_ok f -> sealed_ok g -> sealed_frame f ++ a = sealed_frame g ++ b -> f = g /\ a = b.
Proof.
  destruct f as [[m p] c], g as [[m' p'] c']. unfold sealed_frame, frame, sealed_ok. cbn [fst snd]. intros (Hm & Hp & Hc) (Hm' & Hp' & Hc').
  rewrite <- !app_assoc. intros H. apply le_prefix in H as [-> H]; [|done..].
  apply counted_prefix in H as [-> H]; [|done..]. by apply counted_prefix in H as [-> ->].
Qed.

(** Framed files can be told apart. *)
Lemma sealed_inj l l' : Forall sealed_ok l -> Forall sealed_ok l' -> l ≫= sealed_frame = l' ≫= sealed_frame -> l = l'.
Proof.
  intros Hl. revert l'. induction Hl as [|f l Hf _ IH]; intros l' Hl' H.
  - destruct l' as [|g l']; [done|]. discriminate H.
  - destruct Hl' as [|g l' Hg Hl']; [discriminate H|].
    cbn [mbind list_bind] in H. apply sealed_frame_prefix in H as [-> H]; [|done..]. f_equal. by apply IH.
Qed.

Lemma hash_files_spec directory l : forall acc input, for_each (hash_file directory) acc l = Ok input ->
  exists fs : list Sealed, input = acc ++ (fs ≫= sealed_frame) /\
    Forall2 (fun f s => mode_at directory f.1 = Some s.1.1 /\ s.1.2 = join_slash f.1 /\ s.2 = f.2) l fs.
Proof.
  induction l as [|f l IH]; intros acc input H; cbn [for_each] in H.
  - injection H as <-. exists []. by rewrite app_nil_r.
  - res_inv. unfold hash_file in Hr. res_inv. apply ok_or_Ok in Hr1. destruct (IH _ _ H) as (fs & -> & Hfs).
    exists ((a1, join_slash f.1, f.2) :: fs). split; [|by constructor]. cbn [mbind list_bind]. by rewrite <- app_assoc.
Qed.

Section sealed.
Context `{ArchiveCodec}.

(** What a capture hashed: the held paths, once each. *)
Lemma capture_spec root directory s : node_ok directory -> capture root directory = Ok s ->
  (forall q, source_files s !! q = snd <$> holds directory q) /\
  exists fs : list Sealed, source_digest s = sha256_hex (fs ≫= sealed_frame) /\ Forall sealed_ok fs /\
    forall m path bytes, (m, path, bytes) ∈ fs <-> exists p, path = join_slash p /\ holds directory p = Some (m, bytes).
Proof.
  intros Hok Hc. unfold capture in Hc. res_inv. assert (Hfiles := visit_files _ _ _ Hok Hr). split; [done|].
  destruct (hash_files_spec _ _ _ _ Hr1) as (fs & -> & Hfs). exists fs. cbn [source_digest app]. split; [done|].
  assert (Hspec : forall m path bytes, (m, path, bytes) ∈ fs <-> exists p, path = join_slash p /\ holds directory p = Some (m, bytes)).
  { assert (Hin : forall p bytes, (p, bytes) ∈ sorted_files (files a) <-> snd <$> holds directory p = Some bytes).
    { intros p bytes. unfold sorted_files. by rewrite sort_by_perm, elem_of_map_to_list, Hfiles. }
    intros m path bytes. split.
    - intros Hin'. apply list_elem_of_lookup in Hin' as [i Hi]. destruct (Forall2_lookup_r _ _ _ _ _ Hfs Hi) as ([p c] & Hp & Hm & E1 & E2).
      simpl in *. subst. exists p. split; [done|]. apply list_elem_of_lookup_2, Hin in Hp.
      destruct (holds directory p) as [[m' c']|] eqn:Hh; simplify_eq/=. apply holds_mode in Hh. congruence.
    - intros (p & -> & Hh). assert (Hp : (p, bytes) ∈ sorted_files (files a)) by (apply Hin; by rewrite Hh).
      apply list_elem_of_lookup in Hp as [i Hi]. destruct (Forall2_lookup_l _ _ _ _ _ Hfs Hi) as ([[m' path] c] & Hs & Hm & E1 & E2).
      simpl in *. subst. apply holds_mode in Hh. simplify_eq. by eapply list_elem_of_lookup_2. }
  split; [|done]. apply Forall_forall. intros [[m path] bytes] Hin. apply Hspec in Hin as (p & -> & Hh).
  destruct (holds_ok _ _ _ Hok Hh) as [Hnames Hm]. simpl in Hm. split; [done|]. simpl. split.
  - assert (Hlen := visit_depth _ _ _ _ _ Hr Hh). assert (Hj := join_slash_length p Hnames). unfold zlen in *. lia.
  - destruct (visit_within _ _ _ Hr) as [Hb Hall]. assert (Hq : files a !! p = Some bytes) by (rewrite Hfiles; by rewrite Hh).
    apply Hall in Hq. simpl in Hq. unfold MAX_SOURCE_BYTES in Hb. lia.
Qed.

Definition collision : Prop := exists x y : list Z, x ≠ y /\ sha256_hex x = sha256_hex y.

Lemma join_slash_inj (p q : Path) : p ≠ [] -> q ≠ [] -> Forall name_ok p -> Forall name_ok q -> join_slash p = join_slash q -> p = q.
Proof.
  intros Hp Hq Hnp Hnq E.
  assert (Hslash : forall r : Path, Forall name_ok r -> Forall (fun x => ch "/" ∉ x) r).
  { intros r Hr. eapply Forall_impl; [exact Hr|]. by intros x [(_ & _ & _ & ?) _]. }
  rewrite <- (split_join p), <- (split_join q), E by auto. done.
Qed.
Lemma holds_nonempty root directory s p v : capture root directory = Ok s -> holds directory p = Some v -> p ≠ [].
Proof. intros Hc Hh ->. unfold capture, visit in Hc. res_inv. by destruct directory as [| |[|]| | |]. Qed.

Lemma sealed_holds root root' d d' s s' (fs : list Sealed) p v :
  node_ok d -> node_ok d' -> capture root d = Ok s -> capture root' d' = Ok s' ->
  (forall m path bytes, (m, path, bytes) ∈ fs <-> exists p, path = join_slash p /\ holds d p = Some (m, bytes)) ->
  (forall m path bytes, (m, path, bytes) ∈ fs <-> exists p, path = join_slash p /\ holds d' p = Some (m, bytes)) ->
  holds d p = Some v -> holds d' p = Some v.
Proof.
  intros Hok Hok' Hc Hc' H1 H2 Hh. destruct v as [m bytes].
  assert (Hin : (m, join_slash p, bytes) ∈ fs) by (apply H1; by exists p). apply H2 in Hin as (q & Hq & Hh').
  rewrite (join_slash_inj p q); [done|exact (holds_nonempty _ _ _ _ _ Hc Hh)|exact (holds_nonempty _ _ _ _ _ Hc' Hh')| | |done].
  - by apply (holds_ok _ _ _ Hok Hh).
  - by apply (holds_ok _ _ _ Hok' Hh').
Qed.

Lemma same_digest_same_source root root' d d' s s' :
  node_ok d -> node_ok d' -> capture root d = Ok s -> capture root' d' = Ok s' -> source_digest s' = source_digest s ->
  (forall p, holds d' p = holds d p) \/ collision.
Proof.
  intros Hok Hok' Hc Hc' Hd. destruct (capture_spec _ _ _ Hok Hc) as (_ & fs & Hfs & Hsok & Hin).
  destruct (capture_spec _ _ _ Hok' Hc') as (_ & fs' & Hfs' & Hsok' & Hin').
  destruct (decide (fs ≫= sealed_frame = fs' ≫= sealed_frame)) as [E|Hne].
  - left. apply sealed_inj in E; [|done..]. subst fs'. intros p. apply option_eq. intros v. split; by eapply sealed_holds.
  - right. exists (fs ≫= sealed_frame), (fs' ≫= sealed_frame). split; [done|congruence].
Qed.

Lemma same_source_same_digest root root' d d' s s' :
  node_ok d -> node_ok d' -> capture root d = Ok s -> capture root' d' = Ok s' ->
  (forall p, holds d' p = holds d p) -> source_digest s' = source_digest s.
Proof.
  intros Hok Hok' Hc Hc' Hh. destruct (capture_spec _ _ _ Hok Hc) as (Hf & _). destruct (capture_spec _ _ _ Hok' Hc') as (Hf' & _).
  unfold capture in Hc, Hc'. res_inv. cbn [source_files source_digest] in *. f_equal.
  assert (E : files a = files a2) by (apply map_eq; intros q; by rewrite Hf, Hf', Hh). rewrite <- E in *.
  destruct (hash_files_spec _ _ _ _ Hr1) as (fs & -> & H1). destruct (hash_files_spec _ _ _ _ Hr4) as (fs' & -> & H2).
  f_equal. f_equal. assert (Hmode : forall f, f ∈ sorted_files (files a) -> mode_at d f.1 = mode_at d' f.1).
  { intros [p c] Hin. unfold sorted_files in Hin. rewrite sort_by_perm, elem_of_map_to_list, Hf in Hin. simpl.
    destruct (holds d p) as [[m c']|] eqn:Hp; [|done]. rewrite (holds_mode _ _ _ _ Hp). symmetry. eapply holds_mode.
    by rewrite Hh. }
  clear - H1 H2 Hmode. revert fs fs' H1 H2 Hmode. generalize (sorted_files (files a)). clear. intros l.
  induction l as [|f l IH]; intros fs fs' H1 H2 Hmode; inversion H1 as [|? [[m p] c] ? fs1 Hx H1']; inversion H2 as [|? [[m' p'] c'] ? fs2 Hy H2']; subst; [done|].
  cbn [fst snd] in *. destruct Hx as (Hx1 & -> & ->), Hy as (Hy1 & -> & ->). rewrite Hmode in Hy1 by set_solver.
  f_equal; [congruence|]. apply IH; [done..|]. intros g Hg. apply Hmode. set_solver.
Qed.

(** C7: The seal on reviewed sources. A checkout that passes the comparison
    before a build has at every path without a component named [.git] the same
    file or link, with the same permissions, contents and target, as the one
    that was reviewed, and none where there was none, or two different byte
    strings with one SHA-256 are at hand; and a checkout that can be captured
    and holds the same passes. What is named [.git], at any depth, and
    directories without files are not compared. *)
Theorem verified_source_is_the_reviewed_one root d d' s :
  node_ok d -> node_ok d' -> capture root d = Ok s ->
  (verify s root d' = Ok tt -> (forall p, holds d' p = holds d p) \/ collision) /\
  (is_ok (capture root d') = true -> (forall p, holds d' p = holds d p) -> verify s root d' = Ok tt).
Proof.
  intros Hok Hok' Hc. split.
  - intros Hv. unfold verify in Hv. res_inv. apply bool_decide_eq_true in Hv. by eapply same_digest_same_source.
  - intros (s' & Hc')%is_ok_true Hh. unfold verify. rewrite Hc'. cbn [res_bind]. apply ensure_Ok, bool_decide_eq_true.
    exact (same_source_same_digest root root d d' s s' Hok Hok' Hc Hc' Hh).
Qed.
End sealed.

(** * Links *)

(** The node at a path outside [.git]. *)
Fixpoint reviewed (n : Node) (p : Path) : option Node :=
  match p with
  | [] => Some n
  | name :: p =>
      match n with
      | DirNode (Some es) => n ← entry_named es name; reviewed n p
      | _ => None
      end
  end.

Lemma removelast_app_r {A} (a b : list A) : b ≠ [] -> removelast (a ++ b) = a ++ removelast b.
Proof. apply removelast_app. Qed.

Lemma app_root_eq (root rel : Path) : bool_decide (root ++ rel = root) = bool_decide (rel = []).
Proof. apply bool_decide_ext. rewrite <- (app_nil_r root) at 2. by rewrite (inj_iff (app root)). Qed.

(** The loop of the containment check walks below the root as [follow] does. *)
Lemma link_components_follow root cs rel :
  match follow rel cs with
  | Some r => for_each (link_component root) (root ++ rel) cs = Ok (root ++ r)
  | None => exists e, for_each (link_component root) (root ++ rel) cs = Err e
  end.
Proof.
  revert rel. induction cs as [|c cs IH]; intros rel; [done|]. destruct c as [| | |part]; cbn [follow for_each link_component].
  - by eexists.
  - apply IH.
  - assert (Hs : path_starts_with (root ++ rel) root = true) by (apply path_starts_with_true; eauto).
    rewrite Hs, app_root_eq. destruct rel as [|x rel]; [by eexists|].
    rewrite (bool_decide_false (x :: rel = [])), (bool_decide_false (root ++ x :: rel = [])) by (done || (intros E; by apply app_eq_nil in E as [_ ?])).
    cbn [negb andb ensure res_bind]. rewrite removelast_app_r by done. apply IH.
  - cbn [res_bind]. rewrite <- app_assoc. apply IH.
Qed.

Lemma contained_iff root rel target : rel ≠ [] ->
  contained_aur_symlink_target root (root ++ rel) target = Ok tt <->
  is_relative target = true /\ exists r, follow (removelast rel) (components target) = Some r /\ r ≠ [].
Proof.
  intros Hne. unfold contained_aur_symlink_target.
  assert (Hp : match root ++ rel with [] => root | _ => removelast (root ++ rel) end = root ++ removelast rel).
  { rewrite removelast_app_r by done. destruct (root ++ rel) eqn:E; [|done]. by apply app_eq_nil in E as [_ ?]. }
  rewrite Hp. assert (H := link_components_follow root (components target) (removelast rel)).
  destruct (is_relative target); [|naive_solver]. cbn [ensure res_bind].
  destruct (follow (removelast rel) (components target)) as [r|].
  - rewrite H. cbn [res_bind]. assert (Hs : path_starts_with (root ++ r) root = true) by (apply path_starts_with_true; eauto).
    rewrite Hs, app_root_eq, ensure_Ok. cbn [andb]. rewrite negb_true_iff, bool_decide_eq_false. naive_solver.
  - destruct H as [e ->]. naive_solver.
Qed.

Lemma visit_entry_links root n : forall depth base st st' p mode target,
  visit_entry root depth base n st = Ok st' -> reviewed n p = Some (LinkNode mode (Some target)) ->
  contained_aur_symlink_target root (root ++ base ++ p) target = Ok tt.
Proof.
  induction n as [mode len content|mode target|es IH| |mode| |] using Node_ind; intros depth base st st' p m t Hv Hp;
    try (destruct p; done).
  - destruct p; [|done]. cbn [reviewed] in Hp. injection Hp as <- ->. destruct (visit_leaf root depth base _ st st' Hv I) as (? & ? & _ & _ & _ & _ & H). by rewrite app_nil_r.
  - destruct p as [|x p]; [done|]. rewrite visit_entry_dir in Hv. res_inv. cbn [reviewed] in Hp.
    destruct (entry_named es x) as [n|] eqn:He; [|done]. apply entry_named_elem in He as [Hin Hx].
    destruct (visit_all_entry _ _ _ _ _ _ _ Hv Hin Hx) as (s1 & s2 & Hn). rewrite Forall_forall in IH.
    assert (H := IH _ Hin _ _ _ _ _ _ _ Hn Hp). simpl in H. by rewrite <- app_assoc in H.
Qed.

(** ** Following links *)

Inductive Outcome := Inside (p : Path) | Outside | NotThere.

(** Where the kernel arrives from the directory [dir] of the checkout,
    following at most [links] links. *)
Fixpoint resolve_link (links : nat) (d : Node) (dir : Path) (cs : list Component) {struct links} : Outcome :=
  (fix go (dir : Path) (cs : list Component) {struct cs} : Outcome :=
    match cs with
    | [] => Inside dir
    | RootDir :: _ => Outside
    | CurDir :: cs => go dir cs
    | ParentDir :: cs => match dir with [] => Outside | _ => go (removelast dir) cs end
    | Normal name :: rest =>
        match node_at d (dir ++ [name]) with
        | Some (LinkNode _ (Some target)) =>
            match links with
            | O => NotThere
            | S links => resolve_link links d dir (components target ++ rest)
            end
        | Some (DirNode _) => go (dir ++ [name]) rest
        | Some _ => if bool_decide (rest = []) then Inside (dir ++ [name]) else NotThere
        | None => NotThere
        end
    end) dir cs.

(** No link is met on the way. *)
Fixpoint direct (d : Node) (dir : Path) (cs : list Component) : bool :=
  match cs with
  | [] | RootDir :: _ => true
  | CurDir :: cs => direct d dir cs
  | ParentDir :: cs => direct d (removelast dir) cs
  | Normal name :: cs =>
      match node_at d (dir ++ [name]) with Some (LinkNode _ _) => false | _ => true end && direct d (dir ++ [name]) cs
  end.

Lemma direct_resolve links d cs : forall dir, direct d dir cs = true -> is_Some (follow dir cs) -> resolve_link links d dir cs ≠ Outside.
Proof.
  induction cs as [|c cs IH]; intros dir Hd Hf; [by destruct links|].
  destruct c as [| | |name]; cbn [direct follow] in *; [by destruct Hf|..].
  - specialize (IH dir Hd Hf). by destruct links.
  - destruct dir as [|x dir]; [by destruct Hf|]. specialize (IH _ Hd Hf). by destruct links.
  - apply andb_true_iff in Hd as [Hn Hd]. specialize (IH _ Hd Hf).
    destruct links; cbn [resolve_link] in *; destruct (node_at d (dir ++ [name])) as [[]|]; try done; by case_bool_decide.
Qed.

Section links.
Context `{ArchiveCodec}.

(** The links of a captured checkout are relative and stay below its root
    when their targets are read literally; the kernel follows such a link
    inside the checkout unless its target passes through another link. *)
Theorem captured_links_stay_inside root d s p mode target links :
  capture root d = Ok s -> reviewed d p = Some (LinkNode mode (Some target)) ->
  is_relative target = true /\
  (exists r, follow (removelast p) (components target) = Some r /\ r ≠ []) /\
  (direct d (removelast p) (components target) = true -> resolve_link links d (removelast p) (components target) ≠ Outside).
Proof.
  intros Hc Hp. unfold capture in Hc. res_inv. unfold visit in Hr. destruct d as [| |[es|]| | |]; try done.
  destruct p as [|x p]; [done|]. cbn [reviewed] in Hp. destruct (entry_named es x) as [n|] eqn:He; [|done].
  apply entry_named_elem in He as [Hin Hx]. destruct (visit_all_entry _ _ _ _ _ _ _ Hr Hin Hx) as (s1 & s2 & Hn).
  assert (Hl := visit_entry_links _ _ _ _ _ _ _ _ _ Hn Hp). cbn [app fst] in Hl. apply contained_iff in Hl as (Hrel & r & Hf & Hr'); [|done].
  split; [done|]. split; [by exists r|]. intros Hd. apply direct_resolve; [done|]. by exists r.
Qed.
End links.

(** * Examples *)

Definition plain_file (content : list Z) : Node := FileNode 33188 (zlen content) (Some content).
Definition link_to (target : list Z) : Node := LinkNode 41471 (Some target).

Definition checkout (extra : list (list Z * Node)) : Node :=
  DirNode (Some ((PKGBUILD, plain_file (str "pkgname=demo")) :: (SRCINFO, plain_file (str "pkgbase = demo")) :: extra)).

Definition chained : Node :=
  checkout [(str "deep", DirNode (Some [(str "er", DirNode (Some [(str "up", link_to (str "../../top"))]))]));
            (str "top", DirNode (Some [])); (str "key", link_to (str "deep/er/up/../../secret"))].

(** Each link of this checkout is contained when it is read literally; through
    the first one, the second one leaves the checkout. *)
Lemma chained_links_leave_the_checkout :
  is_ok (capture (H := sample_archive_codec) [str "aur"; str "demo"] chained) = true /\
  reviewed chained [str "key"] = Some (link_to (str "deep/er/up/../../secret")) /\
  resolve_link 40 chained [] (components (str "deep/er/up/../../secret")) = Outside.
Proof. split; [|split]; vm_compute; reflexivity. Qed.

Definition reviewed_checkout : Node := checkout [(GIT, DirNode (Some [(str "config", plain_file (str "safe"))]))].

Definition changed_checkout : Node :=
  checkout [(GIT, DirNode (Some [(str "config", plain_file (str "other")); (str "run.sh", plain_file (str "rm"))]));
            (str "new", DirNode (Some []))].

(** Anything named [.git], and directories without files, are not part of the
    seal. *)
Lemma git_and_directories_are_not_sealed :
  exists s, capture (H := sample_archive_codec) [str "demo"] reviewed_checkout = Ok s /\
    reviewed_checkout ≠ changed_checkout /\ verify (H := sample_archive_codec) s [str "demo"] changed_checkout = Ok tt.
Proof. eexists. split; [vm_compute; reflexivity|]. split; [done|]. vm_compute. reflexivity. Qed.

Lemma name_ok_compute names : forallb (fun x => negb (str_eqb x []) && negb (str_eqb x (str ".")) && negb (str_eqb x (str "..")) &&
  negb (contains_char (ch "/") x) && (zlen x <=? 255)) names = true -> Forall name_ok names.
Proof.
  intros H. apply Forall_forall. intros x Hx. rewrite forallb_forall in H. apply list_elem_of_In, H in Hx. to_prop.
  split; [|lia]. split_and!; by first [apply str_eqb_false|apply contains_char_false].
Qed.

Lemma plain_checkout_ok : node_ok (checkout []).
Proof.
  apply node_ok_dir. split; [|split].
  - apply (bool_decide_unpack _). vm_compute. exact I.
  - apply name_ok_compute. vm_compute. reflexivity.
  - rewrite !Forall_cons. simpl. split_and!; try lia. constructor.
Defined.

Lemma verified_source_is_the_reviewed_one_witness :
  exists s, capture (H := sample_archive_codec) [str "demo"] (checkout []) = Ok s /\
    verify (H := sample_archive_codec) s [str "demo"] (checkout []) = Ok tt.
Proof.
  eexists. split; [vm_compute; reflexivity|].
  refine (proj2 (verified_source_is_the_reviewed_one (H := sample_archive_codec) [str "demo"] (checkout []) (checkout []) _
    plain_checkout_ok plain_checkout_ok _) _ _).
  - vm_compute. reflexivity.
  - vm_compute. reflexivity.
  - reflexivity.
Defined.

Lemma captured_links_stay_inside_witness :
  exists r, follow [str "deep"; str "er"] (components (str "../../top")) = Some r /\ r ≠ [].
Proof.
  destruct (capture (H := sample_archive_codec) [str "demo"] chained) as [s|] eqn:Hc; [|by vm_compute in Hc].
  exact (proj1 (proj2 (captured_links_stay_inside (H := sample_archive_codec) [str "demo"] chained s [str "deep"; str "er"; str "up"]
    41471 (str "../../top") 40 Hc eq_refl))).
Defined.
