(* ===== verification/Artifact.v ===== *)
(** Sealed package archives and the handoff to the privileged process:
    src/src/core/security/artifact.rs.

    The kernel is a table of open descriptors, each naming an anonymous file
    ([memfd]) by its inode, the inodes with their contents and seals, and the
    files staged below /var/tmp. Descriptors that an operation opens only for
    its own duration are not entered; on an error everything it opened is
    dropped again, so that an error has no state. Descriptor, inode and
    directory numbers are chosen by the operating system: [SystemNames]. *)

From S2P Require Import Prelude RustPath Validation ArtifactInspector.
Open Scope Z_scope.
Open Scope omg_scope.

Definition PREFIX : rstr := str "/__omg_archive/".
Definition MAX_ARCHIVE_BYTES : Z := 8 * 1024 * 1024 * 1024.

(** [SealFlags::SEAL | SHRINK | GROW | WRITE]. *)
Definition ALL_SEALS : Z := 15.

Record Inode := {
  inode_content : list Z;
  inode_seals : Z
}.

(** Staged files are keyed by their directory and their file name. *)
Record Kernel := {
  descriptors : gmap (Z * Z) Z;
  inodes : gmap Z Inode;
  directories : gset rstr;
  staged : gmap (rstr * rstr) (list Z)
}.

(** What the operating system answers when a new descriptor, file or private
    directory is asked for; [None] is a failure. *)
Class SystemNames := {
  new_descriptor : gset Z -> option Z;
  new_inode : gset Z -> option Z;
  new_directory : gset rstr -> option rstr;
  new_descriptor_ok : forall used n, new_descriptor used = Some n -> (n ∉ used) /\ 0 <= n < 2 ^ 31;
  new_inode_ok : forall used n, new_inode used = Some n -> n ∉ used;
  new_directory_ok : forall used d, new_directory used = Some d -> d ∉ used
}.

(** [OutOfResources] is the refusal of a new descriptor, file or directory. *)
Inductive ArtifactError :=
| ArtifactIo
| OutOfResources
| NotRegular
| SnapshotTooLarge
| HandoffMalformed
| HandoffInvalid
| DigestInvalid
| NotImmutable
| HandoffTooLarge
| ChangedAfterApproval
| InvalidInput (e : ArchiveError)
| InvalidFilename
| UntrustedFile
| HashMismatch
| StagingNeedsRoot.

Definition K (A : Type) : Type := Kernel -> result (A * Kernel) ArtifactError.

#[export] Instance K_ret : MRet K := fun A a k => Ok (a, k).
#[export] Instance K_bind : MBind K := fun A B f p k =>
  match p k with Ok (a, k') => f a k' | Err e => Err e end.

(** A step that only looks at the kernel. *)
Definition query {A} (f : Kernel -> result A ArtifactError) : K A := fun k =>
  match f k with Ok a => Ok (a, k) | Err e => Err e end.

Definition pure {A} (r : result A ArtifactError) : K A := query (fun _ => r).

(** ** Files *)

(** An open anonymous file: [as_raw_fd] and what it refers to. *)
Record SealedFile := {
  raw_fd : Z;
  inode : Z
}.

(** A file of the file system, opened: its metadata and its contents. *)
Record OpenedFile := {
  opened_stat : FileStat;
  opened_content : option (list Z)
}.

Inductive OpenAnswer :=
| Opened (f : OpenedFile)
| OpenNotFound
| OpenFailed.

Record ArchiveSnapshot := {
  file : SealedFile;
  name : rstr;
  digest_of : rstr;
  signature : option (SealedFile * rstr);
  original : rstr
}.

(** What the file system answers for one target: the facts the validation
    asks for, the opened archive and the opened signature file. *)
Record TargetFacts := {
  target_facts : ArchiveFacts;
  target_file : OpenAnswer;
  target_signature : OpenAnswer;
  target_invoking_uid : option Z
}.

Definition is_handoff (path : rstr) : bool := starts_with PREFIX path.

(** [path.rsplit('/').next().unwrap_or(path)]. *)
Definition display_target (path : rstr) : rstr :=
  if is_handoff path then match rsplit_once (ch "/") path with Some (_, last) => last | None => path end
  else path.

(** [splitn(n, '/')]. *)
Fixpoint splitn (n : nat) (s : rstr) : list rstr :=
  match n with
  | O => []
  | 1%nat => [s]
  | S n => match split_once (ch "/") s with
           | Some (a, b) => a :: splitn n b
           | None => [s]
           end
  end.

(** The caller's path as recorded in the last field. *)
Definition handoff_original (value : rstr) : option rstr :=
  rest ← strip_prefix PREFIX value;
  let fields := splitn 6 rest in
  match fields !! 5%nat with
  | Some path =>
      if negb (str_eqb path []) && negb (str_eqb path (str ".")) && negb (str_eqb path (str "..")) then Some path
      else fields !! 4%nat
  | None => fields !! 4%nat
  end.

Section artifact.
Context `{ArchiveCodec} `{SystemNames}.

(** The numbers of the descriptors of a process. *)
Definition used_descriptors (pid : Z) (k : Kernel) : gset Z :=
  set_map (fun key : Z * Z => key.2) (filter (fun key : Z * Z => key.1 = pid) (dom (descriptors k))).

(** Enter a descriptor of [pid] for an inode. *)
Definition open_descriptor (pid node : Z) : K SealedFile := fun k =>
  match new_descriptor (used_descriptors pid k) with
  | None => Err OutOfResources
  | Some fd =>
      Ok ({| raw_fd := fd; inode := node |},
          {| descriptors := <[(pid, fd) := node]> (descriptors k); inodes := inodes k;
             directories := directories k; staged := staged k |})
  end.

(** A new anonymous file with its contents and its seals. *)
Definition new_file (content : list Z) (seals : Z) : K Z := fun k =>
  match new_inode (dom (inodes k)) with
  | None => Err OutOfResources
  | Some node =>
      Ok (node, {| descriptors := descriptors k;
                   inodes := <[node := {| inode_content := content; inode_seals := seals |}]> (inodes k);
                   directories := directories k; staged := staged k |})
  end.

Definition content_of (f : SealedFile) (k : Kernel) : option (list Z) := inode_content <$> inodes k !! inode f.

Definition digest (f : SealedFile) : K rstr :=
  query (fun k => let? bytes := ok_or (content_of f k) ArtifactIo in Ok (sha256_hex bytes)).

(** [memfd_create], the bounded copy and the seals; the file is not readable
    by others before it is sealed. *)
Definition sealed_copy (pid : Z) (source : OpenedFile) : K (SealedFile * rstr) :=
  _ ← pure (ensure (stat_is_file (opened_stat source)) NotRegular);
  content ← pure (ok_or (opened_content source) ArtifactIo);
  _ ← pure (ensure (zlen content <=? MAX_ARCHIVE_BYTES) SnapshotTooLarge);
  node ← new_file content ALL_SEALS;
  f ← open_descriptor pid node;
  hash ← digest f;
  mret (f, hash).

Definition open_sealed (self pid fd : Z) (expected : rstr) : K SealedFile :=
  _ ← pure (ensure ((str_len expected =? 64) && forallb is_ascii_hexdigit (as_bytes expected)) DigestInvalid);
  node ← query (fun k => ok_or (descriptors k !! (pid, fd)) ArtifactIo);
  f ← open_descriptor self node;
  found ← query (fun k => ok_or (inodes k !! node) ArtifactIo);
  _ ← pure (ensure (Z.land (inode_seals found) ALL_SEALS =? ALL_SEALS) NotImmutable);
  _ ← pure (ensure (zlen (inode_content found) <=? MAX_ARCHIVE_BYTES) HandoffTooLarge);
  hash ← digest f;
  _ ← pure (ensure (str_eqb hash expected) ChangedAfterApproval);
  mret f.

(** ** The handoff string *)

Definition handoff (pid : Z) (s : ArchiveSnapshot) : rstr :=
  let sig := match signature s with
             | None => str "none"
             | Some (f, hash) => to_string (raw_fd f) ++ str "-" ++ hash
             end in
  PREFIX ++ to_string pid ++ str "/" ++ to_string (raw_fd (file s)) ++ str "/" ++ digest_of s ++ str "/" ++ sig
    ++ str "/" ++ name s ++ str "/" ++ original s.

Definition signature_handoff (self pid : Z) (field : rstr) : K (option (SealedFile * rstr)) :=
  if str_eqb field (str "none") then mret None
  else
    '(fd, hash) ← pure (ok_or (split_once (ch "-") field) HandoffMalformed);
    number ← pure (ok_or (parse_uint u32_max fd) HandoffMalformed);
    f ← open_sealed self pid number hash;
    mret (Some (f, hash)).

(** [self] is the process that reads the handoff. *)
Definition from_handoff (self : Z) (value : rstr) : K (option ArchiveSnapshot) :=
  match strip_prefix PREFIX value with
  | None => mret None
  | Some rest =>
      match splitn 6 rest with
      | pid :: fd :: hash :: sig :: label :: _ =>
          pid ← pure (ok_or (parse_uint u32_max pid) HandoffMalformed);
          fd ← pure (ok_or (parse_uint u32_max fd) HandoffMalformed);
          _ ← pure (ensure ((0 <? pid) && negb (str_eqb label []) && negb (str_eqb label (str ".")) && negb (str_eqb label (str "..")))
                      HandoffInvalid);
          f ← open_sealed self pid fd hash;
          sig ← signature_handoff self pid sig;
          mret (Some {| file := f; name := label; digest_of := hash; signature := sig;
                        original := default label (handoff_original value) |})
      | _ => pure (Err HandoffMalformed)
      end
  end.

(** ** Capturing a snapshot *)

Definition capture_signature (pid : Z) (answer : OpenAnswer) : K (option (SealedFile * rstr)) :=
  match answer with
  | Opened source => sig ← sealed_copy pid source; mret (Some sig)
  | OpenNotFound => mret None
  | OpenFailed => pure (Err ArtifactIo)
  end.

(** [looks] is what the file system answers for the target. *)
Definition capture (self : Z) (looks : TargetFacts) (path : rstr) : K ArchiveSnapshot :=
  handed ← from_handoff self path;
  match handed with
  | Some snapshot => mret snapshot
  | None =>
      canonical ← pure (map_err InvalidInput
        (if is_local_debian_package_file path then validate_local_debian_package_file (target_facts looks) path
         else validate_local_package_file (target_facts looks) path));
      label ← pure (ok_or (path_file_name canonical) InvalidFilename);
      source ← pure (match target_file looks with Opened f => Ok f | _ => Err ArtifactIo end);
      invoking ← pure (ok_or (target_invoking_uid looks) ArtifactIo);
      _ ← pure (ensure (((stat_uid (opened_stat source) =? 0) || (stat_uid (opened_stat source) =? invoking))
                        && (Z.land (stat_mode (opened_stat source)) 18 =? 0)) UntrustedFile);
      '(f, hash) ← sealed_copy self source;
      sig ← capture_signature self (target_signature looks);
      mret {| file := f; name := label; digest_of := hash; signature := sig; original := canonical |}
  end.

(** [File::open("/proc/<self>/fd/<n>")]. *)
Definition reader (self : Z) (s : ArchiveSnapshot) : K (list Z) :=
  query (fun k =>
    let? node := ok_or (descriptors k !! (self, raw_fd (file s))) ArtifactIo in
    let? found := ok_or (inodes k !! node) ArtifactIo in
    Ok (inode_content found)).

Definition verify_sha256 (self : Z) (s : ArchiveSnapshot) (expected : rstr) : K unit :=
  content ← reader self s;
  pure (ensure (eq_ignore_ascii_case (sha256_hex content) expected) HashMismatch).

(** ** Inputs of a whole operation *)

(** [debian_backend]: the features of the build and the distribution. *)
Definition is_archive_input (debian_backend : bool) (target : rstr) : bool :=
  is_handoff target || is_local_package_file target || (debian_backend && is_local_debian_package_file target).

Record SnapshotInputs := {
  targets : list rstr;
  snapshots : list ArchiveSnapshot
}.

Definition capture_target (debian_backend : bool) (self : Z) (looks : rstr -> TargetFacts) (acc : SnapshotInputs) (target : rstr)
    : K SnapshotInputs :=
  if is_archive_input debian_backend target then
    s ← capture self (looks target) target;
    mret {| targets := targets acc ++ [handoff self s]; snapshots := snapshots acc ++ [s] |}
  else mret {| targets := targets acc ++ [target]; snapshots := snapshots acc |}.

Fixpoint capture_targets (debian_backend : bool) (self : Z) (looks : rstr -> TargetFacts) (acc : SnapshotInputs) (l : list rstr)
    : K SnapshotInputs :=
  match l with
  | [] => mret acc
  | target :: l => acc ← capture_target debian_backend self looks acc target; capture_targets debian_backend self looks acc l
  end.

Definition capture_inputs (debian_backend : bool) (self : Z) (looks : rstr -> TargetFacts) (l : list rstr) : K SnapshotInputs :=
  capture_targets debian_backend self looks {| targets := []; snapshots := [] |} l.

(** ** Staging in the privileged process *)

Definition tempdir_in_var_tmp : K rstr := fun k =>
  match new_directory (directories k) with
  | None => Err OutOfResources
  | Some d => Ok (d, {| descriptors := descriptors k; inodes := inodes k; directories := {[d]} ∪ directories k; staged := staged k |})
  end.

(** [exclusive] is [create_new]. *)
Definition write_staged (exclusive : bool) (path : rstr * rstr) (content : list Z) : K unit := fun k =>
  if exclusive && bool_decide (is_Some (staged k !! path)) then Err ArtifactIo
  else Ok (tt, {| descriptors := descriptors k; inodes := inodes k; directories := directories k;
                  staged := <[path := content]> (staged k) |}).

Definition stage_signature (path : rstr * rstr) (sig : option (SealedFile * rstr)) : K unit :=
  match sig with
  | None => mret tt
  | Some (f, _) =>
      content ← query (fun k => ok_or (content_of f k) ArtifactIo);
      write_staged false (path.1, path.2 ++ str ".sig") content
  end.

Definition stage_target (debian_backend root : bool) (self : Z) (looks : rstr -> TargetFacts) (target : rstr) : K rstr :=
  if is_archive_input debian_backend target then
    _ ← pure (ensure root StagingNeedsRoot);
    s ← capture self (looks target) target;
    directory ← tempdir_in_var_tmp;
    content ← reader self s;
    _ ← write_staged true (directory, name s) content;
    _ ← stage_signature (directory, name s) (signature s);
    mret (directory ++ str "/" ++ name s)
  else mret target.

Fixpoint prepare (debian_backend root : bool) (self : Z) (looks : rstr -> TargetFacts) (l : list rstr) : K (list rstr) :=
  match l with
  | [] => mret []
  | target :: l =>
      path ← stage_target debian_backend root self looks target;
      paths ← prepare debian_backend root self looks l;
      mret (path :: paths)
  end.

(** * Other processes

    What may happen to the kernel between two operations: descriptors are
    opened and closed, anonymous files are created, sealed, changed, and freed
    when no descriptor is left. A file sealed against writing, growing and
    shrinking does not change, and one with the seal [SEAL] keeps its seals.
    [kept] are the descriptors that a process holds on to. *)
Inductive world_step (kept : gset (Z * Z)) : Kernel -> Kernel -> Prop :=
| step_open pid fd node k :
    descriptors k !! (pid, fd) = None ->
    world_step kept k {| descriptors := <[(pid, fd) := node]> (descriptors k); inodes := inodes k;
                         directories := directories k; staged := staged k |}
| step_close pid fd k :
    (pid, fd) ∉ kept ->
    world_step kept k {| descriptors := delete (pid, fd) (descriptors k); inodes := inodes k;
                         directories := directories k; staged := staged k |}
| step_create node f k :
    inodes k !! node = None ->
    world_step kept k {| descriptors := descriptors k; inodes := <[node := f]> (inodes k);
                         directories := directories k; staged := staged k |}
| step_seal node f seals k :
    inodes k !! node = Some f -> Z.testbit (inode_seals f) 0 = false ->
    world_step kept k {| descriptors := descriptors k;
                         inodes := <[node := {| inode_content := inode_content f; inode_seals := Z.lor (inode_seals f) seals |}]> (inodes k);
                         directories := directories k; staged := staged k |}
| step_write node f content k :
    inodes k !! node = Some f -> Z.land (inode_seals f) 14 ≠ 14 ->
    world_step kept k {| descriptors := descriptors k;
                         inodes := <[node := {| inode_content := content; inode_seals := inode_seals f |}]> (inodes k);
                         directories := directories k; staged := staged k |}
| step_free node k :
    (forall key, descriptors k !! key ≠ Some node) ->
    world_step kept k {| descriptors := descriptors k; inodes := delete node (inodes k); directories := directories k; staged := staged k |}
| step_directory d k :
    world_step kept k {| descriptors := descriptors k; inodes := inodes k; directories := {[d]} ∪ directories k; staged := staged k |}.

Definition world (kept : gset (Z * Z)) : Kernel -> Kernel -> Prop := rtc (world_step kept).
End artifact.
