(* ===== verification/ArtifactProofs.v ===== *)
(** Sealed archives: what a snapshot holds cannot change while it is kept, a
    handoff string names exactly one snapshot, and the privileged process
    stages_files the bytes that were captured. *)

From S2P Require Import Prelude RustPath Validation ArtifactInspector DebVersion Deb822Proofs Artifact.
Open Scope Z_scope.
Open Scope omg_scope.

(** * Reasoning about kernel operations

    [yields E Q p k]: started in [k], [p] ends with an error in [E] or with a
    value and a kernel in [Q]. *)
Definition yields {A} (E : ArtifactError -> Prop) (Q : A -> Kernel -> Prop) (p : K A) (k : Kernel) : Prop :=
  match p k with Ok (a, k') => Q a k' | Err e => E e end.

Section yields.
Context (E : ArtifactError -> Prop).

Lemma yields_bind {A B} (p : K A) (f : A -> K B) Q k :
  yields E (fun a k' => yields E Q (f a) k') p k -> yields E Q (p ≫= f) k.
Proof. unfold yields, mbind, K_bind. by destruct (p k) as [[a k']|e]. Qed.

Lemma yields_ret {A} (a : A) Q k : Q a k -> yields E Q (mret a) k.
Proof. done. Qed.

Lemma yields_query {A} (f : Kernel -> result A ArtifactError) (Q : A -> Kernel -> Prop) k :
  match f k with Ok a => Q a k | Err e => E e end -> yields E Q (query f) k.
Proof. unfold yields, query. by destruct (f k). Qed.

Lemma yields_mono {A} (p : K A) (Q R : A -> Kernel -> Prop) k :
  yields E Q p k -> (forall a k', Q a k' -> R a k') -> yields E R p k.
Proof. unfold yields. destruct (p k) as [[a k']|e]; auto. Qed.
End yields.

(** Errors of any kind, and only the refusal of resources. *)
Definition any_error (e : ArtifactError) : Prop := True.
Definition refused (e : ArtifactError) : Prop := e = OutOfResources.

Lemma yields_Ok {A} E (Q : A -> Kernel -> Prop) p k a k' : yields E Q p k -> p k = Ok (a, k') -> Q a k'.
Proof. unfold yields. intros HQ Hp. by rewrite Hp in HQ. Qed.

(** Guards: one that holds, and one that is only known afterwards. *)
Lemma yields_check {A} (b : bool) e (p : K A) Q k :
  (b = true -> yields any_error Q p k) -> yields any_error Q (_ ← pure (ensure b e); p) k.
Proof. intros Hp. apply yields_bind, yields_query. unfold ensure. destruct b; [by apply Hp|done]. Qed.

Lemma yields_checked {A} E (b : bool) e (p : K A) Q k :
  b = true -> yields E Q p k -> yields E Q (_ ← pure (ensure b e); p) k.
Proof. intros -> Hp. by apply yields_bind, yields_query. Qed.

Lemma yields_some {A B} E (o : option A) e a (p : A -> K B) Q k :
  o = Some a -> yields E Q (p a) k -> yields E Q (x ← pure (ok_or o e); p x) k.
Proof. intros -> Hp. by apply yields_bind, yields_query. Qed.

Lemma yields_get {A B} (o : option A) e (p : A -> K B) Q k :
  (forall a, o = Some a -> yields any_error Q (p a) k) -> yields any_error Q (x ← pure (ok_or o e); p x) k.
Proof. intros Hp. apply yields_bind, yields_query. destruct o; [by apply Hp|done]. Qed.

(** * Kernels that only grow *)

Record grows (k k' : Kernel) : Prop := {
  grows_descriptors : descriptors k ⊆ descriptors k';
  grows_inodes : inodes k ⊆ inodes k';
  grows_directories : directories k ⊆ directories k';
  grows_staged : staged k ⊆ staged k'
}.

#[export] Instance grows_preorder : PreOrder grows.
Proof. split; [by intros k; split|]. intros a b c [] []. split; by etrans. Qed.

(** Files are only staged in directories that exist. *)
Definition staged_ok (k : Kernel) : Prop := forall p, is_Some (staged k !! p) -> p.1 ∈ directories k.

(** * What a file and a snapshot hold *)

Record holds_file (self : Z) (k : Kernel) (f : SealedFile) (bytes : list Z) : Prop := {
  file_descriptor : descriptors k !! (self, raw_fd f) = Some (inode f);
  file_content : exists seals, inodes k !! inode f = Some {| inode_content := bytes; inode_seals := seals |} /\
    Z.land seals ALL_SEALS = ALL_SEALS;
  file_length : zlen bytes <= MAX_ARCHIVE_BYTES;
  file_number : 0 <= raw_fd f < 2 ^ 31
}.

Definition kept_file (self : Z) (f : SealedFile) : Z * Z := (self, raw_fd f).

(** The descriptors a snapshot keeps open. *)
Definition kept_by (self : Z) (s : ArchiveSnapshot) : list (Z * Z) :=
  kept_file self (file s) :: match signature s with Some (f, _) => [kept_file self f] | None => [] end.

Definition kept_inputs (self : Z) (inp : SnapshotInputs) : gset (Z * Z) := list_to_set (snapshots inp ≫= kept_by self).

Lemma holds_grows self k k' f bytes : grows k k' -> holds_file self k f bytes -> holds_file self k' f bytes.
Proof.
  intros [Hd Hi _ _] [H1 (seals & H2 & H3) H4 H5]. split; [|exists seals; split|..]; try done; by eapply lookup_weaken.
Qed.

Lemma sealed_bits seals : Z.land seals ALL_SEALS = ALL_SEALS -> Z.testbit seals 0 = true /\ Z.land seals 14 = 14.
Proof.
  intros E. split.
  - assert (Z.testbit (Z.land seals ALL_SEALS) 0 = true) as Hb by by rewrite E. rewrite Z.land_spec in Hb. by apply andb_prop in Hb as [].
  - change 14 with (Z.land ALL_SEALS 14). by rewrite Z.land_assoc, E.
Qed.

(** A descriptor that is kept goes on naming the same bytes. *)
Lemma holds_step self kept k k' f bytes :
  world_step kept k k' -> kept_file self f ∈ kept -> holds_file self k f bytes -> holds_file self k' f bytes.
Proof.
  intros Hstep Hk [H1 (seals & H2 & H3) H4 H5]. destruct (sealed_bits seals H3) as [Hseal Hwrite].
  destruct Hstep; split; cbn [descriptors inodes inode_content inode_seals] in *; try done; try (by exists seals).
  - rewrite lookup_insert_ne; [done|congruence].
  - rewrite lookup_delete_ne; [done|]. by intros [= -> ->].
  - exists seals. rewrite lookup_insert_ne; [done|congruence].
  - exists seals. rewrite lookup_insert_ne; [done|]. intros ->. simplify_eq/=. congruence.
  - exists seals. rewrite lookup_insert_ne; [done|]. intros ->. by simplify_eq/=.
  - exists seals. rewrite lookup_delete_ne; [done|]. intros ->. by eapply H.
Qed.

Lemma holds_world self kept k k' f bytes :
  world kept k k' -> kept_file self f ∈ kept -> holds_file self k f bytes -> holds_file self k' f bytes.
Proof. induction 1; eauto using holds_step. Qed.

Lemma staged_ok_world kept k k' : world kept k k' -> staged_ok k -> staged_ok k'.
Proof.
  induction 1 as [|k k' k'' Hs _ IH]; [done|]. intros Hok. apply IH. destruct Hs; try exact Hok.
  intros p Hp. cbn in *. set_solver.
Qed.

Section artifact.
Context `{ArchiveCodec} `{SystemNames}.

(** [hex::encode] of a SHA-256 digest. *)
Definition hex_digests : Prop := forall x, length (sha256_hex x) = 64%nat /\ forallb is_ascii_hexdigit (sha256_hex x) = true.

Definition holds_signature (self : Z) (k : Kernel) (sig : option (SealedFile * rstr)) (bytes : option (list Z)) : Prop :=
  match sig, bytes with
  | None, None => True
  | Some (f, hash), Some bytes => holds_file self k f bytes /\ hash = sha256_hex bytes
  | _, _ => False
  end.

Record holds (self : Z) (k : Kernel) (s : ArchiveSnapshot) (bytes : list Z) (sig : option (list Z)) : Prop := {
  holds_main : holds_file self k (file s) bytes;
  holds_digest : digest_of s = sha256_hex bytes;
  holds_sig : holds_signature self k (signature s) sig;
  holds_name : clean_part (name s);
  holds_original : original s ≠ [] /\ original s ≠ str "." /\ original s ≠ str ".."
}.

Lemma snapshot_grows self k k' s bytes sig : grows k k' -> holds self k s bytes sig -> holds self k' s bytes sig.
Proof.
  intros Hg [H1 H2 H3 H4 H5]. split; eauto using holds_grows. unfold holds_signature in *.
  destruct (signature s) as [[]|], sig; try done. naive_solver eauto using holds_grows.
Qed.

Lemma snapshot_world self kept k k' s bytes sig :
  world kept k k' -> (forall p, p ∈ kept_by self s -> p ∈ kept) -> holds self k s bytes sig -> holds self k' s bytes sig.
Proof.
  intros Hw Hk [H1 H2 H3 H4 H5]. unfold kept_by in Hk. split; try done.
  - eapply holds_world; [done| |done]. apply Hk. by left.
  - unfold holds_signature in *. destruct (signature s) as [[f h]|], sig; try done. destruct H3 as [Hf ->]. split; [|done].
    eapply holds_world; [done| |done]. apply Hk. by right; left.
Qed.

(** * Operations *)

Lemma used_descriptors_spec pid fd k : fd ∈ used_descriptors pid k <-> is_Some (descriptors k !! (pid, fd)).
Proof.
  unfold used_descriptors. rewrite elem_of_map. setoid_rewrite elem_of_filter. setoid_rewrite elem_of_dom. split.
  - intros ([p f] & -> & Hp & Hs). simpl in *. by subst.
  - intros Hs. by exists (pid, fd).
Qed.

Lemma open_descriptor_yields pid node k :
  yields refused (fun f k' => grows k k' /\ inode f = node /\ descriptors k' !! (pid, raw_fd f) = Some node /\
    0 <= raw_fd f < 2 ^ 31 /\ inodes k' = inodes k /\ directories k' = directories k /\ staged k' = staged k) (open_descriptor pid node) k.
Proof.
  unfold yields, open_descriptor. destruct (new_descriptor _) as [fd|] eqn:E; [|done].
  apply new_descriptor_ok in E as [Hn Hr]. rewrite used_descriptors_spec in Hn. apply eq_None_not_Some in Hn.
  split; [split; simpl; try done; by apply insert_subseteq|]. simpl. by rewrite lookup_insert_eq.
Qed.

Lemma new_file_yields content seals k :
  yields refused (fun node k' => grows k k' /\ inodes k' !! node = Some {| inode_content := content; inode_seals := seals |} /\
    directories k' = directories k /\ staged k' = staged k) (new_file content seals) k.
Proof.
  unfold yields, new_file. destruct (new_inode _) as [node|] eqn:E; [|done].
  apply new_inode_ok in E. rewrite not_elem_of_dom in E.
  split; [split; simpl; try done; by apply insert_subseteq|]. simpl. by rewrite lookup_insert_eq.
Qed.

Lemma yields_weaken {A} (E E' : ArtifactError -> Prop) (Q : A -> Kernel -> Prop) p k :
  (forall e, E e -> E' e) -> yields E Q p k -> yields E' Q p k.
Proof. unfold yields. destruct (p k) as [[]|]; auto. Qed.

Lemma yields_any {A} E (Q : A -> Kernel -> Prop) p k : yields E Q p k -> yields any_error Q p k.
Proof. by apply yields_weaken. Qed.

Lemma sealed_copy_yields pid source k :
  yields any_error (fun fh k' => grows k k' /\ staged k' = staged k /\ directories k' = directories k /\
    exists bytes, opened_content source = Some bytes /\ holds_file pid k' fh.1 bytes /\ fh.2 = sha256_hex bytes) (sealed_copy pid source) k.
Proof.
  apply yields_check. intros _. apply yields_get. intros bytes Hb. apply yields_check. intros Hlen%Z.leb_le.
  apply yields_bind. eapply yields_mono; [eapply yields_any, new_file_yields|]. intros node k1 (Hg1 & Hnode & Hd1 & Hs1).
  apply yields_bind. eapply yields_mono; [eapply yields_any, open_descriptor_yields|]. intros f k2 (Hg2 & Hf & Hfd & Hr & Hi & Hd2 & Hs2).
  apply yields_bind, yields_query. unfold content_of. rewrite Hf, Hi, Hnode. cbn. split_and!; [by etrans|congruence..|].
  exists bytes. split_and!; try done. split; try done; [by rewrite Hf|]. rewrite Hf, Hi. by exists ALL_SEALS.
Qed.

(** Opening what another process sealed: the check of the digest ties the
    expected hash to the bytes. *)
Lemma open_sealed_yields self pid fd expected k :
  yields any_error (fun f k' => grows k k' /\ staged k' = staged k /\ directories k' = directories k /\
    descriptors k !! (pid, fd) = Some (inode f) /\ exists bytes, holds_file self k' f bytes /\ expected = sha256_hex bytes)
    (open_sealed self pid fd expected) k.
Proof.
  apply yields_check. intros _. apply yields_bind, yields_query. destruct (descriptors k !! (pid, fd)) as [node|] eqn:En; [|done].
  apply yields_bind. eapply yields_mono; [eapply yields_any, open_descriptor_yields|]. intros f k1 (Hg & <- & Hfd & Hr & Hi & Hd & Hs).
  apply yields_bind, yields_query. rewrite Hi. destruct (inodes k !! inode f) as [[bytes seals]|] eqn:Ei; [|done].
  apply yields_check. intros Hseal%Z.eqb_eq. apply yields_check. intros Hlen%Z.leb_le.
  apply yields_bind, yields_query. unfold content_of. rewrite Hi, Ei. cbn.
  apply yields_check. intros Hh%bool_decide_eq_true. apply yields_ret. split_and!; try done.
  exists bytes. split; [|done]. split; try done. rewrite Hi. by exists seals.
Qed.

(** Opening what this development's own snapshot holds only needs resources. *)
Lemma open_held_yields self pid f bytes k : hex_digests -> holds_file pid k f bytes ->
  yields refused (fun g k' => grows k k' /\ staged k' = staged k /\ directories k' = directories k /\ holds_file self k' g bytes)
    (open_sealed self pid (raw_fd f) (sha256_hex bytes)) k.
Proof.
  intros Hhex [Hfd (seals & Hnode & Hseal) Hlen Hr]. destruct (Hhex bytes) as [H64 Hall].
  assert (Forall (fun c => c < 0x80) (sha256_hex bytes)) as Hascii.
  { apply Forall_forall. intros c Hc. rewrite forallb_forall in Hall. apply list_elem_of_In, Hall in Hc.
    unfold is_ascii_hexdigit, is_ascii_digit in Hc. ev_ch. to_prop. lia. }
  apply yields_checked. { rewrite str_len_ascii, as_bytes_ascii, H64, Hall by done. done. }
  apply yields_bind, yields_query. rewrite Hfd. cbn.
  apply yields_bind. eapply yields_mono; [apply open_descriptor_yields|]. intros g k1 (Hg & Hi1 & Hfd1 & Hr1 & Hi & Hd & Hs).
  apply yields_bind, yields_query. rewrite Hi, Hnode. cbn.
  apply yields_checked; [by apply Z.eqb_eq|]. apply yields_checked; [by apply Z.leb_le|].
  apply yields_bind, yields_query. unfold content_of. rewrite Hi1, Hi, Hnode. cbn.
  apply yields_checked; [by apply bool_decide_eq_true|]. apply yields_ret. split_and!; try done.
  split; try done; [by rewrite Hi1|]. rewrite Hi1, Hi. by exists seals.
Qed.

(** * Handoff strings *)

Lemma splitn_cut n a b : (ch "/" ∉ a) -> splitn (S (S n)) (a ++ str "/" ++ b) = a :: splitn (S n) b.
Proof.
  intros Ha. change (str "/" ++ b) with (ch "/" :: b). cbn [splitn].
  by rewrite (proj2 (split_once_Some (ch "/") (a ++ ch "/" :: b) a b)).
Qed.

(** Every field before the sixth is free of slashes. *)
Lemma splitn_fields n s i f : splitn n s !! i = Some f -> (S i < n)%nat -> ch "/" ∉ f.
Proof.
  revert s i. induction n as [|n IH]; intros s i Hi Hlt; [lia|]. destruct n as [|n]; [lia|]. cbn [splitn] in Hi.
  destruct (split_once (ch "/") s) as [[a b]|] eqn:E.
  - apply split_once_Some in E as [-> Ha]. destruct i as [|i]; simpl in Hi; [by simplify_eq|]. apply (IH b i); [done|lia].
  - apply split_once_None in E. destruct i; by simplify_eq/=.
Qed.

Lemma number_field n : 0 <= n -> ch "/" ∉ to_string n.
Proof. intros Hn. by apply number_char. Qed.

Lemma digest_field x : hex_digests -> ch "/" ∉ sha256_hex x.
Proof.
  intros Hhex. destruct (Hhex x) as [_ Hall]. rewrite forallb_forall in Hall. intros Hin%list_elem_of_In%Hall. by vm_compute in Hin.
Qed.

Definition signature_field (s : ArchiveSnapshot) : rstr :=
  match signature s with None => str "none" | Some (f, hash) => to_string (raw_fd f) ++ str "-" ++ hash end.

Lemma not_elem_app {A} (x : A) a b : (x ∉ a) -> (x ∉ b) -> x ∉ a ++ b.
Proof. intros Ha Hb. by rewrite elem_of_app; intros [?|?]. Qed.

Lemma signature_field_ok self k s sig : hex_digests -> holds_signature self k (signature s) sig -> ch "/" ∉ signature_field s.
Proof.
  unfold signature_field. intros Hhex Hs. destruct (signature s) as [[f hash]|]; [|by apply (bool_decide_unpack _); vm_compute].
  destruct sig as [b|]; [|done]. destruct Hs as [[_ _ _ Hr] ->]. apply not_elem_app; [apply number_field; lia|].
  apply not_elem_app; [by apply (bool_decide_unpack _); vm_compute|by apply digest_field].
Qed.

Lemma handoff_fields self k s bytes sig : hex_digests -> 0 <= self -> holds self k s bytes sig ->
  exists rest, strip_prefix PREFIX (handoff self s) = Some rest /\
    splitn 6 rest = [to_string self; to_string (raw_fd (file s)); digest_of s; signature_field s; name s; original s].
Proof.
  intros Hhex Hself [[_ _ _ Hr] Hd Hsig (_ & _ & _ & Hname) _]. eexists. split; [by apply strip_prefix_Some|].
  rewrite (splitn_cut 4), (splitn_cut 3), (splitn_cut 2), (splitn_cut 1), (splitn_cut 0);
    [done|done|by eapply signature_field_ok|rewrite Hd; by apply digest_field|apply number_field; lia..].
Qed.

Lemma handoff_is_input debian self s : is_archive_input debian (handoff self s) = true.
Proof. unfold is_archive_input. apply orb_true_intro. left. apply orb_true_intro. left. apply starts_with_true. by eexists. Qed.

Lemma handoff_original_of self k s bytes sig : hex_digests -> 0 <= self -> holds self k s bytes sig ->
  handoff_original (handoff self s) = Some (original s).
Proof.
  intros Hhex Hself Hs. destruct (handoff_fields self k s bytes sig Hhex Hself Hs) as (rest & Hp & Hf).
  unfold handoff_original. rewrite Hp. cbn [mbind option_bind]. rewrite Hf. cbn.
  destruct Hs as [_ _ _ _ (H1 & H2 & H3)]. by rewrite !(proj2 (str_eqb_false _ _)) by done.
Qed.

Definition quiet (k k' : Kernel) : Prop := grows k k' /\ staged k' = staged k /\ directories k' = directories k.

#[local] Instance quiet_preorder : PreOrder quiet.
Proof. split; [done|]. intros a b c (H1 & H2 & H3) (H4 & H5 & H6). split_and!; [by etrans|congruence..]. Qed.

Lemma signature_yields self pid k s sig : hex_digests -> holds_signature pid k (signature s) sig ->
  yields refused (fun r k' => quiet k k' /\ holds_signature self k' r sig) (signature_handoff self pid (signature_field s)) k.
Proof.
  intros Hhex Hs. unfold signature_handoff, signature_field. destruct (signature s) as [[f hash]|], sig as [b|]; try done.
  destruct Hs as [Hf ->]. pose proof (file_number _ _ _ _ Hf) as Hr.
  assert (ch "-" ∉ to_string (raw_fd f)) as Hdash by (apply number_char; [lia|done]).
  replace (str_eqb _ _) with false.
  2:{ symmetry. apply str_eqb_false. intros E. assert (ch "-" ∈ str "none") as Hin by (rewrite <- E; set_solver).
      revert Hin. by apply (bool_decide_unpack _); vm_compute. }
  eapply yields_some; [apply split_once_Some; split; [reflexivity|done]|].
  eapply yields_some; [apply parse_to_string; unfold u32_max; lia|].
  apply yields_bind. eapply yields_mono; [by apply open_held_yields|]. intros g k1 (Hg & Hs1 & Hd1 & Hf1). by apply yields_ret.
Qed.

(** Reading the handoff of a snapshot recovers what the snapshot holds,
    unless the system refuses a descriptor. *)
Lemma from_handoff_yields self pid k s bytes sig : hex_digests -> 0 < pid <= u32_max -> holds pid k s bytes sig ->
  yields refused (fun r k' => quiet k k' /\ exists s', r = Some s' /\ holds self k' s' bytes sig /\
    name s' = name s /\ original s' = original s) (from_handoff self (handoff pid s)) k.
Proof.
  intros Hhex Hpid Hs. destruct (handoff_fields pid k s bytes sig Hhex ltac:(lia) Hs) as (rest & Hp & Hf).
  unfold from_handoff. rewrite Hp, Hf, (handoff_original_of pid k s bytes sig) by (done || lia).
  destruct Hs as [Hmain Hd Hsig Hname Horig]. pose proof (file_number _ _ _ _ Hmain) as Hr. destruct Hname as (Hn1 & Hn2 & Hn3 & Hn4).
  eapply yields_some; [apply parse_to_string; lia|]. eapply yields_some; [apply parse_to_string; unfold u32_max; lia|].
  apply yields_checked. { rewrite !(proj2 (str_eqb_false _ _)) by done. rewrite (proj2 (Z.ltb_lt _ _)) by lia. done. }
  apply yields_bind. rewrite Hd. eapply yields_mono; [by apply open_held_yields|]. intros f k1 (Hg & Hs1 & Hd1 & Hf1).
  assert (holds_signature pid k1 (signature s) sig) as Hsig1.
  { unfold holds_signature in *. destruct (signature s) as [[]|], sig; try done. naive_solver eauto using holds_grows. }
  apply yields_bind. eapply yields_mono; [by apply signature_yields|]. intros r k2 [Hq2 Hr2]. apply yields_ret.
  split; [by transitivity k1|]. eexists. split_and!; [done| |done|done]. split; try done. cbn. by eapply holds_grows; [apply Hq2|].
Qed.

(** * Inputs *)

(** The bytes of the descriptor that two fields of a handoff name. *)
Definition handed_bytes (k : Kernel) (pid fd : rstr) : option (list Z) :=
  p ← parse_uint u32_max pid; n ← parse_uint u32_max fd; node ← descriptors k !! (p, n); inode_content <$> inodes k !! node.

(** A target stands for an archive and possibly a signature: a path for what
    was read when it was opened, a handoff for what its descriptors name. *)
Definition input_is (looks : TargetFacts) (k : Kernel) (target : rstr) (bytes : list Z) (sig : option (list Z)) : Prop :=
  match strip_prefix PREFIX target with
  | None =>
      (exists f, target_file looks = Opened f /\ opened_content f = Some bytes) /\
      match sig with
      | Some b => exists f, target_signature looks = Opened f /\ opened_content f = Some b
      | None => target_signature looks = OpenNotFound
      end
  | Some rest =>
      exists pid fd hash field more, splitn 6 rest = pid :: fd :: hash :: field :: more /\ handed_bytes k pid fd = Some bytes /\
      match sig with
      | Some b => exists number sum, split_once (ch "-") field = Some (number, sum) /\ handed_bytes k pid number = Some b
      | None => field = str "none"
      end
  end.

Lemma handed_grows k k' pid fd bytes : grows k k' -> handed_bytes k pid fd = Some bytes -> handed_bytes k' pid fd = Some bytes.
Proof.
  intros [Hd Hi _ _]. unfold handed_bytes. destruct (parse_uint u32_max pid) as [p|]; [|done]. destruct (parse_uint u32_max fd) as [n|]; [|done].
  cbn. destruct (descriptors k !! (p, n)) as [node|] eqn:E; [|done]. rewrite (lookup_weaken _ _ _ _ E Hd). cbn.
  destruct (inodes k !! node) as [f|] eqn:Ef; [|done]. by rewrite (lookup_weaken _ _ _ _ Ef Hi).
Qed.

Lemma input_grows looks k k' target bytes sig : grows k k' -> input_is looks k target bytes sig -> input_is looks k' target bytes sig.
Proof.
  intros Hg. unfold input_is. destruct (strip_prefix PREFIX target) as [rest|]; [|done].
  intros (pid & fd & hash & field & more & Hf & Hb & Hs). exists pid, fd, hash, field, more. split_and!; [done|by eapply handed_grows|].
  destruct sig; naive_solver eauto using handed_grows.
Qed.

Lemma handed_open k k' self pid fd p n f bytes : parse_uint u32_max pid = Some p -> parse_uint u32_max fd = Some n ->
  descriptors k !! (p, n) = Some (inode f) -> grows k k' -> holds_file self k' f bytes -> handed_bytes k' pid fd = Some bytes.
Proof.
  intros Hp Hn Hd Hg [_ (seals & Hi & _) _ _]. unfold handed_bytes. rewrite Hp, Hn. cbn.
  rewrite (lookup_weaken _ _ _ _ Hd (grows_descriptors _ _ Hg)). cbn. by rewrite Hi.
Qed.

Lemma signature_accepted self p pid field k : parse_uint u32_max pid = Some p ->
  yields any_error (fun r k' => quiet k k' /\ exists sig, holds_signature self k' r sig /\
    match sig with
    | Some b => exists number sum, split_once (ch "-") field = Some (number, sum) /\ handed_bytes k' pid number = Some b
    | None => field = str "none"
    end) (signature_handoff self p field) k.
Proof.
  intros Hp. unfold signature_handoff. destruct (str_eqb field (str "none")) eqn:E.
  { apply bool_decide_eq_true in E as ->. apply yields_ret. split; [done|]. by exists None. }
  apply yields_get. intros [fd hash] Hsplit. apply yields_get. intros n Hn.
  apply yields_bind. eapply yields_mono; [apply open_sealed_yields|]. intros f k1 (Hg & Hs & Hd & Hfd & b & Hf & ->).
  apply yields_ret. split; [done|]. exists (Some b). split; [done|]. exists fd, (sha256_hex b). split; [done|]. by eapply handed_open.
Qed.

Lemma label_clean n s i label : splitn n s !! i = Some label -> (S i < n)%nat ->
  negb (str_eqb label []) && negb (str_eqb label (str ".")) && negb (str_eqb label (str "..")) = true -> clean_part label.
Proof.
  intros Hi Hlt Hb. apply splitn_fields in Hi; [|done]. rewrite !andb_true_iff, !negb_true_iff, !str_eqb_false in Hb. by destruct Hb as [[] ?].
Qed.

(** A handoff of any origin that is accepted names sealed bytes with the
    digest it states, under a single file name. *)
Lemma from_handoff_accepted self looks value k :
  yields any_error (fun r k' => quiet k k' /\
    match r with
    | None => strip_prefix PREFIX value = None
    | Some s => exists bytes sig, holds self k' s bytes sig /\ input_is looks k' value bytes sig
    end) (from_handoff self value) k.
Proof.
  unfold from_handoff, input_is. destruct (strip_prefix PREFIX value) as [rest|] eqn:Er; [|by apply yields_ret].
  destruct (splitn 6 rest) as [|pid [|fd [|hash [|field [|label more]]]]] eqn:Ef; try done.
  apply yields_get. intros p Hp. apply yields_get. intros n Hn. apply yields_check. intros Hchk.
  rewrite <- !andb_assoc, andb_true_iff, !andb_assoc in Hchk. destruct Hchk as [_ Hlabel].
  apply (label_clean 6 rest 4) in Hlabel; [|by rewrite Ef|lia].
  apply yields_bind. eapply yields_mono; [apply open_sealed_yields|]. intros f k1 (Hg & Hs & Hd & Hfd & b & Hf & ->).
  apply yields_bind. eapply yields_mono; [by apply signature_accepted|]. intros r k2 ((Hg2 & Hs2 & Hd2) & sig & Hsig & Hfield).
  apply yields_ret. split; [split_and!; [by etrans|congruence..]|]. exists b, sig. pose proof (holds_grows _ _ _ _ _ Hg2 Hf) as Hf2. split.
  - split; try done. cbn [original]. unfold handoff_original. rewrite Er. cbn [mbind option_bind]. rewrite Ef. cbn.
    destruct Hlabel as (H1 & H2 & H3 & _). destruct more as [|o more]; cbn; [done|].
    match goal with |- context [if ?b then _ else _] => destruct b eqn:Eo; [|done] end.
    cbn. rewrite !andb_true_iff, !negb_true_iff, !str_eqb_false in Eo. by destruct Eo as [[] ?].
  - exists pid, fd, (sha256_hex b), field, (label :: more). split_and!; [done| |done]. eapply handed_open; [done..| |done]. by etrans.
Qed.

Lemma path_file_name_clean path label : path_file_name path = Some label -> clean_part label.
Proof.
  unfold path_file_name. destruct (last (path_components path)) as [c|] eqn:E; [|done].
  destruct (str_eqb c (str "..")) eqn:Ed; [done|]. intros [= ->]. apply str_eqb_false in Ed. apply last_Some_elem_of in E.
  apply path_components_elem in E as (? & ? & ?). done.
Qed.

Lemma path_file_name_path path label : path_file_name path = Some label -> path ≠ [] /\ path ≠ str "." /\ path ≠ str "..".
Proof. intros H1. split_and!; intros ->; by vm_compute in H1. Qed.

Lemma capture_signature_yields pid answer k :
  yields any_error (fun r k' => quiet k k' /\ exists sig, holds_signature pid k' r sig /\
    match sig with
    | Some b => exists f, answer = Opened f /\ opened_content f = Some b
    | None => answer = OpenNotFound
    end) (capture_signature pid answer) k.
Proof.
  destruct answer as [source| |]; cbn [capture_signature]; [|by apply yields_ret; split; [|exists None]|done].
  apply yields_bind. eapply yields_mono; [apply sealed_copy_yields|]. intros [f h] k1 (Hg & Hs & Hd & b & Hb & Hf & Hh).
  cbn in Hf, Hh. apply yields_ret. split; [done|]. exists (Some b). split; [done|]. by exists source.
Qed.

(** Capturing seals exactly what was read. *)
Lemma capture_yields self looks target k :
  yields any_error (fun s k' => quiet k k' /\ exists bytes sig, holds self k' s bytes sig /\ input_is looks k' target bytes sig)
    (capture self looks target) k.
Proof.
  apply yields_bind. eapply yields_mono; [apply (from_handoff_accepted self looks)|]. intros [s|] k1 [Hq1 H1]; [by apply yields_ret|].
  unfold input_is. rewrite H1.
  set (valid := map_err InvalidInput _). apply yields_bind, yields_query. destruct valid as [canonical|]; [|done].
  apply yields_get. intros label Hlabel. apply yields_bind, yields_query. destruct (target_file looks) as [source| |] eqn:Es; try done.
  apply yields_get. intros uid _. apply yields_check. intros _.
  apply yields_bind. eapply yields_mono; [apply sealed_copy_yields|]. intros [f h] k2 (Hg2 & Hs2 & Hd2 & b & Hb & Hf & Hh). cbn in Hf, Hh.
  apply yields_bind. eapply yields_mono; [apply capture_signature_yields|]. intros r k3 (Hq3 & sig & Hr & Hsig).
  apply yields_ret. split; [transitivity k1; [done|]; by transitivity k2|]. exists b, sig. split.
  - split; try done; cbn; [by eapply holds_grows; [apply Hq3|]|by eapply path_file_name_clean|by eapply path_file_name_path].
  - split; [by exists source|done].
Qed.

(** A target and what is passed on for it. *)
Definition captured (debian : bool) (self : Z) (looks : rstr -> TargetFacts) (k : Kernel) (kept : list ArchiveSnapshot) (target out : rstr) : Prop :=
  if is_archive_input debian target then
    exists s bytes sig, s ∈ kept /\ out = handoff self s /\ holds self k s bytes sig /\ input_is (looks target) k target bytes sig
  else out = target.

Lemma captured_grows debian self looks k k' kept kept' target out : grows k k' -> (forall s, s ∈ kept -> s ∈ kept') ->
  captured debian self looks k kept target out -> captured debian self looks k' kept' target out.
Proof.
  intros Hg Hk. unfold captured. destruct (is_archive_input debian target); [|done].
  intros (s & bytes & sig & ? & ? & ? & ?). exists s, bytes, sig.
  split_and!; [by apply Hk|done|by eapply snapshot_grows|by eapply input_grows].
Qed.

Lemma capture_target_yields debian self looks acc target k :
  yields any_error (fun acc' k' => quiet k k' /\ (forall s, s ∈ snapshots acc -> s ∈ snapshots acc') /\
    exists out, targets acc' = targets acc ++ [out] /\ captured debian self looks k' (snapshots acc') target out)
    (capture_target debian self looks acc target) k.
Proof.
  unfold capture_target, captured. destruct (is_archive_input debian target).
  - apply yields_bind. eapply yields_mono; [apply capture_yields|]. intros s k1 (Hq & bytes & sig & Hs & Hi). apply yields_ret.
    split_and!; [done|set_solver|]. eexists. split; [done|]. exists s, bytes, sig. cbn. set_solver.
  - apply yields_ret. split_and!; [done|done|]. by eexists.
Qed.

Lemma capture_targets_yields debian self looks l : forall acc k,
  yields any_error (fun acc' k' => quiet k k' /\ (forall s, s ∈ snapshots acc -> s ∈ snapshots acc') /\
    exists outs, targets acc' = targets acc ++ outs /\ Forall2 (captured debian self looks k' (snapshots acc')) l outs)
    (capture_targets debian self looks acc l) k.
Proof.
  induction l as [|target l IH]; intros acc k; cbn [capture_targets].
  { apply yields_ret. split_and!; [done|done|]. exists []. by rewrite app_nil_r. }
  apply yields_bind. eapply yields_mono; [apply capture_target_yields|]. intros acc1 k1 (Hq1 & Hk1 & out & Ht1 & Hc1).
  eapply yields_mono; [apply IH|]. intros acc2 k2 (Hq2 & Hk2 & outs & Ht2 & Hc2). split_and!; [by transitivity k1|naive_solver|].
  exists (out :: outs). split; [by rewrite Ht2, Ht1, <- app_assoc|]. constructor; [|done]. eapply captured_grows; [apply Hq2|done|done].
Qed.

(** * Staging *)

(** Directories that exist keep their files. *)
Definition stages_files (k k' : Kernel) : Prop :=
  grows k k' /\ staged_ok k' /\ forall p, p.1 ∈ directories k -> staged k' !! p = staged k !! p.

Lemma stages_files_trans a b c : stages_files a b -> stages_files b c -> stages_files a c.
Proof.
  intros (H1 & H2 & H3) (H4 & H5 & H6). split_and!; [by etrans|done|]. intros p Hp. rewrite H6, H3; [done..|].
  by apply (grows_directories _ _ H1).
Qed.

Lemma reader_yields E self s bytes sig k (Q : list Z -> Kernel -> Prop) : holds self k s bytes sig -> Q bytes k -> yields E Q (reader self s) k.
Proof.
  intros [[Hd (seals & Hi & _) _ _] _ _ _ _] HQ. apply yields_query. rewrite Hd. cbn. by rewrite Hi.
Qed.

Definition placed (k : Kernel) (d label : rstr) (bytes : list Z) (sig : option (list Z)) : Prop :=
  d ∈ directories k /\ staged k !! (d, label) = Some bytes /\ staged k !! (d, label ++ str ".sig") = sig.

Lemma placed_stages k k' d label bytes sig : stages_files k k' -> placed k d label bytes sig -> placed k' d label bytes sig.
Proof. intros (Hg & _ & Hs) (Hd & H1 & H2). split_and!; [by apply (grows_directories _ _ Hg)|by rewrite Hs..]. Qed.

Lemma sig_name label : label ≠ label ++ str ".sig".
Proof. intros E. apply (f_equal length) in E. rewrite length_app in E. simpl in E. lia. Qed.

(** Writing below a directory that did not exist touches nothing else. *)
Lemma new_directory_stages k d m : d ∉ directories k -> staged_ok k -> (forall p, p.1 ≠ d -> m !! p = staged k !! p) ->
  stages_files k {| descriptors := descriptors k; inodes := inodes k; directories := {[d]} ∪ directories k; staged := m |}.
Proof.
  intros Hd Hok Hm. assert (forall p, is_Some (staged k !! p) -> p.1 ≠ d) as Hne by (intros p Hp%Hok ?; by subst).
  split_and!; [split; cbn; try set_solver| |].
  - apply map_subseteq_spec. intros p x Hp. rewrite Hm; [done|]. apply Hne. by eexists.
  - intros p Hp. cbn in *. destruct (decide (p.1 = d)) as [->|]; [set_solver|]. rewrite Hm in Hp by done. apply Hok in Hp. set_solver.
  - intros p Hp. cbn. apply Hm. by intros <-.
Qed.

(** The files of one snapshot go to a directory that did not exist. *)
Lemma stage_files_yields self s bytes sig k : staged_ok k -> holds self k s bytes sig ->
  yields refused (fun path k' => stages_files k k' /\ exists d, path = d ++ str "/" ++ name s /\ placed k' d (name s) bytes sig)
    (directory ← tempdir_in_var_tmp;
     content ← reader self s;
     _ ← write_staged true (directory, name s) content;
     _ ← stage_signature (directory, name s) (signature s);
     mret (directory ++ str "/" ++ name s)) k.
Proof.
  intros Hok Hs. apply yields_bind. unfold tempdir_in_var_tmp at 1, yields at 1. destruct (new_directory _) as [d|] eqn:Ed; [|done].
  apply new_directory_ok in Ed. set (k1 := {| descriptors := _ |}).
  assert (grows k k1) as Hg1 by (split; simpl; set_solver).
  assert (forall n, staged k !! (d, n) = None) as Hfree. { intros n. apply eq_None_not_Some. by intros Hn%Hok. }
  apply yields_bind. eapply reader_yields; [by eapply snapshot_grows|].
  apply yields_bind. unfold write_staged, yields at 1. cbn [staged k1]. rewrite Hfree.
  rewrite bool_decide_eq_false_2 by (by intros [? ?]). cbn [andb].
  pose proof (holds_sig _ _ _ _ _ Hs) as Hsig. unfold holds_signature in Hsig. pose proof (sig_name (name s)) as Hname.
  destruct (signature s) as [[f h]|] eqn:Esig, sig as [b|]; try done.
  - destruct Hsig as [[_ (seals & Hi & _) _ _] _]. apply yields_bind. cbn [stage_signature].
    apply yields_bind, yields_query. unfold content_of. cbn [inodes k1]. rewrite Hi. cbn. split; [|exists d; split; [done|]].
    + apply new_directory_stages; [done..|]. intros p Hp. rewrite !lookup_insert_ne; [done|..]; by intros <-.
    + split_and!; cbn; [set_solver| |by rewrite lookup_insert_eq]. rewrite lookup_insert_ne, lookup_insert_eq; [done|]. intros [= E]. exact (Hname (eq_sym E)).
  - split; [|exists d; split; [done|]].
    + apply (new_directory_stages k); [done..|]. intros p Hp. rewrite lookup_insert_ne; [done|]. by intros <-.
    + split_and!; cbn; [set_solver|by rewrite lookup_insert_eq|]. rewrite lookup_insert_ne; [apply Hfree|]. intros [= E]. exact (Hname E).
Qed.

Lemma stage_handoff_yields debian self pid looks s bytes sig k : hex_digests -> 0 < pid <= u32_max -> staged_ok k -> holds pid k s bytes sig ->
  yields refused (fun path k' => stages_files k k' /\ exists d, path = d ++ str "/" ++ name s /\ placed k' d (name s) bytes sig)
    (stage_target debian true self looks (handoff pid s)) k.
Proof.
  intros Hhex Hpid Hok Hs. unfold stage_target. rewrite handoff_is_input. apply yields_checked; [done|].
  apply yields_bind, yields_bind. eapply yields_mono; [by eapply from_handoff_yields|].
  intros r k1 ((Hg & Hst & Hd) & s' & -> & Hs' & <- & _). apply yields_ret.
  assert (staged_ok k1) as Hok1 by (intros p; rewrite Hst, Hd; apply Hok).
  eapply yields_mono; [by apply stage_files_yields|]. intros path k2 [Hst2 Hp]. split; [|done]. eapply stages_files_trans; [|exact Hst2].
  split_and!; [done|done|]. intros p _. by rewrite Hst.
Qed.

(** What becomes of one target. *)
Definition delivered (debian : bool) (looks : rstr -> TargetFacts) (k1 k : Kernel) (target path : rstr) : Prop :=
  if is_archive_input debian target then
    exists d label bytes sig, path = d ++ str "/" ++ label /\ clean_part label /\ input_is (looks target) k1 target bytes sig /\
      placed k d label bytes sig
  else path = target.

Lemma delivered_stages debian looks k1 k k' target path : stages_files k k' ->
  delivered debian looks k1 k target path -> delivered debian looks k1 k' target path.
Proof.
  intros Hst. unfold delivered. destruct (is_archive_input debian target); [|done]. intros (d & label & bytes & sig & ? & ? & ? & ?).
  exists d, label, bytes, sig. split_and!; [done..|]. by eapply placed_stages.
Qed.

(** A target whose snapshot is still held in [k2] and that stood for it in [k1]. *)
Definition ready (debian : bool) (self : Z) (looks : rstr -> TargetFacts) (k1 k2 : Kernel) (target out : rstr) : Prop :=
  if is_archive_input debian target then
    exists s bytes sig, out = handoff self s /\ holds self k2 s bytes sig /\ input_is (looks target) k1 target bytes sig
  else out = target.

Lemma prepare_yields debian self root looks looks' k1 l outs : hex_digests -> 0 < self <= u32_max -> forall k, staged_ok k ->
  Forall2 (ready debian self looks k1 k) l outs ->
  yields refused (fun paths k' => stages_files k k' /\ Forall2 (delivered debian looks k1 k') l paths) (prepare debian true root looks' outs) k.
Proof.
  intros Hhex Hself. revert outs. induction l as [|target l IH]; intros outs k Hok Hr; apply Forall2_cons_inv_l in Hr || apply Forall2_nil_inv_l in Hr.
  { subst. apply yields_ret. split; [|constructor]. by split_and!. }
  destruct Hr as (out & outs' & Hout & Hr & ->). cbn [prepare]. apply yields_bind.
  apply (yields_mono _ _ (fun path k' => stages_files k k' /\ delivered debian looks k1 k' target path)).
  - unfold ready, delivered in *. destruct (is_archive_input debian target) eqn:Et.
    + destruct Hout as (s & bytes & sig & -> & Hs & Hi). eapply yields_mono; [by apply (stage_handoff_yields debian root self)|].
      intros path k' [Hst (d & -> & Hp)]. split; [done|]. exists d, (name s), bytes, sig. by split_and!; [|apply Hs|..].
    + subst. unfold stage_target. rewrite Et. apply yields_ret. split; [|done]. by split_and!.
  - intros path k2 [Hst2 Hd2]. apply yields_bind. eapply yields_mono; [apply (IH outs')|].
    + apply Hst2.
    + eapply Forall2_impl; [exact Hr|]. unfold ready. intros x y. destruct (is_archive_input debian x); [|done].
      intros (s & bytes & sig & ? & Hs & ?). exists s, bytes, sig. split_and!; [done| |done]. by eapply snapshot_grows; [apply Hst2|].
    + intros paths k3 [Hst3 Hd3]. apply yields_ret. split; [by eapply stages_files_trans|]. constructor; [|done]. by eapply delivered_stages.
Qed.

(** * Theorems *)

(** C6: Between the review of local archives and their installation as root
    nothing can be exchanged. The archives of a command are captured by the
    unprivileged process; whatever other processes do in between, as long as
    that process keeps its snapshots, the privileged process stages_files for each
    of them, below a new directory and under a plain file name, exactly the
    bytes and the signature that were captured, passes every other target on
    as it is, and fails only when the system refuses a descriptor or a
    directory. *)
Theorem staged_archives_are_the_captured_ones debian self root looks looks' l k inp k1 k2 :
  hex_digests -> 0 < self <= u32_max -> staged_ok k ->
  capture_inputs debian self looks l k = Ok (inp, k1) -> world (kept_inputs self inp) k1 k2 ->
  match prepare debian true root looks' (targets inp) k2 with
  | Ok (paths, k3) => Forall2 (delivered debian looks k1 k3) l paths
  | Err e => e = OutOfResources
  end.
Proof.
  intros Hhex Hself Hok Hc Hw. pose proof (capture_targets_yields debian self looks l {| targets := []; snapshots := [] |} k) as Hy.
  apply (yields_Ok _ _ _ _ _ _ Hy) in Hc as ((_ & Hst & Hd) & _ & outs & Ht & Hcap). cbn in Ht. rewrite Ht.
  assert (staged_ok k1) as Hok1 by (intros p; rewrite Hst, Hd; apply Hok).
  pose proof (prepare_yields debian self root looks looks' k1 l outs Hhex Hself k2 (staged_ok_world _ _ _ Hw Hok1)) as Hp.
  unfold yields in Hp. destruct (prepare debian true root looks' outs k2) as [[paths k3]|e]; [|apply Hp]; [apply Hp|];
    (eapply Forall2_impl; [exact Hcap|]; unfold captured, ready; intros x y; destruct (is_archive_input debian x); [|done];
     intros (s & bytes & sig & Hin & ? & Hs & ?); exists s, bytes, sig; split_and!; [done| |done];
     eapply snapshot_world; [exact Hw| |exact Hs]; intros p Hp'; unfold kept_inputs; rewrite elem_of_list_to_set, list_elem_of_bind; by exists s).
Qed.

(** A handoff of any origin: an accepted one names bytes with the digest it
    states, under a plain file name, and what is read from it never changes
    while it is kept. *)
Theorem accepted_handoff_is_immutable self value k s k' :
  from_handoff self value k = Ok (Some s, k') ->
  clean_part (name s) /\
  exists bytes, digest_of s = sha256_hex bytes /\
    forall kept k'', world kept k' k'' -> (forall p, p ∈ kept_by self s -> p ∈ kept) ->
      reader self s k'' = Ok (bytes, k'') /\
      (verify_sha256 self s (digest_of s) k'' = Ok (tt, k'')).
Proof.
  intros Hf. pose proof (from_handoff_accepted self {| target_facts := {| archive_lstat := None; archive_canonical := None; archive_stat := None;
    archive_parent_stat := None; archive_invoking_uid := None |}; target_file := OpenFailed; target_signature := OpenFailed; target_invoking_uid := None |} value k) as Hy.
  apply (yields_Ok _ _ _ _ _ _ Hy) in Hf as (_ & bytes & sig & Hs & _). split; [apply Hs|]. exists bytes. split; [apply Hs|].
  intros kept k'' Hw Hk. pose proof (snapshot_world _ _ _ _ _ _ _ Hw Hk Hs) as [[Hd (seals & Hi & _) _ _] Hdig _ _ _].
  assert (reader self s k'' = Ok (bytes, k'')) as Hr by (unfold reader, query; rewrite Hd; cbn; by rewrite Hi). split; [done|].
  unfold verify_sha256, mbind, K_bind. rewrite Hr, Hdig. unfold pure, query, ensure, eq_ignore_ascii_case. by rewrite bool_decide_eq_true_2.
Qed.
End artifact.

(** * A concrete system *)

Definition sample_digest (x : list Z) : rstr := replicate 64 (ch "0" + foldr Z.add 0 x mod 10).

#[local] Instance sample_codec : ArchiveCodec :=
  {| zstd_open := fun _ => None; xz_reads := fun _ => []; gzip_reads := fun _ => []; file_reads := fun _ => []; tar_entries := fun _ => None;
     sha256_hex := sample_digest; hex_encode := fun x => x |}.

Lemma sample_hex : hex_digests.
Proof.
  intros x. split; [done|]. change (sha256_hex x) with (sample_digest x). unfold sample_digest. apply forallb_forall. intros c Hc.
  apply list_elem_of_In, elem_of_replicate in Hc as [-> _]. pose proof (Z.mod_pos_bound (foldr Z.add 0 x) 10 ltac:(lia)).
  unfold is_ascii_hexdigit, is_ascii_digit. ev_ch. to_prop. lia.
Qed.

Definition above (used : gset Z) : Z := 1 + foldr Z.max 2 (elements used).

Lemma above_fresh used : (above used ∉ used) /\ 0 <= above used.
Proof.
  assert (forall l, 2 <= foldr Z.max 2 l /\ forall x, x ∈ l -> x <= foldr Z.max 2 l) as Hl.
  { induction l as [|y l [IH1 IH2]]; simpl; [set_solver|]. split; [lia|]. intros x [->|Hx%IH2]%elem_of_cons; lia. }
  unfold above. destruct (Hl (elements used)) as [H1 H2]. split; [|lia]. intros Hin%elem_of_elements%H2. lia.
Qed.

Definition longer (used : gset rstr) : rstr :=
  str "/var/tmp/omg-package-" ++ replicate (foldr Nat.max 0%nat (map (@length Z) (elements used))) (ch "x").

Lemma longer_fresh used : longer used ∉ used.
Proof.
  assert (forall l x, x ∈ l -> (length x <= foldr Nat.max 0 (map (@length Z) l))%nat) as Hl.
  { induction l as [|y l IH]; intros x; [set_solver|]. intros [->|Hx%IH]%elem_of_cons; simpl; lia. }
  intros Hin%elem_of_elements%Hl. unfold longer in Hin at 1. rewrite length_app, length_replicate in Hin. simpl in Hin. lia.
Qed.

#[local] Program Instance sample_names : SystemNames :=
  {| new_descriptor := fun used => if above used <? 2 ^ 31 then Some (above used) else None;
     new_inode := fun used => Some (above used); new_directory := fun used => Some (longer used) |}.
Next Obligation.
  intros used n Hn. cbn in Hn. destruct (Z.ltb_spec (above used) (2 ^ 31)); simplify_eq. destruct (above_fresh used). by split; [|lia].
Qed.
Next Obligation. intros used n [= <-]. apply above_fresh. Qed.
Next Obligation. intros used d [= <-]. apply longer_fresh. Qed.

Definition sample_stat (mode : Z) : FileStat := {| stat_is_symlink := false; stat_is_file := true; stat_uid := 1000; stat_mode := mode |}.

Definition sample_target : rstr := str "/home/me/demo-1-1-any.pkg.tar.zst".

(** A package of the invoking user, with a signature next to it. *)
Definition sample_looks (target : rstr) : TargetFacts :=
  {| target_facts := {| archive_lstat := Some (sample_stat 420); archive_canonical := Some target; archive_stat := Some (sample_stat 420);
       archive_parent_stat := Some (Some (sample_stat 493)); archive_invoking_uid := Some 1000 |};
     target_file := Opened {| opened_stat := sample_stat 420; opened_content := Some [1; 2; 3] |};
     target_signature := Opened {| opened_stat := sample_stat 420; opened_content := Some [7] |};
     target_invoking_uid := Some 1000 |}.

Definition empty_kernel : Kernel := {| descriptors := ∅; inodes := ∅; directories := ∅; staged := ∅ |}.

Definition sample_inputs : SnapshotInputs * Kernel :=
  match capture_inputs false 100 sample_looks [sample_target; str "vim"] empty_kernel with
  | Ok x => x
  | Err _ => ({| targets := []; snapshots := [] |}, empty_kernel)
  end.

(** Another process creates a file of its own in the meantime. *)
Definition sample_later : Kernel :=
  let k := sample_inputs.2 in
  {| descriptors := descriptors k; inodes := <[99 := {| inode_content := [0]; inode_seals := 0 |}]> (inodes k);
     directories := directories k; staged := staged k |}.

Lemma staged_archives_are_the_captured_ones_witness :
  match prepare false true 200 sample_looks (targets sample_inputs.1) sample_later with
  | Ok (paths, k3) => Forall2 (delivered false sample_looks sample_inputs.2 k3) [sample_target; str "vim"] paths
  | Err e => e = OutOfResources
  end /\ is_ok (prepare false true 200 sample_looks (targets sample_inputs.1) sample_later) = true.
Proof.
  split; [|by vm_compute].
  apply (staged_archives_are_the_captured_ones false 100 200 sample_looks sample_looks [sample_target; str "vim"] empty_kernel
           sample_inputs.1 sample_inputs.2 sample_later sample_hex).
  - unfold u32_max. lia.
  - intros p [x Hx]. done.
  - by vm_compute.
  - apply rtc_once. apply step_create. by vm_compute.
Defined.
