(* ===== verification/AurAuthorize.v ===== *)
(** The decision whether built AUR archives may be installed:
    src/src/package_managers/aur/client.rs and approval.rs.

    Reading the identity of an archive, the comparison with the reviewed
    source, the independent rebuild of packages that could affect the system,
    with its cache, and the approval of privileges. The archives are sealed
    snapshots of [Artifact], the reviewed source is that of [AurReview] and
    the reports are those of [ArtifactInspector]. What happens outside (the
    rebuild itself, the file system, the terminal) is an argument; the .SRCINFO
    parser of the alpm crates is the class [SrcinfoParser]. *)

From S2P Require Import Prelude Spdx RustPath Validation AurDeps ArtifactInspector Artifact AurReview.
Open Scope Z_scope.
Open Scope omg_scope.

Definition MAX_PKGINFO_BYTES : Z := 128 * 1024.
Definition MAX_DECOMPRESSED_BYTES : Z := 2 * 1024 * 1024 * 1024.
Definition MAX_PROMPT_BYTES : Z := 32 * 1024.

Inductive AuthorizeError :=
| FromArtifact (e : ArtifactError)
| FromInspector (e : InspectError)
| FromReview (e : ReviewError)
| MetadataTooLarge
| MetadataUnreadable
| MetadataNotUtf8
| ArchiveInvalid
| UnsafeMember
| DuplicateMember
| DuplicateArchitecture
| MissingVersion
| OutputSetDiffers
| MissingIdentity
| IdentityDiffers
| InspectionDiffers
| MissingArchitecture
| ArchitectureNotApproved
| HookDiffers
| AuditFailed
| NotReproduced
| RebuildEnvironment
| RebuildFailed
| RebuiltArchiveNotFound
| EpochInvalid
| NoArchives
| PromptTooLarge
| ApprovalUnattended
| PromptFailed
| ApprovalDenied
| InstallFailed.

(** * .SRCINFO and .PKGINFO text *)

(** [line.split_once('=')] with both sides trimmed, as every reader does. *)
Definition key_value (line : rstr) : option (rstr * rstr) :=
  '(key, value) ← split_once (ch "=") line; Some (trim key, trim value).

Definition set_first (current : option rstr) (value : rstr) : option rstr :=
  match current with Some _ => current | None => Some value end.

(** The loop of [srcinfo_version] over epoch, pkgver and pkgrel. *)
Definition version_line (s : option rstr * option rstr * option rstr) (line : rstr) : option rstr * option rstr * option rstr :=
  let '(epoch, pkgver, pkgrel) := s in
  match key_value line with
  | None => s
  | Some (key, value) =>
      if str_eqb key (str "epoch") then (set_first epoch value, pkgver, pkgrel)
      else if str_eqb key (str "pkgver") then (epoch, set_first pkgver value, pkgrel)
      else if str_eqb key (str "pkgrel") then (epoch, pkgver, set_first pkgrel value)
      else s
  end.

Definition srcinfo_version (content : rstr) : option rstr :=
  let '(epoch, pkgver, pkgrel) := foldl version_line (None, None, None) (byte_lines content) in
  let prefix := match epoch with
                | Some value => if str_eqb value [] then [] else value ++ str ":"
                | None => []
                end in
  match pkgver, pkgrel with
  | Some v, Some r => Some (prefix ++ v ++ str "-" ++ r)
  | Some v, None => Some (prefix ++ v)
  | None, _ => None
  end.

(** [content.lines().find_map(..)]. *)
Fixpoint first_some {A B} (f : A -> option B) (l : list A) : option B :=
  match l with
  | [] => None
  | x :: l => match f x with Some y => Some y | None => first_some f l end
  end.

Definition pkgbase_line (line : rstr) : option rstr :=
  '(key, value) ← key_value line;
  if str_eqb key (str "pkgbase") && negb (str_eqb value []) then Some value else None.

Definition srcinfo_pkgbase (content : rstr) : option rstr := first_some pkgbase_line (byte_lines content).

(** The block a line belongs to, the hook of all outputs, the hook of the
    output that is asked for. *)
Definition install_line (pkgname : rstr) (s : option rstr * option rstr * option rstr) (line : rstr) : option rstr * option rstr * option rstr :=
  let '(block, common, selected) := s in
  match key_value line with
  | None => s
  | Some (key, value) =>
      if str_eqb key (str "pkgname") then (Some value, common, selected)
      else if str_eqb key (str "install") && negb (str_eqb value []) then
        match block with
        | None => (block, Some value, selected)
        | Some b => if str_eqb b pkgname then (block, common, Some value) else s
        end
      else s
  end.

Definition srcinfo_install_script (content pkgname : rstr) : option rstr :=
  let '(_, common, selected) := foldl (install_line pkgname) (None, None, None) (byte_lines content) in
  match selected with Some _ => selected | None => common end.

(** A field that may be given once. *)
Definition set_once (current : option rstr) (value : rstr) : option (option rstr) :=
  match current with Some _ => None | None => Some (Some value) end.

Definition identity_line (s : option rstr * option rstr * option rstr) (line : rstr) : option (option rstr * option rstr * option rstr) :=
  let '(name, version, base) := s in
  match key_value line with
  | None => Some s
  | Some (key, value) =>
      if str_eqb key (str "pkgname") then name ← set_once name value; Some (name, version, base)
      else if str_eqb key (str "pkgver") then version ← set_once version value; Some (name, version, base)
      else if str_eqb key (str "pkgbase") then base ← set_once base value; Some (name, version, base)
      else Some s
  end.

(** The loop with its early return. *)
Fixpoint fold_option {A S} (f : S -> A -> option S) (s : S) (l : list A) : option S :=
  match l with
  | [] => Some s
  | x :: l => s ← f s x; fold_option f s l
  end.

Definition parse_pkginfo_identity (content : rstr) : option (rstr * rstr * rstr) :=
  '(name, version, base) ← fold_option identity_line (None, None, None) (byte_lines content);
  name ← name; version ← version; base ← base;
  Some (name, version, base).

Definition arch_line (line : rstr) : option rstr :=
  '(key, value) ← key_value line; if str_eqb key (str "arch") then Some value else None.

(** * Archive members *)

Record CachedArchiveIdentity := {
  identity_name : rstr;
  identity_version : rstr;
  identity_base : rstr;
  install_script : option rstr;
  identity_architecture : option rstr
}.

Fixpoint strip_components (cs : list Component) : option (list (list Z)) :=
  match cs with
  | [] => Some []
  | Normal part :: cs => parts ← strip_components cs; Some (part :: parts)
  | CurDir :: cs => strip_components cs
  | _ => None
  end.

(** [stripped_archive_path]; the outer option is the error. *)
Definition stripped_archive_path (path : list Z) (strip : nat) : option (option (list (list Z))) :=
  parts ← strip_components (components path);
  Some (match drop strip parts with [] => None | rest => Some rest end).

Definition read_bounded_archive_member (entry : TarEntry) : result rstr AuthorizeError :=
  ensure (entry_size entry <=? MAX_PKGINFO_BYTES) MetadataTooLarge ;?
  let? bytes := ok_or (entry_read entry (MAX_PKGINFO_BYTES + 1)) MetadataUnreadable in
  let? content := ok_or (decode_utf8 bytes) MetadataNotUtf8 in
  ensure (zlen bytes <=? MAX_PKGINFO_BYTES) MetadataTooLarge ;?
  Ok content.

(** The two members that are read. *)
Definition Members : Type := option rstr * option rstr.

Definition identity_entry (s : Members) (e : option TarEntry) : result Members AuthorizeError :=
  let '(pkginfo, hook) := s in
  let? entry := ok_or e ArchiveInvalid in
  let? raw := ok_or (entry_path entry) ArchiveInvalid in
  let? normalized := ok_or (stripped_archive_path raw 0) UnsafeMember in
  let member := parts ← normalized; decode_utf8 (join_slash parts) in
  if bool_decide (member = Some (str ".PKGINFO")) then
    ensure (bool_decide (pkginfo = None) && is_file (entry_type entry)) DuplicateMember ;?
    let? content := read_bounded_archive_member entry in Ok (Some content, hook)
  else if bool_decide (member = Some (str ".INSTALL")) then
    ensure (bool_decide (hook = None) && is_file (entry_type entry)) DuplicateMember ;?
    let? content := read_bounded_archive_member entry in Ok (pkginfo, Some content)
  else Ok s.

Definition archive_identity (members : Members) : result (option CachedArchiveIdentity) AuthorizeError :=
  match members.1 with
  | None => Ok None
  | Some content =>
      let architecture := omap arch_line (byte_lines content) in
      ensure (bool_decide (length architecture <= 1)%nat) DuplicateArchitecture ;?
      Ok ('(name, version, base) ← parse_pkginfo_identity content;
          Some {| identity_name := name; identity_version := version; identity_base := base;
                  install_script := members.2; identity_architecture := head architecture |})
  end.

(** * Architectures *)

Inductive Architectures :=
| ArchAny
| ArchSome (names : list rstr).

Record SourceArchitectures := {
  base_architectures : Architectures;
  package_architectures : list (rstr * option Architectures)
}.

(** The alpm crates: [SourceInfoV1::from_string] and the name of a system
    architecture. *)
Class SrcinfoParser := {
  source_architectures : rstr -> option SourceArchitectures;
  system_architecture_name : SystemArchitecture -> rstr
}.

(** What is known of the rebuild environment. *)
Record MakepkgEnv := {
  makeflags : rstr;
  extra_env : list (rstr * rstr)
}.

Inductive AurBuildMethod := Bubblewrap | Chroot | Native.

Record AurSettings := {
  build_method : AurBuildMethod;
  secure_makepkg : bool;
  allow_network : bool
}.

(** [format!("{:?}", ..)]. *)
Definition build_method_debug (m : AurBuildMethod) : rstr :=
  match m with Bubblewrap => str "Bubblewrap" | Chroot => str "Chroot" | Native => str "Native" end.

Definition makepkg_args (s : AurSettings) : list rstr :=
  [str "--noconfirm"; str "-f"; str "--needed"] ++ (if secure_makepkg s then [str "--cleanbuild"] else []).

Definition join_zero (l : list rstr) : rstr :=
  match l with [] => [] | x :: l => x ++ (l ≫= fun y => 0 :: y) end.

(** Entries of the audit log the code writes here. *)
Inductive AurEvent :=
| Inspected (source_digest : rstr) (inspection : ArtifactInspection)
| VerifiedCache (key : rstr)
| ExactMatch (source_digest key : rstr) (outputs : list rstr)
| Approval (outcome : rstr) (inspections : list ArtifactInspection).

(** The state of the client: the kernel, the process-wide cache of verified
    pairs, and what was written to the audit log. *)
Record Aur := {
  kernel : Kernel;
  paired : gset rstr;
  audit : list AurEvent
}.

Definition M (A : Type) : Type := Aur -> Aur * result A AuthorizeError.

#[export] Instance M_ret : MRet M := fun A a s => (s, Ok a).
#[export] Instance M_bind : MBind M := fun A B f p s =>
  match p s with (s', Ok a) => f a s' | (s', Err e) => (s', Err e) end.

Definition lift {A} (r : result A AuthorizeError) : M A := fun s => (s, r).

Definition on_kernel {A} (p : K A) : M A := fun s =>
  match p (kernel s) with
  | Ok (a, k) => ({| kernel := k; paired := paired s; audit := audit s |}, Ok a)
  | Err e => (s, Err (FromArtifact e))
  end.

(** An operation whose descriptors are closed when it ends. *)
Definition scoped {A} (p : K A) : K A := fun k =>
  match p k with Ok (a, _) => Ok (a, k) | Err e => Err e end.

Fixpoint mmap {A B} (f : A -> M B) (l : list A) : M (list B) :=
  match l with
  | [] => mret []
  | x :: l => y ← f x; ys ← mmap f l; mret (y :: ys)
  end.

Section authorize.
Context `{ArchiveCodec} `{SystemNames} `{SrcinfoParser}.

(** The process, the host architecture, the settings, and whether the audit
    log accepts an entry. *)
Context (self : Z) (host : rstr) (settings : AurSettings) (accepts : list AurEvent -> AurEvent -> bool).

Definition record_operation (e : AurEvent) : M unit := fun s =>
  if accepts (audit s) e then ({| kernel := kernel s; paired := paired s; audit := audit s ++ [e] |}, Ok tt)
  else (s, Err AuditFailed).

(** The reader for a path: the decoder follows the extension. *)
Definition package_archive_reader (path : rstr) (file : list Z) (limit : Z) : result ArchiveReader AuthorizeError :=
  if bool_decide (path_extension path = Some (str "zst")) then
    let? decoder := ok_or (zstd_open file) ArchiveInvalid in Ok (BudgetedReader (budgeted_reads limit decoder))
  else if bool_decide (path_extension path = Some (str "xz")) then
    let? output := map_err FromInspector (decode_xz_to (xz_reads file) {| inner := []; written := 0; ArtifactInspector.budget := limit |}) in
    Ok (TempFile (inner output))
  else Ok (BudgetedReader (budgeted_reads limit (gzip_reads file))).

Definition cached_archive_identity (path : rstr) (file : list Z) : result (option CachedArchiveIdentity) AuthorizeError :=
  let? reader := package_archive_reader path file MAX_DECOMPRESSED_BYTES in
  let? entries := ok_or (tar_entries reader) ArchiveInvalid in
  let? members := for_each identity_entry (None, None) entries in
  archive_identity members.

(** The content behind a handoff, opened for this reading only. *)
Definition handoff_content (path : rstr) : K (list Z) :=
  scoped (handed ← from_handoff self path;
          match handed with Some s => reader self s | None => pure (Err ArtifactIo) end).

Definition package_architecture_matches (architecture : rstr) : bool :=
  is_some_and (current_arch host) (fun system =>
    str_eqb architecture (str "any") || str_eqb architecture (system_architecture_name system)).

Definition archive_architecture_approved (srcinfo : SourceArchitectures) (output architecture : rstr) : bool :=
  package_architecture_matches architecture &&
  match List.find (fun p => str_eqb p.1 output) (package_architectures srcinfo) with
  | None => false
  | Some package =>
      match default (base_architectures srcinfo) package.2 with
      | ArchAny => str_eqb architecture (str "any")
      | ArchSome names => existsb (fun candidate => str_eqb candidate architecture) names
      end
  end.

(** [line.trim_start().starts_with("pkgver()")], or with a space. *)
Definition dynamic_line (line : rstr) : bool :=
  let line := trim_start_matches is_whitespace line in
  starts_with (str "pkgver()") line || starts_with (str "pkgver ()") line.

(** * Authorization *)

(** The checks on one archive, once it is sealed and inspected. *)
Definition check_identity (source : ReviewedSource) (srcinfo expected_version base output : rstr) (dynamic_version : bool)
    (inspection : ArtifactInspection) (id : CachedArchiveIdentity) : result unit AuthorizeError :=
  ensure (str_eqb (identity_name id) output && str_eqb (identity_base id) base
          && (str_eqb (identity_version id) expected_version || dynamic_version)) IdentityDiffers ;?
  ensure (str_eqb (package_name inspection) (identity_name id) && str_eqb (package_base inspection) (identity_base id)
          && str_eqb (package_version inspection) (identity_version id)) InspectionDiffers ;?
  let? architecture := ok_or (identity_architecture id) MissingArchitecture in
  ensure (is_some_and (source_architectures srcinfo) (fun metadata => archive_architecture_approved metadata output architecture))
    ArchitectureNotApproved ;?
  let? expected_hook :=
    match srcinfo_install_script srcinfo output with
    | None => Ok None
    | Some path => let? hook := map_err FromReview (text source path) in Ok (Some hook)
    end in
  ensure (bool_decide (install_script id = expected_hook)) HookDiffers.

Definition authorize_archive (looks : rstr -> TargetFacts) (source : ReviewedSource) (srcinfo expected_version base : rstr) (dynamic_version : bool)
    (p : rstr * rstr) : M ArchiveSnapshot :=
  let '(path, output) := p in
  snapshot ← on_kernel (Artifact.capture self (looks path) path);
  content ← on_kernel (reader self snapshot);
  inspection ← lift (map_err FromInspector (inspect_archive (Some content)));
  _ ← on_kernel (verify_sha256 self snapshot (archive_sha256 inspection));
  file ← on_kernel (handoff_content (handoff self snapshot));
  found ← lift (cached_archive_identity (handoff self snapshot) file);
  id ← lift (ok_or found MissingIdentity);
  _ ← lift (check_identity source srcinfo expected_version base output dynamic_version inspection id);
  _ ← record_operation (Inspected (source_digest source) inspection);
  mret snapshot.

Definition authorize_archives (looks : rstr -> TargetFacts) (paths : list rstr) (source : ReviewedSource) (base : rstr) (outputs : list rstr)
    (fresh : bool) : M (list ArchiveSnapshot) :=
  srcinfo ← lift (map_err FromReview (text source (str ".SRCINFO")));
  expected_version ← lift (ok_or (srcinfo_version srcinfo) MissingVersion);
  _ ← lift (ensure (bool_decide (srcinfo_pkgbase srcinfo = Some base) && bool_decide (length paths = length outputs)
                    && negb (bool_decide (paths = []))) OutputSetDiffers);
  pkgbuild ← lift (map_err FromReview (text source (str "PKGBUILD")));
  let dynamic_version := fresh && existsb dynamic_line (byte_lines pkgbuild) in
  mmap (authorize_archive looks source srcinfo expected_version base dynamic_version) (zip paths outputs).

(** [inspect_archive(&archive.path())]. *)
Definition inspect_snapshot (s : ArchiveSnapshot) : M ArtifactInspection :=
  content ← on_kernel (reader self s);
  lift (map_err FromInspector (inspect_archive (Some content))).

(** * The independent rebuild *)

(** A value with its length in front. *)
Definition length_prefixed (value : rstr) : list Z := le_bytes 8 (str_len value) ++ as_bytes value.

Definition inspection_bytes (i : ArtifactInspection) : list Z :=
  ([package_name i; package_version i; archive_sha256 i] ≫= length_prefixed) ++ le_bytes 4 (policy_version i).

Definition pair_cmp (a b : rstr * rstr) : comparison := then_with (list_cmp a.1 b.1) (list_cmp a.2 b.2).

Definition setting_values (source : ReviewedSource) (env : MakepkgEnv) : list rstr :=
  [source_digest source; makeflags env; build_method_debug (build_method settings); join_zero (makepkg_args settings);
   if secure_makepkg settings then str "secure-makepkg" else str "standard-makepkg";
   if allow_network settings then str "network-enabled" else str "network-disabled"].

Definition key_input (source : ReviewedSource) (env : MakepkgEnv) (inspections : list ArtifactInspection) : list Z :=
  str "omg-aur-paired-build-v1" ++ [0]
  ++ (setting_values source env ≫= length_prefixed)
  ++ (sort_by pair_cmp (extra_env env) ≫= fun kv => length_prefixed kv.1 ++ length_prefixed kv.2)
  ++ (sort_by (fun a b => list_cmp (package_name a) (package_name b)) inspections ≫= inspection_bytes).

Definition paired_build_cache_key (source : ReviewedSource) (env : MakepkgEnv) (inspections : list ArtifactInspection) : rstr :=
  sha256_hex (key_input source env inspections).

(** Name, version and hash of an archive. *)
Definition triple (i : ArtifactInspection) : rstr * rstr * rstr := (package_name i, package_version i, archive_sha256 i).

Definition triple_cmp (a b : rstr * rstr * rstr) : comparison :=
  then_with (pair_cmp a.1 b.1) (list_cmp a.2 b.2).

Definition canonical_outputs (items : list ArtifactInspection) : list (rstr * rstr * rstr) := sort_by triple_cmp (map triple items).

Definition verify_paired_outputs (primary secondary : list ArtifactInspection) : result unit AuthorizeError :=
  ensure (bool_decide (canonical_outputs primary = canonical_outputs secondary)) NotReproduced.

(** What the outside answers during a rebuild: the checkout when it is
    compared, the fresh environment, the keys, the exit status, the archives
    that were found and the files behind them. *)
Record Rebuild := {
  rebuild_root : list (list Z);
  rebuild_checkout : Node;
  rebuild_env : option MakepkgEnv;
  rebuild_keys : bool;
  rebuild_status : option bool;
  rebuild_paths : option (list rstr);
  rebuild_looks : rstr -> TargetFacts
}.

Definition insert_pair (key : rstr) : M unit := fun s =>
  ({| kernel := kernel s; paired := {[key]} ∪ paired s; audit := audit s |}, Ok tt).

(** [u64::from_str_radix(.., 16)] on sixteen characters; [+] is accepted. *)
Definition hex_value (c : char) : option Z :=
  if is_ascii_digit c then Some (c - ch "0")
  else if (ch "a" <=? c) && (c <=? ch "f") then Some (c - ch "a" + 10)
  else if (ch "A" <=? c) && (c <=? ch "F") then Some (c - ch "A" + 10)
  else None.

Definition hex_digits (s : rstr) : option Z :=
  match s with
  | [] => None
  | _ => fold_option (fun acc c => d ← hex_value c; let v := acc * 16 + d in if v <=? u64_max then Some v else None) 0 s
  end.

Definition from_str_radix_16 (s : rstr) : option Z :=
  match s with
  | c :: rest => if c =? ch "+" then hex_digits rest else hex_digits s
  | [] => None
  end.

(** [source_digest.get(..16)]; a digest is ASCII. *)
Definition reproducible_source_epoch (source_digest : rstr) : option rstr :=
  if bool_decide (length source_digest < 16)%nat then None
  else value ← from_str_radix_16 (take 16 source_digest); Some (to_string (946684800 + value mod 1577923200)).

Definition set_reproducible_source_epoch (env : MakepkgEnv) (source : ReviewedSource) : option MakepkgEnv :=
  epoch ← reproducible_source_epoch (source_digest source);
  Some {| makeflags := makeflags env;
          extra_env := List.filter (fun kv => negb (str_eqb kv.1 (str "SOURCE_DATE_EPOCH"))) (extra_env env)
                       ++ [(str "SOURCE_DATE_EPOCH", epoch)] |}.

(** The second build and the comparison of its outputs. *)
Definition rebuild_and_compare (source : ReviewedSource) (base : rstr) (outputs : list rstr) (fresh : bool)
    (primary_inspections : list ArtifactInspection) (r : Rebuild) : M unit :=
  _ ← lift (map_err FromReview (AurReview.verify source (rebuild_root r) (rebuild_checkout r)));
  env ← lift (ok_or (rebuild_env r) RebuildEnvironment);
  _ ← lift (ok_or (set_reproducible_source_epoch env source) EpochInvalid);
  _ ← lift (ensure (rebuild_keys r) RebuildEnvironment);
  status ← lift (ok_or (rebuild_status r) RebuildFailed);
  _ ← lift (ensure status RebuildFailed);
  secondary_paths ← lift (ok_or (rebuild_paths r) RebuiltArchiveNotFound);
  secondary ← authorize_archives (rebuild_looks r) secondary_paths source base outputs fresh;
  secondary_inspections ← mmap inspect_snapshot secondary;
  lift (verify_paired_outputs primary_inspections secondary_inspections).

Definition authorize_with_paired_build (looks : rstr -> TargetFacts) (paths : list rstr) (source : ReviewedSource) (base : rstr)
    (outputs : list rstr) (fresh : bool) (env : MakepkgEnv) (r : Rebuild) : M (list ArchiveSnapshot) :=
  primary ← authorize_archives looks paths source base outputs fresh;
  primary_inspections ← mmap inspect_snapshot primary;
  if negb (existsb requires_paired_build primary_inspections) then mret primary
  else
    let cache_key := paired_build_cache_key source env primary_inspections in
    hit ← (fun s => (s, Ok (bool_decide (cache_key ∈ paired s))));
    if hit : bool then
      _ ← record_operation (VerifiedCache cache_key);
      mret primary
    else
      _ ← rebuild_and_compare source base outputs fresh primary_inspections r;
      _ ← insert_pair cache_key;
      _ ← record_operation (ExactMatch (source_digest source) cache_key outputs);
      mret primary.

(** * Finding the outputs of a build *)

(** The first metadata member close to the root decides. *)
Definition name_version_line (s : option rstr * option rstr) (line : rstr) : option (option rstr * option rstr) :=
  let '(name, version) := s in
  match key_value line with
  | None => Some s
  | Some (key, value) =>
      if str_eqb key (str "pkgname") then name ← set_once name value; Some (name, version)
      else if str_eqb key (str "pkgver") then version ← set_once version value; Some (name, version)
      else Some s
  end.

Definition parse_pkginfo_name_version (content : rstr) : option (rstr * rstr) :=
  '(name, version) ← fold_option name_version_line (None, None) (byte_lines content);
  name ← name; version ← version; Some (name, version).

(** [path.file_name()] as text, of a path with at most two components. *)
Definition metadata_member (path : list Z) : bool :=
  bool_decide (length (components path) <= 2)%nat &&
  match last (components path) with
  | Some (Normal part) => bool_decide (decode_utf8 part = Some (str ".PKGINFO")) || bool_decide (decode_utf8 part = Some (str "PKGINFO"))
  | _ => false
  end.

Fixpoint find_name_version (entries : list (option TarEntry)) : result (option (rstr * rstr)) AuthorizeError :=
  match entries with
  | [] => Ok None
  | e :: entries =>
      let? entry := ok_or e ArchiveInvalid in
      let? path := ok_or (entry_path entry) ArchiveInvalid in
      if metadata_member path then
        let? content := read_bounded_archive_member entry in Ok (parse_pkginfo_name_version content)
      else find_name_version entries
  end.

Definition pkg_name_and_version_from_archive_result (path : rstr) (file : list Z) : result (option (rstr * rstr)) AuthorizeError :=
  let? reader := package_archive_reader path file MAX_DECOMPRESSED_BYTES in
  let? entries := ok_or (tar_entries reader) ArchiveInvalid in
  find_name_version entries.

Definition pkg_name_from_archive (path : rstr) (file : option (list Z)) : result (option rstr) AuthorizeError :=
  let? bytes := ok_or file ArchiveInvalid in
  let? identity := pkg_name_and_version_from_archive_result path bytes in
  Ok (fst <$> identity).

(** An entry of the output directory: its name, whether it is a regular file,
    its contents, and its modification time ([None]: no metadata; [Some None]:
    no time). *)
Record OutputFile := {
  output_name : rstr;
  output_regular : bool;
  output_content : option (list Z);
  output_mtime : option (option Z)
}.

Definition output_path (dir : rstr) (f : OutputFile) : rstr := dir ++ str "/" ++ output_name f.

(** [filename.starts_with(name) && filename.chars().nth(name.len()) == Some('-')]. *)
Definition names_output (filename name : rstr) : bool :=
  starts_with name filename && bool_decide (filename !! Z.to_nat (str_len name) = Some (ch "-")).

Definition candidate (dir : rstr) (expected : list rstr) (f : OutputFile) : bool :=
  output_regular f
  && (ends_with (str ".pkg.tar.zst") (output_name f) || ends_with (str ".pkg.tar.xz") (output_name f))
  && existsb (names_output (output_name f)) expected
  && match pkg_name_from_archive (output_path dir f) (output_content f) with
     | Ok (Some parsed) => existsb (fun name => str_eqb name parsed) expected
     | _ => false
     end.

(** The best match so far and its time. *)
Definition consider (dir : rstr) (expected : list rstr) (best : option rstr * Z) (f : OutputFile) : option rstr * Z :=
  if negb (candidate dir expected f) then best
  else match output_mtime f with
       | Some (Some mtime) => if best.2 <? mtime then (Some (output_path dir f), mtime) else best
       | Some None => best
       | None => match best.1 with None => (Some (output_path dir f), best.2) | Some _ => best end
       end.

Definition find_package_in_dir (dir : rstr) (listing : option (list OutputFile)) (expected : list rstr) : option rstr :=
  entries ← listing; (foldl (consider dir expected) (None, 0) entries).1.

Fixpoint find_built_packages (dir : rstr) (listing : option (list OutputFile)) (expected : list rstr) : option (list rstr) :=
  match expected with
  | [] => Some []
  | name :: expected =>
      package ← find_package_in_dir dir listing [name];
      packages ← find_built_packages dir listing expected;
      Some (package :: packages)
  end.

(** * Approval of privileges *)

(** Zero-width characters, separators and the characters that reorder text. *)
Definition is_invisible (c : char) : bool :=
  is_bidi c || ((0x200b <=? c) && (c <=? 0x200f)) || ((0x2060 <=? c) && (c <=? 0x2064)) || (c =? 0x2028) || (c =? 0x2029) || (c =? 0xfeff).

Definition sanitize_terminal_text (s : rstr) : rstr := List.filter (fun c => negb (is_control c) && negb (is_invisible c)) s.

(** [{:04o}] of a value below [2 ^ 12]. *)
Definition octal4 (n : Z) : rstr :=
  [ch "0" + n / 512 mod 8; ch "0" + n / 64 mod 8; ch "0" + n / 8 mod 8; ch "0" + n mod 8].

Definition file_text (f : PrivilegedFile) : rstr :=
  str "
  " ++ sanitize_terminal_text (path f) ++ str " mode=" ++ octal4 (Z.land (mode f) 4095)
  ++ match capability f with Some c => str " capability=" ++ c | None => [] end.

Definition inspection_text (i : ArtifactInspection) : rstr :=
  str "
" ++ sanitize_terminal_text (package_name i) ++ str " " ++ sanitize_terminal_text (package_version i) ++ str " [" ++ archive_sha256 i ++ str "]"
  ++ match report_install_hook i with
     | Some hook => str "
  .INSTALL hook sha256=" ++ hook
     | None => []
     end
  ++ (report_privileged_files i ≫= file_text).

Definition prompt_text (exceptional : list ArtifactInspection) : rstr :=
  str "AUR package contents request exceptional install-time privileges:
" ++ (exceptional ≫= inspection_text) ++ str "

Install these exact inspected archives?".

Definition exception_prompt (inspections : list ArtifactInspection) : result (option rstr) AuthorizeError :=
  match List.filter requires_exception inspections with
  | [] => Ok None
  | exceptional =>
      let prompt := prompt_text exceptional in
      ensure (str_len prompt <=? MAX_PROMPT_BYTES) PromptTooLarge ;?
      Ok (Some prompt)
  end.

(** What the terminal answers: whether there is one, and the answer to the
    prompt ([None] when it cannot be read). *)
Record Terminal := {
  attended : bool;
  confirm : rstr -> option bool
}.

Definition approve (terminal : Terminal) (inspections : list ArtifactInspection) : M unit :=
  asked ← lift (exception_prompt inspections);
  match asked with
  | None => mret tt
  | Some prompt =>
      if negb (attended terminal) then
        _ ← record_operation (Approval (str "rejected_unattended") inspections); lift (Err ApprovalUnattended)
      else
        answer ← lift (ok_or (confirm terminal prompt) PromptFailed);
        if negb answer then
          _ ← record_operation (Approval (str "rejected") inspections); lift (Err ApprovalDenied)
        else record_operation (Approval (str "approved") inspections)
  end.

(** The transaction, run directly or by the elevated process, receives the
    handoffs: [install]. *)
Definition install_built_packages (terminal : Terminal) (install : list rstr -> bool) (archives : list ArchiveSnapshot) : M (list rstr) :=
  _ ← lift (ensure (negb (bool_decide (archives = []))) NoArchives);
  inspections ← mmap inspect_snapshot archives;
  _ ← approve terminal inspections;
  let handoffs := map (handoff self) archives in
  _ ← lift (ensure (install handoffs) InstallFailed);
  mret handoffs.
End authorize.
