(* ===== verification/AurAuthorizeProofs.v ===== *)
(** Authorized AUR archives are what was reviewed, packages that could affect
    the system were reproduced byte for byte, and privileges are only granted
    on an attended approval that lists them. *)

From S2P Require Import Prelude Spdx RustPath Validation AurDeps ArtifactInspector Artifact ArtifactProofs AurReview AurReviewProofs AurAuthorize.
Open Scope Z_scope.
Open Scope omg_scope.

(** * Reasoning about the client *)

Lemma M_bind_Ok {A B} (p : M A) (f : A -> M B) s s' b :
  (p ≫= f) s = (s', Ok b) <-> exists s1 a, p s = (s1, Ok a) /\ f a s1 = (s', Ok b).
Proof.
  unfold mbind, M_bind. destruct (p s) as [s1 [a|e]]; [naive_solver|]. split; [done|]. by intros (? & ? & ? & ?).
Qed.

Lemma lift_Ok {A} (r : result A AuthorizeError) s s' a : lift r s = (s', Ok a) <-> r = Ok a /\ s' = s.
Proof. unfold lift. naive_solver. Qed.

Lemma M_ret_Ok {A} (a b : A) s s' : (mret a : M A) s = (s', Ok b) <-> a = b /\ s' = s.
Proof. unfold mret, M_ret. naive_solver. Qed.

Lemma on_kernel_Ok {A} (p : K A) s s' a :
  on_kernel p s = (s', Ok a) <-> exists k, p (kernel s) = Ok (a, k) /\ s' = {| kernel := k; paired := paired s; audit := audit s |}.
Proof. unfold on_kernel. destruct (p (kernel s)) as [[b k]|e]; split; [naive_solver..|done|naive_solver]. Qed.

(** Take a successful run apart. *)
Ltac m_inv :=
  repeat match goal with
  | H : (_ ≫= _) _ = (_, Ok _) |- _ => apply M_bind_Ok in H as (? & ? & ? & H)
  | H : lift _ _ = (_, Ok _) |- _ => apply lift_Ok in H as [H ->]
  | H : mret _ _ = (_, Ok _) |- _ => apply M_ret_Ok in H as [<- ->]
  | H : on_kernel _ _ = (_, Ok _) |- _ => apply on_kernel_Ok in H as (? & H & ->)
  end.

(** Nothing that a snapshot holds is lost. *)
Definition extends (s s' : Aur) : Prop := grows (kernel s) (kernel s') /\ paired s' = paired s.

#[export] Instance extends_preorder : PreOrder extends.
Proof. split; [by split|]. intros a b c [] []. split; [by etrans|congruence]. Qed.

Lemma mmap_Ok {A B} (f : A -> M B) (Q : A -> B -> Aur -> Prop) l :
  (forall x y s s', f x s = (s', Ok y) -> extends s s' /\ Q x y s') ->
  (forall x y s s', extends s s' -> Q x y s -> Q x y s') ->
  forall s s' ys, mmap f l s = (s', Ok ys) -> extends s s' /\ Forall2 (fun x y => Q x y s') l ys.
Proof.
  intros Hf HQ. induction l as [|x l IH]; intros s s' ys H; cbn [mmap] in H; m_inv; [by split; [|constructor]|].
  destruct (Hf _ _ _ _ H0) as [He1 Hq1]. destruct (IH _ _ _ H1) as [He2 Hq2]. split; [by etrans|]. constructor; [by eapply HQ|done].
Qed.

(** [res_inv], looking through [ok_or]. *)
Ltac r_inv := res_inv; repeat match goal with H : ok_or _ _ = Ok _ |- _ => apply ok_or_Ok in H end.

(** * Members of an archive *)

Definition member_of (e : TarEntry) : option rstr :=
  raw ← entry_path e; normalized ← stripped_archive_path raw 0; parts ← normalized; decode_utf8 (join_slash parts).

(** The contents of all members with a name. *)
Definition contents_of (member : rstr) (entries : list (option TarEntry)) : list (list Z) :=
  omap (fun e => e ← e; if bool_decide (member_of e = Some member) then entry_read e (MAX_PKGINFO_BYTES + 1) else None) entries.

Definition bytes_of (o : option rstr) : list (list Z) := match o with Some t => [as_bytes t] | None => [] end.

Lemma read_member_Ok e content : read_bounded_archive_member e = Ok content ->
  entry_read e (MAX_PKGINFO_BYTES + 1) = Some (as_bytes content).
Proof. unfold read_bounded_archive_member. intros Hr. r_inv. by destruct (decode_utf8_Some _ _ Hr2) as [_ ->]. Qed.

Lemma identity_entry_members s e s' : identity_entry s e = Ok s' ->
  bytes_of s'.1 = bytes_of s.1 ++ contents_of (str ".PKGINFO") [e] /\ bytes_of s'.2 = bytes_of s.2 ++ contents_of (str ".INSTALL") [e].
Proof.
  destruct s as [p h]. unfold identity_entry. intros Hr. destruct e as [e|]; [|done]. cbn [ok_or res_bind] in Hr.
  unfold contents_of. cbn [omap list_omap mbind option_bind]. unfold member_of.
  destruct (entry_path e) as [raw|]; [|done]. cbn [ok_or res_bind mbind option_bind] in *.
  destruct (stripped_archive_path raw 0) as [n|]; [|done]. cbn [ok_or res_bind mbind option_bind] in *.
  revert Hr. generalize (parts ← n; decode_utf8 (join_slash parts)). intros member Hr.
  assert (Some (str ".PKGINFO") ≠ Some (str ".INSTALL")) as Hne by (by vm_compute).
  destruct (decide (member = Some (str ".PKGINFO"))) as [->|H1].
  { rewrite (bool_decide_eq_true_2 _ eq_refl) in Hr |- *. rewrite (bool_decide_eq_false_2 _ Hne). r_inv.
    apply andb_prop in Hr0 as [->%bool_decide_eq_true _]. apply read_member_Ok in Hr1. cbn [fst snd]. by rewrite Hr1, app_nil_r. }
  rewrite (bool_decide_eq_false_2 _ H1) in Hr |- *. destruct (decide (member = Some (str ".INSTALL"))) as [->|H2].
  { rewrite (bool_decide_eq_true_2 _ eq_refl) in Hr |- *. r_inv.
    apply andb_prop in Hr0 as [->%bool_decide_eq_true _]. apply read_member_Ok in Hr1. cbn [fst snd]. by rewrite Hr1, app_nil_r. }
  rewrite (bool_decide_eq_false_2 _ H2) in Hr |- *. simplify_eq. by rewrite !app_nil_r.
Qed.

(** The members that were read are all there are. *)
Lemma members_spec entries : forall s s', for_each identity_entry s entries = Ok s' ->
  bytes_of s'.1 = bytes_of s.1 ++ contents_of (str ".PKGINFO") entries /\ bytes_of s'.2 = bytes_of s.2 ++ contents_of (str ".INSTALL") entries.
Proof.
  induction entries as [|e entries IH]; intros s s' Hr; cbn [for_each] in Hr; [simplify_eq; by rewrite !app_nil_r|]. r_inv.
  apply identity_entry_members in Hr0 as [H1 H2]. destruct (IH _ _ Hr) as [H3 H4].
  unfold contents_of in *. change (e :: entries) with ([e] ++ entries). rewrite !omap_app, !app_assoc, <- H1, <- H2. done.
Qed.

Section authorize.
Context `{ArchiveCodec} `{SystemNames} `{SrcinfoParser}.
Context (self : Z) (host : rstr) (settings : AurSettings) (accepts : list AurEvent -> AurEvent -> bool).
Context (Hhex : hex_digests) (Hself : 0 < self <= u32_max).

Lemma inspect_digest bytes r : inspect_archive (Some bytes) = Ok r -> archive_sha256 r = sha256_hex bytes.
Proof.
  unfold inspect_archive, finish_inspection. intros Hr. cbn [ok_or res_bind] in Hr. res_inv.
  repeat case_match; res_inv. done.
Qed.

Lemma record_Ok e s s' u : record_operation accepts e s = (s', Ok u) ->
  kernel s' = kernel s /\ paired s' = paired s /\ audit s' = audit s ++ [e].
Proof. unfold record_operation. destruct (accepts _ _); naive_solver. Qed.

Lemma reader_Ok s bytes sig k c k' : ArtifactProofs.holds self k s bytes sig -> reader self s k = Ok (c, k') -> c = bytes /\ k' = k.
Proof.
  intros [[Hd (seals & Hi & _) _ _] _ _ _ _]. unfold reader, query. rewrite Hd. cbn. rewrite Hi. cbn. naive_solver.
Qed.

Lemma verify_Ok s e k u k' : verify_sha256 self s e k = Ok (u, k') -> k' = k.
Proof.
  unfold verify_sha256, reader, pure, query, mbind, K_bind. intros Hv. repeat case_match; naive_solver.
Qed.

Lemma handoff_content_Ok s bytes sig k c k' : ArtifactProofs.holds self k s bytes sig ->
  handoff_content self (handoff self s) k = Ok (c, k') -> c = bytes /\ k' = k.
Proof.
  intros Hs. unfold handoff_content, scoped.
  pose proof (from_handoff_yields self self k s bytes sig Hhex Hself Hs) as Hy. unfold yields in Hy. unfold mbind, K_bind.
  destruct (from_handoff self (handoff self s) k) as [[r k1]|e]; [|done]. destruct Hy as (_ & s' & -> & Hs' & _).
  destruct (reader self s' k1) as [[c1 k2]|] eqn:Er; [|done]. intros [= <- <-]. apply (reader_Ok _ _ _ _ _ _ Hs') in Er as [-> _]. done.
Qed.

(** What the members of an archive are, as the code that reads its identity
    decodes it. *)
Definition read_members (handoff : rstr) (bytes : list Z) : option (list (option TarEntry)) :=
  match package_archive_reader handoff bytes MAX_DECOMPRESSED_BYTES with Ok reader => tar_entries reader | Err _ => None end.

(** The hook that was reviewed for an output. *)
Definition reviewed_hook (source : ReviewedSource) (srcinfo output : rstr) : list (list Z) :=
  match srcinfo_install_script srcinfo output with
  | None => []
  | Some path => match get_file source path with Some bytes => [bytes] | None => [] end
  end.


(** * Fields of metadata *)

(** A line [key = value]: the first [=] separates them, spaces do not count. *)
Definition states (content key value : rstr) : Prop :=
  exists before after, before ++ ch "=" :: after ∈ byte_lines content /\ (ch "=" ∉ before) /\ trim before = key /\ trim after = value.

Definition states_only (content key value : rstr) : Prop :=
  states content key value /\ forall other, states content key other -> other = value.

(** All values of a key. *)
Definition field_values (key : rstr) (lines : list rstr) : list rstr :=
  omap (fun line => '(k, v) ← key_value line; if str_eqb k key then Some v else None) lines.

Lemma states_values content key value : states content key value <-> value ∈ field_values key (byte_lines content).
Proof.
  unfold states, field_values. rewrite list_elem_of_omap. split.
  - intros (before & after & Hin & Hno & Hk & Hv). exists (before ++ ch "=" :: after). split; [done|]. unfold key_value.
    rewrite (proj2 (split_once_Some (ch "=") _ before after)) by done. cbn. rewrite Hk, Hv. unfold str_eqb. by rewrite bool_decide_eq_true_2.
  - intros (line & Hin & Hl). unfold key_value in Hl. destruct (split_once (ch "=") line) as [[before after]|] eqn:E; [|done].
    apply split_once_Some in E as [-> Hno]. cbn in Hl. case_match eqn:Hk; [|done]. apply bool_decide_eq_true in Hk. injection Hl as Hv. by exists before, after.
Qed.

Lemma states_only_values content key value : field_values key (byte_lines content) = [value] -> states_only content key value.
Proof. intros E. split; [|intros other]; rewrite states_values, E; set_solver. Qed.

Definition text_of (o : option rstr) : list rstr := match o with Some t => [t] | None => [] end.

Lemma set_once_values current value next : set_once current value = Some next -> text_of next = text_of current ++ [value].
Proof. destruct current; [done|]. by intros [= <-]. Qed.

Lemma identity_line_values line n v b n' v' b' : identity_line (n, v, b) line = Some (n', v', b') ->
  text_of n' = text_of n ++ field_values (str "pkgname") [line] /\ text_of v' = text_of v ++ field_values (str "pkgver") [line] /\
  text_of b' = text_of b ++ field_values (str "pkgbase") [line].
Proof.
  unfold identity_line, field_values. cbn [omap list_omap]. destruct (key_value line) as [[key value]|]; cbn [mbind option_bind].
  2:{ intros [= <- <- <-]. by rewrite !app_nil_r. }
  assert (str_eqb (str "pkgname") (str "pkgver") = false /\ str_eqb (str "pkgname") (str "pkgbase") = false /\
    str_eqb (str "pkgver") (str "pkgname") = false /\ str_eqb (str "pkgver") (str "pkgbase") = false /\
    str_eqb (str "pkgbase") (str "pkgname") = false /\ str_eqb (str "pkgbase") (str "pkgver") = false) as (E1 & E2 & E3 & E4 & E5 & E6) by (by vm_compute).
  revert E1 E2 E3 E4 E5 E6. generalize (str "pkgname") (str "pkgver") (str "pkgbase"). intros kn kv kb E1 E2 E3 E4 E5 E6.
  destruct (str_eqb key kn) eqn:Kn; [apply bool_decide_eq_true in Kn as ->; rewrite E1, E2|].
  { destruct (set_once n value) as [m|] eqn:Es; [|done]. cbn. intros [= <- <- <-]. apply set_once_values in Es as ->. by rewrite !app_nil_r. }
  destruct (str_eqb key kv) eqn:Kv; [apply bool_decide_eq_true in Kv as ->; rewrite E4|].
  { destruct (set_once v value) as [m|] eqn:Es; [|done]. cbn. intros [= <- <- <-]. apply set_once_values in Es as ->. by rewrite !app_nil_r. }
  destruct (str_eqb key kb) eqn:Kb.
  { destruct (set_once b value) as [m|] eqn:Es; [|done]. cbn. intros [= <- <- <-]. apply set_once_values in Es as ->. by rewrite !app_nil_r. }
  intros [= <- <- <-]. by rewrite !app_nil_r.
Qed.

Lemma identity_lines_values lines : forall n v b n' v' b', fold_option identity_line (n, v, b) lines = Some (n', v', b') ->
  text_of n' = text_of n ++ field_values (str "pkgname") lines /\ text_of v' = text_of v ++ field_values (str "pkgver") lines /\
  text_of b' = text_of b ++ field_values (str "pkgbase") lines.
Proof.
  induction lines as [|line lines IH]; intros n v b n' v' b' Hf; cbn [fold_option] in Hf; [injection Hf as <- <- <-; by rewrite !app_nil_r|].
  destruct (identity_line (n, v, b) line) as [[[n1 v1] b1]|] eqn:El; [|done]. cbn in Hf. apply identity_line_values in El as (E1 & E2 & E3).
  destruct (IH _ _ _ _ _ _ Hf) as (F1 & F2 & F3). unfold field_values in *. change (line :: lines) with ([line] ++ lines).
  rewrite !omap_app, !app_assoc, <- E1, <- E2, <- E3. done.
Qed.

Lemma arch_line_values lines : omap arch_line lines = field_values (str "arch") lines.
Proof. done. Qed.

(** The identity that is read is the only one the metadata states. *)
Definition identifies (content name version base architecture : rstr) : Prop :=
  states_only content (str "pkgname") name /\ states_only content (str "pkgver") version /\
  states_only content (str "pkgbase") base /\ states_only content (str "arch") architecture.

(** * What an authorized archive is *)

(** An architecture the reviewed source allows for an output on this host:
    the first block of the output decides, and otherwise the base. *)
Definition architecture_allowed (metadata : SourceArchitectures) (output architecture : rstr) : Prop :=
  (exists system, current_arch host = Some system /\ (architecture = str "any" \/ architecture = system_architecture_name system)) /\
  exists before own after, package_architectures metadata = before ++ (output, own) :: after /\ Forall (fun p => p.1 ≠ output) before /\
    match default (base_architectures metadata) own with
    | ArchAny => architecture = str "any"
    | ArchSome names => architecture ∈ names
    end.

Lemma find_first {A} (f : A -> bool) l x : List.find f l = Some x ->
  exists before after, l = before ++ x :: after /\ f x = true /\ Forall (fun y => f y = false) before.
Proof.
  induction l as [|y l IH]; cbn [List.find]; [done|]. destruct (f y) eqn:E.
  - intros [= <-]. by exists [], l.
  - intros (before & after & -> & Hx & Hb)%IH. exists (y :: before), after. split_and!; [done|done|by constructor].
Qed.

Lemma architecture_approved_allowed metadata output architecture :
  archive_architecture_approved host metadata output architecture = true -> architecture_allowed metadata output architecture.
Proof.
  unfold archive_architecture_approved, package_architecture_matches. intros [Hm Hf]%andb_prop. split.
  - unfold is_some_and in Hm. destruct (current_arch host) as [system|]; [|done]. exists system. split; [done|].
    apply orb_prop in Hm as [E|E]; apply bool_decide_eq_true in E; auto.
  - destruct (List.find _ _) as [[name own]|] eqn:E; [|done]. apply find_first in E as (before & after & -> & Hx%bool_decide_eq_true & Hb).
    cbn in Hx. subst. exists before, own, after. split_and!; [done| |].
    + eapply Forall_impl; [exact Hb|]. intros p Hp. by apply bool_decide_eq_false in Hp.
    + cbn [snd] in Hf. destruct (default (base_architectures metadata) own) as [|names]; [by apply bool_decide_eq_true in Hf|].
      apply existsb_exists in Hf as (c & Hc & Heq). apply bool_decide_eq_true in Heq as ->. by apply list_elem_of_In.
Qed.

(** The report of an archive names the reviewed package and version. *)
Definition reviewed_identity (version base : rstr) (dynamic : bool) (output : rstr) (r : ArtifactInspection) : Prop :=
  package_name r = output /\ package_base r = base /\ (package_version r = version \/ dynamic = true).

(** The sealed bytes of [snapshot] pass the inspection; the reviewed identity
    and an allowed architecture are the only ones their metadata states, and
    their installation hooks are the reviewed one, or none. *)
Definition authorized (source : ReviewedSource) (srcinfo version base : rstr) (dynamic : bool) (output : rstr) (snapshot : ArchiveSnapshot) (a : Aur) : Prop :=
  exists bytes sig r entries metadata content architecture,
    ArtifactProofs.holds self (kernel a) snapshot bytes sig /\
    inspect_archive (Some bytes) = Ok r /\ archive_sha256 r = sha256_hex bytes /\ reviewed_identity version base dynamic output r /\
    read_members (handoff self snapshot) bytes = Some entries /\
    contents_of (str ".PKGINFO") entries = [as_bytes content] /\ identifies content output (package_version r) base architecture /\
    source_architectures srcinfo = Some metadata /\ architecture_allowed metadata output architecture /\
    contents_of (str ".INSTALL") entries = reviewed_hook source srcinfo output /\
    (is_Some (srcinfo_install_script srcinfo output) -> reviewed_hook source srcinfo output ≠ []).

Lemma authorized_extends source srcinfo version base dynamic output snapshot a a' : extends a a' ->
  authorized source srcinfo version base dynamic output snapshot a -> authorized source srcinfo version base dynamic output snapshot a'.
Proof.
  intros [Hg _] (bytes & sig & r & entries & metadata & content & architecture & Hs & ?). exists bytes, sig, r, entries, metadata, content, architecture.
  split; [by eapply snapshot_grows|done].
Qed.

Lemma text_Ok source path t : text source path = Ok t -> get_file source path = Some (as_bytes t).
Proof. unfold text. intros Hr. r_inv. rewrite Hr0. by destruct (decode_utf8_Some _ _ Hr) as [_ ->]. Qed.

Lemma expected_hook_Ok source srcinfo output hook :
  match srcinfo_install_script srcinfo output with
  | None => Ok None
  | Some path => let? hook := map_err FromReview (text source path) in Ok (Some hook)
  end = Ok hook ->
  bytes_of hook = reviewed_hook source srcinfo output /\ (is_Some (srcinfo_install_script srcinfo output) -> reviewed_hook source srcinfo output ≠ []).
Proof.
  unfold reviewed_hook. destruct (srcinfo_install_script srcinfo output) as [path|]; intros Hr; r_inv; [|by split; [|intros []]].
  apply map_err_Ok, text_Ok in Hr0. by rewrite Hr0.
Qed.

Lemma check_identity_Ok source srcinfo version base output dynamic r id u :
  check_identity host source srcinfo version base output dynamic r id = Ok u ->
  reviewed_identity version base dynamic output r /\
  (identity_name id = output /\ identity_version id = package_version r /\ identity_base id = base) /\
  (exists metadata architecture, source_architectures srcinfo = Some metadata /\ identity_architecture id = Some architecture /\
     architecture_allowed metadata output architecture) /\
  bytes_of (install_script id) = reviewed_hook source srcinfo output /\
  (is_Some (srcinfo_install_script srcinfo output) -> reviewed_hook source srcinfo output ≠ []).
Proof.
  unfold check_identity. intros Hr. r_inv. unfold str_eqb in *.
  rewrite !andb_true_iff, ?orb_true_iff, !bool_decide_eq_true in Hr0, Hr1. rewrite bool_decide_eq_true in Hr.
  destruct Hr0 as [[Hn Hb] Hv], Hr1 as [[Hn' Hb'] Hv']. apply expected_hook_Ok in Hr4 as [Hh1 Hh2]. unfold reviewed_identity, is_some_and in *.
  apply bool_decide_eq_true in Hv'.
  split_and!; [congruence|congruence|apply orb_prop in Hv as [Hv%bool_decide_eq_true|]; [left; congruence|by right]|congruence..| |congruence|done].
  destruct (source_architectures srcinfo) as [metadata|]; [|done]. eexists metadata, _. split_and!; [done|eassumption|].
  by apply architecture_approved_allowed.
Qed.

Lemma cached_identity_Ok path file id : cached_archive_identity path file = Ok (Some id) ->
  exists entries content, read_members path file = Some entries /\ contents_of (str ".PKGINFO") entries = [as_bytes content] /\
    (forall architecture, identity_architecture id = Some architecture ->
       identifies content (identity_name id) (identity_version id) (identity_base id) architecture) /\
    contents_of (str ".INSTALL") entries = bytes_of (install_script id).
Proof.
  unfold cached_archive_identity, read_members. intros Hr. r_inv. rewrite Hr0.
  apply members_spec in Hr2 as [Hp Hh]. unfold archive_identity in Hr. destruct a1 as [[p|] h]; cbn [fst snd bytes_of app] in Hp, Hh, Hr; [|done].
  exists a0, p. split; [done|]. split; [done|]. r_inv. apply bool_decide_eq_true in Hr2. unfold parse_pkginfo_identity in Hr.
  destruct (fold_option identity_line (None, None, None) (byte_lines p)) as [[[n v] b]|] eqn:Ef; [|done].
  apply identity_lines_values in Ef as (E1 & E2 & E3). destruct n as [n|]; [|done]. destruct v as [v|]; [|done]. destruct b as [b|]; [|done].
  cbn in Hr. injection Hr as <-. cbn [identity_name identity_version identity_base identity_architecture install_script]. split; [|done].
  intros architecture Ha. rewrite arch_line_values in Hr2, Ha. cbn [text_of app] in E1, E2, E3. split_and!; apply states_only_values; try done.
  destruct (field_values (str "arch") (byte_lines p)) as [|x [|]]; [done|by injection Ha as ->|cbn in Hr2; lia].
Qed.

Lemma authorize_archive_Ok looks source srcinfo version base dynamic path output snapshot s s' :
  authorize_archive self host accepts looks source srcinfo version base dynamic (path, output) s = (s', Ok snapshot) ->
  extends s s' /\ authorized source srcinfo version base dynamic output snapshot s'.
Proof.
  intros Hm. unfold authorize_archive in Hm. m_inv.
  rename H2 into Hc, H3 into Hr, H4 into Hi, H5 into Hv, H6 into Hh, H7 into Hid, H8 into Hsome, H9 into Hchk, H10 into Haud.
  cbn [kernel paired audit] in *.
  apply (yields_Ok _ _ _ _ _ _ (capture_yields _ _ _ _)) in Hc as ((Hg & _) & bytes & sig & Hs & _).
  apply (reader_Ok _ _ _ _ _ _ Hs) in Hr as [-> ->]. apply map_err_Ok in Hi. apply verify_Ok in Hv as ->.
  apply (handoff_content_Ok _ _ _ _ _ _ Hs) in Hh as [-> ->]. apply ok_or_Ok in Hsome as ->.
  apply cached_identity_Ok in Hid as (entries & content & He & Hp & Hident & Hhook).
  apply check_identity_Ok in Hchk as (Hrev & (Hn & Hver & Hbase) & (metadata & architecture & Hmeta & Harch & Happ) & Hb & Hd).
  specialize (Hident architecture Harch). rewrite Hn, Hver, Hbase in Hident.
  apply record_Ok in Haud as (Hk & Hpair & _). split; [by split; [rewrite Hk|]|].
  exists bytes, sig, x4, entries, metadata, content, architecture. rewrite Hk. split_and!; try done; try apply Hident; [by apply inspect_digest|apply Happ..|congruence].
Qed.

Lemma authorize_archives_Ok looks paths source base outputs fresh a a' snaps :
  authorize_archives self host accepts looks paths source base outputs fresh a = (a', Ok snaps) ->
  extends a a' /\ exists srcinfo version pkgbuild,
    text source (str ".SRCINFO") = Ok srcinfo /\ srcinfo_version srcinfo = Some version /\ srcinfo_pkgbase srcinfo = Some base /\
    text source (str "PKGBUILD") = Ok pkgbuild /\ snaps ≠ [] /\
    Forall2 (fun output snapshot => authorized source srcinfo version base (fresh && existsb dynamic_line (byte_lines pkgbuild)) output snapshot a')
      outputs snaps.
Proof.
  intros Hm. unfold authorize_archives in Hm. m_inv. r_inv. rename H2 into Htext, H3 into Hver, H4 into Hset, H5 into Hpb.
  apply map_err_Ok in Htext, Hpb. rewrite !andb_true_iff, negb_true_iff in Hset. destruct Hset as [[Hbase Hlen] Hne].
  apply bool_decide_eq_true in Hbase, Hlen. apply bool_decide_eq_false in Hne.
  apply (mmap_Ok _ (fun p snapshot s => authorized source x0 x2 base (fresh && existsb dynamic_line (byte_lines x6)) p.2 snapshot s)) in Hm as [He Hall].
  - split; [done|]. exists x0, x2, x6. split_and!; try done.
    + intros ->. apply Forall2_nil_inv_r in Hall. destruct paths, outputs; done.
    + rewrite <- (snd_zip paths outputs) by lia. by apply Forall2_fmap_l.
  - intros [path output] snapshot s s' Hs. by eapply authorize_archive_Ok.
  - intros p snapshot s s' Hs. by apply authorized_extends.
Qed.

(** C11: Only what was reviewed is authorized. Every archive that
    [authorize_archives] returns is a sealed snapshot whose bytes pass the
    inspection and whose package, base and version are those of the reviewed
    source (the version may differ after a fresh build of a recipe that
    computes it); its metadata member states that name, version and base and
    no others, and a single architecture, which is that of the host or any,
    and which the reviewed source allows for this output; its installation
    hooks are exactly the hook file that was reviewed for that output, and none
    when none was declared. There is one archive for each output. *)
Theorem authorized_archives_match_the_review looks paths source base outputs fresh a a' snaps :
  authorize_archives self host accepts looks paths source base outputs fresh a = (a', Ok snaps) ->
  exists srcinfo version pkgbuild,
    text source (str ".SRCINFO") = Ok srcinfo /\ srcinfo_version srcinfo = Some version /\ srcinfo_pkgbase srcinfo = Some base /\
    text source (str "PKGBUILD") = Ok pkgbuild /\ snaps ≠ [] /\
    Forall2 (fun output snapshot => authorized source srcinfo version base (fresh && existsb dynamic_line (byte_lines pkgbuild)) output snapshot a')
      outputs snaps.
Proof.
  intros Hm. apply authorize_archives_Ok in Hm as (_ & srcinfo & version & pkgbuild & ? & ? & ? & ? & ? & ?).
  by exists srcinfo, version, pkgbuild.
Qed.
End authorize.

(** * The key of a verified pair

    The parts of the key are not counted, but they cannot be confused: where
    an inspection has the version number of its policy, a variable of the
    environment has the length of a string. *)

Definition short (s : rstr) : Prop := valid_str s /\ str_len s < 2 ^ 32.

(** What the key says of an inspection. *)
Definition quad (i : ArtifactInspection) : rstr * rstr * rstr * Z := (package_name i, package_version i, archive_sha256 i, policy_version i).

Definition short_inspection (i : ArtifactInspection) : Prop :=
  short (package_name i) /\ short (package_version i) /\ short (archive_sha256 i) /\ package_name i ≠ [] /\ 0 <= policy_version i < 2 ^ 32.

Definition short_pair (kv : rstr * rstr) : Prop := short kv.1 /\ short kv.2.

Definition pair_bytes (kv : rstr * rstr) : list Z := length_prefixed kv.1 ++ length_prefixed kv.2.

Lemma length_prefixed_prefix s t a b : short s -> short t -> length_prefixed s ++ a = length_prefixed t ++ b -> s = t /\ a = b.
Proof.
  intros [Hs1 Hs2] [Ht1 Ht2] E. unfold length_prefixed in E. rewrite <- !app_assoc in E.
  apply counted_prefix in E as [E ->]; [|unfold str_len, zlen in *; lia..]. split; [|done]. by apply as_bytes_inj.
Qed.

Lemma policy_inj x y a b : 0 <= x < 2 ^ 32 -> 0 <= y < 2 ^ 32 -> le_bytes 4 x ++ a = le_bytes 4 y ++ b -> x = y /\ a = b.
Proof. intros Hx Hy E. by apply (le_prefix 4). Qed.

(** The length of a short string ends in four zero bytes. *)
Lemma short_length n : 0 <= n < 2 ^ 32 -> le_bytes 8 n = le_bytes 4 n ++ [0; 0; 0; 0].
Proof.
  intros Hn. cbn [le_bytes app]. do 4 f_equal. rewrite !Z.div_div by lia. cbn [Z.mul Pos.mul Pos.add].
  by rewrite !(Z.div_small n) by lia.
Qed.

Lemma inspections_inj l l' : Forall short_inspection l -> Forall short_inspection l' ->
  l ≫= inspection_bytes = l' ≫= inspection_bytes -> map quad l = map quad l'.
Proof.
  intros Hl. revert l'. induction Hl as [|i l Hi _ IH]; intros l' Hl' E.
  - destruct Hl' as [|j l' _ _]; [done|]. by destruct (le_bytes 8 (str_len (package_name j))) eqn:Ej.
  - destruct Hl' as [|j l' Hj Hl']; [done|]. rewrite !bind_cons in E. unfold inspection_bytes in E at 1 3. cbn [mbind list_bind app] in E.
    rewrite <- !app_assoc in E. destruct Hi as (H1 & H2 & H3 & _ & H4), Hj as (J1 & J2 & J3 & _ & J4).
    apply length_prefixed_prefix in E as [E1 E]; [|done..]. apply length_prefixed_prefix in E as [E2 E]; [|done..].
    apply length_prefixed_prefix in E as [E3 E]; [|done..]. cbn [app] in E. apply policy_inj in E as [E4 E]; [|done..].
    cbn [map]. f_equal; [unfold quad; congruence|]. by apply IH.
Qed.

Lemma inspection_bytes_app i rest : inspection_bytes i ++ rest =
  length_prefixed (package_name i) ++ length_prefixed (package_version i) ++ length_prefixed (archive_sha256 i) ++ le_bytes 4 (policy_version i) ++ rest.
Proof. unfold inspection_bytes. cbn [mbind list_bind app]. by rewrite <- !app_assoc. Qed.

Lemma length_prefixed_nonempty s rest : length_prefixed s ++ rest ≠ [].
Proof. unfold length_prefixed. by destruct (le_bytes 8 (str_len s)) eqn:E. Qed.

(** Variables and inspections both start with two strings. *)
Lemma two_strings env l : Forall short_pair env -> Forall short_inspection l ->
  (env ≫= pair_bytes) ++ (l ≫= inspection_bytes) = [] \/
  exists x y rest, short x /\ short y /\ (env ≫= pair_bytes) ++ (l ≫= inspection_bytes) = length_prefixed x ++ length_prefixed y ++ rest.
Proof.
  intros He Hl. destruct He as [|[k v] env [Hk Hv] _].
  - destruct Hl as [|i l (H1 & H2 & _) _]; [by left|]. right. rewrite bind_cons. cbn [mbind list_bind app]. rewrite inspection_bytes_app.
    eexists _, _, _. split_and!; [exact H1|exact H2|done].
  - right. rewrite bind_cons. unfold pair_bytes at 1. rewrite <- !app_assoc. eexists k, v, _. by split_and!.
Qed.

(** An inspection is never read as a variable. *)
Lemma inspection_is_no_pair l kv env l' : Forall short_inspection l -> short_pair kv -> Forall short_pair env -> Forall short_inspection l' ->
  l ≫= inspection_bytes ≠ ((kv :: env) ≫= pair_bytes) ++ (l' ≫= inspection_bytes).
Proof.
  intros Hl [Hk Hv] He Hl' E. rewrite bind_cons, <- app_assoc in E. unfold pair_bytes in E at 1. rewrite <- !app_assoc in E.
  destruct Hl as [|i l Hi Hl]; [by apply symmetry, length_prefixed_nonempty in E|]. rewrite bind_cons, inspection_bytes_app in E.
  destruct Hi as (H1 & H2 & H3 & _ & H4).
  apply length_prefixed_prefix in E as [_ E]; [|done..]. apply length_prefixed_prefix in E as [_ E]; [|done..].
  destruct (two_strings env l' He Hl') as [Hnil|(x & y & rest & Hx & Hy & Hrest)].
  - rewrite Hnil in E. by apply length_prefixed_nonempty in E.
  - rewrite Hrest in E. apply length_prefixed_prefix in E as [_ E]; [|done..]. unfold length_prefixed in E at 1. destruct Hy as [_ Hy].
    rewrite short_length, <- !app_assoc in E by (pose proof (str_len_nonneg y); lia).
    apply app_inj_1 in E as [_ E]; [|by rewrite !length_le_bytes].
    destruct Hl as [|j l (Hj1 & _ & _ & Hj2 & _) _]; [done|]. rewrite bind_cons, inspection_bytes_app in E. unfold length_prefixed in E at 1.
    destruct Hj1 as [_ Hj1]. pose proof (str_len_nonneg (package_name j)) as Hpos. rewrite short_length, <- !app_assoc in E by lia.
    apply (app_inj_1 _ [0; 0; 0; 0]) in E as [E _]; [|by rewrite length_le_bytes]. change [0; 0; 0; 0] with (le_bytes 4 0) in E.
    apply le_bytes_inj in E; [|change (256 ^ Z.of_nat 4) with (2 ^ 32); lia..]. by apply Hj2, str_len_0.
Qed.

Lemma key_parts_inj env l env' l' : Forall short_pair env -> Forall short_inspection l -> Forall short_pair env' -> Forall short_inspection l' ->
  (env ≫= pair_bytes) ++ (l ≫= inspection_bytes) = (env' ≫= pair_bytes) ++ (l' ≫= inspection_bytes) -> env = env' /\ map quad l = map quad l'.
Proof.
  intros He Hl. revert env'. induction He as [|kv env Hkv He IH]; intros env' He' Hl' E.
  - destruct He' as [|kv' env' Hkv' He']; [split; [done|]; by apply inspections_inj|]. exfalso. revert E. by apply inspection_is_no_pair.
  - destruct He' as [|kv' env' Hkv' He']; [exfalso; symmetry in E; revert E; by apply inspection_is_no_pair|].
    rewrite !bind_cons, <- !app_assoc in E. unfold pair_bytes in E at 1 3. rewrite <- !app_assoc in E. destruct kv as [k v], kv' as [k' v'], Hkv, Hkv'.
    apply length_prefixed_prefix in E as [Ek E]; [|done..]. apply length_prefixed_prefix in E as [Ev E]; [|done..].
    destruct (IH env' He' Hl' E) as [-> ->]. cbn in *. by subst.
Qed.

(** * Reproduced packages *)

Lemma short_compute s : forallb is_scalar s && (str_len s <? 2 ^ 32) = true -> short s.
Proof. intros [Hs Hl]%andb_prop. split; [by apply valid_str_compute|]. lia. Qed.

(** Text of printable ASCII characters. *)
Lemma short_ascii (P : char -> bool) s n : (forall c, P c = true -> 0 <= c < 0x80) -> Forall (fun c => P c = true) s -> str_len s <= n -> n < 2 ^ 32 -> short s.
Proof.
  intros HP Hs Hl Hn. split; [|lia]. eapply Forall_impl; [exact Hs|]. intros c Hc%HP. unfold is_scalar.
  apply orb_true_iff. left. lia.
Qed.

Section paired.
Context `{ArchiveCodec} `{SystemNames} `{SrcinfoParser}.
Context (self : Z) (host : rstr) (accepts : list AurEvent -> AurEvent -> bool).
Context (Hhex : hex_digests) (Hself : 0 < self <= u32_max).

(** The variables of a process are shorter than 4 GiB. *)
Definition short_environment (source : ReviewedSource) (env : MakepkgEnv) : Prop :=
  short (source_digest source) /\ short (makeflags env) /\ Forall short_pair (extra_env env).

Lemma setting_values_short settings source env : short_environment source env -> Forall short (setting_values settings source env).
Proof.
  intros (H2 & H3 & _). unfold setting_values. repeat constructor; try apply H2; try apply H3.
  all: destruct settings as [[] [] []]; by apply short_compute; vm_compute.
Qed.

Lemma sha_short x : short (sha256_hex x).
Proof.
  destruct (Hhex x) as [H64 Hall]. rewrite forallb_forall in Hall.
  assert (Forall (fun c => is_ascii_hexdigit c = true) (sha256_hex x)) as Hf by (apply Forall_forall; intros c Hc%list_elem_of_In; by apply Hall).
  assert (forall c, is_ascii_hexdigit c = true -> 0 <= c < 0x80) as Hrange.
  { intros c. unfold is_ascii_hexdigit, is_ascii_digit. ev_ch. intros. to_prop. lia. }
  eapply (short_ascii is_ascii_hexdigit _ 64); [done|done| |lia]. rewrite str_len_ascii; [lia|]. eapply Forall_impl; [exact Hf|]. intros c Hc%Hrange. lia.
Qed.

Lemma inspected_short bytes i : inspect_archive (Some bytes) = Ok i -> short_inspection i.
Proof.
  intros Hi. pose proof Hi as (xs & b & reader & _ & _ & _ & _ & _ & _ & _ & _ & _ & Hn & _ & Hv & _)%accepted_archive_is_bounded.
  pose proof (inspect_digest _ _ Hi) as Hd. apply validate_package_name_Ok in Hn as (Hne & Hl & _ & _ & _ & Hs & _).
  apply validate_version_Ok in Hv as (_ & Hvl & Hvs).
  assert (policy_version i = INSPECTION_POLICY_VERSION) as Hp.
  { unfold inspect_archive, finish_inspection in Hi. cbn [ok_or res_bind] in Hi. res_inv. repeat case_match; res_inv. done. }
  unfold short_inspection. rewrite Hd, Hp. split_and!; [| |apply sha_short|done|done|done].
  - eapply (short_ascii is_safe_package_char); [|done|done|done]. intros c. unfold is_safe_package_char, is_ascii_alphanumeric, is_ascii_alphabetic, is_ascii_lowercase, is_ascii_uppercase, is_ascii_digit.
    ev_ch. intros. to_prop. lia.
  - eapply (short_ascii (fun c => is_ascii_alphanumeric c || (c =? ch ".") || (c =? ch "-") || (c =? ch "+") || (c =? ch ":") || (c =? ch "~"))); [|done|done|done].
    intros c. unfold is_ascii_alphanumeric, is_ascii_alphabetic, is_ascii_lowercase, is_ascii_uppercase, is_ascii_digit. ev_ch. intros. to_prop. lia.
Qed.

Lemma setting_values_inj settings settings' source source' env env' rest rest' :
  short_environment source env -> short_environment source' env' ->
  (setting_values settings source env ≫= length_prefixed) ++ rest = (setting_values settings' source' env' ≫= length_prefixed) ++ rest' ->
  setting_values settings source env = setting_values settings' source' env' /\ rest = rest'.
Proof.
  intros Hs1%(setting_values_short settings) Hs2%(setting_values_short settings').
  assert (length (setting_values settings source env) = length (setting_values settings' source' env')) as Hlen by done. revert Hlen Hs1 Hs2.
  generalize (setting_values settings source env), (setting_values settings' source' env').
  induction l as [|x l IH]; intros [|y l'] Hlen Hx Hy E; [by split|done|done|]. apply Forall_cons in Hx as [Hx Hl], Hy as [Hy Hl']. rewrite !bind_cons, <- !app_assoc in E.
  apply length_prefixed_prefix in E as [-> E]; [|done..]. destruct (IH l') as [-> ->]; [simpl in Hlen; lia|done..].
Qed.

Lemma Forall_sort {A} (P : A -> Prop) cmp l : Forall P l -> Forall P (sort_by cmp l).
Proof. by rewrite sort_by_perm. Qed.

(** Equal keys come from equal builds. *)
Lemma paired_key_inj settings settings' source source' env env' l l' :
  short_environment source env -> short_environment source' env' -> Forall short_inspection l -> Forall short_inspection l' ->
  paired_build_cache_key settings source env l = paired_build_cache_key settings' source' env' l' ->
  (setting_values settings source env = setting_values settings' source' env' /\ extra_env env ≡ₚ extra_env env' /\ map quad l ≡ₚ map quad l') \/ collision.
Proof.
  intros He He' Hl Hl' E. unfold paired_build_cache_key in E.
  destruct (decide (key_input settings source env l = key_input settings' source' env' l')) as [Ek|]; [|right; by eexists _, _]. left.
  unfold key_input in Ek. apply app_inv_head, app_inv_head in Ek. apply setting_values_inj in Ek as [-> Ek]; [|done..]. split; [done|].
  apply key_parts_inj in Ek as [Eenv El]; [|apply Forall_sort; first [done|apply He|apply He']..]. split.
  - by rewrite <- (sort_by_perm pair_cmp (extra_env env)), Eenv, sort_by_perm.
  - rewrite <- (sort_by_perm (fun a b => list_cmp (package_name a) (package_name b)) l), El, sort_by_perm. done.
Qed.

(** The cache is left alone by everything but the end of a rebuild. *)
Definition keeps {A} (p : M A) : Prop := forall s, paired (p s).1 = paired s.

Lemma cache_kept_bind {A B} (p : M A) (f : A -> M B) : keeps p -> (forall a, keeps (f a)) -> keeps (p ≫= f).
Proof. intros Hp Hf s. unfold mbind, M_bind. pose proof (Hp s). destruct (p s) as [s1 [a|e]]; cbn in *; [by rewrite Hf|done]. Qed.

Lemma cache_kept_lift {A} (r : result A AuthorizeError) : keeps (lift r).
Proof. done. Qed.

Lemma cache_kept_on_kernel {A} (p : K A) : keeps (on_kernel p).
Proof. intros s. unfold on_kernel. by destruct (p (kernel s)) as [[]|]. Qed.

Lemma cache_kept_record e : keeps (record_operation accepts e).
Proof. intros s. unfold record_operation. by destruct (accepts _ _). Qed.

Lemma cache_kept_mmap {A B} (f : A -> M B) l : (forall x, keeps (f x)) -> keeps (mmap f l).
Proof. intros Hf. induction l; cbn [mmap]; [done|]. repeat (apply cache_kept_bind; [auto|intros]). done. Qed.

Create HintDb cache_kept.
#[local] Hint Resolve cache_kept_bind cache_kept_lift cache_kept_on_kernel cache_kept_record cache_kept_mmap : cache_kept.

Lemma cache_kept_authorize looks paths source base outputs fresh : keeps (authorize_archives self host accepts looks paths source base outputs fresh).
Proof.
  unfold authorize_archives. repeat (apply cache_kept_bind; [auto with cache_kept|intros]). apply cache_kept_mmap. intros [path output].
  unfold authorize_archive. repeat (apply cache_kept_bind; [auto with cache_kept|intros]). done.
Qed.

Lemma cache_kept_inspect s : keeps (inspect_snapshot self s).
Proof. unfold inspect_snapshot. auto with cache_kept. Qed.

Lemma cache_kept_rebuild source base outputs fresh l r : keeps (rebuild_and_compare self host accepts source base outputs fresh l r).
Proof.
  unfold rebuild_and_compare.
  repeat (apply cache_kept_bind; [auto using cache_kept_authorize, cache_kept_inspect with cache_kept|intros]). auto with cache_kept.
Qed.

(** The report on the bytes a snapshot holds. *)
Definition snapshot_report (a : Aur) (s : ArchiveSnapshot) (i : ArtifactInspection) : Prop :=
  exists bytes sig, ArtifactProofs.holds self (kernel a) s bytes sig /\ inspect_archive (Some bytes) = Ok i.

Definition held (a : Aur) (s : ArchiveSnapshot) : Prop := exists bytes sig, ArtifactProofs.holds self (kernel a) s bytes sig.

Lemma inspect_snapshots_Ok snaps : forall a a' reports, Forall (held a) snaps ->
  mmap (inspect_snapshot self) snaps a = (a', Ok reports) -> a' = a /\ Forall2 (snapshot_report a) snaps reports.
Proof.
  induction snaps as [|s snaps IH]; intros a a' reports Hh Hm; cbn [mmap] in Hm; m_inv; [by split|].
  apply Forall_cons in Hh as [(bytes & sig & Hs) Hh]. unfold inspect_snapshot in H2. m_inv.
  apply (reader_Ok _ Hself _ _ _ _ _ _ Hs) in H4 as [-> ->]. apply map_err_Ok in H2.
  destruct a as [k c e]. cbn in *. destruct (IH _ _ _ Hh H3) as [-> Hall]. split; [done|]. constructor; [|done]. by exists bytes, sig.
Qed.

Lemma authorized_held source srcinfo version base dynamic outputs snaps a :
  Forall2 (fun output s => authorized self host source srcinfo version base dynamic output s a) outputs snaps -> Forall (held a) snaps.
Proof. induction 1 as [|o s os ss (bytes & sig & ? & ? & ? & ? & ? & Hs & _) _ IH]; constructor; [by exists bytes, sig|done]. Qed.

Lemma reports_short a snaps reports : Forall2 (snapshot_report a) snaps reports -> Forall short_inspection reports.
Proof. induction 1 as [|s i ss js (bytes & sig & _ & Hi) _ IH]; constructor; [by eapply inspected_short|done]. Qed.

(** ** Calls *)

(** One call: its arguments, what the outside answers if it builds again, and
    the state it starts in. *)
Record Call := {
  call_settings : AurSettings;
  call_looks : rstr -> TargetFacts;
  call_paths : list rstr;
  call_source : ReviewedSource;
  call_base : rstr;
  call_outputs : list rstr;
  call_fresh : bool;
  call_env : MakepkgEnv;
  call_rebuild : Rebuild;
  call_state : Aur
}.

Definition run_call (c : Call) : Aur * result (list ArchiveSnapshot) AuthorizeError :=
  authorize_with_paired_build self host (call_settings c) accepts (call_looks c) (call_paths c) (call_source c) (call_base c)
    (call_outputs c) (call_fresh c) (call_env c) (call_rebuild c) (call_state c).

(** The calls of a process, the last one first, and the cache they leave: it
    starts empty and is passed from call to call, successful or not. *)
Inductive history : list Call -> gset rstr -> Prop :=
| history_start : history [] ∅
| history_call calls c : history calls (paired (call_state c)) -> short_environment (call_source c) (call_env c) ->
    history (c :: calls) (paired (run_call c).1).

(** The call [c] built a second time: after its first archives were
    authorized and inspected, the checkout passed the comparison with the
    review, makepkg ended well, and from the state that the first
    authorization left, the archives it produced were authorized as well; what
    they hold has the names, versions and hashes of [reports]. *)
Definition built_twice (c : Call) (reports : list ArtifactInspection) : Prop :=
  let r := call_rebuild c in
  exists a1 primary primary_reports paths a2 secondary secondary_reports,
    authorize_archives self host accepts (call_looks c) (call_paths c) (call_source c) (call_base c) (call_outputs c) (call_fresh c)
      (call_state c) = (a1, Ok primary) /\
    Forall2 (snapshot_report a1) primary primary_reports /\
    AurReview.verify (call_source c) (rebuild_root r) (rebuild_checkout r) = Ok tt /\
    is_Some (rebuild_env r) /\ rebuild_keys r = true /\ rebuild_status r = Some true /\ rebuild_paths r = Some paths /\
    authorize_archives self host accepts (rebuild_looks r) paths (call_source c) (call_base c) (call_outputs c) (call_fresh c)
      a1 = (a2, Ok secondary) /\
    Forall2 (snapshot_report a2) secondary secondary_reports /\
    map triple secondary_reports ≡ₚ map triple primary_reports /\ map triple reports ≡ₚ map triple primary_reports.

Lemma rebuild_Ok source base outputs fresh l r a a' u :
  rebuild_and_compare self host accepts source base outputs fresh l r a = (a', Ok u) -> extends a a' /\
  exists paths secondary second, AurReview.verify source (rebuild_root r) (rebuild_checkout r) = Ok tt /\
    is_Some (rebuild_env r) /\ rebuild_keys r = true /\ rebuild_status r = Some true /\ rebuild_paths r = Some paths /\
    authorize_archives self host accepts (rebuild_looks r) paths source base outputs fresh a = (a', Ok secondary) /\
    Forall2 (snapshot_report a') secondary second /\ map triple second ≡ₚ map triple l.
Proof.
  intros Hm. unfold rebuild_and_compare in Hm. m_inv. r_inv. apply map_err_Ok in H2. destruct x0. rewrite H7 in H6. subst.
  rename H9 into Ha, H10 into Hi. pose proof Ha as (He & srcinfo & version & pkgbuild & _ & _ & _ & _ & _ & Hall)%(authorize_archives_Ok self host accepts Hhex Hself).
  apply inspect_snapshots_Ok in Hi as [-> Hrep]; [|by eapply authorized_held].
  unfold verify_paired_outputs in Hm. apply ensure_Ok, bool_decide_eq_true in Hm. split; [done|].
  exists x12, x14, x16. split_and!; try done.
  unfold canonical_outputs in Hm. by rewrite <- (sort_by_perm triple_cmp (map triple x16)), <- Hm, sort_by_perm.
Qed.

Lemma built_twice_perm c l l' : map triple l ≡ₚ map triple l' -> built_twice c l -> built_twice c l'.
Proof.
  intros Hp (a1 & primary & r1 & paths & a2 & secondary & r2 & H2 & H3 & H4 & H5 & H6 & H7 & H8 & H9 & H10 & H11 & H12).
  exists a1, primary, r1, paths, a2, secondary, r2. split_and!; try done. by rewrite <- Hp.
Qed.

Lemma map_triple_quad l : map triple l = map fst (map quad l).
Proof. by rewrite map_map. Qed.

(** Keys of the cache stand for rebuilds of earlier calls. *)
Definition cache_ok (calls : list Call) (cache : gset rstr) : Prop := forall key, key ∈ cache ->
  exists c l, c ∈ calls /\ key = paired_build_cache_key (call_settings c) (call_source c) (call_env c) l /\
    short_environment (call_source c) (call_env c) /\ Forall short_inspection l /\ built_twice c l.

(** One call: what it returns and what it adds to the cache. *)
Lemma paired_build_step c a' res : run_call c = (a', res) ->
  paired a' = paired (call_state c) /\ (forall snaps, res = Ok snaps -> exists reports, Forall2 (snapshot_report a') snaps reports /\
      (existsb requires_paired_build reports = false \/
       paired_build_cache_key (call_settings c) (call_source c) (call_env c) reports ∈ paired (call_state c))) \/
  exists reports, Forall short_inspection reports /\ built_twice c reports /\
    paired a' = {[paired_build_cache_key (call_settings c) (call_source c) (call_env c) reports]} ∪ paired (call_state c) /\
    (forall snaps, res = Ok snaps -> Forall2 (snapshot_report a') snaps reports).
Proof.
  destruct c as [settings looks paths source base outputs fresh env r a]. unfold run_call, built_twice.
  cbn [call_settings call_looks call_paths call_source call_base call_outputs call_fresh call_env call_rebuild call_state].
  unfold authorize_with_paired_build. unfold mbind at 1, M_bind at 1.
  destruct (authorize_archives self host accepts looks paths source base outputs fresh a) as [a1 [snaps|e]] eqn:Ha.
  2:{ intros [= <- <-]. left. split; [|done]. by rewrite <- (cache_kept_authorize looks paths source base outputs fresh a), Ha. }
  pose proof Ha as ([Hg1 Hp1] & srcinfo & version & pkgbuild & _ & _ & _ & _ & _ & Hall%authorized_held)%(authorize_archives_Ok self host accepts Hhex Hself).
  unfold mbind at 1, M_bind at 1. destruct (mmap (inspect_snapshot self) snaps a1) as [a2 [reports|e]] eqn:Hi.
  2:{ intros [= <- <-]. left. split; [|done]. rewrite <- Hp1. by rewrite <- (cache_kept_mmap _ snaps cache_kept_inspect a1), Hi. }
  apply inspect_snapshots_Ok in Hi as [-> Hrep]; [|done]. destruct (existsb requires_paired_build reports) eqn:Hreq.
  2:{ intros [= <- <-]. left. split; [done|]. intros ? [= <-]. exists reports. split; [done|by left]. }
  cbn [negb]. unfold mbind at 1, M_bind at 1. case_bool_decide as Hin.
  - unfold mbind at 1, M_bind at 1. unfold record_operation. destruct (accepts _ _); intros [= <- <-]; left; (split; [done|]); [|done].
    intros ? [= <-]. exists reports. rewrite <- Hp1. split; [exact Hrep|by right].
  - unfold mbind at 1, M_bind at 1. destruct (rebuild_and_compare self host accepts source base outputs fresh reports r a1) as [a3 [u|e]] eqn:Hr.
    2:{ intros [= <- <-]. left. split; [|done]. rewrite <- Hp1. by rewrite <- (cache_kept_rebuild source base outputs fresh reports r a1), Hr. }
    apply rebuild_Ok in Hr as [[Hg3 Hp3] (paths2 & secondary & second & Hsec)]. intros Hend. right. exists reports. split_and!; [by eapply reports_short| |..].
    + exists a1, snaps, reports, paths2, a3, secondary, second. by naive_solver.
    + rewrite <- Hp1, <- Hp3. revert Hend. unfold mbind, M_bind, insert_pair, record_operation. by destruct (accepts _ _); intros [= <- <-].
    + intros ss ->. revert Hend. unfold mbind, M_bind, insert_pair, record_operation. destruct (accepts _ _); [|done]. intros [= <- <-].
      eapply Forall2_impl; [exact Hrep|]. intros s i (bytes & sig & Hs & Hb). exists bytes, sig. split; [|done]. by eapply snapshot_grows.
Qed.

Lemma history_cache_ok calls cache : history calls cache -> cache_ok calls cache.
Proof.
  induction 1 as [|calls c _ IH Hs]; [intros key; set_solver|]. destruct (run_call c) as [a' res] eqn:Hcall. cbn [fst].
  assert (forall key, key ∈ paired (call_state c) -> exists c' l, c' ∈ c :: calls /\ key = paired_build_cache_key (call_settings c') (call_source c') (call_env c') l /\
    short_environment (call_source c') (call_env c') /\ Forall short_inspection l /\ built_twice c' l) as Hold.
  { intros key (c' & l & Hc & ?)%IH. exists c', l. split; [by right|done]. }
  apply paired_build_step in Hcall as [[-> _]|(reports & Hshort & Hind & -> & _)]; [done|].
  intros key [->%elem_of_singleton|Hin]%elem_of_union; [|by apply Hold]. exists c, reports. split_and!; try done; [by left|apply Hs..].
Qed.

(** ** Archives that need no second build *)

(** No file of the archive has a set-id bit or a capability, none lies in a
    place that gives a reason for a second build, and there is no hook. *)
Definition harmless (a : Aur) (s : ArchiveSnapshot) : Prop :=
  exists bytes sig xs, ArtifactProofs.holds self (kernel a) s bytes sig /\ archive_members (Some bytes) xs /\
    Forall (fun x => m_privileged x = false /\ m_path x ≠ str ".INSTALL" /\ location_reasons (m_path x) = []) xs.

Lemma no_paired_build_harmless a s r : snapshot_report a s r -> requires_paired_build r = false -> harmless a s.
Proof.
  intros (bytes & sig & Hs & Hi) Hr. destruct (inspection_report_is_complete _ _ Hi) as (xs & Hx & _ & _ & _ & _ & _ & Hiff).
  exists bytes, sig, xs. split_and!; [done|done|].
  apply Forall_forall. intros x Hin. assert (m_reasons x = []) as Hm.
  { destruct (m_reasons x) as [|reason l] eqn:E; [done|]. enough (requires_paired_build r = true) by congruence. apply Hiff. exists x, reason.
    split; [done|]. rewrite E. by left. }
  unfold m_reasons in Hm. apply app_nil in Hm as [Hl Hm]. apply app_nil in Hm as [Hp Hh]. destruct (m_privileged x); [done|]. split_and!; [done| |done].
  intros E. rewrite E in Hh. unfold str_eqb in Hh. by rewrite bool_decide_eq_true_2 in Hh.
Qed.

(** C8: No package that could affect the system is accepted on the word of
    one build. When [authorize_with_paired_build] returns archives, then none
    of them has a hook, a file with a set-id bit or a capability, or a file in
    a place that other programs run as root from; or this call, or an earlier
    one of the process for a source with the same digest, built a second time:
    after its own first archives were authorized, the checkout was compared
    with the review, makepkg ran again, and the archives it left were
    authorized too and have the same names, versions and SHA-256 hashes as
    those that are returned; or the hash function has a collision. *)
Theorem high_risk_packages_were_reproduced calls c a' snaps :
  history calls (paired (call_state c)) -> short_environment (call_source c) (call_env c) ->
  run_call c = (a', Ok snaps) ->
  exists reports, Forall2 (snapshot_report a') snaps reports /\
    (Forall (harmless a') snaps \/
     (exists c', c' ∈ c :: calls /\ source_digest (call_source c') = source_digest (call_source c) /\ built_twice c' reports) \/ collision).
Proof.
  intros Hc%history_cache_ok Hs Hcall. apply paired_build_step in Hcall as [[_ Hres]|(reports & _ & Hind & _ & Hres)].
  - destruct (Hres snaps eq_refl) as (reports & Hrep & [Hno|Hin]); exists reports; (split; [done|]).
    + left. clear -Hrep Hno. induction Hrep as [|s i ss l Hi _ IH]; [done|]. cbn [existsb] in Hno. apply orb_false_iff in Hno as [Hn1 Hn2].
      constructor; [by eapply no_paired_build_harmless|by apply IH].
    + right. apply Hc in Hin as (c' & l & Hc' & Hkey & Hs' & Hl & Hind).
      apply paired_key_inj in Hkey as [(Hset & _ & Hq)|]; [|by right|done|done|by eapply reports_short|done]. left. exists c'.
      split_and!; [by right|unfold setting_values in Hset; congruence|]. eapply built_twice_perm; [|done]. by rewrite !map_triple_quad, Hq.
  - exists reports. split; [by apply Hres|]. right. left. exists c. split_and!; [by left|done|done].
Qed.
End paired.

(** * Approval *)

Section approval.
Context `{ArchiveCodec} `{SystemNames} `{SrcinfoParser}.
Context (self : Z) (accepts : list AurEvent -> AurEvent -> bool).
Context (Hhex : hex_digests) (Hself : 0 < self <= u32_max).

(** ** What a prompt has to show *)

(** Characters that are not printed: control characters and those that are
    invisible or reorder the text around them. *)
Definition hidden (c : char) : Prop :=
  0 <= c <= 0x1f \/ 0x7f <= c <= 0x9f \/ 0x200b <= c <= 0x200f \/ 0x2028 <= c <= 0x2029 \/ 0x202a <= c <= 0x202e \/
  0x2060 <= c <= 0x2064 \/ 0x2066 <= c <= 0x2069 \/ c = 0xfeff.

(** [shown] is [text] without its hidden characters. *)
Inductive visible : rstr -> rstr -> Prop :=
| visible_nil : visible [] []
| visible_keep c text shown : ~ hidden c -> visible text shown -> visible (c :: text) (c :: shown)
| visible_drop c text shown : hidden c -> visible text shown -> visible (c :: text) shown.

(** The four octal digits of the permission bits. *)
Definition octal_of (mode : Z) (digits : rstr) : Prop :=
  exists a b c d, digits = [ch "0" + a; ch "0" + b; ch "0" + c; ch "0" + d] /\ Forall (fun x => 0 <= x < 8) [a; b; c; d] /\
    mode mod 4096 = a * 512 + b * 64 + c * 8 + d.

(** The file capability an archive entry sets: the value of its last PAX
    record of that kind. *)
Definition sets_capability (e : TarEntry) (value : list Z) : Prop :=
  exists records before key after, entry_pax e = Some (Some records) /\ records = before ++ Some (key, value) :: after /\
    key ∈ [str "SCHILY.xattr.security.capability"; str "LIBARCHIVE.xattr.security.capability"] /\
    forall key' value', Some (key', value') ∈ after ->
      key' ∉ [str "SCHILY.xattr.security.capability"; str "LIBARCHIVE.xattr.security.capability"].

(** A regular file with the set-user-id or set-group-id bit or a capability. *)
Definition powerful (x : Member) : Prop :=
  is_file (entry_type (m_entry x)) = true /\
  (Z.testbit (m_mode x) 11 = true \/ Z.testbit (m_mode x) 10 = true \/ exists value, sets_capability (m_entry x) value).

Definition grants (x : Member) : Prop := powerful x \/ m_path x = str ".INSTALL".

(** The line of the prompt about a file. *)
Definition listed (prompt : rstr) (x : Member) : Prop :=
  exists shown digits capability, visible (m_path x) shown /\ octal_of (m_mode x) digits /\
    contains (str "
  " ++ shown ++ str " mode=" ++ digits ++ capability) prompt = true /\
    (forall value, sets_capability (m_entry x) value -> capability = str " capability=" ++ hex_encode value).

(** The prompt says everything the archive with these bytes and members asks
    for. *)
Definition discloses (prompt : rstr) (bytes : list Z) (xs : list Member) : Prop :=
  contains (sha256_hex bytes) prompt = true /\
  (forall x, x ∈ xs -> m_path x = str ".INSTALL" -> exists hook, read_metadata (m_entry x) = Ok hook /\
     contains (str ".INSTALL hook sha256=" ++ sha256_hex hook) prompt = true) /\
  (forall x, x ∈ xs -> powerful x -> listed prompt x).

(** The archive a snapshot holds. *)
Definition holds_archive (a : Aur) (s : ArchiveSnapshot) (archive : list Z * list Member) : Prop :=
  (exists sig, ArtifactProofs.holds self (kernel a) s archive.1 sig) /\ archive_members (Some archive.1) archive.2.

(** ** The report of an archive says it all *)

Lemma hidden_spec c : negb (is_control c) && negb (is_invisible c) = false <-> hidden c.
Proof. 
  unfold is_control, is_invisible, is_bidi, hidden. rewrite andb_false_iff, !negb_false_iff, !orb_true_iff, !andb_true_iff, !Z.leb_le, !Z.eqb_eq. lia.
Qed.

Lemma sanitize_visible text : visible text (sanitize_terminal_text text).
Proof.
  unfold sanitize_terminal_text. induction text as [|c text IH]; cbn [List.filter]; [constructor|].
  destruct (_ && _) eqn:E; [apply visible_keep; [|done]|apply visible_drop; [by apply hidden_spec|done]].
  intros Hh%hidden_spec. congruence.
Qed.

Lemma octal4_spec mode : octal_of mode (octal4 (Z.land mode 4095)).
Proof.
  change 4095 with (Z.ones 12). rewrite Z.land_ones by lia. change (2 ^ 12) with 4096. unfold octal4, octal_of.
  pose proof (Z.mod_pos_bound mode 4096 ltac:(lia)) as Hn. revert Hn. generalize (mode mod 4096) as n. intros n Hn.
  eexists _, _, _, _. split; [reflexivity|]. split; [repeat constructor; by apply Z.mod_pos_bound|]. Z.div_mod_to_equations. lia.
Qed.

Lemma capability_key_spec key : capability_key key = true <->
  key ∈ [str "SCHILY.xattr.security.capability"; str "LIBARCHIVE.xattr.security.capability"].
Proof. unfold capability_key, str_eqb. rewrite orb_true_iff, !bool_decide_eq_true. generalize (str "SCHILY.xattr.security.capability") (str "LIBARCHIVE.xattr.security.capability"). set_solver. Qed.

(** The last record of a list decides. *)
Lemma pax_last records : forall found c, for_each pax_capability found records = Ok c ->
  (c = found /\ forall key value, Some (key, value) ∈ records -> capability_key key = false) \/
  exists before key value after, records = before ++ Some (key, value) :: after /\ capability_key key = true /\ c = Some (hex_encode value) /\
    forall key' value', Some (key', value') ∈ after -> capability_key key' = false.
Proof.
  induction records as [|e records IH]; intros found c Hf; cbn [for_each] in Hf; [injection Hf as <-; left; split; [done|set_solver]|].
  unfold pax_capability at 1 in Hf. destruct e as [[k v]|]; [|done]. cbn [ok_or res_bind fst snd] in Hf.
  destruct (IH _ _ Hf) as [[-> Hno]|(before & key & value & after & -> & Hrest)].
  - destruct (capability_key k) eqn:Ek.
    + right. by exists [], k, v, records.
    + left. split; [done|]. intros key value [[= -> ->]|]%elem_of_cons; [done|by eapply Hno].
  - right. by exists (Some (k, v) :: before), key, value, after.
Qed.

Lemma capability_spec x : described x ->
  (forall value, sets_capability (m_entry x) value -> m_capability x = Some (hex_encode value)) /\
  (is_Some (m_capability x) -> exists value, sets_capability (m_entry x) value).
Proof.
  intros (_ & _ & Hc). unfold entry_capability in Hc. apply res_bind_Ok in Hc as (a & Hc0%ok_or_Ok & Hc). unfold sets_capability. rewrite Hc0.
  apply pax_last in Hc as [[-> Hno]|(before & key & value & after & Hrec & Hkey & -> & Hlast)].
  - split; [|by intros []]. intros value (records & before & key & after & [= ->] & -> & Hk%capability_key_spec & _).
    cbn in Hno. rewrite (Hno key value) in Hk; [done|set_solver].
  - destruct a as [records|]; cbn in Hrec; [|by destruct before]. subst records. split.
    + intros v (records & b & k & l & [= <-] & E & Hk%capability_key_spec & Hl).
      assert (forall key' v', Some (key', v') ∈ l -> capability_key key' = false) as Hl'.
      { intros k' v' Hin. destruct (capability_key k') eqn:Ek; [|done]. apply capability_key_spec in Ek. by eapply Hl in Ek. }
      enough (value = v) by congruence. clear -E Hlast Hl' Hk Hkey. revert b E. induction before as [|y before IH]; intros [|z b] E.
      * by injection E.
      * injection E as <- E. specialize (Hlast k v). rewrite Hlast in Hk; [done|]. rewrite E. set_solver.
      * injection E as -> E. specialize (Hl' key value). rewrite Hl' in Hkey; [done|]. rewrite <- E. set_solver.
      * injection E as _ E. by eapply IH.
    + intros _. exists value, (before ++ Some (key, value) :: after), before, key, after. split_and!; [done|done|by apply capability_key_spec|].
      intros k' v' Hin Hk%capability_key_spec. by rewrite (Hlast k' v' Hin) in Hk.
Qed.

Lemma powerful_privileged x : described x -> powerful x <-> m_privileged x = true.
Proof.
  intros [Hc1 Hc2]%capability_spec. unfold powerful, m_privileged, m_file. cbn [existsb].
  rewrite andb_true_iff, !orb_true_iff, bool_decide_eq_true. naive_solver.
Qed.

Lemma NoDup_fmap_eq {A B} (f : A -> B) l x y : NoDup (f <$> l) -> x ∈ l -> y ∈ l -> f x = f y -> x = y.
Proof.
  induction l as [|z l IH]; cbn; [set_solver|]. intros [Hz Hl]%NoDup_cons Hx Hy E.
  assert (forall w, w ∈ l -> f w ∈ f <$> l) as Hin by (intros; by apply list_elem_of_fmap_2).
  apply elem_of_cons in Hx as [->|Hx], Hy as [->|Hy]; [done| | |by apply IH]; [rewrite E in Hz|rewrite <- E in Hz]; by exfalso; apply Hz, Hin.
Qed.

Lemma hook_reported bytes r : inspect_archive (Some bytes) = Ok r ->
  exists xs, archive_members (Some bytes) xs /\ report_privileged_files r ≡ₚ m_report <$> List.filter m_privileged xs /\
    (is_Some (report_install_hook r) -> exists x, x ∈ xs /\ m_path x = str ".INSTALL") /\
    (forall x, x ∈ xs -> m_path x = str ".INSTALL" -> exists hook, read_metadata (m_entry x) = Ok hook /\ report_install_hook r = Some (sha256_hex hook)).
Proof.
  intros Hi. pose proof (inspect_archive_Ok _ _ Hi) as (bytes' & reader & xs & s & [= <-] & Hr & Ht & Hsc & Hfin). exists xs.
  apply finish_inspection_Ok in Hfin as (_ & _ & _ & _ & _ & Hp & Hh & _). rewrite Hh, (sc_hook _ _ Hsc), Hp, (sc_privileged _ _ Hsc).
  split_and!; [exists bytes, reader; eauto using sc_described|apply merge_sort_Permutation| |].
  - intros (x & Hx & Hk)%last_omap_is_Some. exists x. split; [done|]. by apply hook_of_Some.
  - intros x Hx Hpath. pose proof (proj1 (Forall_forall _ _) (sc_hook_file _ _ Hsc) x Hx Hpath) as Hsome.
    destruct (proj2 (last_omap_is_Some hook_of xs)) as [h Hlast]; [by exists x|]. rewrite Hlast.
    apply last_omap_Some in Hlast as (y & Hy & Hhook). assert (y = x) as ->.
    { eapply NoDup_fmap_eq; [apply (sc_distinct _ _ Hsc)|done|done|]. rewrite Hpath. apply hook_of_Some. by exists h. }
    unfold hook_of in Hhook. destruct (metadata (str ".INSTALL") x) as [b|] eqn:Em; [|done]. apply metadata_Some in Em as [_ Em]. injection Hhook as <-. by exists b.
Qed.

Lemma contains_self s : contains s s = true.
Proof. apply contains_true. exists [], []. by rewrite app_nil_r. Qed.

Lemma contains_app_l t a b : contains t a = true -> contains t (a ++ b) = true.
Proof. intros (c & d & ->)%contains_true. apply contains_true. exists c, (d ++ b). by rewrite <- !app_assoc. Qed.

Lemma contains_app_r t a b : contains t b = true -> contains t (a ++ b) = true.
Proof. intros (c & d & ->)%contains_true. apply contains_true. exists (a ++ c), d. by rewrite <- !app_assoc. Qed.

Lemma contains_bind {A} (f : A -> rstr) l x t : x ∈ l -> contains t (f x) = true -> contains t (l ≫= f) = true.
Proof.
  intros Hx Ht. apply list_elem_of_split in Hx as (l1 & l2 & ->). rewrite bind_app, bind_cons. by apply contains_app_r, contains_app_l.
Qed.

Lemma listed_text prompt x : described x -> powerful x -> contains (file_text (m_report x)) prompt = true -> listed prompt x.
Proof.
  intros [Hc _]%capability_spec _ Hp. exists (sanitize_terminal_text (m_path x)), (octal4 (Z.land (m_mode x) 4095)),
    (match m_capability x with Some c => str " capability=" ++ c | None => [] end).
  split_and!; [apply sanitize_visible|apply octal4_spec|exact Hp|]. by intros value ->%Hc.
Qed.

Lemma discloses_text bytes r prompt : inspect_archive (Some bytes) = Ok r -> contains (inspection_text r) prompt = true ->
  exists xs, archive_members (Some bytes) xs /\ discloses prompt bytes xs.
Proof.
  intros Hi Hp. pose proof (inspect_digest _ _ Hi) as Hd. destruct (hook_reported _ _ Hi) as (xs & Hxs & Hperm & _ & Hhook).
  assert (forall t, contains t (inspection_text r) = true -> contains t prompt = true) as Hin.
  { intros t (c & d & E)%contains_true. apply contains_true in Hp as (a & b & ->). rewrite E. apply contains_true. exists (a ++ c), (d ++ b). by rewrite <- !app_assoc. }
  exists xs. split; [done|]. unfold discloses. split_and!.
  - apply Hin. unfold inspection_text. rewrite <- Hd. do 5 apply contains_app_r. apply contains_app_l, contains_self.
  - intros x Hx Hpath. destruct (Hhook x Hx Hpath) as (hook & Hread & Hrep). exists hook. split; [done|]. apply Hin. unfold inspection_text. rewrite Hrep.
    do 7 apply contains_app_r. apply contains_app_l. change (str "
  .INSTALL hook sha256=") with (str "
  " ++ str ".INSTALL hook sha256="). rewrite <- app_assoc. apply contains_app_r, contains_self.
  - intros x Hx Hpow. assert (described x) as Hdesc by (destruct Hxs as (? & ? & _ & _ & _ & Hall); by eapply (proj1 (Forall_forall _ _) Hall)).
    apply listed_text; [done|done|]. apply Hin. unfold inspection_text. do 8 apply contains_app_r. eapply contains_bind, contains_self.
    rewrite Hperm. apply list_elem_of_fmap_2, list_elem_of_In, List.filter_In. split; [by apply list_elem_of_In|]. by apply powerful_privileged.
Qed.

Lemma no_exception_grants bytes r : inspect_archive (Some bytes) = Ok r -> requires_exception r = false ->
  exists xs, archive_members (Some bytes) xs /\ Forall (fun x => ~ grants x) xs.
Proof.
  intros Hi Hr. destruct (inspection_report_is_complete _ _ Hi) as (xs & Hx & _ & _ & _ & _ & Hiff & _). exists xs. split; [done|].
  apply Forall_forall. intros x Hin Hg. enough (requires_exception r = true) by congruence. apply Hiff. exists x. split; [done|].
  destruct Hg as [Hg|]; [left|by right]. apply powerful_privileged; [|done]. destruct Hx as (? & ? & _ & _ & _ & Hall). by eapply (proj1 (Forall_forall _ _) Hall).
Qed.

(** Whatever is asked is about all archives that ask for something. *)
Lemma exception_prompt_Ok reports asked : exception_prompt reports = Ok asked ->
  match asked with
  | None => Forall (fun r => requires_exception r = false) reports
  | Some prompt => str_len prompt <= MAX_PROMPT_BYTES /\ forall r, r ∈ reports -> requires_exception r = true -> contains (inspection_text r) prompt = true
  end.
Proof.
  unfold exception_prompt. destruct (List.filter requires_exception reports) as [|r0 rs] eqn:E; intros Hr; res_inv.
  - apply Forall_forall. intros r Hin. destruct (requires_exception r) eqn:Er; [|done].
    assert (In r []) as []. rewrite <- E. apply List.filter_In. by split; [apply list_elem_of_In|].
  - split; [by apply Z.leb_le|]. intros r Hin Hex. assert (r ∈ r0 :: rs) as Hlisted by (rewrite <- E; apply list_elem_of_In, List.filter_In; by split; [apply list_elem_of_In|]).
    unfold prompt_text. apply contains_app_r, contains_app_l. by eapply contains_bind, contains_self.
Qed.

Lemma inspect_error snaps : forall a a' e, mmap (inspect_snapshot self) snaps a = (a', Err e) -> e ≠ InstallFailed.
Proof.
  induction snaps as [|s snaps IH]; intros a a' e Hm; cbn [mmap] in Hm; [done|]. unfold mbind, M_bind in Hm.
  unfold inspect_snapshot at 1, mbind, M_bind, on_kernel, lift in Hm. destruct (reader self s (kernel a)) as [[c k]|]; [|by simplify_eq].
  destruct (inspect_archive (Some c)); cbn [map_err] in Hm; [|by simplify_eq].
  destruct (mmap (inspect_snapshot self) snaps _) as [a2 [rs|e2]] eqn:E; [done|]. injection Hm as <- <-. by eapply IH.
Qed.

Lemma approve_error terminal reports a a' e : approve accepts terminal reports a = (a', Err e) -> e ≠ InstallFailed.
Proof.
  unfold approve, mbind, M_bind, lift, record_operation, exception_prompt, ensure, mret, M_ret, ok_or. intros Hm ->. repeat case_match; simplify_eq.
Qed.

Lemma approve_Ok terminal reports a a' u : approve accepts terminal reports a = (a', Ok u) ->
  Forall (fun r => requires_exception r = false) reports \/
  exists prompt, attended terminal = true /\ confirm terminal prompt = Some true /\ str_len prompt <= MAX_PROMPT_BYTES /\
    (forall r, r ∈ reports -> requires_exception r = true -> contains (inspection_text r) prompt = true) /\ Approval (str "approved") reports ∈ audit a'.
Proof.
  intros Hm. unfold approve in Hm. apply M_bind_Ok in Hm as (a1 & asked & [Hp ->]%lift_Ok & Hm). apply exception_prompt_Ok in Hp.
  destruct asked as [prompt|]; [|by left]. right. exists prompt. destruct (attended terminal); cbn [negb] in Hm; [|m_inv; done].
  m_inv. apply ok_or_Ok in H2. destruct x0; cbn [negb] in Hm; [|m_inv; done]. apply (record_Ok self accepts Hself) in Hm as (_ & _ & Hm). rewrite Hm.
  destruct Hp. split_and!; try done. set_solver.
Qed.

(** The archives behind the reports. *)
Lemma reported_archives a archives reports : Forall2 (snapshot_report self a) archives reports ->
  exists contents, Forall2 (holds_archive a) archives contents /\ Forall2 (fun c r => inspect_archive (Some c.1) = Ok r) contents reports /\
    forall c r prompt, (c, r) ∈ zip contents reports ->
      (requires_exception r = false -> Forall (fun x => ~ grants x) c.2) /\
      (requires_exception r = true -> contains (inspection_text r) prompt = true -> discloses prompt c.1 c.2).
Proof.
  induction 1 as [|s r archives reports (bytes & sig & Hs & Hi) _ (contents & H2 & H3 & H4)]; [exists []; split_and!; [constructor..|set_solver]|].
  destruct (hook_reported _ _ Hi) as (xs & Hxs & _).
  assert (forall ys, archive_members (Some bytes) ys -> ys = xs) as Huniq.
  { destruct Hxs as (b & reader & [= <-] & Hr & Ht & Hx). intros ys (b' & reader' & [= <-] & Hr' & Ht' & Hy). assert (reader' = reader) as -> by congruence.
    assert (map (fun x => Some (m_entry x)) ys = map (fun x => Some (m_entry x)) xs) as E by congruence. clear -E Hx Hy.
    revert ys E Hy. induction Hx as [|x xs Hd _ IH]; intros [|y ys] E Hy; try done. apply Forall_cons in Hy as [Hdy Hy]. injection E as E1 E2.
    f_equal; [|by apply IH]. destruct x, y, Hd as ((raw & P1 & _ & P2) & P3 & P4), Hdy as ((raw' & Q1 & _ & Q2) & Q3 & Q4). cbn in *. subst. congruence. }
  exists ((bytes, xs) :: contents). split_and!; [constructor; [split; [by exists sig|done]|done]|by constructor|].
  intros c r' prompt Hin. cbn [zip zip_with] in Hin. apply elem_of_cons in Hin as [[= -> ->]|Hin]; [|by apply H4]. cbn [fst snd]. split.
  - intros Hno. destruct (no_exception_grants _ _ Hi Hno) as (ys & Hys & Hall). by rewrite (Huniq ys Hys) in Hall.
  - intros _ Hp. destruct (discloses_text _ _ _ Hi Hp) as (ys & Hys & Hd). by rewrite (Huniq ys Hys) in Hd.
Qed.

(** C24: Privileges are granted by a person who saw them. Whenever the
    transaction that installs AUR archives is started, no member of the sealed
    archives is a hook, a set-id file or a file with a capability, or a prompt
    of bounded length was answered with yes on a terminal, and for every
    archive with such a member it shows the SHA-256 hash of the archive, that
    of its hook, and a line for each such file: its path without invisible
    characters, the four octal digits of its mode, and the value of its
    capability; the approval of these archives is in the audit log. *)
Theorem privileges_are_granted_on_approval terminal install archives a a' res :
  Forall (held self a) archives ->
  install_built_packages self accepts terminal install archives a = (a', res) ->
  (exists handoffs, res = Ok handoffs) \/ res = Err InstallFailed ->
  exists contents, archives ≠ [] /\ Forall2 (holds_archive a) archives contents /\
    (Forall (fun c => Forall (fun x => ~ grants x) c.2) contents \/
     exists prompt reports, attended terminal = true /\ confirm terminal prompt = Some true /\ str_len prompt <= MAX_PROMPT_BYTES /\
       (forall c, c ∈ contents -> (exists x, x ∈ c.2 /\ grants x) -> discloses prompt c.1 c.2) /\
       Forall2 (fun c r => inspect_archive (Some c.1) = Ok r) contents reports /\ Approval (str "approved") reports ∈ audit a').
Proof.
  intros Hheld Hrun Hres. unfold install_built_packages in Hrun. unfold mbind at 1, M_bind at 1, lift at 1, ensure at 1 in Hrun.
  case_bool_decide as Hne; cbn [negb] in Hrun; [naive_solver|]. unfold mbind at 1, M_bind at 1 in Hrun.
  destruct (mmap (inspect_snapshot self) archives a) as [a1 [reports|e]] eqn:Hi.
  2:{ apply inspect_error in Hi. naive_solver. }
  apply (inspect_snapshots_Ok self Hself) in Hi as [-> Hrep]; [|done].
  destruct (reported_archives _ _ _ Hrep) as (contents & Hc & Hr & Hall). exists contents. split_and!; [done|done|].
  unfold mbind at 1, M_bind at 1 in Hrun. destruct (approve accepts terminal reports a) as [a2 [u|e]] eqn:Hap; [|apply approve_error in Hap; naive_solver].
  apply approve_Ok in Hap. assert (audit a' = audit a2) as ->.
  { revert Hrun. unfold mbind, M_bind, lift, ensure, mret, M_ret. by destruct (install _); intros [= <- <-]. }
  assert (forall c, c ∈ contents -> exists r, (c, r) ∈ zip contents reports /\ r ∈ reports) as Hpair.
  { clear -Hr. induction Hr as [|c r contents reports _ _ IH]; [set_solver|]. intros c' [->|Hc]%elem_of_cons; [exists r; split; by left|].
    destruct (IH c' Hc) as (r' & ? & ?). exists r'. split; by right. }
  destruct Hap as [Hno|(prompt & Hat & Hyes & Hlen & Htext & Hlog)].
  - left. apply Forall_forall. intros c Hin. destruct (Hpair c Hin) as (r & Hz & Hr'). apply (Hall c r [] Hz). by eapply (proj1 (Forall_forall _ _) Hno).
  - right. exists prompt, reports. split_and!; try done. intros c Hin (x & Hx & Hg). destruct (Hpair c Hin) as (r & Hz & Hr'). destruct (Hall c r prompt Hz) as [H2 H3].
    destruct (requires_exception r) eqn:Er; [by apply H3, Htext|]. exfalso. by apply (proj1 (Forall_forall _ _) (H2 eq_refl) x Hx).
Qed.
End approval.

(** * Finding the outputs of a build *)

Section outputs.
Context `{ArchiveCodec} (dir : rstr).

(** The state of the search after [seen]: the best candidate, and no candidate
    is newer. *)
Definition best_of (expected : list rstr) (seen : list OutputFile) (best : option rstr * Z) : Prop :=
  0 <= best.2 /\
  (forall path, best.1 = Some path -> exists f, f ∈ seen /\ candidate dir expected f = true /\ path = output_path dir f /\
     (output_mtime f = Some (Some best.2) \/ output_mtime f = None /\ best.2 = 0)) /\
  (forall g t, g ∈ seen -> candidate dir expected g = true -> output_mtime g = Some (Some t) -> t <= best.2).

Lemma consider_best expected seen best f : (best.1 = None -> best.2 = 0) -> best_of expected seen best ->
  best_of expected (seen ++ [f]) (consider dir expected best f) /\ ((consider dir expected best f).1 = None -> (consider dir expected best f).2 = 0).
Proof.
  intros Hz (H0 & H1 & H2). destruct best as [b time]. cbn [fst snd] in *.
  assert (forall path, b = Some path -> exists f0, f0 ∈ seen ++ [f] /\ candidate dir expected f0 = true /\ path = output_path dir f0 /\
     (output_mtime f0 = Some (Some time) \/ output_mtime f0 = None /\ time = 0)) as Hold.
  { intros path Hp. destruct (H1 path Hp) as (g & Hg & ?). exists g. set_solver. }
  unfold consider. destruct (candidate dir expected f) eqn:Ec; cbn [negb].
  2:{ split; [split_and!; [done|done|]|done]. cbn [snd]. intros g t [Hg| ->%list_elem_of_singleton]%elem_of_app Hc Ht; [by eapply H2|congruence]. }
  destruct (output_mtime f) as [[t|]|] eqn:Et; cbn [fst snd].
  - destruct (Z.ltb_spec time t).
    + split; [split_and!; cbn [fst snd]; [lia| |]|done].
      * intros path [= <-]. exists f. set_solver.
      * intros g t' [Hg| ->%list_elem_of_singleton]%elem_of_app Hc Ht; [specialize (H2 g t' Hg Hc Ht); lia|]. rewrite Et in Ht. injection Ht as ->. lia.
    + split; [split_and!; [done|done|]|done]. cbn [snd]. intros g t' [Hg| ->%list_elem_of_singleton]%elem_of_app Hc Ht; [by eapply H2|].
      rewrite Et in Ht. injection Ht as ->. lia.
  - split; [split_and!; [done|done|]|done]. cbn [snd]. intros g t' [Hg| ->%list_elem_of_singleton]%elem_of_app Hc Ht; [by eapply H2|congruence].
  - assert (forall g t', g ∈ seen ++ [f] -> candidate dir expected g = true -> output_mtime g = Some (Some t') -> t' <= time) as Hall.
    { intros g t' [Hg| ->%list_elem_of_singleton]%elem_of_app Hc Ht; [by eapply H2|congruence]. }
    destruct b as [p|]; [by split|]. split; [split_and!; cbn [fst snd]; [done| |done]|done].
    intros path [= <-]. exists f. split_and!; [set_solver|done|done|]. right. by split; [|apply Hz].
Qed.

Lemma search_best expected listing : forall seen best, (best.1 = None -> best.2 = 0) -> best_of expected seen best ->
  best_of expected (seen ++ listing) (foldl (consider dir expected) best listing).
Proof.
  induction listing as [|f listing IH]; intros seen best Hz Hb; cbn [foldl]; [by rewrite app_nil_r|].
  destruct (consider_best expected seen best f Hz Hb) as [Hb' Hz']. specialize (IH (seen ++ [f]) _ Hz' Hb'). by rewrite <- app_assoc in IH.
Qed.

(** Every archive that is found is a regular file of the output directory
    whose own metadata names the output it is taken for, and no other such
    file is newer. *)
Theorem found_archives_name_their_outputs listing expected paths :
  find_built_packages dir (Some listing) expected = Some paths ->
  Forall2 (fun name path => exists f, f ∈ listing /\ path = output_path dir f /\ output_regular f = true /\
    pkg_name_from_archive path (output_content f) = Ok (Some name) /\
    forall g t, g ∈ listing -> candidate dir [name] g = true -> output_mtime g = Some (Some t) ->
      0 < t -> exists t', output_mtime f = Some (Some t') /\ t <= t') expected paths.
Proof.
  revert paths. induction expected as [|name expected IH]; intros paths Hf; cbn [find_built_packages] in Hf; [by simplify_eq|].
  destruct (find_package_in_dir dir (Some listing) [name]) as [path|] eqn:E; [|done]. cbn in Hf.
  destruct (find_built_packages dir (Some listing) expected) as [rest|]; [|done]. cbn in Hf. injection Hf as <-. constructor; [|by apply IH].
  unfold find_package_in_dir in E. cbn [mbind option_bind] in E.
  destruct (search_best [name] listing [] (None, 0)) as (_ & Hbest & Hnew); [done|split_and!; [done|done|set_solver]|].
  destruct (Hbest path E) as (f & Hin & Hc & -> & Htime). exists f. unfold candidate in Hc. rewrite !andb_true_iff in Hc. destruct Hc as [[[Hreg _] _] Hname].
  split_and!; [done|done|done| |].
  - destruct (pkg_name_from_archive _ _) as [[parsed|]|]; [|done|done]. cbn [existsb] in Hname. rewrite orb_false_r in Hname. by apply bool_decide_eq_true in Hname as ->.
  - intros g t Hg Hcg Ht Hpos. pose proof (Hnew g t Hg Hcg Ht). destruct Htime as [Htime|[_ Hzero]]; [|lia]. by eexists.
Qed.
End outputs.

(** * A concrete package

    A recipe with a hook, built and rebuilt with the same result. *)

Definition member_text (content : string) : list Z := map (fun c => if c =? ch ";" then 10 else c) (str content).

Definition tool_entry (name : string) (mode : Z) (content : string) : TarEntry :=
  {| entry_size := zlen (str content); entry_path := Some (str name); entry_type := ArtifactInspector.Regular;
     entry_link_name := Some None; entry_mode := Some mode; entry_pax := Some None; entry_read := fun _ => Some (member_text content) |}.

Definition tool_entries : list (option TarEntry) := map Some
  [tool_entry ".PKGINFO" 420 "pkgname = tool;pkgver = 1.0-1;pkgbase = tool;arch = any;";
   tool_entry ".BUILDINFO" 420 "format = 2;pkgname = tool;pkgver = 1.0-1;pkgbase = tool;pkgarch = any";
   tool_entry ".MTREE" 420 "m";
   tool_entry ".INSTALL" 420 "post_install";
   tool_entry "usr/bin/tool" 493 "elf"].

Definition tool_codec : ArchiveCodec :=
  {| zstd_open := fun _ => Some [Some [1]]; xz_reads := fun _ => []; gzip_reads := fun _ => []; file_reads := fun _ => [];
     tar_entries := fun _ => Some tool_entries; sha256_hex := sample_digest; hex_encode := fun x => x |}.

Definition tool_parser : SrcinfoParser :=
  {| source_architectures := fun _ => Some {| base_architectures := ArchAny; package_architectures := [(str "tool", None)] |};
     system_architecture_name := fun _ => str "x86_64" |}.

Definition tool_checkout : Node :=
  DirNode (Some [(PKGBUILD, plain_file (str "build"));
                 (SRCINFO, plain_file (member_text "pkgbase = tool;pkgver = 1.0;pkgrel = 1;install = tool.install;pkgname = tool;"));
                 (str "tool.install", plain_file (str "post_install"))]).

#[local] Existing Instance tool_codec.
#[local] Existing Instance tool_parser.
#[local] Existing Instance sample_names.

Lemma tool_hex : hex_digests.
Proof. exact sample_hex. Qed.

Lemma tool_self : 0 < 100 <= u32_max.
Proof. unfold u32_max. lia. Qed.

Definition tool_source : ReviewedSource :=
  match AurReview.capture [] tool_checkout with Ok s => s | Err _ => {| source_files := ∅; source_digest := [] |} end.

Definition tool_path : rstr := str "/b/tool-1.0-1-any.pkg.tar.zst".

Definition tool_looks (target : rstr) : TargetFacts :=
  {| target_facts := target_facts (sample_looks target);
     target_file := Opened {| opened_stat := sample_stat 420; opened_content := Some [0x28; 0xb5; 0x2f; 0xfd; 1] |};
     target_signature := OpenNotFound; target_invoking_uid := Some 1000 |}.

Definition initial_client : Aur := {| kernel := empty_kernel; paired := ∅; audit := [] |}.

Definition log_all (_ : list AurEvent) (_ : AurEvent) : bool := true.

Definition tool_authorized : Aur * result (list ArchiveSnapshot) AuthorizeError :=
  authorize_archives 100 (str "x86_64") log_all tool_looks [tool_path] tool_source (str "tool") [str "tool"] true initial_client.

Definition tool_snapshots (r : result (list ArchiveSnapshot) AuthorizeError) : list ArchiveSnapshot := match r with Ok l => l | Err _ => [] end.

Lemma tool_run (x : Aur * result (list ArchiveSnapshot) AuthorizeError) : is_ok x.2 = true -> x = (x.1, Ok (tool_snapshots x.2)).
Proof. by destruct x as [a [l|e]]. Qed.

Lemma authorized_archives_match_the_review_witness :
  exists srcinfo version pkgbuild,
    text tool_source (str ".SRCINFO") = Ok srcinfo /\ srcinfo_version srcinfo = Some version /\ srcinfo_pkgbase srcinfo = Some (str "tool") /\
    text tool_source (str "PKGBUILD") = Ok pkgbuild /\ tool_snapshots tool_authorized.2 ≠ [] /\
    Forall2 (fun output snapshot => authorized 100 (str "x86_64") tool_source srcinfo version (str "tool")
               (true && existsb dynamic_line (byte_lines pkgbuild)) output snapshot tool_authorized.1)
      [str "tool"] (tool_snapshots tool_authorized.2).
Proof.
  apply (authorized_archives_match_the_review 100 (str "x86_64") log_all tool_hex tool_self
           tool_looks [tool_path] tool_source (str "tool") [str "tool"] true initial_client).
  apply (tool_run tool_authorized). by vm_compute.
Defined.

Definition tool_rebuild : Rebuild :=
  {| rebuild_root := []; rebuild_checkout := tool_checkout; rebuild_env := Some {| makeflags := str "-j4"; extra_env := [] |};
     rebuild_keys := true; rebuild_status := Some true; rebuild_paths := Some [tool_path]; rebuild_looks := tool_looks |}.

Definition tool_env : MakepkgEnv := {| makeflags := str "-j4"; extra_env := [(str "SOURCE_DATE_EPOCH", str "946684800")] |}.

Definition tool_settings : AurSettings := {| build_method := Bubblewrap; secure_makepkg := true; allow_network := false |}.

Definition tool_call : Call :=
  {| call_settings := tool_settings; call_looks := tool_looks; call_paths := [tool_path]; call_source := tool_source; call_base := str "tool";
     call_outputs := [str "tool"]; call_fresh := true; call_env := tool_env; call_rebuild := tool_rebuild; call_state := initial_client |}.

Definition tool_paired : Aur * result (list ArchiveSnapshot) AuthorizeError := run_call 100 (str "x86_64") log_all tool_call.

Lemma high_risk_packages_were_reproduced_witness :
  tool_snapshots tool_paired.2 ≠ [] /\ size (paired tool_paired.1) = 1%nat /\
  exists reports, Forall2 (snapshot_report 100 tool_paired.1) (tool_snapshots tool_paired.2) reports /\
    (Forall (harmless 100 tool_paired.1) (tool_snapshots tool_paired.2) \/
     (exists c', c' ∈ [tool_call] /\ source_digest (call_source c') = source_digest tool_source /\
        built_twice 100 (str "x86_64") log_all c' reports) \/ collision).
Proof.
  split_and!; [by vm_compute..|].
  apply (high_risk_packages_were_reproduced 100 (str "x86_64") log_all tool_hex tool_self [] tool_call).
  - apply history_start.
  - split_and!; [by apply short_compute; vm_compute..|]. repeat constructor; by apply short_compute; vm_compute.
  - apply (tool_run tool_paired). by vm_compute.
Defined.

Lemma tool_held : Forall (held 100 tool_authorized.1) (tool_snapshots tool_authorized.2).
Proof.
  pose proof (tool_run tool_authorized ltac:(by vm_compute)) as E.
  apply (authorize_archives_Ok 100 (str "x86_64") log_all tool_hex tool_self) in E as (_ & srcinfo & version & pkgbuild & _ & _ & _ & _ & _ & E).
  by apply authorized_held in E.
Qed.

Definition yes : Terminal := {| attended := true; confirm := fun _ => Some true |}.

Definition tool_installed : Aur * result (list rstr) AuthorizeError :=
  install_built_packages 100 log_all yes (fun _ => true) (tool_snapshots tool_authorized.2) tool_authorized.1.

Lemma privileges_are_granted_on_approval_witness :
  exists contents, tool_snapshots tool_authorized.2 ≠ [] /\ Forall2 (holds_archive 100 tool_authorized.1) (tool_snapshots tool_authorized.2) contents /\
    (Forall (fun c => Forall (fun x => ~ grants x) c.2) contents \/
     exists prompt reports, attended yes = true /\ confirm yes prompt = Some true /\ str_len prompt <= MAX_PROMPT_BYTES /\
       (forall c, c ∈ contents -> (exists x, x ∈ c.2 /\ grants x) -> discloses prompt c.1 c.2) /\
       Forall2 (fun c r => inspect_archive (Some c.1) = Ok r) contents reports /\ Approval (str "approved") reports ∈ audit tool_installed.1).
Proof.
  apply (privileges_are_granted_on_approval 100 log_all tool_hex tool_self yes (fun _ => true) (tool_snapshots tool_authorized.2) tool_authorized.1
           tool_installed.1 tool_installed.2 tool_held (surjective_pairing tool_installed)).
  left. exists (match tool_installed.2 with Ok l => l | Err _ => [] end). vm_compute. reflexivity.
Defined.
