(* ===== verification/AurBuild.v ===== *)
(** Building AUR packages with their AUR dependencies: the build functions of
    src/src/package_managers/aur/client.rs.

    Fetching and reviewing a checkout, planning, building the dependencies
    first by the same function, comparing the checkout with the review, running
    makepkg, and handing the archives to [AurAuthorize]. What the code asks of
    git, the network, makepkg, libalpm and the terminal are the operations of
    the class [Outside], over an arbitrary state of the outside world; locks
    and directories are part of them. The trace records the reviews, or that
    there was none, and the calls of [run_build], which downloads the sources
    and starts makepkg; it is not part of the program. [build_only] carries fuel
    for the depth of the dependencies. *)

From S2P Require Import Prelude Spdx RustPath Validation AurDeps ArtifactInspector Artifact AurReview AurAuthorize.
Open Scope Z_scope.
Open Scope omg_scope.

Inductive BuildError :=
| FromAuthorize (e : AuthorizeError)
| FromSource (e : ReviewError)
| FromName (e : ValidationError)
| NoOutputs
| RootBuilder
| NotReady
| GitPullFailed
| GitCloneFailed
| PkgbuildNotFound
| KeysFailed
| NoSrcinfo
| PlanFailed
| Unresolvable (names : list rstr)
| OfficialFailed
| Unsatisfied (names : list rstr)
| EnvironmentFailed
| BuildFailed
| ArchiveNotFound
| CircularDependency (package : rstr)
| CircularBase (base : rstr)
| InvalidBase (e : ValidationError)
| OutOfFuel.

Record AurDependencyPlan := {
  aur_dependencies : list rstr;
  official_dependencies : list rstr;
  plan_outputs : list rstr
}.

(** One lookup: [None] when the request failed, otherwise the package base of
    the entry with that name, if there is one. *)
Class Outside (W : Type) := {
  ready : rstr -> W -> bool * W;
  dir_exists : rstr -> W -> bool;
  pkgbuild_exists : rstr -> W -> bool;
  checkout_at : rstr -> W -> Node;
  checkout_root : rstr -> list (list Z);
  git_pull : rstr -> W -> bool * W;
  git_clone : rstr -> W -> bool * W;
  remove_dir : rstr -> W -> bool * W;
  reviewer : rstr -> W -> (bool * bool * bool) * W;
  lossy : list Z -> rstr;
  escape : char -> rstr;
  fetch_keys : rstr -> W -> bool * W;
  rpc_base : rstr -> W -> option (option rstr) * W;
  has_srcinfo : rstr -> W -> bool;
  check_dependencies_for_outputs : rstr -> list rstr -> W -> option DependencyInfo;
  find_satisfier : W -> option (rstr -> option rstr);
  aur_info : rstr -> W -> option bool * W;
  install_official : list rstr -> W -> bool * W;
  make_env : rstr -> W -> option MakepkgEnv * W;
  run_build : rstr -> MakepkgEnv -> W -> option bool * W;
  pkgdest : MakepkgEnv -> rstr;
  pkgdest_listing : MakepkgEnv -> W -> option (list OutputFile);
  looks_at : W -> rstr -> TargetFacts;
  terminal_at : W -> Terminal;
  transaction : list rstr -> W -> bool * W
}.

(** How a source was released for building: by a review, with what [reviewer]
    said (whether there is a terminal, the flag that answers prompts, the
    answer), or without one because reviews are switched off. *)
Inductive Release :=
| Confirmed (attended yes answer : bool)
| Skipped.

(** The checkout that was captured, and of a build the checkout that passed
    the comparison with the review and the one the build was started on. *)
Inductive BuildEvent :=
| Reviewed (base : rstr) (node : Node) (source : ReviewedSource) (how : Release)
| Ran (base : rstr) (compared started : Node)
| Installed (handoffs : list rstr).

Record Build {W : Type} := {
  world_of : W;
  client : Aur;
  in_flight : gset rstr;
  trace : list BuildEvent
}.
Arguments Build W : clear implicits.

Definition B (W A : Type) : Type := Build W -> Build W * result A BuildError.

#[export] Instance B_ret {W} : MRet (B W) := fun A a s => (s, Ok a).
#[export] Instance B_bind {W} : MBind (B W) := fun A C f p s =>
  match p s with (s', Ok a) => f a s' | (s', Err e) => (s', Err e) end.

Section build.
Context {W : Type} `{Outside W} `{ArchiveCodec} `{SystemNames} `{SrcinfoParser}.
Context (self : Z) (host : rstr) (settings : AurSettings) (accepts : list AurEvent -> AurEvent -> bool) (review_required : bool).

Definition pureB {A} (r : result A BuildError) : B W A := fun s => (s, r).

Definition set_world (w : W) (s : Build W) : Build W :=
  {| world_of := w; client := client s; in_flight := in_flight s; trace := trace s |}.

(** Ask the outside. *)
Definition ask {A} (f : W -> A * W) : B W A := fun s => let '(a, w) := f (world_of s) in (set_world w s, Ok a).

Definition look {A} (f : W -> A) : B W A := fun s => (s, Ok (f (world_of s))).

Definition check (f : W -> bool * W) (e : BuildError) : B W unit :=
  done ← ask f; pureB (ensure done e).

Definition note (e : BuildEvent) : B W unit := fun s =>
  ({| world_of := world_of s; client := client s; in_flight := in_flight s; trace := trace s ++ [e] |}, Ok tt).

(** The in-flight set is shared by all builds below one request. *)
Definition set_in_flight (f : gset rstr -> gset rstr) : B W unit := fun s =>
  ({| world_of := world_of s; client := client s; in_flight := f (in_flight s); trace := trace s |}, Ok tt).

(** An operation of the client. *)
Definition on_client {A} (p : M A) : B W A := fun s =>
  let '(c, r) := p (client s) in
  ({| world_of := world_of s; client := c; in_flight := in_flight s; trace := trace s |}, map_err FromAuthorize r).

(** * Sources *)

(** A pull, and a fresh clone when the pull fails. *)
Definition pull_or_reclone (base : rstr) : B W unit :=
  pulled ← ask (git_pull base);
  if pulled : bool then mret tt
  else
    _ ← check (remove_dir base) GitPullFailed;
    check (git_clone base) GitPullFailed.

(** The update of a checkout in [authorize_package_outputs]. *)
Definition update_checkout (base : rstr) : B W unit :=
  exists_ ← look (dir_exists base);
  if exists_ : bool then pull_or_reclone base else check (git_clone base) GitCloneFailed.

(** The update of a checkout in [build_only_inner]: a directory without a
    PKGBUILD is removed first, if it can be. *)
Definition update_dependency_checkout (base : rstr) : B W unit :=
  exists_ ← look (dir_exists base);
  recipe ← look (pkgbuild_exists base);
  if exists_ && recipe : bool then pull_or_reclone base
  else
    _ ← (if exists_ : bool then ask (remove_dir base) else mret true);
    check (git_clone base) GitCloneFailed.

(** The review, or only the capture when reviews are switched off. *)
Definition review_source (base : rstr) : B W ReviewedSource :=
  recipe ← look (pkgbuild_exists base);
  _ ← pureB (ensure recipe PkgbuildNotFound);
  node ← look (checkout_at base);
  if review_required then
    '(attended, yes, answer) ← ask (reviewer base);
    source ← pureB (map_err FromSource (review_pkgbuild lossy escape attended yes answer (checkout_root base) node));
    _ ← note (Reviewed base node source (Confirmed attended yes answer));
    mret source
  else
    source ← pureB (map_err FromSource (AurReview.capture (checkout_root base) node));
    _ ← note (Reviewed base node source Skipped);
    mret source.

(** * Plans *)

Definition classify (package : rstr) (acc : list rstr * list rstr * list rstr) (d : rstr * option rstr) : B W (list rstr * list rstr * list rstr) :=
  let '(aur, official, unresolved) := acc in
  let '(dependency, satisfier) := d in
  let name := dependency_name dependency in
  if str_eqb name [] || str_eqb name package then mret acc
  else match satisfier with
       | Some official_package => mret (aur, official ++ [official_package], unresolved)
       | None =>
           found ← ask (aur_info name);
           found ← pureB (ok_or found PlanFailed);
           if found : bool then mret (aur ++ [name], official, unresolved) else mret (aur, official, unresolved ++ [dependency])
       end.

Fixpoint classify_all (package : rstr) (acc : list rstr * list rstr * list rstr) (l : list (rstr * option rstr)) : B W (list rstr * list rstr * list rstr) :=
  match l with
  | [] => mret acc
  | d :: l => acc ← classify package acc d; classify_all package acc l
  end.

Definition aur_dependency_plan (base package : rstr) (requested : list rstr) : B W AurDependencyPlan :=
  srcinfo ← look (has_srcinfo base);
  _ ← pureB (ensure srcinfo NoSrcinfo);
  info ← look (check_dependencies_for_outputs base requested);
  info ← pureB (ok_or info PlanFailed);
  satisfier ← look find_satisfier;
  satisfier ← pureB (ok_or satisfier PlanFailed);
  '(aur, official, unresolved) ← classify_all package ([], [], []) (map (fun d => (d, satisfier d)) (missing info));
  _ ← pureB (ensure (bool_decide (unresolved = [])) (Unresolvable unresolved));
  mret {| aur_dependencies := dedup (sort_strs aur); official_dependencies := dedup (sort_strs official);
          plan_outputs := package_outputs info |}.

Definition install_official_dependencies (packages : list rstr) : B W unit :=
  match packages with [] => mret tt | _ => check (install_official packages) OfficialFailed end.

Definition ensure_dependencies_satisfied (base : rstr) (outputs : list rstr) : B W unit :=
  info ← look (check_dependencies_for_outputs base outputs);
  info ← pureB (ok_or info PlanFailed);
  pureB (ensure (bool_decide (missing info = [])) (Unsatisfied (missing info))).

(** * Building *)

(** [reviewed_digest.verify(&pkg_dir)?] and [run_build], on success with the
    archives that were found. *)
Definition verified_build (base : rstr) (source : ReviewedSource) (env : MakepkgEnv) (outputs : list rstr) : B W (list rstr) :=
  node ← look (checkout_at base);
  _ ← pureB (map_err FromSource (AurReview.verify source (checkout_root base) node));
  started ← look (checkout_at base);
  _ ← note (Ran base node started);
  status ← ask (run_build base env);
  status ← pureB (ok_or status BuildFailed);
  _ ← pureB (ensure status BuildFailed);
  listing ← look (pkgdest_listing env);
  pureB (ok_or (find_built_packages (pkgdest env) listing outputs) ArchiveNotFound).

(** [makepkg_env] and the time stamp derived from the source. *)
Definition build_environment (base : rstr) (source : ReviewedSource) : B W MakepkgEnv :=
  env ← ask (make_env base);
  env ← pureB (ok_or env EnvironmentFailed);
  pureB (ok_or (set_reproducible_source_epoch env source) EnvironmentFailed).

(** Whether [authorize_with_paired_build] will build a second time, from this
    state of the client. *)
Definition will_rebuild (looks : rstr -> TargetFacts) (paths : list rstr) (source : ReviewedSource) (base : rstr) (outputs : list rstr)
    (fresh : bool) (env : MakepkgEnv) (c : Aur) : bool :=
  match (primary ← authorize_archives self host accepts looks paths source base outputs fresh; mmap (inspect_snapshot self) primary) c with
  | (c', Ok inspections) =>
      existsb requires_paired_build inspections && negb (bool_decide (paired_build_cache_key settings source env inspections ∈ paired c'))
  | (_, Err _) => false
  end.

(** The answers of the outside to a second build, up to its first failure, the
    checkout [run_build] was started on if it was, and what the outside is
    afterwards. *)
Definition rebuild_answers (base : rstr) (source : ReviewedSource) (outputs : list rstr) (w : W) : Rebuild * option Node * W :=
  let node := checkout_at base w in
  let answer env keys status paths looks := {| rebuild_root := checkout_root base; rebuild_checkout := node; rebuild_env := env;
    rebuild_keys := keys; rebuild_status := status; rebuild_paths := paths; rebuild_looks := looks |} in
  let failed := looks_at w in
  if negb (is_ok (AurReview.verify source (checkout_root base) node)) then (answer None false None None failed, None, w)
  else match make_env base w with
       | (None, w) => (answer None false None None failed, None, w)
       | (Some env, w) =>
           match set_reproducible_source_epoch env source with
           | None => (answer (Some env) false None None failed, None, w)
           | Some full =>
               match fetch_keys base w with
               | (false, w) => (answer (Some env) false None None failed, None, w)
               | (true, w) =>
                   let started := checkout_at base w in
                   match run_build base full w with
                   | (status, w) =>
                       (answer (Some env) true status (find_built_packages (pkgdest full) (pkgdest_listing full w) outputs) (looks_at w), Some started, w)
                   end
               end
           end
       end.

Definition authorize_built (paths : list rstr) (source : ReviewedSource) (base : rstr) (outputs : list rstr) (fresh : bool) (env : MakepkgEnv)
    : B W (list ArchiveSnapshot) := fun s =>
  let looks := looks_at (world_of s) in
  let '(r, ran, w) := rebuild_answers base source outputs (world_of s) in
  let again := will_rebuild looks paths source base outputs fresh env (client s) in
  let '(c, res) := authorize_with_paired_build self host settings accepts looks paths source base outputs fresh env r (client s) in
  ({| world_of := if again then w else world_of s; client := c; in_flight := in_flight s;
      trace := trace s ++ match ran with
                          | Some started => if again then [Ran base (checkout_at base (world_of s)) started] else []
                          | None => []
                          end |},
   map_err FromAuthorize res).

(** The gate before the transaction, and the transaction. *)
Definition install_archives (archives : list ArchiveSnapshot) : B W unit := fun s =>
  let w := world_of s in
  let '(c, res) := install_built_packages self accepts (terminal_at w) (fun handoffs => (transaction handoffs w).1) archives (client s) in
  match res with
  | Ok handoffs =>
      ({| world_of := (transaction handoffs w).2; client := c; in_flight := in_flight s; trace := trace s ++ [Installed handoffs] |}, Ok tt)
  | Err e => ({| world_of := w; client := c; in_flight := in_flight s; trace := trace s |}, Err (FromAuthorize e))
  end.

(** * Package bases *)

Definition package_base_marker (base : rstr) : rstr := str "pkgbase:" ++ base.

Definition validated_package_base (name : rstr) (candidate : option rstr) : result rstr BuildError :=
  let base := default name candidate in
  map_err InvalidBase (validate_package_name base) ;?
  Ok base.

Definition resolve_package_base (name : rstr) : B W rstr :=
  answer ← ask (rpc_base name);
  match answer with
  | Some candidate => pureB (validated_package_base name candidate)
  | None => mret name
  end.

Definition enter (key : rstr) (e : BuildError) : B W unit := fun s =>
  if bool_decide (key ∈ in_flight s) then (s, Err e) else set_in_flight (fun f => {[key]} ∪ f) s.

Definition enter_dependency_build (package : rstr) : B W unit := enter package (CircularDependency package).
Definition enter_package_base (base : rstr) : B W unit := enter (package_base_marker base) (CircularBase base).

Definition leave (key : rstr) : B W unit := set_in_flight (fun f => f ∖ {[key]}).

(** [p], then [cleanup], whatever [p] answers. *)
Definition finally {A} (p : B W A) (cleanup : B W unit) : B W A := fun s =>
  let '(s1, r) := p s in ((cleanup s1).1, r).

(** A value, or the cleanup and the error. *)
Definition or_leave {A} (p : B W A) (key : rstr) : B W A := fun s =>
  match p s with
  | (s1, Err e) => ((leave key s1).1, Err e)
  | r => r
  end.

Section dependencies.
(** [self.build_only] on a dependency. *)
Context (build_only : rstr -> B W (list ArchiveSnapshot)).

Fixpoint build_dependencies (l : list rstr) : B W unit :=
  match l with
  | [] => mret tt
  | dependency :: l =>
      archives ← build_only dependency;
      _ ← install_archives archives;
      build_dependencies l
  end.

Definition build_only_inner (package base : rstr) : B W (list ArchiveSnapshot) :=
  _ ← pureB (map_err FromName (validate_package_name package));
  _ ← check (ready base) NotReady;
  _ ← update_dependency_checkout base;
  source ← review_source base;
  _ ← check (fetch_keys base) KeysFailed;
  plan ← aur_dependency_plan base package [package];
  _ ← install_official_dependencies (official_dependencies plan);
  _ ← build_dependencies (aur_dependencies plan);
  _ ← ensure_dependencies_satisfied base (plan_outputs plan);
  _ ← check (ready base) NotReady;
  env ← build_environment base source;
  _ ← (node ← look (checkout_at base); pureB (map_err FromSource (AurReview.capture (checkout_root base) node)));
  paths ← verified_build base source env (plan_outputs plan);
  authorize_built paths source base (plan_outputs plan) true env.

Definition build_only_step (package : rstr) : B W (list ArchiveSnapshot) :=
  _ ← enter_dependency_build package;
  base ← or_leave (resolve_package_base package) package;
  _ ← or_leave (enter_package_base base) package;
  finally (build_only_inner package base) (_ ← leave (package_base_marker base); leave package).
End dependencies.

Fixpoint build_only (fuel : nat) (package : rstr) : B W (list ArchiveSnapshot) :=
  match fuel with
  | O => pureB (Err OutOfFuel)
  | S fuel => build_only_step (build_only fuel) package
  end.

(** * Requests *)

Record AuthorizedBuild := {
  auth_package : rstr;
  requested_outputs : list rstr;
  reviewed_digest : ReviewedSource
}.

Fixpoint validate_all (names : list rstr) : result unit BuildError :=
  match names with
  | [] => Ok tt
  | name :: names => map_err FromName (validate_package_name name) ;? validate_all names
  end.

Definition authorize_package_outputs (is_root : bool) (package : rstr) (requested : list rstr) : B W AuthorizedBuild :=
  _ ← pureB (map_err FromName (validate_package_name package));
  _ ← pureB (ensure (negb (bool_decide (requested = []))) NoOutputs);
  _ ← pureB (validate_all requested);
  _ ← pureB (ensure (negb is_root) RootBuilder);
  _ ← check (ready package) NotReady;
  _ ← update_checkout package;
  source ← review_source package;
  mret {| auth_package := package; requested_outputs := requested; reviewed_digest := source |}.

(** The in-flight set of a request holds the package and its base. *)
Definition install_authorized_package_outputs (fuel : nat) (authorized : AuthorizedBuild) : B W (list ArchiveSnapshot) :=
  let package := auth_package authorized in
  let source := reviewed_digest authorized in
  _ ← check (ready package) NotReady;
  recipe ← look (pkgbuild_exists package);
  _ ← pureB (ensure recipe PkgbuildNotFound);
  _ ← (node ← look (checkout_at package); pureB (map_err FromSource (AurReview.verify source (checkout_root package) node)));
  _ ← check (fetch_keys package) KeysFailed;
  env ← build_environment package source;
  plan ← aur_dependency_plan package package (requested_outputs authorized);
  _ ← set_in_flight (fun _ => {[package; package_base_marker package]});
  _ ← install_official_dependencies (official_dependencies plan);
  _ ← build_dependencies (build_only fuel) (aur_dependencies plan);
  _ ← ensure_dependencies_satisfied package (plan_outputs plan);
  _ ← check (ready package) NotReady;
  _ ← (node ← look (checkout_at package); pureB (map_err FromSource (AurReview.capture (checkout_root package) node)));
  paths ← verified_build package source env (plan_outputs plan);
  authorize_built paths source package (plan_outputs plan) true env.

(** Privileges are acquired between the review and the build: [acquired]. *)
Definition install_package_outputs (fuel : nat) (is_root acquired : bool) (package : rstr) (requested : list rstr) : B W unit :=
  authorized ← authorize_package_outputs is_root package requested;
  _ ← pureB (ensure acquired NotReady);
  archives ← install_authorized_package_outputs fuel authorized;
  install_archives archives.
End build.
