(* ===== verification/AurBuildProofs.v ===== *)
(** Recipes only run on the files that were reviewed, and building the AUR
    dependencies of a package ends, with every name it entered left again. *)

From S2P Require Import Prelude Validation AurDeps ArtifactInspector Artifact ArtifactProofs AurReview AurReviewProofs AurAuthorize AurAuthorizeProofs AurBuild.
Open Scope Z_scope.
Open Scope omg_scope.

Section proofs.
Context {W : Type} `{Outside W} `{ArchiveCodec} `{SystemNames} `{SrcinfoParser}.
Context (self : Z) (host : rstr) (settings : AurSettings) (accepts : list AurEvent -> AurEvent -> bool) (review_required : bool).

Notation B := (B W).
Implicit Types (s : Build W) (t : list BuildEvent).

(** * Traces *)

(** What [reviewer] said, when reviews are required: someone at a terminal
    answered yes, or had answered all prompts with yes beforehand. *)
Definition consented (base : rstr) (how : Release) : Prop :=
  review_required = true -> exists yes answer w w', how = Confirmed true yes answer /\ reviewer base w = ((true, yes, answer), w') /\
    (yes = true \/ answer = true).

(** A review of [base] in [t] that gave [source]. *)
Definition known (base : rstr) (source : ReviewedSource) t : Prop :=
  exists node how, Reviewed base node source how ∈ t /\ AurReview.capture (checkout_root base) node = Ok source /\ consented base how.

(** What happens between the comparison and the start of a build: nothing, or
    in a second build the environment and the keys are prepared. *)
Definition handed_over (base : rstr) (compared started : Node) : Prop :=
  started = compared \/ exists w : W, compared = checkout_at base w /\ started = checkout_at base (fetch_keys base (make_env base w).2).2.

(** The files a build is started on passed the comparison with a source. *)
Definition matched (base : rstr) (source : ReviewedSource) (compared started : Node) : Prop :=
  AurReview.verify source (checkout_root base) compared = Ok tt /\ handed_over base compared started.

(** Every build follows a review, and the files it is started on passed the
    comparison with it. *)
Definition trace_ok t : Prop := forall before base compared started after, t = before ++ Ran base compared started :: after ->
  exists source, known base source before /\ matched base source compared started.

Lemma known_prefix base source t t' : t `prefix_of` t' -> known base source t -> known base source t'.
Proof. intros [u ->] (node & how & Hin & Hc). exists node, how. split; [set_solver|done]. Qed.

Definition is_run (e : BuildEvent) : bool := match e with Ran _ _ _ => true | _ => false end.

Lemma trace_ok_snoc t e :
  (forall base compared started, e = Ran base compared started -> exists source, known base source t /\ matched base source compared started) ->
  trace_ok t -> trace_ok (t ++ [e]).
Proof.
  intros He Ht before base compared started after E. destruct after as [|x after _] using rev_ind.
  - apply app_inj_tail in E as [<- ->]. by apply He.
  - rewrite app_comm_cons, app_assoc in E. apply app_inj_tail in E as [E _]. by eapply Ht.
Qed.

(** [p] keeps traces in order; it may rely on [P] and establishes [Q]. *)
Definition orderly {A} (P : list BuildEvent -> Prop) (p : B A) (Q : A -> list BuildEvent -> Prop) : Prop :=
  forall s, trace_ok (trace s) -> P (trace s) ->
    trace_ok (trace (p s).1) /\ trace s `prefix_of` trace (p s).1 /\ forall a, (p s).2 = Ok a -> Q a (trace (p s).1).

Lemma orderly_bind {A C} P (p : B A) (f : A -> B C) Q R :
  orderly P p Q -> (forall a, orderly (Q a) (f a) R) -> orderly P (p ≫= f) R.
Proof.
  intros Hp Hf s Ht HP. unfold mbind, B_bind. destruct (Hp s Ht HP) as (T1 & T2 & T3). destruct (p s) as [s1 [a|e]]; cbn in *; [|by split_and!].
  destruct (Hf a s1 T1 (T3 a eq_refl)) as (T4 & T5 & T6). split_and!; [done|by etrans|done].
Qed.

(** What persists may be carried over. *)
Lemma orderly_frame {A} (P F : list BuildEvent -> Prop) (p : B A) Q : (forall t t', t `prefix_of` t' -> F t -> F t') ->
  orderly P p Q -> orderly (fun t => P t /\ F t) p (fun a t => Q a t /\ F t).
Proof.
  intros HF Hp s Ht [HP Hf]. destruct (Hp s Ht HP) as (T1 & T2 & T3). split_and!; [done|done|]. intros a Ha. split; [by apply T3|by eapply HF].
Qed.

Lemma orderly_weaken {A} (P P' : list BuildEvent -> Prop) (p : B A) (Q Q' : A -> list BuildEvent -> Prop) :
  orderly P p Q -> (forall t, P' t -> P t) -> (forall a t, Q a t -> Q' a t) -> orderly P' p Q'.
Proof. intros Hp HP HQ s Ht Hs. destruct (Hp s Ht (HP _ Hs)) as (T1 & T2 & T3). split_and!; eauto. Qed.

(** Operations that leave a part of the state alone: the trace, the in-flight
    set, or both. *)
Definition keeps_part {A X} (part : Build W -> X) (p : B A) : Prop := forall s, part (p s).1 = part s.

Definition both s : list BuildEvent * gset rstr := (trace s, in_flight s).

Lemma keeps_part_bind {A C X} (part : Build W -> X) (p : B A) (f : A -> B C) :
  keeps_part part p -> (forall a, keeps_part part (f a)) -> keeps_part part (p ≫= f).
Proof. intros Hp Hf s. unfold mbind, B_bind. pose proof (Hp s). destruct (p s) as [s1 [a|e]]; cbn in *; [by rewrite Hf|done]. Qed.

Lemma both_trace {A} (p : B A) : keeps_part both p -> keeps_part trace p.
Proof. intros Hp s. by injection (Hp s). Qed.

Lemma both_in_flight {A} (p : B A) : keeps_part both p -> keeps_part in_flight p.
Proof. intros Hp s. by injection (Hp s). Qed.

Lemma orderly_quiet {A} P (p : B A) : keeps_part trace p -> orderly P p (fun _ => P).
Proof. intros Hp s Ht HP. rewrite !Hp. by split_and!. Qed.

Lemma quiet_ret {A} (a : A) : keeps_part both (mret a : B A).
Proof. done. Qed.

Lemma quiet_pure {A} (r : result A BuildError) : keeps_part both (pureB r : B A).
Proof. done. Qed.

Lemma quiet_ask {A} (f : W -> A * W) : keeps_part both (ask f).
Proof. intros s. unfold ask. by destruct (f (world_of s)). Qed.

Lemma quiet_look {A} (f : W -> A) : keeps_part both (look f).
Proof. done. Qed.

Lemma quiet_check f e : keeps_part both (check f e).
Proof. apply keeps_part_bind; [apply quiet_ask|done]. Qed.

Lemma quiet_set_in_flight f : keeps_part trace (set_in_flight f : B unit).
Proof. done. Qed.

Lemma quiet_enter key e : keeps_part trace (enter key e : B unit).
Proof. intros s. unfold enter. by case_bool_decide. Qed.

Create HintDb quiet.
#[local] Hint Resolve quiet_ret quiet_pure quiet_ask quiet_look quiet_check : quiet.

Ltac quiet := repeat first [apply keeps_part_bind; [solve [auto with quiet]|intros]|solve [auto with quiet]|case_match].

Lemma quiet_pull base : keeps_part both (pull_or_reclone base : B unit).
Proof. unfold pull_or_reclone. quiet. Qed.

Lemma quiet_update base : keeps_part both (update_checkout base : B unit).
Proof. unfold update_checkout. quiet. Qed.

Lemma quiet_update_dependency base : keeps_part both (update_dependency_checkout base : B unit).
Proof.
  unfold update_dependency_checkout. apply keeps_part_bind; [auto with quiet|intros b1]. apply keeps_part_bind; [auto with quiet|intros b2].
  destruct (b1 && b2); [apply quiet_pull|]. apply keeps_part_bind; [destruct b1; auto with quiet|auto with quiet].
Qed.

Lemma quiet_classify package acc l : keeps_part both (classify_all package acc l : B _).
Proof.
  revert acc. induction l as [|d l IH]; intros acc; cbn [classify_all]; [done|]. apply keeps_part_bind; [|auto].
  unfold classify. quiet.
Qed.

Lemma quiet_plan base package requested : keeps_part both (aur_dependency_plan base package requested : B _).
Proof.
  unfold aur_dependency_plan. repeat (apply keeps_part_bind; [solve [auto using quiet_classify with quiet]|intros]). repeat case_match. quiet.
Qed.

Lemma quiet_official l : keeps_part both (install_official_dependencies l : B unit).
Proof. destruct l; cbn; auto with quiet. Qed.

Lemma quiet_satisfied base outputs : keeps_part both (ensure_dependencies_satisfied base outputs : B unit).
Proof. unfold ensure_dependencies_satisfied. quiet. Qed.

Lemma quiet_environment base source : keeps_part both (build_environment base source : B _).
Proof. unfold build_environment. quiet. Qed.

Lemma quiet_resolve name : keeps_part both (resolve_package_base name : B _).
Proof. unfold resolve_package_base. quiet. Qed.

Lemma quiet_or_leave {A} (p : B A) key : keeps_part trace p -> keeps_part trace (or_leave p key).
Proof. intros Hp s. unfold or_leave. pose proof (Hp s). by destruct (p s) as [s1 [a|e]]. Qed.

#[local] Hint Resolve quiet_pull quiet_update quiet_update_dependency quiet_plan quiet_official quiet_satisfied quiet_environment quiet_resolve : quiet.
#[local] Hint Resolve both_trace both_in_flight quiet_or_leave quiet_set_in_flight quiet_enter : quiet.

(** * Runs follow reviews *)

Lemma review_captures base node attended yes answer source :
  review_pkgbuild lossy escape attended yes answer (checkout_root base) node = Ok source ->
  AurReview.capture (checkout_root base) node = Ok source /\ attended = true /\ (yes = true \/ answer = true).
Proof. unfold review_pkgbuild. intros Hr. res_inv. split_and!; [done|done|]. destruct yes; [by left|]. right. by apply ensure_Ok in Hr5. Qed.

Lemma orderly_note P base node source how : AurReview.capture (checkout_root base) node = Ok source -> consented base how ->
  orderly P (note (Reviewed base node source how) : B unit) (fun _ => known base source).
Proof.
  intros Hc Hh s Ht _. unfold note. cbn. split_and!; [by apply trace_ok_snoc|by eexists|]. intros _ _. exists node, how. split; [set_solver|done].
Qed.

(** The end of a review: the note and the source. *)
Lemma orderly_release base node how (r : result ReviewedSource ReviewError) :
  (forall source, r = Ok source -> AurReview.capture (checkout_root base) node = Ok source /\ consented base how) ->
  orderly (fun _ => True) (source ← pureB (map_err FromSource r); _ ← note (Reviewed base node source how); mret source : B _) (known base).
Proof.
  intros Hr. apply (orderly_bind _ _ _ (fun source _ => r = Ok source)).
  { intros s Ht _. cbn. split_and!; [done|done|]. by intros source Hs%map_err_Ok. }
  intros source s Ht [Hc Hh]%Hr. apply (orderly_bind (fun _ => True) _ _ (fun _ => known base source)); [by apply orderly_note| |done|done].
  intros _ s1 Ht1 Hk. cbn. split_and!; [done|done|]. by intros ? [= <-].
Qed.

Lemma orderly_review base : orderly (fun _ => True) (review_source review_required base : B _) (known base).
Proof.
  unfold review_source. eapply orderly_bind; [apply orderly_quiet; auto 4 with quiet|intros recipe].
  eapply orderly_bind; [apply orderly_quiet; auto 4 with quiet|intros ?].
  eapply orderly_bind; [apply orderly_quiet; auto 4 with quiet|intros node].
  destruct review_required eqn:Hreq.
  - apply (orderly_bind _ _ _ (fun a _ => exists w w', reviewer base w = (a, w'))).
    { intros s Ht _. unfold ask. destruct (reviewer base (world_of s)) as [said w'] eqn:E. cbn. split_and!; [done|done|]. intros ? [= <-]. by exists (world_of s), w'. }
    intros [[attended yes] answer] s Ht (w & w' & Hw). eapply orderly_release; [|done|done].
    intros source (Hc & -> & Hyes)%review_captures. split; [done|]. intros _. by exists yes, answer, w, w'.
  - apply orderly_release. intros source Hc. split; [done|]. unfold consented. by rewrite Hreq.
Qed.

(** What a verified build does to the trace. *)
Lemma orderly_build base source env outputs :
  orderly (known base source) (verified_build base source env outputs : B _) (fun _ => known base source).
Proof.
  intros s Ht Hk. unfold verified_build, look, pureB, mbind, B_bind.
  destruct (AurReview.verify source (checkout_root base) (checkout_at base (world_of s))) as [[]|e] eqn:Hv; cbn [map_err]; [|by split_and!].
  pose (s1 := (note (Ran base (checkout_at base (world_of s)) (checkout_at base (world_of s))) s).1).
  assert (orderly (known base source) (status ← ask (run_build base env); status ← pureB (ok_or status BuildFailed);
    _ ← pureB (ensure status BuildFailed); listing ← look (pkgdest_listing env);
    pureB (ok_or (find_built_packages (pkgdest env) listing outputs) ArchiveNotFound) : B _) (fun _ => known base source)) as Hrest
    by (apply orderly_quiet, both_trace; quiet).
  assert (trace s `prefix_of` trace s1) as Hpre by by eexists.
  destruct (Hrest s1) as (T1 & T2 & T3).
  - apply trace_ok_snoc; [|done]. intros base' compared started [= <- <- <-]. exists source. split; [done|]. split; [done|by left].
  - by eapply known_prefix.
  - split_and!; [exact T1|by etrans|exact T3].
Qed.

Lemma rebuild_ran base source outputs w r started w' : rebuild_answers base source outputs w = (r, Some started, w') ->
  matched base source (checkout_at base w) started.
Proof.
  unfold rebuild_answers, matched, handed_over. destruct (AurReview.verify source (checkout_root base) (checkout_at base w)) as [[]|] eqn:Hv; cbn; [|by intros [=]].
  intros Hr. split; [done|]. right. exists w. split; [done|]. destruct (make_env base w) as [[env|] w1]; [|by simplify_eq]. cbn.
  destruct (set_reproducible_source_epoch env source) as [full|]; [|by simplify_eq]. destruct (fetch_keys base w1) as [[] w2]; [|by simplify_eq].
  destruct (run_build base full w2) as [status w3]. by simplify_eq.
Qed.

Lemma orderly_authorize paths source base outputs fresh env :
  orderly (known base source) (authorize_built self host settings accepts paths source base outputs fresh env : B _) (fun _ => known base source).
Proof.
  intros s Ht Hk. unfold authorize_built. destruct (rebuild_answers base source outputs (world_of s)) as [[r ran] w] eqn:Hr.
  destruct (authorize_with_paired_build _ _ _ _ _ _ _ _ _ _ _ _ _) as [c res]. cbn [fst snd trace].
  destruct ran as [started|]; [|rewrite app_nil_r; by split_and!].
  destruct (will_rebuild _ _ _ _ _ _ _ _ _ _ _ _); [|rewrite app_nil_r; by split_and!].
  apply rebuild_ran in Hr. split_and!; [|by eexists|intros _ _; by eapply known_prefix; [eexists|]].
  apply trace_ok_snoc; [|done]. intros base' compared' started' [= <- <- <-]. by exists source.
Qed.

Lemma orderly_install P archives : (forall t t', t `prefix_of` t' -> P t -> P t') -> orderly P (install_archives self accepts archives : B unit) (fun _ => P).
Proof.
  intros HP s Ht Hs. unfold install_archives. destruct (install_built_packages _ _ _ _ _ _) as [c [handoffs|e]]; cbn [fst snd trace]; [|by split_and!].
  split_and!; [by apply trace_ok_snoc|by eexists|]. intros _ _. eapply HP; [by eexists|done].
Qed.

Section recursion.
Context (rec : rstr -> B (list ArchiveSnapshot)) (Hrec : forall p, orderly (fun _ => True) (rec p) (fun _ _ => True)).

Lemma orderly_dependencies base source l : orderly (known base source) (build_dependencies self accepts rec l) (fun _ => known base source).
Proof.
  pose proof (known_prefix base source) as Hk. induction l as [|d l IH]; cbn [build_dependencies]; [by apply orderly_quiet|].
  apply (orderly_bind _ _ _ (fun _ t => True /\ known base source t)).
  - eapply orderly_weaken; [apply (orderly_frame (fun _ => True) (known base source)); [done|apply Hrec]|done|done].
  - intros archives. eapply orderly_bind; [|intros; apply IH]. eapply orderly_weaken; [by apply orderly_install|by intros t []|done].
Qed.

Ltac quiet_step := eapply orderly_bind; [apply orderly_quiet; solve [auto 4 with quiet]|intros].

Lemma orderly_inner package base : orderly (fun _ => True) (build_only_inner self host settings accepts review_required rec package base) (fun _ _ => True).
Proof.
  unfold build_only_inner. do 3 quiet_step. eapply orderly_bind; [apply orderly_review|intros source].
  do 3 quiet_step. eapply orderly_bind; [apply orderly_dependencies|intros]. do 3 quiet_step.
  eapply orderly_bind; [apply orderly_quiet; apply both_trace; quiet|intros].
  eapply orderly_bind; [apply orderly_build|intros paths]. eapply orderly_weaken; [apply orderly_authorize|done|done].
Qed.

Lemma orderly_step package : orderly (fun _ => True) (build_only_step self host settings accepts review_required rec package) (fun _ _ => True).
Proof.
  unfold build_only_step, enter_dependency_build, enter_package_base. do 3 quiet_step. intros s Ht _. unfold finally. pose proof (orderly_inner package a0 s Ht I) as (T1 & T2 & _).
  by destruct (build_only_inner _ _ _ _ _ _ _ _ s) as [s1 r].
Qed.
End recursion.

Lemma orderly_build_only fuel : forall package, orderly (fun _ => True) (build_only self host settings accepts review_required fuel package) (fun _ _ => True).
Proof. induction fuel as [|fuel IH]; intros package; [by apply orderly_quiet|]. by apply orderly_step. Qed.

Lemma orderly_request fuel is_root acquired package requested :
  orderly (fun _ => True) (install_package_outputs self host settings accepts review_required fuel is_root acquired package requested) (fun _ _ => True).
Proof.
  unfold install_package_outputs. eapply (orderly_bind _ _ _ (fun a => known (auth_package a) (reviewed_digest a))).
  - unfold authorize_package_outputs. do 6 (eapply orderly_bind; [apply orderly_quiet; solve [auto 4 with quiet]|intros]).
    eapply orderly_bind; [apply orderly_review|intros source]. intros s Ht Hk. cbn. split_and!; [done|done|]. by intros ? [= <-].
  - intros a. eapply orderly_bind; [apply orderly_quiet; auto 4 with quiet|intros].
    eapply orderly_bind; [|intros; eapply orderly_weaken; [apply (orderly_install (fun _ => True)); done|done|done]].
    unfold install_authorized_package_outputs. do 3 (eapply orderly_bind; [apply orderly_quiet; solve [auto 4 with quiet]|intros]).
    eapply orderly_bind; [apply orderly_quiet; apply both_trace; quiet|intros].
    do 5 (eapply orderly_bind; [apply orderly_quiet; solve [auto 4 with quiet]|intros]).
    eapply orderly_bind; [apply orderly_dependencies, orderly_build_only|intros].
    do 2 (eapply orderly_bind; [apply orderly_quiet; solve [auto 4 with quiet]|intros]).
    eapply orderly_bind; [apply orderly_quiet; apply both_trace; quiet|intros].
    eapply orderly_bind; [apply orderly_build|intros paths]. eapply orderly_weaken; [apply orderly_authorize|done|done].
Qed.


(** * The in-flight set *)

Lemma flight_review base : keeps_part in_flight (review_source review_required base : B _).
Proof.
  unfold review_source. do 3 (apply keeps_part_bind; [auto 4 with quiet|intros]). destruct review_required.
  - apply keeps_part_bind; [auto 4 with quiet|]. intros [[]]. do 2 (apply keeps_part_bind; [done|intros]). done.
  - do 2 (apply keeps_part_bind; [done|intros]). done.
Qed.

Lemma flight_build base source env outputs : keeps_part in_flight (verified_build base source env outputs : B _).
Proof.
  unfold verified_build. do 3 (apply keeps_part_bind; [auto 4 with quiet|intros]). apply keeps_part_bind; [done|intros]. apply both_in_flight. quiet.
Qed.

Lemma flight_authorize paths source base outputs fresh env :
  keeps_part in_flight (authorize_built self host settings accepts paths source base outputs fresh env : B _).
Proof.
  intros s. unfold authorize_built. destruct (rebuild_answers _ _ _ _) as [[r ran] w]. by destruct (authorize_with_paired_build _ _ _ _ _ _ _ _ _ _ _ _ _).
Qed.

Lemma flight_install archives : keeps_part in_flight (install_archives self accepts archives : B unit).
Proof. intros s. unfold install_archives. by destruct (install_built_packages _ _ _ _ _ _) as [c [handoffs|e]]. Qed.

Section flight.
Context (rec : rstr -> B (list ArchiveSnapshot)) (Hrec : forall p, keeps_part in_flight (rec p)).

Lemma flight_dependencies l : keeps_part in_flight (build_dependencies self accepts rec l).
Proof. induction l; cbn [build_dependencies]; [done|]. apply keeps_part_bind; [done|intros]. apply keeps_part_bind; [apply flight_install|done]. Qed.

Lemma flight_inner package base : keeps_part in_flight (build_only_inner self host settings accepts review_required rec package base).
Proof.
  unfold build_only_inner. do 3 (apply keeps_part_bind; [auto 4 with quiet|intros]). apply keeps_part_bind; [apply flight_review|intros].
  do 3 (apply keeps_part_bind; [auto 4 with quiet|intros]). apply keeps_part_bind; [apply flight_dependencies|intros].
  do 3 (apply keeps_part_bind; [auto 4 with quiet|intros]). apply keeps_part_bind; [apply both_in_flight; quiet|intros].
  apply keeps_part_bind; [apply flight_build|intros]. apply flight_authorize.
Qed.
End flight.

(** What a build entered it leaves, on success and on every error. *)
Lemma flight_step (rec : rstr -> B (list ArchiveSnapshot)) package : (forall p, keeps_part in_flight (rec p)) ->
  keeps_part in_flight (build_only_step self host settings accepts review_required rec package).
Proof.
  intros Hrec s. unfold build_only_step, enter_dependency_build, enter_package_base, enter. unfold mbind at 1, B_bind at 1.
  case_bool_decide as Hp; [done|]. cbn [set_in_flight]. unfold mbind at 1, B_bind at 1, or_leave at 1. set (s1 := {| world_of := _ |}).
  pose proof (both_in_flight _ (quiet_resolve package) s1) as H1'. destruct (resolve_package_base package s1) as [s2 [base|e]]; cbn [fst snd] in *.
  2:{ cbn. rewrite H1'. cbn. set_solver. }
  generalize (package_base_marker base) (CircularBase base). intros marker circular. unfold mbind at 1, B_bind at 1, or_leave. case_bool_decide as Hb.
  { cbn. rewrite H1'. cbn. set_solver. }
  cbn [set_in_flight]. set (s3 := {| world_of := _ |}). unfold finally.
  pose proof (flight_inner rec Hrec package base s3) as H3'. destruct (build_only_inner _ _ _ _ _ _ _ _ s3) as [s4 r].
  unfold leave, mbind, B_bind, set_in_flight. cbn in *. rewrite H3', H1'. rewrite H1' in Hb. set_solver.
Qed.

Lemma flight_build_only fuel : forall package, keeps_part in_flight (build_only self host settings accepts review_required fuel package).
Proof. induction fuel as [|fuel IH]; intros package; [done|]. by apply flight_step. Qed.

(** * Termination *)

(** The AUR has finitely many packages. *)
Context (universe : gset rstr) (Huniverse : forall name w w', aur_info name w = (Some true, w') -> name ∈ universe).

(** How many packages may still be entered. *)
Definition room (f : gset rstr) : nat := size (universe ∖ f).

Definition never {A} (p : B A) : Prop := forall s, (p s).2 ≠ Err OutOfFuel.

Lemma never_bind {A C} (p : B A) (f : A -> B C) : never p -> (forall a, never (f a)) -> never (p ≫= f).
Proof. intros Hp Hf s. unfold mbind, B_bind. pose proof (Hp s) as Hs. destruct (p s) as [s1 [a|e]]; cbn in *; [apply Hf|]. congruence. Qed.

Lemma never_ret {A} (a : A) : never (mret a : B A).
Proof. done. Qed.

Lemma never_ask {A} (f : W -> A * W) : never (ask f).
Proof. intros s. unfold ask. by destruct (f (world_of s)). Qed.

Lemma never_look {A} (f : W -> A) : never (look f).
Proof. done. Qed.

Lemma never_note e : never (note e : B unit).
Proof. done. Qed.

Lemma never_ensure b e : e ≠ OutOfFuel -> never (pureB (ensure b e) : B unit).
Proof. intros He s. cbn. by destruct b; cbn; [|intros [=]]. Qed.

Lemma never_ok_or {A} (o : option A) e : e ≠ OutOfFuel -> never (pureB (ok_or o e) : B A).
Proof. intros He s. cbn. by destruct o; cbn; [|intros [=]]. Qed.

Lemma never_source {A} (r : result A ReviewError) : never (pureB (map_err FromSource r) : B A).
Proof. intros s. by destruct r. Qed.

Lemma never_name {A} (r : result A ValidationError) : never (pureB (map_err FromName r) : B A).
Proof. intros s. by destruct r. Qed.

Lemma never_check f e : e ≠ OutOfFuel -> never (check f e).
Proof. intros He. apply never_bind; [apply never_ask|]. intros. by apply never_ensure. Qed.

Create HintDb never.
#[local] Hint Resolve never_ret never_ask never_look never_note never_ensure never_ok_or never_source never_name never_check : never.
#[local] Hint Extern 0 (_ ≠ OutOfFuel) => discriminate : never.

Ltac never := repeat first [solve [auto with never]|apply never_bind; [solve [auto with never]|intros]|case_match].

Lemma never_update base : never (update_dependency_checkout base : B unit).
Proof.
  assert (never (pull_or_reclone base : B unit)) as Hpull by (unfold pull_or_reclone; never).
  unfold update_dependency_checkout. do 2 (apply never_bind; [auto with never|intros]). destruct (_ && _); [done|].
  apply never_bind; [destruct a; auto with never|auto with never].
Qed.

Lemma never_review base : never (review_source review_required base : B _).
Proof.
  unfold review_source. do 3 (apply never_bind; [auto with never|intros]). destruct review_required; [|never].
  apply never_bind; [auto with never|]. intros [[] ?]. never.
Qed.

Lemma never_official l : never (install_official_dependencies l : B unit).
Proof. destruct l; cbn; auto with never. Qed.

Lemma never_satisfied base outputs : never (ensure_dependencies_satisfied base outputs : B unit).
Proof. unfold ensure_dependencies_satisfied. never. Qed.

Lemma never_environment base source : never (build_environment base source : B _).
Proof. unfold build_environment. never. Qed.

Lemma never_build base source env outputs : never (verified_build base source env outputs : B _).
Proof. unfold verified_build. never. Qed.

Lemma never_authorize paths source base outputs fresh env : never (authorize_built self host settings accepts paths source base outputs fresh env : B _).
Proof.
  intros s. unfold authorize_built. destruct (rebuild_answers _ _ _ _) as [[r ran] w].
  destruct (authorize_with_paired_build _ _ _ _ _ _ _ _ _ _ _ _ _) as [c []]; done.
Qed.

Lemma never_install archives : never (install_archives self accepts archives : B unit).
Proof. intros s. unfold install_archives. by destruct (install_built_packages _ _ _ _ _ _) as [c [handoffs|e]]. Qed.

Lemma never_resolve name : never (resolve_package_base name : B _).
Proof.
  unfold resolve_package_base. apply never_bind; [auto with never|]. intros [c|]; [|auto with never]. intros s. unfold validated_package_base. cbn.
  by destruct (validate_package_name _).
Qed.

#[local] Hint Resolve never_update never_review never_official never_satisfied never_environment never_build never_authorize never_install never_resolve : never.

(** Dependencies that are built from the AUR are in the AUR. *)
Lemma classify_universe package l : forall acc s s' acc', classify_all package acc l s = (s', Ok acc') ->
  (forall d, d ∈ acc.1.1 -> d ∈ universe) -> forall d, d ∈ acc'.1.1 -> d ∈ universe.
Proof.
  induction l as [|[dep sat] l IH]; intros acc s s' acc' Hc Hacc; cbn [classify_all] in Hc; [unfold mret, B_ret in Hc; by simplify_eq|].
  unfold mbind at 1, B_bind at 1 in Hc. destruct (classify package acc (dep, sat) s) as [s1 [acc1|e]] eqn:E; [|done].
  eapply IH; [exact Hc|]. clear IH Hc. destruct acc as [[aur official] unresolved]. unfold classify in E. cbn [fst] in *.
  destruct (_ || _); [unfold mret, B_ret in E; by simplify_eq|]. destruct sat as [o|]; [unfold mret, B_ret in E; by simplify_eq|].
  unfold mbind, B_bind, ask in E. destruct (aur_info (dependency_name dep) (world_of s)) as [found w] eqn:Ei.
  destruct found as [[]|]; cbn in E; unfold mret, B_ret in E; simplify_eq; [|done].
  intros d [Hd| ->%list_elem_of_singleton]%elem_of_app; [by apply Hacc|]. by eapply Huniverse.
Qed.

Lemma plan_universe base package requested s s' plan : aur_dependency_plan base package requested s = (s', Ok plan) ->
  Forall (fun d => d ∈ universe) (aur_dependencies plan).
Proof.
  intros Hp. unfold aur_dependency_plan, mbind, B_bind, look, pureB in Hp. repeat (case_match; try done). unfold mret, B_ret in Hp. simplify_eq. cbn [aur_dependencies].
  apply Forall_forall. intros d Hd. rewrite elem_of_dedup_sort in Hd.
  match goal with Hc : classify_all _ _ _ _ = _ |- _ => eapply (classify_universe _ _ _ _ _ _ Hc); [set_solver|exact Hd] end.
Qed.

Lemma never_plan base package requested : never (aur_dependency_plan base package requested : B _).
Proof.
  assert (forall l acc, never (classify_all package acc l : B _)) as Hc.
  { induction l as [|d l IH]; intros acc; cbn [classify_all]; [auto with never|]. apply never_bind; [|auto]. unfold classify. never. }
  unfold aur_dependency_plan. do 6 (apply never_bind; [auto with never|intros]). apply never_bind; [auto|]. intros [[] ?]. never.
Qed.

(** * Enough fuel *)

(** [p] does not run out when fewer than [n] packages may be entered. *)
Definition lasts {A} (n : nat) (p : B A) : Prop := forall s, (room (in_flight s) < n)%nat -> (p s).2 ≠ Err OutOfFuel.

Lemma lasts_bind {A C} n (p : B A) (f : A -> B C) : lasts n p -> keeps_part in_flight p -> (forall a, lasts n (f a)) -> lasts n (p ≫= f).
Proof.
  intros Hp Hk Hf s Hs. unfold mbind, B_bind. pose proof (Hp s Hs) as Hr. pose proof (Hk s) as Hi.
  destruct (p s) as [s1 [a|e]]; cbn in *; [apply Hf; by rewrite Hi|congruence].
Qed.

Lemma lasts_never {A} n (p : B A) : never p -> lasts n p.
Proof. intros Hp s _. apply Hp. Qed.

Lemma lasts_dependencies n (rec : rstr -> B (list ArchiveSnapshot)) l : (forall p, keeps_part in_flight (rec p)) ->
  (forall p, p ∈ universe -> lasts n (rec p)) -> Forall (fun d => d ∈ universe) l -> lasts n (build_dependencies self accepts rec l).
Proof.
  intros Hk Hrec. induction 1 as [|d l Hd _ IH]; cbn [build_dependencies]; [by apply lasts_never|].
  apply lasts_bind; [by apply Hrec|apply Hk|intros]. apply lasts_bind; [apply lasts_never, never_install|apply flight_install|done].
Qed.

Lemma lasts_after_plan {C} n base package requested (f : AurDependencyPlan -> B C) :
  (forall plan, Forall (fun d => d ∈ universe) (aur_dependencies plan) -> lasts n (f plan)) ->
  lasts n (aur_dependency_plan base package requested ≫= f).
Proof.
  intros Hf s Hs. unfold mbind, B_bind. pose proof (never_plan base package requested s) as Hr. pose proof (both_in_flight _ (quiet_plan base package requested) s) as Hi.
  destruct (aur_dependency_plan base package requested s) as [s1 [plan|e]] eqn:E; cbn in *; [|congruence]. apply Hf; [by eapply plan_universe|by rewrite Hi].
Qed.

Ltac last_step := apply lasts_bind; [apply lasts_never; solve [auto with never]|solve [auto 4 with quiet]|intros].

Lemma lasts_inner n (rec : rstr -> B (list ArchiveSnapshot)) package base : (forall p, keeps_part in_flight (rec p)) ->
  (forall p, p ∈ universe -> lasts n (rec p)) -> lasts n (build_only_inner self host settings accepts review_required rec package base).
Proof.
  intros Hk Hrec. unfold build_only_inner. do 3 last_step. apply lasts_bind; [apply lasts_never, never_review|apply flight_review|intros source].
  last_step. apply lasts_after_plan. intros plan Hplan. last_step. apply lasts_bind; [by apply lasts_dependencies|by apply flight_dependencies|intros].
  apply lasts_never. do 3 (apply never_bind; [auto with never|intros]). apply never_bind; [never|intros]. never.
Qed.

Lemma room_enter f package : package ∈ universe -> (package ∉ f) -> (room ({[package]} ∪ f) < room f)%nat.
Proof. intros Hin Hout. unfold room. apply subset_size. set_solver. Qed.

Lemma room_grow f f' : f ⊆ f' -> (room f' <= room f)%nat.
Proof. intros Hf. unfold room. apply subseteq_size. set_solver. Qed.

Lemma lasts_step n (rec : rstr -> B (list ArchiveSnapshot)) package : (forall p, keeps_part in_flight (rec p)) ->
  (forall p, p ∈ universe -> lasts n (rec p)) -> package ∈ universe -> lasts (S n) (build_only_step self host settings accepts review_required rec package).
Proof.
  intros Hk Hrec Hin s Hs. unfold build_only_step, enter_dependency_build, enter_package_base, enter. unfold mbind at 1, B_bind at 1.
  case_bool_decide as Hp; [done|]. cbn [set_in_flight]. unfold mbind at 1, B_bind at 1, or_leave at 1. set (s1 := {| world_of := _ |}).
  pose proof (both_in_flight _ (quiet_resolve package) s1) as Hi. pose proof (never_resolve package s1) as Hn.
  destruct (resolve_package_base package s1) as [s2 [base|e]]; cbn [fst snd] in *; [|cbn; congruence].
  generalize (package_base_marker base). intros marker. unfold mbind at 1, B_bind at 1, or_leave. case_bool_decide as Hb; [done|].
  cbn [set_in_flight]. set (s3 := {| world_of := _ |}). unfold finally.
  assert (room (in_flight s3) < n)%nat as Hroom.
  { pose proof (room_enter (in_flight s) package Hin Hp). cbn [in_flight s3]. rewrite Hi. cbn [in_flight s1].
    pose proof (room_grow ({[package]} ∪ in_flight s) ({[marker]} ∪ ({[package]} ∪ in_flight s)) ltac:(set_solver)). lia. }
  pose proof (lasts_inner n rec package base Hk Hrec s3 Hroom). by destruct (build_only_inner _ _ _ _ _ _ _ _ s3) as [s4 r].
Qed.

Lemma lasts_build_only fuel : forall package, package ∈ universe -> lasts fuel (build_only self host settings accepts review_required fuel package).
Proof.
  induction fuel as [|fuel IH]; intros package Hin; [intros s Hs; lia|]. apply lasts_step; [apply flight_build_only|done|done].
Qed.

(** C14: Building dependencies ends. In an AUR of finitely many packages, however
    they depend on each other and whatever they answer from one question to
    the next, a dependency is built to an end within a depth of one more than
    the number of packages; a package or package base that is needed by itself
    is an error of its own; and on every way out the set of packages in
    flight is what it was before. *)
Theorem dependency_builds_end fuel package s :
  package ∈ universe -> (size universe < fuel)%nat ->
  (build_only self host settings accepts review_required fuel package s).2 ≠ Err OutOfFuel /\
  in_flight (build_only self host settings accepts review_required fuel package s).1 = in_flight s /\
  (package ∈ in_flight s -> (build_only self host settings accepts review_required fuel package s).2 = Err (CircularDependency package)).
Proof.
  intros Hin Hfuel. split_and!.
  - apply lasts_build_only; [done|]. eapply Nat.le_lt_trans; [|exact Hfuel]. unfold room. apply subseteq_size. set_solver.
  - apply flight_build_only.
  - intros Hp. destruct fuel as [|fuel]; [lia|]. cbn [build_only]. unfold build_only_step, enter_dependency_build, enter, mbind, B_bind.
    by rewrite bool_decide_eq_true_2.
Qed.
End proofs.

(** * A concrete request

    The package of [AurAuthorizeProofs], built twice because it has a hook. *)

#[local] Existing Instance tool_codec.
#[local] Existing Instance tool_parser.
#[local] Existing Instance sample_names.

Definition tool_output : OutputFile :=
  {| output_name := str "tool-1.0-1-any.pkg.tar.zst"; output_regular := true; output_content := Some [0x28; 0xb5; 0x2f; 0xfd; 1]; output_mtime := Some (Some 5) |}.

#[local] Instance tool_outside : Outside unit :=
  {| ready := fun _ w => (true, w); dir_exists := fun _ _ => false; pkgbuild_exists := fun _ _ => true; checkout_at := fun _ _ => tool_checkout;
     checkout_root := fun _ => []; git_pull := fun _ w => (true, w); git_clone := fun _ w => (true, w); remove_dir := fun _ w => (true, w);
     reviewer := fun _ w => (true, false, true, w); lossy := fun x => x; escape := fun c => [c]; fetch_keys := fun _ w => (true, w);
     rpc_base := fun _ w => (Some (Some (str "tool")), w); has_srcinfo := fun _ _ => true;
     check_dependencies_for_outputs := fun _ outputs _ => Some {| missing := []; package_outputs := outputs |};
     find_satisfier := fun _ => Some (fun _ => None); aur_info := fun name w => (Some (str_eqb name (str "tool")), w);
     install_official := fun _ w => (true, w); make_env := fun _ w => (Some {| makeflags := str "-j4"; extra_env := [] |}, w);
     run_build := fun _ _ w => (Some true, w); pkgdest := fun _ => str "/b"; pkgdest_listing := fun _ _ => Some [tool_output];
     looks_at := fun _ => tool_looks; terminal_at := fun _ => yes; transaction := fun _ w => (true, w) |}.

Definition first_build : Build unit := {| world_of := tt; client := initial_client; in_flight := ∅; trace := [] |}.

Definition tool_request : Build unit * result unit BuildError :=
  install_package_outputs 100 (str "x86_64") tool_settings log_all true 2 false true (str "tool") [str "tool"] first_build.

(** Both builds follow the review, and the package is installed. *)
Lemma tool_request_trace : is_ok tool_request.2 = true /\
  map is_run (trace tool_request.1) = [false; true; true; false].
Proof. split; vm_compute; reflexivity. Qed.


Lemma tool_universe (name : rstr) (w w' : unit) : aur_info name w = (Some true, w') -> name ∈ ({[str "tool"]} : gset rstr).
Proof. cbn. intros [= E _]. apply bool_decide_eq_true in E as ->. set_solver. Qed.

Lemma dependency_builds_end_witness :
  (build_only 100 (str "x86_64") tool_settings log_all true 2 (str "tool") first_build).2 ≠ Err OutOfFuel /\
  in_flight (build_only 100 (str "x86_64") tool_settings log_all true 2 (str "tool") first_build).1 = in_flight first_build /\
  (str "tool" ∈ in_flight first_build ->
   (build_only 100 (str "x86_64") tool_settings log_all true 2 (str "tool") first_build).2 = Err (CircularDependency (str "tool"))).
Proof.
  apply (dependency_builds_end 100 (str "x86_64") tool_settings log_all true {[str "tool"]} tool_universe 2 (str "tool") first_build).
  - apply elem_of_singleton. reflexivity.
  - rewrite size_singleton. lia.
Defined.
