(* ===== verification/MiseEnv.v ===== *)
(** Project environments: src/src/config/mise_env.rs, with the discovery of
    configuration files in src/src/config/mise_config.rs and the application
    of an environment to a command in src/src/core/task_runner.rs.

    TOML tables are association lists, in the order of the file. What the code
    asks of the file system and of the shell, the parsers of TOML and JSON, and
    the order in which a hash table is enumerated are the class [MiseWorld]. *)

From S2P Require Import Prelude RustPath Validation PacmanConf.
Open Scope Z_scope.
Open Scope omg_scope.

(** * Data *)

Inductive Toml :=
| TString (s : rstr)
| TInteger (n : Z)
| TFloat (text : rstr)
| TBoolean (b : bool)
| TDatetime (text : rstr)
| TArray (items : list Toml)
| TTable (entries : list (rstr * Toml)).

Inductive Json :=
| JNull
| JBool (b : bool)
| JNumber (text : rstr)
| JString (s : rstr)
| JArray (items : list Json)
| JObject (entries : list (rstr * Json)).

Inductive MiseError :=
| InvalidEnvName (name : rstr)
| UnclosedTemplate
| UnknownTemplate (var : rstr)
| NoConfigRoot
| UnsupportedTemplate (expression : rstr)
| TemplateFuel
| UnknownOption (name option : rstr)
| UnsupportedDefault (name : rstr)
| UnsupportedValue (name : rstr)
| MissingValue (name : rstr)
| DirectiveNeedsPath (directive : rstr)
| UnsupportedDirective (directive : rstr)
| UnknownFileOption (option : rstr)
| DirectivesNotTable
| UnknownDirective (directive : rstr)
| RedactionNotString
| OpenedNoDirectory
| ConfigIo
| NotRegularFile
| EnvFileTooLarge
| EnvFileNotUtf8
| MalformedLine (index : nat)
| NonScalar (key : rstr)
| EnvFileSyntax
| EnvFileNotTable
| YamlUnsupported
| RequiredMissing (name : rstr)
| ShellNotRun
| ShellFailed
| EnvFileMissing (path : rstr)
| TooManyConfigFiles
| TooManyFragments
| InvalidSelection (name : rstr)
| TaskNeedsTable
| TaskStrings (key : rstr)
| TaskProperty (key : rstr)
| TaskDependency (dependency : rstr)
| TaskDirectory
| TaskTemplate
| TaskConfigUnsupported
| TasksNotTable
| TooManyTasks
| MissingTask (name : rstr)
| TaskCycle (name : rstr)
| PlanFuel
| TaskFailed (name : rstr).

Inductive EnvAction :=
| Set_ (value : rstr)
| Default (value : rstr)
| Required (redact : bool)
| Unset.

Record EnvEntry := { entry_var : rstr; action : EnvAction; entry_tools_phase : bool; entry_redact : bool }.

Record EnvFileDirective := { file_path : rstr; file_redact : bool; file_tools_phase : bool; expand : bool }.

Record MiseEnv := {
  entries : list EnvEntry;
  paths : list (rstr * bool);
  files : list EnvFileDirective;
  sources : list (rstr * bool);
  redactions : list rstr
}.

Definition MiseEnv_default : MiseEnv := {| entries := []; paths := []; files := []; sources := []; redactions := [] |}.

Record ResolvedEnv := {
  set : list (rstr * rstr);
  unset : list rstr;
  path_additions : list rstr;
  scripts : list rstr;
  redacted : gset rstr
}.

Definition ResolvedEnv_default : ResolvedEnv := {| set := []; unset := []; path_additions := []; scripts := []; redacted := ∅ |}.

Abbreviation Env := (gmap rstr rstr) (only parsing).

(** What opening a file for reading without following links answers: the kind
    and size of the opened file, and the bytes up to its end. *)
Inductive ConfigOpen :=
| ConfigOpened (is_file : bool) (len : Z) (content : option (list Z))
| ConfigStatFailed
| ConfigNotFound
| ConfigNotDirectory
| ConfigOpenFailed.

Inductive ConfigListing :=
| Listed (names : list (option rstr))
| ListingMissing
| ListingFailed.

(** [shell_run shell script environment]: whether the shell exits with
    success, and its output. *)
Class MiseWorld := {
  open_config : rstr -> ConfigOpen;
  read_dir : rstr -> ConfigListing;
  toml_from_str : rstr -> option Toml;
  json_from_str : rstr -> option Json;
  bash_found : bool;
  shell_run : rstr -> option rstr -> gmap rstr rstr -> option (bool * list Z);
  hash_iter : gmap rstr rstr -> list (rstr * rstr)
}.

Class MiseWorldLaws `{MiseWorld} := {
  hash_iter_perm m : hash_iter m ≡ₚ map_to_list m
}.

(** ** Values *)

Fixpoint tget (key : rstr) (table : list (rstr * Toml)) : option Toml :=
  match table with
  | [] => None
  | (k, v) :: table => if str_eqb k key then Some v else tget key table
  end.

Definition as_str (v : Toml) : option rstr := match v with TString s => Some s | _ => None end.
Definition as_bool (v : Toml) : option bool := match v with TBoolean b => Some b | _ => None end.
Definition as_table (v : Toml) : option (list (rstr * Toml)) := match v with TTable t => Some t | _ => None end.
Definition as_array (v : Toml) : option (list Toml) := match v with TArray l => Some l | _ => None end.
Definition toml_field (v : Toml) (key : rstr) : option Toml := as_table v ≫= tget key.

(** [table.get(key).and_then(as_bool).unwrap_or(false)]. *)
Definition flag (table : list (rstr * Toml)) (key : rstr) : bool := default false (tget key table ≫= as_bool).

Definition i64_to_string (n : Z) : rstr := if n <? 0 then ch "-" :: to_string (- n) else to_string n.

Definition bool_to_string (b : bool) : rstr := if b then str "true" else str "false".

Fixpoint join_with (sep : rstr) (l : list rstr) : rstr :=
  match l with
  | [] => []
  | [x] => x
  | x :: l => x ++ sep ++ join_with sep l
  end.

(** * Names and patterns *)

Fixpoint glob_parts (parts : list rstr) (rest : rstr) : option rstr :=
  match parts with
  | [] => Some rest
  | part :: parts =>
      if str_eqb part [] then glob_parts parts rest
      else match parts with
           | [] => Some rest
           | _ => match split_once_str part rest with Some (_, rest) => glob_parts parts rest | None => None end
           end
  end.

Definition glob_match (pattern name : rstr) : bool :=
  if str_eqb pattern (str "*") then true
  else
    let parts := split_char (ch "*") pattern in
    if bool_decide (length parts = 1%nat) then str_eqb pattern name
    else match (if starts_with (str "*") pattern then Some name else strip_prefix (hd [] parts) name) with
         | None => false
         | Some rest =>
             match glob_parts (tail parts) rest with
             | None => false
             | Some rest => if ends_with (str "*") pattern then true else ends_with (List.last parts []) rest
             end
         end.

Definition is_redacted (name : rstr) (entry_redact : bool) (patterns : list rstr) : bool :=
  entry_redact || existsb (fun pattern => glob_match pattern name) patterns.

Definition identifier_char (c : char) : bool := is_ascii_alphanumeric c || (c =? ch "_").

Definition validate_env_name (name : rstr) : result unit MiseError :=
  ensure (match name with
          | [] => false
          | c :: rest => (is_ascii_alphabetic c || (c =? ch "_")) && forallb identifier_char rest
          end) (InvalidEnvName name).

Definition PATH : rstr := str "PATH".

(** [format!("{}:{current}", dirs.join(":"))], without the colon when [current]
    is empty. *)
Definition prepend_path (dirs : list rstr) (current : rstr) : rstr :=
  match current with [] => join_with (str ":") dirs | _ => join_with (str ":") dirs ++ ch ":" :: current end.

Definition with_path_overlay (base : Env) (tool_bins : list rstr) : Env :=
  match tool_bins with
  | [] => base
  | _ => <[PATH := prepend_path tool_bins (default [] (base !! PATH))]> base
  end.

(** * Templates *)

Definition CONFIG_ROOT : rstr := 0 :: str "config_root".

Definition expand_expression (lookup : rstr -> option rstr) (expression : rstr) : result rstr MiseError :=
  match strip_prefix (str "env.") expression with
  | Some var => ok_or (lookup (trim var)) (UnknownTemplate (trim var))
  | None =>
      if str_eqb expression (str "config_root") then ok_or (lookup CONFIG_ROOT) NoConfigRoot
      else Err (UnsupportedTemplate expression)
  end.

Fixpoint expand_templates_from (fuel : nat) (lookup : rstr -> option rstr) (output rest : rstr) : result rstr MiseError :=
  match fuel with
  | O => Err TemplateFuel
  | S fuel =>
      match split_once_str (str "{{") rest with
      | None => Ok (output ++ rest)
      | Some (before, after) =>
          match split_once_str (str "}}") after with
          | None => Err UnclosedTemplate
          | Some (expression, rest) =>
              let? value := expand_expression lookup (trim expression) in
              expand_templates_from fuel lookup (output ++ before ++ value) rest
          end
      end
  end.

Definition expand_templates (value : rstr) (lookup : rstr -> option rstr) : result rstr MiseError :=
  expand_templates_from (S (length value)) lookup [] value.

(** [chars.next_if] in a loop: the longest prefix of such characters. *)
Definition take_while (p : char -> bool) (s : rstr) : rstr * rstr := span_not (fun c => negb (p c)) s.

(** [$NAME] and [${NAME}]; every turn of the loop takes a character. *)
Fixpoint expand_dollar_from (fuel : nat) (lookup : rstr -> option rstr) (value : rstr) : rstr :=
  match fuel with
  | O => []
  | S fuel =>
      match value with
      | [] => []
      | c :: value =>
          if negb (c =? ch "$") then c :: expand_dollar_from fuel lookup value
          else match value with
               | d :: braced =>
                   if d =? ch "{" then
                     let '(name, rest) := take_while (fun c => negb (c =? ch "}")) braced in
                     match rest with
                     | [] => str "${" ++ name
                     | _ :: rest => default [] (lookup name) ++ expand_dollar_from fuel lookup rest
                     end
                   else if is_ascii_alphabetic d || (d =? ch "_") then
                     let '(name, rest) := take_while identifier_char value in
                     default [] (lookup name) ++ expand_dollar_from fuel lookup rest
                   else ch "$" :: expand_dollar_from fuel lookup value
               | [] => [ch "$"]
               end
      end
  end.

Definition expand_dollar (value : rstr) (lookup : rstr -> option rstr) : rstr :=
  expand_dollar_from (length value) lookup value.

(** * Declarations *)

Definition scalar_text (v : Toml) : option rstr :=
  match v with TString s => Some s | TInteger n => Some (i64_to_string n) | _ => None end.

Definition allowed_keys (allowed : list rstr) (unknown : rstr -> MiseError) (table : list (rstr * Toml)) : result unit MiseError :=
  for_each (fun _ kv => ensure (existsb (str_eqb kv.1) allowed) (unknown kv.1)) tt table.

Definition ENTRY_OPTIONS : list rstr := map str ["value"; "default"; "required"; "tools"; "redact"].

Definition table_action (name : rstr) (table : list (rstr * Toml)) : result EnvAction MiseError :=
  match tget (str "default") table with
  | Some fallback => let? text := ok_or (scalar_text fallback) (UnsupportedDefault name) in Ok (Default text)
  | None =>
      if flag table (str "required") then Ok (Required (flag table (str "redact")))
      else match tget (str "value") table with
           | Some value => let? text := ok_or (scalar_text value) (UnsupportedValue name) in Ok (Set_ text)
           | None => Err (MissingValue name)
           end
  end.

Definition parse_entry (name : rstr) (spec : Toml) : result EnvEntry MiseError :=
  validate_env_name name ;?
  let entry action tools redact := {| entry_var := name; action := action; entry_tools_phase := tools; entry_redact := redact |} in
  match spec with
  | TString value => Ok (entry (Set_ value) false false)
  | TInteger n => Ok (entry (Set_ (i64_to_string n)) false false)
  | TBoolean false => Ok (entry Unset false false)
  | TBoolean true => Ok (entry (Set_ (str "true")) false false)
  | TTable table =>
      allowed_keys ENTRY_OPTIONS (UnknownOption name) table ;?
      let? a := table_action name table in
      Ok (entry a (flag table (str "tools")) (flag table (str "redact")))
  | _ => Err (UnsupportedValue name)
  end.

(** [table.get("path")], or one of the older spellings. *)
Definition path_field (table : list (rstr * Toml)) : option Toml :=
  match tget (str "path") table with
  | Some v => Some v
  | None => match tget (str "value") table with Some v => Some v | None => tget (str "values") table end
  end.

Definition directive_path (directive : rstr) (item : Toml) : result (list (rstr * bool)) MiseError :=
  match item with
  | TString path => Ok [(path, false)]
  | TTable table =>
      let? paths := match path_field table with
                    | Some (TString path) => Ok [path]
                    | Some (TArray paths) => try_map (fun p => ok_or (as_str p) (DirectiveNeedsPath directive)) paths
                    | _ => Err (DirectiveNeedsPath directive)
                    end in
      Ok (map (fun p => (p, flag table (str "tools"))) paths)
  | _ => Err (UnsupportedDirective directive)
  end.

Definition directive_paths (spec : Toml) (directive : rstr) : result (list (rstr * bool)) MiseError :=
  match spec with
  | TArray items => for_each (fun merged item => let? more := directive_path directive item in Ok (merged ++ more)) [] items
  | single => directive_path directive single
  end.

Definition FILE_OPTIONS : list rstr := map str ["path"; "value"; "values"; "redact"; "tools"; "expand"].

Definition parse_file_directive (item : Toml) : result EnvFileDirective MiseError :=
  match item with
  | TString path => Ok {| file_path := path; file_redact := false; file_tools_phase := false; expand := false |}
  | TTable table =>
      let? path := ok_or (path_field table ≫= as_str) (DirectiveNeedsPath (str "_.file")) in
      allowed_keys FILE_OPTIONS UnknownFileOption table ;?
      Ok {| file_path := path; file_redact := flag table (str "redact"); file_tools_phase := flag table (str "tools");
            expand := flag table (str "expand") |}
  | _ => Err (UnsupportedDirective (str "_.file"))
  end.

Definition resolve_against (path config_root : rstr) : rstr :=
  if starts_with (str "/") path then path else join_path config_root path.

Definition add_paths (parsed : MiseEnv) (more : list (rstr * bool)) : MiseEnv :=
  {| entries := entries parsed; paths := paths parsed ++ more; files := files parsed; sources := sources parsed; redactions := redactions parsed |}.
Definition add_files (parsed : MiseEnv) (more : list EnvFileDirective) : MiseEnv :=
  {| entries := entries parsed; paths := paths parsed; files := files parsed ++ more; sources := sources parsed; redactions := redactions parsed |}.
Definition add_sources (parsed : MiseEnv) (more : list (rstr * bool)) : MiseEnv :=
  {| entries := entries parsed; paths := paths parsed; files := files parsed; sources := sources parsed ++ more; redactions := redactions parsed |}.
Definition add_entry (parsed : MiseEnv) (entry : EnvEntry) : MiseEnv :=
  {| entries := entries parsed ++ [entry]; paths := paths parsed; files := files parsed; sources := sources parsed; redactions := redactions parsed |}.
Definition add_redaction (parsed : MiseEnv) (pattern : rstr) : MiseEnv :=
  {| entries := entries parsed; paths := paths parsed; files := files parsed; sources := sources parsed; redactions := redactions parsed ++ [pattern] |}.

Definition resolved_file (config_root : rstr) (entry : EnvFileDirective) : EnvFileDirective :=
  {| file_path := resolve_against (file_path entry) config_root; file_redact := file_redact entry;
     file_tools_phase := file_tools_phase entry; expand := expand entry |}.

Definition parse_directive (config_root : rstr) (parsed : MiseEnv) (kv : rstr * Toml) : result MiseEnv MiseError :=
  let '(directive, value) := kv in
  let located := map (fun p : rstr * bool => (resolve_against p.1 config_root, p.2)) in
  if str_eqb directive (str "path") then
    let? more := directive_paths value (str "_.path") in Ok (add_paths parsed (located more))
  else if str_eqb directive (str "file") then
    for_each (fun parsed item => let? entry := parse_file_directive item in Ok (add_files parsed [resolved_file config_root entry]))
      parsed (match value with TArray items => items | single => [single] end)
  else if str_eqb directive (str "source") then
    let? more := directive_paths value (str "_.source") in Ok (add_sources parsed (located more))
  else Err (UnknownDirective directive).

Definition parse_variable (config_root : rstr) (parsed : MiseEnv) (kv : rstr * Toml) : result MiseEnv MiseError :=
  let '(name, spec) := kv in
  if str_eqb name (str "_") then
    let? directives := ok_or (as_table spec) DirectivesNotTable in
    for_each (parse_directive config_root) parsed directives
  else let? entry := parse_entry name spec in Ok (add_entry parsed entry).

Definition parse_mise_env (document : Toml) (config_root : rstr) : result MiseEnv MiseError :=
  match toml_field document (str "env") ≫= as_table with
  | None => Ok MiseEnv_default
  | Some env =>
      let? parsed := for_each (parse_variable config_root) MiseEnv_default env in
      for_each (fun parsed pattern => let? p := ok_or (as_str pattern) RedactionNotString in Ok (add_redaction parsed p))
        parsed (default [] (toml_field document (str "redactions") ≫= as_array))
  end.

(** * Files *)

Definition MAX_ENV_FILE_BYTES : Z := 1024 * 1024.

Section world.
Context `{MiseWorld}.

Definition read_bounded_regular_file (path : rstr) : result (option rstr) MiseError :=
  match open_config path with
  | ConfigNotFound => Ok None
  | ConfigNotDirectory => Err OpenedNoDirectory
  | ConfigOpenFailed => Err ConfigIo
  | ConfigStatFailed => Err ConfigIo
  | ConfigOpened is_file len content =>
      ensure is_file NotRegularFile ;?
      ensure (len <=? MAX_ENV_FILE_BYTES) EnvFileTooLarge ;?
      let? bytes := ok_or content ConfigIo in
      let buffer := take (Z.to_nat (MAX_ENV_FILE_BYTES + 1)) bytes in
      ensure (Z.of_nat (length buffer) <=? MAX_ENV_FILE_BYTES) EnvFileTooLarge ;?
      let? text := ok_or (decode_utf8 buffer) EnvFileNotUtf8 in
      Ok (Some text)
  end.

Definition is_quoted (q : char) (value : rstr) : bool := starts_with [q] value && ends_with [q] value.

(** The value between quotes, or up to a comment. *)
Definition dotenv_value (value : rstr) : rstr :=
  if (2 <=? str_len value) && (is_quoted 34 value || is_quoted (ch "'") value)
  then removelast (tail value)
  else trim_end (match split_once_str (str " #") value with Some (before, _) => before | None => value end).

Definition dotenv_line (st : nat * list (rstr * rstr)) (raw_line : rstr) : result (nat * list (rstr * rstr)) MiseError :=
  let '(index, pairs) := st in
  let line := trim raw_line in
  if str_eqb line [] || starts_with (str "#") line then Ok (S index, pairs)
  else
    let line := match strip_prefix (str "export ") line with Some rest => trim rest | None => line end in
    let? kv := ok_or (split_once (ch "=") line) (MalformedLine (S index)) in
    let key := trim kv.1 in
    validate_env_name key ;?
    Ok (S index, pairs ++ [(key, dotenv_value (trim kv.2))]).

Definition parse_dotenv (content : rstr) : result (list (rstr * rstr)) MiseError :=
  let? st := for_each dotenv_line (O, []) (byte_lines content) in Ok st.2.

Definition flat_scalar (value : Json) (key : rstr) : result (option rstr) MiseError :=
  match value with
  | JString text => Ok (Some text)
  | JNumber text => Ok (Some text)
  | JBool b => Ok (Some (bool_to_string b))
  | JNull => Ok None
  | _ => Err (NonScalar key)
  end.

Definition json_pair (pairs : list (rstr * rstr)) (kv : rstr * Json) : result (list (rstr * rstr)) MiseError :=
  validate_env_name kv.1 ;?
  let? text := flat_scalar kv.2 kv.1 in
  Ok (match text with Some text => pairs ++ [(kv.1, text)] | None => pairs end).

Definition toml_pair (pairs : list (rstr * rstr)) (kv : rstr * Toml) : result (list (rstr * rstr)) MiseError :=
  validate_env_name kv.1 ;?
  match kv.2 with
  | TString text => Ok (pairs ++ [(kv.1, text)])
  | TInteger n => Ok (pairs ++ [(kv.1, i64_to_string n)])
  | TBoolean b => Ok (pairs ++ [(kv.1, bool_to_string b)])
  | _ => Err (NonScalar kv.1)
  end.

Definition env_file_pairs (extension content : rstr) : result (list (rstr * rstr)) MiseError :=
  if str_eqb extension (str "json") then
    let? parsed := ok_or (json_from_str content) EnvFileSyntax in
    match parsed with JObject table => for_each json_pair [] table | _ => Err EnvFileNotTable end
  else if str_eqb extension (str "toml") then
    let? parsed := ok_or (toml_from_str content) EnvFileSyntax in
    let? table := ok_or (as_table parsed) EnvFileNotTable in
    for_each toml_pair [] table
  else if str_eqb extension (str "yaml") || str_eqb extension (str "yml") then Err YamlUnsupported
  else parse_dotenv content.

Definition load_env_file (directive : EnvFileDirective) : result (option (list (rstr * rstr))) MiseError :=
  let? content := read_bounded_regular_file (file_path directive) in
  match content with
  | None => Ok None
  | Some content =>
      let? pairs := env_file_pairs (to_ascii_lowercase (default [] (path_extension (file_path directive)))) content in
      Ok (Some pairs)
  end.

(** * Resolution *)

Inductive Strictness := Strict | Lenient.

Record Resolver := {
  base : gmap rstr rstr;
  config_root : rstr;
  assigned : list (rstr * rstr);
  index : gmap rstr nat;
  removed : list rstr;
  masked : gset rstr;
  patterns : list rstr;
  strict : Strictness;
  warned : bool
}.

Definition new_resolver (base : Env) (config_root : rstr) (patterns : list rstr) (strict : Strictness) : Resolver :=
  {| base := base; config_root := config_root; assigned := []; index := ∅; removed := []; masked := ∅;
     patterns := patterns; strict := strict; warned := false |}.

Definition set_warned (r : Resolver) : Resolver :=
  {| base := base r; config_root := config_root r; assigned := assigned r; index := index r; removed := removed r;
     masked := masked r; patterns := patterns r; strict := strict r; warned := true |}.

Definition lookup_var (r : Resolver) (name : rstr) : option rstr :=
  if str_eqb name CONFIG_ROOT then Some (config_root r)
  else if existsb (str_eqb name) (removed r) then None
  else match index r !! name ≫= fun position => assigned r !! position with
       | Some (_, value) => Some value
       | None => base r !! name
       end.

Definition without (name : rstr) (names : list rstr) : list rstr := List.filter (fun n => negb (str_eqb n name)) names.

(** Overwrite the value of a name in place, or append it; [index] holds the
    position of every name, see [slots_ok]. *)
Definition put_slot (slots : list (rstr * rstr)) (index : gmap rstr nat) (name value : rstr) : list (rstr * rstr) * gmap rstr nat :=
  match index !! name with
  | Some position => (<[position := (name, value)]> slots, index)
  | None => (slots ++ [(name, value)], <[name := length slots]> index)
  end.

Definition assign (r : Resolver) (name value : rstr) (redact : bool) : Resolver :=
  let '(assigned, index) := put_slot (assigned r) (index r) name value in
  {| base := base r; config_root := config_root r; assigned := assigned; index := index; removed := without name (removed r);
     masked := if is_redacted name redact (patterns r) then {[name]} ∪ masked r else masked r;
     patterns := patterns r; strict := strict r; warned := warned r |}.

(** Positions of the assignments, later ones first when a name repeats. *)
Fixpoint positions (slot : nat) (l : list (rstr * rstr)) (index : gmap rstr nat) : gmap rstr nat :=
  match l with
  | [] => index
  | (key, _) :: l => positions (S slot) l (<[key := slot]> index)
  end.

Definition remove (r : Resolver) (name : rstr) : Resolver :=
  let '(assigned, index) :=
    match index r !! name with
    | Some position => let assigned := delete position (assigned r) in (assigned, positions 0 assigned ∅)
    | None => (assigned r, index r)
    end in
  {| base := base r; config_root := config_root r; assigned := assigned; index := index;
     removed := if existsb (str_eqb name) (removed r) then removed r else removed r ++ [name];
     masked := masked r; patterns := patterns r; strict := strict r; warned := warned r |}.

Definition is_blank (value : option rstr) : bool := match value with None | Some [] => true | _ => false end.

Definition apply_entry (r : Resolver) (entry : EnvEntry) (tools_phase : bool) : result (Resolver * bool) MiseError :=
  if negb (Bool.eqb (entry_tools_phase entry) tools_phase) then Ok (r, false)
  else
    let assign_ r value := assign r (entry_var entry) value (entry_redact entry) in
    let? r := match action entry with
              | Set_ raw => let? value := expand_templates raw (lookup_var r) in Ok (assign_ r value)
              | Default raw =>
                  let current := lookup_var r (entry_var entry) in
                  if is_blank current then let? value := expand_templates raw (lookup_var r) in Ok (assign_ r value)
                  else Ok (match current with Some value => assign_ r value | None => r end)
              | Required _ =>
                  let current := lookup_var r (entry_var entry) in
                  if is_blank current then
                    match strict r with Strict => Err (RequiredMissing (entry_var entry)) | Lenient => Ok (set_warned r) end
                  else Ok (match current with Some value => assign_ r value | None => r end)
              | Unset => Ok (remove r (entry_var entry))
              end in
    Ok (r, true).

Definition apply_pair (directive : EnvFileDirective) (r : Resolver) (kv : rstr * rstr) : Resolver :=
  assign r kv.1 (if expand directive then expand_dollar kv.2 (lookup_var r) else kv.2) (file_redact directive).

Definition apply_file (r : Resolver) (directive : EnvFileDirective) (pairs : list (rstr * rstr)) (tools_phase : bool) : Resolver :=
  if negb (Bool.eqb (file_tools_phase directive) tools_phase) then r else foldl (apply_pair directive) r pairs.

(** ** Scripts *)

Definition nul_record (vars : gmap rstr rstr) (record : list Z) : gmap rstr rstr :=
  match decode_utf8 record ≫= split_once (ch "=") with
  | Some (key, value) => if negb (str_eqb key []) && is_ok (validate_env_name key) then <[key := value]> vars else vars
  | None => vars
  end.

Definition parse_nul_env (output : list Z) : gmap rstr rstr := foldl nul_record ∅ (split_char 0 output).

Definition snapshot (shell : rstr) (script : option rstr) (env : Env) : result (gmap rstr rstr) MiseError :=
  let? answer := ok_or (shell_run shell script env) ShellNotRun in
  ensure answer.1 ShellFailed ;?
  Ok (parse_nul_env answer.2).

Definition eval_sourced_file (script : rstr) (env : Env) : result ResolvedEnv MiseError :=
  let shell := if bash_found then str "bash" else str "sh" in
  let? before := snapshot shell None env in
  let? after := snapshot shell (Some script) env in
  Ok {| set := List.filter (fun kv => negb (bool_decide (before !! kv.1 = Some kv.2))) (hash_iter after);
        unset := List.filter (fun key => negb (bool_decide (is_Some (after !! key)))) (map fst (hash_iter before));
        path_additions := []; scripts := []; redacted := ∅ |}.

(** [HashMap::extend] and the removal of names. *)
Definition extend (env : Env) (l : list (rstr * rstr)) : gmap rstr rstr := foldl (fun env kv => <[kv.1 := kv.2]> env) env l.
Definition remove_all (env : Env) (l : list rstr) : gmap rstr rstr := foldl (fun env name => delete name env) env l.

Definition run_source (r : Resolver) (script : rstr) : result Resolver MiseError :=
  let? sourced := eval_sourced_file script (remove_all (extend (base r) (assigned r)) (removed r)) in
  let r := foldl (fun r kv => assign r kv.1 kv.2 false) r (set sourced) in
  Ok (foldl remove r (unset sourced)).

Definition of_phase (tools_phase : bool) (l : list (rstr * bool)) : list rstr :=
  map fst (List.filter (fun p => Bool.eqb p.2 tools_phase) l).

Definition apply_paths (r : Resolver) (dirs : list rstr) : Resolver :=
  match dirs with
  | [] => r
  | _ => assign r PATH (prepend_path dirs (default [] (lookup_var r PATH))) false
  end.

Definition resolve_phase (parsed : MiseEnv) (file_pairs : list (EnvFileDirective * list (rstr * rstr))) (r : Resolver) (tools_phase : bool)
    : result Resolver MiseError :=
  let r := foldl (fun r fp => apply_file r fp.1 fp.2 tools_phase) r file_pairs in
  let? r := for_each (fun r entry => let? rb := apply_entry r entry tools_phase in Ok rb.1) r (entries parsed) in
  let r := apply_paths r (of_phase tools_phase (paths parsed)) in
  for_each run_source r (of_phase tools_phase (sources parsed)).

Definition resolve_one (parsed : MiseEnv) (file_pairs : list (EnvFileDirective * list (rstr * rstr))) (base : Env) (config_root : rstr)
    (patterns : list rstr) (strict : Strictness) : result ResolvedEnv MiseError :=
  let? r := for_each (resolve_phase parsed file_pairs) (new_resolver base config_root patterns strict) [false; true] in
  Ok {| set := assigned r; unset := removed r; path_additions := []; scripts := []; redacted := masked r |}.

Definition resolve_task_env (parsed : MiseEnv) (base : Env) (config_root : rstr) : result ResolvedEnv MiseError :=
  let? file_pairs := try_map (fun directive =>
    let? pairs := load_env_file directive in
    let? pairs := ok_or pairs (EnvFileMissing (file_path directive)) in
    Ok (directive, pairs)) (files parsed) in
  resolve_one parsed file_pairs base config_root (redactions parsed) Strict.

(** * Layers *)

Definition merge_set (st : ResolvedEnv * gmap rstr nat) (kv : rstr * rstr) : ResolvedEnv * gmap rstr nat :=
  let '(acc, index) := st in
  let '(slots, index) := put_slot (set acc) index kv.1 kv.2 in
  ({| set := slots; unset := without kv.1 (unset acc); path_additions := path_additions acc; scripts := scripts acc; redacted := redacted acc |}, index).

Definition merge_unset (acc : ResolvedEnv) (name : rstr) : ResolvedEnv :=
  {| set := List.filter (fun kv => negb (str_eqb kv.1 name)) (set acc);
     unset := if existsb (str_eqb name) (unset acc) then unset acc else unset acc ++ [name];
     path_additions := path_additions acc; scripts := scripts acc; redacted := redacted acc |}.

Definition merge_chain (acc next : ResolvedEnv) : ResolvedEnv :=
  let '(acc, _) := foldl merge_set (acc, positions 0 (set acc) ∅) (set next) in
  let acc := foldl merge_unset acc (unset next) in
  {| set := set acc; unset := unset acc; path_additions := path_additions acc ++ path_additions next;
     scripts := foldl (fun l script => if existsb (str_eqb script) l then l else l ++ [script]) (scripts acc) (scripts next);
     redacted := redacted acc ∪ redacted next |}.
End world.
