(* ===== verification/MiseConfig.v ===== *)
(** Configuration files of a project and its environment: the discovery in
    src/src/config/mise_config.rs, the chain of layers in
    src/src/config/mise_env.rs and its application to a command in
    src/src/core/task_runner.rs.

    The start directory is absolute and is given by its names, as the working
    directory is; paths are Unicode. *)

From S2P Require Import Prelude RustPath Validation PacmanConf MiseEnv.
Open Scope Z_scope.
Open Scope omg_scope.

Definition MAX_CONFIG_FILES : Z := 256.
Definition MAX_FRAGMENTS : Z := 256.

Record Document := { document_path : rstr; document_root : rstr; document_value : Toml }.

Definition retain_push (selected : list rstr) (name : rstr) : list rstr := without name selected ++ [name].

Definition select_environment (selected : list rstr) (name : rstr) : result (list rstr) MiseError :=
  let name := trim name in
  if str_eqb name [] then Ok selected
  else
    ensure (forallb (fun c => is_ascii_alphanumeric c || contains_char c (str "_-")) name) (InvalidSelection name) ;?
    Ok (retain_push selected name).

Definition selected_environments (env : Env) : result (list rstr) MiseError :=
  match env !! str "MISE_ENV" with
  | None => Ok []
  | Some value => for_each select_environment [] (split_char (ch ",") value)
  end.

(** Equality of paths is equality of their components. *)
Definition path_eqb (a b : rstr) : bool := bool_decide (path_components a = path_components b).

Definition path_of (names : list rstr) : rstr := ch "/" :: join_slash names.

(** [Path::ancestors], from the root downwards. *)
Definition ancestors_rev (start : list rstr) : list rstr := map (fun n => path_of (take n start)) (seq 0 (S (length start))).

Record Discovery := { documents : list Document; seen : list rstr }.

Section world.
Context `{MiseWorld}.

Definition LEGACY_ALIASES : list rstr := map str [".config/mise/mise.toml"; ".config/mise/mise.local.toml"].

Definition add_document (root : rstr) (d : Discovery) (path : rstr) : result Discovery MiseError :=
  if existsb (path_eqb path) (seen d) then Ok d
  else match read_bounded_regular_file path with
       | Err OpenedNoDirectory => Ok d
       | Err e => Err e
       | Ok None => Ok d
       | Ok (Some text) =>
           ensure (Z.of_nat (length (documents d)) <? MAX_CONFIG_FILES) TooManyConfigFiles ;?
           let? value := ok_or (toml_from_str text) EnvFileSyntax in
           let config_root :=
             if existsb (fun name => path_eqb path (join_path root name)) LEGACY_ALIASES then join_path root (str ".config/mise") else root in
           Ok {| documents := documents d ++ [{| document_path := path; document_root := config_root; document_value := value |}];
                 seen := seen d ++ [path] |}
       end.

Definition collect_fragment (directory : rstr) (files : list rstr) (entry : option rstr) : result (list rstr) MiseError :=
  let? name := ok_or entry ConfigIo in
  let path := join_path directory name in
  if bool_decide (path_extension path = Some (str "toml")) && negb (starts_with (str ".") name) then
    ensure (Z.of_nat (length files) <? MAX_FRAGMENTS) TooManyFragments ;?
    Ok (files ++ [path])
  else Ok files.

Definition add_fragments (root : rstr) (d : Discovery) (directory : rstr) : result Discovery MiseError :=
  match read_dir directory with
  | ListingMissing => Ok d
  | ListingFailed => Err ConfigIo
  | Listed names =>
      let? files := for_each (collect_fragment directory) [] names in
      for_each (add_document root) d (sort_strs files)
  end.

Definition add_group (root : rstr) (d : Discovery) (group : rstr) : result Discovery MiseError :=
  let? d := add_fragments root d (join_path (join_path root group) (str "conf.d")) in
  let? d := add_document root d (join_path (join_path root group) (str "config.toml")) in
  if str_eqb group (str ".config/mise") then
    let? d := add_document root d (join_path root (str ".config/mise/mise.toml")) in
    add_document root d (join_path root (str ".config/mise.toml"))
  else Ok d.

Definition GROUPS : list rstr := map str [".config/mise"; ".mise"; "mise"].
Definition MAIN_NAMES : list rstr := map str ["mise.toml"; ".mise.toml"].
Definition LOCAL_NAMES : list rstr := map str
  [".config/mise/config.local.toml"; ".config/mise/mise.local.toml"; ".config/mise.local.toml"; ".mise/config.local.toml";
   "mise/config.local.toml"; "mise.local.toml"; ".mise.local.toml"].
Definition STEMS : list rstr := map str [".config/mise/config"; ".config/mise"; "mise/config"; "mise"; ".mise/config"; ".mise"].

Definition add_selected (root : rstr) (d : Discovery) (selected : rstr) : result Discovery MiseError :=
  let? d := for_each (fun d stem => add_document root d (join_path root (stem ++ ch "." :: selected ++ str ".toml"))) d STEMS in
  for_each (fun d stem => add_document root d (join_path root (stem ++ ch "." :: selected ++ str ".local.toml"))) d STEMS.

Definition append_directory (selected : list rstr) (d : Discovery) (root : rstr) : result Discovery MiseError :=
  let? d := for_each (add_group root) d GROUPS in
  let? d := for_each (fun d name => add_document root d (join_path root name)) d (MAIN_NAMES ++ LOCAL_NAMES) in
  for_each (add_selected root) d selected.

Definition load_roots (roots : list rstr) (env : Env) : result (list Document) MiseError :=
  let? selected := selected_environments env in
  let? d := for_each (append_directory selected) {| documents := []; seen := [] |} roots in
  Ok (documents d).

Definition load (start : list rstr) (env : Env) : result (list Document) MiseError := load_roots (ancestors_rev start) env.

Definition load_directory (root : rstr) (env : Env) : result (list Document) MiseError := load_roots [root] env.

(** * The chain of layers *)

Record Chain := { merged : ResolvedEnv; effective : gmap rstr rstr; chain_patterns : list rstr }.

Definition load_pairs (strict : Strictness) (pairs : list (EnvFileDirective * list (rstr * rstr))) (directive : EnvFileDirective)
    : result (list (EnvFileDirective * list (rstr * rstr))) MiseError :=
  let? loaded := load_env_file directive in
  match loaded, strict with
  | Some loaded, _ => Ok (pairs ++ [(directive, loaded)])
  | None, Strict => Err (EnvFileMissing (file_path directive))
  | None, Lenient => Ok pairs
  end.

Definition chain_layer (strict : Strictness) (c : Chain) (document : Document) : result Chain MiseError :=
  let? parsed := parse_mise_env (document_value document) (document_root document) in
  let patterns := chain_patterns c ++ redactions parsed in
  let? file_pairs := for_each (load_pairs strict) [] (files parsed) in
  let? resolved := resolve_one parsed file_pairs (effective c) (document_root document) patterns strict in
  Ok {| merged := merge_chain (merged c) resolved; effective := remove_all (extend (effective c) (set resolved)) (unset resolved);
        chain_patterns := patterns |}.

Definition load_mise_env_chain (start : list rstr) (base : Env) (strict : Strictness) : result ResolvedEnv MiseError :=
  let? documents := load start base in
  let? c := for_each (chain_layer strict) {| merged := ResolvedEnv_default; effective := base; chain_patterns := [] |} documents in
  Ok (merged c).

(** * Commands

    The environment a command will run with. *)

Definition apply_script (command : Env) (script : rstr) : result (gmap rstr rstr) MiseError :=
  let? sourced := eval_sourced_file script command in
  Ok (remove_all (extend command (set sourced)) (unset sourced)).

Definition apply_resolved_environment (command : Env) (resolved : ResolvedEnv) : result (gmap rstr rstr) MiseError :=
  let command := with_path_overlay command (path_additions resolved) in
  let command := remove_all (extend command (set resolved)) (unset resolved) in
  for_each apply_script command (scripts resolved).
End world.
