(* ===== verification/MiseTasks.v ===== *)
(** Task declarations of a project and their execution in dependency order:
    src/src/config/mise_tasks.rs, with the loop over a plan in
    src/src/core/task_runner.rs.

    The map of tasks is sorted by name, as in the source. Running the script of
    a task is a parameter. [plan] carries fuel for its explicit stack. *)

From S2P Require Import Prelude RustPath Validation PacmanConf MiseEnv MiseConfig.
Open Scope Z_scope.
Open Scope omg_scope.

Record NativeTask := {
  task_name : rstr;
  runs : list rstr;
  depends : list rstr;
  task_source : rstr;
  task_root : rstr;
  directory : rstr;
  task_env : MiseEnv
}.

(** [{] and [}] on lines of their own around every run. *)
Definition braced (run : rstr) : rstr := ch "{" :: 10 :: run ++ [10; ch "}"].

Definition script (task : NativeTask) : rstr := join_with (str " && ") (map braced (runs task)).

Definition strings (value : option Toml) (key : rstr) : result (list rstr) MiseError :=
  match value with
  | None => Ok []
  | Some (TString value) => Ok [value]
  | Some (TArray values) => try_map (fun v => ok_or (as_str v) (TaskStrings key)) values
  | Some _ => Err (TaskStrings key)
  end.

Definition TASK_PROPERTIES : list rstr := map str ["run"; "depends"; "dir"; "env"; "description"; "hide"].

Definition dependency_ok (dependency : rstr) : bool :=
  negb (str_eqb dependency []) && forallb (fun c => is_ascii_alphanumeric c || contains_char c (str "-_:.")) dependency.

Definition has_template (text : rstr) : bool := contains (str "{{") text || contains (str "{%") text.

Definition task_directory (root : rstr) (table : list (rstr * Toml)) : result rstr MiseError :=
  match tget (str "dir") table with
  | None => Ok root
  | Some value =>
      let? value := ok_or (as_str value) TaskDirectory in
      ensure (negb (has_template value) && negb (starts_with (str "~") value)) TaskDirectory ;?
      Ok (resolve_against value root)
  end.

Definition parse_task (name : rstr) (spec : Toml) (document : Document) : result (option NativeTask) MiseError :=
  let root := document_root document in
  let? parts :=
    match spec with
    | TString run => Ok ([run], [], root, MiseEnv_default)
    | _ =>
        let? table := ok_or (as_table spec) TaskNeedsTable in
        allowed_keys TASK_PROPERTIES TaskProperty table ;?
        let? runs := strings (tget (str "run") table) (str "run") in
        let? depends := strings (tget (str "depends") table) (str "depends") in
        for_each (fun _ dependency => ensure (dependency_ok dependency) (TaskDependency dependency)) tt depends ;?
        let? directory := task_directory root table in
        let? env := parse_mise_env spec root in
        Ok (runs, depends, directory, env)
    end in
  let '(runs, depends, directory, env) := parts in
  for_each (fun _ run => ensure (negb (has_template run)) TaskTemplate) tt runs ;?
  if bool_decide (runs = []) && bool_decide (depends = []) then Ok None
  else Ok (Some {| task_name := name; runs := runs; depends := depends; task_source := document_path document; task_root := root;
                   directory := directory; task_env := env |}).

Definition MAX_TASKS : nat := 1024.

Definition declare (declarations : gmap rstr (Toml * Document)) (document : Document) : result (gmap rstr (Toml * Document)) MiseError :=
  ensure (negb (bool_decide (is_Some (toml_field (document_value document) (str "task_config"))))) TaskConfigUnsupported ;?
  match toml_field (document_value document) (str "tasks") with
  | None => Ok declarations
  | Some value =>
      let? table := ok_or (as_table value) TasksNotTable in
      Ok (foldl (fun declarations kv => <[kv.1 := (kv.2, document)]> declarations) declarations table)
  end.

(** The keys of a map in ascending order. *)
Definition sorted_keys {A} (m : gmap rstr A) : list rstr := sort_strs (map fst (map_to_list m)).

Definition add_task (declarations : gmap rstr (Toml * Document)) (tasks : gmap rstr NativeTask) (name : rstr)
    : result (gmap rstr NativeTask) MiseError :=
  match declarations !! name with
  | None => Ok tasks
  | Some (spec, document) =>
      let? task := parse_task name spec document in
      Ok (match task with Some task => <[name := task]> tasks | None => tasks end)
  end.

Definition parse (documents : list Document) : result (gmap rstr NativeTask) MiseError :=
  let? declarations := for_each declare ∅ documents in
  ensure (bool_decide (size declarations <= MAX_TASKS)%nat) TooManyTasks ;?
  for_each (add_task declarations) ∅ (sorted_keys declarations).

(** * Plans *)

Record Planning := {
  pending : list (rstr * bool);
  active : gset rstr;
  complete : gset rstr;
  ordered : list NativeTask
}.

(** One turn of the loop, with a stack that is not empty. *)
Definition plan_turn (tasks : gmap rstr NativeTask) (name : rstr) (leaving : bool) (below : list (rstr * bool)) (p : Planning)
    : result Planning MiseError :=
  if bool_decide (name ∈ complete p) then
    Ok {| pending := below; active := active p; complete := complete p; ordered := ordered p |}
  else
    let? task := ok_or (tasks !! name) (MissingTask name) in
    if leaving then
      Ok {| pending := below; active := active p ∖ {[name]}; complete := {[name]} ∪ complete p; ordered := ordered p ++ [task] |}
    else
      ensure (negb (bool_decide (name ∈ active p))) (TaskCycle name) ;?
      Ok {| pending := map (fun d => (d, false)) (depends task) ++ (name, true) :: below; active := {[name]} ∪ active p;
            complete := complete p; ordered := ordered p |}.

Fixpoint plan_loop (tasks : gmap rstr NativeTask) (fuel : nat) (p : Planning) : result (list NativeTask) MiseError :=
  match fuel with
  | O => Err PlanFuel
  | S fuel =>
      match pending p with
      | [] => Ok (ordered p)
      | (name, leaving) :: below => let? p := plan_turn tasks name leaving below p in plan_loop tasks fuel p
      end
  end.

(** One push for every task and every dependency. *)
Definition task_weight (task : NativeTask) : nat := S (length (depends task)).

Definition plan_fuel (tasks : gmap rstr NativeTask) : nat := 2 + sum_list_with (fun kv => task_weight kv.2) (map_to_list tasks).

Definition plan (tasks : gmap rstr NativeTask) (name : rstr) : result (list NativeTask) MiseError :=
  plan_loop tasks (plan_fuel tasks) {| pending := [(name, false)]; active := ∅; complete := ∅; ordered := [] |}.

(** * Execution *)

Section execution.
(** [run task arguments]: the shell ran the script of the task, with success. *)
Context (run : NativeTask -> list rstr -> bool).

(** The tasks whose scripts were started, in order, and how it ended. *)
Fixpoint execute_plan (name : rstr) (extra_args : list rstr) (l : list NativeTask) : list NativeTask * result unit MiseError :=
  match l with
  | [] => ([], Ok tt)
  | task :: l =>
      match runs task with
      | [] => execute_plan name extra_args l
      | _ =>
          if run task (if str_eqb (task_name task) name then extra_args else []) then
            let '(started, r) := execute_plan name extra_args l in (task :: started, r)
          else ([task], Err (TaskFailed (task_name task)))
      end
  end.

Definition execute_native_mise_task (documents : list Document) (name : rstr) (extra_args : list rstr) : list NativeTask * result unit MiseError :=
  match (let? declarations := parse documents in plan declarations name) with
  | Err e => ([], Err e)
  | Ok l => execute_plan name extra_args l
  end.
End execution.
