(* ===== verification/MiseTasksProofs.v ===== *)
(** Proofs on task plans: the stack of the planner, what a plan holds, and the
    order in which scripts are started. *)

From stdpp Require Import relations.
From S2P Require Import Prelude RustPath Validation PacmanConf MiseEnv MiseConfig MiseTasks.
Open Scope Z_scope.
Open Scope omg_scope.

(** Task [n] names [d] among its dependencies. *)
Definition needs (tasks : gmap rstr NativeTask) (n d : rstr) : Prop := exists t, tasks !! n = Some t /\ d ∈ depends t.

(** Names in an order in which dependencies come first. *)
Definition dependencies_first (tasks : gmap rstr NativeTask) (ns : list rstr) : Prop :=
  forall pre n post, ns = pre ++ n :: post -> forall d, needs tasks n d -> d ∈ pre.

(** An entry of the stack for a task that is to be entered. *)
Abbreviation as_dependency := (fun d : rstr => (d, false)) (only parsing).

Section plan.
Context (tasks : gmap rstr NativeTask) (root : rstr).

(** * The stack *)

(** Above the mark of an active task stands everything it still needs, and
    nothing it does not need. *)
Definition stack_ok (complete : list rstr) (l : list (rstr * bool)) : Prop :=
  forall above n below, l = above ++ (n, true) :: below ->
    is_Some (tasks !! n) /\ (n, true) ∉ below /\
    (forall d, needs tasks n d -> d ∈ complete \/ exists b, (d, b) ∈ above) /\
    (forall m b, (m, b) ∈ above -> tc (needs tasks) n m).

Record planning_ok (p : Planning) (ns : list rstr) : Prop := {
  reached : forall n b, (n, b) ∈ pending p -> rtc (needs tasks) root n;
  named : Forall2 (fun n t => tasks !! n = Some t) ns (ordered p);
  completed : complete p = list_to_set ns;
  once : NoDup ns;
  planned : forall n, n ∈ ns -> rtc (needs tasks) root n;
  first : dependencies_first tasks ns;
  marks : forall n, n ∈ active p <-> (n, true) ∈ pending p;
  apart : forall n, n ∈ active p -> n ∉ ns;
  framed : stack_ok ns (pending p);
  bottom : (pending p = [] /\ last ns = Some root) \/
           (exists above b, pending p = above ++ [(root, b)] /\ root ∉ ns /\ (b = false -> above = []))
}.

Lemma planning_start : planning_ok {| pending := [(root, false)]; active := ∅; complete := ∅; ordered := [] |} [].
Proof.
  constructor; cbn [pending active complete ordered].
  - intros n b [= -> ->]%list_elem_of_singleton. done.
  - constructor.
  - done.
  - constructor.
  - by intros ? ?%elem_of_nil.
  - intros [|? ?] ? ? E; discriminate E.
  - intros n. split; intros Hn; [by apply elem_of_empty in Hn|by apply list_elem_of_singleton in Hn].
  - intros n Hn. by apply elem_of_empty in Hn.
  - intros [|? [|? ?]] ? ? E; discriminate E.
  - right. exists [], false. split_and!; [done|apply not_elem_of_nil|done].
Qed.

Lemma dependencies_first_snoc ns n :
  dependencies_first tasks ns -> (forall d, needs tasks n d -> d ∈ ns) -> dependencies_first tasks (ns ++ [n]).
Proof.
  intros Hf Hn pre m post E d Hd. destruct post as [|q post _] using rev_ind.
  - apply app_inj_tail in E as [-> ->]. auto.
  - rewrite app_comm_cons, app_assoc in E. apply app_inj_tail in E as [-> _]. by eapply Hf.
Qed.

(** Popping an entry that is not a mark, or is complete. *)
Lemma stack_pop complete complete' x l :
  stack_ok complete (x :: l) -> (forall n, n ∈ complete -> n ∈ complete') -> x.1 ∈ complete' -> stack_ok complete' l.
Proof.
  intros Hs Hsub Hx above n below ->. destruct (Hs (x :: above) n below eq_refl) as (H1 & H2 & H3 & H4). split_and!; [done..| |].
  - intros d Hd. destruct (H3 d Hd) as [?|(b & Hb)]; [auto|]. apply elem_of_cons in Hb as [<-|Hb]; eauto.
  - intros m b Hm. apply (H4 m b). by right.
Qed.

Lemma split_false above n below ds l :
  above ++ (n, true) :: below = map as_dependency ds ++ l ->
  exists above', above = map as_dependency ds ++ above' /\ l = above' ++ (n, true) :: below.
Proof.
  revert above; induction ds as [|d ds IH]; intros above E; [by exists above|].
  destruct above as [|x above]; cbn in E; [done|]. injection E as -> E. destruct (IH _ E) as (above' & -> & ->). by exists above'.
Qed.

(** Entering a task. *)
Lemma stack_push complete name t l :
  stack_ok complete ((name, false) :: l) -> tasks !! name = Some t -> (name, true) ∉ l ->
  stack_ok complete (map as_dependency (depends t) ++ (name, true) :: l).
Proof.
  intros Hs Ht Hl above n below E. symmetry in E. apply split_false in E as (above' & -> & E). destruct above' as [|x above']; cbn in E.
  - injection E as -> ->. rewrite app_nil_r. split_and!; [by eexists|done| |].
    + intros d (t' & Ht' & Hd). simplify_eq. right. exists false. apply list_elem_of_fmap. eauto.
    + intros m b (d & [= -> ->] & Hd)%list_elem_of_fmap. apply tc_once. by exists t.
  - injection E as <- E. destruct (Hs ((name, false) :: above') n below) as (H1 & H2 & H3 & H4); [by rewrite E|].
    assert (tc (needs tasks) n name) as Hn by (apply (H4 name false); by left). split_and!; [done|done| |].
    + intros d Hd. destruct (H3 d Hd) as [?|(b & Hb)]; [by left|]. right.
      apply elem_of_cons in Hb as [[= -> ->]|Hb]; [exists true; set_solver|]. exists b. set_solver.
    + intros m b [(d & [= -> ->] & Hd)%list_elem_of_fmap|Hm]%elem_of_app; [eapply tc_r; [done|by exists t]|].
      apply elem_of_cons in Hm as [[= -> ->]|Hm]; [done|]. apply (H4 m b). by right.
Qed.

(** * One turn *)

Section turn.
Context (p : Planning) (ns : list rstr) (Hp : planning_ok p ns) (name : rstr) (leaving : bool) (below : list (rstr * bool))
        (Hpending : pending p = (name, leaving) :: below).

Lemma top_reached : rtc (needs tasks) root name.
Proof. apply (reached _ _ Hp name leaving). rewrite Hpending. by left. Qed.

Lemma below_bottom : name ∈ ns -> exists above b, below = above ++ [(root, b)] /\ root ∉ ns /\ b = true.
Proof.
  intros Hn. destruct (bottom _ _ Hp) as [[E _]|(above & b & E & Hr & Hb)]; rewrite Hpending in E; [done|].
  destruct above as [|x above]; cbn in E; [by simplify_eq|]. injection E as _ E. exists above, b. split_and!; [done|done|].
  destruct b; [done|]. by specialize (Hb eq_refl).
Qed.

Lemma turn_skip : name ∈ complete p ->
  planning_ok {| pending := below; active := active p; complete := complete p; ordered := ordered p |} ns.
Proof.
  intros Hn. assert (name ∈ ns) as Hin by (rewrite (completed _ _ Hp) in Hn; by apply elem_of_list_to_set in Hn).
  destruct (below_bottom Hin) as (above & mark & Hb & Hroot & Hmark).
  assert (leaving = false) as ->.
  { destruct leaving; [|done]. exfalso. apply (apart _ _ Hp name); [|done]. apply (marks _ _ Hp). rewrite Hpending. by left. }
  destruct Hp. constructor; cbn [pending active complete ordered]; try done.
  - intros n b Hx. apply (reached0 n b). rewrite Hpending. by right.
  - intros n. rewrite marks0, Hpending, elem_of_cons. naive_solver.
  - rewrite Hpending in framed0. by eapply stack_pop.
  - right. exists above, mark. by subst.
Qed.

Lemma turn_leave t : name ∉ complete p -> tasks !! name = Some t -> leaving = true ->
  planning_ok {| pending := below; active := active p ∖ {[name]}; complete := {[name]} ∪ complete p; ordered := ordered p ++ [t] |} (ns ++ [name]).
Proof.
  intros Hn Ht Hl. assert (Hr := top_reached). revert Hl; intros ->. assert (name ∉ ns) as Hin by (rewrite (completed _ _ Hp), elem_of_list_to_set in Hn; done).
  destruct (framed _ _ Hp [] name below Hpending) as (_ & Hbelow & Hdeps & _).
  destruct Hp. constructor; cbn [pending active complete ordered].
  - intros n b Hx. apply (reached0 n b). rewrite Hpending. by right.
  - apply Forall2_app; [done|]. by repeat constructor.
  - rewrite completed0. set_solver.
  - apply NoDup_app. split_and!; [done| |apply NoDup_singleton]. intros x Hx ->%list_elem_of_singleton. done.
  - intros n [Hx| ->%list_elem_of_singleton]%elem_of_app; auto.
  - apply dependencies_first_snoc; [done|]. intros d Hd. destruct (Hdeps d Hd) as [?|(b & ?%elem_of_nil)]; done.
  - intros n. rewrite elem_of_difference, marks0, Hpending, elem_of_cons, not_elem_of_singleton. split; [naive_solver|].
    intros Hx. split; [by right|]. intros ->. done.
  - intros n [Ha Hne]%elem_of_difference [?| ->%list_elem_of_singleton]%elem_of_app; [by apply (apart0 n)|set_solver].
  - rewrite Hpending in framed0. eapply stack_pop; [done|set_solver|set_solver].
  - destruct bottom0 as [[E _]|(above & b & E & Hroot & Hb)]; rewrite Hpending in E; [done|]. destruct above as [|x above]; cbn in E.
    + injection E as -> <- ->. left. split; [done|]. by rewrite last_snoc.
    + injection E as _ E2. right. exists above, b. rewrite E2. split_and!; [done| |].
      * intros [?| ->%list_elem_of_singleton]%elem_of_app; [done|]. destruct b; [|by specialize (Hb eq_refl)]. apply Hbelow. rewrite E2. set_solver.
      * intros ->. by specialize (Hb eq_refl).
Qed.

Lemma turn_enter t : name ∉ complete p -> tasks !! name = Some t -> name ∉ active p -> leaving = false ->
  planning_ok {| pending := map as_dependency (depends t) ++ (name, true) :: below; active := {[name]} ∪ active p;
                 complete := complete p; ordered := ordered p |} ns.
Proof.
  intros Hn Ht Ha Hl. assert (Hr := top_reached). revert Hl; intros ->. assert (name ∉ ns) as Hin by (rewrite (completed _ _ Hp), elem_of_list_to_set in Hn; done).
  destruct Hp. assert ((name, true) ∉ below) as Hbelow by (rewrite marks0, Hpending in Ha; set_solver).
  constructor; cbn [pending active complete ordered]; try done.
  - intros n b [(d & [= -> ->] & Hd)%list_elem_of_fmap|[[= -> ->]|Hx]%elem_of_cons]%elem_of_app; [|done|].
    + eapply rtc_r; [done|]. by exists t.
    + apply (reached0 n b). rewrite Hpending. by right.
  - intros n. rewrite elem_of_union, elem_of_singleton, marks0, Hpending, elem_of_app, !elem_of_cons, list_elem_of_fmap. naive_solver.
  - intros n [->%elem_of_singleton|?]%elem_of_union; auto.
  - rewrite Hpending in framed0. by apply stack_push.
  - right. destruct bottom0 as [[E _]|(above & b & E & Hroot & Hb)]; rewrite Hpending in E; [done|]. destruct above as [|x above]; cbn in E.
    + injection E as -> <- ->. exists (map as_dependency (depends t)), true. done.
    + injection E as _ E2. exists (map as_dependency (depends t) ++ (name, true) :: above), b. split_and!; [by rewrite E2, <- app_assoc|done|].
      intros ->. by specialize (Hb eq_refl).
Qed.

(** An active task met again needs itself. *)
Lemma turn_cycle : name ∈ active p -> leaving = false -> tc (needs tasks) name name.
Proof.
  intros Ha ->. apply (marks _ _ Hp) in Ha. rewrite Hpending in Ha. apply elem_of_cons in Ha as [|Ha]; [done|].
  apply list_elem_of_split in Ha as (above & below' & ->).
  destruct (framed _ _ Hp ((name, false) :: above) name below') as (_ & _ & _ & Ht); [done|]. apply (Ht name false). by left.
Qed.
End turn.

(** * The loop ends *)

(** Pushes that are still to come, for tasks never entered. *)
Definition pushes (m : gmap rstr NativeTask) (visited : gset rstr) : nat :=
  sum_list_with (fun kv => if bool_decide (kv.1 ∈ visited) then O else task_weight kv.2) (map_to_list m).

Definition turns (p : Planning) : nat := length (pending p) + pushes tasks (active p ∪ complete p).

Lemma pushes_delete m n t visited : m !! n = Some t ->
  pushes m visited = ((if bool_decide (n ∈ visited) then O else task_weight t) + pushes (delete n m) visited)%nat.
Proof. intros Ht. unfold pushes. by rewrite <- (map_to_list_delete m n t Ht). Qed.

Lemma pushes_ext m visited visited' :
  (forall n, is_Some (m !! n) -> n ∈ visited <-> n ∈ visited') -> pushes m visited = pushes m visited'.
Proof.
  intros Hv. unfold pushes. assert (forall kv, kv ∈ map_to_list m -> kv.1 ∈ visited <-> kv.1 ∈ visited') as Hl.
  { intros [n t] Hn%elem_of_map_to_list. apply Hv. by eexists. }
  induction (map_to_list m) as [|kv l IH]; [done|]. cbn [sum_list_with]. rewrite IH by (intros; apply Hl; by right).
  f_equal. specialize (Hl kv ltac:(by left)). do 2 case_bool_decide; naive_solver.
Qed.

Lemma pushes_visit n t visited : tasks !! n = Some t -> n ∉ visited ->
  pushes tasks visited = (task_weight t + pushes tasks ({[n]} ∪ visited))%nat.
Proof.
  intros Ht Hn. rewrite !(pushes_delete tasks n t) by done. rewrite bool_decide_eq_false_2, bool_decide_eq_true_2 by set_solver.
  rewrite (pushes_ext (delete n tasks) visited ({[n]} ∪ visited)); [done|]. intros m [t' [Hne _]%lookup_delete_Some]. set_solver.
Qed.

Lemma plan_turn_ok p ns name leaving below : planning_ok p ns -> pending p = (name, leaving) :: below ->
  match plan_turn tasks name leaving below p with
  | Ok p' => (exists ns', planning_ok p' ns') /\ (turns p' < turns p)%nat
  | Err (MissingTask m) => rtc (needs tasks) root m /\ tasks !! m = None
  | Err (TaskCycle m) => rtc (needs tasks) root m /\ tc (needs tasks) m m
  | Err _ => False
  end.
Proof.
  intros Hp E. assert (Hr := top_reached p ns Hp name leaving below E). unfold plan_turn, turns. rewrite E. case_bool_decide as Hc.
  { split; [exists ns; by eapply turn_skip|]. cbn. lia. }
  destruct (tasks !! name) as [t|] eqn:Ht; cbn [ok_or res_bind]; [|done]. destruct leaving.
  - split; [exists (ns ++ [name]); by eapply turn_leave|]. cbn [pending active complete length].
    rewrite (pushes_ext tasks (active p ∖ {[name]} ∪ ({[name]} ∪ complete p)) (active p ∪ complete p)); [lia|]. intros m _.
    assert (name ∈ active p) by (apply (marks _ _ Hp); rewrite E; by left). destruct (decide (m = name)); set_solver.
  - case_bool_decide as Ha; cbn [negb ensure res_bind].
    + split; [done|]. by eapply turn_cycle.
    + split; [exists ns; by eapply turn_enter|]. cbn [pending active complete]. rewrite length_app, length_map. cbn [length].
      rewrite (pushes_visit name t (active p ∪ complete p)) by (done || set_solver). rewrite (assoc_L (∪)). unfold task_weight. lia.
Qed.

(** What the planner answers, from any state. *)
Definition plan_answer (r : result (list NativeTask) MiseError) : Prop :=
  match r with
  | Ok l => exists ns, Forall2 (fun n t => tasks !! n = Some t) ns l /\ NoDup ns /\ dependencies_first tasks ns /\
              last ns = Some root /\ forall n, n ∈ ns <-> rtc (needs tasks) root n
  | Err (MissingTask m) => rtc (needs tasks) root m /\ tasks !! m = None
  | Err (TaskCycle m) => rtc (needs tasks) root m /\ tc (needs tasks) m m
  | Err _ => False
  end.

Lemma dependencies_first_closed ns n m : dependencies_first tasks ns -> n ∈ ns -> rtc (needs tasks) n m -> m ∈ ns.
Proof.
  intros Hf Hn Hr. induction Hr as [|n d m Hd _ IH]; [done|]. apply IH. apply list_elem_of_split in Hn as (pre & post & ->).
  apply elem_of_app. left. by eapply Hf.
Qed.

Lemma plan_loop_answer fuel p ns : planning_ok p ns -> (turns p < fuel)%nat -> plan_answer (plan_loop tasks fuel p).
Proof.
  revert p ns; induction fuel as [|fuel IH]; intros p ns Hp Hf; [lia|]. cbn [plan_loop].
  destruct (pending p) as [|[name leaving] below] eqn:E.
  - exists ns. destruct (bottom _ _ Hp) as [[_ Hlast]|(above & b & E' & _)]; [|rewrite E in E'; by destruct above].
    split_and!; [by apply named|by eapply once|by eapply first|done|]. intros n. split; [by eapply planned|]. intros Hn.
    eapply dependencies_first_closed; [by eapply first| |done]. by apply last_Some_elem_of.
  - assert (Ht := plan_turn_ok p ns name leaving below Hp E).
    destruct (plan_turn tasks name leaving below p) as [p'|e]; cbn [res_bind]; [|done].
    destruct Ht as ((ns' & Hp') & Hlt). eapply IH; [done|]. lia.
Qed.
End plan.

Lemma pushes_le m visited : (pushes m visited <= sum_list_with (fun kv => task_weight kv.2) (map_to_list m))%nat.
Proof. unfold pushes. induction (map_to_list m) as [|kv l IH]; cbn [sum_list_with]; [done|]. case_bool_decide; lia. Qed.

Lemma plan_spec tasks root : plan_answer tasks root (plan tasks root).
Proof.
  eapply plan_loop_answer; [apply planning_start|]. unfold turns, plan_fuel. cbn [pending active complete length].
  pose proof (pushes_le tasks (∅ ∪ ∅)). lia.
Qed.

(** * Declarations *)

Lemma parse_task_name name spec document t : parse_task name spec document = Ok (Some t) -> task_name t = name.
Proof.
  unfold parse_task. intros E. apply res_bind_Ok in E as ([[[runs depends] directory] env] & _ & E).
  apply res_bind_Ok in E as ([] & _ & E). destruct (_ && _); [done|]. by injection E as <-.
Qed.

Lemma parse_names documents tasks n t : parse documents = Ok tasks -> tasks !! n = Some t -> task_name t = n.
Proof.
  unfold parse. intros E. apply res_bind_Ok in E as (declarations & _ & E). apply res_bind_Ok in E as ([] & _ & E). revert n t.
  refine (for_each_inv _ (fun _ (m : gmap rstr NativeTask) => forall n t, m !! n = Some t -> task_name t = n) _ _ _ _ _ E).
  { intros n t Hn. by rewrite lookup_empty in Hn. }
  intros _ name m m' IH _ Ha. unfold add_task in Ha. destruct (declarations !! name) as [[spec document]|]; [|by injection Ha as <-].
  apply res_bind_Ok in Ha as (o & Ho & Ha). injection Ha as <-. destruct o as [t'|]; [|done]. intros n t.
  rewrite lookup_insert_Some. intros [[<- <-]|[_ ?]]; [by eapply parse_task_name|by apply IH].
Qed.

(** * Execution *)

(** Tasks with something to run. *)
Definition has_runs (t : NativeTask) : bool := negb (bool_decide (runs t = [])).
Definition working (l : list NativeTask) : list NativeTask := List.filter has_runs l.

Lemma working_cons t l : working (t :: l) = if has_runs t then t :: working l else working l.
Proof. done. Qed.

Section execution.
Context (run : NativeTask -> list rstr -> bool) (name : rstr) (extra_args : list rstr).

Definition succeeds (t : NativeTask) : Prop := run t (if str_eqb (task_name t) name then extra_args else []) = true.

Lemma execute_plan_spec l :
  match execute_plan run name extra_args l with
  | (started, Ok _) => started = working l /\ Forall succeeds started
  | (started, Err e) => exists pre t post, working l = pre ++ t :: post /\ started = pre ++ [t] /\ Forall succeeds pre /\ ~ succeeds t /\
      e = TaskFailed (task_name t)
  end.
Proof.
  induction l as [|t l IH]; cbn [execute_plan]; [by split|]. rewrite working_cons. unfold has_runs.
  destruct (runs t) eqn:Hr; [rewrite bool_decide_eq_true_2 by done; exact IH|]. rewrite bool_decide_eq_false_2 by done. cbn [negb].
  unfold succeeds in *. destruct (run t _) eqn:Ht.
  - destruct (execute_plan run name extra_args l) as [started [u|e]].
    + destruct IH as [-> Hf]. split; [done|]. by constructor.
    + destruct IH as (pre & t' & post & Hw & -> & Hf & Hn & ->). exists (t :: pre), t', post. rewrite Hw. split_and!; try done. by constructor.
  - exists [], t, (working l). split_and!; try done. by rewrite Ht.
Qed.
End execution.

Lemma working_split l pre t post : working l = pre ++ t :: post ->
  exists l1 l2, l = l1 ++ t :: l2 /\ working l1 = pre /\ has_runs t = true.
Proof.
  revert pre; induction l as [|x l IH]; intros pre E; [by destruct pre|]. rewrite working_cons in E.
  destruct (has_runs x) eqn:Hx.
  - destruct pre as [|y pre]; injection E as -> E; [by exists [], l|]. destruct (IH _ E) as (l1 & l2 & -> & <- & Ht).
    exists (y :: l1), l2. split_and!; [done| |done]. by rewrite working_cons, Hx.
  - destruct (IH _ E) as (l1 & l2 & -> & <- & Ht). exists (x :: l1), l2. split_and!; [done| |done]. by rewrite working_cons, Hx.
Qed.

Lemma elem_of_working t l : t ∈ working l <-> t ∈ l /\ runs t ≠ [].
Proof.
  unfold working, has_runs. rewrite !list_elem_of_In, filter_In, negb_true_iff. by rewrite bool_decide_eq_false.
Qed.

Lemma dependencies_first_prefix tasks l1 l2 : dependencies_first tasks (l1 ++ l2) -> dependencies_first tasks l1.
Proof. intros Hf pre n post -> d. eapply (Hf pre n (post ++ l2)). by rewrite <- app_assoc. Qed.

Section order.
Context (documents : list Document) (tasks : gmap rstr NativeTask) (Hparse : parse documents = Ok tasks).

Lemma plan_names ns l : Forall2 (fun n t => tasks !! n = Some t) ns l -> ns = map task_name l.
Proof. induction 1 as [|n t ns l Ht _ IH]; [done|]. cbn. by rewrite (parse_names documents tasks n t), <- IH. Qed.

Lemma planned_task l t : Forall2 (fun n t => tasks !! n = Some t) (map task_name l) l -> t ∈ l -> tasks !! task_name t = Some t.
Proof.
  intros Hn (i & Hi)%list_elem_of_lookup. apply (Forall2_lookup_lr (fun n t => tasks !! n = Some t) (map task_name l) l i); [done| |done].
  by rewrite list_lookup_fmap, Hi.
Qed.

(** Everything a planned task needs stands before it. *)
Lemma plan_before l1 t l2 d dt :
  dependencies_first tasks (map task_name (l1 ++ t :: l2)) -> Forall2 (fun n t => tasks !! n = Some t) (map task_name (l1 ++ t :: l2)) (l1 ++ t :: l2) ->
  tc (needs tasks) (task_name t) d -> tasks !! d = Some dt -> dt ∈ l1.
Proof.
  intros Hf Hn Hd Ht. rewrite map_app in Hf. assert (d ∈ map task_name l1) as Hin.
  { inversion Hd as [? ? Hone|? d1 ? Hone Hrest]; subst; [by eapply Hf|].
    eapply dependencies_first_closed; [by eapply dependencies_first_prefix|by eapply Hf|by apply tc_rtc]. }
  rewrite map_app in Hn. apply Forall2_app_inv in Hn as [Hn _]; [|by rewrite length_map].
  apply list_elem_of_fmap in Hin as (dt' & -> & Hin). rewrite (planned_task l1 dt' Hn Hin) in Ht. by injection Ht as <-.
Qed.
End order.

Lemma working_names l : NoDup (map task_name l) -> NoDup (map task_name (working l)).
Proof.
  induction l as [|t l IH]; [done|]. cbn [map]. intros [Hn Hd]%NoDup_cons. rewrite working_cons. destruct (has_runs t); [|auto].
  cbn [map]. constructor; [|auto]. intros (t' & E & [Ht' _]%elem_of_working)%list_elem_of_fmap. apply Hn. rewrite E. by apply list_elem_of_fmap_2.
Qed.

(** Started scripts: a prefix of the work of the plan. *)
Lemma execution_prefix run name args l started r : execute_plan run name args l = (started, r) ->
  exists rest, working l = started ++ rest /\ (forall pre t post, started = pre ++ t :: post -> Forall (succeeds run name args) pre).
Proof.
  intros E. pose proof (execute_plan_spec run name args l) as Hs. rewrite E in Hs. destruct r as [[]|e].
  - destruct Hs as [-> Hf]. exists []. split; [by rewrite app_nil_r|]. intros pre t post Hw. rewrite Hw in Hf. by apply Forall_app in Hf as [? _].
  - destruct Hs as (pre & t & post & Hw & -> & Hf & _ & _). exists post. rewrite Hw, <- app_assoc. split; [done|].
    intros pre' t' post' Hsplit. destruct post' as [|x post' _] using rev_ind; [by apply app_inj_tail in Hsplit as [-> _]|].
    rewrite app_comm_cons, app_assoc in Hsplit. apply app_inj_tail in Hsplit as [-> _]. by apply Forall_app in Hf as [? _].
Qed.

(** C22: Tasks run in the order of their dependencies. Every script that is
    started belongs to a task the request needs, is started once, and only
    after the scripts of all the tasks it needs, directly or not, have
    succeeded. The request succeeds exactly when everything needed ran; a
    missing task or a task that needs itself is found before anything is
    started; the only other failure is a script that fails, and it is the last
    one started. *)
Theorem tasks_run_in_dependency_order run documents tasks name args started r :
  parse documents = Ok tasks -> execute_native_mise_task run documents name args = (started, r) ->
  NoDup (map task_name started) /\
  (forall pre t post, started = pre ++ t :: post ->
     rtc (needs tasks) name (task_name t) /\ tasks !! task_name t = Some t /\ runs t ≠ [] /\
     forall d dt, tc (needs tasks) (task_name t) d -> tasks !! d = Some dt -> runs dt ≠ [] -> dt ∈ pre /\ succeeds run name args dt) /\
  match r with
  | Ok _ => forall n, rtc (needs tasks) name n -> exists t, tasks !! n = Some t /\ (runs t = [] \/ t ∈ started /\ succeeds run name args t)
  | Err (MissingTask m) => started = [] /\ rtc (needs tasks) name m /\ tasks !! m = None
  | Err (TaskCycle m) => started = [] /\ rtc (needs tasks) name m /\ tc (needs tasks) m m
  | Err (TaskFailed m) => exists t, last started = Some t /\ task_name t = m /\ ~ succeeds run name args t
  | Err _ => False
  end.
Proof.
  intros Hparse. unfold execute_native_mise_task. rewrite Hparse. cbn [res_bind]. pose proof (plan_spec tasks name) as Hplan.
  destruct (plan tasks name) as [l|e].
  2: { intros [= <- <-]. split_and!; [constructor|by intros [|] ? ? ?|]. by destruct e. }
  destruct Hplan as (ns & Hnames & Hnodup & Hfirst & Hlast & Hreach). pose proof (plan_names documents tasks Hparse ns l Hnames) as ->. intros E.
  destruct (execution_prefix _ _ _ _ _ _ E) as (rest & Hwork & Hpre). split_and!.
  - apply working_names in Hnodup. rewrite Hwork, map_app in Hnodup. by apply NoDup_app in Hnodup as [? _].
  - intros pre t post ->. rewrite <- app_assoc in Hwork. apply working_split in Hwork as (l1 & l2 & -> & <- & Ht).
    assert (t ∈ l1 ++ t :: l2) as Hin by set_solver. apply negb_true_iff, bool_decide_eq_false in Ht.
    split_and!; [apply Hreach; by apply list_elem_of_fmap_2| |done|].
    + by eapply planned_task.
    + intros d dt Hd Hdt Hr. assert (dt ∈ working l1) as Hw by (apply elem_of_working; split; [by eapply plan_before|done]).
      split; [done|]. eapply Forall_forall; [by eapply Hpre|done].
  - pose proof (execute_plan_spec run name args l) as Hs. rewrite E in Hs. destruct r as [[]|e].
    + destruct Hs as [-> Hf]. intros n Hn. apply Hreach, list_elem_of_fmap in Hn as (t & -> & Hin). exists t. split; [by eapply planned_task|].
      destruct (decide (runs t = [])) as [|Hr]; [by left|right]. assert (t ∈ working l) as Hw by (by apply elem_of_working).
      split; [done|]. by eapply Forall_forall.
    + destruct Hs as (pre & t & post & _ & -> & _ & Hn & ->). exists t. by rewrite last_snoc.
Qed.

(** Two tasks share a dependency, and the requested task only collects them. *)
Definition diamond : list Document :=
  [{| document_path := str "/p/mise.toml"; document_root := str "/p";
      document_value := TTable [(str "tasks", TTable
        [(str "setup", TString (str "echo setup"));
         (str "left", TTable [(str "depends", TString (str "setup")); (str "run", TString (str "echo left"))]);
         (str "right", TTable [(str "depends", TArray [TString (str "setup")]); (str "run", TArray [TString (str "echo right"); TString (str "true")])]);
         (str "all", TTable [(str "depends", TArray [TString (str "left"); TString (str "right")])])])] |}].

Definition diamond_tasks : gmap rstr NativeTask := match parse diamond with Ok tasks => tasks | Err _ => ∅ end.

Definition diamond_run : list NativeTask * result unit MiseError := execute_native_mise_task (fun _ _ => true) diamond (str "all") [].

Lemma tasks_run_in_dependency_order_witness :
  map task_name diamond_run.1 = map str ["setup"; "left"; "right"] /\ diamond_run.2 = Ok tt /\ NoDup (map task_name diamond_run.1) /\
  forall n, rtc (needs diamond_tasks) (str "all") n -> is_Some (diamond_tasks !! n).
Proof.
  assert (diamond_run.2 = Ok tt) as Hok by (vm_compute; reflexivity). split_and!; [vm_compute; reflexivity|done| |].
  all: destruct (tasks_run_in_dependency_order (fun _ _ => true) diamond diamond_tasks (str "all") [] diamond_run.1 diamond_run.2) as (Hnodup & _ & Hr);
    [vm_compute; reflexivity|symmetry; apply surjective_pairing|].
  - exact Hnodup.
  - rewrite Hok in Hr. intros n Hn. destruct (Hr n Hn) as (t & Ht & _). by exists t.
Defined.

(** A task that needs itself is found before anything is started. *)
Example cyclic_tasks_start_nothing :
  execute_native_mise_task (fun _ _ => true)
    [{| document_path := str "/p/mise.toml"; document_root := str "/p";
        document_value := TTable [(str "tasks", TTable [(str "a", TTable [(str "depends", TString (str "b"))]);
                                                        (str "b", TTable [(str "depends", TString (str "a")); (str "run", TString (str "true"))])])] |}]
    (str "b") [] = ([], Err (TaskCycle (str "b"))).
Proof. vm_compute. reflexivity. Qed.
