(* ===== verification/MiseEnvProofs.v ===== *)
(** Proofs on project environments: patterns, the table of assignments behind
    the resolver, and the equality of the merged result with applying layer
    after layer. *)

From S2P Require Import Prelude RustPath Validation PacmanConf MiseEnv MiseConfig.
Open Scope Z_scope.
Open Scope omg_scope.

(** * Patterns *)

(** A star stands for any text, every other character for itself. *)
Inductive glob : rstr -> rstr -> Prop :=
| glob_nil : glob [] []
| glob_char c p n : c ≠ ch "*" -> glob p n -> glob (c :: p) (c :: n)
| glob_star p any n : glob p n -> glob (ch "*" :: p) (any ++ n).

(** The pieces of a pattern, with any text between two of them. *)
Fixpoint pieces_match (parts : list rstr) (n : rstr) : Prop :=
  match parts with
  | [] => False
  | [q] => n = q
  | q :: parts => exists any rest, n = q ++ any ++ rest /\ pieces_match parts rest
  end.

Definition later_match (parts : list rstr) (n : rstr) : Prop := exists any rest, n = any ++ rest /\ pieces_match parts rest.

Lemma pieces_match_cons q parts n : parts ≠ [] ->
  pieces_match (q :: parts) n <-> exists rest, n = q ++ rest /\ later_match parts rest.
Proof.
  destruct parts as [|r parts]; [done|]. intros _. unfold later_match. cbn [pieces_match]. split.
  - intros (any & rest & -> & Hm). exists (any ++ rest). eauto.
  - intros (? & -> & any & rest & -> & Hm). eauto.
Qed.

Lemma pieces_match_char c q parts n : pieces_match ((c :: q) :: parts) n <-> exists m, n = c :: m /\ pieces_match (q :: parts) m.
Proof.
  destruct parts as [|r parts]; cbn [pieces_match]; [naive_solver|]. split.
  - intros (any & rest & -> & Hm). exists (q ++ any ++ rest). split; [done|]. eauto.
  - intros (? & -> & any & rest & -> & Hm). exists any, rest. done.
Qed.

Lemma glob_pieces p n : glob p n <-> pieces_match (split_char (ch "*") p) n.
Proof.
  split.
  - induction 1 as [|c p n Hc _ IH|p any n _ IH]; [done| |].
    + cbn [split_char]. destruct (Z.eqb_spec (ch "*") c) as [E|_]; [by destruct Hc|].
      destruct (split_char_cons (ch "*") p) as (q & qs & E). rewrite E in *. apply pieces_match_char. eauto.
    + cbn [split_char]. rewrite Z.eqb_refl. destruct (split_char_cons (ch "*") p) as (q & qs & E). rewrite E in *.
      apply pieces_match_cons; [done|]. exists (any ++ n). split; [done|]. by exists any, n.
  - revert n; induction p as [|c p IH]; intros n; [by intros ->; constructor|]. cbn [split_char].
    destruct (split_char_cons (ch "*") p) as (q & qs & E). destruct (Z.eqb_spec (ch "*") c) as [<-|Hc]; rewrite E in *.
    + rewrite pieces_match_cons by done. intros (? & -> & any & rest & -> & Hm). cbn [app]. constructor. auto.
    + rewrite pieces_match_char. intros (m & -> & Hm). constructor; [congruence|auto].
Qed.

(** The first occurrence leaves the most. *)
Lemma split_once_str_leftmost q s any rest : s = any ++ q ++ rest ->
  exists a b, split_once_str q s = Some (a, b) /\ exists x, b = x ++ rest.
Proof.
  revert any; induction s as [|c s IH]; intros any E.
  - destruct any as [|? ?]; [|done]. cbn [split_once_str]. rewrite (proj2 (strip_prefix_Some q [] rest)) by done.
    exists [], rest. split; [done|]. by exists [].
  - cbn [split_once_str]. destruct (strip_prefix q (c :: s)) as [b|] eqn:Hp.
    + apply strip_prefix_Some in Hp. exists [], b. split; [done|]. rewrite E, app_assoc in Hp.
      apply app_eq_inv in Hp as [(k & _ & ->)|(k & Hq & ->)]; [by exists k|]. exists [].
      apply (f_equal length) in Hq. rewrite !length_app in Hq. by destruct k; [|cbn in Hq; lia].
    + destruct any as [|d any]; [by rewrite (proj2 (strip_prefix_Some q (c :: s) rest)) in Hp|]. injection E as <- E.
      destruct (IH any E) as (a & b & -> & Hb). by exists (c :: a), b.
Qed.

Lemma split_once_str_Some q s a b : split_once_str q s = Some (a, b) -> s = a ++ q ++ b.
Proof.
  revert a b; induction s as [|c s IH]; intros a b; cbn [split_once_str].
  - destruct (strip_prefix q []) as [r|] eqn:E; [|done]. intros [= <- <-]. by apply strip_prefix_Some in E.
  - destruct (strip_prefix q (c :: s)) as [r|] eqn:E; [intros [= <- <-]; by apply strip_prefix_Some in E|].
    destruct (split_once_str q s) as [[a' b']|]; [|done]. intros [= <- <-]. cbn. f_equal. by apply IH.
Qed.

(** The loop over the pieces after the first one, with the last check. *)
Lemma glob_parts_correct parts rest : parts ≠ [] ->
  match glob_parts parts rest with
  | None => false
  | Some rest => if str_eqb (List.last parts []) [] then true else ends_with (List.last parts []) rest
  end = true <-> later_match parts rest.
Proof.
  revert rest; induction parts as [|q parts IH]; intros rest Hne; [done|]. cbn [glob_parts]. destruct parts as [|r parts].
  - cbn [List.last]. unfold later_match. cbn [pieces_match]. destruct (str_eqb q []) eqn:Hq.
    + apply bool_decide_eq_true in Hq as ->. split; [|done]. intros _. exists rest, []. by rewrite app_nil_r.
    + rewrite ends_with_true. naive_solver.
  - change (List.last (q :: r :: parts) []) with (List.last (r :: parts) []). specialize (IH). destruct (str_eqb q []) eqn:Hq.
    + apply bool_decide_eq_true in Hq as ->. rewrite (IH rest) by done. unfold later_match at 2. split.
      * intros Hm. exists [], rest. split; [done|]. apply pieces_match_cons; [done|]. eauto.
      * intros (any & ? & -> & (? & -> & any' & rest' & -> & Hm)%pieces_match_cons); [|done]. exists (any ++ any'), rest'. by rewrite <- app_assoc.
    + assert (later_match (q :: r :: parts) rest <-> exists any rest', rest = any ++ q ++ rest' /\ later_match (r :: parts) rest') as ->.
      { unfold later_match at 1. split.
        - intros (any & ? & -> & (rest' & -> & Hm)%pieces_match_cons); [|done]. eauto.
        - intros (any & rest' & -> & Hm). exists any, (q ++ rest'). split; [done|]. apply pieces_match_cons; [done|]. eauto. }
      destruct (split_once_str q rest) as [[a b]|] eqn:Hs.
      * rewrite (IH b) by done. split; [intros Hm; exists a, b; by rewrite (split_once_str_Some _ _ _ _ Hs)|].
        intros (any & rest' & E & any' & rest'' & -> & Hm). destruct (split_once_str_leftmost q rest any _ E) as (a' & b' & Hs' & x & ->).
        rewrite Hs in Hs'. injection Hs' as -> ->. exists (x ++ any'), rest''. by rewrite <- app_assoc.
      * split; [done|]. intros (any & rest' & E & _). destruct (split_once_str_leftmost q rest any _ E) as (a' & b' & Hs' & _). congruence.
Qed.

Lemma split_char_single c p q : split_char c p = [q] -> q = p.
Proof.
  revert q; induction p as [|d p IH]; intros q; cbn [split_char]; [by intros [= <-]|].
  destruct (split_char_cons c p) as (r & rs & E). rewrite E in *. destruct (c =? d); [done|]. intros [= <- ->]. by rewrite (IH r).
Qed.

Lemma split_char_hd c p : hd [] (split_char c p) = [] <-> p = [] \/ exists p', p = c :: p'.
Proof.
  destruct p as [|d p]; cbn [split_char]; [naive_solver|]. destruct (split_char_cons c p) as (r & rs & E). rewrite E.
  destruct (Z.eqb_spec c d) as [->|Hd]; cbn [hd]; naive_solver.
Qed.

Lemma split_char_last c p d : List.last (split_char c (p ++ [d])) [] = [] <-> c = d.
Proof.
  induction p as [|e p IH]; cbn [app split_char].
  - destruct (Z.eqb_spec c d); cbn [List.last]; naive_solver.
  - destruct (split_char_cons c (p ++ [d])) as (r & rs & E). rewrite E in *. destruct (c =? e); [done|].
    destruct rs as [|s rs]; [|done]. cbn [List.last] in *. split; [done|]. intros ->. exfalso.
    apply split_char_single in E. rewrite (proj2 IH eq_refl) in E. by destruct p.
Qed.

Lemma starts_with_single c p : starts_with [c] p = true <-> exists p', p = c :: p'.
Proof. apply starts_with_true. Qed.

(** Redaction patterns mean what they say: a name matches exactly when the
    stars of the pattern can be replaced by texts that give the name. *)
Theorem glob_match_is_glob pattern name : glob_match pattern name = true <-> glob pattern name.
Proof.
  unfold glob_match. destruct (str_eqb pattern (str "*")) eqn:Hstar.
  { apply bool_decide_eq_true in Hstar as ->. split; [|done]. intros _. rewrite <- (app_nil_r name). by repeat constructor. }
  rewrite glob_pieces. destruct (split_char_cons (ch "*") pattern) as (q & parts & E). rewrite E. case_bool_decide as Hlen.
  { destruct parts; [|done]. rewrite (split_char_single _ _ _ E) in *. cbn [pieces_match]. unfold str_eqb. rewrite bool_decide_eq_true. naive_solver. }
  assert (parts ≠ []) as Hne by (by destruct parts). cbn [hd tail]. rewrite pieces_match_cons by done.
  assert (List.last (q :: parts) [] = List.last parts []) as -> by (by destruct parts).
  replace (if starts_with (str "*") pattern then Some name else strip_prefix q name) with (strip_prefix q name).
  2: { destruct (starts_with (str "*") pattern) eqn:Hs; [|done]. apply (starts_with_single (ch "*")) in Hs as (p' & ->).
       pose proof (proj2 (split_char_hd (ch "*") (ch "*" :: p')) (or_intror (ex_intro _ p' eq_refl))) as Hq. rewrite E in Hq. cbn in Hq. by rewrite Hq. }
  replace (ends_with (str "*") pattern) with (str_eqb (List.last parts []) []).
  2: { apply eq_true_iff_eq. rewrite ends_with_true. unfold str_eqb. rewrite bool_decide_eq_true.
       replace (List.last parts []) with (List.last (split_char (ch "*") pattern) []) by (rewrite E; by destruct parts).
       destruct pattern as [|d p _] using rev_ind; [by destruct parts|]. rewrite split_char_last. split; [intros <-; by exists p|].
       intros (r & Hr). by apply app_inj_tail in Hr as [_ ->]. }
  destruct (strip_prefix q name) as [rest|] eqn:Hp.
  - apply strip_prefix_Some in Hp as ->. rewrite glob_parts_correct by done. split; [eauto|]. intros (rest' & Hr%app_inv_head & Hm). by subst.
  - split; [done|]. intros (rest & -> & _). by rewrite (proj2 (strip_prefix_Some q (q ++ rest) rest)) in Hp.
Qed.

(** ** Fuel *)

Lemma expand_templates_from_total fuel lookup output rest : (length rest < fuel)%nat -> expand_templates_from fuel lookup output rest ≠ Err TemplateFuel.
Proof.
  revert output rest; induction fuel as [|fuel IH]; intros output rest Hf; [lia|]. cbn [expand_templates_from].
  destruct (split_once_str (str "{{") rest) as [[before after]|] eqn:E1; [|done]. destruct (split_once_str (str "}}") after) as [[expression rest']|] eqn:E2; [|done].
  apply split_once_str_Some in E1 as ->, E2 as ->. rewrite !length_app in Hf.
  change (length (str "{{")) with 2%nat in Hf. change (length (str "}}")) with 2%nat in Hf.
  assert (expand_expression lookup (trim expression) ≠ Err TemplateFuel) as Hx.
  { unfold expand_expression. destruct (strip_prefix _ _); [by destruct (lookup _)|]. destruct (str_eqb _ _); [by destruct (lookup _)|done]. }
  destruct (expand_expression lookup (trim expression)); cbn [res_bind]; [|congruence]. apply IH. lia.
Qed.

(** Templates are expanded to the end of every value. *)
Lemma expand_templates_total value lookup : expand_templates value lookup ≠ Err TemplateFuel.
Proof. apply expand_templates_from_total. lia. Qed.

Lemma take_while_length p s a b : take_while p s = (a, b) -> (length b <= length s)%nat.
Proof. unfold take_while. intros E. pose proof (span_not_app (fun c => negb (p c)) s) as Hs. rewrite E in Hs. rewrite Hs, length_app. lia. Qed.

(** So are references: more fuel changes nothing. *)
Lemma expand_dollar_total fuel value lookup : (length value <= fuel)%nat -> expand_dollar_from fuel lookup value = expand_dollar value lookup.
Proof.
  unfold expand_dollar. remember (length value) as n eqn:En. assert (length value <= n)%nat as Hn by lia. clear En. revert fuel value Hn.
  induction n as [|n IH]; intros fuel value Hn Hf; [destruct value; [by destruct fuel|cbn in Hn; lia]|].
  destruct fuel as [|fuel]; [lia|]. cbn [expand_dollar_from]. destruct value as [|c value]; [done|]. cbn [length] in Hn.
  destruct (negb _); [by rewrite IH by lia|]. destruct value as [|d braced]; [done|]. destruct (d =? _).
  - destruct (take_while _ braced) as [name [|? rest]] eqn:Et; [done|]. apply take_while_length in Et. cbn [length] in *. by rewrite IH by lia.
  - destruct (_ || _); [|by rewrite IH by (cbn [length] in *; lia)]. destruct (take_while _ _) as [name rest] eqn:Et.
    apply take_while_length in Et. by rewrite IH by (cbn [length] in *; lia).
Qed.

(** * Assignments *)

Abbreviation keys := (map (@fst rstr rstr)) (only parsing).

(** The table behind the assignments: every name once, [index] its position. *)
Definition slots_ok (l : list (rstr * rstr)) (index : gmap rstr nat) : Prop :=
  NoDup (keys l) /\ forall n i, index !! n = Some i <-> exists v, l !! i = Some (n, v).

Definition as_map (l : list (rstr * rstr)) : gmap rstr rstr := list_to_map l.

Lemma slots_absent l index n : slots_ok l index -> index !! n = None -> n ∉ keys l.
Proof.
  intros [_ Hi] E ([m v] & -> & (i & Hv)%list_elem_of_lookup)%list_elem_of_fmap. cbn in E.
  assert (index !! m = Some i) by (apply Hi; eauto). congruence.
Qed.

Lemma as_map_Some l n v : NoDup (keys l) -> (n, v) ∈ l -> as_map l !! n = Some v.
Proof. intros Hd Hn. by apply elem_of_list_to_map_1. Qed.

Lemma as_map_None l n : n ∉ keys l -> as_map l !! n = None.
Proof. apply not_elem_of_list_to_map_1. Qed.

Lemma as_map_middle a n v b : NoDup (keys (a ++ (n, v) :: b)) -> as_map (a ++ (n, v) :: b) = <[n := v]> (as_map (a ++ b)).
Proof.
  intros Hd. unfold as_map. rewrite (list_to_map_proper (a ++ (n, v) :: b) ((n, v) :: a ++ b)); [done|done|]. by rewrite Permutation_middle.
Qed.

Lemma extend_union env l : NoDup (keys l) -> extend env l = as_map l ∪ env.
Proof.
  revert env; induction l as [|[n v] l IH]; intros env; [intros _; symmetry; apply (left_id_L ∅ (∪))|]. intros [Hn Hd]%NoDup_cons.
  cbn [extend foldl]. fold (extend (<[n := v]> env) l). rewrite IH by done.
  change (as_map ((n, v) :: l)) with (<[n := v]> (as_map l)). rewrite <- insert_union_l. symmetry. apply insert_union_r.
  by apply not_elem_of_list_to_map_1.
Qed.

Lemma remove_all_lookup env l n : remove_all env l !! n = if bool_decide (n ∈ l) then None else env !! n.
Proof.
  revert env; induction l as [|m l IH]; intros env; [by rewrite bool_decide_eq_false_2 by apply not_elem_of_nil|].
  cbn [remove_all foldl]. fold (remove_all (delete m env) l). rewrite IH. destruct (decide (n = m)) as [->|Hm].
  - rewrite (bool_decide_eq_true_2 (m ∈ m :: l)) by set_solver. rewrite lookup_delete_eq. by case_bool_decide.
  - rewrite lookup_delete_ne by done. do 2 case_bool_decide; set_solver.
Qed.

Lemma put_slot_ok l index name value l' index' : slots_ok l index -> put_slot l index name value = (l', index') ->
  slots_ok l' index' /\ as_map l' = <[name := value]> (as_map l) /\ forall n, n ∈ keys l' <-> n = name \/ n ∈ keys l.
Proof.
  intros [Hd Hi]. unfold put_slot. destruct (index !! name) as [i|] eqn:E; intros [= <- <-].
  - apply Hi in E as (old & E). pose proof (take_drop_middle l i _ E) as Hl. assert (i < length l)%nat as Hlt by by eapply lookup_lt_Some.
    assert (keys (<[i := (name, value)]> l) = keys l) as Hk.
    { rewrite list_fmap_insert. apply list_insert_id. by rewrite list_lookup_fmap, E. }
    split_and!; [split|..]; rewrite ?Hk.
    + done.
    + intros n j. rewrite Hi. destruct (decide (i = j)) as [<-|Hj]; [rewrite list_lookup_insert_eq, E by done; naive_solver|by rewrite list_lookup_insert_ne].
    + rewrite insert_take_drop by done. rewrite insert_take_drop in Hk by done. rewrite as_map_middle by (by rewrite Hk).
      rewrite <- Hl at 3. rewrite as_map_middle by (by rewrite Hl). by rewrite insert_insert_eq.
    + intros n. split; [by right|]. intros [->|?]; [|done]. apply list_elem_of_fmap. exists (name, old). split; [done|]. by eapply list_elem_of_lookup_2.
  - assert (name ∉ keys l) as Hn by (by eapply slots_absent).
    assert (NoDup (keys (l ++ [(name, value)]))) as Hd'.
    { rewrite map_app. apply NoDup_app. split_and!; [done| |apply NoDup_singleton]. by intros x Hx ->%list_elem_of_singleton. }
    split_and!; [split|..].
    + done.
    + intros n i. rewrite lookup_insert_Some, Hi. destruct (decide (n = name)) as [->|Hne].
      * split.
        -- intros [[_ <-]|[? _]]; [|done]. exists value. by rewrite lookup_app_r, Nat.sub_diag.
        -- intros (v & Hv). left. split; [done|]. apply lookup_app_Some in Hv as [Hv|[Hle Hv]]; [|apply list_lookup_singleton_Some in Hv as [? _]; lia].
           destruct Hn. apply list_elem_of_fmap. exists (name, v). split; [done|]. by eapply list_elem_of_lookup_2.
      * split.
        -- intros [[? _]|[_ (v & Hv)]]; [done|]. exists v. by apply lookup_app_l_Some.
        -- intros (v & Hv). right. split; [done|]. exists v. apply lookup_app_Some in Hv as [Hv|[_ Hv]]; [done|].
           apply list_lookup_singleton_Some in Hv as [_ [= <- _]]. done.
    + rewrite as_map_middle by done. by rewrite app_nil_r.
    + intros n. rewrite map_app, elem_of_app. cbn. rewrite list_elem_of_singleton. naive_solver.
Qed.

Lemma positions_lookup slot l index n i : NoDup (keys l) ->
  positions slot l index !! n = Some i <->
  (exists j v, i = (slot + j)%nat /\ l !! j = Some (n, v)) \/ (n ∉ keys l /\ index !! n = Some i).
Proof.
  revert slot index; induction l as [|[k w] l IH]; intros slot index; cbn [positions map fst].
  { intros _. split; [intros; right; split; [apply not_elem_of_nil|done]|]. intros [(j & v & _ & ?)|[_ ?]]; done. }
  intros [Hk Hd]%NoDup_cons. rewrite IH, lookup_insert_Some by done. rewrite not_elem_of_cons. split.
  - intros [(j & v & -> & Hj)|[Hn [[<- <-]|[Hne Hi]]]].
    + left. exists (S j), v. split; [lia|done].
    + left. exists O, w. split; [lia|done].
    + right. done.
  - intros [([|j] & v & -> & Hj)|[[Hne Hn] Hi]].
    + injection Hj as -> _. right. split; [done|]. left. split; [done|lia].
    + left. exists j, v. split; [lia|done].
    + right. split; [done|]. right. done.
Qed.

Lemma positions_ok l : NoDup (keys l) -> slots_ok l (positions 0 l ∅).
Proof.
  intros Hd. split; [done|]. intros n i. rewrite positions_lookup by done. rewrite lookup_empty. split.
  - intros [(j & v & -> & Hj)|[_ ?]]; [by exists v|done].
  - intros (v & Hv). left. by exists i, v.
Qed.

Lemma delete_slot l i name v : NoDup (keys l) -> l !! i = Some (name, v) ->
  NoDup (keys (delete i l)) /\ as_map (delete i l) = delete name (as_map l) /\ name ∉ keys (delete i l) /\
  forall n, n ∈ keys (delete i l) -> n ∈ keys l.
Proof.
  intros Hd E. pose proof (take_drop_middle l i _ E) as Hl. rewrite delete_take_drop. set (a := take i l) in *. set (b := drop (S i) l) in *.
  rewrite <- Hl in *. clear Hl E. pose proof (as_map_middle a name v b Hd) as Hm. rewrite map_app in Hd. cbn in Hd.
  rewrite <- Permutation_middle in Hd. apply NoDup_cons in Hd as [Hn Hd]. rewrite <- map_app in Hn, Hd. split_and!; [done| |done|].
  - rewrite Hm, delete_insert_eq. symmetry. by apply delete_id, as_map_None.
  - intros n. rewrite !map_app, !elem_of_app. cbn. rewrite elem_of_cons. naive_solver.
Qed.

Lemma filter_slots l name : NoDup (keys l) ->
  let l' := List.filter (fun kv => negb (str_eqb kv.1 name)) l in
  NoDup (keys l') /\ as_map l' = delete name (as_map l) /\ forall n, n ∈ keys l' <-> n ∈ keys l /\ n ≠ name.
Proof.
  induction l as [|[k v] l IH]; cbn [List.filter map fst].
  { intros _. split_and!; [apply NoDup_nil_2|symmetry; exact (delete_empty name)|]. intros n. split; [by intros ?%elem_of_nil|by intros [?%elem_of_nil _]]. }
  intros [Hk Hd]%NoDup_cons. specialize (IH Hd) as (IH1 & IH2 & IH3). change (as_map ((k, v) :: l)) with (<[k := v]> (as_map l)).
  destruct (str_eqb k name) eqn:E; cbn [negb].
  - apply bool_decide_eq_true in E as ->. split_and!; [done| |].
    + by rewrite IH2, delete_insert_eq.
    + intros n. rewrite IH3, elem_of_cons. naive_solver.
  - apply bool_decide_eq_false in E. split_and!.
    + cbn. constructor; [|done]. rewrite IH3. naive_solver.
    + cbn. unfold as_map in IH2. rewrite IH2. by rewrite delete_insert_ne.
    + intros n. cbn. rewrite !elem_of_cons, IH3. naive_solver.
Qed.

Lemma elem_of_without n name l : n ∈ without name l <-> n ∈ l /\ n ≠ name.
Proof. unfold without. rewrite !list_elem_of_In, filter_In, negb_true_iff. unfold str_eqb. by rewrite bool_decide_eq_false. Qed.

Lemma existsb_str name l : existsb (str_eqb name) l = true <-> name ∈ l.
Proof.
  rewrite existsb_exists. setoid_rewrite list_elem_of_In. unfold str_eqb. setoid_rewrite bool_decide_eq_true. naive_solver.
Qed.

Lemma elem_of_push n name (l : list rstr) : n ∈ (if existsb (str_eqb name) l then l else l ++ [name]) <-> n = name \/ n ∈ l.
Proof.
  destruct (existsb (str_eqb name) l) eqn:E; [apply existsb_str in E; naive_solver|]. rewrite elem_of_app, list_elem_of_singleton. naive_solver.
Qed.

(** * The resolver *)

(** An environment after assignments and removals. *)
Definition changed (env : Env) (l : list (rstr * rstr)) (gone : list rstr) : gmap rstr rstr := remove_all (extend env l) gone.

Definition disjoint_keys (l : list (rstr * rstr)) (gone : list rstr) : Prop := forall n, n ∈ gone -> n ∉ keys l.

Lemma changed_lookup env l gone n : NoDup (keys l) ->
  changed env l gone !! n = if bool_decide (n ∈ gone) then None else match as_map l !! n with Some v => Some v | None => env !! n end.
Proof.
  intros Hd. unfold changed. rewrite remove_all_lookup, extend_union by done. case_bool_decide; [done|].
  destruct (as_map l !! n) eqn:E; [by apply lookup_union_Some_l|]. by rewrite lookup_union_r.
Qed.

(** Assigning and removing, seen on the environment. *)
Lemma changed_assign env l l' gone gone' name value :
  NoDup (keys l) -> NoDup (keys l') -> as_map l' = <[name := value]> (as_map l) -> (forall n, n ∈ gone' <-> n ∈ gone /\ n ≠ name) ->
  changed env l' gone' = <[name := value]> (changed env l gone).
Proof.
  intros Hd Hd' Hm Hg. apply map_eq. intros n. rewrite changed_lookup, Hm by done. destruct (decide (n = name)) as [->|Hn].
  - rewrite bool_decide_eq_false_2 by naive_solver. by rewrite !lookup_insert_eq.
  - rewrite !lookup_insert_ne, changed_lookup by done. by rewrite (bool_decide_ext (n ∈ gone') (n ∈ gone)) by naive_solver.
Qed.

Lemma changed_remove env l l' gone gone' name :
  NoDup (keys l) -> NoDup (keys l') -> as_map l' = delete name (as_map l) -> (forall n, n ∈ gone' <-> n = name \/ n ∈ gone) ->
  changed env l' gone' = delete name (changed env l gone).
Proof.
  intros Hd Hd' Hm Hg. apply map_eq. intros n. rewrite changed_lookup, Hm by done. destruct (decide (n = name)) as [->|Hn].
  - rewrite bool_decide_eq_true_2 by naive_solver. by rewrite lookup_delete_eq.
  - rewrite !lookup_delete_ne, changed_lookup by done. by rewrite (bool_decide_ext (n ∈ gone') (n ∈ gone)) by naive_solver.
Qed.

Definition resolver_ok (r : Resolver) : Prop := slots_ok (assigned r) (index r) /\ disjoint_keys (assigned r) (removed r).

Definition view (r : Resolver) : gmap rstr rstr := changed (base r) (assigned r) (removed r).

(** What never changes. *)
Definition same_context (r r' : Resolver) : Prop :=
  base r' = base r /\ config_root r' = config_root r /\ strict r' = strict r /\ patterns r' = patterns r.

Lemma same_context_trans r1 r2 r3 : same_context r1 r2 -> same_context r2 r3 -> same_context r1 r3.
Proof. unfold same_context. intros (->&->&->&->). done. Qed.

(** A variable, as templates see it. *)
Definition see (root : rstr) (env : Env) (name : rstr) : option rstr := if str_eqb name CONFIG_ROOT then Some root else env !! name.

Lemma lookup_var_view r name : resolver_ok r -> lookup_var r name = see (config_root r) (view r) name.
Proof.
  intros [[Hd Hi] Hg]. unfold lookup_var, see, view. destruct (str_eqb name CONFIG_ROOT); [done|]. rewrite changed_lookup by done.
  destruct (existsb (str_eqb name) (removed r)) eqn:E; [apply existsb_str in E; by rewrite bool_decide_eq_true_2|].
  rewrite bool_decide_eq_false_2 by (rewrite <- existsb_str; congruence).
  destruct (index r !! name) as [i|] eqn:Ei; cbn [mbind option_bind].
  - apply Hi in Ei as (v & Hv). rewrite Hv, (as_map_Some _ _ v); [done|done|]. by eapply list_elem_of_lookup_2.
  - by rewrite as_map_None by (by eapply slots_absent).
Qed.

Lemma assign_ok r name value redact : resolver_ok r ->
  resolver_ok (assign r name value redact) /\ view (assign r name value redact) = <[name := value]> (view r) /\
  same_context r (assign r name value redact).
Proof.
  intros [Hs Hg]. unfold assign. destruct (put_slot (assigned r) (index r) name value) as [l' index'] eqn:E.
  destruct (put_slot_ok _ _ _ _ _ _ Hs E) as (Hs' & Hm & Hk). split_and!; [split; [done|]| |by split_and!].
  - intros n. cbn [removed assigned]. rewrite elem_of_without, Hk. intros [Hn Hne] [?|Hin]; [done|]. by apply (Hg n).
  - unfold view. cbn [base assigned removed]. apply changed_assign; [apply Hs|apply Hs'|done|]. intros n. apply elem_of_without.
Qed.

Lemma remove_ok r name : resolver_ok r ->
  resolver_ok (remove r name) /\ view (remove r name) = delete name (view r) /\ same_context r (remove r name).
Proof.
  intros [[Hd Hi] Hg]. unfold remove. destruct (index r !! name) as [i|] eqn:Ei.
  - apply Hi in Ei as (v & Hv). destruct (delete_slot _ _ _ _ Hd Hv) as (Hd' & Hm & Hn & Hk). split_and!; [split; [by apply positions_ok|]| |by split_and!].
    + intros n. cbn [removed assigned]. rewrite elem_of_push. intros [->|Hin]; [done|]. intros Hkey. apply (Hg n); auto.
    + unfold view. cbn [base assigned removed]. apply changed_remove; [done..|]. intros n. apply elem_of_push.
  - assert (name ∉ keys (assigned r)) as Hn by (by eapply slots_absent).
    split_and!; [split; [done|]| |by split_and!].
    + intros n. cbn [removed assigned]. rewrite elem_of_push. intros [->|Hin]; [done|]. by apply Hg.
    + unfold view. cbn [base assigned removed]. apply changed_remove; [done..| |intros n; apply elem_of_push].
      symmetry. by apply delete_id, as_map_None.
Qed.

(** * Layers as changes of one environment *)

Section layers.
Context `{MiseWorld} (root : rstr) (strictness : Strictness).

Definition layer_pair (directive : EnvFileDirective) (env : gmap rstr rstr) (kv : rstr * rstr) : gmap rstr rstr :=
  <[kv.1 := if expand directive then expand_dollar kv.2 (see root env) else kv.2]> env.

Definition layer_file (tools_phase : bool) (env : gmap rstr rstr) (fp : EnvFileDirective * list (rstr * rstr)) : gmap rstr rstr :=
  if Bool.eqb (file_tools_phase fp.1) tools_phase then foldl (layer_pair fp.1) env fp.2 else env.

(** What the documentation promises of one entry. *)
Definition layer_entry (tools_phase : bool) (env : gmap rstr rstr) (entry : EnvEntry) : result (gmap rstr rstr) MiseError :=
  if negb (Bool.eqb (entry_tools_phase entry) tools_phase) then Ok env
  else match action entry with
       | Set_ raw => let? value := expand_templates raw (see root env) in Ok (<[entry_var entry := value]> env)
       | Default raw =>
           if is_blank (env !! entry_var entry) then let? value := expand_templates raw (see root env) in Ok (<[entry_var entry := value]> env)
           else Ok env
       | Required _ =>
           if is_blank (env !! entry_var entry) then
             match strictness with Strict => Err (RequiredMissing (entry_var entry)) | Lenient => Ok env end
           else Ok env
       | Unset => Ok (delete (entry_var entry) env)
       end.

Definition layer_phase (parsed : MiseEnv) (file_pairs : list (EnvFileDirective * list (rstr * rstr))) (env : gmap rstr rstr) (tools_phase : bool)
    : result (gmap rstr rstr) MiseError :=
  let env := foldl (layer_file tools_phase) env file_pairs in
  let? env := for_each (layer_entry tools_phase) env (entries parsed) in
  for_each apply_script (with_path_overlay env (of_phase tools_phase (paths parsed))) (of_phase tools_phase (sources parsed)).

(** ** The resolver follows *)

Lemma expand_expression_ext f g e : (forall n, f n = g n) -> expand_expression f e = expand_expression g e.
Proof. intros E. unfold expand_expression. destruct (strip_prefix _ e); by rewrite E. Qed.

Lemma expand_templates_ext f g value : (forall n, f n = g n) -> expand_templates value f = expand_templates value g.
Proof.
  intros E. unfold expand_templates. generalize (S (length value)) as fuel. intros fuel. generalize (@nil Z) as output.
  revert value; induction fuel as [|fuel IH]; intros value output; [done|]. cbn [expand_templates_from].
  destruct (split_once_str _ value) as [[before after]|]; [|done]. destruct (split_once_str _ after) as [[expression rest]|]; [|done].
  rewrite (expand_expression_ext f g) by done. destruct (expand_expression g (trim expression)); [apply IH|done].
Qed.

Lemma expand_dollar_ext f g value : (forall n, f n = g n) -> expand_dollar value f = expand_dollar value g.
Proof.
  intros E. unfold expand_dollar. generalize (length value) as fuel. intros fuel. revert value; induction fuel as [|fuel IH]; intros value; [done|].
  cbn [expand_dollar_from]. destruct value as [|c value]; [done|]. destruct (negb _); [by rewrite IH|]. destruct value as [|d braced]; [done|].
  destruct (d =? _).
  - destruct (take_while _ braced) as [name [|? rest]]; [done|]. by rewrite E, IH.
  - destruct (_ || _); [|by rewrite IH]. destruct (take_while _ _) as [name rest]. by rewrite E, IH.
Qed.

Definition in_context (r : Resolver) : Prop := resolver_ok r /\ config_root r = root /\ strict r = strictness.

(** A step of the resolver and the same step on the environment. *)
Definition tracks (r : Resolver) (p : result Resolver MiseError) (q : result (gmap rstr rstr) MiseError) : Prop :=
  match p, q with
  | Ok r', Ok env => in_context r' /\ view r' = env /\ same_context r r'
  | Err e, Err e' => e = e'
  | _, _ => False
  end.

Lemma tracks_after r r' p q : same_context r r' -> tracks r' p q -> tracks r p q.
Proof.
  intros Hc Ht. destruct p, q; try done. destruct Ht as (? & ? & ?). split_and!; [done|done|]. by eapply same_context_trans.
Qed.

Lemma tracks_bind r p q f g : tracks r p q -> (forall r', in_context r' -> same_context r r' -> tracks r' (f r') (g (view r'))) ->
  tracks r (res_bind p f) (res_bind q g).
Proof.
  intros Hp Hf. destruct p as [r'|e], q as [env|e']; try done. destruct Hp as (Hr & <- & Hc). cbn [res_bind]. eapply tracks_after; [done|]. by apply Hf.
Qed.

Lemma tracks_for_each {A} (f : Resolver -> A -> result Resolver MiseError) g r l : in_context r ->
  (forall r x, in_context r -> x ∈ l -> tracks r (f r x) (g (view r) x)) -> tracks r (for_each f r l) (for_each g (view r) l).
Proof.
  revert r; induction l as [|x l IH]; intros r Hr Hf; cbn [for_each]; [by split_and!|].
  apply tracks_bind; [apply Hf; [done|by left]|]. intros r' Hr' _. apply IH; [done|]. intros. apply Hf; [done|by right].
Qed.

Lemma tracks_fold {A} (f : Resolver -> A -> Resolver) g r l : in_context r ->
  (forall r x, in_context r -> tracks r (Ok (f r x)) (Ok (g (view r) x))) -> tracks r (Ok (foldl f r l)) (Ok (foldl g (view r) l)).
Proof.
  intros Hr Hf. revert r Hr; induction l as [|x l IH]; intros r Hr; cbn [foldl]; [by split_and!|].
  destruct (Hf r x Hr) as (Hr' & <- & Hc). eapply tracks_after; [done|]. by apply IH.
Qed.

Lemma tracks_assign r name value redact : in_context r -> tracks r (Ok (assign r name value redact)) (Ok (<[name := value]> (view r))).
Proof.
  intros (Hr & H1 & H2). destruct (assign_ok r name value redact Hr) as (Hr' & Hv & Hc). split_and!; [|done|done].
  destruct Hc as (_ & E1 & E2 & _). split_and!; congruence || done.
Qed.

Lemma tracks_remove r name : in_context r -> tracks r (Ok (remove r name)) (Ok (delete name (view r))).
Proof.
  intros (Hr & H1 & H2). destruct (remove_ok r name Hr) as (Hr' & Hv & Hc). split_and!; [|done|done].
  destruct Hc as (_ & E1 & E2 & _). split_and!; congruence || done.
Qed.

Lemma lookup_var_see r name : in_context r -> lookup_var r name = see root (view r) name.
Proof. intros (Hr & E & _). rewrite <- E. by apply lookup_var_view. Qed.

Lemma tracks_same r : in_context r -> tracks r (Ok r) (Ok (view r)).
Proof. intros Hr. by split_and!. Qed.

Lemma tracks_value (o : result rstr MiseError) r name redact : in_context r ->
  tracks r (let? value := o in Ok (assign r name value redact)) (let? value := o in Ok (<[name := value]> (view r))).
Proof. intros Hr. destruct o; [by apply tracks_assign|done]. Qed.

Lemma tracks_entry r entry tools_phase : in_context r -> entry_var entry ≠ CONFIG_ROOT ->
  tracks r (let? rb := apply_entry r entry tools_phase in Ok rb.1) (layer_entry tools_phase (view r) entry).
Proof.
  intros Hr Hn. unfold apply_entry, layer_entry. destruct (negb (Bool.eqb _ _)); [by apply tracks_same|].
  assert (forall o : result Resolver MiseError, (let? rb := (let? r := o in Ok (r, true)) in Ok rb.1) = o) as -> by (by intros []).
  assert (lookup_var r (entry_var entry) = view r !! entry_var entry) as ->.
  { rewrite lookup_var_see by done. unfold see, str_eqb. by rewrite bool_decide_eq_false_2. }
  assert (forall raw, expand_templates raw (lookup_var r) = expand_templates raw (see root (view r))) as Hx.
  { intros raw. apply expand_templates_ext. intros n. by apply lookup_var_see. }
  destruct (action entry) as [raw|raw|redact|].
  - rewrite Hx. by apply tracks_value.
  - destruct (view r !! entry_var entry) as [v|] eqn:E; cbn [is_blank]; [|rewrite Hx; by apply tracks_value].
    destruct v; [rewrite Hx; by apply tracks_value|]. rewrite <- (insert_id (view r) (entry_var entry) _ E). by apply tracks_assign.
  - assert (tracks r (match strict r with Strict => Err (RequiredMissing (entry_var entry)) | Lenient => Ok (set_warned r) end)
      (match strictness with Strict => Err (RequiredMissing (entry_var entry)) | Lenient => Ok (view r) end)) as Hb.
    { assert (in_context (set_warned r)) as Hw by (destruct Hr as (? & ? & ?); by split_and!).
      destruct Hr as (_ & _ & ->). destruct strictness; [done|]. by split_and!. }
    destruct (view r !! entry_var entry) as [[|c v]|] eqn:E; [exact Hb| |exact Hb].
    cbn [is_blank]. rewrite <- (insert_id (view r) (entry_var entry) _ E). by apply tracks_assign.
  - by apply tracks_remove.
Qed.

Lemma tracks_file r fp tools_phase : in_context r ->
  tracks r (Ok (apply_file r fp.1 fp.2 tools_phase)) (Ok (layer_file tools_phase (view r) fp)).
Proof.
  intros Hr. unfold apply_file, layer_file. destruct (Bool.eqb _ _); cbn [negb]; [|by apply tracks_same].
  apply tracks_fold; [done|]. intros r' kv Hr'. unfold apply_pair, layer_pair.
  rewrite (expand_dollar_ext (lookup_var r') (see root (view r'))) by (intros; by apply lookup_var_see). by apply tracks_assign.
Qed.

Lemma tracks_paths r dirs : in_context r -> tracks r (Ok (apply_paths r dirs)) (Ok (with_path_overlay (view r) dirs)).
Proof.
  intros Hr. unfold apply_paths, with_path_overlay. destruct dirs; [by apply tracks_same|]. rewrite lookup_var_see by done. by apply tracks_assign.
Qed.

Lemma tracks_source r script : in_context r -> tracks r (run_source r script) (apply_script (view r) script).
Proof.
  intros Hr. unfold run_source, apply_script. fold (changed (base r) (assigned r) (removed r)). fold (view r).
  destruct (eval_sourced_file script (view r)) as [sourced|e]; [|done]. cbn [res_bind].
  assert (tracks r (Ok (foldl (fun r kv => assign r kv.1 kv.2 false) r (set sourced))) (Ok (extend (view r) (set sourced)))) as (Hr1 & Hv1 & Hc1).
  { apply tracks_fold; [done|]. intros r' kv Hr'. by apply tracks_assign. }
  rewrite <- Hv1. eapply tracks_after; [done|]. apply (tracks_fold remove (fun env name => delete name env)); [done|].
  intros r' name Hr'. by apply tracks_remove.
Qed.

Definition named_entries (parsed : MiseEnv) : Prop := forall entry, entry ∈ entries parsed -> entry_var entry ≠ CONFIG_ROOT.

Lemma tracks_phase parsed file_pairs r tools_phase : in_context r -> named_entries parsed ->
  tracks r (resolve_phase parsed file_pairs r tools_phase) (layer_phase parsed file_pairs (view r) tools_phase).
Proof.
  intros Hr Hn. unfold resolve_phase, layer_phase.
  destruct (tracks_fold (fun r fp => apply_file r fp.1 fp.2 tools_phase) (layer_file tools_phase) r file_pairs Hr) as (Hr1 & Hv1 & Hc1).
  { intros r' fp Hr'. by apply tracks_file. }
  rewrite <- Hv1. set (r1 := foldl _ r file_pairs) in *.
  assert (tracks r1 (let? r := for_each (fun r entry => let? rb := apply_entry r entry tools_phase in Ok rb.1) r1 (entries parsed) in
      for_each run_source (apply_paths r (of_phase tools_phase (paths parsed))) (of_phase tools_phase (sources parsed)))
    (let? env := for_each (layer_entry tools_phase) (view r1) (entries parsed) in
      for_each apply_script (with_path_overlay env (of_phase tools_phase (paths parsed))) (of_phase tools_phase (sources parsed)))) as Ht.
  { apply tracks_bind; [apply tracks_for_each; [done|]; intros; apply tracks_entry; auto|]. intros r2 Hr2 _.
    destruct (tracks_paths r2 (of_phase tools_phase (paths parsed)) Hr2) as (Hr3 & <- & Hc3).
    match goal with |- tracks _ ?p ?q => assert (tracks (apply_paths r2 (of_phase tools_phase (paths parsed))) p q) as Ht end.
    { apply tracks_for_each; [done|]. intros. by apply tracks_source. }
    eapply tracks_after; [exact Hc3|exact Ht]. }
  eapply tracks_after; [exact Hc1|exact Ht].
Qed.

(** Resolved environments as the code builds them. *)
Definition resolved_ok (r : ResolvedEnv) : Prop :=
  NoDup (keys (set r)) /\ disjoint_keys (set r) (unset r) /\ path_additions r = [] /\ scripts r = [].

Lemma resolve_one_layers parsed file_pairs env patterns : named_entries parsed ->
  match resolve_one parsed file_pairs env root patterns strictness, for_each (layer_phase parsed file_pairs) env [false; true] with
  | Ok r, Ok env' => resolved_ok r /\ changed env (set r) (unset r) = env'
  | Err e, Err e' => e = e'
  | _, _ => False
  end.
Proof.
  intros Hn. unfold resolve_one. set (r0 := new_resolver env root patterns strictness).
  assert (in_context r0) as Hr0.
  { split_and!; [split; [apply (positions_ok []), NoDup_nil_2|]|done|done]. intros n ?%elem_of_nil. done. }
  assert (tracks r0 (for_each (resolve_phase parsed file_pairs) r0 [false; true]) (for_each (layer_phase parsed file_pairs) (view r0) [false; true])) as Ht.
  { apply tracks_for_each; [done|]. intros. by apply tracks_phase. }
  change (view r0) with env in Ht. destruct (for_each (resolve_phase _ _) _ _) as [r|e], (for_each (layer_phase _ _) _ _) as [env'|e']; try done.
  destruct Ht as ((((Hd & _) & Hg) & _) & <- & Hb & _). cbn [res_bind]. split; [by split_and!|]. unfold view. by rewrite Hb.
Qed.
End layers.

Lemma resolved_ok_default : resolved_ok ResolvedEnv_default.
Proof. split_and!; [apply NoDup_nil_2|by intros n ?%elem_of_nil|done|done]. Qed.

(** * Merging *)

(** An accumulated environment that stands for [env]. *)
Definition stands_for (base : Env) (acc : ResolvedEnv) (env : Env) : Prop :=
  NoDup (keys (set acc)) /\ disjoint_keys (set acc) (unset acc) /\ changed base (set acc) (unset acc) = env.

Lemma merge_set_ok base acc index env kv acc' index' : slots_ok (set acc) index -> stands_for base acc env -> merge_set (acc, index) kv = (acc', index') ->
  slots_ok (set acc') index' /\ stands_for base acc' (<[kv.1 := kv.2]> env) /\ path_additions acc' = path_additions acc /\ scripts acc' = scripts acc.
Proof.
  intros Hs (Hd & Hg & <-). unfold merge_set. destruct (put_slot (set acc) index kv.1 kv.2) as [l' i'] eqn:E. intros [= <- <-].
  destruct (put_slot_ok _ _ _ _ _ _ Hs E) as (Hs' & Hm & Hk). split_and!; [done| |done|done]. split_and!; [apply Hs'| |].
  - intros n. cbn [set unset]. rewrite elem_of_without, Hk. intros [Hn Hne] [?|Hin]; [done|]. by apply (Hg n).
  - cbn [set unset]. apply changed_assign; [done|apply Hs'|done|]. intros n. apply elem_of_without.
Qed.

Lemma merge_sets_ok base l acc index env acc' index' : slots_ok (set acc) index -> stands_for base acc env -> foldl merge_set (acc, index) l = (acc', index') ->
  stands_for base acc' (extend env l) /\ path_additions acc' = path_additions acc /\ scripts acc' = scripts acc.
Proof.
  revert acc index env; induction l as [|kv l IH]; intros acc index env Hs Ha; [by intros [= <- <-]|]. cbn [foldl].
  destruct (merge_set (acc, index) kv) as [acc1 index1] eqn:E. destruct (merge_set_ok _ _ _ _ _ _ _ Hs Ha E) as (Hs1 & Ha1 & <- & <-). by apply IH.
Qed.

Lemma merge_unsets_ok base l acc env : stands_for base acc env ->
  stands_for base (foldl merge_unset acc l) (remove_all env l) /\
  path_additions (foldl merge_unset acc l) = path_additions acc /\ scripts (foldl merge_unset acc l) = scripts acc.
Proof.
  revert acc env; induction l as [|name l IH]; intros acc env Ha; [done|]. cbn [foldl]. apply (IH (merge_unset acc name)).
  destruct Ha as (Hd & Hg & <-). destruct (filter_slots (set acc) name Hd) as (Hd' & Hm & Hk). split_and!; [done| |].
  - intros n. cbn [merge_unset set unset]. rewrite elem_of_push, Hk. intros [->|Hn] [Hin ?]; [done|]. by apply (Hg n).
  - cbn [merge_unset set unset]. apply changed_remove; [done..|]. intros n. apply elem_of_push.
Qed.

Lemma merge_chain_ok base acc next env : resolved_ok acc -> stands_for base acc env -> resolved_ok next ->
  resolved_ok (merge_chain acc next) /\ stands_for base (merge_chain acc next) (changed env (set next) (unset next)).
Proof.
  intros (Hd & _ & Hp & Hs) Ha (_ & _ & Hp' & Hs'). unfold merge_chain.
  destruct (foldl merge_set (acc, positions 0 (set acc) ∅) (set next)) as [acc1 index1] eqn:E.
  destruct (merge_sets_ok _ _ _ _ _ _ _ (positions_ok _ Hd) Ha E) as (Ha1 & Hp1 & Hs1).
  destruct (merge_unsets_ok base (unset next) acc1 _ Ha1) as (Ha2 & Hp2 & Hs2).
  split; [|exact Ha2]. destruct Ha2 as (? & ? & _). split_and!; [done|done| |]; cbn [path_additions scripts].
  - by rewrite Hp2, Hp1, Hp, Hp'.
  - by rewrite Hs', Hs2, Hs1, Hs.
Qed.

(** * Declared names *)

Definition identifier (name : rstr) : Prop := validate_env_name name = Ok tt.

Lemma identifier_not_root name : identifier name -> name ≠ CONFIG_ROOT.
Proof. intros Hn ->. by vm_compute in Hn. Qed.

Lemma parse_entry_name name spec entry : parse_entry name spec = Ok entry -> entry_var entry = name /\ identifier name.
Proof.
  unfold parse_entry. intros E. apply res_bind_Ok in E as ([] & Hn & E). split; [|done].
  destruct spec as [| | |[]| | |table]; try (by injection E as <-); try done.
  apply res_bind_Ok in E as ([] & _ & E). apply res_bind_Ok in E as (a & _ & E). by injection E as <-.
Qed.

Lemma parse_directive_entries config_root parsed kv parsed' :
  parse_directive config_root parsed kv = Ok parsed' -> entries parsed' = entries parsed.
Proof.
  destruct kv as [directive value]. unfold parse_directive. intros E.
  destruct (str_eqb directive (str "path")); [apply res_bind_Ok in E as (more & _ & E); by injection E as <-|].
  destruct (str_eqb directive (str "file")).
  { refine (for_each_inv _ (fun _ p => entries p = entries parsed) _ _ _ eq_refl _ E).
    intros _ item p p' IH _ Ep. apply res_bind_Ok in Ep as (entry & _ & Ep). injection Ep as <-. exact IH. }
  destruct (str_eqb directive (str "source")); [apply res_bind_Ok in E as (more & _ & E); by injection E as <-|done].
Qed.

Lemma parse_mise_env_names document config_root parsed entry :
  parse_mise_env document config_root = Ok parsed -> entry ∈ entries parsed -> identifier (entry_var entry).
Proof.
  unfold parse_mise_env. destruct (toml_field document (str "env") ≫= as_table) as [env|]; [|intros [= <-] ?%elem_of_nil; done].
  intros E. apply res_bind_Ok in E as (p & Hp & E).
  assert (entries parsed = entries p) as ->.
  { refine (for_each_inv _ (fun _ q => entries q = entries p) _ _ _ eq_refl _ E).
    intros _ pattern q q' IH _ Eq. apply res_bind_Ok in Eq as (? & _ & Eq). by injection Eq as <-. }
  revert entry. refine (for_each_inv _ (fun _ q => forall entry, entry ∈ entries q -> identifier (entry_var entry)) _ _ _ _ _ Hp).
  { by intros ? ?%elem_of_nil. }
  intros _ [name spec] q q' IH _ Eq entry Hin. unfold parse_variable in Eq. destruct (str_eqb name (str "_")).
  - apply res_bind_Ok in Eq as (directives & _ & Eq). apply IH.
    enough (entries q' = entries q) as <- by done.
    refine (for_each_inv _ (fun _ p => entries p = entries q) _ _ _ eq_refl _ Eq). intros _ kv p1 p2 Hp1 _ Ep. by rewrite <- Hp1; eapply parse_directive_entries.
  - apply res_bind_Ok in Eq as (e & He & Eq). injection Eq as <-. apply elem_of_app in Hin as [?| ->%list_elem_of_singleton]; [by apply IH|].
    apply parse_entry_name in He as [-> ?]. done.
Qed.

(** * The chain *)

Section chain.
Context `{MiseWorld} (strictness : Strictness).

(** One document, applied to the environment below it. *)
Definition layer (env : gmap rstr rstr) (document : Document) : result (gmap rstr rstr) MiseError :=
  let? parsed := parse_mise_env (document_value document) (document_root document) in
  let? file_pairs := for_each (load_pairs strictness) [] (files parsed) in
  for_each (layer_phase (document_root document) strictness parsed file_pairs) env [false; true].

Lemma chain_layer_layer base c document : resolved_ok (merged c) -> stands_for base (merged c) (effective c) ->
  match chain_layer strictness c document, layer (effective c) document with
  | Ok c', Ok env => resolved_ok (merged c') /\ stands_for base (merged c') (effective c') /\ effective c' = env
  | Err e, Err e' => e = e'
  | _, _ => False
  end.
Proof.
  intros Hm Hs. unfold chain_layer, layer. destruct (parse_mise_env (document_value document) (document_root document)) as [parsed|e] eqn:Hp; [|done].
  cbn [res_bind]. destruct (for_each (load_pairs strictness) [] (files parsed)) as [file_pairs|e]; [|done]. cbn [res_bind].
  pose proof (resolve_one_layers (document_root document) strictness parsed file_pairs (effective c) (chain_patterns c ++ redactions parsed)) as Hr.
  destruct (resolve_one _ _ _ _ _ _) as [resolved|e], (for_each (layer_phase _ _ _ _) _ _) as [env|e']; cbn [res_bind];
    (assert (named_entries parsed) as Hn by (intros entry Hin; by eapply identifier_not_root, parse_mise_env_names)); specialize (Hr Hn); try done.
  destruct Hr as [Hr <-]. destruct (merge_chain_ok base (merged c) resolved (effective c) Hm Hs Hr) as [? ?]. by split_and!.
Qed.

Lemma chain_layers base c documents : resolved_ok (merged c) -> stands_for base (merged c) (effective c) ->
  match for_each (chain_layer strictness) c documents, for_each layer (effective c) documents with
  | Ok c', Ok env => resolved_ok (merged c') /\ stands_for base (merged c') env
  | Err e, Err e' => e = e'
  | _, _ => False
  end.
Proof.
  revert c; induction documents as [|d documents IH]; intros c Hm Hs; [done|]. cbn [for_each]. pose proof (chain_layer_layer base c d Hm Hs) as Hl.
  destruct (chain_layer strictness c d) as [c'|e], (layer (effective c) d) as [env|e']; cbn [res_bind]; try done.
  destruct Hl as (Hm' & Hs' & <-). by apply IH.
Qed.

(** C16: The environment of a task is what its configuration files say, one
    after the other. Applying the merged result of the chain to a command
    gives the environment that results from applying the files in order, from
    the root directory to the project, each assignment, default, removal, file,
    path and script acting on the environment left by everything before it;
    and the chain fails exactly when that fails, with the same error. *)
Theorem environment_is_layered start base :
  (let? resolved := load_mise_env_chain start base strictness in apply_resolved_environment base resolved) =
  (let? documents := load start base in for_each layer base documents).
Proof.
  unfold load_mise_env_chain. destruct (load start base) as [documents|e]; [|done]. cbn [res_bind].
  pose proof (chain_layers base {| merged := ResolvedEnv_default; effective := base; chain_patterns := [] |} documents) as Hc. cbn [effective] in Hc.
  destruct (for_each (chain_layer strictness) _ documents) as [c|e], (for_each layer base documents) as [env|e']; cbn [res_bind].
  all: specialize (Hc resolved_ok_default (conj (proj1 resolved_ok_default) (conj (proj1 (proj2 resolved_ok_default)) eq_refl))); try done.
  - destruct Hc as ((_ & _ & Hp & Hscripts) & (_ & _ & <-)). unfold apply_resolved_environment. by rewrite Hp, Hscripts.
  - by rewrite Hc.
Qed.
End chain.

(** * Names and masks in the result *)

Section invariant.
Context `{MiseWorldLaws}.

(** Names of files, scripts and declarations are identifiers. *)
Lemma nul_env_names output n v : parse_nul_env output !! n = Some v -> identifier n.
Proof.
  unfold parse_nul_env. revert n v. assert (forall n v, (∅ : gmap rstr rstr) !! n = Some v -> identifier n) as Hempty by (intros n v Hn; by rewrite lookup_empty in Hn).
  revert Hempty. generalize (∅ : gmap rstr rstr) as vars. induction (split_char 0 output) as [|record l IH]; intros vars Hv; [done|]. cbn [foldl].
  apply IH. unfold nul_record. destruct (_ ≫= _) as [[key value]|]; [|done]. destruct (_ && _) eqn:E; [|done]. to_prop. intros n v.
  rewrite lookup_insert_Some. intros [[<- _]|[_ ?]]; [|by eapply Hv]. unfold identifier. by destruct (validate_env_name key) as [[]|].
Qed.

Lemma sourced_names script env sourced n : eval_sourced_file script env = Ok sourced ->
  n ∈ keys (set sourced) \/ n ∈ unset sourced -> identifier n.
Proof.
  unfold eval_sourced_file. intros E. apply res_bind_Ok in E as (before & Hb & E). apply res_bind_Ok in E as (after & Ha & E). injection E as <-.
  assert (forall shell script m, snapshot shell script env = Ok m -> forall n v, (n, v) ∈ hash_iter m -> identifier n) as Hs.
  { intros shell s m Hm k v Hk. unfold snapshot in Hm. apply res_bind_Ok in Hm as ([ok out] & _ & Hm). apply res_bind_Ok in Hm as ([] & _ & Hm).
    injection Hm as <-. rewrite hash_iter_perm in Hk. apply elem_of_map_to_list in Hk. by eapply nul_env_names. }
  cbn [set unset]. rewrite !list_elem_of_In. intros [Hn|Hn].
  - apply in_map_iff in Hn as ([k v] & <- & [Hn _]%filter_In). apply list_elem_of_In in Hn. exact (Hs _ _ _ Ha k v Hn).
  - apply filter_In in Hn as [Hn _]. apply in_map_iff in Hn as ([k v] & <- & Hn). apply list_elem_of_In in Hn. exact (Hs _ _ _ Hb k v Hn).
Qed.

Definition named_pairs (pairs : list (rstr * rstr)) : Prop := forall n, n ∈ keys pairs -> identifier n.

Lemma named_pairs_snoc pairs k v : named_pairs pairs -> identifier k -> named_pairs (pairs ++ [(k, v)]).
Proof. intros Hp Hk n. rewrite map_app, elem_of_app. cbn. rewrite list_elem_of_singleton. intros [?| ->]; auto. Qed.

Lemma named_pairs_nil : named_pairs [].
Proof. by intros n ?%elem_of_nil. Qed.

Lemma env_file_names extension content pairs : env_file_pairs extension content = Ok pairs -> named_pairs pairs.
Proof.
  unfold env_file_pairs. destruct (str_eqb extension (str "json")).
  { intros E. apply res_bind_Ok in E as ([| | | | |table] & _ & E); try done.
    refine (for_each_inv _ (fun _ pairs => named_pairs pairs) _ _ _ named_pairs_nil _ E). intros _ kv p p' IH _ Ep.
    unfold json_pair in Ep. apply res_bind_Ok in Ep as ([] & Hk & Ep). apply res_bind_Ok in Ep as ([text|] & _ & Ep); injection Ep as <-; [|done].
    by apply named_pairs_snoc. }
  destruct (str_eqb extension (str "toml")).
  { intros E. apply res_bind_Ok in E as (parsed & _ & E). apply res_bind_Ok in E as (table & _ & E).
    refine (for_each_inv _ (fun _ pairs => named_pairs pairs) _ _ _ named_pairs_nil _ E). intros _ kv p p' IH _ Ep.
    unfold toml_pair in Ep. apply res_bind_Ok in Ep as ([] & Hk & Ep). destruct kv.2; try done; injection Ep as <-; by apply named_pairs_snoc. }
  destruct (_ || _); [done|]. unfold parse_dotenv. intros E. apply res_bind_Ok in E as (st & Hst & E). injection E as <-.
  refine (for_each_inv _ (fun _ st => named_pairs st.2) (O, []) _ _ named_pairs_nil _ Hst). intros _ line [i p] [i' p'] IH _ Ep.
  unfold dotenv_line in Ep. destruct (_ || _); [by injection Ep as _ <-|]. apply res_bind_Ok in Ep as (kv & _ & Ep).
  apply res_bind_Ok in Ep as ([] & Hk & Ep). injection Ep as _ <-. by apply named_pairs_snoc.
Qed.

(** A property of resolvers that assignments and removals keep. *)
Context (P : Resolver -> Prop)
        (Hassign : forall r n v b, identifier n -> P r -> P (assign r n v b))
        (Hremove : forall r n, identifier n -> P r -> P (remove r n))
        (Hwarn : forall r, P r -> P (set_warned r)).

Lemma kept_by_entry r entry tools_phase rb : identifier (entry_var entry) -> P r -> apply_entry r entry tools_phase = Ok rb -> P rb.1.
Proof.
  intros Hn Hr. unfold apply_entry. destruct (negb _); [by intros [= <-]|]. intros E. apply res_bind_Ok in E as (r' & E & E'). injection E' as <-.
  cbn [fst]. destruct (action entry).
  - apply res_bind_Ok in E as (v & _ & E). injection E as <-. auto.
  - destruct (is_blank _); [apply res_bind_Ok in E as (v & _ & E); injection E as <-; auto|]. destruct (lookup_var _ _); injection E as <-; auto.
  - destruct (is_blank _); [destruct (strict r); [done|]; injection E as <-; auto|]. destruct (lookup_var _ _); injection E as <-; auto.
  - injection E as <-. auto.
Qed.

Lemma kept_by_file r fp tools_phase : named_pairs fp.2 -> P r -> P (apply_file r fp.1 fp.2 tools_phase).
Proof.
  intros Hn Hr. unfold apply_file. destruct (negb _); [done|]. revert r Hr Hn; induction fp.2 as [|kv l IH]; intros r Hr Hn; [done|]. cbn [foldl].
  apply IH; [apply Hassign; [apply Hn; by left|done]|]. intros n Hin. apply Hn. by right.
Qed.

Lemma kept_by_source r script r' : P r -> run_source r script = Ok r' -> P r'.
Proof.
  intros Hr. unfold run_source. intros E. apply res_bind_Ok in E as (sourced & Hs & E). injection E as <-.
  pose proof (fun n => sourced_names _ _ _ n Hs) as Hn. clear Hs.
  assert (P (foldl (fun r kv => assign r kv.1 kv.2 false) r (set sourced))) as H1.
  { revert r Hr Hn; induction (set sourced) as [|kv l IH]; intros r Hr Hn; [done|]. cbn [foldl].
    apply IH; [apply Hassign; [apply Hn; left; by left|done]|]. intros n [Hin|Hin]; apply Hn; [left; by right|by right]. }
  revert H1 Hn. generalize (foldl (fun r kv => assign r kv.1 kv.2 false) r (set sourced)) as r1.
  induction (unset sourced) as [|n l IH]; intros r1 H1 Hn; [done|]. cbn [foldl]. apply IH; [apply Hremove; [apply Hn; right; by left|done]|].
  intros m [Hin|Hin]; apply Hn; [by left|right; by right].
Qed.

Lemma kept_by_phase parsed file_pairs r tools_phase r' :
  (forall entry, entry ∈ entries parsed -> identifier (entry_var entry)) -> (forall fp, fp ∈ file_pairs -> named_pairs fp.2) ->
  P r -> resolve_phase parsed file_pairs r tools_phase = Ok r' -> P r'.
Proof.
  intros Hentries Hfiles Hr. unfold resolve_phase. intros E. apply res_bind_Ok in E as (r2 & E2 & E).
  assert (P (foldl (fun r fp => apply_file r fp.1 fp.2 tools_phase) r file_pairs)) as H1.
  { clear E2. revert r Hr Hfiles; induction file_pairs as [|fp l IH]; intros r Hr Hfiles; [done|]. cbn [foldl].
    apply IH; [apply kept_by_file; [apply Hfiles; by left|done]|]. intros fp' Hin. apply Hfiles. by right. }
  assert (P r2) as H2.
  { refine (for_each_inv _ (fun _ r => P r) _ _ _ H1 _ E2). intros _ entry r3 r4 H3 Hin E4. apply res_bind_Ok in E4 as (rb & Hb & E4).
    injection E4 as <-. eapply kept_by_entry; [by apply Hentries|done|done]. }
  refine (for_each_inv _ (fun _ r => P r) _ _ _ _ _ E); [|intros _ script r3 r4 H3 _; by apply kept_by_source].
  unfold apply_paths. destruct (of_phase _ _); [done|]. by apply Hassign.
Qed.

Lemma kept_by_resolution parsed file_pairs base config_root patterns strict resolved :
  (forall entry, entry ∈ entries parsed -> identifier (entry_var entry)) -> (forall fp, fp ∈ file_pairs -> named_pairs fp.2) ->
  P (new_resolver base config_root patterns strict) -> resolve_one parsed file_pairs base config_root patterns strict = Ok resolved ->
  exists r, P r /\ set resolved = assigned r /\ unset resolved = removed r /\ redacted resolved = masked r.
Proof.
  intros Hentries Hfiles Hnew. unfold resolve_one. intros E. apply res_bind_Ok in E as (r & Hr & E). injection E as <-. exists r. split; [|done].
  refine (for_each_inv _ (fun _ r => P r) _ _ _ Hnew _ Hr). intros _ ph r1 r2 H1 _. by apply kept_by_phase.
Qed.
End invariant.

Lemma merge_sets_names l acc index acc' index' : slots_ok (set acc) index -> foldl merge_set (acc, index) l = (acc', index') ->
  slots_ok (set acc') index' /\ (forall n, n ∈ keys (set acc') -> n ∈ keys (set acc) \/ n ∈ keys l) /\ (forall n, n ∈ unset acc' -> n ∈ unset acc) /\
  redacted acc' = redacted acc.
Proof.
  revert acc index; induction l as [|kv l IH]; intros acc index Hs; [intros [= <- <-]; naive_solver|]. cbn [foldl]. intros E.
  destruct (merge_set (acc, index) kv) as [acc1 index1] eqn:E1. unfold merge_set in E1.
  destruct (put_slot (set acc) index kv.1 kv.2) as [l' i'] eqn:Ep. injection E1 as <- <-.
  destruct (put_slot_ok _ _ _ _ _ _ Hs Ep) as (Hs1 & _ & Hk). apply IH in E as (Hs' & Hkeys & Hunset & Hred); [|exact Hs1]. cbn [set unset redacted] in *.
  split_and!; [done| | |done].
  - intros n Hn. destruct (Hkeys n Hn) as [[->|?]%Hk|?]; cbn; set_solver.
  - intros n [? _]%Hunset%elem_of_without. done.
Qed.

Lemma merge_unsets_names l acc : NoDup (keys (set acc)) ->
  (forall n, n ∈ keys (set (foldl merge_unset acc l)) -> n ∈ keys (set acc)) /\
  (forall n, n ∈ unset (foldl merge_unset acc l) -> n ∈ unset acc \/ n ∈ l) /\ redacted (foldl merge_unset acc l) = redacted acc.
Proof.
  revert acc; induction l as [|name l IH]; intros acc Hd; [naive_solver|]. cbn [foldl].
  destruct (filter_slots (set acc) name Hd) as (Hd' & _ & Hk). destruct (IH (merge_unset acc name) Hd') as (H1 & H2 & H3). split_and!; [| |done].
  - intros n [? _]%H1%Hk. done.
  - intros n [Hn|?]%H2; [|set_solver]. cbn [merge_unset unset] in Hn. apply elem_of_push in Hn. set_solver.
Qed.

Lemma merge_chain_names acc next : NoDup (keys (set acc)) ->
  (forall n, n ∈ keys (set (merge_chain acc next)) -> n ∈ keys (set acc) \/ n ∈ keys (set next)) /\
  (forall n, n ∈ unset (merge_chain acc next) -> n ∈ unset acc \/ n ∈ unset next) /\ redacted (merge_chain acc next) = redacted acc ∪ redacted next.
Proof.
  intros Hd. unfold merge_chain. destruct (foldl merge_set (acc, positions 0 (set acc) ∅) (set next)) as [acc1 index1] eqn:E.
  destruct (merge_sets_names _ _ _ _ _ (positions_ok _ Hd) E) as ([Hd1 _] & H1 & H2 & H3).
  destruct (merge_unsets_names (unset next) acc1 Hd1) as (H4 & H5 & H6). cbn [set unset redacted]. split_and!; [auto| |by rewrite H6, H3].
  intros n [?|?]%H5; auto.
Qed.

Section masks.
Context `{MiseWorldLaws}.

(** In one layer: identifiers, and every name that fits a pattern is masked. *)
Definition masks_ok (pats : list rstr) (r : Resolver) : Prop :=
  resolver_ok r /\ pats = patterns r /\ (forall n, n ∈ keys (assigned r) \/ n ∈ removed r -> identifier n) /\
  (forall n pattern, n ∈ keys (assigned r) -> pattern ∈ pats -> glob pattern n -> n ∈ masked r).

Lemma masks_ok_assign pats r n v b : identifier n -> masks_ok pats r -> masks_ok pats (assign r n v b).
Proof.
  intros Hn (Hr & -> & Hnames & Hmask). destruct (assign_ok r n v b Hr) as (Hr' & _ & _ & _ & _ & Hp). split_and!; [done|done| |].
  all: unfold assign in *; destruct (put_slot (assigned r) (index r) n v) as [l' i'] eqn:E; destruct (put_slot_ok _ _ _ _ _ _ (proj1 Hr) E) as (_ & _ & Hk);
    cbn [assigned removed masked patterns].
  - intros m [[->|?]%Hk|[? _]%elem_of_without]; auto.
  - intros m pattern Hm Hpat Hg. destruct (is_redacted n b (patterns r)) eqn:Er.
    + apply Hk in Hm as [->|?]; [set_solver|]. apply elem_of_union. right. by eapply Hmask.
    + apply Hk in Hm as [->|?]; [|by eapply Hmask]. exfalso. unfold is_redacted in Er. apply orb_false_iff in Er as [_ Er].
      assert (existsb (fun pattern => glob_match pattern n) (patterns r) = true) as Et; [|congruence].
      apply existsb_exists. exists pattern. split; [by apply list_elem_of_In|]. by apply glob_match_is_glob.
Qed.

Lemma masks_ok_remove pats r n : identifier n -> masks_ok pats r -> masks_ok pats (remove r n).
Proof.
  intros Hn (Hr & -> & Hnames & Hmask). destruct (remove_ok r n Hr) as (Hr' & _ & _ & _ & _ & Hp). split_and!; [done|done| |].
  all: assert (forall m, m ∈ keys (assigned (remove r n)) -> m ∈ keys (assigned r)) as Hk by
    (intros m; unfold remove; destruct (index r !! n) as [i|] eqn:Ei; [|done]; destruct Hr as [[Hd Hi] _]; apply Hi in Ei as (v & Hv);
     destruct (delete_slot _ _ _ _ Hd Hv) as (_ & _ & _ & Hsub); apply Hsub).
  - intros m [?%Hk|Hm]; [auto|]. unfold remove in Hm. destruct (index r !! n); cbn [removed] in Hm; apply elem_of_push in Hm; naive_solver.
  - intros m pattern Hm Hpat Hg. replace (masked (remove r n)) with (masked r) by (unfold remove; by destruct (index r !! n)). eapply Hmask; eauto.
Qed.

Lemma loaded_names strictness directives pairs fp : for_each (load_pairs strictness) [] directives = Ok pairs -> fp ∈ pairs -> named_pairs fp.2.
Proof.
  intros E. revert fp. refine (for_each_inv _ (fun _ pairs => forall fp, fp ∈ pairs -> named_pairs fp.2) _ _ _ _ _ E); [by intros ? ?%elem_of_nil|].
  intros _ directive p p' IH _ Ep fp. unfold load_pairs in Ep. apply res_bind_Ok in Ep as (loaded & Hl & Ep). unfold load_env_file in Hl.
  apply res_bind_Ok in Hl as ([content|] & _ & Hl).
  - apply res_bind_Ok in Hl as (l & Hf & Hl). injection Hl as <-. injection Ep as <-.
    rewrite elem_of_app, list_elem_of_singleton. intros [?| ->]; [by apply IH|]. by eapply env_file_names.
  - injection Hl as <-. destruct strictness; [done|]. injection Ep as <-. apply IH.
Qed.

Definition chain_names (pats : list rstr) (c : Chain) : Prop :=
  resolved_ok (merged c) /\ (forall n, n ∈ keys (set (merged c)) \/ n ∈ unset (merged c) -> identifier n) /\
  (forall n pattern, n ∈ keys (set (merged c)) -> pattern ∈ pats -> glob pattern n -> n ∈ redacted (merged c)).

Lemma chain_layer_names strictness pats c document c' : chain_names pats c -> chain_layer strictness c document = Ok c' ->
  (forall parsed, parse_mise_env (document_value document) (document_root document) = Ok parsed ->
    forall pattern, pattern ∈ pats -> pattern ∈ chain_patterns c ++ redactions parsed) ->
  chain_names pats c' /\ forall pattern, pattern ∈ pats -> pattern ∈ chain_patterns c'.
Proof.
  intros (Hok & Hnames & Hmask) E Hp. unfold chain_layer in E.
  destruct (parse_mise_env (document_value document) (document_root document)) as [parsed|] eqn:Hparse; [|done]. cbn [res_bind] in E.
  apply res_bind_Ok in E as (file_pairs & Hfiles & E). apply res_bind_Ok in E as (resolved & Hr & E). injection E as <-. specialize (Hp parsed eq_refl).
  assert (forall entry, entry ∈ entries parsed -> identifier (entry_var entry)) as Hentries by (intros; by eapply parse_mise_env_names).
  assert (resolved_ok resolved) as Hok'.
  { pose proof (resolve_one_layers (document_root document) strictness parsed file_pairs (effective c) (chain_patterns c ++ redactions parsed)) as Hl.
    rewrite Hr in Hl. specialize (Hl ltac:(intros entry Hin; by apply identifier_not_root, Hentries)). destruct (for_each (layer_phase _ _ _ _) _ _); [apply Hl|done]. }
  set (all := chain_patterns c ++ redactions parsed) in *.
  destruct (kept_by_resolution (masks_ok all) (masks_ok_assign all) (masks_ok_remove all) ltac:(by intros r) parsed file_pairs (effective c)
    (document_root document) all strictness resolved Hentries (fun fp Hin => loaded_names _ _ _ fp Hfiles Hin)) as (r & (_ & Hpats & Hn & Hm) & Es & Eu & Er).
  { split_and!; [split; [apply (positions_ok []), NoDup_nil_2|by intros n ?%elem_of_nil]|done|by intros n [?%elem_of_nil|?%elem_of_nil]|by intros n p ?%elem_of_nil]. }
  { exact Hr. }
  destruct (merge_chain_ok ∅ (merged c) resolved _ Hok (conj (proj1 Hok) (conj (proj1 (proj2 Hok)) eq_refl)) Hok') as [Hmerged _].
  destruct (merge_chain_names (merged c) resolved (proj1 Hok)) as (M1 & M2 & M3). split; [|exact Hp]. split_and!; [exact Hmerged| |]; cbn [merged].
  - intros n [[?|Hin]%M1|[?|Hin]%M2]; [auto| |auto|]; apply Hn; [left; by rewrite <- Es|right; by rewrite <- Eu].
  - intros n pattern [Hin|Hin]%M1 Hpat Hg; rewrite M3; apply elem_of_union; [left; by eapply Hmask|right]. rewrite Er.
    eapply Hm; [by rewrite <- Es|by apply Hp|done].
Qed.

(** Variables a project can set have names of letters, digits and
    underscores, whatever its files and scripts contain; and a variable that
    fits a redaction pattern of the first file is marked wherever it is set. *)
Theorem project_variables_are_identifiers start base strictness document documents parsed resolved :
  load start base = Ok (document :: documents) ->
  parse_mise_env (document_value document) (document_root document) = Ok parsed ->
  load_mise_env_chain start base strictness = Ok resolved ->
  (forall n, n ∈ keys (set resolved) \/ n ∈ unset resolved -> identifier n) /\
  (forall n pattern, n ∈ keys (set resolved) -> pattern ∈ redactions parsed -> glob pattern n -> n ∈ redacted resolved).
Proof.
  intros Hl Hp. unfold load_mise_env_chain. rewrite Hl. cbn [res_bind]. intros E. apply res_bind_Ok in E as (c & Hc & E). injection E as <-.
  cbn [for_each] in Hc. apply res_bind_Ok in Hc as (c1 & H1 & Hc).
  edestruct (chain_layer_names strictness (redactions parsed)) as [Hn1 Hp1]; [|exact H1|..].
  - split_and!; [apply resolved_ok_default|by intros n [?%elem_of_nil|?%elem_of_nil]|by intros n p ?%elem_of_nil].
  - intros parsed' Hp'. rewrite Hp in Hp'. injection Hp' as <-. done.
  - assert (chain_names (redactions parsed) c /\ forall pattern, pattern ∈ redactions parsed -> pattern ∈ chain_patterns c) as [(_ & H2 & H3) _]; [|done].
    refine (for_each_inv _ (fun _ c => chain_names (redactions parsed) c /\ forall pattern, pattern ∈ redactions parsed -> pattern ∈ chain_patterns c)
      _ _ _ (conj Hn1 Hp1) _ Hc). intros _ d c2 c3 [Hn2 Hp2] _ H3. eapply chain_layer_names; [done|done|]. intros. apply elem_of_app. auto.
Qed.
End masks.

(** * Files in dotenv form *)

(** A variable on a line of its own, its value in double quotes. *)
Definition dotenv_text (kv : rstr * rstr) : rstr := kv.1 ++ ch "=" :: 34 :: kv.2 ++ [34].

Lemma identifier_chars name : identifier name -> exists c rest, name = c :: rest /\ Forall (fun c => identifier_char c = true) name.
Proof.
  unfold identifier, validate_env_name. intros Hn. apply ensure_Ok in Hn. destruct name as [|c rest]; [done|]. exists c, rest. split; [done|].
  apply andb_true_iff in Hn as [Hc Hr]. constructor.
  - unfold identifier_char, is_ascii_alphanumeric. apply orb_true_iff in Hc as [-> | ->]; [done|]. by rewrite orb_true_r.
  - apply Forall_forall. intros x Hx. apply list_elem_of_In in Hx. by eapply forallb_forall in Hr.
Qed.

Lemma identifier_char_plain c : identifier_char c = true -> is_whitespace c = false /\ c ≠ ch "=" /\ c ≠ ch "#" /\ c ≠ 10.
Proof.
  unfold identifier_char, is_ascii_alphanumeric, is_ascii_alphabetic, is_ascii_lowercase, is_ascii_uppercase, is_ascii_digit. intros Hc.
  assert (48 <= c <= 57 \/ 65 <= c <= 90 \/ 97 <= c <= 122 \/ c = 95) as Hr by (ev_ch; lia). clear Hc.
  assert (is_whitespace c = false) as -> by (unfold is_whitespace; ev_ch; lia). ev_ch. split_and!; [done|lia..].
Qed.

Lemma dotenv_ends kv : identifier kv.1 -> visible_ends (dotenv_text kv).
Proof.
  intros (c & rest & E & Hf)%identifier_chars. unfold dotenv_text. rewrite E in *. apply Forall_cons in Hf as [Hc _]. split.
  - exists c, (rest ++ ch "=" :: 34 :: kv.2 ++ [34]). split; [done|]. by apply identifier_char_plain.
  - exists ((c :: rest) ++ ch "=" :: 34 :: kv.2), 34. split; [by rewrite <- app_assoc|done].
Qed.

Lemma dotenv_value_quoted v : dotenv_value (34 :: v ++ [34]) = v.
Proof.
  unfold dotenv_value, is_quoted.
  assert ((2 <=? str_len (34 :: v ++ [34])) = true) as ->.
  { rewrite str_len_cons, str_len_app. pose proof (str_len_nonneg v). change (str_len [34]) with 1. change (len_utf8 34) with 1. lia. }
  assert (starts_with [34] (34 :: v ++ [34]) = true) as -> by (apply starts_with_true; by exists (v ++ [34])).
  assert (ends_with [34] (34 :: v ++ [34]) = true) as -> by (apply ends_with_true; by exists (34 :: v)).
  cbn [andb orb tail]. apply removelast_last.
Qed.

Lemma dotenv_line_text st kv : identifier kv.1 -> dotenv_line st (dotenv_text kv) = Ok (S st.1, st.2 ++ [kv]).
Proof.
  intros Hn. destruct st as [index pairs]. unfold dotenv_line. rewrite trim_visible by (by apply dotenv_ends).
  destruct (identifier_chars _ Hn) as (c & rest & E & Hf). assert (Hf' := Hf). rewrite E in Hf'. apply Forall_cons in Hf' as [Hc _].
  destruct (identifier_char_plain c Hc) as (Hw & _ & Hhash & _).
  assert (str_eqb (dotenv_text kv) [] = false) as -> by (unfold dotenv_text; by rewrite E).
  assert (starts_with (str "#") (dotenv_text kv) = false) as ->.
  { destruct (starts_with _ _) eqn:Hs; [|done]. apply starts_with_true in Hs as (r & Hr). unfold dotenv_text in Hr. rewrite E in Hr.
    injection Hr as Hr _. done. }
  cbn [orb].
  assert (strip_prefix (str "export ") (dotenv_text kv) = None) as ->.
  { destruct (strip_prefix (str "export ") (dotenv_text kv)) as [r|] eqn:Hs; [|done]. apply strip_prefix_Some in Hs. exfalso.
    assert (exists a b, dotenv_text kv = a ++ 32 :: b /\ ch "=" ∉ a) as (a & b & Hab & Ha).
    { exists (str "export"), r. split; [exact Hs|]. apply (bool_decide_unpack _). by vm_compute. }
    unfold dotenv_text in Hab. apply app_eq_inv in Hab as [(k & Hk & Hb)|(k & -> & Hb)].
    - destruct k as [|d k]; [by injection Hb|]. injection Hb as <- _. rewrite Hk in Hf. apply Forall_app in Hf as [_ Hf].
      apply Forall_cons in Hf as [Hspace _]. by vm_compute in Hspace.
    - destruct k as [|d k]; [by injection Hb|]. injection Hb as <- _. apply Ha. set_solver. }
  assert (split_once (ch "=") (dotenv_text kv) = Some (kv.1, 34 :: kv.2 ++ [34])) as ->.
  { apply split_once_Some. split; [done|]. intros Hin. eapply Forall_forall in Hf; [|exact Hin]. by apply identifier_char_plain in Hf as (_ & ? & _). }
  cbn [ok_or res_bind fst snd].
  assert (trim kv.1 = kv.1) as ->.
  { apply trim_visible, word_ends. split; [by rewrite E|]. eapply Forall_impl; [exact Hf|]. intros x Hx. by apply identifier_char_plain. }
  rewrite Hn. cbn [res_bind].
  rewrite (trim_visible (34 :: kv.2 ++ [34])) by (split; [by exists 34, (kv.2 ++ [34])|by exists (34 :: kv.2), 34]). rewrite dotenv_value_quoted. by destruct kv.
Qed.

(** Whatever the values contain, line breaks apart, a file written with quoted
    values is read back as it was written, in the same order. *)
Theorem dotenv_roundtrip pairs :
  Forall (fun kv => identifier kv.1 /\ 10 ∉ kv.2) pairs -> parse_dotenv (map dotenv_text pairs ≫= fun line => line ++ [10]) = Ok pairs.
Proof.
  intros Hp. unfold parse_dotenv. rewrite byte_lines_unlines.
  - assert (forall n acc, for_each dotenv_line (n, acc) (map dotenv_text pairs) = Ok ((n + length pairs)%nat, acc ++ pairs)) as ->; [|done].
    induction Hp as [|kv pairs [Hn _] _ IH]; intros n acc; cbn [map for_each].
    + by rewrite Nat.add_0_r, app_nil_r.
    + rewrite dotenv_line_text by done. cbn [res_bind fst snd]. rewrite IH, <- app_assoc. cbn [length app]. do 2 f_equal. lia.
  - apply Forall_forall. intros line (kv & -> & Hin)%list_elem_of_fmap. eapply Forall_forall in Hp as [Hn Hv]; [|exact Hin].
    split; [|by apply strip_cr_visible, dotenv_ends]. unfold dotenv_text. destruct (identifier_chars _ Hn) as (_ & _ & _ & Hf).
    rewrite elem_of_app, !elem_of_cons, elem_of_app, list_elem_of_singleton. intros [Hx|[Hx|[Hx|[Hx|Hx]]]]; [|done..].
    eapply Forall_forall in Hf; [|exact Hx]. apply identifier_char_plain in Hf as (_ & _ & _ & Hf). done.
Qed.

(** * Discovery *)

Definition discovery_ok (d : Discovery) : Prop :=
  map document_path (documents d) = seen d /\ NoDup (map path_components (seen d)) /\ Z.of_nat (length (documents d)) <= MAX_CONFIG_FILES.

Section discovery.
Context `{MiseWorld}.

Lemma add_document_ok root d path d' : discovery_ok d -> add_document root d path = Ok d' -> discovery_ok d'.
Proof.
  intros (Hp & Hd & Hl). unfold add_document. destruct (existsb (path_eqb path) (seen d)) eqn:Hs; [by intros [= <-]|].
  destruct (read_bounded_regular_file path) as [[text|]|[]]; try (by intros [= <-]); try done. intros E.
  apply res_bind_Ok in E as ([] & Hlen%ensure_Ok & E). apply res_bind_Ok in E as (value & _ & E). injection E as <-.
  split_and!; cbn [documents seen].
  - by rewrite map_app, Hp.
  - rewrite map_app. apply NoDup_app. split_and!; [done| |apply NoDup_singleton]. intros x Hx ->%list_elem_of_singleton.
    apply list_elem_of_fmap in Hx as (q & E & Hq). enough (existsb (path_eqb path) (seen d) = true) by congruence.
    apply existsb_exists. exists q. split; [by apply list_elem_of_In|]. by apply bool_decide_eq_true.
  - rewrite length_app. cbn. lia.
Qed.

Lemma add_documents_ok {A} root (f : A -> rstr) l d d' :
  discovery_ok d -> for_each (fun d x => add_document root d (f x)) d l = Ok d' -> discovery_ok d'.
Proof. intros Hd E. refine (for_each_inv _ (fun _ d => discovery_ok d) _ _ _ Hd _ E). intros _ x d1 d2 H1 _. by apply add_document_ok. Qed.

Lemma append_directory_ok selected d root d' : discovery_ok d -> append_directory selected d root = Ok d' -> discovery_ok d'.
Proof.
  intros Hd E. unfold append_directory in E. apply res_bind_Ok in E as (d1 & E1 & E). apply res_bind_Ok in E as (d2 & E2 & E).
  assert (discovery_ok d1) as H1.
  { refine (for_each_inv _ (fun _ d => discovery_ok d) _ _ _ Hd _ E1). intros _ group d3 d4 H3 _ E4. unfold add_group in E4.
    apply res_bind_Ok in E4 as (d5 & E5 & E4). apply res_bind_Ok in E4 as (d6 & E6 & E4). assert (discovery_ok d5) as H5.
    { unfold add_fragments in E5. destruct (read_dir _); [|by injection E5 as <-|done]. apply res_bind_Ok in E5 as (files & _ & E5).
      by eapply (add_documents_ok root (fun x => x)). }
    apply add_document_ok in E6; [|done]. destruct (str_eqb group _); [|by injection E4 as <-].
    apply res_bind_Ok in E4 as (d7 & E7 & E4). apply add_document_ok in E7; [|done]. by apply add_document_ok in E4. }
  apply add_documents_ok in E2; [|done]. refine (for_each_inv _ (fun _ d => discovery_ok d) _ _ _ E2 _ E).
  intros _ name d3 d4 H3 _ E4. unfold add_selected in E4. apply res_bind_Ok in E4 as (d5 & E5 & E4). apply add_documents_ok in E5; [|done].
  by apply add_documents_ok in E4.
Qed.

(** Every configuration file is read once, also when a selected environment
    names a file that belongs to the ordinary ones, and there are at most 256. *)
Theorem discovery_is_bounded start env documents : load start env = Ok documents ->
  NoDup (map (fun d => path_components (document_path d)) documents) /\ (length documents <= 256)%nat.
Proof.
  unfold load, load_roots. intros E. apply res_bind_Ok in E as (selected & _ & E). apply res_bind_Ok in E as (d & Hd & E). injection E as <-.
  assert (discovery_ok d) as (Hp & Hn & Hl).
  { refine (for_each_inv _ (fun _ d => discovery_ok d) {| documents := []; seen := [] |} _ _ _ _ Hd).
    - split_and!; [done|apply NoDup_nil_2|done].
    - intros _ root d1 d2 H1 _. by apply append_directory_ok. }
  split; [|unfold MAX_CONFIG_FILES in Hl; lia]. by rewrite <- Hp, map_map in Hn.
Qed.
End discovery.

(** * A project

    A secret in the outer directory, a pattern for it in the inner one. *)

Definition outer_text : rstr := str "outer".
Definition inner_text : rstr := str "inner".

#[local] Instance sample_world : MiseWorld := {|
  open_config := fun path =>
    if str_eqb path (str "/p/mise.toml") then ConfigOpened true 5 (Some (as_bytes outer_text))
    else if str_eqb path (str "/p/app/mise.toml") then ConfigOpened true 5 (Some (as_bytes inner_text)) else ConfigNotFound;
  read_dir := fun _ => ListingMissing;
  toml_from_str := fun text =>
    if str_eqb text outer_text then
      Some (TTable [(str "env", TTable [(str "API_TOKEN", TString (str "s3cret")); (str "MODE", TString (str "outer")); (str "OLD", TInteger 7)])])
    else Some (TTable [(str "redactions", TArray [TString (str "*_TOKEN")]);
                       (str "env", TTable [(str "MODE", TString (str "{{ env.MODE }}-inner")); (str "OLD", TBoolean false);
                                           (str "MY_TOKEN", TString (str "x"))])]);
  json_from_str := fun _ => None; bash_found := true; shell_run := fun _ _ _ => None; hash_iter := map_to_list |}.

Definition sample_env : result ResolvedEnv MiseError := load_mise_env_chain [str "p"; str "app"] ∅ Strict.

(** Later files see and override earlier ones. *)
Example layers_override :
  (let? r := sample_env in Ok (set r, unset r)) =
  Ok ([(str "API_TOKEN", str "s3cret"); (str "MODE", str "outer-inner"); (str "MY_TOKEN", str "x")], [str "OLD"]).
Proof. vm_compute. reflexivity. Qed.

(** A pattern does not reach variables of the files before it: the token of
    the outer directory is not marked. *)
Theorem earlier_variables_are_not_masked :
  exists r, sample_env = Ok r /\ str "API_TOKEN" ∈ keys (set r) /\ glob (str "*_TOKEN") (str "API_TOKEN") /\
    str "API_TOKEN" ∉ redacted r /\ str "MY_TOKEN" ∈ redacted r.
Proof.
  destruct sample_env as [r|e] eqn:E; [|by vm_compute in E]. exists r. split; [done|].
  assert (set r = [(str "API_TOKEN", str "s3cret"); (str "MODE", str "outer-inner"); (str "MY_TOKEN", str "x")] /\ redacted r = {[str "MY_TOKEN"]}) as [-> ->].
  { vm_compute in E. injection E as <-. split; vm_compute; reflexivity. }
  split_and!; [by left|by apply glob_match_is_glob; vm_compute| |set_solver]. rewrite elem_of_singleton. by vm_compute.
Qed.
