(* ===== verification/Dnf.v ===== *)
(** The Fedora backend: src/src/package_managers/dnf.rs.

    Headers of the RPM database as bytes, the rows of DNF's queries, pending
    updates, the journal of a transaction and what of it reaches the history,
    and removal plans. Running rpm and dnf and reading SQLite are inputs;
    [String::from_utf8_lossy] is a parameter. Sizes of headers are below 2^33,
    so that 64-bit offsets do not overflow. *)

From S2P Require Import Prelude Spdx RustPath Validation DpkgStatus History Policy.
Open Scope Z_scope.
Open Scope omg_scope.

Inductive DnfError :=
| HeaderTooShort
| HeaderEmpty
| HeaderEntries (n : Z)
| HeaderTruncated
| IdentityNotString (tag : Z)
| EpochNotInt32
| UnsupportedType (tag tag_type : Z)
| StringCount (tag : Z)
| NegativeOffset (tag : Z)
| OffsetOutside (tag : Z)
| EmptyStringArray (tag : Z)
| MissingTerminator (tag : Z)
| RegionOutside (tag : Z)
| MissingName
| MalformedEpoch
| RowFields
| ArchitectureMissing
| RowNotUtf8
| RowInvalid
| DuplicateInstalled
| NoInstalledPackage (name architecture : rstr)
| UnchangedVersion
| InvalidNevra
| UnsupportedAction (action : rstr)
| DuplicateCorrelation
| UnsupportedVersion
| GroupsAffected
| DuplicateRemoval
| SelectorInvalid
| SelectorName (e : ValidationError)
| LocalRpm (package : rstr)
| JournalMismatch
| InterruptedTransaction (id : Z)
| CommandFailed
| QueryFailed
| NoProgram
| AuditRefused
| HistoryFailed
| HistoryInvalid
| PolicyRefused (e : HandoffError)
| UpdateOperands
| LockPoisoned
| SqliteFailed
| RpmQueryFailed
| TooManyBuilds
| PlanTooLarge
| PlanMissing
| PlanInvalid
| NoRepositories
| UnexpectedRepository
| AdvisoryInvalid
| DuplicateAdvisory
| MissingAdvisory
| NotSecurity
| SeverityConflict
| ComparisonInvalid
| NothingAffected
| InventoryChanged
| NotRecorded (e : DnfError)
| BothFailed (operation history : DnfError).

(** * Headers *)

Definition NAME : Z := 1000.
Definition VERSION : Z := 1001.
Definition RELEASE : Z := 1002.
Definition EPOCH : Z := 1003.
Definition SUMMARY : Z := 1004.
Definition ARCH : Z := 1022.

Definition MAX_HEADER_ENTRIES : Z := 100000.

Definition be_value (bytes : list Z) : Z := foldl (fun acc b => acc * 256 + b) 0 bytes.

(** [i32::from_be_bytes]. *)
Definition be_i32 (bytes : list Z) : Z := let v := be_value bytes in if v <? 2 ^ 31 then v else v - 2 ^ 32.

(** [bytes.chunks_exact(16)]. *)
Fixpoint chunks16 (n : nat) (bytes : list Z) : list (list Z) :=
  match n with
  | O => []
  | S n => take 16 bytes :: chunks16 n (drop 16 bytes)
  end.

(** The position of the zero byte number [k], from 0. *)
Fixpoint nth_zero (k : nat) (bytes : list Z) : option nat :=
  match bytes with
  | [] => None
  | b :: bytes =>
      if b =? 0 then match k with O => Some O | S k => S <$> nth_zero k bytes end
      else S <$> nth_zero k bytes
  end.

Definition is_string_identity (tag : Z) : bool := (tag =? NAME) || (tag =? VERSION) || (tag =? RELEASE) || (tag =? ARCH).

Definition region_length (tag tag_type count : Z) (data : list Z) : result Z DnfError :=
  if (tag_type =? 1) || (tag_type =? 2) || (tag_type =? 7) then Ok count
  else if tag_type =? 3 then Ok (count * 2)
  else if tag_type =? 4 then Ok (count * 4)
  else if tag_type =? 5 then Ok (count * 8)
  else
    ensure (1 <=? count) (EmptyStringArray tag) ;?
    let? n := ok_or (nth_zero (Z.to_nat (count - 1)) data) (MissingTerminator tag) in
    Ok (Z.of_nat n).

Definition header_entry (payload : list Z) (tags : gmap Z (list Z)) (chunk : list Z) : result (gmap Z (list Z)) DnfError :=
  let tag := be_value (take 4 chunk) in
  let tag_type := be_value (take 4 (drop 4 chunk)) in
  let offset := be_i32 (take 4 (drop 8 chunk)) in
  let count := be_value (take 4 (drop 12 chunk)) in
  (if is_string_identity tag then ensure ((tag_type =? 6) && (count =? 1)) (IdentityNotString tag) else Ok tt) ;?
  (if tag =? EPOCH then ensure ((tag_type =? 4) && (count =? 1)) EpochNotInt32 else Ok tt) ;?
  ensure ((1 <=? tag_type) && (tag_type <=? 9)) (UnsupportedType tag tag_type) ;?
  ensure (negb (tag_type =? 6) || (count =? 1)) (StringCount tag) ;?
  ensure (0 <=? offset) (NegativeOffset tag) ;?
  ensure (offset <? Z.of_nat (length payload)) (OffsetOutside tag) ;?
  let data := drop (Z.to_nat offset) payload in
  let? region := region_length tag tag_type count data in
  ensure (offset + region <=? Z.of_nat (length payload)) (RegionOutside tag) ;?
  Ok (<[tag := take (Z.to_nat region) data]> tags).

Definition parse_rpm_header (blob : list Z) : result (gmap Z (list Z)) DnfError :=
  ensure (8 <=? Z.of_nat (length blob)) HeaderTooShort ;?
  let num_entries := be_value (take 4 blob) in
  let data_size := be_value (take 4 (drop 4 blob)) in
  let rest := drop 8 blob in
  ensure (0 <? num_entries) HeaderEmpty ;?
  ensure (num_entries <=? MAX_HEADER_ENTRIES) (HeaderEntries num_entries) ;?
  let data_start := num_entries * 16 in
  ensure (data_start + data_size <=? Z.of_nat (length rest)) HeaderTruncated ;?
  let payload := take (Z.to_nat data_size) (drop (Z.to_nat data_start) rest) in
  for_each (header_entry payload) ∅ (chunks16 (Z.to_nat num_entries) rest).

Inductive InstallReason := User | Dependency.

Record InstalledPackage := {
  pkg_name : rstr;
  pkg_version : rstr;
  pkg_release : rstr;
  pkg_architecture : rstr;
  pkg_summary : rstr;
  pkg_reason : InstallReason
}.

(** [format!("{epoch}:{version}")], or the version alone. *)
Definition with_epoch (epoch : Z) (version : rstr) : rstr :=
  if epoch =? 0 then version else to_string epoch ++ ch ":" :: version.

Section blobs.
Context (from_utf8_lossy : list Z -> rstr).

Definition get_string (tags : gmap Z (list Z)) (tag : Z) : rstr :=
  match tags !! tag with
  | Some data => from_utf8_lossy (hd [] (split_char 0 data))
  | None => []
  end.

Definition parse_package_from_blob (blob : list Z) : result InstalledPackage DnfError :=
  let? tags := parse_rpm_header blob in
  let name := get_string tags NAME in
  ensure (negb (str_eqb name [])) MissingName ;?
  let? epoch := match tags !! EPOCH with
                | Some bytes => ensure (bool_decide (length bytes = 4%nat)) MalformedEpoch ;? Ok (be_value bytes)
                | None => Ok 0
                end in
  Ok {| pkg_name := name; pkg_version := with_epoch epoch (get_string tags VERSION); pkg_release := get_string tags RELEASE;
        pkg_architecture := get_string tags ARCH; pkg_summary := get_string tags SUMMARY; pkg_reason := Dependency |}.

(** The rows of the table, in the order SQLite returns them. *)
Definition read_rpm_sqlite_connection (blobs : list (list Z)) : result (list InstalledPackage) DnfError :=
  try_map parse_package_from_blob blobs.

Definition parse_rpm_qa_line (line : rstr) : result InstalledPackage DnfError :=
  match split_char 9 line with
  | [name; version; release; summary; epoch; architecture] =>
      let? epoch := ok_or (parse_uint u32_max epoch) MalformedEpoch in
      ensure (negb (str_eqb architecture [])) ArchitectureMissing ;?
      Ok {| pkg_name := name; pkg_version := with_epoch epoch version; pkg_release := release; pkg_architecture := architecture;
            pkg_summary := summary; pkg_reason := Dependency |}
  | _ => Err RowFields
  end.

(** The output of [rpm -qa]. *)
Definition read_rpm_via_query (stdout : list Z) : result (list InstalledPackage) DnfError :=
  try_map parse_rpm_qa_line (List.filter (fun line => negb (str_eqb line [])) (byte_lines (from_utf8_lossy stdout))).
End blobs.

(** * Selectors *)

Definition identity (p : InstalledPackage) : rstr :=
  match pkg_architecture p with [] => pkg_name p | a => pkg_name p ++ ch "." :: a end.

Definition nevra_with (version : rstr) (p : InstalledPackage) : rstr :=
  pkg_name p ++ ch "-" :: version ++ ch "-" :: pkg_release p ++ ch "." :: pkg_architecture p.

Definition nevra (p : InstalledPackage) : rstr := nevra_with (pkg_version p) p.

Definition matches_selector (p : InstalledPackage) (selector : rstr) : bool :=
  str_eqb (pkg_name p) selector || str_eqb (identity p) selector || str_eqb (nevra p) selector
  || (negb (contains_char (ch ":") (pkg_version p)) && str_eqb (nevra_with (str "0:" ++ pkg_version p) p) selector).

Definition apply_install_reasons (user_installed : gset rstr) (packages : list InstalledPackage) : list InstalledPackage :=
  map (fun p => {| pkg_name := pkg_name p; pkg_version := pkg_version p; pkg_release := pkg_release p; pkg_architecture := pkg_architecture p;
                   pkg_summary := pkg_summary p; pkg_reason := if bool_decide (pkg_name p ∈ user_installed) then User else Dependency |}) packages.

Definition is_user (p : InstalledPackage) : bool := match pkg_reason p with User => true | Dependency => false end.

Definition explicit_package_names (packages : list InstalledPackage) : list rstr :=
  dedup (sort_strs (map pkg_name (List.filter is_user packages))).

Definition plain_field (extra : rstr) (field : rstr) : bool := forallb (fun c => is_ascii_alphanumeric c || contains_char c extra) field.

(** name-version-release.architecture, cut at the last separators. *)
Definition split_nevra (text : rstr) : option (rstr * rstr * rstr * rstr) :=
  '(nvr, architecture) ← rsplit_once (ch ".") text;
  '(nv, release) ← rsplit_once (ch "-") nvr;
  '(name, version) ← rsplit_once (ch "-") nv;
  Some (name, version, release, architecture).

Definition selector_epoch (version : rstr) : result rstr DnfError :=
  match split_once (ch ":") version with
  | Some (epoch, version) =>
      ensure (negb (str_eqb epoch []) && forallb is_ascii_digit epoch) SelectorInvalid ;?
      let? _ := ok_or (parse_uint u32_max epoch) SelectorInvalid in
      Ok version
  | None => Ok version
  end.

Definition selector_field (field : rstr) : bool := negb (str_eqb field []) && (str_len field <=? 128) && plain_field (str "._+~^") field.

Definition validate_query_selector (selector : rstr) : result unit DnfError :=
  if negb (existsb (fun c => contains_char c (str ":~^")) selector) then map_err SelectorName (validate_package_name selector)
  else
    let? parts := ok_or (split_nevra selector) SelectorInvalid in
    let '(name, version, release, architecture) := parts in
    map_err SelectorName (validate_package_name name) ;?
    map_err SelectorName (validate_package_name architecture) ;?
    ensure (plain_field (str "+._-") name && plain_field (str "+._-") architecture) SelectorInvalid ;?
    let? version := selector_epoch version in
    ensure (selector_field version && selector_field release) SelectorInvalid.

Definition is_rpm_file (package : rstr) : bool :=
  match rsplit_once (ch ".") package with Some (_, extension) => eq_ignore_ascii_case extension (str "rpm") | None => false end.

Definition reject_unsealed_local_rpm_targets (packages : list rstr) : result unit DnfError :=
  for_each (fun _ package => ensure (negb (is_rpm_file package) && negb (contains_char (ch "/") package) && negb (contains_char (ch "\") package))
    (LocalRpm package)) tt packages.

(** * Rows of queries *)

Definition clean_field (field : rstr) : bool := negb (str_eqb field []) && forallb (fun c => negb (is_whitespace c || is_control c)) field.

Definition clean_reason (reason : rstr) : bool := negb (str_eqb reason []) && str_eqb (trim reason) reason && forallb (fun c => negb (is_control c)) reason.

Definition rows_of (output : list Z) : result (list rstr) DnfError :=
  let? text := ok_or (decode_utf8 output) RowNotUtf8 in Ok (byte_lines text).

Definition not_empty (line : rstr) : bool := negb (str_eqb line []).

Definition parse_user_installed_names (output : list Z) : result (gset rstr) DnfError :=
  let? rows := rows_of output in
  Ok (list_to_set (List.filter not_empty (map trim rows))).

Definition installed_size_row (line : rstr) : result (rstr * Z) DnfError :=
  let? kv := ok_or (split_once 9 line) RowFields in
  ensure (clean_field kv.1) RowInvalid ;?
  let? bytes := ok_or (parse_i64 kv.2) RowInvalid in
  ensure (0 <=? bytes) RowInvalid ;?
  Ok (kv.1, bytes).

Definition parse_installed_sizes (output : list Z) : result (list (rstr * Z)) DnfError :=
  let? rows := rows_of output in try_map installed_size_row rows.

Definition installed_reason_row (line : rstr) : result (rstr * rstr) DnfError :=
  let? kv := ok_or (split_once 9 line) RowFields in
  ensure (clean_field kv.1) RowInvalid ;?
  ensure (clean_reason kv.2) RowInvalid ;?
  Ok kv.

Definition parse_installed_reasons (output : list Z) : result (list (rstr * rstr)) DnfError :=
  let? rows := rows_of output in try_map installed_reason_row rows.

Record InstalledPackageDetails := { detail_name : rstr; detail_version : rstr; detail_identity : rstr; detail_reason : rstr }.

Definition installed_detail_row (line : rstr) : result InstalledPackageDetails DnfError :=
  match take 5 (split_char 9 line) with
  | [name; version; id; reason] =>
      ensure (clean_field name && clean_field version && clean_field id) RowInvalid ;?
      ensure (clean_reason reason) RowInvalid ;?
      Ok {| detail_name := name; detail_version := version; detail_identity := id; detail_reason := reason |}
  | _ => Err RowFields
  end.

Definition parse_installed_details (output : list Z) : result (list InstalledPackageDetails) DnfError :=
  let? rows := rows_of output in try_map installed_detail_row rows.

Record VersionedPackage := { vp_name : rstr; vp_architecture : rstr; vp_version : rstr; vp_repository : rstr }.

Definition versioned_row (line : rstr) : result VersionedPackage DnfError :=
  match take 5 (split_char 9 line) with
  | [name; architecture; version; repository] =>
      ensure (clean_field name && clean_field architecture && clean_field version && clean_field repository) RowInvalid ;?
      Ok {| vp_name := name; vp_architecture := architecture; vp_version := version; vp_repository := repository |}
  | _ => Err RowFields
  end.

Definition parse_versioned_packages (output : list Z) : result (list VersionedPackage) DnfError :=
  let? rows := rows_of output in try_map versioned_row (List.filter not_empty rows).

(** ** Updates *)

Record UpdateInfo := { update_name : rstr; update_old : rstr; update_new : rstr; update_repo : rstr }.

Definition vp_key (p : VersionedPackage) : rstr * rstr := (vp_name p, vp_architecture p).

Definition add_installed (by_identity : gmap (rstr * rstr) VersionedPackage) (p : VersionedPackage)
    : result (gmap (rstr * rstr) VersionedPackage) DnfError :=
  ensure (bool_decide (by_identity !! vp_key p = None)) DuplicateInstalled ;?
  Ok (<[vp_key p := p]> by_identity).

Definition match_update (by_identity : gmap (rstr * rstr) VersionedPackage) (candidate : VersionedPackage) : result UpdateInfo DnfError :=
  let? old := ok_or (by_identity !! vp_key candidate) (NoInstalledPackage (vp_name candidate) (vp_architecture candidate)) in
  ensure (negb (str_eqb (vp_version old) (vp_version candidate))) UnchangedVersion ;?
  Ok {| update_name := vp_name candidate; update_old := vp_version old; update_new := vp_version candidate; update_repo := vp_repository candidate |}.

Definition match_updates (installed upgrades : list VersionedPackage) : result (list UpdateInfo) DnfError :=
  let? by_identity := for_each add_installed ∅ installed in
  try_map (match_update by_identity) upgrades.

(** * Journal *)

Record NativeTransactionPackage := { row_nevra : rstr; row_action : rstr }.

Record NativeTransaction := {
  native_id : Z;
  native_comment : rstr;
  native_status : rstr;
  native_description : rstr;
  native_packages : list NativeTransactionPackage
}.

Record NativeVersionChanges := { removed_versions : gset rstr; added_versions : gset rstr }.

Definition no_changes : NativeVersionChanges := {| removed_versions := ∅; added_versions := ∅ |}.

Definition add_version (evr : rstr) (c : NativeVersionChanges) : NativeVersionChanges :=
  {| removed_versions := removed_versions c; added_versions := {[evr]} ∪ added_versions c |}.
Definition remove_version (evr : rstr) (c : NativeVersionChanges) : NativeVersionChanges :=
  {| removed_versions := {[evr]} ∪ removed_versions c; added_versions := added_versions c |}.

Definition action_effect (action evr : rstr) : result (NativeVersionChanges -> NativeVersionChanges) DnfError :=
  if str_eqb action (str "Install") || str_eqb action (str "Upgrade") || str_eqb action (str "Downgrade") then Ok (add_version evr)
  else if str_eqb action (str "Remove") || str_eqb action (str "Replaced") then Ok (remove_version evr)
  else if str_eqb action (str "Reinstall") then Ok (fun c => add_version evr (remove_version evr c))
  else if str_eqb action (str "Reason Change") then Ok (fun c => c)
  else Err (UnsupportedAction action).

(** The name, the version with the release, and the architecture of a row. *)
Definition native_identity (text : rstr) : result (rstr * rstr * rstr) DnfError :=
  ensure (forallb (fun c => negb (is_whitespace c || is_control c)) text) InvalidNevra ;?
  let? parts := ok_or (split_nevra text) InvalidNevra in
  let '(name, version, release, architecture) := parts in
  ensure (not_empty name && not_empty version && not_empty release && not_empty architecture) InvalidNevra ;?
  Ok (name, version ++ ch "-" :: release, architecture).

Definition group_row (grouped : gmap (rstr * rstr) NativeVersionChanges) (row : NativeTransactionPackage)
    : result (gmap (rstr * rstr) NativeVersionChanges) DnfError :=
  let? id := native_identity (row_nevra row) in
  let '(name, evr, architecture) := id in
  let? effect := action_effect (row_action row) evr in
  Ok (<[(name, architecture) := effect (default no_changes (grouped !! (name, architecture)))]> grouped).

(** Sets and maps are enumerated in ascending order. *)
Definition ascending (s : gset rstr) : list rstr := sort_strs (elements s).

Definition key_cmp (a b : (rstr * rstr) * NativeVersionChanges) : comparison := then_with (list_cmp a.1.1 b.1.1) (list_cmp a.1.2 b.1.2).

Definition dnf_change (name : rstr) (old new : option rstr) : PackageChange :=
  {| change_name := name; old_version := old; new_version := new; source := str "dnf" |}.

Definition group_changes (kv : (rstr * rstr) * NativeVersionChanges) : list PackageChange :=
  let name := kv.1.1 in
  match ascending (removed_versions kv.2), ascending (added_versions kv.2) with
  | [old], [new] => [dnf_change name (Some old) (Some new)]
  | removed, added => map (fun v => dnf_change name (Some v) None) removed ++ map (fun v => dnf_change name None (Some v)) added
  end.

Definition native_changes (packages : list NativeTransactionPackage) : result (list PackageChange) DnfError :=
  let? grouped := for_each group_row ∅ packages in
  Ok (sort_by key_cmp (map_to_list grouped) ≫= group_changes).

Inductive NativeOutcome :=
| NoTransaction
| Committed (changes : list PackageChange)
| Failed
| Interrupted (id : Z) (comment status : rstr) (actions : nat) (command : rstr).

Definition native_outcome (transactions : list NativeTransaction) (comment : rstr) : result NativeOutcome DnfError :=
  match List.filter (fun t => str_eqb (native_comment t) comment) transactions with
  | [] => Ok NoTransaction
  | [t] =>
      if str_eqb (native_status t) (str "Ok") then let? changes := native_changes (native_packages t) in Ok (Committed changes)
      else if str_eqb (native_status t) (str "Error") then Ok Failed
      else Ok (Interrupted (native_id t) (native_comment t) (native_status t) (length (native_packages t))
                 (if str_eqb (native_description t) [] then str "not recorded" else native_description t))
  | _ => Err DuplicateCorrelation
  end.

(** What is asked of the history: changes and success; [stored] tells whether
    [add_transaction] stores it. *)
Definition record_native_result (stored : list PackageChange -> bool -> bool) (operation : result unit DnfError) (observed : result NativeOutcome DnfError)
    : option (list PackageChange * bool) * result unit DnfError :=
  let add changes success := (Some (changes, success), if stored changes success then Ok tt else Err HistoryFailed) in
  let '(entry, persistence) :=
    match observed with
    | Ok NoTransaction =>
        if is_ok operation then (None, Ok tt)
        else let '(entry, r) := add [] false in (entry, r ;? ensure (negb (is_ok operation)) JournalMismatch)
    | Ok Failed => let '(entry, r) := add [] false in (entry, r ;? ensure (negb (is_ok operation)) JournalMismatch)
    | Ok (Committed changes) => add changes true
    | Ok (Interrupted id _ _ _ _) => (None, Err (InterruptedTransaction id))
    | Err e => (None, Err e)
    end in
  (entry,
   match operation, persistence with
   | Ok _, Ok _ => Ok tt
   | Err e, Ok _ => Err e
   | Ok _, Err e => Err (NotRecorded e)
   | Err e, Err e' => Err (BothFailed e e')
   end).

(** The end of [recorded_mutation]: [journal] is the history of DNF after the
    operation. *)
Definition conclude_mutation (stored : list PackageChange -> bool -> bool) (comment : rstr) (operation : result unit DnfError)
    (journal : result (list NativeTransaction) DnfError) : option (list PackageChange * bool) * result unit DnfError :=
  record_native_result stored operation (let? transactions := journal in native_outcome transactions comment).

(** * Removal plans *)

Record StoredRemovalTransaction := { stored_version : rstr; stored_rpms : list NativeTransactionPackage; stored_groups : nat; stored_environments : nat }.

Record RemovalPackage := { removal_name : rstr; removal_version : rstr }.

(** [dnf_advisory::package_identity]. *)
Definition epoch_ok (version : rstr) : bool :=
  match split_once (ch ":") version with
  | Some (epoch, version) => not_empty epoch && forallb is_ascii_digit epoch && not_empty version && negb (contains_char (ch ":") version)
  | None => true
  end.

Definition package_identity (text : rstr) : result (rstr * rstr) DnfError :=
  ensure (forallb (fun c => negb (is_whitespace c || is_control c)) text) InvalidNevra ;?
  let? parts := ok_or (split_nevra text) InvalidNevra in
  let '(name, version, release, architecture) := parts in
  ensure (not_empty name && not_empty version && not_empty release && not_empty architecture) InvalidNevra ;?
  ensure (epoch_ok version) InvalidNevra ;?
  Ok (name, architecture).

(** The text between the name and the architecture. *)
Definition between (name architecture text : rstr) : rstr :=
  take (length text - length architecture - 1 - (length name + 1)) (drop (length name + 1) text).

Definition plan_row (st : gset rstr * list RemovalPackage) (row : NativeTransactionPackage) : result (gset rstr * list RemovalPackage) DnfError :=
  let '(seen, plan) := st in
  ensure (str_eqb (row_action row) (str "Remove")) (UnsupportedAction (row_action row)) ;?
  ensure (negb (bool_decide (row_nevra row ∈ seen))) DuplicateRemoval ;?
  let? id := package_identity (row_nevra row) in
  Ok ({[row_nevra row]} ∪ seen,
      plan ++ [{| removal_name := id.1 ++ ch "." :: id.2; removal_version := between id.1 id.2 (row_nevra row) |}]).

Definition removal_cmp (a b : RemovalPackage) : comparison :=
  then_with (list_cmp (removal_name a) (removal_name b)) (list_cmp (removal_version a) (removal_version b)).

(** From the deserialized transaction. *)
Definition parse_removal_plan (t : StoredRemovalTransaction) : result (list RemovalPackage) DnfError :=
  ensure (str_eqb (stored_version t) (str "1.0")) UnsupportedVersion ;?
  ensure (bool_decide (stored_groups t = O) && bool_decide (stored_environments t = O)) GroupsAffected ;?
  let? st := for_each plan_row (∅, []) (stored_rpms t) in
  Ok (sort_by removal_cmp st.2).
