(* ===== verification/DnfProofs.v ===== *)
(** Proofs on the Fedora backend: headers are read back, the journal is
    accounted for in the history, updates and removal plans are exact. *)

From S2P Require Import Prelude Spdx RustPath Validation DpkgStatus History Policy Dnf.
Open Scope Z_scope.
Open Scope omg_scope.

(** * Headers *)

Lemma be_value_app a b : be_value (a ++ b) = foldl (fun acc x => acc * 256 + x) (be_value a) b.
Proof. unfold be_value. by rewrite foldl_app. Qed.

Lemma be_value_rev l : be_value (rev l) = le_value l.
Proof. induction l as [|b l IH]; [done|]. cbn [rev]. rewrite be_value_app, IH. cbn [foldl le_value]. lia. Qed.

Lemma be_value_be_bytes n : 0 <= n < 2 ^ 32 -> be_value (be_bytes 4 n) = n.
Proof. intros Hn. unfold be_bytes. rewrite be_value_rev. apply le_value_le_bytes. lia. Qed.

Lemma be_i32_be_bytes n : 0 <= n < 2 ^ 31 -> be_i32 (be_bytes 4 n) = n.
Proof. intros Hn. unfold be_i32. rewrite be_value_be_bytes by lia. destruct (Z.ltb_spec n (2 ^ 31)); lia. Qed.

(** One tag of a header: one or several strings with their terminators,
    numbers of two, four or eight bytes, or single bytes. *)
Inductive Field :=
| TextField (tag tag_type : Z) (text : list Z) (more : list (list Z))
| NumberField (tag tag_type : Z) (values : list Z)
| BytesField (tag tag_type : Z) (bytes : list Z).

Fixpoint texts (text : list Z) (more : list (list Z)) : list Z :=
  match more with
  | [] => text
  | next :: more => text ++ 0 :: texts next more
  end.

(** The bytes of a number: INT16, INT32 and INT64 are the types 3, 4 and 5. *)
Definition width (tag_type : Z) : nat := if tag_type =? 3 then 2 else if tag_type =? 4 then 4 else 8.

Definition field_tag (f : Field) : Z := match f with TextField tag _ _ _ | NumberField tag _ _ | BytesField tag _ _ => tag end.
Definition field_type (f : Field) : Z := match f with TextField _ tag_type _ _ | NumberField _ tag_type _ | BytesField _ tag_type _ => tag_type end.
Definition field_count (f : Field) : Z :=
  match f with TextField _ _ _ more => Z.of_nat (length more) + 1 | NumberField _ _ values => Z.of_nat (length values) | BytesField _ _ bytes => Z.of_nat (length bytes) end.
Definition field_value (f : Field) : list Z :=
  match f with TextField _ _ text more => texts text more | NumberField _ ty values => values ≫= be_bytes (width ty) | BytesField _ _ bytes => bytes end.
Definition field_data (f : Field) : list Z := match f with TextField _ _ text more => texts text more ++ [0] | _ => field_value f end.

(** Strings are free of terminators; single strings have type 6, arrays of
    strings and translated strings 8 and 9, characters, bytes and binary data
    1, 2 and 7. The tags of the identity are single strings, and the epoch is
    one INT32. *)
Definition field_ok (f : Field) : Prop :=
  0 <= field_tag f < 2 ^ 32 /\
  match f with
  | TextField tag tag_type text more =>
      Forall (fun text => 0 ∉ text) (text :: more) /\ tag ≠ EPOCH /\
      (tag_type = 6 /\ more = [] \/ (tag_type = 8 \/ tag_type = 9) /\ is_string_identity tag = false)
  | NumberField tag tag_type values =>
      is_string_identity tag = false /\ 3 <= tag_type <= 5 /\ (tag = EPOCH -> tag_type = 4 /\ length values = 1%nat)
  | BytesField tag tag_type _ => is_string_identity tag = false /\ tag ≠ EPOCH /\ (tag_type = 1 \/ tag_type = 2 \/ tag_type = 7)
  end.

(** The data of a tag lies anywhere in the payload: in the order of the index
    or not, behind padding, or shared. *)
Definition placed (payload : list Z) (e : nat * Field) : Prop :=
  (e.1 < length payload)%nat /\ exists pre post, length pre = e.1 /\ payload = pre ++ field_data e.2 ++ post.

Definition entry_bytes (offset : nat) (f : Field) : list Z :=
  be_bytes 4 (field_tag f) ++ be_bytes 4 (field_type f) ++ be_bytes 4 (Z.of_nat offset) ++ be_bytes 4 (field_count f).

Definition index_bytes (index : list (nat * Field)) : list Z := index ≫= fun e => entry_bytes e.1 e.2.

Definition header_bytes (index : list (nat * Field)) (payload : list Z) : list Z :=
  be_bytes 4 (Z.of_nat (length index)) ++ be_bytes 4 (Z.of_nat (length payload)) ++ index_bytes index ++ payload.

Definition field_map (tags : gmap Z (list Z)) (fs : list Field) : gmap Z (list Z) := foldl (fun tags f => <[field_tag f := field_value f]> tags) tags fs.

Lemma nth_zero_text k text rest : 0 ∉ text ->
  nth_zero k (text ++ 0 :: rest) = match k with O => Some (length text) | S k => (fun n => length text + S n)%nat <$> nth_zero k rest end.
Proof.
  induction text as [|b text IH]; intros Hn; [by destruct k; cbn; [|destruct (nth_zero k rest)]|].
  rewrite not_elem_of_cons in Hn. destruct Hn as [Hb Hn]. cbn [app nth_zero length].
  destruct (Z.eqb_spec b 0); [done|]. rewrite IH by done. destruct k; [done|]. by destruct (nth_zero k rest).
Qed.

Lemma nth_zero_texts more : forall text rest, Forall (fun text => 0 ∉ text) (text :: more) ->
  nth_zero (length more) (texts text more ++ 0 :: rest) = Some (length (texts text more)).
Proof.
  induction more as [|next more IH]; intros text rest [Ht Hm]%Forall_cons; cbn [texts length]; [by rewrite nth_zero_text|].
  rewrite <- app_assoc. cbn [app]. rewrite nth_zero_text, IH by done. cbn. by rewrite length_app.
Qed.

Lemma length_texts text more : (length more <= length (texts text more))%nat.
Proof. revert text. induction more as [|next more IH]; intros text; [cbn; lia|]. cbn [texts length]. rewrite length_app. cbn [length]. specialize (IH next). lia. Qed.

Lemma first_text text more : 0 ∉ text -> hd [] (split_char 0 (texts text more)) = text.
Proof. intros Ht. destruct more; cbn [texts]; [by rewrite split_char_none|by rewrite split_char_cut]. Qed.

Lemma length_entry offset f : length (entry_bytes offset f) = 16%nat.
Proof. unfold entry_bytes. by rewrite !length_app, !length_be_bytes. Qed.

Lemma take_be n rest : take 4 (be_bytes 4 n ++ rest) = be_bytes 4 n.
Proof. by rewrite take_app_length' by (by rewrite length_be_bytes). Qed.
Lemma drop_be n rest : drop 4 (be_bytes 4 n ++ rest) = rest.
Proof. by rewrite drop_app_length' by (by rewrite length_be_bytes). Qed.

Lemma text_region tag tag_type text more post : tag_type = 6 /\ more = [] \/ tag_type = 8 \/ tag_type = 9 ->
  Forall (fun text => 0 ∉ text) (text :: more) ->
  region_length tag tag_type (Z.of_nat (length more) + 1) (texts text more ++ 0 :: post) = Ok (Z.of_nat (length (texts text more))).
Proof.
  intros Htype Hz. unfold region_length. rewrite (proj2 (Z.leb_le 1 _)) by lia. replace (Z.to_nat (Z.of_nat (length more) + 1 - 1)) with (length more) by lia.
  rewrite nth_zero_texts by done. by destruct Htype as [[-> _]|[->| ->]].
Qed.

Lemma length_numbers w values : length (values ≫= be_bytes w) = (w * length values)%nat.
Proof.
  induction values as [|v values IH]; [cbn; lia|]. change ((v :: values) ≫= be_bytes w) with (be_bytes w v ++ (values ≫= be_bytes w)).
  rewrite length_app, length_be_bytes, IH. cbn [length]. lia.
Qed.

(** What each type of data says of its length. *)
Lemma field_region f post : field_ok f -> region_length (field_tag f) (field_type f) (field_count f) (field_data f ++ post) = Ok (Z.of_nat (length (field_value f))).
Proof.
  intros [_ Hf]. destruct f as [tag ty text more|tag ty values|tag ty bytes]; cbn [field_tag field_type field_count field_data field_value] in *.
  - destruct Hf as (Hz & _ & Hty). rewrite <- app_assoc. apply text_region; [tauto|done].
  - destruct Hf as (_ & Hty & _). rewrite length_numbers. unfold region_length, width.
    assert (ty = 3 \/ ty = 4 \/ ty = 5) as [->|[->| ->]] by lia; cbn [Z.eqb Pos.eqb orb]; f_equal; lia.
  - destruct Hf as (_ & _ & Hty). unfold region_length. by destruct Hty as [->|[->| ->]].
Qed.

Lemma field_count_bound f : field_ok f -> 0 <= field_count f <= Z.of_nat (length (field_data f)).
Proof.
  intros [_ Hf]. destruct f as [tag ty text more|tag ty values|tag ty bytes]; cbn [field_count field_data field_value] in *; [| |lia].
  - rewrite length_app. pose proof (length_texts text more). cbn [length]. lia.
  - rewrite length_numbers. unfold width. destruct (ty =? 3), (ty =? 4); lia.
Qed.

Lemma header_entry_field payload offset f tags : field_ok f -> placed payload (offset, f) -> Z.of_nat (length payload) < 2 ^ 31 ->
  header_entry payload tags (entry_bytes offset f) = Ok (<[field_tag f := field_value f]> tags).
Proof.
  intros Hok [Hoff (pre & post & Hpre & Hpay)] Hlen. cbn [fst snd] in *. pose proof (field_count_bound f Hok) as Hcount. pose proof (field_region f post Hok) as Hregion. destruct Hok as [Htag Hf].
  assert (length payload = length pre + length (field_data f) + length post)%nat as Hsum by (rewrite Hpay, !length_app; lia).
  unfold header_entry, entry_bytes.
  assert (0 <= field_type f < 10) as Htype by (destruct f; cbn [field_type]; [destruct Hf as (_ & _ & Hf)|destruct Hf as (_ & Hf & _)|destruct Hf as (_ & _ & Hf)]; lia).
  replace 8%nat with (4 + 4)%nat by done. replace 12%nat with (4 + (4 + 4))%nat by done. rewrite <- !drop_drop, !drop_be, !take_be.
  rewrite (firstn_all2 (be_bytes 4 (field_count f))) by (by rewrite length_be_bytes). rewrite !be_value_be_bytes, be_i32_be_bytes by lia.
  rewrite Nat2Z.id. cbn zeta. rewrite (proj2 (Z.ltb_lt (Z.of_nat offset) _)), (proj2 (Z.leb_le 0 _)) by lia.
  assert ((if is_string_identity (field_tag f) then ensure ((field_type f =? 6) && (field_count f =? 1)) (IdentityNotString (field_tag f)) else Ok tt) = Ok tt) as ->.
  { destruct f as [tag ty text more|tag ty values|tag ty bytes]; cbn [field_tag field_type field_count] in *.
    - destruct Hf as (_ & _ & [[-> ->]|[_ ->]]); [by destruct (is_string_identity tag)|done].
    - by destruct Hf as (-> & _).
    - by destruct Hf as (-> & _). }
  assert ((if field_tag f =? EPOCH then ensure ((field_type f =? 4) && (field_count f =? 1)) EpochNotInt32 else Ok tt) = Ok tt) as ->.
  { destruct (Z.eqb_spec (field_tag f) EPOCH) as [He|]; [|done].
    destruct f as [tag ty text more|tag ty values|tag ty bytes]; cbn [field_tag field_type field_count] in *; [by destruct Hf as (_ & ? & _)| |by destruct Hf as (_ & ? & _)].
    destruct Hf as (_ & _ & Hf). destruct (Hf He) as [-> ->]. done. }
  assert ((1 <=? field_type f) && (field_type f <=? 9) = true) as ->.
  { destruct f as [tag ty text more|tag ty values|tag ty bytes]; cbn [field_type] in *; [destruct Hf as (_ & _ & Hf)|destruct Hf as (_ & Hf & _)|destruct Hf as (_ & _ & Hf)]; lia. }
  assert (negb (field_type f =? 6) || (field_count f =? 1) = true) as ->.
  { destruct f as [tag ty text more|tag ty values|tag ty bytes]; cbn [field_type field_count] in *; [destruct Hf as (_ & _ & [[-> ->]|[? _]])|destruct Hf as (_ & Hf & _)|destruct Hf as (_ & _ & Hf)]; [done|lia..]. }
  cbn [ensure res_bind]. rewrite Hpay at 1. rewrite (drop_app_length' pre) by done. rewrite Hregion. cbn [res_bind].
  rewrite Hpay, (drop_app_length' pre), Nat2Z.id by done. assert (take (length (field_value f)) (field_data f ++ post) = field_value f) as ->.
  { destruct f as [tag ty text more| |]; cbn [field_value field_data]; [rewrite <- app_assoc|..]; by rewrite take_app_length. }
  rewrite (proj2 (Z.leb_le _ _)); [done|]. assert (length (field_value f) <= length (field_data f))%nat by (destruct f; cbn [field_data field_value]; [rewrite length_app|..]; lia).
  rewrite !length_app. lia.
Qed.

Lemma length_index index : length (index_bytes index) = (16 * length index)%nat.
Proof.
  induction index as [|e index IH]; [done|]. change (index_bytes (e :: index)) with (entry_bytes e.1 e.2 ++ index_bytes index).
  rewrite length_app, length_entry, IH. cbn [length]. lia.
Qed.

Lemma read_entries payload index : Forall field_ok (map snd index) -> Forall (placed payload) index -> Z.of_nat (length payload) < 2 ^ 31 ->
  forall tags junk, for_each (header_entry payload) tags (chunks16 (length index) (index_bytes index ++ junk)) = Ok (field_map tags (map snd index)).
Proof.
  intros Hok Hpl Hlen. induction Hpl as [|[offset f] index Hp _ IH]; intros tags junk; [done|]. cbn [map] in Hok. apply Forall_cons in Hok as [Hf Hok].
  change (index_bytes ((offset, f) :: index)) with (entry_bytes offset f ++ index_bytes index).
  cbn [length chunks16 for_each]. rewrite <- app_assoc, take_app_length', drop_app_length' by (by rewrite length_entry).
  rewrite header_entry_field by done. cbn [res_bind]. by apply IH.
Qed.

(** Whatever follows the data of the header is not read. *)
Lemma parse_header_bytes payload index junk : Forall field_ok (map snd index) -> Forall (placed payload) index -> index ≠ [] ->
  Z.of_nat (length index) <= MAX_HEADER_ENTRIES ->
  Z.of_nat (length payload) < 2 ^ 31 -> parse_rpm_header (header_bytes index payload ++ junk) = Ok (field_map ∅ (map snd index)).
Proof.
  intros Hok Hpl Hne Hcount Hsize. unfold MAX_HEADER_ENTRIES in Hcount. pose proof (length_index index) as Hidx.
  assert (length index ≠ O) as Hfs by (by destruct index). unfold parse_rpm_header, header_bytes.
  rewrite <- !app_assoc. rewrite (proj2 (Z.leb_le 8 _)) by (rewrite !length_app, !length_be_bytes; lia). cbn [ensure res_bind].
  change 8%nat with (4 + 4)%nat. rewrite <- !drop_drop, !drop_be, !take_be, !be_value_be_bytes by lia.
  rewrite (proj2 (Z.ltb_lt 0 _)) by lia. cbn [ensure res_bind]. unfold MAX_HEADER_ENTRIES. rewrite (proj2 (Z.leb_le (Z.of_nat (length index)) _)) by lia. cbn [ensure res_bind].
  rewrite (proj2 (Z.leb_le _ _)) by (rewrite !length_app, Hidx; lia). cbn [ensure res_bind].
  rewrite (drop_app_length' (index_bytes index)) by lia. rewrite Nat2Z.id, take_app_length, Nat2Z.id. by apply read_entries.
Qed.

Lemma field_map_other fs : forall tags k, k ∉ map field_tag fs -> field_map tags fs !! k = tags !! k.
Proof.
  induction fs as [|f fs IH]; intros tags k Hk; [done|]. cbn [map] in Hk. rewrite not_elem_of_cons in Hk. destruct Hk as [Hf Hk].
  change (field_map tags (f :: fs)) with (field_map (<[field_tag f := field_value f]> tags) fs). rewrite IH by done. by apply lookup_insert_ne.
Qed.

Lemma field_map_here fs : NoDup (map field_tag fs) -> forall tags f, f ∈ fs -> field_map tags fs !! field_tag f = Some (field_value f).
Proof.
  induction fs as [|g fs IH]; intros Hnd tags f Hf; [by apply elem_of_nil in Hf|]. cbn [map] in Hnd. apply NoDup_cons in Hnd. destruct Hnd as [Hg Hnd].
  change (field_map tags (g :: fs)) with (field_map (<[field_tag g := field_value g]> tags) fs).
  apply elem_of_cons in Hf as [->|Hf]; [|by apply IH]. rewrite field_map_other by done. by rewrite lookup_insert_eq.
Qed.

(** A header as rpm stores it: tags once each, those of the identity among
    them, with their data in the payload. *)
Record Header := {
  h_index : list (nat * Field);
  h_payload : list Z;
  h_name : rstr;
  h_epoch : Z;
  h_version : rstr;
  h_release : rstr;
  h_architecture : rstr;
  h_summary : rstr
}.

Definition h_fields (h : Header) : list Field := map snd (h_index h).

Definition header_fits (h : Header) : Prop :=
  Z.of_nat (length (h_index h)) <= MAX_HEADER_ENTRIES /\ Z.of_nat (length (h_payload h)) < 2 ^ 31.

(** The tag holds the text: a single string, or the first of several. *)
Definition holds (h : Header) (tag : Z) (text : rstr) : Prop :=
  valid_str text /\ exists tag_type more, TextField tag tag_type (as_bytes text) more ∈ h_fields h.

Definition header_ok (h : Header) : Prop :=
  Forall field_ok (h_fields h) /\ Forall (placed (h_payload h)) (h_index h) /\ NoDup (map field_tag (h_fields h)) /\ header_fits h /\
  (h_name h ≠ []) /\ holds h NAME (h_name h) /\ holds h VERSION (h_version h) /\ holds h RELEASE (h_release h) /\
  holds h ARCH (h_architecture h) /\ holds h SUMMARY (h_summary h) /\ 0 <= h_epoch h < 2 ^ 32 /\
  (NumberField EPOCH 4 [h_epoch h] ∈ h_fields h \/ h_epoch h = 0 /\ (EPOCH ∉ map field_tag (h_fields h))).

Section package.
Context (from_utf8_lossy : list Z -> rstr).
Hypothesis lossy_valid : forall s, valid_str s -> from_utf8_lossy (as_bytes s) = s.

Lemma get_string_holds h tag text : header_ok h -> holds h tag text -> get_string from_utf8_lossy (field_map ∅ (h_fields h)) tag = text.
Proof.
  intros (Hok & _ & Hnd & _) (Hv & tag_type & more & Hin). unfold get_string. pose proof (field_map_here _ Hnd ∅ _ Hin) as Hl. cbn [field_tag field_value] in Hl. rewrite Hl.
  rewrite Forall_forall in Hok. destruct (Hok _ Hin) as [_ ([Hz _]%Forall_cons & _)]. rewrite first_text by done. by apply lossy_valid.
Qed.

(** C35: a package read from the database is the one its header describes: a
    header of at most 100,000 tags, once each, and less than 2 GiB of data, with
    name, version, release, architecture and summary, and an epoch or none,
    among any other tags of the nine types (characters, bytes, numbers of 16,
    32 and 64 bits, binary data such as the region tag, strings and arrays of
    strings), one value or several each, with their data anywhere in the
    payload. Bytes after the header change nothing. *)
Theorem package_header_roundtrip h junk : header_ok h ->
  parse_package_from_blob from_utf8_lossy (header_bytes (h_index h) (h_payload h) ++ junk)
  = Ok {| pkg_name := h_name h; pkg_version := with_epoch (h_epoch h) (h_version h); pkg_release := h_release h;
          pkg_architecture := h_architecture h; pkg_summary := h_summary h; pkg_reason := Dependency |}.
Proof.
  intros Hh. pose proof Hh as (Hok & Hpl & Hnd & [Hcount Hsize] & Hne & Hname & Hver & Hrel & Harch & Hsum & Hrange & Hepoch).
  unfold parse_package_from_blob.
  assert (h_index h ≠ []) as Hnil by (destruct Hname as (_ & ? & ? & Hin); intros E; unfold h_fields in Hin; rewrite E in Hin; by apply elem_of_nil in Hin).
  rewrite parse_header_bytes by done. cbn [res_bind]. fold (h_fields h). rewrite (get_string_holds h _ _ Hh Hname), (get_string_holds h _ _ Hh Hver), (get_string_holds h _ _ Hh Hrel), (get_string_holds h _ _ Hh Harch), (get_string_holds h _ _ Hh Hsum).
  assert (str_eqb (h_name h) [] = false) as -> by (by apply str_eqb_false). cbn [negb ensure res_bind].
  assert (match field_map ∅ (h_fields h) !! EPOCH with
          | Some bytes => ensure (bool_decide (length bytes = 4%nat)) MalformedEpoch ;? Ok (be_value bytes)
          | None => Ok 0 end = Ok (h_epoch h)) as ->; [|done].
  destruct Hepoch as [Hin|[Hz Hno]].
  - pose proof (field_map_here _ Hnd ∅ _ Hin) as Hl. cbn [field_tag field_value] in Hl. rewrite Hl.
    change ([h_epoch h] ≫= be_bytes (width 4)) with (be_bytes 4 (h_epoch h) ++ []). rewrite app_nil_r, length_be_bytes, be_value_be_bytes by done. done.
  - rewrite field_map_other, lookup_empty by done. by rewrite Hz.
Qed.
End package.

(** * Maps of lists *)

Lemma push_perm {X} (m : gmap rstr (list X)) k x :
  (map_to_list (<[k := default [] (m !! k) ++ [x]]> m) ≫= snd) ≡ₚ x :: (map_to_list m ≫= snd).
Proof.
  destruct (m !! k) as [l|] eqn:E; cbn [default from_option id].
  - rewrite <- insert_delete_eq, map_to_list_insert by apply lookup_delete_eq. rewrite <- (insert_delete_id m k l E) at 2.
    rewrite (map_to_list_insert (delete _ m)) by apply lookup_delete_eq. cbn. rewrite <- app_assoc. cbn. by rewrite Permutation_middle.
  - by rewrite map_to_list_insert.
Qed.

(** * Journal *)

(** The row takes the version away, or puts it in place. *)
Definition removes (row : NativeTransactionPackage) (name architecture v : rstr) : Prop :=
  native_identity (row_nevra row) = Ok (name, v, architecture) /\ row_action row ∈ [str "Remove"; str "Replaced"; str "Reinstall"].
Definition adds (row : NativeTransactionPackage) (name architecture v : rstr) : Prop :=
  native_identity (row_nevra row) = Ok (name, v, architecture) /\ row_action row ∈ [str "Install"; str "Upgrade"; str "Downgrade"; str "Reinstall"].

Definition some_row (P : NativeTransactionPackage -> rstr -> rstr -> rstr -> Prop) (rows : list NativeTransactionPackage) (name architecture v : rstr) : Prop :=
  exists row, row ∈ rows /\ P row name architecture v.

Lemma some_row_snoc P rows row name architecture v :
  some_row P (rows ++ [row]) name architecture v <-> some_row P rows name architecture v \/ P row name architecture v.
Proof.
  unfold some_row. setoid_rewrite elem_of_app. setoid_rewrite list_elem_of_singleton. split.
  - intros (r & [Hr| ->] & HP); [left; eauto|by right].
  - intros [(r & Hr & HP)|HP]; eauto.
Qed.

(** What an action does to the two sets. *)
Lemma action_effect_Ok action evr effect : action_effect action evr = Ok effect -> forall c v,
  (v ∈ removed_versions (effect c) <-> v ∈ removed_versions c \/ v = evr /\ action ∈ [str "Remove"; str "Replaced"; str "Reinstall"]) /\
  (v ∈ added_versions (effect c) <-> v ∈ added_versions c \/ v = evr /\ action ∈ [str "Install"; str "Upgrade"; str "Downgrade"; str "Reinstall"]).
Proof.
  unfold action_effect. intros H c v. repeat setoid_rewrite elem_of_cons. setoid_rewrite elem_of_nil.
  repeat match type of H with context [str_eqb action ?s] => let E := fresh "E" in destruct (str_eqb action s) eqn:E; cbn [orb] in H end;
  try discriminate; unfold str_eqb in *; to_prop; subst; injection H as <-; cbn [removed_versions added_versions add_version remove_version]; split; set_solver.
Qed.

Definition group_at (grouped : gmap (rstr * rstr) NativeVersionChanges) (name architecture : rstr) : NativeVersionChanges :=
  default no_changes (grouped !! (name, architecture)).

Definition groups_rows (rows : list NativeTransactionPackage) (grouped : gmap (rstr * rstr) NativeVersionChanges) : Prop :=
  forall name architecture v,
    (v ∈ removed_versions (group_at grouped name architecture) <-> some_row removes rows name architecture v) /\
    (v ∈ added_versions (group_at grouped name architecture) <-> some_row adds rows name architecture v).

Lemma group_row_inv rows row grouped grouped' : groups_rows rows grouped -> group_row grouped row = Ok grouped' -> groups_rows (rows ++ [row]) grouped'.
Proof.
  intros Hinv H name architecture v. unfold group_row in H. res_inv. rename Hr into Hid. destruct a as [[n evr] a]. res_inv.
  match goal with H : action_effect _ _ = Ok ?e |- _ => pose proof (action_effect_Ok _ _ _ H) as He; clear H end.
  rewrite !some_row_snoc. unfold removes at 2, adds at 2. rewrite !Hid. destruct (Hinv name architecture v) as [Hr Ha]. rewrite <- Hr, <- Ha. clear Hr Ha.
  unfold group_at. destruct (decide ((n, a) = (name, architecture))) as [E|Hne].
  - injection E as -> ->. rewrite lookup_insert_eq. cbn [default from_option id]. destruct (He (default no_changes (grouped !! (name, architecture))) v) as [-> ->]. naive_solver.
  - rewrite lookup_insert_ne by done. naive_solver.
Qed.

Lemma ascending_elem v s : v ∈ ascending s <-> v ∈ s.
Proof. unfold ascending. by rewrite elem_of_sort_strs, elem_of_elements. Qed.

(** Every version of the group is in some change, and a change with two
    versions has the whole group. *)
Lemma group_changes_spec name architecture c :
  (forall v, v ∈ removed_versions c -> exists change, change ∈ group_changes ((name, architecture), c) /\ change_name change = name /\ old_version change = Some v) /\
  (forall v, v ∈ added_versions c -> exists change, change ∈ group_changes ((name, architecture), c) /\ change_name change = name /\ new_version change = Some v) /\
  (forall change, change ∈ group_changes ((name, architecture), c) -> change_name change = name /\ source change = str "dnf" /\
    match old_version change, new_version change with
    | Some v, Some w => removed_versions c ≡ {[v]} /\ added_versions c ≡ {[w]}
    | Some v, None => v ∈ removed_versions c
    | None, Some w => w ∈ added_versions c
    | None, None => False
    end).
Proof.
  unfold group_changes. cbn [fst snd]. pose proof (fun v => ascending_elem v (removed_versions c)) as Hr. pose proof (fun v => ascending_elem v (added_versions c)) as Ha.
  set (removed := ascending (removed_versions c)) in *. set (added := ascending (added_versions c)) in *. clearbody removed added.
  assert (Hgen : let changes := map (fun v => dnf_change name (Some v) None) removed ++ map (fun v => dnf_change name None (Some v)) added in
    (forall v, v ∈ removed_versions c -> exists change, change ∈ changes /\ change_name change = name /\ old_version change = Some v) /\
    (forall v, v ∈ added_versions c -> exists change, change ∈ changes /\ change_name change = name /\ new_version change = Some v) /\
    (forall change, change ∈ changes -> change_name change = name /\ source change = str "dnf" /\
      match old_version change, new_version change with
      | Some v, Some w => removed_versions c ≡ {[v]} /\ added_versions c ≡ {[w]}
      | Some v, None => v ∈ removed_versions c
      | None, Some w => w ∈ added_versions c
      | None, None => False
      end)).
  { cbn zeta. setoid_rewrite elem_of_app. split_and!.
    - intros v Hv%Hr. exists (dnf_change name (Some v) None). split_and!; [left; by apply (list_elem_of_fmap_2 (fun v => dnf_change name (Some v) None))|done..].
    - intros v Hv%Ha. exists (dnf_change name None (Some v)). split_and!; [right; by apply (list_elem_of_fmap_2 (fun v => dnf_change name None (Some v)))|done..].
    - intros change [Hin|Hin]; apply list_elem_of_fmap in Hin as (v & -> & Hv); (split_and!; [done..|]); [by apply Hr|by apply Ha]. }
  destruct removed as [|old [|? ?]]; [exact Hgen| |exact Hgen]. destruct added as [|new [|? ?]]; [exact Hgen| |exact Hgen]. clear Hgen.
  setoid_rewrite list_elem_of_singleton in Hr. setoid_rewrite list_elem_of_singleton in Ha. setoid_rewrite list_elem_of_singleton. split_and!.
  - intros v <-%Hr. by eexists.
  - intros v <-%Ha. by eexists.
  - intros change ->. cbn. split_and!; [done..|set_solver|set_solver].
Qed.

(** What the changes of a transaction say of its rows. *)
Definition accounts (rows : list NativeTransactionPackage) (changes : list PackageChange) : Prop :=
  (forall name architecture v, some_row removes rows name architecture v -> exists c, c ∈ changes /\ change_name c = name /\ old_version c = Some v) /\
  (forall name architecture v, some_row adds rows name architecture v -> exists c, c ∈ changes /\ change_name c = name /\ new_version c = Some v) /\
  (forall c, c ∈ changes -> source c = str "dnf" /\ exists architecture,
    match old_version c, new_version c with
    | Some v, Some w => (forall v', some_row removes rows (change_name c) architecture v' <-> v' = v) /\
                        (forall w', some_row adds rows (change_name c) architecture w' <-> w' = w)
    | Some v, None => some_row removes rows (change_name c) architecture v
    | None, Some w => some_row adds rows (change_name c) architecture w
    | None, None => False
    end).

Lemma in_changes (grouped : gmap (rstr * rstr) NativeVersionChanges) change :
  change ∈ (sort_by key_cmp (map_to_list grouped) ≫= group_changes) <->
  exists name architecture c, grouped !! (name, architecture) = Some c /\ change ∈ group_changes ((name, architecture), c).
Proof.
  rewrite list_elem_of_bind. setoid_rewrite (sort_by_perm key_cmp). split.
  - intros ([[name architecture] c] & Hin & Hc). apply elem_of_map_to_list in Hc. eauto.
  - intros (name & architecture & c & Hl & Hin). exists ((name, architecture), c). by rewrite elem_of_map_to_list.
Qed.

Lemma native_changes_accounts rows changes : native_changes rows = Ok changes -> accounts rows changes.
Proof.
  unfold native_changes. intros H. res_inv. rename a into grouped.
  assert (Hinv : groups_rows rows grouped).
  { match goal with H : for_each _ _ _ = _ |- _ => revert H end. apply for_each_inv; [|intros; by eapply group_row_inv].
    intros n a v. unfold group_at. rewrite lookup_empty. cbn. split; (split; [set_solver|by intros (? & ?%elem_of_nil & _)]). }
  assert (Hfind : forall name architecture (P : rstr -> NativeVersionChanges -> Prop), (exists v, P v (group_at grouped name architecture)) -> ~ (exists v, P v no_changes) ->
    grouped !! (name, architecture) = Some (group_at grouped name architecture)).
  { intros name a P HP Hno. unfold group_at in *. by destruct (grouped !! (name, a)). }
  split_and!.
  - intros name a v Hv%(proj1 (Hinv name a v)). destruct (proj1 (group_changes_spec name a _) v Hv) as (c & Hc & Hn & Ho). exists c. rewrite in_changes. split_and!; [|done..].
    exists name, a, (group_at grouped name a). split; [|done]. apply (Hfind _ _ (fun v c => v ∈ removed_versions c)); [eauto|]. intros [w Hw]. cbn in Hw. set_solver.
  - intros name a v Hv%(proj2 (Hinv name a v)). destruct (proj1 (proj2 (group_changes_spec name a _)) v Hv) as (c & Hc & Hn & Ho). exists c. rewrite in_changes. split_and!; [|done..].
    exists name, a, (group_at grouped name a). split; [|done]. apply (Hfind _ _ (fun v c => v ∈ added_versions c)); [eauto|]. intros [w Hw]. cbn in Hw. set_solver.
  - intros c Hc. apply in_changes in Hc as (name & a & g & Hl & Hc). destruct (proj2 (proj2 (group_changes_spec name a g)) c Hc) as (-> & Hs & Hm). split; [done|]. exists a.
    assert (group_at grouped name a = g) as Hg by (unfold group_at; by rewrite Hl). rewrite <- Hg in Hm.
    destruct (old_version c), (new_version c); [|by apply Hinv..|done]. destruct Hm as [H1 H2].
    split; intros w; [rewrite <- (proj1 (Hinv name a w)), H1|rewrite <- (proj2 (Hinv name a w)), H2]; apply elem_of_singleton.
Qed.

(** The rows of the journal that carry the comment. *)
Definition correlated (ts : list NativeTransaction) (comment : rstr) : list NativeTransaction := List.filter (fun t => str_eqb (native_comment t) comment) ts.

Lemma native_outcome_Committed ts comment changes : native_outcome ts comment = Ok (Committed changes) <->
  exists t, correlated ts comment = [t] /\ native_status t = str "Ok" /\ native_changes (native_packages t) = Ok changes.
Proof.
  unfold native_outcome, correlated. destruct (List.filter _ ts) as [|t [|t' l]]; [naive_solver| |naive_solver]. split.
  - destruct (str_eqb (native_status t) (str "Ok")) eqn:E; [|by intros H; repeat case_match]. intros H. exists t.
    destruct (native_changes (native_packages t)); [|discriminate]. cbn in H. unfold str_eqb in E. to_prop. split_and!; [done..|congruence].
  - intros (t' & Ht & Hs & Hc). injection Ht as <-. rewrite Hs. rewrite (bool_decide_eq_true_2 _ eq_refl : str_eqb _ _ = true), Hc. done.
Qed.

Lemma native_outcome_NoTransaction ts comment : native_outcome ts comment = Ok NoTransaction <-> correlated ts comment = [].
Proof.
  unfold native_outcome, correlated. destruct (List.filter _ ts) as [|t [|t' l]]; [done| |done]. split; [|done].
  destruct (str_eqb (native_status t) (str "Ok")); [by destruct (native_changes (native_packages t))|by intros H; repeat case_match].
Qed.

Lemma record_native_result_spec stored operation observed :
  let entry := (record_native_result stored operation observed).1 in
  (forall changes, entry = Some (changes, true) <-> observed = Ok (Committed changes)) /\
  (forall changes, entry = Some (changes, false) -> changes = []) /\
  ((record_native_result stored operation observed).2 = Ok tt <->
   operation = Ok tt /\ (observed = Ok NoTransaction \/ exists changes, observed = Ok (Committed changes) /\ stored changes true = true)).
Proof.
  unfold record_native_result. destruct operation as [[]|e], observed as [[|changes| |]|e']; cbn;
    repeat match goal with |- context [stored ?c ?b] => let E := fresh in destruct (stored c b) eqn:E; cbn end; naive_solver congruence.
Qed.

(** A success in the history is the finished transaction of the journal that
    carries the comment, with its versions; failures are stored without
    changes; the operation succeeds only if the command did and the journal
    has no transaction of it or one whose changes are stored. *)
Lemma conclusion_follows_the_journal stored comment operation journal :
  let entry := (conclude_mutation stored comment operation journal).1 in
  (forall changes, entry = Some (changes, true) -> exists ts t, journal = Ok ts /\ correlated ts comment = [t] /\ native_status t = str "Ok" /\
     accounts (native_packages t) changes) /\
  (forall ts t changes, journal = Ok ts -> correlated ts comment = [t] -> native_status t = str "Ok" -> native_changes (native_packages t) = Ok changes ->
     entry = Some (changes, true)) /\
  (forall changes, entry = Some (changes, false) -> changes = []) /\
  ((conclude_mutation stored comment operation journal).2 = Ok tt <-> operation = Ok tt /\ exists ts, journal = Ok ts /\
     (correlated ts comment = [] \/ exists changes, entry = Some (changes, true) /\ stored changes true = true)).
Proof.
  unfold conclude_mutation. destruct (record_native_result_spec stored operation (let? ts := journal in native_outcome ts comment)) as (Hs & Hf & Hr).
  cbn zeta in *. split_and!; [| |exact Hf|].
  - intros changes Hc%Hs. destruct journal as [ts|]; [|done]. cbn in Hc. apply native_outcome_Committed in Hc as (t & ? & ? & ?). exists ts, t. split_and!; [done..|by apply native_changes_accounts].
  - intros ts t changes -> Hc Hst Hch. apply Hs. cbn. apply native_outcome_Committed. eauto.
  - rewrite Hr. setoid_rewrite Hs. destruct journal as [ts|]; cbn; [setoid_rewrite <- native_outcome_NoTransaction|]; naive_solver.
Qed.

(** * Updates *)

Definition indexes (installed : list VersionedPackage) (by_identity : gmap (rstr * rstr) VersionedPackage) : Prop :=
  forall k p, by_identity !! k = Some p <-> p ∈ installed /\ vp_key p = k.

Lemma index_installed installed : forall pre m, NoDup (map vp_key pre) -> indexes pre m ->
  match for_each add_installed m installed with
  | Ok m' => NoDup (map vp_key (pre ++ installed)) /\ indexes (pre ++ installed) m'
  | Err e => e = DuplicateInstalled /\ ~ NoDup (map vp_key (pre ++ installed))
  end.
Proof.
  induction installed as [|p installed IH]; intros pre m Hnd Hidx; [by rewrite app_nil_r|]. cbn [for_each]. unfold add_installed at 1.
  destruct (m !! vp_key p) as [q|] eqn:E.
  - cbn. split; [done|]. apply Hidx in E as [Hq Hk]. rewrite map_app. cbn [map]. intros (_ & Hd & _)%NoDup_app. apply (Hd (vp_key p)); [|left].
    rewrite <- Hk. by apply (list_elem_of_fmap_2 vp_key).
  - cbn [bool_decide decide decide_rel ensure res_bind]. rewrite bool_decide_eq_true_2 by done. cbn [ensure res_bind]. replace (pre ++ p :: installed) with ((pre ++ [p]) ++ installed) by (by rewrite <- app_assoc).
    apply IH.
    + rewrite map_app. cbn [map]. apply NoDup_app. split_and!; [done| |by apply NoDup_singleton]. intros k Hk ->%list_elem_of_singleton.
      apply list_elem_of_fmap in Hk as (q & Hq & Hin). assert (m !! vp_key p = Some q) by (by apply Hidx). congruence.
    + intros k q. rewrite elem_of_app, list_elem_of_singleton. destruct (decide (vp_key p = k)) as [<-|Hne].
      * rewrite lookup_insert_eq. split; [intros [= <-]; by split; [right|]|]. intros [[Hq| ->] Hk]; [|done]. assert (m !! vp_key p = Some q) by (by apply Hidx). congruence.
      * rewrite lookup_insert_ne by done. rewrite (Hidx k q). naive_solver.
Qed.

(** The updates are those of the candidates, each against the installed
    package of its name and architecture. *)
Definition update_of (installed : list VersionedPackage) (candidate : VersionedPackage) (u : UpdateInfo) : Prop :=
  exists old, old ∈ installed /\ vp_key old = vp_key candidate /\ vp_version old ≠ vp_version candidate /\
    u = {| update_name := vp_name candidate; update_old := vp_version old; update_new := vp_version candidate; update_repo := vp_repository candidate |}.

Lemma match_updates_exact installed upgrades us : match_updates installed upgrades = Ok us <->
  NoDup (map vp_key installed) /\ Forall2 (update_of installed) upgrades us.
Proof.
  unfold match_updates. pose proof (index_installed installed [] ∅ NoDup_nil_2) as Hidx. cbn [app] in Hidx.
  assert (indexes [] ∅) as H0 by (intros k p; rewrite lookup_empty; split; [done|by intros [?%elem_of_nil _]]). specialize (Hidx H0).
  destruct (for_each add_installed ∅ installed) as [m|e]; cbn [res_bind]; [|destruct Hidx; naive_solver]. destruct Hidx as [Hnd Hm]. rewrite try_map_Ok.
  assert (Hone : forall c u, match_update m c = Ok u <-> update_of installed c u).
  { intros c u. unfold match_update, update_of. destruct (m !! vp_key c) as [old|] eqn:E; cbn [ok_or res_bind].
    - apply Hm in E as [Hin Hk]. unfold str_eqb. destruct (decide (vp_version old = vp_version c)) as [Ev|Hv].
      + rewrite bool_decide_eq_true_2 by done. cbn. split; [done|]. intros (old' & Hin' & Hk' & Hne & _).
        assert (m !! vp_key c = Some old) by (by apply Hm). assert (m !! vp_key c = Some old') by (by apply Hm). congruence.
      + rewrite bool_decide_eq_false_2 by done. cbn. split; [intros [= <-]; eauto 6|]. intros (old' & Hin' & Hk' & Hne & ->).
        assert (m !! vp_key c = Some old) by (by apply Hm). assert (m !! vp_key c = Some old') by (by apply Hm). congruence.
    - split; [done|]. intros (old & Hin & Hk & _). assert (m !! vp_key c = Some old) by (by apply Hm). congruence. }
  split; [intros H; split; [done|]|intros [_ H]]; (eapply Forall2_impl; [exact H|]); intros c u; apply Hone.
Qed.

(** * Removal plans *)

Lemma split_nevra_Some text name version release architecture : split_nevra text = Some (name, version, release, architecture) ->
  text = name ++ ch "-" :: version ++ ch "-" :: release ++ ch "." :: architecture.
Proof.
  unfold split_nevra. intros H. apply bind_Some in H as ([nvr a] & H1 & H). apply bind_Some in H as ([nv r] & H2 & H). apply bind_Some in H as ([n v] & H3 & H). injection H as <- <- <- <-.
  apply rsplit_once_Some in H1 as [-> _]. apply rsplit_once_Some in H2 as [-> _]. apply rsplit_once_Some in H3 as [-> _]. by rewrite <- !app_assoc.
Qed.

(** The entry names exactly the package of the row. *)
Definition removal_of (row : NativeTransactionPackage) (p : RemovalPackage) : Prop :=
  exists name architecture, package_identity (row_nevra row) = Ok (name, architecture) /\ removal_name p = name ++ ch "." :: architecture /\
    row_nevra row = name ++ ch "-" :: removal_version p ++ ch "." :: architecture.

Lemma package_identity_between text name architecture : package_identity text = Ok (name, architecture) ->
  text = name ++ ch "-" :: between name architecture text ++ ch "." :: architecture.
Proof.
  unfold package_identity. intros H. res_inv. destruct a0 as [[[n v] r] a']. apply ok_or_Ok, split_nevra_Some in Hr0. revert Hr0. res_inv. intros Htext.
  set (evr := v ++ ch "-" :: r). assert (text = name ++ ch "-" :: evr ++ ch "." :: architecture) as -> by (rewrite Htext; unfold evr; by rewrite <- app_assoc).
  do 3 f_equal. unfold between. replace (length name + 1)%nat with (length (name ++ [ch "-"])) by (by rewrite length_app).
  replace (name ++ ch "-" :: evr ++ ch "." :: architecture) with ((name ++ [ch "-"]) ++ evr ++ ch "." :: architecture) by (by rewrite <- app_assoc).
  rewrite drop_app_length. rewrite take_app_length'; [done|]. rewrite !length_app. cbn [length]. lia.
Qed.

Lemma plan_row_inv rows row seen plan seen' plan' :
  (forall n, n ∈ seen <-> n ∈ map row_nevra rows) -> NoDup (map row_nevra rows) -> Forall2 removal_of rows plan -> Forall (fun r => row_action r = str "Remove") rows ->
  plan_row (seen, plan) row = Ok (seen', plan') ->
  (forall n, n ∈ seen' <-> n ∈ map row_nevra (rows ++ [row])) /\ NoDup (map row_nevra (rows ++ [row])) /\ Forall2 removal_of (rows ++ [row]) plan' /\
  Forall (fun r => row_action r = str "Remove") (rows ++ [row]).
Proof.
  intros Hseen Hnd Hplan Hact H. unfold plan_row in H. res_inv. to_prop. rewrite map_app. cbn [map]. split_and!.
  - intros n. rewrite elem_of_union, elem_of_singleton, Hseen, elem_of_app, list_elem_of_singleton. tauto.
  - apply NoDup_app. split_and!; [done| |by apply NoDup_singleton]. intros n Hn ->%list_elem_of_singleton. by apply Hr0, Hseen.
  - destruct a1 as [name architecture]. apply Forall2_app; [done|]. constructor; [|constructor]. exists name, architecture. cbn. split_and!; [done..|]. by apply package_identity_between.
  - apply Forall_app. split; [done|]. constructor; [|constructor]. unfold str_eqb in Hr. by to_prop.
Qed.

(** A plan that is shown lists exactly the packages DNF would remove, and
    nothing else would happen. *)
Lemma removal_plan_is_exact t plan : parse_removal_plan t = Ok plan ->
  stored_groups t = O /\ stored_environments t = O /\ Forall (fun r => row_action r = str "Remove") (stored_rpms t) /\ NoDup (map row_nevra (stored_rpms t)) /\
  exists entries, plan ≡ₚ entries /\ Forall2 removal_of (stored_rpms t) entries.
Proof.
  unfold parse_removal_plan. intros H. res_inv. to_prop. destruct a1 as [seen entries]. cbn [snd].
  assert (Hinv : (forall n, n ∈ seen <-> n ∈ map row_nevra (stored_rpms t)) /\ NoDup (map row_nevra (stored_rpms t)) /\ Forall2 removal_of (stored_rpms t) entries /\
    Forall (fun r => row_action r = str "Remove") (stored_rpms t)).
  { revert Hr1. apply (for_each_inv _ (fun rows st => (forall n, n ∈ st.1 <-> n ∈ map row_nevra rows) /\ NoDup (map row_nevra rows) /\ Forall2 removal_of rows st.2 /\
      Forall (fun r => row_action r = str "Remove") rows)).
    - cbn. split_and!; [set_solver|constructor..].
    - intros rows row [seen1 plan1] [seen2 plan2] (? & ? & ? & ?) _ Hrow. by eapply plan_row_inv. }
  destruct Hinv as (_ & Hnd & Hf & Ha). split_and!; [done..|]. exists entries. split; [apply sort_by_perm|done].
Qed.

(** * Sample *)

(** Fields one after the other, each behind some padding. *)
Fixpoint lay_out (offset : nat) (fs : list (nat * Field)) : list (nat * Field) * list Z :=
  match fs with
  | [] => ([], [])
  | (padding, f) :: fs =>
      let '(index, payload) := lay_out (offset + padding + length (field_data f)) fs in
      (((offset + padding)%nat, f) :: index, repeat 0 padding ++ field_data f ++ payload)
  end.

Definition tool_fields : list (nat * Field) :=
  [(0%nat, TextField NAME 6 (as_bytes (str "tool")) []); (0%nat, TextField VERSION 6 (as_bytes (str "1.2")) []); (0%nat, TextField RELEASE 6 (as_bytes (str "3.fc44")) []);
   (0%nat, NumberField EPOCH 4 [2]); (0%nat, TextField SUMMARY 9 (as_bytes (str "A tool")) [as_bytes (str "Un outil")]); (0%nat, TextField ARCH 6 (as_bytes (str "x86_64")) []);
   (0%nat, TextField 1047 8 (as_bytes (str "tool")) [as_bytes (str "tool(x86-64)")]); (1%nat, NumberField 1030 3 [33188; 33261]); (2%nat, NumberField 1028 4 [4096; 17]);
   (0%nat, NumberField 5009 5 [70000; 9]); (0%nat, BytesField 1029 1 [1; 0; 2]); (0%nat, BytesField 5093 7 [])].

(** The region tag is the first of the index, and the last of the payload. *)
Definition tool_header : Header :=
  let '(index, payload) := lay_out 0 tool_fields in {|
  h_index := (length payload, BytesField 62 7 (repeat 255 16)) :: index; h_payload := payload ++ repeat 255 16;
  h_name := str "tool"; h_epoch := 2; h_version := str "1.2"; h_release := str "3.fc44"; h_architecture := str "x86_64"; h_summary := str "A tool" |}.

Definition field_okb (f : Field) : bool :=
  (0 <=? field_tag f) && (field_tag f <? 2 ^ 32) &&
  match f with
  | TextField tag tag_type text more =>
      forallb (forallb (fun b => negb (b =? 0))) (text :: more) && negb (tag =? EPOCH) &&
      ((tag_type =? 6) && bool_decide (more = []) || ((tag_type =? 8) || (tag_type =? 9)) && negb (is_string_identity tag))
  | NumberField tag tag_type values =>
      negb (is_string_identity tag) && ((3 <=? tag_type) && (tag_type <=? 5)) && (negb (tag =? EPOCH) || (tag_type =? 4) && bool_decide (length values = 1%nat))
  | BytesField tag tag_type _ => negb (is_string_identity tag) && negb (tag =? EPOCH) && ((tag_type =? 1) || (tag_type =? 2) || (tag_type =? 7))
  end.

Lemma field_okb_ok f : field_okb f = true -> field_ok f.
Proof.
  unfold field_okb, field_ok. intros H. apply andb_true_iff in H as [H1 H2]. apply andb_true_iff in H1. split; [lia|]. destruct f as [tag ty text more|tag ty values|tag ty bytes].
  - apply andb_true_iff in H2 as [H2 H4]. apply andb_true_iff in H2 as [H2 H3]. split_and!; [|lia|].
    + apply Forall_forall. intros x Hx%list_elem_of_In Hz%list_elem_of_In. rewrite forallb_forall in H2. specialize (H2 x Hx). rewrite forallb_forall in H2. by specialize (H2 0 Hz).
    + apply orb_true_iff in H4 as [H4|H4]; apply andb_true_iff in H4 as [H4 H5]; [left|right]; (split; [lia|]); [by apply bool_decide_eq_true in H5|by apply negb_true_iff].
  - apply andb_true_iff in H2 as [H2 H4]. apply andb_true_iff in H2 as [H2 H3]. split_and!; [by apply negb_true_iff|lia|lia|..].
    intros He. apply orb_true_iff in H4 as [H4|H4]; [lia|]. apply andb_true_iff in H4 as [H4 H5]. split; [lia|by apply bool_decide_eq_true in H5].
  - apply andb_true_iff in H2 as [H2 H4]. apply andb_true_iff in H2 as [H2 H3]. split_and!; [by apply negb_true_iff|lia|lia].
Qed.

Definition placedb (payload : list Z) (e : nat * Field) : bool :=
  bool_decide (e.1 < length payload)%nat && bool_decide (take (length (field_data e.2)) (drop e.1 payload) = field_data e.2).

Lemma placedb_ok payload e : placedb payload e = true -> placed payload e.
Proof.
  unfold placedb, placed. intros [Ho%bool_decide_eq_true Hd%bool_decide_eq_true]%andb_prop. split; [done|].
  exists (take e.1 payload), (drop (length (field_data e.2)) (drop e.1 payload)). split; [rewrite length_take; lia|].
  rewrite <- Hd at 1. by rewrite take_drop, take_drop.
Qed.

Lemma Forall_checked {A} (P : A -> Prop) (b : A -> bool) l : (forall x, b x = true -> P x) -> forallb b l = true -> Forall P l.
Proof. intros Hb Hl. rewrite forallb_forall in Hl. apply Forall_forall. intros x Hx. by apply Hb, Hl, list_elem_of_In. Qed.

Lemma tool_header_ok : header_ok tool_header.
Proof.
  assert (Hholds : forall tag ty text more, TextField tag ty (as_bytes text) more ∈ h_fields tool_header -> forallb is_scalar text = true -> holds tool_header tag text)
    by (intros; split; [by apply valid_str_compute|eauto]).
  assert (Hin : forall i f, h_fields tool_header !! i = Some f -> f ∈ h_fields tool_header) by (intros i f; apply list_elem_of_lookup_2).
  unfold header_ok. split_and!.
  - apply (Forall_checked _ _ _ field_okb_ok). by vm_compute.
  - apply (Forall_checked _ _ _ (placedb_ok _)). by vm_compute.
  - apply (bool_decide_unpack _). by vm_compute.
  - split; vm_compute; congruence.
  - by vm_compute.
  - by apply (Hholds NAME 6 _ []); [apply (Hin 1%nat)|].
  - by apply (Hholds VERSION 6 _ []); [apply (Hin 2%nat)|].
  - by apply (Hholds RELEASE 6 _ []); [apply (Hin 3%nat)|].
  - by apply (Hholds ARCH 6 _ []); [apply (Hin 6%nat)|].
  - by apply (Hholds SUMMARY 9 _ [as_bytes (str "Un outil")]); [apply (Hin 5%nat)|].
  - by vm_compute.
  - by vm_compute.
  - left. by apply (Hin 4%nat).
Qed.

Lemma package_header_roundtrip_witness :
  exists lossy, (forall s, valid_str s -> lossy (as_bytes s) = s) /\
    parse_package_from_blob lossy (header_bytes (h_index tool_header) (h_payload tool_header) ++ [0; 255])
    = Ok {| pkg_name := str "tool"; pkg_version := str "2:1.2"; pkg_release := str "3.fc44"; pkg_architecture := str "x86_64"; pkg_summary := str "A tool"; pkg_reason := Dependency |}.
Proof.
  assert (Hl : forall s, valid_str s -> default [] (decode_utf8 (as_bytes s)) = s) by (intros s Hs; by rewrite decode_as_bytes).
  exists (fun bytes => default [] (decode_utf8 bytes)). split; [exact Hl|]. exact (package_header_roundtrip _ Hl tool_header [0; 255] tool_header_ok).
Defined.
