(* ===== verification/DnfInventory.v ===== *)
(** The installed inventory of the Fedora backend:
    src/src/package_managers/dnf.rs, the observation of the RPM database and
    the snapshot the manager keeps of it.

    Files and rows may change between any two reads: the outside world is a
    function of a clock that every read advances, and a connection is named by
    the time it was opened at. SHA-256 and [String::from_utf8_lossy] are
    parameters. A worker that panics is not modelled. *)

From S2P Require Import Prelude Spdx RustPath Validation DpkgStatus History Policy Dnf.
Open Scope Z_scope.
Open Scope omg_scope.

(** * Identity of files *)

Record RpmFileIdentity := {
  device : Z;
  inode : Z;
  size : Z;
  modified : Z * Z;
  changed : Z * Z
}.

#[export] Instance RpmFileIdentity_eq_dec : EqDecision RpmFileIdentity.
Proof. solve_decision. Defined.

(** [std::fs::metadata]. *)
Inductive Stat :=
| Missing
| StatFails
| Entry (is_file : bool) (identity : RpmFileIdentity).

(** [RpmFileIdentity::read]: [None] is an error. *)
Definition file_identity (s : Stat) : option (option RpmFileIdentity) :=
  match s with
  | Missing => Some None
  | StatFails | Entry false _ => None
  | Entry true identity => Some (Some identity)
  end.

Record RpmDatabaseIdentity := { database : RpmFileIdentity; wal : option RpmFileIdentity }.

Definition same_inventory_files (self observed : RpmDatabaseIdentity) : bool :=
  bool_decide (database self = database observed) &&
  match wal self, wal observed with
  | None, None => true
  | Some current, Some previous =>
      (device current =? device previous) && (inode current =? inode previous) && (size current =? size previous)
      && bool_decide (modified current = modified previous)
  | _, _ => false
  end.

(** * The outside *)

Record World := {
  stat_database : nat -> Stat;
  stat_wal : nat -> Stat;
  opens : nat -> bool;
  poisoned : nat -> bool;
  data_version : nat -> nat -> option Z;
  package_rows : nat -> nat -> option (list (Z * list Z));
  rpm_qa : nat -> option (list Z)
}.

(** A sequence of reads. *)
Definition T (A : Type) : Type := nat -> nat * A.

#[export] Instance T_ret : MRet T := fun A a t => (t, a).
#[export] Instance T_bind : MBind T := fun A B f p t => let '(t', a) := p t in f a t'.

Definition read_at {A} (f : nat -> A) : T A := fun t => (S t, f t).

Section observation.
Context (w : World) (sha256 : list Z -> list Z) (from_utf8_lossy : list Z -> rstr).

Definition database_identity_read : T (option RpmDatabaseIdentity) :=
  s ← read_at (stat_database w);
  match file_identity s with
  | Some (Some database) =>
      s ← read_at (stat_wal w);
      mret (match file_identity s with Some wal => Some {| database := database; wal := wal |} | None => None end)
  | _ => mret None
  end.

(** * Observations *)

Definition INVENTORY_DOMAIN : list Z := as_bytes (str "OMG RPM Packages inventory v1") ++ [0].

Definition row_bytes (row : Z * list Z) : list Z :=
  1 :: be_bytes 8 (row.1 mod 2 ^ 64) ++ be_bytes 8 (Z.of_nat (length row.2)) ++ row.2.

Definition by_hnum (a b : Z * list Z) : comparison := Z.compare a.1 b.1.

(** What is hashed of the rows, in the order of their numbers. *)
Definition inventory_bytes (rows : list (Z * list Z)) : list Z :=
  let rows := sort_by by_hnum rows in
  INVENTORY_DOMAIN ++ (rows ≫= row_bytes) ++ 0 :: be_bytes 8 (Z.of_nat (length rows)).

Definition fingerprint_inventory (rows : list (Z * list Z)) : list Z := sha256 (inventory_bytes rows).

Record RpmDatabaseObservation := {
  observed_identity : RpmDatabaseIdentity;
  connection : nat;
  observed_version : Z;
  inventory_fingerprint : list Z
}.

Definition observation_read : T (option RpmDatabaseObservation) :=
  before ← database_identity_read;
  match before with
  | None => mret None
  | Some before_open =>
      connection ← (fun t => (S t, t));
      if negb (opens w connection) then mret None
      else
        version ← read_at (data_version w connection);
        match version with
        | None => mret None
        | Some version =>
            rows ← read_at (package_rows w connection);
            match rows with
            | None => mret None
            | Some rows =>
                after ← database_identity_read;
                mret (match after with
                      | None => None
                      | Some identity =>
                          let initialized_empty_wal :=
                            match wal before_open, wal identity with None, Some wal => size wal =? 0 | _, _ => false end in
                          if negb (bool_decide (database identity = database before_open)) then None
                          else if negb (same_inventory_files identity before_open) && negb initialized_empty_wal then None
                          else Some {| observed_identity := identity; connection := connection; observed_version := version;
                                       inventory_fingerprint := fingerprint_inventory rows |}
                      end)
            end
        end
  end.

Definition files_match (o : RpmDatabaseObservation) : T bool :=
  current ← database_identity_read;
  mret (match current with Some current => same_inventory_files current (observed_identity o) | None => false end).

Definition contents_match (o : RpmDatabaseObservation) : T bool :=
  version ← read_at (data_version w (connection o));
  match version with
  | None => mret false
  | Some version =>
      if version =? observed_version o then mret true
      else
        rows ← read_at (package_rows w (connection o));
        mret (match rows with Some rows => bool_decide (fingerprint_inventory rows = inventory_fingerprint o) | None => false end)
  end.

Definition is_current (o : RpmDatabaseObservation) : T bool :=
  same ← files_match o;
  if negb same then mret false
  else
    broken ← read_at (poisoned w);
    if (broken : bool) then mret false
    else
      contents ← contents_match o;
      if (contents : bool) then files_match o else mret false.

(** * Reading the inventory *)

Definition sqlite_packages (rows : option (list (Z * list Z))) : result (list InstalledPackage) DnfError :=
  let? rows := ok_or rows SqliteFailed in read_rpm_sqlite_connection from_utf8_lossy (map snd rows).

(** With a connection of its own. *)
Definition read_rpm_sqlite : T (result (list InstalledPackage) DnfError) :=
  connection ← (fun t => (S t, t));
  if negb (opens w connection) then mret (Err SqliteFailed)
  else rows ← read_at (package_rows w connection); mret (sqlite_packages rows).

Definition rpm_query : T (result (list InstalledPackage) DnfError) :=
  stdout ← read_at (rpm_qa w);
  mret (let? stdout := ok_or stdout RpmQueryFailed in read_rpm_via_query from_utf8_lossy stdout).

Definition fallback : T (result (list InstalledPackage * option RpmDatabaseObservation) DnfError) :=
  r ← rpm_query; mret (let? packages := r in Ok (packages, None)).

Definition read_rpm_database : T (result (list InstalledPackage * option RpmDatabaseObservation) DnfError) :=
  exists_ ← read_at (stat_database w);
  match exists_ with
  | Missing | StatFails => fallback
  | Entry _ _ =>
      observed ← observation_read;
      match observed with
      | Some o =>
          broken ← read_at (poisoned w);
          if (broken : bool) then mret (Err LockPoisoned)
          else
            rows ← read_at (package_rows w (connection o));
            match sqlite_packages rows with Ok packages => mret (Ok (packages, Some o)) | Err _ => fallback end
      | None =>
          r ← read_rpm_sqlite;
          match r with Ok packages => mret (Ok (packages, None)) | Err _ => fallback end
      end
  end.

(** * The snapshot *)

Record InstalledSnapshot := {
  observation : RpmDatabaseObservation;
  snapshot_packages : gmap rstr (list InstalledPackage)
}.

Definition group_package (grouped : gmap rstr (list InstalledPackage)) (p : InstalledPackage) : gmap rstr (list InstalledPackage) :=
  <[pkg_name p := default [] (grouped !! pkg_name p) ++ [p]]> grouped.

Definition group_packages (packages : list InstalledPackage) : gmap rstr (list InstalledPackage) := foldl group_package ∅ packages.

(** The values of a [HashMap], in some order. *)
Definition flattened (m : gmap rstr (list InstalledPackage)) : list InstalledPackage := map_to_list m ≫= snd.

Definition current_snapshot (cache : option InstalledSnapshot) : T (option InstalledSnapshot) :=
  match cache with
  | None => mret None
  | Some snapshot => current ← is_current (observation snapshot); mret (if (current : bool) then Some snapshot else None)
  end.

Definition cached_installed_packages (cache : option InstalledSnapshot) : T (option (list InstalledPackage)) :=
  snapshot ← current_snapshot cache; mret (flattened ∘ snapshot_packages <$> snapshot).

(** The cache that is left behind. *)
Definition publish_installed_packages (packages : list InstalledPackage) (observed : option RpmDatabaseObservation) : T (option InstalledSnapshot) :=
  match observed with
  | None => mret None
  | Some o =>
      current ← is_current o;
      mret (if (current : bool) then Some {| observation := o; snapshot_packages := group_packages packages |} else None)
  end.

Definition load_installed_packages_blocking (cache : option InstalledSnapshot)
    : T (option InstalledSnapshot * result (list InstalledPackage) DnfError) :=
  cached ← cached_installed_packages cache;
  match cached with
  | Some packages => mret (cache, Ok packages)
  | None =>
      r ← read_rpm_database;
      match r with
      | Err e => mret (cache, Err e)
      | Ok (packages, observed) => cache' ← publish_installed_packages packages observed; mret (cache', Ok packages)
      end
  end.

Definition is_installed_fast (cache : option InstalledSnapshot) (package : rstr) : T (option InstalledSnapshot * result bool DnfError) :=
  snapshot ← current_snapshot cache;
  match snapshot with
  | Some s =>
      mret (cache, Ok (bool_decide (is_Some (snapshot_packages s !! package)) || existsb (fun p => matches_selector p package) (flattened (snapshot_packages s))))
  | None =>
      r ← load_installed_packages_blocking cache;
      mret (r.1, let? packages := r.2 in Ok (existsb (fun p => matches_selector p package) packages))
  end.
End observation.
