(* ===== verification/DnfInventoryProofs.v ===== *)
(** Proofs on the installed inventory of the Fedora backend: what is answered
    from a snapshot is what the database holds at the time. *)

From S2P Require Import Prelude Spdx RustPath Validation DpkgStatus History Policy Dnf DnfProofs DnfInventory.
Open Scope Z_scope.
Open Scope omg_scope.

(** * Fingerprints *)

Definition row_ok (row : Z * list Z) : Prop := - 2 ^ 63 <= row.1 < 2 ^ 63 /\ Z.of_nat (length row.2) < 2 ^ 64.

Lemma framing_injective tail tail' rows rows' : Forall row_ok rows -> Forall row_ok rows' ->
  (rows ≫= row_bytes) ++ 0 :: tail = (rows' ≫= row_bytes) ++ 0 :: tail' -> rows = rows'.
Proof.
  revert rows'. induction rows as [|[n b] rows IH]; intros [|[n' b'] rows']; intros Hr Hr' H; [done|discriminate..|].
  apply Forall_cons in Hr as [[Hn Hb] Hr]. apply Forall_cons in Hr' as [[Hn' Hb'] Hr']. cbn [fst snd] in *.
  assert (Hcons : forall r rs, (r :: rs) ≫= row_bytes = row_bytes r ++ (rs ≫= row_bytes)) by done. rewrite !Hcons in H. unfold row_bytes at 1 3 in H. cbn [fst snd app] in H.
  apply (inj (cons 1)) in H. rewrite <- !app_assoc in H.
  apply app_inj_1 in H as [H1 H]; [|by rewrite !length_be_bytes]. apply app_inj_1 in H as [H2 H]; [|by rewrite !length_be_bytes].
  pose proof (Z.mod_pos_bound n (2 ^ 64) eq_refl). pose proof (Z.mod_pos_bound n' (2 ^ 64) eq_refl). change (2 ^ 64) with (256 ^ 8) in *.
  apply be_bytes_inj in H1; [|done..]. apply be_bytes_inj in H2; [|lia..]. apply app_inj_1 in H as [-> H]; [|lia].
  assert (n = n') as -> by (rewrite !Z.mod_eq in H1 by lia; lia). f_equal. by apply IH.
Qed.

Lemma by_hnum_order : cmp_order always by_hnum.
Proof. apply (cmp_order_key fst always Z.compare). apply cmp_order_Z. Qed.

Lemma inventory_bytes_perm rows rows' : Forall row_ok rows -> Forall row_ok rows' -> inventory_bytes rows = inventory_bytes rows' -> rows ≡ₚ rows'.
Proof.
  unfold inventory_bytes. cbn zeta. intros Hr Hr' H. apply app_inv_head in H. rewrite <- (sort_by_perm by_hnum rows), <- (sort_by_perm by_hnum rows').
  apply framing_injective in H; [by rewrite H|by rewrite sort_by_perm..].
Qed.

(** * Sequences of reads *)

Lemma T_bind_inv {A B} (p : T A) (f : A -> T B) t t' b : (x ← p; f x) t = (t', b) -> exists t1 a, p t = (t1, a) /\ f a t1 = (t', b).
Proof. unfold mbind, T_bind. destruct (p t) as [t1 a]. eauto. Qed.

Ltac T_inv :=
  repeat match goal with
  | H : mbind _ _ _ = (_, _) |- _ =>
      let t := fresh "t" in let a := fresh "a" in let H1 := fresh "Hstep" in
      apply T_bind_inv in H as (t & a & H1 & H)
  | H : read_at _ _ = (_, _) |- _ => unfold read_at in H; injection H as ? ?; subst
  | H : mret _ _ = (_, _) |- _ => unfold mret, T_ret in H; injection H as ? ?; subst
  | H : (S _, _) = (_, _) |- _ => injection H as ? ?; subst
  end.

Section reads.
Context (w : World) (sha256 : list Z -> list Z) (from_utf8_lossy : list Z -> rstr).

Lemma identity_read_clock t t' i : database_identity_read w t = (t', i) -> (t < t')%nat.
Proof. unfold database_identity_read. intros H. T_inv. repeat case_match; T_inv; lia. Qed.

Lemma identity_read_stat t t' i : database_identity_read w t = (t', Some i) -> stat_database w t = Entry true (database i).
Proof.
  unfold database_identity_read. intros H. T_inv. destruct (stat_database w t) as [| |[] identity]; cbn [file_identity] in H; T_inv; try discriminate.
  case_match; [|discriminate]. by simplify_eq.
Qed.

(** The files match when the database file has the observed identity. *)
Lemma files_match_spec o t t' b : files_match w o t = (t', b) -> (t < t')%nat /\
  (b = true -> stat_database w t = Entry true (database (observed_identity o))).
Proof.
  unfold files_match. intros H. T_inv. pose proof Hstep as Hc%identity_read_clock. split; [done|].
  destruct a as [i|]; [|done]. apply identity_read_stat in Hstep. unfold same_inventory_files. intros [Hi _]%andb_prop. apply bool_decide_eq_true in Hi. congruence.
Qed.

(** The contents of the connection, as far as they were compared. *)
Lemma contents_match_spec o t t' b : contents_match w sha256 o t = (t', b) -> (t < t')%nat /\
  (b = true -> exists u, (t <= u < t')%nat /\
    (data_version w (connection o) u = Some (observed_version o) \/
     exists rows, package_rows w (connection o) u = Some rows /\ fingerprint_inventory sha256 rows = inventory_fingerprint o)).
Proof.
  unfold contents_match. intros H. T_inv. destruct (data_version w (connection o) t) as [v|] eqn:Ev; [|T_inv; split; [lia|done]].
  destruct (Z.eqb_spec v (observed_version o)) as [->|Hv]; T_inv.
  - split; [lia|]. intros _. exists t. split; [lia|by left].
  - split; [lia|]. destruct (package_rows w (connection o) (S t)) as [rows|] eqn:Er; [|done]. intros Hb. to_prop. exists (S t). split; [lia|]. right. eauto.
Qed.

Lemma is_current_spec o t t' b : is_current w sha256 o t = (t', b) -> (t < t')%nat /\
  (b = true -> exists t1 u t2, (t <= t1 /\ t1 <= u <= t2 /\ t2 < t')%nat /\
    stat_database w t1 = Entry true (database (observed_identity o)) /\ stat_database w t2 = Entry true (database (observed_identity o)) /\
    (data_version w (connection o) u = Some (observed_version o) \/
     exists rows, package_rows w (connection o) u = Some rows /\ fingerprint_inventory sha256 rows = inventory_fingerprint o)).
Proof.
  unfold is_current. intros H. T_inv. apply files_match_spec in Hstep as [Hc1 Hf1]. destruct a; cbn [negb] in H; T_inv; [|split; [lia|done]].
  destruct (poisoned w t0); T_inv; [split; [lia|done]|]. apply contents_match_spec in Hstep as [Hc Hm].
  destruct a; T_inv; [|split; [lia|done]]. apply files_match_spec in H as [Hc2 Hf2]. split; [lia|]. intros ->. destruct (Hm eq_refl) as (u & Hu & Hcont).
  eexists t, u, _. split; [|split; [by apply Hf1|split; [by apply (Hf2 eq_refl)|exact Hcont]]]. lia.
Qed.

(** A new observation pairs a version with rows read after it, on a connection
    opened while the database file had the observed identity. *)
Lemma observation_read_spec t t' r : observation_read w sha256 t = (t', r) -> (t < t')%nat /\
  forall o, r = Some o -> exists t0 t1 t2 rows, (t <= t0 /\ t0 < connection o < t1 /\ t1 < t2 < t')%nat /\ opens w (connection o) = true /\
    stat_database w t0 = Entry true (database (observed_identity o)) /\ data_version w (connection o) t1 = Some (observed_version o) /\
    package_rows w (connection o) t2 = Some rows /\ inventory_fingerprint o = fingerprint_inventory sha256 rows.
Proof.
  unfold observation_read. intros H. T_inv. pose proof Hstep as Hclock%identity_read_clock. destruct a as [before|]; T_inv; [|split; [lia|done]].
  apply identity_read_stat in Hstep as Hstat.
  destruct (opens w a) eqn:Eo; cbn [negb] in H; T_inv; [|split; [lia|done]]. destruct (data_version w a (S a)) as [v|] eqn:Ev; T_inv; [|split; [lia|done]].
  destruct (package_rows w a (S (S a))) as [rows|] eqn:Er; T_inv; [|split; [lia|done]]. match goal with H : database_identity_read w _ = _ |- _ => apply identity_read_clock in H end. split; [lia|].
  intros o Ho. case_match; [|discriminate]. match type of Ho with (if negb ?b then _ else _) = _ => destruct b eqn:Ei; [|discriminate] end.
  apply bool_decide_eq_true in Ei. cbn [negb] in Ho. rewrite <- Ei in Hstat.
  case_match; try discriminate; injection Ho as <-; cbn; exists t, (S a), (S (S a)), rows; split_and!; (lia || done).
Qed.
End reads.

(** * Snapshots *)

Lemma group_package_perm m p : flattened (group_package m p) ≡ₚ p :: flattened m.
Proof. apply push_perm. Qed.

Lemma flattened_group packages : flattened (group_packages packages) ≡ₚ packages.
Proof.
  unfold group_packages. induction packages as [|p packages IH] using rev_ind; [done|].
  rewrite foldl_app. cbn [foldl]. rewrite group_package_perm, IH. by rewrite Permutation_cons_append.
Qed.

Lemma group_packages_key packages name : is_Some (group_packages packages !! name) -> exists p, p ∈ packages /\ pkg_name p = name.
Proof.
  unfold group_packages. induction packages as [|p packages IH] using rev_ind; [intros [? H]; cbn [foldl] in H; by rewrite lookup_empty in H|].
  rewrite foldl_app. cbn [foldl]. unfold group_package at 1. intros H. setoid_rewrite elem_of_app. setoid_rewrite list_elem_of_singleton.
  destruct (decide (pkg_name p = name)) as [<-|Hne]; [by exists p; auto|]. rewrite lookup_insert_ne in H by done. destruct (IH H) as (q & ? & ?). exists q. auto.
Qed.

Lemma try_map_perm {A B E} (f : A -> result B E) l l' ys : l ≡ₚ l' -> try_map f l = Ok ys -> exists ys', try_map f l' = Ok ys' /\ ys ≡ₚ ys'.
Proof.
  intros Hp Ht%try_map_Ok. setoid_rewrite try_map_Ok. revert ys Ht. induction Hp as [|x l l' Hp IH|x y l|l l' l'' Hp IH Hp' IH']; intros ys Ht.
  - by exists ys.
  - inversion Ht as [|? y ? ys0 H1 H2]; subst. destruct (IH _ H2) as (ys' & H3 & H4). exists (y :: ys'). split; [by constructor|by rewrite H4].
  - inversion Ht as [|? b1 ? ? Hb1 Hr]; subst. inversion Hr as [|? b2 ? l3 Hb2 Hr']; subst. exists (b2 :: b1 :: l3). split; [by repeat constructor|apply perm_swap].
  - destruct (IH _ Ht) as (ys1 & H1 & P1). destruct (IH' _ H1) as (ys2 & H2 & P2). exists ys2. split; [done|by transitivity ys1].
Qed.

Section current.
Context (w : World) (sha256 : list Z -> list Z) (from_utf8_lossy : list Z -> rstr).

(** The database file at the path at each time, and what each file holds. A
    connection stays with the file it was opened on. *)
Context {F : Type} (file_at : nat -> F) (contents : F -> nat -> list (Z * list Z)).
Context (reads_contents : forall c t rows, package_rows w c t = Some rows -> rows = contents (file_at c) t).
Context (rows_ok : forall f t, Forall row_ok (contents f t)).

(** A path whose file has one device, inode, size and times at two moments
    names the same file all the time between them. *)
Context (same_file : forall t1 u t2 i, (t1 <= u <= t2)%nat -> stat_database w t1 = Entry true i -> stat_database w t2 = Entry true i -> file_at u = file_at t1).

(** Between two reads of one value of data_version nothing was committed. *)
Context (version_changes : forall c t1 u t2 v, (t1 <= u <= t2)%nat -> data_version w c t1 = Some v -> data_version w c t2 = Some v ->
  contents (file_at c) u ≡ₚ contents (file_at c) t1).

(** An inventory that a file held before does not come back. *)
Context (no_return : forall f t1 u t2, (t1 <= u <= t2)%nat -> contents f t2 ≡ₚ contents f t1 -> contents f u ≡ₚ contents f t1).

Definition collision : Prop := exists x y : list Z, x ≠ y /\ sha256 x = sha256 y.

Definition packages_at (f : F) (u : nat) (packages : list InstalledPackage) : Prop :=
  exists ps, read_rpm_sqlite_connection from_utf8_lossy (map snd (contents f u)) = Ok ps /\ packages ≡ₚ ps.

(** The packages were read between the observation and now, from the file
    that had the observed identity. *)
Definition snapshot_ok (t : nat) (s : InstalledSnapshot) : Prop :=
  exists t0 t1 t2 t3 packages, let o := observation s in
    (t0 < connection o < t1 /\ t1 < t2 /\ t2 < t3 /\ t3 < t)%nat /\ stat_database w t0 = Entry true (database (observed_identity o)) /\
    data_version w (connection o) t1 = Some (observed_version o) /\
    inventory_fingerprint o = fingerprint_inventory sha256 (contents (file_at (connection o)) t2) /\
    packages_at (file_at (connection o)) t3 packages /\ snapshot_packages s = group_packages packages.

Lemma packages_at_perm c u u' packages : contents c u' ≡ₚ contents c u -> packages_at c u packages -> packages_at c u' packages.
Proof.
  intros Hp (ps & Hps & Hperm). unfold read_rpm_sqlite_connection in Hps. destruct (try_map_perm _ _ (map snd (contents c u')) _ (fmap_Permutation snd _ _ (symmetry Hp)) Hps) as (ps' & H1 & H2).
  exists ps'. split; [done|by rewrite Hperm].
Qed.

Lemma fingerprint_perm c u rows : package_rows w c u = Some rows -> forall rows', Forall row_ok rows' ->
  fingerprint_inventory sha256 rows = fingerprint_inventory sha256 rows' -> contents (file_at c) u ≡ₚ rows' \/ collision.
Proof.
  intros ->%reads_contents rows' Hok Hf. destruct (decide (inventory_bytes (contents (file_at c) u) = inventory_bytes rows')) as [E|Hne]; [left; by apply inventory_bytes_perm|].
  right. by exists (inventory_bytes (contents (file_at c) u)), (inventory_bytes rows').
Qed.

(** A snapshot that passes the check holds the packages that the file at the
    path holds at that moment. *)
Lemma current_snapshot_spec t t' s : snapshot_ok t s -> current_snapshot w sha256 (Some s) t = (t', Some s) ->
  (exists u packages, (t <= u < t')%nat /\ packages_at (file_at u) u packages /\ snapshot_packages s = group_packages packages) \/ collision.
Proof.
  intros (t0 & t1 & t2 & t3 & packages & Ht & Hi & Hv & Hf & Hp & Hs) H. cbn [current_snapshot] in H. T_inv. apply is_current_spec in Hstep as [_ Hm].
  destruct a; [|discriminate]. destruct (Hm eq_refl) as (s1 & u & s2 & Hu & Hi1 & Hi2 & Hc).
  assert (file_at u = file_at (connection (observation s))) as Hfile.
  { rewrite (same_file t0 u s2 _ ltac:(lia) Hi Hi2). symmetry. by apply (same_file t0 (connection (observation s)) s2 _ ltac:(lia) Hi Hi2). }
  assert (forall rows, contents (file_at (connection (observation s))) u ≡ₚ rows -> contents (file_at (connection (observation s))) t3 ≡ₚ rows ->
    exists u packages, (t <= u < t')%nat /\ packages_at (file_at u) u packages /\ snapshot_packages s = group_packages packages) as Hgo.
  { intros rows H1 H2. exists u, packages. split; [lia|]. split; [|done]. rewrite Hfile. refine (packages_at_perm _ t3 u _ _ Hp). by rewrite H1, H2. }
  destruct Hc as [Hv'|(rows & Hr & Hf')].
  - left. apply (Hgo _ (version_changes _ t1 u u _ ltac:(lia) Hv Hv') (version_changes _ t1 t3 u _ ltac:(lia) Hv Hv')).
  - rewrite Hf in Hf'. destruct (fingerprint_perm _ _ _ Hr _ (rows_ok _ t2) Hf') as [Hperm|Hc]; [|by right]. left.
    apply (Hgo _ Hperm). by apply (no_return _ t2 t3 u ltac:(lia)).
Qed.

(** The packages are those that the file at the path holds at some time of
    the interval, or those read then from the file that was at the path when
    it was opened for this, also in the interval, or what rpm printed then. *)
Definition inventory_between (t t' : nat) (packages : list InstalledPackage) : Prop :=
  (exists u, (t <= u < t')%nat /\ packages_at (file_at u) u packages) \/
  (exists c u, (t <= c < u /\ u < t')%nat /\ opens w c = true /\ packages_at (file_at c) u packages) \/
  (exists u stdout ps, (t <= u < t')%nat /\ rpm_qa w u = Some stdout /\ read_rpm_via_query from_utf8_lossy stdout = Ok ps /\ packages ≡ₚ ps).

Lemma inventory_between_mono t1 t2 t1' t2' packages : inventory_between t1 t2 packages -> (t1' <= t1 /\ t2 <= t2')%nat -> inventory_between t1' t2' packages.
Proof. intros [(u & Hu & Hp)|[(c & u & Hu & Hp)|(u & s & ps & Hu & Hs)]] Ht; [left; exists u|right; left; exists c, u|right; right; exists u, s, ps]; (split; [lia|done]). Qed.

Lemma sqlite_packages_at c u packages : sqlite_packages from_utf8_lossy (package_rows w c u) = Ok packages -> packages_at (file_at c) u packages.
Proof.
  unfold sqlite_packages. destruct (package_rows w c u) as [rows|] eqn:E; [|done]. apply reads_contents in E as ->. cbn [ok_or res_bind]. intros H. by exists packages.
Qed.

Lemma fallback_spec t t' r : fallback w from_utf8_lossy t = (t', r) -> (t < t')%nat /\
  forall packages observed, r = Ok (packages, observed) -> observed = None /\ inventory_between t t' packages.
Proof.
  unfold fallback, rpm_query. intros H. T_inv. split; [lia|]. intros packages observed H. destruct (rpm_qa w t) as [stdout|] eqn:E; [|done].
  cbn [ok_or res_bind] in H. destruct (read_rpm_via_query from_utf8_lossy stdout) as [ps|] eqn:Ep; [|done]. cbn in H. injection H as <- <-. split; [done|].
  right. right. exists t, stdout, ps. split; [lia|done].
Qed.

Lemma read_rpm_sqlite_spec t t' r : read_rpm_sqlite w from_utf8_lossy t = (t', r) -> (t < t')%nat /\ forall packages, r = Ok packages -> inventory_between t t' packages.
Proof.
  unfold read_rpm_sqlite. intros H. T_inv. destruct (opens w a) eqn:Eo; cbn [negb] in H; T_inv; (split; [lia|]); intros packages Hp; [|done].
  apply sqlite_packages_at in Hp. right. left. exists a, (S a). split; [lia|done].
Qed.

Lemma read_rpm_database_spec t t' r : read_rpm_database w sha256 from_utf8_lossy t = (t', r) -> (t < t')%nat /\
  forall packages observed, r = Ok (packages, observed) -> inventory_between t t' packages /\
    forall o s, observed = Some o -> observation s = o -> snapshot_packages s = group_packages packages -> snapshot_ok t' s.
Proof.
  unfold read_rpm_database. intros H. T_inv.
  assert (Hfall : forall t0, (t < t0)%nat -> fallback w from_utf8_lossy t0 = (t', r) -> (t < t')%nat /\
    forall packages observed, r = Ok (packages, observed) -> inventory_between t t' packages /\
      forall o s, observed = Some o -> observation s = o -> snapshot_packages s = group_packages packages -> snapshot_ok t' s).
  { intros t0 Ht0 [Hc Hf]%fallback_spec. split; [lia|]. intros packages observed Hr. destruct (Hf _ _ Hr) as [-> Hi]. split; [|done]. eapply inventory_between_mono; [exact Hi|lia]. }
  destruct (stat_database w t); [by apply (Hfall (S t)); [lia|]..|]. T_inv. apply observation_read_spec in Hstep as [Hc Ho]. destruct a as [o|]; T_inv.
  - destruct (Ho o eq_refl) as (ts & t1 & t2 & rows & Ht & Hopen & Hstat & Hv & Hr & Hf). destruct (poisoned w t0); T_inv; [split; [lia|done]|].
    destruct (sqlite_packages _ _) as [packages|] eqn:Ep; [|apply (Hfall (S (S t0))); [lia|done]]. T_inv. split; [lia|]. intros ? ? [= <- <-].
    apply sqlite_packages_at in Ep. split; [right; left; exists (connection o), (S t0); split; [lia|done]|]. intros o' s [= <-] Hobs Hs.
    exists ts, t1, t2, (S t0), packages. rewrite Hobs. apply reads_contents in Hr as ->. split_and!; (lia || done).
  - apply read_rpm_sqlite_spec in Hstep as [Hc' Hi]. destruct a as [packages|]; [|by apply (Hfall t1); [lia|]]. T_inv. split; [lia|]. intros ? ? [= <- <-].
    split; [|done]. eapply inventory_between_mono; [by apply Hi|lia].
Qed.

Definition cache_ok (t : nat) (cache : option InstalledSnapshot) : Prop := match cache with Some s => snapshot_ok t s | None => True end.

Lemma cache_ok_later t t' cache : (t <= t')%nat -> cache_ok t cache -> cache_ok t' cache.
Proof. destruct cache as [s|]; [|done]. intros Ht (t0 & t1 & t2 & t3 & packages & Hts & H). exists t0, t1, t2, t3, packages. split; [lia|done]. Qed.

Lemma current_snapshot_clock t t' cache r : current_snapshot w sha256 cache t = (t', r) -> (t <= t')%nat /\ (r = None \/ r = cache).
Proof.
  destruct cache as [s|]; cbn [current_snapshot]; intros H; T_inv; [|split; [lia|by left]]. apply is_current_spec in Hstep as [Hc _]. split; [lia|]. destruct a; auto.
Qed.

Lemma publish_spec t t' packages observed cache : publish_installed_packages w sha256 packages observed t = (t', cache) -> (t <= t')%nat /\
  (cache = None \/ exists o, observed = Some o /\ cache = Some {| observation := o; snapshot_packages := group_packages packages |}).
Proof.
  unfold publish_installed_packages. destruct observed as [o|]; intros H; T_inv; [|split; [lia|by left]]. apply is_current_spec in Hstep as [Hc _]. split; [lia|].
  destruct a; [right; by exists o|by left].
Qed.

Lemma load_spec t t' cache cache' r : cache_ok t cache -> load_installed_packages_blocking w sha256 from_utf8_lossy cache t = (t', (cache', r)) ->
  (t <= t')%nat /\ (collision \/ (cache_ok t' cache' /\ forall packages, r = Ok packages -> inventory_between t t' packages)).
Proof.
  intros Hok H. unfold load_installed_packages_blocking, cached_installed_packages in H. T_inv. rename Hstep0 into Hcur. pose proof (current_snapshot_clock _ _ _ _ Hcur) as [Hc Hs].
  destruct a0 as [s|]; cbn [fmap option_fmap option_map] in H.
  - destruct Hs as [|<-]; [done|]. T_inv. split; [lia|]. destruct (current_snapshot_spec _ _ _ Hok Hcur) as [(u & packages & Hu & Hp & Hg)|]; [|by left]. right.
    split; [by eapply (cache_ok_later t)|]. intros ps [= <-]. left. exists u. split; [lia|]. cbn. rewrite Hg. destruct Hp as (q & Hq & Hpq). exists q. split; [done|]. by rewrite flattened_group.
  - T_inv. apply read_rpm_database_spec in Hstep as [Hc' Hr]. destruct a as [[packages observed]|e]; T_inv.
    + apply publish_spec in Hstep as [Hc'' Hp]. destruct (Hr _ _ eq_refl) as [Hi Hsn]. split; [lia|]. right. split; [|intros ? [= <-]; eapply inventory_between_mono; [exact Hi|lia]].
      destruct Hp as [->|(o & -> & ->)]; [done|]. eapply (cache_ok_later t1); [lia|]. by apply (Hsn o).
    + split; [lia|]. right. split; [|done]. by eapply (cache_ok_later t); [lia|].
Qed.

Lemma existsb_selector_perm packages ps selector : packages ≡ₚ ps -> existsb (fun p => matches_selector p selector) packages = existsb (fun p => matches_selector p selector) ps.
Proof. induction 1; cbn [existsb]; [done|congruence|by rewrite !orb_assoc, (orb_comm (matches_selector y selector))|congruence]. Qed.

Lemma cached_answer packages selector :
  bool_decide (is_Some (group_packages packages !! selector)) || existsb (fun p => matches_selector p selector) (flattened (group_packages packages))
  = existsb (fun p => matches_selector p selector) packages.
Proof.
  rewrite (existsb_selector_perm _ _ selector (flattened_group packages)). case_bool_decide as H; cbn [orb]; [|done]. symmetry.
  apply group_packages_key in H as (p & Hp & Hn). apply existsb_exists. exists p. split; [by apply list_elem_of_In|]. unfold matches_selector.
  by rewrite (bool_decide_eq_true_2 _ Hn : str_eqb _ _ = true).
Qed.

Lemma is_installed_spec t t' cache cache' package r : cache_ok t cache -> is_installed_fast w sha256 from_utf8_lossy cache package t = (t', (cache', r)) ->
  collision \/ (cache_ok t' cache' /\ forall b, r = Ok b -> exists packages, inventory_between t t' packages /\ b = existsb (fun p => matches_selector p package) packages).
Proof.
  intros Hok H. unfold is_installed_fast in H. T_inv. rename Hstep into Hcur. pose proof (current_snapshot_clock _ _ _ _ Hcur) as [Hc Hs]. destruct a as [s|].
  - destruct Hs as [|<-]; [done|]. T_inv. destruct (current_snapshot_spec _ _ _ Hok Hcur) as [(u & packages & Hu & Hp & Hg)|]; [|by left]. right.
    split; [by eapply (cache_ok_later t)|]. intros b [= <-]. exists packages. split; [left; exists u; split; [lia|done]|]. rewrite Hg. apply cached_answer.
  - T_inv. destruct a as [cache1 loaded]. apply (cache_ok_later _ t0) in Hok; [|lia]. apply load_spec in Hstep as [Hc' [Hcol|[Hok' Hl]]]; [by left| |done]. right. cbn [fst snd] in *.
    split; [done|]. intros b Hb. destruct loaded as [packages|]; [|done]. cbn in Hb. injection Hb as <-. exists packages. split; [|done]. eapply inventory_between_mono; [by apply Hl|lia].
Qed.

(** The caches a manager has, whatever was asked of it before. *)
Inductive reachable : nat -> option InstalledSnapshot -> Prop :=
| reach_empty t : reachable t None
| reach_later t t' cache : reachable t cache -> (t <= t')%nat -> reachable t' cache
| reach_load t t' cache cache' r : reachable t cache -> load_installed_packages_blocking w sha256 from_utf8_lossy cache t = (t', (cache', r)) -> reachable t' cache'
| reach_ask t t' cache cache' package r : reachable t cache -> is_installed_fast w sha256 from_utf8_lossy cache package t = (t', (cache', r)) -> reachable t' cache'.

Lemma reachable_cache_ok t cache : reachable t cache -> collision \/ cache_ok t cache.
Proof.
  induction 1 as [t|t t' cache _ IH Ht|t t' cache cache' r _ IH Hl|t t' cache cache' package r _ IH Ha]; [by right| | |].
  - destruct IH as [|IH]; [by left|]. right. by eapply cache_ok_later.
  - destruct IH as [|IH]; [by left|]. destruct (load_spec _ _ _ _ _ IH Hl) as [_ [|[? _]]]; auto.
  - destruct IH as [|IH]; [by left|]. destruct (is_installed_spec _ _ _ _ _ _ IH Ha) as [|[? _]]; auto.
Qed.

End current.

(** * Samples *)

Definition rpmdb : RpmFileIdentity := {| device := 1; inode := 7; size := 4096; modified := (10, 0); changed := (10, 0) |}.

Definition tool_row : Z * list Z := (1, header_bytes (h_index tool_header) (h_payload tool_header)).

(** A database with the given rows and versions, and nothing of rpm itself. *)
Definition database_world (version : nat -> Z) (rows : nat -> list (Z * list Z)) : World := {|
  stat_database := fun _ => Entry true rpmdb; stat_wal := fun _ => Missing; opens := fun _ => true; poisoned := fun _ => false;
  data_version := fun _ t => Some (version t); package_rows := fun _ t => Some (rows t); rpm_qa := fun _ => None |}.

Definition steady : World := database_world (fun _ => 3) (fun _ => [tool_row]).


(** The package is there while the inventory is read, and nowhere else: after
    the observation and before the check of it. *)
Definition flicker : World := database_world (fun t => if bool_decide (t < 9)%nat then 3 else if bool_decide (t = 9)%nat then 4 else 5) (fun t => if bool_decide (t = 9)%nat then [tool_row] else []).

(** Without [no_return] the theorem fails: rows that were committed and taken
    back during a load are answered from the snapshot afterwards. *)
Theorem reverted_change_is_answered :
  let first := load_installed_packages_blocking flicker id id None 0%nat in
  (is_installed_fast flicker id id first.2.1 (str "tool") first.1).2.2 = Ok true /\ first.1 = 17%nat /\
  forall c u, (17 <= u)%nat -> package_rows flicker c u = Some [].
Proof. cbn zeta. split_and!; [by vm_compute..|]. intros c u Hu. cbn. by rewrite bool_decide_eq_false_2 by lia. Qed.
