(* ===== verification/DnfManager.v ===== *)
(** The operations of the Fedora backend: src/src/package_managers/dnf.rs and
    src/src/package_managers/dnf_advisory.rs.

    Queries, installation, removal, updates, cleanup, listings and the security
    audit, over the inventory of [DnfInventory]. What runs outside is a record
    of arbitrary answers that may depend on everything that happened before:
    the programs dnf and rpm, elevation, the audit log and the history. Parsers
    of JSON and of versions and [str::to_lowercase] are part of it. The trace
    of events is not part of the program. A worker that panics is not
    modelled. *)

From S2P Require Import Prelude Spdx RustPath Validation DpkgStatus History Policy Dnf DnfInventory.
Open Scope Z_scope.
Open Scope omg_scope.

(** * Arguments *)

Inductive InstalledSizeQuery :=
| SizeAll
| SizePackage (package : rstr)
| RequirementProviders (package : rstr).

Inductive InstalledReasonQuery :=
| ReasonPackage (package : rstr)
| RequiredBy (package : rstr).

Inductive RepositoryQuery :=
| Available (package : option rstr)
| QInstalled
| Upgrades
| Unneeded
| InstalledSizes (q : InstalledSizeQuery)
| InstalledReasons (q : InstalledReasonQuery)
| InstalledDetails (package : rstr).

(** [join_tabs]: the fields of a format, with the escape that ends a row. *)
Fixpoint row_format (fields : list rstr) : rstr :=
  match fields with
  | [] => str "\n"
  | [field] => field ++ str "\n"
  | field :: fields => field ++ 9 :: row_format fields
  end.

Definition repository_query_format (query : RepositoryQuery) : rstr :=
  match query with
  | Available _ => row_format [str "%{name}.%{arch}"; str "%{evr}"; str "%{summary}"]
  | InstalledSizes _ => row_format [str "%{full_nevra}"; str "%{installsize}"]
  | InstalledReasons _ => row_format [str "%{full_nevra}"; str "%{reason}"]
  | InstalledDetails _ => row_format [str "%{name}"; str "%{evr}"; str "%{full_nevra}"; str "%{reason}"]
  | QInstalled | Upgrades | Unneeded => row_format [str "%{name}"; str "%{arch}"; str "%{evr}"; str "%{repoid}"]
  end.

Definition selection (query : RepositoryQuery) : rstr :=
  match query with
  | Available _ => str "--available"
  | QInstalled | InstalledSizes _ | InstalledReasons _ | InstalledDetails _ => str "--installed"
  | Upgrades => str "--upgrades"
  | Unneeded => str "--unneeded"
  end.

(** The options that depend on the operand, and the operand. *)
Definition query_operand (query : RepositoryQuery) : result (list rstr * option rstr) DnfError :=
  match query with
  | Available package => Ok ([], package)
  | InstalledSizes (SizePackage package) | InstalledReasons (ReasonPackage package) | InstalledDetails package => Ok ([], Some package)
  | InstalledSizes (RequirementProviders package) => Ok ([str "--providers-of=requires"], Some package)
  | InstalledReasons (RequiredBy package) =>
      map_err SelectorName (validate_package_name package) ;?
      Ok ([str "--whatrequires=" ++ package], None)
  | QInstalled | Upgrades | Unneeded | InstalledSizes SizeAll => Ok ([], None)
  end.

Definition query_options (arch : rstr) (query : RepositoryQuery) : list rstr :=
  let cached := match query with QInstalled | Upgrades | Unneeded => [str "--cacheonly"] | _ => [] end in
  let excludes := match query with InstalledSizes _ | InstalledReasons _ | InstalledDetails _ => [str "--setopt=disable_excludes=*"] | _ => [] end in
  let latest := match query with Available _ | QInstalled | Upgrades => [str "--latest-limit=1"] | _ => [] end in
  let archs := match query with Available _ => [str "--arch=" ++ arch ++ str ",noarch"] | _ => [] end in
  cached ++ excludes ++ [str "repoquery"; selection query; str "--queryformat"; repository_query_format query] ++ latest ++ archs.

Definition repository_query_args (arch : rstr) (query : RepositoryQuery) : result (list rstr) DnfError :=
  let? operand := query_operand query in
  match operand.2 with
  | Some name => validate_query_selector name ;? Ok (query_options arch query ++ operand.1 ++ [name])
  | None => Ok (query_options arch query ++ operand.1)
  end.

Definition cached_update_args : list rstr := [str "--setopt=cacheonly=metadata"; str "upgrade"; str "-y"].

Inductive DnfCleanup := Orphans (yes : bool) | PackageCache.

(** * The outside *)

Inductive DnfEvent :=
| Attempt (args : list rstr)
| Ran (args : list rstr)
| Finished (args : list rstr) (success : bool)
| Elevated (args : list rstr)
| Queried (program : rstr) (args : list rstr) (env : list (rstr * rstr))
| Recorded (kind : TransactionType) (changes : list PackageChange) (success : bool).

Record ApplicableAdvisory := { row_name : rstr; row_kind : rstr; row_severity : rstr; advisory_nevra : rstr }.

Record AdvisoryReference := { reference_id : rstr; reference_kind : rstr; reference_url : rstr }.

Record AdvisoryDetails := {
  details_name : rstr;
  details_title : rstr;
  details_severity : rstr;
  details_kind : rstr;
  details_description : rstr;
  details_references : list AdvisoryReference
}.

Record InstalledIdentity := { installed_name : rstr; installed_evr : rstr; installed_arch : rstr }.

#[export] Instance InstalledIdentity_eq_dec : EqDecision InstalledIdentity.
Proof. solve_decision. Defined.

Record Host := {
  world : World;
  sha256 : list Z -> list Z;
  from_utf8_lossy : list Z -> rstr;
  to_lowercase : rstr -> rstr;
  root_user : bool;
  program_found : rstr -> bool;
  audit_accepts : list DnfEvent -> bool;
  run_status : list DnfEvent -> list rstr -> option bool;
  run_elevated : list DnfEvent -> list rstr -> bool;
  query_answer : list DnfEvent -> option (list Z);
  history_accepts : list DnfEvent -> bool;
  parent_owns_history : bool;
  fresh_uuid : list DnfEvent -> rstr;
  target_arch : rstr;
  cache_dir : option rstr;
  preview_directory : list DnfEvent -> option rstr;
  stored_transaction : list DnfEvent -> option (list Z);
  json_history : list Z -> option (list NativeTransaction);
  json_stored : list Z -> option StoredRemovalTransaction;
  json_applicable : list Z -> option (list ApplicableAdvisory);
  json_details : list Z -> option (list AdvisoryDetails);
  json_repositories : list Z -> option (list (rstr * bool))
}.

Record Manager := {
  clock : nat;
  installed_cache : option InstalledSnapshot;
  events : list DnfEvent
}.

Definition D (A : Type) : Type := Manager -> Manager * result A DnfError.

#[export] Instance D_ret : MRet D := fun A a s => (s, Ok a).
#[export] Instance D_bind : MBind D := fun A B f p s =>
  match p s with (s', Ok a) => f a s' | (s', Err e) => (s', Err e) end.

Definition lift {A} (r : result A DnfError) : D A := fun s => (s, r).

(** The outcome as a value. *)
Definition attempt {A} (p : D A) : D (result A DnfError) := fun s => let '(s', r) := p s in (s', Ok r).

Definition emit (e : DnfEvent) : D unit := fun s =>
  ({| clock := clock s; installed_cache := installed_cache s; events := events s ++ [e] |}, Ok tt).

Definition ask {A} (f : list DnfEvent -> A) : D A := fun s => (s, Ok (f (events s))).

Definition set_cache (cache : option InstalledSnapshot) : D unit := fun s =>
  ({| clock := clock s; installed_cache := cache; events := events s |}, Ok tt).

Definition invalidate_installed_cache : D unit := set_cache None.

(** A sequence of reads on the inventory, with the cache it leaves. *)
Definition on_inventory {A} (p : option InstalledSnapshot -> T (option InstalledSnapshot * result A DnfError)) : D A := fun s =>
  let '(t, (cache, r)) := p (installed_cache s) (clock s) in
  ({| clock := t; installed_cache := cache; events := events s |}, r).

Section operations.
Context `{Codecs Table Value} (penv : PolicyEnv) (inherited : option SecurityPolicy) (h : Host).

(** [system_command]. *)
Definition system_command (program : rstr) : D unit := lift (ensure (program_found h program) NoProgram).

Definition query_output (program : rstr) (args : list rstr) (env : list (rstr * rstr)) : D (list Z) :=
  _ ← system_command program;
  _ ← emit (Queried program args env);
  answer ← ask (query_answer h);
  lift (ok_or answer QueryFailed).

Definition dnf_query (args : list rstr) : D (list Z) := query_output (str "dnf") args [].

Definition repository_output (query : RepositoryQuery) : D (list Z) :=
  args ← lift (repository_query_args (target_arch h) query);
  dnf_query args.

Definition record_operation (e : DnfEvent) : D unit :=
  accepted ← ask (fun es => audit_accepts h (es ++ [e]));
  if (accepted : bool) then emit e else lift (Err AuditRefused).

(** * Running dnf *)

Definition needs_plan (verb : rstr) : bool := str_eqb verb (str "install") || str_eqb verb (str "upgrade").

Definition plan_support (needed : bool) : D unit :=
  if needed then lift (map_err PolicyRefused (require_native_plan_support penv inherited)) else mret tt.

Definition run_dnf (args : list rstr) : D unit :=
  _ ← plan_support (match args with verb :: _ => needs_plan verb | [] => false end);
  _ ← system_command (str "dnf");
  _ ← record_operation (Attempt args);
  _ ← emit (Ran args);
  status ← ask (fun es => run_status h es args);
  success ← lift (ok_or status CommandFailed);
  _ ← record_operation (Finished args success);
  if (success : bool) then invalidate_installed_cache else lift (Err CommandFailed).

(** [run_privileged_program]. *)
Definition run_privileged (args : list rstr) : D unit :=
  _ ← emit (Elevated args);
  success ← ask (fun es => run_elevated h es args);
  lift (ensure success CommandFailed).

Definition execute_dnf (args : list rstr) : D unit :=
  _ ← plan_support (match List.find (fun arg => negb (starts_with (str "-") arg)) args with Some verb => needs_plan verb | None => false end);
  operation ← attempt (if root_user h then run_dnf args else run_privileged args);
  _ ← invalidate_installed_cache;
  lift operation.

Definition native_history (since : option Z) : D (list NativeTransaction) :=
  let range := match since with None => str "last" | Some id => to_string (Z.max id 1) ++ str "..last" end in
  output ← dnf_query [str "history"; str "info"; str "--json"; range];
  transactions ← lift (ok_or (json_history h output) HistoryInvalid);
  _ ← lift (ensure (forallb (fun t => 0 <? native_id t) transactions) HistoryInvalid);
  mret transactions.

Definition last_id (transactions : list NativeTransaction) : Z := foldl (fun m t => Z.max m (native_id t)) 0 transactions.

(** [record_native_result] with the history of the host. *)
Definition record_result (kind : TransactionType) (operation : result unit DnfError) (observed : result NativeOutcome DnfError) : D unit := fun s =>
  let stored changes success := history_accepts h (events s ++ [Recorded kind changes success]) in
  let '(entry, r) := record_native_result stored operation observed in
  ({| clock := clock s; installed_cache := installed_cache s;
      events := events s ++ match entry with Some (changes, success) => if stored changes success then [Recorded kind changes success] else [] | None => [] end |}, r).

(** [history] tells whether there is one to write to. *)
Definition recorded_mutation (kind : TransactionType) (args : list rstr) (history : bool) : D unit :=
  if negb history || parent_owns_history h then execute_dnf args
  else
    before ← native_history None;
    uuid ← ask (fresh_uuid h);
    let comment := str "omg-" ++ uuid in
    operation ← attempt (execute_dnf ((str "--comment=" ++ comment) :: args));
    journal ← attempt (native_history (Some (last_id before)));
    record_result kind operation (let? transactions := journal in native_outcome transactions comment).

(** * Operations *)

Definition install (packages : list rstr) : D unit :=
  _ ← lift (map_err SelectorName (validate_package_names packages));
  _ ← lift (reject_unsealed_local_rpm_targets packages);
  execute_dnf ([str "install"; str "-y"] ++ packages).

Definition remove (packages : list rstr) : D unit :=
  _ ← lift (map_err SelectorName (validate_package_names packages));
  execute_dnf ([str "remove"; str "-y"] ++ packages).

Definition update : D unit := execute_dnf [str "upgrade"; str "-y"].

Definition REFRESH : list rstr := [str "--refresh"; str "makecache"; str "-y"].

Definition sync : D unit :=
  _ ← invalidate_installed_cache;
  _ ← run_dnf REFRESH;
  if root_user h then mret tt else run_privileged REFRESH.

Definition transact_with_history (kind : TransactionType) (packages : list rstr) (history : bool) : option (D unit) :=
  let transact action :=
    _ ← lift (ensure (negb (bool_decide (kind = TxUpdate)) || bool_decide (packages = [])) UpdateOperands);
    _ ← lift (map_err SelectorName (validate_package_names packages));
    _ ← lift (if bool_decide (kind = TxInstall) then reject_unsealed_local_rpm_targets packages else Ok tt);
    recorded_mutation kind ([action; str "-y"] ++ packages) history in
  match kind with
  | TxInstall => Some (transact (str "install"))
  | TxRemove => Some (transact (str "remove"))
  | TxUpdate => Some (transact (str "upgrade"))
  | TxSync => None
  end.

Definition transact_cached_update_with_history (history : bool) : D unit := recorded_mutation TxUpdate cached_update_args history.

Definition cleanup (operation : DnfCleanup) (history : bool) : D unit :=
  match operation with
  | Orphans yes => recorded_mutation TxRemove (str "autoremove" :: (if yes then [str "--assumeyes"] else [])) history
  | PackageCache => execute_dnf [str "clean"; str "packages"]
  end.

Definition MAX_PLAN_BYTES : Z := 64 * 1024 * 1024.

(** [simulate_removal]; the bytes read of the stored transaction are cut off
    above the limit. *)
Definition removal_plan (packages : list rstr) : D (list RemovalPackage) :=
  _ ← lift (map_err SelectorName (validate_package_names packages));
  directory ← ask (preview_directory h);
  directory ← lift (ok_or directory PlanMissing);
  _ ← query_output (str "dnf") ([str "--cacheonly"; str "--setopt=logdir=" ++ directory; str "remove"; str "--assumeyes"; str "--store=" ++ directory] ++ packages)
        [(str "LC_ALL", str "C")];
  bytes ← ask (stored_transaction h);
  bytes ← lift (ok_or bytes PlanMissing);
  _ ← lift (ensure (Z.of_nat (length bytes) <=? MAX_PLAN_BYTES) PlanTooLarge);
  stored ← lift (ok_or (json_stored h bytes) PlanInvalid);
  lift (parse_removal_plan stored).

(** ** Listings *)

Definition load_installed_packages : D (list InstalledPackage) :=
  on_inventory (load_installed_packages_blocking (world h) (sha256 h) (from_utf8_lossy h)).

Definition is_installed (package : rstr) : D bool :=
  on_inventory (fun cache => is_installed_fast (world h) (sha256 h) (from_utf8_lossy h) cache package).

Definition USER_INSTALLED_ARGS : list rstr :=
  [str "--cacheonly"; str "--disable-repo=*"; str "--setopt=disable_excludes=*"; str "repoquery"; str "--userinstalled"; str "--qf"; str "%{name}\n"].

Definition apply_current_install_reasons (packages : list InstalledPackage) : D (list InstalledPackage) :=
  output ← dnf_query USER_INSTALLED_ARGS;
  names ← lift (parse_user_installed_names output);
  mret (apply_install_reasons names packages).

Definition list_explicit : D (list rstr) :=
  installed ← load_installed_packages;
  installed ← apply_current_install_reasons installed;
  mret (explicit_package_names installed).

Definition list_updates : D (list UpdateInfo) :=
  installed ← repository_output QInstalled;
  upgrades ← repository_output Upgrades;
  installed ← lift (parse_versioned_packages installed);
  upgrades ← lift (parse_versioned_packages upgrades);
  lift (match_updates installed upgrades).

Definition orphan_packages : D (list rstr) :=
  output ← repository_output Unneeded;
  packages ← lift (parse_versioned_packages output);
  mret (map (fun p => vp_name p ++ ch "." :: vp_architecture p) packages).

Definition get_status (fast : bool) : D (nat * nat * nat * nat) :=
  installed ← load_installed_packages;
  installed ← apply_current_install_reasons installed;
  let total := length installed in
  let explicit := length (explicit_package_names installed) in
  if fast then mret (total, explicit, O, O)
  else
    output ← repository_output Unneeded;
    unneeded ← lift (parse_versioned_packages output);
    updates ← list_updates;
    mret (total, explicit, length unneeded, length updates).

Definition installed_package_sizes (q : InstalledSizeQuery) : D (list (rstr * Z)) :=
  output ← repository_output (InstalledSizes q); lift (parse_installed_sizes output).

Definition installed_package_reasons (q : InstalledReasonQuery) : D (list (rstr * rstr)) :=
  output ← repository_output (InstalledReasons q); lift (parse_installed_reasons output).

Definition installed_package_details (package : rstr) : D (list InstalledPackageDetails) :=
  output ← repository_output (InstalledDetails package); lift (parse_installed_details output).

(** ** Packages *)

Record Package := { package_name : rstr; package_version : rstr; package_description : rstr; package_installed : bool }.

(** Versions are kept as the text that is parsed. *)
Definition installed_row (p : InstalledPackage) : Package :=
  {| package_name := identity p; package_version := pkg_version p ++ ch "-" :: pkg_release p; package_description := pkg_summary p; package_installed := true |}.

(** [splitn(3, '\t')], for rows of three fields. *)
Definition available_row (line : rstr) : result Package DnfError :=
  let? (name, rest) := ok_or (split_once 9 line) RowFields in
  let? (version, summary) := ok_or (split_once 9 rest) RowFields in
  ensure (not_empty name && plain_field (str "+._-") name) RowInvalid ;?
  ensure (not_empty version && forallb (fun c => negb (is_whitespace c)) version) RowInvalid ;?
  Ok {| package_name := name; package_version := version; package_description := summary; package_installed := false |}.

Definition parse_available_packages (output : list Z) : result (list Package) DnfError :=
  let? rows := rows_of output in try_map available_row (List.filter not_empty rows).

Definition available_packages (package : option rstr) : D (list Package) :=
  output ← repository_output (Available package); lift (parse_available_packages output).

Definition package_cmp (a b : Package) : comparison :=
  then_with (list_cmp (package_name a) (package_name b)) (Z.compare (Z.b2z (package_installed b)) (Z.b2z (package_installed a))).

(** [dedup_by]: of neighbours with one name the first stays. *)
Fixpoint dedup_names (packages : list Package) : list Package :=
  match packages with
  | [] => []
  | p :: rest =>
      match dedup_names rest with
      | q :: rest' => if str_eqb (package_name p) (package_name q) then p :: rest' else p :: q :: rest'
      | [] => [p]
      end
  end.

Definition search (query : rstr) : D (list Package) :=
  let lower := to_lowercase h query in
  let found name text := contains lower (to_lowercase h name) || contains lower (to_lowercase h text) in
  installed ← load_installed_packages;
  let results := map installed_row (List.filter (fun p => found (pkg_name p) (pkg_summary p)) installed) in
  available ← available_packages None;
  let results := results ++ List.filter (fun p => found (package_name p) (package_description p)) available in
  mret (dedup_names (sort_by package_cmp results)).

Definition info (package : rstr) : D (option Package) :=
  _ ← lift (validate_query_selector package);
  installed ← load_installed_packages;
  match List.filter (fun p => matches_selector p package) installed with
  | [p] => mret (Some (installed_row p))
  | [] =>
      available ← available_packages (Some package);
      _ ← lift (ensure (Z.of_nat (length available) <=? 1) TooManyBuilds);
      mret (head available)
  | _ => lift (Err TooManyBuilds)
  end.

Definition list_installed : D (list Package) :=
  installed ← load_installed_packages; mret (map installed_row installed).

(** ** Security audit *)

Definition query_args (details : bool) : list rstr :=
  [if details then str "--cacheonly" else str "--refresh"; str "--setopt=*.skip_if_unavailable=false"; str "--setopt=disable_excludes=*"; str "advisory";
   if details then str "info" else str "list"; str "--available"; str "--security"; str "--json"].

Definition require_enabled_repositories (repositories : list (rstr * bool)) : result unit DnfError :=
  let enabled repo := (repo.2 : bool) && not_empty repo.1 in
  ensure (existsb enabled repositories) NoRepositories ;?
  ensure (forallb enabled repositories) UnexpectedRepository.

Definition add_details (by_id : gmap rstr AdvisoryDetails) (detail : AdvisoryDetails) : result (gmap rstr AdvisoryDetails) DnfError :=
  ensure (not_empty (details_name detail)) AdvisoryInvalid ;?
  ensure (bool_decide (by_id !! details_name detail = None)) DuplicateAdvisory ;?
  Ok (<[details_name detail := detail]> by_id).

Definition SECURITY : rstr := str "security".

Definition Joined : Type := list (ApplicableAdvisory * AdvisoryDetails) * gset (rstr * rstr).

Definition join_row (by_id : gmap rstr AdvisoryDetails) (st : Joined) (row : ApplicableAdvisory) : result Joined DnfError :=
  ensure (not_empty (row_name row) && not_empty (advisory_nevra row)) AdvisoryInvalid ;?
  let? _ := package_identity (advisory_nevra row) in
  let? detail := ok_or (by_id !! row_name row) MissingAdvisory in
  ensure (str_eqb (row_kind row) SECURITY && str_eqb (details_kind detail) SECURITY) NotSecurity ;?
  ensure (eq_ignore_ascii_case (row_severity row) (details_severity detail)) SeverityConflict ;?
  let key := (row_name row, advisory_nevra row) in
  Ok (if bool_decide (key ∈ st.2) then st else (st.1 ++ [(row, detail)], {[key]} ∪ st.2)).

(** From the deserialized lists. *)
Definition join_advisories (rows : list ApplicableAdvisory) (metadata : list AdvisoryDetails) : result (list (ApplicableAdvisory * AdvisoryDetails)) DnfError :=
  let? by_id := for_each add_details ∅ metadata in
  let? st := for_each (join_row by_id) ([], ∅) rows in
  Ok st.1.

Inductive AdvisorySeverity := SevLow | SevModerate | SevImportant | SevCritical | SevUnspecified.

Definition severity_of (text : rstr) : AdvisorySeverity :=
  let text := to_ascii_lowercase text in
  if str_eqb text (str "critical") then SevCritical
  else if str_eqb text (str "important") then SevImportant
  else if str_eqb text (str "moderate") then SevModerate
  else if str_eqb text (str "low") then SevLow
  else SevUnspecified.

Record Vulnerability := {
  vuln_id : rstr;
  vuln_summary : rstr;
  vuln_severity : AdvisorySeverity;
  vuln_nevra : rstr;
  vuln_published : rstr;
  vuln_description : rstr;
  vuln_references : list AdvisoryReference;
  affected_installed : list InstalledIdentity
}.

(** [meets_minimum] for high, without a score. *)
Definition is_high (v : Vulnerability) : bool := match vuln_severity v with SevCritical | SevImportant => true | _ => false end.

Record SecurityAuditResult := { total_vulnerabilities : Z; high_severity : Z; vulnerabilities : list (rstr * list Vulnerability) }.

Definition finding_of (row : ApplicableAdvisory) (detail : AdvisoryDetails) : Vulnerability :=
  {| vuln_id := row_name row; vuln_summary := details_title detail; vuln_severity := severity_of (row_severity row); vuln_nevra := advisory_nevra row;
     vuln_published := row_severity row; vuln_description := details_description detail; vuln_references := details_references detail; affected_installed := [] |}.

Definition Findings : Type := gmap rstr (list Vulnerability) * Z * Z.

Definition add_finding (st : Findings) (pair : ApplicableAdvisory * AdvisoryDetails) : result Findings DnfError :=
  let '(packages, high, total) := st in
  let? id := package_identity (advisory_nevra pair.1) in
  let finding := finding_of pair.1 pair.2 in
  Ok (<[id.1 := default [] (packages !! id.1) ++ [finding]]> packages, high + Z.b2z (is_high finding), total + 1).

Definition by_name (a b : rstr * list Vulnerability) : comparison := list_cmp a.1 b.1.
Definition by_id (a b : Vulnerability) : comparison := list_cmp (vuln_id a) (vuln_id b).

Definition audit_result (rows : list (ApplicableAdvisory * AdvisoryDetails)) : result SecurityAuditResult DnfError :=
  let? st := for_each add_finding (∅, 0, 0) rows in
  let '(packages, high, total) := st in
  Ok {| total_vulnerabilities := total; high_severity := high;
        vulnerabilities := sort_by by_name (map_to_list (sort_by by_id <$> packages)) |}.

Definition INVENTORY_ARGS : list rstr :=
  [str "--cacheonly"; str "--disable-repo=*"; str "--setopt=disable_excludes=*"; str "repoquery"; str "--installed"; str "--queryformat";
   row_format [str "%{name}"; str "%{arch}"; str "%{epoch}:%{version}-%{release}"; str "%{repoid}"]].

Definition installed_identity (p : VersionedPackage) : InstalledIdentity :=
  {| installed_name := vp_name p; installed_evr := vp_version p; installed_arch := vp_architecture p |}.

Definition security_inventory : D (list InstalledIdentity) :=
  output ← dnf_query INVENTORY_ARGS;
  packages ← lift (parse_versioned_packages output);
  mret (map installed_identity packages).

Definition advisory_args (args : list rstr) : D (list rstr) :=
  cache ← lift (ok_or (cache_dir h) AdvisoryInvalid);
  mret ([str "--setopt=cachedir=" ++ cache; str "--setopt=system_cachedir=" ++ cache; str "--setopt=cacheonly=none"] ++ args).

Definition advisory_query (args : list rstr) : D (list Z) := args ← advisory_args args; dnf_query args.

Definition native_advisories : D (list (ApplicableAdvisory * AdvisoryDetails)) :=
  applicable ← advisory_query (query_args false);
  details ← advisory_query (query_args true);
  repositories ← advisory_query [str "--cacheonly"; str "--setopt=*.skip_if_unavailable=false"; str "repo"; str "info"; str "--enabled"; str "--json"];
  repositories ← lift (ok_or (json_repositories h repositories) AdvisoryInvalid);
  _ ← lift (require_enabled_repositories repositories);
  rows ← lift (ok_or (json_applicable h applicable) AdvisoryInvalid);
  metadata ← lift (ok_or (json_details h details) AdvisoryInvalid);
  lift (join_advisories rows metadata).

(** [r#"%{lua:print(rpm.vercmp(os.getenv("OMG_LEFT_EVR"), os.getenv("OMG_RIGHT_EVR")))}"#]. *)
Definition VERCMP : rstr :=
  str "%{lua:print(rpm.vercmp(os.getenv(" ++ 34 :: str "OMG_LEFT_EVR" ++ 34 :: str "), os.getenv(" ++ 34 :: str "OMG_RIGHT_EVR" ++ 34 :: str ")))}".

Definition compare_installed (evr : rstr) (affected : list InstalledIdentity) (package : InstalledIdentity) : D (list InstalledIdentity) :=
  output ← query_output (str "rpm") [str "--eval"; VERCMP] [(str "OMG_LEFT_EVR", installed_evr package); (str "OMG_RIGHT_EVR", evr)];
  text ← lift (ok_or (decode_utf8 output) RowNotUtf8);
  let order := trim text in
  if str_eqb order (str "-1") then mret (affected ++ [package])
  else if str_eqb order (str "0") || str_eqb order (str "1") then mret affected
  else lift (Err ComparisonInvalid).

(** A loop that stops at the first error. *)
Fixpoint fold_D {A B} (f : B -> A -> D B) (b : B) (l : list A) : D B :=
  match l with
  | [] => mret b
  | x :: l => b' ← f b x; fold_D f b' l
  end.

Definition affected_installed_packages (nevra : rstr) (installed : list InstalledIdentity) : D (list InstalledIdentity) :=
  id ← lift (package_identity nevra);
  affected ← fold_D (compare_installed (between id.1 id.2 nevra)) []
    (List.filter (fun p => str_eqb (installed_name p) id.1 && str_eqb (installed_arch p) id.2) installed);
  _ ← lift (ensure (negb (bool_decide (length affected = O))) NothingAffected);
  mret affected.

Definition find_affected (installed : list InstalledIdentity) (affected : gmap rstr (list InstalledIdentity)) (row : ApplicableAdvisory * AdvisoryDetails)
    : D (gmap rstr (list InstalledIdentity)) :=
  packages ← affected_installed_packages (advisory_nevra row.1) installed;
  mret (<[advisory_nevra row.1 := packages]> affected).

Definition identity_cmp (a b : InstalledIdentity) : comparison :=
  then_with (list_cmp (installed_name a) (installed_name b)) (then_with (list_cmp (installed_evr a) (installed_evr b)) (list_cmp (installed_arch a) (installed_arch b))).

Definition with_affected (affected : gmap rstr (list InstalledIdentity)) (v : Vulnerability) : result Vulnerability DnfError :=
  let? packages := ok_or (affected !! vuln_nevra v) NothingAffected in
  Ok {| vuln_id := vuln_id v; vuln_summary := vuln_summary v; vuln_severity := vuln_severity v; vuln_nevra := vuln_nevra v; vuln_published := vuln_published v;
        vuln_description := vuln_description v; vuln_references := vuln_references v; affected_installed := packages |}.

Definition with_all_affected (affected : gmap rstr (list InstalledIdentity)) (entry : rstr * list Vulnerability) : result (rstr * list Vulnerability) DnfError :=
  let? findings := try_map (with_affected affected) entry.2 in Ok (entry.1, findings).

Definition security_audit : D SecurityAuditResult :=
  installed ← security_inventory;
  rows ← native_advisories;
  affected ← fold_D (find_affected installed) ∅ rows;
  after ← security_inventory;
  _ ← lift (ensure (bool_decide (sort_by identity_cmp installed = sort_by identity_cmp after)) InventoryChanged);
  result ← lift (audit_result rows);
  findings ← lift (try_map (with_all_affected affected) (vulnerabilities result));
  mret {| total_vulnerabilities := total_vulnerabilities result; high_severity := high_severity result; vulnerabilities := findings |}.
End operations.
