(* ===== verification/DnfManagerProofs.v ===== *)
(** Proofs on the operations of the Fedora backend: what is run has only the
    options of the program and is covered by the policy, the history follows
    the journal, and an audit accounts for every advisory. *)

From S2P Require Import Prelude Spdx RustPath Validation DpkgStatus Deb822 Deb822Proofs History Policy Dnf DnfProofs DnfInventory DnfInventoryProofs DnfManager.
Open Scope Z_scope.
Open Scope omg_scope.

(** * Events *)

Definition emits {A} (P : DnfEvent -> Prop) (p : D A) : Prop :=
  forall s s' r, p s = (s', r) -> exists new, events s' = events s ++ new /\ Forall P new.

Create HintDb dnf.

Section emits.
Context (P : DnfEvent -> Prop).

Lemma emits_bind {A B} (p : D A) (f : A -> D B) : emits P p -> (forall a, emits P (f a)) -> emits P (x ← p; f x).
Proof.
  intros Hp Hf s s' r H. unfold mbind, D_bind in H. destruct (p s) as [s1 [a|e]] eqn:E; destruct (Hp _ _ _ E) as (n1 & E1 & F1).
  - destruct (Hf a _ _ _ H) as (n2 & E2 & F2). exists (n1 ++ n2). rewrite E2, E1, app_assoc. split; [done|by apply Forall_app].
  - injection H as <- <-. eauto.
Qed.

(** The rest of a bind runs on what the first part returned. *)
Lemma emits_bind_lift {A B} (r : result A DnfError) (f : A -> D B) : (forall a, r = Ok a -> emits P (f a)) -> emits P (x ← lift r; f x).
Proof.
  intros Hf s s' r' H. unfold mbind, D_bind, lift in H. destruct r as [a|e]; [by eapply Hf|]. injection H as <- <-. exists []. by rewrite app_nil_r.
Qed.

Lemma emits_bind_ask {A B} (g : list DnfEvent -> A) (f : A -> D B) : (forall es, emits P (f (g es))) -> emits P (x ← ask g; f x).
Proof. intros Hf s s' r' H. by eapply (Hf (events s)). Qed.

Lemma emits_ret {A} (a : A) : emits P (mret a).
Proof. intros s s' r [= <- <-]. exists []. by rewrite app_nil_r. Qed.

Lemma emits_lift {A} (r : result A DnfError) : emits P (lift r).
Proof. intros s s' r' [= <- <-]. exists []. by rewrite app_nil_r. Qed.

Lemma emits_ask {A} (f : list DnfEvent -> A) : emits P (ask f).
Proof. intros s s' r [= <- <-]. exists []. by rewrite app_nil_r. Qed.

Lemma emits_set_cache cache : emits P (set_cache cache).
Proof. intros s s' r [= <- <-]. exists []. by rewrite app_nil_r. Qed.

Lemma emits_inventory {A} (p : option InstalledSnapshot -> T (option InstalledSnapshot * result A DnfError)) : emits P (on_inventory p).
Proof. intros s s' r H. unfold on_inventory in H. destruct (p _ _) as [t [c r']]. injection H as <- <-. exists []. by rewrite app_nil_r. Qed.

Lemma emits_attempt {A} (p : D A) : emits P p -> emits P (attempt p).
Proof. intros Hp s s' r H. unfold attempt in H. destruct (p s) as [s1 r1] eqn:E. injection H as <- <-. by eapply Hp. Qed.

Lemma emits_emit e : P e -> emits P (emit e).
Proof. intros He s s' r [= <- <-]. exists [e]. split; [done|by constructor]. Qed.

Lemma emits_if {A} (b : bool) (p q : D A) : emits P p -> emits P q -> emits P (if b then p else q).
Proof. by destruct b. Qed.

Lemma emits_fold {A B} (f : B -> A -> D B) l : (forall b x, emits P (f b x)) -> forall b, emits P (fold_D f b l).
Proof. intros Hf. induction l as [|x l IH]; intros b; cbn [fold_D]; [apply emits_ret|]. apply emits_bind; [done|]. intros. apply IH. Qed.
End emits.

#[export] Hint Resolve emits_ret emits_lift emits_ask emits_set_cache emits_inventory emits_attempt emits_emit emits_if emits_fold : dnf.

(** Walk through a program of binds. *)
Ltac emits_step :=
  lazymatch goal with
  | |- emits _ (lift _ ≫= _) => apply emits_bind_lift; intros ? ?
  | |- emits _ (ask _ ≫= _) => apply emits_bind_ask; intros ?
  | |- emits _ (_ ≫= _) => apply emits_bind; [|intros ?]
  | |- emits _ (if _ then _ else _) => apply emits_if
  | |- emits _ (let _ := _ in _) => cbn zeta
  | |- emits _ (invalidate_installed_cache) => apply emits_set_cache
  | |- _ => solve [eauto 3 with dnf]
  end.

(** * Arguments *)

(** The words of the program, and the options that name directories and the
    architecture. *)
Definition fixed_options (arch : rstr) (directories : list rstr) : list rstr :=
  [str "-y"; str "--assumeyes"; str "--refresh"; str "--setopt=cacheonly=metadata"; str "--setopt=cacheonly=none"; str "--cacheonly"; str "--disable-repo=*";
   str "--setopt=disable_excludes=*"; str "--setopt=*.skip_if_unavailable=false"; str "--available"; str "--installed"; str "--upgrades"; str "--unneeded";
   str "--userinstalled"; str "--qf"; str "--queryformat"; str "--latest-limit=1"; str "--arch=" ++ arch ++ str ",noarch"; str "--providers-of=requires"; str "--json";
   str "--enabled"; str "--security"; str "--eval"]
  ++ (directories ≫= fun d => [str "--setopt=logdir=" ++ d; str "--store=" ++ d; str "--setopt=cachedir=" ++ d; str "--setopt=system_cachedir=" ++ d]).

Section arguments.
Context `{Codecs Table Value} (penv : PolicyEnv) (inherited : option SecurityPolicy) (h : Host).

(** A directory of the program, not of the request. *)
Definition own_directory (d : rstr) : Prop := cache_dir h = Some d \/ exists es, preview_directory h es = Some d.

(** What looks like an option is one of the program's own. *)
Definition option_ok (a : rstr) : Prop :=
  starts_with (str "-") a = true ->
  (exists directories, Forall own_directory directories /\ a ∈ fixed_options (target_arch h) directories) \/
  (exists es, a = str "--comment=" ++ str "omg-" ++ fresh_uuid h es) \/
  (exists package, validate_package_name package = Ok tt /\ a = str "--whatrequires=" ++ package).

Definition options_ok (args : list rstr) : Prop := Forall option_ok args.

Definition verb (args : list rstr) : option rstr := List.find (fun arg => negb (starts_with (str "-") arg)) args.

Definition plan_supported : Prop := require_native_plan_support penv inherited = Ok tt.

(** Installations and updates are only run when dnf may choose the packages. *)
Definition mutation_ok (args : list rstr) : Prop := options_ok args /\ (verb args ∈ [Some (str "install"); Some (str "upgrade")] -> plan_supported).

Definition event_ok (e : DnfEvent) : Prop :=
  match e with
  | Attempt args | Ran args | Finished args _ | Elevated args => mutation_ok args
  | Queried _ args _ => options_ok args
  | Recorded _ _ _ => True
  end.

Lemma fixed_ok a : a ∈ fixed_options (target_arch h) [] -> option_ok a.
Proof. intros Ha _. left. exists []. split; [constructor|done]. Qed.

Lemma directory_ok d a : own_directory d -> a ∈ fixed_options (target_arch h) [d] -> option_ok a.
Proof. intros Hd Ha _. left. exists [d]. split; [by constructor|done]. Qed.

Lemma word_ok a : starts_with (str "-") a = false -> option_ok a.
Proof. intros Ha Hs. congruence. Qed.

Ltac options_tac :=
  repeat first
    [ apply Forall_nil_2
    | apply Forall_cons; split;
      [first [assumption
             |apply word_ok; reflexivity
             |solve [apply fixed_ok; repeat first [apply list_elem_of_here|apply list_elem_of_further]]]|] ].

Lemma name_ok package : validate_package_name package = Ok tt -> option_ok package.
Proof. intros (_ & _ & Hd & _)%validate_package_name_Ok. by apply word_ok. Qed.

Lemma names_ok packages : validate_package_names packages = Ok tt -> options_ok packages.
Proof. unfold validate_package_names. rewrite (for_each_unit_Ok validate_package_name). intros Hp. apply Forall_forall. intros p Hin. by apply name_ok, Hp. Qed.

Lemma starts_with_first c (name rest : rstr) : name ≠ [] -> starts_with [c] (name ++ rest) = starts_with [c] name.
Proof. intros Hn. destruct name as [|d name]; [done|]. unfold starts_with. cbn. by destruct (c =? d). Qed.

Lemma selector_ok selector : validate_query_selector selector = Ok tt -> option_ok selector.
Proof.
  unfold validate_query_selector. intros Hs. destruct (negb _); [by apply map_err_Ok, name_ok in Hs|]. res_inv. destruct a as [[[n v] r] a]. apply ok_or_Ok, split_nevra_Some in Hr as ->.
  res_inv. apply map_err_Ok in Hr. destruct a0. apply validate_package_name_Ok in Hr as (Hne & _ & Hd & _). apply word_ok. by rewrite (starts_with_first (ch "-")).
Qed.

Lemma query_options_ok query : options_ok (query_options (target_arch h) query).
Proof. destruct query; unfold query_options; cbn [app selection]; options_tac. Qed.

Lemma query_args_ok query args : repository_query_args (target_arch h) query = Ok args -> options_ok args.
Proof.
  unfold repository_query_args. intros Hq. res_inv. destruct a as [extra operand]. cbn [fst snd] in *.
  assert (options_ok extra) as Hextra.
  { destruct query as [p| | | |[|p|p]|[p|p]|p]; cbn in Hr; res_inv; try (by constructor); [by options_tac|]. constructor; [|constructor].
    intros _. right. right. exists p. split; [|done]. destruct a. by apply map_err_Ok in Hr0. }
  pose proof (query_options_ok query) as Hbase. destruct operand as [name|]; res_inv; (apply Forall_app; split; [done|]); [|done].
  apply Forall_app; split; [done|]. constructor; [|constructor]. destruct a. by apply selector_ok.
Qed.

(** * What is run *)

Let ok : DnfEvent -> Prop := event_ok.

Lemma emits_query program args env : options_ok args -> emits ok (query_output h program args env).
Proof. intros Ha. unfold query_output, system_command. repeat emits_step. Qed.

Lemma emits_repository query : emits ok (repository_output h query).
Proof. unfold repository_output, dnf_query. emits_step. apply emits_query. by eapply query_args_ok. Qed.

Lemma emits_record e : ok e -> emits ok (record_operation h e).
Proof. intros He. unfold record_operation. repeat emits_step. Qed.

Lemma emits_run_dnf args : mutation_ok args -> emits ok (run_dnf penv inherited h args).
Proof.
  intros Ha. unfold run_dnf, plan_support, system_command. emits_step; [by repeat emits_step|]. repeat emits_step; by apply emits_record.
Qed.

Lemma emits_elevated args : mutation_ok args -> emits ok (run_privileged h args).
Proof. intros Ha. unfold run_privileged. repeat emits_step. Qed.

Lemma needs_plan_verb args : options_ok args -> (match verb args with Some v => needs_plan v | None => false end = true -> plan_supported) -> mutation_ok args.
Proof.
  intros Ho Hp. split; [done|]. intros Hv. apply Hp. repeat rewrite elem_of_cons in Hv. rewrite elem_of_nil in Hv. unfold needs_plan. by destruct Hv as [->|[->|[]]].
Qed.

Lemma emits_execute args : options_ok args -> emits ok (execute_dnf penv inherited h args).
Proof.
  intros Ha. unfold execute_dnf, plan_support. fold (verb args). destruct (match verb args with Some v => needs_plan v | None => false end) eqn:En.
  - emits_step. match goal with H : map_err _ _ = Ok _ |- _ => apply map_err_Ok in H; rename H into Hs end. destruct a.
    assert (mutation_ok args) by (by apply needs_plan_verb). repeat emits_step; [by apply emits_attempt, emits_if; [apply emits_run_dnf|apply emits_elevated]..].
  - assert (mutation_ok args) by (apply needs_plan_verb; [done|by rewrite En]). emits_step; [by auto with dnf|].
    repeat emits_step; [by apply emits_attempt, emits_if; [apply emits_run_dnf|apply emits_elevated]..].
Qed.

Lemma emits_history since : emits ok (native_history h since).
Proof.
  unfold native_history, dnf_query. emits_step; [|by repeat emits_step]. apply emits_query.
  assert (option_ok match since with None => str "last" | Some id => to_string (Z.max id 1) ++ str "..last" end) as Hrange.
  { apply word_ok. destruct since as [id|]; [|done]. apply not_true_is_false. intros [r Hr]%starts_with_true. assert (ch "-" ∈ to_string (Z.max id 1) ++ str "..last") as Hin by (rewrite Hr; left).
    apply elem_of_app in Hin as [Hin|Hin]; [by refine (number_char (ch "-") (Z.max id 1) _ eq_refl Hin); lia|]. by apply list_elem_of_In in Hin; vm_compute in Hin; repeat destruct Hin as [Hin|Hin]. }
  options_tac.
Qed.

Lemma emits_result kind operation observed : emits ok (record_result h kind operation observed).
Proof.
  intros s s' r Hr. unfold record_result in Hr. destruct (record_native_result _ _ _) as [entry r0]. injection Hr as <- <-. cbn. eexists. split; [done|].
  destruct entry as [[changes success]|]; [|constructor]. by destruct (history_accepts _ _); repeat constructor.
Qed.

Lemma emits_mutation kind args history : options_ok args -> emits ok (recorded_mutation penv inherited h kind args history).
Proof.
  intros Ha. unfold recorded_mutation. apply emits_if; [by apply emits_execute|]. emits_step; [by apply emits_history|]. emits_step. cbn zeta.
  emits_step. { apply emits_attempt, emits_execute. constructor; [|done]. intros _. right. left. by exists es. }
  emits_step; [by apply emits_attempt, emits_history|apply emits_result].
Qed.

Lemma emits_transact action kind packages history (check : result unit DnfError) : starts_with (str "-") action = false ->
  emits ok (_ ← lift check; _ ← lift (map_err SelectorName (validate_package_names packages));
            _ ← lift (if bool_decide (kind = TxInstall) then reject_unsealed_local_rpm_targets packages else Ok tt);
            recorded_mutation penv inherited h kind ([action; str "-y"] ++ packages) history).
Proof.
  intros Hact. emits_step. emits_step. emits_step. apply emits_mutation. assert (option_ok action) by (by apply word_ok). options_tac.
  apply names_ok. match goal with H : map_err _ _ = Ok ?u |- _ => destruct u; by apply map_err_Ok in H end.
Qed.

(** * Operations *)

Inductive DnfOperation :=
| OpInstall (packages : list rstr)
| OpRemove (packages : list rstr)
| OpUpdate
| OpSync
| OpTransact (kind : TransactionType) (packages : list rstr) (history : bool)
| OpCachedUpdate (history : bool)
| OpCleanup (operation : DnfCleanup) (history : bool)
| OpRemovalPlan (packages : list rstr)
| OpIsInstalled (package : rstr)
| OpListInstalled
| OpListExplicit
| OpListUpdates
| OpOrphans
| OpStatus (fast : bool)
| OpSizes (q : InstalledSizeQuery)
| OpReasons (q : InstalledReasonQuery)
| OpDetails (package : rstr)
| OpSearch (query : rstr)
| OpInfo (package : rstr)
| OpAudit.

(** The effect of an operation on the manager and the outside. *)
Definition effect {A} (p : D A) : Manager -> Manager := fun s => (p s).1.

Definition run_operation (op : DnfOperation) : Manager -> Manager :=
  match op with
  | OpInstall packages => effect (install penv inherited h packages)
  | OpRemove packages => effect (remove penv inherited h packages)
  | OpUpdate => effect (update penv inherited h)
  | OpSync => effect (sync penv inherited h)
  | OpTransact kind packages history => match transact_with_history penv inherited h kind packages history with Some p => effect p | None => id end
  | OpCachedUpdate history => effect (transact_cached_update_with_history penv inherited h history)
  | OpCleanup operation history => effect (cleanup penv inherited h operation history)
  | OpRemovalPlan packages => effect (removal_plan h packages)
  | OpIsInstalled package => effect (is_installed h package)
  | OpListInstalled => effect (list_installed h)
  | OpListExplicit => effect (list_explicit h)
  | OpListUpdates => effect (list_updates h)
  | OpOrphans => effect (orphan_packages h)
  | OpStatus fast => effect (get_status h fast)
  | OpSizes q => effect (installed_package_sizes h q)
  | OpReasons q => effect (installed_package_reasons h q)
  | OpDetails package => effect (installed_package_details h package)
  | OpSearch query => effect (search h query)
  | OpInfo package => effect (info h package)
  | OpAudit => effect (security_audit h)
  end.

Lemma emits_effect {A} (p : D A) s : emits ok p -> exists new, events (effect p s) = events s ++ new /\ Forall ok new.
Proof. intros Hp. unfold effect. destruct (p s) as [s' r] eqn:E. by eapply Hp. Qed.

Lemma emits_mutating op : match op with
  | OpInstall _ | OpRemove _ | OpUpdate | OpSync | OpTransact _ _ _ | OpCachedUpdate _ | OpCleanup _ _ | OpRemovalPlan _ =>
      forall s, exists new, events (run_operation op s) = events s ++ new /\ Forall ok new
  | _ => True
  end.
Proof.
  destruct op as [packages|packages| | |kind packages history|history|[yes|] history|packages| | | | | | | | | | | |]; try done; intros s; cbn [run_operation]; try (apply emits_effect).
  - unfold install. emits_step. emits_step. apply emits_execute. cbn [app]. options_tac. destruct a. by apply names_ok, (map_err_Ok SelectorName).
  - unfold remove. emits_step. apply emits_execute. cbn [app]. options_tac. destruct a. by apply names_ok, (map_err_Ok SelectorName).
  - apply emits_execute. options_tac.
  - unfold sync, invalidate_installed_cache, REFRESH. assert (mutation_ok [str "--refresh"; str "makecache"; str "-y"]) by (apply needs_plan_verb; [options_tac|done]).
    emits_step; [by auto with dnf|]. emits_step; [by apply emits_run_dnf|]. emits_step; [by auto with dnf|by apply emits_elevated].
  - unfold transact_with_history. destruct kind; cbn zeta; [by apply emits_effect, emits_transact..|]. exists []. by rewrite app_nil_r.
  - apply emits_mutation. options_tac.
  - apply emits_mutation. destruct yes; options_tac.
  - apply emits_execute. options_tac.
  - unfold removal_plan. emits_step. emits_step. emits_step. emits_step; [|by repeat emits_step].
    match goal with H : ok_or (preview_directory h es) _ = Ok ?d |- _ => apply ok_or_Ok in H; assert (own_directory d) as Hd by (right; eauto) end.
    apply emits_query. cbn [app].
    assert (option_ok (str "--setopt=logdir=" ++ a0)) by (apply (directory_ok a0 _ Hd); repeat first [apply list_elem_of_here|apply list_elem_of_further]).
    assert (option_ok (str "--store=" ++ a0)) by (apply (directory_ok a0 _ Hd); repeat first [apply list_elem_of_here|apply list_elem_of_further]).
    options_tac. destruct a. by apply names_ok, (map_err_Ok SelectorName).
Qed.

Lemma emits_reasons packages : emits ok (apply_current_install_reasons h packages).
Proof. unfold apply_current_install_reasons, dnf_query. emits_step; [|by repeat emits_step]. apply emits_query. options_tac. Qed.

Lemma emits_updates : emits ok (list_updates h).
Proof. unfold list_updates. emits_step; [by apply emits_repository|]. emits_step; [by apply emits_repository|]. repeat emits_step. Qed.

Lemma emits_inventory_query : emits ok (security_inventory h).
Proof. unfold security_inventory, dnf_query. emits_step; [|by repeat emits_step]. apply emits_query. options_tac. Qed.

Lemma emits_advisory args : options_ok args -> emits ok (advisory_query h args).
Proof.
  intros Ha. unfold advisory_query, advisory_args. intros s s' r Hr. revert s s' r Hr. change (emits ok (args0 ← (cache ← lift (ok_or (cache_dir h) AdvisoryInvalid);
    mret ([str "--setopt=cachedir=" ++ cache; str "--setopt=system_cachedir=" ++ cache; str "--setopt=cacheonly=none"] ++ args)); dnf_query h args0)).
  destruct (cache_dir h) as [d|] eqn:Ed; [|by intros s s' r [= <- <-]; exists []; rewrite app_nil_r].
  assert (own_directory d) as Hd by (by left). assert (option_ok (str "--setopt=cachedir=" ++ d)) by (apply (directory_ok d _ Hd); repeat first [apply list_elem_of_here|apply list_elem_of_further]).
  assert (option_ok (str "--setopt=system_cachedir=" ++ d)) by (apply (directory_ok d _ Hd); repeat first [apply list_elem_of_here|apply list_elem_of_further]).
  apply (emits_query (str "dnf") ([str "--setopt=cachedir=" ++ d; str "--setopt=system_cachedir=" ++ d; str "--setopt=cacheonly=none"] ++ args) []). cbn [app]. options_tac. done.
Qed.

Lemma emits_advisories : emits ok (native_advisories h).
Proof.
  unfold native_advisories. do 3 (emits_step; [apply emits_advisory; unfold query_args; options_tac|]). repeat emits_step.
Qed.

Lemma emits_affected nevra installed : emits ok (affected_installed_packages h nevra installed).
Proof.
  unfold affected_installed_packages. emits_step. emits_step; [|by repeat emits_step]. apply emits_fold. intros b x. unfold compare_installed.
  emits_step; [apply emits_query; options_tac|]. repeat emits_step.
Qed.

Lemma emits_reading op : match op with
  | OpInstall _ | OpRemove _ | OpUpdate | OpSync | OpTransact _ _ _ | OpCachedUpdate _ | OpCleanup _ _ | OpRemovalPlan _ => True
  | _ => forall s, exists new, events (run_operation op s) = events s ++ new /\ Forall ok new
  end.
Proof.
  destruct op; try done; intros s; cbn [run_operation]; apply emits_effect.
  - apply emits_inventory.
  - unfold list_installed, load_installed_packages. repeat emits_step.
  - unfold list_explicit, load_installed_packages. emits_step; [by apply emits_inventory|]. emits_step; [by apply emits_reasons|]. repeat emits_step.
  - apply emits_updates.
  - unfold orphan_packages. emits_step; [by apply emits_repository|]. repeat emits_step.
  - unfold get_status, load_installed_packages. emits_step; [by apply emits_inventory|]. emits_step; [by apply emits_reasons|]. cbn zeta. emits_step; [by auto with dnf|].
    emits_step; [by apply emits_repository|]. emits_step. emits_step; [by apply emits_updates|]. repeat emits_step.
  - unfold installed_package_sizes. emits_step; [by apply emits_repository|]. repeat emits_step.
  - unfold installed_package_reasons. emits_step; [by apply emits_repository|]. repeat emits_step.
  - unfold installed_package_details. emits_step; [by apply emits_repository|]. repeat emits_step.
  - unfold search, load_installed_packages, available_packages. cbn zeta. emits_step; [by apply emits_inventory|]. emits_step; [|by repeat emits_step].
    emits_step; [by apply emits_repository|]. repeat emits_step.
  - unfold info, load_installed_packages, available_packages. emits_step. emits_step; [by apply emits_inventory|]. destruct (List.filter _ _) as [|p [|q l]]; [|by repeat emits_step..].
    emits_step; [|by repeat emits_step]. emits_step; [by apply emits_repository|]. repeat emits_step.
  - unfold security_audit. emits_step; [by apply emits_inventory_query|]. emits_step; [by apply emits_advisories|].
    emits_step. { apply emits_fold. intros b x. unfold find_affected. emits_step; [by apply emits_affected|]. repeat emits_step. }
    emits_step; [by apply emits_inventory_query|]. repeat emits_step.
Qed.

(** C10: whatever the manager is asked, everything it runs has no other options
    than those of the program itself, whatever the request names; and an
    installation or an update is only started when no policy forbids that dnf
    chooses the packages. *)
Theorem dnf_runs_as_intended op s : exists new, events (run_operation op s) = events s ++ new /\ Forall event_ok new.
Proof. pose proof (emits_mutating op) as Hm. pose proof (emits_reading op) as Hr. destruct op; solve [apply Hm|apply Hr]. Qed.
End arguments.

(** * History *)

Section history.
Context `{Codecs Table Value} (penv : PolicyEnv) (inherited : option SecurityPolicy) (h : Host).

Lemma D_bind_inv {A B} (p : D A) (f : A -> D B) s s' r : (x ← p; f x) s = (s', r) ->
  (exists e, p s = (s', Err e) /\ r = Err e) \/ (exists s1 a, p s = (s1, Ok a) /\ f a s1 = (s', r)).
Proof. unfold mbind, D_bind. destruct (p s) as [s1 [a|e]]; [eauto|]. intros [= <- <-]. eauto. Qed.

Lemma attempt_inv {A} (p : D A) s s' r : attempt p s = (s', r) -> exists r', p s = (s', r') /\ r = Ok r'.
Proof. unfold attempt. destruct (p s) as [s1 r1]. intros [= <- <-]. eauto. Qed.

(** The entry of a finished transaction. *)
Definition entry_follows (kind : TransactionType) (comment : rstr) (operation : result unit DnfError) (journal : result (list NativeTransaction) DnfError)
    (entry : list DnfEvent) (r : result unit DnfError) : Prop :=
  (entry = [] \/ exists changes success, entry = [Recorded kind changes success]) /\
  (forall changes, entry = [Recorded kind changes true] -> exists ts t, journal = Ok ts /\ correlated ts comment = [t] /\ native_status t = str "Ok" /\
     accounts (native_packages t) changes) /\
  (forall changes, entry = [Recorded kind changes false] -> changes = []) /\
  (r = Ok tt -> operation = Ok tt /\ exists ts, journal = Ok ts /\ (correlated ts comment = [] \/ exists changes, entry = [Recorded kind changes true])).

Lemma record_result_follows kind comment operation journal s s' r :
  record_result h kind operation (let? ts := journal in native_outcome ts comment) s = (s', r) ->
  exists entry, events s' = events s ++ entry /\ entry_follows kind comment operation journal entry r.
Proof.
  unfold record_result. set (stored := fun changes success => history_accepts h (events s ++ [Recorded kind changes success])).
  pose proof (conclusion_follows_the_journal stored comment operation journal) as Hc. unfold conclude_mutation in Hc. cbn zeta in *.
  destruct (record_native_result stored operation _) as [entry r0]. cbn [fst snd] in Hc. destruct Hc as (H1 & _ & H3 & H4). intros [= <- <-]. cbn [events].
  eexists. split; [done|]. unfold stored in *. split_and!.
  - destruct entry as [[changes success]|]; [|by left]. destruct (history_accepts _ _); [right; eauto|by left].
  - intros changes. destruct entry as [[c b]|]; [|done]. destruct (history_accepts _ _); [|done]. intros [= -> ->]. by apply H1.
  - intros changes. destruct entry as [[c b]|]; [|done]. destruct (history_accepts _ _); [|done]. intros [= -> ->]. by apply H3.
  - intros Hr. apply H4 in Hr as (Ho & ts & Hj & Hor). split; [done|]. exists ts. split; [done|]. destruct Hor as [?|(changes & -> & Hs)]; [by left|]. right. exists changes. by rewrite Hs.
Qed.

(** C15: with a history of its own, a mutation asks for the journal, runs dnf once
    with a comment, asks for the journal again, and enters at most one
    transaction, as the journal has it: a success is the finished transaction
    with that comment, and its changes account for all its rows. *)
Theorem history_follows_the_journal kind args s s' r :
  parent_owns_history h = false -> recorded_mutation penv inherited h kind args true s = (s', r) ->
  (exists e, native_history h None s = (s', Err e) /\ r = Err e) \/
  exists before s1 operation s2 journal s3 entry, let comment := str "omg-" ++ fresh_uuid h (events s1) in
    native_history h None s = (s1, Ok before) /\
    execute_dnf penv inherited h ((str "--comment=" ++ comment) :: args) s1 = (s2, operation) /\
    native_history h (Some (last_id before)) s2 = (s3, journal) /\
    events s' = events s3 ++ entry /\ entry_follows kind comment operation journal entry r.
Proof.
  intros Hown Hr. unfold recorded_mutation in Hr. rewrite Hown in Hr. cbn [negb orb] in Hr.
  apply D_bind_inv in Hr as [(e & He & ->)|(s1 & before & Hb & Hr)]; [left; eauto|]. right.
  apply D_bind_inv in Hr as [(e & He & ->)|(s1' & uuid & Hu & Hr)]; [discriminate|]. injection Hu as <- <-. cbn zeta in Hr.
  apply D_bind_inv in Hr as [(e & He & ->)|(s2 & operation & Ho & Hr)]; [by apply attempt_inv in He as (? & _ & ?)|].
  apply attempt_inv in Ho as (op & Ee & [= ->]).
  apply D_bind_inv in Hr as [(e & He & ->)|(s3 & journal & Hj & Hr)]; [by apply attempt_inv in He as (? & _ & ?)|].
  apply attempt_inv in Hj as (j & En & [= ->]).
  apply record_result_follows in Hr as (entry & Hev & Hf). exists before, s1, op, s2, j, s3, entry. cbn zeta. done.
Qed.
End history.

(** * Audit *)

Definition advisory_key (row : ApplicableAdvisory) : rstr * rstr := (row_name row, advisory_nevra row).

Lemma details_by_id metadata m : for_each add_details ∅ metadata = Ok m -> forall k d, m !! k = Some d -> d ∈ metadata /\ details_name d = k.
Proof.
  apply (for_each_inv _ (fun done m => forall k d, m !! k = Some d -> d ∈ done /\ details_name d = k)); [by intros k d; rewrite lookup_empty|].
  intros pre x m1 m2 Hinv _ Hstep. unfold add_details in Hstep. res_inv. intros k d Hk. rewrite elem_of_app, list_elem_of_singleton.
  destruct (decide (details_name x = k)) as [<-|Hne]; [rewrite lookup_insert_eq in Hk; injection Hk as <-; auto|]. rewrite lookup_insert_ne in Hk by done. apply Hinv in Hk. tauto.
Qed.

(** Every row is selected once, with the metadata of its advisory. *)
Definition joins (by_id : gmap rstr AdvisoryDetails) (rows : list ApplicableAdvisory) (joined : list (ApplicableAdvisory * AdvisoryDetails)) : Prop :=
  (forall row, row ∈ rows -> exists pair, pair ∈ joined /\ advisory_key pair.1 = advisory_key row) /\
  (forall pair, pair ∈ joined -> pair.1 ∈ rows /\ by_id !! row_name pair.1 = Some pair.2) /\
  NoDup (map (advisory_key ∘ fst) joined).

Lemma join_rows_spec by_id rows st : for_each (join_row by_id) ([], ∅) rows = Ok st -> joins by_id rows st.1.
Proof.
  intros Hst. enough (joins by_id rows st.1 /\ forall k, k ∈ st.2 <-> k ∈ map (advisory_key ∘ fst) st.1) by tauto. revert Hst.
  apply (for_each_inv _ (fun done st => joins by_id done st.1 /\ forall k, k ∈ st.2 <-> k ∈ map (advisory_key ∘ fst) st.1)).
  { cbn. split; [|intros k; split; [by intros ?%elem_of_empty|by intros ?%elem_of_nil]]. split_and!; [by intros ? ?%elem_of_nil..|constructor]. }
  intros pre row [joined seen] st2 [(H1 & H2 & H3) Hseen] _ Hstep. cbn [fst snd] in *. unfold join_row in Hstep. res_inv. cbn [fst snd] in *.
  match goal with H : ok_or (by_id !! _) _ = Ok ?d |- _ => apply ok_or_Ok in H; rename d into detail; rename H into Hd end.
  fold (advisory_key row) in *. case_bool_decide as Hin; cbn [fst snd].
  - apply Hseen in Hin. apply list_elem_of_fmap in Hin as (pair & Hk & Hp). split; [|done]. split_and!; [|intros q Hq; destruct (H2 q Hq); split; [apply elem_of_app; by left|done]|done].
    intros r Hin. apply elem_of_app in Hin as [Hin| ->%list_elem_of_singleton]; [by apply H1|]. exists pair. split; [done|by symmetry].
  - rewrite map_app. cbn [map]. split; [|intros k; rewrite elem_of_union, elem_of_singleton, Hseen, elem_of_app, list_elem_of_singleton; cbn; tauto]. split_and!.
    + intros r Hin'. apply elem_of_app in Hin' as [Hin'| ->%list_elem_of_singleton]; [destruct (H1 r Hin') as (p & Hp & Hk); exists p; split; [apply elem_of_app; by left|done]|]. exists (row, detail). split; [apply elem_of_app; right; by left|done].
    + intros q Hq. apply elem_of_app in Hq as [Hq| ->%list_elem_of_singleton]; [destruct (H2 q Hq); split; [apply elem_of_app; by left|done]|]. cbn. split; [apply elem_of_app; right; by left|done].
    + rewrite map_app. apply NoDup_app. split_and!; [done| |by apply NoDup_singleton]. intros k Hk ->%list_elem_of_singleton. by apply Hin, Hseen.
Qed.

(** ** Findings *)

Definition found_in (packages : gmap rstr (list Vulnerability)) (name : rstr) (v : Vulnerability) : Prop := v ∈ default [] (packages !! name).

Definition findings_ok (pairs : list (ApplicableAdvisory * AdvisoryDetails)) (st : Findings) : Prop :=
  let '(packages, high, total) := st in
  (map_to_list packages ≫= snd) ≡ₚ map (fun p => finding_of p.1 p.2) pairs /\
  (forall name v, found_in packages name v -> exists pair architecture, pair ∈ pairs /\ v = finding_of pair.1 pair.2 /\
     package_identity (advisory_nevra pair.1) = Ok (name, architecture)) /\
  total = Z.of_nat (length pairs) /\ high = Z.of_nat (length (List.filter is_high (map (fun p => finding_of p.1 p.2) pairs))).

Lemma add_finding_inv pairs pair st st' : findings_ok pairs st -> add_finding st pair = Ok st' -> findings_ok (pairs ++ [pair]) st'.
Proof.
  destruct st as [[packages high] total]. intros (Hp & Hf & Ht & Hh) H. unfold add_finding in H. res_inv. destruct a as [name architecture]. cbn [fst] in *. unfold findings_ok.
  rewrite map_app. cbn [map]. split_and!.
  - rewrite push_perm, Hp. by rewrite Permutation_cons_append.
  - intros n v. unfold found_in in *. destruct (decide (name = n)) as [<-|Hne].
    + rewrite lookup_insert_eq. cbn [default from_option id]. rewrite elem_of_app, list_elem_of_singleton. intros [Hv| ->].
      * destruct (Hf _ _ Hv) as (q & a & Hq & ?). exists q, a. split; [apply elem_of_app; by left|done].
      * exists pair, architecture. split; [apply elem_of_app; right; by left|done].
    + rewrite lookup_insert_ne by done. intros Hv. destruct (Hf _ _ Hv) as (q & a & Hq & ?). exists q, a. split; [apply elem_of_app; by left|done].
  - rewrite length_app. cbn [length]. lia.
  - rewrite List.filter_app, length_app. cbn [List.filter]. destruct (is_high (finding_of pair.1 pair.2)); cbn [length Z.b2z]; lia.
Qed.

Lemma sorted_findings_perm (packages : gmap rstr (list Vulnerability)) :
  (sort_by by_name (map_to_list (sort_by by_id <$> packages)) ≫= snd) ≡ₚ (map_to_list packages ≫= snd).
Proof.
  rewrite (sort_by_perm by_name), map_to_list_fmap. induction (map_to_list packages) as [|[k l] kvs IH]; [done|]. cbn. rewrite IH. by rewrite (sort_by_perm by_id).
Qed.

(** The report of the rows: grouped by package, complete and counted. *)
Lemma audit_result_spec pairs result : audit_result pairs = Ok result ->
  (vulnerabilities result ≫= snd) ≡ₚ map (fun p => finding_of p.1 p.2) pairs /\
  (forall name vs v, (name, vs) ∈ vulnerabilities result -> v ∈ vs -> exists pair architecture, pair ∈ pairs /\ v = finding_of pair.1 pair.2 /\
     package_identity (advisory_nevra pair.1) = Ok (name, architecture)) /\
  total_vulnerabilities result = Z.of_nat (length pairs) /\
  high_severity result = Z.of_nat (length (List.filter is_high (map (fun p => finding_of p.1 p.2) pairs))).
Proof.
  unfold audit_result. intros H. res_inv. assert (findings_ok pairs a) as Hok.
  { revert Hr. apply for_each_inv; [|intros; by eapply add_finding_inv]. split_and!; [done| |done..]. intros name v. unfold found_in. rewrite lookup_empty. by intros ?%elem_of_nil. }
  destruct a as [[packages high] total]. res_inv. destruct Hok as (Hp & Hf & Ht & Hh). cbn. split_and!; [by rewrite sorted_findings_perm| |done..].
  intros name vs v Hin Hv. rewrite (sort_by_perm by_name) in Hin. apply elem_of_map_to_list in Hin. rewrite lookup_fmap in Hin. destruct (packages !! name) as [l|] eqn:E; [|done].
  cbn in Hin. injection Hin as <-. rewrite (sort_by_perm by_id) in Hv. apply Hf. unfold found_in. by rewrite E.
Qed.

(** ** Affected packages *)

Lemma fold_D_inv {A B} (f : B -> A -> D B) (P : B -> Prop) l : (forall b x s s' b', x ∈ l -> P b -> f b x s = (s', Ok b') -> P b') ->
  forall b s s' b', P b -> fold_D f b l s = (s', Ok b') -> P b'.
Proof.
  induction l as [|x l IH]; intros Hf b s s' b' Hb H; cbn [fold_D] in H; [by injection H as _ <-|].
  apply D_bind_inv in H as [(e & _ & [=])|(s1 & b1 & H1 & H)]. eapply IH; [|eapply (Hf b x); [by left|done|exact H1]|exact H]. intros c y t t' c' Hy. apply Hf. by right.
Qed.

(** [nevra] is name-version-release.architecture, [evr] its version and
    release. *)
Definition names_package (nevra name evr architecture : rstr) : Prop :=
  exists version release, evr = version ++ ch "-" :: release /\ nevra = name ++ ch "-" :: evr ++ ch "." :: architecture /\
    (ch "-" ∉ version) /\ (ch "-" ∉ release) /\ (ch "." ∉ architecture).

Lemma package_identity_names nevra name architecture : package_identity nevra = Ok (name, architecture) ->
  names_package nevra name (between name architecture nevra) architecture.
Proof.
  intros H. pose proof (package_identity_between _ _ _ H) as Hb. unfold package_identity in H. res_inv. destruct a0 as [[[n v] r] a'].
  apply ok_or_Ok in Hr0. unfold split_nevra in Hr0. apply bind_Some in Hr0 as ([nvr a1] & H1 & Hr0). apply bind_Some in Hr0 as ([nv r1] & H2 & Hr0).
  apply bind_Some in Hr0 as ([n1 v1] & H3 & Hr0). injection Hr0 as -> -> -> ->. revert H1. res_inv. intros H1.
  apply rsplit_once_Some in H1 as [E1 N1]. apply rsplit_once_Some in H2 as [E2 N2]. apply rsplit_once_Some in H3 as [E3 N3]. subst nvr nv.
  exists v, r. split_and!; [|done..]. rewrite <- !app_assoc in E1. cbn [app] in E1. rewrite E1 in Hb at 1. apply app_inv_head in Hb. injection Hb as Hb.
  rewrite app_comm_cons, app_assoc in Hb. by apply app_inv_tail in Hb.
Qed.

Section audit.
Context (h : Host).

(** ** What dnf and rpm were asked, and what they answered *)

(** [program] is asked after [es], and answers [out]. *)
Definition answers (es : list DnfEvent) (program : rstr) (args : list rstr) (env : list (rstr * rstr)) (out : list Z) : Prop :=
  query_answer h (es ++ [Queried program args env]) = Some out.

Lemma query_inv program args env s s' out : query_output h program args env s = (s', Ok out) ->
  events s' = events s ++ [Queried program args env] /\ answers (events s) program args env out.
Proof.
  unfold query_output, system_command. intros H. apply D_bind_inv in H as [(e & _ & [=])|(s1 & [] & H1 & H)]. injection H1 as <- _.
  apply D_bind_inv in H as [(e & _ & [=])|(s2 & [] & H2 & H)]. injection H2 as <-. apply D_bind_inv in H as [(e & _ & [=])|(s3 & answer & H3 & H)]. injection H3 as <- <-.
  injection H as <- H. by apply ok_or_Ok in H.
Qed.

(** The question which of two versions is newer. *)
Definition vercmp (left right : rstr) : DnfEvent :=
  Queried (str "rpm") [str "--eval"; VERCMP] [(str "OMG_LEFT_EVR", left); (str "OMG_RIGHT_EVR", right)].

(** The packages of [candidates] that rpm says are older than [evr], asked one
    after the other, from the trace [es] to the trace [es']. *)
Inductive older (evr : rstr) : list DnfEvent -> list InstalledIdentity -> list InstalledIdentity -> list DnfEvent -> Prop :=
| older_none es : older evr es [] [] es
| older_yes es p ps packages es' out text :
    query_answer h (es ++ [vercmp (installed_evr p) evr]) = Some out -> decode_utf8 out = Some text -> trim text = str "-1" ->
    older evr (es ++ [vercmp (installed_evr p) evr]) ps packages es' -> older evr es (p :: ps) (p :: packages) es'
| older_no es p ps packages es' out text :
    query_answer h (es ++ [vercmp (installed_evr p) evr]) = Some out -> decode_utf8 out = Some text -> trim text = str "0" \/ trim text = str "1" ->
    older evr (es ++ [vercmp (installed_evr p) evr]) ps packages es' -> older evr es (p :: ps) packages es'.

(** The installed packages that an advisory affects: those with its name and
    architecture that are older than it, of which there is one. *)
Definition affects (installed : list InstalledIdentity) (nevra : rstr) (packages : list InstalledIdentity) (es es' : list DnfEvent) : Prop :=
  packages ≠ [] /\ exists name evr architecture candidates, names_package nevra name evr architecture /\
    candidates = filter (fun p => installed_name p = name /\ installed_arch p = architecture) installed /\ older evr es candidates packages es'.

Lemma compare_inv evr affected package s s' affected' : compare_installed h evr affected package s = (s', Ok affected') ->
  events s' = events s ++ [vercmp (installed_evr package) evr] /\
  exists out text, query_answer h (events s ++ [vercmp (installed_evr package) evr]) = Some out /\ decode_utf8 out = Some text /\
    (trim text = str "-1" /\ affected' = affected ++ [package] \/ (trim text = str "0" \/ trim text = str "1") /\ affected' = affected).
Proof.
  unfold compare_installed. intros H. apply D_bind_inv in H as [(e & _ & [=])|(s1 & out & H1 & H)]. apply query_inv in H1 as [E1 Hout].
  apply D_bind_inv in H as [(e & _ & [=])|(s2 & text & H2 & H)]. injection H2 as <- H2. apply ok_or_Ok in H2. cbn zeta in H.
  destruct (str_eqb (trim text) (str "-1")) eqn:Em; [|destruct (_ || _) eqn:Eo; [|discriminate]]; injection H as <- <-; (split; [done|]); exists out, text; (split; [done|]); (split; [done|]).
  - left. split; [by apply bool_decide_eq_true in Em|done].
  - right. split; [|done]. apply orb_prop in Eo as [E|E]; apply bool_decide_eq_true in E; auto.
Qed.

Lemma comparisons_inv evr candidates : forall affected s s' affected', fold_D (compare_installed h evr) affected candidates s = (s', Ok affected') ->
  exists packages, affected' = affected ++ packages /\ older evr (events s) candidates packages (events s').
Proof.
  induction candidates as [|p ps IH]; intros affected s s' affected' H; cbn [fold_D] in H.
  - injection H as <- <-. exists []. rewrite app_nil_r. split; [done|constructor].
  - apply D_bind_inv in H as [(e & _ & [=])|(s1 & a1 & H1 & H)]. apply compare_inv in H1 as (E1 & out & text & Hout & Htext & Hcase).
    apply IH in H as (packages & -> & Ho). rewrite E1 in Ho. destruct Hcase as [[Ht ->]|[Ht ->]].
    + exists (p :: packages). rewrite <- app_assoc. split; [done|by eapply older_yes].
    + exists packages. split; [done|by eapply older_no].
Qed.

Lemma older_events evr es candidates packages es' : older evr es candidates packages es' ->
  exists new, es' = es ++ new /\ Forall (fun e => exists left, e = vercmp left evr) new.
Proof.
  induction 1 as [es|es p ps packages es' out text _ _ _ _ (new & -> & Hn)|es p ps packages es' out text _ _ _ _ (new & -> & Hn)];
    [exists []; by rewrite app_nil_r|..]; eexists (_ :: new); rewrite <- app_assoc; (split; [done|]); constructor; eauto.
Qed.

Definition comparisons (es es' : list DnfEvent) : Prop :=
  exists new, es' = es ++ new /\ Forall (fun e => exists left right, e = vercmp left right) new.

Lemma comparisons_refl es : comparisons es es.
Proof. exists []. by rewrite app_nil_r. Qed.

Lemma comparisons_trans es1 es2 es3 : comparisons es1 es2 -> comparisons es2 es3 -> comparisons es1 es3.
Proof. intros (n1 & -> & H1) (n2 & -> & H2). exists (n1 ++ n2). rewrite app_assoc. split; [done|by apply Forall_app]. Qed.

Lemma affected_spec nevra installed s s' packages : affected_installed_packages h nevra installed s = (s', Ok packages) ->
  affects installed nevra packages (events s) (events s') /\ comparisons (events s) (events s').
Proof.
  unfold affected_installed_packages. intros H. apply D_bind_inv in H as [(e & _ & [=])|(s1 & [name architecture] & Hid & H)]. injection Hid as <- Hid.
  apply D_bind_inv in H as [(e & _ & [=])|(s2 & affected & Hf & H)]. apply D_bind_inv in H as [(e & _ & [=])|(s3 & [] & Hne & H)]. injection H as <- <-. injection Hne as <- Hne. cbn [fst snd] in *.
  apply comparisons_inv in Hf as (packages & -> & Ho). cbn [app] in *. split.
  - split; [intros ->; discriminate|]. exists name, (between name architecture nevra), architecture. eexists. split_and!; [by apply package_identity_names|reflexivity|].
    match goal with Ho : older _ _ ?l _ _ |- older _ _ ?l' _ _ => assert (l' = l) as ->; [|done] end.
    clear. induction installed as [|p l IH]; [done|]. rewrite filter_cons. cbn [List.filter]. rewrite IH. unfold str_eqb. rewrite <- bool_decide_and. case_decide; by case_bool_decide.
  - apply older_events in Ho as (new & -> & Hn). exists new. split; [done|]. eapply Forall_impl; [exact Hn|]. intros e [left ->]. eauto.
Qed.

(** Every advisory was looked up somewhere on the way. *)
Lemma all_affected_spec installed pairs : forall affected s s' affected',
  fold_D (find_affected h installed) affected pairs s = (s', Ok affected') -> comparisons (events s) (events s') /\
  forall nevra packages, affected' !! nevra = Some packages -> affected !! nevra = Some packages \/
    exists es es', comparisons (events s) es /\ comparisons es' (events s') /\ affects installed nevra packages es es'.
Proof.
  induction pairs as [|pair pairs IH]; intros affected s s' affected' H; cbn [fold_D] in H; [injection H as <- <-; split; [apply comparisons_refl|by left]|].
  apply D_bind_inv in H as [(e & _ & [=])|(s1 & a1 & H1 & H)]. unfold find_affected in H1. apply D_bind_inv in H1 as [(e & _ & [=])|(s2 & ps & Ha & H1)]. injection H1 as <- <-.
  apply affected_spec in Ha as [Ha Hc]. apply IH in H as [Hc' Hall]. split; [by eapply comparisons_trans|]. intros nevra packages Hl.
  destruct (Hall nevra packages Hl) as [Hin|(es & es' & H2 & H3 & H4)]; [|right; exists es, es'; split_and!; [by eapply comparisons_trans|done|done]].
  destruct (decide (advisory_nevra pair.1 = nevra)) as [<-|Hne]; [|rewrite lookup_insert_ne in Hin by done; by left].
  rewrite lookup_insert_eq in Hin. injection Hin as <-. right. exists (events s), (events s2). split_and!; [apply comparisons_refl|done|done].
Qed.

(** The finding without its packages. *)
Definition bare (v : Vulnerability) : Vulnerability :=
  {| vuln_id := vuln_id v; vuln_summary := vuln_summary v; vuln_severity := vuln_severity v; vuln_nevra := vuln_nevra v; vuln_published := vuln_published v;
     vuln_description := vuln_description v; vuln_references := vuln_references v; affected_installed := [] |}.

Lemma with_all_affected_spec affected entries entries' : try_map (with_all_affected affected) entries = Ok entries' ->
  map bare (entries' ≫= snd) = map bare (entries ≫= snd) /\
  forall name vs v, (name, vs) ∈ entries' -> v ∈ vs -> affected !! vuln_nevra v = Some (affected_installed v) /\ exists us u, (name, us) ∈ entries /\ u ∈ us /\ bare u = bare v.
Proof.
  rewrite try_map_Ok. induction 1 as [|[n us] [n' vs'] entries entries' Hw _ [IHb IHm]]; [split; [done|]; by intros ? ? ? ?%elem_of_nil|].
  unfold with_all_affected in Hw. res_inv. cbn [fst snd] in *. rewrite try_map_Ok in Hr.
  assert (Hone : forall u v, with_affected affected u = Ok v -> bare v = bare u /\ affected !! vuln_nevra v = Some (affected_installed v)).
  { intros u v Hu. unfold with_affected in Hu. res_inv. match goal with H : ok_or _ _ = Ok _ |- _ => apply ok_or_Ok in H end. done. }
  split.
  - cbn. rewrite !map_app. fold (mbind (M := list) (A := rstr * list Vulnerability) snd). rewrite IHb. f_equal. clear -Hr Hone. induction Hr as [|u v us vs Huv _ IH]; [done|]. cbn [map]. f_equal; [by apply Hone|done].
  - intros name vs v [Heq|Hin]%elem_of_cons Hv; [|destruct (IHm _ _ _ Hin Hv) as (? & us' & u & ? & ? & ?); split; [done|]; exists us', u; split; [by right|done]].
    injection Heq as -> ->. apply list_elem_of_lookup in Hv as [i Hv]. destruct (Forall2_lookup_r _ _ _ _ _ Hr Hv) as (u & Hu%list_elem_of_lookup_2 & Huv). destruct (Hone _ _ Huv) as [Hb Ha]. split; [done|]. exists us, u. split; [by left|done].
Qed.

Lemma filter_length_perm {A} (f : A -> bool) l l' : l ≡ₚ l' -> length (List.filter f l) = length (List.filter f l').
Proof.
  induction 1 as [|x l l' _ IH|x y l|l l' l'' _ IH _ IH']; cbn [List.filter]; [done|by destruct (f x); cbn [length]; congruence| |congruence].
  by destruct (f x), (f y).
Qed.

Lemma inventories_perm before after : sort_by identity_cmp before = sort_by identity_cmp after -> after ≡ₚ before.
Proof. intros E. by rewrite <- (sort_by_perm identity_cmp after), <- E, sort_by_perm. Qed.

(** The findings of a report. *)
Definition findings (result : SecurityAuditResult) : list Vulnerability := vulnerabilities result ≫= snd.

Definition finding_key (v : Vulnerability) : rstr * rstr := (vuln_id v, vuln_nevra v).

(** The severities that count as high. *)
Definition grave (v : Vulnerability) : bool :=
  match vuln_severity v with SevCritical => true | SevImportant => true | SevModerate => false | SevLow => false | SevUnspecified => false end.

(** A finding says what the advisory and its metadata say. *)
Definition tells (v : Vulnerability) (row : ApplicableAdvisory) (detail : AdvisoryDetails) : Prop :=
  vuln_id v = row_name row /\ vuln_nevra v = advisory_nevra row /\ vuln_summary v = details_title detail /\
  vuln_description v = details_description detail /\ vuln_references v = details_references detail /\
  (vuln_severity v = SevCritical <-> to_ascii_lowercase (row_severity row) = str "critical") /\
  (vuln_severity v = SevImportant <-> to_ascii_lowercase (row_severity row) = str "important").

Lemma bare_tells v row detail : bare v = finding_of row detail -> tells v row detail.
Proof.
  destruct v as [id summary severity nevra published description references affected]. unfold bare, finding_of, tells.
  cbn [vuln_id vuln_summary vuln_severity vuln_nevra vuln_published vuln_description vuln_references affected_installed]. intros [= -> -> -> -> _ -> ->]. do 5 (split; [done|]).
  unfold severity_of, str_eqb; generalize (to_ascii_lowercase (row_severity row)); intros text;
    assert (str "critical" ≠ str "important" /\ str "critical" ≠ str "moderate" /\ str "critical" ≠ str "low" /\ str "important" ≠ str "moderate" /\ str "important" ≠ str "low")
      as (N1 & N2 & N3 & N4 & N5) by (by vm_compute);
    revert N1 N2 N3 N4 N5; generalize (str "critical") (str "important") (str "moderate") (str "low"); intros c i m l N1 N2 N3 N4 N5;
    repeat case_bool_decide; subst; (split; split; intros; congruence).
Qed.

(** What a report says of the rows, the metadata and the inventory, with the
    comparisons made between the traces [es] and [es']. *)
Definition report_ok (installed : list InstalledIdentity) (rows : list ApplicableAdvisory) (metadata : list AdvisoryDetails) (es es' : list DnfEvent) (result : SecurityAuditResult) : Prop :=
  (forall row, row ∈ rows -> exists v, v ∈ findings result /\ finding_key v = advisory_key row) /\
  (forall name vs v, (name, vs) ∈ vulnerabilities result -> v ∈ vs -> exists row detail evr architecture from to, row ∈ rows /\ detail ∈ metadata /\ details_name detail = row_name row /\
     tells v row detail /\ names_package (advisory_nevra row) name evr architecture /\
     comparisons es from /\ comparisons to es' /\ affects installed (advisory_nevra row) (affected_installed v) from to) /\
  NoDup (map finding_key (findings result)) /\
  total_vulnerabilities result = Z.of_nat (length (findings result)) /\ high_severity result = Z.of_nat (length (List.filter grave (findings result))).

Lemma report_of by_id installed rows metadata joined affected report entries es es' :
  (forall k d, by_id !! k = Some d -> d ∈ metadata /\ details_name d = k) -> joins by_id rows joined ->
  (forall nevra packages, affected !! nevra = Some packages -> exists from to, comparisons es from /\ comparisons to es' /\ affects installed nevra packages from to) ->
  audit_result joined = Ok report -> try_map (with_all_affected affected) (vulnerabilities report) = Ok entries ->
  report_ok installed rows metadata es es' {| total_vulnerabilities := total_vulnerabilities report; high_severity := high_severity report; vulnerabilities := entries |}.
Proof.
  intros Hby (Hall & Hfrom & Hnd) Haff Hrep Hwith. destruct (audit_result_spec _ _ Hrep) as (Hperm & Hentry & Htotal & Hhigh). destruct (with_all_affected_spec _ _ _ Hwith) as [Hbare Hmem].
  assert (Hbp : map bare (entries ≫= snd) ≡ₚ map (fun p => finding_of p.1 p.2) joined).
  { rewrite Hbare, Hperm. rewrite map_map. by apply (reflexivity (R := Permutation)). }
  assert (Hkeys : map finding_key (entries ≫= snd) ≡ₚ map (advisory_key ∘ fst) joined).
  { transitivity (map finding_key (map bare (entries ≫= snd))); [by rewrite map_map|]. rewrite Hbp, map_map. done. }
  assert (Hhighs : forall l, length (List.filter is_high (map bare l)) = length (List.filter is_high l)).
  { intros l. induction l as [|v l IH]; [done|]. cbn [map List.filter]. change (is_high (bare v)) with (is_high v). destruct (is_high v); cbn [length]; congruence. }
  unfold report_ok, findings. cbn [vulnerabilities total_vulnerabilities high_severity]. split_and!.
  - intros row Hr. destruct (Hall row Hr) as (pair & Hp & Hk). assert (advisory_key row ∈ map finding_key (entries ≫= snd)) as Hin.
    { rewrite Hkeys, <- Hk. by apply (list_elem_of_fmap_2 (advisory_key ∘ fst)). } apply list_elem_of_fmap in Hin as (v & Hv & Hin). by exists v.
  - intros name vs v Hin Hv. destruct (Hmem _ _ _ Hin Hv) as (Ha & us & u & Hus & Hu & Hb). destruct (Hentry _ _ _ Hus Hu) as ([row detail] & architecture & Hp & -> & Hid). cbn [fst snd] in *.
    destruct (Hfrom _ Hp) as [Hr Hd]. apply Hby in Hd as [Hd Hn]. apply package_identity_names in Hid.
    destruct (Haff (advisory_nevra row) (affected_installed v)) as (from & to & H1 & H2 & H3); [rewrite <- Ha; f_equal; by apply (f_equal vuln_nevra) in Hb|].
    exists row, detail, (between name architecture (advisory_nevra row)), architecture, from, to. split_and!; try done; try apply Hid; [|apply H3..]. apply bare_tells. by rewrite <- Hb.
  - by rewrite Hkeys.
  - rewrite Htotal. f_equal. apply (f_equal length) in Hbare. apply Permutation_length in Hbp. rewrite !length_map in Hbp. by symmetry.
  - rewrite Hhigh. change grave with is_high. rewrite <- (Hhighs (entries ≫= snd)). f_equal. symmetry. by apply filter_length_perm.
Qed.

(** The questions of an audit, in order. *)
Definition INVENTORY : DnfEvent := Queried (str "dnf") INVENTORY_ARGS [].

Definition advisory_question (cache : rstr) (args : list rstr) : DnfEvent :=
  Queried (str "dnf") ([str "--setopt=cachedir=" ++ cache; str "--setopt=system_cachedir=" ++ cache; str "--setopt=cacheonly=none"] ++ args) [].

Definition REPOSITORIES : list rstr :=
  [str "--cacheonly"; str "--setopt=*.skip_if_unavailable=false"; str "repo"; str "info"; str "--enabled"; str "--json"].

(** The installed packages dnf answers with to the question that ends [es]. *)
Definition inventory_answer (es : list DnfEvent) (installed : list InstalledIdentity) : Prop :=
  exists out packages, query_answer h es = Some out /\ parse_versioned_packages out = Ok packages /\ installed = map installed_identity packages.

Lemma security_inventory_inv s s' installed : security_inventory h s = (s', Ok installed) ->
  events s' = events s ++ [INVENTORY] /\ inventory_answer (events s ++ [INVENTORY]) installed.
Proof.
  unfold security_inventory. intros H. apply D_bind_inv in H as [(e & _ & [=])|(s1 & out & H1 & H)]. apply query_inv in H1 as [E1 Hout].
  apply D_bind_inv in H as [(e & _ & [=])|(s2 & packages & H2 & H)]. injection H2 as <- H2. injection H as <- <-. split; [done|]. by exists out, packages.
Qed.

Lemma advisory_query_inv args s s' out : advisory_query h args s = (s', Ok out) ->
  exists cache, cache_dir h = Some cache /\ events s' = events s ++ [advisory_question cache args] /\ query_answer h (events s ++ [advisory_question cache args]) = Some out.
Proof.
  unfold advisory_query, advisory_args. intros H. apply D_bind_inv in H as [(e & _ & [=])|(s1 & full & H1 & H)].
  apply D_bind_inv in H1 as [(e & _ & [=])|(s2 & cache & H2 & H1)]. injection H2 as <- H2. injection H1 as <- <-. apply ok_or_Ok in H2. apply query_inv in H as [E Hout]. by exists cache.
Qed.

(** The three answers advisories are made of. *)
Definition advisory_answers (es : list DnfEvent) (cache : rstr) (rows : list ApplicableAdvisory) (metadata : list AdvisoryDetails) (repositories : list (rstr * bool)) : Prop :=
  let es1 := es ++ [advisory_question cache (query_args false)] in
  let es2 := es1 ++ [advisory_question cache (query_args true)] in
  let es3 := es2 ++ [advisory_question cache REPOSITORIES] in
  exists applicable details listed, query_answer h es1 = Some applicable /\ json_applicable h applicable = Some rows /\
    query_answer h es2 = Some details /\ json_details h details = Some metadata /\
    query_answer h es3 = Some listed /\ json_repositories h listed = Some repositories.

Lemma native_advisories_inv s s' joined : native_advisories h s = (s', Ok joined) ->
  exists cache rows metadata repositories, cache_dir h = Some cache /\ advisory_answers (events s) cache rows metadata repositories /\
    events s' = events s ++ [advisory_question cache (query_args false); advisory_question cache (query_args true); advisory_question cache REPOSITORIES] /\
    require_enabled_repositories repositories = Ok tt /\ join_advisories rows metadata = Ok joined.
Proof.
  unfold native_advisories. intros H2. apply D_bind_inv in H2 as [(e & _ & [=])|(t1 & a1 & Q1 & H2)]. apply D_bind_inv in H2 as [(e & _ & [=])|(t2 & a2 & Q2 & H2)]. apply D_bind_inv in H2 as [(e & _ & [=])|(t3 & a3 & Q3 & H2)].
  apply D_bind_inv in H2 as [(e & _ & [=])|(t4 & repos & Hr & H2)]. injection Hr as <- Hr. apply D_bind_inv in H2 as [(e & _ & [=])|(t5 & [] & He & H2)]. injection He as <- He.
  apply D_bind_inv in H2 as [(e & _ & [=])|(t6 & rows & Ha & H2)]. injection Ha as <- Ha. apply D_bind_inv in H2 as [(e & _ & [=])|(t7 & metadata & Hd & H2)]. injection Hd as <- Hd. injection H2 as <- Hj.
  apply ok_or_Ok in Hr, Ha, Hd. apply advisory_query_inv in Q1 as (cache & Hc & E1 & Q1), Q2 as (cache2 & Hc2 & E2 & Q2), Q3 as (cache3 & Hc3 & E3 & Q3).
  assert (cache2 = cache) as -> by congruence. assert (cache3 = cache) as -> by congruence. rewrite E1 in E2, Q2. rewrite E2 in E3, Q3.
  exists cache, rows, metadata, repos. split_and!; try done; [by exists a1, a2, a3|]. by rewrite E3, <- !app_assoc.
Qed.

(** C27: an audit that ends reports every applicable advisory exactly once,
    under the package it is about, with the metadata of that advisory and
    exactly those installed packages of its name and architecture that rpm
    says are older, at least one, and nothing else; it counts what it reports.
    The advisories, their metadata and the repositories, of which some are
    enabled, are what dnf answered to the three questions asked after the
    inventory; the inventory that dnf answers with at the end, after all
    versions were compared, is the one it answered with at the beginning. *)
Theorem audit_accounts_for_every_advisory s s' result : security_audit h s = (s', Ok result) ->
  exists cache installed after rows metadata repositories compared,
    let asked := events s ++ [INVENTORY] in
    let told := asked ++ [advisory_question cache (query_args false); advisory_question cache (query_args true); advisory_question cache REPOSITORIES] in
    cache_dir h = Some cache /\ inventory_answer asked installed /\ advisory_answers asked cache rows metadata repositories /\
    comparisons told compared /\ events s' = compared ++ [INVENTORY] /\ inventory_answer (events s') after /\ after ≡ₚ installed /\
    (exists repo, repo ∈ repositories /\ repo.2 = true) /\ report_ok installed rows metadata told compared result.
Proof.
  unfold security_audit. intros H. apply D_bind_inv in H as [(e & _ & [=])|(s1 & installed & H1 & H)]. apply D_bind_inv in H as [(e & _ & [=])|(s2 & joined & H2 & H)].
  apply D_bind_inv in H as [(e & _ & [=])|(s3 & affected & H3 & H)]. apply D_bind_inv in H as [(e & _ & [=])|(s4 & after & H4 & H)].
  apply D_bind_inv in H as [(e & _ & [=])|(s5 & [] & H5 & H)]. injection H5 as <- H5. apply ensure_Ok, bool_decide_eq_true in H5.
  apply D_bind_inv in H as [(e & _ & [=])|(s6 & report & H6 & H)]. injection H6 as <- H6. apply D_bind_inv in H as [(e & _ & [=])|(s7 & entries & H7 & H)]. injection H7 as <- H7. injection H as <- <-.
  apply security_inventory_inv in H1 as [E1 I1], H4 as [E4 I4]. apply native_advisories_inv in H2 as (cache & rows & metadata & repositories & Hc & Hans & E2 & He & Hj).
  apply all_affected_spec in H3 as [Hcmp Haff]. rewrite E1 in Hans, E2. rewrite E2 in Hcmp, Haff. unfold join_advisories in Hj. res_inv.
  exists cache, installed, after, rows, metadata, repositories, (events s3). cbn zeta. split_and!; try done; [by rewrite E4|by apply inventories_perm| |].
  - unfold require_enabled_repositories in He. cbn zeta in He. res_inv. match goal with H : existsb _ _ = true |- _ => apply existsb_exists in H as (repo & Hin & [Hb _]%andb_true_iff) end.
    exists repo. by rewrite list_elem_of_In.
  - eapply report_of; [by eapply details_by_id|by eapply join_rows_spec| |done|done]. intros nevra packages Hl. destruct (Haff nevra packages Hl) as [Hn|Hex]; [by rewrite lookup_empty in Hn|exact Hex].
Qed.
End audit.

(** * Samples *)

Definition open_env : PolicyEnv := {| is_root := true; policy_path := str "/etc/omg/policy.toml"; config_path := str "/etc/omg/config.toml"; policy_exists := false;
  open_policy := Err NotFound; open_config := Err NotFound |}.

Definition is_history (args : list rstr) : bool := match args with a :: _ => str_eqb a (str "history") | [] => false end.

Definition tool_removed : NativeTransaction := {| native_id := 8; native_comment := str "omg-7c"; native_status := str "Ok"; native_description := str "dnf remove tool";
  native_packages := [{| row_nevra := str "tool-2:1.2-3.fc44.x86_64"; row_action := str "Remove" |}; {| row_nevra := str "lib-0:1-1.noarch"; row_action := str "Reason Change" |}] |}.

(** A host on which every command succeeds; one package is installed, and has
    an advisory. *)
Definition fedora : Host := {|
  world := steady; sha256 := id; from_utf8_lossy := id; to_lowercase := id; root_user := true; program_found := fun _ => true; audit_accepts := fun _ => true;
  run_status := fun _ _ => Some true; run_elevated := fun _ _ => true;
  query_answer := fun es => match last es with
    | Some (Queried program args _) =>
        if str_eqb program (str "rpm") then Some (str "-1" ++ [10])
        else if is_history args then Some [Z.of_nat (length es)]
        else Some (str "tool" ++ 9 :: str "x86_64" ++ 9 :: str "2:1.2-3.fc44" ++ 9 :: str "fedora" ++ [10])
    | _ => None end;
  history_accepts := fun _ => true; parent_owns_history := false; fresh_uuid := fun _ => str "7c"; target_arch := str "x86_64"; cache_dir := Some (str "/var/cache/omg");
  preview_directory := fun _ => None; stored_transaction := fun _ => None;
  json_history := fun bytes => match bytes with [1] => Some [] | _ => Some [tool_removed] end; json_stored := fun _ => None;
  json_applicable := fun _ => Some [{| row_name := str "FEDORA-1"; row_kind := str "security"; row_severity := str "Important"; advisory_nevra := str "tool-2:1.3-1.fc44.x86_64" |}];
  json_details := fun _ => Some [{| details_name := str "FEDORA-1"; details_title := str "Fix"; details_severity := str "important"; details_kind := str "security";
    details_description := str "A fix"; details_references := [] |}];
  json_repositories := fun _ => Some [(str "fedora", true)] |}.

Definition new_manager : Manager := {| clock := 0%nat; installed_cache := None; events := [] |}.

Lemma history_follows_the_journal_witness :
  let run := recorded_mutation (H := sample_codecs) open_env None fedora TxRemove [str "remove"; str "-y"; str "tool"] true new_manager in
  run.2 = Ok tt /\ last (events run.1) = Some (Recorded TxRemove [dnf_change (str "tool") (Some (str "2:1.2-3.fc44")) None] true) /\
  exists before s1 operation s2 journal s3 entry, let comment := str "omg-" ++ fresh_uuid fedora (events s1) in
    native_history fedora None new_manager = (s1, Ok before) /\
    execute_dnf (H := sample_codecs) open_env None fedora [str "--comment=" ++ comment; str "remove"; str "-y"; str "tool"] s1 = (s2, operation) /\
    native_history fedora (Some (last_id before)) s2 = (s3, journal) /\
    events run.1 = events s3 ++ entry /\ entry_follows TxRemove comment operation journal entry run.2.
Proof.
  cbn zeta. split_and!; [by vm_compute..|].
  destruct (history_follows_the_journal (H := sample_codecs) open_env None fedora TxRemove [str "remove"; str "-y"; str "tool"] new_manager _ _ eq_refl (surjective_pairing _)) as [(e & _ & He)|Hok].
  - vm_compute in He. discriminate.
  - exact Hok.
Defined.

Lemma audit_accounts_for_every_advisory_witness :
  exists s result, security_audit fedora new_manager = (s, Ok result) /\ map (fun e => (e.1, length e.2)) (vulnerabilities result) = [(str "tool", 1%nat)] /\ high_severity result = 1 /\
  exists cache installed after rows metadata repositories compared,
    let asked := events new_manager ++ [INVENTORY] in
    let told := asked ++ [advisory_question cache (query_args false); advisory_question cache (query_args true); advisory_question cache REPOSITORIES] in
    cache_dir fedora = Some cache /\ inventory_answer fedora asked installed /\ advisory_answers fedora asked cache rows metadata repositories /\
    comparisons told compared /\ events s = compared ++ [INVENTORY] /\ inventory_answer fedora (events s) after /\ after ≡ₚ installed /\
    (exists repo, repo ∈ repositories /\ repo.2 = true) /\ report_ok fedora installed rows metadata told compared result.
Proof.
  destruct (security_audit fedora new_manager) as [s [result|e]] eqn:E; [|vm_compute in E; discriminate].
  exists s, result. split; [done|]. split; [|split; [|exact (audit_accounts_for_every_advisory fedora new_manager s result E)]].
  - pose proof (f_equal (fun x => match x.2 with Ok r => map (fun e => (e.1, length e.2)) (vulnerabilities r) | Err _ => [] end) E) as Hv. cbn [snd] in Hv. rewrite <- Hv. by vm_compute.
  - pose proof (f_equal (fun x => match x.2 with Ok r => high_severity r | Err _ => 0 end) E) as Hv. cbn [snd] in Hv. rewrite <- Hv. by vm_compute.
Defined.
